(* ===== verification/_CoqProject ===== *)
-Q . S2P
Prelude.v
CoordTypes.v
Placement.v
Reconfig.v
ReconfigProps.v
PlanTheorems.v
StorageTypes.v
RuntimeTypes.v
Runtime.v
CoordServer.v
RuntimeProps.v
RuntimeTheorems.v
SlotReducer.v
Journal.v
JournalShard.v
BadgerDB.v
HAStore.v
HAEngine.v
HAWorld.v
SlotOwner.v
Backend.v
Badger.v
Node.v
NodeTheorems.v
Materializer.v
SlotLifecycle.v
Recovery.v
JournalTheorems.v
BadgerProps.v
BadgerLocal.v
SlotMessages.v
SlotCommands.v
SlotProps.v
BackendProps.v
SlotTheorems.v
OwnerProps.v
OwnerTermination.v
OwnerFindings.v
SlotFailover.v
SlotCommandTheorems.v
RecoveryTheorems.v
JournalShardTheorems.v
MaterializerTheorems.v
BadgerTheorems.v
RuntimeBadger.v
RuntimeBadgerTheorems.v
HATheorems.v
Router.v
RouterTheorems.v
Chain.v
ChainTheorems.v
Wire.v
WireErrors.v
WireTheorems.v
ReplicationSession.v
ReplicationStream.v
ReplicationProps.v
ReplicationTheorems.v
Security.v
Rpc.v
RpcTheorems.v
Standalone.v
StandaloneWorld.v
StandaloneTheorems.v
StandaloneLiveness.v
