(* ===== verification/Prelude.v ===== *)
(** * CRAQ chain-replicated store: a verification development

    The repository is a key-value store replicated by chain replication with
    apportioned queries.  Keys are hashed to slots; each slot is served by a
    chain of replicas on distinct storage nodes.  Writes enter at the head, are
    forwarded down the chain, and are committed from the tail upwards; every
    replica answers reads, asking the tail when it holds uncommitted writes.  A
    coordinator places the chains, repairs and rebalances them, and tells the
    storage nodes their assignments.

    The development is a shallow embedding: definitions translated from the Go
    source, which compute, and theorems about them.

    ** The program and its model

    Coordinator, planning ([src/coordinator/coordinator.go]).  [CoordTypes] has
    the data; [Placement] normalisation, eligibility, node order and
    [BuildInitialPlacement]; [Reconfig] validation, events, the reconciliation
    passes, [PlanReconfiguration] and [ApplyProgress].  [ReconfigProps] has the
    invariant [cluster_wf] and the lemmas, [PlanTheorems] the theorems.

    Coordinator, runtime ([src/coordinator/runtime/runtime.go], [inmemory.go]).
    [RuntimeTypes] and [Runtime]: commands with a write-ahead log, checkpoints,
    replay, remembered results of commands, pending work, outbox and liveness.
    The store is the class [StoreOps] with the laws [StoreLaws]; the in-memory
    store is an instance, and so is [RuntimeBadger], the store of [badger.go].
    [RuntimeProps], [RuntimeTheorems], [RuntimeBadgerTheorems].

    Coordinator, server ([src/coordserver/]).  [CoordServer]: the reducers of
    [server_reducer.go] and what they use of [server.go] (routes, assignments,
    progress reports, recovery decisions, startup budget).  [HAStore]: leases,
    snapshots and the store interface of [hastore.go] with the in-memory store.
    [HAEngine]: the handlers of [ha.go] and [ha_engine.go] as programs, trees of
    calls to the store, the clock, the storage nodes and the server's fields.
    [HAWorld]: several servers over one store, their handlers interleaved call
    by call, with lost answers and restarts.  [HATheorems].

    Coordinator, server without HA store ([server.go], [dispatch_engine.go]).
    [Standalone]: configuration, the server's fields, and every handler, the
    outbox, peer refreshes and the passes of the dispatch engine as programs over
    the runtime.  [StandaloneWorld]: the runtime, the goroutines of the handlers
    in flight and the engine with its queue, interleaved call by call.
    [StandaloneTheorems], [StandaloneLiveness].

    Storage node, one slot ([src/storage/]).  [StorageTypes] has the data;
    [SlotReducer] the reducers of [slot_reducer.go]; [SlotOwner] the transitions
    of [slot_owner.go] for client writes, forwards, durable prepares, commit
    tokens, watermarks, reads and snapshots; [SlotLifecycle] activation, leaving,
    removal and peer updates.  [SlotProps] relates an owner to the log of
    operations it stands for; [SlotTheorems] defines the steps of an owner and
    proves its theorems; [SlotFailover] treats the loss of the successor.

    Storage node, the owner's messages ([slot_owner.go]).  [SlotMessages] has the
    whole handlers: the fields an owner keeps beside its record (accepted commits,
    waiters, commits in flight, pipelines of prepare and forward), what each
    handler starts as a list of effects, and the completions of the effects.
    [OwnerProps] shows that every handler keeps the owner's invariant and only
    adds to its log; [OwnerTermination] that the loops end; [OwnerFindings] has
    two behaviours the code does not intend.  [Chain] puts the owners of a slot in
    a row, each with the assignment the coordinator computes for it, joined by a
    network that loses, delays, repeats and reorders; [ChainTheorems].

    Storage node, the coordinator's commands ([slot_owner.go]).  [SlotCommands]
    has the commands of the coordinator whole, from adding a replica to dropping
    one, as computations over a [slot_host]: the owner, the backend (through the
    class [ReplicaBackend]), the marks and the materialiser of the journal engine,
    and the local store; a command that fails keeps what it has done.
    [SlotCommandTheorems].

    Storage node, durability ([commit_journal.go], [inmemory.go], [storage.go]).
    [Journal]: record formats, the binary and JSON files, the journal store
    interface [CommitJournalStore] with laws, in-memory and file stores.
    [JournalShard]: the loop of a journal shard, which coalesces, batches and
    answers what the owners submit; [JournalShardTheorems].
    [Backend]: the backend interface, the in-memory backend and local state;
    [Badger]: the same on the badger package ([badger/store.go]); [BackendProps],
    [BadgerTheorems].
    [Materializer]: the queue that applies committed operations to the backend.
    [Recovery]: [OpenNode]'s records, [recoverJournaledReplicaState], and the
    commands on recovered replicas.  [JournalTheorems], [MaterializerTheorems],
    [RecoveryTheorems].

    Storage node, shared fields ([node_published.go], [storage.go]).  [Node]:
    published copies with running totals, activation and catch-up admission,
    client-write validation, and the coordinator epoch check as a program.
    [NodeTheorems].

    Client ([src/client/router.go]).  [Router]: CRC-32, route lookup, reads with
    round robin and fallback, writes, refresh, as programs.  [RouterTheorems]
    composes them with the coordinator's routes and assignments.

    Transport ([src/transport/grpcx/convert.go], [errors.go]).  [Wire] and
    [WireErrors]: conversions to and from the messages of [transport.proto] and
    encoding and decoding of errors.  [WireTheorems].

    Transport, replication ([replication_session.go], [Replicate] in [server.go]).
    [ReplicationSession]: the loop of a session to a peer, with its queue,
    backlog, credits, probes, reconnections and diagnostics, as steps between the
    points where the goroutine waits.  [ReplicationStream]: the peer's end of a
    stream, with a worker per slot, over a network that may break at any time.
    [ReplicationProps], [ReplicationTheorems].

    Transport, calls ([client.go], [server.go], [security.go]).  [Security]:
    identities in certificates, planes of methods, interceptors.  [Rpc]: every
    stub and handler of both services, over the classes [StorageNodeOps] and
    [CoordinatorOps] of what they call; failover among coordinators and the
    connection pool.  [RpcTheorems].

    ** What the theorems show

    Planning: placements over a non-empty node list meet the replication contract
    and exist whenever the zones suffice; all reachable cluster states are well-formed; a plan promotes
    no replica, drops only replicas on dead nodes, keeps an active anchor, respects
    the change budget and never panics.

    Runtime: recovery rebuilds the live state after any commands, checkpoints,
    interrupted checkpoints and restarts, but for remembered results that an
    interrupted checkpoint dropped; retries return what the first call
    returned; versions, pending work and outbox agree; death is sticky.

    High availability: any number of coordinators refine a single one that
    applies one operation at a time; the stored state keeps the planner's
    invariant and a complete outbox; leases fence replaced leaders, and nodes
    refuse their commands.

    Server without HA store: a command for a node stays in the outbox until its
    node has carried it out or its slot has moved on; every goroutine that waits
    for the engine is answered.

    Slot owner: sequence numbers without gaps and materialised <= committed <=
    durable <= staged; the committed state is the committed prefix of the log;
    linearizable reads return the state the tail reports; commits are exact and
    never undone; write conditions are decided by the committed object; joining
    from the predecessor and losing the successor keep all of this; the loops that
    drain messages and advance commits end.

    Commands: one that could not add a replica leaves nothing behind, on any
    backend that satisfies [ReplicaLaws] and may refuse calls, but for a replica
    whose deletion it refuses; on the in-memory backend a replica that joins ends
    with its predecessor's committed history, and in any order of commands and
    failures of the local store a replica in service has its data in the backend
    and its commits are materialised.

    Chain: in every run of a chain that keeps its members and whose replicas do
    not restart, the replicas' logs are prefixes of each other
    and their committed prefixes grow towards the tail; an acknowledged write is
    committed and journalled on every replica; a linearizable read at any replica
    returns a state between the tail's at its start and the tail's at its end.

    Durability: a journal shard answers each intent whose context is not cancelled
    once, in order and without error only when its record is written; journal
    files round-trip through crashes, the binary one but for times outside [int64]
    nanoseconds, which recovery does not look at; the badger stores answer as the
    in-memory ones do, except that a batch they refuse leaves nothing; the
    materialiser brings the backend to the committed state whatever partial
    failures it meets; a restart in the same chain version, after a run in which
    no append failed, brings back every committed write.

    Client and transport: routes agree with assignments, also those served from a
    fallback chain; a write is not sent again to a node that may have taken it;
    reads are bounded; messages and errors arrive as they were sent if they fit
    and hold no gRPC status; a call through the transport is the direct call; only
    the peers the planes name get through, and requests that name no node; failover
    asks in turn; a session loses no request, and what it reports as done its peer
    has done, unless the refusal could not be encoded.

    Some theorems show what the code does not do; each says so in its comment:
    [spec_invariants_not_kept], [BuildInitialPlacement_starvation],
    [batched_failures_one_pending], [pipelined_creates_both_accepted],
    [duplicate_rolls_back], [version_change_drops_committed],
    [resume_skips_overlay], [binary_torn_tail_hides_appends],
    [status_hides_dependency], [persisted_epoch_regresses],
    [stale_forward_committed], [pipelined_commits_enter_gap],
    [failed_append_loses_committed_write], [canceled_prepare_reported_durable],
    [flush_leaves_work_without_timer], [blocked_request_waits],
    [unencodable_refusal_succeeds], [spool_depth_drifts],
    [unavailable_coordinator_stops], [bootstrap_policy_lost],
    [unnamed_sender_accepted], [concurrent_refresh_lost],
    [configured_policy_forgotten], [join_misses_acknowledged_write],
    [failed_update_not_repeated], [failed_removal_stuck],
    [failed_sync_closes_slot], [failed_drop_resumed], [torn_batch_visible].

    ** Conventions

    An [int] or [uint64] is a [Z].  Additions on [uint64] wrap ([u64_add]) where
    they are made; theorems on sequence numbers, versions and epochs assume room
    below 2^64 and say so.  [int] counters bounded by the number of items in
    memory do not overflow and are not wrapped.  Conversions to [int32] and Unix
    nanoseconds are written out ([i32], [UnixNano]).  Times are nanoseconds since
    year 1, the zero [time.Time].

    Maps are [gmap]s; a nil map is an empty one.  Where Go ranges over a map, the
    result does not depend on the order, the source sorts it, or the theorem
    holds for every order.  Clones are identities: values are immutable here, and
    the source clones where it hands out what it keeps.

    A fallible function returns [res E A]; a panic is an error value.  A function
    that makes calls whose answers others can change in between is a [program];
    it is run by an [answer] relation, so other handlers may act between any two
    calls.  Code held under one lock is one step.

    ** Fuel

    [drain_tokens] has one more than the number of buffered commits as fuel and
    removes one in each round.  [applyCommits], [commits_from] and [rebuild_overlay] count the
    sequence numbers their loops visit.  [commit_contiguous] has one more than the
    number of prepared entries and moves to another one in each round.
    [replay_binary] and [replay_json] have one more than the length of the file,
    of which a record takes at least one byte.  [repairLoop] has the replication
    factor, since a round adds a replica and stops at that many.  The loops over
    attempts and passes (8, 64 in [waitForReplicaCreationReplay], and
    [runtimeVersionRetryLimit] = 1024) are bounded in the source.  [drain_rounds] and
    [advance_rounds] have one or two more than the operations durable and not yet
    committed; what they do when it is used up is an argument, [cut], and
    [drain_fuel_enough] shows that the result does not depend on it, so that it is
    never used up.  [pop_rounds] has one more than the number of pending prepares, of which a round takes at least one.
    [next_passes] has one more than the backlog, of which a further pass has
    removed a request.  The theorems are about the functions with this fuel; none
    assumes that it suffices.

    ** Not modelled

    The mailbox of a slot owner, its goroutines and contexts: the owner's steps
    are those of the handlers and completions, in any order.  The handlers that
    nothing calls ([handleBufferedCommitRequest], [applyCommit],
    [startCommitEffect] and what only they use) and the commit engine without
    journal, which nothing constructs.  How long a shard waits before it flushes.
    The node's layer that puts requests and commands into the mailboxes and waits
    for the answers: a command of [SlotCommands] is what the mailbox runs.

    Of a coordinator without HA store: shutdown; the branches for a server
    without dispatch engine, which [OpenWithConfig] never makes; the workers that
    share a batch, which act one after the other.  Timeouts are answers of the
    contexts and of the storage nodes.

    Badger, Postgres, protobuf's byte encoding, gRPC, [encoding/json] and xxhash
    are other packages: they appear as interfaces with laws or as arguments.
    [src/consistenthash] is not used by the rest.  Tests, metrics, tracing,
    logging, admin HTTP, configuration, the benchmark harness and the programs under
    [src/cmd] are I/O. *)

From stdpp Require Export base gmap strings list fin_maps sets numbers pretty sorting.
From Stdlib Require Export Lia.
From Corelib Require Export ssreflect.

#[global] Open Scope general_if_scope.

(** ** Results

    A Go function returning [(T, error)] is a [res E T].  A run-time panic
    (index out of range, nil map write) is an ordinary error constructor of
    the component's error type, so that "never panics" is a theorem. *)
Inductive res (E A : Type) : Type :=
| Ok (a : A)
| Err (e : E).
Arguments Ok {E A} a.
Arguments Err {E A} e.

#[export] Instance res_ret {E} : MRet (res E) := fun A => @Ok E A.
#[export] Instance res_bind {E} : MBind (res E) :=
  fun A B k m => match m with Ok a => k a | Err e => Err e end.
#[export] Instance res_fmap {E} : FMap (res E) :=
  fun A B f m => match m with Ok a => Ok (f a) | Err e => Err e end.
#[export] Instance res_eq_dec {E A} `{EqDecision E, EqDecision A} : EqDecision (res E A).
Proof. solve_decision. Defined.

(** [if err := guard; err != nil { return err }]. *)
Definition reject {E} (b : bool) (e : E) : res E unit :=
  if b then Err e else Ok tt.

(** The value of a result, for concrete inputs. *)
Definition ok_or {E A} (d : A) (r : res E A) : A :=
  match r with Ok a => a | Err _ => d end.
Definition is_ok {E A} (r : res E A) : bool := match r with Ok _ => true | Err _ => false end.

(** A loop over a slice whose body may fail: the first error stops it. *)
Fixpoint res_fold {E S A} (f : S -> A -> res E S) (s : S) (l : list A) : res E S :=
  match l with
  | [] => Ok s
  | a :: l' => s' ← f s a; res_fold f s' l'
  end.

(** [res_sat Q X r]: if [r] succeeds its value satisfies [Q], if it fails its
    error satisfies [X].  The Hoare triples of the development. *)
Definition res_sat {E A} (Q : A -> Prop) (X : E -> Prop) (r : res E A) : Prop :=
  match r with Ok a => Q a | Err e => X e end.

(** ** Record updates

    [r <| f := v |>] is [r] with field [f] replaced.  A record takes part by
    declaring the function that rebuilds it from its fields. *)
Class Rebuild (R : Type) := rebuild : R -> R.
Class Setter {R E : Type} (getter : R -> E) := set_field : E -> R -> R.

Ltac derive_setter R E getter :=
  let inst := constr:(_ : Rebuild R) in
  let body := eval red in inst in
  lazymatch eval pattern getter in body with
  | ?f _ => let s := eval cbv beta in (fun (v : E) (r : R) => f (fun _ => v) r) in exact s
  end.
#[export] Hint Extern 1 (@Setter ?R ?E ?getter) => derive_setter R E getter : typeclass_instances.

Declare Scope record_scope.
Notation "r <| f := v |>" := (set_field (getter := f) v r)
  (at level 1, left associativity, v at level 99, format "r  <| f  :=  v |>") : record_scope.

(** ** Programs

    Code that interleaves with its environment: a tree of calls [C X], each
    answered by an [X] that chooses the rest.  [x <~ m; k] stops at the first
    error. *)
Inductive program (C : Type -> Type) (A : Type) : Type :=
| Done (a : A)
| Call {X : Type} (c : C X) (k : X -> program C A).
Arguments Done {C A} a.
Arguments Call {C A X} c k.

Fixpoint program_bind {C A B} (f : A -> program C B) (m : program C A) : program C B :=
  match m with Done a => f a | Call c k => Call c (fun x => program_bind f (k x)) end.

#[export] Instance program_ret C : MRet (program C) := fun A => @Done C A.
#[export] Instance program_mbind C : MBind (program C) := fun A B f m => program_bind f m.

Definition call {C X} (c : C X) : program C X := Call c Done.

Definition succeed {C E A} (a : A) : program C (res E A) := Done (Ok a).
Definition fail_with {C E A} (e : E) : program C (res E A) := Done (Err e).
Definition lift {C E A} (r : res E A) : program C (res E A) := Done r.
Definition and_then {C E A B} (m : program C (res E A)) (k : A -> program C (res E B)) : program C (res E B) :=
  m ≫= fun r => match r with Ok a => k a | Err e => Done (Err e) end.
Notation "x '<~' m ; k" := (and_then m (fun x => k)) (at level 20, m at level 100, k at level 200, only parsing).
Notation "' x '<~' m ; k" := (and_then m (fun x => k)) (at level 20, x pattern, m at level 100, k at level 200, only parsing).

(** ** Machine integers

    Go's [uint64] is [Z] kept in [0, 2^64) by wrapping every arithmetic result. *)
Definition u64_mod : Z := 2 ^ 64.
Definition u64 (z : Z) : Z := z mod u64_mod.
Definition u64_add (a b : Z) : Z := u64 (a + b).
Definition u64_sub (a b : Z) : Z := u64 (a - b).

(** Go's [int64] wraps into [-2^63, 2^63). *)
Definition i64 (z : Z) : Z := (z + 2 ^ 63) mod 2 ^ 64 - 2 ^ 63.

(** ** Go slices indexed by [int]: a negative index is out of range. *)
Definition zidx {A} (l : list A) (i : Z) : option A :=
  if decide (0 <= i)%Z then l !! Z.to_nat i else None.

(** [for i := 0; i < n; i++]. *)
Definition zrange (n : Z) : list Z := Z.of_nat <$> seq 0 (Z.to_nat n).

(** Reading a missing key of a Go [map[K]bool] yields [false]. *)
Definition mget {K} `{Countable K} (m : gmap K bool) (k : K) : bool :=
  default false (m !! k).

(** [for k, v := range m { cloned[k] = v }] into a fresh map.  Go leaves the
    iteration order open; the result does not depend on it ([clone_map_id]). *)
Definition clone_map {K V} `{Countable K} (m : gmap K V) : gmap K V :=
  foldl (fun cloned '(k, v) => <[k := v]> cloned) ∅ (map_to_list m).

(** ** Sorting

    [sort.Strings], [sort.Ints] and [sort.Slice] under a total order on
    distinct keys have one possible result; insertion sort computes it. *)
Section insertion_sort.
Context {A : Type} (leb : A -> A -> bool).

Fixpoint sort_insert (x : A) (l : list A) : list A :=
  match l with
  | [] => [x]
  | y :: l' => if leb x y then x :: y :: l' else y :: sort_insert x l'
  end.

Fixpoint isort (l : list A) : list A :=
  match l with
  | [] => []
  | x :: l' => sort_insert x (isort l')
  end.
End insertion_sort.

(** [strings.Compare] and [<] on Go strings: bytewise lexicographic. *)
Definition strings_Compare (a b : string) : comparison := String.compare a b.
Definition string_leb (a b : string) : bool :=
  match strings_Compare a b with Gt => false | _ => true end.
Definition sort_Strings (l : list string) : list string := isort string_leb l.

(** ** [strings.TrimSpace]

    The UTF-8 encodings of the runes for which [unicode.IsSpace] holds. *)
Definition byte_string (l : list nat) : string :=
  foldr (fun b s => String (Ascii.ascii_of_nat b) s) EmptyString l.

Definition space_encodings : list string :=
  byte_string <$>
    [[9]; [10]; [11]; [12]; [13]; [32];
     [194; 133]; [194; 160]; [225; 154; 128];
     [226; 128; 128]; [226; 128; 129]; [226; 128; 130]; [226; 128; 131];
     [226; 128; 132]; [226; 128; 133]; [226; 128; 134]; [226; 128; 135];
     [226; 128; 136]; [226; 128; 137]; [226; 128; 138];
     [226; 128; 168]; [226; 128; 169]; [226; 128; 175];
     [226; 129; 159]; [227; 128; 128]].

Definition leading_space (s : string) : option nat :=
  String.length <$> List.find (fun e => String.prefix e s) space_encodings.

Fixpoint trim_left_fuel (fuel : nat) (s : string) : string :=
  match fuel with
  | 0 => s
  | S fuel' =>
      match leading_space s with
      | Some n => trim_left_fuel fuel' (String.substring n (String.length s - n) s)
      | None => s
      end
  end.

Definition trim_left (s : string) : string := trim_left_fuel (String.length s) s.

Definition trailing_space (s : string) : option nat :=
  String.length <$> List.find
    (fun e => bool_decide (String.length e <= String.length s) &&
              String.eqb (String.substring (String.length s - String.length e) (String.length e) s) e)
    space_encodings.

Fixpoint trim_right_fuel (fuel : nat) (s : string) : string :=
  match fuel with
  | 0 => s
  | S fuel' =>
      match trailing_space s with
      | Some n => trim_right_fuel fuel' (String.substring 0 (String.length s - n) s)
      | None => s
      end
  end.

Definition trim_right (s : string) : string := trim_right_fuel (String.length s) s.

Definition strings_TrimSpace (s : string) : string := trim_right (trim_left s).

(** ** Automation *)
Create HintDb craq.

(** Case-split the innermost scrutinee of the goal. *)
Ltac split_match :=
  match goal with
  | |- context [match ?x with _ => _ end] =>
      lazymatch x with
      | context [match _ with _ => _ end] => fail
      | _ => destruct x eqn:?
      end
  end.

(** Turn boolean tests of the code into propositions. *)
Ltac unbool :=
  repeat match goal with
  | H : (_ && _) = true |- _ => apply andb_true_iff in H as [? ?]
  | H : (_ || _) = false |- _ => apply orb_false_iff in H as [? ?]
  | H : negb _ = true |- _ => apply negb_true_iff in H
  | H : negb _ = false |- _ => apply negb_false_iff in H
  | H : bool_decide _ = true |- _ => apply bool_decide_eq_true_1 in H
  | H : bool_decide _ = false |- _ => apply bool_decide_eq_false_1 in H
  end.

(** ** Results *)
Lemma bind_Ok {E A B} (m : res E A) (k : A -> res E B) b :
  m ≫= k = Ok b <-> exists a, m = Ok a /\ k a = Ok b.
Proof. destruct m; cbn; split; [eauto| |done|]; by intros (? & [= ->] & ?). Qed.

Lemma fmap_Ok {E A B} (m : res E A) (f : A -> B) b :
  f <$> m = Ok b <-> exists a, m = Ok a /\ b = f a.
Proof. destruct m; cbn; split; [by intros [= <-]; eauto| |done|]; by intros (? & [= ->] & ->). Qed.

Lemma reject_Ok {E} b (e : E) u : reject b e = Ok u <-> b = false /\ u = tt.
Proof. destruct b, u; cbn; split; by [|intros []]. Qed.

Lemma res_sat_Ok {E A} (Q : A -> Prop) (X : E -> Prop) r a :
  res_sat Q X r -> r = Ok a -> Q a.
Proof. by intros H ->. Qed.

Lemma res_sat_Err {E A} (Q : A -> Prop) (X : E -> Prop) r e :
  res_sat Q X r -> r = Err e -> X e.
Proof. by intros H ->. Qed.

Lemma res_sat_mono {E A} (Q Q' : A -> Prop) (X X' : E -> Prop) r :
  res_sat Q X r -> (forall a, Q a -> Q' a) -> (forall e, X e -> X' e) -> res_sat Q' X' r.
Proof. destruct r; cbn; auto. Qed.

Lemma res_sat_and {E A} (Q Q' : A -> Prop) (X X' : E -> Prop) r :
  res_sat Q X r -> res_sat Q' X' r ->
  res_sat (fun a => Q a /\ Q' a) (fun e => X e /\ X' e) r.
Proof. destruct r; cbn; auto. Qed.

Lemma res_sat_bind {E A B} (Q : B -> Prop) (Q' : A -> Prop) (X : E -> Prop)
    (m : res E A) (k : A -> res E B) :
  res_sat Q' X m -> (forall a, m = Ok a -> Q' a -> res_sat Q X (k a)) ->
  res_sat Q X (m ≫= k).
Proof. destruct m; cbn; auto. Qed.

Lemma res_sat_reject {E} (Q : unit -> Prop) (X : E -> Prop) b e :
  (b = true -> X e) -> (b = false -> Q tt) -> res_sat Q X (reject b e).
Proof. destruct b; cbn; auto. Qed.

(** Step over a guard whose error the postcondition accepts. *)
Ltac skip_guard :=
  eapply res_sat_bind; [by apply (res_sat_reject (fun _ => True))|intros [] _ _].

(** The loop rule: an invariant kept by every iteration holds at the end. *)
Lemma res_fold_sat {E S A} (I : S -> Prop) (X : E -> Prop) f (l : list A) s :
  I s -> (forall s a, a ∈ l -> I s -> res_sat I X (f s a)) ->
  res_sat I X (res_fold f s l).
Proof.
  revert s. induction l as [|a l IH]; intros s Hs Hf; cbn; [done|].
  eapply res_sat_bind; [apply Hf; [set_solver|done]|].
  intros s' _ Hs'. apply IH; [done|]. intros; apply Hf; set_solver.
Qed.

(** The loop rule whose invariant also sees the elements already processed. *)
Lemma res_fold_sat_prefix {E S A} (I : list A -> S -> Prop) (X : E -> Prop) f (l : list A) s :
  I [] s ->
  (forall l1 a l2 s, l = l1 ++ a :: l2 -> I l1 s -> res_sat (I (l1 ++ [a])) X (f s a)) ->
  res_sat (I l) X (res_fold f s l).
Proof.
  intros Hs Hf.
  enough (forall l2 l1 s, l = l1 ++ l2 -> I l1 s -> res_sat (I l) X (res_fold f s l2)) as H
    by (by apply (H l [])).
  clear s Hs. intros l2. induction l2 as [|a l2 IH]; intros l1 s Hl Hs; cbn.
  { by rw Hl app_nil_r. }
  eapply res_sat_bind; [by apply (Hf l1 a l2 s)|]. intros s' _ Hs'.
  apply (IH (l1 ++ [a])); [by rw -app_assoc|done].
Qed.

Lemma res_fold_app {E S A} (f : S -> A -> res E S) l1 l2 s :
  res_fold f s (l1 ++ l2) = res_fold f s l1 ≫= fun s' => res_fold f s' l2.
Proof.
  revert s. induction l1 as [|a l1 IH]; intros s; cbn; [done|].
  destruct (f s a); cbn; auto.
Qed.

(** ** Machine integers *)
Lemma u64_small z : (0 <= z < u64_mod)%Z -> u64 z = z.
Proof. apply Z.mod_small. Qed.

Lemma u64_bound z : (0 <= u64 z < u64_mod)%Z.
Proof. apply Z.mod_pos_bound. done. Qed.

Lemma u64_add_small a b : (0 <= a + b < u64_mod)%Z -> u64_add a b = (a + b)%Z.
Proof. apply u64_small. Qed.

(** ** Slices *)
Lemma zidx_Some {A} (l : list A) i x :
  zidx l i = Some x <-> (0 <= i)%Z /\ l !! Z.to_nat i = Some x.
Proof. unfold zidx. case_decide; naive_solver. Qed.

Lemma zidx_is_Some {A} (l : list A) i :
  (0 <= i < Z.of_nat (length l))%Z -> is_Some (zidx l i).
Proof.
  intros Hi. unfold zidx. case_decide; [|lia].
  apply lookup_lt_is_Some. lia.
Qed.

Lemma elem_of_zrange n i : i ∈ zrange n <-> (0 <= i < n)%Z.
Proof.
  unfold zrange. rw list_elem_of_fmap. setoid_rewrite elem_of_seq.
  split; [intros (k & -> & ?); lia|]. intros. exists (Z.to_nat i). lia.
Qed.

Lemma NoDup_zrange n : NoDup (zrange n).
Proof. apply (NoDup_fmap_2 Z.of_nat), NoDup_seq. Qed.

Lemma length_zrange n : length (zrange n) = Z.to_nat n.
Proof. unfold zrange. by rw length_fmap length_seq. Qed.

Lemma zrange_split n l1 a l2 :
  zrange n = l1 ++ a :: l2 -> a = Z.of_nat (length l1).
Proof.
  intros Heq.
  assert (zrange n !! length l1 = Some a) as Hl
    by (by rw Heq lookup_app_r // Nat.sub_diag).
  unfold zrange in Hl. rw list_lookup_fmap in Hl.
  destruct (seq 0 (Z.to_nat n) !! length l1) as [k|] eqn:Hk; [|done].
  apply lookup_seq in Hk as [-> _]. cbn in Hl. congruence.
Qed.

Lemma foldl_insert_lookup {K V} `{Countable K} (l : list (K * V)) k v :
  NoDup l.*1 ->
  foldl (fun (m : gmap K V) '(k, v) => <[k := v]> m) ∅ l !! k = Some v <-> (k, v) ∈ l.
Proof.
  induction l as [|[k' v'] l IH] using rev_ind; cbn; intros Hnd.
  { rw lookup_empty elem_of_nil. done. }
  rw fmap_app in Hnd. apply NoDup_app in Hnd as (Hnd & Hk & _).
  rw foldl_app elem_of_app list_elem_of_singleton. cbn.
  destruct (decide (k = k')) as [->|Hne].
  - rw lookup_insert_eq. split; [by intros [= ->]; right|].
    intros [Hin|[= ->]]; [|done]. exfalso. apply (Hk k'); [|set_solver].
    by apply (list_elem_of_fmap_2 fst _ (k', v)).
  - rw lookup_insert_ne; [congruence|]. transitivity ((k, v) ∈ l); [by apply IH|]. naive_solver.
Qed.

Lemma clone_map_id {K V} `{Countable K} (m : gmap K V) : clone_map m = m.
Proof.
  apply map_eq. intros k. apply option_eq. intros v. unfold clone_map.
  rw foldl_insert_lookup; [apply NoDup_fst_map_to_list|]. apply elem_of_map_to_list.
Qed.

(** A loop of guards in front of a pure update. *)
Lemma res_fold_guarded {E S A} (p : A -> bool) (e : E) (g : S -> A -> S) l s :
  res_fold (fun s a => _ ← reject (p a) e; Ok (g s a)) s l =
  if existsb p l then Err e else Ok (foldl g s l).
Proof.
  revert s. induction l as [|a l IH]; intros s; cbn; [done|].
  unfold reject. destruct (p a); cbn; [done|]. apply IH.
Qed.

Lemma res_fold_ext {E S A} (f g : S -> A -> res E S) l s :
  (forall s a, f s a = g s a) -> res_fold f s l = res_fold g s l.
Proof.
  intros Hfg. revert s. induction l as [|a l IH]; intros s; cbn; [done|].
  rw Hfg. destruct (g s a); cbn; auto.
Qed.

Lemma rotate_perm {A} n (l : list A) : drop n l ++ take n l ≡ₚ l.
Proof. by rw (Permutation_app_comm (drop n l)) take_drop. Qed.

Lemma size_list_to_set_le {A} `{Countable A} (l : list A) :
  size (list_to_set l : gset A) <= length l.
Proof.
  induction l as [|x l IH]; cbn; [by rw size_empty|].
  rw size_union_alt size_singleton.
  pose proof (subseteq_size (list_to_set l ∖ {[x]}) (list_to_set l : gset A) ltac:(set_solver)). lia.
Qed.

(** ** Sorting *)
Section sort_facts.
Context {A : Type} (leb : A -> A -> bool).

Lemma sort_insert_perm x l : sort_insert leb x l ≡ₚ x :: l.
Proof.
  induction l as [|y l IH]; cbn; [done|]. destruct (leb x y); [done|].
  rw IH. apply Permutation_swap.
Qed.

Lemma isort_perm l : isort leb l ≡ₚ l.
Proof. induction l as [|x l IH]; cbn; [done|]. by rw sort_insert_perm IH. Qed.

Lemma elem_of_isort x l : x ∈ isort leb l <-> x ∈ l.
Proof. by rw isort_perm. Qed.

Lemma length_isort l : length (isort leb l) = length l.
Proof. by rw isort_perm. Qed.

Lemma NoDup_isort l : NoDup (isort leb l) <-> NoDup l.
Proof. by rw isort_perm. Qed.

Hypothesis leb_total : forall x y, leb x y = false -> leb y x = true.
Hypothesis leb_trans : forall x y z, leb x y = true -> leb y z = true -> leb x z = true.

Lemma sort_insert_sorted x l :
  StronglySorted (fun a b => leb a b = true) l ->
  StronglySorted (fun a b => leb a b = true) (sort_insert leb x l).
Proof.
  induction 1 as [|y l Hl IH Hy]; cbn; [by repeat constructor|].
  destruct (leb x y) eqn:Hxy.
  - constructor; [by constructor|]. constructor; [done|].
    eapply Forall_impl; [exact Hy|]. cbn. eauto.
  - constructor; [done|]. rw sort_insert_perm. constructor; auto.
Qed.

Lemma isort_sorted l : StronglySorted (fun a b => leb a b = true) (isort leb l).
Proof. induction l; cbn; [constructor|]. by apply sort_insert_sorted. Qed.

(** Sorted lists with the same members are the same, where the order tells the
    members apart. *)
Lemma sorted_same l l' :
  (forall a b, a ∈ l -> b ∈ l -> leb a b = true -> leb b a = true -> a = b) -> l ≡ₚ l' ->
  StronglySorted (fun a b => leb a b = true) l -> StronglySorted (fun a b => leb a b = true) l' -> l = l'.
Proof.
  revert l'. induction l as [|a l IH]; intros l' Hanti Hp S1 S2.
  { by apply Permutation_nil in Hp as ->. }
  destruct l' as [|b l']; [by apply Permutation_sym, Permutation_nil_cons in Hp|].
  inversion S1 as [|? ? S1' F1]; inversion S2 as [|? ? S2' F2]; subst. rw Forall_forall in F1. rw Forall_forall in F2.
  assert (a = b) as ->.
  { assert (a ∈ b :: l') as Hin by (rw -Hp; by left). assert (b ∈ a :: l) as Hin' by (rw Hp; by left).
    pose proof Hin' as Hb. apply elem_of_cons in Hin as [->|Hin]; [done|]. apply elem_of_cons in Hin' as [->|Hin']; [done|].
    apply Hanti; [by left|done|by apply F1|by apply F2]. }
  f_equal. apply IH; [|by apply Permutation_cons_inv in Hp|done..]. intros x y Hx Hy. apply Hanti; by right.
Qed.
End sort_facts.

Lemma ascii_compare_spec a b :
  Ascii.compare a b = Nat.compare (Ascii.nat_of_ascii a) (Ascii.nat_of_ascii b).
Proof.
  unfold Ascii.compare, Ascii.nat_of_ascii. apply N2Nat.inj_compare.
Qed.

Lemma string_compare_trans a b c r :
  strings_Compare a b = r -> strings_Compare b c = r -> strings_Compare a c = r.
Proof.
  unfold strings_Compare. intros Hab Hbc. destruct r.
  - by apply String.compare_eq_iff in Hab as ->.
  - revert b c Hab Hbc.
    induction a as [|x a IH]; intros [|y b] [|z c]; cbn; try done.
    rw !ascii_compare_spec.
    destruct (Nat.compare_spec (Ascii.nat_of_ascii x) (Ascii.nat_of_ascii y));
    destruct (Nat.compare_spec (Ascii.nat_of_ascii y) (Ascii.nat_of_ascii z));
    destruct (Nat.compare_spec (Ascii.nat_of_ascii x) (Ascii.nat_of_ascii z));
      try done; try lia. eauto.
  - revert b c Hab Hbc.
    induction a as [|x a IH]; intros [|y b] [|z c]; cbn; try done.
    rw !ascii_compare_spec.
    destruct (Nat.compare_spec (Ascii.nat_of_ascii x) (Ascii.nat_of_ascii y));
    destruct (Nat.compare_spec (Ascii.nat_of_ascii y) (Ascii.nat_of_ascii z));
    destruct (Nat.compare_spec (Ascii.nat_of_ascii x) (Ascii.nat_of_ascii z));
      try done; try lia. eauto.
Qed.

Lemma strings_Compare_refl a : strings_Compare a a = Eq.
Proof.
  unfold strings_Compare. induction a as [|x a IH]; cbn; [done|].
  rw ascii_compare_spec Nat.compare_refl. done.
Qed.

Lemma strings_Compare_flip a b : strings_Compare a b = CompOpp (strings_Compare b a).
Proof. apply String.compare_antisym. Qed.

Lemma strings_Compare_Eq a b : strings_Compare a b = Eq -> a = b.
Proof. apply String.compare_eq_iff. Qed.

Lemma string_leb_total x y : string_leb x y = false -> string_leb y x = true.
Proof.
  unfold string_leb. rw (strings_Compare_flip y x).
  by destruct (strings_Compare x y).
Qed.

Lemma string_leb_trans x y z :
  string_leb x y = true -> string_leb y z = true -> string_leb x z = true.
Proof.
  unfold string_leb.
  destruct (strings_Compare x y) eqn:Hxy, (strings_Compare y z) eqn:Hyz; try done; intros _ _.
  - by rw (string_compare_trans _ _ _ _ Hxy Hyz).
  - apply strings_Compare_Eq in Hxy as ->. by rw Hyz.
  - apply strings_Compare_Eq in Hyz as ->. by rw Hxy.
  - by rw (string_compare_trans _ _ _ _ Hxy Hyz).
Qed.

#[export] Instance string_leb_antisymm : AntiSymm eq (fun x y => string_leb x y = true).
Proof.
  intros x y. unfold string_leb. rw (strings_Compare_flip y x).
  destruct (strings_Compare x y) eqn:H; cbn; try done. intros _ _. by apply strings_Compare_Eq.
Qed.

Lemma sort_Strings_perm l l' : l ≡ₚ l' -> sort_Strings l = sort_Strings l'.
Proof.
  intros Hp. apply (StronglySorted_unique (fun x y => string_leb x y = true)).
  1, 2: apply isort_sorted; [apply string_leb_total|apply string_leb_trans].
  unfold sort_Strings. by rw !isort_perm.
Qed.

Lemma NoDup_incl_perm {A} (l k : list A) :
  NoDup l -> (forall x, x ∈ l -> x ∈ k) -> length l = length k -> l ≡ₚ k.
Proof. intros Hl Hsub Hlen. apply submseteq_length_Permutation; [by apply NoDup_submseteq|lia]. Qed.

Lemma ok_or_Ok {E A} (d : A) (r : res E A) : is_ok r = true -> r = Ok (ok_or d r).
Proof. by destruct r. Qed.
