(* ===== verification/CoordTypes.v ===== *)
(** * The coordinator's data model (src/coordinator/coordinator.go)

    Structs are records whose fields carry the struct's name as prefix, string
    enumerations are inductive types, Go maps are [gmap]s.  Go slices are
    lists: every slice the package stores is freshly built or cloned
    ([cloneChain], [cloneAndValidateState]), so no two values share a backing
    array that is written later. *)

From S2P Require Import Prelude.

(** The sentinel errors of the package.  Messages are not modelled, the fields
    of [PlacementError] are.  [GoPanic] is a Go run-time panic. *)
Inductive coord_error : Type :=
| ErrInvalidConfig
| ErrInvalidNode
| ErrInvalidEvent
| ErrIllegalStateTransition
| PlacementError (Slot ReplicaPosition : Z)
| ErrBrokenChain
| GoPanic.

#[export] Instance coord_error_eq_dec : EqDecision coord_error.
Proof. solve_decision. Defined.

(** [errors.Is(err, ErrPlacementImpossible)], through [PlacementError.Is]. *)
Definition is_ErrPlacementImpossible (e : coord_error) : bool :=
  match e with PlacementError _ _ => true | _ => false end.

Definition DefaultSlotCount : Z := 4096.

Record Config := {
  config_SlotCount : Z;
  config_ReplicationFactor : Z;
}.

Record Node := {
  node_ID : string;
  node_RPCAddress : string;
  node_FailureDomains : gmap string string;
}.

Definition zeroNode : Node :=
  {| node_ID := ""; node_RPCAddress := ""; node_FailureDomains := ∅ |}.

Inductive ReplicaState := ReplicaStateJoining | ReplicaStateActive | ReplicaStateLeaving.

Record Replica := {
  replica_NodeID : string;
  replica_State : ReplicaState;
}.

Record Chain := {
  chain_Slot : Z;
  chain_Replicas : list Replica;
}.

Inductive NodeHealth := NodeHealthAlive | NodeHealthDead.

Record ClusterState := {
  cs_Chains : list Chain;
  cs_NodesByID : gmap string Node;
  cs_NodeHealthByID : gmap string NodeHealth;
  cs_ReadyNodeIDs : gmap string bool;
  cs_DrainingNodeIDs : gmap string bool;
  cs_NodeOrder : list string;
  cs_SlotCount : Z;
  cs_ReplicationFactor : Z;
}.

(** Any string is an [EventKind]: the ones without a constant of their own
    reach the [default] branches of the switches. *)
Inductive EventKind :=
| EventKindRegisterNode
| EventKindAddNode
| EventKindBeginDrainNode
| EventKindMarkNodeDead
| EventKindReplicaBecameActive
| EventKindReplicaRemoved
| EventKindUnsupported (kind : string).

Record Event := {
  event_Kind : EventKind;
  event_Node : Node;
  event_NodeID : string;
  event_Slot : Z;
}.

Record ReconfigurationPolicy := {
  policy_MaxChangedChains : Z;
}.

Inductive StepKind := StepKindAppendTail | StepKindMarkLeaving.

Record ReconfigurationStep := {
  step_Kind : StepKind;
  step_Slot : Z;
  step_NodeID : string;
  step_ReplacedNodeID : string;
}.

Record SlotPlan := {
  plan_Slot : Z;
  plan_Before : Chain;
  plan_After : Chain;
  plan_Steps : list ReconfigurationStep;
}.

Record ReconfigurationPlan := {
  rp_UpdatedState : ClusterState;
  rp_UnassignedNodeIDs : list string;
  rp_ChangedSlots : list SlotPlan;
}.

Record assignmentCounts := {
  headCount : Z;
  tailCount : Z;
  replicaCount : Z;
}.

Definition zeroCounts : assignmentCounts :=
  {| headCount := 0; tailCount := 0; replicaCount := 0 |}.

(** ** Decidable equality *)
#[export] Instance Config_eq_dec : EqDecision Config.
Proof. solve_decision. Defined.
#[export] Instance Node_eq_dec : EqDecision Node.
Proof. solve_decision. Defined.
#[export] Instance ReplicaState_eq_dec : EqDecision ReplicaState.
Proof. solve_decision. Defined.
#[export] Instance Replica_eq_dec : EqDecision Replica.
Proof. solve_decision. Defined.
#[export] Instance Chain_eq_dec : EqDecision Chain.
Proof. solve_decision. Defined.
#[export] Instance NodeHealth_eq_dec : EqDecision NodeHealth.
Proof. solve_decision. Defined.
#[export] Instance ClusterState_eq_dec : EqDecision ClusterState.
Proof. solve_decision. Defined.
#[export] Instance EventKind_eq_dec : EqDecision EventKind.
Proof. solve_decision. Defined.
#[export] Instance Event_eq_dec : EqDecision Event.
Proof. solve_decision. Defined.
#[export] Instance ReconfigurationPolicy_eq_dec : EqDecision ReconfigurationPolicy.
Proof. solve_decision. Defined.
#[export] Instance StepKind_eq_dec : EqDecision StepKind.
Proof. solve_decision. Defined.
#[export] Instance ReconfigurationStep_eq_dec : EqDecision ReconfigurationStep.
Proof. solve_decision. Defined.
#[export] Instance SlotPlan_eq_dec : EqDecision SlotPlan.
Proof. solve_decision. Defined.
#[export] Instance ReconfigurationPlan_eq_dec : EqDecision ReconfigurationPlan.
Proof. solve_decision. Defined.

(** ** Field updates *)
Definition set_Chains (st : ClusterState) (chains : list Chain) : ClusterState :=
  {| cs_Chains := chains; cs_NodesByID := cs_NodesByID st;
     cs_NodeHealthByID := cs_NodeHealthByID st; cs_ReadyNodeIDs := cs_ReadyNodeIDs st;
     cs_DrainingNodeIDs := cs_DrainingNodeIDs st; cs_NodeOrder := cs_NodeOrder st;
     cs_SlotCount := cs_SlotCount st; cs_ReplicationFactor := cs_ReplicationFactor st |}.

Definition set_DrainingNodeIDs (st : ClusterState) (m : gmap string bool) : ClusterState :=
  {| cs_Chains := cs_Chains st; cs_NodesByID := cs_NodesByID st;
     cs_NodeHealthByID := cs_NodeHealthByID st; cs_ReadyNodeIDs := cs_ReadyNodeIDs st;
     cs_DrainingNodeIDs := m; cs_NodeOrder := cs_NodeOrder st;
     cs_SlotCount := cs_SlotCount st; cs_ReplicationFactor := cs_ReplicationFactor st |}.

Definition set_ReadyNodeIDs (st : ClusterState) (m : gmap string bool) : ClusterState :=
  {| cs_Chains := cs_Chains st; cs_NodesByID := cs_NodesByID st;
     cs_NodeHealthByID := cs_NodeHealthByID st; cs_ReadyNodeIDs := m;
     cs_DrainingNodeIDs := cs_DrainingNodeIDs st; cs_NodeOrder := cs_NodeOrder st;
     cs_SlotCount := cs_SlotCount st; cs_ReplicationFactor := cs_ReplicationFactor st |}.

Definition set_Replicas (c : Chain) (rs : list Replica) : Chain :=
  {| chain_Slot := chain_Slot c; chain_Replicas := rs |}.

(** [&state.Chains[slot]], and a write through that pointer. *)
Definition chain_at (st : ClusterState) (slot : Z) : res coord_error Chain :=
  match zidx (cs_Chains st) slot with Some c => Ok c | None => Err GoPanic end.

Definition put_chain (st : ClusterState) (slot : Z) (c : Chain) : ClusterState :=
  set_Chains st (<[Z.to_nat slot := c]> (cs_Chains st)).

(** ** Small queries *)
Definition is_dead (health : gmap string NodeHealth) (id : string) : bool :=
  bool_decide (health !! id = Some NodeHealthDead).

Definition is_alive (health : gmap string NodeHealth) (id : string) : bool :=
  bool_decide (health !! id = Some NodeHealthAlive).

Definition is_state (s : ReplicaState) (r : Replica) : bool :=
  match s, replica_State r with
  | ReplicaStateJoining, ReplicaStateJoining
  | ReplicaStateActive, ReplicaStateActive
  | ReplicaStateLeaving, ReplicaStateLeaving => true
  | _, _ => false
  end.
#[global] Arguments is_state !s !r /.

Definition cloneChain (chain : Chain) : Chain :=
  {| chain_Slot := chain_Slot chain; chain_Replicas := chain_Replicas chain |}.

Definition cloneFailureDomains (failureDomains : gmap string string) : gmap string string :=
  clone_map failureDomains.

Definition chainContainsDeadReplica (chain : Chain) (healthByID : gmap string NodeHealth) : bool :=
  existsb (fun r => is_dead healthByID (replica_NodeID r)) (chain_Replicas chain).

Definition replicaIDs (replicas : list Replica) : list string := replica_NodeID <$> replicas.

Definition activeReplicaIDs (chain : Chain) : list string :=
  replica_NodeID <$> List.filter (is_state ReplicaStateActive) (chain_Replicas chain).

Definition activeReplicaIDsExcludingDraining (chain : Chain) (draining : gmap string bool) : list string :=
  replica_NodeID <$> List.filter
    (fun r => is_state ReplicaStateActive r && negb (mget draining (replica_NodeID r)))
    (chain_Replicas chain).

Definition activeReplicaIDsWithDrain (chain : Chain) (draining : gmap string bool) : list string :=
  replica_NodeID <$> List.filter
    (fun r => is_state ReplicaStateActive r && mget draining (replica_NodeID r))
    (chain_Replicas chain).

Definition hasJoiningReplica (chain : Chain) : bool :=
  existsb (is_state ReplicaStateJoining) (chain_Replicas chain).

Definition hasLeavingReplica (chain : Chain) : bool :=
  existsb (is_state ReplicaStateLeaving) (chain_Replicas chain).

Definition hasPendingReplicaState (chain : Chain) : bool :=
  hasJoiningReplica chain || hasLeavingReplica chain.

Definition firstActiveDrainingReplicaID (chain : Chain) (draining : gmap string bool) : string :=
  match List.find (fun r => is_state ReplicaStateActive r && mget draining (replica_NodeID r))
          (chain_Replicas chain) with
  | Some r => replica_NodeID r
  | None => ""
  end.

Definition countActiveReplicas (replicas : list Replica) : Z :=
  Z.of_nat (length (List.filter (is_state ReplicaStateActive) replicas)).

Definition containsNodeID (values : list string) (target : string) : bool :=
  existsb (String.eqb target) values.

(** The loop shared by [extraNode] and both halves of [oneMemberReplacement]:
    the one element of [from] outside [other], with the empty string for "none
    yet" as in the code, and [None] for the early [return] at a second one. *)
Definition soleOutsider (from other : list string) : option string :=
  foldl (fun acc nodeID =>
    found ← acc;
    if containsNodeID other nodeID then Some found
    else if String.eqb found "" then Some nodeID else None) (Some "") from.

Definition extraNode (current target : list string) : option string :=
  extra ← soleOutsider current target;
  if String.eqb extra "" then None else Some extra.

(** The pair is [(added, removed)]. *)
Definition oneMemberReplacement (current target : list string) : option (string * string) :=
  added ← soleOutsider target current;
  removed ← soleOutsider current target;
  if String.eqb added "" || String.eqb removed "" then None else Some (added, removed).

Definition disjointChain (left right : list string) : bool :=
  forallb (fun nodeID => negb (containsNodeID right nodeID)) left.

(** [make] with a negative capacity panics: the lists must be long enough. *)
Definition sameRelativeOrderWithout
    (current : list string) (removed : string) (target : list string) (added : string)
    : res coord_error bool :=
  _ ← reject (bool_decide (length current < 1)) GoPanic;
  let currentFiltered := List.filter (fun id => negb (String.eqb id removed)) current in
  _ ← reject (bool_decide (length target < 1)) GoPanic;
  let targetFiltered := List.filter (fun id => negb (String.eqb id added)) target in
  Ok (bool_decide (currentFiltered = targetFiltered)).

Definition sameRelativeOrderForJoinFinalization
    (current : list string) (removed newNode : string) (target : list string)
    : res coord_error bool :=
  _ ← reject (bool_decide (length current < 2)) GoPanic;
  let currentFiltered :=
    List.filter (fun id => negb (String.eqb id removed) && negb (String.eqb id newNode)) current in
  _ ← reject (bool_decide (length target < 1)) GoPanic;
  let targetFiltered := List.filter (fun id => negb (String.eqb id newNode)) target in
  Ok (bool_decide (currentFiltered = targetFiltered)).

Fixpoint findReplicaIndex_from (i : nat) (replicas : list Replica) (nodeID : string) : option nat :=
  match replicas with
  | [] => None
  | r :: rs => if String.eqb (replica_NodeID r) nodeID then Some i
               else findReplicaIndex_from (S i) rs nodeID
  end.

(** [None] is the [-1] of the source. *)
Definition findReplicaIndex (chain : Chain) (nodeID : string) : option nat :=
  findReplicaIndex_from 0 (chain_Replicas chain) nodeID.

Definition countReplicasForNode (state : ClusterState) (nodeID : string) : Z :=
  foldl (fun count chain =>
    foldl (fun count r => if String.eqb (replica_NodeID r) nodeID then count + 1 else count)%Z
      count (chain_Replicas chain)) 0%Z (cs_Chains state).

Definition lastActiveReplicaID (chain : Chain) : option string :=
  replica_NodeID <$> List.find (is_state ReplicaStateActive) (rev (chain_Replicas chain)).

Definition isPrefix (values prefix : list string) : bool := bool_decide (values = prefix).

Definition nodeIdentityConflict (left right : Node) : bool :=
  negb (String.eqb (node_ID left) (node_ID right)) ||
  (negb (String.eqb (node_RPCAddress left) "") && negb (String.eqb (node_RPCAddress right) "") &&
   negb (String.eqb (node_RPCAddress left) (node_RPCAddress right))) ||
  existsb (fun '(key, leftValue) =>
    match node_FailureDomains right !! key with
    | Some rightValue => negb (String.eqb leftValue rightValue)
    | None => false
    end) (map_to_list (node_FailureDomains left)) ||
  existsb (fun '(key, rightValue) =>
    match node_FailureDomains left !! key with
    | Some leftValue => negb (String.eqb leftValue rightValue)
    | None => false
    end) (map_to_list (node_FailureDomains right)).
