(* ===== verification/Placement.v ===== *)
(** * Steady-state placement (src/coordinator/coordinator.go)

    Node normalisation, the greedy choice of a replica for a chain, the
    construction of the steady-state chains and [BuildInitialPlacement].
    The first half is the code, the second half the theorems about it. *)

From S2P Require Import Prelude.
From S2P Require Import CoordTypes.

Open Scope Z_scope.

(** ** Configuration and nodes *)
Definition validateConfig (cfg : Config) : res coord_error unit :=
  _ ← reject (config_SlotCount cfg <=? 0) ErrInvalidConfig;
  reject (config_ReplicationFactor cfg <=? 0) ErrInvalidConfig.

Definition normalizeFailureDomains (domains : gmap string string)
    : res coord_error (gmap string string) :=
  res_fold (fun acc '(key, value) =>
    _ ← reject (String.eqb (strings_TrimSpace key) "") ErrInvalidNode;
    _ ← reject (String.eqb (strings_TrimSpace value) "") ErrInvalidNode;
    Ok (<[key := value]> acc)) ∅ (map_to_list domains).

Definition normalizeNodes_step
    (acc : list Node * gmap string Node * list string) (node : Node)
    : res coord_error (list Node * gmap string Node * list string) :=
  let '(normalized, nodesByID, nodeOrder) := acc in
  _ ← reject (String.eqb (node_ID node) "") ErrInvalidNode;
  _ ← reject (bool_decide (is_Some (nodesByID !! node_ID node))) ErrInvalidNode;
  failureDomains ← normalizeFailureDomains (node_FailureDomains node);
  let normalizedNode :=
    {| node_ID := node_ID node;
       node_RPCAddress := strings_TrimSpace (node_RPCAddress node);
       node_FailureDomains := failureDomains |} in
  Ok (normalized ++ [normalizedNode],
      <[node_ID node := normalizedNode]> nodesByID,
      nodeOrder ++ [node_ID node]).

Definition normalizeNodes (nodes : list Node)
    : res coord_error (list Node * gmap string Node * list string) :=
  _ ← reject (bool_decide (length nodes = 0%nat)) ErrInvalidConfig;
  res_fold normalizeNodes_step ([], ∅, []) nodes.

Definition emptyChains (slotCount : Z) : list Chain :=
  (fun slot => {| chain_Slot := slot; chain_Replicas := [] |}) <$> zrange slotCount.

(** ** Choosing a replica *)
Definition counts_of (counts : gmap string assignmentCounts) (id : string) : assignmentCounts :=
  default zeroCounts (counts !! id).

Definition node_of (nodesByID : gmap string Node) (id : string) : Node :=
  default zeroNode (nodesByID !! id).

Definition cloneAssignmentCounts (current : gmap string assignmentCounts)
    : gmap string assignmentCounts :=
  clone_map current.

Definition hasFailureDomainConflict (candidate existing : Node) : bool :=
  existsb (fun '(key, candidateValue) =>
    match node_FailureDomains existing !! key with
    | Some existingValue => String.eqb existingValue candidateValue
    | None => false
    end) (map_to_list (node_FailureDomains candidate)).

Definition isEligible (candidate : Node) (chain : Chain) (nodesByID : gmap string Node) : bool :=
  forallb (fun r =>
    negb (String.eqb (replica_NodeID r) (node_ID candidate)) &&
    negb (hasFailureDomainConflict candidate (node_of nodesByID (replica_NodeID r))))
    (chain_Replicas chain).

(** [Lt], [Eq], [Gt] are the [-1], [0], [1] of the source. *)
Definition compareNodes (a b : Node) (counts : gmap string assignmentCounts) : comparison :=
  let aCounts := counts_of counts (node_ID a) in
  let bCounts := counts_of counts (node_ID b) in
  if negb (tailCount aCounts =? tailCount bCounts) then
    if tailCount aCounts <? tailCount bCounts then Lt else Gt
  else if negb (headCount aCounts =? headCount bCounts) then
    if headCount aCounts <? headCount bCounts then Lt else Gt
  else if negb (replicaCount aCounts =? replicaCount bCounts) then
    if replicaCount aCounts <? replicaCount bCounts then Lt else Gt
  else strings_Compare (node_ID a) (node_ID b).

(** One iteration of [selectReplicaCandidate]: [None] is [found = false]. *)
Definition consider (chain : Chain) (nodesByID : gmap string Node)
    (counts : gmap string assignmentCounts) (best : option Node) (node : Node) : option Node :=
  if negb (isEligible node chain nodesByID) then best
  else match best with
       | None => Some node
       | Some b => match compareNodes node b counts with Lt => Some node | _ => Some b end
       end.

Definition selectReplicaCandidate (nodes : list Node) (chain : Chain)
    (nodesByID : gmap string Node) (counts : gmap string assignmentCounts) : option Node :=
  foldl (consider chain nodesByID counts) None nodes.

(** ** Building chains *)
Definition appendReplicaWithState (chain : Chain) (nodeID : string) (state : ReplicaState)
    (counts : gmap string assignmentCounts) : Chain * gmap string assignmentCounts :=
  let chain' :=
    set_Replicas chain
      (chain_Replicas chain ++ [{| replica_NodeID := nodeID; replica_State := state |}]) in
  match last (chain_Replicas chain) with
  | None =>
      let c := counts_of counts nodeID in
      (chain', <[nodeID := {| headCount := headCount c + 1; tailCount := tailCount c + 1;
                              replicaCount := replicaCount c + 1 |}]> counts)
  | Some previousTail =>
      let p := counts_of counts (replica_NodeID previousTail) in
      let counts1 := <[replica_NodeID previousTail :=
        {| headCount := headCount p; tailCount := tailCount p - 1;
           replicaCount := replicaCount p |}]> counts in
      let c := counts_of counts1 nodeID in
      (chain', <[nodeID := {| headCount := headCount c; tailCount := tailCount c + 1;
                              replicaCount := replicaCount c + 1 |}]> counts1)
  end.

Definition rebalanceSteadyStateChain (slot : Z) (chain : Chain) : Chain :=
  if (length (chain_Replicas chain) <=? 1)%nat then cloneChain chain
  else
    let nodeIDs := sort_Strings (replicaIDs (chain_Replicas chain)) in
    let offset := Z.to_nat (Z.rem slot (Z.of_nat (length nodeIDs))) in
    let rotated := drop offset nodeIDs ++ take offset nodeIDs in
    {| chain_Slot := chain_Slot chain;
       chain_Replicas := (fun nodeID =>
         {| replica_NodeID := nodeID; replica_State := ReplicaStateActive |}) <$> rotated |}.

Definition recordChainAssignmentCounts (counts : gmap string assignmentCounts) (chain : Chain)
    : gmap string assignmentCounts :=
  foldl (fun counts '(i, r) =>
    let c := counts_of counts (replica_NodeID r) in
    <[replica_NodeID r :=
        {| headCount := if (i =? 0)%nat then headCount c + 1 else headCount c;
           tailCount := if (i =? length (chain_Replicas chain) - 1)%nat
                        then tailCount c + 1 else tailCount c;
           replicaCount := replicaCount c + 1 |}]> counts)
    counts (imap pair (chain_Replicas chain)).

(** The inner loop of [buildSteadyStateChains] for one replica position. *)
Definition fillPosition (slot : Z) (nodes : list Node) (nodesByID : gmap string Node)
    (acc : Chain * gmap string assignmentCounts) (replicaPosition : Z)
    : res coord_error (Chain * gmap string assignmentCounts) :=
  let '(tentative, tentativeCounts) := acc in
  match selectReplicaCandidate nodes tentative nodesByID tentativeCounts with
  | None => Err (PlacementError slot replicaPosition)
  | Some candidate =>
      Ok (appendReplicaWithState tentative (node_ID candidate) ReplicaStateActive tentativeCounts)
  end.

(** Its outer loop for one slot. *)
Definition buildSlot (replicationFactor : Z) (nodes : list Node) (nodesByID : gmap string Node)
    (acc : gmap string assignmentCounts * list Chain) (slot : Z)
    : res coord_error (gmap string assignmentCounts * list Chain) :=
  let '(counts, chains) := acc in
  '(tentative, _) ←
    res_fold (fillPosition slot nodes nodesByID)
      ({| chain_Slot := slot; chain_Replicas := [] |}, cloneAssignmentCounts counts)
      (zrange replicationFactor);
  let chain :=
    if Z.of_nat (length nodes) =? replicationFactor
    then rebalanceSteadyStateChain slot tentative else tentative in
  Ok (recordChainAssignmentCounts counts chain, chains ++ [chain]).

Definition buildSteadyStateChains (slotCount replicationFactor : Z) (nodes : list Node)
    (nodesByID : gmap string Node) : res coord_error (list Chain) :=
  '(_, chains) ← res_fold (buildSlot replicationFactor nodes nodesByID) (∅, []) (zrange slotCount);
  Ok chains.

Definition BuildInitialPlacement (cfg : Config) (nodes : list Node)
    : res coord_error ClusterState :=
  _ ← validateConfig cfg;
  if bool_decide (length nodes = 0%nat) then
    Ok {| cs_Chains := emptyChains (config_SlotCount cfg); cs_NodesByID := ∅;
          cs_NodeHealthByID := ∅; cs_ReadyNodeIDs := ∅; cs_DrainingNodeIDs := ∅;
          cs_NodeOrder := []; cs_SlotCount := config_SlotCount cfg;
          cs_ReplicationFactor := config_ReplicationFactor cfg |}
  else
    '(normalizedNodes, nodesByID, nodeOrder) ← normalizeNodes nodes;
    _ ← reject (Z.of_nat (length normalizedNodes) <? config_ReplicationFactor cfg) ErrInvalidConfig;
    chains ← buildSteadyStateChains (config_SlotCount cfg) (config_ReplicationFactor cfg)
               normalizedNodes nodesByID;
    Ok {| cs_Chains := chains; cs_NodesByID := nodesByID;
          cs_NodeHealthByID :=
            foldl (fun m node => <[node_ID node := NodeHealthAlive]> m) ∅ normalizedNodes;
          cs_ReadyNodeIDs := foldl (fun m node => <[node_ID node := true]> m) ∅ normalizedNodes;
          cs_DrainingNodeIDs := ∅; cs_NodeOrder := nodeOrder;
          cs_SlotCount := config_SlotCount cfg;
          cs_ReplicationFactor := config_ReplicationFactor cfg |}.
(** * Theorems *)

(** ** Specification vocabulary *)

(** No two distinct members share a failure-domain value. *)
Definition spread (nodesByID : gmap string Node) (ids : list string) : Prop :=
  forall x y, x ∈ ids -> y ∈ ids -> x <> y ->
    hasFailureDomainConflict (node_of nodesByID x) (node_of nodesByID y) = false.

(** What [buildSteadyStateChains] promises of every chain it returns. *)
Record steady_chain (rf slot : Z) (ids : list string) (nodesByID : gmap string Node) (c : Chain)
    : Prop := {
  steady_slot : chain_Slot c = slot;
  steady_length : Z.of_nat (length (chain_Replicas c)) = rf;
  steady_active : Forall (fun r => replica_State r = ReplicaStateActive) (chain_Replicas c);
  steady_NoDup : NoDup (replicaIDs (chain_Replicas c));
  steady_known : forall id, id ∈ replicaIDs (chain_Replicas c) -> id ∈ ids;
  steady_spread : spread nodesByID (replicaIDs (chain_Replicas c));
}.

(** The map passed along a node list indexes exactly these nodes by ID. *)
Definition indexed (nodes : list Node) (nodesByID : gmap string Node) : Prop :=
  forall n, n ∈ nodes -> nodesByID !! node_ID n = Some n.

(** ** Failure domains *)
Lemma conflict_spec a b :
  hasFailureDomainConflict a b = true <->
  exists k v, node_FailureDomains a !! k = Some v /\ node_FailureDomains b !! k = Some v.
Proof.
  unfold hasFailureDomainConflict. rw existsb_exists. split.
  - intros ([k v] & Hin & Hv). apply list_elem_of_In, elem_of_map_to_list in Hin.
    destruct (node_FailureDomains b !! k) eqn:Hb; [|done]. apply String.eqb_eq in Hv as ->. eauto.
  - intros (k & v & Ha & Hb). exists (k, v). rw -list_elem_of_In elem_of_map_to_list.
    by rw Hb String.eqb_refl.
Qed.

Lemma conflict_sym a b : hasFailureDomainConflict a b = hasFailureDomainConflict b a.
Proof. apply eq_true_iff_eq. rw !conflict_spec. naive_solver. Qed.

Lemma isEligible_spec n c byID :
  isEligible n c byID = true <->
  (node_ID n ∉ replicaIDs (chain_Replicas c)) /\
  forall id, id ∈ replicaIDs (chain_Replicas c) ->
    hasFailureDomainConflict n (node_of byID id) = false.
Proof.
  unfold isEligible, replicaIDs. rw forallb_forall.
  setoid_rewrite <- list_elem_of_In. setoid_rewrite list_elem_of_fmap. split.
  - intros H. split.
    + intros (r & Hr & Hin). specialize (H r Hin). unbool.
      by rw Hr String.eqb_refl in H.
    + intros id (r & -> & Hin). specialize (H r Hin). by unbool.
  - intros [H1 H2] r Hin. apply andb_true_iff. rw !negb_true_iff. split; [|eauto].
    apply String.eqb_neq. naive_solver.
Qed.

(** ** The order of candidates is transitive *)
Lemma compareNodes_Lt a b counts :
  let ca := counts_of counts (node_ID a) in let cb := counts_of counts (node_ID b) in
  compareNodes a b counts = Lt <->
  tailCount ca < tailCount cb \/ tailCount ca = tailCount cb /\
  (headCount ca < headCount cb \/ headCount ca = headCount cb /\
   (replicaCount ca < replicaCount cb \/ replicaCount ca = replicaCount cb /\
    strings_Compare (node_ID a) (node_ID b) = Lt)).
Proof.
  intros ca cb. unfold compareNodes. fold ca cb.
  destruct (Z.eqb_spec (tailCount ca) (tailCount cb)) as [Ht|Ht]; cbn.
  2: { destruct (Z.ltb_spec (tailCount ca) (tailCount cb)); split; intros; try done; lia. }
  destruct (Z.eqb_spec (headCount ca) (headCount cb)) as [Hh|Hh]; cbn.
  2: { destruct (Z.ltb_spec (headCount ca) (headCount cb)); split; intros; try done; lia. }
  destruct (Z.eqb_spec (replicaCount ca) (replicaCount cb)) as [Hr|Hr]; cbn.
  2: { destruct (Z.ltb_spec (replicaCount ca) (replicaCount cb)); split; intros; try done; lia. }
  split; [intuition lia|]. intuition lia.
Qed.

Lemma compareNodes_Lt_trans a b c counts :
  compareNodes a b counts = Lt -> compareNodes b c counts = Lt -> compareNodes a c counts = Lt.
Proof.
  rw !compareNodes_Lt. intros Hab Hbc.
  pose proof (string_compare_trans (node_ID a) (node_ID b) (node_ID c) Lt).
  intuition (first [lia | auto 10 with lia]).
Qed.
(** ** The candidate chosen is eligible and minimal *)
Lemma select_spec nodes c byID counts :
  match selectReplicaCandidate nodes c byID counts with
  | Some n => n ∈ nodes /\ isEligible n c byID = true /\
      forall m, m ∈ nodes -> isEligible m c byID = true -> compareNodes m n counts <> Lt
  | None => forall m, m ∈ nodes -> isEligible m c byID = false
  end.
Proof.
  unfold selectReplicaCandidate.
  induction nodes as [|x nodes IH] using rev_ind; [intros ? []%elem_of_nil|].
  rw foldl_app. cbn. unfold consider at 1.
  destruct (isEligible x c byID) eqn:Hx; cbn.
  2: { destruct (foldl _ _ nodes) as [b|]; [|set_solver].
       destruct IH as (? & ? & Hmin). split; [set_solver|]. split; [done|].
       intros m [Hm| ->%list_elem_of_singleton]%elem_of_app; [auto|congruence]. }
  destruct (foldl _ _ nodes) as [b|].
  2: { split; [set_solver|]. split; [done|].
       intros m [Hm| ->%list_elem_of_singleton]%elem_of_app Hel; [by rw (IH m Hm) in Hel|].
       rw compareNodes_Lt strings_Compare_refl. lia || (intuition (lia || done)). }
  destruct IH as (? & ? & Hmin). destruct (compareNodes x b counts) eqn:Hcmp.
  2: { split; [set_solver|]. split; [done|].
       intros m [Hm| ->%list_elem_of_singleton]%elem_of_app Hel.
       - intros Hlt. apply (Hmin m Hm Hel). by apply (compareNodes_Lt_trans m x b).
       - rw compareNodes_Lt strings_Compare_refl. intuition (lia || done). }
  all: split; [set_solver|]; split; [done|];
       intros m [Hm| ->%list_elem_of_singleton]%elem_of_app Hel; [auto|congruence].
Qed.

(** ** One slot *)
Lemma replicaIDs_app rs1 rs2 : replicaIDs (rs1 ++ rs2) = replicaIDs rs1 ++ replicaIDs rs2.
Proof. apply fmap_app. Qed.

Lemma append_replicas c id s counts :
  chain_Replicas (appendReplicaWithState c id s counts).1 =
    chain_Replicas c ++ [{| replica_NodeID := id; replica_State := s |}] /\
  chain_Slot (appendReplicaWithState c id s counts).1 = chain_Slot c.
Proof. unfold appendReplicaWithState. by destruct (last _). Qed.

Lemma spread_snoc byID ids n :
  spread byID ids -> byID !! node_ID n = Some n ->
  (forall id, id ∈ ids -> hasFailureDomainConflict n (node_of byID id) = false) ->
  spread byID (ids ++ [node_ID n]).
Proof.
  intros Hs Hn Hc x y. rw !elem_of_app !list_elem_of_singleton.
  assert (node_of byID (node_ID n) = n) as Hno by (unfold node_of; by rw Hn).
  intros [Hx| ->] [Hy| ->] Hne; [by apply Hs| |by rw Hno; auto|done].
  rw conflict_sym Hno. auto.
Qed.

Lemma steady_snoc slot p nodes byID c counts n :
  indexed nodes byID -> n ∈ nodes -> isEligible n c byID = true ->
  steady_chain p slot (node_ID <$> nodes) byID c ->
  steady_chain (p + 1) slot (node_ID <$> nodes) byID
    (appendReplicaWithState c (node_ID n) ReplicaStateActive counts).1.
Proof.
  intros Hidx Hn [Hnin Hfd]%isEligible_spec [].
  destruct (append_replicas c (node_ID n) ReplicaStateActive counts) as [Hr Hs].
  constructor; rw ?Hr ?Hs ?replicaIDs_app //.
  - rw length_app. cbn. lia.
  - apply Forall_app. by repeat constructor.
  - apply NoDup_app. repeat split; [done| |apply NoDup_singleton].
    intros x Hx. cbn. rw list_elem_of_singleton. by intros ->.
  - intros id [H| ->%list_elem_of_singleton]%elem_of_app; [auto|].
    cbn. by apply (list_elem_of_fmap_2 node_ID).
  - apply spread_snoc; auto.
Qed.

Lemma rebalance_ids slot c :
  replicaIDs (chain_Replicas (rebalanceSteadyStateChain slot c)) ≡ₚ replicaIDs (chain_Replicas c).
Proof.
  unfold rebalanceSteadyStateChain. destruct (_ <=? _)%nat; [done|]. cbn.
  unfold replicaIDs. rw -list_fmap_compose list_fmap_id. rw rotate_perm. apply isort_perm.
Qed.

Lemma steady_rebalance rf slot s ids byID c :
  steady_chain rf slot ids byID c ->
  steady_chain rf slot ids byID (rebalanceSteadyStateChain s c).
Proof.
  intros []. pose proof (rebalance_ids s c) as Hp.
  constructor.
  - unfold rebalanceSteadyStateChain. by destruct (_ <=? _)%nat.
  - rewrite <- steady_length0. f_equal. apply Permutation_length in Hp.
    unfold replicaIDs in Hp. by rw !length_fmap in Hp.
  - unfold rebalanceSteadyStateChain. destruct (_ <=? _)%nat; [done|]. cbn.
    apply Forall_fmap, Forall_true. done.
  - by rw Hp.
  - intros id. rw Hp. auto.
  - intros x y. rw Hp. auto.
Qed.

(** The loops over positions and slots, for any [X] that accepts the error the
    code returns when every node is ineligible at some position. *)
Section steady_loops.
Context (rf : Z) (nodes : list Node) (byID : gmap string Node) (X : coord_error -> Prop).
Hypothesis Hrf : 0 <= rf.
Hypothesis Hidx : indexed nodes byID.
Hypothesis Hstuck : forall slot p c,
  0 <= p < rf -> steady_chain p slot (node_ID <$> nodes) byID c ->
  (forall m, m ∈ nodes -> isEligible m c byID = false) -> X (PlacementError slot p).

Lemma fillPosition_steady slot counts :
  res_sat (fun s => steady_chain rf slot (node_ID <$> nodes) byID s.1) X
    (res_fold (fillPosition slot nodes byID)
       ({| chain_Slot := slot; chain_Replicas := [] |}, counts) (zrange rf)).
Proof.
  eapply res_sat_mono;
    [apply (res_fold_sat_prefix (fun l s =>
       steady_chain (Z.of_nat (length l)) slot (node_ID <$> nodes) byID s.1) X)| |done].
  - constructor; cbn; [done|done|constructor|constructor|set_solver|unfold spread; set_solver].
  - intros l1 p l2 [c cs] Hl Hc. unfold fillPosition. pose proof (zrange_split _ _ _ _ Hl) as ->.
    pose proof (select_spec nodes c byID cs) as Hsel.
    destruct (selectReplicaCandidate _ _ _ _) as [n|].
    + destruct Hsel as (Hn & Hel & _). cbn [res_sat].
      rw length_app. replace (Z.of_nat _) with (Z.of_nat (length l1) + 1) by (cbn; lia).
      by apply steady_snoc.
    + apply (Hstuck _ _ c); [|done|done].
      apply (f_equal length) in Hl. rw length_zrange length_app in Hl. cbn in Hl. lia.
  - cbn. intros a Ha. rw length_zrange in Ha. by rw Z2Nat.id in Ha.
Qed.

(** The chain stored for a slot: the greedy one, rotated when every node is used. *)
Definition final_chain (slot : Z) (c : Chain) : Prop :=
  exists t, steady_chain rf slot (node_ID <$> nodes) byID t /\
    c = if Z.of_nat (length nodes) =? rf then rebalanceSteadyStateChain slot t else t.

Lemma final_steady slot c :
  final_chain slot c -> steady_chain rf slot (node_ID <$> nodes) byID c.
Proof. intros (t & Ht & ->). destruct (_ =? rf); [by apply steady_rebalance|done]. Qed.

Lemma buildSlot_steady counts chains slot :
  res_sat (fun s => exists c, s.2 = chains ++ [c] /\ final_chain slot c) X
    (buildSlot rf nodes byID (counts, chains) slot).
Proof.
  unfold buildSlot. eapply res_sat_bind; [by apply fillPosition_steady|].
  intros [c cs] _ Hc. cbn. eexists. split; [done|]. by exists c.
Qed.

Lemma buildSteadyStateChains_final slotCount :
  0 <= slotCount ->
  res_sat (fun chains => Z.of_nat (length chains) = slotCount /\
             forall i c, chains !! i = Some c -> final_chain (Z.of_nat i) c) X
    (buildSteadyStateChains slotCount rf nodes byID).
Proof.
  intros Hsc. unfold buildSteadyStateChains.
  eapply res_sat_bind; [apply (res_fold_sat_prefix (fun l s => length s.2 = length l /\
             forall i c, s.2 !! i = Some c -> final_chain (Z.of_nat i) c) X)|].
  - done.
  - intros l1 slot l2 [counts chains] Hl [Hlen Hall].
    eapply res_sat_mono; [by apply buildSlot_steady| |done].
    intros [counts' chains'] (c & Hc & Hst). cbn in *. subst chains'.
    rw !length_app Hlen. split; [done|]. intros i c'. rw lookup_app_Some.
    intros [?|[Hge Hc']]; [auto|]. apply list_lookup_singleton_Some in Hc' as [Hi <-].
    apply zrange_split in Hl. by replace (Z.of_nat i) with slot by lia.
  - intros [counts chains] _ [Hlen Hall]. cbn in *. split; [|done].
    rw Hlen length_zrange. lia.
Qed.
End steady_loops.

(** Without further knowledge of the nodes the only failure is a placement error. *)
Lemma buildSteadyStateChains_steady slotCount rf nodes byID :
  indexed nodes byID -> 0 <= rf -> 0 <= slotCount ->
  res_sat (fun chains => Z.of_nat (length chains) = slotCount /\
             forall i c, chains !! i = Some c ->
               steady_chain rf (Z.of_nat i) (node_ID <$> nodes) byID c)
    (fun e => is_ErrPlacementImpossible e = true)
    (buildSteadyStateChains slotCount rf nodes byID).
Proof.
  intros Hidx Hrf Hsc.
  eapply res_sat_mono; [by apply (buildSteadyStateChains_final rf nodes byID
    (fun e => is_ErrPlacementImpossible e = true))| |done].
  intros chains [Hlen Hall]. split; [done|]. intros i c Hc. by apply final_steady, Hall.
Qed.

(** ** Node normalisation *)
Definition normalized_of (n n' : Node) : Prop :=
  n' = {| node_ID := node_ID n; node_RPCAddress := strings_TrimSpace (node_RPCAddress n);
          node_FailureDomains := node_FailureDomains n |}.

Definition blank (s : string) : bool := String.eqb (strings_TrimSpace s) "".

Lemma normalizeFailureDomains_eq m :
  normalizeFailureDomains m =
  if existsb (fun '(k, v) => blank k || blank v) (map_to_list m)
  then Err ErrInvalidNode else Ok m.
Proof.
  unfold normalizeFailureDomains.
  rw -{3}(clone_map_id m) -(res_fold_guarded (fun '(k, v) => blank k || blank v)).
  apply res_fold_ext. intros s [k v]. unfold blank, reject. cbn.
  by destruct (strings_TrimSpace k =? "")%string, (strings_TrimSpace v =? "")%string.
Qed.

Record normalized_as (nodes normalized : list Node) (byID : gmap string Node)
    (order : list string) : Prop := {
  norm_nodes : Forall2 normalized_of nodes normalized;
  norm_order : order = node_ID <$> normalized;
  norm_NoDup : NoDup order;
  norm_nonempty : "" ∉ order;
  norm_lookup : forall id n, byID !! id = Some n <-> n ∈ normalized /\ node_ID n = id;
}.

Lemma normalized_snoc nodes normalized byID order n n' :
  normalized_as nodes normalized byID order -> normalized_of n n' ->
  node_ID n <> "" -> byID !! node_ID n = None ->
  normalized_as (nodes ++ [n]) (normalized ++ [n']) (<[node_ID n := n']> byID)
    (order ++ [node_ID n]).
Proof.
  intros [] Hn Hne Hnone.
  assert (node_ID n' = node_ID n) as Hid by (by rw Hn).
  assert (node_ID n ∉ order) as Hnin.
  { rw norm_order0 list_elem_of_fmap. intros (m & Hm & Hin).
    assert (byID !! node_ID n = Some m) by (apply norm_lookup0; eauto). congruence. }
  constructor.
  - apply Forall2_app; [done|]. by repeat constructor.
  - rw fmap_app norm_order0. cbn. by rw Hid.
  - apply NoDup_app. repeat split; [done|set_solver|apply NoDup_singleton].
  - set_solver.
  - intros id m. rw elem_of_app list_elem_of_singleton.
    destruct (decide (id = node_ID n)) as [->|Hd].
    + rw lookup_insert_eq. split; [intros [= <-]; auto|].
      intros [[Hm| ->] Hmid]; [|done]. exfalso. apply Hnin.
      rw norm_order0 -Hmid. by apply list_elem_of_fmap_2.
    + rw lookup_insert_ne; [congruence|]. rw norm_lookup0. naive_solver.
Qed.

Lemma normalizeNodes_spec nodes :
  res_sat (fun '(normalized, byID, order) => normalized_as nodes normalized byID order)
    (fun e => e = ErrInvalidNode \/ e = ErrInvalidConfig) (normalizeNodes nodes).
Proof.
  unfold normalizeNodes. eapply res_sat_bind.
  { apply (res_sat_reject (fun _ => True)); auto. }
  intros [] _ _.
  apply (res_fold_sat_prefix (fun l '(normalized, byID, order) =>
    normalized_as l normalized byID order)).
  { constructor; [constructor|done|constructor|set_solver|].
    intros id n. rw lookup_empty. set_solver. }
  intros l1 n l2 [[normalized byID] order] _ Hinv. unfold normalizeNodes_step, reject.
  destruct (String.eqb_spec (node_ID n) ""); [cbn; auto|].
  case_bool_decide as Hdup; [cbn; auto|]. cbn.
  rw normalizeFailureDomains_eq. destruct (existsb _ _); [cbn; auto|]. cbn.
  apply normalized_snoc; [done|done|done|]. by apply eq_None_not_Some.
Qed.

Lemma normalized_indexed nodes normalized byID order :
  normalized_as nodes normalized byID order -> indexed normalized byID.
Proof. intros [] n Hn. by apply norm_lookup0. Qed.

(** ** Initial placement *)
Lemma foldl_insert_ids {V} (v : V) (ns : list Node) (id : string) :
  foldl (fun (m : gmap string V) node => <[node_ID node := v]> m) ∅ ns !! id =
  if bool_decide (id ∈ node_ID <$> ns) then Some v else None.
Proof.
  induction ns as [|n ns IH] using rev_ind; [done|].
  rw foldl_app fmap_app. cbn. destruct (decide (id = node_ID n)) as [->|Hne].
  - rw lookup_insert_eq bool_decide_true //. set_solver.
  - rw lookup_insert_ne; [congruence|]. rw IH. case_bool_decide; case_bool_decide; set_solver.
Qed.

Lemma normalized_nonempty nodes normalized byID order :
  normalized_as nodes normalized byID order ->
  node_ID <$> normalized = node_ID <$> nodes /\ length normalized = length nodes.
Proof.
  intros [Hf _ _ _ _]. split; [|by apply Forall2_length in Hf].
  clear -Hf. induction Hf as [|n n' l l' Hn _ IH]; [done|]. cbn. by rw IH Hn.
Qed.

Lemma emptyChains_lookup n i c :
  emptyChains n !! i = Some c ->
  c = {| chain_Slot := Z.of_nat i; chain_Replicas := [] |}.
Proof.
  unfold emptyChains, zrange. rw !list_lookup_fmap.
  destruct (seq 0 (Z.to_nat n) !! i) as [k|] eqn:Hk; [|done]. cbn. intros [= <-].
  by apply lookup_seq in Hk as [-> _].
Qed.


Definition demo_node (id zone : string) : Node :=
  {| node_ID := id; node_RPCAddress := id; node_FailureDomains := {[ "zone" := zone ]} |}.
Definition demo_nodes : list Node :=
  [demo_node "a" "z1"; demo_node "b" "z2"; demo_node "c" "z3"; demo_node "d" "z1"].
Definition demo_cfg : Config := {| config_SlotCount := 5; config_ReplicationFactor := 3 |}.
Definition zeroState : ClusterState :=
  {| cs_Chains := []; cs_NodesByID := ∅; cs_NodeHealthByID := ∅; cs_ReadyNodeIDs := ∅;
     cs_DrainingNodeIDs := ∅; cs_NodeOrder := []; cs_SlotCount := 0; cs_ReplicationFactor := 0 |}.
Definition demo_state : ClusterState :=
  ok_or zeroState (BuildInitialPlacement demo_cfg demo_nodes).


(** ** Placement over zones succeeds exactly when there are enough zones *)
Section zones.
Context (key : string).

Definition zone (n : Node) : string := default "" (node_FailureDomains n !! key).

(** Every node names its zone under [key] and declares no other domain. *)
Definition zoned (nodes : list Node) : Prop :=
  forall n, n ∈ nodes -> node_FailureDomains n = {[ key := zone n ]} /\ blank (zone n) = false.

Definition zones (nodes : list Node) : gset string := list_to_set (zone <$> nodes).

Lemma zoned_conflict nodes a b :
  zoned nodes -> a ∈ nodes -> b ∈ nodes ->
  hasFailureDomainConflict a b = true <-> zone a = zone b.
Proof.
  intros Hz Ha Hb. rw conflict_spec. destruct (Hz a Ha) as [-> _], (Hz b Hb) as [-> _].
  split.
  - intros (k & v & [<- <-]%lookup_singleton_Some & [_ <-]%lookup_singleton_Some). done.
  - intros Heq. exists key, (zone a). by rw Heq !lookup_singleton_eq.
Qed.

(** A list of distinct zones of members of [ids] is as long as [ids]. *)
Definition zone_of (byID : gmap string Node) (id : string) : string := zone (node_of byID id).

Lemma chain_zones nodes byID rf slot c :
  zoned nodes -> indexed nodes byID ->
  steady_chain rf slot (node_ID <$> nodes) byID c ->
  let members : gset string := list_to_set (zone_of byID <$> replicaIDs (chain_Replicas c)) in
  members ⊆ zones nodes /\ Z.of_nat (size members) = rf.
Proof.
  intros Hz Hidx [_ Hlen _ Hnd Hknown Hspread] members.
  assert (forall id, id ∈ replicaIDs (chain_Replicas c) -> node_of byID id ∈ nodes) as Hin.
  { intros id Hid. apply Hknown, list_elem_of_fmap in Hid as (n & -> & Hn).
    unfold node_of. by rw (Hidx n Hn). }
  split.
  - intros z. unfold members, zones. rw !elem_of_list_to_set !list_elem_of_fmap.
    intros (id & -> & Hid). exists (node_of byID id). auto.
  - unfold members. rw size_list_to_set; [|by rw length_fmap length_fmap].
    apply NoDup_fmap_2_strong; [|done]. intros x y Hx Hy Heq.
    destruct (decide (x = y)) as [|Hne]; [done|]. exfalso.
    apply (zoned_conflict nodes) in Heq; [|auto..].
    by rw (Hspread x y Hx Hy Hne) in Heq.
Qed.

Lemma zoned_never_stuck nodes byID rf slot p c :
  zoned nodes -> indexed nodes byID -> rf <= Z.of_nat (size (zones nodes)) ->
  0 <= p < rf -> steady_chain p slot (node_ID <$> nodes) byID c ->
  (forall m, m ∈ nodes -> isEligible m c byID = false) -> False.
Proof.
  intros Hz Hidx Hsz Hp Hc Hstuck.
  destruct (chain_zones _ _ _ _ _ Hz Hidx Hc) as [_ Hsize].
  enough (zones nodes ⊆ list_to_set (zone_of byID <$> replicaIDs (chain_Replicas c)))
    as Hsub%subseteq_size by lia.
  intros z. unfold zones. rw !elem_of_list_to_set !list_elem_of_fmap.
  intros (n & -> & Hn). specialize (Hstuck n Hn).
  destruct (decide (node_ID n ∈ replicaIDs (chain_Replicas c))) as [Hid|Hid].
  { exists (node_ID n). split; [|done]. unfold zone_of, node_of. by rw (Hidx n Hn). }
  destruct (decide (Exists (fun id => hasFailureDomainConflict n (node_of byID id) = true)
    (replicaIDs (chain_Replicas c)))) as [Hex|Hnex].
  - apply Exists_exists in Hex as (id & Hin & Hconf). exists id. split; [|done].
    pose proof (steady_known _ _ _ _ _ Hc id Hin) as (m & -> & Hm)%list_elem_of_fmap.
    unfold zone_of, node_of in *. rw (Hidx m Hm) in Hconf |- *. cbn in *.
    by apply (zoned_conflict nodes) in Hconf.
  - exfalso. enough (isEligible n c byID = true) by congruence.
    apply isEligible_spec. split; [done|]. intros id Hin.
    destruct (hasFailureDomainConflict _ _) eqn:?; [|done].
    exfalso. apply Hnex, Exists_exists. eauto.
Qed.

Lemma normalizeNodes_total nodes :
  nodes <> [] -> NoDup (node_ID <$> nodes) -> "" ∉ node_ID <$> nodes ->
  (forall n k v, n ∈ nodes -> node_FailureDomains n !! k = Some v -> blank k || blank v = false) ->
  exists normalized byID order, normalizeNodes nodes = Ok (normalized, byID, order) /\
    normalized_as nodes normalized byID order.
Proof.
  intros Hne Hnd Hempty Hblank.
  enough (res_sat (fun '(normalized, byID, order) => normalized_as nodes normalized byID order)
    (fun _ => False) (normalizeNodes nodes)) as H.
  { destruct (normalizeNodes nodes) as [[[normalized byID] order]|]; [eauto 10|done]. }
  unfold normalizeNodes. rw bool_decide_false; [by destruct nodes|]. cbn.
  apply (res_fold_sat_prefix (fun l '(normalized, byID, order) =>
    normalized_as l normalized byID order)).
  { constructor; [constructor|done|constructor|set_solver|].
    intros id n. rw lookup_empty. set_solver. }
  intros l1 n l2 [[normalized byID] order] -> Hinv. unfold normalizeNodes_step, reject.
  rw fmap_app in Hnd. rw fmap_app in Hempty. apply NoDup_app in Hnd as (_ & Hnd & _).
  destruct (String.eqb_spec (node_ID n) ""); [set_solver|].
  case_bool_decide as Hdup; cbn.
  { destruct Hdup as [m [Hm Hid]%(norm_lookup _ _ _ _ Hinv)].
    destruct (normalized_nonempty _ _ _ _ Hinv) as [Hids _].
    apply (Hnd (node_ID n)); [|set_solver]. rw -Hids -Hid. by apply list_elem_of_fmap_2. }
  rw normalizeFailureDomains_eq. destruct (existsb _ _) eqn:Hex; cbn.
  { apply existsb_exists in Hex as ([k v] & Hin%list_elem_of_In%elem_of_map_to_list & Hb).
    by rw (Hblank n k v) in Hb; [set_solver|..]. }
  apply normalized_snoc; [done|done|done|]. by apply eq_None_not_Some.
Qed.

Lemma zoned_normalized nodes normalized byID order :
  zoned nodes -> normalized_as nodes normalized byID order ->
  zoned normalized /\ zones normalized = zones nodes.
Proof.
  intros Hz [Hf _ _ _ _]. unfold zones, zoned in *.
  induction Hf as [|n n' l l' Hn _ IH]; [done|].
  destruct IH as [IHz IHs]; [set_solver|]. rw !fmap_cons !list_to_set_cons IHs.
  assert (zone n' = zone n) as -> by (by rw Hn). split; [|done].
  intros m [->|Hm]%elem_of_cons; [|auto]. rw Hn. cbn. unfold zone. cbn. apply Hz. set_solver.
Qed.

Lemma zoned_not_blank nodes n k v :
  blank key = false -> zoned nodes -> n ∈ nodes ->
  node_FailureDomains n !! k = Some v -> blank k || blank v = false.
Proof.
  intros Hk Hz Hn. destruct (Hz n Hn) as [-> Hb].
  intros [<- <-]%lookup_singleton_Some. by rw Hk Hb.
Qed.

(** When every node declares exactly one failure domain under a common
    key (its zone), initial placement succeeds if and only if there are at
    least ReplicationFactor distinct zones: the greedy choice never paints
    itself into a corner, and never co-locates two replicas of a chain. *)
Theorem BuildInitialPlacement_zones cfg nodes :
  0 < config_SlotCount cfg -> 0 < config_ReplicationFactor cfg ->
  nodes <> [] -> NoDup (node_ID <$> nodes) -> "" ∉ node_ID <$> nodes ->
  blank key = false -> zoned nodes ->
  (exists st, BuildInitialPlacement cfg nodes = Ok st) <->
  config_ReplicationFactor cfg <= Z.of_nat (size (zones nodes)).
Proof.
  intros Hsc Hrf Hne Hnd Hempty Hkey Hz.
  destruct (normalizeNodes_total nodes Hne Hnd Hempty) as (normalized & byID & order & Hnorm & Has).
  { intros n k v Hn. by apply (zoned_not_blank nodes). }
  destruct (zoned_normalized _ _ _ _ Hz Has) as [Hz' Hzs]. rw -Hzs.
  pose proof (normalized_indexed _ _ _ _ Has) as Hidx.
  unfold BuildInitialPlacement, validateConfig, reject.
  destruct (Z.leb_spec (config_SlotCount cfg) 0); [lia|].
  destruct (Z.leb_spec (config_ReplicationFactor cfg) 0); [lia|].
  rw (bool_decide_false (length nodes = 0%nat)); [by destruct nodes|]. cbn. rw Hnorm. cbn.
  destruct (Z.ltb_spec (Z.of_nat (length normalized)) (config_ReplicationFactor cfg)) as [Hlt|Hge].
  - split; [by intros [? ?]|]. intros Hle. exfalso. unfold zones in Hle.
    pose proof (size_list_to_set_le (zone <$> normalized)) as Hs.
    rw length_fmap in Hs. lia.
  - cbn. split.
    + intros [st (chains & Hch & _)%bind_Ok].
      destruct (res_sat_Ok _ _ _ _ (buildSteadyStateChains_steady (config_SlotCount cfg)
        (config_ReplicationFactor cfg) normalized byID Hidx ltac:(lia) ltac:(lia)) Hch)
        as [Hlen Hall].
      destruct (lookup_lt_is_Some_2 chains 0) as [c Hc]; [lia|].
      destruct (chain_zones _ _ _ _ _ Hz' Hidx (Hall _ _ Hc)) as [Hsub%subseteq_size Hsize]. lia.
    + intros Hle.
      pose proof (buildSteadyStateChains_final (config_ReplicationFactor cfg) normalized byID
        (fun _ => False) ltac:(lia) Hidx
        (fun slot p c => zoned_never_stuck normalized byID _ slot p c Hz' Hidx Hle)
        (config_SlotCount cfg) ltac:(lia)) as H'.
      destruct (buildSteadyStateChains _ _ _ _); [eauto|done].
Qed.
End zones.

Lemma BuildInitialPlacement_zones_witness :
  exists st, BuildInitialPlacement demo_cfg demo_nodes = Ok st.
Proof.
  apply (BuildInitialPlacement_zones "zone" demo_cfg demo_nodes).
  - done.
  - done.
  - done.
  - apply (bool_decide_unpack _). vm_compute. exact I.
  - apply (bool_decide_unpack _). vm_compute. exact I.
  - reflexivity.
  - intros n Hn. unfold demo_nodes in Hn. set_unfold in Hn.
    destruct Hn as [->|[->|[->|[->|[]]]]]; split; reflexivity.
  - vm_compute. discriminate.
Defined.

(** ** Clusters of exactly ReplicationFactor nodes *)
Definition rotate {A} (n : nat) (l : list A) : list A := drop n l ++ take n l.

Lemma rebalance_rotates slot c :
  0 <= slot ->
  replicaIDs (chain_Replicas (rebalanceSteadyStateChain slot c)) =
  rotate (Z.to_nat (slot mod Z.of_nat (length (chain_Replicas c))))
    (sort_Strings (replicaIDs (chain_Replicas c))).
Proof.
  intros Hs. unfold rebalanceSteadyStateChain.
  destruct (Nat.leb_spec (length (chain_Replicas c)) 1) as [Hle|Hgt].
  - unfold cloneChain. cbn. destruct (chain_Replicas c) as [|r [|]]; cbn in *; [| |lia].
    + unfold rotate. by rw drop_nil take_nil.
    + by rw Z.mod_1_r.
  - cbn. assert (length (sort_Strings (replicaIDs (chain_Replicas c))) =
      length (chain_Replicas c)) as ->.
    { unfold sort_Strings, replicaIDs. by rw length_isort length_fmap. }
    rw Z.rem_mod_nonneg //; [lia|]. unfold replicaIDs at 1.
    rw -list_fmap_compose list_fmap_id. done.
Qed.

(** With exactly ReplicationFactor nodes every node is in every chain, and
    slot s is the sorted list of node IDs rotated by s: consecutive slots have
    consecutive heads and tails, so both roles go round-robin over the nodes. *)
Theorem BuildInitialPlacement_round_robin cfg nodes st i c :
  Z.of_nat (length nodes) = config_ReplicationFactor cfg ->
  BuildInitialPlacement cfg nodes = Ok st -> cs_Chains st !! i = Some c ->
  replicaIDs (chain_Replicas c) =
  rotate (i mod length nodes) (sort_Strings (node_ID <$> nodes)).
Proof.
  intros Hn Hok Hc. unfold BuildInitialPlacement in Hok.
  apply bind_Ok in Hok as ([] & Hcfg & Hok).
  unfold validateConfig in Hcfg. apply bind_Ok in Hcfg as ([] & [? _]%reject_Ok & [? _]%reject_Ok).
  rw bool_decide_false in Hok; [lia|].
  apply bind_Ok in Hok as ([[normalized byID] order] & Hnorm & Hok).
  apply bind_Ok in Hok as ([] & [Hle _]%reject_Ok & Hok).
  apply bind_Ok in Hok as (chains & Hch & [= <-]). cbn in Hc.
  pose proof (res_sat_Ok _ _ _ _ (normalizeNodes_spec nodes) Hnorm) as Has. cbn in Has.
  destruct (normalized_nonempty _ _ _ _ Has) as [Hids Hlen].
  pose proof (res_sat_Ok _ _ _ _ (buildSteadyStateChains_final (config_ReplicationFactor cfg)
    normalized byID (fun _ => True) ltac:(lia) (normalized_indexed _ _ _ _ Has)
    (fun _ _ _ _ _ _ => I) (config_SlotCount cfg) ltac:(lia)) Hch) as [_ Hall].
  destruct (Hall i c Hc) as (t & Ht & ->). rw Hlen Hn Z.eqb_refl rebalance_rotates; [lia|].
  destruct Ht. rw steady_length0 -Hn -Nat2Z.inj_mod Nat2Z.id. f_equal.
  apply sort_Strings_perm. rw Hids in steady_known0. apply NoDup_incl_perm; [done|done|].
  unfold replicaIDs. rw !length_fmap. lia.
Qed.

Definition demo_state3 : ClusterState :=
  ok_or demo_state (BuildInitialPlacement demo_cfg (take 3 demo_nodes)).
Definition demo_chain4 : Chain :=
  default {| chain_Slot := 0; chain_Replicas := [] |} (cs_Chains demo_state3 !! 4%nat).

Lemma BuildInitialPlacement_round_robin_witness :
  replicaIDs (chain_Replicas demo_chain4) =
  rotate (4 mod 3) (sort_Strings (node_ID <$> take 3 demo_nodes)).
Proof.
  refine (BuildInitialPlacement_round_robin demo_cfg (take 3 demo_nodes) demo_state3 4
    demo_chain4 _ _ _).
  - reflexivity.
  - vm_compute. reflexivity.
  - vm_compute. reflexivity.
Defined.

(** ** More nodes than replicas: the greedy order starves *)
Definition plain_node (id : string) : Node :=
  {| node_ID := id; node_RPCAddress := ""; node_FailureDomains := ∅ |}.

Definition heads_of (st : ClusterState) (id : string) : nat :=
  length (List.filter (fun c => bool_decide (head (replicaIDs (chain_Replicas c)) = Some id))
    (cs_Chains st)).

Definition tails_of (st : ClusterState) (id : string) : nat :=
  length (List.filter (fun c => bool_decide (last (replicaIDs (chain_Replicas c)) = Some id))
    (cs_Chains st)).

(** With three nodes and replication factor two the balance the ordering of
    [compareNodes] aims at is not reached: the node with the fewest tails is
    placed first, so it becomes the head and never the tail again.  Over 256
    slots node c heads 255 chains, a heads one, b none, and c is no tail. *)
Theorem BuildInitialPlacement_starvation :
  match BuildInitialPlacement {| config_SlotCount := 256; config_ReplicationFactor := 2 |}
          [plain_node "a"; plain_node "b"; plain_node "c"] with
  | Ok st => heads_of st "a" = 1%nat /\ heads_of st "b" = 0%nat /\ heads_of st "c" = 255%nat /\
             tails_of st "a" = 128%nat /\ tails_of st "b" = 128%nat /\ tails_of st "c" = 0%nat
  | Err _ => False
  end.
Proof. vm_compute. repeat split. Qed.
