(* ===== verification/Reconfig.v ===== *)
(** * Reconfiguration planning (src/coordinator/coordinator.go)

    [cloneAndValidateState], the event handlers, the passes of
    [reconcileState], [PlanReconfiguration] and [ApplyProgress].  The working
    state is passed and returned; [chain := &state.Chains[slot]] is a
    [chain_at] and the writes through the pointer a [put_chain].  Every
    caller drops the working state when an error is returned. *)

From S2P Require Import Prelude.
From S2P Require Import CoordTypes.
From S2P Require Import Placement.

Open Scope Z_scope.

(** ** State validation *)
Definition cloneNode (node : Node) : Node :=
  {| node_ID := node_ID node; node_RPCAddress := node_RPCAddress node;
     node_FailureDomains := cloneFailureDomains (node_FailureDomains node) |}.

(** [for id, ready := range m { if ready { cloned[id] = true } }]. *)
Definition clone_true (m : gmap string bool) : gmap string bool :=
  filter (fun '(_, b) => b = true) m.

(** The loop over [NodeOrder]: unknown and repeated entries are errors, a
    missing health entry becomes alive. *)
Definition checkOrderEntry (nodesByID : gmap string Node)
    (acc : gset string * gmap string NodeHealth) (id : string)
    : res coord_error (gset string * gmap string NodeHealth) :=
  let '(seen, health) := acc in
  _ ← reject (bool_decide (nodesByID !! id = None)) ErrInvalidConfig;
  _ ← reject (bool_decide (id ∈ seen)) ErrInvalidConfig;
  Ok ({[id]} ∪ seen,
      match health !! id with Some _ => health | None => <[id := NodeHealthAlive]> health end).

Definition cloneAndValidateState (state : ClusterState) : res coord_error ClusterState :=
  _ ← validateConfig {| config_SlotCount := cs_SlotCount state;
                        config_ReplicationFactor := cs_ReplicationFactor state |};
  _ ← reject (negb (Z.of_nat (length (cs_Chains state)) =? cs_SlotCount state)) ErrInvalidConfig;
  let chains := imap (fun i chain =>
    {| chain_Slot := Z.of_nat i; chain_Replicas := chain_Replicas (cloneChain chain) |})
    (cs_Chains state) in
  let nodesByID := cloneNode <$> cs_NodesByID state in
  let health := clone_map (cs_NodeHealthByID state) in
  let order :=
    if bool_decide (cs_NodeOrder state = [])
    then sort_Strings (map_to_list nodesByID).*1 else cs_NodeOrder state in
  '(_, health) ← res_fold (checkOrderEntry nodesByID) (∅, health) order;
  let health := foldl (fun h id =>
    match h !! id with Some _ => h | None => <[id := NodeHealthAlive]> h end)
    health (map_to_list nodesByID).*1 in
  _ ← reject (existsb (fun chain =>
        existsb (fun r => bool_decide (nodesByID !! replica_NodeID r = None))
          (chain_Replicas chain)) chains) ErrInvalidConfig;
  Ok {| cs_Chains := chains; cs_NodesByID := nodesByID; cs_NodeHealthByID := health;
        cs_ReadyNodeIDs := clone_true (cs_ReadyNodeIDs state);
        cs_DrainingNodeIDs := clone_true (cs_DrainingNodeIDs state);
        cs_NodeOrder := order; cs_SlotCount := cs_SlotCount state;
        cs_ReplicationFactor := cs_ReplicationFactor state |}.

(** ** Events *)
Definition addNode (state : ClusterState) (node : Node) (ready : bool)
    : res coord_error ClusterState :=
  '(normalizedNodes, nodesByID, nodeOrder) ← normalizeNodes [node];
  match normalizedNodes, nodeOrder with
  | normalizedNode :: _, nodeID :: _ =>
      match cs_NodesByID state !! nodeID with
      | Some existing =>
          _ ← reject (is_dead (cs_NodeHealthByID state) nodeID) ErrInvalidEvent;
          _ ← reject (nodeIdentityConflict existing normalizedNode) ErrInvalidEvent;
          Ok (if ready then set_ReadyNodeIDs state (<[nodeID := true]> (cs_ReadyNodeIDs state))
              else state)
      | None =>
          Ok {| cs_Chains := cs_Chains state;
                cs_NodesByID := <[nodeID := node_of nodesByID nodeID]> (cs_NodesByID state);
                cs_NodeHealthByID := <[nodeID := NodeHealthAlive]> (cs_NodeHealthByID state);
                cs_ReadyNodeIDs :=
                  if ready then <[nodeID := true]> (cs_ReadyNodeIDs state)
                  else delete nodeID (cs_ReadyNodeIDs state);
                cs_DrainingNodeIDs := delete (node_ID normalizedNode) (cs_DrainingNodeIDs state);
                cs_NodeOrder := cs_NodeOrder state ++ [nodeID];
                cs_SlotCount := cs_SlotCount state;
                cs_ReplicationFactor := cs_ReplicationFactor state |}
      end
  | _, _ => Err GoPanic
  end.

Definition beginDrainNode (state : ClusterState) (nodeID : string) : res coord_error ClusterState :=
  _ ← reject (String.eqb nodeID "") ErrInvalidEvent;
  _ ← reject (bool_decide (cs_NodesByID state !! nodeID = None)) ErrInvalidEvent;
  _ ← reject (is_dead (cs_NodeHealthByID state) nodeID) ErrInvalidEvent;
  Ok (set_DrainingNodeIDs state (<[nodeID := true]> (cs_DrainingNodeIDs state))).

Definition markNodeDead (state : ClusterState) (nodeID : string) : res coord_error ClusterState :=
  _ ← reject (String.eqb nodeID "") ErrInvalidEvent;
  _ ← reject (bool_decide (cs_NodesByID state !! nodeID = None)) ErrInvalidEvent;
  Ok {| cs_Chains := cs_Chains state; cs_NodesByID := cs_NodesByID state;
        cs_NodeHealthByID := <[nodeID := NodeHealthDead]> (cs_NodeHealthByID state);
        cs_ReadyNodeIDs := delete nodeID (cs_ReadyNodeIDs state);
        cs_DrainingNodeIDs := delete nodeID (cs_DrainingNodeIDs state);
        cs_NodeOrder := cs_NodeOrder state; cs_SlotCount := cs_SlotCount state;
        cs_ReplicationFactor := cs_ReplicationFactor state |}.

Definition applyProgressEvent (state : ClusterState) (event : Event)
    : res coord_error ClusterState :=
  let slot := event_Slot event in
  let nodeID := event_NodeID event in
  _ ← reject ((slot <? 0) || (cs_SlotCount state <=? slot)) ErrInvalidEvent;
  _ ← reject (String.eqb nodeID "") ErrInvalidEvent;
  chain ← chain_at state slot;
  match findReplicaIndex chain nodeID with
  | None => Err ErrIllegalStateTransition
  | Some i =>
      match chain_Replicas chain !! i with
      | None => Err GoPanic
      | Some r =>
          match event_Kind event with
          | EventKindReplicaBecameActive =>
              _ ← reject (negb (is_state ReplicaStateJoining r)) ErrIllegalStateTransition;
              Ok (put_chain state slot (set_Replicas chain
                (<[i := {| replica_NodeID := replica_NodeID r;
                           replica_State := ReplicaStateActive |}]> (chain_Replicas chain))))
          | EventKindReplicaRemoved =>
              _ ← reject (negb (is_state ReplicaStateLeaving r) &&
                          negb (is_dead (cs_NodeHealthByID state) nodeID))
                    ErrIllegalStateTransition;
              let state' := put_chain state slot
                (set_Replicas chain (delete i (chain_Replicas chain))) in
              Ok (if negb (mget (cs_DrainingNodeIDs state') nodeID) &&
                     negb (is_dead (cs_NodeHealthByID state') nodeID) &&
                     (countReplicasForNode state' nodeID =? 0)
                  then set_DrainingNodeIDs state' (delete nodeID (cs_DrainingNodeIDs state'))
                  else state')
          | _ => Err ErrInvalidEvent
          end
      end
  end.

Definition applyEvent (state : ClusterState) (event : Event) : res coord_error ClusterState :=
  match event_Kind event with
  | EventKindRegisterNode => addNode state (event_Node event) false
  | EventKindAddNode => addNode state (event_Node event) true
  | EventKindBeginDrainNode => beginDrainNode state (event_NodeID event)
  | EventKindMarkNodeDead => markNodeDead state (event_NodeID event)
  | EventKindReplicaBecameActive | EventKindReplicaRemoved => applyProgressEvent state event
  | EventKindUnsupported _ => Err ErrInvalidEvent
  end.

Definition ApplyProgress (state : ClusterState) (event : Event) : res coord_error ClusterState :=
  working ← cloneAndValidateState state;
  match event_Kind event with
  | EventKindReplicaBecameActive | EventKindReplicaRemoved => applyProgressEvent working event
  | _ => Err ErrInvalidEvent
  end.

(** ** Candidates for a repair *)
Definition orderedNodes (state : ClusterState) (include : string -> bool) : list Node :=
  omap (fun nodeID => if include nodeID then cs_NodesByID state !! nodeID else None)
    (cs_NodeOrder state).

(** Alive, ready and not draining. *)
Definition assignable (state : ClusterState) (nodeID : string) : bool :=
  is_alive (cs_NodeHealthByID state) nodeID && mget (cs_ReadyNodeIDs state) nodeID &&
  negb (mget (cs_DrainingNodeIDs state) nodeID).

Definition deriveChainCounts (health : gmap string NodeHealth)
    (counts : gmap string assignmentCounts) (chain : Chain) : gmap string assignmentCounts :=
  let lastAliveIndex := foldl (fun acc '(i, r) =>
    if is_dead health (replica_NodeID r) then acc else Some i) None
    (imap pair (chain_Replicas chain)) in
  foldl (fun counts '(i, r) =>
    if is_dead health (replica_NodeID r) then counts
    else
      let c := counts_of counts (replica_NodeID r) in
      <[replica_NodeID r :=
          {| headCount := if (i =? 0)%nat then headCount c + 1 else headCount c;
             tailCount := if bool_decide (Some i = lastAliveIndex)
                          then tailCount c + 1 else tailCount c;
             replicaCount := replicaCount c + 1 |}]> counts)
    counts (imap pair (chain_Replicas chain)).

Definition deriveAssignmentCounts (state : ClusterState) : gmap string assignmentCounts :=
  foldl (deriveChainCounts (cs_NodeHealthByID state)) ∅ (cs_Chains state).

Definition selectTailRepairCandidate (state : ClusterState) (chain : Chain) : option Node :=
  selectReplicaCandidate (orderedNodes state (assignable state)) chain
    (cs_NodesByID state) (deriveAssignmentCounts state).

Definition buildDesiredPlacementFromState (state : ClusterState)
    : res coord_error (option (list Chain)) :=
  let eligibleNodes := orderedNodes state (assignable state) in
  if Z.of_nat (length eligibleNodes) <? cs_ReplicationFactor state then Ok None
  else
    let nodesByID := foldl (fun m node => <[node_ID node := node]> m) ∅ eligibleNodes in
    chains ← buildSteadyStateChains (cs_SlotCount state) (cs_ReplicationFactor state)
               eligibleNodes nodesByID;
    Ok (Some chains).

Definition collectUnassignedNodeIDs (state : ClusterState) : list string :=
  let assigned : gset string :=
    list_to_set (cs_Chains state ≫= fun chain => replicaIDs (chain_Replicas chain)) in
  List.filter (fun nodeID => assignable state nodeID && negb (bool_decide (nodeID ∈ assigned)))
    (cs_NodeOrder state).

(** ** The passes over one slot

    Each returns the new state and, when the chain changed, the slot's plan. *)
Definition append_step (slot : Z) (nodeID replaced : string) : ReconfigurationStep :=
  {| step_Kind := StepKindAppendTail; step_Slot := slot; step_NodeID := nodeID;
     step_ReplacedNodeID := replaced |}.

Definition leaving_step (slot : Z) (nodeID : string) : ReconfigurationStep :=
  {| step_Kind := StepKindMarkLeaving; step_Slot := slot; step_NodeID := nodeID;
     step_ReplacedNodeID := "" |}.

Definition as_active (nodeID : string) : Replica :=
  {| replica_NodeID := nodeID; replica_State := ReplicaStateActive |}.
Definition as_joining (nodeID : string) : Replica :=
  {| replica_NodeID := nodeID; replica_State := ReplicaStateJoining |}.
Definition as_leaving (nodeID : string) : Replica :=
  {| replica_NodeID := nodeID; replica_State := ReplicaStateLeaving |}.

(** [for len(chain.Replicas) < state.ReplicationFactor] of [repairDeadReplicas]:
    every iteration grows the chain or breaks, so [rf - len] iterations are
    enough.  The state is threaded because [chain] points into it and the
    candidate is chosen from counts over all chains. *)
Fixpoint repairLoop (fuel : nat) (state : ClusterState) (slot : Z) (chain : Chain)
    (steps : list ReconfigurationStep) : ClusterState * Chain * list ReconfigurationStep :=
  match fuel with
  | O => (state, chain, steps)
  | S fuel' =>
      if Z.of_nat (length (chain_Replicas chain)) <? cs_ReplicationFactor state then
        match selectTailRepairCandidate state chain with
        | None => (state, chain, steps)
        | Some candidate =>
            let chain' := set_Replicas chain
              (chain_Replicas chain ++ [as_joining (node_ID candidate)]) in
            repairLoop fuel' (put_chain state slot chain') slot chain'
              (steps ++ [append_step slot (node_ID candidate) ""])
        end
      else (state, chain, steps)
  end.

Definition repairDeadReplicas (state : ClusterState) (slot : Z)
    : res coord_error (ClusterState * option SlotPlan) :=
  chain ← chain_at state slot;
  if negb (chainContainsDeadReplica chain (cs_NodeHealthByID state)) then Ok (state, None)
  else
    let before := cloneChain chain in
    let survivors := List.filter
      (fun r => negb (is_dead (cs_NodeHealthByID state) (replica_NodeID r)))
      (chain_Replicas chain) in
    _ ← reject (countActiveReplicas survivors =? 0) ErrBrokenChain;
    let chain := set_Replicas chain survivors in
    let '(state', chain', steps) :=
      repairLoop (Z.to_nat (cs_ReplicationFactor state)) (put_chain state slot chain) slot chain [] in
    Ok (state',
        if bool_decide (before = chain') then None
        else Some {| plan_Slot := slot; plan_Before := before;
                     plan_After := cloneChain chain'; plan_Steps := steps |}).

Definition appendDrainReplacement (state : ClusterState) (slot : Z)
    : res coord_error (ClusterState * option SlotPlan) :=
  chain ← chain_at state slot;
  if hasPendingReplicaState chain then Ok (state, None)
  else
    let replacedNodeID := firstActiveDrainingReplicaID chain (cs_DrainingNodeIDs state) in
    if String.eqb replacedNodeID "" then Ok (state, None)
    else
      match selectTailRepairCandidate state chain with
      | None => Err (PlacementError slot (Z.of_nat (length (chain_Replicas chain))))
      | Some candidate =>
          let chain' := set_Replicas chain
            (chain_Replicas chain ++ [as_joining (node_ID candidate)]) in
          Ok (put_chain state slot chain',
              Some {| plan_Slot := slot; plan_Before := cloneChain chain;
                      plan_After := cloneChain chain';
                      plan_Steps := [append_step slot (node_ID candidate) replacedNodeID] |})
      end.

Definition finalizeDrainReplacement (state : ClusterState) (slot : Z)
    : res coord_error (ClusterState * option SlotPlan) :=
  chain ← chain_at state slot;
  if hasJoiningReplica chain then Ok (state, None)
  else
    let drainingActiveIDs := activeReplicaIDsWithDrain chain (cs_DrainingNodeIDs state) in
    let targetActives := activeReplicaIDsExcludingDraining chain (cs_DrainingNodeIDs state) in
    if bool_decide (drainingActiveIDs = []) then Ok (state, None)
    else if negb (Z.of_nat (length targetActives) =? cs_ReplicationFactor state)
    then Ok (state, None)
    else
      let chain' := set_Replicas chain
        ((as_active <$> targetActives) ++ (as_leaving <$> drainingActiveIDs)) in
      Ok (put_chain state slot chain',
          Some {| plan_Slot := slot; plan_Before := cloneChain chain;
                  plan_After := cloneChain chain';
                  plan_Steps := leaving_step slot <$> drainingActiveIDs |}).

Definition finalizeJoinRebalance (state : ClusterState) (slot : Z) (desired : Chain)
    : res coord_error (ClusterState * option SlotPlan) :=
  chain ← chain_at state slot;
  if hasJoiningReplica chain || hasLeavingReplica chain then Ok (state, None)
  else if negb (String.eqb (firstActiveDrainingReplicaID chain (cs_DrainingNodeIDs state)) "")
  then Ok (state, None)
  else
    let currentActives := activeReplicaIDs chain in
    let desiredActives := replicaIDs (chain_Replicas desired) in
    if negb (Z.of_nat (length currentActives) =? cs_ReplicationFactor state + 1)
    then Ok (state, None)
    else
      match extraNode currentActives desiredActives with
      | None => Ok (state, None)
      | Some extraNodeID =>
          match lastActiveReplicaID chain with
          | None => Ok (state, None)
          | Some newNodeID =>
              if String.eqb newNodeID extraNodeID || negb (containsNodeID desiredActives newNodeID)
              then Ok (state, None)
              else
                same ← sameRelativeOrderForJoinFinalization currentActives extraNodeID
                         newNodeID desiredActives;
                if negb same then Ok (state, None)
                else
                  let chain' := set_Replicas chain
                    ((as_active <$> desiredActives) ++ [as_leaving extraNodeID]) in
                  Ok (put_chain state slot chain',
                      Some {| plan_Slot := slot; plan_Before := cloneChain chain;
                              plan_After := cloneChain chain';
                              plan_Steps := [leaving_step slot extraNodeID] |})
          end
      end.

Definition appendJoinRebalance (state : ClusterState) (slot : Z) (desired : Chain)
    : res coord_error (ClusterState * option SlotPlan) :=
  chain ← chain_at state slot;
  if hasPendingReplicaState chain then Ok (state, None)
  else if negb (String.eqb (firstActiveDrainingReplicaID chain (cs_DrainingNodeIDs state)) "")
  then Ok (state, None)
  else if chainContainsDeadReplica chain (cs_NodeHealthByID state) then Ok (state, None)
  else
    let currentActives := activeReplicaIDs chain in
    let desiredActives := replicaIDs (chain_Replicas desired) in
    if negb (Z.of_nat (length currentActives) =? cs_ReplicationFactor state) ||
       negb (Z.of_nat (length desiredActives) =? cs_ReplicationFactor state)
    then Ok (state, None)
    else
      match oneMemberReplacement currentActives desiredActives with
      | None =>
          if disjointChain currentActives desiredActives then Err ErrBrokenChain
          else Ok (state, None)
      | Some (addedNodeID, removedNodeID) =>
          same ← sameRelativeOrderWithout currentActives removedNodeID desiredActives addedNodeID;
          if negb same then Ok (state, None)
          else
            let chain' := set_Replicas chain (chain_Replicas chain ++ [as_joining addedNodeID]) in
            Ok (put_chain state slot chain',
                Some {| plan_Slot := slot; plan_Before := cloneChain chain;
                        plan_After := cloneChain chain';
                        plan_Steps := [append_step slot addedNodeID removedNodeID] |})
      end.

Definition appendMissingDesiredReplicas (state : ClusterState) (slot : Z) (desired : Chain)
    : res coord_error (ClusterState * option SlotPlan) :=
  chain ← chain_at state slot;
  let rf := cs_ReplicationFactor state in
  if hasPendingReplicaState chain then Ok (state, None)
  else if rf <=? Z.of_nat (length (chain_Replicas chain)) then Ok (state, None)
  else if bool_decide (chain_Replicas desired = []) then Ok (state, None)
  else
    let currentIDs := replicaIDs (chain_Replicas chain) in
    let desiredIDs := replicaIDs (chain_Replicas desired) in
    if (length desiredIDs <? length currentIDs)%nat ||
       negb (isPrefix currentIDs (take (length currentIDs) desiredIDs))
    then Ok (state, None)
    else
      match desiredIDs !! length currentIDs with
      | None => Err GoPanic
      | Some nextNodeID =>
          if negb (assignable state nextNodeID) then Ok (state, None)
          else if containsNodeID currentIDs nextNodeID then Ok (state, None)
          else
            replacedNodeID ←
              (if rf <=? Z.of_nat (length desiredIDs) then
                 match zidx desiredIDs (rf - 1) with Some id => Ok id | None => Err GoPanic end
               else Ok "");
            let chain' := set_Replicas chain (chain_Replicas chain ++ [as_joining nextNodeID]) in
            Ok (put_chain state slot chain',
                Some {| plan_Slot := slot; plan_Before := cloneChain chain;
                        plan_After := cloneChain chain';
                        plan_Steps := [append_step slot nextNodeID replacedNodeID] |})
      end.

(** ** The passes over all slots *)
Definition remainingChangedChainBudget (policy : ReconfigurationPolicy) (alreadyChanged : Z) : Z :=
  if policy_MaxChangedChains policy <=? 0 then -1
  else
    let remaining := policy_MaxChangedChains policy - alreadyChanged in
    if remaining <? 0 then 0 else remaining.

(** [left] comes no later than [right] in the order [sort.Slice] is given. *)
Definition priority_leb (state : ClusterState) (left right : Z) : bool :=
  match zidx (cs_Chains state) left, zidx (cs_Chains state) right with
  | Some l, Some r =>
      if negb (length (chain_Replicas l) =? length (chain_Replicas r))%nat
      then (length (chain_Replicas l) <? length (chain_Replicas r))%nat
      else chain_Slot l <=? chain_Slot r
  | _, _ => true
  end.

(** Sorting two or more slots compares each of them, indexing [state.Chains]. *)
Definition appendPrioritySlots (state : ClusterState) : res coord_error (list Z) :=
  let slots := chain_Slot <$> cs_Chains state in
  _ ← reject ((2 <=? length slots)%nat &&
              existsb (fun slot => bool_decide (zidx (cs_Chains state) slot = None)) slots) GoPanic;
  Ok (isort (priority_leb state) slots).

(** A pass: a slot step threaded through the state, collecting the plans. *)
Definition pass_step
    (step : ClusterState -> Z -> res coord_error (ClusterState * option SlotPlan))
    (acc : ClusterState * list SlotPlan) (slot : Z)
    : res coord_error (ClusterState * list SlotPlan) :=
  '(state', changed) ← step acc.1 slot;
  Ok (state', acc.2 ++ option_list changed).

Definition run_pass
    (step : ClusterState -> Z -> res coord_error (ClusterState * option SlotPlan))
    (acc : ClusterState * list SlotPlan) (slots : list Z)
    : res coord_error (ClusterState * list SlotPlan) :=
  res_fold (pass_step step) acc slots.

(** A pass that stops once [remaining] chains were changed; a negative
    [remaining] is no bound. *)
Definition budget_step
    (step : ClusterState -> Z -> res coord_error (ClusterState * option SlotPlan))
    (acc : ClusterState * list SlotPlan * Z) (slot : Z)
    : res coord_error (ClusterState * list SlotPlan * Z) :=
  let '(state, plans, remaining) := acc in
  if remaining =? 0 then Ok acc
  else
    '(state', changed) ← step state slot;
    match changed with
    | None => Ok (state', plans, remaining)
    | Some plan =>
        Ok (state', plans ++ [plan], if 0 <? remaining then remaining - 1 else remaining)
    end.

Definition run_budget_pass
    (step : ClusterState -> Z -> res coord_error (ClusterState * option SlotPlan))
    (acc : ClusterState * list SlotPlan) (remaining : Z) (slots : list Z)
    : res coord_error (ClusterState * list SlotPlan) :=
  '(state', plans, _) ← res_fold (budget_step step) (acc.1, acc.2, remaining) slots;
  Ok (state', plans).

(** A slot step that reads [desiredChains[slot]]. *)
Definition with_desired (desired : list Chain)
    (step : ClusterState -> Z -> Chain -> res coord_error (ClusterState * option SlotPlan))
    (state : ClusterState) (slot : Z) : res coord_error (ClusterState * option SlotPlan) :=
  match zidx desired slot with Some c => step state slot c | None => Err GoPanic end.

Definition reconcileState (state : ClusterState) (policy : ReconfigurationPolicy)
    : res coord_error (ClusterState * list SlotPlan) :=
  let slots := zrange (cs_SlotCount state) in
  acc ← run_pass repairDeadReplicas (state, []) slots;
  acc ← run_pass finalizeDrainReplacement acc slots;
  desired ← buildDesiredPlacementFromState acc.1;
  acc ← match desired with
        | Some chains => run_pass (with_desired chains finalizeJoinRebalance) acc slots
        | None => Ok acc
        end;
  if negb (bool_decide (acc.2 = [])) then Ok acc
  else
    acc ← match desired with
          | Some chains =>
              priority ← appendPrioritySlots acc.1;
              run_budget_pass (with_desired chains appendMissingDesiredReplicas) acc
                (remainingChangedChainBudget policy (Z.of_nat (length acc.2))) priority
          | None => Ok acc
          end;
    if negb (bool_decide (acc.2 = [])) then Ok acc
    else
      acc ← run_pass appendDrainReplacement acc slots;
      match desired with
      | Some chains =>
          if 0 <? policy_MaxChangedChains policy then
            run_budget_pass (with_desired chains appendJoinRebalance) acc
              (policy_MaxChangedChains policy) slots
          else Ok acc
      | None => Ok acc
      end.

(** One iteration of the loop over the events. *)
Definition plan_event (policy : ReconfigurationPolicy) (acc : ClusterState * list SlotPlan)
    (event : Event) : res coord_error (ClusterState * list SlotPlan) :=
  working ← applyEvent acc.1 event;
  '(working, slotPlans) ← reconcileState working policy;
  Ok (working, acc.2 ++ slotPlans).

Definition PlanReconfiguration (state : ClusterState) (events : list Event)
    (policy : ReconfigurationPolicy) : res coord_error ReconfigurationPlan :=
  _ ← reject (policy_MaxChangedChains policy <? 0) ErrInvalidConfig;
  working ← cloneAndValidateState state;
  '(working, changedSlots) ←
    (if bool_decide (events = []) then reconcileState working policy
     else res_fold (plan_event policy) (working, []) events);
  Ok {| rp_UpdatedState := working;
        rp_UnassignedNodeIDs := collectUnassignedNodeIDs working;
        rp_ChangedSlots := changedSlots |}.
