(* ===== verification/ReconfigProps.v ===== *)
(** * What reconfiguration planning guarantees

    The invariant of a cluster state, the contract of a planned chain change,
    one lemma per pass of [reconcileState] showing that it meets the contract,
    and the theorems about [reconcileState], [PlanReconfiguration] and
    [ApplyProgress] that follow from them. *)

From S2P Require Import Prelude.
From S2P Require Import CoordTypes.
From S2P Require Import Placement.
From S2P Require Import Reconfig.

Open Scope Z_scope.

(** ** Specification *)
Definition ids_of (c : Chain) : list string := replicaIDs (chain_Replicas c).

Definition active_in (id : string) (c : Chain) : Prop := as_active id ∈ chain_Replicas c.

Definition pending_count (c : Chain) : nat :=
  length (List.filter (fun r => negb (is_state ReplicaStateLeaving r)) (chain_Replicas c)).

(** While a replica is leaving, at most [rf] others serve or join. *)
Definition leaving_bounded (rf : Z) (c : Chain) : Prop :=
  hasLeavingReplica c = true -> Z.of_nat (pending_count c) <= rf.

(** What a chain satisfies in every state the planner produces. *)
Record chain_wf (rf : Z) (known : gmap string Node) (slot : Z) (c : Chain) : Prop := {
  cw_slot : chain_Slot c = slot;
  cw_NoDup : NoDup (ids_of c);
  cw_known : forall id, id ∈ ids_of c -> is_Some (known !! id);
  cw_leaving : leaving_bounded rf c;
}.

Record cluster_wf (st : ClusterState) : Prop := {
  wf_slots : 0 < cs_SlotCount st;
  wf_rf : 0 < cs_ReplicationFactor st;
  wf_length : Z.of_nat (length (cs_Chains st)) = cs_SlotCount st;
  wf_chains : forall i c, cs_Chains st !! i = Some c ->
    chain_wf (cs_ReplicationFactor st) (cs_NodesByID st) (Z.of_nat i) c;
  wf_ids : forall id n, cs_NodesByID st !! id = Some n -> node_ID n = id /\ id <> "";
  wf_order : NoDup (cs_NodeOrder st);
  wf_order_known : forall id, id ∈ cs_NodeOrder st -> is_Some (cs_NodesByID st !! id);
  wf_health : forall id, is_Some (cs_NodesByID st !! id) -> is_Some (cs_NodeHealthByID st !! id);
}.

(** What a caller must know of a state it hands to the planner; the rest of
    [cluster_wf] is checked or repaired by [cloneAndValidateState]. *)
Record input_wf (st : ClusterState) : Prop := {
  in_ids : forall id n, cs_NodesByID st !! id = Some n -> node_ID n = id /\ id <> "";
  in_NoDup : forall c, c ∈ cs_Chains st -> NoDup (ids_of c);
  in_leaving : forall c, c ∈ cs_Chains st -> leaving_bounded (cs_ReplicationFactor st) c;
}.

(** The contract of one planned change of one chain. *)
Record change_ok (st : ClusterState) (before after : Chain) : Prop := {
  ch_wf : chain_wf (cs_ReplicationFactor st) (cs_NodesByID st) (chain_Slot before) after;
  (** no replica starts to serve because of a plan *)
  ch_promote : forall id, active_in id after -> active_in id before;
  (** only replicas on dead nodes are dropped *)
  ch_keep : forall id, id ∈ ids_of before ->
    is_dead (cs_NodeHealthByID st) id = false -> id ∈ ids_of after;
  (** newcomers join, on nodes that may be assigned replicas *)
  ch_new : forall r, r ∈ chain_Replicas after -> replica_NodeID r ∉ ids_of before ->
    replica_State r = ReplicaStateJoining /\ assignable st (replica_NodeID r) = true;
  (** a serving replica keeps serving *)
  ch_anchor : ids_of before = [] \/ exists id, active_in id before /\ active_in id after;
}.

(** How a plan's steps describe the change: survivors followed by the appended
    joining replicas, or exactly [rf] serving replicas followed by the ones
    marked leaving. *)
Definition plan_shape (st : ClusterState) (p : SlotPlan) : Prop :=
  let before := chain_Replicas (plan_Before p) in
  let after := chain_Replicas (plan_After p) in
  let named := step_NodeID <$> plan_Steps p in
  Forall (fun s => step_Slot s = plan_Slot p) (plan_Steps p) /\
  ((Forall (fun s => step_Kind s = StepKindAppendTail) (plan_Steps p) /\
    after = List.filter (fun r => negb (is_dead (cs_NodeHealthByID st) (replica_NodeID r))) before ++
            (as_joining <$> named)) \/
   (Forall (fun s => step_Kind s = StepKindMarkLeaving) (plan_Steps p) /\ named <> [] /\
    exists serving, Z.of_nat (length serving) = cs_ReplicationFactor st /\
      after = (as_active <$> serving) ++ (as_leaving <$> named))).

(** Everything but the chains is left alone. *)
Definition same_nodes (st st' : ClusterState) : Prop := st' = set_Chains st (cs_Chains st').

(** The outcome of one slot step: nothing, or one contract-abiding change. *)
Definition step_outcome (st : ClusterState) (slot : Z) (out : ClusterState * option SlotPlan) : Prop :=
  match out.2 with
  | None => out.1 = st
  | Some p => plan_Slot p = slot /\ zidx (cs_Chains st) slot = Some (plan_Before p) /\
              out.1 = put_chain st slot (plan_After p) /\
              change_ok st (plan_Before p) (plan_After p) /\ plan_shape st p
  end.

Definition no_panic (e : coord_error) : Prop := e <> GoPanic.

(** ** Basic facts *)
Lemma is_state_spec s r : is_state s r = true <-> replica_State r = s.
Proof. unfold is_state. by destruct s, (replica_State r). Qed.

Lemma hasState_false s (rs : list Replica) :
  existsb (is_state s) rs = false <-> Forall (fun r => replica_State r <> s) rs.
Proof.
  rw -not_true_iff_false existsb_exists Forall_forall.
  setoid_rewrite <- list_elem_of_In. setoid_rewrite is_state_spec. naive_solver.
Qed.

Lemma not_pending_active c :
  hasPendingReplicaState c = false ->
  Forall (fun r => replica_State r = ReplicaStateActive) (chain_Replicas c).
Proof.
  unfold hasPendingReplicaState, hasJoiningReplica, hasLeavingReplica. intros H. unbool.
  apply hasState_false in H. apply hasState_false in H0. rw Forall_forall in H. rw Forall_forall in H0.
  apply Forall_forall. intros r Hr. specialize (H r Hr). specialize (H0 r Hr).
  by destruct (replica_State r).
Qed.

Lemma elem_of_ids id c : id ∈ ids_of c <-> exists r, r ∈ chain_Replicas c /\ replica_NodeID r = id.
Proof. unfold ids_of, replicaIDs. rw list_elem_of_fmap. naive_solver. Qed.

Lemma active_in_ids id c : active_in id c -> id ∈ ids_of c.
Proof. intros H. apply elem_of_ids. by exists (as_active id). Qed.

Lemma elem_of_active_replicas r :
  replica_State r = ReplicaStateActive -> r = as_active (replica_NodeID r).
Proof. destruct r. cbn. by intros ->. Qed.

Lemma all_active_in id c :
  Forall (fun r => replica_State r = ReplicaStateActive) (chain_Replicas c) ->
  id ∈ ids_of c -> active_in id c.
Proof.
  rw Forall_forall. intros Hall (r & Hr & <-)%elem_of_ids.
  unfold active_in. by rw -elem_of_active_replicas; [auto|].
Qed.

Lemma elem_of_activeReplicaIDs id c : id ∈ activeReplicaIDs c <-> active_in id c.
Proof.
  unfold activeReplicaIDs, active_in. rw list_elem_of_fmap. split.
  - intros (r & -> & [Hr Hs]%list_elem_of_In%filter_In).
    rw -elem_of_active_replicas; [by apply is_state_spec|by apply list_elem_of_In].
  - intros H. exists (as_active id). split; [done|]. apply list_elem_of_In, filter_In.
    split; [by apply list_elem_of_In|done].
Qed.

Lemma elem_of_drain_split id c draining b :
  id ∈ replica_NodeID <$> List.filter
    (fun r => is_state ReplicaStateActive r && eqb (mget draining (replica_NodeID r)) b)
    (chain_Replicas c) <-> active_in id c /\ mget draining id = b.
Proof.
  rw list_elem_of_fmap. split.
  - intros (r & -> & [Hr Hs]%list_elem_of_In%filter_In). apply andb_true_iff in Hs as [Hs Hb].
    apply eqb_prop in Hb. split; [|done]. unfold active_in.
    rw -elem_of_active_replicas; [by apply is_state_spec|by apply list_elem_of_In].
  - intros [H <-]. exists (as_active id). split; [done|]. apply list_elem_of_In, filter_In.
    split; [by apply list_elem_of_In|]. cbn. apply eqb_reflx.
Qed.

Lemma chain_at_ok st slot c : chain_at st slot = Ok c <-> zidx (cs_Chains st) slot = Some c.
Proof. unfold chain_at. destruct (zidx _ _); naive_solver. Qed.

Lemma chain_at_wf st slot :
  cluster_wf st -> 0 <= slot < cs_SlotCount st ->
  exists c, chain_at st slot = Ok c /\ zidx (cs_Chains st) slot = Some c /\
    chain_wf (cs_ReplicationFactor st) (cs_NodesByID st) slot c.
Proof.
  intros Hwf Hs. destruct (zidx_is_Some (cs_Chains st) slot) as [c Hc].
  { by rw (wf_length _ Hwf). }
  exists c. rw chain_at_ok. repeat split; [done|done|..].
  all: apply zidx_Some in Hc as [Hge Hc]; pose proof (wf_chains _ Hwf _ _ Hc) as [];
    rw Z2Nat.id in cw_slot0; [lia|done..].
Qed.

(** ** Building changes that meet the contract *)
Lemma change_refl st c slot :
  chain_wf (cs_ReplicationFactor st) (cs_NodesByID st) slot c ->
  (ids_of c = [] \/ exists id, active_in id c) -> change_ok st c c.
Proof.
  intros [<- ? ? ?] Ha. constructor; [by constructor|auto|auto| |].
  - intros r Hr []. apply elem_of_ids. eauto.
  - naive_solver.
Qed.

Lemma not_pending_anchor c :
  hasPendingReplicaState c = false -> ids_of c = [] \/ exists id, active_in id c.
Proof.
  intros Hp%not_pending_active. destruct (ids_of c) as [|id l] eqn:Hids; [auto|].
  right. exists id. apply all_active_in; [done|]. rw Hids. set_solver.
Qed.

Lemma ids_of_append c rs : ids_of (set_Replicas c (chain_Replicas c ++ rs)) = ids_of c ++ replicaIDs rs.
Proof. unfold ids_of. cbn. apply replicaIDs_app. Qed.

Lemma pending_count_le c :
  hasLeavingReplica c = true -> (pending_count c < length (chain_Replicas c))%nat.
Proof.
  unfold hasLeavingReplica, pending_count. induction (chain_Replicas c) as [|r rs IH]; [done|]. cbn.
  destruct (is_state ReplicaStateLeaving r); cbn; [|intros H; specialize (IH H); lia].
  intros _. pose proof (List.filter_length_le (fun r => negb (is_state ReplicaStateLeaving r)) rs). lia.
Qed.

Lemma leaving_bounded_append rf c id :
  hasLeavingReplica c = false \/ Z.of_nat (length (chain_Replicas c)) < rf ->
  leaving_bounded rf (set_Replicas c (chain_Replicas c ++ [as_joining id])).
Proof.
  intros H Hl.
  assert (hasLeavingReplica c = true) as Hl'.
  { unfold hasLeavingReplica in *. cbn [set_Replicas chain_Replicas] in Hl.
    rw existsb_app orb_true_iff in Hl. by destruct Hl as [Hl|Hl]. }
  destruct H as [H|H]; [by rw H in Hl'|]. pose proof (pending_count_le c Hl'). unfold pending_count in *.
  cbn [set_Replicas chain_Replicas]. rw List.filter_app length_app.
  change (length (List.filter _ [as_joining id])) with 1%nat. lia.
Qed.

Lemma change_append st before c id :
  change_ok st before c -> id ∉ ids_of c -> is_Some (cs_NodesByID st !! id) ->
  assignable st id = true ->
  hasLeavingReplica c = false \/ Z.of_nat (length (chain_Replicas c)) < cs_ReplicationFactor st ->
  change_ok st before (set_Replicas c (chain_Replicas c ++ [as_joining id])).
Proof.
  intros [[Hs Hnd Hk Hl] Hp Hkeep Hnew Ha] Hid Hknown Hass Hlen.
  assert (forall x, active_in x (set_Replicas c (chain_Replicas c ++ [as_joining id])) <->
    active_in x c) as Hact.
  { intros x. unfold active_in. cbn. rw elem_of_app list_elem_of_singleton.
    unfold as_active, as_joining. naive_solver. }
  constructor.
  - constructor; [done| | |by apply leaving_bounded_append]; rw ids_of_append.
    + apply NoDup_app. split; [done|]. split; [set_solver|apply NoDup_singleton].
    + intros x [?| ->%list_elem_of_singleton]%elem_of_app; auto.
  - intros x. rw Hact. auto.
  - intros x Hx Hd. rw ids_of_append. set_solver.
  - intros r. cbn. rw elem_of_app list_elem_of_singleton. intros [Hr| ->]; auto.
  - setoid_rewrite Hact. done.
Qed.

Lemma elem_of_orderedNodes st include n :
  n ∈ orderedNodes st include <->
  exists id, id ∈ cs_NodeOrder st /\ include id = true /\ cs_NodesByID st !! id = Some n.
Proof.
  unfold orderedNodes. rw list_elem_of_omap. split; intros (id & Hid & H); exists id.
  - destruct (include id); naive_solver.
  - by destruct H as [-> ->].
Qed.

Lemma candidate_ok st c n :
  cluster_wf st -> selectTailRepairCandidate st c = Some n ->
  (node_ID n ∉ ids_of c) /\ is_Some (cs_NodesByID st !! node_ID n) /\
  assignable st (node_ID n) = true.
Proof.
  intros Hwf Hsel. unfold selectTailRepairCandidate in Hsel.
  pose proof (select_spec (orderedNodes st (assignable st)) c (cs_NodesByID st)
    (deriveAssignmentCounts st)) as H. rw Hsel in H. destruct H as (Hin & Hel & _).
  apply elem_of_orderedNodes in Hin as (id & _ & Ha & Hn).
  destruct (wf_ids _ Hwf _ _ Hn) as [-> _]. apply isEligible_spec in Hel as [? _].
  split; [|eauto]. destruct (wf_ids _ Hwf _ _ Hn) as [<- _]. done.
Qed.

Lemma put_chain_id st slot c : zidx (cs_Chains st) slot = Some c -> put_chain st slot c = st.
Proof.
  intros [_ H]%zidx_Some. unfold put_chain. rw list_insert_id //. by destruct st.
Qed.

Lemma put_chain_twice st slot c c' : put_chain (put_chain st slot c) slot c' = put_chain st slot c'.
Proof. unfold put_chain, set_Chains. cbn. by rw list_insert_insert_eq. Qed.

Lemma put_chain_wf st slot c :
  cluster_wf st -> 0 <= slot -> chain_wf (cs_ReplicationFactor st) (cs_NodesByID st) slot c ->
  cluster_wf (put_chain st slot c).
Proof.
  intros [] Hge Hc. constructor; cbn; [done|done|by rw length_insert| |done..].
  intros i c' Hi. apply list_lookup_insert_Some in Hi as [(<- & <- & Hlt)|[_ Hi]]; [|auto].
  by rw Z2Nat.id.
Qed.

(** ** Dropping replicas keeps a chain well-formed *)
Lemma filter_sublist_length {A} (p : A -> bool) (l k : list A) :
  l `sublist_of` k -> (length (List.filter p l) <= length (List.filter p k))%nat.
Proof. induction 1; cbn; [done|destruct (p x); cbn; lia..]. Qed.

Lemma filter_sublist {A} (p : A -> bool) l : List.filter p l `sublist_of` l.
Proof. induction l as [|x l IH]; cbn; [constructor|]. by destruct (p x); constructor. Qed.

Lemma chain_wf_sublist rf known slot c rs :
  chain_wf rf known slot c -> rs `sublist_of` chain_Replicas c ->
  chain_wf rf known slot (set_Replicas c rs).
Proof.
  intros [Hs Hnd Hk Hl] Hsub.
  assert (ids_of (set_Replicas c rs) `sublist_of` ids_of c) as Hids by (by apply fmap_sublist).
  constructor; [done| | |].
  - eauto using sublist_NoDup.
  - eauto using elem_of_sublist.
  - intros H. etrans; [|apply Hl].
    + apply inj_le. by apply filter_sublist_length.
    + unfold hasLeavingReplica in *. apply existsb_exists in H as (r & Hr & Hst).
      apply existsb_exists. exists r. split; [|done].
      rw -!list_elem_of_In in Hr |- *. by apply (elem_of_sublist rs).
Qed.

(** ** Repair of dead replicas *)
Definition live (st : ClusterState) (r : Replica) : bool :=
  negb (is_dead (cs_NodeHealthByID st) (replica_NodeID r)).

Definition no_dead (st : ClusterState) (c : Chain) : Prop :=
  forall id, id ∈ ids_of c -> is_dead (cs_NodeHealthByID st) id = false.

Lemma no_dead_spec st c :
  chainContainsDeadReplica c (cs_NodeHealthByID st) = false <-> no_dead st c.
Proof.
  unfold chainContainsDeadReplica, no_dead. rw -not_true_iff_false existsb_exists.
  setoid_rewrite <- list_elem_of_In. setoid_rewrite elem_of_ids. split.
  - intros H id (r & Hr & <-). apply not_true_iff_false. naive_solver.
  - intros H (r & Hr & Hd). rw H in Hd; eauto. done.
Qed.

Lemma no_dead_filter st c :
  no_dead st c -> List.filter (live st) (chain_Replicas c) = chain_Replicas c.
Proof.
  intros H. assert (forall r, r ∈ chain_Replicas c -> live st r = true) as Hl.
  { intros r Hr. unfold live. rw H; [|done]. apply elem_of_ids. eauto. }
  clear H. induction (chain_Replicas c) as [|r rs IH]; [done|]. cbn.
  rw Hl; [set_solver|]. rw IH; [set_solver|done].
Qed.

Lemma assignable_live st id : assignable st id = true -> is_dead (cs_NodeHealthByID st) id = false.
Proof.
  unfold assignable, is_alive, is_dead. intros H. unbool.
  case_bool_decide; [congruence|done].
Qed.

Lemma survivors_change st c slot :
  chain_wf (cs_ReplicationFactor st) (cs_NodesByID st) slot c ->
  countActiveReplicas (List.filter (live st) (chain_Replicas c)) <> 0 ->
  let c' := set_Replicas c (List.filter (live st) (chain_Replicas c)) in
  change_ok st c c' /\ no_dead st c'.
Proof.
  intros [<- Hnd Hk Hl] Hact c'.
  assert (forall r, r ∈ chain_Replicas c' <-> r ∈ chain_Replicas c /\ live st r = true) as Hin.
  { intros r. cbn. by rw !list_elem_of_In filter_In. }
  assert (forall id, id ∈ ids_of c' -> id ∈ ids_of c /\ is_dead (cs_NodeHealthByID st) id = false)
    as Hids.
  { intros id (r & [Hr Hlive]%Hin & <-)%elem_of_ids. unfold live in Hlive. unbool.
    split; [|done]. apply elem_of_ids. eauto. }
  split; [|intros id Hid; by apply Hids]. constructor.
  - apply chain_wf_sublist; [by constructor|apply filter_sublist].
  - intros id H. apply Hin in H. apply H.
  - intros id (r & Hr & <-)%elem_of_ids Hd. apply elem_of_ids. exists r. rw Hin. unfold live.
    by rw Hd.
  - intros r [Hr _]%Hin []. apply elem_of_ids. eauto.
  - right. unfold countActiveReplicas in Hact.
    destruct (List.filter (is_state _) (List.filter _ _)) as [|r rs] eqn:Hf; [done|].
    assert (r ∈ r :: rs) as Hr by set_solver. rw -Hf list_elem_of_In filter_In in Hr.
    destruct Hr as [Hr Hs%is_state_spec]. apply elem_of_active_replicas in Hs.
    exists (replica_NodeID r). unfold active_in. rw Hin -Hs.
    apply filter_In in Hr as [Hr ?]. apply list_elem_of_In in Hr. auto.
Qed.

(** The repair loop: whatever the fuel the chain only grows by eligible joining
    replicas; with enough fuel it stops because the chain is full or no node
    is left to choose. *)
Record repaired (st : ClusterState) (slot : Z) (before base : Chain)
    (out : ClusterState * Chain * list ReconfigurationStep) : Prop := {
  rep_state : out.1.1 = put_chain st slot out.1.2;
  rep_change : change_ok st before out.1.2;
  rep_dead : no_dead st out.1.2;
  rep_steps : out.2 = (fun id => append_step slot id "") <$> (step_NodeID <$> out.2);
  rep_chain : out.1.2 = set_Replicas base
    (chain_Replicas base ++ (as_joining <$> (step_NodeID <$> out.2)));
}.

Lemma no_dead_append st c id :
  no_dead st c -> assignable st id = true ->
  no_dead st (set_Replicas c (chain_Replicas c ++ [as_joining id])).
Proof.
  intros Hd Ha x. rw ids_of_append. intros [?| ->%list_elem_of_singleton]%elem_of_app; [auto|].
  by apply assignable_live.
Qed.

Lemma repairLoop_ok fuel st slot before base c steps :
  cluster_wf st -> 0 <= slot -> chain_Slot before = slot ->
  repaired st slot before base (put_chain st slot c, c, steps) ->
  let out := repairLoop fuel (put_chain st slot c) slot c steps in
  repaired st slot before base out /\
  (cs_ReplicationFactor st <= Z.of_nat (length (chain_Replicas c)) + Z.of_nat fuel ->
   cs_ReplicationFactor st <= Z.of_nat (length (chain_Replicas out.1.2)) \/
   selectTailRepairCandidate out.1.1 out.1.2 = None).
Proof.
  intros Hwf Hs Hb. revert c steps.
  induction fuel as [|fuel IH]; intros c steps Hrep; cbn -[put_chain].
  { split; [done|]. intros. left. lia. }
  change (cs_ReplicationFactor (put_chain st slot c)) with (cs_ReplicationFactor st).
  destruct (Z.ltb_spec (Z.of_nat (length (chain_Replicas c))) (cs_ReplicationFactor st)).
  2: { split; [done|]. by left. }
  destruct (selectTailRepairCandidate _ _) as [n|] eqn:Hsel; [|by split; [|right]].
  destruct Hrep as [_ Hch Hd Hst Hbase]. cbn in Hch, Hd, Hst, Hbase.
  pose proof (ch_wf _ _ _ Hch) as Hcw. rw Hb in Hcw.
  destruct (candidate_ok _ _ _ (put_chain_wf _ _ _ Hwf Hs Hcw) Hsel) as (Hnin & Hknown & Hass).
  set (c' := set_Replicas c _). rw put_chain_twice.
  edestruct (IH c' (steps ++ [append_step slot (node_ID n) ""])) as [Hout Hfull].
  { constructor; cbn [fst snd]; [done| | | |].
    - apply change_append; auto.
    - by apply no_dead_append.
    - rw !fmap_app -Hst. done.
    - unfold c'. rw Hbase. cbn. rw !fmap_app app_assoc. done. }
  split; [exact Hout|]. intros Hlen. apply Hfull. unfold c'. cbn. rw length_app. cbn. lia.
Qed.

Lemma repairDeadReplicas_ok st slot :
  cluster_wf st -> 0 <= slot < cs_SlotCount st ->
  res_sat (fun out => step_outcome st slot out /\
             forall c, zidx (cs_Chains out.1) slot = Some c -> no_dead st c)
    no_panic (repairDeadReplicas st slot).
Proof.
  intros Hwf Hs. destruct (chain_at_wf st slot Hwf Hs) as (c & Hc & Hz & Hcw).
  unfold repairDeadReplicas. rw Hc. cbn -[repairLoop put_chain].
  destruct (chainContainsDeadReplica c _) eqn:Hdead; cbn -[repairLoop put_chain].
  2: { split; [done|]. rw Hz. intros c' [= <-]. by apply no_dead_spec. }
  destruct (Z.eqb_spec (countActiveReplicas (List.filter (live st) (chain_Replicas c))) 0) as [|Hact];
    unfold live in *; cbn -[repairLoop put_chain]; [rw e; done|].
  rw (proj2 (Z.eqb_neq _ _) Hact). cbn -[repairLoop put_chain].
  destruct (survivors_change st c slot Hcw Hact) as [Hch Hd].
  set (base := set_Replicas c _).
  destruct (repairLoop_ok (Z.to_nat (cs_ReplicationFactor st)) st slot c base base [] Hwf
    (proj1 Hs) (cw_slot _ _ _ _ Hcw)) as [Hrep _].
  { constructor; cbn -[put_chain]; [done|done|done|done|]. by rw app_nil_r. }
  destruct (repairLoop _ _ _ _ _) as [[st' c'] steps]. destruct Hrep as [Hst' Hch' Hd' Hsteps Hbase].
  cbn -[put_chain] in *. subst st'.
  assert (zidx (cs_Chains (put_chain st slot c')) slot = Some c') as Hput.
  { apply zidx_Some. split; [lia|]. cbn. apply list_lookup_insert_eq.
    apply zidx_Some in Hz as [_ Hz]. by apply lookup_lt_Some in Hz. }
  split; [|rw Hput; by intros ? [= <-]].
  unfold step_outcome. case_bool_decide as Heq; cbn -[put_chain].
  - apply put_chain_id. rw Hz -Heq. by destruct c.
  - assert (cloneChain c = c) as -> by (by destruct c). assert (cloneChain c' = c') as -> by (by destruct c').
    do 4 (split; [done|]). unfold plan_shape. cbn. split.
    + rw Hsteps. apply Forall_fmap, Forall_true. done.
    + left. split; [rw Hsteps; apply Forall_fmap, Forall_true; done|]. by rw Hbase.
Qed.

(** ** Finding the member that differs *)
Lemma containsNodeID_spec l id : containsNodeID l id = true <-> id ∈ l.
Proof.
  unfold containsNodeID. rw existsb_exists. setoid_rewrite <- list_elem_of_In.
  setoid_rewrite String.eqb_eq. naive_solver.
Qed.

Lemma soleOutsider_spec from other x :
  soleOutsider from other = Some x -> x = "" \/ x ∈ from /\ x ∉ other.
Proof.
  unfold soleOutsider. revert x. induction from as [|y from IH] using rev_ind; intros x.
  { intros [= <-]. auto. }
  rw foldl_app. cbn. destruct (foldl _ _ from) as [z|]; [|done]. cbn.
  destruct (containsNodeID other y) eqn:Hy.
  - intros [= ->]. destruct (IH x eq_refl) as [?|[? ?]]; [auto|]. right. set_solver.
  - destruct (z =? "")%string; [|done]. intros [= ->]. right.
    apply not_true_iff_false in Hy. rw containsNodeID_spec in Hy. set_solver.
Qed.

Lemma extraNode_spec current target x :
  extraNode current target = Some x -> x ∈ current /\ x ∉ target.
Proof.
  unfold extraNode. destruct (soleOutsider _ _) as [y|] eqn:Hy; [|done]. cbn.
  destruct (String.eqb_spec y ""); [done|]. intros [= <-].
  by destruct (soleOutsider_spec _ _ _ Hy).
Qed.

Lemma oneMemberReplacement_spec current target a r :
  oneMemberReplacement current target = Some (a, r) ->
  (a ∈ target /\ a ∉ current) /\ (r ∈ current /\ r ∉ target).
Proof.
  unfold oneMemberReplacement. destruct (soleOutsider target _) as [y|] eqn:Hy; [|done]. cbn.
  destruct (soleOutsider current _) as [z|] eqn:Hz; [|done]. cbn.
  destruct (String.eqb_spec y ""), (String.eqb_spec z ""); try done. intros [= <- <-].
  destruct (soleOutsider_spec _ _ _ Hy), (soleOutsider_spec _ _ _ Hz); naive_solver.
Qed.

Lemma sameRelativeOrderWithout_eq current removed target added :
  (1 <= length current)%nat -> (1 <= length target)%nat ->
  sameRelativeOrderWithout current removed target added =
  Ok (bool_decide (List.filter (fun id => negb (String.eqb id removed)) current =
                   List.filter (fun id => negb (String.eqb id added)) target)).
Proof.
  intros. unfold sameRelativeOrderWithout, reject.
  rw (bool_decide_false (length current < 1)%nat); [lia|].
  rw (bool_decide_false (length target < 1)%nat); [lia|done].
Qed.

Lemma sameRelativeOrderForJoinFinalization_eq current removed newNode target :
  (2 <= length current)%nat -> (1 <= length target)%nat ->
  sameRelativeOrderForJoinFinalization current removed newNode target =
  Ok (bool_decide
    (List.filter (fun id => negb (String.eqb id removed) && negb (String.eqb id newNode)) current =
     List.filter (fun id => negb (String.eqb id newNode)) target)).
Proof.
  intros. unfold sameRelativeOrderForJoinFinalization, reject.
  rw (bool_decide_false (length current < 2)%nat); [lia|].
  rw (bool_decide_false (length target < 1)%nat); [lia|done].
Qed.

(** ** The passes that append one joining replica *)
Definition settled (st : ClusterState) : Prop := forall c, c ∈ cs_Chains st -> no_dead st c.

Lemma append_outcome st slot c id replaced :
  cluster_wf st -> settled st -> 0 <= slot -> zidx (cs_Chains st) slot = Some c ->
  hasPendingReplicaState c = false ->
  id ∉ ids_of c -> is_Some (cs_NodesByID st !! id) -> assignable st id = true ->
  let c' := set_Replicas c (chain_Replicas c ++ [as_joining id]) in
  step_outcome st slot
    (put_chain st slot c',
     Some {| plan_Slot := slot; plan_Before := cloneChain c; plan_After := cloneChain c';
             plan_Steps := [append_step slot id replaced] |}).
Proof.
  intros Hwf Hset Hs Hz Hp Hid Hk Ha c'. unfold step_outcome. cbn -[put_chain].
  assert (cloneChain c = c) as -> by (by destruct c). assert (cloneChain c' = c') as -> by done.
  pose proof Hz as [_ Hl]%zidx_Some.
  pose proof (wf_chains _ Hwf _ _ Hl) as Hcw. rw Z2Nat.id // in Hcw.
  do 3 (split; [done|]). split.
  - apply change_append; auto.
    + eapply change_refl; [exact Hcw|]. by apply not_pending_anchor.
    + left. unfold hasPendingReplicaState in Hp. by unbool.
  - split; [by repeat constructor|]. left. split; [by repeat constructor|]. cbn.
    change (List.filter _ (chain_Replicas c)) with (List.filter (live st) (chain_Replicas c)).
    rw no_dead_filter //. apply Hset. by apply list_elem_of_lookup_2 in Hl.
Qed.

Lemma appendDrainReplacement_ok st slot :
  cluster_wf st -> settled st -> 0 <= slot < cs_SlotCount st ->
  res_sat (step_outcome st slot) no_panic (appendDrainReplacement st slot).
Proof.
  intros Hwf Hset Hs. destruct (chain_at_wf st slot Hwf Hs) as (c & Hc & Hz & Hcw).
  unfold appendDrainReplacement. rw Hc. cbn -[put_chain].
  destruct (hasPendingReplicaState c) eqn:Hp; [done|].
  destruct (_ =? "")%string; [done|].
  destruct (selectTailRepairCandidate st c) as [n|] eqn:Hsel; [|done].
  destruct (candidate_ok _ _ _ Hwf Hsel) as (? & ? & ?). apply append_outcome; auto; lia.
Qed.

(** What the passes know of a desired chain. *)
Record desired_ok (st : ClusterState) (desired : Chain) : Prop := {
  des_length : Z.of_nat (length (chain_Replicas desired)) = cs_ReplicationFactor st;
  des_NoDup : NoDup (ids_of desired);
  des_assignable : forall id, id ∈ ids_of desired ->
    assignable st id = true /\ is_Some (cs_NodesByID st !! id);
}.

Lemma active_ids_all c :
  hasPendingReplicaState c = false -> activeReplicaIDs c = ids_of c.
Proof.
  intros H%not_pending_active. unfold activeReplicaIDs, ids_of, replicaIDs.
  induction H as [|r rs Hr _ IH]; [done|]. cbn. by rw (proj2 (is_state_spec _ _) Hr); cbn; rw IH.
Qed.

Lemma length_ids c : length (ids_of c) = length (chain_Replicas c).
Proof. apply length_fmap. Qed.

Lemma appendJoinRebalance_ok st slot desired :
  cluster_wf st -> settled st -> desired_ok st desired -> 0 <= slot < cs_SlotCount st ->
  res_sat (step_outcome st slot) no_panic (appendJoinRebalance st slot desired).
Proof.
  intros Hwf Hset [Hdl Hdn Hda] Hs. destruct (chain_at_wf st slot Hwf Hs) as (c & Hc & Hz & Hcw).
  pose proof (wf_rf _ Hwf) as Hrf.
  unfold appendJoinRebalance. rw Hc. cbn -[put_chain].
  destruct (hasPendingReplicaState c) eqn:Hp; [done|].
  destruct (negb _); [done|]. destruct (chainContainsDeadReplica _ _); [done|].
  destruct (negb _ || negb _) eqn:Hlen; [done|]. unbool. apply Z.eqb_eq in H, H0.
  rw (active_ids_all c Hp) in H |- *.
  destruct (oneMemberReplacement _ _) as [[a r]|] eqn:Hone.
  2: { by destruct (disjointChain _ _). }
  apply oneMemberReplacement_spec in Hone as [[Ha Hna] _].
  rw sameRelativeOrderWithout_eq; [lia|lia|]. cbn -[put_chain].
  case_bool_decide; cbn -[put_chain]; [|done].
  destruct (Hda a Ha). apply append_outcome; auto; lia.
Qed.

Lemma appendMissingDesiredReplicas_ok st slot desired :
  cluster_wf st -> settled st -> desired_ok st desired -> 0 <= slot < cs_SlotCount st ->
  res_sat (step_outcome st slot) no_panic (appendMissingDesiredReplicas st slot desired).
Proof.
  intros Hwf Hset [Hdl Hdn Hda] Hs. destruct (chain_at_wf st slot Hwf Hs) as (c & Hc & Hz & Hcw).
  pose proof (wf_rf _ Hwf) as Hrf.
  unfold appendMissingDesiredReplicas. rw Hc. cbn -[put_chain].
  fold (ids_of c). fold (ids_of desired).
  destruct (hasPendingReplicaState c) eqn:Hp; [done|].
  destruct (Z.leb_spec (cs_ReplicationFactor st) (Z.of_nat (length (chain_Replicas c)))); [done|].
  case_bool_decide; [done|]. destruct (_ || _); [done|].
  rw -!length_ids in Hdl H.
  destruct (ids_of desired !! length (ids_of c)) as [n|] eqn:Hn.
  2: { apply lookup_ge_None in Hn. lia. }
  apply list_elem_of_lookup_2 in Hn. destruct (Hda n Hn) as [Hna Hk]. rw Hna. cbn -[put_chain].
  destruct (containsNodeID _ n) eqn:Hin; [done|].
  apply not_true_iff_false in Hin. rw containsNodeID_spec in Hin.
  destruct (Z.leb_spec (cs_ReplicationFactor st) (Z.of_nat (length (ids_of desired)))); [|lia].
  destruct (zidx_is_Some (ids_of desired) (cs_ReplicationFactor st - 1)) as [x Hx]; [lia|].
  rw Hx. cbn -[put_chain]. apply append_outcome; auto; lia.
Qed.

(** ** The passes that mark replicas leaving *)
Definition retired (serving leaving : list string) : list Replica :=
  (as_active <$> serving) ++ (as_leaving <$> leaving).

Lemma ids_of_retired c serving leaving :
  ids_of (set_Replicas c (retired serving leaving)) = serving ++ leaving.
Proof.
  unfold ids_of, replicaIDs, retired. cbn.
  by rw fmap_app -!list_fmap_compose !list_fmap_id.
Qed.

Lemma pending_count_retired c serving leaving :
  pending_count (set_Replicas c (retired serving leaving)) = length serving.
Proof.
  unfold pending_count, retired. cbn. rw List.filter_app length_app.
  assert (forall l, length (List.filter (fun r => negb (is_state ReplicaStateLeaving r))
    (as_active <$> l)) = length l) as -> by (induction l; cbn; [done|by f_equal]).
  assert (forall l, length (List.filter (fun r => negb (is_state ReplicaStateLeaving r))
    (as_leaving <$> l)) = 0%nat) as -> by (induction l; cbn; [done|by f_equal]).
  lia.
Qed.

Lemma active_in_retired c serving leaving id :
  active_in id (set_Replicas c (retired serving leaving)) <-> id ∈ serving.
Proof.
  unfold active_in, retired. cbn. rw elem_of_app !list_elem_of_fmap. split.
  - intros [(x & [= ->] & Hx)|(x & [=] & _)]. done.
  - intros H. left. eauto.
Qed.

Lemma retire_change st c slot serving leaving :
  chain_wf (cs_ReplicationFactor st) (cs_NodesByID st) slot c ->
  NoDup (serving ++ leaving) -> serving <> [] ->
  Z.of_nat (length serving) <= cs_ReplicationFactor st ->
  (forall id, id ∈ serving -> active_in id c) ->
  (forall id, id ∈ leaving -> id ∈ ids_of c) ->
  (forall id, id ∈ ids_of c -> id ∈ serving ++ leaving) ->
  change_ok st c (set_Replicas c (retired serving leaving)).
Proof.
  intros [<- Hnd Hk Hl] Hnd' Hne Hlen Hact Hleav Hall.
  assert (forall id, id ∈ serving ++ leaving -> id ∈ ids_of c) as Hsub.
  { intros id [Hid|Hid]%elem_of_app; [|auto]. by apply active_in_ids, Hact. }
  constructor.
  - constructor; [done|by rw ids_of_retired| |].
    + intros id. rw ids_of_retired. auto.
    + intros _. by rw pending_count_retired.
  - intros id. rw active_in_retired. auto.
  - intros id Hid _. rw ids_of_retired. auto.
  - intros r Hr []. apply Hsub. rw -(ids_of_retired c). apply elem_of_ids. eauto.
  - right. destruct serving as [|id serving]; [done|]. exists id.
    rw active_in_retired. split; [apply Hact|]; set_solver.
Qed.

Lemma retire_outcome st slot c serving leaving :
  zidx (cs_Chains st) slot = Some c -> leaving <> [] ->
  Z.of_nat (length serving) = cs_ReplicationFactor st ->
  let c' := set_Replicas c (retired serving leaving) in
  change_ok st c c' ->
  step_outcome st slot
    (put_chain st slot c',
     Some {| plan_Slot := slot; plan_Before := cloneChain c; plan_After := cloneChain c';
             plan_Steps := leaving_step slot <$> leaving |}).
Proof.
  intros Hz Hne Hlen c' Hch. unfold step_outcome. cbn -[put_chain].
  assert (cloneChain c = c) as -> by (by destruct c). assert (cloneChain c' = c') as -> by done.
  do 4 (split; [done|]). split; [cbn; apply Forall_fmap, Forall_true; done|].
  right. cbn. rw -list_fmap_compose list_fmap_id. split; [apply Forall_fmap, Forall_true; done|].
  split; [done|]. by exists serving.
Qed.

Lemma filter_partition_length {A} (p q : A -> bool) l :
  (length (List.filter (fun x => p x && negb (q x)) l) +
   length (List.filter (fun x => p x && q x) l) = length (List.filter p l))%nat.
Proof. induction l as [|x l IH]; cbn; [done|]. destruct (p x), (q x); cbn; lia. Qed.

Lemma filter_length_mono {A} (p q : A -> bool) l :
  (forall x, p x = true -> q x = true) ->
  (length (List.filter p l) <= length (List.filter q l))%nat.
Proof.
  intros H. induction l as [|x l IH]; cbn; [done|].
  specialize (H x). destruct (p x), (q x); cbn; try lia; by discriminate H.
Qed.

Lemma elem_of_draining id c draining :
  (id ∈ activeReplicaIDsWithDrain c draining <-> active_in id c /\ mget draining id = true) /\
  (id ∈ activeReplicaIDsExcludingDraining c draining <-> active_in id c /\ mget draining id = false).
Proof.
  rw -!(elem_of_drain_split id c draining).
  unfold activeReplicaIDsWithDrain, activeReplicaIDsExcludingDraining. split.
  - rw (List.filter_ext _ (fun r => is_state ReplicaStateActive r &&
      eqb (mget draining (replica_NodeID r)) true)); [|done].
    intros r. by destruct (mget _ _), (is_state _ _).
  - rw (List.filter_ext _ (fun r => is_state ReplicaStateActive r &&
      eqb (mget draining (replica_NodeID r)) false)); [|done].
    intros r. by destruct (mget _ _), (is_state _ _).
Qed.

Lemma NoDup_filter_ids c (p : Replica -> bool) :
  NoDup (ids_of c) -> NoDup (replica_NodeID <$> List.filter p (chain_Replicas c)).
Proof. intros H. eapply sublist_NoDup; [exact H|]. apply fmap_sublist, filter_sublist. Qed.

Lemma finalizeDrainReplacement_ok st slot :
  cluster_wf st -> 0 <= slot < cs_SlotCount st ->
  res_sat (step_outcome st slot) no_panic (finalizeDrainReplacement st slot).
Proof.
  intros Hwf Hs. destruct (chain_at_wf st slot Hwf Hs) as (c & Hc & Hz & Hcw).
  pose proof (wf_rf _ Hwf) as Hrf. unfold finalizeDrainReplacement. rw Hc. cbn -[put_chain].
  destruct (hasJoiningReplica c) eqn:Hj; [done|].
  case_bool_decide as Hd; [done|].
  destruct (Z.eqb_spec (Z.of_nat (length
    (activeReplicaIDsExcludingDraining c (cs_DrainingNodeIDs st)))) (cs_ReplicationFactor st))
    as [Hlen|]; cbn -[put_chain]; [|done].
  apply retire_outcome; [done|done|done|].
  assert (hasLeavingReplica c = false) as Hnl.
  { destruct (hasLeavingReplica c) eqn:Hl; [|done]. exfalso.
    pose proof (cw_leaving _ _ _ _ Hcw Hl) as Hpc.
    unfold activeReplicaIDsExcludingDraining, activeReplicaIDsWithDrain in Hlen, Hd.
    pose proof (filter_partition_length (is_state ReplicaStateActive)
      (fun r => mget (cs_DrainingNodeIDs st) (replica_NodeID r)) (chain_Replicas c)) as Hpart.
    pose proof (filter_length_mono (is_state ReplicaStateActive)
      (fun r => negb (is_state ReplicaStateLeaving r)) (chain_Replicas c)) as Hmono.
    rw length_fmap in Hlen. unfold pending_count in Hpc.
    destruct (List.filter (fun r => is_state ReplicaStateActive r &&
      mget (cs_DrainingNodeIDs st) (replica_NodeID r)) (chain_Replicas c)); [done|].
    cbn in Hpart. specialize (Hmono ltac:(intros x Hx%is_state_spec; unfold is_state; by rw Hx)).
    lia. }
  assert (hasPendingReplicaState c = false) as Hp by (unfold hasPendingReplicaState; by rw Hj Hnl).
  eapply retire_change; [exact Hcw|..].
  - apply NoDup_app. split; [apply NoDup_filter_ids, Hcw|].
    split; [|apply NoDup_filter_ids, Hcw].
    intros id H1 H2. apply elem_of_draining in H1, H2. naive_solver congruence.
  - intros Hnil. rw Hnil in Hlen. cbn in Hlen. lia.
  - lia.
  - intros id H. by apply elem_of_draining in H as [? _].
  - intros id H. apply elem_of_draining in H as [? _]. by apply active_in_ids.
  - intros id Hid. apply elem_of_app. rw (proj1 (elem_of_draining _ _ _)) (proj2 (elem_of_draining _ _ _)).
    pose proof (all_active_in id c (not_pending_active c Hp) Hid).
    destruct (mget (cs_DrainingNodeIDs st) id); auto.
Qed.

Lemma lastActive_in c n : lastActiveReplicaID c = Some n -> active_in n c.
Proof.
  unfold lastActiveReplicaID. destruct (List.find _ _) as [r|] eqn:Hf; [|done]. intros [= <-].
  apply List.find_some in Hf as [Hr Hs%is_state_spec]. apply in_rev, list_elem_of_In in Hr.
  unfold active_in. by rw -elem_of_active_replicas.
Qed.

Lemma elem_of_filter_neq l (p : string -> bool) id :
  id ∈ List.filter p l <-> id ∈ l /\ p id = true.
Proof. by rw !list_elem_of_In filter_In. Qed.

(** The members of a chain ready to drop [extra] are the desired ones and [extra]. *)
Lemma join_members current desired extra new :
  new ∈ current -> new ∈ desired ->
  List.filter (fun id => negb (String.eqb id extra) && negb (String.eqb id new)) current =
  List.filter (fun id => negb (String.eqb id new)) desired ->
  (forall id, id ∈ desired -> id ∈ current) /\
  (forall id, id ∈ current -> id ∈ desired ++ [extra]).
Proof.
  intros Hc Hd Heq. split; intros id Hid.
  - destruct (String.eqb_spec id new) as [->|Hne]; [done|].
    assert (id ∈ List.filter (fun id => negb (String.eqb id new)) desired) as H.
    { apply elem_of_filter_neq. split; [done|]. by apply negb_true_iff, String.eqb_neq. }
    rw -Heq elem_of_filter_neq in H. apply H.
  - apply elem_of_app. destruct (String.eqb_spec id extra) as [->|Hx]; [right; set_solver|].
    destruct (String.eqb_spec id new) as [->|Hne]; [by left|]. left.
    assert (id ∈ List.filter (fun id => negb (String.eqb id extra) && negb (String.eqb id new))
      current) as H.
    { apply elem_of_filter_neq. split; [done|]. apply andb_true_iff.
      by rw !negb_true_iff !String.eqb_neq. }
    rw Heq elem_of_filter_neq in H. apply H.
Qed.

Lemma finalizeJoinRebalance_ok st slot desired :
  cluster_wf st -> desired_ok st desired -> 0 <= slot < cs_SlotCount st ->
  res_sat (step_outcome st slot) no_panic (finalizeJoinRebalance st slot desired).
Proof.
  intros Hwf [Hdl Hdn Hda] Hs. destruct (chain_at_wf st slot Hwf Hs) as (c & Hc & Hz & Hcw).
  pose proof (wf_rf _ Hwf) as Hrf. unfold finalizeJoinRebalance. rw Hc. cbn -[put_chain].
  fold (hasPendingReplicaState c). fold (ids_of desired).
  destruct (hasPendingReplicaState c) eqn:Hp; [done|]. destruct (negb _); [done|].
  rw (active_ids_all c Hp).
  destruct (Z.eqb_spec (Z.of_nat (length (ids_of c))) (cs_ReplicationFactor st + 1)) as [Hlen|];
    cbn -[put_chain]; [|done].
  destruct (extraNode _ _) as [extra|] eqn:Hx; [|done].
  apply extraNode_spec in Hx as [Hx Hnx].
  destruct (lastActiveReplicaID c) as [new|] eqn:Hnew; [|done]. apply lastActive_in in Hnew.
  destruct (_ || _) eqn:Hb; [done|]. unbool. apply containsNodeID_spec in H0.
  rw sameRelativeOrderForJoinFinalization_eq; [lia|rw length_ids; lia|]. cbn -[put_chain].
  case_bool_decide as Heq; cbn -[put_chain]; [|done].
  destruct (join_members _ _ _ _ (active_in_ids _ _ Hnew) H0 Heq) as [Hsub Hcov].
  apply (retire_outcome st slot c (ids_of desired) [extra]); [done|done|by rw length_ids|].
  eapply retire_change; [exact Hcw|..].
  - apply NoDup_app. split; [done|]. split; [set_solver|apply NoDup_singleton].
  - intros Hnil. rw Hnil in H0. set_solver.
  - rw length_ids. lia.
  - intros id Hid. apply all_active_in; [by apply not_pending_active|auto].
  - intros id ->%list_elem_of_singleton. done.
  - done.
Qed.

(** ** Passes *)

(** Re-applying the plans, in order, each to the chain it was made for. *)
Fixpoint replay (chains : list Chain) (plans : list SlotPlan) : option (list Chain) :=
  match plans with
  | [] => Some chains
  | p :: plans' =>
      if bool_decide (zidx chains (plan_Slot p) = Some (plan_Before p))
      then replay (<[Z.to_nat (plan_Slot p) := plan_After p]> chains) plans'
      else None
  end.

Lemma replay_app chains ps qs : replay chains (ps ++ qs) = replay chains ps ≫= fun cs => replay cs qs.
Proof.
  revert chains. induction ps as [|p ps IH]; intros chains; cbn; [done|].
  case_bool_decide; [apply IH|done].
Qed.

Definition plan_ok (st : ClusterState) (p : SlotPlan) : Prop :=
  change_ok st (plan_Before p) (plan_After p) /\ plan_shape st p.

(** The loop invariant of every pass that started in [st0]. *)
Record planned (st0 : ClusterState) (acc : ClusterState * list SlotPlan) : Prop := {
  pl_wf : cluster_wf acc.1;
  pl_same : same_nodes st0 acc.1;
  pl_replay : replay (cs_Chains st0) acc.2 = Some (cs_Chains acc.1);
  pl_ok : Forall (plan_ok st0) acc.2;
}.

Lemma planned_step st0 st plans slot out :
  planned st0 (st, plans) -> 0 <= slot -> step_outcome st slot out ->
  planned st0 (out.1, plans ++ option_list out.2).
Proof.
  intros [Hwf Hsame Hrep Hok] Hs. cbn in *. unfold step_outcome. destruct out as [st' [p|]]; cbn.
  2: { intros ->. rw app_nil_r. by constructor. }
  intros (Hps & Hz & -> & Hch & Hshape).
  pose proof Hz as [_ Hl]%zidx_Some. pose proof (wf_chains _ Hwf _ _ Hl) as Hcw.
  pose proof (ch_wf _ _ _ Hch) as Hcw'.
  rw (cw_slot _ _ _ _ Hcw) Z2Nat.id // in Hcw'.
  constructor; cbn -[put_chain].
  - by apply put_chain_wf.
  - unfold same_nodes in *. by rw Hsame.
  - rw replay_app Hrep. cbn. rw Hps bool_decide_true //.
  - apply Forall_app. split; [done|]. constructor; [|done]. unfold same_nodes in Hsame.
    rw Hsame in Hch, Hshape. split; [|done]. destruct Hch. by constructor.
Qed.

Lemma settled_step st slot out : settled st -> step_outcome st slot out -> settled out.1.
Proof.
  intros Hset. unfold step_outcome. destruct out as [st' [p|]]; cbn; [|by intros ->].
  intros (_ & Hz & -> & Hch & _) c Hc id Hid. cbn in *.
  apply list_elem_of_lookup in Hc as [i Hi].
  apply list_lookup_insert_Some in Hi as [(_ & <- & _)|[_ Hi]].
  2: { apply (Hset c); [by apply list_elem_of_lookup_2 in Hi|done]. }
  destruct (decide (id ∈ ids_of (plan_Before p))) as [Hb|Hb].
  - apply zidx_Some in Hz as [_ Hz%list_elem_of_lookup_2]. by apply (Hset _ Hz).
  - apply elem_of_ids in Hid as (r & Hr & <-). apply assignable_live.
    by apply (ch_new _ _ _ Hch r Hr Hb).
Qed.

Section passes.
Context (st0 : ClusterState).

(** A slot step that meets the contract in every settled state of the run. *)
Definition sound_step
    (step : ClusterState -> Z -> res coord_error (ClusterState * option SlotPlan)) : Prop :=
  forall st slot, cluster_wf st -> settled st -> same_nodes st0 st ->
    0 <= slot < cs_SlotCount st0 -> res_sat (step_outcome st slot) no_panic (step st slot).

Lemma run_pass_ok step acc slots :
  sound_step step -> (forall slot, slot ∈ slots -> 0 <= slot < cs_SlotCount st0) ->
  planned st0 acc -> settled acc.1 ->
  res_sat (fun acc' => planned st0 acc' /\ settled acc'.1) no_panic (run_pass step acc slots).
Proof.
  intros Hstep Hsl Hp Hset. apply res_fold_sat; [done|]. clear acc Hp Hset.
  intros [st plans] slot Hin%Hsl [Hp Hset]. unfold pass_step. cbn.
  eapply res_sat_bind; [by apply Hstep; [apply Hp| |apply Hp|]|].
  intros [st' o] _ Hout. cbn. split.
  - by apply (planned_step st0 st plans slot (st', o)); [|lia|].
  - by apply (settled_step st slot (st', o)).
Qed.

Lemma run_budget_pass_ok step acc remaining slots :
  sound_step step -> (forall slot, slot ∈ slots -> 0 <= slot < cs_SlotCount st0) ->
  planned st0 acc -> settled acc.1 ->
  res_sat (fun acc' => planned st0 acc' /\ settled acc'.1 /\
             (0 <= remaining -> Z.of_nat (length acc'.2) <= Z.of_nat (length acc.2) + remaining))
    no_panic (run_budget_pass step acc remaining slots).
Proof.
  intros Hstep Hsl Hp Hset. unfold run_budget_pass.
  eapply res_sat_bind; [apply (res_fold_sat (fun s => planned st0 s.1 /\ settled s.1.1 /\
    (0 <= remaining -> 0 <= s.2 /\
     Z.of_nat (length s.1.2) + s.2 <= Z.of_nat (length acc.2) + remaining)))|].
  - destruct acc. cbn. split; [done|]. split; [done|]. lia.
  - intros [[st plans] rem] slot Hin%Hsl (Hp' & Hset' & Hb). unfold budget_step.
    destruct (Z.eqb_spec rem 0); [done|]. cbn in *.
    eapply res_sat_bind; [by apply Hstep; [apply Hp'| |apply Hp'|]|].
    intros [st' o] _ Hout.
    pose proof (planned_step _ _ _ slot (st', o) Hp' ltac:(lia) Hout) as Hp2.
    pose proof (settled_step st slot (st', o) Hset' Hout) as Hset2.
    destruct o as [p|]; cbn in *.
    + split; [done|]. split; [done|]. intros H0. rw length_app. cbn.
      destruct (Z.ltb_spec 0 rem); lia.
    + rw app_nil_r in Hp2. auto.
  - intros [[st plans] rem] _ (Hp' & Hset' & Hb). cbn in *. split; [done|]. split; [done|]. lia.
Qed.

Lemma repair_pass_ok :
  cluster_wf st0 ->
  res_sat (fun acc' => planned st0 acc' /\ settled acc'.1) no_panic
    (run_pass repairDeadReplicas (st0, []) (zrange (cs_SlotCount st0))).
Proof.
  intros Hwf. eapply res_sat_mono; [apply (res_fold_sat_prefix (fun l acc => planned st0 acc /\
    forall slot c, slot ∈ l -> zidx (cs_Chains acc.1) slot = Some c -> no_dead st0 c) no_panic)| |done].
  - split; [|set_solver]. constructor; cbn; [done|by destruct st0|done|constructor].
  - intros l1 slot l2 [st plans] Hl [Hp Hd]. unfold pass_step. cbn in *.
    assert (0 <= slot < cs_SlotCount st0) as Hslot.
    { apply elem_of_zrange. rw Hl. set_solver. }
    pose proof (pl_same _ _ Hp) as Hsame. unfold same_nodes in Hsame. cbn in Hsame.
    eapply res_sat_bind; [apply (repairDeadReplicas_ok st slot); [apply Hp|by rw Hsame]|].
    intros [st' o] _ [Hout Hdead]. cbn. split; [by apply (planned_step st0 st plans slot (st', o)); [|lia|]|].
    intros s c Hs Hc. unfold step_outcome in Hout. cbn in *.
    destruct (decide (s = slot)) as [->|Hne]; [specialize (Hdead c Hc); by rw Hsame in Hdead|].
    assert (s ∈ l1) as Hs1 by set_solver. apply (Hd s c Hs1). destruct o as [p|]; [|by subst].
    destruct Hout as (_ & _ & -> & _). rw zidx_Some in Hc. rw zidx_Some.
    destruct Hc as [Hge Hc]. split; [done|]. cbn in Hc. by rw list_lookup_insert_ne in Hc; [lia|].
  - intros [st plans] [Hp Hd]. split; [done|]. cbn in *. intros c Hc id Hid.
    apply list_elem_of_lookup in Hc as [i Hi].
    pose proof (pl_same _ _ Hp) as Hsame. unfold same_nodes in Hsame. cbn in Hsame. rw Hsame. cbn.
    apply (Hd (Z.of_nat i) c); [|apply zidx_Some; by rw Nat2Z.id; split; [lia|]|done].
    apply elem_of_zrange. apply lookup_lt_Some in Hi.
    pose proof (wf_length _ (pl_wf _ _ Hp)) as Hlen. cbn in Hlen. rw Hsame in Hlen. cbn in Hlen. lia.
Qed.
End passes.

(** ** The desired placement *)
Lemma ids_of_orderedNodes st include :
  cluster_wf st ->
  node_ID <$> orderedNodes st include = List.filter include (cs_NodeOrder st).
Proof.
  intros Hwf. unfold orderedNodes. pose proof (wf_order_known _ Hwf) as Hk.
  induction (cs_NodeOrder st) as [|id l IH]; [done|]. cbn.
  destruct (Hk id) as [n Hn]; [set_solver|]. destruct (include id) eqn:Hi; cbn.
  - rw Hn. cbn. rw IH; [set_solver|]. by destruct (wf_ids _ Hwf _ _ Hn) as [-> _].
  - apply IH. set_solver.
Qed.

Lemma foldl_insert_indexed nodes :
  NoDup (node_ID <$> nodes) ->
  indexed nodes (foldl (fun m node => <[node_ID node := node]> m) ∅ nodes).
Proof.
  induction nodes as [|x nodes IH] using rev_ind; [intros _ n; set_solver|].
  rw fmap_app. intros (Hnd & Hx & _)%NoDup_app n.
  rw elem_of_app list_elem_of_singleton foldl_app. cbn. intros [Hn| ->].
  - rw lookup_insert_ne; [|by apply IH]. intros Heq.
    apply (Hx (node_ID n)); [by apply list_elem_of_fmap_2|]. cbn. rw Heq. set_solver.
  - apply lookup_insert_eq.
Qed.

Definition desired_all (st : ClusterState) (chains : list Chain) : Prop :=
  Z.of_nat (length chains) = cs_SlotCount st /\ forall c, c ∈ chains -> desired_ok st c.

Lemma buildDesired_ok st :
  cluster_wf st ->
  res_sat (fun o => forall chains, o = Some chains -> desired_all st chains) no_panic
    (buildDesiredPlacementFromState st).
Proof.
  intros Hwf. unfold buildDesiredPlacementFromState.
  pose proof (ids_of_orderedNodes st (assignable st) Hwf) as Hids.
  set (nodes := orderedNodes st (assignable st)) in *.
  destruct (_ <? _); [done|].
  assert (NoDup (node_ID <$> nodes)) as Hnd.
  { rw Hids. apply NoDup_ListNoDup, List.NoDup_filter, NoDup_ListNoDup, Hwf. }
  eapply res_sat_bind.
  { eapply res_sat_mono; [apply buildSteadyStateChains_steady; [by apply foldl_insert_indexed|..]|..].
    - pose proof (wf_rf _ Hwf). lia.
    - pose proof (wf_slots _ Hwf). lia.
    - intros chains H. exact H.
    - intros e. destruct e; done. }
  intros chains _ [Hlen Hall] cs [= <-]. split; [done|].
  intros c Hc. apply list_elem_of_lookup in Hc as [i Hi]. destruct (Hall i c Hi) as [_ ? _ ? Hknown _].
  constructor; [done|done|]. intros id Hid%Hknown. rw Hids elem_of_filter_neq in Hid.
  destruct Hid as [Hin Ha]. split; [done|]. by apply (wf_order_known _ Hwf).
Qed.

Lemma desired_same st st' c : same_nodes st st' -> desired_ok st' c -> desired_ok st c.
Proof. unfold same_nodes. intros Hs [Hl Hn Ha]. rw Hs in Hl, Ha. by constructor. Qed.

Lemma with_desired_sound st0 st1 chains step :
  same_nodes st0 st1 -> desired_all st1 chains ->
  (forall st slot c, cluster_wf st -> settled st -> desired_ok st c -> 0 <= slot < cs_SlotCount st ->
     res_sat (step_outcome st slot) no_panic (step st slot c)) ->
  sound_step st0 (with_desired chains step).
Proof.
  intros Hs1 [Hlen Hall] Hstep st slot Hwf Hset Hsame Hslot. unfold with_desired.
  unfold same_nodes in *.
  destruct (zidx_is_Some chains slot) as [c Hc]; [rw Hlen Hs1; done|]. rw Hc.
  apply zidx_Some in Hc as [_ Hc%list_elem_of_lookup_2].
  apply Hstep; [done|done| |by rw Hsame]. destruct (Hall c Hc) as [Hl Hn Ha].
  rw Hs1 in Hl, Ha. rw Hsame. by constructor.
Qed.

Lemma appendPrioritySlots_ok st :
  cluster_wf st ->
  exists slots, appendPrioritySlots st = Ok slots /\ slots ≡ₚ zrange (cs_SlotCount st).
Proof.
  intros Hwf. assert (chain_Slot <$> cs_Chains st = zrange (cs_SlotCount st)) as Hslots.
  { apply list_eq. intros i. unfold zrange. rw !list_lookup_fmap -(wf_length _ Hwf) Nat2Z.id.
    destruct (cs_Chains st !! i) as [c|] eqn:Hi; cbn.
    - rw (cw_slot _ _ _ _ (wf_chains _ Hwf _ _ Hi)). apply lookup_lt_Some in Hi.
      by rw lookup_seq_lt.
    - apply lookup_ge_None in Hi. by rw lookup_seq_ge. }
  exists (isort (priority_leb st) (zrange (cs_SlotCount st))). split; [|apply isort_perm].
  unfold appendPrioritySlots, reject. rw Hslots. destruct (_ && _) eqn:Hb; [|done]. exfalso.
  apply andb_true_iff in Hb as [_ (s & Hs%list_elem_of_In%elem_of_zrange & Hn)%existsb_exists].
  apply bool_decide_eq_true in Hn. destruct (zidx_is_Some (cs_Chains st) s) as [? ?]; [|congruence].
  by rw (wf_length _ Hwf).
Qed.

(** ** Reconciliation *)
Lemma reconcileState_ok st policy :
  cluster_wf st ->
  res_sat (fun acc => planned st acc /\ settled acc.1) no_panic (reconcileState st policy).
Proof.
  intros Hwf. unfold reconcileState.
  assert (forall slot, slot ∈ zrange (cs_SlotCount st) -> 0 <= slot < cs_SlotCount st) as Hr
    by (intros; by apply elem_of_zrange).
  eapply res_sat_bind; [by apply repair_pass_ok|]. intros a1 _ [Hp1 Hs1].
  eapply res_sat_bind.
  { apply (run_pass_ok st); [|done..]. intros s slot ? _ Hsame ?.
    apply finalizeDrainReplacement_ok; [done|]. by rw Hsame. }
  intros a2 _ [Hp2 Hs2].
  eapply res_sat_bind; [apply buildDesired_ok, Hp2|]. intros desired _ Hdes.
  eapply (res_sat_bind _ (fun acc => planned st acc /\ settled acc.1)).
  { destruct desired as [chains|]; [|done]. apply (run_pass_ok st); [|done..].
    eapply with_desired_sound; [apply Hp2|by apply Hdes|].
    intros. by apply finalizeJoinRebalance_ok. }
  intros a3 _ [Hp3 Hs3]. case_bool_decide; cbn [negb]; [|done].
  eapply (res_sat_bind _ (fun acc => planned st acc /\ settled acc.1)).
  { destruct desired as [chains|]; [|done].
    destruct (appendPrioritySlots_ok a3.1 (pl_wf _ _ Hp3)) as (slots & Hslots & Hperm).
    rw Hslots. cbn [mbind res_bind].
    eapply res_sat_mono; [apply (run_budget_pass_ok st); [|..|done|done]| |done].
    - eapply with_desired_sound; [apply Hp2|by apply Hdes|].
      intros. by apply appendMissingDesiredReplicas_ok.
    - intros slot. rw Hperm (pl_same _ _ Hp3). apply Hr.
    - intros acc (? & ? & _). done. }
  intros a4 _ [Hp4 Hs4]. case_bool_decide; cbn [negb]; [|done].
  eapply res_sat_bind.
  { apply (run_pass_ok st); [|done..]. intros s slot ? ? Hsame ?.
    apply appendDrainReplacement_ok; [done|done|]. by rw Hsame. }
  intros a5 _ [Hp5 Hs5]. destruct desired as [chains|]; [|done]. destruct (0 <? _); [|done].
  eapply res_sat_mono; [apply (run_budget_pass_ok st); [|..|done|done]| |done].
  - eapply with_desired_sound; [apply Hp2|by apply Hdes|].
    intros. by apply appendJoinRebalance_ok.
  - done.
  - intros acc (? & ? & _). done.
Qed.

(** ** Events keep the invariant *)
Lemma findReplicaIndex_from_spec k rs id i :
  findReplicaIndex_from k rs id = Some i ->
  exists r, rs !! (i - k)%nat = Some r /\ replica_NodeID r = id /\ (k <= i)%nat.
Proof.
  revert k. induction rs as [|r rs IH]; intros k; cbn; [done|].
  destruct (String.eqb_spec (replica_NodeID r) id) as [Heq|Hne].
  - intros [= <-]. exists r. by rw Nat.sub_diag.
  - intros (r' & Hr' & Hid & Hle)%IH. exists r'. split; [|split; [done|lia]].
    by replace (i - k)%nat with (S (i - S k)) by lia.
Qed.

Lemma findReplicaIndex_spec c id i :
  findReplicaIndex c id = Some i ->
  exists r, chain_Replicas c !! i = Some r /\ replica_NodeID r = id.
Proof.
  intros (r & Hr & ? & _)%findReplicaIndex_from_spec. rw Nat.sub_0_r in Hr. eauto.
Qed.

(** The chain after a joining replica at position [i] became active. *)
Definition activated (c : Chain) (i : nat) (r : Replica) : Chain :=
  set_Replicas c (<[i := {| replica_NodeID := replica_NodeID r;
                            replica_State := ReplicaStateActive |}]> (chain_Replicas c)).

Lemma activated_wf rf known slot c i r :
  chain_wf rf known slot c -> chain_Replicas c !! i = Some r ->
  replica_State r = ReplicaStateJoining -> chain_wf rf known slot (activated c i r).
Proof.
  intros [Hs Hnd Hk Hl] Hr Hj.
  assert (ids_of (activated c i r) = ids_of c) as Hids.
  { unfold ids_of, replicaIDs. cbn. rw list_fmap_insert list_insert_id //.
    by rw list_lookup_fmap Hr. }
  assert (pending_count (activated c i r) = pending_count c /\
          hasLeavingReplica (activated c i r) = hasLeavingReplica c) as [Hp Hh].
  { unfold pending_count, hasLeavingReplica, activated. cbn. clear -Hr Hj. revert i Hr.
    induction (chain_Replicas c) as [|x rs IH]; intros [|i] Hr; cbn in *; [done|done| |].
    - injection Hr as ->. unfold is_state. cbn. by rw Hj.
    - destruct (IH i Hr) as [H1 H2]. rw H2. split; [|done].
      destruct (negb _); cbn; rw ?H1; done. }
  constructor; [done|by rw Hids|by rw Hids|]. unfold leaving_bounded. by rw Hp Hh.
Qed.

Lemma applyProgressEvent_ok st e :
  cluster_wf st -> res_sat cluster_wf no_panic (applyProgressEvent st e).
Proof.
  intros Hwf. unfold applyProgressEvent, reject. destruct (_ || _) eqn:Hb; cbn -[put_chain]; [done|].
  apply orb_false_iff in Hb as [Hge Hlt]. apply Z.ltb_ge in Hge. apply Z.leb_gt in Hlt.
  destruct (_ =? "")%string; cbn -[put_chain]; [done|].
  destruct (chain_at_wf st (event_Slot e) Hwf ltac:(lia)) as (c & Hc & Hz & Hcw).
  rw Hc. cbn -[put_chain].
  destruct (findReplicaIndex c (event_NodeID e)) as [i|] eqn:Hi; [|done].
  apply findReplicaIndex_spec in Hi as (r & Hr & Hid). rw Hr.
  destruct (event_Kind e); try done.
  - destruct (is_state ReplicaStateJoining r) eqn:Hj; cbn -[put_chain]; [|done].
    apply put_chain_wf; [done|lia|]. apply activated_wf; [done|done|]. by apply is_state_spec.
  - destruct (negb (is_state ReplicaStateLeaving r) && _); cbn -[put_chain]; [done|].
    pose proof (put_chain_wf st (event_Slot e) (set_Replicas c (delete i (chain_Replicas c))) Hwf
      Hge (chain_wf_sublist _ _ _ _ _ Hcw (sublist_delete _ _))) as Hwf'.
    destruct (_ && _); [|done]. destruct Hwf'. by constructor.
Qed.

Lemma addNode_ok st node ready :
  cluster_wf st -> res_sat cluster_wf no_panic (addNode st node ready).
Proof.
  intros Hwf. unfold addNode. eapply res_sat_bind.
  { eapply res_sat_mono; [apply normalizeNodes_spec|intros a Ha; exact Ha|].
    by intros ? [->| ->]. }
  intros [[normalized byID] order] _ [Hf Ho Hnd Hne Hl].
  inversion Hf as [|? n' ? ? Hn Hf2 Hx1 Hx2]; subst. inversion Hf2; subst. unfold normalized_of in Hn. subst n'.
  cbn in *.
  destruct (cs_NodesByID st !! node_ID node) as [existing|] eqn:Hex.
  { unfold reject. destruct (is_dead _ _); cbn; [done|].
    destruct (nodeIdentityConflict _ _); cbn; [done|].
    destruct ready; [|done]. destruct Hwf. by constructor. }
  cbn. unfold node_of.
  rw (proj2 (Hl (node_ID node) _) (conj (list_elem_of_here _ _) eq_refl)). cbn.
  destruct Hwf. constructor; cbn; try done.
  - intros i c Hc. destruct (wf_chains0 i c Hc) as [? ? Hk ?]. constructor; try done.
    intros id Hid. apply lookup_insert_is_Some'. auto.
  - intros id n. rw lookup_insert_Some. intros [[<- <-]|[_ Hn]]; [|auto].
    split; [done|]. set_solver.
  - apply NoDup_app. split; [done|]. split; [|apply NoDup_singleton].
    intros id Hid ->%list_elem_of_singleton. destruct (wf_order_known0 _ Hid). congruence.
  - intros id [Hid| ->%list_elem_of_singleton]%elem_of_app;
      apply lookup_insert_is_Some'; auto.
  - intros id [<-|Hid]%lookup_insert_is_Some'; apply lookup_insert_is_Some'; auto.
Qed.

Lemma applyEvent_ok st e : cluster_wf st -> res_sat cluster_wf no_panic (applyEvent st e).
Proof.
  intros Hwf. unfold applyEvent. destruct (event_Kind e);
    [by apply addNode_ok|by apply addNode_ok| | |by apply applyProgressEvent_ok
    |by apply applyProgressEvent_ok|done].
  - unfold beginDrainNode. do 3 skip_guard. destruct Hwf. by constructor.
  - unfold markNodeDead. do 2 skip_guard. destruct Hwf.
    constructor; try done. cbn. intros id Hid. apply lookup_insert_is_Some'. auto.
Qed.

(** ** Validation establishes the invariant *)
Lemma cloneNode_id n : cloneNode n = n.
Proof. unfold cloneNode, cloneFailureDomains. rw clone_map_id. by destruct n. Qed.

Lemma cloneNodes_id (m : gmap string Node) : cloneNode <$> m = m.
Proof. rw (map_fmap_ext _ id); [intros; apply cloneNode_id|]. apply map_fmap_id. Qed.

Lemma checkOrder_ok nodesByID health order :
  res_sat (fun '(_, health') => NoDup order /\
             forall id, id ∈ order -> is_Some (nodesByID !! id))
    (fun e => e = ErrInvalidConfig)
    (res_fold (checkOrderEntry nodesByID) (∅, health) order).
Proof.
  eapply res_sat_mono; [apply (res_fold_sat_prefix (fun l s => NoDup l /\
    (forall id, id ∈ l -> is_Some (nodesByID !! id)) /\ s.1 = list_to_set l)
    (fun e => e = ErrInvalidConfig))| |done].
  - split; [constructor|]. set_solver.
  - intros l1 id l2 [seen h] _ (Hnd & Hk & Hseen). unfold checkOrderEntry. cbn in Hseen.
    eapply res_sat_bind; [apply (res_sat_reject (fun _ => is_Some (nodesByID !! id))); [done|]|].
    { intros Hb. unbool. by apply not_eq_None_Some. }
    intros [] _ Hid.
    eapply res_sat_bind; [apply (res_sat_reject (fun _ => id ∉ seen)); [done|]|].
    { intros Hb. by unbool. }
    intros [] _ Hnin. cbn. rw Hseen elem_of_list_to_set in Hnin. split; [|split].
    + apply NoDup_app. split; [done|]. split; [set_solver|apply NoDup_singleton].
    + intros x [?| ->%list_elem_of_singleton]%elem_of_app; auto.
    + rw list_to_set_app_L. set_solver.
  - intros [seen h] (? & ? & _). done.
Qed.

Lemma fill_health_covers (ids : list string) health id :
  id ∈ ids -> is_Some (foldl (fun (h : gmap string NodeHealth) id =>
    match h !! id with Some _ => h | None => <[id := NodeHealthAlive]> h end) health ids !! id).
Proof.
  induction ids as [|x ids IH] using rev_ind; [set_solver|]. rw foldl_app. cbn.
  intros [Hin| ->%list_elem_of_singleton]%elem_of_app; destruct (foldl _ _ ids !! x) eqn:Hx.
  - auto.
  - apply lookup_insert_is_Some'. auto.
  - eauto.
  - rw lookup_insert_eq. eauto.
Qed.

Lemma cloneAndValidateState_ok st :
  input_wf st ->
  res_sat cluster_wf (fun e => e = ErrInvalidConfig) (cloneAndValidateState st).
Proof.
  intros [Hids Hnd Hleav]. unfold cloneAndValidateState, validateConfig. rw cloneNodes_id.
  eapply res_sat_bind.
  { eapply res_sat_bind; [apply (res_sat_reject (fun _ => 0 < cs_SlotCount st)); [done|]|].
    { cbn. intros. lia. }
    intros [] _ H. apply (res_sat_reject (fun _ => 0 < cs_SlotCount st /\
      0 < cs_ReplicationFactor st)); [done|]. cbn. lia. }
  intros [] _ [Hsc Hrf]. eapply res_sat_bind.
  { apply (res_sat_reject (fun _ => Z.of_nat (length (cs_Chains st)) = cs_SlotCount st)); [done|].
    intros Hb. unbool. by apply Z.eqb_eq. }
  intros [] _ Hlen. eapply res_sat_bind; [apply checkOrder_ok|].
  intros [seen health] _ [Hond Hok]. eapply res_sat_bind.
  { apply (res_sat_reject (fun _ => forall i c, cs_Chains st !! i = Some c ->
      forall id, id ∈ ids_of c -> is_Some (cs_NodesByID st !! id))); [done|].
    intros Hex i c Hc id (r & Hr & <-)%elem_of_ids. apply not_eq_None_Some. intros Hnone.
    apply not_true_iff_false in Hex. apply Hex, existsb_exists.
    exists {| chain_Slot := Z.of_nat i; chain_Replicas := chain_Replicas c |}. split.
    - apply list_elem_of_In, elem_of_lookup_imap. eauto.
    - apply existsb_exists. exists r. split; [by apply list_elem_of_In|]. by apply bool_decide_true. }
  intros [] _ Hknown. constructor; cbn; try done.
  - by rw length_imap.
  - intros i c Hi. rw list_lookup_imap in Hi.
    destruct (cs_Chains st !! i) as [c0|] eqn:Hc; [|done]. injection Hi as <-. cbn.
    pose proof Hc as Hc'%list_elem_of_lookup_2. constructor; cbn; [done|exact (Hnd c0 Hc')| |exact (Hleav c0 Hc')].
    by apply (Hknown i).
  - intros id [n Hn]. apply fill_health_covers. apply list_elem_of_fmap.
    exists (id, n). by rw elem_of_map_to_list.
Qed.

Lemma cluster_input_wf st : cluster_wf st -> input_wf st.
Proof.
  intros []. constructor; [done|..]; intros c [i Hi]%list_elem_of_lookup; apply (wf_chains0 i c Hi).
Qed.

(** ** Whole plans *)
Lemma reconcileState_wf st policy :
  cluster_wf st ->
  res_sat (fun acc => cluster_wf acc.1 /\ settled acc.1) no_panic (reconcileState st policy).
Proof.
  intros Hwf. eapply res_sat_mono; [by apply reconcileState_ok| |done].
  intros acc [Hp Hset]. split; [apply Hp|done].
Qed.

Lemma plan_event_ok policy acc event :
  cluster_wf acc.1 ->
  res_sat (fun acc => cluster_wf acc.1 /\ settled acc.1) no_panic (plan_event policy acc event).
Proof.
  intros Hwf. unfold plan_event. eapply res_sat_bind; [by apply applyEvent_ok|].
  intros w _ Hw. eapply res_sat_bind; [by apply reconcileState_wf|]. by intros [w' plans] _ H.
Qed.

Lemma PlanReconfiguration_ok st events policy :
  input_wf st ->
  res_sat (fun plan => cluster_wf (rp_UpdatedState plan) /\ settled (rp_UpdatedState plan))
    no_panic (PlanReconfiguration st events policy).
Proof.
  intros Hin. unfold PlanReconfiguration. skip_guard. eapply res_sat_bind.
  { eapply res_sat_mono; [by apply cloneAndValidateState_ok|intros a Ha; exact Ha|by intros ? ->]. }
  intros working _ Hwf.
  eapply (res_sat_bind _ (fun acc => cluster_wf acc.1 /\ settled acc.1)).
  2: { intros [w plans] _ H. exact H. }
  destruct events as [|e events]; [by apply reconcileState_wf|].
  rw bool_decide_false //. cbn [res_fold]. eapply res_sat_bind; [by apply plan_event_ok|].
  intros acc _ Hacc. apply res_fold_sat; [done|]. intros acc' e' _ [Hwf' _]. by apply plan_event_ok.
Qed.
