(* ===== verification/PlanTheorems.v ===== *)
(** * Theorems about reconfiguration plans

    Safety of [PlanReconfiguration] and [ApplyProgress]: no panics, the cluster
    invariant over all reachable states, the contract of every slot plan, what
    may become active and what may be dropped over a whole plan, the change
    budget, and the quiescence of a fresh placement. *)

From S2P Require Import Prelude.
From S2P Require Import CoordTypes.
From S2P Require Import Placement.
From S2P Require Import Reconfig.
From S2P Require Import ReconfigProps.

Open Scope Z_scope.

(** The cluster states the package can produce from scratch. *)
Inductive reachable : ClusterState -> Prop :=
| reach_init cfg nodes st :
    BuildInitialPlacement cfg nodes = Ok st -> reachable st
| reach_plan st events policy plan :
    reachable st -> PlanReconfiguration st events policy = Ok plan ->
    reachable (rp_UpdatedState plan)
| reach_progress st event st' :
    reachable st -> ApplyProgress st event = Ok st' -> reachable st'.

Lemma steady_chain_wf rf slot ids byID known c :
  steady_chain rf slot ids byID c -> (forall id, id ∈ ids -> is_Some (known !! id)) ->
  chain_wf rf known slot c.
Proof.
  intros [Hs Hl Ha Hn Hk _] Hknown. constructor; [done|done|auto|].
  intros Hleav. exfalso. apply not_false_iff_true in Hleav. apply Hleav, hasState_false.
  eapply Forall_impl; [exact Ha|]. cbn. intros r ->. done.
Qed.

Lemma BuildInitialPlacement_wf cfg nodes st :
  BuildInitialPlacement cfg nodes = Ok st -> cluster_wf st.
Proof.
  intros Hok. unfold BuildInitialPlacement in Hok. apply bind_Ok in Hok as ([] & Hcfg & Hok).
  unfold validateConfig in Hcfg. apply bind_Ok in Hcfg as ([] & [? _]%reject_Ok & [? _]%reject_Ok).
  destruct nodes as [|n0 nodes].
  { injection Hok as <-. constructor; cbn; [lia|lia| | |set_solver|apply NoDup_nil_2|set_solver|].
    - unfold emptyChains. rw length_fmap length_zrange. lia.
    - intros i c ->%emptyChains_lookup. constructor; cbn; [done|apply NoDup_nil_2|set_solver|done].
    - by intros id [? ?]. }
  rw bool_decide_false // in Hok.
  apply bind_Ok in Hok as ([[normalized byID] order] & Hnorm & Hok).
  apply bind_Ok in Hok as ([] & [Hle _]%reject_Ok & Hok).
  apply bind_Ok in Hok as (chains & Hch & [= <-]).
  pose proof (res_sat_Ok _ _ _ _ (normalizeNodes_spec (n0 :: nodes)) Hnorm) as Hn. cbn in Hn.
  destruct (res_sat_Ok _ _ _ _ (buildSteadyStateChains_steady (config_SlotCount cfg)
    (config_ReplicationFactor cfg) normalized byID (normalized_indexed _ _ _ _ Hn)
    ltac:(lia) ltac:(lia)) Hch) as [Hlen Hall].
  destruct Hn as [_ Ho Hnd Hne Hl].
  assert (forall id, id ∈ order -> is_Some (byID !! id)) as Hk.
  { intros id Hid. rw Ho in Hid. apply list_elem_of_fmap in Hid as (n & -> & Hin). exists n.
    by apply Hl. }
  constructor; cbn; [lia|lia|done| | |done|done|].
  - intros i c Hc. eapply steady_chain_wf; [by apply Hall|]. by rw -Ho.
  - intros id n [Hin <-]%Hl. split; [done|]. intros Hempty. apply Hne. rw Ho -Hempty.
    by apply list_elem_of_fmap_2.
  - intros id [n [Hin <-]%Hl]. rw foldl_insert_ids bool_decide_true //.
    by apply list_elem_of_fmap_2.
Qed.

Lemma ApplyProgress_ok st e :
  input_wf st -> res_sat cluster_wf no_panic (ApplyProgress st e).
Proof.
  intros Hin. unfold ApplyProgress. eapply res_sat_bind.
  { eapply res_sat_mono; [by apply cloneAndValidateState_ok|intros a Ha; exact Ha|by intros ? ->]. }
  intros w _ Hw. destruct (event_Kind e); try done; by apply applyProgressEvent_ok.
Qed.

(** C39. Every cluster state reachable from an initial placement through any
    sequence of plans and progress reports is well-formed. *)
Theorem reachable_wf st : reachable st -> cluster_wf st.
Proof.
  induction 1 as [cfg nodes st H|st events policy plan _ IH H|st event st' _ IH H].
  - by apply (BuildInitialPlacement_wf cfg nodes).
  - by apply (res_sat_Ok _ _ _ _ (PlanReconfiguration_ok st events policy (cluster_input_wf _ IH)) H).
  - exact (res_sat_Ok _ _ _ _ (ApplyProgress_ok st event (cluster_input_wf _ IH)) H).
Qed.

(** A small cluster and a plan for it: node a dies, then b drains. *)
Definition kill (id : string) : Event :=
  {| event_Kind := EventKindMarkNodeDead; event_Node := zeroNode; event_NodeID := id; event_Slot := 0 |}.
Definition drain (id : string) : Event :=
  {| event_Kind := EventKindBeginDrainNode; event_Node := zeroNode; event_NodeID := id; event_Slot := 0 |}.
Definition no_budget : ReconfigurationPolicy := {| policy_MaxChangedChains := 0 |}.
Definition zeroPlan : ReconfigurationPlan :=
  {| rp_UpdatedState := zeroState; rp_UnassignedNodeIDs := []; rp_ChangedSlots := [] |}.
Definition demo_plan : ReconfigurationPlan :=
  ok_or zeroPlan (PlanReconfiguration demo_state [kill "a"] no_budget).

Lemma demo_state_wf : cluster_wf demo_state.
Proof. apply (BuildInitialPlacement_wf demo_cfg demo_nodes). vm_compute. reflexivity. Qed.

Lemma reachable_wf_witness : reachable demo_state /\ cluster_wf demo_state.
Proof.
  assert (reachable demo_state) as H.
  { apply (reach_init demo_cfg demo_nodes). vm_compute. reflexivity. }
  split; [exact H|]. apply (reachable_wf demo_state). exact H.
Defined.

(** Planning is free of run-time panics: for every well-formed input, every
    event list and every policy, no slice index or capacity computed by
    [PlanReconfiguration] is ever out of range. *)
Theorem PlanReconfiguration_never_panics st events policy :
  input_wf st -> PlanReconfiguration st events policy <> Err GoPanic.
Proof.
  intros Hin Heq. pose proof (PlanReconfiguration_ok st events policy Hin) as H.
  by rw Heq in H.
Qed.

(** The state a plan returns is well-formed (one chain per slot carrying its
    slot number, chains without repeated nodes, only known nodes, every node
    with a health entry, at most ReplicationFactor others while a replica
    leaves) and no chain of it holds a replica on a dead node. *)
Theorem PlanReconfiguration_invariant st events policy plan :
  input_wf st -> PlanReconfiguration st events policy = Ok plan ->
  cluster_wf (rp_UpdatedState plan) /\ settled (rp_UpdatedState plan).
Proof. intros Hin Heq. exact (res_sat_Ok _ _ _ _ (PlanReconfiguration_ok st events policy Hin) Heq). Qed.

(** C17. Every slot plan of a reconciliation meets the contract of a planned
    change: no replica becomes active, only replicas on dead nodes are
    dropped, newcomers are joining replicas on alive, ready, non-draining
    nodes, and a chain with replicas keeps one of its active replicas active;
    its steps spell out the change; and applying the plans in order to the old
    chains gives exactly the new chains, nothing else of the state changing. *)
Theorem reconcileState_plans st policy st' plans :
  cluster_wf st -> reconcileState st policy = Ok (st', plans) ->
  Forall (plan_ok st) plans /\ replay (cs_Chains st) plans = Some (cs_Chains st') /\
  same_nodes st st'.
Proof.
  intros Hwf Heq. destruct (res_sat_Ok _ _ _ _ (reconcileState_ok st policy Hwf) Heq) as [Hp _].
  by destruct Hp.
Qed.

Lemma PlanReconfiguration_never_panics_witness :
  PlanReconfiguration demo_state [kill "a"; drain "b"] no_budget <> Err GoPanic.
Proof.
  apply (PlanReconfiguration_never_panics demo_state [kill "a"; drain "b"] no_budget).
  apply cluster_input_wf, demo_state_wf.
Defined.

Lemma PlanReconfiguration_invariant_witness :
  rp_ChangedSlots demo_plan <> [] /\
  cluster_wf (rp_UpdatedState demo_plan) /\ settled (rp_UpdatedState demo_plan).
Proof.
  split; [vm_compute; discriminate|].
  apply (PlanReconfiguration_invariant demo_state [kill "a"] no_budget demo_plan).
  - apply cluster_input_wf, demo_state_wf.
  - vm_compute. reflexivity.
Defined.

(** The demo cluster after node a died, before reconciliation. *)
Definition demo_degraded : ClusterState := ok_or zeroState (markNodeDead demo_state "a").
Definition demo_repaired : ClusterState * list SlotPlan :=
  ok_or (zeroState, []) (reconcileState demo_degraded no_budget).

Lemma demo_degraded_wf : cluster_wf demo_degraded.
Proof.
  refine (res_sat_Ok _ _ _ _ (applyEvent_ok demo_state (kill "a") demo_state_wf) _).
  vm_compute. reflexivity.
Qed.

Lemma reconcileState_plans_witness :
  length demo_repaired.2 = 3%nat /\ Forall (plan_ok demo_degraded) demo_repaired.2.
Proof.
  split; [vm_compute; reflexivity|].
  refine (proj1 (reconcileState_plans demo_degraded no_budget demo_repaired.1 demo_repaired.2 _ _)).
  - apply demo_degraded_wf.
  - vm_compute. reflexivity.
Defined.

(** ** What a whole plan may promote or drop *)
Definition becomes_active (events : list Event) (slot : Z) (id : string) : Prop :=
  exists e, e ∈ events /\ event_Kind e = EventKindReplicaBecameActive /\
    event_Slot e = slot /\ event_NodeID e = id.

Definition is_removed (events : list Event) (slot : Z) (id : string) : Prop :=
  exists e, e ∈ events /\ event_Kind e = EventKindReplicaRemoved /\
    event_Slot e = slot /\ event_NodeID e = id.

(** From [st] to [st'] under [events]: the same number of chains, no promotion
    without a report, no loss without a report or a death, and no resurrection. *)
Record evolves (events : list Event) (st st' : ClusterState) : Prop := {
  ev_length : length (cs_Chains st') = length (cs_Chains st);
  ev_active : forall i c c' id, cs_Chains st !! i = Some c -> cs_Chains st' !! i = Some c' ->
    active_in id c' -> active_in id c \/ becomes_active events (Z.of_nat i) id;
  ev_keep : forall i c c' id, cs_Chains st !! i = Some c -> cs_Chains st' !! i = Some c' ->
    id ∈ ids_of c -> id ∈ ids_of c' \/ is_removed events (Z.of_nat i) id \/
                     is_dead (cs_NodeHealthByID st') id = true;
  ev_dead : forall id, is_Some (cs_NodesByID st !! id) ->
    is_dead (cs_NodeHealthByID st) id = true -> is_dead (cs_NodeHealthByID st') id = true;
  ev_known : forall id, is_Some (cs_NodesByID st !! id) -> is_Some (cs_NodesByID st' !! id);
}.

Lemma becomes_active_app es es' slot id :
  becomes_active (es ++ es') slot id <-> becomes_active es slot id \/ becomes_active es' slot id.
Proof. unfold becomes_active. set_solver. Qed.

Lemma is_removed_app es es' slot id :
  is_removed (es ++ es') slot id <-> is_removed es slot id \/ is_removed es' slot id.
Proof. unfold is_removed. set_solver. Qed.

Lemma evolves_refl st : evolves [] st st.
Proof. constructor; try done; intros; simplify_eq; auto. Qed.

Lemma evolves_trans es es' st1 st2 st3 :
  cluster_wf st1 -> evolves es st1 st2 -> evolves es' st2 st3 -> evolves (es ++ es') st1 st3.
Proof.
  intros Hwf [L1 A1 K1 D1 N1] [L2 A2 K2 D2 N2].
  assert (forall i (c : Chain), cs_Chains st1 !! i = Some c -> exists c2, cs_Chains st2 !! i = Some c2)
    as Hmid.
  { intros i c Hc. apply lookup_lt_is_Some. rw L1. eauto using lookup_lt_Some. }
  constructor; [by rw L2| | |auto|auto].
  - intros i c c' id Hc Hc' Ha. rw becomes_active_app. destruct (Hmid i c Hc) as [c2 Hc2].
    destruct (A2 i c2 c' id Hc2 Hc' Ha) as [Ha2|]; [|auto].
    destruct (A1 i c c2 id Hc Hc2 Ha2); auto.
  - intros i c c' id Hc Hc' Hid. rw is_removed_app. destruct (Hmid i c Hc) as [c2 Hc2].
    pose proof (cw_known _ _ _ _ (wf_chains _ Hwf i c Hc) id Hid) as Hk.
    destruct (K1 i c c2 id Hc Hc2 Hid) as [H2|[?|?]]; [|auto|auto].
    destruct (K2 i c2 c' id Hc2 Hc' H2) as [?|[?|?]]; auto.
Qed.

Lemma replay_evolves st plans chains chains' :
  Forall (plan_ok st) plans -> replay chains plans = Some chains' ->
  length chains' = length chains /\
  forall i c c', chains !! i = Some c -> chains' !! i = Some c' ->
    (forall id, active_in id c' -> active_in id c) /\
    (forall id, id ∈ ids_of c -> is_dead (cs_NodeHealthByID st) id = false -> id ∈ ids_of c').
Proof.
  intros Hok. revert chains. induction Hok as [|p plans [Hch _] _ IH]; intros chains; cbn.
  { intros [= <-]. split; [done|]. intros. simplify_eq. auto. }
  case_bool_decide as Hz; [|done]. intros [Hlen Hev]%IH. rw length_insert in Hlen.
  split; [done|]. intros i c c' Hc Hc'. apply zidx_Some in Hz as [_ Hz].
  destruct (decide (i = Z.to_nat (plan_Slot p))) as [->|Hne].
  - rw Hz in Hc. injection Hc as <-.
    destruct (Hev (Z.to_nat (plan_Slot p)) (plan_After p) c') as [Ha Hk]; [|done|].
    { apply list_lookup_insert_eq. eauto using lookup_lt_Some. }
    split; [intros; by apply (ch_promote _ _ _ Hch), Ha|].
    intros id Hid Hd. apply Hk; [|done]. by apply (ch_keep _ _ _ Hch).
  - apply (Hev i c c'); [|done]. by rw list_lookup_insert_ne; [congruence|].
Qed.

Lemma reconcile_evolves st policy acc :
  cluster_wf st -> reconcileState st policy = Ok acc -> evolves [] st acc.1.
Proof.
  intros Hwf Heq. destruct (res_sat_Ok _ _ _ _ (reconcileState_ok st policy Hwf) Heq) as [Hp _].
  destruct Hp as [_ Hsame Hrep Hok]. destruct (replay_evolves _ _ _ _ Hok Hrep) as [Hlen Hev].
  unfold same_nodes in Hsame. constructor; [done| | |by rw Hsame|by rw Hsame].
  - intros i c c' id Hc Hc' Ha. left. by apply (Hev i c c').
  - intros i c c' id Hc Hc' Hid. rw Hsame. cbn.
    destruct (is_dead (cs_NodeHealthByID st) id) eqn:Hd; [auto|]. left. by apply (Hev i c c').
Qed.

Lemma same_chains_evolves events st st' :
  cs_Chains st' = cs_Chains st ->
  (forall id, is_Some (cs_NodesByID st !! id) ->
     is_dead (cs_NodeHealthByID st) id = true -> is_dead (cs_NodeHealthByID st') id = true) ->
  (forall id, is_Some (cs_NodesByID st !! id) -> is_Some (cs_NodesByID st' !! id)) ->
  evolves events st st'.
Proof. intros Hc Hd Hk. constructor; rw ?Hc; try done; intros; simplify_eq; auto. Qed.

Lemma addNode_evolves events st node ready st' :
  addNode st node ready = Ok st' -> evolves events st st'.
Proof.
  unfold addNode. intros ([[normalized byID] order] & _ & H)%bind_Ok.
  destruct normalized as [|n ns]; [done|]. destruct order as [|id ids]; [done|].
  destruct (cs_NodesByID st !! id) as [existing|] eqn:Hex.
  - apply bind_Ok in H as (_ & _ & H). apply bind_Ok in H as (_ & _ & H). injection H as <-.
    destruct ready; by apply same_chains_evolves.
  - injection H as <-. apply same_chains_evolves; cbn; [done| |].
    + intros id' Hk. unfold is_dead. rw lookup_insert_ne; [|done]. intros <-. by destruct Hk; congruence.
    + intros id' Hk. apply lookup_insert_is_Some'. auto.
Qed.

(** A change of one chain, justified for that chain, is justified for the state. *)
Lemma put_chain_evolves events st slot c0 c' st' :
  0 <= slot -> cs_Chains st !! Z.to_nat slot = Some c0 ->
  evolves events (put_chain st slot c') st' ->
  (forall id, active_in id c' -> active_in id c0 \/ becomes_active events slot id) ->
  (forall id, id ∈ ids_of c0 -> id ∈ ids_of c' \/ is_removed events slot id) ->
  evolves events st st'.
Proof.
  intros Hge Hc0 [L A K D N] Hact Hkeep. cbn in L. rw length_insert in L.
  assert (forall j c, cs_Chains st !! j = Some c ->
    j = Z.to_nat slot /\ c = c0 \/ cs_Chains (put_chain st slot c') !! j = Some c) as Hcase.
  { intros j c Hj. destruct (decide (j = Z.to_nat slot)) as [->|Hne]; [left; naive_solver|].
    right. cbn. by rw list_lookup_insert_ne; [congruence|]. }
  assert (cs_Chains (put_chain st slot c') !! Z.to_nat slot = Some c') as Hput.
  { cbn. apply list_lookup_insert_eq. eauto using lookup_lt_Some. }
  constructor; [done| | |done|done].
  - intros j c c2 id Hj Hj2 Ha. destruct (Hcase j c Hj) as [[-> ->]|Hsame]; [|eauto].
    destruct (A _ _ _ id Hput Hj2 Ha) as [H1|]; [|auto]. rw Z2Nat.id; [lia|auto].
  - intros j c c2 id Hj Hj2 Hin. destruct (Hcase j c Hj) as [[-> ->]|Hsame]; [|eauto].
    rw Z2Nat.id; [lia|]. destruct (Hkeep id Hin) as [H1|]; [|auto].
    destruct (K _ _ _ id Hput Hj2 H1) as [?|[?|?]]; auto. rw Z2Nat.id in H; [lia|auto].
Qed.

Lemma progress_evolves st e st' :
  cluster_wf st -> applyProgressEvent st e = Ok st' -> evolves [e] st st'.
Proof.
  intros Hwf. unfold applyProgressEvent. intros (_ & [Hb _]%reject_Ok & H)%bind_Ok.
  apply orb_false_iff in Hb as [Hge Hlt]. apply Z.ltb_ge in Hge. apply Z.leb_gt in Hlt.
  apply bind_Ok in H as (_ & _ & H).
  apply bind_Ok in H as (c0 & Hc0%chain_at_ok%zidx_Some & H). destruct Hc0 as [_ Hc0].
  destruct (findReplicaIndex c0 _) as [i|] eqn:Hi; [|done].
  apply findReplicaIndex_spec in Hi as (r & Hr & Hid). rw Hr in H.
  destruct (event_Kind e) eqn:Hkind; try done.
  - apply bind_Ok in H as (_ & [Hj _]%reject_Ok & H). injection H as <-.
    eapply (put_chain_evolves _ _ (event_Slot e)); [done|exact Hc0|by apply same_chains_evolves|..].
    + intros id Ha. unfold active_in in Ha. cbn in Ha.
      apply list_elem_of_lookup in Ha as [k Hk].
      apply list_lookup_insert_Some in Hk as [(_ & [= Hk] & _)|[_ Hk]].
      * right. exists e. rw -Hk. set_solver.
      * left. by apply list_elem_of_lookup_2 in Hk.
    + intros id Hin. left. fold (activated c0 i r).
      enough (ids_of (activated c0 i r) = ids_of c0) as -> by done.
      unfold ids_of, replicaIDs. cbn. rw list_fmap_insert list_insert_id //.
      by rw list_lookup_fmap Hr.
  - apply bind_Ok in H as (_ & _ & H). injection H as <-.
    apply (put_chain_evolves _ _ (event_Slot e) c0
      (set_Replicas c0 (delete i (chain_Replicas c0)))); [done|done|..].
    + destruct (_ && _); by apply same_chains_evolves.
    + intros id Ha. left. unfold active_in in *. cbn in Ha.
      eapply elem_of_sublist; [exact Ha|]. apply sublist_delete.
    + intros id (r' & Hr' & <-)%elem_of_ids. apply list_elem_of_lookup in Hr' as [k Hk].
      destruct (decide (k = i)) as [->|Hne].
      * right. exists e. rw Hk in Hr. injection Hr as ->. set_solver.
      * left. apply elem_of_ids. exists r'. split; [|done]. cbn.
        apply list_elem_of_lookup. destruct (decide (k < i)%nat).
        -- exists k. by rw list_lookup_delete_lt.
        -- exists (pred k). rw list_lookup_delete_ge; [lia|]. by rw Nat.succ_pred; [lia|].
Qed.

Lemma applyEvent_evolves st e st' :
  cluster_wf st -> applyEvent st e = Ok st' -> evolves [e] st st'.
Proof.
  intros Hwf. unfold applyEvent. destruct (event_Kind e) eqn:Hkind; try done.
  - apply addNode_evolves.
  - apply addNode_evolves.
  - unfold beginDrainNode. intros (_ & _ & H)%bind_Ok. apply bind_Ok in H as (_ & _ & H).
    apply bind_Ok in H as (_ & _ & [= <-]). by apply same_chains_evolves.
  - unfold markNodeDead. intros (_ & _ & H)%bind_Ok. apply bind_Ok in H as (_ & _ & [= <-]).
    apply same_chains_evolves; cbn; [done| |done]. intros id _. unfold is_dead.
    rw !bool_decide_eq_true lookup_insert. by case_decide.
  - by apply progress_evolves.
  - by apply progress_evolves.
Qed.

Lemma plan_event_evolves policy acc e acc' :
  cluster_wf acc.1 -> plan_event policy acc e = Ok acc' -> evolves [e] acc.1 acc'.1.
Proof.
  intros Hwf. unfold plan_event. intros (w & Hw & H)%bind_Ok.
  apply bind_Ok in H as ([w' plans] & Hrec & [= <-]). cbn.
  pose proof (res_sat_Ok _ _ _ _ (applyEvent_ok acc.1 e Hwf) Hw) as Hwf'.
  rw -(app_nil_r [e]). eapply evolves_trans; [done|exact (applyEvent_evolves _ _ _ Hwf Hw)|].
  by apply (reconcile_evolves w policy (w', plans)).
Qed.

Lemma plan_events_evolve policy events acc acc' :
  cluster_wf acc.1 -> res_fold (plan_event policy) acc events = Ok acc' ->
  evolves events acc.1 acc'.1.
Proof.
  revert acc. induction events as [|e events IH]; intros acc Hwf; cbn [res_fold].
  { intros [= <-]. apply evolves_refl. }
  intros (acc1 & H1 & H)%bind_Ok. change (e :: events) with ([e] ++ events).
  eapply evolves_trans; [done|exact (plan_event_evolves policy acc e acc1 Hwf H1)|]. apply IH; [|done].
  by apply (res_sat_Ok _ _ _ _ (plan_event_ok policy acc e Hwf) H1).
Qed.

(** Validation keeps the replicas of every chain and the recorded deaths. *)
Lemma cloneAndValidateState_keeps st w :
  cloneAndValidateState st = Ok w ->
  chain_Replicas <$> cs_Chains w = chain_Replicas <$> cs_Chains st /\
  cs_NodesByID w = cs_NodesByID st.
Proof.
  unfold cloneAndValidateState. rw cloneNodes_id. intros (_ & _ & H)%bind_Ok.
  apply bind_Ok in H as (_ & _ & H). apply bind_Ok in H as ([seen health] & _ & H).
  apply bind_Ok in H as (_ & _ & [= <-]). cbn. split; [|done].
  apply list_eq. intros i. rw !list_lookup_fmap list_lookup_imap. by destruct (_ !! i).
Qed.

Lemma PlanReconfiguration_evolves st events policy plan :
  input_wf st -> PlanReconfiguration st events policy = Ok plan ->
  exists w, cluster_wf w /\ chain_Replicas <$> cs_Chains w = chain_Replicas <$> cs_Chains st /\
    evolves events w (rp_UpdatedState plan).
Proof.
  intros Hin. unfold PlanReconfiguration. intros (_ & _ & H)%bind_Ok.
  apply bind_Ok in H as (w & Hw & H). apply bind_Ok in H as ([w' plans] & Hplan & [= <-]). cbn.
  pose proof (res_sat_Ok _ _ _ _ (cloneAndValidateState_ok st Hin) Hw) as Hwf.
  exists w. split; [done|]. split; [by apply cloneAndValidateState_keeps in Hw as [? _]|].
  case_bool_decide as He.
  - subst. by apply (reconcile_evolves w policy (w', plans)).
  - by apply (plan_events_evolve policy events (w, []) (w', plans)).
Qed.

Lemma same_replicas_lookup (cs cs' : list Chain) i c :
  chain_Replicas <$> cs = chain_Replicas <$> cs' -> cs' !! i = Some c ->
  exists c1, cs !! i = Some c1 /\ chain_Replicas c1 = chain_Replicas c.
Proof.
  intros Heq Hc. apply (f_equal (.!! i)) in Heq. rw !list_lookup_fmap Hc in Heq.
  destruct (cs !! i) as [c1|]; [|done]. injection Heq as Heq. eauto.
Qed.

(** Over a whole plan no replica starts serving by itself: a replica that is
    active in the returned state was active in the same slot before, unless
    one of the events reports that this replica became active. *)
Theorem PlanReconfiguration_no_promotion st events policy plan i c c' id :
  input_wf st -> PlanReconfiguration st events policy = Ok plan ->
  cs_Chains st !! i = Some c -> cs_Chains (rp_UpdatedState plan) !! i = Some c' ->
  active_in id c' -> active_in id c \/ becomes_active events (Z.of_nat i) id.
Proof.
  intros Hin Hplan Hc Hc' Ha.
  destruct (PlanReconfiguration_evolves _ _ _ _ Hin Hplan) as (w & _ & Heq & Hev).
  destruct (same_replicas_lookup _ _ _ _ Heq Hc) as (c1 & Hc1 & Hr).
  destruct (ev_active _ _ _ Hev i c1 c' id Hc1 Hc' Ha) as [H|]; [|auto].
  left. unfold active_in in *. by rw -Hr.
Qed.

(** Over a whole plan no replica is lost: a member of a chain is still a
    member of the same chain in the returned state, unless one of the events
    reports its removal or its node is dead by then. *)
Theorem PlanReconfiguration_no_loss st events policy plan i c c' id :
  input_wf st -> PlanReconfiguration st events policy = Ok plan ->
  cs_Chains st !! i = Some c -> cs_Chains (rp_UpdatedState plan) !! i = Some c' ->
  id ∈ ids_of c -> id ∈ ids_of c' \/ is_removed events (Z.of_nat i) id \/
    is_dead (cs_NodeHealthByID (rp_UpdatedState plan)) id = true.
Proof.
  intros Hin Hplan Hc Hc' Hid.
  destruct (PlanReconfiguration_evolves _ _ _ _ Hin Hplan) as (w & _ & Heq & Hev).
  destruct (same_replicas_lookup _ _ _ _ Heq Hc) as (c1 & Hc1 & Hr).
  apply (ev_keep _ _ _ Hev i c1 c' id Hc1 Hc'). unfold ids_of in *. by rw Hr.
Qed.

Definition chain_or_empty (st : ClusterState) (i : nat) : Chain :=
  default {| chain_Slot := 0; chain_Replicas := [] |} (cs_Chains st !! i).

Lemma PlanReconfiguration_no_promotion_witness :
  active_in "b" (chain_or_empty demo_state 0) \/ becomes_active [kill "a"] 0 "b".
Proof.
  refine (PlanReconfiguration_no_promotion demo_state [kill "a"] no_budget demo_plan 0
    (chain_or_empty demo_state 0) (chain_or_empty (rp_UpdatedState demo_plan) 0) "b" _ _ _ _ _).
  - apply cluster_input_wf, demo_state_wf.
  - vm_compute. reflexivity.
  - vm_compute. reflexivity.
  - vm_compute. reflexivity.
  - unfold active_in. apply (bool_decide_unpack _). vm_compute. exact I.
Defined.

Lemma PlanReconfiguration_no_loss_witness :
  "b" ∈ ids_of (chain_or_empty (rp_UpdatedState demo_plan) 0) \/ is_removed [kill "a"] 0 "b" \/
  is_dead (cs_NodeHealthByID (rp_UpdatedState demo_plan)) "b" = true.
Proof.
  refine (PlanReconfiguration_no_loss demo_state [kill "a"] no_budget demo_plan 0
    (chain_or_empty demo_state 0) (chain_or_empty (rp_UpdatedState demo_plan) 0) "b" _ _ _ _ _).
  - apply cluster_input_wf, demo_state_wf.
  - vm_compute. reflexivity.
  - vm_compute. reflexivity.
  - vm_compute. reflexivity.
  - apply (bool_decide_unpack _). vm_compute. exact I.
Defined.

(** ** Quiet passes, budget and quiescence *)
Lemma run_pass_quiet step acc slots :
  (forall slot, slot ∈ slots -> step acc.1 slot = Ok (acc.1, None)) ->
  run_pass step acc slots = Ok acc.
Proof.
  intros Hq. unfold run_pass. induction slots as [|slot slots IH]; [done|]. cbn [res_fold].
  assert (pass_step step acc slot = Ok acc) as ->.
  { unfold pass_step. rw Hq; [set_solver|]. cbn. rw app_nil_r. by destruct acc. }
  apply IH. intros. apply Hq. set_solver.
Qed.

Lemma run_budget_pass_quiet step acc remaining slots :
  (forall slot, slot ∈ slots -> step acc.1 slot = Ok (acc.1, None)) ->
  run_budget_pass step acc remaining slots = Ok acc.
Proof.
  intros Hq. unfold run_budget_pass.
  enough (res_fold (budget_step step) (acc.1, acc.2, remaining) slots =
    Ok (acc.1, acc.2, remaining)) as -> by (by destruct acc).
  induction slots as [|slot slots IH]; [done|]. cbn [res_fold].
  assert (budget_step step (acc.1, acc.2, remaining) slot = Ok (acc.1, acc.2, remaining)) as ->.
  { unfold budget_step. destruct (remaining =? 0); [done|]. by rw Hq; [set_solver|]. }
  apply IH. intros. apply Hq. set_solver.
Qed.

Lemma settled_repair_quiet st slot c :
  settled st -> zidx (cs_Chains st) slot = Some c -> repairDeadReplicas st slot = Ok (st, None).
Proof.
  intros Hset Hz. unfold repairDeadReplicas, chain_at. rw Hz. cbn.
  apply zidx_Some in Hz as [_ Hz%list_elem_of_lookup_2].
  by rw (proj2 (no_dead_spec st c) (Hset c Hz)).
Qed.

(** Nothing in the chains is draining. *)
Definition undrained (st : ClusterState) : Prop :=
  forall id, mget (cs_DrainingNodeIDs st) id = false.

Lemma undrained_active st c :
  undrained st -> activeReplicaIDsWithDrain c (cs_DrainingNodeIDs st) = [] /\
  firstActiveDrainingReplicaID c (cs_DrainingNodeIDs st) = "".
Proof.
  intros Hu. unfold activeReplicaIDsWithDrain, firstActiveDrainingReplicaID.
  induction (chain_Replicas c) as [|r rs [IH1 IH2]]; [done|]. cbn.
  rw Hu andb_false_r. done.
Qed.

Lemma undrained_quiet st slot c :
  undrained st -> zidx (cs_Chains st) slot = Some c ->
  finalizeDrainReplacement st slot = Ok (st, None) /\
  appendDrainReplacement st slot = Ok (st, None).
Proof.
  intros Hu Hz. destruct (undrained_active st c Hu) as [Ha Hf].
  unfold finalizeDrainReplacement, appendDrainReplacement, chain_at. rw Hz. cbn. rw Ha Hf. cbn.
  split; [by destruct (hasJoiningReplica c)|by destruct (hasPendingReplicaState c)].
Qed.

Definition marks_leaving (p : SlotPlan) : Prop :=
  Forall (fun s => step_Kind s = StepKindMarkLeaving) (plan_Steps p).

Lemma finalizeJoin_marks st slot desired st' p :
  finalizeJoinRebalance st slot desired = Ok (st', Some p) -> marks_leaving p.
Proof.
  unfold finalizeJoinRebalance. intros (c & _ & H)%bind_Ok.
  repeat match type of H with
  | context [if ?b then _ else _] => destruct b; [done|]
  | context [match ?o with _ => _ end] => destruct o as [?|]; [|done]
  end.
  apply bind_Ok in H as (same & _ & H). destruct same; [|done]. injection H as _ <-.
  by repeat constructor.
Qed.

Lemma join_pass_marks chains acc slots acc' :
  run_pass (with_desired chains finalizeJoinRebalance) acc slots = Ok acc' ->
  Forall marks_leaving acc.2 -> Forall marks_leaving acc'.2.
Proof.
  unfold run_pass. revert acc. induction slots as [|slot slots IH]; intros acc; cbn [res_fold].
  { by intros [= <-]. }
  intros ([st plans] & Hstep & H)%bind_Ok Hall. apply (IH _ H). unfold pass_step in Hstep.
  apply bind_Ok in Hstep as ([st1 o] & Hst & [= <- <-]). cbn. apply Forall_app. split; [done|].
  destruct o as [p|]; cbn; [|constructor]. constructor; [|constructor]. unfold with_desired in Hst.
  destruct (zidx chains slot); [|done]. by apply finalizeJoin_marks in Hst.
Qed.

Lemma repair_pass_quiet st slots :
  cluster_wf st -> settled st -> (forall slot, slot ∈ slots -> 0 <= slot < cs_SlotCount st) ->
  run_pass repairDeadReplicas (st, []) slots = Ok (st, []).
Proof.
  intros Hwf Hset Hr. apply run_pass_quiet. intros slot Hs%Hr.
  destruct (chain_at_wf st slot Hwf Hs) as (c & _ & Hz & _). by apply (settled_repair_quiet _ _ c).
Qed.

Lemma drain_pass_quiet st slots plans :
  cluster_wf st -> undrained st -> (forall slot, slot ∈ slots -> 0 <= slot < cs_SlotCount st) ->
  run_pass finalizeDrainReplacement (st, plans) slots = Ok (st, plans) /\
  run_pass appendDrainReplacement (st, plans) slots = Ok (st, plans).
Proof.
  intros Hwf Hu Hr. split; apply run_pass_quiet; intros slot Hs%Hr;
    destruct (chain_at_wf st slot Hwf Hs) as (c & _ & Hz & _); by apply (undrained_quiet _ _ c).
Qed.

Lemma same_nodes_refl st : same_nodes st st.
Proof. by destruct st. Qed.

Lemma planned_start st : cluster_wf st -> planned st (st, []).
Proof. intros Hwf. constructor; [done|apply same_nodes_refl|done|constructor]. Qed.

Lemma remaining_budget_bound policy n :
  0 < policy_MaxChangedChains policy -> 0 <= n ->
  0 <= remainingChangedChainBudget policy n <= policy_MaxChangedChains policy.
Proof.
  intros Hk Hn. unfold remainingChangedChainBudget.
  destruct (Z.leb_spec (policy_MaxChangedChains policy) 0); [lia|].
  destruct (Z.ltb_spec (policy_MaxChangedChains policy - n) 0); lia.
Qed.

Lemma planned_nil st st' : planned st (st', []) -> st' = st.
Proof.
  intros [_ Hsame Hrep _]. cbn in *. injection Hrep as Hrep. unfold same_nodes in Hsame.
  rw Hsame -Hrep. by destruct st.
Qed.

(** When no chain holds a dead replica and no node is draining, a positive
    MaxChangedChains bounds the disruption: one reconciliation either starts
    new replicas in at most that many chains or only retires replicas that
    the previous steps already replaced. *)
Theorem reconcileState_budget st policy st' plans :
  cluster_wf st -> settled st -> undrained st -> 0 < policy_MaxChangedChains policy ->
  reconcileState st policy = Ok (st', plans) ->
  Z.of_nat (length plans) <= policy_MaxChangedChains policy \/ Forall marks_leaving plans.
Proof.
  intros Hwf Hset Hu Hk H. unfold reconcileState in H.
  assert (forall slot, slot ∈ zrange (cs_SlotCount st) -> 0 <= slot < cs_SlotCount st) as Hr
    by (intros; by apply elem_of_zrange).
  rw (repair_pass_quiet _ _ Hwf Hset Hr) in H. cbn [mbind res_bind] in H.
  rw (proj1 (drain_pass_quiet st _ [] Hwf Hu Hr)) in H. cbn [mbind res_bind fst snd] in H.
  apply bind_Ok in H as (desired & Hd & H).
  pose proof (res_sat_Ok _ _ _ _ (buildDesired_ok st Hwf) Hd) as Hdes. cbn in Hdes.
  pose proof (planned_start st Hwf) as Hp0.
  apply bind_Ok in H as ([st3 plans3] & H3 & H).
  assert (planned st (st3, plans3) /\ Forall marks_leaving plans3) as [Hp3 Hm3].
  { destruct desired as [chains|]; [|injection H3 as <- <-; by split; [|constructor]].
    split; [|by apply (join_pass_marks _ _ _ _ H3); constructor].
    refine (proj1 (res_sat_Ok _ _ _ _ (run_pass_ok st _ (st, []) _ _ Hr Hp0 Hset) H3)).
    eapply with_desired_sound; [apply same_nodes_refl|by apply Hdes|]. intros; by apply finalizeJoinRebalance_ok. }
  cbn [fst snd] in H. case_bool_decide as Hnil; cbn [negb] in H; [|injection H as <- <-; auto].
  subst plans3. apply planned_nil in Hp3 as ->. apply bind_Ok in H as ([st4 plans4] & H4 & H).
  assert (planned st (st4, plans4) /\
    Z.of_nat (length plans4) <= policy_MaxChangedChains policy) as [Hp4 Hl4].
  { destruct desired as [chains|]; [|injection H4 as <- <-; split; [done|cbn; lia]].
    destruct (appendPrioritySlots_ok st Hwf) as (slots & Hs & Hperm).
    cbn [fst snd length] in H4. rw Hs in H4. cbn [mbind res_bind] in H4.
    destruct (res_sat_Ok _ _ _ _ (run_budget_pass_ok st _ (st, []) _ slots
      (with_desired_sound st st chains appendMissingDesiredReplicas (same_nodes_refl st)
         (Hdes _ eq_refl) appendMissingDesiredReplicas_ok)
      ltac:(intros slot; rw Hperm; apply Hr) Hp0 Hset) H4) as (? & _ & Hb).
    pose proof (remaining_budget_bound policy (Z.of_nat 0) Hk ltac:(lia)).
    split; [done|]. cbn [fst snd length] in Hb. lia. }
  cbn [fst snd] in H. case_bool_decide as Hnil; cbn [negb] in H; [|injection H as <- <-; auto].
  subst plans4. apply planned_nil in Hp4 as ->.
  rw (proj2 (drain_pass_quiet st _ [] Hwf Hu Hr)) in H. cbn [mbind res_bind] in H. left.
  destruct desired as [chains|]; [|injection H as _ <-; cbn; lia].
  destruct (0 <? _); [|injection H as _ <-; cbn; lia].
  destruct (res_sat_Ok _ _ _ _ (run_budget_pass_ok st _ (st, []) _ _
    (with_desired_sound st st chains appendJoinRebalance (same_nodes_refl st)
       (Hdes _ eq_refl) appendJoinRebalance_ok) Hr Hp0 Hset) H) as (_ & _ & Hb).
  cbn in Hb. lia.
Qed.

Definition add (n : Node) : Event :=
  {| event_Kind := EventKindAddNode; event_Node := n; event_NodeID := ""; event_Slot := 0 |}.
Definition one_change : ReconfigurationPolicy := {| policy_MaxChangedChains := 1 |}.

(** Two zones, a third node in the first zone has just registered. *)
Definition grown_state : ClusterState :=
  ok_or zeroState
    (st ← BuildInitialPlacement {| config_SlotCount := 3; config_ReplicationFactor := 2 |}
            [demo_node "b" "z1"; demo_node "c" "z2"];
     applyEvent st (add (demo_node "a" "z1"))).

Lemma grown_state_wf : cluster_wf grown_state.
Proof.
  assert (exists st, BuildInitialPlacement
    {| config_SlotCount := 3; config_ReplicationFactor := 2 |}
    [demo_node "b" "z1"; demo_node "c" "z2"] = Ok st /\
    applyEvent st (add (demo_node "a" "z1")) = Ok grown_state) as (st & Hst & Hev).
  { eexists. split; vm_compute; reflexivity. }
  exact (res_sat_Ok _ _ _ _ (applyEvent_ok st _ (BuildInitialPlacement_wf _ _ _ Hst)) Hev).
Qed.

Lemma settled_dec st :
  forallb (fun c => negb (chainContainsDeadReplica c (cs_NodeHealthByID st))) (cs_Chains st) = true ->
  settled st.
Proof.
  rw forallb_forall. intros H c Hc. apply no_dead_spec, negb_true_iff, H. by apply list_elem_of_In.
Qed.

Lemma reconcileState_budget_witness :
  exists st' plans, reconcileState grown_state one_change = Ok (st', plans) /\
    (Z.of_nat (length plans) <= 1 \/ Forall marks_leaving plans).
Proof.
  destruct (reconcileState grown_state one_change) as [[st' plans]|e] eqn:H.
  - exists st', plans. split; [reflexivity|].
    refine (reconcileState_budget grown_state one_change st' plans _ _ _ _ H).
    + apply grown_state_wf.
    + apply settled_dec. vm_compute. reflexivity.
    + intros id. unfold mget. replace (cs_DrainingNodeIDs grown_state) with (∅ : gmap string bool)
        by (vm_compute; reflexivity). by rw lookup_empty.
    + reflexivity.
  - exfalso. vm_compute in H. discriminate H.
Defined.

(** ** A fresh placement is a fixed point of planning *)
Lemma soleOutsider_self l : soleOutsider l l = Some "".
Proof.
  unfold soleOutsider. enough (forall k, (forall x, x ∈ k -> x ∈ l) ->
    foldl (fun acc nodeID => found ← acc; if containsNodeID l nodeID then Some found
      else if String.eqb found "" then Some nodeID else None) (Some "") k = Some "") as H
    by (apply H; auto).
  induction k as [|x k IH]; [done|]. intros Hsub. cbn.
  rw (proj2 (containsNodeID_spec l x)); [set_solver|]. apply IH. set_solver.
Qed.

Lemma steady_quiet st slot ids byID c :
  0 < cs_ReplicationFactor st -> undrained st -> zidx (cs_Chains st) slot = Some c ->
  steady_chain (cs_ReplicationFactor st) slot ids byID c ->
  finalizeJoinRebalance st slot c = Ok (st, None) /\
  appendMissingDesiredReplicas st slot c = Ok (st, None) /\
  appendJoinRebalance st slot c = Ok (st, None).
Proof.
  intros Hrf Hu Hz [Hs Hl Hact Hn Hk _].
  assert (hasPendingReplicaState c = false) as Hp.
  { unfold hasPendingReplicaState, hasJoiningReplica, hasLeavingReplica. apply orb_false_iff.
    split; apply hasState_false; eapply Forall_impl; try exact Hact; by intros r ->. }
  pose proof (undrained_active st c Hu) as [_ Hf].
  unfold finalizeJoinRebalance, appendMissingDesiredReplicas, appendJoinRebalance, chain_at.
  rw Hz. cbn -[Z.add]. fold (hasPendingReplicaState c). fold (ids_of c).
  rw Hp Hf (active_ids_all c Hp) length_ids Hl Z.leb_refl Z.eqb_refl. cbn -[Z.add].
  split; [|split; [done|]].
  - rw (proj2 (Z.eqb_neq _ _)); [lia|done].
  - destruct (chainContainsDeadReplica c _); [done|].
    unfold oneMemberReplacement. rw soleOutsider_self. cbn.
    assert (disjointChain (ids_of c) (ids_of c) = false) as ->; [|done].
    rw -length_ids in Hl. destruct (ids_of c) as [|x l]; cbn in Hl; [lia|].
    unfold disjointChain. cbn [forallb].
    by rw (proj2 (containsNodeID_spec (x :: l) x)); [set_solver|].
Qed.

(** States that validation returns unchanged. *)
Record canonical (st : ClusterState) : Prop := {
  can_order : cs_NodeOrder st <> [];
  can_ready : map_Forall (fun _ b => b = true) (cs_ReadyNodeIDs st);
  can_draining : map_Forall (fun _ b => b = true) (cs_DrainingNodeIDs st);
}.

Lemma clone_true_id m : map_Forall (fun _ b => b = true) m -> clone_true m = m.
Proof. intros H. apply map_filter_id. intros k b Hb. exact (H k b Hb). Qed.

Lemma fill_health_id (ids : list string) (h : gmap string NodeHealth) :
  (forall id, id ∈ ids -> is_Some (h !! id)) ->
  foldl (fun (h : gmap string NodeHealth) id =>
    match h !! id with Some _ => h | None => <[id := NodeHealthAlive]> h end) h ids = h.
Proof.
  induction ids as [|x ids IH] in h |- *; intros H; cbn; [done|].
  destruct (H x) as [v Hv]; [set_solver|]. rw Hv. apply IH. set_solver.
Qed.

Lemma checkOrder_id nodesByID (h : gmap string NodeHealth) order seen :
  NoDup order -> (forall id, id ∈ order -> id ∉ seen) ->
  (forall id, id ∈ order -> is_Some (nodesByID !! id) /\ is_Some (h !! id)) ->
  exists seen', res_fold (checkOrderEntry nodesByID) (seen, h) order = Ok (seen', h).
Proof.
  intros Hnd. revert seen. induction Hnd as [|id order Hid _ IH]; intros seen Hs Hk; cbn [res_fold].
  { by exists seen. }
  destruct (Hk id) as [[n Hn] [v Hv]]; [set_solver|].
  assert (checkOrderEntry nodesByID (seen, h) id = Ok ({[id]} ∪ seen, h)) as ->.
  { unfold checkOrderEntry, reject. rw Hn Hv. rw (bool_decide_false (id ∈ seen)); [set_solver|done]. }
  apply IH; set_solver.
Qed.

Lemma cloneAndValidateState_id st :
  cluster_wf st -> canonical st -> cloneAndValidateState st = Ok st.
Proof.
  intros [Hsc Hrf Hlen Hch Hids Hond Hok Hh] [Hne Hr Hd].
  unfold cloneAndValidateState, validateConfig, reject. cbn [config_SlotCount config_ReplicationFactor].
  rw cloneNodes_id clone_map_id !clone_true_id // Hlen Z.eqb_refl bool_decide_false //.
  destruct (Z.leb_spec (cs_SlotCount st) 0); [lia|].
  destruct (Z.leb_spec (cs_ReplicationFactor st) 0); [lia|]. cbn [mbind res_bind negb].
  destruct (checkOrder_id (cs_NodesByID st) (cs_NodeHealthByID st) (cs_NodeOrder st) ∅ Hond)
    as [seen Hseen]; [set_solver|naive_solver|]. rw Hseen. cbn [mbind res_bind].
  rw fill_health_id.
  { intros id Hid. apply Hh. apply list_elem_of_fmap in Hid as ([k n] & -> & Hin).
    apply elem_of_map_to_list in Hin. by exists n. }
  assert (imap (fun i chain => {| chain_Slot := Z.of_nat i;
    chain_Replicas := chain_Replicas (cloneChain chain) |}) (cs_Chains st) = cs_Chains st) as ->.
  { apply list_eq. intros i. rw list_lookup_imap. destruct (cs_Chains st !! i) as [c|] eqn:Hc; [|done].
    cbn. rw -(cw_slot _ _ _ _ (Hch i c Hc)). by destruct c. }
  assert (existsb (fun chain => existsb (fun r => bool_decide (cs_NodesByID st !! replica_NodeID r = None))
    (chain_Replicas chain)) (cs_Chains st) = false) as ->; [|by destruct st].
  apply not_true_iff_false. intros (c & [i Hc]%list_elem_of_In%list_elem_of_lookup & Hex)%existsb_exists.
  apply existsb_exists in Hex as (r & Hr'%list_elem_of_In & Hb). unbool.
  destruct (cw_known _ _ _ _ (Hch i c Hc) (replica_NodeID r)) as [n Hn]; [|congruence].
  apply elem_of_ids. eauto.
Qed.

Lemma orderedNodes_all st include nodes :
  cs_NodeOrder st = node_ID <$> nodes ->
  (forall n, n ∈ nodes -> include (node_ID n) = true /\ cs_NodesByID st !! node_ID n = Some n) ->
  orderedNodes st include = nodes.
Proof.
  intros Ho H. unfold orderedNodes. rw Ho. clear Ho. induction nodes as [|n nodes IH]; [done|]. cbn.
  destruct (H n) as [-> ->]; [set_solver|]. f_equal. apply IH. set_solver.
Qed.

Lemma foldl_insert_nodes nodes (byID : gmap string Node) :
  NoDup (node_ID <$> nodes) ->
  (forall id n, byID !! id = Some n <-> n ∈ nodes /\ node_ID n = id) ->
  foldl (fun m node => <[node_ID node := node]> m) ∅ nodes = byID.
Proof.
  intros Hnd Hl. apply map_eq. intros id. apply option_eq. intros n. rw Hl.
  pose proof (foldl_insert_indexed nodes Hnd) as Hidx. split; [|intros [Hn <-]; by apply Hidx].
  clear -Hnd. induction nodes as [|x nodes IH] using rev_ind; [done|]. rw foldl_app. cbn.
  rw fmap_app in Hnd. apply NoDup_app in Hnd as (Hnd & _ & _).
  intros [[<- <-]|[_ H]]%lookup_insert_Some; [set_solver|]. apply IH in H as [? ?]; [set_solver|done].
Qed.

Lemma fresh_desired cfg nodes st :
  nodes <> [] -> BuildInitialPlacement cfg nodes = Ok st ->
  canonical st /\ settled st /\ undrained st /\
  buildDesiredPlacementFromState st = Ok (Some (cs_Chains st)) /\
  exists ids byID, forall i c, cs_Chains st !! i = Some c ->
    steady_chain (cs_ReplicationFactor st) (Z.of_nat i) ids byID c.
Proof.
  intros Hne Hok. unfold BuildInitialPlacement in Hok. apply bind_Ok in Hok as ([] & Hcfg & Hok).
  unfold validateConfig in Hcfg. apply bind_Ok in Hcfg as ([] & [? _]%reject_Ok & [? _]%reject_Ok).
  rw bool_decide_false in Hok; [by destruct nodes|].
  apply bind_Ok in Hok as ([[normalized byID] order] & Hnorm & Hok).
  apply bind_Ok in Hok as ([] & [Hle _]%reject_Ok & Hok).
  apply bind_Ok in Hok as (chains & Hch & [= <-]).
  pose proof (res_sat_Ok _ _ _ _ (normalizeNodes_spec nodes) Hnorm) as Hn. cbn in Hn.
  pose proof (normalized_nonempty _ _ _ _ Hn) as [_ Hlen].
  pose proof (normalized_indexed _ _ _ _ Hn) as Hidx.
  destruct (res_sat_Ok _ _ _ _ (buildSteadyStateChains_steady (config_SlotCount cfg)
    (config_ReplicationFactor cfg) normalized byID Hidx ltac:(lia) ltac:(lia)) Hch) as [_ Hall].
  destruct Hn as [_ Ho Hnd _ Hl].
  split; [constructor; cbn|split; [|split; [done|split]]].
  - rw Ho. intros Hnil. apply fmap_nil_inv in Hnil as ->. by destruct nodes.
  - intros id b. rw foldl_insert_ids. case_bool_decide; [by intros [= <-]|done].
  - done.
  - intros c _ id _. unfold is_dead. apply bool_decide_false. cbn. rw foldl_insert_ids.
    by case_bool_decide.
  - unfold buildDesiredPlacementFromState. rw (orderedNodes_all _ _ normalized); [done| |].
    + intros n Hn. split; [|by apply Hidx]. unfold assignable, is_alive, mget. cbn.
      rw !foldl_insert_ids lookup_empty.
      by rw !(bool_decide_true (node_ID n ∈ _)); [by apply list_elem_of_fmap_2|..].
    + cbn. rw Hle (foldl_insert_nodes _ byID) //; [by rw -Ho|]. by rw Hch.
  - exists (node_ID <$> normalized), byID. exact Hall.
Qed.

(** A fresh placement is quiescent: planning without events returns it
    unchanged and schedules nothing, whatever the change budget. *)
Theorem fresh_placement_quiescent cfg nodes st policy :
  nodes <> [] -> BuildInitialPlacement cfg nodes = Ok st -> 0 <= policy_MaxChangedChains policy ->
  PlanReconfiguration st [] policy =
  Ok {| rp_UpdatedState := st; rp_UnassignedNodeIDs := collectUnassignedNodeIDs st;
        rp_ChangedSlots := [] |}.
Proof.
  intros Hne Hok Hk. pose proof (BuildInitialPlacement_wf _ _ _ Hok) as Hwf.
  destruct (fresh_desired _ _ _ Hne Hok) as (Hcan & Hset & Hu & Hdes & ids & byID & Hall).
  unfold PlanReconfiguration, reject. destruct (Z.ltb_spec (policy_MaxChangedChains policy) 0); [lia|].
  cbn [mbind res_bind]. rw cloneAndValidateState_id //. cbn [mbind res_bind].
  enough (reconcileState st policy = Ok (st, [])) as H' by (rw bool_decide_true // H'; done).
  assert (forall slot, slot ∈ zrange (cs_SlotCount st) -> 0 <= slot < cs_SlotCount st) as Hr
    by (intros; by apply elem_of_zrange).
  assert (forall slot, 0 <= slot < cs_SlotCount st ->
    with_desired (cs_Chains st) finalizeJoinRebalance st slot = Ok (st, None) /\
    with_desired (cs_Chains st) appendMissingDesiredReplicas st slot = Ok (st, None) /\
    with_desired (cs_Chains st) appendJoinRebalance st slot = Ok (st, None)) as Hq.
  { intros slot Hs. destruct (chain_at_wf st slot Hwf Hs) as (c & _ & Hz & _).
    unfold with_desired. rw Hz. pose proof Hz as [_ Hi]%zidx_Some. specialize (Hall _ _ Hi).
    rw Z2Nat.id in Hall; [lia|]. apply (steady_quiet st slot ids byID c); [apply Hwf|done..]. }
  unfold reconcileState. rw repair_pass_quiet //. cbn [mbind res_bind].
  rw (proj1 (drain_pass_quiet st _ [] Hwf Hu Hr)). cbn [mbind res_bind fst snd]. rw Hdes.
  cbn [mbind res_bind]. rw run_pass_quiet; [intros slot Hs%Hr; by apply Hq|]. cbn [mbind res_bind fst snd].
  destruct (appendPrioritySlots_ok st Hwf) as (slots & Hpr & Hperm).
  rw bool_decide_true // Hpr. cbn [negb mbind res_bind].
  rw run_budget_pass_quiet; [intros slot; rw Hperm; intros Hs%Hr; by apply Hq|].
  cbn [mbind res_bind fst snd]. rw bool_decide_true //. cbn [negb].
  rw (proj2 (drain_pass_quiet st _ [] Hwf Hu Hr)). cbn [mbind res_bind].
  destruct (0 <? _); [|done]. apply run_budget_pass_quiet. intros slot Hs%Hr. by apply Hq.
Qed.

Lemma fresh_placement_quiescent_witness :
  PlanReconfiguration demo_state [] one_change =
  Ok {| rp_UpdatedState := demo_state; rp_UnassignedNodeIDs := collectUnassignedNodeIDs demo_state;
        rp_ChangedSlots := [] |}.
Proof.
  apply (fresh_placement_quiescent demo_cfg demo_nodes demo_state one_change).
  - done.
  - vm_compute. reflexivity.
  - done.
Defined.

(** ** Progress reports *)
Definition became_active (slot : Z) (id : string) : Event :=
  {| event_Kind := EventKindReplicaBecameActive; event_Node := zeroNode; event_NodeID := id;
     event_Slot := slot |}.
Definition removed (slot : Z) (id : string) : Event :=
  {| event_Kind := EventKindReplicaRemoved; event_Node := zeroNode; event_NodeID := id;
     event_Slot := slot |}.

Lemma findReplicaIndex_complete c id : id ∈ ids_of c -> is_Some (findReplicaIndex c id).
Proof.
  unfold ids_of, replicaIDs, findReplicaIndex. generalize 0%nat.
  induction (chain_Replicas c) as [|r rs IH]; intros k; [set_solver|]. cbn.
  intros [->|Hin]%elem_of_cons; [by rw String.eqb_refl|].
  destruct (_ =? _)%string; [done|]. by apply IH.
Qed.

(** The replica of a member is unique. *)
Lemma member_replica c r r' :
  NoDup (ids_of c) -> r ∈ chain_Replicas c -> r' ∈ chain_Replicas c ->
  replica_NodeID r = replica_NodeID r' -> r = r'.
Proof.
  unfold ids_of, replicaIDs. intros Hnd [i Hi]%list_elem_of_lookup [j Hj]%list_elem_of_lookup Heq.
  enough (i = j) by congruence. apply (NoDup_lookup _ i j (replica_NodeID r) Hnd);
    rw list_lookup_fmap; [by rw Hi|by rw Hj Heq].
Qed.

Lemma ApplyProgress_unfold st e c i r :
  cluster_wf st -> canonical st ->
  (event_Kind e = EventKindReplicaBecameActive \/ event_Kind e = EventKindReplicaRemoved) ->
  zidx (cs_Chains st) (event_Slot e) = Some c -> event_Slot e < cs_SlotCount st ->
  findReplicaIndex c (event_NodeID e) = Some i -> chain_Replicas c !! i = Some r ->
  replica_NodeID r = event_NodeID e ->
  ApplyProgress st e = applyProgressEvent st e /\ event_NodeID e <> "" /\ 0 <= event_Slot e.
Proof.
  intros Hwf Hcan Hk Hz Hlt Hi Hr Hid. unfold ApplyProgress. rw cloneAndValidateState_id //. cbn.
  split; [by destruct Hk as [-> | ->]|]. apply zidx_Some in Hz as [Hge Hz]. split; [|done].
  pose proof (wf_chains _ Hwf _ _ Hz) as Hcw.
  destruct (cw_known _ _ _ _ Hcw (event_NodeID e)) as [n Hn].
  { apply elem_of_ids. exists r. split; [by apply list_elem_of_lookup_2 in Hr|done]. }
  by destruct (wf_ids _ Hwf _ _ Hn).
Qed.

Lemma progress_rejected st e c :
  cluster_wf st -> canonical st -> zidx (cs_Chains st) (event_Slot e) = Some c ->
  event_NodeID e ∉ ids_of c -> ~ exists st', ApplyProgress st e = Ok st'.
Proof.
  intros Hwf Hcan Hz Hnin [st' H]. unfold ApplyProgress in H. rw cloneAndValidateState_id // in H.
  assert (applyProgressEvent st e = Ok st') as H' by (cbn in H; destruct (event_Kind e); done).
  unfold applyProgressEvent in H'. apply bind_Ok in H' as (_ & _ & H').
  apply bind_Ok in H' as (_ & _ & H'). unfold chain_at in H'. rw Hz in H'. cbn in H'.
  destruct (findReplicaIndex c _) as [i|] eqn:Hi; [|done]. apply Hnin.
  apply findReplicaIndex_spec in Hi as (r & Hr%list_elem_of_lookup_2 & <-). apply elem_of_ids. eauto.
Qed.

(** A replica_became_active report is accepted exactly for a joining replica
    of the addressed slot, and its whole effect is to turn that replica
    active in place. *)
Theorem ApplyProgress_became_active st slot id c :
  cluster_wf st -> canonical st -> zidx (cs_Chains st) slot = Some c ->
  ((exists st', ApplyProgress st (became_active slot id) = Ok st') <->
   as_joining id ∈ chain_Replicas c) /\
  forall st', ApplyProgress st (became_active slot id) = Ok st' ->
    exists i, chain_Replicas c !! i = Some (as_joining id) /\
      st' = put_chain st slot (set_Replicas c (<[i := as_active id]> (chain_Replicas c))).
Proof.
  intros Hwf Hcan Hz. pose proof Hz as [Hge Hl]%zidx_Some. pose proof (wf_chains _ Hwf _ _ Hl) as Hcw.
  destruct (decide (id ∈ ids_of c)) as [Hin|Hnin].
  2: { pose proof (progress_rejected st (became_active slot id) c Hwf Hcan Hz Hnin) as Hrej.
       split; [split; [by intros H%Hrej|]|intros st' H; exfalso; eauto].
       intros H. exfalso. apply Hnin, elem_of_ids. by exists (as_joining id). }
  destruct (findReplicaIndex_complete c id Hin) as [i Hi].
  pose proof Hi as (r & Hr & Hid)%findReplicaIndex_spec.
  assert (slot < cs_SlotCount st) as Hlt.
  { apply lookup_lt_Some in Hl. pose proof (wf_length _ Hwf). lia. }
  destruct (ApplyProgress_unfold st (became_active slot id) c i r Hwf Hcan) as (-> & Hne & _);
    [auto|done..|]. unfold applyProgressEvent, chain_at, reject. cbn [became_active event_Slot event_NodeID event_Kind].
  rw Hz (proj2 (Z.ltb_ge _ _) Hge) (proj2 (Z.leb_gt _ _) Hlt) (proj2 (String.eqb_neq _ _) Hne).
  cbn -[put_chain]. rw Hi Hr. destruct r as [rid rs]. cbn in Hid. subst rid.
  destruct (is_state ReplicaStateJoining _) eqn:Hj; cbn -[put_chain].
  - apply is_state_spec in Hj. cbn in Hj. subst rs. split.
    + split; [intros _; by apply list_elem_of_lookup_2 in Hr|eauto].
    + intros st' [= <-]. eauto.
  - split; [|done]. split; [by intros [? ?]|]. intros H. exfalso.
    apply list_elem_of_lookup_2 in Hr. pose proof (member_replica c _ _ (cw_NoDup _ _ _ _ Hcw) H Hr eq_refl) as Heq.
    injection Heq as <-. done.
Qed.

Lemma canonical_delete st id :
  canonical st -> mget (cs_DrainingNodeIDs st) id = false ->
  delete id (cs_DrainingNodeIDs st) = cs_DrainingNodeIDs st.
Proof.
  intros Hcan Hm. apply delete_id. unfold mget in Hm.
  destruct (cs_DrainingNodeIDs st !! id) as [b|] eqn:Hb; [|done].
  cbn in Hm. subst b. by pose proof (can_draining _ Hcan id false Hb).
Qed.

(** A replica_removed report is accepted exactly for a member that is
    leaving or whose node is dead, and its whole effect is to take that
    replica out of the addressed chain; in particular the clean-up of the
    draining set that follows in the code never changes it. *)
Theorem ApplyProgress_removed st slot id c :
  cluster_wf st -> canonical st -> zidx (cs_Chains st) slot = Some c ->
  ((exists st', ApplyProgress st (removed slot id) = Ok st') <->
   id ∈ ids_of c /\ (as_leaving id ∈ chain_Replicas c \/ is_dead (cs_NodeHealthByID st) id = true)) /\
  forall st', ApplyProgress st (removed slot id) = Ok st' ->
    exists i r, chain_Replicas c !! i = Some r /\ replica_NodeID r = id /\
      st' = put_chain st slot (set_Replicas c (delete i (chain_Replicas c))).
Proof.
  intros Hwf Hcan Hz. pose proof Hz as [Hge Hl]%zidx_Some. pose proof (wf_chains _ Hwf _ _ Hl) as Hcw.
  destruct (decide (id ∈ ids_of c)) as [Hin|Hnin].
  2: { pose proof (progress_rejected st (removed slot id) c Hwf Hcan Hz Hnin) as Hrej.
       split; [split; [by intros H%Hrej|naive_solver]|intros st' H; exfalso; eauto]. }
  destruct (findReplicaIndex_complete c id Hin) as [i Hi].
  pose proof Hi as (r & Hr & Hid)%findReplicaIndex_spec.
  assert (slot < cs_SlotCount st) as Hlt.
  { apply lookup_lt_Some in Hl. pose proof (wf_length _ Hwf). lia. }
  destruct (ApplyProgress_unfold st (removed slot id) c i r Hwf Hcan) as (-> & Hne & _);
    [auto|done..|]. unfold applyProgressEvent, chain_at, reject. cbn [removed event_Slot event_NodeID event_Kind].
  rw Hz (proj2 (Z.ltb_ge _ _) Hge) (proj2 (Z.leb_gt _ _) Hlt) (proj2 (String.eqb_neq _ _) Hne).
  cbn -[put_chain countReplicasForNode]. rw Hi Hr.
  assert (is_state ReplicaStateLeaving r = true <-> as_leaving id ∈ chain_Replicas c) as Hleav.
  { rw is_state_spec. apply list_elem_of_lookup_2 in Hr. split.
    - intros Hs. by replace (as_leaving id) with r by (destruct r; cbn in *; by subst).
    - intros H. by rw -(member_replica c _ _ (cw_NoDup _ _ _ _ Hcw) H Hr (eq_sym Hid)). }
  destruct (is_state ReplicaStateLeaving r || is_dead (cs_NodeHealthByID st) id) eqn:Hok.
  - rw -(negb_orb (is_state ReplicaStateLeaving r)) Hok. cbn -[put_chain countReplicasForNode]. split.
    + split; [|eauto]. intros _. split; [done|]. apply orb_true_iff in Hok. rw -Hleav. tauto.
    + intros st' [= <-]. exists i, r. split; [done|]. split; [done|].
      destruct (mget (cs_DrainingNodeIDs st) id) eqn:Hm; cbn -[put_chain countReplicasForNode]; [done|].
      destruct (_ && _); [|done]. unfold set_DrainingNodeIDs. cbn. by rw (canonical_delete st id Hcan Hm).
  - rw -(negb_orb (is_state ReplicaStateLeaving r)) Hok. cbn. split; [|done]. split; [by intros [? ?]|]. intros [_ H].
    apply orb_false_iff in Hok as [H1 H2]. rw H2 -Hleav H1 in H. by destruct H.
Qed.

(** The demo cluster while slot 0 waits for a replacement of the dead node. *)
Lemma demo_repaired_canonical : canonical demo_repaired.1 /\ cluster_wf demo_repaired.1.
Proof.
  assert (reconcileState demo_degraded no_budget = Ok demo_repaired) as H by (vm_compute; reflexivity).
  split; [|by apply (res_sat_Ok _ _ _ _ (reconcileState_wf _ _ demo_degraded_wf) H)].
  constructor; [vm_compute; discriminate|..]; apply map_Forall_to_list; vm_compute;
    repeat constructor.
Qed.

Lemma ApplyProgress_became_active_witness :
  exists st', ApplyProgress demo_repaired.1 (became_active 0 "d") = Ok st'.
Proof.
  refine (proj2 (proj1 (ApplyProgress_became_active demo_repaired.1 0 "d"
    (chain_or_empty demo_repaired.1 0) _ _ _)) _).
  - apply demo_repaired_canonical.
  - apply demo_repaired_canonical.
  - vm_compute. reflexivity.
  - apply (bool_decide_unpack _). vm_compute. exact I.
Defined.

Lemma ApplyProgress_removed_witness :
  exists st', ApplyProgress demo_degraded (removed 0 "a") = Ok st'.
Proof.
  refine (proj2 (proj1 (ApplyProgress_removed demo_degraded 0 "a"
    (chain_or_empty demo_degraded 0) _ _ _)) _).
  - apply demo_degraded_wf.
  - constructor; [vm_compute; discriminate|..]; apply map_Forall_to_list; vm_compute;
      repeat constructor.
  - vm_compute. reflexivity.
  - split; [apply (bool_decide_unpack _); vm_compute; exact I|right; vm_compute; reflexivity].
Defined.

(** ** Where the package's SPEC.md promises more than the code keeps *)
Definition chains_after (rf : Z) (nodes : list Node) (events : list Event) (budget : Z)
    : list (list (string * ReplicaState)) :=
  let plan :=
    st ← BuildInitialPlacement {| config_SlotCount := 1; config_ReplicationFactor := rf |} nodes;
    PlanReconfiguration st events {| policy_MaxChangedChains := budget |} in
  (fun c => (fun r => (replica_NodeID r, replica_State r)) <$> chain_Replicas c) <$>
    cs_Chains (rp_UpdatedState (ok_or zeroPlan plan)).

(** Produced states that SPEC.md ("Global Reconfiguration Invariants",
    "Replica-state shape") excludes: a chain with fewer than
    ReplicationFactor replicas after a death without a spare node, a chain of
    ReplicationFactor + 2 replicas when two of its members drain, a chain that
    mixes leaving and joining replicas when members die during a drain, a
    chain with two members in one zone while a join rebalance is under way,
    and a chain without any active replica when the first node joins an empty
    cluster. *)
Theorem spec_invariants_not_kept :
  chains_after 3 [plain_node "a"; plain_node "b"; plain_node "c"] [kill "a"] 0 =
    [[("b", ReplicaStateActive); ("c", ReplicaStateActive)]] /\
  chains_after 2 [plain_node "a"; plain_node "b"; plain_node "c"; plain_node "d"]
      [drain "a"; drain "b"; became_active 0 "c"] 0 =
    [[("a", ReplicaStateActive); ("b", ReplicaStateActive);
      ("c", ReplicaStateActive); ("d", ReplicaStateJoining)]] /\
  chains_after 3 [plain_node "a"; plain_node "b"; plain_node "c"; plain_node "d"; plain_node "e"]
      [drain "c"; became_active 0 "d"; kill "b"; kill "d"] 0 =
    [[("a", ReplicaStateActive); ("c", ReplicaStateLeaving); ("e", ReplicaStateJoining)]] /\
  chains_after 2 [demo_node "b" "z1"; demo_node "c" "z2"] [add (demo_node "a" "z1")] 1 =
    [[("b", ReplicaStateActive); ("c", ReplicaStateActive); ("a", ReplicaStateJoining)]] /\
  chains_after 1 [] [add (plain_node "a")] 0 = [[("a", ReplicaStateJoining)]].
Proof. vm_compute. repeat split. Qed.
