(* ===== verification/StorageTypes.v ===== *)
(** * The storage node's data model (src/storage/storage.go)

    Times are instants in nanoseconds since the zero value of [time.Time].
    Uint64 fields are [Z] in [0, 2^64). *)

From S2P Require Import Prelude.

(** ** Objects and operations *)
Record ObjectMetadata := {
  meta_Version : Z;
  meta_CreatedAt : Z;
  meta_UpdatedAt : Z;
}.

Record CommittedObject := {
  obj_Value : string;
  obj_Metadata : ObjectMetadata;
}.

Definition zeroMetadata : ObjectMetadata :=
  {| meta_Version := 0; meta_CreatedAt := 0; meta_UpdatedAt := 0 |}.
Definition zeroObject : CommittedObject := {| obj_Value := ""; obj_Metadata := zeroMetadata |}.

Abbreviation Snapshot := (gmap string CommittedObject).

(** Any string is an [OperationKind]; the switches reject the others. *)
Inductive OperationKind :=
| OperationKindPut
| OperationKindDelete
| OperationKindUnsupported (kind : string).

Definition kind_known (kind : OperationKind) : bool :=
  match kind with OperationKindPut | OperationKindDelete => true | OperationKindUnsupported _ => false end.

Record WriteOperation := {
  op_Slot : Z;
  op_Sequence : Z;
  op_Kind : OperationKind;
  op_Key : string;
  op_Value : string;
  op_Metadata : ObjectMetadata;
}.

Record ForwardWriteRequest := {
  fwd_Operation : WriteOperation;
  fwd_FromNodeID : string;
  fwd_ChainVersion : Z;
}.

Record CommitWriteRequest := {
  cw_Slot : Z;
  cw_Sequence : Z;
  cw_FromNodeID : string;
  cw_ChainVersion : Z;
}.

Record CommitAdvanceRequest := {
  ca_Slot : Z;
  ca_CommittedThrough : Z;
  ca_FromNodeID : string;
  ca_ChainVersion : Z;
}.

Record CommitResult := {
  result_Slot : Z;
  result_Sequence : Z;
  result_Applied : bool;
  result_Metadata : option ObjectMetadata;
}.

(** ** Assignments *)
Inductive ReplicaRole :=
| ReplicaRoleNone
| ReplicaRoleSingle
| ReplicaRoleHead
| ReplicaRoleMiddle
| ReplicaRoleTail.

Record ChainPeers := {
  PredecessorNodeID : string;
  PredecessorTarget : string;
  SuccessorNodeID : string;
  SuccessorTarget : string;
  TailNodeID : string;
  TailTarget : string;
}.

Definition noPeers : ChainPeers :=
  {| PredecessorNodeID := ""; PredecessorTarget := ""; SuccessorNodeID := "";
     SuccessorTarget := ""; TailNodeID := ""; TailTarget := "" |}.

Record ReplicaAssignment := {
  asg_Slot : Z;
  asg_ChainVersion : Z;
  asg_Role : ReplicaRole;
  asg_Peers : ChainPeers;
}.

(** The zero value, sent with commands that carry no assignment. *)
Definition noAssignment : ReplicaAssignment :=
  {| asg_Slot := 0; asg_ChainVersion := 0; asg_Role := ReplicaRoleNone; asg_Peers := noPeers |}.

(** [storage.ReplicaState]; the coordinator has a type of the same name. *)
Inductive StorageReplicaState :=
| StatePending
| StateCatchingUp
| StateActive
| StateLeaving
| StateRecovered
| StateRemoved.

Record NodeStatus := {
  status_NodeID : string;
  status_ReplicaCount : Z;
  status_ActiveCount : Z;
  status_CatchingUpCount : Z;
  status_LeavingCount : Z;
}.

Definition zeroNodeStatus : NodeStatus :=
  {| status_NodeID := ""; status_ReplicaCount := 0; status_ActiveCount := 0;
     status_CatchingUpCount := 0; status_LeavingCount := 0 |}.

Record PersistedReplica := {
  pr_Assignment : ReplicaAssignment;
  pr_LastKnownState : StorageReplicaState;
  pr_HighestCommittedSequence : Z;
  pr_HighestUpstreamConfirmedSequence : Z;
  pr_HasCommittedData : bool;
}.

Record RecoveredReplica := {
  rec_Assignment : ReplicaAssignment;
  rec_LastKnownState : StorageReplicaState;
  rec_HighestCommittedSequence : Z;
  rec_HasCommittedData : bool;
}.

Record NodeRecoveryReport := {
  report_NodeID : string;
  report_Replicas : list RecoveredReplica;
}.

Record NodeRegistration := {
  reg_NodeID : string;
  reg_RPCAddress : string;
  reg_FailureDomains : gmap string string;
}.

(** ** Decidable equality *)
#[export] Instance ObjectMetadata_eq_dec : EqDecision ObjectMetadata.
Proof. solve_decision. Defined.
#[export] Instance CommittedObject_eq_dec : EqDecision CommittedObject.
Proof. solve_decision. Defined.
#[export] Instance OperationKind_eq_dec : EqDecision OperationKind.
Proof. solve_decision. Defined.
#[export] Instance WriteOperation_eq_dec : EqDecision WriteOperation.
Proof. solve_decision. Defined.
#[export] Instance ForwardWriteRequest_eq_dec : EqDecision ForwardWriteRequest.
Proof. solve_decision. Defined.
#[export] Instance CommitWriteRequest_eq_dec : EqDecision CommitWriteRequest.
Proof. solve_decision. Defined.
#[export] Instance CommitResult_eq_dec : EqDecision CommitResult.
Proof. solve_decision. Defined.
#[export] Instance ReplicaRole_eq_dec : EqDecision ReplicaRole.
Proof. solve_decision. Defined.
#[export] Instance ChainPeers_eq_dec : EqDecision ChainPeers.
Proof. solve_decision. Defined.
#[export] Instance ReplicaAssignment_eq_dec : EqDecision ReplicaAssignment.
Proof. solve_decision. Defined.
#[export] Instance StorageReplicaState_eq_dec : EqDecision StorageReplicaState.
Proof. solve_decision. Defined.
#[export] Instance NodeStatus_eq_dec : EqDecision NodeStatus.
Proof. solve_decision. Defined.
#[export] Instance PersistedReplica_eq_dec : EqDecision PersistedReplica.
Proof. solve_decision. Defined.
#[export] Instance RecoveredReplica_eq_dec : EqDecision RecoveredReplica.
Proof. solve_decision. Defined.
#[export] Instance NodeRecoveryReport_eq_dec : EqDecision NodeRecoveryReport.
Proof. solve_decision. Defined.
