(* ===== verification/RuntimeTypes.v ===== *)
(** * The coordinator runtime's data (src/coordinator/runtime/runtime.go)

    The replicated state machine around the planner: its state, commands, log
    records, and the deep copies the code takes at every boundary.  Optional
    payloads ([*BootstrapCommand], ...) are [option]s. *)

From S2P Require Import Prelude.
From S2P Require Import CoordTypes.
From S2P Require Import Placement.
From S2P Require Import Reconfig.
From S2P Require Import StorageTypes.

Open Scope Z_scope.

Inductive runtime_error :=
| ErrInvalidCommand
| ErrVersionMismatch
| ErrCommandConflict
| ErrAlreadyInitialized
| ErrNotInitialized
| ErrRecovery
| ErrPlanner (cause : coord_error)
| ErrStore
| NilDereference.

Inductive PendingKind := PendingKindReady | PendingKindRemoved.

Record PendingWork := {
  pw_Slot : Z;
  pw_NodeID : string;
  pw_Kind : PendingKind;
  pw_SlotVersion : Z;
  pw_CommandID : string;
}.

Inductive OutboxCommandKind :=
| OutboxCommandKindAddReplicaAsTail
| OutboxCommandKindMarkReplicaLeaving
| OutboxCommandKindUpdateChainPeers.

Record OutboxEntry := {
  ob_ID : string;
  ob_Slot : Z;
  ob_NodeID : string;
  ob_Kind : OutboxCommandKind;
  ob_CommandID : string;
  ob_Assignment : ReplicaAssignment;
}.

Inductive CompletedProgressKind := CompletedProgressKindReady | CompletedProgressKindRemoved.

Record CompletedProgressRecord := {
  cp_NodeID : string;
  cp_Kind : CompletedProgressKind;
  cp_SlotVersion : Z;
}.

(** The empty string of a record that was never written is [LivenessUnset]. *)
Inductive NodeLivenessState :=
| NodeLivenessStateUnset
| NodeLivenessStateHealthy
| NodeLivenessStateSuspect
| NodeLivenessStateDead.

Record NodeLivenessRecord := {
  nl_LastHeartbeatUnixNano : Z;
  nl_UpdatedAtUnixNano : Z;
  nl_State : NodeLivenessState;
  nl_LastStatus : NodeStatus;
  nl_DeadActionFired : bool;
  nl_SuspectTransitionsUnixNano : list Z;
}.

Definition zeroLiveness : NodeLivenessRecord :=
  {| nl_LastHeartbeatUnixNano := 0; nl_UpdatedAtUnixNano := 0;
     nl_State := NodeLivenessStateUnset; nl_LastStatus := zeroNodeStatus;
     nl_DeadActionFired := false; nl_SuspectTransitionsUnixNano := [] |}.

(** ** Commands *)
Inductive CommandKind :=
| CommandKindBootstrap
| CommandKindReconfigure
| CommandKindProgress
| CommandKindNodeReady
| CommandKindHeartbeat
| CommandKindLiveness
| CommandKindAcknowledgeOutbox
| CommandKindUnsupported (kind : string).

Record BootstrapCommand := {
  boot_Config : Config;
  boot_Nodes : list Node;
  boot_Policy : ReconfigurationPolicy;
}.

Record ReconfigureCommand := {
  reconf_Events : list Event;
  reconf_Policy : ReconfigurationPolicy;
}.

Record ProgressCommand := { progress_Event : Event }.

(** [NodeReadyCommand] and [HeartbeatCommand] have the same fields. *)
Record NodeReadyCommand := {
  seen_Status : NodeStatus;
  seen_ObservedAtUnixNano : Z;
  seen_FlapWindowNanos : Z;
}.

Record LivenessCommand := {
  live_NodeID : string;
  live_State : NodeLivenessState;
  live_EvaluatedAtUnixNano : Z;
  live_DeadActionFired : bool;
  live_FlapWindowNanos : Z;
}.

Record AcknowledgeOutboxCommand := {
  ack_EntryID : string;
  ack_EntryIDs : list string;
}.

Record Command := {
  cmd_ID : string;
  cmd_ExpectedVersion : Z;
  cmd_Kind : CommandKind;
  cmd_Bootstrap : option BootstrapCommand;
  cmd_Reconfigure : option ReconfigureCommand;
  cmd_Progress : option ProgressCommand;
  cmd_NodeReady : option NodeReadyCommand;
  cmd_Heartbeat : option NodeReadyCommand;
  cmd_Liveness : option LivenessCommand;
  cmd_AcknowledgeOutbox : option AcknowledgeOutboxCommand;
}.

(** ** State *)
Record AppliedCommand := {
  ap_Command : Command;
  ap_Version : Z;
  ap_LastLogIndex : Z;
  ap_Cluster : ClusterState;
  ap_SlotVersions : gmap Z Z;
  ap_CompletedProgressBySlot : gmap Z (list CompletedProgressRecord);
  ap_NodeLivenessByID : gmap string NodeLivenessRecord;
  ap_PendingBySlot : gmap Z PendingWork;
  ap_Outbox : list OutboxEntry;
  ap_LastPolicy : ReconfigurationPolicy;
  ap_Plan : option ReconfigurationPlan;
}.

Record State := {
  rt_Version : Z;
  rt_LastLogIndex : Z;
  rt_Cluster : ClusterState;
  rt_SlotVersions : gmap Z Z;
  rt_CompletedProgressBySlot : gmap Z (list CompletedProgressRecord);
  rt_NodeLivenessByID : gmap string NodeLivenessRecord;
  rt_PendingBySlot : gmap Z PendingWork;
  rt_Outbox : list OutboxEntry;
  rt_LastPolicy : ReconfigurationPolicy;
  rt_AppliedCommands : gmap string AppliedCommand;
}.

Record LogRecord := {
  log_Index : Z;
  log_Command : Command;
}.

Record Checkpoint := { ckpt_State : State }.

#[export] Instance PendingKind_eq_dec : EqDecision PendingKind.
Proof. solve_decision. Defined.
#[export] Instance PendingWork_eq_dec : EqDecision PendingWork.
Proof. solve_decision. Defined.
#[export] Instance OutboxCommandKind_eq_dec : EqDecision OutboxCommandKind.
Proof. solve_decision. Defined.
#[export] Instance NodeLivenessState_eq_dec : EqDecision NodeLivenessState.
Proof. solve_decision. Defined.
#[export] Instance CommandKind_eq_dec : EqDecision CommandKind.
Proof. solve_decision. Defined.
#[export] Instance BootstrapCommand_eq_dec : EqDecision BootstrapCommand.
Proof. solve_decision. Defined.
#[export] Instance ReconfigureCommand_eq_dec : EqDecision ReconfigureCommand.
Proof. solve_decision. Defined.
#[export] Instance ProgressCommand_eq_dec : EqDecision ProgressCommand.
Proof. solve_decision. Defined.
#[export] Instance NodeReadyCommand_eq_dec : EqDecision NodeReadyCommand.
Proof. solve_decision. Defined.
#[export] Instance LivenessCommand_eq_dec : EqDecision LivenessCommand.
Proof. solve_decision. Defined.
#[export] Instance AcknowledgeOutboxCommand_eq_dec : EqDecision AcknowledgeOutboxCommand.
Proof. solve_decision. Defined.
#[export] Instance Command_eq_dec : EqDecision Command.
Proof. solve_decision. Defined.

(** ** Copies *)
Definition cloneClusterState (state : ClusterState) : ClusterState :=
  {| cs_Chains := cloneChain <$> cs_Chains state;
     cs_NodesByID := cloneNode <$> cs_NodesByID state;
     cs_NodeHealthByID := clone_map (cs_NodeHealthByID state);
     cs_ReadyNodeIDs := clone_true (cs_ReadyNodeIDs state);
     cs_DrainingNodeIDs := clone_map (cs_DrainingNodeIDs state);
     cs_NodeOrder := cs_NodeOrder state;
     cs_SlotCount := cs_SlotCount state;
     cs_ReplicationFactor := cs_ReplicationFactor state |}.

Definition cloneSlotPlan (p : SlotPlan) : SlotPlan :=
  {| plan_Slot := plan_Slot p; plan_Before := cloneChain (plan_Before p);
     plan_After := cloneChain (plan_After p); plan_Steps := plan_Steps p |}.

Definition clonePlan (plan : option ReconfigurationPlan) : option ReconfigurationPlan :=
  (fun p => {| rp_UpdatedState := cloneClusterState (rp_UpdatedState p);
               rp_UnassignedNodeIDs := rp_UnassignedNodeIDs p;
               rp_ChangedSlots := cloneSlotPlan <$> rp_ChangedSlots p |}) <$> plan.

Definition cloneNodes (nodes : list Node) : list Node := cloneNode <$> nodes.

Definition cloneEvent (event : Event) : Event :=
  {| event_Kind := event_Kind event; event_Node := cloneNode (event_Node event);
     event_NodeID := event_NodeID event; event_Slot := event_Slot event |}.

Definition cloneEvents (events : list Event) : list Event := cloneEvent <$> events.

Definition cloneNodeStatus (status : NodeStatus) : NodeStatus :=
  {| status_NodeID := status_NodeID status; status_ReplicaCount := status_ReplicaCount status;
     status_ActiveCount := status_ActiveCount status;
     status_CatchingUpCount := status_CatchingUpCount status;
     status_LeavingCount := status_LeavingCount status |}.

Definition cloneSlotVersions (slotVersions : gmap Z Z) : gmap Z Z := clone_map slotVersions.

Definition cloneCompletedProgressMap (current : gmap Z (list CompletedProgressRecord))
    : gmap Z (list CompletedProgressRecord) := clone_map current.

Definition cloneNodeLivenessRecord (r : NodeLivenessRecord) : NodeLivenessRecord :=
  {| nl_LastHeartbeatUnixNano := nl_LastHeartbeatUnixNano r;
     nl_UpdatedAtUnixNano := nl_UpdatedAtUnixNano r; nl_State := nl_State r;
     nl_LastStatus := cloneNodeStatus (nl_LastStatus r);
     nl_DeadActionFired := nl_DeadActionFired r;
     nl_SuspectTransitionsUnixNano := nl_SuspectTransitionsUnixNano r |}.

Definition cloneNodeLivenessMap (current : gmap string NodeLivenessRecord)
    : gmap string NodeLivenessRecord := cloneNodeLivenessRecord <$> current.

Definition clonePendingMap (current : gmap Z PendingWork) : gmap Z PendingWork := clone_map current.

Definition cloneOutboxEntry (entry : OutboxEntry) : OutboxEntry :=
  {| ob_ID := ob_ID entry; ob_Slot := ob_Slot entry; ob_NodeID := ob_NodeID entry;
     ob_Kind := ob_Kind entry; ob_CommandID := ob_CommandID entry;
     ob_Assignment :=
       {| asg_Slot := asg_Slot (ob_Assignment entry);
          asg_ChainVersion := asg_ChainVersion (ob_Assignment entry);
          asg_Role := asg_Role (ob_Assignment entry);
          asg_Peers := asg_Peers (ob_Assignment entry) |} |}.

Definition cloneOutbox (current : list OutboxEntry) : list OutboxEntry :=
  cloneOutboxEntry <$> current.

Definition cloneCommand (cmd : Command) : Command :=
  {| cmd_ID := cmd_ID cmd; cmd_ExpectedVersion := cmd_ExpectedVersion cmd;
     cmd_Kind := cmd_Kind cmd;
     cmd_Bootstrap := (fun b => {| boot_Config := boot_Config b;
       boot_Nodes := cloneNodes (boot_Nodes b); boot_Policy := boot_Policy b |}) <$> cmd_Bootstrap cmd;
     cmd_Reconfigure := (fun c => {| reconf_Events := cloneEvents (reconf_Events c);
       reconf_Policy := reconf_Policy c |}) <$> cmd_Reconfigure cmd;
     cmd_Progress := (fun p => {| progress_Event := cloneEvent (progress_Event p) |}) <$> cmd_Progress cmd;
     cmd_NodeReady := (fun s => {| seen_Status := cloneNodeStatus (seen_Status s);
       seen_ObservedAtUnixNano := seen_ObservedAtUnixNano s;
       seen_FlapWindowNanos := seen_FlapWindowNanos s |}) <$> cmd_NodeReady cmd;
     cmd_Heartbeat := (fun s => {| seen_Status := cloneNodeStatus (seen_Status s);
       seen_ObservedAtUnixNano := seen_ObservedAtUnixNano s;
       seen_FlapWindowNanos := seen_FlapWindowNanos s |}) <$> cmd_Heartbeat cmd;
     cmd_Liveness := (fun l => {| live_NodeID := live_NodeID l; live_State := live_State l;
       live_EvaluatedAtUnixNano := live_EvaluatedAtUnixNano l;
       live_DeadActionFired := live_DeadActionFired l;
       live_FlapWindowNanos := live_FlapWindowNanos l |}) <$> cmd_Liveness cmd;
     cmd_AcknowledgeOutbox := (fun a => {| ack_EntryID := ack_EntryID a;
       ack_EntryIDs := ack_EntryIDs a |}) <$> cmd_AcknowledgeOutbox cmd |}.

Definition cloneAppliedCommand (ap : AppliedCommand) : AppliedCommand :=
  {| ap_Command := cloneCommand (ap_Command ap); ap_Version := ap_Version ap;
     ap_LastLogIndex := ap_LastLogIndex ap; ap_Cluster := cloneClusterState (ap_Cluster ap);
     ap_SlotVersions := cloneSlotVersions (ap_SlotVersions ap);
     ap_CompletedProgressBySlot := cloneCompletedProgressMap (ap_CompletedProgressBySlot ap);
     ap_NodeLivenessByID := cloneNodeLivenessMap (ap_NodeLivenessByID ap);
     ap_PendingBySlot := clonePendingMap (ap_PendingBySlot ap);
     ap_Outbox := cloneOutbox (ap_Outbox ap); ap_LastPolicy := ap_LastPolicy ap;
     ap_Plan := clonePlan (ap_Plan ap) |}.

(** [cloneState] copies the applied commands deeply, [cloneStateForNextApplied]
    shares them; as values both are the same record. *)
Definition clone_state_with (f : AppliedCommand -> AppliedCommand) (state : State) : State :=
  {| rt_Version := rt_Version state; rt_LastLogIndex := rt_LastLogIndex state;
     rt_Cluster := cloneClusterState (rt_Cluster state);
     rt_SlotVersions := cloneSlotVersions (rt_SlotVersions state);
     rt_CompletedProgressBySlot := cloneCompletedProgressMap (rt_CompletedProgressBySlot state);
     rt_NodeLivenessByID := cloneNodeLivenessMap (rt_NodeLivenessByID state);
     rt_PendingBySlot := clonePendingMap (rt_PendingBySlot state);
     rt_Outbox := cloneOutbox (rt_Outbox state); rt_LastPolicy := rt_LastPolicy state;
     rt_AppliedCommands := f <$> rt_AppliedCommands state |}.

Definition cloneState : State -> State := clone_state_with cloneAppliedCommand.
Definition cloneStateForNextApplied : State -> State := clone_state_with id.
