(* ===== verification/Runtime.v ===== *)
(** * The coordinator runtime (src/coordinator/runtime/runtime.go, inmemory.go)

    A command is validated against the state, executed by the planner, logged
    and turned into the next state.  [Open] replays a checkpoint and the log.
    The store is any type with the operations of the [Store] interface. *)

From S2P Require Import Prelude.
From S2P Require Import CoordTypes.
From S2P Require Import Placement.
From S2P Require Import Reconfig.
From S2P Require Import StorageTypes.
From S2P Require Import RuntimeTypes.

Open Scope Z_scope.

(** ** Validation *)
Definition outboxAckEntryIDs (cmd : AcknowledgeOutboxCommand) : list string :=
  match ack_EntryIDs cmd with
  | [] => if String.eqb (ack_EntryID cmd) "" then [] else [ack_EntryID cmd]
  | ids => ids
  end.

Definition is_set {A} (o : option A) : bool := match o with Some _ => true | None => false end.

(** The conditions are the code's, which leave some payload fields unchecked. *)
Definition validateCommandPayload (cmd : Command) : res runtime_error unit :=
  let boot := is_set (cmd_Bootstrap cmd) in
  let reconf := is_set (cmd_Reconfigure cmd) in
  let prog := is_set (cmd_Progress cmd) in
  let ready := is_set (cmd_NodeReady cmd) in
  let beat := is_set (cmd_Heartbeat cmd) in
  let live := is_set (cmd_Liveness cmd) in
  let ack := is_set (cmd_AcknowledgeOutbox cmd) in
  match cmd_Kind cmd with
  | CommandKindBootstrap =>
      reject (negb boot || reconf || prog || beat || live || ack) ErrInvalidCommand
  | CommandKindReconfigure =>
      reject (negb reconf || boot || prog || beat || live || ack) ErrInvalidCommand
  | CommandKindProgress =>
      reject (negb prog || boot || reconf || ready || beat || live || ack) ErrInvalidCommand
  | CommandKindNodeReady =>
      _ ← reject (negb ready || boot || reconf || prog || beat || live || ack) ErrInvalidCommand;
      match cmd_NodeReady cmd with
      | Some r => reject (String.eqb (status_NodeID (seen_Status r)) "") ErrInvalidCommand
      | None => Err NilDereference
      end
  | CommandKindHeartbeat =>
      _ ← reject (negb beat || boot || reconf || prog || ready || live || ack) ErrInvalidCommand;
      match cmd_Heartbeat cmd with
      | Some h => reject (String.eqb (status_NodeID (seen_Status h)) "") ErrInvalidCommand
      | None => Err NilDereference
      end
  | CommandKindLiveness =>
      _ ← reject (negb live || boot || reconf || prog || beat || ack) ErrInvalidCommand;
      match cmd_Liveness cmd with
      | Some l => reject (String.eqb (live_NodeID l) "") ErrInvalidCommand
      | None => Err NilDereference
      end
  | CommandKindAcknowledgeOutbox =>
      _ ← reject (negb ack || boot || reconf || prog || beat || live) ErrInvalidCommand;
      match cmd_AcknowledgeOutbox cmd with
      | Some a => reject (bool_decide (outboxAckEntryIDs a = [])) ErrInvalidCommand
      | None => Err NilDereference
      end
  | CommandKindUnsupported _ => Err ErrInvalidCommand
  end.

(** [Some applied] is a duplicate of an applied command. *)
Definition validateCommand (state : State) (cmd : Command)
    : res runtime_error (option AppliedCommand) :=
  _ ← reject (String.eqb (cmd_ID cmd) "") ErrInvalidCommand;
  _ ← validateCommandPayload cmd;
  match rt_AppliedCommands state !! cmd_ID cmd with
  | Some applied =>
      _ ← reject (negb (bool_decide (ap_Command applied = cloneCommand cmd))) ErrCommandConflict;
      Ok (Some (cloneAppliedCommand applied))
  | None =>
      _ ← reject (negb (cmd_ExpectedVersion cmd =? rt_Version state)) ErrVersionMismatch;
      Ok None
  end.

(** ** Execution *)
Definition isInitialized (state : State) : bool := 0 <? cs_SlotCount (rt_Cluster state).

Definition outboxEntryExists (current : list OutboxEntry) (entryID : string) : bool :=
  existsb (fun entry => String.eqb (ob_ID entry) entryID) current.

Definition outboxEntriesExist (current : list OutboxEntry) (entryIDs : list string) : bool :=
  existsb (outboxEntryExists current) entryIDs.

(** What [executeCommand] returns besides an error. *)
Inductive execution :=
| Duplicate (applied : AppliedCommand)
| Executed (cluster : ClusterState) (plan : option ReconfigurationPlan).

Definition lift_planner {A} (r : res coord_error A) : res runtime_error A :=
  match r with Ok a => Ok a | Err e => Err (ErrPlanner e) end.

Definition deref {A} (o : option A) : res runtime_error A :=
  match o with Some a => Ok a | None => Err NilDereference end.

Definition executeCommand (state : State) (cmd : Command) : res runtime_error execution :=
  duplicate ← validateCommand state cmd;
  match duplicate with
  | Some applied => Ok (Duplicate applied)
  | None =>
      match cmd_Kind cmd with
      | CommandKindBootstrap =>
          _ ← reject (isInitialized state) ErrAlreadyInitialized;
          b ← deref (cmd_Bootstrap cmd);
          cluster ← lift_planner (BuildInitialPlacement (boot_Config b) (cloneNodes (boot_Nodes b)));
          Ok (Executed (cloneClusterState cluster) None)
      | CommandKindReconfigure =>
          _ ← reject (negb (isInitialized state)) ErrNotInitialized;
          c ← deref (cmd_Reconfigure cmd);
          plan ← lift_planner (PlanReconfiguration (cloneClusterState (rt_Cluster state))
                   (cloneEvents (reconf_Events c)) (reconf_Policy c));
          Ok (Executed (cloneClusterState (rp_UpdatedState plan)) (clonePlan (Some plan)))
      | CommandKindProgress =>
          _ ← reject (negb (isInitialized state)) ErrNotInitialized;
          p ← deref (cmd_Progress cmd);
          cluster ← lift_planner (ApplyProgress (cloneClusterState (rt_Cluster state))
                      (cloneEvent (progress_Event p)));
          Ok (Executed (cloneClusterState cluster) None)
      | CommandKindNodeReady =>
          _ ← reject (negb (isInitialized state)) ErrNotInitialized;
          r ← deref (cmd_NodeReady cmd);
          _ ← reject (String.eqb (status_NodeID (seen_Status r)) "") ErrInvalidCommand;
          Ok (Executed (cloneClusterState (rt_Cluster state)) None)
      | CommandKindHeartbeat => Ok (Executed (cloneClusterState (rt_Cluster state)) None)
      | CommandKindLiveness =>
          l ← deref (cmd_Liveness cmd);
          _ ← reject (String.eqb (live_NodeID l) "") ErrInvalidCommand;
          Ok (Executed (cloneClusterState (rt_Cluster state)) None)
      | CommandKindAcknowledgeOutbox =>
          _ ← reject (negb (isInitialized state)) ErrNotInitialized;
          a ← deref (cmd_AcknowledgeOutbox cmd);
          if negb (outboxEntriesExist (rt_Outbox state) (outboxAckEntryIDs a))
          then Ok (Executed (cloneClusterState (rt_Cluster state)) None)
          else Ok (Executed (cloneClusterState (rt_Cluster state)) None)
      | CommandKindUnsupported _ => Err ErrInvalidCommand
      end
  end.

(** ** The components of the next state *)
Definition mark_ready (cluster : ClusterState) (nodeID : string) : ClusterState :=
  if is_dead (cs_NodeHealthByID cluster) nodeID then cluster
  else set_ReadyNodeIDs cluster (<[nodeID := true]> (cs_ReadyNodeIDs cluster)).

Definition nextClusterState (current : ClusterState) (cmd : Command) : ClusterState :=
  let next := cloneClusterState current in
  let next :=
    match cmd_Kind cmd, cmd_NodeReady cmd with
    | CommandKindNodeReady, Some r => mark_ready next (status_NodeID (seen_Status r))
    | _, _ => next
    end in
  match cmd_Kind cmd, cmd_Heartbeat cmd with
  | CommandKindHeartbeat, Some h => mark_ready next (status_NodeID (seen_Status h))
  | _, _ => next
  end.

Definition slot_version (versions : gmap Z Z) (slot : Z) : Z := default 0 (versions !! slot).

Definition nextSlotVersions (current : gmap Z Z) (kind : CommandKind) (cluster : ClusterState)
    (plan : option ReconfigurationPlan) : gmap Z Z :=
  let next := cloneSlotVersions current in
  match kind with
  | CommandKindBootstrap =>
      foldl (fun next chain =>
        <[chain_Slot chain := u64_add (slot_version current (chain_Slot chain)) 1]> next)
        ∅ (cs_Chains cluster)
  | CommandKindReconfigure =>
      match plan with
      | None => next
      | Some p =>
          foldl (fun next sp =>
            <[plan_Slot sp := u64_add (slot_version current (plan_Slot sp)) 1]> next)
            next (rp_ChangedSlots p)
      end
  | _ => next
  end.

Definition completedProgressHistoryLimit : nat := 8.

Definition nextCompletedProgress (current : gmap Z (list CompletedProgressRecord))
    (slotVersions : gmap Z Z) (cmd : Command) : gmap Z (list CompletedProgressRecord) :=
  let next := cloneCompletedProgressMap current in
  match cmd_Kind cmd, cmd_Progress cmd with
  | CommandKindProgress, Some p =>
      let e := progress_Event p in
      let kind :=
        match event_Kind e with
        | EventKindReplicaBecameActive => Some CompletedProgressKindReady
        | EventKindReplicaRemoved => Some CompletedProgressKindRemoved
        | _ => None
        end in
      match kind with
      | None => next
      | Some k =>
          let slot := event_Slot e in
          let record := {| cp_NodeID := event_NodeID e; cp_Kind := k;
                           cp_SlotVersion := slot_version slotVersions slot |} in
          let records := default [] (next !! slot) ++ [record] in
          <[slot := if (completedProgressHistoryLimit <? length records)%nat
                    then drop (length records - completedProgressHistoryLimit) records
                    else records]> next
      end
  | _, _ => next
  end.

Definition pruneSuspectTransitions (current : list Z) (observedAtUnixNano flapWindowNanos : Z)
    : list Z :=
  match current with
  | [] => []
  | _ =>
      if (observedAtUnixNano =? 0) || (flapWindowNanos <=? 0) then current
      else
        let cutoff := i64 (observedAtUnixNano - flapWindowNanos) in
        List.filter (fun ts => cutoff <=? ts) current
  end.

Definition is_liveness (s : NodeLivenessState) (r : NodeLivenessRecord) : bool :=
  bool_decide (nl_State r = s).

(** The branch shared by ready reports and heartbeats. *)
Definition observe_node (next : gmap string NodeLivenessRecord) (s : NodeReadyCommand)
    : gmap string NodeLivenessRecord :=
  let nodeID := status_NodeID (seen_Status s) in
  let record := default zeroLiveness (next !! nodeID) in
  let dead := is_liveness NodeLivenessStateDead record in
  <[nodeID :=
      {| nl_LastHeartbeatUnixNano := seen_ObservedAtUnixNano s;
         nl_UpdatedAtUnixNano := seen_ObservedAtUnixNano s;
         nl_State := if dead then nl_State record else NodeLivenessStateHealthy;
         nl_LastStatus := cloneNodeStatus (seen_Status s);
         nl_DeadActionFired := if dead then nl_DeadActionFired record else false;
         nl_SuspectTransitionsUnixNano :=
           pruneSuspectTransitions (nl_SuspectTransitionsUnixNano record)
             (seen_ObservedAtUnixNano s) (seen_FlapWindowNanos s) |}]> next.

Definition judge_node (next : gmap string NodeLivenessRecord) (l : LivenessCommand)
    : gmap string NodeLivenessRecord :=
  let record := default zeroLiveness (next !! live_NodeID l) in
  let at_ := live_EvaluatedAtUnixNano l in
  let pruned := pruneSuspectTransitions (nl_SuspectTransitionsUnixNano record) at_
                  (live_FlapWindowNanos l) in
  <[live_NodeID l :=
      {| nl_LastHeartbeatUnixNano :=
           if negb (at_ =? 0) && (nl_LastHeartbeatUnixNano record =? 0) then at_
           else nl_LastHeartbeatUnixNano record;
         nl_UpdatedAtUnixNano := if negb (at_ =? 0) then at_ else nl_UpdatedAtUnixNano record;
         nl_State := live_State l;
         nl_LastStatus := nl_LastStatus record;
         nl_DeadActionFired := live_DeadActionFired l;
         nl_SuspectTransitionsUnixNano :=
           if bool_decide (live_State l = NodeLivenessStateSuspect) &&
              negb (is_liveness NodeLivenessStateSuspect record) && negb (at_ =? 0)
           then pruned ++ [at_] else pruned |}]> next.

(** A missing payload would be a nil dereference; commands reach this function
    only after [validateCommandPayload]. *)
Definition nextNodeLiveness (current : gmap string NodeLivenessRecord) (cmd : Command)
    : gmap string NodeLivenessRecord :=
  let next := cloneNodeLivenessMap current in
  match cmd_Kind cmd with
  | CommandKindNodeReady =>
      match cmd_NodeReady cmd with Some r => observe_node next r | None => next end
  | CommandKindHeartbeat =>
      match cmd_Heartbeat cmd with Some h => observe_node next h | None => next end
  | CommandKindLiveness =>
      match cmd_Liveness cmd with Some l => judge_node next l | None => next end
  | _ => next
  end.

Definition nextLastPolicy (current : ReconfigurationPolicy) (cmd : Command) : ReconfigurationPolicy :=
  match cmd_Kind cmd, cmd_Bootstrap cmd, cmd_Reconfigure cmd with
  | CommandKindBootstrap, Some b, _ => boot_Policy b
  | CommandKindReconfigure, _, Some c => reconf_Policy c
  | _, _, _ => current
  end.

(** ** Pending work and the outbox *)
Definition is_step (k : StepKind) (s : ReconfigurationStep) : bool :=
  match k, step_Kind s with
  | StepKindAppendTail, StepKindAppendTail | StepKindMarkLeaving, StepKindMarkLeaving => true
  | _, _ => false
  end.

Definition distinctStepKinds (steps : list ReconfigurationStep) : list StepKind :=
  foldl (fun kinds step =>
    if existsb (fun k => is_step k step) kinds then kinds else kinds ++ [step_Kind step]) [] steps.

Definition firstStepNodeID (steps : list ReconfigurationStep) (kind : StepKind) : string :=
  match List.find (is_step kind) steps with Some s => step_NodeID s | None => "" end.

Definition kind_string (kind : OutboxCommandKind) : string :=
  match kind with
  | OutboxCommandKindAddReplicaAsTail => "add_replica_as_tail"
  | OutboxCommandKindMarkReplicaLeaving => "mark_replica_leaving"
  | OutboxCommandKindUpdateChainPeers => "update_chain_peers"
  end.

Definition outboxEntryID (version slot : Z) (nodeID : string) (kind : OutboxCommandKind) : string :=
  "outbox-v" +:+ pretty version +:+ "-slot" +:+ pretty slot +:+ "-" +:+ nodeID +:+ "-" +:+
  kind_string kind.

Definition outboxCommandID (version slot : Z) (nodeID suffix : string) : string :=
  "server-v" +:+ pretty version +:+ "-slot" +:+ pretty slot +:+ "-" +:+ nodeID +:+ "-" +:+ suffix.

(** The target address is filled in from the node table. *)
Definition assignmentForNode (chain : Chain) (nodesByID : gmap string Node) (nodeID : string)
    (chainVersion : Z) : option ReplicaAssignment :=
  position ← findReplicaIndex chain nodeID;
  let n := length (chain_Replicas chain) in
  let role :=
    if (n =? 1)%nat then ReplicaRoleSingle
    else if (position =? 0)%nat then ReplicaRoleHead
    else if (position =? n - 1)%nat then ReplicaRoleTail
    else ReplicaRoleMiddle in
  let peer (i : nat) := replica_NodeID <$> chain_Replicas chain !! i in
  let target (id : string) := node_RPCAddress (node_of nodesByID id) in
  let pred := if (0 <? position)%nat then peer (position - 1)%nat else None in
  let succ := if (position + 1 <? n)%nat then peer (position + 1)%nat else None in
  Some {| asg_Slot := chain_Slot chain; asg_ChainVersion := chainVersion; asg_Role := role;
          asg_Peers :=
            {| PredecessorNodeID := default "" pred;
               PredecessorTarget := default "" (target <$> pred);
               SuccessorNodeID := default "" succ;
               SuccessorTarget := default "" (target <$> succ);
               TailNodeID := ""; TailTarget := "" |} |}.

Definition activeServingChain (chain : Chain) : Chain :=
  set_Replicas chain (List.filter (is_state ReplicaStateActive) (chain_Replicas chain)).

Definition activeAfterNodeIDs (chain : Chain) (skipped : gmap string bool) : list string :=
  replica_NodeID <$> List.filter
    (fun r => is_state ReplicaStateActive r && negb (mget skipped (replica_NodeID r)))
    (chain_Replicas chain).

(** The work a slot plan leaves pending: [switch] over the distinct step kinds. *)
Definition pendingForSlotPlan (slotVersions : gmap Z Z) (sp : SlotPlan) : option PendingWork :=
  let work kind pending :=
    let nodeID := firstStepNodeID (plan_Steps sp) kind in
    if String.eqb nodeID "" then None
    else Some {| pw_Slot := plan_Slot sp; pw_NodeID := nodeID; pw_Kind := pending;
                 pw_SlotVersion := slot_version slotVersions (plan_Slot sp); pw_CommandID := "" |} in
  match distinctStepKinds (plan_Steps sp) with
  | [StepKindAppendTail] => work StepKindAppendTail PendingKindReady
  | [StepKindMarkLeaving] => work StepKindMarkLeaving PendingKindRemoved
  | _ => None
  end.

Definition pendingFromPlan (current : gmap Z PendingWork) (slotVersions : gmap Z Z)
    (plan : ReconfigurationPlan) : gmap Z PendingWork :=
  foldl (fun next sp =>
    let next := delete (plan_Slot sp) next in
    match pendingForSlotPlan slotVersions sp with
    | Some work => <[plan_Slot sp := work]> next
    | None => next
    end) (clonePendingMap current) (rp_ChangedSlots plan).

Definition nextPending (current : gmap Z PendingWork) (slotVersions : gmap Z Z) (cmd : Command)
    (plan : option ReconfigurationPlan) : gmap Z PendingWork :=
  let next := clonePendingMap current in
  match cmd_Kind cmd with
  | CommandKindBootstrap => ∅
  | CommandKindReconfigure =>
      match plan with None => next | Some p => pendingFromPlan next slotVersions p end
  | CommandKindProgress =>
      match cmd_Progress cmd with
      | Some p => delete (event_Slot (progress_Event p)) next
      | None => next
      end
  | _ => next
  end.

(** The commands a slot plan sends to storage nodes. *)
Definition outboxForSlotPlan (version : Z) (slotVersions : gmap Z Z)
    (nodesByID : gmap string Node) (sp : SlotPlan) : list OutboxEntry :=
  let slot := plan_Slot sp in
  let entry nodeID kind suffix assignment :=
    {| ob_ID := outboxEntryID version slot nodeID kind; ob_Slot := slot; ob_NodeID := nodeID;
       ob_Kind := kind; ob_CommandID := outboxCommandID version slot nodeID suffix;
       ob_Assignment := assignment |} in
  match distinctStepKinds (plan_Steps sp) with
  | [StepKindAppendTail] =>
      let added := firstStepNodeID (plan_Steps sp) StepKindAppendTail in
      if String.eqb added "" then []
      else match assignmentForNode (plan_After sp) nodesByID added (slot_version slotVersions slot) with
           | Some a => [entry added OutboxCommandKindAddReplicaAsTail "ready" a]
           | None => []
           end
  | [StepKindMarkLeaving] =>
      let leaving := firstStepNodeID (plan_Steps sp) StepKindMarkLeaving in
      if String.eqb leaving "" then []
      else
        let serving := activeServingChain (plan_After sp) in
        omap (fun nodeID =>
          (fun a => entry nodeID OutboxCommandKindUpdateChainPeers "update" a) <$>
            assignmentForNode serving nodesByID nodeID (slot_version slotVersions slot))
          (activeAfterNodeIDs serving {[ leaving := true ]}) ++
        [entry leaving OutboxCommandKindMarkReplicaLeaving "removed" noAssignment]
  | _ => []
  end.

Definition outboxFromPlan (current : list OutboxEntry) (version : Z) (slotVersions : gmap Z Z)
    (cluster : ClusterState) (plan : ReconfigurationPlan) : list OutboxEntry :=
  let changedSlots : gset Z := list_to_set (plan_Slot <$> rp_ChangedSlots plan) in
  cloneOutbox (List.filter (fun e => negb (bool_decide (ob_Slot e ∈ changedSlots))) current) ++
  (rp_ChangedSlots plan ≫= outboxForSlotPlan version slotVersions (cs_NodesByID cluster)).

Definition nextOutbox (current : list OutboxEntry) (version : Z) (slotVersions : gmap Z Z)
    (cluster : ClusterState) (cmd : Command) (plan : option ReconfigurationPlan)
    : list OutboxEntry :=
  match cmd_Kind cmd with
  | CommandKindBootstrap => []
  | CommandKindReconfigure =>
      match plan with
      | None => cloneOutbox current
      | Some p => outboxFromPlan current version slotVersions cluster p
      end
  | CommandKindProgress =>
      match cmd_Progress cmd with
      | None => cloneOutbox current
      | Some p =>
          List.filter (fun e => negb (ob_Slot e =? event_Slot (progress_Event p))) current
      end
  | CommandKindAcknowledgeOutbox =>
      match cmd_AcknowledgeOutbox cmd with
      | None => cloneOutbox current
      | Some a =>
          let acked : gset string := list_to_set (outboxAckEntryIDs a) in
          List.filter (fun e => negb (bool_decide (ob_ID e ∈ acked))) current
      end
  | _ => cloneOutbox current
  end.

(** ** The next state *)
Definition nextStateForApplied (state : State) (logIndex : Z) (cmd : Command)
    (cluster : ClusterState) (plan : option ReconfigurationPlan) : State :=
  let next := cloneStateForNextApplied state in
  let version := u64_add (rt_Version next) 1 in
  let cluster' := nextClusterState (cloneClusterState cluster) cmd in
  let versions := nextSlotVersions (rt_SlotVersions next) (cmd_Kind cmd) cluster plan in
  let completed := nextCompletedProgress (rt_CompletedProgressBySlot next) versions cmd in
  let liveness := nextNodeLiveness (rt_NodeLivenessByID next) cmd in
  let pending := nextPending (rt_PendingBySlot next) versions cmd plan in
  let outbox := nextOutbox (rt_Outbox next) version versions cluster cmd plan in
  let policy := nextLastPolicy (rt_LastPolicy next) cmd in
  {| rt_Version := version; rt_LastLogIndex := logIndex; rt_Cluster := cluster';
     rt_SlotVersions := versions; rt_CompletedProgressBySlot := completed;
     rt_NodeLivenessByID := liveness; rt_PendingBySlot := pending; rt_Outbox := outbox;
     rt_LastPolicy := policy;
     rt_AppliedCommands :=
       <[cmd_ID cmd :=
           {| ap_Command := cloneCommand cmd; ap_Version := version; ap_LastLogIndex := logIndex;
              ap_Cluster := cloneClusterState cluster';
              ap_SlotVersions := cloneSlotVersions versions;
              ap_CompletedProgressBySlot := cloneCompletedProgressMap completed;
              ap_NodeLivenessByID := cloneNodeLivenessMap liveness;
              ap_PendingBySlot := clonePendingMap pending; ap_Outbox := cloneOutbox outbox;
              ap_LastPolicy := policy; ap_Plan := clonePlan plan |}]> (rt_AppliedCommands next) |}.

Definition commitCandidate (state : State) (cmd : Command) (cluster : ClusterState)
    (plan : option ReconfigurationPlan) : LogRecord * State :=
  let index := u64_add (rt_LastLogIndex state) 1 in
  ({| log_Index := index; log_Command := cloneCommand cmd |},
   nextStateForApplied state index cmd cluster plan).

Definition snapshotForApplied (state : State) (applied : AppliedCommand) : State :=
  {| rt_Version := ap_Version applied; rt_LastLogIndex := ap_LastLogIndex applied;
     rt_Cluster := cloneClusterState (ap_Cluster applied);
     rt_SlotVersions := cloneSlotVersions (ap_SlotVersions applied);
     rt_CompletedProgressBySlot := cloneCompletedProgressMap (ap_CompletedProgressBySlot applied);
     rt_NodeLivenessByID := cloneNodeLivenessMap (ap_NodeLivenessByID applied);
     rt_PendingBySlot := clonePendingMap (ap_PendingBySlot applied);
     rt_Outbox := cloneOutbox (ap_Outbox applied); rt_LastPolicy := ap_LastPolicy applied;
     rt_AppliedCommands :=
       cloneAppliedCommand <$>
         filter (fun '(_, existing) => ap_Version existing <= ap_Version applied)
           (rt_AppliedCommands state) |}.

(** The zero [ClusterState] and policy of a fresh runtime. *)
Definition emptyCluster : ClusterState :=
  {| cs_Chains := []; cs_NodesByID := ∅; cs_NodeHealthByID := ∅; cs_ReadyNodeIDs := ∅;
     cs_DrainingNodeIDs := ∅; cs_NodeOrder := []; cs_SlotCount := 0; cs_ReplicationFactor := 0 |}.

Definition zeroRuntimeState : State :=
  {| rt_Version := 0; rt_LastLogIndex := 0; rt_Cluster := emptyCluster; rt_SlotVersions := ∅;
     rt_CompletedProgressBySlot := ∅; rt_NodeLivenessByID := ∅; rt_PendingBySlot := ∅;
     rt_Outbox := []; rt_LastPolicy := {| policy_MaxChangedChains := 0 |};
     rt_AppliedCommands := ∅ |}.

(** [EvaluateCommand]: the plan, the next state, and the applied command the
    given one repeats, if it does. *)
Record EvaluatedCommand := {
  ev_Plan : option ReconfigurationPlan;
  ev_NextState : State;
  ev_Duplicate : option AppliedCommand;
}.

Definition EvaluateCommand (state : State) (cmd : Command) : res runtime_error EvaluatedCommand :=
  let r := cloneState state in
  ex ← executeCommand r cmd;
  match ex with
  | Duplicate applied =>
      let cloned := cloneAppliedCommand applied in
      Ok {| ev_Plan := clonePlan (ap_Plan cloned); ev_NextState := snapshotForApplied r cloned;
            ev_Duplicate := Some cloned |}
  | Executed cluster plan =>
      Ok {| ev_Plan := clonePlan plan;
            ev_NextState := nextStateForApplied r (u64_add (rt_LastLogIndex state) 1) cmd cluster plan;
            ev_Duplicate := None |}
  end.

(** The coordinator's server re-plans periodically while this holds. *)
Definition clusterNeedsPeriodicAdvanceForView (cluster : ClusterState) : bool :=
  (cs_SlotCount cluster =? 0) || (cs_ReplicationFactor cluster <=? 0) ||
  negb (Z.of_nat (length (cs_Chains cluster)) =? cs_SlotCount cluster) ||
  existsb (fun chain =>
    negb (Z.of_nat (length (chain_Replicas chain)) =? cs_ReplicationFactor cluster) ||
    existsb (fun r => negb (is_state ReplicaStateActive r)) (chain_Replicas chain))
    (cs_Chains cluster).

(** ** The durable store

    The operations of the [Store] interface.  A failing operation leaves the
    store as it was. *)
Class StoreOps (S : Type) := {
  LoadLatestCheckpoint : S -> res runtime_error (option Checkpoint);
  LoadWAL : S -> Z -> res runtime_error (list LogRecord);
  AppendWAL : S -> LogRecord -> res runtime_error S;
  SaveCheckpoint : S -> Checkpoint -> res runtime_error S;
  TruncateWAL : S -> Z -> res runtime_error S;
}.

Section runtime.
Context {S : Type} `{StoreOps S}.

Record Runtime := {
  run_store : S;
  run_state : State;
}.

Definition replayRecord (state : State) (record : LogRecord) : res runtime_error State :=
  match executeCommand state (log_Command record) with
  | Err _ => Err ErrRecovery
  | Ok (Duplicate _) => Err ErrRecovery
  | Ok (Executed cluster plan) =>
      Ok (nextStateForApplied state (log_Index record) (log_Command record) cluster plan)
  end.

(** The loop of [Open]: [expectedIndex] is the index of the last record. *)
Definition replayStep (acc : State * Z) (record : LogRecord) : res runtime_error (State * Z) :=
  let '(state, expectedIndex) := acc in
  _ ← reject (negb (log_Index record =? u64_add expectedIndex 1)) ErrRecovery;
  state' ← replayRecord state record;
  Ok (state', log_Index record).

Definition Open (store : S) : res runtime_error Runtime :=
  checkpoint ← LoadLatestCheckpoint store;
  let state :=
    match checkpoint with
    | Some c => cloneState (ckpt_State c)
    | None => zeroRuntimeState
    end in
  records ← LoadWAL store (rt_LastLogIndex state);
  '(state, _) ← res_fold replayStep (state, rt_LastLogIndex state) records;
  Ok {| run_store := store; run_state := state |}.

(** Log the record, then install the state. *)
Definition commit (r : Runtime) (cmd : Command) (cluster : ClusterState)
    (plan : option ReconfigurationPlan) : res runtime_error (Runtime * State) :=
  let '(record, nextState) := commitCandidate (run_state r) cmd cluster plan in
  store ← AppendWAL (run_store r) record;
  Ok ({| run_store := store; run_state := nextState |}, cloneState nextState).

(** [Bootstrap] and [ApplyProgress]: the executed cluster, no plan. *)
Definition apply_cluster (r : Runtime) (cmd : Command) : res runtime_error (Runtime * State) :=
  ex ← executeCommand (run_state r) cmd;
  match ex with
  | Duplicate applied => Ok (r, snapshotForApplied (run_state r) applied)
  | Executed cluster _ => commit r cmd cluster None
  end.

Definition Bootstrap (r : Runtime) (cmd : Command) : res runtime_error (Runtime * State) :=
  apply_cluster r cmd.

Definition Runtime_ApplyProgress (r : Runtime) (cmd : Command) : res runtime_error (Runtime * State) :=
  apply_cluster r cmd.

Definition Reconfigure (r : Runtime) (cmd : Command) : res runtime_error (Runtime * State) :=
  ex ← executeCommand (run_state r) cmd;
  match ex with
  | Duplicate applied => Ok (r, snapshotForApplied (run_state r) applied)
  | Executed cluster plan => commit r cmd cluster plan
  end.

(** [MarkNodeReady], [Heartbeat] and [ApplyLiveness]: the current cluster. *)
Definition apply_same_cluster (r : Runtime) (cmd : Command) : res runtime_error (Runtime * State) :=
  ex ← executeCommand (run_state r) cmd;
  match ex with
  | Duplicate applied => Ok (r, snapshotForApplied (run_state r) applied)
  | Executed _ _ => commit r cmd (rt_Cluster (run_state r)) None
  end.

Definition MarkNodeReady (r : Runtime) (cmd : Command) : res runtime_error (Runtime * State) :=
  apply_same_cluster r cmd.

Definition Heartbeat (r : Runtime) (cmd : Command) : res runtime_error (Runtime * State) :=
  apply_same_cluster r cmd.

Definition ApplyLiveness (r : Runtime) (cmd : Command) : res runtime_error (Runtime * State) :=
  apply_same_cluster r cmd.

(** An acknowledgement of entries that are all gone is answered, not logged. *)
Definition AcknowledgeOutbox (r : Runtime) (cmd : Command) : res runtime_error (Runtime * State) :=
  duplicate ← validateCommand (run_state r) cmd;
  match duplicate with
  | Some applied => Ok (r, snapshotForApplied (run_state r) applied)
  | None =>
      match cmd_AcknowledgeOutbox cmd with
      | Some a =>
          if negb (outboxEntriesExist (rt_Outbox (run_state r)) (outboxAckEntryIDs a))
          then Ok (r, cloneState (run_state r))
          else apply_same_cluster r cmd
      | None => apply_same_cluster r cmd
      end
  end.

(** The variants that return the version instead of the state. *)
Definition ApplyProgressVersion (r : Runtime) (cmd : Command) : res runtime_error (Runtime * Z) :=
  ex ← executeCommand (run_state r) cmd;
  match ex with
  | Duplicate applied => Ok (r, ap_Version applied)
  | Executed cluster _ =>
      let '(record, nextState) := commitCandidate (run_state r) cmd cluster None in
      store ← AppendWAL (run_store r) record;
      Ok ({| run_store := store; run_state := nextState |}, rt_Version nextState)
  end.

Definition AcknowledgeOutboxVersion (r : Runtime) (cmd : Command) : res runtime_error (Runtime * Z) :=
  let acknowledge :=
    ex ← executeCommand (run_state r) cmd;
    match ex with
    | Duplicate applied => Ok (r, ap_Version applied)
    | Executed _ _ =>
        let '(record, nextState) := commitCandidate (run_state r) cmd (rt_Cluster (run_state r)) None in
        store ← AppendWAL (run_store r) record;
        Ok ({| run_store := store; run_state := nextState |}, rt_Version nextState)
    end in
  duplicate ← validateCommand (run_state r) cmd;
  match duplicate with
  | Some applied => Ok (r, ap_Version applied)
  | None =>
      match cmd_AcknowledgeOutbox cmd with
      | Some a =>
          if negb (outboxEntriesExist (rt_Outbox (run_state r)) (outboxAckEntryIDs a))
          then Ok (r, rt_Version (run_state r))
          else acknowledge
      | None => acknowledge
      end
  end.

Definition clear_applied (state : State) : State :=
  {| rt_Version := rt_Version state; rt_LastLogIndex := rt_LastLogIndex state;
     rt_Cluster := rt_Cluster state; rt_SlotVersions := rt_SlotVersions state;
     rt_CompletedProgressBySlot := rt_CompletedProgressBySlot state;
     rt_NodeLivenessByID := rt_NodeLivenessByID state;
     rt_PendingBySlot := rt_PendingBySlot state; rt_Outbox := rt_Outbox state;
     rt_LastPolicy := rt_LastPolicy state; rt_AppliedCommands := ∅ |}.

(** [Runtime.Checkpoint].  When the truncation fails the saved checkpoint stays
    and the in-memory state is not touched: the pair is the runtime left
    behind and the error, if any. *)
Definition Runtime_Checkpoint (r : Runtime) : Runtime * option runtime_error :=
  let checkpointState := clear_applied (cloneState (run_state r)) in
  match SaveCheckpoint (run_store r) {| ckpt_State := checkpointState |} with
  | Err e => (r, Some e)
  | Ok saved =>
      match TruncateWAL saved (rt_LastLogIndex checkpointState) with
      | Err e => ({| run_store := saved; run_state := run_state r |}, Some e)
      | Ok truncated =>
          ({| run_store := truncated; run_state := clear_applied (run_state r) |}, None)
      end
  end.
End runtime.
Arguments Runtime S : clear implicits.

(** ** The in-memory store *)
Record InMemoryStore := {
  mem_checkpoint : option Checkpoint;
  mem_wal : list LogRecord;
}.

Definition cloneCheckpoint (checkpoint : Checkpoint) : Checkpoint :=
  {| ckpt_State := cloneState (ckpt_State checkpoint) |}.

Definition cloneLogRecord (record : LogRecord) : LogRecord :=
  {| log_Index := log_Index record; log_Command := cloneCommand (log_Command record) |}.

#[export] Instance InMemoryStore_ops : StoreOps InMemoryStore := {
  LoadLatestCheckpoint s := Ok (cloneCheckpoint <$> mem_checkpoint s);
  LoadWAL s afterIndex :=
    Ok (cloneLogRecord <$> List.filter (fun r => afterIndex <? log_Index r) (mem_wal s));
  AppendWAL s record :=
    Ok {| mem_checkpoint := mem_checkpoint s; mem_wal := mem_wal s ++ [cloneLogRecord record] |};
  SaveCheckpoint s checkpoint :=
    Ok {| mem_checkpoint := Some (cloneCheckpoint checkpoint); mem_wal := mem_wal s |};
  TruncateWAL s throughIndex :=
    Ok {| mem_checkpoint := mem_checkpoint s;
          mem_wal := cloneLogRecord <$>
            List.filter (fun r => throughIndex <? log_Index r) (mem_wal s) |};
}.
