(* ===== verification/CoordServer.v ===== *)
(** * The coordinator server's reductions (src/coordserver/server.go,
      server_reducer.go)

    Pure functions of the coordinator server: the routes it publishes, how it
    judges progress reports and heartbeats, what a recovered replica is told to
    do.  [View] and [SlotProgressView] are projections of the runtime's state. *)

From S2P Require Import Prelude.
From S2P Require Import CoordTypes.
From S2P Require Import Placement.
From S2P Require Import Reconfig.
From S2P Require Import StorageTypes.
From S2P Require Import RuntimeTypes.
From S2P Require Import Runtime.

Open Scope Z_scope.
Open Scope record_scope.

Inductive server_error :=
| ErrUnknownNode
| NotLeaderError (LeaderEndpoint : string)
| ErrNotLeader
| ErrHASnapshotConflict
| ErrDispatchFailed
| ErrDispatchTimeout
| ErrUnexpectedProgress
| ErrServerStateMismatch
| ErrInvalidServerCommand
| ErrRecoveryFailed
| ErrUnknownOutboxCommand
| ErrInvalidServerConfig
| ErrContextDone
| ErrNodeClient
| ErrRuntime (cause : runtime_error).

(** ** Routes *)
Record ReadReplicaRoute := {
  rrr_NodeID : string;
  rrr_Endpoint : string;
  rrr_Role : ReplicaRole;
}.

Record SlotRoute := {
  route_Slot : Z;
  route_ChainVersion : Z;
  route_HeadNodeID : string;
  route_HeadEndpoint : string;
  route_TailNodeID : string;
  route_TailEndpoint : string;
  route_ReadReplicas : list ReadReplicaRoute;
  route_Writable : bool;
  route_Readable : bool;
}.

#[export] Instance ReadReplicaRoute_rebuild : Rebuild ReadReplicaRoute := fun r =>
  {| rrr_NodeID := rrr_NodeID r; rrr_Endpoint := rrr_Endpoint r; rrr_Role := rrr_Role r |}.
#[export] Instance SlotRoute_rebuild : Rebuild SlotRoute := fun r =>
  {| route_Slot := route_Slot r; route_ChainVersion := route_ChainVersion r;
     route_HeadNodeID := route_HeadNodeID r; route_HeadEndpoint := route_HeadEndpoint r;
     route_TailNodeID := route_TailNodeID r; route_TailEndpoint := route_TailEndpoint r;
     route_ReadReplicas := route_ReadReplicas r; route_Writable := route_Writable r;
     route_Readable := route_Readable r |}.

Record RoutingSnapshot := {
  rs_Version : Z;
  rs_SlotCount : Z;
  rs_Slots : list SlotRoute;
}.

Record activePeerRefreshState := {
  fallbackServingChain : Chain;
  assignmentChain : Chain;
  useFallbackRoute : bool;
  allowWhilePending : bool;
  remainingNodeIDs : gmap string bool;
}.

#[export] Instance activePeerRefreshState_rebuild : Rebuild activePeerRefreshState := fun r =>
  {| fallbackServingChain := fallbackServingChain r; assignmentChain := assignmentChain r;
     useFallbackRoute := useFallbackRoute r; allowWhilePending := allowWhilePending r;
     remainingNodeIDs := remainingNodeIDs r |}.

Definition zeroChain : Chain := {| chain_Slot := 0; chain_Replicas := [] |}.
Definition zeroRefresh : activePeerRefreshState :=
  {| fallbackServingChain := zeroChain; assignmentChain := zeroChain; useFallbackRoute := false;
     allowWhilePending := false; remainingNodeIDs := ∅ |}.

Abbreviation unavailable_map := (gmap string (gmap Z bool)).

(** Reading a missing entry of either map yields the zero value. *)
Definition replicaUnavailable (unavailable : unavailable_map) (nodeID : string) (slot : Z) : bool :=
  match unavailable !! nodeID with Some slots => mget slots slot | None => false end.

Definition chainHasUnavailableReplica (chain : Chain) (unavailable : unavailable_map) : bool :=
  existsb (fun r => is_state ReplicaStateActive r && replicaUnavailable unavailable (replica_NodeID r) (chain_Slot chain))
    (chain_Replicas chain).

Definition chainHasReplicaState (chain : Chain) (want : ReplicaState) : bool :=
  existsb (is_state want) (chain_Replicas chain).

Definition chainContainsReplicaInState (chain : Chain) (nodeID : string) (wantState : ReplicaState) : bool :=
  existsb (fun r => String.eqb (replica_NodeID r) nodeID && is_state wantState r) (chain_Replicas chain).

Definition activeReplicaCount (chain : Chain) : Z :=
  Z.of_nat (length (List.filter (is_state ReplicaStateActive) (chain_Replicas chain))).

(** One replica of the loop in [buildSlotRoute]. *)
Definition route_replica (nodesByID : gmap string Node) (unavailable : unavailable_map) (slot : Z)
    (route : SlotRoute) (replica : Replica) : SlotRoute :=
  let nodeID := replica_NodeID replica in
  let address := node_RPCAddress (node_of nodesByID nodeID) in
  if negb (is_state ReplicaStateActive replica) then route
  else if replicaUnavailable unavailable nodeID slot then route
  else
    let first := String.eqb (route_HeadNodeID route) "" in
    let route := if first then route <| route_HeadNodeID := nodeID |> <| route_HeadEndpoint := address |> else route in
    let role := if first then ReplicaRoleHead else ReplicaRoleMiddle in
    route <| route_TailNodeID := nodeID |> <| route_TailEndpoint := address |>
          <| route_ReadReplicas := route_ReadReplicas route ++
               [{| rrr_NodeID := nodeID; rrr_Endpoint := address; rrr_Role := role |}] |>.

(** The roles at the ends, once the number of replicas is known. *)
Definition set_last_role (replicas : list ReadReplicaRoute) : list ReadReplicaRoute :=
  match replicas with
  | [] => []
  | [r] => [r <| rrr_Role := ReplicaRoleSingle |>]
  | _ => alter (fun r => r <| rrr_Role := ReplicaRoleTail |>) (length replicas - 1)%nat replicas
  end.

Definition buildSlotRoute (chain : Chain) (nodesByID : gmap string Node) (chainVersion : Z)
    (unavailable : unavailable_map) : SlotRoute :=
  let route := {| route_Slot := chain_Slot chain; route_ChainVersion := chainVersion; route_HeadNodeID := "";
                  route_HeadEndpoint := ""; route_TailNodeID := ""; route_TailEndpoint := "";
                  route_ReadReplicas := []; route_Writable := false; route_Readable := false |} in
  if chainHasUnavailableReplica chain unavailable then route
  else
    let route := foldl (route_replica nodesByID unavailable (chain_Slot chain)) route (chain_Replicas chain) in
    let route := route <| route_ReadReplicas := set_last_role (route_ReadReplicas route) |> in
    let route := if negb (String.eqb (route_HeadNodeID route) "") then route <| route_Writable := true |> else route in
    match route_ReadReplicas route with [] => route | _ => route <| route_Readable := true |> end.

Definition reduce_route (state : State) (unavailable : unavailable_map)
    (queuedPeerRefresh : gmap Z activePeerRefreshState) (chain : Chain) : SlotRoute :=
  let refresh := queuedPeerRefresh !! chain_Slot chain in
  let fallback := match refresh with Some r => useFallbackRoute r | None => false end in
  let routeChain := match refresh with
                    | Some r => if useFallbackRoute r then fallbackServingChain r else chain
                    | None => chain
                    end in
  let route := buildSlotRoute routeChain (cs_NodesByID (rt_Cluster state))
                 (slot_version (rt_SlotVersions state) (chain_Slot chain)) unavailable in
  let route := if negb (is_set refresh) && chainHasReplicaState chain ReplicaStateJoining
               then route <| route_Writable := false |> else route in
  if is_set refresh && negb fallback then route <| route_Writable := false |> <| route_Readable := false |> else route.

Definition reduceRoutingSnapshot (state : State) (unavailable : unavailable_map)
    (queuedPeerRefresh : gmap Z activePeerRefreshState) : RoutingSnapshot :=
  {| rs_Version := rt_Version state; rs_SlotCount := cs_SlotCount (rt_Cluster state);
     rs_Slots := reduce_route state unavailable queuedPeerRefresh <$> cs_Chains (rt_Cluster state) |}.

(** ** Assignments

    As the runtime's [assignmentForNode], with the last active replica as the
    tail, or the last one when none is active. *)
Definition chain_tail (chain : Chain) : string :=
  match last (List.filter (is_state ReplicaStateActive) (chain_Replicas chain)) with
  | Some r => replica_NodeID r
  | None => match last (chain_Replicas chain) with Some r => replica_NodeID r | None => "" end
  end.

Definition server_assignmentForNode (chain : Chain) (nodesByID : gmap string Node) (nodeID : string)
    (chainVersion : Z) : option ReplicaAssignment :=
  a ← assignmentForNode chain nodesByID nodeID chainVersion;
  let tail := chain_tail chain in
  let peers := asg_Peers a in
  Some {| asg_Slot := asg_Slot a; asg_ChainVersion := asg_ChainVersion a; asg_Role := asg_Role a;
          asg_Peers :=
            {| PredecessorNodeID := PredecessorNodeID peers; PredecessorTarget := PredecessorTarget peers;
               SuccessorNodeID := SuccessorNodeID peers; SuccessorTarget := SuccessorTarget peers;
               TailNodeID := tail;
               TailTarget := if String.eqb tail "" then "" else node_RPCAddress (node_of nodesByID tail) |} |}.

Definition currentAssignmentForNode (state : State) (nodeID : string) (slot : Z) : option ReplicaAssignment :=
  chain ← zidx (cs_Chains (rt_Cluster state)) slot;
  server_assignmentForNode chain (cs_NodesByID (rt_Cluster state)) nodeID (slot_version (rt_SlotVersions state) slot).

(** ** Progress reports *)
(** [CurrentSlotProgressView] and [slotProgressViewFromState]; a slot out of
    range has the zero chain. *)
Record SlotProgressView := {
  view_Version : Z;
  view_ReplicationFactor : Z;
  view_SlotVersion : Z;
  view_Completed : list CompletedProgressRecord;
  view_Pending : option PendingWork;
  view_Chain : Chain;
}.

Definition slotProgressViewFromState (state : State) (slot : Z) : SlotProgressView :=
  {| view_Version := rt_Version state; view_ReplicationFactor := cs_ReplicationFactor (rt_Cluster state);
     view_SlotVersion := slot_version (rt_SlotVersions state) slot;
     view_Completed := default [] (rt_CompletedProgressBySlot state !! slot);
     view_Pending := rt_PendingBySlot state !! slot;
     view_Chain := default zeroChain (cloneChain <$> zidx (cs_Chains (rt_Cluster state)) slot) |}.

Definition is_completed (kind : CompletedProgressKind) (nodeID : string) (r : CompletedProgressRecord) : bool :=
  String.eqb (cp_NodeID r) nodeID &&
  match kind, cp_Kind r with
  | CompletedProgressKindReady, CompletedProgressKindReady
  | CompletedProgressKindRemoved, CompletedProgressKindRemoved => true
  | _, _ => false
  end.

(** A completion under this version, or else the only one of the kind. *)
Definition matchesCompletedSlice (records : list CompletedProgressRecord) (nodeID : string)
    (kind : CompletedProgressKind) (slotVersion : Z) : bool :=
  let matching := List.filter (is_completed kind nodeID) records in
  existsb (fun r => cp_SlotVersion r =? slotVersion) matching || (length matching =? 1)%nat.

Record replicaProgressReduction := {
  duplicateCompleted : bool;
  enqueuePeerRefresh : bool;
  peerRefreshState : activePeerRefreshState;
  progressCommandID : string;
  reduction_slotVersion : Z;
}.

(** The replicas that serve while a joining one becomes active. *)
Definition readyProgressFallbackServingChainForChain (chain : Chain) (replicationFactor : Z) : option Chain :=
  if hasLeavingReplica chain then None
  else if replicationFactor <=? activeReplicaCount chain then None
  else let serving := activeServingChain chain in
       match chain_Replicas serving with [] => None | _ => Some (cloneChain serving) end.

(** The checks that ready and removed reports share: [Some] is work pending for
    this report, [None] a report of work already completed. *)
Definition pending_report (current : SlotProgressView) (kind : PendingKind) (completed : CompletedProgressKind)
    (wantState : ReplicaState) (nodeID commandID : string) : res server_error (option PendingWork) :=
  match view_Pending current with
  | Some pending =>
      if bool_decide (pw_Kind pending = kind) && String.eqb (pw_NodeID pending) nodeID then
        _ ← reject (negb (String.eqb commandID "") && negb (String.eqb (pw_CommandID pending) "") &&
                    negb (String.eqb (pw_CommandID pending) commandID)) ErrUnexpectedProgress;
        _ ← reject (negb (pw_SlotVersion pending =? view_SlotVersion current)) ErrUnexpectedProgress;
        _ ← reject (negb (chainContainsReplicaInState (view_Chain current) nodeID wantState)) ErrServerStateMismatch;
        Ok (Some pending)
      else if matchesCompletedSlice (view_Completed current) nodeID completed (view_SlotVersion current)
      then Ok None else Err ErrUnexpectedProgress
  | None =>
      if matchesCompletedSlice (view_Completed current) nodeID completed (view_SlotVersion current)
      then Ok None else Err ErrUnexpectedProgress
  end.

Definition progress_id (what nodeID commandID : string) (current : SlotProgressView) (attempt : Z) : string :=
  if String.eqb commandID "" then
    "server-progress-" +:+ what +:+ "-" +:+ nodeID +:+ "-" +:+ pretty (chain_Slot (view_Chain current)) +:+
    "-r" +:+ pretty attempt +:+ "-v" +:+ pretty (view_Version current)
  else commandID.

Definition reduceReplicaReadyProgress (current : SlotProgressView) (nodeID commandID : string) (attempt : Z)
    : res server_error replicaProgressReduction :=
  pending ← pending_report current PendingKindReady CompletedProgressKindReady ReplicaStateJoining nodeID commandID;
  match pending with
  | None => Ok {| duplicateCompleted := true; enqueuePeerRefresh := false; peerRefreshState := zeroRefresh;
                  progressCommandID := ""; reduction_slotVersion := view_SlotVersion current |}
  | Some _ =>
      let chain := view_Chain current in
      Ok {| duplicateCompleted := false;
            enqueuePeerRefresh := (0 <? activeReplicaCount chain) || hasLeavingReplica chain;
            peerRefreshState :=
              match readyProgressFallbackServingChainForChain chain (view_ReplicationFactor current) with
              | Some fallback => zeroRefresh <| fallbackServingChain := fallback |> <| useFallbackRoute := true |>
              | None => zeroRefresh
              end;
            progressCommandID := progress_id "ready" nodeID commandID current attempt;
            reduction_slotVersion := view_SlotVersion current |}
  end.

Definition reduceReplicaRemovedProgress (current : SlotProgressView) (nodeID commandID : string) (attempt : Z)
    : res server_error replicaProgressReduction :=
  pending ← pending_report current PendingKindRemoved CompletedProgressKindRemoved ReplicaStateLeaving nodeID commandID;
  Ok {| duplicateCompleted := negb (is_set pending); enqueuePeerRefresh := true; peerRefreshState := zeroRefresh;
        progressCommandID := if is_set pending then progress_id "removed" nodeID commandID current attempt else "";
        reduction_slotVersion := view_SlotVersion current |}.

(** ** Liveness *)
Record LivenessPolicy := {
  lp_SuspectAfter : Z;
  lp_DeadAfter : Z;
  lp_FlapWindow : Z;
  lp_FlapThreshold : Z;
}.

Definition reduceNodeLivenessTarget (record : NodeLivenessRecord) (nowUnixNano : Z) (policy : LivenessPolicy)
    : NodeLivenessState :=
  if (lp_SuspectAfter policy <=? 0) || (lp_DeadAfter policy <=? 0) then nl_State record
  else if nowUnixNano <=? nl_LastHeartbeatUnixNano record then NodeLivenessStateHealthy
  else
    let age := i64 (nowUnixNano - nl_LastHeartbeatUnixNano record) in
    if lp_DeadAfter policy <=? age then NodeLivenessStateDead
    else if lp_SuspectAfter policy <=? age then NodeLivenessStateSuspect
    else NodeLivenessStateHealthy.

Definition isZeroNodeStatus (status : NodeStatus) : bool := bool_decide (status = zeroNodeStatus).

Definition nodeMarkedDead (cluster : ClusterState) (nodeID : string) : bool :=
  is_dead (cs_NodeHealthByID cluster) nodeID.

(** ** Recovered replicas *)
Definition replicaRoleCanResumeRecovered (role : ReplicaRole) : bool :=
  match role with ReplicaRoleSingle | ReplicaRoleTail => true | _ => false end.

Definition assignmentsEquivalentForRecovery (left_ right_ : ReplicaAssignment) : bool :=
  let l := asg_Peers left_ in
  let r := asg_Peers right_ in
  (asg_Slot left_ =? asg_Slot right_) && (asg_ChainVersion left_ =? asg_ChainVersion right_) &&
  bool_decide (asg_Role left_ = asg_Role right_) &&
  String.eqb (PredecessorNodeID l) (PredecessorNodeID r) && String.eqb (SuccessorNodeID l) (SuccessorNodeID r) &&
  (String.eqb (TailNodeID l) (TailNodeID r) || String.eqb (TailNodeID l) "" || String.eqb (TailNodeID r) "").

Definition canResumeRecoveredReplica (recovered : RecoveredReplica) (current : ReplicaAssignment) : bool :=
  replicaRoleCanResumeRecovered (asg_Role current) && rec_HasCommittedData recovered &&
  bool_decide (rec_LastKnownState recovered = StateActive) &&
  assignmentsEquivalentForRecovery (rec_Assignment recovered) current.

Definition recoverySourceNodeID (chain : Chain) (recoveringNodeID : string) : option string :=
  i ← findReplicaIndex chain recoveringNodeID;
  if (0 <? i)%nat then replica_NodeID <$> chain_Replicas chain !! (i - 1)%nat
  else replica_NodeID <$> chain_Replicas chain !! (i + 1)%nat.

(** ** Policy *)
Definition clusterFullySettledForStartup (cluster : ClusterState) : bool :=
  negb ((cs_SlotCount cluster =? 0) || (cs_ReplicationFactor cluster <=? 0) ||
        negb (Z.of_nat (length (cs_Chains cluster)) =? cs_SlotCount cluster)) &&
  forallb (fun chain =>
    (Z.of_nat (length (chain_Replicas chain)) =? cs_ReplicationFactor cluster) &&
    forallb (is_state ReplicaStateActive) (chain_Replicas chain)) (cs_Chains cluster).

Definition slotPlanHasOnlyStepKind (sp : SlotPlan) (kind : StepKind) : bool :=
  match plan_Steps sp with [] => false | steps => forallb (is_step kind) steps end.
