(* ===== verification/RuntimeProps.v ===== *)
(** * What the coordinator runtime guarantees

    Copies are faithful, commands are applied at most once, the log replays
    to the live state after any sequence of commands, checkpoints (complete or
    interrupted) and restarts, and the pending work, the outbox and the slot
    versions stay consistent with the cluster. *)

From S2P Require Import Prelude.
From S2P Require Import CoordTypes.
From S2P Require Import Placement.
From S2P Require Import Reconfig.
From S2P Require Import ReconfigProps.
From S2P Require Import PlanTheorems.
From S2P Require Import StorageTypes.
From S2P Require Import RuntimeTypes.
From S2P Require Import Runtime.

Open Scope Z_scope.

(** ** Copies *)
Lemma cloneChain_id c : cloneChain c = c.
Proof. by destruct c. Qed.

Lemma fmap_id_ext {A} (f : A -> A) (l : list A) : (forall x, f x = x) -> f <$> l = l.
Proof. intros Hf. induction l as [|x l IH]; [done|]. cbn. by rw Hf IH. Qed.

Lemma ofmap_id_ext {A} (f : A -> A) (o : option A) : (forall x, f x = x) -> f <$> o = o.
Proof. intros Hf. destruct o as [x|]; [|done]. cbn. by rw Hf. Qed.

Lemma cloneEvent_id e : cloneEvent e = e.
Proof. unfold cloneEvent. rw cloneNode_id. by destruct e. Qed.

Lemma cloneEvents_id es : cloneEvents es = es.
Proof. apply fmap_id_ext, cloneEvent_id. Qed.

Lemma cloneNodes_list_id ns : cloneNodes ns = ns.
Proof. apply fmap_id_ext, cloneNode_id. Qed.

Lemma cloneNodeStatus_id s : cloneNodeStatus s = s.
Proof. by destruct s. Qed.

Lemma cloneOutbox_id o : cloneOutbox o = o.
Proof. apply fmap_id_ext. intros [? ? ? ? ? []]. done. Qed.

Lemma cloneNodeLivenessMap_id m : cloneNodeLivenessMap m = m.
Proof.
  unfold cloneNodeLivenessMap. rw (map_fmap_ext _ id); [|apply map_fmap_id].
  intros _ [? ? ? [] ? ?] _. done.
Qed.

Lemma cloneCommand_id cmd : cloneCommand cmd = cmd.
Proof.
  unfold cloneCommand. destruct cmd as [? ? ? b c p r h l a].
  cbn -[cloneNodes cloneEvents cloneEvent]. f_equal; apply ofmap_id_ext.
  - intros []. cbn -[cloneNodes]. by rw cloneNodes_list_id.
  - intros []. cbn -[cloneEvents]. by rw cloneEvents_id.
  - intros []. cbn -[cloneEvent]. by rw cloneEvent_id.
  - intros [[] ? ?]. done.
  - intros [[] ? ?]. done.
  - by intros [].
  - by intros [].
Qed.

(** A cluster all of whose ready flags are set is its own copy. *)
Definition ready_true (c : ClusterState) : Prop :=
  map_Forall (fun _ b => b = true) (cs_ReadyNodeIDs c).

Lemma clone_true_spec m : map_Forall (fun _ b => b = true) (clone_true m).
Proof. intros k b. unfold clone_true. rw map_lookup_filter_Some. by intros [_ ->]. Qed.

Lemma cloneClusterState_eq c : cloneClusterState c = set_ReadyNodeIDs c (clone_true (cs_ReadyNodeIDs c)).
Proof.
  unfold cloneClusterState, set_ReadyNodeIDs. rw !clone_map_id cloneNodes_id.
  by rw (fmap_id_ext cloneChain _ cloneChain_id).
Qed.

Lemma cloneClusterState_id c : ready_true c -> cloneClusterState c = c.
Proof.
  intros H. rw cloneClusterState_eq clone_true_id //. by destruct c.
Qed.

Lemma cloneClusterState_ready c : ready_true (cloneClusterState c).
Proof. rw cloneClusterState_eq. apply clone_true_spec. Qed.

Lemma cloneClusterState_idemp c : cloneClusterState (cloneClusterState c) = cloneClusterState c.
Proof. apply cloneClusterState_id, cloneClusterState_ready. Qed.

Lemma clonePlan_idemp p : clonePlan (clonePlan p) = clonePlan p.
Proof.
  unfold clonePlan. destruct p as [p|]; [|done]. cbn. rw cloneClusterState_idemp. do 2 f_equal.
  rw -list_fmap_compose. apply list_fmap_ext. intros _ [] _. cbn. by rw /cloneSlotPlan /= !cloneChain_id.
Qed.

(** An applied-command entry, and a state, that are their own copies. *)
Definition normal_applied (ap : AppliedCommand) : Prop := cloneAppliedCommand ap = ap.
Record normal (st : State) : Prop := {
  norm_ready : ready_true (rt_Cluster st);
  norm_applied : map_Forall (fun _ ap => normal_applied ap) (rt_AppliedCommands st);
}.

Lemma clone_applied_map_id (m : gmap string AppliedCommand) :
  map_Forall (fun _ ap => normal_applied ap) m -> cloneAppliedCommand <$> m = m.
Proof.
  intros H. rw -{2}(map_fmap_id m). apply map_fmap_ext. intros k ap Hk. exact (H k ap Hk).
Qed.

Lemma cloneState_id st : normal st -> cloneState st = st.
Proof.
  intros [Hr Ha]. unfold cloneState, clone_state_with.
  rw cloneClusterState_id // clone_applied_map_id //.
  rw /cloneSlotVersions /cloneCompletedProgressMap /clonePendingMap !clone_map_id.
  rw cloneNodeLivenessMap_id cloneOutbox_id. by destruct st.
Qed.

Lemma cloneStateForNextApplied_id st : ready_true (rt_Cluster st) -> cloneStateForNextApplied st = st.
Proof.
  intros Hr. unfold cloneStateForNextApplied, clone_state_with.
  rw cloneClusterState_id // map_fmap_id.
  rw /cloneSlotVersions /cloneCompletedProgressMap /clonePendingMap !clone_map_id.
  rw cloneNodeLivenessMap_id cloneOutbox_id. by destruct st.
Qed.

Lemma mark_ready_true c id : ready_true c -> ready_true (mark_ready c id).
Proof.
  intros H. unfold mark_ready. destruct (is_dead _ _); [done|]. by apply map_Forall_insert_2.
Qed.

Lemma nextClusterState_ready c cmd : ready_true (nextClusterState c cmd).
Proof.
  unfold nextClusterState. pose proof (cloneClusterState_ready c).
  destruct (cmd_Kind cmd), (cmd_NodeReady cmd), (cmd_Heartbeat cmd); auto using mark_ready_true.
Qed.

Lemma nextState_normal st i cmd cluster plan :
  normal st -> normal (nextStateForApplied st i cmd cluster plan).
Proof.
  intros [Hr Ha]. unfold nextStateForApplied. rw cloneStateForNextApplied_id //.
  constructor; cbn; [apply nextClusterState_ready|]. apply map_Forall_insert_2; [|done].
  unfold normal_applied, cloneAppliedCommand.
  cbn -[clonePlan cloneClusterState cloneCommand cloneOutbox cloneNodeLivenessMap].
  rw !cloneCommand_id cloneClusterState_idemp clonePlan_idemp.
  rw /cloneSlotVersions /cloneCompletedProgressMap /clonePendingMap !clone_map_id.
  by rw !cloneNodeLivenessMap_id !cloneOutbox_id.
Qed.

(** ** Recovery

    What a recovered state may lack: applied-command entries that an
    interrupted checkpoint had already dropped from the durable copy. *)
Record recovers (live rec : State) : Prop := {
  rec_fields : clear_applied rec = clear_applied live;
  rec_applied : rt_AppliedCommands rec ⊆ rt_AppliedCommands live;
}.

Lemma recovers_refl st : recovers st st.
Proof. by constructor. Qed.

Lemma clear_applied_normal st : normal st -> normal (clear_applied st).
Proof. intros [? ?]. constructor; cbn; [done|apply map_Forall_empty]. Qed.

Lemma execute_fresh st cmd cluster plan :
  executeCommand st cmd = Ok (Executed cluster plan) ->
  rt_AppliedCommands st !! cmd_ID cmd = None.
Proof.
  unfold executeCommand, validateCommand. intros (d & Hd & H)%bind_Ok.
  apply bind_Ok in Hd as (_ & _ & Hd). apply bind_Ok in Hd as (_ & _ & Hd).
  destruct (rt_AppliedCommands st !! cmd_ID cmd); [|done].
  apply bind_Ok in Hd as (_ & _ & [= <-]). done.
Qed.

(** The result of executing a fresh command does not depend on the entries of
    other applied commands. *)
Lemma execute_recovers live rec cmd cluster plan :
  recovers live rec -> executeCommand live cmd = Ok (Executed cluster plan) ->
  executeCommand rec cmd = Ok (Executed cluster plan).
Proof.
  intros [Hf Ha] H. pose proof (execute_fresh _ _ _ _ H) as Hnone.
  assert (rt_AppliedCommands rec !! cmd_ID cmd = None) as Hnone'.
  { destruct (rt_AppliedCommands rec !! cmd_ID cmd) eqn:E; [|done].
    by rw (lookup_weaken _ _ _ _ E Ha) in Hnone. }
  rw -H. unfold clear_applied in Hf. injection Hf as Hv Hi Hc Hs Hp Hn Hpe Ho Hl.
  unfold executeCommand, validateCommand, isInitialized. by rw Hnone Hnone' Hv Hc Ho.
Qed.

Lemma nextState_recovers live rec i cmd cluster plan :
  recovers live rec ->
  recovers (nextStateForApplied live i cmd cluster plan) (nextStateForApplied rec i cmd cluster plan).
Proof.
  intros [Hf Ha]. unfold clear_applied in Hf. injection Hf as Hv Hi Hc Hs Hp Hn Hpe Ho Hl.
  unfold nextStateForApplied, cloneStateForNextApplied, clone_state_with.
  rw Hv Hi Hc Hs Hp Hn Hpe Ho Hl. constructor; [done|]. cbn. rw !map_fmap_id.
  by apply insert_mono.
Qed.

(** Replaying a log from a state, as the loop of [Open] does. *)
Definition replay_log (st : State) (records : list LogRecord) : res runtime_error State :=
  '(st', _) ← res_fold replayStep (st, rt_LastLogIndex st) records; Ok st'.

Lemma replay_log_index st records st' :
  res_fold replayStep (st, rt_LastLogIndex st) records = Ok st' -> st'.2 = rt_LastLogIndex st'.1.
Proof.
  assert (forall acc acc', acc.2 = rt_LastLogIndex acc.1 ->
    res_fold replayStep acc records = Ok acc' -> acc'.2 = rt_LastLogIndex acc'.1) as H.
  { induction records as [|r records IH]; intros acc acc' Hacc; cbn [res_fold].
    - by intros [= <-].
    - intros (acc1 & H1 & H2)%bind_Ok. apply (IH acc1); [|done]. destruct acc as [s e].
      unfold replayStep in H1. apply bind_Ok in H1 as (_ & _ & H1).
      apply bind_Ok in H1 as (s' & Hs' & [= <-]). cbn. unfold replayRecord in Hs'.
      destruct (executeCommand s _) as [[?|cl pl]|]; [done| |done]. injection Hs' as <-. done. }
  intros. by apply (H (st, rt_LastLogIndex st)).
Qed.

Lemma replay_log_snoc st records rec record :
  replay_log st records = Ok rec ->
  replay_log st (records ++ [record]) =
  (_ ← reject (negb (log_Index record =? u64_add (rt_LastLogIndex rec) 1)) ErrRecovery;
   replayRecord rec record).
Proof.
  unfold replay_log. intros ([st' e] & Hf & [= ->])%bind_Ok. rw res_fold_app Hf.
  apply replay_log_index in Hf. cbn in Hf. subst e. cbn.
  destruct (reject _ _); [|done]. cbn. by destruct (replayRecord rec record).
Qed.

Lemma recovers_clear st : recovers st (clear_applied st).
Proof. constructor; [done|apply map_empty_subseteq]. Qed.

Lemma recovers_normal live rec : recovers live rec -> normal live -> normal rec.
Proof.
  intros [Hf Ha] [Hr Hn]. constructor.
  - unfold clear_applied in Hf. injection Hf as _ _ Hc _ _ _ _ _ _. by rw /ready_true Hc.
  - intros k ap Hk. exact (Hn k ap (lookup_weaken _ _ _ _ Hk Ha)).
Qed.

Lemma recovers_index live rec : recovers live rec -> rt_LastLogIndex rec = rt_LastLogIndex live.
Proof. intros [Hf _]. unfold clear_applied in Hf. by injection Hf. Qed.

(** What a store promises: it holds at most one checkpoint and a log, loads
    may fail, and a successful write changes just what it names.  A store that
    is [sound] stays so; it can hold the commands and the checkpoints it
    admits, and records are appended in the order of their indices. *)
Class StoreLaws (S : Type) `{StoreOps S} := {
  sound : S -> Prop;
  contents : S -> option Checkpoint * list LogRecord;
  admits_command : Command -> Prop;
  admits_checkpoint : Checkpoint -> Prop;
  load_checkpoint_law s : sound s ->
    LoadLatestCheckpoint s = Err ErrStore \/ LoadLatestCheckpoint s = Ok (contents s).1;
  load_wal_law s i : sound s ->
    LoadWAL s i = Err ErrStore \/
    LoadWAL s i = Ok (List.filter (fun r => i <? log_Index r) (contents s).2);
  append_law s record s' :
    sound s -> admits_command (log_Command record) -> 0 <= log_Index record < u64_mod ->
    Forall (fun r => log_Index r < log_Index record) (contents s).2 ->
    AppendWAL s record = Ok s' -> sound s' /\ contents s' = ((contents s).1, (contents s).2 ++ [record]);
  save_law s c s' :
    sound s -> admits_checkpoint c -> normal (ckpt_State c) -> SaveCheckpoint s c = Ok s' ->
    sound s' /\ contents s' = (Some c, (contents s).2);
  truncate_law s i s' :
    sound s -> TruncateWAL s i = Ok s' ->
    sound s' /\ contents s' = ((contents s).1, List.filter (fun r => i <? log_Index r) (contents s).2);
}.

Lemma cloneLogRecord_id r : cloneLogRecord r = r.
Proof. unfold cloneLogRecord. rw cloneCommand_id. by destruct r. Qed.

Lemma cloneCheckpoint_id c : normal (ckpt_State c) -> cloneCheckpoint c = c.
Proof. intros. unfold cloneCheckpoint. rw cloneState_id //. by destruct c. Qed.

#[export] Program Instance InMemoryStore_laws : StoreLaws InMemoryStore := {
  sound _ := True;
  contents s := (cloneCheckpoint <$> mem_checkpoint s, mem_wal s);
  admits_command _ := True;
  admits_checkpoint _ := True;
}.
Next Obligation. intros s _. by right. Qed.
Next Obligation. intros s i _. right. cbn. by rw (fmap_id_ext _ _ cloneLogRecord_id). Qed.
Next Obligation. intros s record s' _ _ _ _ [= <-]. cbn. by rw cloneLogRecord_id. Qed.
Next Obligation. intros s c s' _ _ Hn [= <-]. cbn. by rw !(cloneCheckpoint_id c Hn). Qed.
Next Obligation. intros s i s' _ [= <-]. cbn. by rw (fmap_id_ext _ _ cloneLogRecord_id). Qed.

(** The calls of the coordinator server on the runtime: each method with the
    commands of its kind the store can hold, while the log index does not wrap; a checkpoint,
    complete or interrupted by either store failure; a restart. *)
Section runs.
Context {S : Type} `{StoreLaws S}.

Definition accepts (k : CommandKind)
    (method : Runtime S -> Command -> res runtime_error (Runtime S * State)) : Prop :=
  match k with
  | CommandKindBootstrap => method = Bootstrap
  | CommandKindReconfigure => method = Reconfigure
  | CommandKindProgress => method = Runtime_ApplyProgress
  | CommandKindNodeReady => method = MarkNodeReady
  | CommandKindHeartbeat => method = Heartbeat
  | CommandKindLiveness => method = ApplyLiveness
  | CommandKindAcknowledgeOutbox => method = AcknowledgeOutbox
  | CommandKindUnsupported _ => False
  end.

Inductive rt_step : Runtime S -> Runtime S -> Prop :=
| step_command r cmd method r' out :
    accepts (cmd_Kind cmd) method -> admits_command cmd ->
    rt_LastLogIndex (run_state r) < u64_mod - 1 ->
    method r cmd = Ok (r', out) -> rt_step r r'
| step_checkpoint r :
    admits_checkpoint {| ckpt_State := clear_applied (run_state r) |} -> rt_step r (Runtime_Checkpoint r).1
| step_restart r r' : Open (run_store r) = Ok r' -> rt_step r r'.

Definition fresh_runtime (r : Runtime S) : Prop :=
  run_state r = zeroRuntimeState /\ sound (run_store r) /\ contents (run_store r) = (None, []).

Definition rt_reachable (r : Runtime S) : Prop := exists r0, fresh_runtime r0 /\ rtc rt_step r0 r.

(** Committing one executed command. *)
Definition commits (r : Runtime S) (cmd : Command) (r' : Runtime S) : Prop :=
  exists cluster plan,
    executeCommand (run_state r) cmd = Ok (Executed cluster plan) /\
    AppendWAL (run_store r) (commitCandidate (run_state r) cmd cluster plan).1 = Ok (run_store r') /\
    run_state r' = (commitCandidate (run_state r) cmd cluster plan).2.

(** Commands without a plan. *)
Lemma execute_plan st cmd cluster plan :
  cmd_Kind cmd <> CommandKindReconfigure ->
  executeCommand st cmd = Ok (Executed cluster plan) -> plan = None.
Proof.
  intros Hk. unfold executeCommand. intros (d & _ & Hd)%bind_Ok. destruct d as [|]; [done|].
  destruct (cmd_Kind cmd); try done;
    repeat match goal with
    | Hd : (mbind _ _) = Ok _ |- _ => apply bind_Ok in Hd as (? & _ & Hd)
    end; try by injection Hd.
  destruct (negb _); by injection Hd.
Qed.

(** Commands that keep the cluster. *)
Lemma execute_same st cmd cluster plan :
  match cmd_Kind cmd with
  | CommandKindBootstrap | CommandKindReconfigure | CommandKindProgress => False
  | _ => True
  end -> executeCommand st cmd = Ok (Executed cluster plan) -> cluster = cloneClusterState (rt_Cluster st).
Proof.
  intros Hk. unfold executeCommand. intros (d & _ & Hd)%bind_Ok. destruct d as [|]; [done|].
  destruct (cmd_Kind cmd); try done;
    repeat match goal with
    | Hd : (mbind _ _) = Ok _ |- _ => apply bind_Ok in Hd as (? & _ & Hd)
    end; try by injection Hd.
  destruct (negb _); by injection Hd.
Qed.

Lemma apply_same_commits r cmd r' out :
  normal (run_state r) ->
  match cmd_Kind cmd with
  | CommandKindBootstrap | CommandKindReconfigure | CommandKindProgress => False
  | _ => True
  end -> apply_same_cluster r cmd = Ok (r', out) -> r' = r \/ commits r cmd r' /\ out = cloneState (run_state r').
Proof.
  intros Hn Hk. unfold apply_same_cluster, commit. intros (ex & Hex & Happ)%bind_Ok.
  destruct ex as [ap|cluster plan]; [left; congruence|right].
  assert (plan = None) as -> by (apply (execute_plan (run_state r) cmd cluster); [by destruct (cmd_Kind cmd)|done]).
  pose proof (execute_same _ _ _ _ Hk Hex) as Hc. rw cloneClusterState_id in Hc; [by destruct Hn|].
  subst cluster. destruct (commitCandidate _ _ _ _) as [record next] eqn:Ec.
  apply bind_Ok in Happ as (s' & Hs & [= <- <-]). split; [|done].
  exists (rt_Cluster (run_state r)), None. by rw Ec.
Qed.

Lemma apply_cluster_commits r cmd r' out :
  cmd_Kind cmd <> CommandKindReconfigure ->
  apply_cluster r cmd = Ok (r', out) -> r' = r \/ commits r cmd r' /\ out = cloneState (run_state r').
Proof.
  intros Hk. unfold apply_cluster, commit. intros (ex & Hex & Happ)%bind_Ok.
  destruct ex as [ap|cluster plan]; [left; congruence|right].
  pose proof (execute_plan _ _ _ _ Hk Hex) as ->.
  destruct (commitCandidate _ _ _ _) as [record next] eqn:Ec.
  apply bind_Ok in Happ as (s' & Hs & [= <- <-]). split; [|done].
  exists cluster, None. by rw Ec.
Qed.

(** A method leaves the runtime alone or commits the executed command. *)
Lemma command_commits r cmd method r' out :
  normal (run_state r) -> accepts (cmd_Kind cmd) method -> method r cmd = Ok (r', out) ->
  r' = r \/ commits r cmd r' /\ out = cloneState (run_state r').
Proof.
  intros Hn Hm Hr. destruct (cmd_Kind cmd) eqn:Hk; cbn in Hm; try done; subst method;
    try (apply (apply_same_commits r cmd r' out); [done|by rw Hk|done]);
    try (apply (apply_cluster_commits r cmd r' out); [by rw Hk|done]).
  - revert Hr. unfold Reconfigure, commit. intros (ex & Hex & Happ)%bind_Ok.
    destruct ex as [ap|cluster plan]; [left; congruence|right].
    destruct (commitCandidate _ _ _ _) as [record next] eqn:Ec.
    apply bind_Ok in Happ as (s' & Hs & [= <- <-]). split; [|done].
    exists cluster, plan. by rw Ec.
  - revert Hr. unfold AcknowledgeOutbox. intros ([ap|] & _ & Hr)%bind_Ok; [left; congruence|].
    assert (apply_same_cluster r cmd = Ok (r', out) -> r' = r \/ commits r cmd r' /\ out = cloneState (run_state r')) as Hs.
    { intros. apply (apply_same_commits r cmd r' out); [done|by rw Hk|done]. }
    destruct (cmd_AcknowledgeOutbox cmd) as [a|]; [|by apply Hs].
    destruct (negb _); [left; congruence|by apply Hs].
Qed.

(** The state a checkpoint starts the replay from. *)
Definition base_state (checkpoint : option Checkpoint) : State :=
  match checkpoint with Some c => cloneState (ckpt_State c) | None => zeroRuntimeState end.

Definition after (i : Z) (wal : list LogRecord) : list LogRecord :=
  List.filter (fun r => i <? log_Index r) wal.

(** The durable contents reproduce the live state. *)
Record durable (r : Runtime S) : Prop := {
  du_sound : sound (run_store r);
  du_normal : normal (run_state r);
  du_index : 0 <= rt_LastLogIndex (run_state r);
  du_base : rt_LastLogIndex (base_state (contents (run_store r)).1) <= rt_LastLogIndex (run_state r);
  du_wal : Forall (fun record => log_Index record <= rt_LastLogIndex (run_state r))
             (contents (run_store r)).2;
  du_replay : exists rec,
    replay_log (base_state (contents (run_store r)).1)
      (after (rt_LastLogIndex (base_state (contents (run_store r)).1)) (contents (run_store r)).2) = Ok rec /\
    recovers (run_state r) rec;
}.

Lemma after_snoc i wal record : i < log_Index record -> after i (wal ++ [record]) = after i wal ++ [record].
Proof. intros Hi. unfold after. rw List.filter_app. cbn. by rw (proj2 (Z.ltb_lt _ _) Hi). Qed.

Lemma after_last i wal : Forall (fun record => log_Index record <= i) wal -> after i wal = [].
Proof.
  induction 1 as [|record wal Hr _ IH]; [done|]. unfold after in *. cbn. rw IH. destruct (Z.ltb_spec i (log_Index record)); [lia|done].
Qed.

Lemma fresh_durable r : fresh_runtime r -> durable r.
Proof.
  intros (Hst & Hs & Hc). constructor; rw ?Hst ?Hc; cbn; [done| |lia|lia|constructor|].
  - constructor; apply map_Forall_empty.
  - exists zeroRuntimeState. split; [done|apply recovers_refl].
Qed.

Lemma commits_durable r cmd r' :
  rt_LastLogIndex (run_state r) < u64_mod - 1 -> admits_command cmd -> durable r -> commits r cmd r' -> durable r'.
Proof.
  intros Hlt Hadm [Hs Hn Hi Hb Hw (rec & Hrep & Hrec)] (cluster & plan & Hex & Happ & Hst).
  cbn in Happ, Hst.
  assert (u64_add (rt_LastLogIndex (run_state r)) 1 = rt_LastLogIndex (run_state r) + 1) as Hadd.
  { apply u64_add_small. lia. }
  rw Hadd in Happ, Hst. apply append_law in Happ as [Hs' Happ];
    [|done|by rw cloneCommand_id|cbn; lia|apply (Forall_impl _ _ _ Hw); intros ? ?; cbn in *; lia].
  constructor; rw ?Hst ?Happ; cbn -[replay_log after base_state].
  - done.
  - by apply nextState_normal.
  - lia.
  - lia.
  - apply Forall_app. split; [|apply Forall_singleton; cbn; lia].
    apply (Forall_impl _ _ _ Hw). intros ? ?; cbn in *; lia.
  - rw after_snoc; [cbn; lia|]. rw (replay_log_snoc _ _ _ _ Hrep). cbn [log_Index].
    rw (recovers_index _ _ Hrec) Hadd Z.eqb_refl. cbn. unfold replayRecord. cbn.
    rw cloneCommand_id (execute_recovers _ _ _ _ _ Hrec Hex). eexists. split; [done|].
    by apply nextState_recovers.
Qed.

Lemma checkpoint_durable r : admits_checkpoint {| ckpt_State := clear_applied (run_state r) |} ->
  durable r -> durable (Runtime_Checkpoint r).1.
Proof.
  intros Hadm Hd. pose proof Hd as [Hs Hn Hi Hb Hw Hrep]. unfold Runtime_Checkpoint. rw cloneState_id //.
  destruct (SaveCheckpoint _ _) as [saved|] eqn:Hsave; [|done].
  apply save_law in Hsave as [Hs1 Hsave]; [|done|done|by apply clear_applied_normal].
  assert (forall s' : S, sound s' -> (contents s').1 = Some {| ckpt_State := clear_applied (run_state r) |} ->
    Forall (fun record => log_Index record <= rt_LastLogIndex (run_state r)) (contents s').2 ->
    forall live, recovers (run_state r) live -> recovers live (clear_applied (run_state r)) ->
    durable {| run_store := s'; run_state := live |}) as Hall.
  { intros s' Hs' Hc Hw' live Hl Hrec. pose proof (recovers_index _ _ Hl) as Hix.
    constructor; rw ?Hc; cbn -[replay_log after base_state]; rw ?Hix //.
    - by apply (recovers_normal (run_state r)).
    - cbn. lia.
    - cbn [base_state ckpt_State]. rw cloneState_id; [by apply clear_applied_normal|].
      cbn [clear_applied rt_LastLogIndex]. rw (after_last _ _ Hw'). by eexists. }
  destruct (TruncateWAL _ _) as [truncated|] eqn:Htrunc; cbn [fst].
  - apply truncate_law in Htrunc as [Hs2 Htrunc]; [|done]. apply Hall; rw ?Htrunc ?Hsave //; [|apply recovers_clear].
    exact (List.incl_Forall (List.incl_filter _ _) Hw).
  - apply Hall; rw ?Hsave //; apply recovers_clear.
Qed.

(** Opening a store that can be read. *)
Lemma Open_loaded r : durable r ->
  LoadLatestCheckpoint (run_store r) = Ok (contents (run_store r)).1 ->
  LoadWAL (run_store r) (rt_LastLogIndex (base_state (contents (run_store r)).1)) =
    Ok (after (rt_LastLogIndex (base_state (contents (run_store r)).1)) (contents (run_store r)).2) ->
  exists rec, Open (run_store r) = Ok {| run_store := run_store r; run_state := rec |} /\
    replay_log (base_state (contents (run_store r)).1)
      (after (rt_LastLogIndex (base_state (contents (run_store r)).1)) (contents (run_store r)).2) = Ok rec /\
    recovers (run_state r) rec.
Proof.
  intros [_ _ _ _ _ (rec & Hrep & Hrec)] Hc Hw. unfold Open. rw Hc.
  change (Ok (contents (run_store r)).1 ≫= ?k) with (k (contents (run_store r)).1). cbv beta.
  fold (base_state (contents (run_store r)).1). rw Hw.
  exists rec. split; [|done]. cbn -[base_state replayStep res_fold]. revert Hrep. unfold replay_log.
  intros ([st e] & -> & [= ->])%bind_Ok. done.
Qed.

Lemma Open_durable r : durable r ->
  Open (run_store r) = Err ErrStore \/
  exists rec, Open (run_store r) = Ok {| run_store := run_store r; run_state := rec |} /\
    replay_log (base_state (contents (run_store r)).1)
      (after (rt_LastLogIndex (base_state (contents (run_store r)).1)) (contents (run_store r)).2) = Ok rec /\
    recovers (run_state r) rec.
Proof.
  intros Hd. destruct (load_checkpoint_law (run_store r) (du_sound _ Hd)) as [Hc|Hc]; [left; unfold Open; by rw Hc|].
  destruct (load_wal_law (run_store r) (rt_LastLogIndex (base_state (contents (run_store r)).1)) (du_sound _ Hd)) as [Hw|Hw];
    [left; unfold Open; rw Hc|right; by apply Open_loaded].
  change (Ok (contents (run_store r)).1 ≫= ?k) with (k (contents (run_store r)).1). cbv beta.
  fold (base_state (contents (run_store r)).1). by rw Hw.
Qed.

Lemma restart_durable r r' : durable r -> Open (run_store r) = Ok r' ->
  durable r' /\ recovers (run_state r) (run_state r').
Proof.
  intros Hd Ho. destruct (Open_durable r Hd) as [He|(rec & Ho' & Hrep & Hrec)]; [congruence|].
  rw Ho in Ho'. injection Ho' as ->. split; [|done]. destruct Hd as [Hs Hn Hi Hb Hw _].
  pose proof (recovers_index _ _ Hrec) as Hix. constructor; cbn [run_store run_state]; rw ?Hix //.
  - by apply (recovers_normal (run_state r)).
  - exists rec. split; [done|apply recovers_refl].
Qed.

Lemma rt_step_durable r r' : durable r -> rt_step r r' -> durable r'.
Proof.
  intros Hd Hs. destruct Hs as [r cmd method r' out Hm Hadm Hlt Hr|r Hadm|r r' Ho].
  - destruct (command_commits r cmd method r' out) as [->|[Hc _]]; [by destruct Hd|done..|].
    by apply (commits_durable r cmd).
  - by apply checkpoint_durable.
  - by apply (restart_durable r).
Qed.

Lemma rt_reachable_durable r : rt_reachable r -> durable r.
Proof.
  intros (r0 & H0' & Hs). apply fresh_durable in H0'. induction Hs as [|r1 r2 r3 H12 _ IH]; [done|].
  apply IH. by apply (rt_step_durable r1).
Qed.

(** Induction over the states of reachable runtimes. *)
Lemma rt_reachable_ind (P : State -> Prop) r :
  P zeroRuntimeState ->
  (forall st cmd cluster plan, normal st -> P st ->
    executeCommand st cmd = Ok (Executed cluster plan) ->
    0 <= rt_LastLogIndex st < u64_mod - 1 ->
    P (nextStateForApplied st (rt_LastLogIndex st + 1) cmd cluster plan)) ->
  (forall live rec, recovers live rec -> P live -> P rec) ->
  rt_reachable r -> P (run_state r).
Proof.
  intros Hz Hnext Hrec (r0 & Hf & Hs). pose proof (fresh_durable _ Hf) as Hd.
  assert (P (run_state r0)) as HP by (destruct Hf as [-> _]; done). clear Hf.
  induction Hs as [|r1 r2 r3 H12 _ IH]; [done|].
  apply IH; [by apply (rt_step_durable r1)|]. destruct H12 as [r cmd method r' out Hm _ Hlt Hr|r _|r r' Ho].
  - pose proof Hd as [_ Hn Hi _ _ _].
    destruct (command_commits r cmd method r' out) as [->|[(cl & pl & Hex & _ & ->) _]]; [done..|].
    cbn. rw u64_add_small; [lia|]. by apply Hnext.
  - unfold Runtime_Checkpoint. destruct (SaveCheckpoint _ _); [|done].
    destruct (TruncateWAL _ _); [|done]. cbn. by apply (Hrec _ _ (recovers_clear _)).
  - destruct (restart_durable r r' Hd Ho) as [_ Hr]. by apply (Hrec _ _ Hr).
Qed.
End runs.
