(* ===== verification/RuntimeTheorems.v ===== *)
(** * The theorems of the coordinator runtime

    Recovery, retries, versions, the cluster invariant, pending work and
    liveness, for every runtime reachable from an empty store. *)

From S2P Require Import Prelude.
From S2P Require Import CoordTypes.
From S2P Require Import Placement.
From S2P Require Import Reconfig.
From S2P Require Import ReconfigProps.
From S2P Require Import PlanTheorems.
From S2P Require Import StorageTypes.
From S2P Require Import RuntimeTypes.
From S2P Require Import Runtime.
From S2P Require Import RuntimeProps.

Open Scope Z_scope.

(** ** A concrete run: bootstrap, heartbeat, checkpoint, node failure *)
Definition bootstrap_command : Command :=
  {| cmd_ID := "boot"; cmd_ExpectedVersion := 0; cmd_Kind := CommandKindBootstrap;
     cmd_Bootstrap :=
       Some {| boot_Config := {| config_SlotCount := 1; config_ReplicationFactor := 2 |};
               boot_Nodes := take 3 demo_nodes; boot_Policy := no_budget |};
     cmd_Reconfigure := None; cmd_Progress := None; cmd_NodeReady := None;
     cmd_Heartbeat := None; cmd_Liveness := None; cmd_AcknowledgeOutbox := None |}.

Definition reconfigure_command (id : string) (version : Z) (events : list Event) : Command :=
  {| cmd_ID := id; cmd_ExpectedVersion := version; cmd_Kind := CommandKindReconfigure;
     cmd_Bootstrap := None;
     cmd_Reconfigure := Some {| reconf_Events := events; reconf_Policy := no_budget |};
     cmd_Progress := None; cmd_NodeReady := None;
     cmd_Heartbeat := None; cmd_Liveness := None; cmd_AcknowledgeOutbox := None |}.

Definition empty_store : InMemoryStore := {| mem_checkpoint := None; mem_wal := [] |}.
Definition fresh : Runtime InMemoryStore :=
  {| run_store := empty_store; run_state := zeroRuntimeState |}.

Definition failed_call : Runtime InMemoryStore * State := (fresh, zeroRuntimeState).
Definition booted : Runtime InMemoryStore * State := ok_or failed_call (Bootstrap fresh bootstrap_command).
Definition checkpointed : Runtime InMemoryStore := (Runtime_Checkpoint booted.1).1.
Definition degraded : Runtime InMemoryStore * State :=
  ok_or failed_call (Reconfigure checkpointed (reconfigure_command "kill-a" 1 [kill "a"])).

(** Clusters of the runtime: not yet bootstrapped, or well formed. *)
Definition runtime_cluster (c : ClusterState) : Prop :=
  cs_SlotCount c = 0 \/ cluster_wf c.

(** The version counts the logged commands, and bounds the applied ones. *)
Record versions_ok (st : State) : Prop := {
  ver_index : rt_Version st = rt_LastLogIndex st;
  ver_bound : 0 <= rt_Version st < u64_mod;
  ver_applied : forall id ap, rt_AppliedCommands st !! id = Some ap ->
    cmd_ID (ap_Command ap) = id /\ ap_LastLogIndex ap = ap_Version ap /\
    1 <= ap_Version ap <= rt_Version st;
  ver_inj : forall id id' ap ap', rt_AppliedCommands st !! id = Some ap ->
    rt_AppliedCommands st !! id' = Some ap' -> ap_Version ap = ap_Version ap' -> id = id';
}.

(** The applied commands of a later state: the old ones, and newer ones. *)
Record grew (st st' : State) : Prop := {
  gr_keep : rt_AppliedCommands st ⊆ rt_AppliedCommands st';
  gr_new : forall id ap, rt_AppliedCommands st' !! id = Some ap ->
    rt_AppliedCommands st !! id = Some ap \/ rt_Version st < ap_Version ap;
  gr_version : rt_Version st <= rt_Version st';
}.

Section theorems.
Context {S : Type} `{StoreLaws S}.

(** C15. Recovery is a refinement: after any sequence of commands, checkpoints
    (complete, or cut short by a store failure) and restarts from an empty
    store, opening the store fails only when a load fails, and otherwise
    rebuilds the live state.  The only thing recovery may miss are
    applied-command entries that an interrupted checkpoint already dropped
    from the durable copy. *)
Theorem recovery_refines (r : Runtime S) :
  rt_reachable r ->
  Open (run_store r) = Err ErrStore \/
  exists r', Open (run_store r) = Ok r' /\ run_store r' = run_store r /\
    recovers (run_state r) (run_state r').
Proof.
  intros Hr%rt_reachable_durable. destruct (Open_durable r Hr) as [?|(rec & Ho & _ & Hrec)]; [by left|].
  right. by exists {| run_store := run_store r; run_state := rec |}.
Qed.

End theorems.

(** The entry a command leaves. *)
Lemma next_applied st i cmd cluster plan :
  exists ap,
    rt_AppliedCommands (nextStateForApplied st i cmd cluster plan) =
      <[cmd_ID cmd := ap]> (rt_AppliedCommands st) /\
    ap_Command ap = cmd /\ ap_Version ap = u64_add (rt_Version st) 1 /\ ap_LastLogIndex ap = i /\
    forall st', clear_applied (snapshotForApplied st' ap) =
      clear_applied (nextStateForApplied st i cmd cluster plan).
Proof.
  unfold nextStateForApplied. cbn -[nextClusterState cloneClusterState cloneCommand].
  rw map_fmap_id cloneCommand_id. eexists. split; [done|]. cbn -[nextClusterState cloneClusterState cloneNodeLivenessMap cloneOutbox].
  split_and!; [done..|]. intros st'. unfold clear_applied, snapshotForApplied.
  cbn -[nextClusterState cloneClusterState cloneNodeLivenessMap cloneOutbox]. rw cloneClusterState_idemp.
  rw (cloneClusterState_id (nextClusterState _ _)); [apply nextClusterState_ready|].
  by rw /cloneSlotVersions /cloneCompletedProgressMap /clonePendingMap !clone_map_id
    !cloneNodeLivenessMap_id !cloneOutbox_id.
Qed.

Lemma next_versions st cmd cluster plan :
  rt_AppliedCommands st !! cmd_ID cmd = None -> versions_ok st -> rt_LastLogIndex st < u64_mod - 1 ->
  versions_ok (nextStateForApplied st (rt_LastLogIndex st + 1) cmd cluster plan) /\
  grew st (nextStateForApplied st (rt_LastLogIndex st + 1) cmd cluster plan).
Proof.
  intros Hnone [Hi Hb Ha Hinj] Hlt.
  destruct (next_applied st (rt_LastLogIndex st + 1) cmd cluster plan) as (ap & Happ & Hc & Hv & Hl & _).
  assert (rt_Version (nextStateForApplied st (rt_LastLogIndex st + 1) cmd cluster plan) =
          rt_Version st + 1) as Hv' by (apply u64_add_small; lia).
  rw u64_add_small in Hv; [lia|].
  assert (forall id ap', <[cmd_ID cmd := ap]> (rt_AppliedCommands st) !! id = Some ap' ->
    id = cmd_ID cmd /\ ap' = ap \/ rt_AppliedCommands st !! id = Some ap') as Hcase.
  { intros id ap'. rw lookup_insert_Some. intros [[<- <-]|[_ ?]]; auto. }
  split; constructor; rw ?Hv' ?Happ; try done.
  - cbn. lia.
  - lia.
  - intros id ap' [[-> ->]|Hold]%Hcase; [rw Hc Hl Hv; split_and!; [done|lia..]|].
    destruct (Ha _ _ Hold) as (? & ? & ?). split_and!; [done..|lia|lia].
  - intros id id' ap1 ap2 [[-> ->]|H1]%Hcase [[-> ->]|H2]%Hcase; [done|..].
    + destruct (Ha _ _ H2) as (_ & _ & ?). lia.
    + destruct (Ha _ _ H1) as (_ & _ & ?). lia.
    + by apply (Hinj _ _ ap1 ap2).
  - by apply insert_subseteq.
  - intros id ap' [[-> ->]|?]%Hcase; [right; lia|by left].
  - lia.
Qed.

Lemma recovers_versions live rec : recovers live rec -> versions_ok live -> versions_ok rec.
Proof.
  intros [Hf Ha] [Hi Hb Hap Hinj]. unfold clear_applied in Hf. injection Hf as Hv Hx _ _ _ _ _ _ _.
  constructor; rw ?Hv ?Hx //.
  - intros id ap Hid. by apply Hap, (lookup_weaken _ _ _ _ Hid).
  - intros id id' ap ap' H1 H2. exact (Hinj _ _ _ _ (lookup_weaken _ _ _ _ H1 Ha) (lookup_weaken _ _ _ _ H2 Ha)).
Qed.

Section retries.
Context {S : Type} `{StoreLaws S}.

Lemma reachable_versions_ok (r : Runtime S) : rt_reachable r -> versions_ok (run_state r).
Proof.
  apply rt_reachable_ind.
  - constructor; [done|done|done|done].
  - intros st cmd cluster plan _ Hv Hex Hi. apply next_versions; [|done|lia].
    by apply (execute_fresh _ _ _ _ Hex).
  - apply recovers_versions.
Qed.

(** A command served by its method. *)
Definition command_step (r r' : Runtime S) : Prop :=
  exists cmd method out, accepts (cmd_Kind cmd) method /\ admits_command cmd /\
    rt_LastLogIndex (run_state r) < u64_mod - 1 /\ method r cmd = Ok (r', out).

Lemma command_step_reachable r r' : rt_reachable r -> command_step r r' -> rt_reachable r'.
Proof.
  intros (r0 & Hf & Hs) (cmd & method & out & Hm & Hadm & Hlt & Hr). exists r0. split; [done|].
  apply (rtc_r _ r); [done|]. by apply (step_command r cmd method r' out).
Qed.

Lemma command_step_grew r r' : rt_reachable r -> command_step r r' -> grew (run_state r) (run_state r').
Proof.
  intros Hr (cmd & method & out & Hm & _ & Hlt & Hs). pose proof (rt_reachable_durable _ Hr) as Hd.
  destruct (command_commits r cmd method r' out) as [->|[(cl & pl & Hex & _ & ->) _]];
    [by destruct Hd|done..| |].
  - constructor; [done|by left|lia].
  - pose proof (reachable_versions_ok _ Hr) as Hv. cbn. rw u64_add_small; [destruct Hv; lia|].
    apply next_versions; [|done|lia]. by apply (execute_fresh _ _ _ _ Hex).
Qed.

Lemma grew_trans a b c : grew a b -> grew b c -> grew a c.
Proof.
  intros [Hk1 Hn1 Hv1] [Hk2 Hn2 Hv2]. constructor; [exact (transitivity Hk1 Hk2)| |lia].
  intros id ap [Hid|?]%Hn2; [by apply Hn1|right; lia].
Qed.

Lemma command_steps_grew r r' :
  rt_reachable r -> rtc command_step r r' -> grew (run_state r) (run_state r') /\ rt_reachable r'.
Proof.
  intros Hr Hs. revert Hr. induction Hs as [r|r1 r2 r3 H12 _ IH]; intros Hr.
  - split; [|done]. constructor; [done|by left|lia].
  - destruct IH as [Hg Hr3]; [by apply (command_step_reachable r1)|]. split; [|done].
    apply (grew_trans _ (run_state r2)); [by apply command_step_grew|done].
Qed.

(** Every method answers a duplicate from the applied entry. *)
Lemma method_duplicate (r : Runtime S) cmd method ap :
  accepts (cmd_Kind cmd) method -> validateCommand (run_state r) cmd = Ok (Some ap) ->
  method r cmd = Ok (r, snapshotForApplied (run_state r) ap).
Proof.
  intros Hm Hv. destruct (cmd_Kind cmd) eqn:Hk; cbn in Hm; try done; subst method;
    unfold Bootstrap, Reconfigure, Runtime_ApplyProgress, MarkNodeReady, Heartbeat, ApplyLiveness,
      AcknowledgeOutbox, apply_cluster, apply_same_cluster, executeCommand; by rw Hv.
Qed.
End retries.

Lemma validate_applied st cmd ap :
  validateCommandPayload cmd = Ok tt -> cmd_ID cmd <> "" -> normal st ->
  rt_AppliedCommands st !! cmd_ID cmd = Some ap -> ap_Command ap = cmd ->
  validateCommand st cmd = Ok (Some ap).
Proof.
  intros Hp Hid Hn Hap Hc. unfold validateCommand.
  rw (proj2 (String.eqb_neq _ _) Hid) Hp Hap cloneCommand_id bool_decide_true //. cbn.
  by rw (norm_applied _ Hn _ _ Hap).
Qed.

Lemma execute_valid st cmd cluster plan :
  executeCommand st cmd = Ok (Executed cluster plan) ->
  validateCommandPayload cmd = Ok tt /\ cmd_ID cmd <> "".
Proof.
  unfold executeCommand, validateCommand. intros (d & Hd & _)%bind_Ok.
  apply bind_Ok in Hd as (? & Hid & Hd). apply bind_Ok in Hd as ([] & Hp & _).
  split; [done|]. apply reject_Ok in Hid as [Hid _]. by apply String.eqb_neq.
Qed.

Lemma state_ext a b :
  clear_applied a = clear_applied b -> rt_AppliedCommands a = rt_AppliedCommands b -> a = b.
Proof. destruct a, b. unfold clear_applied. cbn. intros [= -> -> -> -> -> -> -> -> ->] ->. done. Qed.

Lemma snapshot_at st1 st2 ap :
  (forall id ap', rt_AppliedCommands st1 !! id = Some ap' -> ap_Version ap' <= ap_Version ap) ->
  rt_Version st1 = ap_Version ap -> normal st2 -> grew st1 st2 ->
  clear_applied (snapshotForApplied st2 ap) = clear_applied st1 ->
  snapshotForApplied st2 ap = st1.
Proof.
  intros Hle Hv Hn [Hk Hnew _] Hc.
  assert (rt_AppliedCommands (snapshotForApplied st2 ap) = rt_AppliedCommands st1) as Ha.
  { cbn. rw clone_applied_map_id; [intros k x [Hx _]%map_lookup_filter_Some; exact (norm_applied _ Hn _ _ Hx)|].
    apply map_eq. intros id. apply option_eq. intros x. rw map_lookup_filter_Some. split.
    - intros [[?|?]%Hnew Hx]; [done|lia].
    - intros Hid. split; [exact (lookup_weaken _ _ _ _ Hid Hk)|exact (Hle _ _ Hid)]. }
  by apply state_ext.
Qed.

Section more.
Context {S : Type} `{StoreLaws S}.

(** C26. Commands are applied once: when a call has logged a command and any
    commands have been served since, calling the same method with the same
    command again changes nothing and returns the very state the first call
    returned. *)
Theorem retry_returns_same (r : Runtime S) cmd method r1 out r2 :
  rt_reachable r -> accepts (cmd_Kind cmd) method -> admits_command cmd ->
  rt_LastLogIndex (run_state r) < u64_mod - 1 -> method r cmd = Ok (r1, out) ->
  rt_LastLogIndex (run_state r1) <> rt_LastLogIndex (run_state r) ->
  rtc command_step r1 r2 ->
  method r2 cmd = Ok (r2, out).
Proof.
  intros Hr Hm Hadm Hlt Hcall Hlogged Hsteps. pose proof (rt_reachable_durable _ Hr) as Hd.
  assert (command_step r r1) as Hstep by (exists cmd, method, out; done).
  pose proof (command_step_reachable _ _ Hr Hstep) as Hr1.
  destruct (command_steps_grew _ _ Hr1 Hsteps) as [Hg Hr2].
  pose proof (du_normal _ (rt_reachable_durable _ Hr2)) as Hn2.
  destruct (command_commits r cmd method r1 out) as [->|[(cl & pl & Hex & _ & Hst) ->]];
    [by destruct Hd|done..|].
  destruct (execute_valid _ _ _ _ Hex) as [Hp Hid]. cbn in Hst.
  destruct (next_applied (run_state r) (u64_add (rt_LastLogIndex (run_state r)) 1) cmd cl pl)
    as (ap & Happ & Hc & Hv & _ & Hsnap). rw -Hst in Happ, Hsnap.
  assert (rt_AppliedCommands (run_state r1) !! cmd_ID cmd = Some ap) as Hap by rw Happ lookup_insert_eq //.
  assert (rt_Version (run_state r1) = ap_Version ap) as Hv1 by rw Hst Hv //.
  rw (method_duplicate r2 cmd method ap) //.
  - apply validate_applied; try done. exact (lookup_weaken _ _ _ _ Hap (gr_keep _ _ Hg)).
  - rw cloneState_id; [by apply du_normal, rt_reachable_durable|]. do 2 f_equal.
    apply snapshot_at; try done. intros id ap' Hid'. rw -Hv1.
    by apply (ver_applied _ (reachable_versions_ok _ Hr1) id ap').
Qed.

(** The version numbers of the runtime: the version is the index of the
    last logged command, every remembered command has its own version between
    1 and the current one, and is filed under its own ID. *)
Theorem runtime_versions (r : Runtime S) : rt_reachable r -> versions_ok (run_state r).
Proof. apply reachable_versions_ok. Qed.
End more.

Lemma demo_reachable :
  rt_reachable booted.1 /\ rt_reachable checkpointed /\ rt_reachable degraded.1 /\
  rtc command_step checkpointed degraded.1.
Proof.
  assert (rt_step fresh booted.1) as H1.
  { apply (step_command fresh bootstrap_command Bootstrap booted.1 booted.2); [done|done|done|].
    rw -surjective_pairing. by apply ok_or_Ok; vm_compute. }
  assert (rt_step booted.1 checkpointed) as H2 by by apply step_checkpoint.
  assert (command_step checkpointed degraded.1) as H3.
  { exists (reconfigure_command "kill-a" 1 [kill "a"]), Reconfigure, degraded.2.
    split_and!; [done|done|by vm_compute|]. rw -surjective_pairing. by apply ok_or_Ok; vm_compute. }
  assert (rt_reachable checkpointed) as Hc.
  { exists fresh. split; [done|]. exact (rtc_l _ _ _ _ H1 (rtc_once _ _ H2)). }
  split_and!; [|done| |by apply rtc_once].
  - exists fresh. split; [done|]. by apply rtc_once.
  - by apply (command_step_reachable checkpointed).
Qed.

Lemma recovery_refines_witness :
  exists r', Open (run_store degraded.1) = Ok r' /\ recovers (run_state degraded.1) (run_state r').
Proof.
  destruct (recovery_refines degraded.1) as [He|(r' & Ho & _ & Hr)].
  - apply demo_reachable.
  - exfalso. assert (ok_or fresh (Open (run_store degraded.1)) = fresh) as Hx by rw He //.
    apply (f_equal (fun r => rt_Version (run_state r))) in Hx. vm_compute in Hx. discriminate Hx.
  - exists r'. split; assumption.
Defined.

Lemma retry_returns_same_witness :
  Reconfigure degraded.1 (reconfigure_command "kill-a" 1 [kill "a"]) = Ok degraded.
Proof.
  rw (retry_returns_same checkpointed (reconfigure_command "kill-a" 1 [kill "a"]) Reconfigure
    degraded.1 degraded.2 degraded.1).
  - apply demo_reachable.
  - reflexivity.
  - exact I.
  - vm_compute. reflexivity.
  - rw -surjective_pairing. apply ok_or_Ok. vm_compute. reflexivity.
  - vm_compute. discriminate.
  - apply rtc_refl.
  - by destruct degraded.
Defined.

Lemma runtime_versions_witness : versions_ok (run_state degraded.1).
Proof. apply (runtime_versions degraded.1). apply demo_reachable. Defined.

(** ** The cluster, pending work and the outbox *)
Lemma ready_wf c m : cluster_wf c -> cluster_wf (set_ReadyNodeIDs c m).
Proof. intros [? ? ? ? ? ? ? ?]. by constructor. Qed.

Lemma clone_runtime_cluster c : runtime_cluster c -> runtime_cluster (cloneClusterState c).
Proof. rw cloneClusterState_eq. intros [?|?]; [by left|right]. by apply ready_wf. Qed.

Lemma next_runtime_cluster c cmd : runtime_cluster c -> runtime_cluster (nextClusterState c cmd).
Proof.
  assert (forall c id, runtime_cluster c -> runtime_cluster (mark_ready c id)) as Hm.
  { intros c' id H. unfold mark_ready. destruct (is_dead _ _); [done|].
    destruct H as [?|?]; [by left|right]. by apply ready_wf. }
  intros H%clone_runtime_cluster. unfold nextClusterState.
  destruct (cmd_Kind cmd), (cmd_NodeReady cmd), (cmd_Heartbeat cmd); auto.
Qed.

Lemma lift_planner_sat {A} (Q : A -> Prop) (r : res coord_error A) :
  res_sat Q no_panic r ->
  res_sat Q (fun e => exists e', e = ErrPlanner e' /\ no_panic e') (lift_planner r).
Proof. destruct r; cbn; [done|]. intros He. by eexists. Qed.

(** Errors that are answers, not crashes. *)
Definition no_crash (e : runtime_error) : Prop := e <> NilDereference /\ e <> ErrPlanner GoPanic.

Lemma planner_no_crash e : (exists e', e = ErrPlanner e' /\ no_panic e') -> no_crash e.
Proof. intros (e' & -> & He). split; [done|]. intros [= ->]. done. Qed.

Lemma validate_no_crash st cmd : res_sat (fun _ => validateCommandPayload cmd = Ok tt) no_crash (validateCommand st cmd).
Proof.
  unfold validateCommand. destruct (String.eqb (cmd_ID cmd) ""); [by split|].
  cbn. destruct (validateCommandPayload cmd) as [[]|e] eqn:Hp.
  - cbn. unfold reject. repeat case_match; simplify_eq; cbn; by repeat split.
  - cbn. revert Hp. unfold validateCommandPayload, no_crash.
    destruct (cmd_Kind cmd), (cmd_Bootstrap cmd), (cmd_Reconfigure cmd), (cmd_Progress cmd),
      (cmd_NodeReady cmd), (cmd_Heartbeat cmd), (cmd_Liveness cmd), (cmd_AcknowledgeOutbox cmd);
      cbn; unfold reject; repeat case_match; intros; simplify_eq; done.
Qed.

Lemma BuildInitialPlacement_ok cfg nodes :
  res_sat cluster_wf no_panic (BuildInitialPlacement cfg nodes).
Proof.
  apply (res_sat_mono (fun c => BuildInitialPlacement cfg nodes = Ok c) _ no_panic _);
    [|by intros c Hc; apply (BuildInitialPlacement_wf cfg nodes)|done].
  assert (res_sat (fun _ => True) no_panic (BuildInitialPlacement cfg nodes)) as H;
    [|by destruct (BuildInitialPlacement cfg nodes)].
  assert (forall A B f (l : list A) (b : B), (forall b a, res_sat (fun _ => True) no_panic (f b a)) ->
    res_sat (fun _ => True) no_panic (res_fold f b l)) as Hfold.
  { intros A B f l b Hf. by apply res_fold_sat. }
  assert (forall A B (m : res coord_error A) (k : A -> res coord_error B),
    res_sat (fun _ => True) no_panic m -> (forall a, res_sat (fun _ => True) no_panic (k a)) ->
    res_sat (fun _ => True) no_panic (m ≫= k)) as Hbind.
  { intros A B m k Hm Hk. by apply (res_sat_bind _ (fun _ => True)). }
  assert (forall b e, no_panic e -> res_sat (fun _ => True) no_panic (reject b e)) as Hrej.
  { intros. by apply res_sat_reject. }
  unfold BuildInitialPlacement, validateConfig, normalizeNodes, buildSteadyStateChains.
  apply Hbind; [apply Hbind; intros; by apply Hrej|]. intros _. case_bool_decide; [done|].
  apply Hbind.
  - apply Hbind; [by apply Hrej|]. intros _. apply Hfold. intros [[ns byID] order] node.
    unfold normalizeNodes_step, normalizeFailureDomains.
    apply Hbind; [by apply Hrej|]. intros _. apply Hbind; [by apply Hrej|]. intros _.
    apply Hbind; [|done]. apply Hfold. intros acc [k v].
    apply Hbind; [by apply Hrej|]. intros _. by apply Hbind; [apply Hrej|].
  - intros [[ns byID] order]. apply Hbind; [by apply Hrej|]. intros _. apply Hbind; [|done].
    apply Hbind; [|by intros []]. apply Hfold. intros [counts chains] slot. unfold buildSlot.
    apply Hbind; [|by intros []]. apply Hfold. intros [c cs] pos. unfold fillPosition.
    by destruct (selectReplicaCandidate _ _ _ _).
Qed.

Lemma execute_ok st cmd :
  runtime_cluster (rt_Cluster st) ->
  res_sat (fun ex => match ex with Duplicate _ => True | Executed c _ => runtime_cluster c end)
    no_crash (executeCommand st cmd).
Proof.
  intros Hc. unfold executeCommand. eapply res_sat_bind; [apply validate_no_crash|].
  intros d _ Hp. destruct d as [ap|]; [done|]. pose proof (clone_runtime_cluster _ Hc) as Hc'.
  assert (isInitialized st = true -> input_wf (cloneClusterState (rt_Cluster st))) as Hin.
  { intros Hi. apply cluster_input_wf. unfold isInitialized in Hi. apply Z.ltb_lt in Hi.
    rw cloneClusterState_eq. destruct Hc as [?|?]; [lia|by apply ready_wf]. }
  assert (forall A (r : res coord_error A) Q (k : A -> res runtime_error execution),
    res_sat Q no_panic r -> (forall a, Q a -> exists c p, k a = Ok (Executed c p) /\ runtime_cluster c) ->
    res_sat (fun ex => match ex with Duplicate _ => True | Executed c _ => runtime_cluster c end)
      no_crash (lift_planner r ≫= k)) as Hplan.
  { intros A r Q k Hr Hk. eapply res_sat_bind.
    - eapply res_sat_mono; [exact (lift_planner_sat Q r Hr)|exact (fun _ H => H)|apply planner_no_crash].
    - intros a _ (c & p & -> & Hcp)%Hk. done. }
  unfold validateCommandPayload in Hp. destruct (cmd_Kind cmd); try done.
  - destruct (isInitialized st); [by split|]. destruct (cmd_Bootstrap cmd) as [b|]; [|done]. cbn.
    apply (Hplan _ _ cluster_wf); [apply BuildInitialPlacement_ok|]. intros c Hw. do 2 eexists.
    split; [done|]. apply clone_runtime_cluster. by right.
  - destruct (isInitialized st); [|by split]. destruct (cmd_Reconfigure cmd) as [b|]; [|done]. cbn.
    eapply Hplan; [by apply PlanReconfiguration_ok, Hin|]. intros c [Hw _]. do 2 eexists.
    split; [done|]. apply clone_runtime_cluster. by right.
  - destruct (isInitialized st); [|by split]. destruct (cmd_Progress cmd) as [b|]; [|done]. cbn.
    eapply Hplan; [by apply ApplyProgress_ok, Hin|]. intros c Hw. do 2 eexists.
    split; [done|]. apply clone_runtime_cluster. by right.
  - destruct (isInitialized st); [|by split]. destruct (cmd_NodeReady cmd) as [b|]; [|done]. cbn.
    destruct (String.eqb _ _); [by split|done].
  - destruct (cmd_Liveness cmd) as [b|]; [|done]. cbn. destruct (String.eqb _ _); [by split|done].
  - destruct (isInitialized st); [|by split]. destruct (cmd_AcknowledgeOutbox cmd) as [b|]; [|done]. cbn.
    by destruct (outboxEntriesExist _ _).
Qed.

(** Pending work and outbox entries carry the version of their slot; the
    history of a slot is bounded. *)
Record slots_ok (st : State) : Prop := {
  so_pending : forall slot w, rt_PendingBySlot st !! slot = Some w ->
    pw_Slot w = slot /\ pw_NodeID w <> "" /\ rt_SlotVersions st !! slot = Some (pw_SlotVersion w);
  so_outbox : forall e, e ∈ rt_Outbox st ->
    match ob_Kind e with
    | OutboxCommandKindMarkReplicaLeaving => ob_Assignment e = noAssignment
    | _ => rt_SlotVersions st !! ob_Slot e = Some (asg_ChainVersion (ob_Assignment e))
    end;
  so_history : forall slot records, rt_CompletedProgressBySlot st !! slot = Some records ->
    (1 <= length records <= completedProgressHistoryLimit)%nat;
}.

Lemma bumped_versions (current : gmap Z Z) (plans : list SlotPlan) (next : gmap Z Z) slot :
  foldl (fun next sp => <[plan_Slot sp := u64_add (slot_version current (plan_Slot sp)) 1]> next)
    next plans !! slot =
  (if bool_decide (slot ∈ plan_Slot <$> plans) then Some (u64_add (slot_version current slot) 1)
   else next !! slot).
Proof.
  revert next. induction plans as [|p plans IH]; intros next; cbn [foldl]; [done|]. rw IH.
  assert (slot ∈ plan_Slot <$> (p :: plans) <-> slot = plan_Slot p \/ slot ∈ plan_Slot <$> plans) as Hiff.
  { by rw fmap_cons elem_of_cons. }
  rw (bool_decide_ext _ _ Hiff). destruct (decide (slot ∈ plan_Slot <$> plans)) as [Hi|Hi].
  - rw (bool_decide_true (_ \/ _)); [by right|]. rw bool_decide_true //.
  - rw (bool_decide_false (slot ∈ _)); [done|]. destruct (decide (slot = plan_Slot p)) as [->|Hne].
    + rw bool_decide_true; [by left|]. by rw lookup_insert_eq.
    + rw bool_decide_false; [by intros [?|?]|]. by rw lookup_insert_ne; [congruence|].
Qed.

Lemma pendingFromPlan_lookup current versions plan slot w :
  pendingFromPlan current versions plan !! slot = Some w ->
  ((slot ∉ (plan_Slot <$> rp_ChangedSlots plan)) /\ current !! slot = Some w) \/
  exists sp, sp ∈ rp_ChangedSlots plan /\ plan_Slot sp = slot /\ pendingForSlotPlan versions sp = Some w.
Proof.
  unfold pendingFromPlan, clonePendingMap. rw clone_map_id. generalize (rp_ChangedSlots plan). intros plans.
  induction plans as [|sp plans IH] using rev_ind; [intros; left; split; [apply not_elem_of_nil|done]|].
  rw foldl_snoc. cbn -[pendingForSlotPlan]. rw fmap_app. intros Hl.
  destruct (decide (slot = plan_Slot sp)) as [->|Hne].
  - right. exists sp. split; [apply elem_of_app; right; by left|]. split; [done|].
    destruct (pendingForSlotPlan versions sp); [|by rw lookup_delete_eq in Hl].
    by rw lookup_insert_eq in Hl.
  - assert (foldl (fun next sp0 =>
      match pendingForSlotPlan versions sp0 with
      | Some work => <[plan_Slot sp0 := work]> (delete (plan_Slot sp0) next)
      | None => delete (plan_Slot sp0) next
      end) current plans !! slot = Some w) as Hl'.
    { rw -Hl. destruct (pendingForSlotPlan versions sp); [rw lookup_insert_ne; [congruence|]|];
        by rw lookup_delete_ne; [congruence|]. }
    destruct (IH Hl') as [[Hn Hc]|(sp' & Hin & Hs)].
    + left. split; [|done]. rw not_elem_of_app. split; [done|]. by rw list_elem_of_singleton.
    + right. exists sp'. split; [apply elem_of_app; by left|done].
Qed.

Lemma pendingForSlotPlan_spec versions sp w :
  pendingForSlotPlan versions sp = Some w ->
  pw_Slot w = plan_Slot sp /\ pw_NodeID w <> "" /\ pw_SlotVersion w = slot_version versions (plan_Slot sp).
Proof.
  unfold pendingForSlotPlan. repeat case_match; intros; simplify_eq; cbn;
    match goal with H : String.eqb _ _ = false |- _ => apply String.eqb_neq in H end; done.
Qed.

Lemma assignmentForNode_version chain nodes id v a :
  assignmentForNode chain nodes id v = Some a -> asg_ChainVersion a = v.
Proof. unfold assignmentForNode. intros (i & _ & [= <-])%bind_Some. done. Qed.

Lemma outboxForSlotPlan_spec version versions nodes sp e :
  e ∈ outboxForSlotPlan version versions nodes sp -> ob_Slot e = plan_Slot sp /\
  match ob_Kind e with
  | OutboxCommandKindMarkReplicaLeaving => ob_Assignment e = noAssignment
  | _ => asg_ChainVersion (ob_Assignment e) = slot_version versions (plan_Slot sp)
  end.
Proof.
  unfold outboxForSlotPlan. destruct (distinctStepKinds _) as [|[] []]; try by intros ?%not_elem_of_nil.
  - destruct (String.eqb_spec (firstStepNodeID (plan_Steps sp) StepKindAppendTail) ""); [by intros ?%not_elem_of_nil|].
    destruct (assignmentForNode _ _ _ _) as [a|] eqn:Ha; [|by intros ?%not_elem_of_nil].
    intros ->%list_elem_of_singleton. cbn. split; [done|].
    by apply (assignmentForNode_version _ _ _ _ _ Ha).
  - destruct (String.eqb_spec (firstStepNodeID (plan_Steps sp) StepKindMarkLeaving) ""); [by intros ?%not_elem_of_nil|].
    intros [Hin| ->%list_elem_of_singleton]%elem_of_app; [|done].
    apply list_elem_of_omap in Hin as (id & Hid & Hl). apply fmap_Some in Hl as (a & Ha & ->). cbn.
    split; [done|]. by apply (assignmentForNode_version _ _ _ _ _ Ha).
Qed.

Lemma reconfigured_versions (current : gmap Z Z) cluster p slot :
  nextSlotVersions current CommandKindReconfigure cluster (Some p) !! slot =
  (if bool_decide (slot ∈ plan_Slot <$> rp_ChangedSlots p)
   then Some (u64_add (slot_version current slot) 1) else current !! slot).
Proof. unfold nextSlotVersions, cloneSlotVersions. rw clone_map_id. apply bumped_versions. Qed.

Lemma changed_slot_version (current : gmap Z Z) cluster p sp :
  sp ∈ rp_ChangedSlots p ->
  let versions := nextSlotVersions current CommandKindReconfigure cluster (Some p) in
  versions !! plan_Slot sp = Some (slot_version versions (plan_Slot sp)).
Proof.
  intros Hsp. cbv zeta. unfold slot_version at 1. rw reconfigured_versions bool_decide_true //.
  by apply list_elem_of_fmap_2.
Qed.

Lemma reconfigure_slots current_pending current_outbox (current : gmap Z Z) version cluster p :
  let versions := nextSlotVersions current CommandKindReconfigure cluster (Some p) in
  (forall slot w, current_pending !! slot = Some w ->
    pw_Slot w = slot /\ pw_NodeID w <> "" /\ current !! slot = Some (pw_SlotVersion w)) ->
  (forall e, e ∈ current_outbox ->
    match ob_Kind e with
    | OutboxCommandKindMarkReplicaLeaving => ob_Assignment e = noAssignment
    | _ => current !! ob_Slot e = Some (asg_ChainVersion (ob_Assignment e))
    end) ->
  (forall slot w, pendingFromPlan current_pending versions p !! slot = Some w ->
    pw_Slot w = slot /\ pw_NodeID w <> "" /\ versions !! slot = Some (pw_SlotVersion w)) /\
  (forall e, e ∈ outboxFromPlan current_outbox version versions cluster p ->
    match ob_Kind e with
    | OutboxCommandKindMarkReplicaLeaving => ob_Assignment e = noAssignment
    | _ => versions !! ob_Slot e = Some (asg_ChainVersion (ob_Assignment e))
    end).
Proof.
  intros versions Hp Ho. split.
  - intros slot w [[Hn Hw]|(sp & Hsp & <- & Hw)]%pendingFromPlan_lookup.
    + destruct (Hp _ _ Hw) as (? & ? & Hv). split_and!; [done..|].
      unfold versions. by rw reconfigured_versions bool_decide_false.
    + destruct (pendingForSlotPlan_spec _ _ _ Hw) as (-> & ? & ->). split_and!; [done..|].
      by apply changed_slot_version.
  - intros e. unfold outboxFromPlan. rw cloneOutbox_id elem_of_app. intros [He|He].
    + apply list_elem_of_In, List.filter_In in He as [He Hs]. apply list_elem_of_In in He.
      specialize (Ho e He). destruct (ob_Kind e); [|done|]; unfold versions;
        rw reconfigured_versions bool_decide_false //; intros Hin; revert Hs;
        rw bool_decide_true // elem_of_list_to_set //.
    + apply list_elem_of_bind in He as (sp & He & Hsp).
      destruct (outboxForSlotPlan_spec _ _ _ _ _ He) as [-> Hk].
      destruct (ob_Kind e); [|done|]; rw Hk; by apply changed_slot_version.
Qed.

Lemma bounded_history {A} (l : list A) :
  (1 <= length l)%nat ->
  (1 <= length (if (completedProgressHistoryLimit <? length l)%nat
                then drop (length l - completedProgressHistoryLimit) l else l)
     <= completedProgressHistoryLimit)%nat.
Proof.
  intros Hl. unfold completedProgressHistoryLimit in *.
  destruct (Nat.ltb_spec 8 (length l)); rw ?length_drop; lia.
Qed.

Lemma next_history current versions cmd :
  (forall slot records, current !! slot = Some records ->
    (1 <= length records <= completedProgressHistoryLimit)%nat) ->
  forall slot records, nextCompletedProgress current versions cmd !! slot = Some records ->
    (1 <= length records <= completedProgressHistoryLimit)%nat.
Proof.
  intros Hc. unfold nextCompletedProgress, cloneCompletedProgressMap. rw clone_map_id.
  destruct (cmd_Kind cmd); try exact Hc. destruct (cmd_Progress cmd) as [p|]; [|exact Hc].
  destruct (event_Kind _); try exact Hc; cbv zeta beta iota;
    (intros slot records [[<- <-]|[_ ?]]%lookup_insert_Some; [|by apply (Hc slot)]);
    apply bounded_history; rw length_app; cbn; lia.
Qed.

Lemma next_slots_ok st i cmd cluster plan :
  (cmd_Kind cmd <> CommandKindReconfigure -> plan = None) ->
  slots_ok st -> slots_ok (nextStateForApplied st i cmd cluster plan).
Proof.
  intros Hplan [Hp Ho Hh]. unfold nextStateForApplied. cbn zeta.
  constructor; cbn -[nextPending nextOutbox nextSlotVersions nextCompletedProgress];
    rw /cloneSlotVersions /cloneCompletedProgressMap /clonePendingMap ?clone_map_id ?cloneOutbox_id.
  3: by apply next_history.
  - unfold nextPending, clonePendingMap. rw clone_map_id. destruct (cmd_Kind cmd) eqn:Hk;
      try (rw (Hplan (ltac:(done))); unfold nextSlotVersions, cloneSlotVersions; rw clone_map_id; done).
    + done.
    + destruct plan as [p|]; [exact (proj1 (reconfigure_slots _ _ _ 0 cluster p Hp Ho))|].
      unfold nextSlotVersions, cloneSlotVersions. by rw clone_map_id.
    + unfold nextSlotVersions, cloneSlotVersions. rw clone_map_id. intros slot w.
      destruct (cmd_Progress cmd); [|apply Hp]. intros [_ ?]%lookup_delete_Some. by apply Hp.
  - unfold nextOutbox. rw cloneOutbox_id.
    assert (forall f e, e ∈ List.filter f (rt_Outbox st) -> e ∈ rt_Outbox st) as Hf.
    { intros f e [? _]%list_elem_of_In%List.filter_In. by apply list_elem_of_In. }
    destruct (cmd_Kind cmd) eqn:Hk;
      try (unfold nextSlotVersions, cloneSlotVersions; rw clone_map_id; done).
    + by intros e ?%not_elem_of_nil.
    + destruct plan as [p|]; [exact (proj2 (reconfigure_slots _ _ _ _ cluster p Hp Ho))|].
      unfold nextSlotVersions, cloneSlotVersions. by rw clone_map_id.
    + unfold nextSlotVersions, cloneSlotVersions. rw clone_map_id. intros e.
      destruct (cmd_Progress cmd); [intros ?%Hf|intros ?]; by apply Ho.
    + unfold nextSlotVersions, cloneSlotVersions. rw clone_map_id. intros e.
      destruct (cmd_AcknowledgeOutbox cmd); [intros ?%Hf|intros ?]; by apply Ho.
Qed.

(** A node declared dead stays so until a liveness command says otherwise. *)
Lemma observe_node_dead m s id rec :
  m !! id = Some rec -> nl_State rec = NodeLivenessStateDead ->
  exists rec', observe_node m s !! id = Some rec' /\ nl_State rec' = NodeLivenessStateDead /\
    nl_DeadActionFired rec' = nl_DeadActionFired rec.
Proof.
  intros Hm Hd. unfold observe_node. destruct (decide (status_NodeID (seen_Status s) = id)) as [<-|Hne].
  - rw lookup_insert_eq Hm. eexists. split; [done|]. cbn. unfold is_liveness. by rw bool_decide_true.
  - rw lookup_insert_ne //. by exists rec.
Qed.

Lemma mget_clone_true m id : mget (clone_true m) id = mget m id.
Proof.
  unfold mget, clone_true. destruct (m !! id) as [[]|] eqn:Hm.
  - rw (map_lookup_filter_Some_2 _ m id true); done.
  - rw map_lookup_filter_None_2; [right; intros x Hx; naive_solver|done].
  - rw map_lookup_filter_None_2; [by left|done].
Qed.

Section claims.
Context {S : Type} `{StoreLaws S}.

Lemma reachable_cluster (r : Runtime S) : rt_reachable r -> runtime_cluster (rt_Cluster (run_state r)).
Proof.
  apply (rt_reachable_ind (fun st => runtime_cluster (rt_Cluster st))).
  - by left.
  - intros st cmd cluster plan _ Hc Hex _. cbn. apply next_runtime_cluster, clone_runtime_cluster.
    exact (res_sat_Ok _ _ _ _ (execute_ok st cmd Hc) Hex).
  - intros live rec [Hf _]. unfold clear_applied in Hf. by injection Hf as _ _ -> _ _ _ _ _ _.
Qed.

(** Every cluster state a runtime reaches, through any sequence of
    commands, checkpoints and restarts, is the empty one or satisfies the
    planner's well-formedness invariant. *)
Theorem runtime_cluster_invariant (r : Runtime S) :
  rt_reachable r -> runtime_cluster (rt_Cluster (run_state r)).
Proof. apply reachable_cluster. Qed.

(** No command crashes a reachable runtime: executing any command, valid
    or not, ends without dereferencing a missing payload and without a panic
    in the planner. *)
Theorem executeCommand_no_crash (r : Runtime S) cmd :
  rt_reachable r ->
  executeCommand (run_state r) cmd <> Err NilDereference /\
  executeCommand (run_state r) cmd <> Err (ErrPlanner GoPanic).
Proof.
  intros Hr%reachable_cluster. pose proof (execute_ok _ cmd Hr) as H'.
  split; intros He; by destruct (res_sat_Err _ _ _ _ H' He).
Qed.

(** In a reachable runtime pending work is filed under its slot and
    carries the slot's current version, every outbox assignment carries the
    current version of its slot, and the progress history of a slot holds
    between 1 and 8 records. *)
Theorem runtime_slots (r : Runtime S) : rt_reachable r -> slots_ok (run_state r).
Proof.
  apply rt_reachable_ind.
  - constructor; [done|by intros e ?%not_elem_of_nil|done].
  - intros st cmd cluster plan _ Hs Hex _. apply next_slots_ok; [|done].
    intros Hk. by apply (execute_plan st cmd cluster).
  - intros live rec [Hf _] [Hp Ho Hh]. unfold clear_applied in Hf.
    injection Hf as _ _ _ Hs Hc _ Hpe Hou _. constructor; rw ?Hs ?Hc ?Hpe ?Hou; done.
Qed.
End claims.

(** Heartbeats and ready reports never resurrect a node: a node recorded
    dead is still dead, with its dead action still marked as fired, after any
    command other than a liveness verdict on it, and no command changes the
    ready flag of a node whose health is dead. *)
Theorem dead_is_sticky st i cmd cluster plan id rec :
  rt_NodeLivenessByID st !! id = Some rec -> nl_State rec = NodeLivenessStateDead ->
  (forall l, cmd_Liveness cmd = Some l -> live_NodeID l <> id) ->
  let st' := nextStateForApplied st i cmd cluster plan in
  (exists rec', rt_NodeLivenessByID st' !! id = Some rec' /\ nl_State rec' = NodeLivenessStateDead /\
    nl_DeadActionFired rec' = nl_DeadActionFired rec) /\
  (is_dead (cs_NodeHealthByID cluster) id = true ->
   mget (cs_ReadyNodeIDs (rt_Cluster st')) id = mget (cs_ReadyNodeIDs cluster) id).
Proof.
  intros Hm Hd Hl st'. split.
  - unfold st', nextStateForApplied. cbn -[nextNodeLiveness]. rw cloneNodeLivenessMap_id.
    unfold nextNodeLiveness. rw cloneNodeLivenessMap_id.
    destruct (cmd_Kind cmd); try by exists rec.
    + destruct (cmd_NodeReady cmd); [by apply observe_node_dead|by exists rec].
    + destruct (cmd_Heartbeat cmd); [by apply observe_node_dead|by exists rec].
    + destruct (cmd_Liveness cmd) as [l|]; [|by exists rec]. unfold judge_node.
      rw lookup_insert_ne; [by apply Hl|]. by exists rec.
  - intros Hdead. unfold st', nextStateForApplied. cbn -[nextClusterState cloneClusterState].
    unfold nextClusterState. rw cloneClusterState_idemp.
    assert (forall c id', is_dead (cs_NodeHealthByID c) id = true ->
      mget (cs_ReadyNodeIDs (mark_ready c id')) id = mget (cs_ReadyNodeIDs c) id) as Hmark.
    { intros c id' Hc. unfold mark_ready. destruct (is_dead (cs_NodeHealthByID c) id') eqn:Hid; [done|].
      cbn. unfold mget. rw lookup_insert_ne; congruence. }
    assert (mget (cs_ReadyNodeIDs (cloneClusterState cluster)) id = mget (cs_ReadyNodeIDs cluster) id) as Heq.
    { rw cloneClusterState_eq. apply mget_clone_true. }
    assert (is_dead (cs_NodeHealthByID (cloneClusterState cluster)) id = true) as Hdead'.
    { by rw cloneClusterState_eq. }
    by destruct (cmd_Kind cmd), (cmd_NodeReady cmd), (cmd_Heartbeat cmd); rw ?Hmark.
Qed.

Definition dead_record : NodeLivenessRecord :=
  {| nl_LastHeartbeatUnixNano := 5; nl_UpdatedAtUnixNano := 9; nl_State := NodeLivenessStateDead;
     nl_LastStatus := zeroNodeStatus; nl_DeadActionFired := true; nl_SuspectTransitionsUnixNano := [7] |}.
Definition heartbeat_command (node : string) (at_ : Z) : Command :=
  {| cmd_ID := "beat"; cmd_ExpectedVersion := 0; cmd_Kind := CommandKindHeartbeat;
     cmd_Bootstrap := None; cmd_Reconfigure := None; cmd_Progress := None; cmd_NodeReady := None;
     cmd_Heartbeat := Some {| seen_Status := {| status_NodeID := node; status_ReplicaCount := 0;
                                                status_ActiveCount := 0; status_CatchingUpCount := 0;
                                                status_LeavingCount := 0 |};
                              seen_ObservedAtUnixNano := at_; seen_FlapWindowNanos := 0 |};
     cmd_Liveness := None; cmd_AcknowledgeOutbox := None |}.
Definition with_dead (st : State) (id : string) : State :=
  {| rt_Version := rt_Version st; rt_LastLogIndex := rt_LastLogIndex st; rt_Cluster := rt_Cluster st;
     rt_SlotVersions := rt_SlotVersions st;
     rt_CompletedProgressBySlot := rt_CompletedProgressBySlot st;
     rt_NodeLivenessByID := {[ id := dead_record ]}; rt_PendingBySlot := rt_PendingBySlot st;
     rt_Outbox := rt_Outbox st; rt_LastPolicy := rt_LastPolicy st;
     rt_AppliedCommands := rt_AppliedCommands st |}.

Lemma dead_is_sticky_witness :
  let st' := nextStateForApplied (with_dead (run_state degraded.1) "a") 3 (heartbeat_command "a" 12)
    (rt_Cluster (run_state degraded.1)) None in
  exists rec', rt_NodeLivenessByID st' !! "a" = Some rec' /\ nl_State rec' = NodeLivenessStateDead.
Proof.
  destruct (dead_is_sticky (with_dead (run_state degraded.1) "a") 3 (heartbeat_command "a" 12)
    (rt_Cluster (run_state degraded.1)) None "a" dead_record) as [(rec' & Hr & Hd & _) _].
  - apply lookup_singleton_eq.
  - reflexivity.
  - intros l. discriminate.
  - exists rec'. split; assumption.
Defined.

Lemma runtime_cluster_invariant_witness : cluster_wf (rt_Cluster (run_state degraded.1)).
Proof.
  destruct (runtime_cluster_invariant degraded.1) as [He|Hw]; [apply demo_reachable| |exact Hw].
  vm_compute in He. discriminate He.
Defined.

Lemma executeCommand_no_crash_witness :
  executeCommand (run_state degraded.1) (heartbeat_command "a" 12) <> Err NilDereference.
Proof. apply (executeCommand_no_crash degraded.1 (heartbeat_command "a" 12)), demo_reachable. Defined.

Lemma runtime_slots_witness : slots_ok (run_state degraded.1).
Proof. apply (runtime_slots degraded.1), demo_reachable. Defined.

(** ** Several failures in one command *)
Definition wide_command : Command :=
  {| cmd_ID := "boot"; cmd_ExpectedVersion := 0; cmd_Kind := CommandKindBootstrap;
     cmd_Bootstrap :=
       Some {| boot_Config := {| config_SlotCount := 1; config_ReplicationFactor := 3 |};
               boot_Nodes := plain_node <$> ["a"; "b"; "c"; "d"; "e"]; boot_Policy := no_budget |};
     cmd_Reconfigure := None; cmd_Progress := None; cmd_NodeReady := None;
     cmd_Heartbeat := None; cmd_Liveness := None; cmd_AcknowledgeOutbox := None |}.

Definition two_failures : State :=
  (ok_or failed_call
    (Reconfigure (ok_or failed_call (Bootstrap fresh wide_command)).1
       (reconfigure_command "kill-two" 1 [kill "a"; kill "b"]))).2.

(** A batch of failures leaves one piece of pending work per slot: after one
    command that kills two of three members of a chain, both replacements are
    joining and both are told, at the same chain version, to be the tail, but
    only the second is pending work. *)
Theorem batched_failures_one_pending :
  (pw_NodeID <$> rt_PendingBySlot two_failures) = {[ 0 := "e" ]} /\
  ((fun e => (ob_NodeID e, asg_Role (ob_Assignment e), asg_ChainVersion (ob_Assignment e)))
     <$> rt_Outbox two_failures) = [("d", ReplicaRoleTail, 2); ("e", ReplicaRoleTail, 2)] /\
  (chain_Replicas <$> cs_Chains (rt_Cluster two_failures)) =
    [[as_active "c"; as_joining "d"; as_joining "e"]].
Proof. split_and!; vm_compute; reflexivity. Qed.

(** The variants of the progress and acknowledgement methods that return a
    version do to the runtime what the methods that return a state do, fail in
    the same cases, and return the version of that state. *)
Theorem version_methods_agree {S : Type} `{StoreOps S} (r : Runtime S) cmd :
  let to_version (x : Runtime S * State) : Runtime S * Z := (x.1, rt_Version x.2) in
  ApplyProgressVersion r cmd = (x ← Runtime_ApplyProgress r cmd; Ok (to_version x)) /\
  AcknowledgeOutboxVersion r cmd = (x ← AcknowledgeOutbox r cmd; Ok (to_version x)).
Proof.
  assert (forall cluster, (let '(record, nextState) := commitCandidate (run_state r) cmd cluster None in
    store ← AppendWAL (run_store r) record;
    Ok ({| run_store := store; run_state := nextState |}, rt_Version nextState)) =
    (x ← commit r cmd cluster None; Ok (x.1, rt_Version x.2))) as Hc.
  { intros cluster. unfold commit. destruct (commitCandidate _ _ _ _). cbn. by destruct (AppendWAL _ _). }
  split; unfold ApplyProgressVersion, Runtime_ApplyProgress, apply_cluster, AcknowledgeOutboxVersion,
    AcknowledgeOutbox, apply_same_cluster.
  - destruct (executeCommand _ _) as [[ap|cluster plan]|]; [done| |done]. apply Hc.
  - destruct (validateCommand _ _) as [[ap|]|]; [done| |done]. cbn.
    destruct (cmd_AcknowledgeOutbox cmd) as [a|]; [destruct (outboxEntriesExist _ _); [|done]|];
      (destruct (executeCommand _ _) as [[ap|cluster plan]|]; [done| |done]); apply Hc.
Qed.
