(* ===== verification/SlotReducer.v ===== *)
(** * The slot protocol reducers (src/storage/slot_reducer.go)

    The protocol state of one slot on one storage node, [replicaRecord], and
    the functions that every transition of it goes through, with the message
    checks of src/storage/storage.go they call. *)

From S2P Require Import Prelude.
From S2P Require Import StorageTypes.

Open Scope Z_scope.
Open Scope record_scope.

(** ** Errors

    The sentinel errors an operation wraps; [BackpressureError] keeps its
    fields, messages are not modelled. *)
Inductive RoutingMismatchReason :=
| RoutingMismatchReasonUnknownSlot
| RoutingMismatchReasonWrongVersion
| RoutingMismatchReasonWrongRole
| RoutingMismatchReasonInactiveReplica.

Inductive storage_error :=
| ErrPeerMismatch
| ErrProtocolConflict
| ErrSequenceMismatch
| ErrReplicaBackpressure (slot current limit : Z)
| ErrWriteBackpressure (slot current limit : Z)
| ErrCatchupBackpressure (current limit : Z)
| ErrWriteRejected
| ErrConditionFailed
| ErrStateMismatch
| ErrUnknownReplica
| ErrInvalidStorageConfig
| ErrBackend
| ReadDependencyError (slot expectedChainVersion : Z) (tailNodeID : string) (cause : storage_error)
| RoutingMismatchError (slot expectedChainVersion currentChainVersion : Z) (currentRole : ReplicaRole)
    (currentState : option StorageReplicaState) (reason : RoutingMismatchReason)
| ErrTransport
| ErrInvalidTransition
| ErrReplicaExists
| ErrSnapshotSourceUnavailable
| ErrContextCanceled.

(** ** State *)
Record expectedCommitSource := {
  ecs_FromNodeID : string;
  ecs_ChainVersion : Z;
}.

Record dirtyReadEntry := {
  dirty_Sequence : Z;
  dirty_Operation : WriteOperation;
}.

(** The waiter, a channel to the client's goroutine, is not modelled. *)
Record pendingWrite := {
  pending_completed : bool;
  pending_result : CommitResult;
  pending_operation : option WriteOperation;
}.

Record replicaRecord := {
  rr_assignment : ReplicaAssignment;
  rr_state : StorageReplicaState;
  rr_nextSequence : Z;
  rr_highestPreparedDurable : Z;
  rr_highestCommitTokenReceived : Z;
  rr_highestCommittedSequence : Z;
  rr_materializedCommittedSequence : Z;
  rr_highestUpstreamConfirmedSequence : Z;
  rr_localDataPresent : bool;
  rr_lastKnownState : StorageReplicaState;
  rr_pendingWrites : gmap Z pendingWrite;
  rr_preparedEntries : gmap Z WriteOperation;
  rr_expectedCommitSources : gmap Z expectedCommitSource;
  rr_stagedForwards : gmap Z ForwardWriteRequest;
  rr_bufferedForwards : gmap Z ForwardWriteRequest;
  rr_bufferedCommits : gmap Z CommitWriteRequest;
  rr_recentCommittedForwards : gmap Z ForwardWriteRequest;
  rr_recentCommittedCommits : gmap Z CommitWriteRequest;
  rr_recentForwardOrder : list Z;
  rr_recentCommitOrder : list Z;
  rr_dirtyByKey : gmap string (list dirtyReadEntry);
  rr_committedOverlay : gmap string dirtyReadEntry;
  rr_inFlightClientWrites : Z;
}.

#[export] Instance replicaRecord_rebuild : Rebuild replicaRecord := fun r =>
  {| rr_assignment := rr_assignment r; rr_state := rr_state r; rr_nextSequence := rr_nextSequence r;
     rr_highestPreparedDurable := rr_highestPreparedDurable r;
     rr_highestCommitTokenReceived := rr_highestCommitTokenReceived r;
     rr_highestCommittedSequence := rr_highestCommittedSequence r;
     rr_materializedCommittedSequence := rr_materializedCommittedSequence r;
     rr_highestUpstreamConfirmedSequence := rr_highestUpstreamConfirmedSequence r;
     rr_localDataPresent := rr_localDataPresent r; rr_lastKnownState := rr_lastKnownState r;
     rr_pendingWrites := rr_pendingWrites r; rr_preparedEntries := rr_preparedEntries r;
     rr_expectedCommitSources := rr_expectedCommitSources r;
     rr_stagedForwards := rr_stagedForwards r; rr_bufferedForwards := rr_bufferedForwards r;
     rr_bufferedCommits := rr_bufferedCommits r;
     rr_recentCommittedForwards := rr_recentCommittedForwards r;
     rr_recentCommittedCommits := rr_recentCommittedCommits r;
     rr_recentForwardOrder := rr_recentForwardOrder r; rr_recentCommitOrder := rr_recentCommitOrder r;
     rr_dirtyByKey := rr_dirtyByKey r; rr_committedOverlay := rr_committedOverlay r;
     rr_inFlightClientWrites := rr_inFlightClientWrites r |}.

Record slotProtocolBufferLimits := {
  perSlotLimit : Z;
  perNodeLimit : Z;
  nodeBufferedNow : Z;
}.

Inductive slotReducerAction :=
| slotReducerActionApply
| slotReducerActionBuffer
| slotReducerActionIgnore.

(** [slotForwardReduction] and [slotCommitReduction]. *)
Record slotReduction := {
  red_Record : replicaRecord;
  red_Action : slotReducerAction;
}.

(** ** Copies and comparisons *)
Definition cloneObjectMetadata (m : ObjectMetadata) : ObjectMetadata :=
  {| meta_Version := meta_Version m; meta_CreatedAt := meta_CreatedAt m;
     meta_UpdatedAt := meta_UpdatedAt m |}.

Definition cloneWriteOperation (op : WriteOperation) : WriteOperation :=
  {| op_Slot := op_Slot op; op_Sequence := op_Sequence op; op_Kind := op_Kind op;
     op_Key := op_Key op; op_Value := op_Value op; op_Metadata := cloneObjectMetadata (op_Metadata op) |}.

Definition cloneForwardRequest (req : ForwardWriteRequest) : ForwardWriteRequest :=
  {| fwd_Operation := cloneWriteOperation (fwd_Operation req); fwd_FromNodeID := fwd_FromNodeID req;
     fwd_ChainVersion := fwd_ChainVersion req |}.

Definition cloneCommitRequest (req : CommitWriteRequest) : CommitWriteRequest :=
  {| cw_Slot := cw_Slot req; cw_Sequence := cw_Sequence req; cw_FromNodeID := cw_FromNodeID req;
     cw_ChainVersion := cw_ChainVersion req |}.

Definition sameForwardRequestIgnoringChain (left right : ForwardWriteRequest) : bool :=
  String.eqb (fwd_FromNodeID left) (fwd_FromNodeID right) &&
  bool_decide (fwd_Operation left = fwd_Operation right).

Definition sameForwardRequest (left right : ForwardWriteRequest) : bool :=
  String.eqb (fwd_FromNodeID left) (fwd_FromNodeID right) &&
  (fwd_ChainVersion left =? fwd_ChainVersion right) &&
  bool_decide (fwd_Operation left = fwd_Operation right).

Definition sameCommitRequest (left right : CommitWriteRequest) : bool := bool_decide (left = right).

(** ** Who may send a message *)
Definition validateForwardSource (record : replicaRecord) (req : ForwardWriteRequest)
    : res storage_error unit :=
  let seq := op_Sequence (fwd_Operation req) in
  let peers := asg_Peers (rr_assignment record) in
  let version := asg_ChainVersion (rr_assignment record) in
  let '(expectedNodeID, expectedChainVersion) :=
    match rr_stagedForwards record !! seq, rr_bufferedForwards record !! seq,
          rr_recentCommittedForwards record !! seq with
    | Some existing, _, _ | None, Some existing, _ | None, None, Some existing =>
        (fwd_FromNodeID existing, fwd_ChainVersion existing)
    | None, None, None => (PredecessorNodeID peers, version)
    end in
  _ ← reject (String.eqb expectedNodeID "" || negb (String.eqb expectedNodeID (fwd_FromNodeID req)))
        ErrPeerMismatch;
  if negb (expectedChainVersion =? fwd_ChainVersion req) then
    reject (negb (String.eqb (PredecessorNodeID peers) (fwd_FromNodeID req) &&
                  (version =? fwd_ChainVersion req))) ErrPeerMismatch
  else Ok tt.

Definition validateCommitSource (record : replicaRecord) (req : CommitWriteRequest)
    : res storage_error unit :=
  let seq := cw_Sequence req in
  let peers := asg_Peers (rr_assignment record) in
  let version := asg_ChainVersion (rr_assignment record) in
  let general :=
    let '(expectedNodeID, expectedChainVersion) :=
      match rr_bufferedCommits record !! seq, rr_recentCommittedCommits record !! seq with
      | Some existing, _ | None, Some existing => (cw_FromNodeID existing, cw_ChainVersion existing)
      | None, None =>
          (SuccessorNodeID peers,
           match rr_stagedForwards record !! seq with
           | Some staged => fwd_ChainVersion staged
           | None => version
           end)
      end in
    _ ← reject (String.eqb expectedNodeID "" || negb (String.eqb expectedNodeID (cw_FromNodeID req)))
          ErrPeerMismatch;
    reject (negb (expectedChainVersion =? cw_ChainVersion req)) ErrPeerMismatch in
  match rr_expectedCommitSources record !! seq with
  | Some expected =>
      if negb (String.eqb (ecs_FromNodeID expected) "") then
        _ ← reject (negb (String.eqb (ecs_FromNodeID expected) (cw_FromNodeID req))) ErrPeerMismatch;
        if ecs_ChainVersion expected =? cw_ChainVersion req then Ok tt
        else reject (negb (String.eqb (SuccessorNodeID peers) (cw_FromNodeID req) &&
                           (version =? cw_ChainVersion req))) ErrPeerMismatch
      else general
  | None => general
  end.

Definition validateCommitAdvanceSource (record : replicaRecord) (req : CommitAdvanceRequest)
    : res storage_error unit :=
  let expectedNodeID := SuccessorNodeID (asg_Peers (rr_assignment record)) in
  _ ← reject (String.eqb expectedNodeID "" || negb (String.eqb expectedNodeID (ca_FromNodeID req)))
        ErrPeerMismatch;
  reject (negb (asg_ChainVersion (rr_assignment record) =? ca_ChainVersion req)) ErrPeerMismatch.

(** ** Dirty entries *)
(** [sort.Slice] with a [less] on sequence numbers.  The order it gives equal
    elements is unspecified; the lists it sorts here hold a sequence once. *)
Fixpoint insert_entry (e : dirtyReadEntry) (l : list dirtyReadEntry) : list dirtyReadEntry :=
  match l with
  | [] => [e]
  | x :: l' => if dirty_Sequence x <? dirty_Sequence e then x :: insert_entry e l' else e :: l
  end.
Definition sort_entries (l : list dirtyReadEntry) : list dirtyReadEntry := foldr insert_entry [] l.

Definition dirty_entry (op : WriteOperation) : dirtyReadEntry :=
  {| dirty_Sequence := op_Sequence op; dirty_Operation := cloneWriteOperation op |}.

(** The loop that overwrites the entry of the same sequence; [None] if there
    is none. *)
Fixpoint replace_entry (op : WriteOperation) (l : list dirtyReadEntry)
    : option (list dirtyReadEntry) :=
  match l with
  | [] => None
  | e :: l' =>
      if dirty_Sequence e =? op_Sequence op then Some (dirty_entry op :: l')
      else cons e <$> replace_entry op l'
  end.

Definition reduceAddDirtyEntry (record : replicaRecord) (operation : WriteOperation) : replicaRecord :=
  let entries := default [] (rr_dirtyByKey record !! op_Key operation) in
  let entries' :=
    match replace_entry operation entries with
    | Some replaced => replaced
    | None => sort_entries (entries ++ [dirty_entry operation])
    end in
  record <| rr_dirtyByKey := <[op_Key operation := entries']> (rr_dirtyByKey record) |>.

Definition reduceRemoveDirtyEntry (record : replicaRecord) (key : string) (sequence : Z)
    : replicaRecord :=
  match rr_dirtyByKey record !! key with
  | None => record
  | Some entries =>
      match List.filter (fun e => negb (dirty_Sequence e =? sequence)) entries with
      | [] => record <| rr_dirtyByKey := delete key (rr_dirtyByKey record) |>
      | filtered => record <| rr_dirtyByKey := <[key := filtered]> (rr_dirtyByKey record) |>
      end
  end.

(** ** Retained history

    The eviction loop drops the oldest entries beyond [retentionLimit], which
    the node's configuration keeps non-negative. *)
Definition evicted (order : list Z) (retentionLimit : Z) : nat :=
  Z.to_nat (Z.of_nat (length order) - retentionLimit).

Definition evict {V} (m : gmap Z V) (order : list Z) (retentionLimit : Z) : gmap Z V * list Z :=
  (foldl (fun m s => delete s m) m (take (evicted order retentionLimit) order),
   drop (evicted order retentionLimit) order).

Definition reduceRecordCommittedForward (record : replicaRecord) (req : ForwardWriteRequest)
    (retentionLimit : Z) : replicaRecord :=
  let seq := op_Sequence (fwd_Operation req) in
  let '(m, order) :=
    evict (<[seq := cloneForwardRequest req]> (rr_recentCommittedForwards record))
      (rr_recentForwardOrder record ++ [seq]) retentionLimit in
  record <| rr_recentCommittedForwards := m |> <| rr_recentForwardOrder := order |>.

Definition reduceRecordCommittedCommit (record : replicaRecord) (req : CommitWriteRequest)
    (retentionLimit : Z) : replicaRecord :=
  let '(m, order) :=
    evict (<[cw_Sequence req := cloneCommitRequest req]> (rr_recentCommittedCommits record))
      (rr_recentCommitOrder record ++ [cw_Sequence req]) retentionLimit in
  record <| rr_recentCommittedCommits := m |> <| rr_recentCommitOrder := order |>.

(** ** Buffering *)
Definition reduceTotalBufferedMessages (record : replicaRecord) : Z :=
  Z.of_nat (size (rr_bufferedForwards record)) + Z.of_nat (size (rr_bufferedCommits record)).

(** The two backpressure checks shared by both buffers. *)
Definition admit_buffered (record : replicaRecord) (slot : Z) (limits : slotProtocolBufferLimits)
    : res storage_error unit :=
  let total := reduceTotalBufferedMessages record in
  _ ← reject (perSlotLimit limits <=? total) (ErrReplicaBackpressure slot total (perSlotLimit limits));
  reject ((0 <? perNodeLimit limits) && (perNodeLimit limits <=? nodeBufferedNow limits))
    (ErrReplicaBackpressure slot (nodeBufferedNow limits) (perNodeLimit limits)).

Definition reduceBufferFutureForward (record : replicaRecord) (req : ForwardWriteRequest)
    (limits : slotProtocolBufferLimits) : res storage_error replicaRecord :=
  let op := fwd_Operation req in
  match rr_bufferedForwards record !! op_Sequence op with
  | Some existing =>
      _ ← reject (negb (sameForwardRequest existing req)) ErrProtocolConflict;
      Ok record
  | None =>
      _ ← admit_buffered record (op_Slot op) limits;
      Ok (record <| rr_bufferedForwards :=
            <[op_Sequence op := cloneForwardRequest req]> (rr_bufferedForwards record) |>)
  end.

Definition reduceBufferFutureCommit (record : replicaRecord) (req : CommitWriteRequest)
    (limits : slotProtocolBufferLimits) : res storage_error replicaRecord :=
  match rr_bufferedCommits record !! cw_Sequence req with
  | Some existing =>
      _ ← reject (negb (sameCommitRequest existing req)) ErrProtocolConflict;
      Ok record
  | None =>
      _ ← admit_buffered record (cw_Slot req) limits;
      Ok (record <| rr_bufferedCommits :=
            <[cw_Sequence req := cloneCommitRequest req]> (rr_bufferedCommits record) |>)
  end.

(** ** Messages about the past *)
Definition replays_forward (record : replicaRecord) (known req : ForwardWriteRequest) : bool :=
  sameForwardRequest known req ||
  (sameForwardRequestIgnoringChain known req &&
   String.eqb (PredecessorNodeID (asg_Peers (rr_assignment record))) (fwd_FromNodeID req) &&
   (asg_ChainVersion (rr_assignment record) =? fwd_ChainVersion req)).

Definition reduceHandlePastForward (record : replicaRecord) (req : ForwardWriteRequest)
    : res storage_error unit :=
  let seq := op_Sequence (fwd_Operation req) in
  match rr_stagedForwards record !! seq, rr_recentCommittedForwards record !! seq with
  | Some known, _ | None, Some known => reject (negb (replays_forward record known req)) ErrProtocolConflict
  | None, None => Err ErrSequenceMismatch
  end.

Definition reduceHandlePastCommit (record : replicaRecord) (req : CommitWriteRequest)
    : res storage_error unit :=
  match rr_recentCommittedCommits record !! cw_Sequence req with
  | Some committed => reject (negb (sameCommitRequest committed req)) ErrProtocolConflict
  | None => Err ErrSequenceMismatch
  end.

(** ** Staging *)
Definition expected_source (record : replicaRecord) : expectedCommitSource :=
  {| ecs_FromNodeID := SuccessorNodeID (asg_Peers (rr_assignment record));
     ecs_ChainVersion := asg_ChainVersion (rr_assignment record) |}.

Definition submit_result (op : WriteOperation) : CommitResult :=
  {| result_Slot := op_Slot op; result_Sequence := op_Sequence op; result_Applied := true;
     result_Metadata := Some (cloneObjectMetadata (op_Metadata op)) |}.

(** The head stages a client's operation: the next record and the result. *)
Definition reduceSubmitWrite (record : replicaRecord) (operation : WriteOperation)
    : replicaRecord * CommitResult :=
  let seq := op_Sequence operation in
  let opCopy := cloneWriteOperation operation in
  let record := record <| rr_pendingWrites :=
    <[seq := {| pending_completed := false; pending_result := submit_result operation;
                pending_operation := Some opCopy |}]> (rr_pendingWrites record) |> in
  let record := record <| rr_preparedEntries := <[seq := opCopy]> (rr_preparedEntries record) |> in
  let record := record <| rr_expectedCommitSources :=
    <[seq := expected_source record]> (rr_expectedCommitSources record) |> in
  let record := reduceAddDirtyEntry record operation in
  (record <| rr_nextSequence := u64_add (rr_nextSequence record) 1 |>, submit_result operation).

(** A replica stages the operation its predecessor forwarded. *)
Definition reduceStageForward (record : replicaRecord) (req : ForwardWriteRequest) : replicaRecord :=
  let op := fwd_Operation req in
  let seq := op_Sequence op in
  let record := record <| rr_bufferedForwards := delete seq (rr_bufferedForwards record) |> in
  match rr_stagedForwards record !! seq with
  | Some _ => record
  | None =>
      let record := record <| rr_stagedForwards :=
        <[seq := cloneForwardRequest req]> (rr_stagedForwards record) |> in
      let record := record <| rr_preparedEntries :=
        <[seq := cloneWriteOperation op]> (rr_preparedEntries record) |> in
      let record := record <| rr_expectedCommitSources :=
        <[seq := expected_source record]> (rr_expectedCommitSources record) |> in
      let record := reduceAddDirtyEntry record op in
      record <| rr_nextSequence := u64_add (rr_nextSequence record) 1 |>
  end.

Definition reduceForwardWrite (record : replicaRecord) (req : ForwardWriteRequest)
    (limits : slotProtocolBufferLimits) : res storage_error slotReduction :=
  let seq := op_Sequence (fwd_Operation req) in
  _ ← validateForwardSource record req;
  if seq <? rr_nextSequence record then
    _ ← reduceHandlePastForward record req;
    Ok {| red_Record := record; red_Action := slotReducerActionIgnore |}
  else if rr_nextSequence record <? seq then
    next ← reduceBufferFutureForward record req limits;
    Ok {| red_Record := next; red_Action := slotReducerActionBuffer |}
  else Ok {| red_Record := reduceStageForward record req; red_Action := slotReducerActionApply |}.

(** ** Committing *)
Definition reduceHasCommittableSequence (record : replicaRecord) (sequence : Z) : bool :=
  sequence <=? rr_highestPreparedDurable record.

Definition reduceHasStagedForward (record : replicaRecord) (sequence : Z) : bool :=
  bool_decide (is_Some (rr_stagedForwards record !! sequence)).

Definition reduceCommitWrite (record : replicaRecord) (req : CommitWriteRequest)
    (limits : slotProtocolBufferLimits) : res storage_error slotReduction :=
  let seq := cw_Sequence req in
  _ ← validateCommitSource record req;
  if seq <=? rr_highestCommittedSequence record then
    _ ← reduceHandlePastCommit record req;
    Ok {| red_Record := record; red_Action := slotReducerActionIgnore |}
  else if (u64_add (rr_highestCommittedSequence record) 1 <? seq) ||
          negb (reduceHasCommittableSequence record seq) then
    next ← reduceBufferFutureCommit record req limits;
    Ok {| red_Record := next; red_Action := slotReducerActionBuffer |}
  else Ok {| red_Record := record; red_Action := slotReducerActionApply |}.

Definition reduceCommittableOperation (record : replicaRecord) (sequence : Z)
    : res storage_error WriteOperation :=
  _ ← reject (rr_highestPreparedDurable record <? sequence) ErrSequenceMismatch;
  match rr_preparedEntries record !! sequence with
  | Some operation => Ok (cloneWriteOperation operation)
  | None => Err ErrSequenceMismatch
  end.

Definition reduceApplyCommittedSequence (record : replicaRecord) (operation : WriteOperation)
    (sequence retentionLimit : Z) : replicaRecord :=
  let record := record <| rr_highestCommittedSequence := sequence |> in
  let record := record <| rr_localDataPresent := true |> in
  let record :=
    match rr_state record with
    | StateRecovered => record
    | state => record <| rr_lastKnownState := state |>
    end in
  let record :=
    match rr_stagedForwards record !! sequence with
    | Some staged =>
        reduceRecordCommittedForward
          (record <| rr_stagedForwards := delete sequence (rr_stagedForwards record) |>)
          staged retentionLimit
    | None => record
    end in
  let record := record <| rr_expectedCommitSources := delete sequence (rr_expectedCommitSources record) |> in
  let record := record <| rr_pendingWrites := delete sequence (rr_pendingWrites record) |> in
  reduceRemoveDirtyEntry record (op_Key operation) sequence.

Definition reduceRecordCommitApplied (record : replicaRecord) (req : CommitWriteRequest)
    (retentionLimit : Z) : replicaRecord :=
  let seq := cw_Sequence req in
  let record := record <| rr_bufferedCommits := delete seq (rr_bufferedCommits record) |> in
  let record := reduceRecordCommittedCommit record req retentionLimit in
  match rr_pendingWrites record !! seq with
  | Some pending =>
      record <| rr_pendingWrites :=
        <[seq := {| pending_completed := true; pending_result := pending_result pending;
                    pending_operation := pending_operation pending |}]> (rr_pendingWrites record) |>
  | None => record
  end.
