(* ===== verification/Journal.v ===== *)
(** * The commit journal's records and files (src/storage/commit_journal.go)

    What is appended to a journal file and what a replay of the file hands
    back: the record type and its constructors, the binary encoding, the
    length-prefixed JSON frames, the segmented file, and the in-memory journal.
    File contents are lists of bytes; a crash may cut the last append short. *)

From S2P Require Import Prelude.
From S2P Require Import StorageTypes.
From S2P Require Import SlotReducer.
From Stdlib Require Import Ascii.

Open Scope Z_scope.
Open Scope record_scope.

Abbreviation bytes := (list ascii).

(** ** Records *)

(** Any string is a record type; [RecordTypeOther ""] is an unset one. *)
Inductive journalRecordType :=
| journalRecordTypePrepare
| journalRecordTypeCommitWatermark
| journalRecordTypeHeadCommitRange
| journalRecordTypeUpstreamConfirm
| journalRecordTypeLegacyCommit
| RecordTypeOther (name : string).

#[export] Instance journalRecordType_eq_dec : EqDecision journalRecordType.
Proof. solve_decision. Defined.

Record journalRecord := {
  jr_Type : journalRecordType;
  jr_Slot : Z;
  jr_ChainVersion : Z;
  jr_Sequence : Z;
  jr_Kind : OperationKind;
  jr_Key : string;
  jr_Value : string;
  jr_Metadata : ObjectMetadata;
  jr_UpstreamConfirmedSequence : Z;
}.

#[export] Instance journalRecord_eq_dec : EqDecision journalRecord.
Proof. solve_decision. Defined.

Definition recordType (r : journalRecord) : journalRecordType :=
  if bool_decide (jr_Type r = RecordTypeOther "") then journalRecordTypeLegacyCommit else jr_Type r.

(** An operation on its way to the backend, with the replica's persisted form. *)
Record DurableCommit := {
  dc_Operation : WriteOperation;
  dc_Persisted : PersistedReplica;
  dc_UpstreamConfirmedSequence : Z;
}.

Definition noKind : OperationKind := OperationKindUnsupported "".

Definition journalRecordFromPrepare (prepare : DurableCommit) : journalRecord :=
  let op := dc_Operation prepare in
  {| jr_Type := journalRecordTypePrepare; jr_Slot := op_Slot op;
     jr_ChainVersion := asg_ChainVersion (pr_Assignment (dc_Persisted prepare));
     jr_Sequence := op_Sequence op; jr_Kind := op_Kind op; jr_Key := op_Key op; jr_Value := op_Value op;
     jr_Metadata := cloneObjectMetadata (op_Metadata op); jr_UpstreamConfirmedSequence := 0 |}.

(** The three constructors for progress records differ in the type only. *)
Definition progress_record (type : journalRecordType) (assignment : ReplicaAssignment) (sequence : Z)
    : journalRecord :=
  {| jr_Type := type; jr_Slot := asg_Slot assignment; jr_ChainVersion := asg_ChainVersion assignment;
     jr_Sequence := sequence; jr_Kind := noKind; jr_Key := ""; jr_Value := "";
     jr_Metadata := zeroMetadata; jr_UpstreamConfirmedSequence := 0 |}.
Definition journalRecordFromCommitWatermark := progress_record journalRecordTypeCommitWatermark.
Definition journalRecordFromHeadCommitRange := progress_record journalRecordTypeHeadCommitRange.
Definition journalRecordFromUpstreamConfirm := progress_record journalRecordTypeUpstreamConfirm.

Definition operation (r : journalRecord) : WriteOperation :=
  {| op_Slot := jr_Slot r; op_Sequence := jr_Sequence r; op_Kind := jr_Kind r; op_Key := jr_Key r;
     op_Value := jr_Value r; op_Metadata := cloneObjectMetadata (jr_Metadata r) |}.

Definition cloneJournalRecord (r : journalRecord) : journalRecord :=
  {| jr_Type := recordType r; jr_Slot := jr_Slot r; jr_ChainVersion := jr_ChainVersion r;
     jr_Sequence := jr_Sequence r; jr_Kind := jr_Kind r; jr_Key := jr_Key r; jr_Value := jr_Value r;
     jr_Metadata := cloneObjectMetadata (jr_Metadata r);
     jr_UpstreamConfirmedSequence := jr_UpstreamConfirmedSequence r |}.

(** ** Integers in little-endian order *)
Definition byte_of (z : Z) : ascii := ascii_of_N (Z.to_N (z mod 256)).
Definition of_byte (a : ascii) : Z := Z.of_N (N_of_ascii a).

Fixpoint put_le (n : nat) (z : Z) : bytes :=
  match n with
  | O => []
  | S n => byte_of z :: put_le n (z / 256)
  end.

Fixpoint get_le (b : bytes) : Z :=
  match b with
  | [] => 0
  | a :: b => of_byte a + 256 * get_le b
  end.

(** ** Instants and [int64] nanoseconds since 1970 *)
Definition unix_epoch : Z := 62135596800 * 10 ^ 9.
Definition UnixNano (t : Z) : Z := i64 (t - unix_epoch).
Definition time_Unix (nanos : Z) : Z := nanos + unix_epoch.

(** ** The binary encoding *)
Definition encodeJournalRecordType (type : journalRecordType) : Z :=
  match type with
  | journalRecordTypePrepare => 1
  | journalRecordTypeCommitWatermark => 2
  | journalRecordTypeHeadCommitRange => 3
  | journalRecordTypeUpstreamConfirm => 4
  | _ => 0
  end.

Definition decodeJournalRecordType (code : Z) : journalRecordType :=
  match code with
  | 1 => journalRecordTypePrepare
  | 2 => journalRecordTypeCommitWatermark
  | 3 => journalRecordTypeHeadCommitRange
  | 4 => journalRecordTypeUpstreamConfirm
  | _ => journalRecordTypeLegacyCommit
  end.

Definition encodeOperationKind (kind : OperationKind) : Z :=
  match kind with
  | OperationKindPut => 1
  | OperationKindDelete => 2
  | OperationKindUnsupported _ => 0
  end.

Definition decodeOperationKind (code : Z) : OperationKind :=
  match code with
  | 1 => OperationKindPut
  | 2 => OperationKindDelete
  | _ => noKind
  end.

Definition binaryJournalHeaderSize : nat := 68.
Definition maxUint32 : Z := 2 ^ 32 - 1.

(** Bytes 2 and 3 of the header are never set. *)
Definition binary_header (r : journalRecord) (keyLen valueLen : Z) : bytes :=
  [byte_of (encodeJournalRecordType (recordType r)); byte_of (encodeOperationKind (jr_Kind r));
   byte_of 0; byte_of 0] ++
  put_le 8 (u64 (jr_Slot r)) ++ put_le 8 (jr_ChainVersion r) ++ put_le 8 (jr_Sequence r) ++
  put_le 8 (meta_Version (jr_Metadata r)) ++
  put_le 8 (u64 (UnixNano (meta_CreatedAt (jr_Metadata r)))) ++
  put_le 8 (u64 (UnixNano (meta_UpdatedAt (jr_Metadata r)))) ++
  put_le 8 (jr_UpstreamConfirmedSequence r) ++ put_le 4 keyLen ++ put_le 4 valueLen.

Definition byte_length (s : string) : Z := Z.of_nat (String.length s).

Definition encode_binary_record (r : journalRecord) : bytes :=
  binary_header r (byte_length (jr_Key r)) (byte_length (jr_Value r)) ++
  String.list_ascii_of_string (jr_Key r) ++ String.list_ascii_of_string (jr_Value r).

Definition encodeBinaryJournalRecords (records : list journalRecord) : res storage_error bytes :=
  res_fold (fun buf r =>
    _ ← reject ((maxUint32 <? byte_length (jr_Key r)) || (maxUint32 <? byte_length (jr_Value r)))
          ErrInvalidStorageConfig;
    Ok (buf ++ encode_binary_record r)) [] records.

(** [io.ReadFull]: [None] when fewer bytes are left. *)
Definition ReadFull (n : Z) (b : bytes) : option (bytes * bytes) :=
  if n <=? Z.of_nat (length b) then Some (take (Z.to_nat n) b, drop (Z.to_nat n) b) else None.

(** The integer in bytes [from, from + n) of a header. *)
Definition field (header : bytes) (from n : nat) : Z := get_le (take n (drop from header)).

Definition decode_binary_record (header key value : bytes) : journalRecord :=
  let type := decodeJournalRecordType (field header 0 1) in
  {| jr_Type := if bool_decide (type = journalRecordTypeLegacyCommit) then RecordTypeOther "" else type;
     jr_Kind := decodeOperationKind (field header 1 1);
     jr_Slot := i64 (field header 4 8);
     jr_ChainVersion := field header 12 8;
     jr_Sequence := field header 20 8;
     jr_Metadata :=
       {| meta_Version := field header 28 8; meta_CreatedAt := time_Unix (i64 (field header 36 8));
          meta_UpdatedAt := time_Unix (i64 (field header 44 8)) |};
     jr_UpstreamConfirmedSequence := field header 52 8;
     jr_Key := String.string_of_list_ascii key; jr_Value := String.string_of_list_ascii value |}.

(** One round of the replay loop: [None] at the end of the file and at a
    record that is cut short. *)
Definition read_binary_record (b : bytes) : option (journalRecord * bytes) :=
  '(header, rest) ← ReadFull (Z.of_nat binaryJournalHeaderSize) b;
  '(key, rest) ← ReadFull (field header 60 4) rest;
  '(value, rest) ← ReadFull (field header 64 4) rest;
  Some (decode_binary_record header key value, rest).

(** ** Replay

    The callback threads a state and may fail.  A round consumes at least a
    header, so the length of the file bounds the number of rounds. *)
Section replay.
Context {E St : Type} (apply : St -> journalRecord -> res E St).

Fixpoint replay_binary (fuel : nat) (s : St) (b : bytes) : res E St :=
  match fuel with
  | O => Ok s
  | S fuel =>
      match read_binary_record b with
      | None => Ok s
      | Some (r, rest) => s' ← apply s r; replay_binary fuel s' rest
      end
  end.

Definition replayBinaryJournalReader (s : St) (file : bytes) : res E St :=
  replay_binary (S (length file)) s file.
End replay.

(** ** Length-prefixed JSON

    The payloads are [encoding/json]'s: the two functions are arguments. *)
Section json.
Context (marshal : journalRecord -> bytes) (unmarshal : bytes -> option journalRecord).

Definition encode_frame (payload : bytes) : bytes :=
  put_le 4 (Z.of_nat (length payload)) ++ payload.

Definition encodeJSONJournalRecords (records : list journalRecord) : res storage_error bytes :=
  res_fold (fun buf r =>
    _ ← reject (maxUint32 <? Z.of_nat (length (marshal r))) ErrInvalidStorageConfig;
    Ok (buf ++ encode_frame (marshal r))) [] records.

(** The second component is the offset the file is truncated to, if it is. *)
Fixpoint replay_json {St} (apply : St -> journalRecord -> res storage_error St)
    (fuel : nat) (s : St) (offset : Z) (b : bytes) : res storage_error (St * option Z) :=
  match fuel with
  | O => Ok (s, None)
  | S fuel =>
      match ReadFull 4 b with
      | None => Ok (s, match b with [] => None | _ => Some offset end)
      | Some (prefix, rest) =>
          let length := get_le prefix in
          match ReadFull length rest with
          | None => Ok (s, Some offset)
          | Some (payload, rest) =>
              match unmarshal payload with
              | None => Err ErrBackend
              | Some r => s' ← apply s r; replay_json apply fuel s' (offset + 4 + length) rest
              end
          end
      end
  end.

Definition replayJSON {St} (apply : St -> journalRecord -> res storage_error St) (s : St) (file : bytes)
    : res storage_error (St * bytes) :=
  '(s', truncated) ← replay_json apply (S (length file)) s 0 file;
  Ok (s', match truncated with Some offset => take (Z.to_nat offset) file | None => file end).
End json.

(** ** Journal stores

    The interface the storage node uses.  A replay may repair the store. *)
Class CommitJournalStore (J : Type) := {
  AppendBatch : J -> list journalRecord -> res storage_error J;
  Replay : forall {St : Type}, (St -> journalRecord -> res storage_error St) -> St -> J ->
    res storage_error (St * J);
}.

(** What its users rely on: the records a store holds are those appended, in
    order and in the form the store keeps them in, and a replay hands them
    all to the callback. *)
Class CommitJournalLaws (J : Type) `{CommitJournalStore J} := {
  storable : journalRecord -> Prop;
  stored : journalRecord -> journalRecord;
  holds_records : J -> list journalRecord -> Prop;
  append_holds : forall j held records, holds_records j held -> Forall storable records ->
    exists j', AppendBatch j records = Ok j' /\ holds_records j' (held ++ (stored <$> records));
  replay_holds : forall {St} (apply : St -> journalRecord -> res storage_error St) s j held,
    holds_records j held -> exists j', holds_records j' held /\
    Replay apply s j = (s' ← res_fold apply s held; Ok (s', j'));
}.

(** *** In memory *)
Record inMemoryCommitJournal := { mem_records : list journalRecord }.

#[export] Instance inMemoryCommitJournal_store : CommitJournalStore inMemoryCommitJournal := {
  AppendBatch j records := Ok {| mem_records := mem_records j ++ (cloneJournalRecord <$> records) |};
  Replay St apply s j := s' ← res_fold apply s (mem_records j); Ok (s', j);
}.

(** *** Files *)
Inductive JournalExperiment :=
| JournalExperimentBaselineJSONSync
| JournalExperimentBinarySync
| JournalExperimentBinarySegmentSync
| JournalExperimentNoSyncBound.

Definition binarySegmentSizeBytes : Z := 2 ^ 23.

(** The open file; a segmented journal also has the segments before it, in the
    order of their names, which is that of their numbers below 10^8.  Syncing
    is what makes an append durable and does not change the contents. *)
Record fileCommitJournal := {
  fj_experiment : JournalExperiment;
  fj_segments : list bytes;
  fj_file : bytes;
}.

#[export] Instance fileCommitJournal_rebuild : Rebuild fileCommitJournal := fun j =>
  {| fj_experiment := fj_experiment j; fj_segments := fj_segments j; fj_file := fj_file j |}.

Section files.
Context (marshal : journalRecord -> bytes) (unmarshal : bytes -> option journalRecord).

Definition encodeRecords (j : fileCommitJournal) (records : list journalRecord) : res storage_error bytes :=
  match fj_experiment j with
  | JournalExperimentBinarySync | JournalExperimentBinarySegmentSync => encodeBinaryJournalRecords records
  | _ => encodeJSONJournalRecords marshal records
  end.

Definition rotateSegmentIfNeeded (j : fileCommitJournal) (payloadBytes : Z) : fileCommitJournal :=
  if Z.of_nat (length (fj_file j)) + payloadBytes <=? binarySegmentSizeBytes then j
  else j <| fj_segments := fj_segments j ++ [fj_file j] |> <| fj_file := [] |>.

Definition appendPayload (j : fileCommitJournal) (payload : bytes) : fileCommitJournal :=
  let j :=
    match fj_experiment j with
    | JournalExperimentBinarySegmentSync => rotateSegmentIfNeeded j (Z.of_nat (length payload))
    | _ => j
    end in
  j <| fj_file := fj_file j ++ payload |>.

Definition file_AppendBatch (j : fileCommitJournal) (records : list journalRecord)
    : res storage_error fileCommitJournal :=
  match records with
  | [] => Ok j
  | _ => payload ← encodeRecords j records; Ok (appendPayload j payload)
  end.

Definition file_Replay {St} (apply : St -> journalRecord -> res storage_error St) (s : St)
    (j : fileCommitJournal) : res storage_error (St * fileCommitJournal) :=
  match fj_experiment j with
  | JournalExperimentBinarySync => s' ← replayBinaryJournalReader apply s (fj_file j); Ok (s', j)
  | JournalExperimentBinarySegmentSync =>
      s' ← res_fold (replayBinaryJournalReader apply) s (fj_segments j ++ [fj_file j]); Ok (s', j)
  | _ => '(s', file) ← replayJSON unmarshal apply s (fj_file j); Ok (s', j <| fj_file := file |>)
  end.

Definition fileCommitJournal_store : CommitJournalStore fileCommitJournal :=
  {| AppendBatch := file_AppendBatch; Replay := @file_Replay |}.
End files.
