(* ===== verification/JournalShard.v ===== *)
(** * The journal shards (src/storage/commit_journal.go)

    Each shard has a goroutine, [run], that collects prepares, commit
    watermarks, head commit ranges and upstream confirmations, writes them to
    its journal in batches and answers each of them.  Prepares are taken round
    robin over the slots; progress records of one slot and chain version are
    coalesced into the one with the highest sequence number.

    Here [shard] is the state of the loop and [shard_step] one round of its
    [select]; the channels it reads are the order of the events and the number
    of messages still queued, contexts are the set of the cancelled ones, the
    timer is the flag [sh_timer], and answering an intent appends it, with the
    result, to the list of deliveries.  Metrics and diagnostics are left out. *)

From S2P Require Import Prelude.
From S2P Require Import StorageTypes.
From S2P Require Import SlotReducer.
From S2P Require Import Journal.

Open Scope Z_scope.
Open Scope record_scope.

Definition defaultJournalBatchMaxOps : Z := 64.
Definition defaultJournalBatchMaxBytes : Z := 2 ^ 20.
Definition defaultJournalPriorityWatermarks : Z := 8.

Definition resolvedBatchMaxOps (configured : Z) : Z :=
  if configured <=? 0 then defaultJournalBatchMaxOps else configured.

Definition estimatedCommitBytes (commit : DurableCommit) : Z :=
  byte_length (op_Key (dc_Operation commit)) + byte_length (op_Value (dc_Operation commit)) + 128.

#[export] Instance journalRecordType_countable : Countable journalRecordType.
Proof.
  apply (inj_countable'
    (fun t => match t with
      | journalRecordTypePrepare => inl 0%nat | journalRecordTypeCommitWatermark => inl 1%nat
      | journalRecordTypeHeadCommitRange => inl 2%nat | journalRecordTypeUpstreamConfirm => inl 3%nat
      | journalRecordTypeLegacyCommit => inl 4%nat | RecordTypeOther name => inr name end)
    (fun c => match c with
      | inl 0%nat => journalRecordTypePrepare | inl 1%nat => journalRecordTypeCommitWatermark
      | inl 2%nat => journalRecordTypeHeadCommitRange | inl 3%nat => journalRecordTypeUpstreamConfirm
      | inl _ => journalRecordTypeLegacyCommit | inr name => RecordTypeOther name end)).
  by intros [].
Defined.

(** ** Intents

    A context and a completion handler are numbers; a context may be nil. *)
Record journalPrepareIntent := {
  pi_ctx : option nat;
  pi_prepare : DurableCommit;
  pi_onComplete : nat;
}.

(** [journalWatermarkIntent] without its record type, and [journalConfirmIntent]. *)
Record progressIntent := {
  gi_ctx : option nat;
  gi_assignment : ReplicaAssignment;
  gi_sequence : Z;
  gi_onComplete : nat;
}.

Inductive shard_intent :=
| PrepareIntent (intent : journalPrepareIntent)
| WatermarkIntent (recordType : journalRecordType) (intent : progressIntent)
| ConfirmIntent (intent : progressIntent).

(** What the handler of an intent is called with. *)
Inductive completion :=
| Completed
| CompletedCanceled
| CompletedError (e : storage_error).

Abbreviation delivery := (shard_intent * completion)%type.

(** [commitJournalEngine.submitPrepare] and the others pick the shard of the
    slot and queue an intent of their kind there. *)
Definition shardIndex (count slot : Z) : Z :=
  if count =? 0 then 0 else (if slot <? 0 then - slot else slot) mod count.

Definition submitPrepare ctx prepare onComplete : shard_intent :=
  PrepareIntent {| pi_ctx := ctx; pi_prepare := prepare; pi_onComplete := onComplete |}.

Definition submitCommitWatermark ctx assignment sequence onComplete : shard_intent :=
  WatermarkIntent journalRecordTypeCommitWatermark
    {| gi_ctx := ctx; gi_assignment := assignment; gi_sequence := sequence; gi_onComplete := onComplete |}.

Definition submitHeadCommitRange ctx assignment sequence onComplete : shard_intent :=
  WatermarkIntent journalRecordTypeHeadCommitRange
    {| gi_ctx := ctx; gi_assignment := assignment; gi_sequence := sequence; gi_onComplete := onComplete |}.

Definition submitUpstreamConfirm ctx assignment sequence onComplete : shard_intent :=
  ConfirmIntent
    {| gi_ctx := ctx; gi_assignment := assignment; gi_sequence := sequence; gi_onComplete := onComplete |}.

(** ** Coalescing queues

    [pendingJournalWatermark] and [pendingJournalConfirm], with the map and the
    order of the keys; the record type of a watermark entry is in its key. *)
Record pendingProgress := {
  pp_assignment : ReplicaAssignment;
  pp_sequence : Z;
  pp_intents : list progressIntent;
}.

Record progress_queue (K : Type) `{Countable K} := {
  pq_entries : gmap K pendingProgress;
  pq_order : list K;
}.
Arguments Build_progress_queue {K _ _} _ _.
Arguments pq_entries {K _ _} _.
Arguments pq_order {K _ _} _.

Section coalescing.
Context {K : Type} `{Countable K}.

Definition empty_queue : progress_queue K := Build_progress_queue ∅ [].

(** [enqueuePendingWatermark] and [enqueuePendingConfirm]. *)
Definition enqueuePending (key : K) (intent : progressIntent) (q : progress_queue K) : progress_queue K :=
  match pq_entries q !! key with
  | None =>
      {| pq_entries := <[key := {| pp_assignment := gi_assignment intent; pp_sequence := gi_sequence intent;
                                   pp_intents := [intent] |}]> (pq_entries q);
         pq_order := pq_order q ++ [key] |}
  | Some entry =>
      let newer := pp_sequence entry <? gi_sequence intent in
      {| pq_entries := <[key :=
           {| pp_assignment := if newer then gi_assignment intent else pp_assignment entry;
              pp_sequence := if newer then gi_sequence intent else pp_sequence entry;
              pp_intents := pp_intents entry ++ [intent] |}]> (pq_entries q);
         pq_order := pq_order q |}
  end.

(** The loop of [popWatermarkBatch] and [popConfirmBatch]: the entries taken,
    what is left of the map and of the order. *)
Fixpoint pop_entries (remainingOps remainingBytes : Z) (order : list K) (entries : gmap K pendingProgress)
    (items : list (K * pendingProgress)) : list (K * pendingProgress) * progress_queue K :=
  let count := Z.of_nat (length items) in
  match order with
  | [] => (items, Build_progress_queue entries [])
  | key :: rest =>
      match entries !! key with
      | None => pop_entries remainingOps remainingBytes rest entries items
      | Some entry =>
          if (0 <? count) && ((remainingOps <=? count) || (remainingBytes <? (count + 1) * 64))
          then (items, Build_progress_queue entries (key :: rest))
          else
            let items := items ++ [(key, entry)] in
            let entries := delete key entries in
            if (remainingOps <=? count + 1) || (remainingBytes <=? (count + 1) * 64)
            then (items, Build_progress_queue entries rest)
            else pop_entries remainingOps remainingBytes rest entries items
      end
  end.

Definition popBatch (remainingOps remainingBytes : Z) (allow : bool) (q : progress_queue K)
    : list (K * pendingProgress) * progress_queue K :=
  if negb allow || (remainingOps <=? 0) || (remainingBytes <=? 0) || bool_decide (pq_order q = [])
  then ([], q)
  else pop_entries remainingOps remainingBytes (pq_order q) (pq_entries q) [].
End coalescing.

Abbreviation journalWatermarkKey := (journalRecordType * Z * Z)%type.
Abbreviation journalConfirmKey := (Z * Z)%type.

Definition watermark_key (recordType : journalRecordType) (intent : progressIntent) : journalWatermarkKey :=
  (recordType, asg_Slot (gi_assignment intent), asg_ChainVersion (gi_assignment intent)).

Definition confirm_key (intent : progressIntent) : journalConfirmKey :=
  (asg_Slot (gi_assignment intent), asg_ChainVersion (gi_assignment intent)).

(** The loop of [popPriorityHeadRangeBatch]: head commit ranges only, the other
    keys keep their places. *)
Fixpoint pop_head_ranges (limitOps remainingBytes : Z) (order : list journalWatermarkKey)
    (entries : gmap journalWatermarkKey pendingProgress)
    (items : list (journalWatermarkKey * pendingProgress)) (next : list journalWatermarkKey)
    : list (journalWatermarkKey * pendingProgress) * progress_queue journalWatermarkKey :=
  let count := Z.of_nat (length items) in
  match order with
  | [] => (items, Build_progress_queue entries next)
  | key :: rest =>
      match entries !! key with
      | None => pop_head_ranges limitOps remainingBytes rest entries items next
      | Some entry =>
          if negb (bool_decide (key.1.1 = journalRecordTypeHeadCommitRange))
             || (limitOps <=? count) || (remainingBytes <? (count + 1) * 64)
          then pop_head_ranges limitOps remainingBytes rest entries items (next ++ [key])
          else pop_head_ranges limitOps remainingBytes rest (delete key entries) (items ++ [(key, entry)]) next
      end
  end.

Definition popPriorityHeadRangeBatch (remainingOps remainingBytes : Z) (q : progress_queue journalWatermarkKey)
    : list (journalWatermarkKey * pendingProgress) * progress_queue journalWatermarkKey :=
  if (remainingOps <=? 0) || (remainingBytes <=? 0) || bool_decide (pq_order q = []) then ([], q)
  else
    let limitOps := if defaultJournalPriorityWatermarks <? remainingOps
                    then defaultJournalPriorityWatermarks else remainingOps in
    match pop_head_ranges limitOps remainingBytes (pq_order q) (pq_entries q) [] [] with
    | ([], _) => ([], q)
    | popped => popped
    end.

(** ** Prepares *)
Record prepare_queue := {
  pendingPrepareMap : gmap Z (list journalPrepareIntent);
  pendingPrepareSeq : list Z;
  pendingPrepareN : Z;
  pendingPrepareBytes : Z;
}.

Definition empty_prepares : prepare_queue :=
  {| pendingPrepareMap := ∅; pendingPrepareSeq := []; pendingPrepareN := 0; pendingPrepareBytes := 0 |}.

Definition prepare_slot (intent : journalPrepareIntent) : Z := op_Slot (dc_Operation (pi_prepare intent)).

Definition enqueuePendingPrepare (intent : journalPrepareIntent) (q : prepare_queue) : prepare_queue :=
  let slot := prepare_slot intent in
  let queue := default [] (pendingPrepareMap q !! slot) in
  {| pendingPrepareMap := <[slot := queue ++ [intent]]> (pendingPrepareMap q);
     pendingPrepareSeq := match queue with [] => pendingPrepareSeq q ++ [slot] | _ => pendingPrepareSeq q end;
     pendingPrepareN := pendingPrepareN q + 1;
     pendingPrepareBytes := pendingPrepareBytes q + estimatedCommitBytes (pi_prepare intent) |}.

(** The batch being taken: the pending map and counters, the intents taken, and
    their estimated size. *)
Record prepare_batch := {
  pb_map : gmap Z (list journalPrepareIntent);
  pb_N : Z;
  pb_bytes : Z;
  pb_items : list journalPrepareIntent;
  pb_batchBytes : Z;
}.

Definition pb_count (b : prepare_batch) : Z := Z.of_nat (length (pb_items b)).

(** The loop over the slots in order, one intent of each: the batch, the order
    for the next round, whether an intent was taken, and whether the batch is
    full. *)
Fixpoint pop_round (batchMaxOps : Z) (order next : list Z) (madeProgress : bool) (b : prepare_batch)
    : prepare_batch * list Z * bool * bool :=
  match order with
  | [] => (b, next, madeProgress, false)
  | slot :: rest =>
      match default [] (pb_map b !! slot) with
      | [] =>
          pop_round batchMaxOps rest next madeProgress
            {| pb_map := delete slot (pb_map b); pb_N := pb_N b; pb_bytes := pb_bytes b;
               pb_items := pb_items b; pb_batchBytes := pb_batchBytes b |}
      | intent :: queue =>
          let intentBytes := estimatedCommitBytes (pi_prepare intent) in
          if (0 <? pb_count b) && (defaultJournalBatchMaxBytes <? pb_batchBytes b + intentBytes)
          then (b, next ++ slot :: rest, madeProgress, true)
          else
            let b := {| pb_map := match queue with [] => delete slot (pb_map b) | _ => <[slot := queue]> (pb_map b) end;
                        pb_N := pb_N b - 1; pb_bytes := pb_bytes b - intentBytes;
                        pb_items := pb_items b ++ [intent]; pb_batchBytes := pb_batchBytes b + intentBytes |} in
            let next := match queue with [] => next | _ => next ++ [slot] end in
            if (batchMaxOps <=? pb_count b) || (defaultJournalBatchMaxBytes <=? pb_batchBytes b)
            then (b, next ++ rest, true, true)
            else pop_round batchMaxOps rest next true b
      end
  end.

Fixpoint pop_rounds (fuel : nat) (batchMaxOps : Z) (order : list Z) (b : prepare_batch) : prepare_batch * list Z :=
  match fuel with
  | O => (b, order)
  | S fuel =>
      if negb (bool_decide (order = [])) && (pb_count b <? batchMaxOps) && (pb_batchBytes b <? defaultJournalBatchMaxBytes)
      then
        let '(b, order, madeProgress, full) := pop_round batchMaxOps order [] false b in
        if full || negb madeProgress then (b, order) else pop_rounds fuel batchMaxOps order b
      else (b, order)
  end.

(** Each round but the last takes an intent: one more round than intents is
    enough. *)
Definition popPrepareBatch (batchMaxOps : Z) (q : prepare_queue) : list journalPrepareIntent * Z * prepare_queue :=
  if (pendingPrepareN q =? 0) || bool_decide (pendingPrepareSeq q = []) then ([], 0, q)
  else
    let '(b, order) := pop_rounds (S (Z.to_nat (pendingPrepareN q))) batchMaxOps (pendingPrepareSeq q)
      {| pb_map := pendingPrepareMap q; pb_N := pendingPrepareN q; pb_bytes := pendingPrepareBytes q;
         pb_items := []; pb_batchBytes := 0 |} in
    (pb_items b, pb_batchBytes b,
     {| pendingPrepareMap := pb_map b; pendingPrepareSeq := order; pendingPrepareN := pb_N b;
        pendingPrepareBytes := pb_bytes b |}).

(** ** Batches *)
Inductive journalBatchItem :=
| BatchPrepare (intent : journalPrepareIntent)
| BatchWatermark (recordType : journalRecordType) (entry : pendingProgress)
| BatchConfirm (entry : pendingProgress).

Definition watermark_item (taken : journalWatermarkKey * pendingProgress) : journalBatchItem :=
  BatchWatermark taken.1.1.1 taken.2.

Definition confirm_item (taken : journalConfirmKey * pendingProgress) : journalBatchItem := BatchConfirm taken.2.

Definition item_intents (item : journalBatchItem) : list shard_intent :=
  match item with
  | BatchPrepare intent => [PrepareIntent intent]
  | BatchWatermark recordType entry => WatermarkIntent recordType <$> pp_intents entry
  | BatchConfirm entry => ConfirmIntent <$> pp_intents entry
  end.

Section contexts.
Context (canceled : gset nat).

Definition ctx_canceled (ctx : option nat) : bool :=
  match ctx with None => false | Some c => bool_decide (c ∈ canceled) end.

Definition intent_canceled (intent : shard_intent) : bool :=
  match intent with
  | PrepareIntent i => ctx_canceled (pi_ctx i)
  | WatermarkIntent _ i => ctx_canceled (gi_ctx i)
  | ConfirmIntent i => ctx_canceled (gi_ctx i)
  end.

(** The first loop over a batch: the record of an item, unless all its intents
    are cancelled, and the answers to the cancelled ones. *)
Definition item_record (item : journalBatchItem) : list journalRecord :=
  if forallb intent_canceled (item_intents item) then []
  else
    [match item with
     | BatchPrepare intent => journalRecordFromPrepare (pi_prepare intent)
     | BatchWatermark journalRecordTypeHeadCommitRange entry =>
         journalRecordFromHeadCommitRange (pp_assignment entry) (pp_sequence entry)
     | BatchWatermark _ entry => journalRecordFromCommitWatermark (pp_assignment entry) (pp_sequence entry)
     | BatchConfirm entry => journalRecordFromUpstreamConfirm (pp_assignment entry) (pp_sequence entry)
     end].

Definition item_canceled (item : journalBatchItem) : list delivery :=
  (fun intent => (intent, CompletedCanceled)) <$> List.filter intent_canceled (item_intents item).
End contexts.

Definition item_completed (result : completion) (item : journalBatchItem) : list delivery :=
  (fun intent => (intent, result)) <$> item_intents item.

(** The engine's high-water marks, shared by its shards. *)
Record engine_marks := {
  highWater : gmap Z Z;
  prepareHigh : gmap Z Z;
}.

Definition raise_mark (slot sequence : Z) (marks : gmap Z Z) : gmap Z Z :=
  if default 0 (marks !! slot) <? sequence then <[slot := sequence]> marks else marks.

Definition markCommitted (slot sequence : Z) (e : engine_marks) : engine_marks :=
  {| highWater := raise_mark slot sequence (highWater e); prepareHigh := prepareHigh e |}.

Definition markPrepared (slot sequence : Z) (e : engine_marks) : engine_marks :=
  {| highWater := highWater e; prepareHigh := raise_mark slot sequence (prepareHigh e) |}.

Definition mark_item (e : engine_marks) (item : journalBatchItem) : engine_marks :=
  match item with
  | BatchPrepare intent =>
      markPrepared (prepare_slot intent) (op_Sequence (dc_Operation (pi_prepare intent))) e
  | BatchWatermark _ entry => markCommitted (asg_Slot (pp_assignment entry)) (pp_sequence entry) e
  | BatchConfirm _ => e
  end.

(** ** The loop *)
Record shard := {
  sh_timer : bool;
  sh_prepares : prepare_queue;
  sh_watermarks : progress_queue journalWatermarkKey;
  sh_confirms : progress_queue journalConfirmKey;
}.

Definition empty_shard : shard :=
  {| sh_timer := false; sh_prepares := empty_prepares; sh_watermarks := empty_queue; sh_confirms := empty_queue |}.

#[export] Instance shard_rebuild : Rebuild shard := fun s =>
  {| sh_timer := sh_timer s; sh_prepares := sh_prepares s; sh_watermarks := sh_watermarks s;
     sh_confirms := sh_confirms s |}.

Definition pending_depth (s : shard) : Z :=
  pendingPrepareN (sh_prepares s) + Z.of_nat (size (pq_entries (sh_watermarks s)))
  + Z.of_nat (size (pq_entries (sh_confirms s))).

(** What [flush] takes out of the queues. *)
Definition take_batch (batchMaxOps : Z) (s : shard) : list journalBatchItem * shard :=
  let remainingOps := batchMaxOps in
  let remainingBytes := defaultJournalBatchMaxBytes in
  let '(priority, watermarks) := popPriorityHeadRangeBatch remainingOps remainingBytes (sh_watermarks s) in
  let remainingOps := remainingOps - Z.of_nat (length priority) in
  let remainingBytes := remainingBytes - Z.of_nat (length priority) * 64 in
  let '(prepares, prepareBytes, queue) := popPrepareBatch batchMaxOps (sh_prepares s) in
  let prepareCount := Z.of_nat (length prepares) in
  let remainingOps := remainingOps - prepareCount in
  let remainingBytes := remainingBytes - prepareBytes in
  let '(marks, watermarks) :=
    popBatch remainingOps remainingBytes ((prepareCount =? 0) || (0 <? remainingOps)) watermarks in
  let remainingOps := remainingOps - Z.of_nat (length marks) in
  let remainingBytes := remainingBytes - Z.of_nat (length marks) * 64 in
  let '(confirms, confirmed) :=
    popBatch remainingOps remainingBytes ((prepareCount =? 0) || (0 <? remainingOps)) (sh_confirms s) in
  ((watermark_item <$> priority) ++ (BatchPrepare <$> prepares) ++ (watermark_item <$> marks)
     ++ (confirm_item <$> confirms),
   s <| sh_prepares := queue |> <| sh_watermarks := watermarks |> <| sh_confirms := confirmed |>).

Section loop.
Context (batchMaxOps : Z).
Context {J : Type} (append : J -> list journalRecord -> J * res storage_error unit).

(** The shard with its journal, the engine's marks and all answers so far. *)
Record shard_world := {
  sw_shard : shard;
  sw_journal : J;
  sw_marks : engine_marks;
  sw_answers : list delivery;
}.

Definition shard_flush (canceled : gset nat) (w : shard_world) : shard_world :=
  let s := (sw_shard w) <| sh_timer := false |> in
  let w := {| sw_shard := s; sw_journal := sw_journal w; sw_marks := sw_marks w; sw_answers := sw_answers w |} in
  if (pendingPrepareN (sh_prepares s) =? 0) && bool_decide (pq_entries (sh_watermarks s) = ∅)
     && bool_decide (pq_entries (sh_confirms s) = ∅) then w
  else
    let '(items, s) := take_batch batchMaxOps s in
    let answers := sw_answers w ++ concat (item_canceled canceled <$> items) in
    match concat (item_record canceled <$> items) with
    | [] => {| sw_shard := s; sw_journal := sw_journal w; sw_marks := sw_marks w; sw_answers := answers |}
    | records =>
        match append (sw_journal w) records with
        | (journal, Err e) =>
            {| sw_shard := s; sw_journal := journal; sw_marks := sw_marks w;
               sw_answers := answers ++ concat (item_completed (CompletedError e) <$> items) |}
        | (journal, Ok _) =>
            {| sw_shard := s; sw_journal := journal; sw_marks := foldl mark_item (sw_marks w) items;
               sw_answers := answers ++ concat (item_completed Completed <$> items) |}
        end
    end.

Definition enqueue_intent (intent : shard_intent) (s : shard) : shard :=
  match intent with
  | PrepareIntent i => s <| sh_prepares := enqueuePendingPrepare i (sh_prepares s) |>
  | WatermarkIntent recordType i =>
      s <| sh_watermarks := enqueuePending (watermark_key recordType i) i (sh_watermarks s) |>
  | ConfirmIntent i => s <| sh_confirms := enqueuePending (confirm_key i) i (sh_confirms s) |>
  end.

Inductive shard_event :=
| ShardIntent (intent : shard_intent)
| ShardTimer.

(** One round of the loop; [queued] is the number of messages left in the
    channels. *)
Definition shard_step (queued : Z) (canceled : gset nat) (w : shard_world) (event : shard_event) : shard_world :=
  match event with
  | ShardIntent intent =>
      let s := enqueue_intent intent (sw_shard w) in
      let queueDepth := queued + pending_depth s in
      let s := if queueDepth =? 1 then s <| sh_timer := true |> else s in
      let w := {| sw_shard := s; sw_journal := sw_journal w; sw_marks := sw_marks w; sw_answers := sw_answers w |} in
      if (1 <? queueDepth) && (queued =? 0) then shard_flush canceled w
      else if (batchMaxOps <=? pendingPrepareN (sh_prepares s))
              || (defaultJournalBatchMaxBytes <=? pendingPrepareBytes (sh_prepares s))
      then shard_flush canceled w
      else w
  | ShardTimer => if sh_timer (sw_shard w) then shard_flush canceled w else w
  end.

(** On close everything pending is answered with [context.Canceled]. *)
Definition queue_intents {K} `{Countable K} (wrap : K -> progressIntent -> shard_intent) (q : progress_queue K)
    : list shard_intent :=
  concat ((fun key => match pq_entries q !! key with
                      | None => []
                      | Some entry => wrap key <$> pp_intents entry end) <$> pq_order q).

Definition pending_intents (s : shard) : list shard_intent :=
  concat ((fun slot => PrepareIntent <$> default [] (pendingPrepareMap (sh_prepares s) !! slot))
            <$> pendingPrepareSeq (sh_prepares s))
  ++ queue_intents (fun key => WatermarkIntent key.1.1) (sh_watermarks s)
  ++ queue_intents (fun _ => ConfirmIntent) (sh_confirms s).

Definition shard_close (w : shard_world) : list delivery :=
  sw_answers w ++ ((fun intent => (intent, CompletedCanceled)) <$> pending_intents (sw_shard w)).
End loop.
