(* ===== verification/BadgerDB.v ===== *)
(** * The badger database, as its users see it

    A database is a map from byte strings to byte strings.  Badger's
    documentation promises what is used here: a transaction applies all of its
    writes or none, an iterator visits the keys in bytewise order, and a write
    batch commits its writes in order, in several transactions if they are too
    many for one.  [encoding/json] is a pair of functions. *)

From S2P Require Import Prelude.
From S2P Require Import Journal.
From Stdlib Require Import Ascii.

Open Scope Z_scope.

Abbreviation database := (gmap bytes bytes).

(** ** [encoding/json] for one type *)
Class Codec (A : Type) := {
  marshal : A -> option bytes;
  unmarshal : bytes -> option A;
}.

(** A value that comes back as it was written. *)
Definition storable {A} `{Codec A} (a : A) : Prop :=
  exists v, marshal a = Some v /\ v <> [] /\ unmarshal v = Some a.

(** ** Big-endian integers *)
Definition put_be (n : nat) (z : Z) : bytes := rev (put_le n z).
Definition get_be (b : bytes) : Z := get_le (rev b).

(** ** Reading *)

(** Copying an empty value gives the nil slice, which the stores take for a
    missing key. *)
Definition db_get (d : database) (key : bytes) : option bytes :=
  match d !! key with Some [] | None => None | Some value => Some value end.

Fixpoint bytes_leb (a b : bytes) : bool :=
  match a, b with
  | [], _ => true
  | _ :: _, [] => false
  | x :: a, y :: b => if of_byte x =? of_byte y then bytes_leb a b else of_byte x <? of_byte y
  end.

(** [for iter.Seek(prefix); iter.ValidForPrefix(prefix); iter.Next()]. *)
Definition iterate (d : database) (prefix : bytes) : list (bytes * bytes) :=
  isort (fun a b => bytes_leb a.1 b.1)
    (List.filter (fun kv => bool_decide (prefix `prefix_of` kv.1)) (map_to_list d)).

(** ** Writing *)
Inductive db_write :=
| DBSet (key value : bytes)
| DBDelete (key : bytes).

Definition apply_write (d : database) (w : db_write) : database :=
  match w with DBSet key value => <[key := value]> d | DBDelete key => delete key d end.

Definition apply_writes (d : database) (ws : list db_write) : database := foldl apply_write d ws.

(** ** Facts *)
Lemma length_put_be n z : length (put_be n z) = n.
Proof.
  unfold put_be. rw length_rev. revert z. induction n as [|n IH]; intros z; cbn; [done|]. by rw IH.
Qed.

Lemma elem_of_iterate d prefix key value :
  (key, value) ∈ iterate d prefix <-> d !! key = Some value /\ prefix `prefix_of` key.
Proof.
  unfold iterate. rw elem_of_isort list_elem_of_In filter_In -list_elem_of_In elem_of_map_to_list bool_decide_eq_true //.
Qed.

Lemma iterate_NoDup d prefix : NoDup (iterate d prefix).*1.
Proof.
  unfold iterate. rw isort_perm. generalize (NoDup_fst_map_to_list d). generalize (map_to_list d). intros l.
  induction l as [|[key value] l IH]; cbn; [done|]. intros [Hk Hl]%NoDup_cons.
  destruct (bool_decide _); cbn; [|by apply IH]. constructor; [|by apply IH].
  intros Hin. apply Hk. apply list_elem_of_fmap in Hin as (kv & -> & Hin).
  apply list_elem_of_In, filter_In in Hin as [Hin _]. apply list_elem_of_fmap. exists kv. by rw list_elem_of_In.
Qed.

Lemma Forall_Forall2 {A B} (R : A -> B -> Prop) l :
  Forall (fun a => exists b, R a b) l -> exists l', Forall2 R l l'.
Proof.
  induction 1 as [|a l [b Hb] _ [l' IH]]; [by exists []|]. exists (b :: l'). by constructor.
Qed.

(** An iterator visits the entries of a map once each, where the keys with the
    prefix are those of the map. *)
Lemma iterate_image {K : Type} {V : Type} `{Countable K} (d : database) (prefix : bytes) (f : K -> bytes) (M : gmap K V)
    (P : bytes -> V -> Prop) :
  (forall k1 k2, is_Some (M !! k1) -> is_Some (M !! k2) -> f k1 = f k2 -> k1 = k2) ->
  (forall key v, d !! key = Some v -> prefix `prefix_of` key -> exists k x, M !! k = Some x /\ key = f k /\ P v x) ->
  (forall k, is_Some (M !! k) -> is_Some (d !! f k) /\ prefix `prefix_of` f k) ->
  exists l, l ≡ₚ map_to_list M /\
    Forall2 (fun kv kx => kv.1 = f kx.1 /\ P kv.2 kx.2) (iterate d prefix) l.
Proof.
  intros Hinj Hd Hm.
  destruct (Forall_Forall2 (fun kv kx => (kv.1 = f kx.1 /\ P kv.2 kx.2) /\ M !! kx.1 = Some kx.2) (iterate d prefix))
    as [l Hl].
  { apply Forall_forall. intros [key v] [Hk Hp]%elem_of_iterate. destruct (Hd _ _ Hk Hp) as (k & x & ? & -> & ?).
    by exists (k, x). }
  exists l. split; [|by eapply Forall2_impl; [exact Hl|]; cbn; intros ?? [? ?]].
  apply NoDup_Permutation; [|apply NoDup_map_to_list|].
  - apply NoDup_alt. intros i j kx Hi Hj. destruct (Forall2_lookup_r _ _ _ _ _ Hl Hi) as (a & Ha & [Hfa _] & _).
    destruct (Forall2_lookup_r _ _ _ _ _ Hl Hj) as (b & Hb & [Hfb _] & _).
    pose proof (iterate_NoDup d prefix) as Hnd. rw NoDup_alt in Hnd.
    apply (Hnd i j (f kx.1)); [by rw list_lookup_fmap Ha -Hfa|by rw list_lookup_fmap Hb -Hfb].
  - intros [k x]. rw elem_of_map_to_list. split.
    + intros [i Hi]%list_elem_of_lookup. by destruct (Forall2_lookup_r _ _ _ _ _ Hl Hi) as (a & Ha & _ & ?).
    + intros Hx. destruct (Hm k) as [[v Hv] Hp]; [by exists x|].
      assert ((f k, v) ∈ iterate d prefix) as Hin by by apply elem_of_iterate.
      apply list_elem_of_lookup in Hin as [i Hi]. destruct (Forall2_lookup_l _ _ _ _ _ Hl Hi) as ([k' x'] & Hk & [Hf _] & HM).
      cbn in *. apply Hinj in Hf as <-; [|by exists x|by exists x']. rw Hx in HM. injection HM as <-.
      apply list_elem_of_lookup. by exists i.
Qed.

(** ** The order of keys *)
Lemma of_byte_inj a b : of_byte a = of_byte b -> a = b.
Proof.
  unfold of_byte. intros Heq. apply N2Z.inj in Heq. by rw -(ascii_N_embedding a) Heq ascii_N_embedding.
Qed.

Lemma bytes_leb_total a b : bytes_leb a b = false -> bytes_leb b a = true.
Proof.
  revert b. induction a as [|x a IH]; intros [|y b]; cbn; try done.
  destruct (Z.eqb_spec (of_byte x) (of_byte y)) as [Hxy|Hxy]; rw (Z.eqb_sym (of_byte y)).
  - rw Hxy Z.eqb_refl. apply IH.
  - rw (proj2 (Z.eqb_neq _ _) Hxy). lia.
Qed.

Lemma bytes_leb_trans a b c : bytes_leb a b = true -> bytes_leb b c = true -> bytes_leb a c = true.
Proof.
  revert b c. induction a as [|x a IH]; intros [|y b] [|z c]; cbn; try done.
  destruct (Z.eqb_spec (of_byte x) (of_byte y)), (Z.eqb_spec (of_byte y) (of_byte z)), (Z.eqb_spec (of_byte x) (of_byte z));
    try lia. by apply IH.
Qed.

Lemma bytes_leb_antisymm a b : bytes_leb a b = true -> bytes_leb b a = true -> a = b.
Proof.
  revert b. induction a as [|x a IH]; intros [|y b]; cbn; try done. rw (Z.eqb_sym (of_byte y)).
  destruct (Z.eqb_spec (of_byte x) (of_byte y)) as [Hxy|Hxy]; [|lia]. intros Ha Hb. by rw (of_byte_inj _ _ Hxy) (IH _ Ha Hb).
Qed.

Lemma iterate_sorted d prefix : StronglySorted (fun a b => bytes_leb a.1 b.1 = true) (iterate d prefix).
Proof.
  apply (isort_sorted (fun a b : bytes * bytes => bytes_leb a.1 b.1)); [intros a b; apply bytes_leb_total|].
  intros a b c. apply bytes_leb_trans.
Qed.

(** The iterator's list, known by its members. *)
Lemma iterate_eq d prefix l :
  StronglySorted (fun a b => bytes_leb a.1 b.1 = true) l -> NoDup l.*1 ->
  (forall key value, (key, value) ∈ l <-> d !! key = Some value /\ prefix `prefix_of` key) ->
  iterate d prefix = l.
Proof.
  intros Hs Hnd Hl. apply (sorted_same (fun a b : bytes * bytes => bytes_leb a.1 b.1)); [|..|done].
  - intros [k1 v1] [k2 v2] [H1 _]%elem_of_iterate [H2 _]%elem_of_iterate H12 H21. cbn in *.
    pose proof (bytes_leb_antisymm _ _ H12 H21) as <-. congruence.
  - apply NoDup_Permutation; [exact (NoDup_fmap_1 fst _ (iterate_NoDup d prefix))|exact (NoDup_fmap_1 fst _ Hnd)|].
    intros [key value]. by rw Hl elem_of_iterate.
  - apply iterate_sorted.
Qed.

(** *** Big-endian keys sort by their number *)
Lemma get_le_app a b : get_le (a ++ b) = get_le a + 256 ^ Z.of_nat (length a) * get_le b.
Proof.
  induction a as [|x a IH]; cbn [app get_le length]; [lia|]. rw IH Nat2Z.inj_succ Z.pow_succ_r; [lia|]. lia.
Qed.

Lemma get_be_cons x b : get_be (x :: b) = of_byte x * 256 ^ Z.of_nat (length b) + get_be b.
Proof. unfold get_be. cbn [rev]. rw get_le_app length_rev. cbn [get_le]. lia. Qed.

Lemma of_byte_range x : 0 <= of_byte x < 256.
Proof. unfold of_byte. pose proof (N_ascii_bounded x). lia. Qed.

Lemma get_be_range b : 0 <= get_be b < 256 ^ Z.of_nat (length b).
Proof.
  induction b as [|x b IH]; [done|]. rw get_be_cons. cbn [length]. rw Nat2Z.inj_succ Z.pow_succ_r; [lia|].
  pose proof (of_byte_range x). nia.
Qed.

Lemma bytes_leb_be a b : length a = length b -> bytes_leb a b = (get_be a <=? get_be b).
Proof.
  revert b. induction a as [|x a IH]; intros [|y b]; cbn [length bytes_leb]; try done. intros [= Hl].
  rw !get_be_cons -Hl. pose proof (get_be_range a). pose proof (get_be_range b) as Hb. rw -Hl in Hb.
  destruct (Z.eqb_spec (of_byte x) (of_byte y)) as [->|Hxy].
  - rw (IH _ Hl). lia.
  - destruct (Z.ltb_spec (of_byte x) (of_byte y)); symmetry; [apply Z.leb_le|apply Z.leb_gt]; nia.
Qed.

Lemma bytes_leb_app p a b : bytes_leb (p ++ a) (p ++ b) = bytes_leb a b.
Proof. induction p as [|x p IH]; [done|]. cbn. by rw Z.eqb_refl. Qed.
