(* ===== verification/HAStore.v ===== *)
(** * The store of the highly available coordinator (src/coordserver/hastore.go,
      hastore_inmemory.go)

    A lease, held by one coordinator at a time, and a snapshot of everything the
    coordinators share, saved by compare-and-swap under the lease.  Nil maps and
    slices are empty ones here, so [normalizeHASnapshot] is the identity, and
    [cloneHASnapshot] copies the runtime's state only: the other fields hold
    values without a state of their own. *)

From S2P Require Import Prelude.
From S2P Require Import CoordTypes.
From S2P Require Import StorageTypes.
From S2P Require Import RuntimeTypes.
From S2P Require Import Runtime.
From S2P Require Import Journal.
From S2P Require Import CoordServer.

Open Scope Z_scope.
Open Scope record_scope.

(** ** Leases *)
Record LeaderLease := {
  lease_HolderID : string;
  lease_HolderEndpoint : string;
  lease_Epoch : Z;
  lease_ExpiresAtUnixNano : Z;
}.

Definition noLease : LeaderLease :=
  {| lease_HolderID := ""; lease_HolderEndpoint := ""; lease_Epoch := 0; lease_ExpiresAtUnixNano := 0 |}.

(** ** Snapshots *)
Inductive HAOutboxCommandKind :=
| OutboxCommandAddReplicaAsTail
| OutboxCommandUpdateChainPeers
| OutboxCommandMarkReplicaLeaving
| OutboxCommandResumeRecovered
| OutboxCommandRecoverReplica
| OutboxCommandDropRecovered.

Record HAOutboxEntry := {
  ho_ID : string;
  ho_Epoch : Z;
  ho_NodeID : string;
  ho_Slot : Z;
  ho_SlotVersion : Z;
  ho_CommandID : string;
  ho_Kind : HAOutboxCommandKind;
  ho_Assignment : option ReplicaAssignment;
  ho_SourceNodeID : string;
}.

#[export] Instance HAOutboxEntry_rebuild : Rebuild HAOutboxEntry := fun e =>
  {| ho_ID := ho_ID e; ho_Epoch := ho_Epoch e; ho_NodeID := ho_NodeID e; ho_Slot := ho_Slot e;
     ho_SlotVersion := ho_SlotVersion e; ho_CommandID := ho_CommandID e; ho_Kind := ho_Kind e;
     ho_Assignment := ho_Assignment e; ho_SourceNodeID := ho_SourceNodeID e |}.

(** [HAActivePeerRefreshState] has the fields of [activePeerRefreshState]; the
    conversions between the two copy them. *)
Record HASnapshot := {
  ha_SnapshotVersion : Z;
  ha_State : State;
  ha_PendingEpochBySlot : gmap Z Z;
  ha_Heartbeats : gmap string NodeStatus;
  ha_ActivePeerRefresh : gmap Z activePeerRefreshState;
  ha_StartupBudgetActive : bool;
  ha_UnavailableReplicas : gmap string (gmap Z bool);
  ha_LastRecoveryReports : gmap string NodeRecoveryReport;
  ha_Outbox : list HAOutboxEntry;
}.

#[export] Instance HASnapshot_rebuild : Rebuild HASnapshot := fun s =>
  {| ha_SnapshotVersion := ha_SnapshotVersion s; ha_State := ha_State s;
     ha_PendingEpochBySlot := ha_PendingEpochBySlot s; ha_Heartbeats := ha_Heartbeats s;
     ha_ActivePeerRefresh := ha_ActivePeerRefresh s; ha_StartupBudgetActive := ha_StartupBudgetActive s;
     ha_UnavailableReplicas := ha_UnavailableReplicas s; ha_LastRecoveryReports := ha_LastRecoveryReports s;
     ha_Outbox := ha_Outbox s |}.

Definition zeroHASnapshot : HASnapshot :=
  {| ha_SnapshotVersion := 0; ha_State := zeroRuntimeState; ha_PendingEpochBySlot := ∅; ha_Heartbeats := ∅;
     ha_ActivePeerRefresh := ∅; ha_StartupBudgetActive := false; ha_UnavailableReplicas := ∅;
     ha_LastRecoveryReports := ∅; ha_Outbox := [] |}.

(** [OpenInMemoryFromState(state).Current()] copies the state twice. *)
Definition cloneHASnapshot (snapshot : HASnapshot) : HASnapshot :=
  snapshot <| ha_State := cloneState (cloneState (ha_State snapshot)) |>.

(** ** The interface

    [now] and [ttl] are in nanoseconds.  An operation that fails may have
    changed nothing. *)
Class HAStore (S : Type) := {
  CurrentLease : S -> res server_error (LeaderLease * bool);
  AcquireOrRenew : S -> string -> string -> Z -> Z -> res server_error (S * LeaderLease * bool);
  LoadSnapshot : S -> res server_error HASnapshot;
  SaveSnapshot : S -> LeaderLease -> Z -> Z -> HASnapshot -> res server_error (S * Z);
}.

(** ** In memory *)
Record InMemoryHAStore := {
  mh_lease : option LeaderLease;
  mh_snapshot : option HASnapshot;
}.

Definition NewInMemoryHAStore : InMemoryHAStore := {| mh_lease := None; mh_snapshot := None |}.

Definition expires_at (now ttl : Z) : Z := UnixNano (now + ttl).

Definition mem_AcquireOrRenew (s : InMemoryHAStore) (holderID holderEndpoint : string) (now ttl : Z)
    : InMemoryHAStore * LeaderLease * bool :=
  let take (epoch : Z) :=
    let lease := {| lease_HolderID := holderID; lease_HolderEndpoint := holderEndpoint; lease_Epoch := epoch;
                    lease_ExpiresAtUnixNano := expires_at now ttl |} in
    ({| mh_lease := Some lease; mh_snapshot := mh_snapshot s |}, lease, true) in
  match mh_lease s with
  | None => take 1
  | Some lease =>
      let currentExpired := lease_ExpiresAtUnixNano lease <=? UnixNano now in
      if String.eqb (lease_HolderID lease) holderID && negb currentExpired then take (lease_Epoch lease)
      else if currentExpired then take (u64_add (lease_Epoch lease) 1)
      else (s, lease, false)
  end.

Definition mem_LoadSnapshot (s : InMemoryHAStore) : HASnapshot :=
  match mh_snapshot s with Some snapshot => cloneHASnapshot snapshot | None => zeroHASnapshot end.

Definition mem_current_version (s : InMemoryHAStore) : Z :=
  match mh_snapshot s with Some snapshot => ha_SnapshotVersion snapshot | None => 0 end.

Definition mem_SaveSnapshot (s : InMemoryHAStore) (lease : LeaderLease) (now expectedSnapshotVersion : Z)
    (snapshot : HASnapshot) : res server_error (InMemoryHAStore * Z) :=
  _ ← match mh_lease s with
      | None => Err ErrNotLeader
      | Some current =>
          reject (negb (String.eqb (lease_HolderID current) (lease_HolderID lease)) ||
                  negb (lease_Epoch current =? lease_Epoch lease) ||
                  (lease_ExpiresAtUnixNano current <=? UnixNano now)) ErrNotLeader
      end;
  _ ← reject (negb (mem_current_version s =? expectedSnapshotVersion)) ErrHASnapshotConflict;
  let version := u64_add expectedSnapshotVersion 1 in
  let cloned := (cloneHASnapshot snapshot) <| ha_SnapshotVersion := version |> in
  Ok ({| mh_lease := mh_lease s; mh_snapshot := Some cloned |}, version).

#[export] Instance InMemoryHAStore_store : HAStore InMemoryHAStore := {
  CurrentLease s := Ok (default noLease (mh_lease s), is_set (mh_lease s));
  AcquireOrRenew s holderID holderEndpoint now ttl := Ok (mem_AcquireOrRenew s holderID holderEndpoint now ttl);
  LoadSnapshot s := Ok (mem_LoadSnapshot s);
  SaveSnapshot := mem_SaveSnapshot;
}.
