(* ===== verification/HAEngine.v ===== *)
(** * The highly available coordinator (src/coordserver/ha.go, ha_engine.go)

    Several coordinator servers share an [HAStore].  A handler is a program: a
    tree of calls, to the store, the clock, the storage nodes and the server's
    own fields, whose answers choose the next call.  Handlers of one server and
    of several servers interleave call by call, as [HAWorld] runs them. *)

From S2P Require Import Prelude.
From S2P Require Import CoordTypes.
From S2P Require Import Placement.
From S2P Require Import Reconfig.
From S2P Require Import StorageTypes.
From S2P Require Import RuntimeTypes.
From S2P Require Import Runtime.
From S2P Require Import Journal.
From S2P Require Import CoordServer.
From S2P Require Import HAStore.

Open Scope Z_scope.
Open Scope record_scope.

(** ** Programs *)
Inductive ha_call : Type -> Type :=
| CallNow : ha_call Z
| CallAcquireOrRenew (now : Z) : ha_call (res server_error (LeaderLease * bool))
| CallLoadSnapshot : ha_call (res server_error HASnapshot)
| CallSaveSnapshot (lease : LeaderLease) (now expected : Z) (snapshot : HASnapshot) : ha_call (res server_error Z)
| CallSend (entry : HAOutboxEntry) : ha_call (res server_error unit)
| CallCurrentLease : ha_call (LeaderLease * bool)
| CallSetLease (lease : LeaderLease) (isLeader : bool) : ha_call unit
| CallSetIsLeader (isLeader : bool) : ha_call unit
| CallSync (snapshot : HASnapshot) : ha_call unit
| CallPolicy : ha_call ReconfigurationPolicy
| CallState : ha_call State
| CallKnowsNode (nodeID : string) : ha_call bool.

Abbreviation prog := (program ha_call).
Abbreviation ha A := (prog (res server_error A)).

Definition lift_runtime {A} (r : res runtime_error A) : ha A :=
  Done match r with Ok a => Ok a | Err e => Err (ErrRuntime e) end.

(** ** The outbox *)
Definition ha_kind_string (kind : HAOutboxCommandKind) : string :=
  match kind with
  | OutboxCommandAddReplicaAsTail => "add_replica_as_tail"
  | OutboxCommandUpdateChainPeers => "update_chain_peers"
  | OutboxCommandMarkReplicaLeaving => "mark_replica_leaving"
  | OutboxCommandResumeRecovered => "resume_recovered_replica"
  | OutboxCommandRecoverReplica => "recover_replica"
  | OutboxCommandDropRecovered => "drop_recovered_replica"
  end.

Definition commandIDForOutbox (kind : HAOutboxCommandKind) (nodeID : string) (slot epoch : Z) : string :=
  ha_kind_string kind +:+ "-" +:+ nodeID +:+ "-" +:+ pretty slot +:+ "-e" +:+ pretty epoch.

Definition activePeerRefreshOutboxID (slot : Z) (nodeID : string) : string :=
  "ha-peer-refresh-slot" +:+ pretty slot +:+ "-" +:+ nodeID.

Definition recoveryOutboxID (kind : HAOutboxCommandKind) (nodeID : string) (slot : Z) : string :=
  "ha-recovery-" +:+ ha_kind_string kind +:+ "-" +:+ nodeID +:+ "-" +:+ pretty slot.

Definition isRecoveryOutboxKind (kind : HAOutboxCommandKind) : bool :=
  match kind with
  | OutboxCommandResumeRecovered | OutboxCommandRecoverReplica | OutboxCommandDropRecovered => true
  | _ => false
  end.

Definition filterRecoveryOutboxEntries (entries : list HAOutboxEntry) : list HAOutboxEntry :=
  List.filter (fun e => isRecoveryOutboxKind (ho_Kind e)) entries.

Definition removeOutboxEntry (entries : list HAOutboxEntry) (id : string) : list HAOutboxEntry :=
  List.filter (fun e => negb (String.eqb (ho_ID e) id)) entries.

Definition haOutboxKindFromRuntime (kind : OutboxCommandKind) : HAOutboxCommandKind :=
  match kind with
  | OutboxCommandKindAddReplicaAsTail => OutboxCommandAddReplicaAsTail
  | OutboxCommandKindUpdateChainPeers => OutboxCommandUpdateChainPeers
  | OutboxCommandKindMarkReplicaLeaving => OutboxCommandMarkReplicaLeaving
  end.

Definition runtimeHAOutboxEntries (entries : list OutboxEntry) (epoch : Z) : list HAOutboxEntry :=
  (fun entry =>
    {| ho_ID := ob_ID entry; ho_Epoch := epoch; ho_NodeID := ob_NodeID entry; ho_Slot := ob_Slot entry;
       ho_SlotVersion := asg_ChainVersion (ob_Assignment entry); ho_CommandID := ob_CommandID entry;
       ho_Kind := haOutboxKindFromRuntime (ob_Kind entry); ho_Assignment := Some (ob_Assignment entry);
       ho_SourceNodeID := "" |}) <$> entries.

Definition runtimeOutboxHasSlot (entries : list OutboxEntry) (slot : Z) : bool :=
  existsb (fun e => ob_Slot e =? slot) entries.

Definition runtimeOutboxHasEntryID (entries : list OutboxEntry) (id : string) : bool :=
  existsb (fun e => String.eqb (ob_ID e) id) entries.

(** *** Refreshes of the peers of active replicas *)
Definition shouldDispatchActivePeerRefreshForState (state : State) (slot : Z) (refresh : activePeerRefreshState) : bool :=
  allowWhilePending refresh ||
  (negb (is_set (rt_PendingBySlot state !! slot)) && negb (runtimeOutboxHasSlot (rt_Outbox state) slot)).

Definition chainForActivePeerRefresh (state : State) (slot : Z) (refresh : activePeerRefreshState) : option Chain :=
  chain ← zidx (cs_Chains (rt_Cluster state)) slot;
  match chain_Replicas (assignmentChain refresh) with
  | _ :: _ => if chain_Slot (assignmentChain refresh) =? slot then Some (assignmentChain refresh)
              else Some (activeServingChain chain)
  | [] => Some (activeServingChain chain)
  end.

Definition refreshStateWithDefaultRemainingNodes (state : State) (slot : Z) (refresh : activePeerRefreshState)
    : option activePeerRefreshState :=
  if (0 <? size (remainingNodeIDs refresh))%nat then Some refresh
  else
    chain ← chainForActivePeerRefresh state slot refresh;
    Some (refresh <| remainingNodeIDs :=
      list_to_map ((fun r => (replica_NodeID r, true)) <$>
        List.filter (is_state ReplicaStateActive) (chain_Replicas chain)) |>).

Definition refresh_entries (state : State) (persisted : gmap Z activePeerRefreshState) (epoch slot : Z)
    : list HAOutboxEntry :=
  let refresh := default zeroRefresh (persisted !! slot) in
  if negb (shouldDispatchActivePeerRefreshForState state slot refresh) then []
  else
    match refreshStateWithDefaultRemainingNodes state slot refresh with
    | None => []
    | Some initialized =>
        match chainForActivePeerRefresh state slot initialized with
        | None => []
        | Some chain =>
            let nodeIDs := sort_Strings (map_to_list (filter (fun '(_, remaining) => remaining = true)
                             (remainingNodeIDs initialized))).*1 in
            nodeIDs ≫= fun nodeID =>
              match server_assignmentForNode chain (cs_NodesByID (rt_Cluster state)) nodeID
                      (slot_version (rt_SlotVersions state) slot) with
              | None => []
              | Some assignment =>
                  [{| ho_ID := activePeerRefreshOutboxID slot nodeID; ho_Epoch := epoch; ho_NodeID := nodeID;
                      ho_Slot := slot; ho_SlotVersion := asg_ChainVersion assignment;
                      ho_CommandID := commandIDForOutbox OutboxCommandUpdateChainPeers nodeID slot epoch;
                      ho_Kind := OutboxCommandUpdateChainPeers; ho_Assignment := Some assignment;
                      ho_SourceNodeID := "" |}]
              end
        end
    end.

Definition activePeerRefreshOutboxEntries (state : State) (persisted : gmap Z activePeerRefreshState) (epoch : Z)
    : list HAOutboxEntry :=
  isort Z.leb (map_to_list persisted).*1 ≫= refresh_entries state persisted epoch.

(** [sortHAOutbox]: by slot, kind, node and ID. *)
Definition then_compare (a b : comparison) : comparison := match a with Eq => b | _ => a end.

Definition ha_entry_compare (a b : HAOutboxEntry) : comparison :=
  then_compare (ho_Slot a ?= ho_Slot b)
    (then_compare (strings_Compare (ha_kind_string (ho_Kind a)) (ha_kind_string (ho_Kind b)))
      (then_compare (strings_Compare (ho_NodeID a) (ho_NodeID b)) (strings_Compare (ho_ID a) (ho_ID b)))).

Definition sortHAOutbox (entries : list HAOutboxEntry) : list HAOutboxEntry :=
  isort (fun a b => match ha_entry_compare a b with Gt => false | _ => true end) entries.

Definition rebuildHAOutbox (snapshot : HASnapshot) (epoch : Z) : list HAOutboxEntry :=
  sortHAOutbox (filterRecoveryOutboxEntries (ha_Outbox snapshot) ++
                runtimeHAOutboxEntries (rt_Outbox (ha_State snapshot)) epoch ++
                activePeerRefreshOutboxEntries (ha_State snapshot) (ha_ActivePeerRefresh snapshot) epoch).

Definition rewriteSnapshotEpoch (snapshot : HASnapshot) (epoch : Z) : HASnapshot * bool :=
  let cloned := cloneHASnapshot snapshot in
  (cloned <| ha_Outbox := (fun e => e <| ho_Epoch := epoch |>) <$> ha_Outbox cloned |>,
   existsb (fun e => negb (ho_Epoch e =? epoch)) (ha_Outbox cloned)).

(** ** What a command changes in the snapshot *)
Definition pendingEpochFromHAOutbox (slot : Z) (pending : PendingWork) (outbox : list HAOutboxEntry) : option Z :=
  ho_Epoch <$> List.find (fun entry =>
    (ho_Slot entry =? slot) && String.eqb (ho_NodeID entry) (pw_NodeID pending) &&
    match pw_Kind pending, ho_Kind entry with
    | PendingKindReady, OutboxCommandAddReplicaAsTail | PendingKindRemoved, OutboxCommandMarkReplicaLeaving => true
    | _, _ => false
    end) outbox.

Definition next_pending_epoch (current : gmap Z Z) (currentPending : gmap Z PendingWork)
    (outbox : list HAOutboxEntry) (slot : Z) (pending : PendingWork) : option Z :=
  let kept := if bool_decide (currentPending !! slot = Some pending) then current !! slot else None in
  match kept with
  | Some epoch => Some epoch
  | None => match pendingEpochFromHAOutbox slot pending outbox with
            | Some epoch => Some epoch
            | None => current !! slot
            end
  end.

Definition nextHAPendingEpochs (current : gmap Z Z) (currentPending nextPending : gmap Z PendingWork)
    (outbox : list HAOutboxEntry) : gmap Z Z :=
  map_imap (next_pending_epoch current currentPending outbox) nextPending.

(** What the node said last, unless something newer was seen. *)
Definition heartbeat_known (record : NodeLivenessRecord) : option NodeStatus :=
  if isZeroNodeStatus (nl_LastStatus record) then None else Some (nl_LastStatus record).

Definition nextHAHeartbeats (current : gmap string NodeStatus) (cmd : Command)
    (liveness : gmap string NodeLivenessRecord) : gmap string NodeStatus :=
  let seen (r : NodeReadyCommand) := <[status_NodeID (seen_Status r) := seen_Status r]> current in
  let next := match cmd_NodeReady cmd, cmd_Heartbeat cmd with
              | Some r, _ => seen r
              | None, Some h => seen h
              | None, None => current
              end in
  next ∪ omap heartbeat_known liveness.

Definition initialHAStartupBudgetActive (snapshot : HASnapshot) (defaultActive : bool) (state : State) : bool :=
  let active := if (ha_SnapshotVersion snapshot =? 0) && negb (isInitialized (ha_State snapshot))
                then defaultActive else ha_StartupBudgetActive snapshot in
  if clusterFullySettledForStartup (rt_Cluster state) then false else active.

Definition nextHAStartupBudgetActive := initialHAStartupBudgetActive.

Definition plan_refresh (sp : SlotPlan) : activePeerRefreshState :=
  if slotPlanHasOnlyStepKind sp StepKindAppendTail
  then zeroRefresh <| assignmentChain := plan_After sp |> <| allowWhilePending := true |> else zeroRefresh.

Definition nextHAActivePeerRefreshFromPlan (current : gmap Z activePeerRefreshState)
    (plan : option ReconfigurationPlan) : gmap Z activePeerRefreshState :=
  match plan with
  | None => current
  | Some plan => foldl (fun next sp => <[plan_Slot sp := plan_refresh sp]> next) current (rp_ChangedSlots plan)
  end.

(** ** Recovery reports *)
Definition markUnavailableReplicasInSnapshot (snapshot : HASnapshot) (report : NodeRecoveryReport) : HASnapshot :=
  let slots := default ∅ (ha_UnavailableReplicas snapshot !! report_NodeID report) in
  let slots := foldl (fun slots r => <[asg_Slot (rec_Assignment r) := true]> slots) slots (report_Replicas report) in
  snapshot <| ha_UnavailableReplicas := <[report_NodeID report := slots]> (ha_UnavailableReplicas snapshot) |>.

Definition clearUnavailableInHASnapshot (snapshot : HASnapshot) (nodeID : string) (slot : Z) : HASnapshot :=
  match ha_UnavailableReplicas snapshot !! nodeID with
  | None => snapshot
  | Some slots =>
      let slots := delete slot slots in
      let all := ha_UnavailableReplicas snapshot in
      snapshot <| ha_UnavailableReplicas :=
        if (size slots =? 0)%nat then delete nodeID all else <[nodeID := slots]> all |>
  end.

Definition haSnapshotHasUnavailableSlots (snapshot : HASnapshot) (nodeID : string) : bool :=
  match ha_UnavailableReplicas snapshot !! nodeID with Some slots => (0 <? size slots)%nat | None => false end.

Definition haRecoveryOutboxReplaceKey (entry : HAOutboxEntry) : string :=
  ho_NodeID entry +:+ "-" +:+ pretty (ho_Slot entry).

Definition replaceHARecoveryOutboxEntries (base added : list HAOutboxEntry) : list HAOutboxEntry :=
  List.filter (fun entry =>
    isRecoveryOutboxKind (ho_Kind entry) &&
    negb (existsb (fun a => String.eqb (haRecoveryOutboxReplaceKey a) (haRecoveryOutboxReplaceKey entry)) added))
    base ++ added.

(** One replica of the report: drop it, resume it, or recover it from a peer.
    The chain is indexed by the slot of an assignment found in it. *)
Definition recovery_entry (state : State) (nodeID : string) (epoch : Z) (recovered : RecoveredReplica)
    : res server_error HAOutboxEntry :=
  let slot := asg_Slot (rec_Assignment recovered) in
  let entry (kind : HAOutboxCommandKind) (version : Z) (assignment : option ReplicaAssignment) (source : string) :=
    {| ho_ID := recoveryOutboxID kind nodeID slot; ho_Epoch := epoch; ho_NodeID := nodeID; ho_Slot := slot;
       ho_SlotVersion := version; ho_CommandID := commandIDForOutbox kind nodeID slot epoch; ho_Kind := kind;
       ho_Assignment := assignment; ho_SourceNodeID := source |} in
  match currentAssignmentForNode state nodeID slot with
  | None => Ok (entry OutboxCommandDropRecovered 0 None "")
  | Some current =>
      if canResumeRecoveredReplica recovered current
      then Ok (entry OutboxCommandResumeRecovered (asg_ChainVersion current) (Some current) "")
      else
        match zidx (cs_Chains (rt_Cluster state)) slot ≫= fun chain => recoverySourceNodeID chain nodeID with
        | None => Err ErrRecoveryFailed
        | Some source => Ok (entry OutboxCommandRecoverReplica (asg_ChainVersion current) (Some current) source)
        end
  end.

Definition recoveryOutboxEntriesForReport (state : State) (report : NodeRecoveryReport) (epoch : Z)
    : res server_error (list HAOutboxEntry) :=
  res_fold (fun entries recovered =>
    entry ← recovery_entry state (report_NodeID report) epoch recovered; Ok (entries ++ [entry]))
    [] (report_Replicas report).

(** ** Acknowledgement IDs

    [hash/fnv]'s 64-bit FNV-1a, and [%x]. *)
Definition fnv_byte (h : Z) (a : Ascii.ascii) : Z := u64 (Z.lxor h (Z.of_N (Ascii.N_of_ascii a)) * 1099511628211).

Definition fnv_string (h : Z) (s : string) : Z := foldl fnv_byte h (String.list_ascii_of_string s).

Definition hex_digit (d : Z) : string :=
  String (Ascii.ascii_of_N (Z.to_N (if d <? 10 then 48 + d else 87 + d))) "".

Fixpoint hex_digits (fuel : nat) (z : Z) (suffix : string) : string :=
  match fuel with
  | O => suffix
  | S fuel =>
      let s := hex_digit (z mod 16) +:+ suffix in
      if z / 16 =? 0 then s else hex_digits fuel (z / 16) s
  end.

Definition outboxAckCommandID (expectedVersion : Z) (entryIDs : list string) : string :=
  let h := foldl (fun h id => fnv_byte (fnv_string h id) Ascii.zero) 14695981039346656037 (sort_Strings entryIDs) in
  "server-ack-outbox-v" +:+ pretty expectedVersion +:+ "-n" +:+ pretty (Z.of_nat (length entryIDs)) +:+
  "-h" +:+ hex_digits 16 h "".

(** ** Handlers *)
Definition is_not_leader (e : server_error) : bool :=
  match e with ErrNotLeader | NotLeaderError _ => true | _ => false end.
Definition is_conflict (e : server_error) : bool := match e with ErrHASnapshotConflict => true | _ => false end.
Definition is_retryable (e : server_error) : bool :=
  match e with ErrHASnapshotConflict | ErrRuntime ErrVersionMismatch => true | _ => false end.
Definition is_dispatch_failure (e : server_error) : bool :=
  match e with ErrUnknownNode | ErrDispatchFailed | ErrDispatchTimeout => true | _ => false end.

Definition saveHASnapshot (expectedSnapshotVersion : Z) (snapshot : HASnapshot) : ha unit :=
  '(lease, _) ← call CallCurrentLease;
  now ← call CallNow;
  version <~ call (CallSaveSnapshot lease now expectedSnapshotVersion snapshot);
  _ ← call (CallSync (snapshot <| ha_SnapshotVersion := version |>));
  succeed ().

Definition readHASnapshot : ha HASnapshot :=
  snapshot <~ call CallLoadSnapshot; succeed (cloneHASnapshot snapshot).

Definition loadCurrentHASnapshot : ha HASnapshot :=
  snapshot <~ readHASnapshot;
  _ ← call (CallSync snapshot);
  succeed snapshot.

(** [ackHAOutboxEntry]: the snapshot once the node has carried the entry out. *)
Definition ack_refresh (next : HASnapshot) (entry : HAOutboxEntry) (refresh : activePeerRefreshState) : HASnapshot :=
  match refreshStateWithDefaultRemainingNodes (ha_State next) (ho_Slot entry) refresh with
  | None => next
  | Some active =>
      if (0 <? size (remainingNodeIDs active))%nat then
        let remaining := delete (ho_NodeID entry) (remainingNodeIDs active) in
        next <| ha_ActivePeerRefresh :=
          if (size remaining =? 0)%nat then delete (ho_Slot entry) (ha_ActivePeerRefresh next)
          else <[ho_Slot entry := active <| remainingNodeIDs := remaining |>]> (ha_ActivePeerRefresh next) |>
      else next
  end.

Definition ack_command (snapshot : HASnapshot) (entry : HAOutboxEntry) : Command :=
  {| cmd_ID := outboxAckCommandID (rt_Version (ha_State snapshot)) [ho_ID entry];
     cmd_ExpectedVersion := rt_Version (ha_State snapshot); cmd_Kind := CommandKindAcknowledgeOutbox;
     cmd_Bootstrap := None; cmd_Reconfigure := None; cmd_Progress := None; cmd_NodeReady := None;
     cmd_Heartbeat := None; cmd_Liveness := None;
     cmd_AcknowledgeOutbox := Some {| ack_EntryID := ""; ack_EntryIDs := [ho_ID entry] |} |}.

Definition with_outbox (snapshot next : HASnapshot) (epoch : Z) : HASnapshot :=
  let outbox := rebuildHAOutbox next epoch in
  next <| ha_Outbox := outbox |>
       <| ha_PendingEpochBySlot :=
            nextHAPendingEpochs (ha_PendingEpochBySlot snapshot) (rt_PendingBySlot (ha_State snapshot))
              (rt_PendingBySlot (ha_State next)) outbox |>.

Definition ackHAOutboxEntry (snapshot : HASnapshot) (entry : HAOutboxEntry) : ha HASnapshot :=
  let next := cloneHASnapshot snapshot in
  if isRecoveryOutboxKind (ho_Kind entry) then
    let next := next <| ha_Outbox := removeOutboxEntry (ha_Outbox next) (ho_ID entry) |> in
    let next := clearUnavailableInHASnapshot next (ho_NodeID entry) (ho_Slot entry) in
    '(lease, _) ← call CallCurrentLease;
    succeed (next <| ha_Outbox := rebuildHAOutbox next (lease_Epoch lease) |>)
  else
    next <~ (if runtimeOutboxHasEntryID (rt_Outbox (ha_State snapshot)) (ho_ID entry) then
               evaluated <~ lift_runtime (EvaluateCommand (ha_State snapshot) (ack_command snapshot entry));
               succeed (Some (next <| ha_State := ev_NextState evaluated |>))
             else
               match ho_Kind entry with
               | OutboxCommandUpdateChainPeers =>
                   match ha_ActivePeerRefresh next !! ho_Slot entry with
                   | None => succeed None
                   | Some refresh => succeed (Some (ack_refresh next entry refresh))
                   end
               | _ => succeed (Some next)
               end);
    match next with
    | None => succeed (cloneHASnapshot snapshot)
    | Some next =>
        '(lease, _) ← call CallCurrentLease;
        succeed (with_outbox snapshot next (lease_Epoch lease))
    end.

Fixpoint dispatch_entries (allow : option (HAOutboxEntry -> bool)) (entries : list HAOutboxEntry)
    (processedAny : bool) : ha bool :=
  match entries with
  | [] => succeed processedAny
  | entry :: entries =>
      if match allow with Some allow => negb (allow entry) | None => false end
      then dispatch_entries allow entries processedAny
      else
        _ <~ call (CallSend entry);
        current <~ readHASnapshot;
        next <~ ackHAOutboxEntry current entry;
        _ <~ saveHASnapshot (ha_SnapshotVersion current) next;
        dispatch_entries allow entries true
  end.

Definition runtimeVersionRetryLimit : nat := 1024.

Fixpoint dispatch_passes (passes : nat) (allow : option (HAOutboxEntry -> bool)) : ha unit :=
  match passes with
  | O => succeed ()
  | S passes =>
      snapshot <~ readHASnapshot;
      match ha_Outbox snapshot with
      | [] => succeed ()
      | outbox =>
          processedAny <~ dispatch_entries allow outbox false;
          if is_set allow || negb processedAny then succeed () else dispatch_passes passes allow
      end
  end.

Definition dispatchHAOutboxEntries (allow : option (HAOutboxEntry -> bool)) : ha unit :=
  dispatch_passes runtimeVersionRetryLimit allow.

Definition dispatchOutbox : ha unit :=
  '(_, isLeader) ← call CallCurrentLease;
  if (isLeader : bool) then dispatchHAOutboxEntries None else succeed ().

(** *** Leadership *)
(** Saving the snapshot under the new epoch; a conflict or a lost lease leaves
    it to the next round. *)
Definition adopt_epoch (snapshot : HASnapshot) (epoch : Z) : ha HASnapshot :=
  let '(updated, changed) := rewriteSnapshotEpoch snapshot epoch in
  if changed then
    saved ← saveHASnapshot (ha_SnapshotVersion snapshot) updated;
    match saved with
    | Ok _ => succeed updated
    | Err e => if is_conflict e || is_not_leader e then succeed snapshot else fail_with e
    end
  else succeed snapshot.

Definition StepHA : ha bool :=
  now ← call CallNow;
  '(lease, isLeader) <~ call (CallAcquireOrRenew now);
  _ ← call (CallSetLease lease isLeader);
  snapshot <~ call CallLoadSnapshot;
  snapshot <~ (if isLeader && negb (lease_Epoch lease =? 0) then adopt_epoch snapshot (lease_Epoch lease)
               else succeed snapshot);
  _ ← call (CallSync snapshot);
  if negb isLeader then succeed false
  else
    dispatched ← dispatchOutbox;
    match dispatched with
    | Ok _ => succeed true
    | Err e =>
        if is_not_leader e then _ ← call (CallSetIsLeader false); succeed false
        else if is_conflict e then _ <~ loadCurrentHASnapshot; succeed true
        else fail_with e
    end.

Definition ensureLeader : ha unit :=
  '(lease, isLeader) ← call CallCurrentLease;
  now ← (if (isLeader : bool) then call CallNow else Done 0);
  if isLeader && (UnixNano now <? lease_ExpiresAtUnixNano lease) then succeed ()
  else
    leads <~ StepHA;
    if (leads : bool) then succeed ()
    else '(current, _) ← call CallCurrentLease; fail_with (NotLeaderError (lease_HolderEndpoint current)).

(** *** Commands *)
Record HAServerOptions := {
  opt_startupBudget : bool;
  opt_flapWindow : Z;
  opt_asyncHotPathDispatch : bool;
}.

Section handlers.
Context (opts : HAServerOptions).

Abbreviation mutation := (HASnapshot -> LeaderLease -> EvaluatedCommand -> HASnapshot).

Definition applyHARuntimeCommand (cmd : Command) (mutate : mutation) : ha (State * option ReconfigurationPlan) :=
  _ <~ ensureLeader;
  snapshot <~ readHASnapshot;
  evaluated <~ lift_runtime (EvaluateCommand (ha_State snapshot) cmd);
  '(lease, _) ← call CallCurrentLease;
  let next := (cloneHASnapshot snapshot) <| ha_State := ev_NextState evaluated |> in
  let next := next <| ha_Heartbeats := nextHAHeartbeats (ha_Heartbeats snapshot) cmd (rt_NodeLivenessByID (ha_State next)) |>
                   <| ha_StartupBudgetActive := nextHAStartupBudgetActive snapshot (opt_startupBudget opts) (ha_State next) |> in
  let next := mutate next lease evaluated in
  let next := with_outbox snapshot next (lease_Epoch lease) in
  _ <~ saveHASnapshot (ha_SnapshotVersion snapshot) next;
  succeed (ha_State next, ev_Plan evaluated).

(** What most mutations begin with. *)
Definition mutated (cmd : Command) (refresh : HASnapshot -> EvaluatedCommand -> gmap Z activePeerRefreshState) : mutation :=
  fun snapshot lease evaluated =>
    let next := (cloneHASnapshot snapshot) <| ha_State := ev_NextState evaluated |> in
    let next := next <| ha_Heartbeats := nextHAHeartbeats (ha_Heartbeats snapshot) cmd (rt_NodeLivenessByID (ha_State next)) |>
                     <| ha_ActivePeerRefresh := refresh snapshot evaluated |>
                     <| ha_StartupBudgetActive := nextHAStartupBudgetActive snapshot (opt_startupBudget opts) (ha_State next) |> in
    with_outbox snapshot next (lease_Epoch lease).

Definition bootstrap_mutation : mutation := fun snapshot lease evaluated =>
  let next := (cloneHASnapshot snapshot) <| ha_State := ev_NextState evaluated |> <| ha_Heartbeats := ∅ |>
                <| ha_ActivePeerRefresh := ∅ |> <| ha_UnavailableReplicas := ∅ |> <| ha_LastRecoveryReports := ∅ |> in
  (with_outbox snapshot next (lease_Epoch lease))
    <| ha_StartupBudgetActive := initialHAStartupBudgetActive snapshot (opt_startupBudget opts) (ha_State next) |>.

Definition applyHABootstrap (cmd : Command) : ha State :=
  '(state, _) <~ applyHARuntimeCommand cmd bootstrap_mutation; succeed state.

Definition same_event_kind (k : EventKind) (events : list Event) : bool :=
  match events with [e] => bool_decide (event_Kind e = k) | _ => false end.

Definition applyHAMembershipMutation (cmd : Command) (expectedEvent : EventKind) : ha State :=
  match cmd_Kind cmd, cmd_Reconfigure cmd with
  | CommandKindReconfigure, Some reconfigure =>
      if same_event_kind expectedEvent (reconf_Events reconfigure) then
        '(state, _) <~ applyHARuntimeCommand cmd (mutated cmd (fun snapshot evaluated =>
                         nextHAActivePeerRefreshFromPlan (ha_ActivePeerRefresh snapshot) (ev_Plan evaluated)));
        succeed state
      else fail_with ErrInvalidServerCommand
  | _, _ => fail_with ErrInvalidServerCommand
  end.

Definition reconfigure (id : string) (version : Z) (events : list Event) (policy : ReconfigurationPolicy) : Command :=
  {| cmd_ID := id; cmd_ExpectedVersion := version; cmd_Kind := CommandKindReconfigure; cmd_Bootstrap := None;
     cmd_Reconfigure := Some {| reconf_Events := events; reconf_Policy := policy |}; cmd_Progress := None;
     cmd_NodeReady := None; cmd_Heartbeat := None; cmd_Liveness := None; cmd_AcknowledgeOutbox := None |}.

Definition progress_command (id : string) (version : Z) (kind : EventKind) (nodeID : string) (slot : Z) : Command :=
  {| cmd_ID := id; cmd_ExpectedVersion := version; cmd_Kind := CommandKindProgress; cmd_Bootstrap := None;
     cmd_Reconfigure := None;
     cmd_Progress := Some {| progress_Event := {| event_Kind := kind; event_Node := zeroNode; event_NodeID := nodeID;
                                                  event_Slot := slot |} |};
     cmd_NodeReady := None; cmd_Heartbeat := None; cmd_Liveness := None; cmd_AcknowledgeOutbox := None |}.

Definition applyHAReconcile : ha unit :=
  snapshot <~ readHASnapshot;
  policy ← call CallPolicy;
  let version := rt_Version (ha_State snapshot) in
  let cmd := reconfigure ("server-reconcile-v" +:+ pretty version) version [] policy in
  _ <~ applyHARuntimeCommand cmd (mutated cmd (fun snapshot _ => ha_ActivePeerRefresh snapshot));
  succeed ().

(** The refresh a ready report leaves: while the chain serves, its active
    replicas keep the route until their peers are updated. *)
Definition ready_refresh (current : SlotProgressView) (reduction : replicaProgressReduction) : activePeerRefreshState :=
  let state := peerRefreshState reduction in
  match enqueuePeerRefresh reduction && negb (useFallbackRoute state), chain_Replicas (assignmentChain state),
        chain_Replicas (activeServingChain (view_Chain current)) with
  | true, [], _ :: _ =>
      zeroRefresh <| fallbackServingChain := activeServingChain (view_Chain current) |> <| useFallbackRoute := true |>
  | _, _, _ => state
  end.

(** The loops over attempts; [attempt] counts from 0 and [left_] down to it. *)
Fixpoint ready_attempts (left_ : nat) (attempt : Z) (nodeID : string) (slot : Z) (commandID : string) : ha State :=
  match left_ with
  | O => fail_with (ErrRuntime ErrVersionMismatch)
  | S left_ =>
      _ <~ ensureLeader;
      snapshot <~ readHASnapshot;
      let current := slotProgressViewFromState (ha_State snapshot) slot in
      reduction <~ lift (reduceReplicaReadyProgress current nodeID commandID attempt);
      if duplicateCompleted reduction then succeed (ha_State snapshot)
      else
        let cmd := progress_command (progressCommandID reduction) (rt_Version (ha_State snapshot))
                     EventKindReplicaBecameActive nodeID slot in
        applied ← applyHARuntimeCommand cmd (mutated cmd (fun snapshot _ =>
          if enqueuePeerRefresh reduction
          then <[slot := ready_refresh current reduction]> (ha_ActivePeerRefresh snapshot)
          else ha_ActivePeerRefresh snapshot));
        match applied with
        | Ok _ =>
            reconciled ← applyHAReconcile;
            match reconciled with
            | Ok _ => state ← call CallState; succeed state
            | Err e => if is_retryable e then ready_attempts left_ (attempt + 1) nodeID slot commandID else fail_with e
            end
        | Err e => if is_retryable e then ready_attempts left_ (attempt + 1) nodeID slot commandID else fail_with e
        end
  end.

Definition applyHAReplicaReady (nodeID : string) (slot : Z) (commandID : string) : ha State :=
  ready_attempts 8 0 nodeID slot commandID.

Definition dispatch_slot_peers (slot : Z) (entry : HAOutboxEntry) : bool :=
  (ho_Slot entry =? slot) && match ho_Kind entry with OutboxCommandUpdateChainPeers => true | _ => false end.

Fixpoint removed_attempts (left_ : nat) (attempt : Z) (nodeID : string) (slot : Z) (commandID : string) : ha State :=
  match left_ with
  | O => fail_with (ErrRuntime ErrVersionMismatch)
  | S left_ =>
      _ <~ ensureLeader;
      snapshot <~ readHASnapshot;
      let current := slotProgressViewFromState (ha_State snapshot) slot in
      reduction <~ lift (reduceReplicaRemovedProgress current nodeID commandID attempt);
      if duplicateCompleted reduction then succeed (ha_State snapshot)
      else
        let cmd := progress_command (progressCommandID reduction) (rt_Version (ha_State snapshot))
                     EventKindReplicaRemoved nodeID slot in
        applied ← applyHARuntimeCommand cmd (mutated cmd (fun snapshot _ =>
          <[slot := zeroRefresh]> (ha_ActivePeerRefresh snapshot)));
        match applied with
        | Ok _ =>
            reconciled ← applyHAReconcile;
            match reconciled with
            | Ok _ =>
                _ <~ (if opt_asyncHotPathDispatch opts then succeed ()
                      else dispatchHAOutboxEntries (Some (dispatch_slot_peers slot)));
                state ← call CallState; succeed state
            | Err e => if is_retryable e then removed_attempts left_ (attempt + 1) nodeID slot commandID else fail_with e
            end
        | Err e => if is_retryable e then removed_attempts left_ (attempt + 1) nodeID slot commandID else fail_with e
        end
  end.

Definition applyHAReplicaRemoved (nodeID : string) (slot : Z) (commandID : string) : ha State :=
  removed_attempts 8 0 nodeID slot commandID.

(** A heartbeat is written into the state without a command. *)
Definition heartbeat_state (state : State) (status : NodeStatus) (observedAt : Z) : State :=
  let nodeID := status_NodeID status in
  {| rt_Version := rt_Version state; rt_LastLogIndex := rt_LastLogIndex state;
     rt_Cluster := set_ReadyNodeIDs (rt_Cluster state) (<[nodeID := true]> (cs_ReadyNodeIDs (rt_Cluster state)));
     rt_SlotVersions := rt_SlotVersions state; rt_CompletedProgressBySlot := rt_CompletedProgressBySlot state;
     rt_NodeLivenessByID := observe_node (rt_NodeLivenessByID state)
       {| seen_Status := status; seen_ObservedAtUnixNano := observedAt; seen_FlapWindowNanos := opt_flapWindow opts |};
     rt_PendingBySlot := rt_PendingBySlot state; rt_Outbox := rt_Outbox state; rt_LastPolicy := rt_LastPolicy state;
     rt_AppliedCommands := rt_AppliedCommands state |}.

Definition applyHAHeartbeat (status : NodeStatus) : ha unit :=
  let nodeID := status_NodeID status in
  _ <~ ensureLeader;
  snapshot <~ readHASnapshot;
  _ <~ lift (reject (negb (is_set (cs_NodesByID (rt_Cluster (ha_State snapshot)) !! nodeID))) ErrUnknownNode);
  _ <~ lift (reject (nodeMarkedDead (rt_Cluster (ha_State snapshot)) nodeID) ErrUnknownNode);
  now ← call CallNow;
  let next := cloneHASnapshot snapshot in
  let next := next <| ha_Heartbeats := <[nodeID := status]> (ha_Heartbeats next) |> in
  let becameReady := negb (mget (cs_ReadyNodeIDs (rt_Cluster (ha_State next))) nodeID) in
  let next := next <| ha_State := heartbeat_state (ha_State next) status (UnixNano now) |> in
  let next := next <| ha_StartupBudgetActive :=
                        nextHAStartupBudgetActive snapshot (opt_startupBudget opts) (ha_State next) |> in
  '(lease, _) ← call CallCurrentLease;
  let next := with_outbox snapshot next (lease_Epoch lease) in
  _ <~ saveHASnapshot (ha_SnapshotVersion snapshot) next;
  if becameReady then
    _ <~ applyHAReconcile;
    if opt_asyncHotPathDispatch opts then succeed ()
    else
      dispatched ← dispatchOutbox;
      match dispatched with
      | Ok _ => succeed ()
      | Err e => if is_dispatch_failure e then succeed () else fail_with e
      end
  else succeed ().

Definition liveness_string (state : NodeLivenessState) : string :=
  match state with
  | NodeLivenessStateUnset => ""
  | NodeLivenessStateHealthy => "healthy"
  | NodeLivenessStateSuspect => "suspect"
  | NodeLivenessStateDead => "dead"
  end.

Definition liveness_command (snapshot : HASnapshot) (nodeID : string) (state : NodeLivenessState)
    (evaluatedAtUnixNano : Z) (deadActionFired : bool) : Command :=
  let version := rt_Version (ha_State snapshot) in
  {| cmd_ID := "server-liveness-" +:+ nodeID +:+ "-" +:+ liveness_string state +:+ "-" +:+ pretty evaluatedAtUnixNano +:+
       "-" +:+ (if deadActionFired then "true" else "false") +:+ "-v" +:+ pretty version;
     cmd_ExpectedVersion := version; cmd_Kind := CommandKindLiveness; cmd_Bootstrap := None; cmd_Reconfigure := None;
     cmd_Progress := None; cmd_NodeReady := None; cmd_Heartbeat := None;
     cmd_Liveness := Some {| live_NodeID := nodeID; live_State := state; live_EvaluatedAtUnixNano := evaluatedAtUnixNano;
                             live_DeadActionFired := deadActionFired; live_FlapWindowNanos := opt_flapWindow opts |};
     cmd_AcknowledgeOutbox := None |}.

Definition applyHALivenessTransition (nodeID : string) (state : NodeLivenessState) (evaluatedAtUnixNano : Z)
    (deadActionFired : bool) : ha NodeLivenessRecord :=
  snapshot <~ readHASnapshot;
  let cmd := liveness_command snapshot nodeID state evaluatedAtUnixNano deadActionFired in
  '(nextState, _) <~ applyHARuntimeCommand cmd (mutated cmd (fun snapshot _ => ha_ActivePeerRefresh snapshot));
  succeed (default zeroLiveness (rt_NodeLivenessByID nextState !! nodeID)).

Definition applyHARecoveryReport (report : NodeRecoveryReport) : ha unit :=
  let nodeID := report_NodeID report in
  _ <~ ensureLeader;
  snapshot <~ readHASnapshot;
  known ← (if is_set (cs_NodesByID (rt_Cluster (ha_State snapshot)) !! nodeID) then Done true
           else call (CallKnowsNode nodeID));
  if negb known then fail_with ErrUnknownNode
  else if bool_decide (ha_LastRecoveryReports snapshot !! nodeID = Some report) &&
          negb (haSnapshotHasUnavailableSlots snapshot nodeID) then succeed ()
  else
    '(lease, _) ← call CallCurrentLease;
    let next := cloneHASnapshot snapshot in
    let next := next <| ha_LastRecoveryReports := <[nodeID := report]> (ha_LastRecoveryReports next) |> in
    let next := markUnavailableReplicasInSnapshot next report in
    entries <~ lift (recoveryOutboxEntriesForReport (ha_State snapshot) report (lease_Epoch lease));
    let next := next <| ha_Outbox := replaceHARecoveryOutboxEntries (ha_Outbox snapshot) entries |> in
    saveHASnapshot (ha_SnapshotVersion snapshot) (with_outbox snapshot next (lease_Epoch lease)).

(** A node registered with the same address and domains, and not dead. *)
Definition already_registered (cluster : ClusterState) (reg : NodeRegistration) : bool :=
  match cs_NodesByID cluster !! reg_NodeID reg with
  | Some existing => negb (nodeMarkedDead cluster (reg_NodeID reg)) &&
                     String.eqb (node_RPCAddress existing) (reg_RPCAddress reg) &&
                     bool_decide (node_FailureDomains existing = reg_FailureDomains reg)
  | None => false
  end.

Fixpoint register_attempts (left_ : nat) (attempt : Z) (reg : NodeRegistration) : ha State :=
  match left_ with
  | O => fail_with (ErrRuntime ErrVersionMismatch)
  | S left_ =>
      snapshot <~ readHASnapshot;
      if already_registered (rt_Cluster (ha_State snapshot)) reg then succeed (ha_State snapshot)
      else
        policy ← call CallPolicy;
        let version := rt_Version (ha_State snapshot) in
        let node := {| node_ID := reg_NodeID reg; node_RPCAddress := reg_RPCAddress reg;
                       node_FailureDomains := reg_FailureDomains reg |} in
        let cmd := reconfigure ("server-register-" +:+ reg_NodeID reg +:+ "-r" +:+ pretty attempt +:+ "-v" +:+ pretty version)
                     version [{| event_Kind := EventKindRegisterNode; event_Node := node; event_NodeID := "";
                                 event_Slot := 0 |}] policy in
        applied ← applyHAMembershipMutation cmd EventKindRegisterNode;
        match applied with
        | Ok state => succeed state
        | Err e => if is_retryable e then register_attempts left_ (attempt + 1) reg else fail_with e
        end
  end.

Definition applyHARegisterNode (reg : NodeRegistration) : ha State :=
  _ <~ ensureLeader; register_attempts runtimeVersionRetryLimit 0 reg.
End handlers.

(** ** A server's own fields

    What [syncFromHASnapshot] sets, and the lease. *)
Record haServer := {
  hs_CoordinatorID : string;
  hs_AdvertiseAddress : string;
  hs_LeaseTTL : Z;
  hs_startupMaxChangedChains : Z;
  hs_nodes : gset string;
  hs_lease : LeaderLease;
  hs_isLeader : bool;
  hs_state : State;
  hs_lastPolicy : ReconfigurationPolicy;
  hs_startupBudgetActive : bool;
  hs_activePeerRefresh : gmap Z activePeerRefreshState;
  hs_unavailableReplicas : gmap string (gmap Z bool);
  hs_routingSnapshot : RoutingSnapshot;
}.

#[export] Instance haServer_rebuild : Rebuild haServer := fun s =>
  {| hs_CoordinatorID := hs_CoordinatorID s; hs_AdvertiseAddress := hs_AdvertiseAddress s; hs_LeaseTTL := hs_LeaseTTL s;
     hs_startupMaxChangedChains := hs_startupMaxChangedChains s; hs_nodes := hs_nodes s; hs_lease := hs_lease s;
     hs_isLeader := hs_isLeader s; hs_state := hs_state s; hs_lastPolicy := hs_lastPolicy s;
     hs_startupBudgetActive := hs_startupBudgetActive s; hs_activePeerRefresh := hs_activePeerRefresh s;
     hs_unavailableReplicas := hs_unavailableReplicas s; hs_routingSnapshot := hs_routingSnapshot s |}.

Definition isZeroHAActivePeerRefreshState (state : activePeerRefreshState) : bool :=
  negb (useFallbackRoute state) && negb (allowWhilePending state) &&
  (length (chain_Replicas (fallbackServingChain state)) =? 0)%nat &&
  (length (chain_Replicas (assignmentChain state)) =? 0)%nat && (size (remainingNodeIDs state) =? 0)%nat.

Definition haOutboxHasActivePeerRefreshForSlot (entries : list HAOutboxEntry) (slot : Z) : bool :=
  existsb (fun e => match ho_Kind e with OutboxCommandUpdateChainPeers => true | _ => false end &&
                    String.prefix ("ha-peer-refresh-slot" +:+ pretty slot +:+ "-") (ho_ID e)) entries.

Definition syncFromHASnapshot (s : haServer) (snapshot : HASnapshot) : haServer :=
  let current := cloneState (ha_State snapshot) in
  let refresh := filter (fun '(slot, state) =>
    negb (isZeroHAActivePeerRefreshState state && negb (haOutboxHasActivePeerRefreshForSlot (ha_Outbox snapshot) slot)) = true)
    (ha_ActivePeerRefresh snapshot) in
  s <| hs_state := current |> <| hs_lastPolicy := rt_LastPolicy current |>
    <| hs_startupBudgetActive := ha_StartupBudgetActive snapshot ||
         ((ha_SnapshotVersion snapshot =? 0) && negb (isInitialized (ha_State snapshot)) &&
          (0 <? hs_startupMaxChangedChains s)) |>
    <| hs_activePeerRefresh := refresh |> <| hs_unavailableReplicas := ha_UnavailableReplicas snapshot |>
    <| hs_routingSnapshot := reduceRoutingSnapshot current (ha_UnavailableReplicas snapshot) refresh |>.

(** [reconfigurationPolicy]: the startup budget until the cluster is settled. *)
Definition reconfigurationPolicy (s : haServer) : haServer * ReconfigurationPolicy :=
  let policy := hs_lastPolicy s in
  if negb (hs_startupBudgetActive s) || (hs_startupMaxChangedChains s <=? policy_MaxChangedChains policy) then (s, policy)
  else if negb (clusterFullySettledForStartup (rt_Cluster (hs_state s)))
  then (s, {| policy_MaxChangedChains := hs_startupMaxChangedChains s |})
  else (s <| hs_startupBudgetActive := false |>, policy).
