(* ===== verification/HAWorld.v ===== *)
(** * Coordinators that run together

    Any number of coordinator servers over one [HAStore].  Every server has any
    number of handlers in flight; a step answers one call of one of them.  The
    clock answers any time, a node any result, a store may fail before or after
    it did what it was asked, and a server may restart with its handlers lost. *)

From S2P Require Import Prelude.
From S2P Require Import CoordTypes.
From S2P Require Import StorageTypes.
From S2P Require Import RuntimeTypes.
From S2P Require Import Runtime.
From S2P Require Import CoordServer.
From S2P Require Import HAStore.
From S2P Require Import HAEngine.

Open Scope Z_scope.
Open Scope record_scope.

(** ** Requests *)
Inductive request :=
| RequestStep
| RequestDispatch
| RequestBootstrap (cmd : Command)
| RequestMembership (cmd : Command) (expectedEvent : EventKind)
| RequestReconcile
| RequestReplicaReady (nodeID : string) (slot : Z) (commandID : string)
| RequestReplicaRemoved (nodeID : string) (slot : Z) (commandID : string)
| RequestHeartbeat (status : NodeStatus)
| RequestLiveness (nodeID : string) (state : NodeLivenessState) (evaluatedAtUnixNano : Z) (deadActionFired : bool)
| RequestRecoveryReport (report : NodeRecoveryReport)
| RequestRegisterNode (reg : NodeRegistration).

Definition forget {A} (p : prog A) : prog unit := p ≫= fun _ => Done ().

Definition handle (opts : HAServerOptions) (r : request) : prog unit :=
  match r with
  | RequestStep => forget StepHA
  | RequestDispatch => forget dispatchOutbox
  | RequestBootstrap cmd => forget (applyHABootstrap opts cmd)
  | RequestMembership cmd expectedEvent => forget (applyHAMembershipMutation opts cmd expectedEvent)
  | RequestReconcile => forget (applyHAReconcile opts)
  | RequestReplicaReady nodeID slot commandID => forget (applyHAReplicaReady opts nodeID slot commandID)
  | RequestReplicaRemoved nodeID slot commandID => forget (applyHAReplicaRemoved opts nodeID slot commandID)
  | RequestHeartbeat status => forget (applyHAHeartbeat opts status)
  | RequestLiveness nodeID state at_ fired => forget (applyHALivenessTransition opts nodeID state at_ fired)
  | RequestRecoveryReport report => forget (applyHARecoveryReport report)
  | RequestRegisterNode reg => forget (applyHARegisterNode opts reg)
  end.

Section world.
Context {S : Type} `{HAStore S}.

(** ** Answers

    [answer store server c x store' server']: the call [c] of [server] may be
    answered [x]. *)
Inductive answer (store : S) (server : haServer) : forall X, ha_call X -> X -> S -> haServer -> Prop :=
| answer_now now : answer store server Z CallNow now store server
| answer_acquire now store' lease won :
    AcquireOrRenew store (hs_CoordinatorID server) (hs_AdvertiseAddress server) now (hs_LeaseTTL server) =
      Ok (store', lease, won) ->
    answer store server _ (CallAcquireOrRenew now) (Ok (lease, won)) store' server
| answer_acquire_lost now store' lease won e :
    AcquireOrRenew store (hs_CoordinatorID server) (hs_AdvertiseAddress server) now (hs_LeaseTTL server) =
      Ok (store', lease, won) ->
    answer store server _ (CallAcquireOrRenew now) (Err e) store' server
| answer_acquire_failed now e : answer store server _ (CallAcquireOrRenew now) (Err e) store server
| answer_load snapshot : LoadSnapshot store = Ok snapshot ->
    answer store server _ CallLoadSnapshot (Ok snapshot) store server
| answer_load_failed e : answer store server _ CallLoadSnapshot (Err e) store server
| answer_save lease now expected snapshot store' version :
    SaveSnapshot store lease now expected snapshot = Ok (store', version) ->
    answer store server _ (CallSaveSnapshot lease now expected snapshot) (Ok version) store' server
| answer_save_lost lease now expected snapshot store' version e :
    SaveSnapshot store lease now expected snapshot = Ok (store', version) ->
    answer store server _ (CallSaveSnapshot lease now expected snapshot) (Err e) store' server
| answer_save_failed lease now expected snapshot e :
    answer store server _ (CallSaveSnapshot lease now expected snapshot) (Err e) store server
| answer_send entry r : answer store server _ (CallSend entry) r store server
| answer_lease : answer store server _ CallCurrentLease (hs_lease server, hs_isLeader server) store server
| answer_set_lease lease isLeader :
    answer store server _ (CallSetLease lease isLeader) () store
      (server <| hs_lease := lease |> <| hs_isLeader := isLeader |>)
| answer_set_leader isLeader :
    answer store server _ (CallSetIsLeader isLeader) () store (server <| hs_isLeader := isLeader |>)
| answer_sync snapshot : answer store server _ (CallSync snapshot) () store (syncFromHASnapshot server snapshot)
| answer_policy :
    answer store server _ CallPolicy (reconfigurationPolicy server).2 store (reconfigurationPolicy server).1
| answer_state : answer store server _ CallState (cloneState (hs_state server)) store server
| answer_knows nodeID :
    answer store server _ (CallKnowsNode nodeID) (bool_decide (nodeID ∈ hs_nodes server)) store server.

(** ** Steps *)
Record world := {
  w_store : S;
  w_servers : gmap string haServer;
  w_running : list (string * prog unit);
}.

Inductive world_step : world -> world -> Prop :=
| step_request w id opts r :
    world_step w {| w_store := w_store w; w_servers := w_servers w; w_running := (id, handle opts r) :: w_running w |}
| step_call w before after id server server' X (c : ha_call X) k x store' :
    w_running w = before ++ (id, Call c k) :: after -> w_servers w !! id = Some server ->
    answer (w_store w) server X c x store' server' ->
    world_step w {| w_store := store'; w_servers := <[id := server']> (w_servers w);
                    w_running := before ++ (id, k x) :: after |}
| step_restart w id server :
    world_step w {| w_store := w_store w; w_servers := <[id := server]> (w_servers w);
                    w_running := List.filter (fun p => negb (String.eqb (fst p) id)) (w_running w) |}.
End world.
Arguments world S : clear implicits.
