(* ===== verification/SlotOwner.v ===== *)
(** * The slot owner's transitions (src/storage/slot_owner.go, slot_owner_support.go, storage.go)

    What the goroutine that owns a slot does to its protocol state: accepting a
    client's write, marking an operation durable, taking in commit tokens,
    applying the commit watermark, dropping what the backend has materialised,
    and answering reads.  Journal, transport and backend are arguments. *)

From S2P Require Import Prelude.
From S2P Require Import StorageTypes.
From S2P Require Import SlotReducer.

Open Scope Z_scope.
Open Scope record_scope.

(** ** Client requests *)
Inductive ComparisonOperator :=
| ComparisonOperatorEqual
| ComparisonOperatorLessThan
| ComparisonOperatorLessThanOrEqual
| ComparisonOperatorGreaterThan
| ComparisonOperatorGreaterThanOrEqual
| ComparisonOperatorUnsupported (operator : string).

(** [VersionComparison] and [TimeComparison]; times are instants. *)
Record Comparison := {
  cmp_Operator : ComparisonOperator;
  cmp_Value : Z;
}.

Record WriteConditions := {
  cond_Exists : option bool;
  cond_Version : option Comparison;
  cond_UpdatedAt : option Comparison;
}.

Inductive ReadConsistency :=
| ReadConsistencyLinearizable
| ReadConsistencyLocalCommitted
| ReadConsistencyUnsupported (consistency : string).

Record ClientGetRequest := {
  get_Slot : Z;
  get_Key : string;
  get_ExpectedChainVersion : Z;
  get_Consistency : ReadConsistency;
}.

Record ReadResult := {
  read_Slot : Z;
  read_ChainVersion : Z;
  read_Found : bool;
  read_Value : string;
  read_Metadata : option ObjectMetadata;
}.

(** ** Conditions *)
(** [compareUint64] and [compareTime]. *)
Definition compare_with (current : Z) (comparison : Comparison) : bool :=
  match cmp_Operator comparison with
  | ComparisonOperatorEqual => current =? cmp_Value comparison
  | ComparisonOperatorLessThan => current <? cmp_Value comparison
  | ComparisonOperatorLessThanOrEqual => current <=? cmp_Value comparison
  | ComparisonOperatorGreaterThan => cmp_Value comparison <? current
  | ComparisonOperatorGreaterThanOrEqual => cmp_Value comparison <=? current
  | ComparisonOperatorUnsupported _ => false
  end.

Definition evaluateWriteConditions (conditions : WriteConditions) (found : bool)
    (current : CommittedObject) : res storage_error unit :=
  _ ← match cond_Exists conditions with
      | Some wanted => reject (negb (Bool.eqb found wanted)) ErrConditionFailed
      | None => Ok tt
      end;
  _ ← match cond_Version conditions with
      | Some c => reject (negb found || negb (compare_with (meta_Version (obj_Metadata current)) c))
                    ErrConditionFailed
      | None => Ok tt
      end;
  match cond_UpdatedAt conditions with
  | Some c => reject (negb found || negb (compare_with (meta_UpdatedAt (obj_Metadata current)) c))
                ErrConditionFailed
  | None => Ok tt
  end.

(** The metadata of the next write; [now] is the node's clock. *)
Definition nextObjectMetadata (now : Z) (found : bool) (current : option ObjectMetadata)
    : ObjectMetadata :=
  match found, current with
  | true, Some m => {| meta_Version := u64_add (meta_Version m) 1; meta_CreatedAt := meta_CreatedAt m;
                       meta_UpdatedAt := now |}
  | _, _ => {| meta_Version := 1; meta_CreatedAt := now; meta_UpdatedAt := now |}
  end.

(** ** The committed overlay *)
Definition put_object (op : WriteOperation) : CommittedObject :=
  {| obj_Value := op_Value op; obj_Metadata := cloneObjectMetadata (op_Metadata op) |}.

Definition recordWithCommittedOverlay (record : replicaRecord) (operation : WriteOperation)
    : replicaRecord :=
  record <| rr_committedOverlay :=
    <[op_Key operation := dirty_entry operation]> (rr_committedOverlay record) |>.

(** [Some None] is an object the overlay knows to be deleted. *)
Definition recordCommittedOverlayObject (record : replicaRecord) (key : string)
    : option (option CommittedObject) :=
  match rr_committedOverlay record !! key with
  | None => None
  | Some entry =>
      match op_Kind (dirty_Operation entry) with
      | OperationKindPut => Some (Some (put_object (dirty_Operation entry)))
      | OperationKindDelete => Some None
      | OperationKindUnsupported _ => None
      end
  end.

(** The loop over the overlay touches each key once, in any order. *)
Definition recordMergedCommittedSnapshot (record : replicaRecord) (base : Snapshot) : Snapshot :=
  map_fold (fun key entry (merged : Snapshot) =>
    match op_Kind (dirty_Operation entry) with
    | OperationKindPut => <[key := put_object (dirty_Operation entry)]> merged
    | OperationKindDelete => delete key merged
    | OperationKindUnsupported _ => merged
    end) (clone_map base) (rr_committedOverlay record).

Definition recordPruneMaterializedOverlay (record : replicaRecord) (highestMaterialized : Z)
    : replicaRecord :=
  let record :=
    if rr_materializedCommittedSequence record <? highestMaterialized
    then record <| rr_materializedCommittedSequence := highestMaterialized |> else record in
  let record := record <| rr_preparedEntries :=
    filter (fun '(sequence, _) => highestMaterialized < sequence) (rr_preparedEntries record) |> in
  let record := record <| rr_committedOverlay :=
    filter (fun '(_, entry) => highestMaterialized < dirty_Sequence entry)
      (rr_committedOverlay record) |> in
  if rr_highestCommittedSequence record <? rr_materializedCommittedSequence record
  then record <| rr_materializedCommittedSequence := rr_highestCommittedSequence record |>
  else record.

Definition normalizeUpstreamConfirmedSequence (record : replicaRecord) : Z :=
  let assignment := rr_assignment record in
  if bool_decide (asg_Role assignment = ReplicaRoleHead) ||
     bool_decide (asg_Role assignment = ReplicaRoleSingle) ||
     String.eqb (PredecessorNodeID (asg_Peers assignment)) ""
  then rr_highestCommittedSequence record
  else Z.min (rr_highestUpstreamConfirmedSequence record) (rr_highestCommittedSequence record).

Definition persistedReplica (record : replicaRecord) : PersistedReplica :=
  {| pr_Assignment := rr_assignment record; pr_LastKnownState := rr_lastKnownState record;
     pr_HighestCommittedSequence := rr_highestCommittedSequence record;
     pr_HighestUpstreamConfirmedSequence := normalizeUpstreamConfirmedSequence record;
     pr_HasCommittedData := rr_localDataPresent record |}.

(** ** Progress of a staged operation *)
(** The completion of a prepare in [startPrepareEffect]: the operation is in
    the journal; without a successor that also is its commit token. *)
Definition prepareDurable (current : replicaRecord) (operation : WriteOperation) : replicaRecord :=
  let seq := op_Sequence operation in
  let current :=
    if rr_highestPreparedDurable current <? seq
    then current <| rr_highestPreparedDurable := seq |> else current in
  if String.eqb (SuccessorNodeID (asg_Peers (rr_assignment current))) "" &&
     (rr_highestCommitTokenReceived current <? seq)
  then current <| rr_highestCommitTokenReceived := seq |> else current.

(** The loop of [ingestCommitToken] over the contiguous buffered tokens.  Each
    round deletes one, so [fuel] larger than their number is enough. *)
Fixpoint drain_tokens (fuel : nat) (record : replicaRecord) : replicaRecord :=
  match fuel with
  | O => record
  | S fuel =>
      let next := u64_add (rr_highestCommitTokenReceived record) 1 in
      match rr_bufferedCommits record !! next with
      | None => record
      | Some _ =>
          drain_tokens fuel
            (record <| rr_bufferedCommits := delete next (rr_bufferedCommits record) |>
                    <| rr_highestCommitTokenReceived := next |>)
      end
  end.

Definition ingestCommitToken (record : replicaRecord) (req : CommitWriteRequest) : replicaRecord :=
  let seq := cw_Sequence req in
  if seq <=? rr_highestCommitTokenReceived record then
    record <| rr_bufferedCommits := delete seq (rr_bufferedCommits record) |>
  else if seq =? u64_add (rr_highestCommitTokenReceived record) 1 then
    drain_tokens (S (size (rr_bufferedCommits record)))
      (record <| rr_highestCommitTokenReceived := seq |>
              <| rr_bufferedCommits := delete seq (rr_bufferedCommits record) |>)
  else
    record <| rr_bufferedCommits := <[seq := cloneCommitRequest req]> (rr_bufferedCommits record) |>.

Definition syntheticCommitRequest (record : replicaRecord) (sequence : Z)
    : option CommitWriteRequest :=
  (fun expected => {| cw_Slot := asg_Slot (rr_assignment record); cw_Sequence := sequence;
                      cw_FromNodeID := ecs_FromNodeID expected;
                      cw_ChainVersion := ecs_ChainVersion expected |})
    <$> rr_expectedCommitSources record !! sequence.

(** One iteration of [applyCommitWatermark]: the record part. *)
Definition applyCommit (limit : Z) (record : replicaRecord) (seq : Z)
    : res storage_error (replicaRecord * WriteOperation) :=
  let commitReq := syntheticCommitRequest record seq in
  operation ← reduceCommittableOperation record seq;
  let record := reduceApplyCommittedSequence record operation seq limit in
  let record :=
    match commitReq with
    | Some req => reduceRecordCommitApplied record req limit
    | None => record
    end in
  Ok (recordWithCommittedOverlay record operation, operation).

(** ** The slot's runtime

    [own_committedMetadata] caches what is committed under a key: [None] for
    an absent object. *)
Record slotRuntime := {
  own_slot : Z;
  own_exists : bool;
  own_record : replicaRecord;
  own_committedMetadata : gmap string (option ObjectMetadata);
  own_progressionGap : bool;
  own_progressionGapSequence : Z;
}.

#[export] Instance slotRuntime_rebuild : Rebuild slotRuntime := fun r =>
  {| own_slot := own_slot r; own_exists := own_exists r; own_record := own_record r;
     own_committedMetadata := own_committedMetadata r; own_progressionGap := own_progressionGap r;
     own_progressionGapSequence := own_progressionGapSequence r |}.

Definition rememberCommittedMetadata (rt : slotRuntime) (key : string) (m : option ObjectMetadata)
    : slotRuntime :=
  if String.eqb key "" then rt
  else rt <| own_committedMetadata := <[key := cloneObjectMetadata <$> m]> (own_committedMetadata rt) |>.

Definition rememberCommittedOperation (rt : slotRuntime) (operation : WriteOperation) : slotRuntime :=
  match op_Kind operation with
  | OperationKindPut => rememberCommittedMetadata rt (op_Key operation) (Some (op_Metadata operation))
  | OperationKindDelete => rememberCommittedMetadata rt (op_Key operation) None
  | OperationKindUnsupported _ => rt
  end.

(** The iterations share the record's maps with the runtime, so when one fails
    the maps keep what earlier iterations did while the counters and the
    retention orders are those of the record before the loop. *)
Definition with_maps_of (before partial : replicaRecord) : replicaRecord :=
  partial <| rr_highestCommittedSequence := rr_highestCommittedSequence before |>
          <| rr_localDataPresent := rr_localDataPresent before |>
          <| rr_lastKnownState := rr_lastKnownState before |>
          <| rr_recentForwardOrder := rr_recentForwardOrder before |>
          <| rr_recentCommitOrder := rr_recentCommitOrder before |>.

(** The loop from [seq], [n] iterations: the runtime carries the cache. *)
Fixpoint applyCommits (limit : Z) (n : nat) (rt : slotRuntime) (record : replicaRecord) (seq : Z)
    : slotRuntime * replicaRecord * option Z :=
  match n with
  | O => (rt, record, None)
  | S n =>
      match applyCommit limit record seq with
      | Err _ => (rt, record, Some seq)
      | Ok (record', operation) =>
          applyCommits limit n (rememberCommittedOperation rt operation) record' (u64_add seq 1)
      end
  end.

Definition applyCommitWatermark (limit : Z) (rt : slotRuntime) (sequence : Z) : slotRuntime :=
  if negb (own_exists rt) then rt else
  let record := own_record rt in
  if sequence <=? rr_highestCommittedSequence record then rt else
  let sequence := Z.min sequence (rr_highestCommitTokenReceived record) in
  let sequence := Z.min sequence (rr_highestPreparedDurable record) in
  if sequence <=? rr_highestCommittedSequence record then rt else
  match applyCommits limit (Z.to_nat (sequence - rr_highestCommittedSequence record)) rt record
          (u64_add (rr_highestCommittedSequence record) 1) with
  | (rt', partial, Some seq) =>
      rt' <| own_record := with_maps_of record partial |>
          <| own_progressionGap := true |> <| own_progressionGapSequence := seq |>
  | (rt', record', None) =>
      let record' :=
        if String.eqb (PredecessorNodeID (asg_Peers (rr_assignment record'))) ""
        then record' <| rr_highestUpstreamConfirmedSequence := sequence |> else record' in
      rt' <| own_record := record' |>
  end.

Definition markMaterialized (rt : slotRuntime) (highest : Z) : slotRuntime :=
  if negb (own_exists rt) then rt
  else rt <| own_record := recordPruneMaterializedOverlay (own_record rt) highest |>.

(** ** Requests

    [GetCommitted] is the backend's lookup in the slot, [FetchCommittedSequence]
    the question to the tail of the chain, [now] the clock. *)
Section requests.
Context (GetCommitted : Z -> string -> res storage_error (option CommittedObject)).
Context (FetchCommittedSequence : string -> Z -> res storage_error Z).

Definition activeRecord (rt : slotRuntime) : res storage_error replicaRecord :=
  _ ← reject (negb (own_exists rt)) ErrUnknownReplica;
  _ ← reject (own_progressionGap rt) ErrStateMismatch;
  _ ← reject (negb (bool_decide (rr_state (own_record rt) = StateActive))) ErrWriteRejected;
  Ok (own_record rt).

Definition replicationRecord (rt : slotRuntime) : res storage_error replicaRecord :=
  _ ← reject (negb (own_exists rt)) ErrUnknownReplica;
  _ ← reject (negb (bool_decide (rr_state (own_record rt) = StateActive)) &&
              negb (bool_decide (rr_state (own_record rt) = StateCatchingUp))) ErrWriteRejected;
  Ok (own_record rt).

(** The committed metadata of a key, [None] if it is absent; the answer is
    cached. *)
Definition committedMetadataState (rt : slotRuntime) (key : string)
    : res storage_error (slotRuntime * option ObjectMetadata) :=
  match recordCommittedOverlayObject (own_record rt) key with
  | Some overlay =>
      let m := obj_Metadata <$> overlay in
      Ok (rememberCommittedMetadata rt key m, cloneObjectMetadata <$> m)
  | None =>
      match own_committedMetadata rt !! key with
      | Some m => Ok (rt, cloneObjectMetadata <$> m)
      | None =>
          object ← GetCommitted (own_slot rt) key;
          let m := obj_Metadata <$> object in
          Ok (rememberCommittedMetadata rt key m, cloneObjectMetadata <$> m)
      end
  end.

(** Admission of client writes; a limit that is not positive is off. *)
Record client_limits := {
  maxInFlightClientWritesPerNode : Z;
  maxInFlightClientWritesPerSlot : Z;
}.

Definition tryAdmitNodeClientWrite (limits : client_limits) (nodeInFlight slot slotCurrent : Z)
    : res storage_error Z :=
  _ ← reject ((0 <? maxInFlightClientWritesPerNode limits) &&
              (maxInFlightClientWritesPerNode limits <=? nodeInFlight))
        (ErrWriteBackpressure slot nodeInFlight (maxInFlightClientWritesPerNode limits));
  _ ← reject ((0 <? maxInFlightClientWritesPerSlot limits) &&
              (maxInFlightClientWritesPerSlot limits <=? slotCurrent))
        (ErrWriteBackpressure slot slotCurrent (maxInFlightClientWritesPerSlot limits));
  Ok (nodeInFlight + 1).

(** What the owner starts after staging a write. *)
Inductive submit_effect :=
| SubmitPrepare (operation : WriteOperation)
| SubmitPrepareAndForward (operation : WriteOperation) (target : string)
| SubmitFailed (error : storage_error)
| SubmitNothing.

Inductive submit_answer :=
| SubmitRejected (error : storage_error)
| SubmitAbsent (result : CommitResult)
| SubmitStaged (result : CommitResult) (role : ReplicaRole) (effect : submit_effect).

Definition peerTransportTarget (target fallbackNodeID : string) : string :=
  if negb (String.eqb target "") then target else fallbackNodeID.

Definition effect_of_role (record : replicaRecord) (operation : WriteOperation) : submit_effect :=
  let peers := asg_Peers (rr_assignment record) in
  match asg_Role (rr_assignment record) with
  | ReplicaRoleSingle => SubmitPrepare operation
  | ReplicaRoleHead =>
      if String.eqb (SuccessorNodeID peers) "" then SubmitFailed ErrStateMismatch
      else SubmitPrepareAndForward operation
             (peerTransportTarget (SuccessorTarget peers) (SuccessorNodeID peers))
  | _ => SubmitNothing
  end.

(** [handleSubmitWrite]: the next runtime, the node's count of client writes
    in flight and the answer to the client's goroutine. *)
Definition handleSubmitWrite (limits : client_limits) (now nodeInFlight : Z) (rt : slotRuntime)
    (kind : OperationKind) (key value : string) (conditions : WriteConditions)
    : slotRuntime * Z * submit_answer :=
  match activeRecord rt with
  | Err e => (rt, nodeInFlight, SubmitRejected e)
  | Ok record =>
      if negb (bool_decide (asg_Role (rr_assignment record) = ReplicaRoleHead)) &&
         negb (bool_decide (asg_Role (rr_assignment record) = ReplicaRoleSingle))
      then (rt, nodeInFlight, SubmitRejected ErrWriteRejected)
      else
        match committedMetadataState rt key with
        | Err e => (rt, nodeInFlight, SubmitRejected e)
        | Ok (rt, currentMetadata) =>
            let found := match currentMetadata with Some _ => true | None => false end in
            let current := {| obj_Value := ""; obj_Metadata := default zeroMetadata currentMetadata |} in
            match evaluateWriteConditions conditions found current with
            | Err e => (rt, nodeInFlight, SubmitRejected e)
            | Ok _ =>
                if bool_decide (kind = OperationKindDelete) && negb found then
                  (rt, nodeInFlight,
                   SubmitAbsent {| result_Slot := own_slot rt; result_Sequence := 0;
                                   result_Applied := false; result_Metadata := None |})
                else
                  match tryAdmitNodeClientWrite limits nodeInFlight (own_slot rt)
                          (rr_inFlightClientWrites record) with
                  | Err e => (rt, nodeInFlight, SubmitRejected e)
                  | Ok nodeInFlight =>
                      let record := record <| rr_inFlightClientWrites := rr_inFlightClientWrites record + 1 |> in
                      let operation :=
                        {| op_Slot := own_slot rt; op_Sequence := rr_nextSequence record;
                           op_Kind := kind; op_Key := key; op_Value := value;
                           op_Metadata := nextObjectMetadata now found currentMetadata |} in
                      let '(record, result) := reduceSubmitWrite record operation in
                      (rt <| own_record := record |>, nodeInFlight,
                       SubmitStaged result (asg_Role (rr_assignment record)) (effect_of_role record operation))
                  end
            end
        end
  end.

(** ** Reads *)
Definition normalizeReadConsistency (consistency : ReadConsistency) : ReadConsistency :=
  match consistency with
  | ReadConsistencyLocalCommitted => ReadConsistencyLocalCommitted
  | _ => ReadConsistencyLinearizable
  end.

Definition dirtyEntriesForKey (record : replicaRecord) (key : string) : list dirtyReadEntry :=
  (fun e => {| dirty_Sequence := dirty_Sequence e;
               dirty_Operation := cloneWriteOperation (dirty_Operation e) |})
    <$> default [] (rr_dirtyByKey record !! key).

Definition committedObject (record : replicaRecord) (slot : Z) (key : string)
    : res storage_error (option CommittedObject) :=
  match recordCommittedOverlayObject record key with
  | Some overlay => Ok overlay
  | None => GetCommitted slot key
  end.

(** The loop from the newest dirty entry down: the first one the tail has
    committed answers the read. *)
Fixpoint resolve_dirty (newestFirst : list dirtyReadEntry) (sequence : Z)
    (object : option CommittedObject) : res storage_error (option CommittedObject) :=
  match newestFirst with
  | [] => Ok object
  | entry :: older =>
      if sequence <? dirty_Sequence entry then resolve_dirty older sequence object
      else match op_Kind (dirty_Operation entry) with
           | OperationKindPut => Ok (Some (put_object (dirty_Operation entry)))
           | OperationKindDelete => Ok None
           | OperationKindUnsupported _ => Err ErrInvalidStorageConfig
           end
  end.

Definition resolveRead (req : ClientGetRequest) (record : replicaRecord)
    (dirtyEntries : list dirtyReadEntry) (consistency : ReadConsistency)
    : res storage_error (option CommittedObject) :=
  let assignment := rr_assignment record in
  object ← committedObject record (get_Slot req) (get_Key req);
  match consistency, asg_Role assignment, dirtyEntries with
  | ReadConsistencyLocalCommitted, _, _ | _, ReplicaRoleTail, _ | _, ReplicaRoleSingle, _
  | _, _, [] => Ok object
  | _, _, _ =>
      let peers := asg_Peers assignment in
      let failed cause :=
        ReadDependencyError (get_Slot req) (get_ExpectedChainVersion req) (TailNodeID peers) cause in
      let tailTarget := peerTransportTarget (TailTarget peers) (TailNodeID peers) in
      if String.eqb tailTarget "" then Err (failed ErrStateMismatch)
      else match FetchCommittedSequence tailTarget (get_Slot req) with
           | Err e => Err (failed e)
           | Ok sequence => resolve_dirty (reverse dirtyEntries) sequence object
           end
  end.

Definition handleClientGet (rt : slotRuntime) (req : ClientGetRequest) : res storage_error ReadResult :=
  let slot := get_Slot req in
  let expected := get_ExpectedChainVersion req in
  let record := own_record rt in
  let assignment := rr_assignment record in
  let mismatch := RoutingMismatchError slot expected (asg_ChainVersion assignment)
                    (asg_Role assignment) (Some (rr_state record)) in
  _ ← reject (negb (own_exists rt))
        (RoutingMismatchError slot expected 0 ReplicaRoleNone None RoutingMismatchReasonUnknownSlot);
  _ ← reject (negb (bool_decide (rr_state record = StateActive)))
        (mismatch RoutingMismatchReasonInactiveReplica);
  _ ← reject (negb (asg_ChainVersion assignment =? expected)) (mismatch RoutingMismatchReasonWrongVersion);
  object ← resolveRead req record (dirtyEntriesForKey record (get_Key req))
             (normalizeReadConsistency (get_Consistency req));
  Ok {| read_Slot := slot; read_ChainVersion := asg_ChainVersion assignment;
        read_Found := match object with Some _ => true | None => false end;
        read_Value := match object with Some o => obj_Value o | None => "" end;
        read_Metadata := (fun o => cloneObjectMetadata (obj_Metadata o)) <$> object |}.
End requests.

(** ** New replicas *)
Definition emptyRecord : replicaRecord :=
  {| rr_assignment := noAssignment; rr_state := StatePending; rr_nextSequence := 0;
     rr_highestPreparedDurable := 0; rr_highestCommitTokenReceived := 0;
     rr_highestCommittedSequence := 0; rr_materializedCommittedSequence := 0;
     rr_highestUpstreamConfirmedSequence := 0; rr_localDataPresent := false;
     rr_lastKnownState := StatePending; rr_pendingWrites := ∅; rr_preparedEntries := ∅;
     rr_expectedCommitSources := ∅; rr_stagedForwards := ∅; rr_bufferedForwards := ∅;
     rr_bufferedCommits := ∅; rr_recentCommittedForwards := ∅; rr_recentCommittedCommits := ∅;
     rr_recentForwardOrder := []; rr_recentCommitOrder := []; rr_dirtyByKey := ∅;
     rr_committedOverlay := ∅; rr_inFlightClientWrites := 0 |}.

(** The record [addReplicaAsTail] ends with: a new replica that has installed
    its predecessor's snapshot, or, without a predecessor, an empty one. *)
Definition catchingUpRecord (assignment : ReplicaAssignment) (highestCommittedSequence : Z)
    : replicaRecord :=
  let highest :=
    if String.eqb (PredecessorNodeID (asg_Peers assignment)) "" then 0 else highestCommittedSequence in
  emptyRecord
    <| rr_assignment := assignment |> <| rr_localDataPresent := true |>
    <| rr_highestPreparedDurable := highest |> <| rr_highestCommitTokenReceived := highest |>
    <| rr_highestCommittedSequence := highest |> <| rr_materializedCommittedSequence := highest |>
    <| rr_highestUpstreamConfirmedSequence := highest |>
    <| rr_nextSequence := u64_add highest 1 |>
    <| rr_state := StateCatchingUp |> <| rr_lastKnownState := StateCatchingUp |>.

(** The record [recoverReplica] installs from a peer. *)
Definition recoveredRecord (assignment : ReplicaAssignment) (highestCommittedSequence : Z)
    : replicaRecord :=
  emptyRecord
    <| rr_assignment := assignment |> <| rr_localDataPresent := true |>
    <| rr_highestPreparedDurable := highestCommittedSequence |>
    <| rr_highestCommitTokenReceived := highestCommittedSequence |>
    <| rr_highestCommittedSequence := highestCommittedSequence |>
    <| rr_materializedCommittedSequence := highestCommittedSequence |>
    <| rr_highestUpstreamConfirmedSequence := highestCommittedSequence |>
    <| rr_nextSequence := u64_add highestCommittedSequence 1 |>
    <| rr_state := StateActive |> <| rr_lastKnownState := StateActive |>.

(** [handleCommittedSnapshotWithSequence]: what a joining replica fetches. *)
Definition committedSnapshotWithSequence (rt : slotRuntime) (backend : Snapshot) : Snapshot * Z :=
  if negb (own_exists rt) then (backend, 0)
  else (recordMergedCommittedSnapshot (own_record rt) backend,
        rr_highestCommittedSequence (own_record rt)).
