(* ===== verification/Backend.v ===== *)
(** * Storage backends (src/storage/inmemory.go, src/storage/storage.go)

    The interface of a backend, which keeps the committed objects of each slot
    and the sequence number they reach, and its in-memory implementation; the
    in-memory store of a node's replicas. *)

From S2P Require Import Prelude.
From S2P Require Import StorageTypes.
From S2P Require Import SlotReducer.
From S2P Require Import SlotOwner.
From S2P Require Import Journal.

Open Scope Z_scope.
Open Scope record_scope.

(** ** The interface

    The operations the materialiser, recovery and reads use; an update that
    fails may have changed the backend. *)
Class Backend (B : Type) := {
  HighestCommittedSequence : B -> Z -> res storage_error Z;
  GetCommitted : B -> Z -> string -> res storage_error (option CommittedObject);
  CommittedSnapshot : B -> Z -> res storage_error Snapshot;
  ApplyCommittedBatch : B -> list DurableCommit -> B * res storage_error unit;
}.

(** ** The in-memory backend *)
Record stagedOperation := {
  so_kind : OperationKind;
  so_key : string;
  so_value : string;
  so_metadata : ObjectMetadata;
}.

Record replicaData := {
  rd_committed : Snapshot;
  rd_staged : gmap Z stagedOperation;
  rd_highestCommitted : Z;
  rd_highestUpstreamConfirmed : Z;
}.

#[export] Instance replicaData_rebuild : Rebuild replicaData := fun r =>
  {| rd_committed := rd_committed r; rd_staged := rd_staged r; rd_highestCommitted := rd_highestCommitted r;
     rd_highestUpstreamConfirmed := rd_highestUpstreamConfirmed r |}.

Record InMemoryBackend := { be_replicas : gmap Z replicaData }.

Definition NewInMemoryBackend : InMemoryBackend := {| be_replicas := ∅ |}.

Definition replica_of (b : InMemoryBackend) (slot : Z) : res storage_error replicaData :=
  match be_replicas b !! slot with Some replica => Ok replica | None => Err ErrUnknownReplica end.

Definition with_replica (b : InMemoryBackend) (slot : Z) (replica : replicaData) : InMemoryBackend :=
  {| be_replicas := <[slot := replica]> (be_replicas b) |}.

Definition CreateReplica (b : InMemoryBackend) (slot : Z) : res storage_error InMemoryBackend :=
  match be_replicas b !! slot with
  | Some _ => Err ErrReplicaExists
  | None => Ok (with_replica b slot {| rd_committed := ∅; rd_staged := ∅; rd_highestCommitted := 0;
                                       rd_highestUpstreamConfirmed := 0 |})
  end.

Definition DeleteReplica (b : InMemoryBackend) (slot : Z) : res storage_error InMemoryBackend :=
  _ ← replica_of b slot; Ok {| be_replicas := delete slot (be_replicas b) |}.

Definition backend_Snapshot (b : InMemoryBackend) (slot : Z) : res storage_error Snapshot :=
  replica ← replica_of b slot; Ok (clone_map (rd_committed replica)).

Definition InstallSnapshot (b : InMemoryBackend) (slot : Z) (snap : Snapshot)
    : res storage_error InMemoryBackend :=
  replica ← replica_of b slot;
  Ok (with_replica b slot (replica <| rd_committed := clone_map snap |> <| rd_staged := ∅ |>)).

Definition SetHighestCommittedSequence (b : InMemoryBackend) (slot sequence : Z)
    : res storage_error InMemoryBackend :=
  replica ← replica_of b slot;
  Ok (with_replica b slot (replica <| rd_highestCommitted := sequence |>
                                   <| rd_highestUpstreamConfirmed := sequence |> <| rd_staged := ∅ |>)).

Definition HighestUpstreamConfirmedSequence (b : InMemoryBackend) (slot : Z) : res storage_error Z :=
  replica ← replica_of b slot; Ok (rd_highestUpstreamConfirmed replica).

Definition SetHighestUpstreamConfirmedSequence (b : InMemoryBackend) (slot sequence : Z)
    : res storage_error InMemoryBackend :=
  replica ← replica_of b slot;
  Ok (with_replica b slot (replica <| rd_highestUpstreamConfirmed := sequence |>)).

(** The switch on the operation kind, shared by both ways to commit. *)
Definition commit_kind (committed : Snapshot) (kind : OperationKind) (key value : string)
    (metadata : ObjectMetadata) : res storage_error Snapshot :=
  match kind with
  | OperationKindPut =>
      Ok (<[key := {| obj_Value := value; obj_Metadata := cloneObjectMetadata metadata |}]> committed)
  | OperationKindDelete => Ok (delete key committed)
  | OperationKindUnsupported _ => Err ErrInvalidStorageConfig
  end.

Definition apply_committed (b : InMemoryBackend) (commit : DurableCommit) : res storage_error InMemoryBackend :=
  let op := dc_Operation commit in
  replica ← replica_of b (op_Slot op);
  _ ← reject (negb (op_Sequence op =? u64_add (rd_highestCommitted replica) 1)) ErrSequenceMismatch;
  committed ← commit_kind (rd_committed replica) (op_Kind op) (op_Key op) (op_Value op) (op_Metadata op);
  Ok (with_replica b (op_Slot op)
        (replica <| rd_committed := committed |>
                 <| rd_staged := delete (op_Sequence op) (rd_staged replica) |>
                 <| rd_highestCommitted := op_Sequence op |>
                 <| rd_highestUpstreamConfirmed := dc_UpstreamConfirmedSequence commit |>)).

(** A commit that fails leaves those before it applied. *)
Fixpoint apply_committed_batch (b : InMemoryBackend) (commits : list DurableCommit)
    : InMemoryBackend * res storage_error unit :=
  match commits with
  | [] => (b, Ok tt)
  | commit :: commits =>
      match apply_committed b commit with
      | Err e => (b, Err e)
      | Ok b => apply_committed_batch b commits
      end
  end.

Definition ApplyCommitted (b : InMemoryBackend) (op : WriteOperation) (persisted : option PersistedReplica)
    : InMemoryBackend * res storage_error unit :=
  let upstreamConfirmed :=
    match persisted with Some p => pr_HighestUpstreamConfirmedSequence p | None => op_Sequence op end in
  apply_committed_batch b
    [{| dc_Operation := op;
        dc_Persisted := {| pr_Assignment := noAssignment; pr_LastKnownState := StatePending;
                           pr_HighestCommittedSequence := 0; pr_HighestUpstreamConfirmedSequence := 0;
                           pr_HasCommittedData := false |};
        dc_UpstreamConfirmedSequence := upstreamConfirmed |}].

Definition backend_Put (b : InMemoryBackend) (slot : Z) (key value : string) (metadata : ObjectMetadata)
    : res storage_error InMemoryBackend :=
  replica ← replica_of b slot;
  Ok (with_replica b slot (replica <| rd_committed :=
    <[key := {| obj_Value := value; obj_Metadata := cloneObjectMetadata metadata |}]> (rd_committed replica) |>)).

(** [StagePut] and [StageDelete]. *)
Definition stage (b : InMemoryBackend) (slot sequence : Z) (operation : stagedOperation)
    : res storage_error InMemoryBackend :=
  replica ← replica_of b slot;
  _ ← reject (bool_decide (is_Some (rd_staged replica !! sequence))) ErrSequenceMismatch;
  Ok (with_replica b slot (replica <| rd_staged := <[sequence := operation]> (rd_staged replica) |>)).

Definition StagePut (b : InMemoryBackend) (slot sequence : Z) (key value : string) (metadata : ObjectMetadata) :=
  stage b slot sequence {| so_kind := OperationKindPut; so_key := key; so_value := value;
                           so_metadata := cloneObjectMetadata metadata |}.

Definition StageDelete (b : InMemoryBackend) (slot sequence : Z) (key : string) (metadata : ObjectMetadata) :=
  stage b slot sequence {| so_kind := OperationKindDelete; so_key := key; so_value := "";
                           so_metadata := cloneObjectMetadata metadata |}.

Definition CommitSequence (b : InMemoryBackend) (slot sequence : Z) : res storage_error InMemoryBackend :=
  replica ← replica_of b slot;
  _ ← reject (negb (sequence =? u64_add (rd_highestCommitted replica) 1)) ErrSequenceMismatch;
  match rd_staged replica !! sequence with
  | None => Err ErrSequenceMismatch
  | Some op =>
      committed ← commit_kind (rd_committed replica) (so_kind op) (so_key op) (so_value op) (so_metadata op);
      Ok (with_replica b slot
            (replica <| rd_committed := committed |> <| rd_staged := delete sequence (rd_staged replica) |>
                     <| rd_highestCommitted := sequence |> <| rd_highestUpstreamConfirmed := sequence |>))
  end.

Definition backend_GetCommitted (b : InMemoryBackend) (slot : Z) (key : string)
    : res storage_error (option CommittedObject) :=
  replica ← replica_of b slot;
  Ok ((fun o => {| obj_Value := obj_Value o; obj_Metadata := cloneObjectMetadata (obj_Metadata o) |})
        <$> rd_committed replica !! key).

Definition backend_HighestCommittedSequence (b : InMemoryBackend) (slot : Z) : res storage_error Z :=
  replica ← replica_of b slot; Ok (rd_highestCommitted replica).

Definition StagedSequences (b : InMemoryBackend) (slot : Z) : res storage_error (list Z) :=
  replica ← replica_of b slot;
  Ok (isort Z.leb (map_to_list (rd_staged replica)).*1).

#[export] Instance InMemoryBackend_backend : Backend InMemoryBackend := {
  HighestCommittedSequence := backend_HighestCommittedSequence;
  GetCommitted := backend_GetCommitted;
  CommittedSnapshot := backend_Snapshot;
  ApplyCommittedBatch := apply_committed_batch;
}.

(** ** The in-memory store of a node's replicas *)
Record PersistedNodeState := {
  ps_NodeID : string;
  ps_HighestAcceptedCoordinatorEpoch : Z;
  ps_Replicas : list PersistedReplica;
}.

#[export] Instance PersistedNodeState_rebuild : Rebuild PersistedNodeState := fun s =>
  {| ps_NodeID := ps_NodeID s; ps_HighestAcceptedCoordinatorEpoch := ps_HighestAcceptedCoordinatorEpoch s;
     ps_Replicas := ps_Replicas s |}.

Abbreviation local_store := (gmap string PersistedNodeState).

Definition LoadNode (s : local_store) (nodeID : string) : PersistedNodeState :=
  default {| ps_NodeID := nodeID; ps_HighestAcceptedCoordinatorEpoch := 0; ps_Replicas := [] |} (s !! nodeID).

Definition persisted_slot (r : PersistedReplica) : Z := asg_Slot (pr_Assignment r).

(** The first replica of the same slot is overwritten; [None] if there is none. *)
Fixpoint replace_replica (replica : PersistedReplica) (l : list PersistedReplica) : option (list PersistedReplica) :=
  match l with
  | [] => None
  | r :: l =>
      if persisted_slot r =? persisted_slot replica then Some (replica :: l)
      else cons r <$> replace_replica replica l
  end.

Definition UpsertReplica (s : local_store) (nodeID : string) (replica : PersistedReplica) : local_store :=
  let state := LoadNode s nodeID in
  let replicas :=
    match replace_replica replica (ps_Replicas state) with
    | Some replaced => replaced
    | None => ps_Replicas state ++ [replica]
    end in
  <[nodeID := state <| ps_Replicas :=
      isort (fun a b => persisted_slot a <=? persisted_slot b) replicas |>]> s.

Definition local_DeleteReplica (s : local_store) (nodeID : string) (slot : Z) : local_store :=
  match s !! nodeID with
  | None => s
  | Some state =>
      <[nodeID := state <| ps_Replicas :=
          List.filter (fun r => negb (persisted_slot r =? slot)) (ps_Replicas state) |>]> s
  end.

Definition SetHighestAcceptedCoordinatorEpoch (s : local_store) (nodeID : string) (epoch : Z) : local_store :=
  <[nodeID := (LoadNode s nodeID) <| ps_HighestAcceptedCoordinatorEpoch := epoch |>]> s.
