(* ===== verification/Badger.v ===== *)
(** * The badger backend and local store (src/storage/badger/store.go)

    The keys are built as the source builds them; the JSON of the values is a
    [Codec].  [beforeDurableWrite] is the hook that runs before every write and
    [update_fails] says which transactions the database refuses: in both cases
    nothing is written.  [flush_fails] says which batches fail; [spilled] is how
    many writes of a batch that is not completed have been committed by then,
    the batch being too large for one transaction. *)

From S2P Require Import Prelude.
From S2P Require Import StorageTypes.
From S2P Require Import SlotReducer.
From S2P Require Import SlotOwner.
From S2P Require Import Journal.
From S2P Require Import Backend.
From S2P Require Import BadgerDB.
From Stdlib Require Import Ascii.

Open Scope Z_scope.
Open Scope record_scope.

Module Badger.

(** ** Keys *)
Definition keyReplicaMeta : ascii := "m".
Definition keyReplicaUpstreamMeta : ascii := "u".
Definition keyCommittedData : ascii := "c".
Definition keyStagedOp : ascii := "s".
Definition keyLocalReplica : ascii := "l".
Definition keyLocalNodeMeta : ascii := "n".

Definition encodeUint64 (value : Z) : bytes := put_be 8 value.
Definition encodeSlot (slot : Z) : bytes := encodeUint64 (u64 slot).
Definition decodeUint64 (value : bytes) : res storage_error Z :=
  _ ← reject (negb (length value =? 8)%nat) ErrStateMismatch; Ok (get_be value).
Definition decodeSequence (value : bytes) : res storage_error Z := decodeUint64 value.

Definition replicaMetaKey (slot : Z) : bytes := keyReplicaMeta :: encodeSlot slot.
Definition replicaUpstreamMetaKey (slot : Z) : bytes := keyReplicaUpstreamMeta :: encodeSlot slot.
Definition committedPrefix (slot : Z) : bytes := keyCommittedData :: encodeSlot slot.
Definition committedKey (slot : Z) (key : string) : bytes := committedPrefix slot ++ String.list_ascii_of_string key.
Definition stagedPrefix (slot : Z) : bytes := keyStagedOp :: encodeSlot slot.
Definition stagedKey (slot sequence : Z) : bytes := stagedPrefix slot ++ encodeUint64 sequence.
Definition localReplicaPrefix (nodeID : string) : bytes :=
  keyLocalReplica :: put_be 4 (byte_length nodeID) ++ String.list_ascii_of_string nodeID.
Definition localReplicaKey (nodeID : string) (slot : Z) : bytes := localReplicaPrefix nodeID ++ encodeSlot slot.
Definition localNodeMetaKey (nodeID : string) : bytes :=
  keyLocalNodeMeta :: put_be 4 (byte_length nodeID) ++ String.list_ascii_of_string nodeID.

(** The operations, by the names the hook is given. *)
Inductive durable_op :=
| opCreateReplica
| opDeleteReplica
| opInstallSnapshot
| opSetHighestCommittedSequence
| opCommitSequence
| opApplyCommitted
| opApplyCommittedBatch
| opUpsertLocalReplica
| opDeleteLocalReplica
| opSetLocalNodeMeta
| opCleanupStagedOnOpen
| opStageOperation.

Section store.
Context `{Codec CommittedObject} `{Codec stagedOperation} `{Codec PersistedReplica}.
Context (beforeDurableWrite : durable_op -> option storage_error).
Context (update_fails : durable_op -> option storage_error).
Context (spilled : list db_write -> nat) (flush_fails : list db_write -> bool).

Definition runBeforeDurableWrite (op : durable_op) : res storage_error unit :=
  match beforeDurableWrite op with Some e => Err e | None => Ok tt end.

(** [db.Update]: the writes of [fn], or none of them. *)
Definition Update (op : durable_op) (d : database) (fn : database -> res storage_error database)
    : res storage_error database :=
  written ← fn d;
  match update_fails op with Some e => Err e | None => Ok written end.

Definition writeSync (op : durable_op) (d : database) (fn : database -> res storage_error database)
    : res storage_error database :=
  _ ← runBeforeDurableWrite op; Update op d fn.

Definition deletePrefixTxn (d : database) (prefix : bytes) : database :=
  foldl (fun d key => delete key d) d (iterate d prefix).*1.

Definition encoded {A} `{Codec A} (a : A) : res storage_error bytes :=
  match marshal a with Some v => Ok v | None => Err ErrBackend end.

Definition decoded {A} `{Codec A} (v : bytes) : res storage_error A :=
  match unmarshal v with Some a => Ok a | None => Err ErrBackend end.

(** ** The backend *)
Definition HighestCommittedSequence (d : database) (slot : Z) : res storage_error Z :=
  match db_get d (replicaMetaKey slot) with
  | None => Err ErrUnknownReplica
  | Some value => decodeUint64 value
  end.

Definition CreateReplica (d : database) (slot : Z) : res storage_error database :=
  match HighestCommittedSequence d slot with
  | Ok _ => Err ErrReplicaExists
  | Err ErrUnknownReplica =>
      writeSync opCreateReplica d (fun d =>
        Ok (<[replicaUpstreamMetaKey slot := encodeUint64 0]> (<[replicaMetaKey slot := encodeUint64 0]> d)))
  | Err e => Err e
  end.

Definition DeleteReplica (d : database) (slot : Z) : res storage_error database :=
  _ ← HighestCommittedSequence d slot;
  writeSync opDeleteReplica d (fun d =>
    let d := deletePrefixTxn d (committedPrefix slot) in
    let d := deletePrefixTxn d (stagedPrefix slot) in
    Ok (delete (replicaUpstreamMetaKey slot) (delete (replicaMetaKey slot) d))).

Definition sortedSnapshotKeys (snapshot : Snapshot) : list string := sort_Strings (map_to_list snapshot).*1.

Definition install_key (slot : Z) (snap : Snapshot) (d : database) (key : string) : res storage_error database :=
  value ← encoded (default zeroObject (snap !! key)); Ok (<[committedKey slot key := value]> d).

Definition InstallSnapshot (d : database) (slot : Z) (snap : Snapshot) : res storage_error database :=
  _ ← HighestCommittedSequence d slot;
  writeSync opInstallSnapshot d (fun d =>
    let d := deletePrefixTxn d (committedPrefix slot) in
    let d := deletePrefixTxn d (stagedPrefix slot) in
    res_fold (install_key slot snap) d (sortedSnapshotKeys snap)).

Definition SetHighestCommittedSequence (d : database) (slot sequence : Z) : res storage_error database :=
  _ ← HighestCommittedSequence d slot;
  writeSync opSetHighestCommittedSequence d (fun d =>
    let d := deletePrefixTxn d (stagedPrefix slot) in
    Ok (<[replicaUpstreamMetaKey slot := encodeUint64 sequence]> (<[replicaMetaKey slot := encodeUint64 sequence]> d))).

Definition HighestUpstreamConfirmedSequence (d : database) (slot : Z) : res storage_error Z :=
  _ ← HighestCommittedSequence d slot;
  match db_get d (replicaUpstreamMetaKey slot) with
  | None => Ok 0
  | Some value => decodeUint64 value
  end.

Definition SetHighestUpstreamConfirmedSequence (d : database) (slot sequence : Z) : res storage_error database :=
  _ ← HighestCommittedSequence d slot;
  writeSync opSetHighestCommittedSequence d (fun d => Ok (<[replicaUpstreamMetaKey slot := encodeUint64 sequence]> d)).

(** *** Batches *)

(** The check of the sequence numbers: the running mark of each slot seen. *)
Definition check_commit (d : database) (expected : gmap Z Z) (commit : DurableCommit)
    : res storage_error (gmap Z Z) :=
  let op := dc_Operation commit in
  highestCommitted ← match expected !! op_Slot op with
                     | Some highest => Ok highest
                     | None => HighestCommittedSequence d (op_Slot op)
                     end;
  _ ← reject (negb (op_Sequence op =? u64_add highestCommitted 1)) ErrSequenceMismatch;
  Ok (<[op_Slot op := op_Sequence op]> expected).

(** The writes of one operation: its object, or the error of its kind. *)
Definition object_write (slot : Z) (kind : OperationKind) (key value : string) (metadata : ObjectMetadata)
    : res storage_error db_write :=
  match kind with
  | OperationKindPut =>
      v ← encoded {| obj_Value := value; obj_Metadata := metadata |}; Ok (DBSet (committedKey slot key) v)
  | OperationKindDelete => Ok (DBDelete (committedKey slot key))
  | OperationKindUnsupported _ => Err ErrInvalidStorageConfig
  end.

Definition commit_writes (commit : DurableCommit) : res storage_error (list db_write) :=
  let op := dc_Operation commit in
  w ← object_write (op_Slot op) (op_Kind op) (op_Key op) (op_Value op) (op_Metadata op);
  Ok [w; DBDelete (stagedKey (op_Slot op) (op_Sequence op));
      DBSet (replicaMetaKey (op_Slot op)) (encodeUint64 (op_Sequence op));
      DBSet (replicaUpstreamMetaKey (op_Slot op)) (encodeUint64 (dc_UpstreamConfirmedSequence commit))].

(** The loop that fills the batch: what it holds, and the error that ended it. *)
Fixpoint batch_writes (ws : list db_write) (commits : list DurableCommit) : list db_write * res storage_error unit :=
  match commits with
  | [] => (ws, Ok tt)
  | commit :: commits =>
      match commit_writes commit with
      | Err e => (ws, Err e)
      | Ok more => batch_writes (ws ++ more) commits
      end
  end.

Definition apply_batch (d : database) (commits : list DurableCommit) : database * res storage_error unit :=
  match commits with
  | [] => (d, Ok tt)
  | _ =>
      match res_fold (check_commit d) ∅ commits with
      | Err e => (d, Err e)
      | Ok _ =>
          match runBeforeDurableWrite opApplyCommittedBatch with
          | Err e => (d, Err e)
          | Ok _ =>
              let '(ws, filled) := batch_writes [] commits in
              let partial := apply_writes d (take (spilled ws) ws) in
              match filled with
              | Err e => (partial, Err e)
              | Ok _ => if flush_fails ws then (partial, Err ErrBackend) else (apply_writes d ws, Ok tt)
              end
          end
      end
  end.

Definition ApplyCommitted (d : database) (op : WriteOperation) (persisted : option PersistedReplica)
    : database * res storage_error unit :=
  let upstreamConfirmed :=
    match persisted with Some p => pr_HighestUpstreamConfirmedSequence p | None => op_Sequence op end in
  match runBeforeDurableWrite opApplyCommitted with
  | Err e => (d, Err e)
  | Ok _ =>
      apply_batch d
        [{| dc_Operation := op;
            dc_Persisted := {| pr_Assignment := noAssignment; pr_LastKnownState := StatePending;
                               pr_HighestCommittedSequence := 0; pr_HighestUpstreamConfirmedSequence := 0;
                               pr_HasCommittedData := false |};
            dc_UpstreamConfirmedSequence := upstreamConfirmed |}]
  end.

(** [legacyApplyCommitted], which does not move the upstream mark. *)
Definition legacyApplyCommitted (d : database) (op : WriteOperation) : res storage_error database :=
  highestCommitted ← HighestCommittedSequence d (op_Slot op);
  _ ← reject (negb (op_Sequence op =? u64_add highestCommitted 1)) ErrSequenceMismatch;
  writeSync opApplyCommitted d (fun d =>
    w ← object_write (op_Slot op) (op_Kind op) (op_Key op) (op_Value op) (op_Metadata op);
    Ok (apply_writes d
          [w; DBDelete (stagedKey (op_Slot op) (op_Sequence op));
           DBSet (replicaMetaKey (op_Slot op)) (encodeUint64 (op_Sequence op))])).

(** *** Staged operations *)
Definition loadStagedOperation (d : database) (slot sequence : Z) : res storage_error stagedOperation :=
  match db_get d (stagedKey slot sequence) with
  | None => Err ErrSequenceMismatch
  | Some value => decoded value
  end.

Definition stageOperation (d : database) (slot sequence : Z) (operation : stagedOperation)
    : res storage_error database :=
  _ ← HighestCommittedSequence d slot;
  match loadStagedOperation d slot sequence with
  | Ok _ => Err ErrSequenceMismatch
  | Err ErrSequenceMismatch =>
      value ← encoded operation;
      writeSync opStageOperation d (fun d => Ok (<[stagedKey slot sequence := value]> d))
  | Err e => Err e
  end.

Definition StagePut (d : database) (slot sequence : Z) (key value : string) (metadata : ObjectMetadata) :=
  stageOperation d slot sequence {| so_kind := OperationKindPut; so_key := key; so_value := value; so_metadata := metadata |}.

Definition StageDelete (d : database) (slot sequence : Z) (key : string) (metadata : ObjectMetadata) :=
  stageOperation d slot sequence {| so_kind := OperationKindDelete; so_key := key; so_value := ""; so_metadata := metadata |}.

Definition CommitSequence (d : database) (slot sequence : Z) : res storage_error database :=
  highestCommitted ← HighestCommittedSequence d slot;
  _ ← reject (negb (sequence =? u64_add highestCommitted 1)) ErrSequenceMismatch;
  operation ← loadStagedOperation d slot sequence;
  writeSync opCommitSequence d (fun d =>
    w ← object_write slot (so_kind operation) (so_key operation) (so_value operation) (so_metadata operation);
    Ok (apply_writes d
          [w; DBDelete (stagedKey slot sequence); DBSet (replicaMetaKey slot) (encodeUint64 sequence);
           DBSet (replicaUpstreamMetaKey slot) (encodeUint64 sequence)])).

(** *** Reads *)
Definition CommittedSnapshot (d : database) (slot : Z) : res storage_error Snapshot :=
  _ ← HighestCommittedSequence d slot;
  let prefix := committedPrefix slot in
  res_fold (fun snapshot '(key, value) =>
    object ← decoded value;
    Ok (<[String.string_of_list_ascii (drop (length prefix) key) := object]> snapshot)) ∅ (iterate d prefix).

Definition GetCommitted (d : database) (slot : Z) (key : string) : res storage_error (option CommittedObject) :=
  _ ← HighestCommittedSequence d slot;
  match db_get d (committedKey slot key) with
  | None => Ok None
  | Some value => object ← decoded value; Ok (Some object)
  end.

Definition StagedSequences (d : database) (slot : Z) : res storage_error (list Z) :=
  _ ← HighestCommittedSequence d slot;
  let prefix := stagedPrefix slot in
  sequences ← res_fold (fun sequences '(key, _) =>
    sequence ← decodeSequence (drop (length prefix) key); Ok (sequences ++ [sequence])) [] (iterate d prefix);
  Ok (isort Z.leb sequences).

(** [cleanupStagedOperationsOnOpen]: what was staged does not survive a restart. *)
Definition cleanupStagedOperationsOnOpen (d : database) : res storage_error database :=
  match iterate d [keyStagedOp] with
  | [] => Ok d
  | _ => writeSync opCleanupStagedOnOpen d (fun d => Ok (deletePrefixTxn d [keyStagedOp]))
  end.

(** ** The local store *)
Definition LoadNode (d : database) (nodeID : string) : res storage_error PersistedNodeState :=
  let epoch := match db_get d (localNodeMetaKey nodeID) with
               | Some value => if (length value =? 8)%nat then get_be value else 0
               | None => 0
               end in
  replicas ← res_fold (fun replicas '(_, value) => replica ← decoded value; Ok (replicas ++ [replica]))
               [] (iterate d (localReplicaPrefix nodeID));
  Ok {| ps_NodeID := nodeID; ps_HighestAcceptedCoordinatorEpoch := epoch;
        ps_Replicas := isort (fun a b => persisted_slot a <=? persisted_slot b) replicas |}.

Definition UpsertReplica (d : database) (nodeID : string) (replica : PersistedReplica) : res storage_error database :=
  value ← encoded replica;
  writeSync opUpsertLocalReplica d (fun d => Ok (<[localReplicaKey nodeID (persisted_slot replica) := value]> d)).

Definition local_DeleteReplica (d : database) (nodeID : string) (slot : Z) : res storage_error database :=
  writeSync opDeleteLocalReplica d (fun d => Ok (delete (localReplicaKey nodeID slot) d)).

Definition SetHighestAcceptedCoordinatorEpoch (d : database) (nodeID : string) (epoch : Z)
    : res storage_error database :=
  writeSync opSetLocalNodeMeta d (fun d => Ok (<[localNodeMetaKey nodeID := encodeUint64 epoch]> d)).
End store.
End Badger.
