(* ===== verification/Node.v ===== *)
(** * The storage node (src/storage/storage.go, node_published.go)

    What a node keeps beside its slots: a published copy of each replica's
    record with running totals, the coordinator epoch it accepts commands from,
    replicas being activated and catch-ups in flight.  Locks make each operation
    on these fields one step; [acceptCoordinatorEpoch] takes its lock twice and is
    a program. *)

From S2P Require Import Prelude.
From S2P Require Import CoordTypes.
From S2P Require Import StorageTypes.
From S2P Require Import RuntimeTypes.
From S2P Require Import SlotReducer.
From S2P Require Import SlotOwner.

Open Scope Z_scope.
Open Scope record_scope.

(** ** Published replicas *)
Record publishedReplicaSnapshot := {
  pub_assignment : ReplicaAssignment;
  pub_state : StorageReplicaState;
  pub_lastKnownState : StorageReplicaState;
  pub_highestPreparedDurable : Z;
  pub_highestCommittedSequence : Z;
  pub_materializedCommittedSequence : Z;
  pub_highestCommitTokenReceived : Z;
  pub_highestUpstreamConfirmedSequence : Z;
  pub_localDataPresent : bool;
  pub_inFlightClientWrites : Z;
  pub_bufferedForwards : Z;
  pub_bufferedCommits : Z;
  pub_dirtyKeyCount : Z;
}.

Definition dirtyKeyCount (record : replicaRecord) : Z := Z.of_nat (size (rr_dirtyByKey record)).

Definition publishedReplicaFromRecord (record : replicaRecord) : publishedReplicaSnapshot :=
  {| pub_assignment := rr_assignment record; pub_state := rr_state record; pub_lastKnownState := rr_lastKnownState record;
     pub_highestPreparedDurable := rr_highestPreparedDurable record;
     pub_highestCommittedSequence := rr_highestCommittedSequence record;
     pub_materializedCommittedSequence := rr_materializedCommittedSequence record;
     pub_highestCommitTokenReceived := rr_highestCommitTokenReceived record;
     pub_highestUpstreamConfirmedSequence := rr_highestUpstreamConfirmedSequence record;
     pub_localDataPresent := rr_localDataPresent record; pub_inFlightClientWrites := rr_inFlightClientWrites record;
     pub_bufferedForwards := Z.of_nat (size (rr_bufferedForwards record));
     pub_bufferedCommits := Z.of_nat (size (rr_bufferedCommits record)); pub_dirtyKeyCount := dirtyKeyCount record |}.

(** The record a new owner of the slot starts from. *)
Definition replicaRecordFromPublished (snapshot : publishedReplicaSnapshot) : replicaRecord :=
  emptyRecord
    <| rr_assignment := pub_assignment snapshot |> <| rr_state := pub_state snapshot |>
    <| rr_nextSequence := u64_add (pub_highestCommittedSequence snapshot) 1 |>
    <| rr_highestPreparedDurable := pub_highestPreparedDurable snapshot |>
    <| rr_highestCommittedSequence := pub_highestCommittedSequence snapshot |>
    <| rr_materializedCommittedSequence := pub_materializedCommittedSequence snapshot |>
    <| rr_highestCommitTokenReceived := pub_highestCommitTokenReceived snapshot |>
    <| rr_highestUpstreamConfirmedSequence := pub_highestUpstreamConfirmedSequence snapshot |>
    <| rr_localDataPresent := pub_localDataPresent snapshot |>
    <| rr_lastKnownState := pub_lastKnownState snapshot |>
    <| rr_inFlightClientWrites := pub_inFlightClientWrites snapshot |>.

Definition bufferedReplicaMessages (s : publishedReplicaSnapshot) : Z := pub_bufferedForwards s + pub_bufferedCommits s.

(** ** The node's fields *)
Record StorageNode := {
  sn_nodeID : string;
  sn_publishedReplicas : gmap Z publishedReplicaSnapshot;
  sn_publishedReplicaCount : Z;
  sn_publishedActiveCount : Z;
  sn_publishedCatchingUpCount : Z;
  sn_publishedLeavingCount : Z;
  sn_publishedBufferedReplicaMessages : Z;
  sn_publishedCatchingUpSlots : gset Z;
  sn_publishedLeavingSlots : gset Z;
  sn_activatingReplicas : gset Z;
  sn_inFlightCatchups : Z;
  sn_maxConcurrentCatchups : Z;
}.

#[export] Instance StorageNode_rebuild : Rebuild StorageNode := fun n =>
  {| sn_nodeID := sn_nodeID n; sn_publishedReplicas := sn_publishedReplicas n;
     sn_publishedReplicaCount := sn_publishedReplicaCount n; sn_publishedActiveCount := sn_publishedActiveCount n;
     sn_publishedCatchingUpCount := sn_publishedCatchingUpCount n; sn_publishedLeavingCount := sn_publishedLeavingCount n;
     sn_publishedBufferedReplicaMessages := sn_publishedBufferedReplicaMessages n;
     sn_publishedCatchingUpSlots := sn_publishedCatchingUpSlots n; sn_publishedLeavingSlots := sn_publishedLeavingSlots n;
     sn_activatingReplicas := sn_activatingReplicas n; sn_inFlightCatchups := sn_inFlightCatchups n;
     sn_maxConcurrentCatchups := sn_maxConcurrentCatchups n |}.

Definition newNode (nodeID : string) (maxConcurrentCatchups : Z) : StorageNode :=
  {| sn_nodeID := nodeID; sn_publishedReplicas := ∅; sn_publishedReplicaCount := 0; sn_publishedActiveCount := 0;
     sn_publishedCatchingUpCount := 0; sn_publishedLeavingCount := 0; sn_publishedBufferedReplicaMessages := 0;
     sn_publishedCatchingUpSlots := ∅; sn_publishedLeavingSlots := ∅; sn_activatingReplicas := ∅;
     sn_inFlightCatchups := 0; sn_maxConcurrentCatchups := maxConcurrentCatchups |}.

(** [applyPublishedReplicaStatsLocked]: the copy that goes, then the one that comes. *)
Definition subtract_stats (n : StorageNode) (slot : Z) (before : publishedReplicaSnapshot) : StorageNode :=
  let n := n <| sn_publishedReplicaCount := sn_publishedReplicaCount n - 1 |>
             <| sn_publishedBufferedReplicaMessages := sn_publishedBufferedReplicaMessages n - bufferedReplicaMessages before |> in
  match pub_state before with
  | StateActive => n <| sn_publishedActiveCount := sn_publishedActiveCount n - 1 |>
  | StateCatchingUp => n <| sn_publishedCatchingUpCount := sn_publishedCatchingUpCount n - 1 |>
                         <| sn_publishedCatchingUpSlots := sn_publishedCatchingUpSlots n ∖ {[slot]} |>
  | StateLeaving => n <| sn_publishedLeavingCount := sn_publishedLeavingCount n - 1 |>
                      <| sn_publishedLeavingSlots := sn_publishedLeavingSlots n ∖ {[slot]} |>
  | _ => n
  end.

Definition add_stats (n : StorageNode) (slot : Z) (after : publishedReplicaSnapshot) : StorageNode :=
  let n := n <| sn_publishedReplicaCount := sn_publishedReplicaCount n + 1 |>
             <| sn_publishedBufferedReplicaMessages := sn_publishedBufferedReplicaMessages n + bufferedReplicaMessages after |> in
  match pub_state after with
  | StateActive => n <| sn_publishedActiveCount := sn_publishedActiveCount n + 1 |>
  | StateCatchingUp => n <| sn_publishedCatchingUpCount := sn_publishedCatchingUpCount n + 1 |>
                         <| sn_publishedCatchingUpSlots := {[slot]} ∪ sn_publishedCatchingUpSlots n |>
  | StateLeaving => n <| sn_publishedLeavingCount := sn_publishedLeavingCount n + 1 |>
                      <| sn_publishedLeavingSlots := {[slot]} ∪ sn_publishedLeavingSlots n |>
  | _ => n
  end.

Definition applyPublishedReplicaStatsLocked (n : StorageNode) (slot : Z) (before after : option publishedReplicaSnapshot)
    : StorageNode :=
  let n := match before with Some before => subtract_stats n slot before | None => n end in
  match after with Some after => add_stats n slot after | None => n end.

Definition publishReplicaSnapshotLocked (n : StorageNode) (slot : Z) (snapshot : publishedReplicaSnapshot) : StorageNode :=
  let n := applyPublishedReplicaStatsLocked n slot (sn_publishedReplicas n !! slot) (Some snapshot) in
  n <| sn_publishedReplicas := <[slot := snapshot]> (sn_publishedReplicas n) |>.

Definition publishReplicaRecord (n : StorageNode) (slot : Z) (record : replicaRecord) : StorageNode :=
  publishReplicaSnapshotLocked n slot (publishedReplicaFromRecord record).

Definition deletePublishedReplica (n : StorageNode) (slot : Z) : StorageNode :=
  match sn_publishedReplicas n !! slot with
  | None => n
  | Some existing =>
      let n := applyPublishedReplicaStatsLocked n slot (Some existing) None in
      n <| sn_publishedReplicas := delete slot (sn_publishedReplicas n) |>
  end.

(** ** What is read of them *)
Definition sortedPublishedReplicaSlots (replicas : gmap Z publishedReplicaSnapshot) : list Z :=
  isort Z.leb (map_to_list replicas).*1.

Definition snapshotNodeStatus (n : StorageNode) : NodeStatus :=
  {| status_NodeID := sn_nodeID n; status_ReplicaCount := sn_publishedReplicaCount n;
     status_ActiveCount := sn_publishedActiveCount n; status_CatchingUpCount := sn_publishedCatchingUpCount n;
     status_LeavingCount := sn_publishedLeavingCount n |}.

Definition CatchingUpSlots (n : StorageNode) : list Z := isort Z.leb (elements (sn_publishedCatchingUpSlots n)).
Definition LeavingSlots (n : StorageNode) : list Z := isort Z.leb (elements (sn_publishedLeavingSlots n)).

Definition published_HighestCommittedSequence (n : StorageNode) (slot : Z) : res storage_error Z :=
  match sn_publishedReplicas n !! slot with
  | Some record => Ok (pub_highestCommittedSequence record)
  | None => Err ErrUnknownReplica
  end.

Definition InFlightClientWritesForSlot (n : StorageNode) (slot : Z) : res storage_error Z :=
  match sn_publishedReplicas n !! slot with
  | Some record => Ok (pub_inFlightClientWrites record)
  | None => Err ErrUnknownReplica
  end.

(** [State]: the assignment and state of every replica. *)
Definition NodeState (n : StorageNode) : gmap Z (ReplicaAssignment * StorageReplicaState) :=
  (fun record => (pub_assignment record, pub_state record)) <$> sn_publishedReplicas n.

(** The report of [ReportRecoveredState]. *)
Definition recovered_report (n : StorageNode) : NodeRecoveryReport :=
  {| report_NodeID := sn_nodeID n;
     report_Replicas := omap (fun slot =>
       match sn_publishedReplicas n !! slot with
       | Some record =>
           if bool_decide (pub_state record = StateRecovered)
           then Some {| rec_Assignment := pub_assignment record; rec_LastKnownState := pub_lastKnownState record;
                        rec_HighestCommittedSequence := pub_highestCommittedSequence record;
                        rec_HasCommittedData := pub_localDataPresent record |}
           else None
       | None => None
       end) (sortedPublishedReplicaSlots (sn_publishedReplicas n)) |}.

(** ** Admission *)
(** The check of [HandleClientPut] and [HandleClientDelete]. *)
Definition validateClientWrite (n : StorageNode) (slot expected : Z) : res storage_error unit :=
  match sn_publishedReplicas n !! slot with
  | None => Err (RoutingMismatchError slot expected 0 ReplicaRoleNone None RoutingMismatchReasonUnknownSlot)
  | Some record =>
      let assignment := pub_assignment record in
      let mismatch := RoutingMismatchError slot expected (asg_ChainVersion assignment)
                        (asg_Role assignment) (Some (pub_state record)) in
      _ ← reject (negb (bool_decide (pub_state record = StateActive))) (mismatch RoutingMismatchReasonInactiveReplica);
      _ ← reject (negb (asg_ChainVersion assignment =? expected)) (mismatch RoutingMismatchReasonWrongVersion);
      reject (negb (bool_decide (asg_Role assignment = ReplicaRoleHead)) &&
              negb (bool_decide (asg_Role assignment = ReplicaRoleSingle))) (mismatch RoutingMismatchReasonWrongRole)
  end.

Inductive activation_error :=
| ActivationFailed (e : storage_error)
| ErrReplicaActivationInFlight
| ErrReplicaAlreadyActive.

Definition beginReplicaActivation (n : StorageNode) (slot : Z) : res activation_error StorageNode :=
  match sn_publishedReplicas n !! slot with
  | None => Err (ActivationFailed ErrUnknownReplica)
  | Some record =>
      match pub_state record with
      | StateActive => Err ErrReplicaAlreadyActive
      | StatePending => Err ErrReplicaActivationInFlight
      | StateCatchingUp =>
          _ ← reject (bool_decide (slot ∈ sn_activatingReplicas n)) ErrReplicaActivationInFlight;
          Ok (n <| sn_activatingReplicas := {[slot]} ∪ sn_activatingReplicas n |>)
      | _ => Err (ActivationFailed ErrInvalidTransition)
      end
  end.

Definition endReplicaActivation (n : StorageNode) (slot : Z) : StorageNode :=
  n <| sn_activatingReplicas := sn_activatingReplicas n ∖ {[slot]} |>.

Definition admitCatchup (n : StorageNode) : res storage_error StorageNode :=
  _ ← reject ((0 <? sn_maxConcurrentCatchups n) && (sn_maxConcurrentCatchups n <=? sn_inFlightCatchups n))
        (ErrCatchupBackpressure (sn_inFlightCatchups n) (sn_maxConcurrentCatchups n));
  Ok (n <| sn_inFlightCatchups := sn_inFlightCatchups n + 1 |>).

Definition releaseCatchup (n : StorageNode) : StorageNode :=
  if 0 <? sn_inFlightCatchups n then n <| sn_inFlightCatchups := sn_inFlightCatchups n - 1 |> else n.

(** ** The coordinator's epoch *)
Inductive epoch_call : Type -> Type :=
| CallCurrentEpoch : epoch_call Z
| CallPersistEpoch (epoch : Z) : epoch_call (res storage_error unit)
| CallRaiseEpoch (epoch : Z) : epoch_call unit.

(** The lock is released while the epoch is persisted. *)
Definition acceptCoordinatorEpoch (epoch : Z) : program epoch_call (res storage_error unit) :=
  current ← call CallCurrentEpoch;
  if (epoch =? 0) || (epoch =? current) then succeed ()
  else if epoch <? current then fail_with ErrWriteRejected
  else
    _ <~ call (CallPersistEpoch epoch);
    _ ← call (CallRaiseEpoch epoch);
    succeed ().
