(* ===== verification/NodeTheorems.v ===== *)
(** * What a storage node guarantees

    The totals a node reports are those of the replicas it has, and a command
    of a coordinator that another one has replaced is refused. *)

From S2P Require Import Prelude.
From S2P Require Import CoordTypes.
From S2P Require Import StorageTypes.
From S2P Require Import RuntimeTypes.
From S2P Require Import SlotReducer.
From S2P Require Import SlotOwner.
From S2P Require Import Node.

Open Scope Z_scope.
Open Scope record_scope.

(** ** Totals *)
Definition total {A} (f : A -> Z) (m : gmap Z A) : Z := map_fold (fun _ a acc => f a + acc) 0 m.

Definition one_if {A} (p : A -> bool) (a : A) : Z := if p a then 1 else 0.

Lemma total_empty {A} (f : A -> Z) : total f ∅ = 0.
Proof. apply map_fold_empty. Qed.

Lemma total_insert {A} (f : A -> Z) m k a : m !! k = None -> total f (<[k := a]> m) = f a + total f m.
Proof. intros Hk. unfold total. rw map_fold_insert_L; [|done|done]. intros; lia. Qed.

Lemma total_delete {A} (f : A -> Z) m k a : m !! k = Some a -> total f m = f a + total f (delete k m).
Proof. intros Hk. unfold total. rw (map_fold_delete_L _ _ k a m); [|done|done]. intros; lia. Qed.

(** The totals after [k] becomes [a]. *)
Lemma total_update {A} (f : A -> Z) m k a :
  total f (<[k := a]> m) = total f m - match m !! k with Some old => f old | None => 0 end + f a.
Proof.
  destruct (m !! k) as [old|] eqn:Hk.
  - rw -insert_delete_eq total_insert; [apply lookup_delete_eq|]. rw (total_delete f m k old Hk). lia.
  - rw total_insert //. lia.
Qed.

(** ** A node's life *)
Inductive node_step : StorageNode -> StorageNode -> Prop :=
| step_publish n slot record : node_step n (publishReplicaRecord n slot record)
| step_delete n slot : node_step n (deletePublishedReplica n slot)
| step_begin n slot n' : beginReplicaActivation n slot = Ok n' -> node_step n n'
| step_end n slot : node_step n (endReplicaActivation n slot)
| step_admit n n' : admitCatchup n = Ok n' -> node_step n n'
| step_release n : node_step n (releaseCatchup n).

Definition node_reachable (n : StorageNode) : Prop :=
  exists nodeID limit, rtc node_step (newNode nodeID limit) n.

Definition in_state (s : StorageReplicaState) (p : publishedReplicaSnapshot) : bool := bool_decide (pub_state p = s).

(** The totals of [n] are those of the replicas [m]. *)
Record stats_for (n : StorageNode) (m : gmap Z publishedReplicaSnapshot) : Prop := {
  se_replicas : sn_publishedReplicaCount n = total (fun _ => 1) m;
  se_active : sn_publishedActiveCount n = total (one_if (in_state StateActive)) m;
  se_catching : sn_publishedCatchingUpCount n = total (one_if (in_state StateCatchingUp)) m;
  se_leaving : sn_publishedLeavingCount n = total (one_if (in_state StateLeaving)) m;
  se_buffered : sn_publishedBufferedReplicaMessages n = total bufferedReplicaMessages m;
  se_catching_slots slot : slot ∈ sn_publishedCatchingUpSlots n <->
    exists p, m !! slot = Some p /\ pub_state p = StateCatchingUp;
  se_leaving_slots slot : slot ∈ sn_publishedLeavingSlots n <->
    exists p, m !! slot = Some p /\ pub_state p = StateLeaving;
}.

Definition stats_exact (n : StorageNode) : Prop := stats_for n (sn_publishedReplicas n).

(** The fields after the statistics of [p] are taken away, or added. *)
Record shifted (sign : Z) (n n' : StorageNode) (slot : Z) (p : publishedReplicaSnapshot) : Prop := {
  sh_map : sn_publishedReplicas n' = sn_publishedReplicas n;
  sh_catchups : sn_inFlightCatchups n' = sn_inFlightCatchups n /\ sn_maxConcurrentCatchups n' = sn_maxConcurrentCatchups n;
  sh_replicas : sn_publishedReplicaCount n' = sn_publishedReplicaCount n + sign;
  sh_active : sn_publishedActiveCount n' = sn_publishedActiveCount n + sign * one_if (in_state StateActive) p;
  sh_catching : sn_publishedCatchingUpCount n' = sn_publishedCatchingUpCount n + sign * one_if (in_state StateCatchingUp) p;
  sh_leaving : sn_publishedLeavingCount n' = sn_publishedLeavingCount n + sign * one_if (in_state StateLeaving) p;
  sh_buffered : sn_publishedBufferedReplicaMessages n' =
    sn_publishedBufferedReplicaMessages n + sign * bufferedReplicaMessages p;
  sh_catching_slots x : x ∈ sn_publishedCatchingUpSlots n' <->
    if decide (x = slot /\ pub_state p = StateCatchingUp) then sign = 1 else x ∈ sn_publishedCatchingUpSlots n;
  sh_leaving_slots x : x ∈ sn_publishedLeavingSlots n' <->
    if decide (x = slot /\ pub_state p = StateLeaving) then sign = 1 else x ∈ sn_publishedLeavingSlots n;
}.

Lemma subtract_shifted n slot p : shifted (-1) n (subtract_stats n slot p) slot p.
Proof.
  unfold subtract_stats. constructor; unfold one_if, in_state.
  all: destruct (pub_state p); cbn -[Z.mul Z.add]; repeat case_bool_decide; try lia; try done.
  all: intros x; case_decide; set_solver by lia.
Qed.

Lemma add_shifted n slot p : shifted 1 n (add_stats n slot p) slot p.
Proof.
  unfold add_stats. constructor; unfold one_if, in_state.
  all: destruct (pub_state p); cbn -[Z.mul Z.add]; repeat case_bool_decide; try lia; try done.
  all: intros x; case_decide; set_solver by lia.
Qed.

Lemma subtract_exact n m slot p : m !! slot = Some p -> stats_for n m ->
  stats_for (subtract_stats n slot p) (delete slot m).
Proof.
  intros Hp [H1 H2 H3 H4 H5 H6 H7]. destruct (subtract_shifted n slot p) as [_ _ S1 S2 S3 S4 S5 S6 S7].
  pose proof (fun f => total_delete f _ _ _ Hp) as Ht.
  constructor; cbn -[Z.mul]; rw ?S1 ?S2 ?S3 ?S4 ?S5 ?H1 ?H2 ?H3 ?H4 ?H5 ?Ht; try lia.
  - clear -Hp S6 H6. intros x. rw S6. clear S6. destruct (decide (x = slot)) as [->|Hne].
    + rw lookup_delete_eq. case_decide as Hd; [split; [by intros [=]|by intros (? & ? & _)]|]. rw H6 Hp.
      split; [intros (q & [= <-] & Hq); by destruct Hd|by intros (? & ? & _)].
    + rw lookup_delete_ne; [congruence|]. case_decide as Hd; [by destruct Hd|]. apply H6.
  - clear -Hp S7 H7. intros x. rw S7. clear S7. destruct (decide (x = slot)) as [->|Hne].
    + rw lookup_delete_eq. case_decide as Hd; [split; [by intros [=]|by intros (? & ? & _)]|]. rw H7 Hp.
      split; [intros (q & [= <-] & Hq); by destruct Hd|by intros (? & ? & _)].
    + rw lookup_delete_ne; [congruence|]. case_decide as Hd; [by destruct Hd|]. apply H7.
Qed.

Lemma add_exact n m slot p : m !! slot = None -> stats_for n m ->
  stats_for (add_stats n slot p) (<[slot := p]> m).
Proof.
  intros Hp [H1 H2 H3 H4 H5 H6 H7]. destruct (add_shifted n slot p) as [_ _ S1 S2 S3 S4 S5 S6 S7].
  pose proof (fun f => total_insert f _ _ p Hp) as Ht.
  constructor; cbn -[Z.mul]; rw ?S1 ?S2 ?S3 ?S4 ?S5 ?H1 ?H2 ?H3 ?H4 ?H5 ?Ht; try lia.
  - clear -Hp S6 H6. intros x. rw S6. clear S6. destruct (decide (x = slot)) as [->|Hne].
    + rw lookup_insert_eq. case_decide as Hd; [split; [by exists p; destruct Hd|done]|]. rw H6 Hp.
      split; [by intros (? & ? & _)|intros (q & [= <-] & Hq); by destruct Hd].
    + rw lookup_insert_ne; [congruence|]. case_decide as Hd; [by destruct Hd|]. apply H6.
  - clear -Hp S7 H7. intros x. rw S7. clear S7. destruct (decide (x = slot)) as [->|Hne].
    + rw lookup_insert_eq. case_decide as Hd; [split; [by exists p; destruct Hd|done]|]. rw H7 Hp.
      split; [by intros (? & ? & _)|intros (q & [= <-] & Hq); by destruct Hd].
    + rw lookup_insert_ne; [congruence|]. case_decide as Hd; [by destruct Hd|]. apply H7.
Qed.


Lemma publish_exact n slot p : stats_exact n -> stats_exact (publishReplicaSnapshotLocked n slot p).
Proof.
  intros Hn. unfold stats_exact, publishReplicaSnapshotLocked, applyPublishedReplicaStatsLocked.
  destruct (sn_publishedReplicas n !! slot) as [old|] eqn:Hold.
  - destruct (add_shifted (subtract_stats n slot old) slot p) as [Hm _ _ _ _ _ _ _ _].
    destruct (subtract_shifted n slot old) as [Hm' _ _ _ _ _ _ _ _]. cbn. rw Hm Hm'.
    apply (subtract_exact _ _ slot old Hold) in Hn. apply (add_exact _ _ slot p) in Hn; [|apply lookup_delete_eq].
    rw insert_delete_eq in Hn. by destruct Hn.
  - destruct (add_shifted n slot p) as [Hm _ _ _ _ _ _ _ _]. cbn. rw Hm. apply (add_exact _ _ slot p) in Hn; [|done].
    by destruct Hn.
Qed.

Lemma delete_exact n slot : stats_exact n -> stats_exact (deletePublishedReplica n slot).
Proof.
  intros Hn. unfold stats_exact, deletePublishedReplica. destruct (sn_publishedReplicas n !! slot) as [old|] eqn:Hold; [|done].
  cbn. destruct (subtract_shifted n slot old) as [Hm _ _ _ _ _ _ _ _]. rw Hm.
  apply (subtract_exact _ _ slot old Hold) in Hn. by destruct Hn.
Qed.

(** Catch-ups stay within their limit. *)
Definition catchups_bounded (n : StorageNode) : Prop :=
  0 <= sn_inFlightCatchups n /\ (0 < sn_maxConcurrentCatchups n -> sn_inFlightCatchups n <= sn_maxConcurrentCatchups n).

Lemma node_step_inv n n' : node_step n n' -> stats_exact n /\ catchups_bounded n -> stats_exact n' /\ catchups_bounded n'.
Proof.
  intros Hstep [Hs Hc]. destruct Hstep as [n slot record|n slot|n slot n' Hb|n slot|n n' Ha|n].
  - split; [by apply publish_exact|]. unfold catchups_bounded, publishReplicaRecord, publishReplicaSnapshotLocked,
      applyPublishedReplicaStatsLocked. cbn. destruct (sn_publishedReplicas n !! slot) as [old|].
    + destruct (add_shifted (subtract_stats n slot old) slot (publishedReplicaFromRecord record)) as [_ [-> ->] _ _ _ _ _ _ _].
      by destruct (subtract_shifted n slot old) as [_ [-> ->] _ _ _ _ _ _ _].
    + by destruct (add_shifted n slot (publishedReplicaFromRecord record)) as [_ [-> ->] _ _ _ _ _ _ _].
  - split; [by apply delete_exact|]. unfold catchups_bounded, deletePublishedReplica.
    destruct (sn_publishedReplicas n !! slot) as [old|]; [|done]. cbn.
    by destruct (subtract_shifted n slot old) as [_ [-> ->] _ _ _ _ _ _ _].
  - unfold beginReplicaActivation in Hb. destruct (_ !! _) as [p|]; [|done]. destruct (pub_state p); try done.
    apply bind_Ok in Hb as (_ & _ & [= <-]). split; [by destruct Hs|done].
  - split; [by destruct Hs|done].
  - unfold admitCatchup in Ha. apply bind_Ok in Ha as (_ & [Hl _]%reject_Ok & [= <-]). split; [by destruct Hs|].
    unfold catchups_bounded in *. cbn. destruct Hc. split; [lia|]. intros Hpos. apply andb_false_iff in Hl as [Hl%Z.ltb_ge|Hl%Z.leb_gt]; lia.
  - unfold releaseCatchup. destruct (Z.ltb_spec 0 (sn_inFlightCatchups n)); [|done]. split; [by destruct Hs|].
    unfold catchups_bounded in *. cbn. lia.
Qed.

(** The totals a node reports are kept by increments and always exact: after
    any sequence of publications, removals, activations and catch-ups its status
    counts are those of the replicas it has, its buffered messages their sum,
    the slots it lists as catching up or leaving exactly those in that state,
    and the catch-ups in flight never exceed their limit. *)
Theorem node_totals_exact n : node_reachable n ->
  stats_exact n /\ catchups_bounded n /\
  (forall slot, slot ∈ CatchingUpSlots n <->
     exists p, sn_publishedReplicas n !! slot = Some p /\ pub_state p = StateCatchingUp) /\
  (forall slot, slot ∈ LeavingSlots n <->
     exists p, sn_publishedReplicas n !! slot = Some p /\ pub_state p = StateLeaving).
Proof.
  intros (nodeID & limit & Hsteps).
  assert (stats_exact n /\ catchups_bounded n) as [Hs Hc].
  { eapply (rtc_ind_r (fun n => stats_exact n /\ catchups_bounded n)); [|intros a b _ Hab Ha; exact (node_step_inv a b Hab Ha)|exact Hsteps].
    split; [|unfold catchups_bounded; cbn; lia]. constructor; cbn; rw ?total_empty; try done.
    all: intros slot; split; [by intros ?%elem_of_empty|by intros (? & ? & _)]. }
  split_and!; [done..| |]; intros slot; unfold CatchingUpSlots, LeavingSlots; rw elem_of_isort elem_of_elements; apply Hs.
Qed.

Definition published_node : StorageNode :=
  publishReplicaRecord (newNode "a" 2) 3 (emptyRecord <| rr_state := StateCatchingUp |>).

Lemma node_totals_exact_witness : sn_publishedCatchingUpCount published_node = 1 /\ stats_exact published_node.
Proof.
  split; [vm_compute; reflexivity|]. apply (node_totals_exact published_node). exists "a", 2. apply rtc_once, step_publish.
Defined.

(** ** The coordinator's epoch

    Commands run concurrently: [Accept i e] starts command [i], [Advance i ok]
    answers its next call, a persist of which [ok] decides, and [Restart] reads
    the epoch back from the store. *)
Record epoch_world := {
  ew_memory : Z;
  ew_durable : Z;
  ew_running : gmap nat (program epoch_call (res storage_error unit));
}.

Inductive epoch_event :=
| Accept (i : nat) (epoch : Z)
| Advance (i : nat) (ok : bool)
| Restart.

Definition epoch_reply (w : epoch_world) (ok : bool) {X} (c : epoch_call X) : X * Z * Z :=
  match c with
  | CallCurrentEpoch => (ew_memory w, ew_memory w, ew_durable w)
  | CallPersistEpoch epoch => if ok then (Ok (), ew_memory w, epoch) else (Err ErrBackend, ew_memory w, ew_durable w)
  | CallRaiseEpoch epoch => ((), Z.max (ew_memory w) epoch, ew_durable w)
  end.

Definition epoch_do (w : epoch_world) (ev : epoch_event) : epoch_world :=
  match ev with
  | Accept i epoch =>
      match ew_running w !! i with
      | Some _ => w
      | None => {| ew_memory := ew_memory w; ew_durable := ew_durable w;
                   ew_running := <[i := acceptCoordinatorEpoch epoch]> (ew_running w) |}
      end
  | Advance i ok =>
      match ew_running w !! i with
      | Some (Call c k) =>
          let '(x, memory, durable) := epoch_reply w ok c in
          {| ew_memory := memory; ew_durable := durable; ew_running := <[i := k x]> (ew_running w) |}
      | _ => w
      end
  | Restart => {| ew_memory := ew_durable w; ew_durable := ew_durable w; ew_running := ∅ |}
  end.

Definition epoch_run (w : epoch_world) (evs : list epoch_event) : epoch_world := foldl epoch_do w evs.

Definition no_restart (evs : list epoch_event) : Prop := Restart ∉ evs.

(** A command of an epoch below the one in memory can only be refused. *)
Definition refused (epoch : Z) (w : epoch_world) (i : nat) : Prop :=
  epoch < ew_memory w /\
  (ew_running w !! i = Some (acceptCoordinatorEpoch epoch) \/ ew_running w !! i = Some (fail_with ErrWriteRejected)).

Lemma epoch_do_memory w ev : ev <> Restart -> ew_memory w <= ew_memory (epoch_do w ev).
Proof.
  intros Hev. destruct ev as [i e|i ok|]; cbn; [destruct (ew_running w !! i); cbn; lia| |done].
  destruct (ew_running w !! i) as [[a|X c k]|]; [lia| |lia].
  destruct c; cbn; [lia|destruct ok; cbn; lia|lia].
Qed.

Lemma epoch_do_refused epoch w i ev : epoch <> 0 -> ev <> Restart -> refused epoch w i -> refused epoch (epoch_do w ev) i.
Proof.
  intros H0 Hev [Hlt Hrun]. split; [pose proof (epoch_do_memory w ev Hev); lia|]. destruct ev as [j e|j ok|]; [| |done]; cbn.
  - destruct (ew_running w !! j) eqn:Hj; [done|]. cbn. rw lookup_insert_ne; [|done]. intros ->. rw Hj in Hrun. by destruct Hrun.
  - destruct (decide (j = i)) as [->|Hne].
    + destruct Hrun as [Hr|Hr]; rw Hr; cbn; [|by right]. rw lookup_insert_eq. right.
      rw (proj2 (Z.eqb_neq _ _) H0) (proj2 (Z.eqb_neq epoch (ew_memory w))); [lia|]. cbn.
      by rw (proj2 (Z.ltb_lt _ _) Hlt).
    + destruct (ew_running w !! j) as [[a|X c k]|]; [done| |done].
      destruct (epoch_reply w ok c) as [[x m] d]. cbn. by rw lookup_insert_ne.
Qed.

(** C40. A replaced coordinator is refused: once a node has taken up an epoch, every
    command of an older one that starts afterwards, other than epoch 0, which is
    always let through, is rejected when it is answered,
    however it interleaves with other commands and whichever writes to the node's
    store fail, until the node restarts. *)
Theorem stale_epoch_refused w evs i epoch r :
  no_restart evs -> epoch <> 0 -> epoch < ew_memory w -> ew_running w !! i = None ->
  ew_running (epoch_run (epoch_do w (Accept i epoch)) evs) !! i = Some (Done r) -> r = Err ErrWriteRejected.
Proof.
  intros Hevs H0 Hlt Hi.
  assert (refused epoch (epoch_run (epoch_do w (Accept i epoch)) evs) i) as [_ [Hr|Hr]].
  { assert (refused epoch (epoch_do w (Accept i epoch)) i) as Hstart.
    { cbn. rw Hi. split; [done|left]. cbn. apply lookup_insert_eq. }
    revert Hstart. generalize (epoch_do w (Accept i epoch)). clear w Hlt Hi.
    induction evs as [|ev evs IH]; intros w Hw; [done|]. unfold no_restart in *. apply not_elem_of_cons in Hevs as [Hev Hevs].
    apply IH; [done|]. by apply epoch_do_refused; [|congruence|]. }
  - rw Hr. done.
  - rw Hr. by intros [= <-].
Qed.

Definition at_epoch (e : Z) : epoch_world := {| ew_memory := e; ew_durable := e; ew_running := ∅ |}.

Lemma stale_epoch_refused_witness :
  let w := epoch_run (at_epoch 6) [Accept 0 5; Advance 0 true] in
  ew_running w !! 0%nat = Some (Done (Err ErrWriteRejected)).
Proof.
  cbv zeta. assert (exists r, ew_running (epoch_run (at_epoch 6) [Accept 0 5; Advance 0 true]) !! 0%nat = Some (Done r)) as [r Hr].
  { eexists. vm_compute. reflexivity. }
  rw Hr. do 2 f_equal. apply (stale_epoch_refused (at_epoch 6) [Advance 0 true] 0 5 r); [|done..|exact Hr].
  intros [? | ?%not_elem_of_nil]%elem_of_cons; done.
Defined.

(** The epoch a node has persisted can fall behind the one it has accepted:
    when a command of epoch 5 overlaps one of epoch 6, both accepted over epoch
    4, the later of the two writes wins; after a restart the node takes up
    commands of epoch 5 again, although it has carried out one of epoch 6. *)
Theorem persisted_epoch_regresses :
  let w := epoch_run (at_epoch 4)
    [Accept 0 5; Advance 0 true; Accept 1 6; Advance 1 true; Advance 1 true; Advance 1 true; Advance 0 true; Advance 0 true] in
  let w' := epoch_run (epoch_do w Restart) [Accept 2 5; Advance 2 true] in
  ew_running w !! 1%nat = Some (Done (Ok ())) /\ ew_memory w = 6 /\ ew_durable w = 5 /\
  ew_running w' !! 2%nat = Some (Done (Ok ())).
Proof. cbv zeta. split_and!; vm_compute; reflexivity. Qed.
