(* ===== verification/Materializer.v ===== *)
(** * The materialiser (src/storage/commit_journal.go, slot_owner_support.go)

    The goroutine of a journal shard that applies committed operations to the
    backend in batches and tells the slot owners how far it got.  [published]
    is what the node shows of its replicas: the assignment of each slot.  The
    timer is the flag [mt_timer]: it is armed or not. *)

From S2P Require Import Prelude.
From S2P Require Import StorageTypes.
From S2P Require Import SlotReducer.
From S2P Require Import SlotOwner.
From S2P Require Import Journal.
From S2P Require Import Backend.

Open Scope Z_scope.
Open Scope record_scope.

(** ** What an owner hands over

    [enqueueMaterializationUpTo]: the committed operations the backend lacks,
    under the owner's current assignment; [fuel] is the number of sequence
    numbers the loop visits. *)
Fixpoint commits_from (fuel : nat) (record : replicaRecord) (seq : Z) : list DurableCommit :=
  match fuel with
  | O => []
  | S fuel =>
      match rr_preparedEntries record !! seq with
      | Some operation =>
          [{| dc_Operation := cloneWriteOperation operation; dc_Persisted := persistedReplica record;
              dc_UpstreamConfirmedSequence := 0 |}]
      | None => []
      end ++ commits_from fuel record (u64_add seq 1)
  end.

Definition materialization_commits (rt : slotRuntime) (sequence : Z) : list DurableCommit :=
  if negb (own_exists rt) || (sequence =? 0) then []
  else
    let record := own_record rt in
    let materialized := rr_materializedCommittedSequence record in
    commits_from (Z.to_nat (sequence - materialized)) record (u64_add materialized 1).

(** ** Batches *)
Section batches.
Context {B : Type} `{Backend B}.

(** One commit: the running high-water mark of each slot seen and the commits
    to apply. *)
Definition filter_commit (b : B) (state : gmap Z Z * list DurableCommit) (commit : DurableCommit)
    : res storage_error (gmap Z Z * list DurableCommit) :=
  let '(expected, filtered) := state in
  let op := dc_Operation commit in
  highestCommitted ← match expected !! op_Slot op with
                     | Some highest => Ok highest
                     | None => HighestCommittedSequence b (op_Slot op)
                     end;
  if op_Sequence op <=? highestCommitted then Ok (expected, filtered)
  else if negb (op_Sequence op =? u64_add highestCommitted 1) then Err ErrSequenceMismatch
  else Ok (<[op_Slot op := op_Sequence op]> expected, filtered ++ [commit]).

Definition filterMaterializedCommits (b : B) (commits : list DurableCommit)
    : res storage_error (list DurableCommit) :=
  '(_, filtered) ← res_fold (filter_commit b) (∅, []) commits; Ok filtered.

Definition applyMaterializedBatch (b : B) (commits : list DurableCommit) : B * res storage_error unit :=
  match filterMaterializedCommits b commits with
  | Err e => (b, Err e)
  | Ok filtered => match filtered with [] => (b, Ok tt) | _ => ApplyCommittedBatch b filtered end
  end.
End batches.

(** ** The loop *)
Record commitMaterializer := {
  mt_pending : list DurableCommit;
  mt_suppressedSlots : gset Z;
  mt_timer : bool;
}.

#[export] Instance commitMaterializer_rebuild : Rebuild commitMaterializer := fun m =>
  {| mt_pending := mt_pending m; mt_suppressedSlots := mt_suppressedSlots m; mt_timer := mt_timer m |}.

Definition newCommitMaterializer (backlog : list DurableCommit) : commitMaterializer :=
  {| mt_pending := backlog; mt_suppressedSlots := ∅;
     mt_timer := match backlog with [] => false | _ => true end |}.

Abbreviation published_replicas := (gmap Z ReplicaAssignment).

Definition shouldMaterializeCommit (published : published_replicas) (commit : DurableCommit) : bool :=
  match published !! op_Slot (dc_Operation commit) with
  | None => false
  | Some assignment => asg_ChainVersion assignment =? asg_ChainVersion (pr_Assignment (dc_Persisted commit))
  end.

Definition commit_slot (commit : DurableCommit) : Z := op_Slot (dc_Operation commit).

Definition note_applied (applied : gmap Z Z) (commit : DurableCommit) : gmap Z Z :=
  if default 0 (applied !! commit_slot commit) <? op_Sequence (dc_Operation commit)
  then <[commit_slot commit := op_Sequence (dc_Operation commit)]> applied else applied.

Section loop.
Context {B : Type} `{Backend B}.

Definition wanted (published : published_replicas) (m : commitMaterializer) : list DurableCommit :=
  List.filter (fun commit =>
    negb (bool_decide (commit_slot commit ∈ mt_suppressedSlots m)) && shouldMaterializeCommit published commit)
    (mt_pending m).

(** [flush]: the backend, the loop's state, the high-water marks reported to
    the owners, and whether it succeeded. *)
Definition flush (published : published_replicas) (b : B) (m : commitMaterializer)
    : B * commitMaterializer * gmap Z Z * bool :=
  let m := m <| mt_timer := false |> in
  match mt_pending m with
  | [] => (b, m, ∅, true)
  | _ =>
      match wanted published m with
      | [] => (b, m <| mt_pending := [] |>, ∅, true)
      | filtered =>
          match applyMaterializedBatch b filtered with
          | (b, Err _) => (b, m, ∅, false)
          | (b, Ok _) => (b, m <| mt_pending := [] |>, foldl note_applied ∅ filtered, true)
          end
      end
  end.

Definition defaultMaterializeBatchMaxOps : Z := 128.

(** The four cases of the loop's [select] but closing. *)
Definition control_slot (m : commitMaterializer) (slot : Z) (allow : bool) : commitMaterializer :=
  if allow then m <| mt_suppressedSlots := mt_suppressedSlots m ∖ {[slot]} |>
  else m <| mt_suppressedSlots := {[slot]} ∪ mt_suppressedSlots m |>
         <| mt_pending := List.filter (fun commit => negb (commit_slot commit =? slot)) (mt_pending m) |>.

Definition submit (published : published_replicas) (b : B) (m : commitMaterializer)
    (commits : list DurableCommit) : B * commitMaterializer * gmap Z Z :=
  let pending := mt_pending m ++
    List.filter (fun commit => negb (bool_decide (commit_slot commit ∈ mt_suppressedSlots m))) commits in
  let m := m <| mt_pending := pending |> in
  let m := match pending with [] => m | _ => m <| mt_timer := true |> end in
  if defaultMaterializeBatchMaxOps <=? Z.of_nat (length pending)
  then (flush published b m).1
  else (b, m, ∅).

Definition timer_fired (published : published_replicas) (b : B) (m : commitMaterializer)
    : B * commitMaterializer * gmap Z Z :=
  let '(b, m, applied, ok) := flush published b m in
  let m := if negb ok && negb (match mt_pending m with [] => true | _ => false end)
           then m <| mt_timer := true |> else m in
  (b, m, applied).
End loop.
