(* ===== verification/SlotLifecycle.v ===== *)
(** * Reconfiguration of a slot owner (src/storage/slot_owner.go)

    What the coordinator's commands do to a replica that exists: activation,
    leaving, removal, and a change of its neighbours in the chain, which
    retargets what is in flight and lets a new tail commit what it holds.
    The local store is an argument: it is told the replica's persisted form
    and may fail.  Messages sent to peers and the draining of buffered
    messages that follow are separate transitions. *)

From S2P Require Import Prelude.
From S2P Require Import StorageTypes.
From S2P Require Import SlotReducer.
From S2P Require Import SlotOwner.

Open Scope Z_scope.
Open Scope record_scope.

(** ** Retargeting *)
Definition retargetUncommittedCommitSources (record : replicaRecord) : replicaRecord :=
  let peers := asg_Peers (rr_assignment record) in
  record <| rr_expectedCommitSources :=
    map_imap (fun sequence (_ : expectedCommitSource) =>
      if sequence <=? rr_highestCommittedSequence record then None
      else if String.eqb (SuccessorNodeID peers) "" then None
      else Some {| ecs_FromNodeID := SuccessorNodeID peers;
                   ecs_ChainVersion := asg_ChainVersion (rr_assignment record) |})
    (rr_expectedCommitSources record) |>.

(** The two loops of [retargetUncommittedForwardSources] have this body. *)
Definition retargetForward (record : replicaRecord) (sequence : Z) (req : ForwardWriteRequest)
    : option ForwardWriteRequest :=
  let assignment := rr_assignment record in
  let predecessor := PredecessorNodeID (asg_Peers assignment) in
  if sequence <=? rr_highestCommittedSequence record then None
  else if String.eqb predecessor "" then Some req
  else if negb (String.eqb (fwd_FromNodeID req) predecessor) then Some req
  else Some {| fwd_Operation := fwd_Operation req; fwd_FromNodeID := fwd_FromNodeID req;
               fwd_ChainVersion := asg_ChainVersion assignment |}.

Definition retargetUncommittedForwardSources (record : replicaRecord) : replicaRecord :=
  record <| rr_stagedForwards := map_imap (retargetForward record) (rr_stagedForwards record) |>
         <| rr_bufferedForwards := map_imap (retargetForward record) (rr_bufferedForwards record) |>.

(** What [ensureUpstreamCommitReplay] does to the record before it sends: a
    replica without predecessor has nobody to confirm commits to. *)
Definition ensureUpstreamCommitReplay (rt : slotRuntime) : slotRuntime :=
  let record := own_record rt in
  if negb (own_exists rt) then rt
  else if String.eqb (PredecessorNodeID (asg_Peers (rr_assignment record))) ""
  then rt <| own_record :=
         record <| rr_highestUpstreamConfirmedSequence := rr_highestCommittedSequence record |> |>
  else rt.

(** [submitCommitWatermarkReady]: below the head the ready prefix is committed
    at once; a head hands it to the journal unless it has already done so, and
    the journal's completion is [applyCommitWatermark] with the sequence in the
    second component. *)
Definition submitCommitWatermarkReady (limit highestWatermarkSent : Z) (rt : slotRuntime)
    (record : replicaRecord) : slotRuntime * option Z :=
  let promote := String.eqb (SuccessorNodeID (asg_Peers (rr_assignment record))) "" &&
                 (rr_highestCommitTokenReceived record <? rr_highestPreparedDurable record) in
  let record :=
    if promote then record <| rr_highestCommitTokenReceived := rr_highestPreparedDurable record |>
    else record in
  let rt := if promote then rt <| own_record := record |> else rt in
  let ready := Z.min (rr_highestCommitTokenReceived record) (rr_highestPreparedDurable record) in
  match asg_Role (rr_assignment record) with
  | ReplicaRoleHead | ReplicaRoleSingle =>
      (rt, if (ready <=? rr_highestCommittedSequence record) || (ready <=? highestWatermarkSent)
           then None else Some ready)
  | _ =>
      (if rr_highestCommittedSequence record <? ready then applyCommitWatermark limit rt ready
       else ensureUpstreamCommitReplay rt, None)
  end.

(** ** Commands *)
Section commands.
Context (UpsertReplica : PersistedReplica -> res storage_error unit).

Definition persistReplica (record : replicaRecord) : res storage_error unit :=
  UpsertReplica (persistedReplica record).

Definition activateReplicaReady (rt : slotRuntime) : slotRuntime * res storage_error unit :=
  if negb (own_exists rt) then (rt, Err ErrUnknownReplica) else
  let record := own_record rt in
  match rr_state record with
  | StateActive => (rt, Ok tt)
  | StateCatchingUp =>
      let record := record <| rr_state := StateActive |> <| rr_lastKnownState := StateActive |> in
      (rt <| own_record := record |>, persistReplica record)
  | _ => (rt, Err ErrInvalidTransition)
  end.

Definition markReplicaLeaving (rt : slotRuntime) : slotRuntime * res storage_error unit :=
  if negb (own_exists rt) then (rt, Err ErrUnknownReplica) else
  let record := own_record rt in
  match rr_state record with
  | StateLeaving | StateRemoved => (rt, Ok tt)
  | StateActive =>
      let record := record <| rr_state := StateLeaving |> <| rr_lastKnownState := StateLeaving |> in
      (rt <| own_record := record |>, persistReplica record)
  | _ => (rt, Err ErrInvalidTransition)
  end.

Definition predecessorPeerChanged (before after : ReplicaAssignment) : bool :=
  negb (String.eqb (PredecessorNodeID (asg_Peers before)) (PredecessorNodeID (asg_Peers after))) ||
  negb (String.eqb (PredecessorTarget (asg_Peers before)) (PredecessorTarget (asg_Peers after))).

Definition successorChanged (before after : ReplicaAssignment) : bool :=
  negb (asg_ChainVersion before =? asg_ChainVersion after) ||
  negb (String.eqb (SuccessorNodeID (asg_Peers before)) (SuccessorNodeID (asg_Peers after))) ||
  negb (String.eqb (SuccessorTarget (asg_Peers before)) (SuccessorTarget (asg_Peers after))).

(** The record [updateChainPeers] installs. *)
Definition reassigned (record : replicaRecord) (assignment : ReplicaAssignment) : replicaRecord :=
  let before := rr_assignment record in
  let record :=
    if predecessorPeerChanged before assignment
    then record <| rr_highestUpstreamConfirmedSequence := rr_highestCommittedSequence record |>
    else record in
  let record := record <| rr_assignment := assignment |> in
  let record :=
    if negb (asg_ChainVersion before =? asg_ChainVersion assignment) ||
       predecessorPeerChanged before assignment
    then retargetUncommittedForwardSources record else record in
  let record :=
    if successorChanged before assignment then
      let record := retargetUncommittedCommitSources record in
      if String.eqb (SuccessorNodeID (asg_Peers (rr_assignment record))) "" &&
         (rr_highestCommitTokenReceived record <? rr_highestPreparedDurable record)
      then record <| rr_highestCommitTokenReceived := rr_highestPreparedDurable record |>
      else record
    else record in
  if bool_decide (rr_state record = StateRecovered) then record
  else record <| rr_lastKnownState := rr_state record |>.

(** The last component is the commit range given to the journal, if any. *)
Definition updateChainPeers (limit highestWatermarkSent : Z) (rt : slotRuntime)
    (assignment : ReplicaAssignment) : slotRuntime * res storage_error unit * option Z :=
  if negb (own_exists rt) then (rt, Err ErrUnknownReplica, None) else
  if bool_decide (rr_assignment (own_record rt) = assignment) then (rt, Ok tt, None) else
  let record := reassigned (own_record rt) assignment in
  let rt := rt <| own_record := record |> in
  match persistReplica record with
  | Err e => (rt, Err e, None)
  | Ok _ =>
      if bool_decide (rr_state record = StateActive) then
        let '(rt, submitted) := submitCommitWatermarkReady limit highestWatermarkSent rt record in
        (ensureUpstreamCommitReplay rt, Ok tt, submitted)
      else (rt, Ok tt, None)
  end.
End commands.

(** The owner after [removeRecord]; its record is not looked at again. *)
Definition removeRecord (rt : slotRuntime) : slotRuntime :=
  {| own_slot := own_slot rt; own_exists := false; own_record := emptyRecord;
     own_committedMetadata := ∅; own_progressionGap := false; own_progressionGapSequence := 0 |}.

(** The arguments are the outcomes of telling the coordinator, and of deleting
    the replica's data and its local metadata. *)
Definition removeReplica (reported dataDeleted metadataDeleted : res storage_error unit)
    (rt : slotRuntime) : slotRuntime * res storage_error unit :=
  if negb (own_exists rt) then (rt, Err ErrUnknownReplica) else
  let state := rr_state (own_record rt) in
  let outcome :=
    _ ← reject (negb (bool_decide (state = StateLeaving)) && negb (bool_decide (state = StateRemoved)))
          ErrInvalidTransition;
    _ ← reported;
    if bool_decide (state = StateLeaving) then _ ← dataDeleted; metadataDeleted else Ok tt in
  match outcome with
  | Ok _ => (removeRecord rt, Ok tt)
  | Err e => (rt, Err e)
  end.

(** ** The end of a client's write *)
Definition releaseClientWrite (rt : slotRuntime) (node_inflight : Z) : slotRuntime * Z :=
  let released := if 0 <? node_inflight then node_inflight - 1 else node_inflight in
  if negb (own_exists rt) then (rt, released)
  else
    let record := own_record rt in
    let record :=
      if 0 <? rr_inFlightClientWrites record
      then record <| rr_inFlightClientWrites := rr_inFlightClientWrites record - 1 |> else record in
    (rt <| own_record := record |>, released).
