(* ===== verification/Recovery.v ===== *)
(** * Restarting a storage node (src/storage/storage.go, commit_journal.go, slot_owner.go)

    How a node that opens again rebuilds the protocol state of its replicas
    from what it persisted about them, from its backend and from its journals,
    and what the coordinator's commands then do with a recovered replica. *)

From S2P Require Import Prelude.
From S2P Require Import StorageTypes.
From S2P Require Import SlotReducer.
From S2P Require Import SlotOwner.
From S2P Require Import SlotLifecycle.
From S2P Require Import Journal.
From S2P Require Import Backend.

Open Scope Z_scope.
Open Scope record_scope.

(** ** The record of a persisted replica *)
Definition persisted_record (replica : PersistedReplica) : replicaRecord :=
  let highest := pr_HighestCommittedSequence replica in
  emptyRecord
    <| rr_assignment := pr_Assignment replica |> <| rr_state := StateRecovered |>
    <| rr_nextSequence := u64_add highest 1 |> <| rr_highestPreparedDurable := highest |>
    <| rr_highestCommitTokenReceived := highest |> <| rr_highestCommittedSequence := highest |>
    <| rr_materializedCommittedSequence := 0 |>
    <| rr_highestUpstreamConfirmedSequence := pr_HighestUpstreamConfirmedSequence replica |>
    <| rr_localDataPresent := false |> <| rr_lastKnownState := pr_LastKnownState replica |>.

(** The arguments are the backend's answers for the slot. *)
Definition openReplica (replica : PersistedReplica) (highest upstream : res storage_error Z)
    : res storage_error replicaRecord :=
  let record := persisted_record replica in
  record ← match highest with
           | Ok sequence =>
               Ok (record <| rr_localDataPresent := true |> <| rr_highestPreparedDurable := sequence |>
                          <| rr_highestCommitTokenReceived := sequence |>
                          <| rr_highestCommittedSequence := sequence |>
                          <| rr_materializedCommittedSequence := sequence |>
                          <| rr_nextSequence := u64_add sequence 1 |>)
           | Err ErrUnknownReplica => Ok record
           | Err e => Err e
           end;
  record ← match upstream with
           | Ok sequence => Ok (record <| rr_highestUpstreamConfirmedSequence := sequence |>)
           | Err ErrUnknownReplica => Ok record
           | Err e => Err e
           end;
  Ok (record <| rr_highestUpstreamConfirmedSequence := normalizeUpstreamConfirmedSequence record |>).

(** ** Replaying the journals *)
Definition raise_to (current sequence : Z) : Z := if current <? sequence then sequence else current.

Definition note_committed (record : replicaRecord) (sequence : Z) : replicaRecord :=
  if rr_highestCommittedSequence record <? sequence
  then record <| rr_highestCommittedSequence := sequence |> <| rr_localDataPresent := true |>
  else record.

Definition note_prepared (record : replicaRecord) (entry : journalRecord) : replicaRecord :=
  record <| rr_highestPreparedDurable := raise_to (rr_highestPreparedDurable record) (jr_Sequence entry) |>
         <| rr_preparedEntries := <[jr_Sequence entry := operation entry]> (rr_preparedEntries record) |>.

Definition note_upstream (record : replicaRecord) (sequence : Z) : replicaRecord :=
  record <| rr_highestUpstreamConfirmedSequence :=
    raise_to (rr_highestUpstreamConfirmedSequence record) sequence |>.

(** The switch on the entry's type. *)
Definition replay_entry (record : replicaRecord) (entry : journalRecord) : replicaRecord :=
  let record :=
    match recordType entry with
    | journalRecordTypeUpstreamConfirm => note_upstream record (jr_Sequence entry)
    | journalRecordTypePrepare =>
        let record := note_prepared record entry in
        record <| rr_nextSequence := raise_to (rr_nextSequence record) (u64_add (jr_Sequence entry) 1) |>
    | journalRecordTypeCommitWatermark | journalRecordTypeHeadCommitRange =>
        note_committed record (jr_Sequence entry)
    | journalRecordTypeLegacyCommit =>
        note_upstream (note_committed (note_prepared record entry) (jr_Sequence entry))
          (jr_UpstreamConfirmedSequence entry)
    | RecordTypeOther _ => record
    end in
  record <| rr_highestUpstreamConfirmedSequence := normalizeUpstreamConfirmedSequence record |>.

(** The callback of the replay: the records of the node and the committed
    sequence of each slot. *)
Definition recover_entry (state : gmap Z replicaRecord * gmap Z Z) (entry : journalRecord)
    : res storage_error (gmap Z replicaRecord * gmap Z Z) :=
  let '(records, highWater) := state in
  match records !! jr_Slot entry with
  | None => Ok (records, highWater)
  | Some record =>
      if negb (jr_ChainVersion entry =? asg_ChainVersion (rr_assignment record)) then Ok (records, highWater)
      else
        let record := replay_entry record entry in
        let committed := rr_highestCommittedSequence record in
        Ok (<[jr_Slot entry := record]> records,
            if default 0 (highWater !! jr_Slot entry) <? committed
            then <[jr_Slot entry := committed]> highWater else highWater)
  end.

(** The loop that commits what a tail holds contiguously: a round moves to the
    next prepared entry, so their number bounds the rounds. *)
Fixpoint commit_contiguous (fuel : nat) (record : replicaRecord) (sequence : Z) : replicaRecord :=
  match fuel with
  | O => record
  | S fuel =>
      match rr_preparedEntries record !! sequence with
      | None => record
      | Some _ =>
          commit_contiguous fuel
            (record <| rr_highestCommittedSequence := sequence |> <| rr_localDataPresent := true |>)
            (u64_add sequence 1)
      end
  end.

(** The loop that rebuilds the overlay, and the backlog of the materialiser. *)
Fixpoint rebuild_overlay (n : nat) (record : replicaRecord) (sequence : Z) (backlog : list DurableCommit)
    : replicaRecord * list DurableCommit :=
  match n with
  | O => (record, backlog)
  | S n =>
      match rr_preparedEntries record !! sequence with
      | None => rebuild_overlay n record (u64_add sequence 1) backlog
      | Some op =>
          let record := recordWithCommittedOverlay record op in
          rebuild_overlay n record (u64_add sequence 1)
            (backlog ++ [{| dc_Operation := cloneWriteOperation op; dc_Persisted := persistedReplica record;
                            dc_UpstreamConfirmedSequence := 0 |}])
      end
  end.

(** The last loop over the records, for one of them. *)
Definition finish_recovery (record : replicaRecord) : replicaRecord * list DurableCommit :=
  let record :=
    if String.eqb (SuccessorNodeID (asg_Peers (rr_assignment record))) ""
    then commit_contiguous (S (size (rr_preparedEntries record))) record
           (u64_add (rr_highestCommittedSequence record) 1)
    else record in
  let materialized := rr_materializedCommittedSequence record in
  rebuild_overlay (Z.to_nat (rr_highestCommittedSequence record - materialized)) record
    (u64_add materialized 1) [].

(** The loop over the journals; a replay may repair a journal. *)
Definition replay_journal {J} `{CommitJournalStore J} (state : gmap Z replicaRecord * gmap Z Z * list J)
    (journal : J) : res storage_error (gmap Z replicaRecord * gmap Z Z * list J) :=
  '(recovered, journal) ← Replay recover_entry state.1 journal;
  Ok (recovered, state.2 ++ [journal]).

(** The records, the backlog, the committed sequences and the journals.  Go
    leaves the order of the last loop open: the backlog is ordered within a
    slot only. *)
Definition recoverJournaledReplicaState {J} `{CommitJournalStore J} (journals : list J)
    (records : gmap Z replicaRecord)
    : res storage_error (gmap Z replicaRecord * list DurableCommit * gmap Z Z * list J) :=
  let highWater : gmap Z Z := rr_highestCommittedSequence <$> records in
  '(records, highWater, journals) ← res_fold replay_journal (records, highWater, []) journals;
  let finished : gmap Z (replicaRecord * list DurableCommit) := finish_recovery <$> records in
  Ok (fst <$> finished, concat ((map_to_list finished).*2.*2), highWater, journals).

(** ** Commands on a recovered replica *)
Section commands.
Context (UpsertReplica : PersistedReplica -> res storage_error unit).

(** The committed sequence [resumeRecoveredReplica] settles on; the question
    to the tail is [FetchCommittedSequence], [nodeID] this node. *)
Definition resumed_committed (FetchCommittedSequence : string -> Z -> res storage_error Z)
    (nodeID : string) (slot : Z) (record : replicaRecord) : Z :=
  let peers := asg_Peers (rr_assignment record) in
  let committed := rr_highestCommittedSequence record in
  if String.eqb (SuccessorNodeID peers) "" then raise_to committed (rr_highestPreparedDurable record)
  else
    let tailNodeID := TailNodeID peers in
    let tailTarget := peerTransportTarget (TailTarget peers) tailNodeID in
    if negb (String.eqb tailNodeID "") && negb (String.eqb tailNodeID nodeID) && negb (String.eqb tailTarget "")
    then match FetchCommittedSequence tailTarget slot with
         | Ok tailCommitted => raise_to committed (Z.min (rr_highestPreparedDurable record) tailCommitted)
         | Err _ => committed
         end
    else committed.

Definition resumed_record (FetchCommittedSequence : string -> Z -> res storage_error Z)
    (nodeID : string) (slot : Z) (record : replicaRecord) (assignment : ReplicaAssignment) : replicaRecord :=
  let record := record <| rr_assignment := assignment |> in
  let committed := resumed_committed FetchCommittedSequence nodeID slot record in
  let record := record <| rr_highestCommittedSequence := committed |> in
  let record := record <| rr_localDataPresent := true |> in
  let record := record <| rr_state := StateActive |> <| rr_lastKnownState := StateActive |>
                       <| rr_highestPreparedDurable := committed |>
                       <| rr_highestCommitTokenReceived := committed |> in
  let record := record <| rr_highestUpstreamConfirmedSequence := normalizeUpstreamConfirmedSequence record |> in
  record <| rr_nextSequence := u64_add committed 1 |>.

Definition resumeRecoveredReplica (FetchCommittedSequence : string -> Z -> res storage_error Z)
    (nodeID : string) (rt : slotRuntime) (assignment : ReplicaAssignment)
    : slotRuntime * res storage_error unit :=
  if negb (own_exists rt) then (rt, Err ErrUnknownReplica) else
  let record := own_record rt in
  if bool_decide (rr_state record = StateActive) && rr_localDataPresent record &&
     bool_decide (rr_assignment record = assignment) then (rt, Ok tt) else
  if negb (bool_decide (rr_state record = StateRecovered)) then (rt, Err ErrInvalidTransition) else
  if negb (rr_localDataPresent record) then (rt, Err ErrStateMismatch) else
  let record := resumed_record FetchCommittedSequence nodeID (own_slot rt) record assignment in
  let rt := rt <| own_record := record |> in
  match persistReplica UpsertReplica record with
  | Err e => (rt, Err e)
  | Ok _ => (ensureUpstreamCommitReplay rt, Ok tt)
  end.

(** [recoverReplica]: the replica is replaced by a copy of a peer's committed
    state.  [fetched] is the peer's answer; the backend's calls are those of
    the in-memory backend, [b] its state. *)
Definition ensureBackendReplica (b : InMemoryBackend) (slot : Z) : res storage_error InMemoryBackend :=
  match backend_HighestCommittedSequence b slot with
  | Ok _ => Ok b
  | Err ErrUnknownReplica =>
      match CreateReplica b slot with Ok b => Ok b | Err ErrReplicaExists => Ok b | Err e => Err e end
  | Err e => Err e
  end.

Definition recoverReplica (maxConcurrentCatchups catchups : Z) (fetched : res storage_error (Snapshot * Z))
    (b : InMemoryBackend) (rt : slotRuntime) (assignment : ReplicaAssignment)
    : InMemoryBackend * slotRuntime * res storage_error unit :=
  let record := own_record rt in
  if own_exists rt && bool_decide (rr_state record = StateActive) && bool_decide (rr_assignment record = assignment)
  then (b, rt, Ok tt) else
  if own_exists rt && negb (bool_decide (rr_state record = StateRecovered))
  then (b, rt, Err ErrInvalidTransition) else
  if (0 <? maxConcurrentCatchups) && (maxConcurrentCatchups <=? catchups)
  then (b, rt, Err (ErrCatchupBackpressure catchups maxConcurrentCatchups)) else
  let slot := asg_Slot assignment in
  match ensureBackendReplica b slot with
  | Err e => (b, rt, Err e)
  | Ok b =>
      match fetched with
      | Err e => (b, rt, Err e)
      | Ok (snapshot, highestCommittedSequence) =>
          match InstallSnapshot b slot snapshot with
          | Err e => (b, rt, Err e)
          | Ok b =>
              let rt := rt <| own_committedMetadata := ∅ |> in
              match SetHighestCommittedSequence b slot highestCommittedSequence with
              | Err e => (b, rt, Err e)
              | Ok b =>
                  let record := recoveredRecord assignment highestCommittedSequence in
                  let rt := rt <| own_exists := true |> <| own_record := record |> in
                  (b, rt, persistReplica UpsertReplica record)
              end
          end
      end
  end.
End commands.

(** The arguments are the outcomes of deleting the data and the metadata; an
    unknown replica counts as deleted. *)
Definition dropRecoveredReplica (dataDeleted metadataDeleted : res storage_error unit) (rt : slotRuntime)
    : slotRuntime * res storage_error unit :=
  if negb (own_exists rt) then (rt, Err ErrUnknownReplica) else
  if negb (bool_decide (rr_state (own_record rt) = StateRecovered)) then (rt, Err ErrInvalidTransition) else
  match _ ← match dataDeleted with Err ErrUnknownReplica => Ok tt | outcome => outcome end; metadataDeleted with
  | Ok _ => (removeRecord rt, Ok tt)
  | Err e => (rt, Err e)
  end.
