(* ===== verification/JournalTheorems.v ===== *)
(** * What the journal's files keep

    The binary encoding loses nothing a record of the current format carries;
    a replay of a file that ends in a record cut short hands back the complete
    records before it; truncating the rest, as the JSON replay does, is what
    makes later appends readable. *)

From S2P Require Import Prelude.
From S2P Require Import StorageTypes.
From S2P Require Import SlotReducer.
From S2P Require Import Journal.
From S2P Require Import Recovery.
From Stdlib Require Import Ascii.

Open Scope Z_scope.
Open Scope record_scope.

(** ** Integers *)
Lemma of_byte_of z : of_byte (byte_of z) = z mod 256.
Proof.
  unfold of_byte, byte_of. pose proof (Z.mod_pos_bound z 256 ltac:(lia)).
  rw N_ascii_embedding; [lia|]. lia.
Qed.

Lemma length_put_le n z : length (put_le n z) = n.
Proof. revert z. induction n as [|n IH]; intros z; cbn; [done|]. by rw IH. Qed.

Lemma get_put_le n z : get_le (put_le n z) = z mod 256 ^ Z.of_nat n.
Proof.
  revert z. induction n as [|n IH]; intros z.
  { cbn. by rw Z.mod_1_r. }
  cbn [put_le get_le]. rw of_byte_of IH Nat2Z.inj_succ Z.pow_succ_r; [lia|].
  rw Z.rem_mul_r; lia.
Qed.

Lemma i64_small z : - 2 ^ 63 <= z < 2 ^ 63 -> i64 z = z.
Proof. intros H. unfold i64. rw Z.mod_small; lia. Qed.

Lemma i64_u64 z : i64 (u64 z) = i64 z.
Proof. unfold i64, u64, u64_mod. by rw Zplus_mod_idemp_l. Qed.

Lemma i64_range z : - 2 ^ 63 <= i64 z < 2 ^ 63.
Proof. unfold i64. pose proof (Z.mod_pos_bound (z + 2 ^ 63) (2 ^ 64) ltac:(lia)). lia. Qed.

(** ** One record *)
(** What the binary journal can hold. *)
Definition binary_storable (r : journalRecord) : Prop :=
  - 2 ^ 63 <= jr_Slot r < 2 ^ 63 /\ 0 <= jr_ChainVersion r < u64_mod /\ 0 <= jr_Sequence r < u64_mod /\
  0 <= meta_Version (jr_Metadata r) < u64_mod /\ 0 <= jr_UpstreamConfirmedSequence r < u64_mod /\
  byte_length (jr_Key r) <= maxUint32 /\ byte_length (jr_Value r) <= maxUint32.

Definition current_type (type : journalRecordType) : bool :=
  match type with journalRecordTypeLegacyCommit | RecordTypeOther _ => false | _ => true end.
Definition known_kind (kind : OperationKind) : bool :=
  match kind with OperationKindUnsupported _ => false | _ => true end.
Definition as_nanos (t : Z) : Z := time_Unix (UnixNano t).

(** A record as it comes back. *)
Definition binary_stored (r : journalRecord) : journalRecord :=
  {| jr_Type := if current_type (jr_Type r) then jr_Type r else RecordTypeOther "";
     jr_Slot := jr_Slot r; jr_ChainVersion := jr_ChainVersion r; jr_Sequence := jr_Sequence r;
     jr_Kind := if known_kind (jr_Kind r) then jr_Kind r else noKind;
     jr_Key := jr_Key r; jr_Value := jr_Value r;
     jr_Metadata :=
       {| meta_Version := meta_Version (jr_Metadata r);
          meta_CreatedAt := as_nanos (meta_CreatedAt (jr_Metadata r));
          meta_UpdatedAt := as_nanos (meta_UpdatedAt (jr_Metadata r)) |};
     jr_UpstreamConfirmedSequence := jr_UpstreamConfirmedSequence r |}.

Lemma type_stored r :
  (if bool_decide (decodeJournalRecordType (get_le [byte_of (encodeJournalRecordType (recordType r))]) =
                   journalRecordTypeLegacyCommit)
   then RecordTypeOther ""
   else decodeJournalRecordType (get_le [byte_of (encodeJournalRecordType (recordType r))])) =
  if current_type (jr_Type r) then jr_Type r else RecordTypeOther "".
Proof. unfold recordType. destruct (jr_Type r) as [ | | | | |name]; try done.
  by destruct (bool_decide (RecordTypeOther name = RecordTypeOther "")).
Qed.

Lemma kind_stored r :
  decodeOperationKind (get_le [byte_of (encodeOperationKind (jr_Kind r))]) =
  if known_kind (jr_Kind r) then jr_Kind r else noKind.
Proof. by destruct (jr_Kind r). Qed.

Lemma get_put_u64 z : 0 <= z < u64_mod -> get_le (put_le 8 z) = z.
Proof. intros H. rw get_put_le. apply Z.mod_small. exact H. Qed.

Lemma get_put_u32 z : 0 <= z <= maxUint32 -> get_le (put_le 4 z) = z.
Proof. intros H. rw get_put_le. apply Z.mod_small. unfold maxUint32 in H. cbn. lia. Qed.

Lemma get_put_i64 z : i64 (get_le (put_le 8 (u64 z))) = i64 z.
Proof. rw get_put_u64; [|apply i64_u64]. apply Z.mod_pos_bound. done. Qed.

Lemma decode_header r keyLen valueLen key value :
  binary_storable r -> key = String.list_ascii_of_string (jr_Key r) ->
  value = String.list_ascii_of_string (jr_Value r) ->
  decode_binary_record (binary_header r keyLen valueLen) key value = binary_stored r.
Proof.
  intros (Hs & Hv & Hq & Hm & Hu & _ & _) -> ->. unfold decode_binary_record, binary_stored, as_nanos. cbv zeta.
  rw !String.string_of_list_ascii_of_string.
  change (field (binary_header r keyLen valueLen) 0 1)
    with (get_le [byte_of (encodeJournalRecordType (recordType r))]). rw type_stored.
  change (field (binary_header r keyLen valueLen) 1 1)
    with (get_le [byte_of (encodeOperationKind (jr_Kind r))]). rw kind_stored.
  change (field (binary_header r keyLen valueLen) 4 8) with (get_le (put_le 8 (u64 (jr_Slot r)))).
  change (field (binary_header r keyLen valueLen) 12 8) with (get_le (put_le 8 (jr_ChainVersion r))).
  change (field (binary_header r keyLen valueLen) 20 8) with (get_le (put_le 8 (jr_Sequence r))).
  change (field (binary_header r keyLen valueLen) 28 8) with (get_le (put_le 8 (meta_Version (jr_Metadata r)))).
  change (field (binary_header r keyLen valueLen) 36 8)
    with (get_le (put_le 8 (u64 (UnixNano (meta_CreatedAt (jr_Metadata r)))))).
  change (field (binary_header r keyLen valueLen) 44 8)
    with (get_le (put_le 8 (u64 (UnixNano (meta_UpdatedAt (jr_Metadata r)))))).
  change (field (binary_header r keyLen valueLen) 52 8) with (get_le (put_le 8 (jr_UpstreamConfirmedSequence r))).
  rw !get_put_i64 !get_put_u64 // !(i64_small (UnixNano _)); [apply i64_range..|]. by rw i64_small.
Qed.

Lemma ReadFull_app n a b : Z.of_nat (length a) = n -> ReadFull n (a ++ b) = Some (a, b).
Proof.
  intros <-. unfold ReadFull. rw length_app (proj2 (Z.leb_le _ _)); [lia|].
  by rw Nat2Z.id take_app_length drop_app_length.
Qed.

Lemma ReadFull_short n b : Z.of_nat (length b) < n -> ReadFull n b = None.
Proof. intros H. unfold ReadFull. by rw (proj2 (Z.leb_gt _ _) H). Qed.

Lemma length_header r k v : length (binary_header r k v) = binaryJournalHeaderSize.
Proof. done. Qed.

Lemma length_ascii s : length (String.list_ascii_of_string s) = String.length s.
Proof. induction s as [|a s IH]; cbn; [done|]. by rw IH. Qed.

Lemma header_lengths r : binary_storable r ->
  let h := binary_header r (byte_length (jr_Key r)) (byte_length (jr_Value r)) in
  field h 60 4 = byte_length (jr_Key r) /\ field h 64 4 = byte_length (jr_Value r).
Proof.
  intros (_ & _ & _ & _ & _ & Hk & Hv) h. unfold byte_length in *.
  change (field h 60 4) with (get_le (put_le 4 (byte_length (jr_Key r)))).
  change (field h 64 4) with (get_le (put_le 4 (byte_length (jr_Value r)))).
  split; apply get_put_u32; unfold byte_length; lia.
Qed.

Lemma read_parts h key value rest : length h = binaryJournalHeaderSize ->
  field h 60 4 = Z.of_nat (length key) -> field h 64 4 = Z.of_nat (length value) ->
  read_binary_record (h ++ key ++ value ++ rest) = Some (decode_binary_record h key value, rest).
Proof.
  intros Hh Ek Ev. unfold read_binary_record. rw ReadFull_app; [by rw Hh|].
  cbn -[ReadFull field decode_binary_record]. rw ReadFull_app //.
  cbn -[ReadFull field decode_binary_record]. by rw ReadFull_app.
Qed.

Lemma read_encoded r rest : binary_storable r ->
  read_binary_record (encode_binary_record r ++ rest) = Some (binary_stored r, rest).
Proof.
  intros Hr. destruct (header_lengths r Hr) as [Ek Ev]. unfold encode_binary_record.
  pose proof (decode_header r (byte_length (jr_Key r)) (byte_length (jr_Value r)) _ _ Hr eq_refl eq_refl) as <-.
  pose proof (length_header r (byte_length (jr_Key r)) (byte_length (jr_Value r))) as Hl.
  revert Ek Ev Hl. generalize (binary_header r (byte_length (jr_Key r)) (byte_length (jr_Value r))).
  intros h Ek Ev Hl. rw -!app_assoc. apply read_parts; by rw ?length_ascii.
Qed.

(** A record cut short is not mistaken for another. *)
Lemma read_torn r k : binary_storable r -> (k < length (encode_binary_record r))%nat ->
  read_binary_record (take k (encode_binary_record r)) = None.
Proof.
  intros Hr Hk. destruct (header_lengths r Hr) as [Ek Ev]. unfold read_binary_record, encode_binary_record in *.
  set (h := binary_header _ _ _) in *. set (key := String.list_ascii_of_string (jr_Key r)) in *.
  set (value := String.list_ascii_of_string (jr_Value r)) in *.
  assert (length h = binaryJournalHeaderSize) as Hh by done. unfold binaryJournalHeaderSize in *.
  assert (Z.of_nat (length key) = byte_length (jr_Key r)) as Hkl by by unfold key; rw length_ascii.
  assert (Z.of_nat (length value) = byte_length (jr_Value r)) as Hvl by by unfold value; rw length_ascii.
  clearbody h key value. rw !length_app in Hk.
  destruct (decide (k < 68)%nat) as [Hlt|Hge].
  { rw ReadFull_short //. rw length_take !length_app. lia. }
  rw take_app_ge; [lia|]. rw ReadFull_app //; [by rw Hh|]. cbn -[ReadFull field decode_binary_record]. rw Ek.
  destruct (decide (k - length h < length key)%nat).
  { rw ReadFull_short //. rw length_take !length_app. lia. }
  rw take_app_ge; [lia|]. rw ReadFull_app //. cbn -[ReadFull field decode_binary_record]. rw Ev.
  rw ReadFull_short //. rw length_take. lia.
Qed.

(** ** Batches *)
Definition encode_all {A} (encode : A -> bytes) (records : list A) : bytes := concat (encode <$> records).

Lemma encode_all_app {A} (encode : A -> bytes) records more :
  encode_all encode (records ++ more) = encode_all encode records ++ encode_all encode more.
Proof. unfold encode_all. by rw fmap_app concat_app. Qed.

Lemma encode_all_length {A} (encode : A -> bytes) (records : list A) :
  (forall r, 0 < length (encode r))%nat -> (length records <= length (encode_all encode records))%nat.
Proof.
  intros Hne. unfold encode_all. induction records as [|r records IH]; cbn; [lia|].
  rw length_app. specialize (Hne r). lia.
Qed.

(** The number of records that lie within the first [k] bytes. *)
Definition complete_within {A} (encode : A -> bytes) (records : list A) (k m : nat) : Prop :=
  (m <= length records)%nat /\
  forall i, (i <= length records)%nat -> (length (encode_all encode (take i records)) <= k <-> i <= m)%nat.

(** Cutting an append short leaves its first [m] records and a proper part of
    the next one. *)
Lemma torn_append {A} (encode : A -> bytes) (records : list A) k :
  (forall r, 0 < length (encode r))%nat ->
  exists m torn, complete_within encode records k m /\
    take k (encode_all encode records) = encode_all encode (take m records) ++ torn /\
    match records !! m with
    | Some r => (length torn < length (encode r))%nat /\ torn = take (length torn) (encode r)
    | None => torn = []
    end.
Proof.
  intros Hne. revert k. induction records as [|r records IH]; intros k.
  { exists 0%nat, []. split; [|split; [apply take_nil|done]]. split; [done|]. intros [|i] Hi; cbn in *; lia. }
  unfold encode_all. cbn [fmap list_fmap concat]. destruct (decide (k < length (encode r))%nat) as [Hlt|Hge].
  - exists 0%nat, (take k (encode r)). split; [split|split; [cbn; by rw take_app_le; [lia|]|split; [cbn; rw length_take; lia|]]].
    + cbn. lia.
    + intros [|i] Hi; cbn; [lia|]. rw length_app. lia.
    + rw length_take. by replace (k `min` length (encode r))%nat with k by lia.
  - destruct (IH (k - length (encode r))%nat) as (m & torn & [Hm Hi] & Ht & Hr). exists (S m), torn.
    split; [split|split; [rw take_app_ge; [lia|]|done]].
    + cbn. lia.
    + intros [|i] Hle; cbn; [lia|]. rw length_app. cbn in Hle. specialize (Hi i). unfold encode_all in Hi. lia.
    + cbn [take]. unfold encode_all in Ht |- *. rw Ht. cbn. by rw app_assoc.
Qed.

Lemma res_fold_append {E A} (ok : A -> res E unit) (encode : A -> bytes) (records : list A) buf :
  Forall (fun r => ok r = Ok tt) records ->
  res_fold (fun b r => _ ← ok r; Ok (b ++ encode r)) buf records = Ok (buf ++ encode_all encode records).
Proof.
  intros Hok. revert buf. induction Hok as [|r records Hr Hok IH]; intros buf; cbn [res_fold].
  { by rw app_nil_r. }
  rw Hr. cbn [mbind res_bind]. rw IH. unfold encode_all. cbn. by rw app_assoc.
Qed.

Lemma encode_binary_ok records : Forall binary_storable records ->
  encodeBinaryJournalRecords records = Ok (encode_all encode_binary_record records).
Proof.
  intros Hs. unfold encodeBinaryJournalRecords.
  rw (res_fold_append (fun r => reject ((maxUint32 <? byte_length (jr_Key r)) ||
    (maxUint32 <? byte_length (jr_Value r))) ErrInvalidStorageConfig)) //.
  eapply Forall_impl; [exact Hs|]. intros r (_ & _ & _ & _ & _ & Hk & Hv). cbn.
  by rw (proj2 (Z.ltb_ge _ _) Hk) (proj2 (Z.ltb_ge _ _) Hv).
Qed.

Lemma binary_nonempty r : (0 < length (encode_binary_record r))%nat.
Proof.
  unfold encode_binary_record. rw length_app. change (length (binary_header _ _ _)) with binaryJournalHeaderSize.
  unfold binaryJournalHeaderSize. lia.
Qed.

(** ** Replay of a binary file *)
Lemma replay_binary_spec {E St} (apply : St -> journalRecord -> res E St) records torn fuel s :
  Forall binary_storable records -> read_binary_record torn = None -> (length records < fuel)%nat ->
  replay_binary apply fuel s (encode_all encode_binary_record records ++ torn) =
  res_fold apply s (binary_stored <$> records).
Proof.
  intros Hs Ht. revert fuel s. induction Hs as [|r records Hr Hs IH]; intros fuel s Hf.
  { destruct fuel; cbn [replay_binary]; [done|]. cbn -[read_binary_record]. by rw Ht. }
  destruct fuel as [|fuel]; [cbn in Hf; lia|]. cbn [replay_binary fmap list_fmap res_fold].
  change (encode_all encode_binary_record (r :: records))
    with (encode_binary_record r ++ encode_all encode_binary_record records).
  rw -app_assoc read_encoded //. destruct (apply s (binary_stored r)) as [s'|e]; [|done]. cbn [mbind res_bind].
  apply IH. cbn in Hf. lia.
Qed.

Lemma replay_reader_spec {E St} (apply : St -> journalRecord -> res E St) records torn s :
  Forall binary_storable records -> read_binary_record torn = None ->
  replayBinaryJournalReader apply s (encode_all encode_binary_record records ++ torn) =
  res_fold apply s (binary_stored <$> records).
Proof.
  intros Hs Ht. apply replay_binary_spec; try done. rw length_app.
  pose proof (encode_all_length encode_binary_record records binary_nonempty). lia.
Qed.

Lemma read_empty : read_binary_record [] = None.
Proof. done. Qed.

(** The bound on the rounds is never what ends a replay. *)
Lemma ReadFull_rest n b a rest : ReadFull n b = Some (a, rest) ->
  (length rest = length b - Z.to_nat n)%nat /\ n <= Z.of_nat (length b).
Proof.
  unfold ReadFull. destruct (Z.leb_spec n (Z.of_nat (length b))); [|done]. intros [= <- <-].
  by rw length_drop.
Qed.

Lemma read_shrinks b r rest : read_binary_record b = Some (r, rest) -> (length rest < length b)%nat.
Proof.
  unfold read_binary_record. intros ([h b1] & [H1 Hb]%ReadFull_rest & H)%bind_Some.
  apply bind_Some in H as ([key b2] & [H2 _]%ReadFull_rest & H).
  apply bind_Some in H as ([value b3] & [H3 _]%ReadFull_rest & [= _ <-]).
  unfold binaryJournalHeaderSize in *. lia.
Qed.

Lemma replay_fuel {E St} (apply : St -> journalRecord -> res E St) fuel s b :
  (length b < fuel)%nat -> replay_binary apply fuel s b = replayBinaryJournalReader apply s b.
Proof.
  unfold replayBinaryJournalReader. remember (S (length b)) as enough eqn:He.
  assert (length b < enough)%nat as Hb by lia. clear He. revert enough s b Hb.
  induction fuel as [|fuel IH]; intros enough s b Hb Hf; [lia|]. destruct enough as [|enough]; [lia|].
  cbn [replay_binary]. destruct (read_binary_record b) as [[r rest]|] eqn:Hr; [|done].
  destruct (apply s r) as [s'|]; [|done]. cbn [mbind res_bind]. apply read_shrinks in Hr. apply IH; lia.
Qed.

(** ** Replay of a JSON file *)
Section json.
Context (marshal : journalRecord -> bytes) (unmarshal : bytes -> option journalRecord).

(** A record [encoding/json] writes within the frame's limit and reads back. *)
Definition json_storable (r : journalRecord) : Prop :=
  unmarshal (marshal r) = Some r /\ Z.of_nat (length (marshal r)) <= maxUint32.

Definition json_frame (r : journalRecord) : bytes := encode_frame (marshal r).

Lemma frame_nonempty r : (0 < length (json_frame r))%nat.
Proof. unfold json_frame, encode_frame. rw length_app length_put_le. lia. Qed.

Lemma encode_json_ok records : Forall json_storable records ->
  encodeJSONJournalRecords marshal records = Ok (encode_all json_frame records).
Proof.
  intros Hs. unfold encodeJSONJournalRecords.
  rw (res_fold_append (fun r => reject (maxUint32 <? Z.of_nat (length (marshal r))) ErrInvalidStorageConfig)
    (fun r => encode_frame (marshal r))) //.
  eapply Forall_impl; [exact Hs|]. intros r [_ Hl]. cbn. by rw (proj2 (Z.ltb_ge _ _) Hl).
Qed.

Lemma frame_length r : json_storable r ->
  get_le (put_le 4 (Z.of_nat (length (marshal r)))) = Z.of_nat (length (marshal r)).
Proof. intros [_ Hl]. apply get_put_u32. lia. Qed.

(** A frame cut short: the loop stops and remembers where it began. *)
Lemma replay_torn {St} (apply : St -> journalRecord -> res storage_error St) fuel s offset r k :
  json_storable r -> (0 < k < length (json_frame r))%nat ->
  replay_json unmarshal apply (S fuel) s offset (take k (json_frame r)) = Ok (s, Some offset).
Proof.
  intros Hr Hk. pose proof (frame_length r Hr) as Hl. unfold json_frame, encode_frame in *.
  cbn [replay_json]. rw length_app length_put_le in Hk. destruct (decide (k < 4)%nat) as [Hlt|Hge].
  - rw ReadFull_short; [rw length_take length_app length_put_le; lia|].
    destruct (take k _) as [|b bs] eqn:Ht; [|done]. apply (f_equal length) in Ht.
    rw length_take length_app length_put_le in Ht. cbn in Ht. lia.
  - rw take_app_ge; [by rw length_put_le; lia|]. rw ReadFull_app; [by rw length_put_le|]. rw Hl.
    rw ReadFull_short //. rw length_take length_put_le. lia.
Qed.

Lemma replay_json_spec {St} (apply : St -> journalRecord -> res storage_error St) records next torn fuel s offset :
  Forall json_storable records ->
  match next with
  | Some r => json_storable r /\ (length torn < length (json_frame r))%nat /\ torn = take (length torn) (json_frame r)
  | None => torn = []
  end ->
  (length records < fuel)%nat ->
  replay_json unmarshal apply fuel s offset (encode_all json_frame records ++ torn) =
  (s' ← res_fold apply s records;
   Ok (s', match torn with [] => None | _ => Some (offset + Z.of_nat (length (encode_all json_frame records))) end)).
Proof.
  intros Hs Ht. revert fuel s offset. induction Hs as [|r records Hr Hs IH]; intros fuel s offset Hf.
  - destruct fuel as [|fuel]; [cbn in Hf; lia|]. cbn [encode_all fmap list_fmap concat app res_fold].
    cbn [mbind res_bind length Z.of_nat]. rw Z.add_0_r. destruct torn as [|b torn]; [done|].
    destruct next as [r|]; [|done]. destruct Ht as (Hr & Hlt & Heq).
    rw {1}Heq. apply replay_torn; [done|]. cbn in *. lia.
  - destruct fuel as [|fuel]; [cbn in Hf; lia|].
    change (encode_all json_frame (r :: records)) with (json_frame r ++ encode_all json_frame records).
    unfold json_frame at 1. unfold encode_frame. cbn [replay_json]. rw -!app_assoc.
    rw ReadFull_app; [by rw length_put_le|]. rw (frame_length r Hr) ReadFull_app // (proj1 Hr).
    cbn [res_fold]. destruct (apply s r) as [s'|e]; [|done]. cbn [mbind res_bind]. cbn in Hf.
    rw IH; [lia|]. destruct (res_fold apply s' records); [|done]. cbn [mbind res_bind].
    destruct torn; [done|]. do 3 f_equal. rw !length_app length_put_le. lia.
Qed.

Lemma replayJSON_spec {St} (apply : St -> journalRecord -> res storage_error St) records next torn s :
  Forall json_storable records ->
  match next with
  | Some r => json_storable r /\ (length torn < length (json_frame r))%nat /\ torn = take (length torn) (json_frame r)
  | None => torn = []
  end ->
  replayJSON unmarshal apply s (encode_all json_frame records ++ torn) =
  (s' ← res_fold apply s records; Ok (s', encode_all json_frame records)).
Proof.
  intros Hs Ht. unfold replayJSON. rw (replay_json_spec apply records next torn) //.
  { pose proof (encode_all_length json_frame records frame_nonempty). rw length_app. lia. }
  destruct (res_fold apply s records); [|done]. cbn [mbind res_bind]. destruct torn as [|b torn].
  - by rw app_nil_r.
  - by rw Z.add_0_l Nat2Z.id take_app_length.
Qed.
End json.

(** ** Claims *)
(** A record of the current format, one of the four types the program writes, with
    an operation or none. *)
Definition current_record (r : journalRecord) : Prop :=
  current_type (jr_Type r) = true /\ (known_kind (jr_Kind r) = true \/ jr_Kind r = noKind).

(** Times within [int64] nanoseconds of 1970.  The records of commit progress
    carry none: the zero time, of the year 1, is outside. *)
Definition times_fit (r : journalRecord) : Prop :=
  - 2 ^ 63 <= meta_CreatedAt (jr_Metadata r) - unix_epoch < 2 ^ 63 /\
  - 2 ^ 63 <= meta_UpdatedAt (jr_Metadata r) - unix_epoch < 2 ^ 63.

Definition with_times (f : Z -> Z) (r : journalRecord) : journalRecord :=
  {| jr_Type := jr_Type r; jr_Slot := jr_Slot r; jr_ChainVersion := jr_ChainVersion r; jr_Sequence := jr_Sequence r;
     jr_Kind := jr_Kind r; jr_Key := jr_Key r; jr_Value := jr_Value r;
     jr_Metadata := {| meta_Version := meta_Version (jr_Metadata r); meta_CreatedAt := f (meta_CreatedAt (jr_Metadata r));
                       meta_UpdatedAt := f (meta_UpdatedAt (jr_Metadata r)) |};
     jr_UpstreamConfirmedSequence := jr_UpstreamConfirmedSequence r |}.

Lemma as_nanos_exact t : - 2 ^ 63 <= t - unix_epoch < 2 ^ 63 -> as_nanos t = t.
Proof. intros H. unfold as_nanos, time_Unix, UnixNano. rw i64_small; lia. Qed.

Lemma binary_stored_times r : current_record r -> binary_stored r = with_times as_nanos r.
Proof.
  intros (Ht & Hk). unfold binary_stored, with_times. rw Ht. destruct r as [? ? ? ? kind ? ? [? ? ?] ?]. cbn in *.
  destruct Hk as [-> | ->]; done.
Qed.

Lemma binary_stored_exact r : current_record r -> times_fit r -> binary_stored r = r.
Proof.
  intros Hc [H1 H2]. rw binary_stored_times //. unfold with_times. rw !as_nanos_exact //. by destruct r as [? ? ? ? ? ? ? [? ? ?] ?].
Qed.

(** Recovery looks at the times of prepares only. *)
Lemma recover_stored r state : current_record r -> (jr_Type r = journalRecordTypePrepare -> times_fit r) ->
  recover_entry state (binary_stored r) = recover_entry state r.
Proof.
  intros Hc Ht. destruct (decide (jr_Type r = journalRecordTypePrepare)) as [Hp|Hp].
  - by rw binary_stored_exact; auto.
  - rw binary_stored_times //. assert (forall record, replay_entry record (with_times as_nanos r) = replay_entry record r) as He.
    { intros record. unfold replay_entry, recordType. cbn. destruct Hc as [Hc _]. by destruct (jr_Type r). }
    destruct state as [records highWater]. unfold recover_entry. cbn [jr_Slot jr_ChainVersion with_times].
    destruct (records !! jr_Slot r) as [record|]; [|done]. by rw He.
Qed.

(** C30. The binary journal round-trips, through a crash: when an append of
    records whose numbers and lengths fit the header is cut short after any number
    of bytes, replaying the file hands over every
    record of the earlier appends and exactly those of the last one that are
    complete, in order, each as it is stored.  A record of the current format is
    stored as it is but for its times, which are kept as [int64] nanoseconds: it
    comes back unchanged if they fit, and the records of commit progress, whose
    zero times do not, come back with other times.  Recovery does not see that:
    it does with each record that comes back, of whatever type, what it does with
    the record written, if the times of the prepares fit. *)
Theorem binary_journal_roundtrip records more k :
  Forall binary_storable records -> Forall binary_storable more ->
  exists payload tail m, encodeBinaryJournalRecords records = Ok payload /\
  encodeBinaryJournalRecords more = Ok tail /\ complete_within encode_binary_record more k m /\
  (forall E St (apply : St -> journalRecord -> res E St) s,
    replayBinaryJournalReader apply s (payload ++ take k tail) =
    res_fold apply s (binary_stored <$> records ++ take m more)) /\
  forall r, current_record r ->
    binary_stored r = with_times as_nanos r /\ (times_fit r -> binary_stored r = r) /\
    ((jr_Type r = journalRecordTypePrepare -> times_fit r) ->
     forall state, recover_entry state (binary_stored r) = recover_entry state r).
Proof.
  intros Hr Hm. destruct (torn_append encode_binary_record more k binary_nonempty) as (m & torn & Hw & Ht & Hn).
  exists (encode_all encode_binary_record records), (encode_all encode_binary_record more), m.
  split_and!; [by apply encode_binary_ok..|done| |].
  - intros E St apply s. rw Ht app_assoc -encode_all_app. apply replay_reader_spec.
    + apply Forall_app. split; [done|]. by apply Forall_take.
    + destruct (more !! m) as [r|] eqn:Hmr; [|by subst torn]. destruct Hn as [Hlt ->].
      apply read_torn; [|exact Hlt]. by apply (Forall_lookup_1 _ _ _ _ Hm Hmr).
  - intros r Hc. split; [by apply binary_stored_times|]. split; [by apply binary_stored_exact|].
    intros Hp state. by apply recover_stored.
Qed.

(** C28. The JSON journal, the default, survives a crash: when an append is cut
    short after any number of bytes, replaying the file hands over every
    record of the earlier appends and exactly the complete ones of the last,
    and leaves a file that holds just these, so that what is appended next is
    replayed too. *)
Theorem json_journal_survives_crash marshal unmarshal experiment records more later k :
  experiment = JournalExperimentBaselineJSONSync \/ experiment = JournalExperimentNoSyncBound ->
  Forall (json_storable marshal unmarshal) records -> Forall (json_storable marshal unmarshal) more ->
  Forall (json_storable marshal unmarshal) later ->
  let journal file := {| fj_experiment := experiment; fj_segments := []; fj_file := file |} in
  exists payload tail m, encodeJSONJournalRecords marshal records = Ok payload /\
  encodeJSONJournalRecords marshal more = Ok tail /\
  complete_within (json_frame marshal) more k m /\
  forall St (apply : St -> journalRecord -> res storage_error St) s s',
  res_fold apply s (records ++ take m more) = Ok s' ->
  exists repaired appended,
    file_Replay unmarshal apply s (journal (payload ++ take k tail)) = Ok (s', repaired) /\
    file_AppendBatch marshal repaired later = Ok appended /\
    file_Replay unmarshal apply s appended =
      (s'' ← res_fold apply s (records ++ take m more ++ later); Ok (s'', appended)).
Proof.
  intros Hx Hr Hm Hl journal.
  destruct (torn_append (json_frame marshal) more k (frame_nonempty marshal)) as (m & torn & Hw & Ht & Hn).
  exists (encode_all (json_frame marshal) records), (encode_all (json_frame marshal) more), m.
  split_and!; [by apply (encode_json_ok marshal unmarshal)..|done|].
  intros St apply s s' Hs. assert (Forall (json_storable marshal unmarshal) (records ++ take m more)) as Hrm.
  { apply Forall_app. split; [done|]. by apply Forall_take. }
  exists (journal (encode_all (json_frame marshal) (records ++ take m more))),
    (journal (encode_all (json_frame marshal) ((records ++ take m more) ++ later))).
  assert (forall rs next torn s, Forall (json_storable marshal unmarshal) rs -> match next with
    | Some r => json_storable marshal unmarshal r /\ (length torn < length (json_frame marshal r))%nat /\
                torn = take (length torn) (json_frame marshal r)
    | None => torn = [] end ->
    file_Replay unmarshal apply s (journal (encode_all (json_frame marshal) rs ++ torn)) =
    (s' ← res_fold apply s rs; Ok (s', journal (encode_all (json_frame marshal) rs)))) as Hreplay.
  { intros rs next t s0 Hrs Hnext. unfold file_Replay. cbn [fj_experiment fj_file journal].
    destruct Hx as [-> | ->]; rw (replayJSON_spec marshal unmarshal apply rs next) //;
      by destruct (res_fold apply s0 rs). }
  split_and!.
  - rw Ht app_assoc -encode_all_app (Hreplay _ (more !! m)) // ?Hs //.
    destruct (more !! m) eqn:Hmr; [|done]. split; [|done]. by apply (Forall_lookup_1 _ _ _ _ Hm Hmr).
  - unfold file_AppendBatch. destruct later as [|l later]; [by rw app_nil_r|].
    unfold encodeRecords, appendPayload. rw (encode_all_app _ (records ++ take m more)). destruct Hx as [-> | ->];
      cbn [fj_experiment journal]; by rw (encode_json_ok marshal unmarshal).
  - rw -(app_nil_r (encode_all _ _)) (Hreplay _ None) //; [by apply Forall_app|]. by rw app_assoc app_nil_r.
Qed.

(** ** The stores keep the interface's promises *)
#[export] Program Instance inMemoryCommitJournal_laws : CommitJournalLaws inMemoryCommitJournal := {
  storable _ := True;
  stored := cloneJournalRecord;
  holds_records j held := mem_records j = held;
}.
Next Obligation. intros j held records <- _. by eexists. Qed.
Next Obligation. intros St apply s j held <-. by exists j. Qed.

Section file_laws.
Context (marshal : journalRecord -> bytes) (unmarshal : bytes -> option journalRecord).

Definition json_mode (experiment : JournalExperiment) : bool :=
  match experiment with
  | JournalExperimentBaselineJSONSync | JournalExperimentNoSyncBound => true
  | _ => false
  end.

(** The JSON and the binary journal as they are without a crash; the segments
    of the second hold a batch of records each. *)
Definition json_holds (j : fileCommitJournal) (held : list journalRecord) : Prop :=
  json_mode (fj_experiment j) = true /\ Forall (json_storable marshal unmarshal) held /\
  fj_file j = encode_all (json_frame marshal) held.

Definition binary_holds (j : fileCommitJournal) (held : list journalRecord) : Prop :=
  exists old last, Forall (Forall binary_storable) old /\ Forall binary_storable last /\
  held = binary_stored <$> concat old ++ last /\
  fj_segments j = encode_all encode_binary_record <$> old /\ fj_file j = encode_all encode_binary_record last /\
  match fj_experiment j with
  | JournalExperimentBinarySync => old = []
  | JournalExperimentBinarySegmentSync => True
  | _ => False
  end.

Lemma append_json x segments file records :
  json_mode x = true -> Forall (json_storable marshal unmarshal) records ->
  file_AppendBatch marshal {| fj_experiment := x; fj_segments := segments; fj_file := file |} records =
  Ok {| fj_experiment := x; fj_segments := segments;
        fj_file := file ++ encode_all (json_frame marshal) records |}.
Proof.
  intros Hx Hr. destruct records as [|r records]; [unfold encode_all; cbn; by rw app_nil_r|].
  remember (r :: records) as batch. unfold file_AppendBatch, encodeRecords, appendPayload.
  rw Heqbatch -Heqbatch. destruct x; try done; cbn [fj_experiment];
    by rw (encode_json_ok marshal unmarshal batch Hr).
Qed.

Program Definition json_journal_laws :
    @CommitJournalLaws fileCommitJournal (fileCommitJournal_store marshal unmarshal) :=
  {| storable := json_storable marshal unmarshal; stored := id; holds_records := json_holds |}.
Next Obligation.
  intros j held records (Hx & Hh & Hf) Hr. destruct j as [x segments file]. cbn in *. rw list_fmap_id.
  eexists. split; [by apply append_json|]. split_and!; [done|by apply Forall_app|].
  cbn. by rw Hf encode_all_app.
Qed.
Next Obligation.
  intros St apply s j held (Hx & Hh & Hf). destruct j as [x segments file]. cbn in *. subst file.
  exists {| fj_experiment := x; fj_segments := segments; fj_file := encode_all (json_frame marshal) held |}.
  split; [done|]. unfold file_Replay. cbn [fj_experiment fj_file].
  pose proof (replayJSON_spec marshal unmarshal apply held None [] s Hh eq_refl) as Hs. rw app_nil_r in Hs.
  destruct x; try done; rw Hs; by destruct (res_fold apply s held).
Qed.

Lemma replay_segments {St} (apply : St -> journalRecord -> res storage_error St) (groups : list (list journalRecord)) s :
  Forall (Forall binary_storable) groups ->
  res_fold (replayBinaryJournalReader apply) s (encode_all encode_binary_record <$> groups) =
  res_fold apply s (binary_stored <$> concat groups).
Proof.
  intros Hg. revert s. induction Hg as [|g groups Hg Hgs IH]; intros s; [done|].
  cbn [fmap list_fmap concat res_fold]. fold (fmap (M:=list) (encode_all encode_binary_record) groups).
  rw -(app_nil_r (encode_all _ g)) replay_reader_spec // fmap_app res_fold_app.
  destruct (res_fold apply s _); [|done]. cbn. apply IH.
Qed.

Program Definition binary_journal_laws :
    @CommitJournalLaws fileCommitJournal (fileCommitJournal_store marshal unmarshal) :=
  {| storable := binary_storable; stored := binary_stored; holds_records := binary_holds |}.
Next Obligation.
  intros j held records (old & last & Ho & Hl & -> & Hs & Hf & Hx) Hr. destruct j as [x segments file]. cbn in *.
  destruct records as [|r records]; [eexists; rw app_nil_r; split; [done|]; by exists old, last|].
  remember (r :: records) as batch. unfold file_AppendBatch, encodeRecords, appendPayload, rotateSegmentIfNeeded.
  rw (encode_binary_ok batch Hr) Heqbatch. rw -Heqbatch. cbn -[encodeBinaryJournalRecords].
  destruct x; try done; cbn; [|destruct (_ <=? _); cbn]; (eexists; split; [done|]).
  - exists [], (last ++ batch). subst old file. rw encode_all_app. split_and!; try done; [by apply Forall_app|by rw ?fmap_app ?app_assoc].
  - exists old, (last ++ batch). subst segments file. rw encode_all_app.
    split_and!; try done; [by apply Forall_app|by rw ?fmap_app ?app_assoc].
  - exists (old ++ [last]), batch. subst segments file. split_and!; try done.
    + apply Forall_app. split; [done|]. by constructor.
    + rw concat_app !fmap_app. cbn. by rw app_nil_r.
    + by rw fmap_app.
Qed.
Next Obligation.
  intros St apply s j held (old & last & Ho & Hl & -> & Hs & Hf & Hx). destruct j as [x segments file].
  cbn in *. subst segments file. exists {| fj_experiment := x; fj_segments := encode_all encode_binary_record <$> old;
    fj_file := encode_all encode_binary_record last |}. split; [by exists old, last|].
  destruct x; try done; unfold file_Replay; cbn [fj_experiment fj_file fj_segments].
  - subst old. rw -(app_nil_r (encode_all _ last)) replay_reader_spec //.
  - pose proof (replay_segments apply (old ++ [last]) s) as Hg. rw fmap_app concat_app in Hg. cbn in Hg.
    rw app_nil_r in Hg. rw Hg //. apply Forall_app. by split; [|constructor].
Qed.
End file_laws.

(** ** A concrete journal *)
Definition written (sequence : Z) (key value : string) : journalRecord :=
  {| jr_Type := journalRecordTypePrepare; jr_Slot := 3; jr_ChainVersion := 7; jr_Sequence := sequence;
     jr_Kind := OperationKindPut; jr_Key := key; jr_Value := value;
     jr_Metadata := {| meta_Version := sequence; meta_CreatedAt := unix_epoch + 100;
                       meta_UpdatedAt := unix_epoch + 200 |};
     jr_UpstreamConfirmedSequence := 0 |}.

Lemma written_storable sequence key value :
  0 <= sequence < 2 ^ 63 -> byte_length key <= 8 -> byte_length value <= 8 ->
  binary_storable (written sequence key value) /\ current_record (written sequence key value) /\ times_fit (written sequence key value).
Proof.
  intros Hs Hk Hv. unfold binary_storable, current_record, times_fit, u64_mod, maxUint32. cbn -[unix_epoch byte_length].
  split; split_and!; try lia; auto.
Qed.

Definition collect (acc : list journalRecord) (r : journalRecord) : res storage_error (list journalRecord) :=
  Ok (acc ++ [r]).

(** A commit watermark, with the zero time. *)
Definition progressed (sequence : Z) : journalRecord :=
  {| jr_Type := journalRecordTypeCommitWatermark; jr_Slot := 3; jr_ChainVersion := 7; jr_Sequence := sequence;
     jr_Kind := noKind; jr_Key := ""; jr_Value := ""; jr_Metadata := {| meta_Version := 0; meta_CreatedAt := 0; meta_UpdatedAt := 0 |};
     jr_UpstreamConfirmedSequence := 0 |}.

Lemma progressed_storable sequence : 0 <= sequence < 2 ^ 63 -> binary_storable (progressed sequence) /\ current_record (progressed sequence).
Proof.
  intros Hs. unfold binary_storable, current_record, u64_mod, maxUint32. cbn -[byte_length].
  split; split_and!; try lia; auto; by vm_compute.
Qed.

Lemma binary_journal_roundtrip_witness :
  exists payload tail, encodeBinaryJournalRecords [written 1 "a" "x"] = Ok payload /\
  encodeBinaryJournalRecords [progressed 1; written 2 "b" "y"; written 3 "a" "z"] = Ok tail /\
  replayBinaryJournalReader collect [] (payload ++ take 170 tail) =
    Ok [written 1 "a" "x"; with_times as_nanos (progressed 1); written 2 "b" "y"] /\
  with_times as_nanos (progressed 1) <> progressed 1 /\
  forall state, recover_entry state (with_times as_nanos (progressed 1)) = recover_entry state (progressed 1).
Proof.
  destruct (binary_journal_roundtrip [written 1 "a" "x"] [progressed 1; written 2 "b" "y"; written 3 "a" "z"] 170)
    as (payload & tail & m & Hp & Ht & [Hm Hi] & Hr & He).
  { repeat first [apply Forall_nil_2|apply Forall_cons_2; [apply written_storable; unfold byte_length; cbn; lia|]]. }
  { repeat first [apply Forall_nil_2|apply Forall_cons_2; [apply progressed_storable; lia|]
      |apply Forall_cons_2; [apply written_storable; unfold byte_length; cbn; lia|]]. }
  exists payload, tail. split; [exact Hp|]. split; [exact Ht|].
  rw (Hr _ _ collect []).
  assert (m = 2%nat) as ->.
  { pose proof (proj1 (Hi 2%nat ltac:(cbn; lia)) ltac:(vm_compute; lia)).
    destruct (decide (3 <= m)%nat) as [H2|]; [|lia].
    pose proof (proj2 (Hi 3%nat ltac:(cbn; lia)) H2) as H3. vm_compute in H3. lia. }
  split; [vm_compute; reflexivity|]. split; [vm_compute; discriminate|].
  destruct (He (progressed 1) (proj2 (progressed_storable 1 ltac:(lia)))) as (H1 & _ & H3).
  intros state. rw -H1. apply H3. discriminate.
Defined.

(** The binary codec stands in for [encoding/json]. *)
Definition decode_one (b : bytes) : option journalRecord := fst <$> read_binary_record b.

Lemma json_journal_survives_crash_witness :
  exists payload tail repaired appended,
  encodeJSONJournalRecords encode_binary_record [written 1 "a" "x"] = Ok payload /\
  encodeJSONJournalRecords encode_binary_record [written 2 "b" "y"] = Ok tail /\
  file_Replay decode_one collect []
    {| fj_experiment := JournalExperimentBaselineJSONSync; fj_segments := []; fj_file := payload ++ take 50 tail |} =
    Ok ([written 1 "a" "x"], repaired) /\
  file_AppendBatch encode_binary_record repaired [written 2 "c" "z"] = Ok appended /\
  file_Replay decode_one collect [] appended = Ok ([written 1 "a" "x"; written 2 "c" "z"], appended).
Proof.
  destruct (json_journal_survives_crash encode_binary_record decode_one JournalExperimentBaselineJSONSync
    [written 1 "a" "x"] [written 2 "b" "y"] [written 2 "c" "z"] 50)
    as (payload & tail & m & Hp & Ht & [Hm Hi] & Hr).
  { left. reflexivity. }
  { constructor; [split; [vm_compute; reflexivity|vm_compute; discriminate]|constructor]. }
  { constructor; [split; [vm_compute; reflexivity|vm_compute; discriminate]|constructor]. }
  { constructor; [split; [vm_compute; reflexivity|vm_compute; discriminate]|constructor]. }
  assert (m = 0%nat) as ->.
  { destruct (decide (1 <= m)%nat) as [H1|]; [|lia].
    pose proof (proj2 (Hi 1%nat ltac:(cbn; lia)) H1) as H2. vm_compute in H2. lia. }
  destruct (Hr _ collect [] [written 1 "a" "x"] ltac:(vm_compute; reflexivity)) as (repaired & appended & H1 & H2 & H3).
  exists payload, tail, repaired, appended. split; [exact Hp|]. split; [exact Ht|].
  split; [exact H1|]. split; [exact H2|]. rw H3. reflexivity.
Defined.

(** The binary journal does not truncate: after a crash in the middle of an
    append, records that are appended successfully later, and replayed, never
    come back, because they are read as the rest of the record cut short. *)
Theorem binary_torn_tail_hides_appends :
  let crashed := {| fj_experiment := JournalExperimentBinarySync; fj_segments := [];
                    fj_file := encode_binary_record (written 1 "a" "x") ++
                               take 69 (encode_binary_record (written 2 "b" "lost")) |} in
  exists reopened appended garbled,
    file_Replay decode_one collect [] crashed = Ok ([written 1 "a" "x"], reopened) /\
    file_AppendBatch encode_binary_record reopened [written 2 "b" "kept"; written 3 "c" "kept"] = Ok appended /\
    file_Replay decode_one collect [] appended = Ok (written 1 "a" "x" :: garbled, appended) /\
    (written 2 "b" "kept" ∉ garbled) /\ (written 3 "c" "kept" ∉ garbled).
Proof.
  intros crashed. eexists _, _, _. split; [vm_compute; reflexivity|]. split; [vm_compute; reflexivity|].
  split; [vm_compute; reflexivity|].
  split; apply (bool_decide_unpack _); vm_compute; exact I.
Qed.
