(* ===== verification/BadgerProps.v ===== *)
(** * What a badger database holds

    A database represents a state of the in-memory backend when each of its
    keys holds what that state says.  Every operation of the badger backend
    keeps the representation and gives the answer of the in-memory one. *)

From S2P Require Import Prelude.
From S2P Require Import StorageTypes.
From S2P Require Import SlotReducer.
From S2P Require Import SlotOwner.
From S2P Require Import Journal.
From S2P Require Import JournalTheorems.
From S2P Require Import Backend.
From S2P Require Import BadgerDB.
From S2P Require Import Badger.
From Stdlib Require Import Ascii.

Open Scope Z_scope.
Open Scope record_scope.

(** ** Ranges *)
Definition int_range (z : Z) : Prop := - 2 ^ 63 <= z < 2 ^ 63.
Definition uint64_range (z : Z) : Prop := 0 <= z < u64_mod.

Lemma get_put_be z : uint64_range z -> get_be (Badger.encodeUint64 z) = z.
Proof. intros Hz. unfold get_be, Badger.encodeUint64, put_be. rw rev_involutive. by apply get_put_u64. Qed.

Lemma decode_encode z : uint64_range z -> Badger.decodeUint64 (Badger.encodeUint64 z) = Ok z.
Proof.
  intros Hz. unfold Badger.decodeUint64, Badger.encodeUint64. rw length_put_be. cbn [Nat.eqb negb reject mbind res_bind].
  f_equal. by apply get_put_be.
Qed.

Lemma encodeUint64_inj a b : uint64_range a -> uint64_range b ->
  Badger.encodeUint64 a = Badger.encodeUint64 b -> a = b.
Proof. intros Ha Hb Heq. by rw -(get_put_be a Ha) -(get_put_be b Hb) Heq. Qed.

Lemma encodeSlot_inj a b : int_range a -> int_range b -> Badger.encodeSlot a = Badger.encodeSlot b -> a = b.
Proof.
  unfold int_range, Badger.encodeSlot. intros Ha Hb Heq.
  apply encodeUint64_inj in Heq; [|unfold uint64_range, u64; apply Z.mod_pos_bound; done..].
  revert Heq. unfold u64, u64_mod in *. intros Heq. Z.div_mod_to_equations. lia.
Qed.

Lemma length_encodeUint64 z : length (Badger.encodeUint64 z) = 8%nat.
Proof. apply length_put_be. Qed.

Lemma length_encodeSlot z : length (Badger.encodeSlot z) = 8%nat.
Proof. apply length_put_be. Qed.

(** ** Keys *)
Inductive backend_key :=
| KMeta (slot : Z)
| KUpstream (slot : Z)
| KCommitted (slot : Z) (key : string)
| KStaged (slot sequence : Z).

#[export] Instance backend_key_eq_dec : EqDecision backend_key.
Proof. solve_decision. Defined.

Definition key_bytes (k : backend_key) : bytes :=
  match k with
  | KMeta slot => Badger.replicaMetaKey slot
  | KUpstream slot => Badger.replicaUpstreamMetaKey slot
  | KCommitted slot key => Badger.committedKey slot key
  | KStaged slot sequence => Badger.stagedKey slot sequence
  end.

Definition key_slot (k : backend_key) : Z :=
  match k with KMeta slot | KUpstream slot | KCommitted slot _ | KStaged slot _ => slot end.

Definition key_ok (k : backend_key) : Prop :=
  int_range (key_slot k) /\ match k with KStaged _ sequence => uint64_range sequence | _ => True end.

Lemma slot_app_inj a b x y : int_range a -> int_range b ->
  Badger.encodeSlot a ++ x = Badger.encodeSlot b ++ y -> a = b /\ x = y.
Proof.
  intros Ha Hb Heq. apply app_inj_1 in Heq as [Heq ->]; [|by rw !length_encodeSlot].
  split; [by apply encodeSlot_inj|done].
Qed.

Lemma list_ascii_inj a b : String.list_ascii_of_string a = String.list_ascii_of_string b -> a = b.
Proof. intros Heq. by rw -(String.string_of_list_ascii_of_string a) Heq String.string_of_list_ascii_of_string. Qed.

Lemma cons_eq {A} (x y : A) l m : x :: l = y :: m -> x = y /\ l = m.
Proof. by intros [= -> ->]. Qed.

Lemma key_bytes_inj k1 k2 : key_ok k1 -> key_ok k2 -> key_bytes k1 = key_bytes k2 -> k1 = k2.
Proof.
  intros [Hs1 H1] [Hs2 H2]. destruct k1, k2; intros [Ht Heq]%cons_eq; try discriminate Ht.
  1, 2: f_equal; by apply encodeSlot_inj.
  - by apply slot_app_inj in Heq as [-> ->%list_ascii_inj].
  - apply slot_app_inj in Heq as [-> Heq]; [|done..]. f_equal. by apply encodeUint64_inj.
Qed.

Lemma prefix_slot a b rest : int_range a -> int_range b ->
  Badger.encodeSlot a `prefix_of` Badger.encodeSlot b ++ rest -> a = b.
Proof. intros Ha Hb [x Heq]. by apply slot_app_inj in Heq as [-> _]. Qed.

Lemma committed_prefix slot k : int_range slot -> key_ok k ->
  Badger.committedPrefix slot `prefix_of` key_bytes k <-> exists key, k = KCommitted slot key.
Proof.
  intros Hs [Hk _]. split; [|intros [key ->]; by apply prefix_app_r].
  destruct k; cbn; try (intros Hp; by apply prefix_cons_inv_1 in Hp).
  intros Hp%prefix_cons_inv_2. apply prefix_slot in Hp as ->; [by eexists|done..].
Qed.

Lemma staged_prefix slot k : int_range slot -> key_ok k ->
  Badger.stagedPrefix slot `prefix_of` key_bytes k <-> exists sequence, k = KStaged slot sequence.
Proof.
  intros Hs [Hk _]. split; [|intros [key ->]; by apply prefix_app_r].
  destruct k; cbn; try (intros Hp; by apply prefix_cons_inv_1 in Hp).
  intros Hp%prefix_cons_inv_2. apply prefix_slot in Hp as ->; [by eexists|done..].
Qed.

(** ** The representation *)
Create HintDb badger.

Section represents.
Context `{Codec CommittedObject} `{Codec stagedOperation} `{Codec PersistedReplica}.

Definition staged_ok (sequence : Z) (op : stagedOperation) : Prop :=
  uint64_range sequence /\ kind_known (so_kind op) = true /\ storable op /\
  storable {| obj_Value := so_value op; obj_Metadata := so_metadata op |}.

Record replica_ok (slot : Z) (r : replicaData) : Prop := {
  ro_slot : int_range slot;
  ro_highest : uint64_range (rd_highestCommitted r);
  ro_upstream : uint64_range (rd_highestUpstreamConfirmed r);
  ro_committed : map_Forall (fun _ o => storable o) (rd_committed r);
  ro_staged : map_Forall staged_ok (rd_staged r);
}.

(** What a key holds in a state. *)
Definition replica_holds (r : replicaData) (k : backend_key) : option bytes :=
  match k with
  | KMeta _ => Some (Badger.encodeUint64 (rd_highestCommitted r))
  | KUpstream _ => Some (Badger.encodeUint64 (rd_highestUpstreamConfirmed r))
  | KCommitted _ key => rd_committed r !! key ≫= marshal
  | KStaged _ sequence => rd_staged r !! sequence ≫= marshal
  end.

Definition holds (m : InMemoryBackend) (k : backend_key) : option bytes :=
  r ← be_replicas m !! key_slot k; replica_holds r k.

(** The keys of the local store start with other letters. *)
Definition local_key (key : bytes) : Prop :=
  head key = Some Badger.keyLocalReplica \/ head key = Some Badger.keyLocalNodeMeta.

Record represents (d : database) (m : InMemoryBackend) : Prop := {
  rep_lookup : forall k, key_ok k -> d !! key_bytes k = holds m k;
  rep_keys : forall key, is_Some (d !! key) -> local_key key \/ exists k, key_ok k /\ key = key_bytes k;
  rep_ok : map_Forall replica_ok (be_replicas m);
}.

Lemma represents_empty : represents ∅ NewInMemoryBackend.
Proof.
  split; [intros k _; rw lookup_empty; unfold holds; cbn; by rw lookup_empty|intros key [? ?]; set_solver|].
  apply map_Forall_empty.
Qed.

Lemma lookup_set (d : database) k v k' : key_ok k -> key_ok k' ->
  <[key_bytes k := v]> d !! key_bytes k' = if decide (k = k') then Some v else d !! key_bytes k'.
Proof.
  intros Hk Hk'. destruct (decide (k = k')) as [->|Hne]; [apply lookup_insert_eq|].
  apply lookup_insert_ne. intros Heq. by apply Hne, key_bytes_inj.
Qed.

Lemma lookup_unset (d : database) k k' : key_ok k -> key_ok k' ->
  delete (key_bytes k) d !! key_bytes k' = if decide (k = k') then None else d !! key_bytes k'.
Proof.
  intros Hk Hk'. destruct (decide (k = k')) as [->|Hne]; [apply lookup_delete_eq|].
  apply lookup_delete_ne. intros Heq. by apply Hne, key_bytes_inj.
Qed.

Lemma lookup_deletePrefixTxn d prefix key :
  Badger.deletePrefixTxn d prefix !! key = if decide (prefix `prefix_of` key) then None else d !! key.
Proof.
  unfold Badger.deletePrefixTxn.
  assert (forall keys (d : database), foldl (fun d key => delete key d) d keys !! key =
            if decide (key ∈ keys) then None else d !! key) as Hfold.
  { intros keys. induction keys as [|x keys IH]; intros d0; cbn [foldl]; [done|]. rw IH.
    destruct (decide (x = key)) as [->|Hne].
    - rw lookup_delete_eq. repeat case_decide; try done; set_solver.
    - rw lookup_delete_ne //. repeat case_decide; try done; set_solver. }
  rw Hfold. destruct (d !! key) as [v|] eqn:Hd.
  - do 2 destruct (decide _) as [?|?]; try done.
    + destruct n. apply list_elem_of_fmap in e as ([key' v'] & -> & Hin). by apply elem_of_iterate in Hin as [_ ?].
    + destruct n. apply list_elem_of_fmap. exists (key, v). split; [done|]. by apply elem_of_iterate.
  - by do 2 destruct (decide _).
Qed.

(** The keys of a database after its writes. *)
Definition keys_known (d : database) : Prop :=
  forall key, is_Some (d !! key) -> local_key key \/ exists k, key_ok k /\ key = key_bytes k.

Lemma keys_known_set (d : database) k v : key_ok k -> keys_known d -> keys_known (<[key_bytes k := v]> d).
Proof.
  intros Hk Hd key. destruct (decide (key_bytes k = key)) as [<-|Hne]; [intros _; right; by exists k|].
  rw lookup_insert_ne //. apply Hd.
Qed.

Lemma keys_known_sub (d d' : database) : keys_known d -> (forall key v, d' !! key = Some v -> d !! key = Some v) ->
  keys_known d'.
Proof. intros Hd Hsub key [v Hv]. apply Hd. exists v. by apply Hsub. Qed.

Lemma keys_known_unset (d : database) key : keys_known d -> keys_known (delete key d).
Proof. intros Hd. apply (keys_known_sub d); [done|]. intros key' v. by intros [_ ?]%lookup_delete_Some. Qed.

Lemma keys_known_prefix d prefix : keys_known d -> keys_known (Badger.deletePrefixTxn d prefix).
Proof.
  intros Hd. apply (keys_known_sub d); [done|]. intros key v. rw lookup_deletePrefixTxn. by destruct (decide _).
Qed.

Lemma holds_with m slot r k :
  holds (with_replica m slot r) k = if decide (slot = key_slot k) then replica_holds r k else holds m k.
Proof.
  unfold holds, with_replica. cbn. destruct (decide (slot = key_slot k)) as [->|Hne]; [by rw lookup_insert_eq|].
  by rw lookup_insert_ne.
Qed.

End represents.
#[export] Hint Resolve keys_known_set keys_known_unset keys_known_prefix : badger.

(** ** Reads *)
Lemma isort_Z_perm (l l' : list Z) : l ≡ₚ l' -> isort Z.leb l = isort Z.leb l'.
Proof.
  intros Hp. assert (AntiSymm eq (fun x y => Z.leb x y = true)) by (intros x y; lia).
  apply (StronglySorted_unique (fun x y => Z.leb x y = true)).
  1, 2: apply isort_sorted; intros *; lia.
  by rw !isort_perm.
Qed.

Section reads.
Context `{Codec CommittedObject} `{Codec stagedOperation} `{Codec PersistedReplica}.
Context (d : database) (m : InMemoryBackend) (Hrep : represents d m).

Lemma rep_replica slot r : be_replicas m !! slot = Some r -> replica_ok slot r.
Proof. apply (rep_ok _ _ Hrep). Qed.

Lemma rep_get k : key_ok k -> db_get d (key_bytes k) = holds m k.
Proof.
  intros Hk. unfold db_get. rw (rep_lookup _ _ Hrep) //. destruct (holds m k) as [[|x v]|] eqn:Hh; [|done..].
  revert Hh. unfold holds. destruct (be_replicas m !! key_slot k) as [r|] eqn:Hr; [|done]. cbn.
  destruct (rep_replica _ _ Hr). destruct k; cbn.
  1, 2: intros [= Hv]; by pose proof (f_equal length Hv) as Hl; rw length_encodeUint64 in Hl.
  - destruct (rd_committed r !! key) as [o|] eqn:Ho; [|done]. cbn. destruct (ro_committed0 _ _ Ho) as (v & -> & Hv & _).
    by intros [= ->].
  - destruct (rd_staged r !! sequence) as [o|] eqn:Ho; [|done]. cbn.
    destruct (ro_staged0 _ _ Ho) as (_ & _ & (v & -> & Hv & _) & _). by intros [= ->].
Qed.

Lemma rep_highest slot : int_range slot ->
  Badger.HighestCommittedSequence d slot = backend_HighestCommittedSequence m slot.
Proof.
  intros Hs. unfold Badger.HighestCommittedSequence, backend_HighestCommittedSequence, replica_of.
  rw (rep_get (KMeta slot)) //. unfold holds. cbn. destruct (be_replicas m !! slot) as [r|] eqn:Hr; [|done].
  apply decode_encode, (ro_highest _ _ (rep_replica _ _ Hr)).
Qed.

Lemma rep_upstream slot : int_range slot ->
  Badger.HighestUpstreamConfirmedSequence d slot = HighestUpstreamConfirmedSequence m slot.
Proof.
  intros Hs. unfold Badger.HighestUpstreamConfirmedSequence, HighestUpstreamConfirmedSequence. rw rep_highest //.
  unfold backend_HighestCommittedSequence, replica_of. rw (rep_get (KUpstream slot)) //. unfold holds. cbn.
  destruct (be_replicas m !! slot) as [r|] eqn:Hr; [|done]. apply decode_encode, (ro_upstream _ _ (rep_replica _ _ Hr)).
Qed.

Lemma rep_GetCommitted slot key : int_range slot ->
  Badger.GetCommitted d slot key = backend_GetCommitted m slot key.
Proof.
  intros Hs. unfold Badger.GetCommitted, backend_GetCommitted. rw rep_highest //.
  unfold backend_HighestCommittedSequence, replica_of. rw (rep_get (KCommitted slot key)) //. unfold holds. cbn.
  destruct (be_replicas m !! slot) as [r|] eqn:Hr; [|done]. cbn.
  destruct (rd_committed r !! key) as [o|] eqn:Ho; [|done]. cbn.
  destruct (ro_committed _ _ (rep_replica _ _ Hr) _ _ Ho) as (v & -> & _ & Hv). unfold Badger.decoded. rw Hv. cbn.
  by destruct o as [? []].
Qed.

Lemma rep_loadStaged slot sequence : int_range slot -> uint64_range sequence ->
  Badger.loadStagedOperation d slot sequence =
  match be_replicas m !! slot ≫= fun r => rd_staged r !! sequence with
  | Some op => Ok op
  | None => Err ErrSequenceMismatch
  end.
Proof.
  intros Hs Hq. unfold Badger.loadStagedOperation. rw (rep_get (KStaged slot sequence)) //. unfold holds. cbn.
  destruct (be_replicas m !! slot) as [r|] eqn:Hr; [|done]. cbn.
  destruct (rd_staged r !! sequence) as [o|] eqn:Ho; [|done]. cbn.
  destruct (ro_staged _ _ (rep_replica _ _ Hr) _ _ Ho) as (_ & _ & (v & -> & _ & Hv) & _).
  unfold Badger.decoded. by rw Hv.
Qed.

Lemma iterate_committed slot r : be_replicas m !! slot = Some r ->
  exists l, l ≡ₚ map_to_list (rd_committed r) /\
    Forall2 (fun kv ko => kv.1 = Badger.committedKey slot ko.1 /\ unmarshal kv.2 = Some ko.2)
      (iterate d (Badger.committedPrefix slot)) l.
Proof.
  intros Hr. pose proof (rep_replica _ _ Hr) as Hok. pose proof (ro_slot _ _ Hok) as Hs.
  apply (iterate_image d _ _ _ (fun v o => unmarshal v = Some o)).
  - intros k1 k2 _ _ Heq. by apply (key_bytes_inj (KCommitted slot k1) (KCommitted slot k2)) in Heq as [= ->].
  - intros key v Hd Hp. destruct (rep_keys _ _ Hrep key) as [[Hl|Hl]|(k & Hk & ->)];
      [by exists v|destruct Hp as [? ->]; done..|].
    apply committed_prefix in Hp as [name ->]; [|done..]. exists name. rw (rep_lookup _ _ Hrep) // in Hd.
    unfold holds in Hd. cbn in Hd. rw Hr in Hd. cbn in Hd. destruct (rd_committed r !! name) as [o|] eqn:Ho; [|done].
    exists o. destruct (ro_committed _ _ Hok _ _ Ho) as (v' & Hm & _ & Hu). cbn in Hd. rw Hm in Hd. by injection Hd as <-.
  - intros k [o Ho]. split; [|by apply prefix_app_r].
    change (Badger.committedKey slot k) with (key_bytes (KCommitted slot k)). rw (rep_lookup _ _ Hrep) //.
    unfold holds. cbn. rw Hr. cbn. rw Ho. cbn. by destruct (ro_committed _ _ Hok _ _ Ho) as (v' & -> & _).
Qed.

Lemma iterate_staged slot r : be_replicas m !! slot = Some r ->
  exists l, l ≡ₚ map_to_list (rd_staged r) /\
    Forall2 (fun kv ko => kv.1 = Badger.stagedKey slot ko.1 /\ uint64_range ko.1)
      (iterate d (Badger.stagedPrefix slot)) l.
Proof.
  intros Hr. pose proof (rep_replica _ _ Hr) as Hok. pose proof (ro_slot _ _ Hok) as Hs.
  assert (forall k, is_Some (rd_staged r !! k) -> key_ok (KStaged slot k)) as Hrange.
  { intros k [o Ho]. split; [done|]. apply (ro_staged _ _ Hok _ _ Ho). }
  destruct (iterate_image d (Badger.stagedPrefix slot) (Badger.stagedKey slot) (rd_staged r) (fun _ _ => True))
    as (l & Hl & Hf).
  - intros k1 k2 ?%Hrange ?%Hrange Heq. by apply (key_bytes_inj (KStaged slot k1) (KStaged slot k2)) in Heq as [= ->].
  - intros key v Hd Hp. destruct (rep_keys _ _ Hrep key) as [[Hl|Hl]|(k & Hk & ->)];
      [by exists v|destruct Hp as [? ->]; done..|].
    apply staged_prefix in Hp as [q ->]; [|done..]. exists q. rw (rep_lookup _ _ Hrep) // in Hd.
    unfold holds in Hd. cbn in Hd. rw Hr in Hd. cbn in Hd. destruct (rd_staged r !! q) as [o|] eqn:Ho; [|done]. by exists o.
  - intros k Hk. split; [|by apply prefix_app_r]. specialize (Hrange _ Hk). destruct Hk as [o Ho].
    change (Badger.stagedKey slot k) with (key_bytes (KStaged slot k)). rw (rep_lookup _ _ Hrep) //.
    unfold holds. cbn. rw Hr. cbn. rw Ho. cbn. by destruct (ro_staged _ _ Hok _ _ Ho) as (_ & _ & (v' & -> & _) & _).
  - exists l. split; [done|]. apply Forall2_same_length_lookup. split; [exact (Forall2_length _ _ _ Hf)|].
    intros i kv ko Hi Hj. pose proof (Forall2_lookup_lr _ _ _ _ _ _ Hf Hi Hj) as [? _]. split; [done|].
    assert (ko ∈ map_to_list (rd_staged r)) as Hin by (rw -Hl; by apply (list_elem_of_lookup_2 _ i)).
    destruct ko as [q o]. apply elem_of_map_to_list in Hin. by apply (Hrange q).
Qed.

Lemma rep_CommittedSnapshot slot : int_range slot -> Badger.CommittedSnapshot d slot = backend_Snapshot m slot.
Proof.
  intros Hs. unfold Badger.CommittedSnapshot, backend_Snapshot. rw rep_highest //.
  unfold backend_HighestCommittedSequence, replica_of. destruct (be_replicas m !! slot) as [r|] eqn:Hr; [|done]. cbn.
  destruct (iterate_committed _ _ Hr) as (l & Hl & Hf). unfold clone_map.
  assert (forall acc, res_fold (fun (snapshot : Snapshot) '(key, value) =>
      object ← Badger.decoded value;
      Ok (<[String.string_of_list_ascii (drop (length (Badger.committedPrefix slot)) key) := object]> snapshot))
      acc (iterate d (Badger.committedPrefix slot)) =
    Ok (foldl (fun (snapshot : Snapshot) '(key, object) => <[key := object]> snapshot) acc l)) as Hfold.
  { clear Hl. induction Hf as [|[key v] [name o] kvs kos [Hk Hv] _ IH]; intros acc; [done|]. cbn in Hk, Hv. cbn [res_fold foldl].
    assert (Badger.decoded v = Ok o) as -> by (unfold Badger.decoded; by rw Hv). cbn [mbind res_bind]. rw IH. do 3 f_equal.
    rw Hk. unfold Badger.committedKey. rw drop_app_length. by rw String.string_of_list_ascii_of_string. }
  rw Hfold. f_equal. apply map_eq. intros k. apply option_eq. intros o.
  assert (NoDup l.*1) as Hnd by (rw Hl; apply NoDup_fst_map_to_list).
  rw foldl_insert_lookup // foldl_insert_lookup; [apply NoDup_fst_map_to_list|]. by rw Hl.
Qed.

Lemma rep_StagedSequences slot : int_range slot -> Badger.StagedSequences d slot = StagedSequences m slot.
Proof.
  intros Hs. unfold Badger.StagedSequences, StagedSequences. rw rep_highest //.
  unfold backend_HighestCommittedSequence, replica_of. destruct (be_replicas m !! slot) as [r|] eqn:Hr; [|done]. cbn.
  destruct (iterate_staged _ _ Hr) as (l & Hl & Hf).
  assert (forall acc, res_fold (fun sequences '(key, _) =>
      sequence ← Badger.decodeSequence (drop (length (Badger.stagedPrefix slot)) key); Ok (sequences ++ [sequence]))
      acc (iterate d (Badger.stagedPrefix slot)) = Ok (acc ++ l.*1)) as Hfold.
  { clear Hl. induction Hf as [|[key v] [q o] kvs kos [Hk Hq] _ IH]; intros acc; [by rw app_nil_r|]. cbn [fst snd] in Hk, Hq.
    cbn [res_fold fmap list_fmap]. rw Hk. unfold Badger.stagedKey. rw drop_app_length.
    assert (Badger.decodeSequence (Badger.encodeUint64 q) = Ok q) as -> by by apply decode_encode. cbn [mbind res_bind]. by rw IH -app_assoc. }
  rw Hfold. cbn. f_equal. apply isort_Z_perm. by rw Hl.
Qed.
End reads.

(** ** Updates *)
Section updates.
Context `{Codec CommittedObject} `{Codec stagedOperation} `{Codec PersistedReplica}.

Lemma represents_with d d' m slot r :
  represents d m -> replica_ok slot r -> keys_known d' ->
  (forall k, key_ok k -> d' !! key_bytes k = if decide (slot = key_slot k) then replica_holds r k else d !! key_bytes k) ->
  represents d' (with_replica m slot r).
Proof.
  intros Hrep Hr Hkeys Hd. split; [|done|].
  - intros k Hk. rw (Hd _ Hk) holds_with. destruct (decide _); [done|]. by apply (rep_lookup _ _ Hrep).
  - apply map_Forall_insert_2; [done|]. apply (rep_ok _ _ Hrep).
Qed.

(** What a key of a slot held before. *)
Lemma rep_slot d m k r : represents d m -> key_ok k -> be_replicas m !! key_slot k = Some r ->
  d !! key_bytes k = replica_holds r k.
Proof. intros Hrep Hk Hr. rw (rep_lookup _ _ Hrep) //. unfold holds. by rw Hr. Qed.

Lemma keys_known_rep d m : represents d m -> keys_known d.
Proof. intros Hrep. exact (rep_keys _ _ Hrep). Qed.

(** The outcomes of an update on both sides. *)
Definition simulates (rd : res storage_error database) (rm : res storage_error InMemoryBackend) : Prop :=
  match rd, rm with
  | Ok d, Ok m => represents d m
  | Err e, Err e' => e = e'
  | _, _ => False
  end.

Context (hook updf : Badger.durable_op -> option storage_error).
Context (Hhook : forall op, hook op = None) (Hupd : forall op, updf op = None).

Lemma writeSync_ok op d fn : Badger.writeSync hook updf op d fn = fn d.
Proof.
  unfold Badger.writeSync, Badger.runBeforeDurableWrite, Badger.Update. rw Hhook Hupd. cbn. by destruct (fn d).
Qed.

Ltac by_key k :=
  destruct k; cbn [key_slot replica_holds rd_committed rd_staged rd_highestCommitted rd_highestUpstreamConfirmed];
  repeat case_decide; simplify_eq; try done.

Lemma sim_CreateReplica d m slot : represents d m -> int_range slot ->
  simulates (Badger.CreateReplica hook updf d slot) (CreateReplica m slot).
Proof.
  intros Hrep Hs. unfold Badger.CreateReplica, CreateReplica. rw (rep_highest _ _ Hrep) //.
  unfold backend_HighestCommittedSequence, replica_of. destruct (be_replicas m !! slot) as [r|] eqn:Hr; [done|]. cbn.
  rw writeSync_ok. cbn. apply (represents_with d); [done| | |].
  - split; cbn; try done; apply map_Forall_empty.
  - apply (keys_known_set _ (KUpstream slot)), (keys_known_set _ (KMeta slot)), keys_known_rep with m; done.
  - intros k Hk. rw (lookup_set _ (KUpstream slot)) // (lookup_set _ (KMeta slot)) //.
    assert (slot = key_slot k -> d !! key_bytes k = None) as Hnone.
    { intros ->. rw (rep_lookup _ _ Hrep) //. unfold holds. by rw Hr. }
    by_key k; by rw Hnone.
Qed.

(** *** One key at a time *)
Section one_key.
Context (d : database) (m : InMemoryBackend) (slot : Z) (r : replicaData).
Context (Hrep : represents d m) (Hr : be_replicas m !! slot = Some r).

Let Hok : replica_ok slot r := rep_replica d m Hrep slot r Hr.
Let Hs : int_range slot := ro_slot _ _ Hok.

Lemma rep_same k : key_ok k -> slot = key_slot k -> d !! key_bytes k = replica_holds r k.
Proof. intros Hk ->. by apply rep_slot with m. Qed.

Lemma rep_set_meta sequence : uint64_range sequence ->
  represents (<[Badger.replicaMetaKey slot := Badger.encodeUint64 sequence]> d)
    (with_replica m slot (r <| rd_highestCommitted := sequence |>)).
Proof.
  intros Hq. apply (represents_with d); [done|by destruct Hok; split| |].
  - apply (keys_known_set _ (KMeta slot)); [done|by apply keys_known_rep with m].
  - intros k Hk. rw (lookup_set _ (KMeta slot)) //. pose proof (rep_same k Hk) as Hsame. by_key k; by apply Hsame.
Qed.

Lemma rep_set_upstream sequence : uint64_range sequence ->
  represents (<[Badger.replicaUpstreamMetaKey slot := Badger.encodeUint64 sequence]> d)
    (with_replica m slot (r <| rd_highestUpstreamConfirmed := sequence |>)).
Proof.
  intros Hq. apply (represents_with d); [done|by destruct Hok; split| |].
  - apply (keys_known_set _ (KUpstream slot)); [done|by apply keys_known_rep with m].
  - intros k Hk. rw (lookup_set _ (KUpstream slot)) //. pose proof (rep_same k Hk) as Hsame. by_key k; by apply Hsame.
Qed.

Lemma rep_unstage sequence : uint64_range sequence ->
  represents (delete (Badger.stagedKey slot sequence) d)
    (with_replica m slot (r <| rd_staged := delete sequence (rd_staged r) |>)).
Proof.
  intros Hq. apply (represents_with d); [done| | |].
  - destruct Hok. split; try done. by apply map_Forall_delete.
  - by apply keys_known_unset, keys_known_rep with m.
  - intros k Hk. rw (lookup_unset _ (KStaged slot sequence)) //. pose proof (rep_same k Hk) as Hsame.
    by_key k; rw ?lookup_delete_eq ?lookup_delete_ne //; try by apply Hsame. intros ->. done.
Qed.

Lemma rep_stage sequence op v : staged_ok sequence op -> marshal op = Some v ->
  represents (<[Badger.stagedKey slot sequence := v]> d)
    (with_replica m slot (r <| rd_staged := <[sequence := op]> (rd_staged r) |>)).
Proof.
  intros Hop Hv. assert (key_ok (KStaged slot sequence)) as Hkey by (split; [done|apply Hop]).
  apply (represents_with d); [done| | |].
  - destruct Hok. split; try done. by apply map_Forall_insert_2.
  - apply (keys_known_set _ (KStaged slot sequence)); [done|by apply keys_known_rep with m].
  - intros k Hk. rw (lookup_set _ (KStaged slot sequence)) //. pose proof (rep_same k Hk) as Hsame.
    by_key k; rw ?lookup_insert_eq ?lookup_insert_ne //; try by apply Hsame. intros ->. done.
Qed.

Lemma rep_put key o v : storable o -> marshal o = Some v ->
  represents (<[Badger.committedKey slot key := v]> d)
    (with_replica m slot (r <| rd_committed := <[key := o]> (rd_committed r) |>)).
Proof.
  intros Ho Hv. apply (represents_with d); [done| | |].
  - destruct Hok. split; try done. by apply map_Forall_insert_2.
  - apply (keys_known_set _ (KCommitted slot key)); [done|by apply keys_known_rep with m].
  - intros k Hk. rw (lookup_set _ (KCommitted slot key)) //. pose proof (rep_same k Hk) as Hsame.
    by_key k; rw ?lookup_insert_eq ?lookup_insert_ne //; try by apply Hsame. intros ->. done.
Qed.

Lemma rep_remove key :
  represents (delete (Badger.committedKey slot key) d)
    (with_replica m slot (r <| rd_committed := delete key (rd_committed r) |>)).
Proof.
  apply (represents_with d); [done| | |].
  - destruct Hok. split; try done. by apply map_Forall_delete.
  - by apply keys_known_unset, keys_known_rep with m.
  - intros k Hk. rw (lookup_unset _ (KCommitted slot key)) //. pose proof (rep_same k Hk) as Hsame.
    by_key k; rw ?lookup_delete_eq ?lookup_delete_ne //; try by apply Hsame. intros ->. done.
Qed.

Lemma rep_unstage_all :
  represents (Badger.deletePrefixTxn d (Badger.stagedPrefix slot)) (with_replica m slot (r <| rd_staged := ∅ |>)).
Proof.
  apply (represents_with d); [done| | |].
  - by destruct Hok.
  - by apply keys_known_prefix, keys_known_rep with m.
  - intros k Hk. rw lookup_deletePrefixTxn. pose proof (rep_same k Hk) as Hsame.
    pose proof (staged_prefix slot k Hs Hk) as Hp. destruct (decide (_ `prefix_of` _)) as [Hin|Hin].
    + apply Hp in Hin as [? ->]. cbn. by rw decide_True // lookup_empty.
    + by_key k; try (by apply Hsame). destruct Hin. apply Hp. by eexists.
Qed.

Lemma rep_uncommit_all :
  represents (Badger.deletePrefixTxn d (Badger.committedPrefix slot)) (with_replica m slot (r <| rd_committed := ∅ |>)).
Proof.
  apply (represents_with d); [done| | |].
  - by destruct Hok.
  - by apply keys_known_prefix, keys_known_rep with m.
  - intros k Hk. rw lookup_deletePrefixTxn. pose proof (rep_same k Hk) as Hsame.
    pose proof (committed_prefix slot k Hs Hk) as Hp. destruct (decide (_ `prefix_of` _)) as [Hin|Hin].
    + apply Hp in Hin as [? ->]. cbn. by rw decide_True // lookup_empty.
    + by_key k; try (by apply Hsame). destruct Hin. apply Hp. by eexists.
Qed.
End one_key.

(** *** Operations *)
Lemma with_replica_twice m slot r r' : with_replica (with_replica m slot r) slot r' = with_replica m slot r'.
Proof. unfold with_replica. cbn. by rw insert_insert_eq. Qed.

Lemma with_replica_lookup m slot r : be_replicas (with_replica m slot r) !! slot = Some r.
Proof. apply lookup_insert_eq. Qed.

Lemma sim_DeleteReplica d m slot : represents d m -> int_range slot ->
  simulates (Badger.DeleteReplica hook updf d slot) (DeleteReplica m slot).
Proof.
  intros Hrep Hs. unfold Badger.DeleteReplica, DeleteReplica. rw (rep_highest _ _ Hrep) //.
  unfold backend_HighestCommittedSequence, replica_of. destruct (be_replicas m !! slot) as [r|] eqn:Hr; [|done]. cbn.
  rw writeSync_ok. cbn. pose proof (rep_uncommit_all _ _ _ _ Hrep Hr) as H2.
  pose proof (rep_unstage_all _ _ _ _ H2 (with_replica_lookup _ _ _)) as H3. rw with_replica_twice in H3.
  set (d' := Badger.deletePrefixTxn _ _) in H3 |- *. split.
  - intros k Hk. rw (lookup_unset _ (KUpstream slot)) // (lookup_unset _ (KMeta slot)) //. rw (rep_lookup _ _ H3) //.
    rw holds_with. unfold holds at 2. cbn. destruct (decide (slot = key_slot k)) as [->|Hne].
    + rw lookup_delete_eq. cbn. destruct k; cbn; repeat case_decide; simplify_eq; try done; by rw lookup_empty.
    + rw lookup_delete_ne //. destruct k; cbn in Hne |- *; repeat case_decide; simplify_eq; done.
  - by apply keys_known_unset, keys_known_unset, keys_known_rep with (with_replica m slot (r <| rd_committed := ∅ |> <| rd_staged := ∅ |>)).
  - apply map_Forall_delete, (rep_ok _ _ Hrep).
Qed.

Lemma sim_SetHighestCommittedSequence d m slot sequence :
  represents d m -> int_range slot -> uint64_range sequence ->
  simulates (Badger.SetHighestCommittedSequence hook updf d slot sequence) (SetHighestCommittedSequence m slot sequence).
Proof.
  intros Hrep Hs Hq. unfold Badger.SetHighestCommittedSequence, SetHighestCommittedSequence. rw (rep_highest _ _ Hrep) //.
  unfold backend_HighestCommittedSequence, replica_of. destruct (be_replicas m !! slot) as [r|] eqn:Hr; [|done]. cbn.
  rw writeSync_ok. cbn. pose proof (rep_unstage_all _ _ _ _ Hrep Hr) as H2.
  pose proof (rep_set_meta _ _ _ _ H2 (with_replica_lookup _ _ _) _ Hq) as H3. rw with_replica_twice in H3.
  pose proof (rep_set_upstream _ _ _ _ H3 (with_replica_lookup _ _ _) _ Hq) as H4. by rw with_replica_twice in H4.
Qed.

Lemma sim_SetHighestUpstreamConfirmedSequence d m slot sequence :
  represents d m -> int_range slot -> uint64_range sequence ->
  simulates (Badger.SetHighestUpstreamConfirmedSequence hook updf d slot sequence)
    (SetHighestUpstreamConfirmedSequence m slot sequence).
Proof.
  intros Hrep Hs Hq. unfold Badger.SetHighestUpstreamConfirmedSequence, SetHighestUpstreamConfirmedSequence.
  rw (rep_highest _ _ Hrep) //. unfold backend_HighestCommittedSequence, replica_of.
  destruct (be_replicas m !! slot) as [r|] eqn:Hr; [|done]. cbn. rw writeSync_ok. cbn.
  by apply rep_set_upstream.
Qed.

Lemma rep_install (snap : Snapshot) keys d m slot r :
  represents d m -> be_replicas m !! slot = Some r -> map_Forall (fun _ o => storable o) snap ->
  Forall (fun key => is_Some (snap !! key)) keys ->
  exists d', res_fold (Badger.install_key slot snap) d keys = Ok d' /\
    represents d' (with_replica m slot (r <| rd_committed :=
      foldl (fun (c : Snapshot) key => <[key := default zeroObject (snap !! key)]> c) (rd_committed r) keys |>)).
Proof.
  intros Hrep Hr Hsnap Hkeys. revert d m r Hrep Hr.
  induction Hkeys as [|key keys [o Ho] _ IH]; intros d m r Hrep Hr; cbn [res_fold foldl].
  { exists d. split; [done|]. destruct m as [replicas], r. unfold with_replica. cbn in *. by rw insert_id. }
  destruct (Hsnap _ _ Ho) as (v & Hv & _). unfold Badger.install_key at 2, Badger.encoded. rw Ho. cbn [default]. rw Hv.
  cbn [mbind res_bind default]. pose proof (rep_put _ _ _ _ Hrep Hr key o v (Hsnap _ _ Ho) Hv) as H2.
  destruct (IH _ _ _ H2 (with_replica_lookup _ _ _)) as (d' & -> & H3). exists d'. split; [done|].
  by rw with_replica_twice in H3.
Qed.

Lemma install_lookup (snap c : Snapshot) keys :
  (forall key, c !! key = None) -> Forall (fun key => is_Some (snap !! key)) keys -> (forall key, is_Some (snap !! key) -> key ∈ keys) ->
  foldl (fun (c : Snapshot) key => <[key := default zeroObject (snap !! key)]> c) c keys = snap.
Proof.
  intros Hc Hkeys Hall.
  assert (forall key (c : Snapshot), foldl (fun (c : Snapshot) key => <[key := default zeroObject (snap !! key)]> c) c keys !! key =
    if decide (key ∈ keys) then Some (default zeroObject (snap !! key)) else c !! key) as Hfold.
  { clear. intros key. induction keys as [|x keys IH]; intros c; cbn [foldl]; [done|]. rw IH.
    destruct (decide (x = key)) as [->|Hne]; [rw lookup_insert_eq|rw lookup_insert_ne //]; repeat case_decide; try done; set_solver. }
  apply map_eq. intros key. rw Hfold. rw Forall_forall in Hkeys. destruct (decide _) as [Hin|Hin].
  - by destruct (Hkeys _ Hin) as [o ->].
  - rw Hc. destruct (snap !! key) eqn:Ho; [|done]. destruct Hin. apply Hall. by rw Ho.
Qed.

Lemma sim_InstallSnapshot d m slot (snap : Snapshot) :
  represents d m -> int_range slot -> map_Forall (fun _ o => storable o) snap ->
  simulates (Badger.InstallSnapshot hook updf d slot snap) (InstallSnapshot m slot snap).
Proof.
  intros Hrep Hs Hsnap. unfold Badger.InstallSnapshot, InstallSnapshot. rw (rep_highest _ _ Hrep) //.
  unfold backend_HighestCommittedSequence, replica_of. destruct (be_replicas m !! slot) as [r|] eqn:Hr; [|done]. cbn.
  rw writeSync_ok clone_map_id. cbn. pose proof (rep_uncommit_all _ _ _ _ Hrep Hr) as H2.
  pose proof (rep_unstage_all _ _ _ _ H2 (with_replica_lookup _ _ _)) as H3. rw with_replica_twice in H3.
  assert (forall key, key ∈ Badger.sortedSnapshotKeys snap <-> is_Some (snap !! key)) as Hkeys.
  { intros key. unfold Badger.sortedSnapshotKeys, sort_Strings. rw elem_of_isort list_elem_of_fmap. split.
    - intros ([k o] & -> & Ho%elem_of_map_to_list). by exists o.
    - intros [o Ho]. exists (key, o). by rw elem_of_map_to_list. }
  destruct (rep_install snap (Badger.sortedSnapshotKeys snap) _ _ _ _ H3 (with_replica_lookup _ _ _) Hsnap) as (d' & -> & H4).
  { apply Forall_forall. intros key. apply Hkeys. }
  cbn. rw with_replica_twice in H4. rw install_lookup in H4; [intros key; apply lookup_empty| | |].
  - apply Forall_forall. intros key. apply Hkeys.
  - intros key. apply Hkeys.
  - done.
Qed.

Lemma sim_stage d m slot sequence op :
  represents d m -> int_range slot -> staged_ok sequence op ->
  simulates (Badger.stageOperation hook updf d slot sequence op) (stage m slot sequence op).
Proof.
  intros Hrep Hs Hop. unfold Badger.stageOperation, stage. rw (rep_highest _ _ Hrep) //.
  unfold backend_HighestCommittedSequence, replica_of. rw (rep_loadStaged _ _ Hrep) //; [apply Hop|].
  destruct (be_replicas m !! slot) as [r|] eqn:Hr; [|done]. cbn [mbind res_bind option_bind].
  destruct (rd_staged r !! sequence) as [old|]; [done|]. rw bool_decide_false; [by intros [? [=]]|]. cbn [reject mbind res_bind].
  destruct Hop as (Hq & Hk & Hst & Hobj). destruct (Hst) as (v & Hv & _). unfold Badger.encoded. rw Hv. cbn [mbind res_bind].
  rw writeSync_ok. cbn. by apply rep_stage.
Qed.

(** The object of an operation. *)
Definition object_ok (kind : OperationKind) (value : string) (metadata : ObjectMetadata) : Prop :=
  kind_known kind = true /\ (kind = OperationKindPut -> storable {| obj_Value := value; obj_Metadata := metadata |}).

Lemma rep_object d m slot r kind key value metadata :
  represents d m -> be_replicas m !! slot = Some r -> object_ok kind value metadata ->
  exists w committed, Badger.object_write slot kind key value metadata = Ok w /\
    commit_kind (rd_committed r) kind key value metadata = Ok committed /\
    represents (apply_write d w) (with_replica m slot (r <| rd_committed := committed |>)).
Proof.
  intros Hrep Hr [Hk Hst]. unfold Badger.object_write, commit_kind. destruct kind as [| |other]; [| |done].
  - specialize (Hst eq_refl). destruct (Hst) as (v & Hv & _). unfold Badger.encoded. rw Hv. cbn.
    do 2 eexists. split; [done|]. split; [done|]. cbn. apply rep_put; [done..|by destruct metadata|by destruct metadata].
  - do 2 eexists. split; [done|]. split; [done|]. by apply rep_remove.
Qed.

(** The replica after each of the writes of a commit. *)
Lemma rep_commit_writes d m slot r w committed sequence upstream :
  represents (apply_write d w) (with_replica m slot (r <| rd_committed := committed |>)) ->
  uint64_range sequence -> uint64_range upstream ->
  let r1 := r <| rd_committed := committed |> in
  let r2 := r1 <| rd_staged := delete sequence (rd_staged r) |> in
  let r3 := r2 <| rd_highestCommitted := sequence |> in
  let r4 := r3 <| rd_highestUpstreamConfirmed := upstream |> in
  let d2 := apply_writes d [w; DBDelete (Badger.stagedKey slot sequence)] in
  let d3 := apply_write d2 (DBSet (Badger.replicaMetaKey slot) (Badger.encodeUint64 sequence)) in
  let d4 := apply_write d3 (DBSet (Badger.replicaUpstreamMetaKey slot) (Badger.encodeUint64 upstream)) in
  represents d2 (with_replica m slot r2) /\ represents d3 (with_replica m slot r3) /\ represents d4 (with_replica m slot r4).
Proof.
  intros Hw1 Hq Hu r1 r2 r3 r4 d2 d3 d4.
  pose proof (rep_unstage _ _ _ _ Hw1 (with_replica_lookup _ _ _) _ Hq) as H2. rw with_replica_twice in H2.
  pose proof (rep_set_meta _ _ _ _ H2 (with_replica_lookup _ _ _) _ Hq) as H3. rw with_replica_twice in H3.
  pose proof (rep_set_upstream _ _ _ _ H3 (with_replica_lookup _ _ _) _ Hu) as H4. rw with_replica_twice in H4. done.
Qed.

Lemma sim_CommitSequence d m slot sequence :
  represents d m -> int_range slot -> uint64_range sequence ->
  simulates (Badger.CommitSequence hook updf d slot sequence) (CommitSequence m slot sequence).
Proof.
  intros Hrep Hs Hq. unfold Badger.CommitSequence, CommitSequence. rw (rep_highest _ _ Hrep) //.
  unfold backend_HighestCommittedSequence, replica_of. rw (rep_loadStaged _ _ Hrep) //.
  destruct (be_replicas m !! slot) as [r|] eqn:Hr; [|done]. cbn [mbind res_bind option_bind].
  destruct (sequence =? u64_add (rd_highestCommitted r) 1); [|done]. cbn [negb reject mbind res_bind].
  destruct (rd_staged r !! sequence) as [op|] eqn:Hop; [|done]. cbn [mbind res_bind]. rw writeSync_ok.
  destruct (ro_staged _ _ (rep_replica _ _ Hrep _ _ Hr) _ _ Hop) as (_ & Hk & _ & Hobj).
  destruct (rep_object d m slot r (so_kind op) (so_key op) (so_value op) (so_metadata op)) as (w & committed & -> & -> & Hw1);
    [done..|]. cbn [mbind res_bind simulates].
  by destruct (rep_commit_writes _ _ _ _ _ _ sequence sequence Hw1) as (_ & _ & ?).
Qed.

(** *** Batches *)
Definition commit_ok (commit : DurableCommit) : Prop :=
  let op := dc_Operation commit in
  int_range (op_Slot op) /\ uint64_range (op_Sequence op) /\ uint64_range (dc_UpstreamConfirmedSequence commit) /\
  object_ok (op_Kind op) (op_Value op) (op_Metadata op).

Lemma rep_apply_committed d m commit m' :
  represents d m -> commit_ok commit -> apply_committed m commit = Ok m' ->
  exists ws, Badger.commit_writes commit = Ok ws /\ represents (apply_writes d ws) m'.
Proof.
  intros Hrep (Hs & Hq & Hu & Hobj). unfold apply_committed, Badger.commit_writes, replica_of.
  destruct (be_replicas m !! op_Slot (dc_Operation commit)) as [r|] eqn:Hr; [|done]. cbn [mbind res_bind].
  destruct (_ =? _); [|done]. cbn [negb reject mbind res_bind].
  destruct (rep_object d m _ r _ (op_Key (dc_Operation commit)) _ _ Hrep Hr Hobj) as (w & committed & -> & -> & Hw1).
  cbn [mbind res_bind]. intros [= <-]. eexists. split; [done|].
  by destruct (rep_commit_writes _ _ _ _ _ _ _ _ Hw1 Hq Hu) as (_ & _ & ?).
Qed.

(** The writes of a batch. *)
Lemma rep_batch_writes commits d m m' ws :
  represents (apply_writes d ws) m -> Forall commit_ok commits -> apply_committed_batch m commits = (m', Ok tt) ->
  exists ws', Badger.batch_writes ws commits = (ws', Ok tt) /\ represents (apply_writes d ws') m'.
Proof.
  intros Hrep Hok. revert m ws Hrep. induction Hok as [|commit commits Hc _ IH]; intros m ws Hrep; cbn [apply_committed_batch Badger.batch_writes].
  { intros [= <-]. by exists ws. }
  destruct (apply_committed m commit) as [m1|e] eqn:Hm; [|done].
  destruct (rep_apply_committed _ _ _ _ Hrep Hc Hm) as (more & -> & Hw1). apply IH.
  unfold apply_writes in *. by rw foldl_app.
Qed.

(** The check of the sequence numbers finds what applying them one by one would. *)
Lemma check_commits commits d m0 m expected :
  represents d m0 -> Forall commit_ok commits ->
  (forall slot, rd_highestCommitted <$> be_replicas m !! slot =
     match expected !! slot with Some h => Some h | None => rd_highestCommitted <$> be_replicas m0 !! slot end) ->
  match res_fold (Badger.check_commit d) expected commits with
  | Ok _ => exists m', apply_committed_batch m commits = (m', Ok tt)
  | Err e => exists m', apply_committed_batch m commits = (m', Err e)
  end.
Proof.
  intros Hrep Hok. revert m expected. induction Hok as [|commit commits (Hs & _ & _ & Hobj) _ IH]; intros m expected Hm.
  { cbn. by exists m. }
  cbn [res_fold apply_committed_batch]. unfold Badger.check_commit at 2, apply_committed, replica_of.
  specialize (Hm (op_Slot (dc_Operation commit))) as Hslot.
  assert (match expected !! op_Slot (dc_Operation commit) with
          | Some highest => Ok highest
          | None => Badger.HighestCommittedSequence d (op_Slot (dc_Operation commit))
          end = match be_replicas m !! op_Slot (dc_Operation commit) with
                | Some r => Ok (rd_highestCommitted r) | None => Err ErrUnknownReplica end) as ->.
  { rw (rep_highest _ _ Hrep) //. unfold backend_HighestCommittedSequence, replica_of.
    set (slot := op_Slot _) in *.
    destruct (be_replicas m !! slot), (expected !! slot), (be_replicas m0 !! slot); cbn in Hslot |- *; try done; by injection Hslot as ->. }
  destruct (be_replicas m !! op_Slot (dc_Operation commit)) as [r|] eqn:Hr; [|by exists m]. cbn [mbind res_bind].
  destruct (_ =? _); [|by exists m]. cbn [negb reject mbind res_bind].
  destruct Hobj as [Hk _]. destruct (op_Kind (dc_Operation commit)); [| |done]; cbn [commit_kind mbind res_bind]; apply IH;
    intros slot; cbn; (destruct (decide (op_Slot (dc_Operation commit) = slot)) as [<-|Hne];
      [by rw !lookup_insert_eq|rw !lookup_insert_ne //; apply Hm]).
Qed.
End updates.
