(* ===== verification/BadgerLocal.v ===== *)
(** * The badger local store

    Beside the backend's keys a database holds what a node knows of its
    replicas.  Neither store touches the other's keys, and the local store
    answers as the in-memory one does. *)

From S2P Require Import Prelude.
From S2P Require Import StorageTypes.
From S2P Require Import SlotReducer.
From S2P Require Import SlotOwner.
From S2P Require Import Journal.
From S2P Require Import JournalTheorems.
From S2P Require Import Backend.
From S2P Require Import BadgerDB.
From S2P Require Import Badger.
From S2P Require Import BadgerProps.
From Stdlib Require Import Ascii.

Open Scope Z_scope.
Open Scope record_scope.

(** ** Keys *)
Definition node_ok (nodeID : string) : Prop := byte_length nodeID <= maxUint32.

Lemma node_bytes_inj a b x y : node_ok a -> node_ok b ->
  put_be 4 (byte_length a) ++ String.list_ascii_of_string a ++ x =
  put_be 4 (byte_length b) ++ String.list_ascii_of_string b ++ y -> a = b /\ x = y.
Proof.
  intros Ha Hb Heq. apply app_inj_1 in Heq as [Hl Heq]; [|by rw !length_put_be].
  assert (byte_length a = byte_length b) as Hlen.
  { unfold put_be in Hl. apply (f_equal (fun l => get_le (rev l))) in Hl. rw !rev_involutive in Hl.
    rw !get_put_u32 in Hl; unfold node_ok, byte_length in *; lia. }
  apply app_inj_1 in Heq as [Heq ->]; [|unfold byte_length in Hlen; rw !length_ascii; lia].
  split; [by apply list_ascii_inj|done].
Qed.

Lemma localReplicaKey_inj n1 s1 n2 s2 : node_ok n1 -> node_ok n2 -> int_range s1 -> int_range s2 ->
  Badger.localReplicaKey n1 s1 = Badger.localReplicaKey n2 s2 -> n1 = n2 /\ s1 = s2.
Proof.
  intros Hn1 Hn2 Hs1 Hs2 [_ Heq]%cons_eq. cbn [app] in Heq. rw -!app_assoc in Heq.
  apply node_bytes_inj in Heq as [-> Heq]; [|done..]. split; [done|by apply encodeSlot_inj].
Qed.

Lemma localReplicaPrefix_of n1 n2 s : node_ok n1 -> node_ok n2 ->
  Badger.localReplicaPrefix n1 `prefix_of` Badger.localReplicaKey n2 s -> n1 = n2.
Proof.
  intros Hn1 Hn2 [x [_ Heq]%cons_eq]. cbn [app] in Heq. rw -!app_assoc in Heq.
  by apply node_bytes_inj in Heq as [-> _].
Qed.

Lemma localNodeMetaKey_inj n1 n2 : node_ok n1 -> node_ok n2 ->
  Badger.localNodeMetaKey n1 = Badger.localNodeMetaKey n2 -> n1 = n2.
Proof.
  intros Hn1 Hn2 [_ Heq]%cons_eq. rw -(app_nil_r (String.list_ascii_of_string n1)) -(app_nil_r (String.list_ascii_of_string n2)) in Heq.
  by apply node_bytes_inj in Heq as [-> _].
Qed.

(** ** What each store leaves alone *)
Definition same_local (d d' : database) : Prop := forall key, local_key key -> d' !! key = d !! key.

Lemma key_bytes_not_local k : ~ local_key (key_bytes k).
Proof. by destruct k; intros [?|?]. Qed.

Section frames.
Context (d0 : database).

Lemma same_local_set d k v : same_local d0 d -> same_local d0 (<[key_bytes k := v]> d).
Proof.
  intros Hd key Hk. rw lookup_insert_ne; [|by apply Hd]. intros <-. by apply (key_bytes_not_local k).
Qed.

Lemma same_local_unset d k : same_local d0 d -> same_local d0 (delete (key_bytes k) d).
Proof.
  intros Hd key Hk. rw lookup_delete_ne; [|by apply Hd]. intros <-. by apply (key_bytes_not_local k).
Qed.

Lemma same_local_committed d slot : same_local d0 d -> same_local d0 (Badger.deletePrefixTxn d (Badger.committedPrefix slot)).
Proof.
  intros Hd key Hk. rw lookup_deletePrefixTxn decide_False; [|by apply Hd]. intros [x ->]. by destruct Hk.
Qed.

Lemma same_local_staged d slot : same_local d0 d -> same_local d0 (Badger.deletePrefixTxn d (Badger.stagedPrefix slot)).
Proof.
  intros Hd key Hk. rw lookup_deletePrefixTxn decide_False; [|by apply Hd]. intros [x ->]. by destruct Hk.
Qed.
End frames.

Lemma same_local_refl d : same_local d d.
Proof. done. Qed.

Section operations.
Context `{Codec CommittedObject} `{Codec stagedOperation} `{Codec PersistedReplica}.
Context (hook updf : Badger.durable_op -> option storage_error).

Lemma writeSync_Ok op d fn d' : Badger.writeSync hook updf op d fn = Ok d' -> fn d = Ok d'.
Proof.
  unfold Badger.writeSync, Badger.Update. intros (_ & _ & (d1 & Hfn & Hu)%bind_Ok)%bind_Ok.
  destruct (updf op); [done|]. by injection Hu as <-.
Qed.

Lemma frame_object d slot kind key value metadata w :
  Badger.object_write slot kind key value metadata = Ok w -> same_local d (apply_write d w).
Proof.
  unfold Badger.object_write. destruct kind; [intros (v & _ & [= <-])%bind_Ok|intros [= <-]|done].
  - by apply (same_local_set _ _ (KCommitted slot key)).
  - by apply (same_local_unset _ _ (KCommitted slot key)).
Qed.

Lemma frame_CreateReplica d slot d' : Badger.CreateReplica hook updf d slot = Ok d' -> same_local d d'.
Proof.
  unfold Badger.CreateReplica. destruct (Badger.HighestCommittedSequence d slot) as [|[]]; try done.
  intros [= <-]%writeSync_Ok. by apply (same_local_set _ _ (KUpstream slot)), (same_local_set _ _ (KMeta slot)).
Qed.

Lemma frame_DeleteReplica d slot d' : Badger.DeleteReplica hook updf d slot = Ok d' -> same_local d d'.
Proof.
  unfold Badger.DeleteReplica. intros (_ & _ & [= <-]%writeSync_Ok)%bind_Ok.
  by apply (same_local_unset _ _ (KUpstream slot)), (same_local_unset _ _ (KMeta slot)), same_local_staged, same_local_committed.
Qed.

Lemma frame_InstallSnapshot d slot snap d' : Badger.InstallSnapshot hook updf d slot snap = Ok d' -> same_local d d'.
Proof.
  unfold Badger.InstallSnapshot. intros (_ & _ & Hfold%writeSync_Ok)%bind_Ok. cbv zeta in Hfold. revert Hfold.
  assert (same_local d (Badger.deletePrefixTxn (Badger.deletePrefixTxn d (Badger.committedPrefix slot)) (Badger.stagedPrefix slot)))
    as Hd by by apply same_local_staged, same_local_committed.
  revert Hd. generalize (Badger.deletePrefixTxn (Badger.deletePrefixTxn d (Badger.committedPrefix slot)) (Badger.stagedPrefix slot)).
  generalize (Badger.sortedSnapshotKeys snap). intros keys. induction keys as [|key keys IH]; intros d1 Hd1; cbn [res_fold].
  - by intros [= <-].
  - intros (d2 & (v & _ & [= <-])%bind_Ok & Hrest)%bind_Ok. apply (IH _ (same_local_set _ _ (KCommitted slot key) _ Hd1) Hrest).
Qed.

Lemma frame_SetHighestCommittedSequence d slot sequence d' :
  Badger.SetHighestCommittedSequence hook updf d slot sequence = Ok d' -> same_local d d'.
Proof.
  unfold Badger.SetHighestCommittedSequence. intros (_ & _ & [= <-]%writeSync_Ok)%bind_Ok.
  by apply (same_local_set _ _ (KUpstream slot)), (same_local_set _ _ (KMeta slot)), same_local_staged.
Qed.

Lemma frame_SetHighestUpstreamConfirmedSequence d slot sequence d' :
  Badger.SetHighestUpstreamConfirmedSequence hook updf d slot sequence = Ok d' -> same_local d d'.
Proof.
  unfold Badger.SetHighestUpstreamConfirmedSequence. intros (_ & _ & [= <-]%writeSync_Ok)%bind_Ok.
  by apply (same_local_set _ _ (KUpstream slot)).
Qed.

Lemma frame_stageOperation d slot sequence op d' :
  Badger.stageOperation hook updf d slot sequence op = Ok d' -> same_local d d'.
Proof.
  unfold Badger.stageOperation. intros (_ & _ & Hs)%bind_Ok. destruct (Badger.loadStagedOperation d slot sequence) as [|[]]; try done.
  apply bind_Ok in Hs as (v & _ & [= <-]%writeSync_Ok). by apply (same_local_set _ _ (KStaged slot sequence)).
Qed.

Lemma frame_CommitSequence d slot sequence d' :
  Badger.CommitSequence hook updf d slot sequence = Ok d' -> same_local d d'.
Proof.
  unfold Badger.CommitSequence. intros (h & _ & (_ & _ & (op & _ & (w & Hw & [= <-])%writeSync_Ok%bind_Ok)%bind_Ok)%bind_Ok)%bind_Ok.
  cbn [apply_writes foldl apply_write].
  by apply (same_local_set _ _ (KUpstream slot)), (same_local_set _ _ (KMeta slot)), (same_local_unset _ _ (KStaged slot sequence)),
    (frame_object _ _ _ _ _ _ _ Hw).
Qed.

Lemma frame_commit_writes d0 d commit ws n : Badger.commit_writes commit = Ok ws -> same_local d0 d ->
  same_local d0 (apply_writes d (take n ws)).
Proof.
  unfold Badger.commit_writes. intros (w & Hw & [= <-])%bind_Ok Hd.
  assert (same_local d0 (apply_write d w)) as R1 by (intros key Hk; rw (frame_object _ _ _ _ _ _ _ Hw) //; by apply Hd).
  set (op := dc_Operation commit) in *.
  pose proof (same_local_unset _ _ (KStaged (op_Slot op) (op_Sequence op)) R1) as R2.
  pose proof (same_local_set _ _ (KMeta (op_Slot op)) (Badger.encodeUint64 (op_Sequence op)) R2) as R3.
  pose proof (same_local_set _ _ (KUpstream (op_Slot op)) (Badger.encodeUint64 (dc_UpstreamConfirmedSequence commit)) R3) as R4.
  destruct n as [|[|[|[|n]]]]; [done..|]. by rw take_ge; [cbn; lia|].
Qed.

Lemma frame_batch_writes d0 d commits acc ws filled n :
  (forall n, same_local d0 (apply_writes d (take n acc))) -> Badger.batch_writes acc commits = (ws, filled) ->
  same_local d0 (apply_writes d (take n ws)).
Proof.
  revert acc. induction commits as [|commit commits IH]; intros acc Hacc; cbn [Badger.batch_writes]; [by intros [= <- _]|].
  destruct (Badger.commit_writes commit) as [more|e] eqn:Hm; [|by intros [= <- _]]. apply IH. intros k.
  destruct (decide (k <= length acc)%nat) as [Hk|Hk]; [rw take_app_le //; apply Hacc|].
  rw take_app_ge; [lia|]. unfold apply_writes. rw foldl_app. apply (frame_commit_writes _ _ _ _ _ Hm).
  rw -(firstn_all acc). apply Hacc.
Qed.

Lemma frame_apply_batch spilled flush_fails d commits :
  same_local d (Badger.apply_batch hook spilled flush_fails d commits).1.
Proof.
  unfold Badger.apply_batch. destruct commits as [|commit commits]; [done|].
  destruct (res_fold _ _ _); [|done]. destruct (Badger.runBeforeDurableWrite _ _); [|done].
  destruct (Badger.batch_writes [] (commit :: commits)) as [ws filled] eqn:Hws.
  assert (forall n, same_local d (apply_writes d (take n ws))) as Hn.
  { intros n. apply (frame_batch_writes _ _ _ _ _ _ _) with (2 := Hws). intros k. by rw take_nil. }
  destruct filled; [|apply Hn]. destruct (flush_fails ws); [apply Hn|]. cbn. rw -(firstn_all ws). apply Hn.
Qed.
End operations.

(** ** Lists of replicas, one per slot *)
Definition slots (l : list PersistedReplica) : list Z := persisted_slot <$> l.

Definition by_slot (a b : PersistedReplica) : bool := persisted_slot a <=? persisted_slot b.

Definition find_slot (slot : Z) (l : list PersistedReplica) : option PersistedReplica :=
  List.find (fun r => persisted_slot r =? slot) l.

Lemma find_slot_Some slot l r : NoDup (slots l) -> find_slot slot l = Some r <-> r ∈ l /\ persisted_slot r = slot.
Proof.
  intros Hnd. unfold find_slot. split.
  - intros [Hin Hs%Z.eqb_eq]%find_some. by rw list_elem_of_In.
  - intros [Hin Hs]. destruct (find _ l) as [r'|] eqn:Hf.
    + apply find_some in Hf as [Hin' Hs'%Z.eqb_eq]. f_equal. rw -list_elem_of_In in Hin'.
      apply list_elem_of_lookup in Hin as [i Hi], Hin' as [j Hj]. rw NoDup_alt in Hnd.
      assert (i = j) as ->; [|congruence]. apply (Hnd i j slot); unfold slots; rw list_lookup_fmap; [rw Hi|rw Hj]; cbn; congruence.
    + rw list_elem_of_In in Hin. pose proof (find_none _ _ Hf _ Hin) as Hn. cbn in Hn. rw Hs Z.eqb_refl in Hn. done.
Qed.

Abbreviation slot_sorted := (StronglySorted (fun a b => by_slot a b = true)).

Lemma isort_slot_sorted l : slot_sorted (isort by_slot l).
Proof. apply isort_sorted; unfold by_slot; intros *; lia. Qed.

(** Sorted lists with the same members, one per slot, are the same. *)
Lemma slot_sorted_unique l l' : NoDup (slots l) -> l ≡ₚ l' -> slot_sorted l -> slot_sorted l' -> l = l'.
Proof.
  intros Hnd. apply (sorted_same by_slot). intros a b [i Hi]%list_elem_of_lookup [j Hj]%list_elem_of_lookup Hab Hba.
  rw NoDup_alt in Hnd. assert (i = j) as ->; [|congruence]. unfold by_slot in *.
  apply (Hnd i j (persisted_slot a)); unfold slots; rw list_lookup_fmap; [by rw Hi|]. rw Hj. cbn. f_equal. lia.
Qed.

Record replicas_ok (l : list PersistedReplica) : Prop := {
  rl_sorted : slot_sorted l;
  rl_once : NoDup (slots l);
}.

Lemma replicas_ok_sort l : NoDup (slots l) -> replicas_ok (isort by_slot l).
Proof. intros Hnd. split; [apply isort_slot_sorted|]. unfold slots in *. by rw isort_perm. Qed.

Lemma replace_replica_spec replica l : NoDup (slots l) ->
  match replace_replica replica l with
  | Some l' => slots l' = slots l /\
      forall r, r ∈ l' <-> r = replica \/ (r ∈ l /\ persisted_slot r <> persisted_slot replica)
  | None => forall r, r ∈ l -> persisted_slot r <> persisted_slot replica
  end.
Proof.
  induction l as [|a l IH]; intros Hnd; cbn [replace_replica]; [by intros r ?%elem_of_nil|].
  inversion Hnd as [|? ? Ha Hnd']; subst. specialize (IH Hnd').
  destruct (Z.eqb_spec (persisted_slot a) (persisted_slot replica)) as [Heq|Hne].
  - split; [cbn; by rw Heq|]. intros r. rw !elem_of_cons. split.
    + intros [->|Hin]; [by left|]. right. split; [by right|]. intros Hs. apply Ha, list_elem_of_fmap. exists r. split; [by rw Heq|done].
    + intros [->|[[->|Hin] Hs]]; [by left|done|by right].
  - destruct (replace_replica replica l) as [l'|]; cbn.
    + destruct IH as [Hs Hm]. split; [unfold slots in *; cbn; by rw Hs|]. intros r. rw !elem_of_cons Hm. naive_solver.
    + intros r [->|Hin]%elem_of_cons; [done|by apply IH].
Qed.

Definition upserted (replica : PersistedReplica) (l : list PersistedReplica) : list PersistedReplica :=
  isort by_slot (match replace_replica replica l with Some replaced => replaced | None => l ++ [replica] end).

Lemma upserted_spec replica l : NoDup (slots l) ->
  replicas_ok (upserted replica l) /\
  forall r, r ∈ upserted replica l <-> r = replica \/ (r ∈ l /\ persisted_slot r <> persisted_slot replica).
Proof.
  intros Hnd. unfold upserted. pose proof (replace_replica_spec replica l Hnd) as Hr.
  destruct (replace_replica replica l) as [l'|].
  - destruct Hr as [Hs Hm]. split; [apply replicas_ok_sort; by rw Hs|]. intros r. by rw elem_of_isort.
  - split.
    + apply replicas_ok_sort. unfold slots. rw fmap_app. apply NoDup_app. split_and!; [done| |apply NoDup_singleton].
      intros x (r & -> & Hin)%list_elem_of_fmap Hx%list_elem_of_singleton. by apply (Hr r).
    + intros r. rw elem_of_isort elem_of_app list_elem_of_singleton. naive_solver.
Qed.

Lemma find_slot_upserted slot replica l : NoDup (slots l) ->
  find_slot slot (upserted replica l) = if decide (persisted_slot replica = slot) then Some replica else find_slot slot l.
Proof.
  intros Hnd. destruct (upserted_spec replica l Hnd) as [[_ Hnd'] Hm]. apply option_eq. intros r.
  rw find_slot_Some // Hm. destruct (decide _) as [<-|Hne]; [split; [naive_solver|by intros [= <-]; split; [left|]]|].
  rw find_slot_Some //. naive_solver.
Qed.

Definition removed (slot : Z) (l : list PersistedReplica) : list PersistedReplica :=
  List.filter (fun r => negb (persisted_slot r =? slot)) l.

Lemma elem_of_removed slot l r : r ∈ removed slot l <-> r ∈ l /\ persisted_slot r <> slot.
Proof. unfold removed. rw !list_elem_of_In filter_In negb_true_iff Z.eqb_neq //. Qed.

Lemma removed_spec slot l : replicas_ok l ->
  replicas_ok (removed slot l) /\
  forall s, find_slot s (removed slot l) = if decide (slot = s) then None else find_slot s l.
Proof.
  intros [Hs Hnd].
  assert (NoDup (slots (removed slot l))) as Hnd'.
  { clear Hs. revert Hnd. unfold slots. induction l as [|a l IH]; cbn; [done|]. intros [Ha Hl]%NoDup_cons.
    destruct (negb _); cbn; [|by apply IH]. constructor; [|by apply IH]. intros (r & Hr & [Hin _]%elem_of_removed)%list_elem_of_fmap.
    apply Ha, list_elem_of_fmap. by exists r. }
  split.
  - split; [|done]. clear Hnd Hnd'. induction Hs as [|a l Hs IH Hf]; cbn; [constructor|]. destruct (negb _); [|done].
    constructor; [done|]. rw Forall_forall in Hf. apply Forall_forall. intros r [Hin _]%elem_of_removed. by apply Hf.
  - intros s. apply option_eq. intros r. rw find_slot_Some // elem_of_removed.
    destruct (decide _) as [<-|Hne]; [naive_solver|rw find_slot_Some //; naive_solver].
Qed.

(** ** The representation *)
Section local.
Context `{Codec CommittedObject} `{Codec stagedOperation} `{Codec PersistedReplica}.

Record represents_local (d : database) (s : local_store) : Prop := {
  rl_replica : forall n slot, node_ok n -> int_range slot ->
    d !! Badger.localReplicaKey n slot = find_slot slot (ps_Replicas (LoadNode s n)) ≫= marshal;
  rl_epoch : forall n, node_ok n -> uint64_range (ps_HighestAcceptedCoordinatorEpoch (LoadNode s n)) /\
    (d !! Badger.localNodeMetaKey n = Some (Badger.encodeUint64 (ps_HighestAcceptedCoordinatorEpoch (LoadNode s n))) \/
     d !! Badger.localNodeMetaKey n = None /\ ps_HighestAcceptedCoordinatorEpoch (LoadNode s n) = 0);
  rl_keys : forall key, is_Some (d !! key) -> head key = Some Badger.keyLocalReplica ->
    exists n slot, node_ok n /\ int_range slot /\ key = Badger.localReplicaKey n slot;
  rl_node : forall n, ps_NodeID (LoadNode s n) = n;
  rl_lists : forall n, replicas_ok (ps_Replicas (LoadNode s n));
  rl_values : forall n, Forall (fun r => storable r /\ int_range (persisted_slot r)) (ps_Replicas (LoadNode s n));
}.

Lemma represents_local_empty : represents_local ∅ ∅.
Proof.
  split; intros; unfold LoadNode; rw ?lookup_empty; cbn; try done.
  - split; [done|by right].
  - rw lookup_empty in H2. by destruct H2.
  - split; constructor.
Qed.

Lemma represents_local_same d d' s : represents_local d s -> same_local d d' -> represents_local d' s.
Proof.
  intros [H1' H2 H3 H4 H5 H6] Hsame. split; try done.
  - intros n slot Hn Hs. rw Hsame; [by left|by apply H1'].
  - intros n Hn. rw Hsame; [by right|by apply H2].
  - intros key [v Hv] Hk. apply H3; [|done]. exists v. rw -Hsame //. by left.
Qed.

Lemma LoadNode_set (s : local_store) n state n' :
  LoadNode (<[n := state]> s) n' = if decide (n = n') then state else LoadNode s n'.
Proof.
  unfold LoadNode. destruct (decide (n = n')) as [->|Hne]; [by rw lookup_insert_eq|by rw lookup_insert_ne].
Qed.

(** What an iterator over the replicas of a node visits. *)
Lemma iterate_local d s n : represents_local d s -> node_ok n ->
  exists l, l ≡ₚ ps_Replicas (LoadNode s n) /\
    Forall2 (fun kv r => unmarshal kv.2 = Some r) (iterate d (Badger.localReplicaPrefix n)) l.
Proof.
  intros Hrep Hn. pose proof (rl_once _ (rl_lists _ _ Hrep n)) as Hnd. pose proof (rl_values _ _ Hrep n) as Hvals.
  set (replicas := ps_Replicas (LoadNode s n)) in *. rw Forall_forall in Hvals.
  set (entries := (fun r => (persisted_slot r, r)) <$> replicas). set (M := list_to_map entries : gmap Z PersistedReplica).
  assert (entries.*1 = slots replicas) as Hfst by (unfold entries, slots; by rw -list_fmap_compose).
  assert (forall slot r, M !! slot = Some r <-> r ∈ replicas /\ persisted_slot r = slot) as HM.
  { intros slot r. unfold M. rw -elem_of_list_to_map; [by rw Hfst|]. unfold entries. rw list_elem_of_fmap.
    split; [by intros (r' & [= -> ->] & Hin)|intros [Hin <-]; by exists r]. }
  assert (forall slot, is_Some (M !! slot) -> int_range slot) as Hrange.
  { intros slot [r [Hin <-]%HM]. by apply Hvals. }
  destruct (iterate_image d (Badger.localReplicaPrefix n) (Badger.localReplicaKey n) M (fun v r => unmarshal v = Some r))
    as (l & Hl & Hf).
  - intros s1 s2 ?%Hrange ?%Hrange Heq. by apply localReplicaKey_inj in Heq as [_ ?].
  - intros key v Hd Hp. destruct (rl_keys _ _ Hrep key) as (n' & slot & Hn' & Hs & ->); [by exists v|by destruct Hp as [x ->]|].
    apply localReplicaPrefix_of in Hp as <-; [|done..]. rw (rl_replica _ _ Hrep) // in Hd. fold replicas in Hd.
    destruct (find_slot slot replicas) as [r|] eqn:Hr; [|done]. apply find_slot_Some in Hr as [Hin Hrs]; [|done].
    exists slot, r. split; [by apply HM|]. split; [done|]. destruct (Hvals _ Hin) as [(v' & Hm & _ & Hu) _].
    cbn in Hd. rw Hm in Hd. by injection Hd as <-.
  - intros slot Hs. specialize (Hrange _ Hs). destruct Hs as [r [Hin Hrs]%HM]. split; [|by apply prefix_app_r].
    rw (rl_replica _ _ Hrep) //. fold replicas. rw (proj2 (find_slot_Some slot replicas r Hnd)) //. cbn.
    by destruct (Hvals _ Hin) as [(v' & -> & _) _].
  - exists l.*2. split.
    + rw Hl. unfold M. rw map_to_list_to_map; [by rw Hfst|]. unfold entries. by rw -list_fmap_compose list_fmap_id.
    + apply Forall2_fmap_r. eapply Forall2_impl; [exact Hf|]. by intros kv kx [_ ?].
Qed.

(** Loading a node gives what the in-memory store has. *)
Lemma rep_LoadNode d s n : represents_local d s -> node_ok n -> Badger.LoadNode d n = Ok (LoadNode s n).
Proof.
  intros Hrep Hn. pose proof (rl_lists _ _ Hrep n) as [Hsorted Hnd]. unfold Badger.LoadNode.
  assert (match db_get d (Badger.localNodeMetaKey n) with
          | Some value => if (length value =? 8)%nat then get_be value else 0
          | None => 0
          end = ps_HighestAcceptedCoordinatorEpoch (LoadNode s n)) as ->.
  { destruct (rl_epoch _ _ Hrep n Hn) as [Hr [He|[He ->]]]; unfold db_get; rw He; [|done].
    destruct (Badger.encodeUint64 _) as [|x v] eqn:Hv; [by pose proof (f_equal length Hv) as Hl; rw length_encodeUint64 in Hl|].
    rw -Hv length_encodeUint64. cbn. by apply get_put_be. }
  destruct (iterate_local d s n Hrep Hn) as (l & Hl & Hf).
  assert (forall acc, res_fold (fun replicas '(_, value) => replica ← Badger.decoded value; Ok (replicas ++ [replica]))
    acc (iterate d (Badger.localReplicaPrefix n)) = Ok (acc ++ l)) as Hfold.
  { clear Hl. induction Hf as [|[key v] r kvs rs Hu _ IH]; intros acc; cbn [res_fold]; [by rw app_nil_r|]. cbn [snd] in Hu.
    assert (Badger.decoded v = Ok r) as -> by (unfold Badger.decoded; by rw Hu). cbn [mbind res_bind]. by rw IH -app_assoc. }
  rw Hfold. cbn [mbind res_bind app]. f_equal. rw -{1}(rl_node _ _ Hrep n).
  replace (isort _ l) with (ps_Replicas (LoadNode s n)); [by destruct (LoadNode s n)|].
  apply slot_sorted_unique; [done|by rw isort_perm Hl|done|apply isort_slot_sorted].
Qed.

(** Writes of the local store leave the backend's keys alone. *)
Lemma rep_local_set d m key v : represents d m -> local_key key -> represents (<[key := v]> d) m.
Proof.
  intros Hrep Hk. split; [|intros key'|apply (rep_ok _ _ Hrep)].
  - intros k Hok. rw lookup_insert_ne; [|by apply (rep_lookup _ _ Hrep)]. intros ->. by apply (key_bytes_not_local k).
  - destruct (decide (key = key')) as [<-|Hne]; [by left|]. rw lookup_insert_ne //. apply (rep_keys _ _ Hrep).
Qed.

Lemma rep_local_unset d m key : represents d m -> local_key key -> represents (delete key d) m.
Proof.
  intros Hrep Hk. split; [|intros key'|apply (rep_ok _ _ Hrep)].
  - intros k Hok. rw lookup_delete_ne; [|by apply (rep_lookup _ _ Hrep)]. intros ->. by apply (key_bytes_not_local k).
  - intros [v [_ Hv]%lookup_delete_Some]. apply (rep_keys _ _ Hrep). by exists v.
Qed.

(** A node's replicas change, its epoch does not. *)
Lemma represents_local_replicas d d' s s' n slot (o : option PersistedReplica) :
  represents_local d s -> node_ok n -> int_range slot ->
  (forall n', ps_HighestAcceptedCoordinatorEpoch (LoadNode s' n') = ps_HighestAcceptedCoordinatorEpoch (LoadNode s n') /\
     ps_NodeID (LoadNode s' n') = ps_NodeID (LoadNode s n') /\ (n <> n' -> LoadNode s' n' = LoadNode s n')) ->
  replicas_ok (ps_Replicas (LoadNode s' n)) ->
  Forall (fun r => storable r /\ int_range (persisted_slot r)) (ps_Replicas (LoadNode s' n)) ->
  (forall slot', find_slot slot' (ps_Replicas (LoadNode s' n)) =
     if decide (slot = slot') then o else find_slot slot' (ps_Replicas (LoadNode s n))) ->
  (forall key, d' !! key = if decide (Badger.localReplicaKey n slot = key) then o ≫= marshal else d !! key) ->
  represents_local d' s'.
Proof.
  intros Hrep Hn Hs Hother Hok Hvals Hfind Hd. split.
  - intros n' slot' Hn' Hs'. rw Hd. destruct (decide (n = n')) as [<-|Hne].
    + rw Hfind. destruct (decide (slot = slot')) as [<-|Hns]; [by rw decide_True|].
      rw decide_False; [|by apply (rl_replica _ _ Hrep)]. intros Heq. by apply localReplicaKey_inj in Heq as [_ ?].
    + rw (proj2 (proj2 (Hother n'))) // decide_False; [|by apply (rl_replica _ _ Hrep)].
      intros Heq. by apply localReplicaKey_inj in Heq as [? _].
  - intros n' Hn'. destruct (Hother n') as [-> _]. rw Hd. destruct (decide _) as [[[=] _]%cons_eq|_]. by apply (rl_epoch _ _ Hrep).
  - intros key. rw Hd. destruct (decide _) as [<-|_]; [intros _ _; by exists n, slot|apply (rl_keys _ _ Hrep)].
  - intros n'. destruct (Hother n') as (_ & -> & _). apply (rl_node _ _ Hrep).
  - intros n'. destruct (decide (n = n')) as [<-|Hne]; [done|]. rw (proj2 (proj2 (Hother n'))) //. apply (rl_lists _ _ Hrep).
  - intros n'. destruct (decide (n = n')) as [<-|Hne]; [done|]. rw (proj2 (proj2 (Hother n'))) //. apply (rl_values _ _ Hrep).
Qed.

Context (hook updf : Badger.durable_op -> option storage_error).
Context (Hhook : forall op, hook op = None) (Hupd : forall op, updf op = None).

Lemma sim_UpsertReplica d s n replica :
  represents_local d s -> node_ok n -> storable replica -> int_range (persisted_slot replica) ->
  exists d', Badger.UpsertReplica hook updf d n replica = Ok d' /\ represents_local d' (UpsertReplica s n replica) /\
    forall m, represents d m -> represents d' m.
Proof.
  intros Hrep Hn Hst Hs. destruct (Hst) as (v & Hv & Hne & Hu). unfold Badger.UpsertReplica, Badger.encoded. rw Hv.
  cbn [mbind res_bind]. rw writeSync_ok //. eexists. split; [done|]. split; [|intros m Hm; apply rep_local_set; [done|by left]].
  pose proof (rl_once _ (rl_lists _ _ Hrep n)) as Hnd. destruct (upserted_spec replica _ Hnd) as [Hok Hmem].
  assert (forall n', LoadNode (UpsertReplica s n replica) n' =
    if decide (n = n') then (LoadNode s n) <| ps_Replicas := upserted replica (ps_Replicas (LoadNode s n)) |> else LoadNode s n') as Hload.
  { intros n'. unfold UpsertReplica. by rw LoadNode_set. }
  apply (represents_local_replicas d _ s _ n (persisted_slot replica) (Some replica)); try done.
  - intros n'. rw Hload. by destruct (decide (n = n')) as [<-|Hnn].
  - by rw Hload decide_True.
  - rw Hload decide_True //. cbn. pose proof (rl_values _ _ Hrep n) as Hvals. rw Forall_forall in Hvals.
    apply Forall_forall. intros r [->|[Hin _]]%Hmem; [done|by apply Hvals].
  - intros slot'. rw Hload decide_True //. cbn. by apply find_slot_upserted.
  - intros key. cbn. rw Hv. destruct (decide _) as [<-|Hk]; [apply lookup_insert_eq|by apply lookup_insert_ne].
Qed.

Lemma sim_local_DeleteReplica d s n slot :
  represents_local d s -> node_ok n -> int_range slot ->
  exists d', Badger.local_DeleteReplica hook updf d n slot = Ok d' /\ represents_local d' (local_DeleteReplica s n slot) /\
    forall m, represents d m -> represents d' m.
Proof.
  intros Hrep Hn Hs. unfold Badger.local_DeleteReplica. rw writeSync_ok //. eexists. split; [done|].
  split; [|intros m Hm; apply rep_local_unset; [done|by left]].
  destruct (removed_spec slot _ (rl_lists _ _ Hrep n)) as [Hok Hfind].
  assert (forall n', LoadNode (local_DeleteReplica s n slot) n' =
    if decide (n = n') then (LoadNode s n) <| ps_Replicas := removed slot (ps_Replicas (LoadNode s n)) |> else LoadNode s n') as Hload.
  { intros n'. unfold local_DeleteReplica. destruct (s !! n) as [state|] eqn:Hstate; [rw LoadNode_set|]; destruct (decide (n = n')) as [<-|Hne];
      try done; unfold LoadNode; by rw Hstate. }
  apply (represents_local_replicas d _ s _ n slot None); try done.
  - intros n'. rw Hload. by destruct (decide (n = n')) as [<-|Hnn].
  - by rw Hload decide_True.
  - rw Hload decide_True //. cbn. pose proof (rl_values _ _ Hrep n) as Hvals. rw Forall_forall in Hvals.
    apply Forall_forall. intros r [Hin _]%elem_of_removed. by apply Hvals.
  - intros slot'. rw Hload decide_True //.
  - intros key. destruct (decide _) as [<-|Hk]; [apply lookup_delete_eq|by apply lookup_delete_ne].
Qed.

Lemma sim_SetEpoch d s n epoch : represents_local d s -> node_ok n -> uint64_range epoch ->
  exists d', Badger.SetHighestAcceptedCoordinatorEpoch hook updf d n epoch = Ok d' /\
    represents_local d' (SetHighestAcceptedCoordinatorEpoch s n epoch) /\ forall m, represents d m -> represents d' m.
Proof.
  intros Hrep Hn He. unfold Badger.SetHighestAcceptedCoordinatorEpoch. rw writeSync_ok //. eexists. split; [done|].
  split; [|intros m Hm; apply rep_local_set; [done|by right]].
  assert (forall n', LoadNode (SetHighestAcceptedCoordinatorEpoch s n epoch) n' =
    if decide (n = n') then (LoadNode s n) <| ps_HighestAcceptedCoordinatorEpoch := epoch |> else LoadNode s n') as Hload.
  { intros n'. unfold SetHighestAcceptedCoordinatorEpoch. by rw LoadNode_set. }
  destruct Hrep as [R1 R2 R3 R4 R5 R6]. split.
  - intros n' slot' Hn' Hs'. rw lookup_insert_ne // Hload R1 //. by destruct (decide (n = n')) as [<-|].
  - intros n' Hn'. rw Hload. destruct (decide (n = n')) as [<-|Hne]; [cbn; split; [done|left; apply lookup_insert_eq]|].
    rw lookup_insert_ne; [intros Heq; by apply Hne, localNodeMetaKey_inj|]. by apply R2.
  - intros key [v Hv] Hk. apply R3; [|done]. rw lookup_insert_ne in Hv; [by intros <-|]. by exists v.
  - intros n'. rw Hload. destruct (decide (n = n')) as [<-|]; apply R4.
  - intros n'. rw Hload. destruct (decide (n = n')) as [<-|]; apply R5.
  - intros n'. rw Hload. destruct (decide (n = n')) as [<-|]; apply R6.
Qed.
End local.
