(* ===== verification/SlotMessages.v ===== *)
(** * The messages of a slot owner (src/storage/slot_owner.go)

    How an owner answers the messages of its neighbours and the completions of
    what it has started: forwards, commit advances, the journal's answers to
    prepares and commit ranges, replays to the predecessor and the successor,
    and the draining of what it had to buffer.  [ownerRuntime] adds to the
    slot's runtime the flags of what is in flight; everything an owner starts or
    answers is appended to [or_effects], and each completion is a handler of its
    own that is given what the effect carried.

    [journalCommitted] is the commit mark of the journal engine for the slot,
    which the owner consults; it does not change during a handler.  A submission
    that is refused at once is an effect whose completion is that error.
    Metrics, traces and breadcrumbs are left out. *)

From S2P Require Import Prelude.
From S2P Require Import StorageTypes.
From S2P Require Import SlotReducer.
From S2P Require Import SlotOwner.
From S2P Require Import SlotLifecycle.
From S2P Require Import Journal.
From S2P Require Import Backend.
From S2P Require Import Materializer.

Open Scope Z_scope.
Open Scope record_scope.

Module Owner.

(** ** State *)
Inductive acceptedCommitStage :=
| acceptedCommitWaitingForTurn
| acceptedCommitDurableInFlight
| acceptedCommitDurableCompleteWaiting
| acceptedCommitApplied.

#[export] Instance acceptedCommitStage_eq_dec : EqDecision acceptedCommitStage.
Proof. solve_decision. Defined.

(** A reply channel is a number, a waiter the channel it is answered on. *)
Record acceptedCommitEntry := {
  ace_request : CommitWriteRequest;
  ace_stage : acceptedCommitStage;
  ace_strict : bool;
  ace_waiters : list nat;
}.

(** What [startPreparedForwardPipeline] is to do when the prepare and the
    forward are both done: the head releases its client's waiter on an error, a
    replica answers its predecessor. *)
Inductive pipeline_done :=
| DoneSubmit (sequence : Z)
| DoneForward (resp : option nat).

Record prepareForwardPipeline := {
  pl_prepareDone : bool;
  pl_forwardDone : bool;
  pl_finished : bool;
  pl_operation : WriteOperation;
  pl_onComplete : pipeline_done;
}.

Record predecessorSyncPlan := {
  plan_sourceNodeID : string;
  plan_sourceTarget : string;
  plan_chainVersion : Z;
  plan_currentHighest : Z;
}.

(** The [afterPrepare] of a prepare, and what a forward was sent for. *)
Inductive after_prepare :=
| AfterSubmit (sequence : Z)
| AfterForward (resp : option nat)
| AfterPipeline (pipeline : nat).

Inductive after_forward :=
| ForwardPipeline (pipeline : nat) (assignment : ReplicaAssignment)
| ForwardReplay (sequence : Z) (assignment : ReplicaAssignment).

Inductive owner_effect :=
| EffReply (resp : nat) (result : res storage_error unit)
| EffWaiter (sequence : Z) (result : res storage_error unit)
| EffPrepare (prepare : DurableCommit) (after : after_prepare)
| EffForward (target : string) (req : ForwardWriteRequest) (after : after_forward)
| EffHeadCommitRange (assignment : ReplicaAssignment) (ready : Z)
| EffCommitAdvance (target : string) (req : CommitAdvanceRequest) (assignment : ReplicaAssignment)
| EffConfirm (assignment : ReplicaAssignment) (sequence : Z)
| EffMaterialize (commits : list DurableCommit)
| EffFetchSnapshot (plan : predecessorSyncPlan)
| EffDrain
| EffReplayTimer.

Record ownerRuntime := {
  or_rt : slotRuntime;
  or_acceptedCommits : gmap Z acceptedCommitEntry;
  or_commitEffectInFlight : bool;
  or_commitEffectSequence : Z;
  or_highestWatermarkSent : Z;
  or_upstreamCommitInFlight : bool;
  or_upstreamCommitHighSent : Z;
  or_preparedReplayRetryScheduled : bool;
  or_catchupSyncInFlight : bool;
  or_drainScheduled : bool;
  or_pipelines : list prepareForwardPipeline;
  or_effects : list owner_effect;
}.

#[export] Instance ownerRuntime_rebuild : Rebuild ownerRuntime := fun o =>
  {| or_rt := or_rt o; or_acceptedCommits := or_acceptedCommits o;
     or_commitEffectInFlight := or_commitEffectInFlight o; or_commitEffectSequence := or_commitEffectSequence o;
     or_highestWatermarkSent := or_highestWatermarkSent o; or_upstreamCommitInFlight := or_upstreamCommitInFlight o;
     or_upstreamCommitHighSent := or_upstreamCommitHighSent o;
     or_preparedReplayRetryScheduled := or_preparedReplayRetryScheduled o;
     or_catchupSyncInFlight := or_catchupSyncInFlight o; or_drainScheduled := or_drainScheduled o;
     or_pipelines := or_pipelines o; or_effects := or_effects o |}.

(** An owner around a slot's runtime with nothing in flight. *)
Definition new_owner (rt : slotRuntime) : ownerRuntime :=
  {| or_rt := rt; or_acceptedCommits := ∅; or_commitEffectInFlight := false; or_commitEffectSequence := 0;
     or_highestWatermarkSent := 0; or_upstreamCommitInFlight := false; or_upstreamCommitHighSent := 0;
     or_preparedReplayRetryScheduled := false; or_catchupSyncInFlight := false; or_drainScheduled := false;
     or_pipelines := []; or_effects := [] |}.

Abbreviation record_of o := (own_record (or_rt o)).
Abbreviation peers_of o := (asg_Peers (rr_assignment (own_record (or_rt o)))).

Definition emit (effects : list owner_effect) (o : ownerRuntime) : ownerRuntime :=
  o <| or_effects := or_effects o ++ effects |>.

Definition reply (resp : option nat) (result : res storage_error unit) (o : ownerRuntime) : ownerRuntime :=
  match resp with None => o | Some resp => emit [EffReply resp result] o end.

(** ** The ledger of accepted commits *)
Definition entry_replies (err : res storage_error unit) (entry : acceptedCommitEntry) : list owner_effect :=
  (fun resp => EffReply resp err) <$> ace_waiters entry.

(** [releaseAcceptedCommitWaiters] with [deleteAcceptedCommit]. *)
Definition release_accepted (err : res storage_error unit) (o : ownerRuntime) (sequence : Z) : ownerRuntime :=
  match or_acceptedCommits o !! sequence with
  | None => o
  | Some entry =>
      emit (entry_replies err entry) (o <| or_acceptedCommits := delete sequence (or_acceptedCommits o) |>)
  end.

(** The entries are visited in some fixed order of the map here; in Go the
    order is random. *)
Definition pruneAcceptedCommits (record : replicaRecord) (o : ownerRuntime) : ownerRuntime :=
  foldl (fun o '(sequence, entry) =>
    if (sequence <=? rr_highestCommittedSequence record)
       || bool_decide (ace_stage entry = acceptedCommitApplied)
    then release_accepted (Ok tt) o sequence else o)
    o (map_to_list (or_acceptedCommits o)).

Definition setRecord (record : replicaRecord) (o : ownerRuntime) : ownerRuntime :=
  pruneAcceptedCommits record
    (o <| or_rt := (or_rt o) <| own_exists := true |> <| own_record := record |> |>).

Definition acceptedCommitEntryWithStrict (sequence : Z) (req : CommitWriteRequest) (strict : bool)
    (o : ownerRuntime) : ownerRuntime * acceptedCommitEntry :=
  let entry := default {| ace_request := cloneCommitRequest req; ace_stage := acceptedCommitWaitingForTurn;
                          ace_strict := strict; ace_waiters := [] |} (or_acceptedCommits o !! sequence) in
  let entry := {| ace_request := ace_request entry; ace_stage := ace_stage entry;
                  ace_strict := strict || ace_strict entry; ace_waiters := ace_waiters entry |} in
  (o <| or_acceptedCommits := <[sequence := entry]> (or_acceptedCommits o) |>, entry).

Definition parkAcceptedCommitWaiter (sequence : Z) (resp : nat) (o : ownerRuntime) : ownerRuntime :=
  o <| or_acceptedCommits := alter (fun entry =>
      {| ace_request := ace_request entry; ace_stage := ace_stage entry; ace_strict := ace_strict entry;
         ace_waiters := ace_waiters entry ++ [resp] |}) sequence (or_acceptedCommits o) |>.

Definition syncAcceptedCommitsFromRecord (record : replicaRecord) (o : ownerRuntime) : ownerRuntime :=
  let fresh := map_imap (fun sequence req =>
    if (sequence <=? rr_highestCommittedSequence record) then None
    else Some {| ace_request := cloneCommitRequest req; ace_stage := acceptedCommitWaitingForTurn;
                 ace_strict := false; ace_waiters := [] |}) (rr_bufferedCommits record) in
  pruneAcceptedCommits record (o <| or_acceptedCommits := or_acceptedCommits o ∪ fresh |>).

(** The stage of the entries in a range, moved from one to another. *)
Definition move_stages (from to : acceptedCommitStage) (after upTo : Z) (o : ownerRuntime) : ownerRuntime :=
  o <| or_acceptedCommits := map_imap (fun sequence entry =>
      Some (if (after <? sequence) && (sequence <=? upTo) && bool_decide (ace_stage entry = from)
            then {| ace_request := ace_request entry; ace_stage := to; ace_strict := ace_strict entry;
                    ace_waiters := ace_waiters entry |}
            else entry)) (or_acceptedCommits o) |>.

(** ** Progression gaps *)
Definition enterProgressionGap (sequence : Z) (o : ownerRuntime) : ownerRuntime :=
  if sequence =? 0 then o
  else o <| or_rt := (or_rt o) <| own_progressionGap := true |> <| own_progressionGapSequence := sequence |> |>.

Definition clearProgressionGap (o : ownerRuntime) : ownerRuntime :=
  if own_progressionGap (or_rt o)
  then o <| or_rt := (or_rt o) <| own_progressionGap := false |> <| own_progressionGapSequence := 0 |> |>
  else o.

Definition clear_commit_effect (o : ownerRuntime) : ownerRuntime :=
  o <| or_commitEffectInFlight := false |> <| or_commitEffectSequence := 0 |>.

Section handlers.
Context (nodeID : string) (limits : slotProtocolBufferLimits).

(** ** Commits upstream *)
Definition ensureUpstreamCommitReplay (o : ownerRuntime) : ownerRuntime :=
  if negb (own_exists (or_rt o)) then o
  else
    let record := record_of o in
    let peers := asg_Peers (rr_assignment record) in
    let committedThrough := rr_highestCommittedSequence record in
    if String.eqb (PredecessorNodeID peers) "" then
      if rr_highestUpstreamConfirmedSequence record =? committedThrough then o
      else setRecord (record <| rr_highestUpstreamConfirmedSequence := committedThrough |>) o
    else if or_upstreamCommitInFlight o then o
    else if committedThrough <=? rr_highestUpstreamConfirmedSequence record then o
    else
      emit [EffCommitAdvance (peerTransportTarget (PredecessorTarget peers) (PredecessorNodeID peers))
              {| ca_Slot := own_slot (or_rt o); ca_CommittedThrough := committedThrough;
                 ca_FromNodeID := nodeID; ca_ChainVersion := asg_ChainVersion (rr_assignment record) |}
              (rr_assignment record)]
        (o <| or_upstreamCommitInFlight := true |> <| or_upstreamCommitHighSent := committedThrough |>).

Definition enqueueMaterializationUpTo (sequence : Z) (o : ownerRuntime) : ownerRuntime :=
  match materialization_commits (or_rt o) sequence with
  | [] => o
  | commits => emit [EffMaterialize commits] o
  end.

(** The client waiters of the sequence numbers from [seq] on, [n] of them, that
    a commit releases. *)
Definition released_waiters (record : replicaRecord) (n : nat) (seq : Z) : list owner_effect :=
  (fun s => EffWaiter s (Ok tt)) <$>
    List.filter (fun s => bool_decide (is_Some (rr_pendingWrites record !! s)))
      ((fun k => seq + Z.of_nat k) <$> List.seq 0 n).

Definition release_commits (record : replicaRecord) (n : nat) (o : ownerRuntime) : ownerRuntime :=
  let seq := rr_highestCommittedSequence record + 1 in
  foldl (release_accepted (Ok tt)) (emit (released_waiters record n seq) o)
    ((fun k => seq + Z.of_nat k) <$> List.seq 0 n).

(** ** Committing

    [drain] is [drainReadyBuffered], which the functions below are called from
    as well. *)
Section committing.
Context (drain : ownerRuntime -> ownerRuntime).

(** The loop of [applyCommitWatermark] is the one of the slot's runtime; it has
    gone through when the committed sequence is the one aimed at. *)
Definition applyCommitWatermark (sequence : Z) (o : ownerRuntime) : ownerRuntime :=
  let rt := or_rt o in
  let record := own_record rt in
  let committed := rr_highestCommittedSequence record in
  let reached := Z.min (Z.min sequence (rr_highestCommitTokenReceived record)) (rr_highestPreparedDurable record) in
  if negb (own_exists rt) || (sequence <=? committed) || (reached <=? committed) then o
  else
    let rt' := SlotOwner.applyCommitWatermark (perSlotLimit limits) rt sequence in
    if rr_highestCommittedSequence (own_record rt') =? reached then
      let o := release_commits record (Z.to_nat (reached - committed)) o in
      let o := if or_commitEffectInFlight o && negb (or_commitEffectSequence o =? 0)
                  && (or_commitEffectSequence o <=? reached)
               then clear_commit_effect o else o in
      let o := setRecord (own_record rt') (o <| or_rt := rt' |>) in
      drain (ensureUpstreamCommitReplay (enqueueMaterializationUpTo reached o))
    else
      release_commits record (Z.to_nat (own_progressionGapSequence rt' - 1 - committed)) o <| or_rt := rt' |>.

(** The range from [committed] to [ready] is handed to the journal. *)
Definition submit_head_range (assignment : ReplicaAssignment) (committed ready : Z) (o : ownerRuntime) : ownerRuntime :=
  let o := move_stages acceptedCommitWaitingForTurn acceptedCommitDurableInFlight committed ready o in
  emit [EffHeadCommitRange assignment ready]
    (o <| or_commitEffectInFlight := true |>
       <| or_commitEffectSequence := Z.max ready (or_commitEffectSequence o) |>
       <| or_highestWatermarkSent := ready |>).

Definition submitCommitWatermarkReady (record : replicaRecord) (o : ownerRuntime) : ownerRuntime :=
  let promote := String.eqb (SuccessorNodeID (asg_Peers (rr_assignment record))) "" &&
                 (rr_highestCommitTokenReceived record <? rr_highestPreparedDurable record) in
  let record := if promote
                then record <| rr_highestCommitTokenReceived := rr_highestPreparedDurable record |> else record in
  let o := if promote then setRecord record o else o in
  let ready := Z.min (rr_highestCommitTokenReceived record) (rr_highestPreparedDurable record) in
  let committed := rr_highestCommittedSequence record in
  match asg_Role (rr_assignment record) with
  | ReplicaRoleHead | ReplicaRoleSingle =>
      if (ready <=? committed) || (ready <=? or_highestWatermarkSent o) then o
      else submit_head_range (rr_assignment record) committed ready o
  | _ =>
      if committed <? ready then applyCommitWatermark ready o else ensureUpstreamCommitReplay o
  end.

(** The owner, and whether it made progress. *)
Definition reconcileDurableCommitProgress (journalCommitted : Z) (o : ownerRuntime) : ownerRuntime * bool :=
  let record := record_of o in
  if negb (own_exists (or_rt o)) || negb (or_commitEffectInFlight o) || (or_commitEffectSequence o =? 0)
     || (journalCommitted <? or_commitEffectSequence o)
  then (o, false)
  else
    let durable := Z.min (Z.min journalCommitted (rr_highestCommitTokenReceived record))
                     (rr_highestPreparedDurable record) in
    if durable <=? rr_highestCommittedSequence record then (clear_commit_effect o, true)
    else (applyCommitWatermark durable o, true).

(** The owner, and whether there is a gap. *)
Definition detectAcceptedCommitGap (journalCommitted : Z) (record : replicaRecord) (o : ownerRuntime)
    : ownerRuntime * bool :=
  let o := syncAcceptedCommitsFromRecord record o in
  let nextSequence := u64_add (rr_highestCommittedSequence record) 1 in
  if bool_decide (is_Some (or_acceptedCommits o !! nextSequence)) then (clearProgressionGap o, false)
  else if negb (or_commitEffectInFlight o) && bool_decide (or_acceptedCommits o = ∅)
  then (clearProgressionGap o, false)
  else if journalCommitted <? nextSequence then (clearProgressionGap o, false)
  else
    match reconcileDurableCommitProgress journalCommitted o with
    | (o, true) => (clearProgressionGap o, false)
    | (o, false) =>
        let o := enterProgressionGap nextSequence o in (o, own_progressionGap (or_rt o))
    end.

(** A round that is repeated has cleared the commit in flight or committed
    something.  [cut] stands for the rounds after the last one the fuel allows:
    the loop that goes on after it gives what [cut] makes of the owner, so that
    a loop that does not end depends on [cut] however much fuel it has. *)
Fixpoint advance_rounds (cut : ownerRuntime -> ownerRuntime) (fuel : nat) (journalCommitted : Z) (o : ownerRuntime)
    : ownerRuntime :=
  match fuel with
  | O => cut o
  | S fuel =>
      if negb (own_exists (or_rt o)) then o
      else
        let record := record_of o in
        let o := syncAcceptedCommitsFromRecord record o in
        match detectAcceptedCommitGap journalCommitted record o with
        | (o, true) => o
        | (o, false) =>
            match (if or_commitEffectInFlight o then reconcileDurableCommitProgress journalCommitted o
                   else (o, false)) with
            | (o, true) => advance_rounds cut fuel journalCommitted o
            | (o, false) =>
                let ready := Z.min (rr_highestCommitTokenReceived record) (rr_highestPreparedDurable record) in
                if (rr_highestCommittedSequence record <? ready) && (or_highestWatermarkSent o <? ready)
                then submitCommitWatermarkReady record o else o
            end
        end
  end.

(** What is durable and not committed bounds the rounds; the owner is never
    cut off within that bound ([drain_fuel_enough]). *)
Definition commit_backlog (o : ownerRuntime) : nat :=
  Z.to_nat (rr_highestPreparedDurable (record_of o) - rr_highestCommittedSequence (record_of o)).

Definition advanceAcceptedCommitProgress (cut : ownerRuntime -> ownerRuntime) (journalCommitted : Z) (o : ownerRuntime)
    : ownerRuntime :=
  advance_rounds cut (S (S (commit_backlog o))) journalCommitted o.
End committing.

(** ** Prepares and forwards *)
Definition startPrepareEffect (record : replicaRecord) (operation : WriteOperation) (after : after_prepare)
    (o : ownerRuntime) : ownerRuntime :=
  emit [EffPrepare {| dc_Operation := cloneWriteOperation operation; dc_Persisted := persistedReplica record;
                      dc_UpstreamConfirmedSequence := 0 |} after] o.

Definition forward_request (record : replicaRecord) (operation : WriteOperation) : ForwardWriteRequest :=
  {| fwd_Operation := cloneWriteOperation operation; fwd_FromNodeID := nodeID;
     fwd_ChainVersion := asg_ChainVersion (rr_assignment record) |}.

Definition scheduleDrainReadyBuffered (o : ownerRuntime) : ownerRuntime :=
  if or_drainScheduled o then o else emit [EffDrain] (o <| or_drainScheduled := true |>).

(** ** Catching up with the predecessor *)
Definition hasBufferedGap (o : ownerRuntime) : bool :=
  let record := record_of o in
  let nextSequence := u64_add (rr_highestCommittedSequence record) 1 in
  own_exists (or_rt o) && negb (String.eqb (PredecessorNodeID (peers_of o)) "") &&
  (existsb (fun sequence => nextSequence <? sequence) (map_to_list (rr_bufferedForwards record)).*1 ||
   existsb (fun sequence => nextSequence <? sequence) (map_to_list (rr_bufferedCommits record)).*1).

Definition buildPredecessorSyncPlan (o : ownerRuntime) : res storage_error (option predecessorSyncPlan) :=
  _ ← reject (negb (own_exists (or_rt o))) ErrUnknownReplica;
  let record := record_of o in
  Ok (if String.eqb (PredecessorNodeID (peers_of o)) "" then None
      else Some {| plan_sourceNodeID := PredecessorNodeID (peers_of o);
                   plan_sourceTarget := PredecessorTarget (peers_of o);
                   plan_chainVersion := asg_ChainVersion (rr_assignment record);
                   plan_currentHighest := rr_highestCommittedSequence record |}).

Definition ensureGapCatchup (o : ownerRuntime) : ownerRuntime :=
  if negb (hasBufferedGap o) || or_catchupSyncInFlight o then o
  else match buildPredecessorSyncPlan o with
       | Ok (Some plan) => emit [EffFetchSnapshot plan] (o <| or_catchupSyncInFlight := true |>)
       | _ => o
       end.

(** ** Pipelines

    [startPreparedForwardPipeline]: the pipeline is entered in the list, the
    prepare is started and the forward sent. *)
Definition dispatchForward (pipeline : nat) (operation : WriteOperation) (record : replicaRecord) (o : ownerRuntime)
    : ownerRuntime :=
  let peers := asg_Peers (rr_assignment record) in
  emit [EffForward (peerTransportTarget (SuccessorTarget peers) (SuccessorNodeID peers))
          (forward_request record operation) (ForwardPipeline pipeline (rr_assignment record))] o.

Definition startPreparedForwardPipeline (record : replicaRecord) (operation : WriteOperation)
    (onComplete : pipeline_done) (o : ownerRuntime) : ownerRuntime :=
  let pipeline := length (or_pipelines o) in
  let o := o <| or_pipelines := or_pipelines o ++
    [{| pl_prepareDone := false; pl_forwardDone := false; pl_finished := false;
        pl_operation := operation; pl_onComplete := onComplete |}] |> in
  dispatchForward pipeline operation record (startPrepareEffect record operation (AfterPipeline pipeline) o).

Definition applyForward (req : ForwardWriteRequest) (resp : option nat) (o : ownerRuntime) : ownerRuntime :=
  if negb (own_exists (or_rt o)) then reply resp (Err ErrUnknownReplica) o
  else
    let record := record_of o in
    if String.eqb (SuccessorNodeID (asg_Peers (rr_assignment record))) ""
    then startPrepareEffect record (fwd_Operation req) (AfterForward resp) o
    else startPreparedForwardPipeline record (fwd_Operation req) (DoneForward resp) o.

(** The variant for a forward that is acknowledged when it is prepared differs
    in the traces it leaves. *)
Definition applyForwardAccepted (req : ForwardWriteRequest) (resp : nat) (o : ownerRuntime) : ownerRuntime :=
  applyForward req (Some resp) o.

(** ** Draining *)
Definition drain_body (cut drain : ownerRuntime -> ownerRuntime) (journalCommitted : Z) (resp : option nat)
    (o : ownerRuntime) : ownerRuntime :=
  if negb (own_exists (or_rt o)) then reply resp (Ok tt) o
  else
    let o := (reconcileDurableCommitProgress drain journalCommitted o).1 in
    if negb (own_exists (or_rt o)) then reply resp (Ok tt) o
    else
      let o := advanceAcceptedCommitProgress drain cut journalCommitted o in
      if or_commitEffectInFlight o then reply resp (Ok tt) o
      else
        let record := record_of o in
        match rr_bufferedForwards record !! rr_nextSequence record with
        | Some req =>
            match reduceForwardWrite record req limits with
            | Ok {| red_Record := record; red_Action := slotReducerActionApply |} =>
                applyForward req resp (setRecord record o)
            | _ => reply resp (Ok tt) o
            end
        | None =>
            let nextCommit := u64_add (rr_highestCommittedSequence record) 1 in
            match rr_bufferedCommits record !! nextCommit with
            | Some req =>
                if reduceHasCommittableSequence record nextCommit then
                  let o := (acceptedCommitEntryWithStrict nextCommit req false o).1 in
                  reply resp (Ok tt) (advanceAcceptedCommitProgress drain cut journalCommitted o)
                else reply resp (Ok tt) (ensureGapCatchup o)
            | None => reply resp (Ok tt) (ensureGapCatchup o)
            end
        end.

(** The function calls itself through [applyCommitWatermark], each time after
    committing something; [cut] stands for the calls beyond the fuel. *)
Fixpoint drain_rounds (cut : ownerRuntime -> ownerRuntime) (fuel : nat) (journalCommitted : Z) (o : ownerRuntime)
    : ownerRuntime :=
  match fuel with
  | O => cut o
  | S fuel => drain_body cut (drain_rounds cut fuel journalCommitted) journalCommitted None o
  end.

Definition drain_again (journalCommitted : Z) (o : ownerRuntime) : ownerRuntime :=
  drain_rounds id (S (commit_backlog o)) journalCommitted o.

Definition drainReadyBuffered (journalCommitted : Z) (resp : option nat) (o : ownerRuntime) : ownerRuntime :=
  drain_body id (drain_again journalCommitted) journalCommitted resp o.

(** [drainReadyBuffered] as a scheduled completion. *)
Definition drainScheduled (journalCommitted : Z) (o : ownerRuntime) : ownerRuntime :=
  drainReadyBuffered journalCommitted None (o <| or_drainScheduled := false |>).

(** ** Messages

    In the handlers [journalCommitted] is the same number throughout. *)
Section messages.
Context (journalCommitted : Z).

Abbreviation drain := (drain_again journalCommitted).

Definition handleForwardWrite (req : ForwardWriteRequest) (resp : nat) (o : ownerRuntime) : ownerRuntime :=
  let o := (reconcileDurableCommitProgress drain journalCommitted o).1 in
  match replicationRecord (or_rt o) with
  | Err e => reply (Some resp) (Err e) o
  | Ok record =>
      if String.eqb (SuccessorNodeID (asg_Peers (rr_assignment record))) "" && or_commitEffectInFlight o
         && (op_Sequence (fwd_Operation req) =? rr_nextSequence record)
      then
        match reduceBufferFutureForward record req limits with
        | Err e => reply (Some resp) (Err e) o
        | Ok buffered => reply (Some resp) (Ok tt) (setRecord buffered o)
        end
      else
        match reduceForwardWrite record req limits with
        | Err e => reply (Some resp) (Err e) o
        | Ok reduction =>
            match red_Action reduction with
            | slotReducerActionIgnore => reply (Some resp) (Ok tt) o
            | slotReducerActionBuffer =>
                reply (Some resp) (Ok tt) (ensureGapCatchup (setRecord (red_Record reduction) o))
            | slotReducerActionApply => applyForward req (Some resp) (setRecord (red_Record reduction) o)
            end
        end
  end.

(** As [handleForwardWrite], except for [applyForwardAccepted]. *)
Definition handleForwardWriteAccepted (req : ForwardWriteRequest) (resp : nat) (o : ownerRuntime) : ownerRuntime :=
  handleForwardWrite req resp o.

(** Whether the message came over [AcceptCommitAdvance] only matters to the
    traces. *)
Definition handleCommitAdvanceRequest (req : CommitAdvanceRequest) (resp : nat) (o : ownerRuntime) : ownerRuntime :=
  let o := (reconcileDurableCommitProgress drain journalCommitted o).1 in
  match (record ← replicationRecord (or_rt o); _ ← validateCommitAdvanceSource record req; Ok record) with
  | Err e => reply (Some resp) (Err e) o
  | Ok record =>
      let raise := rr_highestCommitTokenReceived record <? ca_CommittedThrough req in
      let record := if raise then record <| rr_highestCommitTokenReceived := ca_CommittedThrough req |> else record in
      let o := if raise then setRecord record o else o in
      if ca_CommittedThrough req <=? rr_highestCommittedSequence record then reply (Some resp) (Ok tt) o
      else reply (Some resp) (Ok tt) (submitCommitWatermarkReady drain record o)
  end.

Definition mirrorAcceptedCommit (record : replicaRecord) (req : CommitWriteRequest) : res storage_error replicaRecord :=
  if cw_Sequence req <=? rr_highestCommittedSequence record then Ok record
  else reduceBufferFutureCommit record req limits.

Definition handleCommitAdvance (req : CommitAdvanceRequest) (resp : nat) (o : ownerRuntime) : ownerRuntime :=
  handleCommitAdvanceRequest req resp o.
Definition handleCommitAdvanceAccepted (req : CommitAdvanceRequest) (resp : nat) (o : ownerRuntime) : ownerRuntime :=
  handleCommitAdvanceRequest req resp o.

Definition handleCommitTokenRequest (req : CommitWriteRequest) (strict : bool) (resp : nat) (o : ownerRuntime)
    : ownerRuntime :=
  let o := (reconcileDurableCommitProgress drain journalCommitted o).1 in
  let sequence := cw_Sequence req in
  match (record ← replicationRecord (or_rt o); _ ← validateCommitSource record req; Ok record) with
  | Err e => reply (Some resp) (Err e) o
  | Ok record =>
      if sequence <=? rr_highestCommittedSequence record
      then reply (Some resp) (reduceHandlePastCommit record req) o
      else
        let '(o, entry) := acceptedCommitEntryWithStrict sequence req strict o in
        if negb (sameCommitRequest (ace_request entry) req) then reply (Some resp) (Err ErrProtocolConflict) o
        else
          match (if u64_add (rr_highestCommitTokenReceived record) 1 <? sequence
                 then mirrorAcceptedCommit record req else Ok record) with
          | Err e => reply (Some resp) (Err e) o
          | Ok record =>
              let record := ingestCommitToken record req in
              let o := setRecord record o in
              let o := if strict then parkAcceptedCommitWaiter sequence resp o else o in
              let o := submitCommitWatermarkReady drain record o in
              if strict then o else reply (Some resp) (Ok tt) o
          end
  end.

Definition handleCommitWrite (req : CommitWriteRequest) (resp : nat) (o : ownerRuntime) : ownerRuntime :=
  handleCommitTokenRequest req false resp o.
Definition handleCommitWriteAccepted (req : CommitWriteRequest) (resp : nat) (o : ownerRuntime) : ownerRuntime :=
  handleCommitTokenRequest req true resp o.

(** A client's write: the node's count of writes in flight and the answer are
    those of the slot's runtime. *)
Section submit.
Context (GetCommitted : Z -> string -> res storage_error (option CommittedObject)).

Definition handleSubmitWrite (climits : client_limits) (now nodeInFlight : Z) (kind : OperationKind)
    (key value : string) (conditions : WriteConditions) (o : ownerRuntime) : ownerRuntime * Z * submit_answer :=
  let '(rt, nodeInFlight, answer) :=
    SlotOwner.handleSubmitWrite GetCommitted climits now nodeInFlight (or_rt o) kind key value conditions in
  let o := o <| or_rt := rt |> in
  (match answer with
   | SubmitStaged _ _ effect =>
       let record := own_record rt in
       let o := pruneAcceptedCommits record o in
       match effect with
       | SubmitPrepare operation => startPrepareEffect record operation (AfterSubmit (op_Sequence operation)) o
       | SubmitPrepareAndForward operation _ =>
           startPreparedForwardPipeline record operation (DoneSubmit (op_Sequence operation)) o
       | SubmitFailed e => emit [EffWaiter (u64_sub (rr_nextSequence record) 1) (Err e)] o
       | SubmitNothing => o
       end
   | _ => o
   end, nodeInFlight, answer).
End submit.

(** ** Completions *)

(** The pipeline's [resolve]: with the prepare or the forward done, or an
    error, the last of them finishes it. *)
Definition pipeline_complete (done : pipeline_done) (result : res storage_error unit) (o : ownerRuntime) : ownerRuntime :=
  match done, result with
  | DoneSubmit sequence, Err e => emit [EffWaiter sequence (Err e)] o
  | DoneSubmit sequence, Ok _ =>
      if own_exists (or_rt o) then o else emit [EffWaiter sequence (Err ErrUnknownReplica)] o
  | DoneForward resp, Err e => reply resp (Err e) o
  | DoneForward resp, Ok _ =>
      if negb (own_exists (or_rt o)) then reply resp (Err ErrUnknownReplica) o
      else
        let record := record_of o in
        let o := if String.eqb (SuccessorNodeID (asg_Peers (rr_assignment record))) ""
                 then submitCommitWatermarkReady drain record o else o in
        scheduleDrainReadyBuffered (reply resp (Ok tt) o)
  end.

Definition resolve (pipeline : nat) (prepareDone : bool) (result : res storage_error unit) (o : ownerRuntime)
    : ownerRuntime :=
  match or_pipelines o !! pipeline with
  | None => o
  | Some p =>
      if pl_finished p then o
      else
        let prepared := pl_prepareDone p || (is_ok result && prepareDone) in
        let forwarded := pl_forwardDone p || (is_ok result && negb prepareDone) in
        let finished := negb (is_ok result) || (prepared && forwarded) in
        let o := o <| or_pipelines := <[pipeline :=
          {| pl_prepareDone := prepared; pl_forwardDone := forwarded; pl_finished := finished;
             pl_operation := pl_operation p; pl_onComplete := pl_onComplete p |}]> (or_pipelines o) |> in
        if finished then pipeline_complete (pl_onComplete p) result o else o
  end.

Definition afterPrepare (after : after_prepare) (result : res storage_error unit) (o : ownerRuntime) : ownerRuntime :=
  match after with
  | AfterSubmit sequence => match result with Err e => emit [EffWaiter sequence (Err e)] o | Ok _ => o end
  | AfterForward resp =>
      match result with
      | Err e => reply resp (Err e) o
      | Ok _ => scheduleDrainReadyBuffered (reply resp (Ok tt) (submitCommitWatermarkReady drain (record_of o) o))
      end
  | AfterPipeline pipeline => resolve pipeline true result o
  end.

(** The journal's answer to a prepare. *)
Definition prepareCompleted (prepare : DurableCommit) (after : after_prepare) (result : res storage_error unit)
    (o : ownerRuntime) : ownerRuntime :=
  let o :=
    if is_ok result && own_exists (or_rt o) then
      let record := record_of o in
      let current := prepareDurable record (dc_Operation prepare) in
      let changed := (rr_highestPreparedDurable record <? op_Sequence (dc_Operation prepare))
        || (String.eqb (SuccessorNodeID (asg_Peers (rr_assignment record))) "" &&
            (rr_highestCommitTokenReceived record <? op_Sequence (dc_Operation prepare))) in
      submitCommitWatermarkReady drain current (if changed then setRecord current o else o)
    else o in
  afterPrepare after result o.

(** The journal's answer to a head commit range. *)
Definition headCommitRangeCompleted (ready : Z) (result : res storage_error unit) (o : ownerRuntime) : ownerRuntime :=
  match result with
  | Ok _ => applyCommitWatermark drain ready o
  | Err _ =>
      let committed := rr_highestCommittedSequence (record_of o) in
      let o := if or_highestWatermarkSent o =? ready then o <| or_highestWatermarkSent := committed |> else o in
      let o := if or_commitEffectSequence o <=? ready then clear_commit_effect o else o in
      move_stages acceptedCommitDurableInFlight acceptedCommitWaitingForTurn committed ready o
  end.

Definition same_successor (a b : ReplicaAssignment) : bool :=
  (asg_ChainVersion a =? asg_ChainVersion b) &&
  String.eqb (SuccessorNodeID (asg_Peers a)) (SuccessorNodeID (asg_Peers b)) &&
  String.eqb (SuccessorTarget (asg_Peers a)) (SuccessorTarget (asg_Peers b)).

Definition schedulePreparedForwardReplayRetry (o : ownerRuntime) : ownerRuntime :=
  if negb (own_exists (or_rt o)) || or_preparedReplayRetryScheduled o
     || String.eqb (SuccessorNodeID (peers_of o)) ""
     || (rr_highestPreparedDurable (record_of o) <=? rr_highestCommittedSequence (record_of o))
  then o else emit [EffReplayTimer] (o <| or_preparedReplayRetryScheduled := true |>).

(** The answer to a forward: of a pipeline, which follows a successor that has
    changed meanwhile, or of a replay. *)
Definition forwardCompleted (req : ForwardWriteRequest) (after : after_forward) (result : res storage_error unit)
    (o : ownerRuntime) : ownerRuntime :=
  match after with
  | ForwardPipeline pipeline assignment =>
      match result with
      | Err e => resolve pipeline false (Err e) o
      | Ok _ =>
          if negb (own_exists (or_rt o)) then resolve pipeline false (Err ErrUnknownReplica) o
          else
            let latest := record_of o in
            if String.eqb (SuccessorNodeID (asg_Peers (rr_assignment latest))) ""
               || same_successor (rr_assignment latest) assignment
            then resolve pipeline false (Ok tt) o
            else dispatchForward pipeline (fwd_Operation req) latest o
      end
  | ForwardReplay sequence assignment =>
      match result with
      | Ok _ => drainReadyBuffered journalCommitted None o
      | Err _ =>
          if own_exists (or_rt o) && same_successor (rr_assignment (record_of o)) assignment
             && (rr_highestCommittedSequence (record_of o) <? sequence)
          then schedulePreparedForwardReplayRetry o else o
      end
  end.

(** The loop of [replayPreparedForwards] over [n] sequence numbers. *)
Fixpoint replay_requests (n : nat) (record : replicaRecord) (sequence : Z) : list owner_effect :=
  match n with
  | O => []
  | S n =>
      match rr_preparedEntries record !! sequence with
      | None => []
      | Some operation =>
          let peers := asg_Peers (rr_assignment record) in
          EffForward (peerTransportTarget (SuccessorTarget peers) (SuccessorNodeID peers))
            (forward_request record operation) (ForwardReplay sequence (rr_assignment record))
          :: replay_requests n record (u64_add sequence 1)
      end
  end.

Definition replayPreparedForwards (o : ownerRuntime) : ownerRuntime :=
  let record := record_of o in
  let committed := rr_highestCommittedSequence record in
  let high := rr_highestPreparedDurable record in
  if negb (own_exists (or_rt o)) || String.eqb (SuccessorNodeID (peers_of o)) "" || (high <=? committed) then o
  else emit (replay_requests (Z.to_nat (high - committed)) record (u64_add committed 1))
         (o <| or_preparedReplayRetryScheduled := false |>).

Definition replayTimerFired (o : ownerRuntime) : ownerRuntime :=
  replayPreparedForwards (o <| or_preparedReplayRetryScheduled := false |>).

Definition assignmentMatchesReplayTarget (record : replicaRecord) (assignment : ReplicaAssignment) : bool :=
  (asg_ChainVersion (rr_assignment record) =? asg_ChainVersion assignment) &&
  String.eqb (PredecessorNodeID (asg_Peers (rr_assignment record))) (PredecessorNodeID (asg_Peers assignment)) &&
  String.eqb (PredecessorTarget (asg_Peers (rr_assignment record))) (PredecessorTarget (asg_Peers assignment)).

(** The predecessor's answer to a commit advance. *)
Definition commitAdvanceCompleted (req : CommitAdvanceRequest) (assignment : ReplicaAssignment)
    (result : res storage_error unit) (o : ownerRuntime) : ownerRuntime :=
  let committedThrough := ca_CommittedThrough req in
  let o := o <| or_upstreamCommitInFlight := false |> in
  match result with
  | Err _ => if committedThrough <=? or_upstreamCommitHighSent o then o <| or_upstreamCommitHighSent := 0 |> else o
  | Ok _ =>
      if negb (own_exists (or_rt o)) then o
      else
        let current := record_of o in
        let confirmed := rr_highestUpstreamConfirmedSequence current in
        if negb (assignmentMatchesReplayTarget current assignment) then
          ensureUpstreamCommitReplay
            (if confirmed <? committedThrough then o <| or_upstreamCommitHighSent := confirmed |> else o)
        else
          ensureUpstreamCommitReplay
            (if confirmed <? committedThrough
             then emit [EffConfirm (rr_assignment current) committedThrough]
                    (setRecord (current <| rr_highestUpstreamConfirmedSequence := committedThrough |>) o)
             else o)
  end.

(** ** A predecessor's snapshot

    The dirty index is rebuilt from the writes and forwards that are left. *)
Definition after_sequence {V} (highest : Z) (m : gmap Z V) : gmap Z V :=
  map_imap (fun sequence v => if sequence <=? highest then None else Some v) m.

Definition reduceSyncedPredecessorState (record : replicaRecord) (highest : Z) : replicaRecord :=
  let next := u64_add highest 1 in
  let record :=
    record <| rr_highestCommittedSequence := highest |> <| rr_highestPreparedDurable := highest |>
           <| rr_highestCommitTokenReceived := highest |> <| rr_materializedCommittedSequence := highest |>
           <| rr_highestUpstreamConfirmedSequence := highest |>
           <| rr_nextSequence := Z.max next (rr_nextSequence record) |>
           <| rr_pendingWrites := after_sequence highest (rr_pendingWrites record) |>
           <| rr_stagedForwards := after_sequence highest (rr_stagedForwards record) |>
           <| rr_bufferedForwards := after_sequence highest (rr_bufferedForwards record) |>
           <| rr_bufferedCommits := after_sequence highest (rr_bufferedCommits record) |>
           <| rr_dirtyByKey := ∅ |> <| rr_committedOverlay := ∅ |> in
  let record := foldl (fun r '(_, pending) =>
    match pending_operation pending with Some operation => reduceAddDirtyEntry r operation | None => r end)
    record (map_to_list (rr_pendingWrites record)) in
  foldl (fun r '(_, staged) => reduceAddDirtyEntry r (fwd_Operation staged)) record
    (map_to_list (rr_stagedForwards record)).

(** The backend and the local store answer [InstallSnapshot],
    [SetHighestCommittedSequence] and [UpsertReplica].  The slot is dropped from
    the journal engine meanwhile, so the commit mark is 0 afterwards. *)
Definition applyFetchedPredecessorSnapshot (InstallSnapshot SetHighestCommittedSequence : res storage_error unit)
    (UpsertReplica : PersistedReplica -> res storage_error unit) (plan : predecessorSyncPlan) (highest : Z)
    (o : ownerRuntime) : ownerRuntime * Z * res storage_error unit :=
  let record := record_of o in
  if negb (own_exists (or_rt o))
     || negb ((asg_ChainVersion (rr_assignment record) =? plan_chainVersion plan)
              && String.eqb (PredecessorNodeID (peers_of o)) (plan_sourceNodeID plan)
              && String.eqb (PredecessorTarget (peers_of o)) (plan_sourceTarget plan))
     || (highest <=? rr_highestCommittedSequence record)
  then (o, journalCommitted, Ok tt)
  else
    match InstallSnapshot with
    | Err e => (o, 0, Err e)
    | Ok _ =>
        let o := o <| or_rt := (or_rt o) <| own_committedMetadata := ∅ |> |> in
        match SetHighestCommittedSequence with
        | Err e => (o, 0, Err e)
        | Ok _ =>
            let record := reduceSyncedPredecessorState record highest in
            (setRecord record o, 0, UpsertReplica (persistedReplica record))
        end
    end.

(** The completion of [ensureGapCatchup]; a snapshot that is not newer than the
    plan is not applied. *)
Definition snapshotFetched (InstallSnapshot SetHighestCommittedSequence : res storage_error unit)
    (UpsertReplica : PersistedReplica -> res storage_error unit) (plan : predecessorSyncPlan)
    (result : res storage_error Z) (o : ownerRuntime) : ownerRuntime :=
  let o := o <| or_catchupSyncInFlight := false |> in
  match result with
  | Err _ => o
  | Ok highest =>
      let highest := if highest <=? plan_currentHighest plan then 0 else highest in
      if 0 <? highest then
        match applyFetchedPredecessorSnapshot InstallSnapshot SetHighestCommittedSequence UpsertReplica plan highest o with
        | (o, _, Err _) => o
        | (o, journalCommitted, Ok _) => drainReadyBuffered journalCommitted None o
        end
      else drainReadyBuffered journalCommitted None o
  end.

(** ** Flow control *)
Definition slotPrepareWindow : Z := 32.
Definition slotCommitTokenWindow : Z := 16.

Inductive credit_kind := CreditForward | CreditCommit | CreditCommitAdvance | CreditOther.

Definition replicationAvailableCredit (kind : credit_kind) (o : ownerRuntime) : Z :=
  if negb (own_exists (or_rt o)) || own_progressionGap (or_rt o) then 0
  else
    let record := record_of o in
    let available := perSlotLimit limits - reduceTotalBufferedMessages record in
    let available :=
      match kind with
      | CreditForward =>
          Z.min available (slotPrepareWindow
            - i64 (u64_sub (u64_sub (rr_nextSequence record) 1) (rr_highestPreparedDurable record)))
      | CreditCommit =>
          Z.min available (slotCommitTokenWindow
            - i64 (u64_sub (rr_highestCommitTokenReceived record) (rr_highestCommittedSequence record)))
      | CreditCommitAdvance => if or_upstreamCommitInFlight o then 0 else if 1 <? available then 1 else available
      | CreditOther => available
      end in
    let available := if 0 <? perNodeLimit limits
                     then Z.min available (perNodeLimit limits - nodeBufferedNow limits) else available in
    Z.max 0 available.
End messages.
End handlers.
End Owner.
