(* ===== verification/SlotCommands.v ===== *)
(** * The coordinator's commands at a slot owner (src/storage/slot_owner.go)

    Adding a replica as tail, activating it, telling it its peers, letting it
    leave, removing, resuming, recovering and dropping it: the whole commands,
    with what they do to the owner, to the backend, to the journal engine and to
    the store of the node's replicas.  A command runs in the goroutine of the
    owner; what other nodes and the coordinator answer, and whether the local
    store fails, are arguments. *)

From S2P Require Import Prelude.
From S2P Require Import CoordTypes.
From S2P Require Import StorageTypes.
From S2P Require Import SlotReducer.
From S2P Require Import SlotOwner.
From S2P Require Import SlotLifecycle.
From S2P Require Import Journal.
From S2P Require Import JournalShard.
From S2P Require Import Backend.
From S2P Require Import Materializer.
From S2P Require Import SlotMessages.
From S2P Require Import Recovery.
From S2P Require Import Node.

Open Scope Z_scope.
Open Scope record_scope.

Module OwnerCommands.
Import Owner.

(** ** The backend's side

    What the commands ask of a backend beyond [Backend]; an operation that fails
    may have changed it. *)
Class ReplicaBackend (B : Type) := {
  replica_Create : B -> Z -> B * res storage_error unit;
  replica_Delete : B -> Z -> B * res storage_error unit;
  replica_InstallSnapshot : B -> Z -> Snapshot -> B * res storage_error unit;
  replica_SetHighestCommittedSequence : B -> Z -> Z -> B * res storage_error unit;
  replica_StagedSequences : B -> Z -> res storage_error (list Z);
}.

(** An operation that fails without a trace. *)
Definition or_unchanged {B} (b : B) (r : res storage_error B) : B * res storage_error unit :=
  match r with Ok b => (b, Ok tt) | Err e => (b, Err e) end.

#[export] Instance InMemoryBackend_replicas : ReplicaBackend InMemoryBackend := {
  replica_Create b slot := or_unchanged b (CreateReplica b slot);
  replica_Delete b slot := or_unchanged b (DeleteReplica b slot);
  replica_InstallSnapshot b slot snapshot := or_unchanged b (InstallSnapshot b slot snapshot);
  replica_SetHighestCommittedSequence b slot sequence := or_unchanged b (SetHighestCommittedSequence b slot sequence);
  replica_StagedSequences := StagedSequences;
}.

(** ** The host of a slot

    [sh_materializer] is that of the journal shard of the slot; [sh_evicted]
    that the owner has been taken out of the node's table and closed. *)
Record slot_host (B : Type) := {
  sh_slot : Z;
  sh_backend : B;
  sh_marks : engine_marks;
  sh_materializer : commitMaterializer;
  sh_local : local_store;
  sh_owner : ownerRuntime;
  sh_evicted : bool;
}.
Arguments sh_slot {B}. Arguments sh_backend {B}. Arguments sh_marks {B}. Arguments sh_materializer {B}.
Arguments sh_local {B}. Arguments sh_owner {B}. Arguments sh_evicted {B}.

#[export] Instance slot_host_rebuild B : Rebuild (slot_host B) := fun h =>
  {| sh_slot := sh_slot h; sh_backend := sh_backend h; sh_marks := sh_marks h; sh_materializer := sh_materializer h;
     sh_local := sh_local h; sh_owner := sh_owner h; sh_evicted := sh_evicted h |}.

(** A command changes the host also when it fails. *)
Definition command (B A : Type) : Type := slot_host B -> slot_host B * res storage_error A.

#[export] Instance command_ret B : MRet (command B) := fun A a h => (h, Ok a).
#[export] Instance command_bind B : MBind (command B) := fun A C k m h =>
  match m h with (h, Ok a) => k a h | (h, Err e) => (h, Err e) end.

Section commands.
Context {B : Type} `{Backend B} `{ReplicaBackend B}.

Definition refuse {A} (e : storage_error) : command B A := fun h => (h, Err e).
Definition refuse_if (b : bool) (e : storage_error) : command B unit := fun h => (h, reject b e).
Definition answered {A} (r : res storage_error A) : command B A := fun h => (h, r).
Definition owner_of : command B ownerRuntime := fun h => (h, Ok (sh_owner h)).
Definition slot_of : command B Z := fun h => (h, Ok (sh_slot h)).
Definition update_owner (f : ownerRuntime -> ownerRuntime) : command B unit := fun h =>
  (h <| sh_owner := f (sh_owner h) |>, Ok tt).
Definition on_backend (op : B -> B * res storage_error unit) : command B unit := fun h =>
  let '(b, r) := op (sh_backend h) in (h <| sh_backend := b |>, r).

(** [cleanup] runs when the command fails, whatever comes of it. *)
Definition undo_with {A} (cleanup : command B unit) (m : command B A) : command B A := fun h =>
  match m h with (h, Err e) => ((cleanup h).1, Err e) | answer => answer end.

(** *** The journal engine *)
Definition allowSlot (slot : Z) : command B unit := fun h =>
  (h <| sh_materializer := control_slot (sh_materializer h) slot true |>, Ok tt).

Definition dropSlot (slot : Z) : command B unit := fun h =>
  (h <| sh_marks := {| highWater := delete slot (highWater (sh_marks h));
                       prepareHigh := delete slot (prepareHigh (sh_marks h)) |} |>
     <| sh_materializer := control_slot (sh_materializer h) slot false |>, Ok tt).

Definition durableCommittedSequence (slot : Z) (h : slot_host B) : Z := default 0 (highWater (sh_marks h) !! slot).

(** *** The owner's record *)
Definition host_setRecord (record : replicaRecord) : command B unit := fun h =>
  let wasMissing := negb (own_exists (or_rt (sh_owner h))) in
  let h := h <| sh_owner := setRecord record (sh_owner h) |> in
  if wasMissing then allowSlot (sh_slot h) h else (h, Ok tt).

Definition clearCommittedMetadata : command B unit :=
  update_owner (fun o => o <| or_rt := (or_rt o) <| own_committedMetadata := ∅ |> |>).

Definition clearAcceptedCommits (err : storage_error) (o : ownerRuntime) : ownerRuntime :=
  foldl (release_accepted (Err err)) o (map_to_list (or_acceptedCommits o)).*1.

Definition owner_removeRecord (o : ownerRuntime) : ownerRuntime :=
  clearAcceptedCommits ErrContextCanceled (o <| or_rt := removeRecord (or_rt o) |>)
    <| or_upstreamCommitHighSent := 0 |> <| or_preparedReplayRetryScheduled := false |>.

Definition evictSlotOwner : command B unit := fun h => (h <| sh_evicted := true |>, Ok tt).

(** ** What is read of an owner *)
Definition handleCommittedSnapshotWithSequence (h : slot_host B) : res storage_error (Snapshot * Z) :=
  snapshot ← CommittedSnapshot (sh_backend h) (sh_slot h);
  Ok (committedSnapshotWithSequence (or_rt (sh_owner h)) snapshot).

Definition handleStagedSequences (h : slot_host B) : res storage_error (list Z) :=
  let record := record_of (sh_owner h) in
  _ ← reject (negb (own_exists (or_rt (sh_owner h)))) ErrUnknownReplica;
  let unique : gset Z := dom (rr_pendingWrites record) ∪ dom (rr_stagedForwards record) in
  match replica_StagedSequences (sh_backend h) (sh_slot h) with
  | Ok sequences => Ok (isort Z.leb (elements (unique ∪ list_to_set sequences)))
  | Err ErrUnknownReplica => Ok (isort Z.leb (elements unique))
  | Err e => Err e
  end.

Definition handleBufferedForwardSequences (h : slot_host B) : res storage_error (list Z) :=
  _ ← reject (negb (own_exists (or_rt (sh_owner h)))) ErrUnknownReplica;
  Ok (isort Z.leb (map_to_list (rr_bufferedForwards (record_of (sh_owner h)))).*1).

Definition handleBufferedCommitSequences (h : slot_host B) : res storage_error (list Z) :=
  _ ← reject (negb (own_exists (or_rt (sh_owner h)))) ErrUnknownReplica;
  Ok (isort Z.leb (map_to_list (rr_bufferedCommits (record_of (sh_owner h)))).*1).

(** ** The commands *)
Section node.
Context (nodeID : string) (limits : slotProtocolBufferLimits).
Context (upsert_fails : PersistedReplica -> option storage_error) (delete_fails : option storage_error).

Definition host_persistReplica (record : replicaRecord) : command B unit := fun h =>
  match upsert_fails (persistedReplica record) with
  | Some e => (h, Err e)
  | None => (h <| sh_local := UpsertReplica (sh_local h) nodeID (persistedReplica record) |>, Ok tt)
  end.

Definition delete_local (slot : Z) : command B unit := fun h =>
  match delete_fails with
  | Some e => (h, Err e)
  | None => (h <| sh_local := local_DeleteReplica (sh_local h) nodeID slot |>, Ok tt)
  end.

(** *** Adding *)
Definition persistedReplicaMatchesAssignment (state : PersistedNodeState) (assignment : ReplicaAssignment) : bool :=
  match List.find (fun replica => persisted_slot replica =? asg_Slot assignment) (ps_Replicas state) with
  | Some replica =>
      bool_decide (pr_Assignment replica = assignment) && negb (bool_decide (pr_LastKnownState replica = StateRemoved))
  | None => false
  end.

(** What the loop of [waitForReplicaCreationReplay] finds in each round. *)
Record replay_look := {
  look_expired : bool;
  look_published : option publishedReplicaSnapshot;
  look_persisted : res storage_error PersistedNodeState;
}.

Definition look_matches (assignment : ReplicaAssignment) (look : replay_look) : bool :=
  match look_published look with
  | Some existing =>
      bool_decide (pub_assignment existing = assignment) && negb (bool_decide (pub_state existing = StateRemoved))
  | None => false
  end ||
  match look_persisted look with
  | Ok persisted => persistedReplicaMatchesAssignment persisted assignment
  | Err _ => false
  end.

Fixpoint wait_replay (attempts : nat) (looks : list replay_look) (assignment : ReplicaAssignment) : bool :=
  match attempts, looks with
  | S attempts, look :: looks =>
      if look_expired look then false else look_matches assignment look || wait_replay attempts looks assignment
  | _, _ => false
  end.

Definition waitForReplicaCreationReplay (looks : list replay_look) (assignment : ReplicaAssignment) : bool :=
  wait_replay 64 looks assignment.

Definition pendingRecord (assignment : ReplicaAssignment) : replicaRecord :=
  emptyRecord <| rr_assignment := assignment |> <| rr_nextSequence := 1 |> <| rr_localDataPresent := true |>.

(** The backend's copy of the slot is replaced. *)
Definition install_snapshot (slot : Z) (snapshot : Snapshot) (highest : Z) : command B unit :=
  _ ← on_backend (fun b => replica_InstallSnapshot b slot snapshot);
  _ ← clearCommittedMetadata;
  on_backend (fun b => replica_SetHighestCommittedSequence b slot highest).

(** The predecessor's state, and whether it is empty; [fetched] is what the
    predecessor answers. *)
Definition install_fetched (slot : Z) (fetched : res storage_error (Snapshot * Z)) : command B (Z * bool) :=
  '(snapshot, highest) ← answered fetched;
  _ ← install_snapshot slot snapshot highest;
  mret (highest, (size snapshot =? 0)%nat && (highest =? 0)).

(** The replica is created and filled; a failure takes it away again. *)
Definition create_replica (autoActivateEmptyReplicas needsCatchup : bool) (looks : list replay_look)
    (fetched : res storage_error (Snapshot * Z)) (assignment : ReplicaAssignment) : command B bool := fun h =>
  let slot := asg_Slot assignment in
  match replica_Create (sh_backend h) slot with
  | (b, Err e) =>
      (h <| sh_backend := b |>,
       match e with
       | ErrReplicaExists => if waitForReplicaCreationReplay looks assignment then Ok false else Err e
       | _ => Err e
       end)
  | (b, Ok _) =>
      undo_with (_ ← update_owner owner_removeRecord; on_backend (fun b => replica_Delete b slot))
        (_ ← host_setRecord (pendingRecord assignment);
         '(highest, autoActivate) ← (if needsCatchup then install_fetched slot fetched else mret (0, true));
         let record := catchingUpRecord assignment highest in
         _ ← host_setRecord record;
         _ ← host_persistReplica record;
         mret (autoActivate && autoActivateEmptyReplicas)) (h <| sh_backend := b |>)
  end.

(** The answer is whether to activate the replica at once.  [inFlightCatchups]
    are the node's, this one not counted. *)
Definition addReplicaAsTail (maxConcurrentCatchups inFlightCatchups : Z) (autoActivateEmptyReplicas : bool)
    (looks : list replay_look) (fetched : res storage_error (Snapshot * Z)) (assignment : ReplicaAssignment)
    : command B bool :=
  let needsCatchup := negb (String.eqb (PredecessorNodeID (asg_Peers assignment)) "") in
  _ ← refuse_if (asg_Slot assignment <? 0) ErrInvalidStorageConfig;
  o ← owner_of;
  if own_exists (or_rt o) then
    if bool_decide (rr_assignment (record_of o) = assignment) && negb (bool_decide (rr_state (record_of o) = StateRemoved))
    then mret false else refuse ErrReplicaExists
  else
    _ ← refuse_if (needsCatchup && (0 <? maxConcurrentCatchups) && (maxConcurrentCatchups <=? inFlightCatchups))
          (ErrCatchupBackpressure inFlightCatchups maxConcurrentCatchups);
    create_replica autoActivateEmptyReplicas needsCatchup looks fetched assignment.

(** *** Activating *)
Definition host_applyFetchedPredecessorSnapshot (plan : predecessorSyncPlan) (snapshot : Snapshot) (highest : Z)
    : command B unit :=
  o ← owner_of;
  slot ← slot_of;
  let record := record_of o in
  if negb (own_exists (or_rt o))
     || negb ((asg_ChainVersion (rr_assignment record) =? plan_chainVersion plan)
              && String.eqb (PredecessorNodeID (peers_of o)) (plan_sourceNodeID plan)
              && String.eqb (PredecessorTarget (peers_of o)) (plan_sourceTarget plan))
     || (highest <=? rr_highestCommittedSequence record)
  then mret tt
  else
    _ ← dropSlot slot;
    _ ← install_snapshot slot snapshot highest;
    let record := reduceSyncedPredecessorState record highest in
    _ ← host_setRecord record;
    _ ← allowSlot slot;
    host_persistReplica record.

Definition syncFromPredecessor (fetched : res storage_error (Snapshot * Z)) : command B unit :=
  o ← owner_of;
  plan ← answered (buildPredecessorSyncPlan o);
  match plan with
  | None => mret tt
  | Some plan =>
      '(snapshot, highest) ← answered fetched;
      if highest <=? plan_currentHighest plan then mret tt
      else host_applyFetchedPredecessorSnapshot plan snapshot highest
  end.

Definition prepareActivation (fetched : res storage_error (Snapshot * Z)) : command B unit :=
  o ← owner_of;
  _ ← refuse_if (negb (own_exists (or_rt o))) ErrUnknownReplica;
  if negb (bool_decide (rr_state (record_of o) = StateCatchingUp)) then mret tt
  else syncFromPredecessor fetched.

(** [drainReadyBuffered] with the mark the engine has for the slot. *)
Definition host_drain : command B unit := fun h =>
  (h <| sh_owner := drainReadyBuffered nodeID limits (durableCommittedSequence (sh_slot h) h) None (sh_owner h) |>, Ok tt).

Definition host_activateReplicaReady : command B unit :=
  o ← owner_of;
  _ ← refuse_if (negb (own_exists (or_rt o))) ErrUnknownReplica;
  match rr_state (record_of o) with
  | StateActive => mret tt
  | StateCatchingUp =>
      let record := (record_of o) <| rr_state := StateActive |> <| rr_lastKnownState := StateActive |> in
      _ ← host_setRecord record;
      _ ← host_persistReplica record;
      host_drain
  | _ => refuse ErrInvalidTransition
  end.

(** *** Leaving *)
Definition host_markReplicaLeaving : command B unit :=
  o ← owner_of;
  _ ← refuse_if (negb (own_exists (or_rt o))) ErrUnknownReplica;
  match rr_state (record_of o) with
  | StateLeaving | StateRemoved => mret tt
  | StateActive =>
      let record := (record_of o) <| rr_state := StateLeaving |> <| rr_lastKnownState := StateLeaving |> in
      _ ← host_setRecord record;
      host_persistReplica record
  | _ => refuse ErrInvalidTransition
  end.

(** [reported] is the coordinator's answer to [ReportReplicaRemoved]. *)
Definition host_removeReplica (reported : res storage_error unit) : command B unit :=
  o ← owner_of;
  slot ← slot_of;
  let state := rr_state (record_of o) in
  _ ← refuse_if (negb (own_exists (or_rt o))) ErrUnknownReplica;
  _ ← refuse_if (negb (bool_decide (state = StateLeaving)) && negb (bool_decide (state = StateRemoved)))
        ErrInvalidTransition;
  _ ← answered reported;
  _ ← (if bool_decide (state = StateLeaving) then
         _ ← dropSlot slot;
         _ ← on_backend (fun b => replica_Delete b slot);
         delete_local slot
       else mret tt);
  _ ← update_owner owner_removeRecord;
  evictSlotOwner.

(** *** Peers *)
Definition owner_reassigned (assignment : ReplicaAssignment) (o : ownerRuntime) : ownerRuntime :=
  let before := rr_assignment (record_of o) in
  let record := reassigned (record_of o) assignment in
  if negb (asg_ChainVersion before =? asg_ChainVersion assignment) || predecessorPeerChanged before assignment
  then o <| or_upstreamCommitHighSent := rr_highestUpstreamConfirmedSequence record |> else o.

(** What an active replica starts after its peers have changed. *)
Definition peers_changed (journalCommitted : Z) (before : ReplicaAssignment) (record : replicaRecord) (o : ownerRuntime)
    : ownerRuntime :=
  let o := submitCommitWatermarkReady nodeID limits (drain_again nodeID limits journalCommitted) record o in
  let o := if successorChanged before (rr_assignment record) then replayPreparedForwards nodeID o else o in
  ensureUpstreamCommitReplay nodeID o.

Definition host_peers_changed (before : ReplicaAssignment) (record : replicaRecord) : command B unit := fun h =>
  (h <| sh_owner := peers_changed (durableCommittedSequence (sh_slot h) h) before record (sh_owner h) |>, Ok tt).

Definition host_updateChainPeers (assignment : ReplicaAssignment) : command B unit :=
  o ← owner_of;
  _ ← refuse_if (negb (own_exists (or_rt o))) ErrUnknownReplica;
  let before := rr_assignment (record_of o) in
  if bool_decide (before = assignment) then mret tt
  else
    let record := reassigned (record_of o) assignment in
    _ ← update_owner (owner_reassigned assignment);
    _ ← host_setRecord record;
    _ ← host_persistReplica record;
    if bool_decide (rr_state record = StateActive)
    then host_peers_changed before record else mret tt.

(** *** Recovered replicas *)
Definition host_resumeRecoveredReplica (FetchCommittedSequence : string -> Z -> res storage_error Z)
    (assignment : ReplicaAssignment) : command B unit :=
  o ← owner_of;
  slot ← slot_of;
  let record := record_of o in
  _ ← refuse_if (negb (own_exists (or_rt o))) ErrUnknownReplica;
  if bool_decide (rr_state record = StateActive) && rr_localDataPresent record
     && bool_decide (rr_assignment record = assignment) then mret tt
  else
    _ ← refuse_if (negb (bool_decide (rr_state record = StateRecovered))) ErrInvalidTransition;
    _ ← refuse_if (negb (rr_localDataPresent record)) ErrStateMismatch;
    let record := resumed_record FetchCommittedSequence nodeID slot record assignment in
    _ ← host_setRecord record;
    _ ← host_persistReplica record;
    update_owner (ensureUpstreamCommitReplay nodeID).

Definition host_ensureBackendReplica (slot : Z) : command B unit := fun h =>
  match HighestCommittedSequence (sh_backend h) slot with
  | Ok _ => (h, Ok tt)
  | Err ErrUnknownReplica =>
      match replica_Create (sh_backend h) slot with
      | (b, Err ErrReplicaExists) => (h <| sh_backend := b |>, Ok tt)
      | (b, r) => (h <| sh_backend := b |>, r)
      end
  | Err e => (h, Err e)
  end.

Definition host_recoverReplica (maxConcurrentCatchups inFlightCatchups : Z) (fetched : res storage_error (Snapshot * Z))
    (assignment : ReplicaAssignment) : command B unit :=
  o ← owner_of;
  let slot := asg_Slot assignment in
  let exists_in state := own_exists (or_rt o) && bool_decide (rr_state (record_of o) = state) in
  if exists_in StateActive && bool_decide (rr_assignment (record_of o) = assignment) then mret tt
  else
    _ ← refuse_if (own_exists (or_rt o) && negb (exists_in StateRecovered)) ErrInvalidTransition;
    _ ← refuse_if ((0 <? maxConcurrentCatchups) && (maxConcurrentCatchups <=? inFlightCatchups))
          (ErrCatchupBackpressure inFlightCatchups maxConcurrentCatchups);
    _ ← host_ensureBackendReplica slot;
    '(snapshot, highest) ← answered fetched;
    _ ← dropSlot slot;
    _ ← install_snapshot slot snapshot highest;
    let record := recoveredRecord assignment highest in
    _ ← host_setRecord record;
    _ ← allowSlot slot;
    host_persistReplica record.

Definition unless_unknown (m : command B unit) : command B unit := fun h =>
  match m h with (h, Err ErrUnknownReplica) => (h, Ok tt) | answer => answer end.

Definition host_dropRecoveredReplica (slot : Z) : command B unit :=
  o ← owner_of;
  _ ← refuse_if (negb (own_exists (or_rt o))) ErrUnknownReplica;
  _ ← refuse_if (negb (bool_decide (rr_state (record_of o) = StateRecovered))) ErrInvalidTransition;
  _ ← dropSlot slot;
  _ ← unless_unknown (on_backend (fun b => replica_Delete b slot));
  _ ← delete_local slot;
  _ ← update_owner owner_removeRecord;
  evictSlotOwner.
End node.
End commands.
End OwnerCommands.
