(* ===== verification/SlotProps.v ===== *)
(** * What a slot owner guarantees

    The specification of a slot is a log of operations: the state a client may
    see is the result of applying a prefix of it.  The invariant relates a
    replica's protocol state, its caches and its backend to that log, and every
    transition of the owner keeps it. *)

From S2P Require Import Prelude.
From S2P Require Import StorageTypes.
From S2P Require Import SlotReducer.
From S2P Require Import SlotOwner.

Open Scope Z_scope.
Open Scope record_scope.

(** ** The specification: applying a log *)
Definition apply_op (s : Snapshot) (op : WriteOperation) : Snapshot :=
  match op_Kind op with
  | OperationKindPut => <[op_Key op := put_object op]> s
  | OperationKindDelete => delete (op_Key op) s
  | OperationKindUnsupported _ => s
  end.

Definition materialise (log : list WriteOperation) : Snapshot := foldl apply_op ∅ log.

Definition supported (op : WriteOperation) : Prop :=
  op_Kind op = OperationKindPut \/ op_Kind op = OperationKindDelete.

Definition ztake {A} (n : Z) (l : list A) : list A := take (Z.to_nat n) l.
Definition zdrop {A} (n : Z) (l : list A) : list A := drop (Z.to_nat n) l.
Definition zlength {A} (l : list A) : Z := Z.of_nat (length l).

Definition on_key (key : string) (op : WriteOperation) : bool := String.eqb (op_Key op) key.

(** The operations on a key. *)
Definition at_key (key : string) (log : list WriteOperation) : list WriteOperation :=
  List.filter (on_key key) log.

(** What an operation leaves under its key. *)
Definition outcome (op : WriteOperation) : option CommittedObject :=
  match op_Kind op with OperationKindPut => Some (put_object op) | _ => None end.

(** Sequence numbers count the operations of the log. *)
Record log_ok (log : list WriteOperation) : Prop := {
  lo_sequence : forall i op, log !! i = Some op -> op_Sequence op = Z.of_nat i + 1;
  lo_supported : Forall supported log;
}.

(** ** The invariant *)
(** The operations that are staged and not committed are those the record keeps
    as a client's pending write or as a staged forward. *)
Record tracked (log : list WriteOperation) (r : replicaRecord) : Prop := {
  tr_held : forall i op, log !! i = Some op -> rr_highestCommittedSequence r < op_Sequence op ->
    rr_pendingWrites r !! op_Sequence op ≫= pending_operation = Some op \/
    fwd_Operation <$> rr_stagedForwards r !! op_Sequence op = Some op;
  tr_pending : forall s p, rr_pendingWrites r !! s = Some p -> rr_highestCommittedSequence r < s /\
    exists op, pending_operation p = Some op /\ log !! Z.to_nat (s - 1) = Some op;
  tr_staged : forall s f, rr_stagedForwards r !! s = Some f -> rr_highestCommittedSequence r < s /\
    log !! Z.to_nat (s - 1) = Some (fwd_Operation f);
}.

Record slot_inv (log : list WriteOperation) (base : Snapshot) (rt : slotRuntime) : Prop := {
  si_log : log_ok log;
  si_next : rr_nextSequence (own_record rt) = zlength log + 1;
  si_room : zlength log < u64_mod - 1;
  si_order :
    0 <= rr_materializedCommittedSequence (own_record rt) <= rr_highestCommittedSequence (own_record rt) /\
    rr_highestCommittedSequence (own_record rt) <= rr_highestPreparedDurable (own_record rt) <= zlength log;
  si_prepared : forall i op, log !! i = Some op ->
    rr_materializedCommittedSequence (own_record rt) < op_Sequence op ->
    rr_preparedEntries (own_record rt) !! op_Sequence op = Some op;
  si_dirty : forall key, default [] (rr_dirtyByKey (own_record rt) !! key) =
    dirty_entry <$> at_key key (zdrop (rr_highestCommittedSequence (own_record rt)) log);
  si_overlay : forall key, rr_committedOverlay (own_record rt) !! key =
    dirty_entry <$> last (at_key key
      (zdrop (rr_materializedCommittedSequence (own_record rt))
        (ztake (rr_highestCommittedSequence (own_record rt)) log)));
  si_base : exists b,
    rr_materializedCommittedSequence (own_record rt) <= b <= rr_highestCommittedSequence (own_record rt) /\
    base = materialise (ztake b log);
  si_cache : forall key m, own_committedMetadata rt !! key = Some m ->
    m = obj_Metadata <$> materialise (ztake (rr_highestCommittedSequence (own_record rt)) log) !! key;
  si_tracked : tracked log (own_record rt);
  si_cache_key : own_committedMetadata rt !! "" = None;
  si_exists : own_exists rt = true;
}.

(** ** Copies are faithful *)
Lemma cloneObjectMetadata_id m : cloneObjectMetadata m = m.
Proof. by destruct m. Qed.

Lemma cloneWriteOperation_id op : cloneWriteOperation op = op.
Proof. unfold cloneWriteOperation. rw cloneObjectMetadata_id. by destruct op. Qed.

Lemma clone_metadata_fmap (m : option ObjectMetadata) : cloneObjectMetadata <$> m = m.
Proof. destruct m as [m|]; [|done]. cbn. by rw cloneObjectMetadata_id. Qed.

Lemma dirty_op op : dirty_Operation (dirty_entry op) = op.
Proof. apply cloneWriteOperation_id. Qed.

(** ** Applying operations *)
Lemma materialise_snoc log op : materialise (log ++ [op]) = apply_op (materialise log) op.
Proof. unfold materialise. by rw foldl_snoc. Qed.

Lemma apply_op_lookup s op key : supported op ->
  apply_op s op !! key = if on_key key op then outcome op else s !! key.
Proof.
  intros Hs. unfold apply_op, outcome, on_key. destruct (String.eqb_spec (op_Key op) key) as [<-|Hne];
    destruct Hs as [-> | ->]; by simplify_map_eq.
Qed.

(** The last operation on a key decides. *)
Lemma foldl_apply_lookup log s key : Forall supported log ->
  foldl apply_op s log !! key =
  match last (at_key key log) with Some op => outcome op | None => s !! key end.
Proof.
  intros Hs. induction log as [|op log IH] using rev_ind; [done|].
  apply Forall_app in Hs as [Hs Hop]. rw Forall_singleton in Hop. rw foldl_snoc apply_op_lookup //.
  unfold at_key. rw List.filter_app. cbn. destruct (on_key key op); cbn.
  - by rw last_snoc.
  - rw app_nil_r. by apply IH.
Qed.

Lemma materialise_lookup log key : Forall supported log ->
  materialise log !! key = last (at_key key log) ≫= outcome.
Proof.
  intros Hs. unfold materialise. by rw foldl_apply_lookup.
Qed.

Lemma ztake_zdrop_split {A} (a b : Z) (l : list A) : 0 <= a <= b ->
  ztake b l = ztake a l ++ zdrop a (ztake b l).
Proof.
  intros Hab. unfold ztake, zdrop. rw -{1}(take_drop (Z.to_nat a) (take (Z.to_nat b) l)) take_take.
  by replace (Z.to_nat a `min` Z.to_nat b)%nat with (Z.to_nat a) by lia.
Qed.

Lemma Forall_ztake {A} (P : A -> Prop) n l : Forall P l -> Forall P (ztake n l).
Proof. apply Forall_take. Qed.

Lemma Forall_zdrop {A} (P : A -> Prop) n l : Forall P l -> Forall P (zdrop n l).
Proof. apply Forall_drop. Qed.

Lemma last_app {A} (l k : list A) : last (l ++ k) = match last k with Some x => Some x | None => last l end.
Proof. induction k as [|x k IH] using rev_ind; [by rw app_nil_r|]. by rw app_assoc !last_snoc. Qed.

Lemma zdrop_ztake_split {A} (m h c : Z) (l : list A) : 0 <= m <= h -> h <= c ->
  zdrop m (ztake c l) = zdrop m (ztake h l) ++ zdrop h (ztake c l).
Proof.
  intros Hm Hc. unfold zdrop, ztake.
  rw -{1}(take_drop (Z.to_nat h) (take (Z.to_nat c) l)) take_take.
  replace (Z.to_nat h `min` Z.to_nat c)%nat with (Z.to_nat h) by lia.
  destruct (decide (Z.to_nat m <= length (take (Z.to_nat h) l))%nat) as [Hle|Hgt].
  - by rw drop_app_le.
  - rw drop_app_ge; [lia|]. rw !length_take in Hgt |- *.
    rw (drop_ge (take (Z.to_nat h) l)); [rw length_take; lia|].
    rw !drop_drop. rw !drop_ge //; rw length_take; lia.
Qed.

(** ** The committed state, as a replica reconstructs it *)
Definition committed_prefix (log : list WriteOperation) (rt : slotRuntime) : list WriteOperation :=
  ztake (rr_highestCommittedSequence (own_record rt)) log.

Lemma committed_lookup log base rt key :
  slot_inv log base rt ->
  materialise (committed_prefix log rt) !! key =
  match dirty_Operation <$> rr_committedOverlay (own_record rt) !! key with
  | Some op => outcome op
  | None => base !! key
  end.
Proof.
  intros Hi. destruct (si_order _ _ _ Hi) as [Hm _]. pose proof (lo_supported _ (si_log _ _ _ Hi)) as Hs.
  destruct (si_base _ _ _ Hi) as (b & Hb & ->). unfold committed_prefix. rw (si_overlay _ _ _ Hi).
  assert (forall n, 0 <= n <= rr_highestCommittedSequence (own_record rt) ->
    materialise (ztake (rr_highestCommittedSequence (own_record rt)) log) !! key =
    match last (at_key key (zdrop n (ztake (rr_highestCommittedSequence (own_record rt)) log))) with
    | Some op => outcome op
    | None => materialise (ztake n log) !! key
    end) as Hsplit.
  { intros n Hn. unfold materialise. rw (ztake_zdrop_split _ _ log Hn) foldl_app.
    rw foldl_apply_lookup; [by apply Forall_zdrop, Forall_ztake|]. by rw -(ztake_zdrop_split _ _ log Hn). }
  destruct (last (at_key key (zdrop (rr_materializedCommittedSequence _) _))) as [op|] eqn:Hl; cbn.
  - rw cloneWriteOperation_id (Hsplit _ Hm). by rw Hl.
  - rw (Hsplit b); [lia|]. rw (zdrop_ztake_split _ b) in Hl; [lia..|].
    unfold at_key in *. rw List.filter_app last_app in Hl. by destruct (last (List.filter (on_key key) (zdrop b _))).
Qed.

Lemma overlay_supported log base rt key e :
  slot_inv log base rt -> rr_committedOverlay (own_record rt) !! key = Some e ->
  supported (dirty_Operation e) /\ op_Key (dirty_Operation e) = key.
Proof.
  intros Hi. rw (si_overlay _ _ _ Hi). intros (op & Hl & ->)%fmap_Some. rw dirty_op.
  apply last_Some_elem_of in Hl. unfold at_key in Hl. apply list_elem_of_In, List.filter_In in Hl as [Hl Hk].
  apply list_elem_of_In in Hl. split.
  - assert (Forall supported (zdrop (rr_materializedCommittedSequence (own_record rt))
      (ztake (rr_highestCommittedSequence (own_record rt)) log))) as HF.
    { apply Forall_zdrop, Forall_ztake, (si_log _ _ _ Hi). }
    rw Forall_forall in HF. by apply HF.
  - by apply String.eqb_eq.
Qed.

Lemma overlay_object log base rt key :
  slot_inv log base rt ->
  recordCommittedOverlayObject (own_record rt) key =
  outcome <$> (dirty_Operation <$> rr_committedOverlay (own_record rt) !! key).
Proof.
  intros Hi. unfold recordCommittedOverlayObject, outcome.
  destruct (rr_committedOverlay (own_record rt) !! key) as [e|] eqn:He; [|done]. cbn.
  destruct (overlay_supported _ _ _ _ _ Hi He) as [[-> | ->] _]; done.
Qed.

(** Lookups through the overlay, and the merged snapshot, are the committed
    prefix of the log applied in order. *)
Lemma committedObject_spec log base rt key :
  slot_inv log base rt ->
  committedObject (fun _ k => Ok (base !! k)) (own_record rt) (own_slot rt) key =
  Ok (materialise (committed_prefix log rt) !! key).
Proof.
  intros Hi. unfold committedObject. rw (overlay_object _ _ _ _ Hi) (committed_lookup _ _ _ _ Hi).
  by destruct (rr_committedOverlay (own_record rt) !! key).
Qed.

Lemma merged_lookup (overlay : gmap string dirtyReadEntry) (base : Snapshot) key :
  map_Forall (fun k e => supported (dirty_Operation e)) overlay ->
  map_fold (fun k entry (merged : Snapshot) =>
    match op_Kind (dirty_Operation entry) with
    | OperationKindPut => <[k := put_object (dirty_Operation entry)]> merged
    | OperationKindDelete => delete k merged
    | OperationKindUnsupported _ => merged
    end) base overlay !! key =
  match dirty_Operation <$> overlay !! key with Some op => outcome op | None => base !! key end.
Proof.
  apply (map_fold_weak_ind (fun (r : Snapshot) m =>
    map_Forall (fun k e => supported (dirty_Operation e)) m ->
    r !! key = match dirty_Operation <$> m !! key with Some op => outcome op | None => base !! key end)).
  { by rw lookup_empty. }
  intros k e m r Hk IH Hs. apply map_Forall_insert in Hs as [He Hs]; [|done]. specialize (IH Hs).
  unfold outcome in *. destruct (decide (k = key)) as [->|Hne].
  - rw lookup_insert_eq. cbn. destruct He as [-> | ->]; by simplify_map_eq.
  - rw (lookup_insert_ne m); [done|]. rw -IH. destruct He as [-> | ->]; by simplify_map_eq.
Qed.

Lemma merged_spec log base rt :
  slot_inv log base rt ->
  recordMergedCommittedSnapshot (own_record rt) base = materialise (committed_prefix log rt).
Proof.
  intros Hi. apply map_eq. intros key. unfold recordMergedCommittedSnapshot. rw clone_map_id.
  rw merged_lookup; [intros k e He; by apply (overlay_supported _ _ _ _ _ Hi He)|].
  by rw (committed_lookup _ _ _ _ Hi).
Qed.

(** ** Reads below the tail *)
Lemma sequence_prefix (l : list WriteOperation) (k t : Z) :
  (forall i op, l !! i = Some op -> op_Sequence op = k + Z.of_nat i + 1) ->
  List.filter (fun op => op_Sequence op <=? t) l = ztake (t - k) l.
Proof.
  revert k. induction l as [|op l IH]; intros k Hl; [by unfold ztake; rw take_nil|].
  cbn. pose proof (Hl 0%nat op eq_refl) as H0. cbn in H0.
  assert (forall i op', l !! i = Some op' -> op_Sequence op' = (k + 1) + Z.of_nat i + 1) as Hl'.
  { intros i op' Hi. rw (Hl (S i) op' Hi). lia. }
  rw (IH (k + 1) Hl'). unfold ztake. destruct (Z.leb_spec (op_Sequence op) t).
  - by replace (Z.to_nat (t - k)) with (S (Z.to_nat (t - (k + 1)))) by lia.
  - by replace (Z.to_nat (t - k)) with 0%nat by lia; replace (Z.to_nat (t - (k + 1))) with 0%nat by lia.
Qed.

Lemma filter_comm {A} (f g : A -> bool) l : List.filter f (List.filter g l) = List.filter g (List.filter f l).
Proof.
  induction l as [|x l IH]; [done|]. cbn. destruct (f x) eqn:Hf, (g x) eqn:Hg; cbn; rw ?Hf ?Hg IH //.
Qed.

Lemma tail_known_prefix log (c t : Z) key : log_ok log -> 0 <= c ->
  List.filter (fun op => op_Sequence op <=? t) (at_key key (zdrop c log)) =
  at_key key (zdrop c (ztake (Z.max c t) log)).
Proof.
  intros Hl Hc. unfold at_key. rw filter_comm (sequence_prefix _ c).
  - intros i op. unfold zdrop. rw lookup_drop. intros Hi. rw (lo_sequence _ Hl _ _ Hi). lia.
  - unfold ztake, zdrop. rw take_drop_commute. do 3 f_equal. lia.
Qed.

Lemma resolve_dirty_spec (ops : list WriteOperation) (t : Z) object :
  Forall supported ops ->
  resolve_dirty (reverse (dirty_entry <$> ops)) t object =
  Ok (match last (List.filter (fun op => op_Sequence op <=? t) ops) with
      | Some op => outcome op
      | None => object
      end).
Proof.
  induction ops as [|op ops IH] using rev_ind; [done|]. intros [Hs Hop]%Forall_app.
  rw Forall_singleton in Hop. rw fmap_app reverse_app List.filter_app.
  cbn -[dirty_entry]. change (dirty_Sequence (dirty_entry op)) with (op_Sequence op). rw dirty_op.
  destruct (Z.ltb_spec t (op_Sequence op)) as [Hlt|Hle].
  - rw (proj2 (Z.leb_gt _ _) Hlt) app_nil_r. by apply IH.
  - rw (proj2 (Z.leb_le _ _) Hle) last_snoc. unfold outcome.
    destruct Hop as [-> | ->]; done.
Qed.

Lemma dirtyEntriesForKey_spec log base rt key :
  slot_inv log base rt ->
  dirtyEntriesForKey (own_record rt) key =
  dirty_entry <$> at_key key (zdrop (rr_highestCommittedSequence (own_record rt)) log).
Proof.
  intros Hi. unfold dirtyEntriesForKey. rw (si_dirty _ _ _ Hi) -list_fmap_compose.
  apply list_fmap_ext. intros _ op _. cbn -[cloneWriteOperation]. unfold dirty_entry. by rw !cloneWriteOperation_id.
Qed.

(** A read answered by asking the tail: the state after every operation that
    the tail, or this replica, has committed. *)
Lemma resolve_at_tail log base rt key (t : Z) :
  slot_inv log base rt ->
  resolve_dirty (reverse (dirtyEntriesForKey (own_record rt) key)) t
    (materialise (committed_prefix log rt) !! key) =
  Ok (materialise (ztake (Z.max (rr_highestCommittedSequence (own_record rt)) t) log) !! key).
Proof.
  intros Hi. pose proof (si_log _ _ _ Hi) as Hl. destruct (si_order _ _ _ Hi) as [Hm _].
  rw (dirtyEntriesForKey_spec _ _ _ _ Hi) resolve_dirty_spec.
  { unfold at_key. apply (List.incl_Forall (List.incl_filter _ _)), Forall_zdrop, Hl. }
  rw tail_known_prefix //; [lia|]. f_equal. unfold committed_prefix.
  set (c := rr_highestCommittedSequence (own_record rt)) in *.
  rw {2}(ztake_zdrop_split c (Z.max c t) log); [lia|].
  unfold materialise. rw foldl_app (foldl_apply_lookup (zdrop c (ztake (Z.max c t) log))) //. by apply Forall_zdrop, Forall_ztake, Hl.
Qed.

(** ** Growing the log *)
Lemma ztake_snoc {A} n (l : list A) x : n <= zlength l -> ztake n (l ++ [x]) = ztake n l.
Proof. intros Hn. unfold ztake, zlength in *. apply take_app_le. lia. Qed.

Lemma zdrop_snoc {A} n (l : list A) x : n <= zlength l -> zdrop n (l ++ [x]) = zdrop n l ++ [x].
Proof. intros Hn. unfold zdrop, zlength in *. apply drop_app_le. lia. Qed.

Lemma zlength_snoc {A} (l : list A) x : zlength (l ++ [x]) = zlength l + 1.
Proof. unfold zlength. rw length_app. cbn. lia. Qed.

Lemma at_key_snoc key log op :
  at_key key (log ++ [op]) = at_key key log ++ (if on_key key op then [op] else []).
Proof. unfold at_key. by rw List.filter_app. Qed.

Lemma log_ok_snoc log op : log_ok log -> supported op -> op_Sequence op = zlength log + 1 -> log_ok (log ++ [op]).
Proof.
  intros [Hs Hk] Hop Hseq. constructor.
  - intros i op' [Hi|[Hi Hop']]%lookup_app_Some; [by apply Hs|].
    apply list_lookup_singleton_Some in Hop' as [Hi' <-]. rw Hseq. unfold zlength. lia.
  - apply Forall_app. split; [done|]. by apply Forall_singleton.
Qed.

(** Dirty lists are sorted, so the owner's sort keeps them as they are. *)
Definition increasing (l : list WriteOperation) : Prop :=
  StronglySorted (fun a b => op_Sequence a < op_Sequence b) l.

Lemma increasing_filter f l : increasing l -> increasing (List.filter f l).
Proof.
  induction 1 as [|op l Hl IH Hop]; [constructor|]. cbn. destruct (f op); [|done].
  constructor; [done|]. exact (List.incl_Forall (List.incl_filter _ _) Hop).
Qed.

Lemma increasing_from (l : list WriteOperation) (k : Z) :
  (forall i op, l !! i = Some op -> op_Sequence op = k + Z.of_nat i + 1) -> increasing l.
Proof.
  revert k. induction l as [|op l IH]; intros k Hl; [constructor|]. constructor.
  - apply (IH (k + 1)). intros i op' Hi. rw (Hl (S i) op' Hi). lia.
  - apply Forall_lookup. intros i op' Hi. rw (Hl 0%nat op eq_refl) (Hl (S i) op' Hi). lia.
Qed.

Lemma log_increasing log c key : log_ok log -> increasing (at_key key (zdrop c log)).
Proof.
  intros Hl. apply increasing_filter, (increasing_from _ (Z.of_nat (Z.to_nat c))). intros i op.
  unfold zdrop. rw lookup_drop. intros Hi. rw (lo_sequence _ Hl _ _ Hi). lia.
Qed.

Lemma sort_increasing ops : increasing ops -> sort_entries (dirty_entry <$> ops) = dirty_entry <$> ops.
Proof.
  induction 1 as [|op ops Hops IH Hop]; [done|]. cbn -[dirty_entry]. unfold sort_entries in *. rw IH.
  destruct ops as [|op' ops]; [done|]. cbn -[dirty_entry].
  apply Forall_cons in Hop as [Hlt _]. cbn [dirty_entry dirty_Sequence] in *.
  by rw (proj2 (Z.ltb_ge (op_Sequence op') (op_Sequence op))); [lia|].
Qed.

Lemma replace_entry_fresh op ops :
  Forall (fun o => op_Sequence o <> op_Sequence op) ops -> replace_entry op (dirty_entry <$> ops) = None.
Proof.
  induction 1 as [|o ops Ho _ IH]; [done|]. cbn -[dirty_entry]. rw IH.
  change (dirty_Sequence (dirty_entry o)) with (op_Sequence o).
  by rw (proj2 (Z.eqb_neq _ _) Ho).
Qed.

Lemma at_key_before log c key : log_ok log ->
  Forall (fun o => op_Sequence o <= zlength log) (at_key key (zdrop c log)).
Proof.
  intros Hl. apply (List.incl_Forall (List.incl_filter _ _)), Forall_drop.
  apply Forall_lookup. intros i op Hi. rw (lo_sequence _ Hl _ _ Hi).
  apply lookup_lt_Some in Hi. unfold zlength. lia.
Qed.

(** Adding the next operation to the dirty lists. *)
Lemma add_dirty_spec log c record op :
  log_ok (log ++ [op]) -> log_ok log -> c <= zlength log -> op_Sequence op = zlength log + 1 ->
  (forall key, default [] (rr_dirtyByKey record !! key) = dirty_entry <$> at_key key (zdrop c log)) ->
  forall key, default [] (rr_dirtyByKey (reduceAddDirtyEntry record op) !! key) =
    dirty_entry <$> at_key key (zdrop c (log ++ [op])).
Proof.
  intros Hl' Hl Hc Hseq Hd key. unfold reduceAddDirtyEntry. cbn -[replace_entry sort_entries dirty_entry].
  rw Hd replace_entry_fresh.
  { apply (Forall_impl _ _ _ (at_key_before _ _ _ Hl)). cbn. lia. }
  rw -(fmap_app dirty_entry _ [op]) zdrop_snoc //.
  destruct (decide (op_Key op = key)) as [<-|Hne].
  - rw lookup_insert_eq. cbn [default]. rw at_key_snoc /on_key String.eqb_refl. apply sort_increasing.
    pose proof (log_increasing _ c (op_Key op) Hl') as Hinc.
    by rw zdrop_snoc // at_key_snoc /on_key String.eqb_refl in Hinc.
  - rw lookup_insert_ne // Hd at_key_snoc /on_key.
    by rw (proj2 (String.eqb_neq _ _) Hne) app_nil_r.
Qed.

(** ** Staging *)
(** What staging an operation changes of a record. *)
Record stages (r r' : replicaRecord) (op : WriteOperation) : Prop := {
  sg_next : rr_nextSequence r' = u64_add (rr_nextSequence r) 1;
  sg_committed : rr_highestCommittedSequence r' = rr_highestCommittedSequence r;
  sg_durable : rr_highestPreparedDurable r' = rr_highestPreparedDurable r;
  sg_materialised : rr_materializedCommittedSequence r' = rr_materializedCommittedSequence r;
  sg_prepared : rr_preparedEntries r' = <[op_Sequence op := op]> (rr_preparedEntries r);
  sg_dirty : rr_dirtyByKey r' = rr_dirtyByKey (reduceAddDirtyEntry r op);
  sg_overlay : rr_committedOverlay r' = rr_committedOverlay r;
  sg_tracked :
    (rr_stagedForwards r' = rr_stagedForwards r /\ exists p, pending_operation p = Some op /\
     rr_pendingWrites r' = <[op_Sequence op := p]> (rr_pendingWrites r)) \/
    (rr_pendingWrites r' = rr_pendingWrites r /\ exists f, fwd_Operation f = op /\
     rr_stagedForwards r' = <[op_Sequence op := f]> (rr_stagedForwards r));
}.

Lemma submit_stages r op : stages r (reduceSubmitWrite r op).1 op.
Proof.
  constructor; cbn; try done; [by rw cloneWriteOperation_id|]. left. split; [done|].
  eexists. split; [|done]. cbn. by rw cloneWriteOperation_id.
Qed.

Lemma forward_stages r req :
  rr_stagedForwards r !! op_Sequence (fwd_Operation req) = None ->
  stages r (reduceStageForward r req) (fwd_Operation req).
Proof.
  intros Hs. unfold reduceStageForward. cbn -[reduceAddDirtyEntry]. rw Hs.
  constructor; cbn; try done; [by rw cloneWriteOperation_id|].
  right. split; [done|]. eexists. split; [|done]. cbn. by rw cloneWriteOperation_id.
Qed.

Lemma tracked_stage log r r' op :
  log_ok log -> tracked log r -> op_Sequence op = zlength log + 1 ->
  rr_highestCommittedSequence r <= zlength log -> stages r r' op -> tracked (log ++ [op]) r'.
Proof.
  intros Hl [Hh Hp Hs] Hseq Hc Hst. assert ((log ++ [op]) !! Z.to_nat (op_Sequence op - 1) = Some op) as Hop.
  { rw Hseq. unfold zlength. rw lookup_app_r; [lia|]. by replace (_ - _)%nat with 0%nat by lia. }
  assert (forall s o, log !! Z.to_nat (s - 1) = Some o -> (log ++ [op]) !! Z.to_nat (s - 1) = Some o) as Hold.
  { intros s o Ho. by apply lookup_app_l_Some. }
  constructor; rw (sg_committed _ _ _ Hst).
  - intros i o [Hi|[_ Hi]]%lookup_app_Some Hlt.
    + assert (op_Sequence o <> op_Sequence op) as Hne.
      { rw (lo_sequence _ Hl _ _ Hi) Hseq. apply lookup_lt_Some in Hi. unfold zlength. lia. }
      destruct (sg_tracked _ _ _ Hst) as [(-> & p & _ & ->)|(-> & f & _ & ->)];
        (rw lookup_insert_ne; [congruence|]); by apply (Hh i).
    + apply list_lookup_singleton_Some in Hi as [_ <-].
      destruct (sg_tracked _ _ _ Hst) as [(-> & p & Hp' & ->)|(-> & f & <- & ->)];
        rw lookup_insert_eq; cbn; auto.
  - intros s p Hsp. destruct (sg_tracked _ _ _ Hst) as [(_ & p' & Hp' & Heq)|(Heq & _)]; rw Heq in Hsp.
    + apply lookup_insert_Some in Hsp as [[<- <-]|[_ Hsp]]; [split; [lia|by exists op]|].
      destruct (Hp _ _ Hsp) as (? & o & ? & ?). split; [done|]. exists o. auto.
    + destruct (Hp _ _ Hsp) as (? & o & ? & ?). split; [done|]. exists o. auto.
  - intros s f Hsf. destruct (sg_tracked _ _ _ Hst) as [(Heq & _)|(_ & f' & Hf' & Heq)]; rw Heq in Hsf.
    + destruct (Hs _ _ Hsf). auto.
    + apply lookup_insert_Some in Hsf as [[<- <-]|[_ Hsf]]; [split; [lia|by rw Hf']|].
      destruct (Hs _ _ Hsf). auto.
Qed.

Lemma stage_inv log base rt r' op :
  slot_inv log base rt -> supported op -> op_Sequence op = rr_nextSequence (own_record rt) ->
  zlength log + 1 < u64_mod - 1 -> stages (own_record rt) r' op ->
  slot_inv (log ++ [op]) base (rt <| own_record := r' |>).
Proof.
  intros Hi Hop Hseq Hroom Hst. pose proof Hi as [Hl Hn _ Hord Hp Hd Ho [b [Hbr Hb]] Hc Htr Hck Hex].
  rw Hn in Hseq. pose proof (log_ok_snoc _ _ Hl Hop Hseq) as Hl'.
  pose proof Hst as [En Ec Ed Em Ep Edy Eo _].
  constructor; cbn; rw ?En ?Ec ?Ed ?Em ?Ep ?Eo ?zlength_snoc //.
  - rw Hn. apply u64_add_small. unfold zlength in *. lia.
  - lia.
  - intros i op' [Hi'|[Hge Hop']]%lookup_app_Some Hm.
    + rw lookup_insert_ne; [|by apply (Hp i)]. rw Hseq (lo_sequence _ Hl _ _ Hi').
      apply lookup_lt_Some in Hi'. unfold zlength. lia.
    + apply list_lookup_singleton_Some in Hop' as [_ <-]. by rw lookup_insert_eq.
  - rw Edy. apply add_dirty_spec; try done. lia.
  - intros key. rw Ho ztake_snoc //. lia.
  - exists b. split; [done|]. rw Hb ztake_snoc //. lia.
  - intros key m Hm. rw ztake_snoc; [lia|]. by apply Hc.
  - apply (tracked_stage _ (own_record rt)); try done. lia.
Qed.

Lemma tracked_same log r r' :
  tracked log r -> rr_highestCommittedSequence r' = rr_highestCommittedSequence r ->
  rr_pendingWrites r' = rr_pendingWrites r -> rr_stagedForwards r' = rr_stagedForwards r -> tracked log r'.
Proof. intros [Hh Hp Hs] E1 E2 E3. constructor; by rw ?E1 ?E2 ?E3. Qed.

(** Changes that only touch the flow-control fields. *)
Lemma frame_inv log base rt r' :
  slot_inv log base rt ->
  rr_nextSequence r' = rr_nextSequence (own_record rt) ->
  rr_highestCommittedSequence r' = rr_highestCommittedSequence (own_record rt) ->
  rr_highestPreparedDurable (own_record rt) <= rr_highestPreparedDurable r' <= zlength log ->
  rr_materializedCommittedSequence r' = rr_materializedCommittedSequence (own_record rt) ->
  rr_preparedEntries r' = rr_preparedEntries (own_record rt) ->
  rr_dirtyByKey r' = rr_dirtyByKey (own_record rt) ->
  rr_committedOverlay r' = rr_committedOverlay (own_record rt) ->
  rr_stagedForwards r' = rr_stagedForwards (own_record rt) ->
  rr_pendingWrites r' = rr_pendingWrites (own_record rt) ->
  slot_inv log base (rt <| own_record := r' |>).
Proof.
  intros [Hl Hn Hr Hord Hp Hd Ho Hb Hc Htr Hck Hex] E1 E2 E3 E4 E5 E6 E7 E8 E9.
  constructor; cbn; rw ?E1 ?E2 ?E4 ?E5 ?E6 ?E7 //; [lia|]. by apply (tracked_same _ (own_record rt)).
Qed.

Lemma prepareDurable_inv log base rt op :
  slot_inv log base rt -> op ∈ log ->
  slot_inv log base (rt <| own_record := prepareDurable (own_record rt) op |>).
Proof.
  intros Hi [i Hop]%list_elem_of_lookup. pose proof (lo_sequence _ (si_log _ _ _ Hi) _ _ Hop) as Hs.
  apply lookup_lt_Some in Hop. destruct (si_order _ _ _ Hi) as [_ Hd].
  unfold prepareDurable. apply frame_inv; try done;
    destruct (Z.ltb_spec (rr_highestPreparedDurable (own_record rt)) (op_Sequence op));
    try destruct (_ && _); cbn; try done; unfold zlength in *; lia.
Qed.

Lemma drain_tokens_frame fuel r :
  exists token buffered, drain_tokens fuel r =
    r <| rr_bufferedCommits := buffered |> <| rr_highestCommitTokenReceived := token |>.
Proof.
  revert r. induction fuel as [|fuel IH]; intros r; cbn [drain_tokens].
  - exists (rr_highestCommitTokenReceived r), (rr_bufferedCommits r). by destruct r.
  - destruct (rr_bufferedCommits r !! _).
    + destruct (IH (r <| rr_bufferedCommits := delete (u64_add (rr_highestCommitTokenReceived r) 1) (rr_bufferedCommits r) |>
        <| rr_highestCommitTokenReceived := u64_add (rr_highestCommitTokenReceived r) 1 |>)) as (t & b & ->).
      by exists t, b.
    + exists (rr_highestCommitTokenReceived r), (rr_bufferedCommits r). by destruct r.
Qed.

Lemma ingestCommitToken_inv log base rt req :
  slot_inv log base rt ->
  slot_inv log base (rt <| own_record := ingestCommitToken (own_record rt) req |>).
Proof.
  intros Hi. destruct (si_order _ _ _ Hi) as [_ Hd]. unfold ingestCommitToken.
  destruct (_ <=? _); [apply frame_inv; try done; cbn; lia|]. destruct (_ =? _); [|apply frame_inv; try done; cbn; lia].
  destruct (drain_tokens_frame (S (size (rr_bufferedCommits (own_record rt))))
    ((own_record rt) <| rr_highestCommitTokenReceived := cw_Sequence req |>
      <| rr_bufferedCommits := delete (cw_Sequence req) (rr_bufferedCommits (own_record rt)) |>))
    as (t & b & ->).
  apply frame_inv; try done; cbn; lia.
Qed.

(** ** Committing the next operation *)
Record commits_op (r r' : replicaRecord) (op : WriteOperation) : Prop := {
  co_next : rr_nextSequence r' = rr_nextSequence r;
  co_committed : rr_highestCommittedSequence r' = op_Sequence op;
  co_durable : rr_highestPreparedDurable r' = rr_highestPreparedDurable r;
  co_token : rr_highestCommitTokenReceived r' = rr_highestCommitTokenReceived r;
  co_materialised : rr_materializedCommittedSequence r' = rr_materializedCommittedSequence r;
  co_assignment : rr_assignment r' = rr_assignment r;
  co_prepared : rr_preparedEntries r' = rr_preparedEntries r;
  co_dirty : rr_dirtyByKey r' = rr_dirtyByKey (reduceRemoveDirtyEntry r (op_Key op) (op_Sequence op));
  co_overlay : rr_committedOverlay r' = <[op_Key op := dirty_entry op]> (rr_committedOverlay r);
  co_staged : rr_stagedForwards r' = delete (op_Sequence op) (rr_stagedForwards r);
  co_pending : rr_pendingWrites r' = delete (op_Sequence op) (rr_pendingWrites r);
}.

(** The map a removal leaves depends on the map it starts from only. *)
Lemma remove_dirty_only r r' key s :
  rr_dirtyByKey r = rr_dirtyByKey r' ->
  rr_dirtyByKey (reduceRemoveDirtyEntry r key s) = rr_dirtyByKey (reduceRemoveDirtyEntry r' key s).
Proof.
  intros H. unfold reduceRemoveDirtyEntry. rw H. destruct (rr_dirtyByKey r' !! key) as [l|]; [|done].
  by destruct (List.filter _ l).
Qed.

Lemma remove_dirty_frame r key s : exists m, reduceRemoveDirtyEntry r key s = r <| rr_dirtyByKey := m |>.
Proof.
  unfold reduceRemoveDirtyEntry. destruct (rr_dirtyByKey r !! key); [destruct (List.filter _ _)|].
  1-2: by eexists.
  exists (rr_dirtyByKey r). by destruct r.
Qed.

(** The record just before its dirty entry is removed. *)
Record unremoved (r q : replicaRecord) (op : WriteOperation) : Prop := {
  un_next : rr_nextSequence q = rr_nextSequence r;
  un_committed : rr_highestCommittedSequence q = op_Sequence op;
  un_durable : rr_highestPreparedDurable q = rr_highestPreparedDurable r;
  un_token : rr_highestCommitTokenReceived q = rr_highestCommitTokenReceived r;
  un_materialised : rr_materializedCommittedSequence q = rr_materializedCommittedSequence r;
  un_assignment : rr_assignment q = rr_assignment r;
  un_prepared : rr_preparedEntries q = rr_preparedEntries r;
  un_dirty : rr_dirtyByKey q = rr_dirtyByKey r;
  un_overlay : rr_committedOverlay q = rr_committedOverlay r;
  un_staged : rr_stagedForwards q = delete (op_Sequence op) (rr_stagedForwards r);
  un_pending : rr_pendingWrites q = delete (op_Sequence op) (rr_pendingWrites r);
}.

Lemma apply_committed_frame r op limit :
  exists q, unremoved r q op /\
    reduceApplyCommittedSequence r op (op_Sequence op) limit =
    reduceRemoveDirtyEntry q (op_Key op) (op_Sequence op).
Proof.
  unfold reduceApplyCommittedSequence, reduceRecordCommittedForward, evict. cbv zeta.
  eexists. split; [|reflexivity].
  destruct (rr_state r) eqn:Hr; cbn; rw Hr; cbn; destruct (rr_stagedForwards r !! op_Sequence op) eqn:Hs;
    constructor; cbn; try done; by rw delete_id.
Qed.

Lemma commit_applied_frame r req limit :
  let r' := reduceRecordCommitApplied r req limit in
  rr_nextSequence r' = rr_nextSequence r /\
  rr_highestCommittedSequence r' = rr_highestCommittedSequence r /\
  rr_highestPreparedDurable r' = rr_highestPreparedDurable r /\
  rr_highestCommitTokenReceived r' = rr_highestCommitTokenReceived r /\
  rr_materializedCommittedSequence r' = rr_materializedCommittedSequence r /\
  rr_assignment r' = rr_assignment r /\ rr_preparedEntries r' = rr_preparedEntries r /\
  rr_dirtyByKey r' = rr_dirtyByKey r /\ rr_committedOverlay r' = rr_committedOverlay r /\
  rr_stagedForwards r' = rr_stagedForwards r /\
  (rr_pendingWrites r !! cw_Sequence req = None -> rr_pendingWrites r' = rr_pendingWrites r).
Proof.
  unfold reduceRecordCommitApplied, reduceRecordCommittedCommit, evict. cbn.
  destruct (rr_pendingWrites r !! cw_Sequence req); split_and!; done.
Qed.

Lemma applyCommit_spec limit r op :
  rr_preparedEntries r !! op_Sequence op = Some op ->
  op_Sequence op <= rr_highestPreparedDurable r ->
  exists r', applyCommit limit r (op_Sequence op) = Ok (r', op) /\ commits_op r r' op.
Proof.
  intros Hp Hd. unfold applyCommit, reduceCommittableOperation.
  rw (proj2 (Z.ltb_ge (rr_highestPreparedDurable r) (op_Sequence op))); [lia|].
  cbn -[reduceApplyCommittedSequence recordWithCommittedOverlay reduceRecordCommitApplied].
  rw Hp. cbn -[reduceApplyCommittedSequence recordWithCommittedOverlay reduceRecordCommitApplied].
  rw cloneWriteOperation_id. eexists. split; [reflexivity|].
  destruct (apply_committed_frame r op limit) as (q & [] & ->).
  assert (rr_dirtyByKey (reduceRemoveDirtyEntry q (op_Key op) (op_Sequence op)) =
    rr_dirtyByKey (reduceRemoveDirtyEntry r (op_Key op) (op_Sequence op))) as Hdirty.
  { by apply remove_dirty_only. }
  revert Hdirty. destruct (remove_dirty_frame q (op_Key op) (op_Sequence op)) as [m ->]. intros Hdirty.
  destruct (syntheticCommitRequest r (op_Sequence op)) as [req|] eqn:Hreq.
  - assert (cw_Sequence req = op_Sequence op) as Hseq.
    { unfold syntheticCommitRequest in Hreq. by apply fmap_Some in Hreq as (? & _ & ->). }
    destruct (commit_applied_frame (q <| rr_dirtyByKey := m |>) req limit) as (E1 & E2 & E3 & E4 & E5 & E6 & E7 & E8 & E9 & E10 & E11).
    assert (rr_pendingWrites (q <| rr_dirtyByKey := m |>) !! cw_Sequence req = None) as Hnone.
    { cbn. rw un_pending0 Hseq. apply lookup_delete_eq. }
    constructor; cbn -[reduceRecordCommitApplied dirty_entry]; rw ?E1 ?E2 ?E3 ?E4 ?E5 ?E6 ?E7 ?E8 ?E9 ?E10 ?(E11 Hnone); cbn -[dirty_entry]; done || congruence.
  - constructor; cbn -[dirty_entry]; done || congruence.
Qed.

Lemma ztake_next {A} n (l : list A) x : 0 <= n -> l !! Z.to_nat n = Some x -> ztake (n + 1) l = ztake n l ++ [x].
Proof.
  intros Hn Hx. unfold ztake. replace (Z.to_nat (n + 1)) with (S (Z.to_nat n)) by lia. by apply take_S_r.
Qed.

Lemma zdrop_next {A} n (l : list A) x : 0 <= n -> l !! Z.to_nat n = Some x -> zdrop n l = x :: zdrop (n + 1) l.
Proof.
  intros Hn Hx. unfold zdrop. replace (Z.to_nat (n + 1)) with (S (Z.to_nat n)) by lia. by apply drop_S.
Qed.

Lemma ztake_zlength {A} n (l : list A) : 0 <= n <= zlength l -> zlength (ztake n l) = n.
Proof. intros Hn. unfold zlength, ztake in *. rw length_take. lia. Qed.

Lemma filter_fmap_entries (f : WriteOperation -> bool) (g : dirtyReadEntry -> bool) ops :
  (forall op, g (dirty_entry op) = f op) ->
  List.filter g (dirty_entry <$> ops) = dirty_entry <$> List.filter f ops.
Proof.
  intros Hfg. induction ops as [|op ops IH]; [done|]. cbn -[dirty_entry]. rw Hfg IH. by destruct (f op).
Qed.

Lemma filter_all {A} (f : A -> bool) l : Forall (fun x => f x = true) l -> List.filter f l = l.
Proof. induction 1 as [|x l Hx _ IH]; [done|]. cbn. by rw Hx IH. Qed.

(** Removing the first uncommitted operation from the dirty lists. *)
Lemma remove_dirty_spec log c record op :
  log_ok log -> 0 <= c -> log !! Z.to_nat c = Some op ->
  (forall key, default [] (rr_dirtyByKey record !! key) = dirty_entry <$> at_key key (zdrop c log)) ->
  forall key, default [] (rr_dirtyByKey (reduceRemoveDirtyEntry record (op_Key op) (op_Sequence op)) !! key) =
    dirty_entry <$> at_key key (zdrop (c + 1) log).
Proof.
  intros Hl Hc Hop Hd key. pose proof (lo_sequence _ Hl _ _ Hop) as Hseq.
  pose proof (Hd key) as Hk. rw (zdrop_next _ _ _ Hc Hop) in Hk. cbn in Hk.
  assert (forall o, o ∈ zdrop (c + 1) log -> op_Sequence o <> op_Sequence op) as Hlater.
  { intros o [i Hi]%list_elem_of_lookup. unfold zdrop in Hi. rw lookup_drop in Hi.
    rw (lo_sequence _ Hl _ _ Hi) Hseq. lia. }
  assert (forall l, default [] (rr_dirtyByKey record !! op_Key op) = l ->
    default [] (rr_dirtyByKey (reduceRemoveDirtyEntry record (op_Key op) (op_Sequence op)) !! op_Key op) =
    List.filter (fun e => negb (dirty_Sequence e =? op_Sequence op)) l) as Hsame.
  { intros l <-. unfold reduceRemoveDirtyEntry.
    destruct (rr_dirtyByKey record !! op_Key op) as [entries|] eqn:He; [|by rw He].
    cbn. destruct (List.filter _ entries); cbn; by rw ?lookup_delete_eq ?lookup_insert_eq. }
  destruct (decide (op_Key op = key)) as [<-|Hne].
  - rw (Hsame _ (Hd (op_Key op))). rw (zdrop_next _ _ _ Hc Hop).
    rw (filter_fmap_entries (fun o => negb (op_Sequence o =? op_Sequence op))); [done|]. f_equal.
    unfold at_key. rw filter_comm. cbn. rw Z.eqb_refl. cbn. f_equal. apply filter_all, Forall_forall.
    intros o Ho. by rw (proj2 (Z.eqb_neq _ _) (Hlater o Ho)).
  - assert (on_key key op = false) as Hoff by by apply String.eqb_neq.
    rw Hoff in Hk. unfold at_key. rw -Hk. unfold reduceRemoveDirtyEntry.
    destruct (rr_dirtyByKey record !! op_Key op) as [l|]; [|done].
    destruct (List.filter _ l); cbn; rw ?lookup_delete_ne ?lookup_insert_ne //.
Qed.

Lemma remember_cache rt op key m :
  own_committedMetadata rt !! "" = None ->
  own_committedMetadata (rememberCommittedOperation rt op) !! key = Some m -> supported op ->
  (op_Key op = key /\ m = obj_Metadata <$> outcome op) \/
  (op_Key op <> key /\ own_committedMetadata rt !! key = Some m).
Proof.
  intros Hn Hm Hop. unfold rememberCommittedOperation, rememberCommittedMetadata, outcome in *.
  destruct (String.eqb_spec (op_Key op) "") as [He|He].
  - right. destruct Hop as [Hk|Hk]; rw Hk in Hm; (split; [|done]); rw He; intros <-; by rw Hn in Hm.
  - destruct Hop as [Hk|Hk]; rw Hk; rw Hk in Hm; cbn in Hm;
      apply lookup_insert_Some in Hm as [[<- <-]|[? ?]]; auto.
Qed.

Lemma remember_frame rt op : exists cache, rememberCommittedOperation rt op = rt <| own_committedMetadata := cache |> /\
  (own_committedMetadata rt !! "" = None -> cache !! "" = None).
Proof.
  unfold rememberCommittedOperation, rememberCommittedMetadata.
  destruct (op_Kind op), (String.eqb_spec (op_Key op) "");
    try (exists (own_committedMetadata rt); split; [by destruct rt|done]);
    (eexists; split; [reflexivity|]; intros; by rw lookup_insert_ne).
Qed.
