(* ===== verification/BackendProps.v ===== *)
(** * What a backend promises

    A backend shows, for each slot it has, the objects and the sequence number
    they reach.  A batch that continues these may fail; then some first part of
    it has been applied, and perhaps the object of the next commit without its
    sequence number. *)

From S2P Require Import Prelude.
From S2P Require Import StorageTypes.
From S2P Require Import SlotReducer.
From S2P Require Import SlotOwner.
From S2P Require Import SlotProps.
From S2P Require Import Journal.
From S2P Require Import Backend.

Open Scope Z_scope.

(** ** The interface *)
Abbreviation backend_view := (gmap Z (Snapshot * Z)).

Definition view_apply (v : backend_view) (commit : DurableCommit) : option backend_view :=
  let op := dc_Operation commit in
  '(objects, highest) ← v !! op_Slot op;
  if (op_Sequence op =? u64_add highest 1) && kind_known (op_Kind op)
  then Some (<[op_Slot op := (apply_op objects op, op_Sequence op)]> v) else None.

Fixpoint view_apply_all (v : backend_view) (commits : list DurableCommit) : option backend_view :=
  match commits with
  | [] => Some v
  | commit :: commits => v ← view_apply v commit; view_apply_all v commits
  end.

(** The object of a commit is there, its sequence number is not. *)
Definition view_ahead (v : backend_view) (commit : DurableCommit) : backend_view :=
  let op := dc_Operation commit in
  match v !! op_Slot op with
  | Some (objects, highest) => <[op_Slot op := (apply_op objects op, highest)]> v
  | None => v
  end.

(** What a batch that failed leaves. *)
Definition torn (v : backend_view) (commits : list DurableCommit) (v' : backend_view) : Prop :=
  exists k vk, view_apply_all v (take k commits) = Some vk /\
    (v' = vk \/ exists commit, commits !! k = Some commit /\ v' = view_ahead vk commit).

Class BackendLaws (B : Type) `{Backend B} := {
  shows : B -> backend_view -> Prop;
  (** The commits the backend can store. *)
  admits : DurableCommit -> Prop;
  highest_shown : forall b v slot objects highest h, shows b v -> v !! slot = Some (objects, highest) ->
    HighestCommittedSequence b slot = Ok h -> h = highest;
  committed_shown : forall b v slot objects highest key o, shows b v -> v !! slot = Some (objects, highest) ->
    GetCommitted b slot key = Ok o -> o = objects !! key;
  apply_shown : forall b v commits v' b' answer,
    shows b v -> Forall admits commits -> view_apply_all v commits = Some v' ->
    ApplyCommittedBatch b commits = (b', answer) ->
    match answer with
    | Ok _ => shows b' v'
    | Err _ => exists vt, torn v commits vt /\ shows b' vt
    end;
}.

(** A backend that reports an error where it has no reason to. *)
Definition faulty {B} `{BackendLaws B} (b : B) (v : backend_view) : Prop :=
  (exists slot e, is_Some (v !! slot) /\ HighestCommittedSequence b slot = Err e) \/
  (exists commits b' e, is_Some (view_apply_all v commits) /\ Forall admits commits /\
     ApplyCommittedBatch b commits = (b', Err e)).

(** ** The in-memory backend keeps the promise *)
Definition memory_view (b : InMemoryBackend) : backend_view :=
  (fun replica => (rd_committed replica, rd_highestCommitted replica)) <$> be_replicas b.

Lemma memory_apply b commit v : view_apply (memory_view b) commit = Some v ->
  exists b', apply_committed b commit = Ok b' /\ memory_view b' = v.
Proof.
  unfold view_apply, apply_committed, replica_of, memory_view. rw lookup_fmap.
  destruct (be_replicas b !! _) as [replica|]; [|done]. cbn [fmap option_fmap option_map mbind option_bind res_bind].
  destruct (Z.eqb_spec (op_Sequence (dc_Operation commit)) (u64_add (rd_highestCommitted replica) 1)); [|done].
  cbn [negb reject andb]. destruct (op_Kind (dc_Operation commit)) eqn:Hk; cbn [kind_known commit_kind mbind res_bind];
    try done; intros [= <-]; (eexists; split; [reflexivity|]); cbn; rw fmap_insert; cbn; unfold apply_op; rw Hk //.
Qed.

Lemma memory_apply_all b commits v : view_apply_all (memory_view b) commits = Some v ->
  exists b', apply_committed_batch b commits = (b', Ok tt) /\ memory_view b' = v.
Proof.
  revert b. induction commits as [|commit commits IH]; intros b; cbn [view_apply_all apply_committed_batch].
  - intros [= <-]. by exists b.
  - intros (v1 & (b1 & -> & <-)%memory_apply & Hv)%bind_Some. by apply IH.
Qed.

#[export] Program Instance InMemoryBackend_laws : BackendLaws InMemoryBackend := {
  shows b v := memory_view b = v;
  admits _ := True;
}.
Next Obligation.
  intros b v slot objects highest h <-. cbn. unfold backend_HighestCommittedSequence, replica_of, memory_view.
  rw lookup_fmap. destruct (be_replicas b !! slot); [|done]. cbn. by intros [= <- <-] [= <-].
Qed.
Next Obligation.
  intros b v slot objects highest key o <-. cbn. unfold backend_GetCommitted, replica_of, memory_view.
  rw lookup_fmap. destruct (be_replicas b !! slot) as [r|]; [|done]. cbn. intros [= <- <-] [= <-].
  destruct (rd_committed r !! key) as [[? []]|]; done.
Qed.
Next Obligation.
  intros b v commits v' b' answer <- _ (b1 & Hb & Hv)%memory_apply_all. cbn [ApplyCommittedBatch InMemoryBackend_backend].
  rw Hb. by intros [= <- <-].
Qed.

Lemma memory_not_faulty (b : InMemoryBackend) v : memory_view b = v -> ~ faulty b v.
Proof.
  intros <- [(slot & e & Hv & He)|(commits & b' & e & [v' Hv] & _ & He)].
  - revert Hv He. cbn. unfold memory_view, backend_HighestCommittedSequence, replica_of. rw lookup_fmap.
    destruct (be_replicas b !! slot); [done|]. by intros [? [=]].
  - apply memory_apply_all in Hv as (b1 & Hb & _). cbn [ApplyCommittedBatch InMemoryBackend_backend] in He. by rw Hb in He.
Qed.
