(* ===== verification/SlotTheorems.v ===== *)
(** * The theorems of the slot owner

    The invariant is kept by every transition; the committed state is the
    committed prefix of the log; a linearizable read is the state the tail has
    committed; the commit watermark never meets a gap; client writes are
    decided against the committed object. *)

From S2P Require Import Prelude.
From S2P Require Import StorageTypes.
From S2P Require Import SlotReducer.
From S2P Require Import SlotOwner.
From S2P Require Import SlotLifecycle.
From S2P Require Import SlotProps.

Open Scope Z_scope.
Open Scope record_scope.

(** ** The commit watermark *)
Lemma tracked_commit log r r' op :
  log_ok log -> tracked log r -> op_Sequence op = rr_highestCommittedSequence r + 1 -> commits_op r r' op ->
  tracked log r'.
Proof.
  intros Hl [Hh Hp Hs] Hseq Hco. constructor; rw (co_committed _ _ _ Hco).
  - intros i o Hi Hlt. rw (co_pending _ _ _ Hco) (co_staged _ _ _ Hco) !lookup_delete_ne; [lia..|].
    apply (Hh i); [done|lia].
  - intros s p. rw (co_pending _ _ _ Hco). intros [Hne Hsp]%lookup_delete_Some. destruct (Hp _ _ Hsp).
    split; [lia|done].
  - intros s f. rw (co_staged _ _ _ Hco). intros [Hne Hsf]%lookup_delete_Some. destruct (Hs _ _ Hsf).
    split; [lia|done].
Qed.

Lemma commit_inv log base rt r r' op :
  slot_inv log base (rt <| own_record := r |>) ->
  log !! Z.to_nat (rr_highestCommittedSequence r) = Some op ->
  op_Sequence op <= rr_highestPreparedDurable r -> commits_op r r' op ->
  slot_inv log base ((rememberCommittedOperation rt op) <| own_record := r' |>).
Proof.
  intros Hi Hop Hd Hco. pose proof Hco as [En Ec Edu Et Em Ea Ep Edy Eo _ _].
  pose proof Hi as [Hl Hn Hr [Hm Hc] Hp Hdy Ho (b & Hb & Hbase) Hca Htr Hck Hex]. cbn in *.
  pose proof (lo_sequence _ Hl _ _ Hop) as Hseq. rw Z2Nat.id in Hseq; [lia|].
  assert (supported op) as Hs.
  { pose proof (lo_supported _ Hl) as HF. rw Forall_lookup in HF. exact (HF _ _ Hop). }
  assert (0 <= rr_highestCommittedSequence r) as Hc0 by lia.
  destruct (remember_frame rt op) as (cache & Hcache & Hcempty).
  constructor; rw ?Hcache; cbn -[dirty_entry]; rw ?En ?Ec ?Edu ?Em ?Ep //.
  - lia.
  - replace (zdrop (op_Sequence op) log) with (zdrop (rr_highestCommittedSequence r + 1) log) by by rw Hseq.
    rw Edy. by apply remove_dirty_spec.
  - intros key. rw Eo Hseq (ztake_next _ _ _ Hc0 Hop) zdrop_snoc.
    { rw ztake_zlength; lia. }
    rw at_key_snoc. unfold on_key. destruct (String.eqb_spec (op_Key op) key) as [<-|Hne].
    + by rw lookup_insert_eq last_snoc.
    + rw lookup_insert_ne // app_nil_r. apply Ho.
  - exists b. split; [lia|done].
  - intros key m Hm'. rw Hseq (ztake_next _ _ _ Hc0 Hop) materialise_snoc apply_op_lookup //.
    assert (own_committedMetadata (rememberCommittedOperation rt op) !! key = Some m) as Hm'' by by rw Hcache.
    unfold on_key. destruct (remember_cache _ _ _ _ Hck Hm'' Hs) as [[<- ->]|[Hne Hold]].
    + by rw String.eqb_refl.
    + rw (proj2 (String.eqb_neq _ _) Hne). by apply Hca.
  - by apply (tracked_commit _ r _ op); [..|lia|].
  - by apply Hcempty.
Qed.

(** The loop commits exactly the operations it is asked to. *)
Lemma applyCommits_spec limit n log base rt r :
  slot_inv log base (rt <| own_record := r |>) ->
  rr_highestCommittedSequence r + Z.of_nat n <= rr_highestPreparedDurable r ->
  exists rt' r', applyCommits limit n rt r (u64_add (rr_highestCommittedSequence r) 1) = (rt', r', None) /\
    slot_inv log base (rt' <| own_record := r' |>) /\
    rr_highestCommittedSequence r' = rr_highestCommittedSequence r + Z.of_nat n /\
    rr_assignment r' = rr_assignment r /\ rr_nextSequence r' = rr_nextSequence r /\
    own_progressionGap rt' = own_progressionGap rt /\
    rr_highestPreparedDurable r' = rr_highestPreparedDurable r /\
    rr_materializedCommittedSequence r' = rr_materializedCommittedSequence r.
Proof.
  revert rt r. induction n as [|n IH]; intros rt r Hi Hn.
  { exists rt, r. split_and!; try done. lia. }
  pose proof Hi as [Hl Hnx Hr [Hm Hc] Hp _ _ _ _ _ _ _]. cbn in *.
  rw u64_add_small; [lia|].
  destruct (lookup_lt_is_Some_2 log (Z.to_nat (rr_highestCommittedSequence r))) as [op Hop].
  { unfold zlength in *. lia. }
  pose proof (lo_sequence _ Hl _ _ Hop) as Hseq. rw Z2Nat.id in Hseq; [lia|]. rw -Hseq.
  destruct (applyCommit_spec limit r op) as (r1 & -> & Hco); [apply (Hp _ _ Hop); lia|lia|].
  pose proof (commit_inv _ _ _ _ _ _ Hi Hop ltac:(lia) Hco) as Hi1.
  pose proof Hco as [En Ec Edu _ Em Ea _ _ _ _ _]. rw -Ec.
  destruct (IH (rememberCommittedOperation rt op) r1) as (rt' & r' & -> & Hi' & Hc' & Ha' & Hn' & Hg' & Hd' & Hm');
    [done|lia|].
  exists rt', r'. destruct (remember_frame rt op) as (cache & Hcache & _).
  split_and!; [done|done|lia|congruence|congruence|by rw Hg' Hcache|congruence|congruence].
Qed.

Lemma set_record_same rt : rt <| own_record := own_record rt |> = rt.
Proof. by destruct rt. Qed.

Lemma applyCommitWatermark_spec limit log base rt sequence :
  slot_inv log base rt ->
  slot_inv log base (applyCommitWatermark limit rt sequence) /\
  rr_highestCommittedSequence (own_record (applyCommitWatermark limit rt sequence)) =
  Z.max (rr_highestCommittedSequence (own_record rt))
    (Z.min sequence (Z.min (rr_highestCommitTokenReceived (own_record rt))
                           (rr_highestPreparedDurable (own_record rt)))).
Proof.
  intros Hi. unfold applyCommitWatermark. rw (si_exists _ _ _ Hi). cbn -[applyCommits].
  destruct (Z.leb_spec sequence (rr_highestCommittedSequence (own_record rt))); [split; [done|lia]|].
  set (bound := Z.min (Z.min sequence _) _).
  destruct (Z.leb_spec bound (rr_highestCommittedSequence (own_record rt))); [split; [done|lia]|].
  destruct (applyCommits_spec limit (Z.to_nat (bound - rr_highestCommittedSequence (own_record rt))) log base
    rt (own_record rt)) as (rt' & r' & -> & Hi' & Hc & _); [by rw set_record_same|lia|].
  pose proof Hi' as [Hl Hn Hr [Hm Ho] ? ? ? ? ? ? ? ?]. cbn in *.
  destruct (String.eqb _ ""); cbn; (split; [|lia]); [|done].
  pose proof (frame_inv log base (rt' <| own_record := r' |>)
    (r' <| rr_highestUpstreamConfirmedSequence := bound |>) Hi') as Hf.
  cbn in Hf. apply Hf; try done. lia.
Qed.

Lemma applyCommitWatermark_gap limit log base rt sequence :
  slot_inv log base rt -> own_progressionGap (applyCommitWatermark limit rt sequence) = own_progressionGap rt.
Proof.
  intros Hi. unfold applyCommitWatermark. rw (si_exists _ _ _ Hi). cbn -[applyCommits].
  destruct (_ <=? _); [done|]. set (bound := Z.min (Z.min sequence _) _).
  destruct (Z.leb_spec bound (rr_highestCommittedSequence (own_record rt))); [done|].
  destruct (applyCommits_spec limit (Z.to_nat (bound - rr_highestCommittedSequence (own_record rt))) log base
    rt (own_record rt)) as (rt' & r' & -> & _ & _ & _ & _ & Hg & _); [by rw set_record_same|lia|done].
Qed.

Lemma applyCommitWatermark_frame limit log base rt sequence :
  slot_inv log base rt ->
  let r' := own_record (applyCommitWatermark limit rt sequence) in
  rr_assignment r' = rr_assignment (own_record rt) /\ rr_nextSequence r' = rr_nextSequence (own_record rt) /\
  rr_highestPreparedDurable r' = rr_highestPreparedDurable (own_record rt) /\
  rr_materializedCommittedSequence r' = rr_materializedCommittedSequence (own_record rt).
Proof.
  intros Hi. unfold applyCommitWatermark. rw (si_exists _ _ _ Hi). cbn -[applyCommits].
  destruct (_ <=? _); [done|]. set (bound := Z.min (Z.min sequence _) _).
  destruct (Z.leb_spec bound (rr_highestCommittedSequence (own_record rt))); [done|].
  destruct (applyCommits_spec limit (Z.to_nat (bound - rr_highestCommittedSequence (own_record rt))) log base
    rt (own_record rt)) as (rt' & r' & -> & _ & _ & Ha & Hn & _ & Hd & Hm); [by rw set_record_same|lia|].
  by destruct (String.eqb _ "").
Qed.

(** ** Materialisation *)
Lemma key_sequences log lo hi key op : log_ok log -> 0 <= lo ->
  op ∈ at_key key (zdrop lo (ztake hi log)) -> lo < op_Sequence op <= hi.
Proof.
  intros Hl Hlo Hop. unfold at_key in Hop. apply list_elem_of_In, List.filter_In in Hop as [Hop _].
  apply list_elem_of_In, list_elem_of_lookup in Hop as [i Hi]. unfold zdrop, ztake in Hi.
  rw lookup_drop in Hi. apply lookup_take_Some in Hi as [Hi Hlt]. rw (lo_sequence _ Hl _ _ Hi). lia.
Qed.

Lemma prune_eq r h :
  rr_materializedCommittedSequence r <= h <= rr_highestCommittedSequence r ->
  recordPruneMaterializedOverlay r h =
  r <| rr_materializedCommittedSequence := h |>
    <| rr_preparedEntries := filter (fun '(sequence, _) => h < sequence) (rr_preparedEntries r) |>
    <| rr_committedOverlay := filter (fun '(_, e) => h < dirty_Sequence e) (rr_committedOverlay r) |>.
Proof.
  intros Hh. unfold recordPruneMaterializedOverlay.
  assert ((if rr_materializedCommittedSequence r <? h then r <| rr_materializedCommittedSequence := h |>
           else r) = r <| rr_materializedCommittedSequence := h |>) as ->.
  { destruct (Z.ltb_spec (rr_materializedCommittedSequence r) h); [done|].
    assert (rr_materializedCommittedSequence r = h) as <- by lia. by destruct r. }
  cbn. by rw (proj2 (Z.ltb_ge (rr_highestCommittedSequence r) h)); [lia|].
Qed.

(** The backend moves ahead; the owner hears of it later. *)
Lemma base_inv log base rt h :
  slot_inv log base rt ->
  rr_materializedCommittedSequence (own_record rt) <= h <= rr_highestCommittedSequence (own_record rt) ->
  slot_inv log (materialise (ztake h log)) rt.
Proof. intros [] Hh. constructor; try done. by exists h. Qed.

Lemma markMaterialized_inv log base rt b h :
  slot_inv log base rt -> base = materialise (ztake b log) -> b <= rr_highestCommittedSequence (own_record rt) ->
  rr_materializedCommittedSequence (own_record rt) <= h <= b -> slot_inv log base (markMaterialized rt h).
Proof.
  intros Hi Hbase Hbc Hhb. unfold markMaterialized. rw (si_exists _ _ _ Hi). cbn -[recordPruneMaterializedOverlay].
  assert (rr_materializedCommittedSequence (own_record rt) <= h <= rr_highestCommittedSequence (own_record rt)) as Hh by lia.
  rw prune_eq //. pose proof Hi as [Hl Hn Hr [Hm Hc] Hp Hdy Ho _ Hca Htr Hck Hex].
  constructor; cbn; try done.
  - lia.
  - intros i op Hop Hlt. apply map_lookup_filter_Some_2; [|done]. apply (Hp i op Hop). lia.
  - intros key. rw map_lookup_filter Ho. clear Ho.
    rw (zdrop_ztake_split (rr_materializedCommittedSequence (own_record rt)) h); [lia..|].
    unfold at_key. rw List.filter_app last_app. fold (at_key key (zdrop h (ztake (rr_highestCommittedSequence (own_record rt)) log))).
    fold (at_key key (zdrop (rr_materializedCommittedSequence (own_record rt)) (ztake h log))).
    destruct (last (at_key key (zdrop h _))) as [op|] eqn:Hlast.
    + apply last_Some_elem_of, key_sequences in Hlast; [|done|lia]. cbn -[dirty_entry].
      rw option_guard_True //. cbn. lia.
    + destruct (last (at_key key (zdrop _ (ztake h log)))) as [op|] eqn:Hl2; [|done].
      apply last_Some_elem_of, key_sequences in Hl2; [|done|lia]. cbn -[dirty_entry].
      rw option_guard_False //. cbn. lia.
  - exists b. split; [lia|done].
  - by apply (tracked_same _ (own_record rt)).
Qed.

(** ** Client writes *)
Definition in_backend (base : Snapshot) (slot : Z) (key : string) : res storage_error (option CommittedObject) :=
  Ok (base !! key).

(** The committed object under a key, by the specification. *)
Definition current_object (log : list WriteOperation) (rt : slotRuntime) (key : string) : option CommittedObject :=
  materialise (committed_prefix log rt) !! key.

Lemma remember_inv log base rt key m :
  slot_inv log base rt -> m = obj_Metadata <$> current_object log rt key ->
  slot_inv log base (rememberCommittedMetadata rt key m).
Proof.
  intros Hi ->. unfold rememberCommittedMetadata. destruct (String.eqb_spec key "") as [|Hne]; [done|].
  pose proof Hi as [Hl Hn Hr Hc Hp Hdy Ho Hb Hca Htr Hck Hex]. constructor; cbn; try done.
  - intros k m. rw clone_metadata_fmap lookup_insert_Some. intros [[<- <-]|[_ Hm]]; [done|by apply Hca].
  - by rw lookup_insert_ne.
Qed.

Lemma remember_record rt key m : own_record (rememberCommittedMetadata rt key m) = own_record rt /\
  own_slot (rememberCommittedMetadata rt key m) = own_slot rt.
Proof. unfold rememberCommittedMetadata. by destruct (String.eqb _ _). Qed.

Lemma committedMetadataState_spec log base rt key :
  slot_inv log base rt ->
  exists rt', committedMetadataState (in_backend base) rt key = Ok (rt', obj_Metadata <$> current_object log rt key) /\
    slot_inv log base rt' /\ own_record rt' = own_record rt /\ own_slot rt' = own_slot rt.
Proof.
  intros Hi. pose proof (committedObject_spec log base rt key Hi) as Hobj.
  unfold committedObject in Hobj. unfold committedMetadataState, in_backend, current_object in *.
  destruct (recordCommittedOverlayObject (own_record rt) key) as [overlay|].
  - injection Hobj as ->. eexists. rw clone_metadata_fmap. split; [done|].
    split; [by apply remember_inv|apply remember_record].
  - destruct (own_committedMetadata rt !! key) as [m|] eqn:Hm.
    + exists rt. rw clone_metadata_fmap (si_cache _ _ _ Hi _ _ Hm). done.
    + injection Hobj as Hobj. cbn. rw Hobj clone_metadata_fmap. eexists. split; [done|].
      split; [by apply remember_inv|apply remember_record].
Qed.

(** The operation a client write becomes. *)
Definition next_operation (now : Z) (log : list WriteOperation) (rt : slotRuntime) (kind : OperationKind)
    (key value : string) : WriteOperation :=
  {| op_Slot := own_slot rt; op_Sequence := rr_nextSequence (own_record rt); op_Kind := kind;
     op_Key := key; op_Value := value;
     op_Metadata :=
       match current_object log rt key with
       | Some object => {| meta_Version := u64_add (meta_Version (obj_Metadata object)) 1;
                           meta_CreatedAt := meta_CreatedAt (obj_Metadata object); meta_UpdatedAt := now |}
       | None => {| meta_Version := 1; meta_CreatedAt := now; meta_UpdatedAt := now |}
       end |}.

(** Whether an optional predicate holds of the current object. *)
Definition holds (conditions : WriteConditions) (object : option CommittedObject) : bool :=
  match cond_Exists conditions with
  | Some wanted => Bool.eqb (bool_decide (is_Some object)) wanted
  | None => true
  end &&
  match cond_Version conditions with
  | Some c => match object with Some o => compare_with (meta_Version (obj_Metadata o)) c | None => false end
  | None => true
  end &&
  match cond_UpdatedAt conditions with
  | Some c => match object with Some o => compare_with (meta_UpdatedAt (obj_Metadata o)) c | None => false end
  | None => true
  end.

Lemma evaluate_holds conditions (object : option CommittedObject) :
  evaluateWriteConditions conditions (match obj_Metadata <$> object with Some _ => true | None => false end)
    {| obj_Value := ""; obj_Metadata := default zeroMetadata (obj_Metadata <$> object) |} =
  if holds conditions object then Ok tt else Err ErrConditionFailed.
Proof.
  unfold evaluateWriteConditions, holds.
  destruct (cond_Exists conditions) as [[]|], (cond_Version conditions) as [c|],
    (cond_UpdatedAt conditions) as [d|], object as [o|]; cbn;
    repeat (destruct (compare_with _ _); cbn); done.
Qed.

Lemma submit_counted r n op : exists r',
  reduceSubmitWrite (r <| rr_inFlightClientWrites := n |>) op = (r', submit_result op) /\
  stages r r' op /\ rr_assignment r' = rr_assignment r.
Proof.
  eexists. split; [reflexivity|]. split; [|done].
  constructor; cbn; try done; [by rw cloneWriteOperation_id|]. left. split; [done|].
  eexists. split; [|done]. cbn. by rw cloneWriteOperation_id.
Qed.

(** The three outcomes of a write that may be accepted. *)
Lemma handleSubmitWrite_spec limits now n rt log base kind key value conditions :
  slot_inv log base rt -> own_progressionGap rt = false -> rr_state (own_record rt) = StateActive ->
  asg_Role (rr_assignment (own_record rt)) = ReplicaRoleHead \/
  asg_Role (rr_assignment (own_record rt)) = ReplicaRoleSingle ->
  let op := next_operation now log rt kind key value in
  exists rt1 r, slot_inv log base rt1 /\ own_record rt1 = own_record rt /\
  stages (own_record rt) r op /\
  handleSubmitWrite (in_backend base) limits now n rt kind key value conditions =
  if negb (holds conditions (current_object log rt key)) then (rt1, n, SubmitRejected ErrConditionFailed)
  else if bool_decide (kind = OperationKindDelete) && negb (bool_decide (is_Some (current_object log rt key)))
  then (rt1, n, SubmitAbsent {| result_Slot := own_slot rt; result_Sequence := 0;
                                result_Applied := false; result_Metadata := None |})
  else match tryAdmitNodeClientWrite limits n (own_slot rt) (rr_inFlightClientWrites (own_record rt)) with
       | Err e => (rt1, n, SubmitRejected e)
       | Ok n' =>
           (rt1 <| own_record := r |>, n',
            SubmitStaged (submit_result op) (asg_Role (rr_assignment (own_record rt)))
              (effect_of_role (own_record rt) op))
       end.
Proof.
  intros Hi Hg Hst Hrole op. destruct (committedMetadataState_spec log base rt key Hi) as (rt1 & Hm & Hi1 & Hr1 & Hs1).
  destruct (submit_counted (own_record rt) (rr_inFlightClientWrites (own_record rt) + 1) op)
    as (r & Hred & Hstages & Ha).
  exists rt1, r. do 3 (split; [done|]). unfold handleSubmitWrite, activeRecord.
  rw (si_exists _ _ _ Hi) Hg Hst bool_decide_true //.
  cbn -[reduceSubmitWrite set_field effect_of_role].
  assert (negb (bool_decide (asg_Role (rr_assignment (own_record rt)) = ReplicaRoleHead)) &&
    negb (bool_decide (asg_Role (rr_assignment (own_record rt)) = ReplicaRoleSingle)) = false) as ->.
  { destruct Hrole as [-> | ->]; done. }
  rw Hm evaluate_holds. destruct (holds _ _); [cbn -[reduceSubmitWrite set_field effect_of_role]|done]. rw Hs1.
  assert (match obj_Metadata <$> current_object log rt key with Some _ => true | None => false end =
    bool_decide (is_Some (current_object log rt key))) as ->.
  { destruct (current_object log rt key); done. }
  destruct (bool_decide (kind = OperationKindDelete) && _); [done|].
  destruct (tryAdmitNodeClientWrite _ _ _ _) as [n'|]; [|done].
  assert (nextObjectMetadata now (bool_decide (is_Some (current_object log rt key)))
    (obj_Metadata <$> current_object log rt key) = op_Metadata op) as ->.
  { unfold op, next_operation. cbn. destruct (current_object log rt key); done. }
  change (rr_nextSequence ((own_record rt) <| rr_inFlightClientWrites := _ |>)) with (op_Sequence op).
  unfold op, next_operation in *. cbn [op_Sequence op_Metadata]. rw Hred.
  unfold effect_of_role. by rw Ha.
Qed.

(** ** Reconfiguration

    Changes of a record that leave its operations alone. *)
Record keeps (r r' : replicaRecord) : Prop := {
  kp_next : rr_nextSequence r' = rr_nextSequence r;
  kp_committed : rr_highestCommittedSequence r' = rr_highestCommittedSequence r;
  kp_durable : rr_highestPreparedDurable r' = rr_highestPreparedDurable r;
  kp_materialised : rr_materializedCommittedSequence r' = rr_materializedCommittedSequence r;
  kp_prepared : rr_preparedEntries r' = rr_preparedEntries r;
  kp_dirty : rr_dirtyByKey r' = rr_dirtyByKey r;
  kp_overlay : rr_committedOverlay r' = rr_committedOverlay r;
  kp_pending : rr_pendingWrites r' = rr_pendingWrites r;
  kp_staged : forall s f', rr_stagedForwards r' !! s = Some f' -> exists f,
    rr_stagedForwards r !! s = Some f /\ fwd_Operation f' = fwd_Operation f;
  kp_held : forall s f, rr_stagedForwards r !! s = Some f -> rr_highestCommittedSequence r < s -> exists f',
    rr_stagedForwards r' !! s = Some f' /\ fwd_Operation f' = fwd_Operation f;
}.

#[export] Instance keeps_preorder : PreOrder keeps.
Proof.
  split; [by constructor; eauto|]. intros r1 r2 r3 H12 H23. constructor;
    try (by destruct H12, H23; congruence).
  - intros s f3 (f2 & H2 & E2)%(kp_staged _ _ H23). destruct (kp_staged _ _ H12 _ _ H2) as (f1 & H1 & E1).
    exists f1. split; [done|congruence].
  - intros s f1 H1 Hlt. destruct (kp_held _ _ H12 _ _ H1 Hlt) as (f2 & H2 & E2).
    destruct (kp_held _ _ H23 _ _ H2) as (f3 & H3 & E3); [by rw (kp_committed _ _ H12)|].
    exists f3. split; [done|congruence].
Qed.

Lemma tracked_keeps log r r' : tracked log r -> keeps r r' -> tracked log r'.
Proof.
  intros [Hh Hp Hs] Hk. constructor; rw (kp_committed _ _ Hk) ?(kp_pending _ _ Hk).
  - intros i op Hi Hlt. destruct (Hh i op Hi Hlt) as [?|(f & Hf & Ef)%fmap_Some]; [by left|right].
    destruct (kp_held _ _ Hk _ _ Hf Hlt) as (f' & -> & E). cbn. congruence.
  - exact Hp.
  - intros s f' (f & Hf & ->)%(kp_staged _ _ Hk). by apply Hs.
Qed.

Lemma keeps_inv log base rt r' :
  slot_inv log base rt -> keeps (own_record rt) r' -> slot_inv log base (rt <| own_record := r' |>).
Proof.
  intros [Hl Hn Hr Hord Hp Hd Ho Hb Hc Htr Hck Hex] Hk. pose proof Hk as [E1 E2 E3 E4 E5 E6 E7 _ _ _].
  constructor; cbn; rw ?E1 ?E2 ?E3 ?E4 ?E5 ?E6 ?E7 //. by apply (tracked_keeps _ (own_record rt)).
Qed.

(** Records that agree on everything the invariant speaks of. *)
Lemma keeps_same r r' :
  rr_nextSequence r' = rr_nextSequence r -> rr_highestCommittedSequence r' = rr_highestCommittedSequence r ->
  rr_highestPreparedDurable r' = rr_highestPreparedDurable r ->
  rr_materializedCommittedSequence r' = rr_materializedCommittedSequence r ->
  rr_preparedEntries r' = rr_preparedEntries r -> rr_dirtyByKey r' = rr_dirtyByKey r ->
  rr_committedOverlay r' = rr_committedOverlay r -> rr_pendingWrites r' = rr_pendingWrites r ->
  rr_stagedForwards r' = rr_stagedForwards r -> keeps r r'.
Proof. intros. constructor; try done; [|]; intros s f Hf; exists f; split; congruence. Qed.

Lemma retarget_forward_keeps r : keeps r (retargetUncommittedForwardSources r).
Proof.
  constructor; try done; cbn; intros s; [intros f'|intros f Hf Hlt]; rw map_lookup_imap.
  - intros (f & Hf & Hr)%bind_Some. exists f. split; [done|]. unfold retargetForward in Hr.
    destruct (_ <=? _); [done|]. destruct (String.eqb _ _); [by injection Hr as <-|].
    destruct (negb _); by injection Hr as <-.
  - rw Hf. cbn. unfold retargetForward. rw (proj2 (Z.leb_gt _ _) Hlt).
    destruct (String.eqb _ _); [by exists f|]. destruct (negb _); by eexists.
Qed.

Lemma reassigned_keeps r assignment : keeps r (reassigned r assignment).
Proof.
  unfold reassigned.
  match goal with |- keeps r (if bool_decide (rr_state ?q = _) then ?q else _) => set (q' := q) end.
  transitivity q'; [|destruct (bool_decide _); [reflexivity|by apply keeps_same]]. unfold q'. clear q'.
  match goal with |- keeps r (if _ then _ else ?q) => set (q' := q) end.
  transitivity q'; [|destruct (successorChanged _ _); [destruct (_ && _)|]; by apply keeps_same].
  unfold q'. clear q'.
  match goal with |- keeps r (if _ then _ else ?q) => set (q' := q) end.
  transitivity q'; [destruct (predecessorPeerChanged _ _); by apply keeps_same|].
  destruct (_ || _); [apply retarget_forward_keeps|reflexivity].
Qed.

(** The owner advances: the invariant holds after, and nothing committed is lost. *)
Definition advances (log : list WriteOperation) (base : Snapshot) (rt rt' : slotRuntime) : Prop :=
  slot_inv log base rt' /\
  rr_highestCommittedSequence (own_record rt) <= rr_highestCommittedSequence (own_record rt').

Lemma advances_trans log base rt1 rt2 rt3 :
  advances log base rt1 rt2 -> (slot_inv log base rt2 -> advances log base rt2 rt3) ->
  advances log base rt1 rt3.
Proof. intros [Hi2 H12] H. destruct (H Hi2) as [Hi3 H23]. split; [done|lia]. Qed.

Lemma keeps_advances log base rt r' :
  slot_inv log base rt -> keeps (own_record rt) r' -> advances log base rt (rt <| own_record := r' |>).
Proof. intros Hi Hk. split; [by apply keeps_inv|]. cbn. rw (kp_committed _ _ Hk). lia. Qed.

Lemma advances_refl log base rt : slot_inv log base rt -> advances log base rt rt.
Proof. split; [done|lia]. Qed.

Lemma upstream_advances log base rt : slot_inv log base rt -> advances log base rt (ensureUpstreamCommitReplay rt).
Proof.
  intros Hi. unfold ensureUpstreamCommitReplay. destruct (negb _); [by apply advances_refl|].
  destruct (String.eqb _ _); [by apply keeps_advances, keeps_same|by apply advances_refl].
Qed.

Lemma watermark_advances limit log base rt sequence :
  slot_inv log base rt -> advances log base rt (applyCommitWatermark limit rt sequence).
Proof.
  intros Hi. destruct (applyCommitWatermark_spec limit _ _ _ sequence Hi) as [Hi' Hc]. split; [done|]. rw Hc. lia.
Qed.

Lemma ready_advances limit sent log base rt :
  slot_inv log base rt -> advances log base rt (submitCommitWatermarkReady limit sent rt (own_record rt)).1.
Proof.
  intros Hi. unfold submitCommitWatermarkReady.
  set (promote := _ && _). set (r := if promote then _ else own_record rt).
  assert (advances log base rt (if promote then rt <| own_record := r |> else rt)) as Ha.
  { unfold r. destruct promote; [by apply keeps_advances, keeps_same|by apply advances_refl]. }
  generalize dependent (if promote then rt <| own_record := r |> else rt). intros rt' Ha.
  eapply advances_trans; [exact Ha|]. intros Hi'. clearbody r. clear Ha Hi.
  destruct (asg_Role (rr_assignment r)); cbn [fst]; try (by apply advances_refl);
    (destruct (rr_highestCommittedSequence r <? _); [by apply watermark_advances|by apply upstream_advances]).
Qed.

Lemma update_peers_advances upsert limit sent log base rt assignment :
  slot_inv log base rt -> advances log base rt (updateChainPeers upsert limit sent rt assignment).1.1.
Proof.
  intros Hi. unfold updateChainPeers. rw (si_exists _ _ _ Hi). cbn -[reassigned submitCommitWatermarkReady].
  destruct (bool_decide _); [by apply advances_refl|].
  pose proof (keeps_advances _ _ _ _ Hi (reassigned_keeps (own_record rt) assignment)) as Ha.
  generalize dependent (reassigned (own_record rt) assignment). intros r Ha.
  destruct (persistReplica _ _); [|done]. destruct (bool_decide _); [|done].
  pose proof (fun Hi' => ready_advances limit sent log base (rt <| own_record := r |>) Hi') as Hr.
  change (own_record (rt <| own_record := r |>)) with r in Hr.
  destruct (submitCommitWatermarkReady _ _ _ _) as [rt2 sub]. cbn [fst] in *.
  eapply advances_trans; [exact Ha|]. intros Hi1. eapply advances_trans; [by apply Hr|]. apply upstream_advances.
Qed.

Lemma activate_advances upsert log base rt :
  slot_inv log base rt -> advances log base rt (activateReplicaReady upsert rt).1.
Proof.
  intros Hi. unfold activateReplicaReady. rw (si_exists _ _ _ Hi). cbn [negb].
  destruct (rr_state _); try (by apply advances_refl). by apply keeps_advances, keeps_same.
Qed.

Lemma leaving_advances upsert log base rt :
  slot_inv log base rt -> advances log base rt (markReplicaLeaving upsert rt).1.
Proof.
  intros Hi. unfold markReplicaLeaving. rw (si_exists _ _ _ Hi). cbn [negb].
  destruct (rr_state _); try (by apply advances_refl). by apply keeps_advances, keeps_same.
Qed.

Lemma release_advances log base rt n :
  slot_inv log base rt -> advances log base rt (releaseClientWrite rt n).1.
Proof.
  intros Hi. unfold releaseClientWrite. rw (si_exists _ _ _ Hi). cbn [negb fst].
  apply keeps_advances; [done|]. destruct (_ <? _); [by apply keeps_same|reflexivity].
Qed.

(** ** Runs of a slot owner

    A configuration is the log of staged operations, the contents of the
    backend and the owner's runtime. *)
Record slot_config := {
  sc_log : list WriteOperation;
  sc_base : Snapshot;
  sc_rt : slotRuntime;
}.

(** The log after a transition: one operation longer when a sequence number
    was consumed. *)
Definition grown_log (log : list WriteOperation) (r r' : replicaRecord) : list WriteOperation :=
  if rr_nextSequence r' =? rr_nextSequence r then log
  else log ++ option_list (rr_preparedEntries r' !! rr_nextSequence r).

Definition has_room (rt : slotRuntime) : Prop := rr_nextSequence (own_record rt) < u64_mod - 2.

Definition after_rt (c : slot_config) (rt' : slotRuntime) : slot_config :=
  {| sc_log := grown_log (sc_log c) (own_record (sc_rt c)) (own_record rt');
     sc_base := sc_base c; sc_rt := rt' |}.

Inductive slot_step : slot_config -> slot_config -> Prop :=
| slot_submit c limits now n kind key value conditions rt' n' answer :
    has_room (sc_rt c) -> kind = OperationKindPut \/ kind = OperationKindDelete ->
    handleSubmitWrite (in_backend (sc_base c)) limits now n (sc_rt c) kind key value conditions =
      (rt', n', answer) ->
    slot_step c (after_rt c rt')
| slot_forward c req limits record red :
    has_room (sc_rt c) -> supported (fwd_Operation req) ->
    replicationRecord (sc_rt c) = Ok record -> reduceForwardWrite record req limits = Ok red ->
    slot_step c (after_rt c ((sc_rt c) <| own_record := red_Record red |>))
| slot_buffer c req limits record :
    reduceBufferFutureForward (own_record (sc_rt c)) req limits = Ok record ->
    slot_step c (after_rt c ((sc_rt c) <| own_record := record |>))
| slot_prepared c op :
    op ∈ sc_log c ->
    slot_step c (after_rt c ((sc_rt c) <| own_record := prepareDurable (own_record (sc_rt c)) op |>))
| slot_token c req :
    slot_step c (after_rt c ((sc_rt c) <| own_record := ingestCommitToken (own_record (sc_rt c)) req |>))
| slot_commit c limit sequence :
    slot_step c (after_rt c (applyCommitWatermark limit (sc_rt c) sequence))
| slot_activate c upsert :
    slot_step c (after_rt c (activateReplicaReady upsert (sc_rt c)).1)
| slot_leave c upsert :
    slot_step c (after_rt c (markReplicaLeaving upsert (sc_rt c)).1)
| slot_update_peers c upsert limit sent assignment :
    slot_step c (after_rt c (updateChainPeers upsert limit sent (sc_rt c) assignment).1.1)
| slot_release c n :
    slot_step c (after_rt c (releaseClientWrite (sc_rt c) n).1)
| slot_apply c b h :
    sc_base c = materialise (ztake b (sc_log c)) ->
    rr_materializedCommittedSequence (own_record (sc_rt c)) <= b <= h ->
    h <= rr_highestCommittedSequence (own_record (sc_rt c)) ->
    slot_step c {| sc_log := sc_log c; sc_base := materialise (ztake h (sc_log c)); sc_rt := sc_rt c |}
| slot_materialised c b h :
    sc_base c = materialise (ztake b (sc_log c)) ->
    b <= rr_highestCommittedSequence (own_record (sc_rt c)) ->
    rr_materializedCommittedSequence (own_record (sc_rt c)) <= h <= b ->
    slot_step c (after_rt c (markMaterialized (sc_rt c) h)).

(** What the overlay of a replica is when [h] operations are committed and [m]
    materialised. *)
Definition overlay_of (log : list WriteOperation) (m h : Z) (overlay : gmap string dirtyReadEntry) : Prop :=
  forall key, overlay !! key = dirty_entry <$> last (at_key key (zdrop m (ztake h log))).

(** A record that holds exactly the log, all of it committed and [m] operations
    of it materialised. *)
Record restored (log : list WriteOperation) (m : Z) (r : replicaRecord) : Prop := {
  rs_order : 0 <= m <= zlength log;
  rs_next : rr_nextSequence r = zlength log + 1;
  rs_committed : rr_highestCommittedSequence r = zlength log;
  rs_durable : rr_highestPreparedDurable r = zlength log;
  rs_materialised : rr_materializedCommittedSequence r = m;
  rs_prepared : forall s, m < s <= zlength log -> rr_preparedEntries r !! s = log !! Z.to_nat (s - 1);
  rs_overlay : overlay_of log m (zlength log) (rr_committedOverlay r);
  rs_dirty : rr_dirtyByKey r = ∅;
  rs_staged : rr_stagedForwards r = ∅;
  rs_pending : rr_pendingWrites r = ∅;
}.

(** A replica that starts empty, from a peer's committed state, or from its own
    journal after a restart. *)
Inductive slot_start : slot_config -> Prop :=
| start_added log slot assignment :
    log_ok log -> zlength log < u64_mod - 1 ->
    (PredecessorNodeID (asg_Peers assignment) = "" -> log = []) ->
    slot_start {| sc_log := log; sc_base := materialise log;
                  sc_rt := {| own_slot := slot; own_exists := true;
                              own_record := catchingUpRecord assignment (zlength log);
                              own_committedMetadata := ∅; own_progressionGap := false;
                              own_progressionGapSequence := 0 |} |}
| start_recovered log slot assignment :
    log_ok log -> zlength log < u64_mod - 1 ->
    slot_start {| sc_log := log; sc_base := materialise log;
                  sc_rt := {| own_slot := slot; own_exists := true;
                              own_record := recoveredRecord assignment (zlength log);
                              own_committedMetadata := ∅; own_progressionGap := false;
                              own_progressionGapSequence := 0 |} |}
| start_restored log m slot r :
    log_ok log -> zlength log < u64_mod - 1 -> restored log m r ->
    slot_start {| sc_log := log; sc_base := materialise (ztake m log);
                  sc_rt := {| own_slot := slot; own_exists := true; own_record := r;
                              own_committedMetadata := ∅; own_progressionGap := false;
                              own_progressionGapSequence := 0 |} |}.

Definition slot_reachable (c : slot_config) : Prop := exists c0, slot_start c0 /\ rtc slot_step c0 c.

Definition config_inv (c : slot_config) : Prop := slot_inv (sc_log c) (sc_base c) (sc_rt c).

Lemma ztake_all {A} (l : list A) : ztake (zlength l) l = l.
Proof. unfold ztake, zlength. rw Nat2Z.id. apply take_ge. lia. Qed.

Lemma zdrop_all {A} (l : list A) : zdrop (zlength l) l = [].
Proof. unfold zdrop, zlength. rw Nat2Z.id. apply drop_ge. lia. Qed.

Lemma zdrop_ztake_same {A} n (l : list A) : zdrop n (ztake n l) = [].
Proof. unfold zdrop, ztake. apply drop_ge. rw length_take. lia. Qed.

Lemma restored_inv log m slot r :
  log_ok log -> zlength log < u64_mod - 1 -> restored log m r ->
  slot_inv log (materialise (ztake m log))
    {| own_slot := slot; own_exists := true; own_record := r; own_committedMetadata := ∅;
       own_progressionGap := false; own_progressionGapSequence := 0 |}.
Proof.
  intros Hl Hr [Ho E1 E2 E3 E4 Hp Hov E5 E6 E7].
  constructor; cbn; rw ?E1 ?E2 ?E3 ?E4 ?E5 ?zdrop_all //; [lia| |by exists m; split; [lia|]|].
  - intros i op Hop Hlt. rw (lo_sequence _ Hl _ _ Hop) in Hlt |- *. rw Hp.
    { apply lookup_lt_Some in Hop. unfold zlength. lia. }
    by replace (Z.to_nat (Z.of_nat i + 1 - 1)) with i by lia.
  - constructor; rw ?E2 ?E6 ?E7 //. intros i op Hop. rw (lo_sequence _ Hl _ _ Hop).
    apply lookup_lt_Some in Hop. unfold zlength. lia.
Qed.

(** The records of new and of recovered replicas. *)
Lemma materialised_restored log r :
  zlength log < u64_mod - 1 ->
  rr_nextSequence r = u64_add (zlength log) 1 -> rr_materializedCommittedSequence r = zlength log ->
  rr_highestCommittedSequence r = zlength log -> rr_highestPreparedDurable r = zlength log ->
  rr_dirtyByKey r = ∅ -> rr_committedOverlay r = ∅ -> rr_stagedForwards r = ∅ -> rr_pendingWrites r = ∅ ->
  restored log (zlength log) r.
Proof.
  intros Hr E1 E2 E3 E4 E5 E6 E7 E8. assert (0 <= zlength log) by (unfold zlength; lia).
  constructor; rw ?E1 ?E2 ?E3 ?E4 ?E6 //; [lia|by apply u64_add_small; lia|lia|].
  intros key. by rw zdrop_ztake_same.
Qed.

Lemma start_inv c : slot_start c -> config_inv c.
Proof.
  intros Hs. unfold config_inv. destruct Hs as [log slot assignment Hl Hr Hp|log slot assignment Hl Hr|log m slot r Hl Hr Hrs];
    cbn; [| |by apply restored_inv]; rw -{2}(ztake_all log);
    apply restored_inv; try done; apply materialised_restored; try done;
    unfold catchingUpRecord; cbn;
    (destruct (String.eqb_spec (PredecessorNodeID (asg_Peers assignment)) "") as [He|]; [|done]);
    by rw (Hp He).
Qed.

Lemma grown_same log r r' : rr_nextSequence r' = rr_nextSequence r -> grown_log log r r' = log.
Proof. intros H. unfold grown_log. by rw H Z.eqb_refl. Qed.

Lemma stage_config c rt' op :
  config_inv c -> has_room (sc_rt c) -> supported op ->
  op_Sequence op = rr_nextSequence (own_record (sc_rt c)) ->
  slot_inv (sc_log c) (sc_base c) rt' -> own_record rt' = own_record (sc_rt c) ->
  forall r', stages (own_record (sc_rt c)) r' op ->
  config_inv (after_rt c (rt' <| own_record := r' |>)) /\
  sc_log (after_rt c (rt' <| own_record := r' |>)) = sc_log c ++ [op].
Proof.
  intros Hi Hroom Hop Hseq Hi' Hr r' Hst. pose proof (si_next _ _ _ Hi) as Hn. unfold has_room in Hroom.
  assert (sc_log (after_rt c (rt' <| own_record := r' |>)) = sc_log c ++ [op]) as Hlog.
  { cbn. unfold grown_log. rw (sg_next _ _ _ Hst) (sg_prepared _ _ _ Hst) -Hseq lookup_insert_eq.
    rw Hseq u64_add_small; [unfold zlength in *; lia|]. by rw (proj2 (Z.eqb_neq _ _)); [lia|]. }
  split; [|done]. unfold config_inv. rw Hlog. apply stage_inv; try done; [by rw Hr|lia|by rw Hr].
Qed.

Lemma frame_config c rt' :
  slot_inv (sc_log c) (sc_base c) rt' -> config_inv c -> config_inv (after_rt c rt').
Proof.
  intros Hi' Hi. unfold config_inv, after_rt. cbn. rw grown_same //.
  by rw (si_next _ _ _ Hi') (si_next _ _ _ Hi).
Qed.

Lemma triple_inv {A B C} (a x : A) (b y : B) (c z : C) : (a, b, c) = (x, y, z) -> a = x.
Proof. by intros [= -> _ _]. Qed.

Lemma submit_gap get log base limits now n rt kind key value conditions :
  slot_inv log base rt -> own_progressionGap rt = true ->
  handleSubmitWrite get limits now n rt kind key value conditions = (rt, n, SubmitRejected ErrStateMismatch).
Proof.
  intros Hi Hg. assert (activeRecord rt = Err ErrStateMismatch) as Ha.
  { unfold activeRecord. by rw (si_exists _ _ _ Hi) Hg. }
  unfold handleSubmitWrite. rw Ha. reflexivity.
Qed.

Lemma submit_inactive get log base limits now n rt kind key value conditions :
  slot_inv log base rt -> own_progressionGap rt = false -> rr_state (own_record rt) <> StateActive ->
  handleSubmitWrite get limits now n rt kind key value conditions = (rt, n, SubmitRejected ErrWriteRejected).
Proof.
  intros Hi Hg Hst. assert (activeRecord rt = Err ErrWriteRejected) as Ha.
  { unfold activeRecord. by rw (si_exists _ _ _ Hi) Hg (bool_decide_false _ Hst). }
  unfold handleSubmitWrite. rw Ha. reflexivity.
Qed.

Lemma submit_wrong_role get log base limits now n rt kind key value conditions :
  slot_inv log base rt -> own_progressionGap rt = false -> rr_state (own_record rt) = StateActive ->
  ~ (asg_Role (rr_assignment (own_record rt)) = ReplicaRoleHead \/
     asg_Role (rr_assignment (own_record rt)) = ReplicaRoleSingle) ->
  handleSubmitWrite get limits now n rt kind key value conditions = (rt, n, SubmitRejected ErrWriteRejected).
Proof.
  intros Hi Hg Hst Hr. assert (activeRecord rt = Ok (own_record rt)) as Ha.
  { unfold activeRecord. by rw (si_exists _ _ _ Hi) Hg (bool_decide_true _ Hst). }
  unfold handleSubmitWrite. rw Ha.
  rw (bool_decide_false (_ = ReplicaRoleHead)); [by intros ?; apply Hr; left|].
  rw (bool_decide_false (_ = ReplicaRoleSingle)); [by intros ?; apply Hr; right|]. reflexivity.
Qed.

Lemma submit_step c limits now n kind key value conditions rt' n' answer :
  config_inv c -> has_room (sc_rt c) -> kind = OperationKindPut \/ kind = OperationKindDelete ->
  handleSubmitWrite (in_backend (sc_base c)) limits now n (sc_rt c) kind key value conditions =
    (rt', n', answer) ->
  config_inv (after_rt c rt').
Proof.
  intros Hi Hroom Hk Hh. destruct (own_progressionGap (sc_rt c)) eqn:Hg.
  { rw (submit_gap _ (sc_log c) (sc_base c)) // in Hh. apply triple_inv in Hh as <-. by apply frame_config. }
  destruct (decide (rr_state (own_record (sc_rt c)) = StateActive)) as [Hst|Hst].
  2: { rw (submit_inactive _ (sc_log c) (sc_base c)) // in Hh. apply triple_inv in Hh as <-.
       by apply frame_config. }
  destruct (decide (asg_Role (rr_assignment (own_record (sc_rt c))) = ReplicaRoleHead \/
    asg_Role (rr_assignment (own_record (sc_rt c))) = ReplicaRoleSingle)) as [Hr|Hr].
  2: { rw (submit_wrong_role _ (sc_log c) (sc_base c)) // in Hh. apply triple_inv in Hh as <-.
       by apply frame_config. }
  destruct (handleSubmitWrite_spec limits now n (sc_rt c) (sc_log c) (sc_base c) kind key value conditions
    Hi Hg Hst Hr) as (rt1 & r & Hi1 & Hr1 & Hst1 & Heq). rw Hh in Heq. clear Hh.
  destruct (negb _); [apply triple_inv in Heq as ->; by apply frame_config|].
  destruct (_ && _); [apply triple_inv in Heq as ->; by apply frame_config|].
  destruct (tryAdmitNodeClientWrite _ _ _ _); [|apply triple_inv in Heq as ->; by apply frame_config].
  apply triple_inv in Heq as ->.
  by apply (stage_config c rt1 (next_operation now (sc_log c) (sc_rt c) kind key value)).
Qed.

Lemma buffer_frame r req limits r' :
  reduceBufferFutureForward r req limits = Ok r' ->
  exists buffered, r' = r <| rr_bufferedForwards := buffered |>.
Proof.
  unfold reduceBufferFutureForward. destruct (rr_bufferedForwards r !! _).
  - intros (_ & _ & [= <-])%bind_Ok. exists (rr_bufferedForwards r). by destruct r.
  - intros (_ & _ & [= <-])%bind_Ok. by eexists.
Qed.

Lemma buffer_inv log base rt req limits r' :
  slot_inv log base rt -> reduceBufferFutureForward (own_record rt) req limits = Ok r' ->
  slot_inv log base (rt <| own_record := r' |>).
Proof.
  intros Hi [b ->]%buffer_frame. destruct (si_order _ _ _ Hi). apply frame_inv; try done. cbn. lia.
Qed.

Lemma staged_before log base rt s f :
  slot_inv log base rt -> rr_stagedForwards (own_record rt) !! s = Some f -> s < rr_nextSequence (own_record rt).
Proof.
  intros Hi Hs. destruct (tr_staged _ _ (si_tracked _ _ _ Hi) _ _ Hs) as [Hc Hl].
  destruct (si_order _ _ _ Hi) as [Hm _]. rw (si_next _ _ _ Hi).
  apply lookup_lt_Some in Hl. unfold zlength. lia.
Qed.

Lemma forward_step c req limits record red :
  config_inv c -> has_room (sc_rt c) -> supported (fwd_Operation req) ->
  replicationRecord (sc_rt c) = Ok record -> reduceForwardWrite record req limits = Ok red ->
  config_inv (after_rt c ((sc_rt c) <| own_record := red_Record red |>)).
Proof.
  intros Hi Hroom Hop Hrec Hred.
  assert (record = own_record (sc_rt c)) as ->.
  { unfold replicationRecord in Hrec. apply bind_Ok in Hrec as (_ & _ & Hrec).
    apply bind_Ok in Hrec as (_ & _ & [= ->]). done. }
  unfold reduceForwardWrite in Hred. apply bind_Ok in Hred as (_ & _ & Hred).
  destruct (Z.ltb_spec (op_Sequence (fwd_Operation req)) (rr_nextSequence (own_record (sc_rt c)))).
  { apply bind_Ok in Hred as (_ & _ & [= <-]). cbn. rw set_record_same. by apply frame_config. }
  destruct (Z.ltb_spec (rr_nextSequence (own_record (sc_rt c))) (op_Sequence (fwd_Operation req))).
  { apply bind_Ok in Hred as (r' & Hb & [= <-]). apply frame_config; [|done]. by apply (buffer_inv _ _ _ req limits). }
  injection Hred as <-. apply (stage_config c (sc_rt c) (fwd_Operation req)); try done; [lia|]. apply forward_stages.
  destruct (rr_stagedForwards (own_record (sc_rt c)) !! op_Sequence (fwd_Operation req)) eqn:Hs; [|done].
  apply (staged_before _ _ _ _ _ Hi) in Hs. lia.
Qed.

Lemma slot_step_inv c c' : config_inv c -> slot_step c c' -> config_inv c'.
Proof.
  intros Hi Hs. destruct Hs as [? ? ? ? ? ? ? ? ? ? ? Hr Hk Hh|? ? ? ? ? Hr Hs Hrec Hred|? ? ? ? Hb|? ? Hop|? ?|? ? ?|? ?|? ?|? ? ? ? ?|? ?|? ? ? Hb Hh Hc|? ? ? Hb Hc Hh].
  - eapply submit_step; eauto.
  - eapply forward_step; eauto.
  - apply frame_config; [|done]. eapply buffer_inv; eauto.
  - apply frame_config; [|done]. by apply prepareDurable_inv.
  - apply frame_config; [|done]. by apply ingestCommitToken_inv.
  - apply frame_config; [|done]. by apply applyCommitWatermark_spec.
  - apply frame_config; [|done]. by apply activate_advances.
  - apply frame_config; [|done]. by apply leaving_advances.
  - apply frame_config; [|done]. by apply update_peers_advances.
  - apply frame_config; [|done]. by apply release_advances.
  - apply (base_inv _ _ _ _ Hi). lia.
  - apply frame_config; [|done]. by apply (markMaterialized_inv _ _ _ b).
Qed.

Lemma reachable_config_inv c : slot_reachable c -> config_inv c.
Proof.
  intros (c0 & H0 & Hs). apply start_inv in H0. induction Hs as [|c1 c2 c3 H12 _ IH]; [done|].
  apply IH. by apply (slot_step_inv c1).
Qed.

(** ** Claims *)
(** C10. The slot invariant: every reachable owner has numbered its operations
    1, 2, 3, ... without gaps, keeps materialised <= committed <= durably
    prepared <= staged, still holds every operation it has not materialised,
    lists per key exactly its uncommitted operations in order, overlays the
    backend with exactly what is committed and not yet materialised, and tracks
    each uncommitted operation as a client's pending write or a staged forward. *)
Theorem slot_owner_invariant c : slot_reachable c -> slot_inv (sc_log c) (sc_base c) (sc_rt c).
Proof. apply reachable_config_inv. Qed.

(** C14. Refinement of the committed state: looking a key up through overlay and
    backend, and merging overlay and backend into a snapshot, both give the
    committed prefix of the slot's log applied in order. *)
Theorem committed_state_refines c :
  slot_reachable c ->
  (forall key, committedObject (in_backend (sc_base c)) (own_record (sc_rt c)) (own_slot (sc_rt c)) key =
    Ok (materialise (committed_prefix (sc_log c) (sc_rt c)) !! key)) /\
  recordMergedCommittedSnapshot (own_record (sc_rt c)) (sc_base c) =
    materialise (committed_prefix (sc_log c) (sc_rt c)).
Proof.
  intros Hi%reachable_config_inv. split; [intros key; by apply committedObject_spec|by apply merged_spec].
Qed.

Definition read_of (req : ClientGetRequest) (record : replicaRecord) (object : option CommittedObject) : ReadResult :=
  {| read_Slot := get_Slot req; read_ChainVersion := asg_ChainVersion (rr_assignment record);
     read_Found := bool_decide (is_Some object);
     read_Value := match object with Some o => obj_Value o | None => "" end;
     read_Metadata := obj_Metadata <$> object |}.

Lemma resolveRead_spec c fetch req t consistency :
  config_inv c -> get_Slot req = own_slot (sc_rt c) ->
  let record := own_record (sc_rt c) in
  let peers := asg_Peers (rr_assignment record) in
  normalizeReadConsistency consistency = ReadConsistencyLinearizable ->
  asg_Role (rr_assignment record) <> ReplicaRoleTail -> asg_Role (rr_assignment record) <> ReplicaRoleSingle ->
  peerTransportTarget (TailTarget peers) (TailNodeID peers) <> "" ->
  fetch (peerTransportTarget (TailTarget peers) (TailNodeID peers)) (get_Slot req) = Ok t ->
  resolveRead (in_backend (sc_base c)) fetch req record (dirtyEntriesForKey record (get_Key req))
    (normalizeReadConsistency consistency) =
  Ok (materialise (ztake (Z.max (rr_highestCommittedSequence record) t) (sc_log c)) !! get_Key req).
Proof.
  intros Hi Hslot record peers -> Hrt Hrs Htgt Hf. unfold resolveRead. fold record. fold peers. rw Hslot.
  rw (committedObject_spec _ _ _ (get_Key req) Hi).
  pose proof (resolve_at_tail _ _ _ (get_Key req) t Hi) as Hres. fold record in Hres.
  cbn -[resolve_dirty reverse]. rw (proj2 (String.eqb_neq _ _) Htgt) -Hslot Hf.
  destruct (dirtyEntriesForKey record (get_Key req)) as [|e es]; [by destruct (asg_Role _)|].
  by destruct (asg_Role (rr_assignment record)).
Qed.

Lemma get_answers c fetch req object :
  config_inv c -> let record := own_record (sc_rt c) in
  rr_state record = StateActive -> asg_ChainVersion (rr_assignment record) = get_ExpectedChainVersion req ->
  resolveRead (in_backend (sc_base c)) fetch req record (dirtyEntriesForKey record (get_Key req))
    (normalizeReadConsistency (get_Consistency req)) = Ok object ->
  handleClientGet (in_backend (sc_base c)) fetch (sc_rt c) req = Ok (read_of req record object).
Proof.
  intros Hi record Hst Hv Hres. unfold handleClientGet. fold record in Hres |- *.
  rw (si_exists _ _ _ Hi) Hst Hv Z.eqb_refl bool_decide_true // Hres.
  cbn -[materialise cloneObjectMetadata]. unfold read_of. rw Hv. f_equal.
  destruct object; cbn -[cloneObjectMetadata]; by rw ?cloneObjectMetadata_id.
Qed.

(** Linearizable reads: a replica below the tail answers with the state
    after every operation that the tail has reported committed (or that the
    replica itself has committed, if that is further), whatever else it has
    staged. *)
Theorem linearizable_read c fetch req t :
  slot_reachable c -> get_Slot req = own_slot (sc_rt c) ->
  let record := own_record (sc_rt c) in
  let peers := asg_Peers (rr_assignment record) in
  rr_state record = StateActive -> asg_ChainVersion (rr_assignment record) = get_ExpectedChainVersion req ->
  normalizeReadConsistency (get_Consistency req) = ReadConsistencyLinearizable ->
  asg_Role (rr_assignment record) <> ReplicaRoleTail -> asg_Role (rr_assignment record) <> ReplicaRoleSingle ->
  peerTransportTarget (TailTarget peers) (TailNodeID peers) <> "" ->
  fetch (peerTransportTarget (TailTarget peers) (TailNodeID peers)) (get_Slot req) = Ok t ->
  handleClientGet (in_backend (sc_base c)) fetch (sc_rt c) req =
  Ok (read_of req record
        (materialise (ztake (Z.max (rr_highestCommittedSequence record) t) (sc_log c)) !! get_Key req)).
Proof.
  intros Hi%reachable_config_inv Hslot record peers Hst Hv Hcons Hrt Hrs Htgt Hf.
  apply (get_answers c); [done|done|done|].
  exact (resolveRead_spec c fetch req t (get_Consistency req) Hi Hslot Hcons Hrt Hrs Htgt Hf).
Qed.

(** C19. The commit watermark: applying any watermark to a reachable owner
    commits exactly up to the least of the watermark, the commit tokens received
    and the durable prefix, never moves backwards and never reports a gap. *)
Theorem commit_watermark_exact c limit sequence :
  slot_reachable c ->
  let rt' := applyCommitWatermark limit (sc_rt c) sequence in
  own_progressionGap rt' = own_progressionGap (sc_rt c) /\
  rr_highestCommittedSequence (own_record rt') =
  Z.max (rr_highestCommittedSequence (own_record (sc_rt c)))
    (Z.min sequence (Z.min (rr_highestCommitTokenReceived (own_record (sc_rt c)))
                           (rr_highestPreparedDurable (own_record (sc_rt c))))).
Proof.
  intros Hi%reachable_config_inv rt'. destruct (applyCommitWatermark_spec limit _ _ _ sequence Hi) as [Hi' Hc].
  split; [by apply (applyCommitWatermark_gap _ _ _ _ _ Hi)|exact Hc].
Qed.

(** ** The committed history *)
Lemma prefix_ztake {A} (n m : Z) (l k : list A) : 0 <= n <= m -> m <= zlength k -> l `prefix_of` k ->
  n <= zlength l -> ztake n l `prefix_of` ztake m k.
Proof.
  intros Hn Hm [t ->] Hl. unfold ztake, zlength in *.
  rw -(take_app_le l t) //; [lia|]. exists (drop (Z.to_nat n) (take (Z.to_nat m) (l ++ t))).
  rw -{1}(take_drop (Z.to_nat n) (take (Z.to_nat m) (l ++ t))) take_take.
  by replace (Z.to_nat n `min` Z.to_nat m)%nat with (Z.to_nat n) by lia.
Qed.

Lemma grown_prefix log r r' : log `prefix_of` grown_log log r r'.
Proof. unfold grown_log. destruct (_ =? _); [done|]. by apply prefix_app_r. Qed.

Lemma submit_committed get limits now n rt kind key value conditions rt' n' answer log base :
  slot_inv log base rt -> get = in_backend base ->
  handleSubmitWrite get limits now n rt kind key value conditions = (rt', n', answer) ->
  rr_highestCommittedSequence (own_record rt') = rr_highestCommittedSequence (own_record rt).
Proof.
  intros Hi -> Hh. destruct (own_progressionGap rt) eqn:Hg.
  { rw (submit_gap _ log base) // in Hh. by apply triple_inv in Hh as <-. }
  destruct (decide (rr_state (own_record rt) = StateActive)) as [Hst|Hst].
  2: { rw (submit_inactive _ log base) // in Hh. by apply triple_inv in Hh as <-. }
  destruct (decide (asg_Role (rr_assignment (own_record rt)) = ReplicaRoleHead \/
    asg_Role (rr_assignment (own_record rt)) = ReplicaRoleSingle)) as [Hr|Hr].
  2: { rw (submit_wrong_role _ log base) // in Hh. by apply triple_inv in Hh as <-. }
  destruct (handleSubmitWrite_spec limits now n rt log base kind key value conditions Hi Hg Hst Hr)
    as (rt1 & r & _ & Hr1 & Hst1 & Heq). rw Hh in Heq. clear Hh.
  destruct (negb _); [apply triple_inv in Heq as ->; by rw Hr1|].
  destruct (_ && _); [apply triple_inv in Heq as ->; by rw Hr1|].
  destruct (tryAdmitNodeClientWrite _ _ _ _); apply triple_inv in Heq as ->; [|by rw Hr1].
  apply (sg_committed _ _ _ Hst1).
Qed.

Lemma forward_committed record req limits red :
  reduceForwardWrite record req limits = Ok red ->
  rr_highestCommittedSequence (red_Record red) = rr_highestCommittedSequence record.
Proof.
  unfold reduceForwardWrite. intros (_ & _ & Hred)%bind_Ok.
  destruct (_ <? _); [by apply bind_Ok in Hred as (_ & _ & [= <-])|].
  destruct (_ <? _); [apply bind_Ok in Hred as (r' & [b ->]%buffer_frame & [= <-]); done|].
  injection Hred as <-. cbn -[reduceStageForward].
  destruct (rr_stagedForwards record !! op_Sequence (fwd_Operation req)) eqn:Hs.
  - unfold reduceStageForward. cbn. by rw Hs.
  - apply (sg_committed _ _ _ (forward_stages _ _ Hs)).
Qed.

Lemma ingest_committed r req :
  rr_highestCommittedSequence (ingestCommitToken r req) = rr_highestCommittedSequence r.
Proof.
  unfold ingestCommitToken. destruct (_ <=? _); [done|]. destruct (_ =? _); [|done].
  match goal with |- context [drain_tokens ?f ?q] => destruct (drain_tokens_frame f q) as (t & b & ->) end.
  done.
Qed.

Lemma step_committed c c' : config_inv c -> slot_step c c' ->
  sc_log c `prefix_of` sc_log c' /\
  rr_highestCommittedSequence (own_record (sc_rt c)) <= rr_highestCommittedSequence (own_record (sc_rt c')).
Proof.
  intros Hi Hs. destruct Hs as [? ? ? ? ? ? ? ? ? ? ? Hr Hk Hh|? ? ? ? ? Hr Hs Hrec Hred|? ? ? ? Hb|? ? Hop|? ?|c limit sequence|? ?|? ?|? ? ? ? ?|? ?|? ? ? Hb Hh Hc|? ? ? Hb Hc Hh];
    (split; [try apply grown_prefix; done|]); cbn -[applyCommitWatermark prepareDurable ingestCommitToken updateChainPeers activateReplicaReady markReplicaLeaving releaseClientWrite].
  - rw (submit_committed _ _ _ _ _ _ _ _ _ _ _ _ _ _ Hi eq_refl Hh). lia.
  - rw (forward_committed _ _ _ _ Hred).
    unfold replicationRecord in Hrec. apply bind_Ok in Hrec as (_ & _ & Hrec).
    apply bind_Ok in Hrec as (_ & _ & [= ->]). lia.
  - apply buffer_frame in Hb as [b ->]. cbn. lia.
  - unfold prepareDurable. repeat case_match; cbn; lia.
  - rw ingest_committed. lia.
  - destruct (applyCommitWatermark_spec limit _ _ _ sequence Hi) as [_ ->]. lia.
  - by apply (activate_advances _ _ _ _ Hi).
  - by apply (leaving_advances _ _ _ _ Hi).
  - by apply (update_peers_advances _ _ _ _ _ _ _ Hi).
  - by apply (release_advances _ _ _ _ Hi).
  - lia.
  - unfold markMaterialized. rw (si_exists _ _ _ Hi). cbn -[recordPruneMaterializedOverlay].
    rw prune_eq; [lia|]. cbn. lia.
Qed.

(** Committed history is append-only: whatever an owner does next, what it
    has committed stays committed, in the same order and with the same
    operations. *)
Theorem committed_history_append_only c c' :
  slot_reachable c -> rtc slot_step c c' ->
  committed_prefix (sc_log c) (sc_rt c) `prefix_of` committed_prefix (sc_log c') (sc_rt c').
Proof.
  intros Hi%reachable_config_inv Hs. induction Hs as [|c1 c2 c3 H12 _ IH]; [done|].
  pose proof (slot_step_inv _ _ Hi H12) as Hi2. etrans; [|by apply IH].
  destruct (step_committed _ _ Hi H12) as [Hp Hc].
  destruct (si_order _ _ _ Hi) as [Ho1 Ho2], (si_order _ _ _ Hi2) as [Ho3 Ho4].
  apply prefix_ztake; [lia|lia|done|lia].
Qed.

(** ** Client writes, joins and retries *)
(** C31. Client writes are decided by the committed object alone: on an active
    head, failed conditions reject the write, deleting an absent object does
    nothing, a full node or slot refuses it, and every other write is staged
    under the next sequence number with the version after the committed one,
    however many writes to the key are still in flight. *)
Theorem client_write_decision c limits now n kind key value conditions :
  slot_reachable c -> has_room (sc_rt c) -> own_progressionGap (sc_rt c) = false ->
  rr_state (own_record (sc_rt c)) = StateActive ->
  asg_Role (rr_assignment (own_record (sc_rt c))) = ReplicaRoleHead \/
  asg_Role (rr_assignment (own_record (sc_rt c))) = ReplicaRoleSingle ->
  kind = OperationKindPut \/ kind = OperationKindDelete ->
  let current := current_object (sc_log c) (sc_rt c) key in
  let op := next_operation now (sc_log c) (sc_rt c) kind key value in
  let '(rt', n', answer) :=
    handleSubmitWrite (in_backend (sc_base c)) limits now n (sc_rt c) kind key value conditions in
  let log' := sc_log (after_rt c rt') in
  if negb (holds conditions current) then answer = SubmitRejected ErrConditionFailed /\ log' = sc_log c
  else if bool_decide (kind = OperationKindDelete) && negb (bool_decide (is_Some current))
  then (exists result, answer = SubmitAbsent result) /\ log' = sc_log c
  else match tryAdmitNodeClientWrite limits n (own_slot (sc_rt c))
               (rr_inFlightClientWrites (own_record (sc_rt c))) with
       | Err e => answer = SubmitRejected e /\ log' = sc_log c
       | Ok _ => (exists role effect, answer = SubmitStaged (submit_result op) role effect) /\
                 log' = sc_log c ++ [op]
       end.
Proof.
  intros Hi%reachable_config_inv Hroom Hg Hst Hr Hk. cbv zeta.
  destruct (handleSubmitWrite_spec limits now n (sc_rt c) (sc_log c) (sc_base c) kind key value conditions
    Hi Hg Hst Hr) as (rt1 & r & Hi1 & Hr1 & Hst1 & ->).
  assert (sc_log (after_rt c rt1) = sc_log c) as Hsame.
  { cbn. apply grown_same. by rw Hr1. }
  destruct (negb _); [done|]. destruct (_ && _); [split; [by eexists|done]|].
  destruct (tryAdmitNodeClientWrite _ _ _ _); [|done]. split; [by do 2 eexists|].
  by apply (stage_config c rt1 (next_operation now (sc_log c) (sc_rt c) kind key value)).
Qed.

(** Joining: a replica added as tail that installs what its predecessor
    returns as committed snapshot and sequence is itself a reachable owner, whose
    log is the predecessor's committed prefix; so every other theorem of this
    file applies to it. *)
Theorem join_from_predecessor c slot assignment :
  slot_reachable c -> PredecessorNodeID (asg_Peers assignment) <> "" ->
  let '(snapshot, highest) := committedSnapshotWithSequence (sc_rt c) (sc_base c) in
  slot_reachable
    {| sc_log := committed_prefix (sc_log c) (sc_rt c); sc_base := snapshot;
       sc_rt := {| own_slot := slot; own_exists := true;
                   own_record := catchingUpRecord assignment highest;
                   own_committedMetadata := ∅; own_progressionGap := false;
                   own_progressionGapSequence := 0 |} |}.
Proof.
  intros Hi%reachable_config_inv Hp. unfold committedSnapshotWithSequence.
  rw (si_exists _ _ _ Hi). cbn -[recordMergedCommittedSnapshot]. rw (merged_spec _ _ _ Hi).
  destruct (si_order _ _ _ Hi) as [Hm Hc].
  assert (zlength (committed_prefix (sc_log c) (sc_rt c)) =
    rr_highestCommittedSequence (own_record (sc_rt c))) as <- by (apply ztake_zlength; lia).
  eexists. split; [|apply rtc_refl]. apply start_added; [| |done].
  - destruct (si_log _ _ _ Hi) as [Hs Hk]. constructor; [|by apply Forall_ztake].
    intros i op Hop. apply lookup_take_Some in Hop as [Hop _]. by apply Hs.
  - rw ztake_zlength; [lia|]. pose proof (si_room _ _ _ Hi). lia.
Qed.

Lemma validate_known record req known :
  rr_stagedForwards record !! op_Sequence (fwd_Operation req) = Some known ->
  fwd_FromNodeID known <> "" -> fwd_FromNodeID known = fwd_FromNodeID req ->
  fwd_ChainVersion known = fwd_ChainVersion req -> validateForwardSource record req = Ok tt.
Proof.
  intros Hs Hne Hid Hv. unfold validateForwardSource. rw Hs Hv.
  by rw (proj2 (String.eqb_neq _ _) Hne) Hid String.eqb_refl Z.eqb_refl.
Qed.

Lemma validate_sender record req :
  validateForwardSource record req = Ok tt -> fwd_FromNodeID req <> "".
Proof.
  unfold validateForwardSource. intros H.
  assert (forall id v, (_ ← reject (String.eqb id "" || negb (String.eqb id (fwd_FromNodeID req))) ErrPeerMismatch;
    v) = Ok tt -> fwd_FromNodeID req <> "") as Hgen.
  { intros id v Hv. apply bind_Ok in Hv as (? & [Hb _]%reject_Ok & _).
    apply orb_false_iff in Hb as [He Hn]. apply negb_false_iff, String.eqb_eq in Hn as <-.
    by apply String.eqb_neq. }
  repeat case_match; eapply Hgen; eauto.
Qed.

Lemma stage_forward_facts record req :
  rr_stagedForwards record !! op_Sequence (fwd_Operation req) = None ->
  rr_stagedForwards (reduceStageForward record req) !! op_Sequence (fwd_Operation req) = Some req.
Proof.
  intros Hs. unfold reduceStageForward. cbn -[reduceAddDirtyEntry]. rw Hs. cbn. rw lookup_insert_eq.
  unfold cloneForwardRequest. rw cloneWriteOperation_id. by destruct req.
Qed.

(** Forwarded writes are idempotent: once a forward has been applied, the
    same message again is ignored and changes nothing, and no message with that
    sequence number but another operation is accepted. *)
Theorem forward_retry c req limits red :
  slot_reachable c -> has_room (sc_rt c) ->
  reduceForwardWrite (own_record (sc_rt c)) req limits = Ok red -> red_Action red = slotReducerActionApply ->
  reduceForwardWrite (red_Record red) req limits =
    Ok {| red_Record := red_Record red; red_Action := slotReducerActionIgnore |} /\
  forall req', op_Sequence (fwd_Operation req') = op_Sequence (fwd_Operation req) ->
    fwd_Operation req' <> fwd_Operation req ->
    exists e, reduceForwardWrite (red_Record red) req' limits = Err e.
Proof.
  intros Hi%reachable_config_inv Hroom Hred Hact. unfold reduceForwardWrite in Hred.
  apply bind_Ok in Hred as ([] & Hval & Hred).
  destruct (Z.ltb_spec (op_Sequence (fwd_Operation req)) (rr_nextSequence (own_record (sc_rt c)))).
  { by apply bind_Ok in Hred as (_ & _ & [= <-]). }
  destruct (Z.ltb_spec (rr_nextSequence (own_record (sc_rt c))) (op_Sequence (fwd_Operation req))).
  { by apply bind_Ok in Hred as (? & _ & [= <-]). }
  injection Hred as <-. cbn -[reduceStageForward].
  assert (rr_stagedForwards (own_record (sc_rt c)) !! op_Sequence (fwd_Operation req) = None) as Hnone.
  { destruct (_ !! _) eqn:Hs; [|done]. apply (staged_before _ _ _ _ _ Hi) in Hs. lia. }
  pose proof (stage_forward_facts _ _ Hnone) as Hstaged.
  pose proof (sg_next _ _ _ (forward_stages _ _ Hnone)) as Hnext.
  pose proof (si_next _ _ _ Hi) as Hn. unfold has_room in Hroom.
  rw u64_add_small in Hnext; [unfold zlength in *; lia|].
  set (r' := reduceStageForward _ _) in *. split.
  - unfold reduceForwardWrite. rw (validate_known _ _ _ Hstaged) //; [by apply (validate_sender _ _ Hval)|].
    cbn. rw (proj2 (Z.ltb_lt _ _)); [lia|]. unfold reduceHandlePastForward. rw Hstaged.
    unfold replays_forward, sameForwardRequest. by rw String.eqb_refl Z.eqb_refl bool_decide_true.
  - intros req' Hseq Hne. unfold reduceForwardWrite. destruct (validateForwardSource r' req') as [[]|e]; [|by exists e].
    cbn. rw Hseq (proj2 (Z.ltb_lt _ _)); [lia|]. unfold reduceHandlePastForward. rw Hseq Hstaged.
    unfold replays_forward, sameForwardRequest, sameForwardRequestIgnoringChain.
    rw (bool_decide_false (fwd_Operation req = fwd_Operation req')); [congruence|].
    rw !andb_false_r. by eexists.
Qed.

Lemma insert_buffered_bound {V} (m : gmap Z V) k v (other limit : Z) :
  m !! k = None -> Z.of_nat (size m) + other < limit -> Z.of_nat (size (<[k := v]> m)) + other <= limit.
Proof. intros Hk Hlt. rw map_size_insert_None //. lia. Qed.

Lemma admit_buffered_bound record slot limits :
  admit_buffered record slot limits = Ok tt -> reduceTotalBufferedMessages record < perSlotLimit limits.
Proof.
  unfold admit_buffered. intros (? & [Hb _]%reject_Ok & _)%bind_Ok. by apply Z.leb_gt in Hb.
Qed.

(** Bounded buffering: neither a forward nor a commit message makes the
    messages buffered for a slot exceed its limit. *)
Theorem buffered_messages_bounded record limits :
  reduceTotalBufferedMessages record <= perSlotLimit limits ->
  (forall req red, reduceForwardWrite record req limits = Ok red ->
    reduceTotalBufferedMessages (red_Record red) <= perSlotLimit limits) /\
  (forall req red, reduceCommitWrite record req limits = Ok red ->
    reduceTotalBufferedMessages (red_Record red) <= perSlotLimit limits).
Proof.
  intros Hle. split; intros req red.
  - unfold reduceForwardWrite. intros (_ & _ & Hred)%bind_Ok.
    destruct (_ <? _); [by apply bind_Ok in Hred as (_ & _ & [= <-])|]. destruct (_ <? _).
    + apply bind_Ok in Hred as (r' & Hb & [= <-]). cbn. unfold reduceBufferFutureForward in Hb.
      destruct (rr_bufferedForwards record !! _) eqn:Hf; [by apply bind_Ok in Hb as (_ & _ & [= <-])|].
      apply bind_Ok in Hb as ([] & Ha%admit_buffered_bound & [= <-]).
      unfold reduceTotalBufferedMessages in *. cbn. by apply insert_buffered_bound.
    + injection Hred as <-. cbn -[reduceStageForward]. unfold reduceStageForward, reduceTotalBufferedMessages in *.
      assert (size (delete (op_Sequence (fwd_Operation req)) (rr_bufferedForwards record)) <=
        size (rr_bufferedForwards record))%nat by (apply map_subseteq_size, delete_subseteq).
      cbn -[size]. destruct (rr_stagedForwards record !! _); cbn -[size]; lia.
  - unfold reduceCommitWrite. intros (_ & _ & Hred)%bind_Ok.
    destruct (_ <=? _); [by apply bind_Ok in Hred as (_ & _ & [= <-])|]. destruct (_ || _); [|by injection Hred as <-].
    apply bind_Ok in Hred as (r' & Hb & [= <-]). cbn. unfold reduceBufferFutureCommit in Hb.
    destruct (rr_bufferedCommits record !! _) eqn:Hf; [by apply bind_Ok in Hb as (_ & _ & [= <-])|].
    apply bind_Ok in Hb as ([] & Ha%admit_buffered_bound & [= <-]).
    unfold reduceTotalBufferedMessages in *. cbn. rw Z.add_comm.
    apply insert_buffered_bound; [done|lia].
Qed.

(** ** A concrete run: a head with two successors *)
Definition head_assignment : ReplicaAssignment :=
  {| asg_Slot := 3; asg_ChainVersion := 7; asg_Role := ReplicaRoleHead;
     asg_Peers := {| PredecessorNodeID := ""; PredecessorTarget := ""; SuccessorNodeID := "b";
                     SuccessorTarget := "b:1"; TailNodeID := "c"; TailTarget := "c:1" |} |}.

Definition start_config (assignment : ReplicaAssignment) : slot_config :=
  {| sc_log := []; sc_base := ∅;
     sc_rt := {| own_slot := 3; own_exists := true; own_record := recoveredRecord assignment 0;
                 own_committedMetadata := ∅; own_progressionGap := false;
                 own_progressionGapSequence := 0 |} |}.

Definition no_limits : client_limits :=
  {| maxInFlightClientWritesPerNode := 0; maxInFlightClientWritesPerSlot := 0 |}.
Definition no_conditions : WriteConditions :=
  {| cond_Exists := None; cond_Version := None; cond_UpdatedAt := None |}.
Definition create_only : WriteConditions :=
  {| cond_Exists := Some false; cond_Version := None; cond_UpdatedAt := None |}.

Definition put_answer (c : slot_config) (conditions : WriteConditions) (now : Z) (key value : string) :=
  handleSubmitWrite (in_backend (sc_base c)) no_limits now 0 (sc_rt c) OperationKindPut key value conditions.
Definition do_put (c : slot_config) (conditions : WriteConditions) (now : Z) (key value : string) : slot_config :=
  after_rt c (put_answer c conditions now key value).1.1.
Definition do_prepared (c : slot_config) (i : nat) : slot_config :=
  match sc_log c !! i with
  | Some op => after_rt c ((sc_rt c) <| own_record := prepareDurable (own_record (sc_rt c)) op |>)
  | None => c
  end.
Definition token (sequence : Z) : CommitWriteRequest :=
  {| cw_Slot := 3; cw_Sequence := sequence; cw_FromNodeID := "b"; cw_ChainVersion := 7 |}.
Definition do_token (c : slot_config) (sequence : Z) : slot_config :=
  after_rt c ((sc_rt c) <| own_record := ingestCommitToken (own_record (sc_rt c)) (token sequence) |>).
Definition do_commit (c : slot_config) (sequence : Z) : slot_config :=
  after_rt c (applyCommitWatermark 16 (sc_rt c) sequence).

(** One write committed, a second one to the same key in flight. *)
Definition head_committed : slot_config :=
  do_commit (do_token (do_prepared (do_put (start_config head_assignment) no_conditions 100 "k" "v1") 0) 1) 1.
Definition head_dirty : slot_config := do_put head_committed no_conditions 200 "k" "v2".

Lemma start_reachable assignment : slot_reachable (start_config assignment).
Proof.
  eexists. split; [|apply rtc_refl]. apply (start_recovered [] 3 assignment); [|done].
  constructor; [done|constructor].
Qed.

Lemma extend c c' : slot_reachable c -> slot_step c c' -> slot_reachable c'.
Proof. intros (c0 & H0 & Hs) H12. exists c0. split; [done|]. by apply (rtc_r _ c). Qed.

Lemma do_put_step c conditions now key value : has_room (sc_rt c) -> slot_step c (do_put c conditions now key value).
Proof.
  intros Hr. unfold do_put. destruct (put_answer c conditions now key value) as [[rt' n'] answer] eqn:Hp.
  apply (slot_submit c no_limits now 0 OperationKindPut key value conditions rt' n' answer); auto.
Qed.

Lemma do_prepared_step c i op : sc_log c !! i = Some op -> slot_step c (do_prepared c i).
Proof. intros Hi. unfold do_prepared. rw Hi. apply slot_prepared. by apply list_elem_of_lookup_2 in Hi. Qed.

Lemma head_reachable :
  slot_reachable head_committed /\ slot_reachable head_dirty /\ rtc slot_step head_committed head_dirty.
Proof.
  assert (slot_reachable head_committed) as Hc.
  { unfold head_committed. eapply extend; [|apply slot_commit]. eapply extend; [|apply slot_token].
    eapply extend; [|eapply do_prepared_step; vm_compute; reflexivity].
    eapply extend; [|apply do_put_step; vm_compute; reflexivity]. apply start_reachable. }
  assert (slot_step head_committed head_dirty) as Hs.
  { apply do_put_step. vm_compute. reflexivity. }
  split_and!; [done|by apply (extend _ _ Hc)|by apply rtc_once].
Qed.

Lemma slot_owner_invariant_witness : slot_inv (sc_log head_dirty) (sc_base head_dirty) (sc_rt head_dirty).
Proof. exact (slot_owner_invariant head_dirty (proj1 (proj2 head_reachable))). Defined.

Lemma committed_state_refines_witness :
  recordMergedCommittedSnapshot (own_record (sc_rt head_dirty)) (sc_base head_dirty) =
  materialise (committed_prefix (sc_log head_dirty) (sc_rt head_dirty)).
Proof. exact (proj2 (committed_state_refines head_dirty (proj1 (proj2 head_reachable)))). Defined.

Definition tail_says (t : Z) (target : string) (slot : Z) : res storage_error Z :=
  if String.eqb target "c:1" then Ok t else Err ErrTransport.
Definition get_k : ClientGetRequest :=
  {| get_Slot := 3; get_Key := "k"; get_ExpectedChainVersion := 7; get_Consistency := ReadConsistencyLinearizable |}.

(** The tail has committed the write this replica still holds as dirty. *)
Lemma linearizable_read_witness :
  (read_Value <$> match handleClientGet (in_backend (sc_base head_dirty)) (tail_says 2) (sc_rt head_dirty) get_k with
                  | Ok r => Some r | Err _ => None end) = Some "v2".
Proof.
  rw (linearizable_read head_dirty (tail_says 2) get_k 2).
  - exact (proj1 (proj2 head_reachable)).
  - vm_compute. reflexivity.
  - vm_compute. reflexivity.
  - vm_compute. reflexivity.
  - reflexivity.
  - vm_compute. discriminate.
  - vm_compute. discriminate.
  - vm_compute. discriminate.
  - vm_compute. reflexivity.
  - vm_compute. reflexivity.
Defined.

Lemma commit_watermark_exact_witness :
  rr_highestCommittedSequence (own_record (applyCommitWatermark 16 (sc_rt head_dirty) 9)) = 1.
Proof.
  destruct (commit_watermark_exact head_dirty 16 9) as [_ Hc]; [exact (proj1 (proj2 head_reachable))|].
  rw Hc. vm_compute. reflexivity.
Defined.

Lemma committed_history_append_only_witness :
  committed_prefix (sc_log head_committed) (sc_rt head_committed) `prefix_of`
  committed_prefix (sc_log head_dirty) (sc_rt head_dirty).
Proof.
  exact (committed_history_append_only head_committed head_dirty
    (proj1 head_reachable) (proj2 (proj2 head_reachable))).
Defined.

Lemma client_write_decision_witness :
  let '(_, _, answer) := handleSubmitWrite (in_backend (sc_base head_committed)) no_limits 300 0
    (sc_rt head_committed) OperationKindPut "k" "v3" create_only in
  answer = SubmitRejected ErrConditionFailed.
Proof.
  assert (holds create_only (current_object (sc_log head_committed) (sc_rt head_committed) "k") = false) as Hh.
  { vm_compute. reflexivity. }
  pose proof (client_write_decision head_committed no_limits 300 0 OperationKindPut "k" "v3" create_only
    (proj1 head_reachable) ltac:(vm_compute; reflexivity) ltac:(vm_compute; reflexivity)
    ltac:(vm_compute; reflexivity) ltac:(left; vm_compute; reflexivity) ltac:(left; reflexivity)) as Hw.
  cbv zeta in Hw. rw Hh in Hw. revert Hw. destruct (handleSubmitWrite _ _ _ _ _ _ _ _ _) as [[rt' n'] answer].
  intros Hw. exact (proj1 Hw).
Defined.

Definition joining_assignment : ReplicaAssignment :=
  {| asg_Slot := 3; asg_ChainVersion := 8; asg_Role := ReplicaRoleTail;
     asg_Peers := {| PredecessorNodeID := "c"; PredecessorTarget := "c:1"; SuccessorNodeID := "";
                     SuccessorTarget := ""; TailNodeID := ""; TailTarget := "" |} |}.

Lemma join_from_predecessor_witness :
  let '(snapshot, highest) := committedSnapshotWithSequence (sc_rt head_dirty) (sc_base head_dirty) in
  slot_reachable
    {| sc_log := committed_prefix (sc_log head_dirty) (sc_rt head_dirty); sc_base := snapshot;
       sc_rt := {| own_slot := 3; own_exists := true;
                   own_record := catchingUpRecord joining_assignment highest;
                   own_committedMetadata := ∅; own_progressionGap := false;
                   own_progressionGapSequence := 0 |} |}.
Proof. apply (join_from_predecessor head_dirty 3 joining_assignment); [exact (proj1 (proj2 head_reachable))|discriminate]. Defined.

Definition tail_config : slot_config :=
  start_config (joining_assignment).
Definition forwarded : ForwardWriteRequest :=
  {| fwd_Operation := {| op_Slot := 3; op_Sequence := 1; op_Kind := OperationKindPut; op_Key := "k";
                         op_Value := "v"; op_Metadata := zeroMetadata |};
     fwd_FromNodeID := "c"; fwd_ChainVersion := 8 |}.
Definition some_limits : slotProtocolBufferLimits :=
  {| perSlotLimit := 4; perNodeLimit := 0; nodeBufferedNow := 0 |}.
Definition no_reduction : slotReduction :=
  {| red_Record := emptyRecord; red_Action := slotReducerActionIgnore |}.
Definition applied : slotReduction :=
  ok_or no_reduction (reduceForwardWrite (own_record (sc_rt tail_config)) forwarded some_limits).

Lemma forward_retry_witness :
  reduceForwardWrite (red_Record applied) forwarded some_limits =
  Ok {| red_Record := red_Record applied; red_Action := slotReducerActionIgnore |}.
Proof.
  apply (forward_retry tail_config forwarded some_limits applied).
  - apply start_reachable.
  - vm_compute. reflexivity.
  - apply ok_or_Ok. vm_compute. reflexivity.
  - vm_compute. reflexivity.
Defined.

Lemma buffered_messages_bounded_witness :
  reduceTotalBufferedMessages (red_Record applied) <= 4.
Proof.
  apply (proj1 (buffered_messages_bounded (own_record (sc_rt tail_config)) some_limits
    ltac:(vm_compute; discriminate)) forwarded applied).
  apply ok_or_Ok. vm_compute. reflexivity.
Defined.

(** ** Pipelined writes to one key *)
Definition first_create : slot_config := do_put (start_config head_assignment) create_only 100 "k" "mine".
Definition both_created : slot_config :=
  let c := do_put first_create create_only 101 "k" "yours" in
  do_commit (do_token (do_token (do_prepared (do_prepared c 0) 1) 1) 2) 2.

Definition staged_version (answer : submit_answer) : option Z :=
  match answer with SubmitStaged result _ _ => meta_Version <$> result_Metadata result | _ => None end.

(** Conditions do not see writes in flight: of two writers that each create
    a key only if it does not exist, the second is accepted while the first is
    still replicating, both are told version 1, and once both have committed the
    object holds the second value at version 1. *)
Theorem pipelined_creates_both_accepted :
  staged_version (put_answer (start_config head_assignment) create_only 100 "k" "mine").2 = Some 1 /\
  staged_version (put_answer first_create create_only 101 "k" "yours").2 = Some 1 /\
  rr_highestCommittedSequence (own_record (sc_rt both_created)) = 2 /\
  ((fun o => (obj_Value o, meta_Version (obj_Metadata o))) <$>
     current_object (sc_log both_created) (sc_rt both_created) "k") = Some ("yours", 1).
Proof. split_and!; vm_compute; reflexivity. Qed.
