(* ===== verification/OwnerProps.v ===== *)
(** * The messages of a slot owner: what a handler can do

    An owner of a chain whose membership is fixed: what it accepts from its
    predecessor are operations [fw] allows, what it is told of its successor's
    commits is bounded by [tok].  Every handler keeps the slot's invariant,
    extends the log by allowed operations, commits no more than its tokens and
    its durable prefix, and what it sends says no more than it holds. *)

From S2P Require Import Prelude.
From S2P Require Import StorageTypes.
From S2P Require Import SlotReducer.
From S2P Require Import SlotOwner.
From S2P Require Import SlotLifecycle.
From S2P Require Import SlotProps.
From S2P Require Import SlotTheorems.
From S2P Require Import Journal.
From S2P Require Import Backend.
From S2P Require Import Materializer.
From S2P Require Import SlotMessages.

Open Scope Z_scope.
Open Scope record_scope.

(** ** What a commit leaves alone *)
(** Every forward that is staged or remembered came from this node. *)
Definition forwards_from (node : string) (r : replicaRecord) : Prop :=
  map_Forall (fun _ f => fwd_FromNodeID f = node) (rr_stagedForwards r) /\
  map_Forall (fun _ f => fwd_FromNodeID f = node) (rr_recentCommittedForwards r).

Record quiet (r r' : replicaRecord) : Prop := {
  qt_assignment : rr_assignment r' = rr_assignment r;
  qt_next : rr_nextSequence r' = rr_nextSequence r;
  qt_durable : rr_highestPreparedDurable r' = rr_highestPreparedDurable r;
  qt_materialised : rr_materializedCommittedSequence r' = rr_materializedCommittedSequence r;
  qt_token : rr_highestCommitTokenReceived r' = rr_highestCommitTokenReceived r;
  qt_forwards : rr_bufferedForwards r' = rr_bufferedForwards r;
  qt_commits : rr_bufferedCommits r' ⊆ rr_bufferedCommits r;
  qt_sources : forall node, forwards_from node r -> forwards_from node r';
}.

#[export] Instance quiet_preorder : PreOrder quiet.
Proof.
  split; [by intros r; split|]. intros r1 r2 r3 H12 H23. split; try (by destruct H12, H23; congruence).
  - exact (transitivity (qt_commits _ _ H23) (qt_commits _ _ H12)).
  - intros node Hn. by apply (qt_sources _ _ H23), (qt_sources _ _ H12).
Qed.

Lemma quiet_fields r r' :
  rr_assignment r' = rr_assignment r -> rr_nextSequence r' = rr_nextSequence r ->
  rr_materializedCommittedSequence r' = rr_materializedCommittedSequence r ->
  rr_highestPreparedDurable r' = rr_highestPreparedDurable r ->
  rr_highestCommitTokenReceived r' = rr_highestCommitTokenReceived r ->
  rr_bufferedForwards r' = rr_bufferedForwards r -> rr_bufferedCommits r' = rr_bufferedCommits r ->
  rr_stagedForwards r' = rr_stagedForwards r -> rr_recentCommittedForwards r' = rr_recentCommittedForwards r ->
  quiet r r'.
Proof. intros ?????? E Es Er. split; try done; [by rw E|]. unfold forwards_from. by rw Es Er. Qed.

Lemma evict_forall {V} (P : V -> Prop) (m : gmap Z V) order limit :
  map_Forall (fun _ v => P v) m -> map_Forall (fun _ v => P v) (evict m order limit).1.
Proof.
  unfold evict. cbn [fst]. generalize (take (evicted order limit) order). intros l.
  revert m. induction l as [|s l IH]; intros m Hm; [done|]. cbn. by apply IH, map_Forall_delete.
Qed.

Lemma remove_dirty_quiet r key seq : quiet r (reduceRemoveDirtyEntry r key seq).
Proof. destruct (remove_dirty_frame r key seq) as [m ->]. by apply quiet_fields. Qed.

Lemma committed_forward_quiet r req seq limit : rr_stagedForwards r !! seq = Some req ->
  quiet r (reduceRecordCommittedForward (r <| rr_stagedForwards := delete seq (rr_stagedForwards r) |>) req limit).
Proof.
  intros Hs. unfold reduceRecordCommittedForward.
  destruct (evict _ _ _) as [m order] eqn:Ee. split; try done. intros node [H1 H2]. cbn. split; cbn.
  - by apply map_Forall_delete.
  - replace m with (evict (<[op_Sequence (fwd_Operation req) := cloneForwardRequest req]> (rr_recentCommittedForwards r))
      (rr_recentForwardOrder r ++ [op_Sequence (fwd_Operation req)]) limit).1 by (cbn in Ee; by rw Ee).
    apply (evict_forall (fun f => fwd_FromNodeID f = node)). apply map_Forall_insert_2; [|done]. exact (H1 _ _ Hs).
Qed.

Lemma applied_quiet r op seq limit : quiet r (reduceApplyCommittedSequence r op seq limit).
Proof.
  unfold reduceApplyCommittedSequence. cbv zeta. etrans; [|apply remove_dirty_quiet].
  set (r1 := match rr_state _ with StateRecovered => _ | _ => _ end).
  assert (quiet r r1) as H1.
  { unfold r1. destruct (rr_state _); by apply quiet_fields. }
  etrans; [exact H1|]. generalize r1. clear r1 H1. intros r1.
  destruct (rr_stagedForwards r1 !! seq) as [staged|] eqn:Hs.
  - etrans; [by apply (committed_forward_quiet r1 staged seq limit)|]. by apply quiet_fields.
  - by apply quiet_fields.
Qed.

Lemma commit_applied_quiet r req limit : quiet r (reduceRecordCommitApplied r req limit).
Proof.
  unfold reduceRecordCommitApplied, reduceRecordCommittedCommit, evict. cbn.
  destruct (rr_pendingWrites r !! cw_Sequence req); split; try done; apply delete_subseteq.
Qed.

Lemma overlay_quiet r op : quiet r (recordWithCommittedOverlay r op).
Proof. by apply quiet_fields. Qed.

Lemma applyCommit_quiet limit r seq r' op : applyCommit limit r seq = Ok (r', op) -> quiet r r'.
Proof.
  unfold applyCommit. intros (o & _ & [= <- _])%bind_Ok.
  etrans; [apply (applied_quiet r o seq limit)|]. destruct (syntheticCommitRequest r seq) as [req|].
  - etrans; [apply (commit_applied_quiet _ req limit)|apply overlay_quiet].
  - apply overlay_quiet.
Qed.

Lemma applyCommits_quiet limit n : forall rt r seq rt' r' gap,
  applyCommits limit n rt r seq = (rt', r', gap) -> quiet r r'.
Proof.
  induction n as [|n IH]; intros rt r seq rt' r' gap; cbn [applyCommits]; [by intros [= _ <- _]|].
  destruct (applyCommit limit r seq) as [[r1 op]|e] eqn:E; [|by intros [= _ <- _]].
  intros Hn%IH. exact (transitivity (applyCommit_quiet _ _ _ _ _ E) Hn).
Qed.

Lemma watermark_quiet limit rt sequence : quiet (own_record rt) (own_record (applyCommitWatermark limit rt sequence)).
Proof.
  unfold applyCommitWatermark. destruct (negb _); [done|]. destruct (_ <=? _); [done|]. cbv zeta. destruct (_ <=? _); [done|].
  destruct (applyCommits _ _ _ _ _) as [[rt' r'] [gap|]] eqn:E; apply applyCommits_quiet in E.
  - etrans; [exact E|]. by apply quiet_fields.
  - cbn. destruct (String.eqb _ _); [|done]. etrans; [exact E|]. by apply quiet_fields.
Qed.

(** ** Owners of a fixed chain *)
Import Owner.

Section owner.
Context (nodeID : string) (a : ReplicaAssignment) (fw : WriteOperation -> Prop) (tok : Z).
Context (fw_fits : forall op, fw op -> supported op /\ op_Sequence op < u64_mod - 2).

Definition commits_itself : Prop :=
  asg_Role a = ReplicaRoleHead \/ asg_Role a = ReplicaRoleSingle.

(** What an effect may say of an owner with this log and committed prefix. *)
Definition effect_ok (log : list WriteOperation) (committed : Z) (e : owner_effect) : Prop :=
  match e with
  | EffPrepare prepare _ => dc_Operation prepare ∈ log
  | EffForward _ req _ => fwd_Operation req ∈ log /\ fwd_FromNodeID req = nodeID /\ SuccessorNodeID (asg_Peers a) <> ""
  | EffCommitAdvance _ req _ => ca_CommittedThrough req <= committed /\ ca_FromNodeID req = nodeID
  | EffWaiter sequence (Ok _) => 0 < sequence <= committed
  | _ => True
  end.

Record owner_ok (log : list WriteOperation) (base : Snapshot) (o : ownerRuntime) : Prop := {
  ow_inv : slot_inv log base (or_rt o);
  ow_assignment : rr_assignment (record_of o) = a;
  ow_buffered : forall s req, rr_bufferedForwards (record_of o) !! s = Some req ->
    op_Sequence (fwd_Operation req) = s /\ fw (fwd_Operation req) /\
    fwd_FromNodeID req = PredecessorNodeID (asg_Peers a);
  ow_sources : forwards_from (PredecessorNodeID (asg_Peers a)) (record_of o);
  ow_token : if String.eqb (SuccessorNodeID (asg_Peers a)) ""
    then rr_highestPreparedDurable (record_of o) <= rr_highestCommitTokenReceived (record_of o)
    else Z.max (rr_highestCommittedSequence (record_of o)) (rr_highestCommitTokenReceived (record_of o)) <= tok;
  ow_no_commits : rr_bufferedCommits (record_of o) = ∅;
  ow_no_accepted : or_acceptedCommits o = ∅;
  ow_flight : or_commitEffectInFlight o = true -> commits_itself;
  ow_effects : Forall (effect_ok log (rr_highestCommittedSequence (record_of o))) (or_effects o);
}.

Lemma effect_ok_mono log log' c c' e : log `prefix_of` log' -> c <= c' -> effect_ok log c e -> effect_ok log' c' e.
Proof.
  intros [more ->] Hc. destruct e as [| |? ?|? ? ?| |? ? ?| | | | |]; cbn; try done.
  - destruct result; [lia|done].
  - set_solver.
  - set_solver.
  - intros []. split; [lia|done].
Qed.

Lemma effects_ok_mono log log' c c' es : log `prefix_of` log' -> c <= c' ->
  Forall (effect_ok log c) es -> Forall (effect_ok log' c') es.
Proof. intros Hl Hc Hes. eapply Forall_impl; [exact Hes|]. intros e. by apply effect_ok_mono. Qed.

Definition with_record (o : ownerRuntime) (r : replicaRecord) : ownerRuntime :=
  o <| or_rt := (or_rt o) <| own_record := r |> |>.

Lemma set_exists rt : own_exists rt = true -> rt <| own_exists := true |> = rt.
Proof. destruct rt. cbn. by intros ->. Qed.

Lemma prune_nothing r o : or_acceptedCommits o = ∅ -> pruneAcceptedCommits r o = o.
Proof. intros H. unfold pruneAcceptedCommits. rw H map_to_list_empty. done. Qed.

Lemma setRecord_eq r o : or_acceptedCommits o = ∅ -> own_exists (or_rt o) = true -> setRecord r o = with_record o r.
Proof. intros Ha He. unfold setRecord. rw prune_nothing //. unfold with_record. rw set_exists //. Qed.

Lemma sync_nothing r o : or_acceptedCommits o = ∅ -> rr_bufferedCommits r = ∅ -> syncAcceptedCommitsFromRecord r o = o.
Proof.
  intros Ha Hb. unfold syncAcceptedCommitsFromRecord. rw Hb Ha map_imap_empty map_union_empty.
  rw prune_nothing //. destruct o. cbn in *. by rw Ha.
Qed.

Lemma move_nothing from to after upTo o : or_acceptedCommits o = ∅ -> move_stages from to after upTo o = o.
Proof. intros Ha. unfold move_stages. rw Ha map_imap_empty. destruct o. cbn in *. by rw Ha. Qed.

Lemma release_nothing record n o : or_acceptedCommits o = ∅ ->
  release_commits record n o = emit (released_waiters record n (rr_highestCommittedSequence record + 1)) o.
Proof.
  intros Ha. unfold release_commits. set (o1 := emit _ o). assert (or_acceptedCommits o1 = ∅) as Ha1 by done. clearbody o1.
  induction ((fun k => rr_highestCommittedSequence record + 1 + Z.of_nat k) <$> List.seq 0 n) as [|s l IH]; [done|]. cbn.
  assert (release_accepted (Ok tt) o1 s = o1) as ->; [|done]. unfold release_accepted. by rw Ha1 lookup_empty.
Qed.

(** ** Growing *)
Context (L : list WriteOperation) (B : Snapshot) (C D : Z).

Definition grown (o : ownerRuntime) : Prop := exists log, owner_ok log B o /\ L `prefix_of` log /\
  (C <= rr_highestCommittedSequence (record_of o) /\ rr_materializedCommittedSequence (record_of o) <= zlength L /\
   rr_highestPreparedDurable (record_of o) <= D) /\
  forall i op, (length L <= i)%nat -> log !! i = Some op -> fw op.

Lemma grown_emit es o : grown o ->
  (forall log, owner_ok log B o -> Forall (effect_ok log (rr_highestCommittedSequence (record_of o))) es) -> grown (emit es o).
Proof.
  intros (log & Hok & Hl & Hc & Hf) He. exists log. split; [|done]. specialize (He log Hok).
  destruct Hok. split; try done. cbn. by apply Forall_app.
Qed.

(** Only the flags of what is in flight and the pipelines differ. *)
Lemma grown_flags o o' : or_rt o' = or_rt o -> or_acceptedCommits o' = or_acceptedCommits o ->
  or_effects o' = or_effects o ->
  (or_commitEffectInFlight o' = true -> or_commitEffectInFlight o = true \/ commits_itself) -> grown o -> grown o'.
Proof.
  intros Hr Ha He Hfl (log & [] & Hl & Hc & Hf). exists log. rw Hr. split; [|done]. split; rw ?Hr ?Ha ?He //.
  intros Hin. destruct (Hfl Hin); auto.
Qed.

Lemma grown_exists o : grown o -> own_exists (or_rt o) = true.
Proof. intros (log & Hok & _). apply (si_exists _ _ _ (ow_inv _ _ _ Hok)). Qed.

Lemma grown_accepted o : grown o -> or_acceptedCommits o = ∅.
Proof. intros (log & Hok & _). apply (ow_no_accepted _ _ _ Hok). Qed.

(** A new runtime over the same log. *)
Lemma grown_runtime o rt' : grown o ->
  (forall log, owner_ok log B o -> slot_inv log B rt') ->
  rr_assignment (own_record rt') = rr_assignment (record_of o) ->
  rr_materializedCommittedSequence (own_record rt') = rr_materializedCommittedSequence (record_of o) ->
  rr_bufferedForwards (own_record rt') = rr_bufferedForwards (record_of o) ->
  rr_bufferedCommits (own_record rt') ⊆ rr_bufferedCommits (record_of o) ->
  (forall node, forwards_from node (record_of o) -> forwards_from node (own_record rt')) ->
  rr_highestCommittedSequence (record_of o) <= rr_highestCommittedSequence (own_record rt') ->
  (rr_highestPreparedDurable (record_of o) <= D -> rr_highestPreparedDurable (own_record rt') <= D) ->
  (if String.eqb (SuccessorNodeID (asg_Peers a)) ""
   then rr_highestPreparedDurable (record_of o) <= rr_highestCommitTokenReceived (record_of o) ->
        rr_highestPreparedDurable (own_record rt') <= rr_highestCommitTokenReceived (own_record rt')
   else Z.max (rr_highestCommittedSequence (record_of o)) (rr_highestCommitTokenReceived (record_of o)) <= tok ->
        Z.max (rr_highestCommittedSequence (own_record rt')) (rr_highestCommitTokenReceived (own_record rt')) <= tok) ->
  grown (o <| or_rt := rt' |>).
Proof.
  intros (log & Hok & Hl & Hc & Hf) Hi Ha Hm Hb Hbc Hfrom Hcom Hdur Htok. exists log. split; [|split; [done|split; [cbn; lia|done]]].
  specialize (Hi log Hok). destruct Hok as [_ Ea Eb Es Et Ebc Eacc Efl Eeff]. split; cbn; rw ?Ha ?Hb //.
  - by apply Hfrom.
  - destruct (String.eqb _ _); auto.
  - rw Ebc in Hbc. apply (anti_symm (⊆)); [done|apply map_empty_subseteq].
  - by apply (effects_ok_mono log log _ _ _ (reflexivity _) Hcom).
Qed.

(** A record that differs in nothing the invariant speaks of. *)
Lemma grown_keeps o r : grown o -> keeps (record_of o) r ->
  rr_assignment r = rr_assignment (record_of o) -> rr_bufferedForwards r = rr_bufferedForwards (record_of o) ->
  rr_bufferedCommits r = rr_bufferedCommits (record_of o) ->
  (forall node, forwards_from node (record_of o) -> forwards_from node r) ->
  (if String.eqb (SuccessorNodeID (asg_Peers a)) ""
   then rr_highestCommitTokenReceived (record_of o) <= rr_highestCommitTokenReceived r
   else rr_highestCommitTokenReceived (record_of o) <= tok -> rr_highestCommitTokenReceived r <= tok) ->
  grown (with_record o r).
Proof.
  intros Hg Hk Ha Hb Hbc Hfrom Ht. apply grown_runtime; try done; cbn.
  - intros log Hok. apply keeps_inv; [apply Hok|done].
  - apply (kp_materialised _ _ Hk).
  - by rw Hbc.
  - rw (kp_committed _ _ Hk). lia.
  - by rw (kp_durable _ _ Hk).
  - rw (kp_durable _ _ Hk) (kp_committed _ _ Hk). destruct (String.eqb _ _); lia.
Qed.

Lemma grown_set r o : grown o -> grown (with_record o r) -> grown (setRecord r o).
Proof. intros Hg Hr. rw setRecord_eq //; [by apply grown_accepted|by apply grown_exists]. Qed.

Lemma grown_reply resp result o : grown o -> grown (reply resp result o).
Proof. intros Hg. destruct resp; [|done]. apply grown_emit; [done|]. intros. by repeat constructor. Qed.

(** ** Commits upstream *)
Lemma grown_upstream o : grown o -> grown (ensureUpstreamCommitReplay nodeID o).
Proof.
  intros Hg. unfold ensureUpstreamCommitReplay. rw (grown_exists _ Hg). cbn [negb]. cbv zeta.
  destruct (String.eqb _ ""); [destruct (_ =? _); [done|]|].
  { apply grown_set; [done|]. apply grown_keeps; try done; [by apply keeps_same|]. destruct (String.eqb _ ""); cbn; [lia|done]. }
  destruct (or_upstreamCommitInFlight o); [done|]. destruct (_ <=? _); [done|].
  apply grown_emit; [by apply (grown_flags o); auto|]. intros log _. constructor; [|constructor]. cbn. split; [lia|done].
Qed.

Lemma upstream_committed o : grown o ->
  rr_highestCommittedSequence (record_of (ensureUpstreamCommitReplay nodeID o)) = rr_highestCommittedSequence (record_of o).
Proof.
  intros Hg. unfold ensureUpstreamCommitReplay. rw (grown_exists _ Hg). cbn [negb]. cbv zeta.
  destruct (String.eqb _ ""); [destruct (_ =? _); [done|]|destruct (or_upstreamCommitInFlight o); [done|by destruct (_ <=? _)]].
  by rw setRecord_eq; [apply grown_accepted|apply grown_exists|].
Qed.

Lemma materialise_record sequence o : record_of (enqueueMaterializationUpTo sequence o) = record_of o.
Proof. unfold enqueueMaterializationUpTo. by destruct (materialization_commits _ _). Qed.

Lemma grown_materialise sequence o : grown o -> grown (enqueueMaterializationUpTo sequence o).
Proof.
  intros Hg. unfold enqueueMaterializationUpTo. destruct (materialization_commits _ _); [done|].
  apply grown_emit; [done|]. intros. by repeat constructor.
Qed.

(** ** Committing *)
Section committing.
Context (limits : slotProtocolBufferLimits) (drain : ownerRuntime -> ownerRuntime).
Context (drain_grown : forall o, grown o -> grown (drain o)).

(** The loop over a watermark goes through. *)
Lemma watermark_reached log base rt sequence :
  slot_inv log base rt ->
  let reached := Z.min (Z.min sequence (rr_highestCommitTokenReceived (own_record rt))) (rr_highestPreparedDurable (own_record rt)) in
  rr_highestCommittedSequence (own_record rt) < reached ->
  rr_highestCommittedSequence (own_record (SlotOwner.applyCommitWatermark (perSlotLimit limits) rt sequence)) = reached.
Proof.
  intros Hi reached Hlt. destruct (applyCommitWatermark_spec (perSlotLimit limits) _ _ _ sequence Hi) as [_ ->]. unfold reached in *. lia.
Qed.

Lemma released_ok log committed record n seq : 0 < seq -> seq + Z.of_nat n - 1 <= committed ->
  Forall (effect_ok log committed) (released_waiters record n seq).
Proof.
  intros H0 Hle. unfold released_waiters. apply Forall_fmap, Forall_forall. intros s Hs%list_elem_of_In.
  apply List.filter_In in Hs as [Hs%list_elem_of_In _]. apply list_elem_of_fmap in Hs as (k & -> & Hk).
  apply elem_of_seq in Hk. cbn. lia.
Qed.

(** A watermark leaves the owner alone, or commits and then drains. *)
Lemma apply_shape sequence o : grown o ->
  (Z.min (Z.min sequence (rr_highestCommitTokenReceived (record_of o))) (rr_highestPreparedDurable (record_of o))
     <= rr_highestCommittedSequence (record_of o) /\
   forall d, applyCommitWatermark nodeID limits d sequence o = o) \/
  exists x, grown x /\ rr_highestCommittedSequence (record_of o) < rr_highestCommittedSequence (record_of x) /\
    forall d, applyCommitWatermark nodeID limits d sequence o = d x.
Proof.
  intros Hg. unfold applyCommitWatermark. rw (grown_exists _ Hg). cbn [negb orb].
  set (reached := Z.min (Z.min sequence _) _). destruct (_ || _) eqn:E.
  { left. split; [|done]. unfold reached. apply orb_true_iff in E as [E%Z.leb_le|E%Z.leb_le]; lia. }
  right.
  apply orb_false_iff in E as [_ Hlt%Z.leb_gt]. pose proof Hg as (log & Hok & _).
  rw (watermark_reached _ _ _ _ (ow_inv _ _ _ Hok)) // Z.eqb_refl. cbv zeta. rw release_nothing; [by apply grown_accepted|].
  set (rt' := SlotOwner.applyCommitWatermark _ _ _).
  assert (rr_highestCommittedSequence (own_record rt') = reached) as Hr by by apply (watermark_reached _ _ _ _ (ow_inv _ _ _ Hok)).
  assert (quiet (record_of o) (own_record rt')) as Hq by apply watermark_quiet.
  assert (0 <= rr_highestCommittedSequence (record_of o)) as H0 by (destruct (si_order _ _ _ (ow_inv _ _ _ Hok)); lia).
  set (waiters := released_waiters _ _ _).
  set (o1 := if _ && _ && _ then _ else _).
  assert (grown (o1 <| or_rt := rt' |>)) as Hg1.
  { apply (grown_flags (emit waiters (o <| or_rt := rt' |>))); [by unfold o1; destruct (_ && _ && _)..|unfold o1; destruct (_ && _ && _); cbn; [done|auto]|].
    apply grown_emit.
    - apply grown_runtime; try (by destruct Hq); [|lia|by rw (qt_durable _ _ Hq)|].
      + intros log' Hok'. apply applyCommitWatermark_spec, Hok'.
      + rw (qt_token _ _ Hq) (qt_durable _ _ Hq) Hr. destruct (String.eqb _ ""); [done|lia].
    - intros log' _. cbn. rw Hr. apply released_ok; lia. }
  assert (setRecord (own_record rt') (o1 <| or_rt := rt' |>) = o1 <| or_rt := rt' |>) as ->.
  { rw setRecord_eq; [by apply (grown_accepted _ Hg1)|by apply (grown_exists _ Hg1)|]. unfold with_record. cbn. by rw set_record_same. }
  pose proof (grown_materialise reached _ Hg1) as Hg2.
  exists (ensureUpstreamCommitReplay nodeID (enqueueMaterializationUpTo reached (o1 <| or_rt := rt' |>))).
  split; [by apply grown_upstream|]. split; [|done].
  rw (upstream_committed _ Hg2) materialise_record. cbn. by rw Hr.
Qed.

Lemma grown_apply sequence o : grown o -> grown (applyCommitWatermark nodeID limits drain sequence o).
Proof. intros Hg. destruct (apply_shape sequence o Hg) as [[_ ->]|(x & Hx & _ & ->)]; [done|by apply drain_grown]. Qed.

(** A record of this owner, perhaps an earlier one. *)
Definition own_version (r : replicaRecord) : Prop :=
  rr_assignment r = a /\ rr_bufferedCommits r = ∅ /\
  (SuccessorNodeID (asg_Peers a) = "" -> rr_highestPreparedDurable r <= rr_highestCommitTokenReceived r).

Lemma grown_version o : grown o -> own_version (record_of o).
Proof.
  intros (log & [_ Ha _ _ Ht Hb _ _ _] & _). split; [done|]. split; [done|]. intros Hs. by rw Hs in Ht.
Qed.

Lemma grown_ready record o : grown o -> own_version record ->
  grown (submitCommitWatermarkReady nodeID limits drain record o).
Proof.
  intros Hg (Ha & _ & Ht). unfold submitCommitWatermarkReady. cbv zeta. rw Ha.
  assert (String.eqb (SuccessorNodeID (asg_Peers a)) "" &&
    (rr_highestCommitTokenReceived record <? rr_highestPreparedDurable record) = false) as ->.
  { destruct (String.eqb_spec (SuccessorNodeID (asg_Peers a)) ""); [|done]. cbn. apply Z.ltb_ge. by apply Ht. }
  rw Ha. set (ready := Z.min _ _). set (committed := rr_highestCommittedSequence record).
  assert (commits_itself -> grown (submit_head_range a committed ready o)) as Hhead.
  { intros Hself. unfold submit_head_range. rw move_nothing; [by apply grown_accepted|].
    apply grown_emit; [by apply (grown_flags o); auto|]. intros. by repeat constructor. }
  destruct (asg_Role a) eqn:Er; try (destruct (_ || _); [done|by apply Hhead; unfold commits_itself; auto]);
    (destruct (_ <? _); [by apply grown_apply|by apply grown_upstream]).
Qed.

Lemma grown_gap o b s : grown o ->
  grown (o <| or_rt := (or_rt o) <| own_progressionGap := b |> <| own_progressionGapSequence := s |> |>).
Proof.
  intros Hg. apply grown_runtime; try done; cbn; [|lia|by destruct (String.eqb _ "")].
  intros log Hok. destruct (ow_inv _ _ _ Hok). by split.
Qed.

Lemma grown_clear_gap o : grown o -> grown (clearProgressionGap o).
Proof. intros Hg. unfold clearProgressionGap. destruct (own_progressionGap _); [by apply grown_gap|done]. Qed.

Lemma grown_enter_gap s o : grown o -> grown (enterProgressionGap s o).
Proof. intros Hg. unfold enterProgressionGap. destruct (_ =? _); [done|by apply grown_gap]. Qed.

Lemma grown_reconcile jc o : grown o -> grown (reconcileDurableCommitProgress nodeID limits drain jc o).1.
Proof.
  intros Hg. unfold reconcileDurableCommitProgress. destruct (_ || _); [done|]. cbv zeta.
  destruct (_ <=? _); [by apply (grown_flags o)|by apply grown_apply].
Qed.

Lemma grown_sync record o : grown o -> own_version record -> syncAcceptedCommitsFromRecord record o = o.
Proof. intros Hg (_ & Hb & _). apply sync_nothing; [by apply grown_accepted|done]. Qed.

Lemma grown_detect jc record o : grown o -> own_version record ->
  grown (detectAcceptedCommitGap nodeID limits drain jc record o).1.
Proof.
  intros Hg Hv. unfold detectAcceptedCommitGap. rw grown_sync //. cbv zeta.
  do 3 (destruct (_ : bool); [by apply grown_clear_gap|]).
  pose proof (grown_reconcile jc o Hg) as Hr. destruct (reconcileDurableCommitProgress _ _ _ _ _) as [o1 []].
  - by apply grown_clear_gap.
  - by apply grown_enter_gap.
Qed.

Lemma grown_rounds jc fuel : forall o, grown o -> grown (advance_rounds nodeID limits drain id fuel jc o).
Proof.
  induction fuel as [|fuel IH]; intros o Hg; cbn [advance_rounds]; [done|]. destruct (negb _); [done|].
  pose proof (grown_version o Hg) as Hv. rw grown_sync //. cbv zeta.
  pose proof (grown_detect jc (record_of o) o Hg Hv) as Hd.
  destruct (detectAcceptedCommitGap _ _ _ _ _ _) as [o1 []]; [done|]. cbn [fst] in Hd.
  assert (grown (if or_commitEffectInFlight o1 then reconcileDurableCommitProgress nodeID limits drain jc o1 else (o1, false)).1) as Hr.
  { destruct (or_commitEffectInFlight o1); [by apply grown_reconcile|done]. }
  destruct (if or_commitEffectInFlight o1 then _ else _) as [o2 []]; [by apply IH|].
  destruct (_ && _); [by apply grown_ready|done].
Qed.

Lemma grown_advance jc o : grown o -> grown (advanceAcceptedCommitProgress nodeID limits drain id jc o).
Proof. apply grown_rounds. Qed.

(** ** Staging a forward *)
Lemma reduceForward_apply record req limits0 red : reduceForwardWrite record req limits0 = Ok red ->
  red_Action red = slotReducerActionApply ->
  op_Sequence (fwd_Operation req) = rr_nextSequence record /\ red_Record red = reduceStageForward record req.
Proof.
  unfold reduceForwardWrite. intros (_ & _ & H)%bind_Ok.
  destruct (Z.ltb_spec (op_Sequence (fwd_Operation req)) (rr_nextSequence record)).
  { apply bind_Ok in H as (_ & _ & [= <-]). done. }
  destruct (Z.ltb_spec (rr_nextSequence record) (op_Sequence (fwd_Operation req))).
  { apply bind_Ok in H as (? & _ & [= <-]). done. }
  injection H as <-. intros _. split; [lia|done].
Qed.
End committing.

(** ** Staging *)
(** An operation the owner still holds. *)
Definition held_op (o : ownerRuntime) (op : WriteOperation) : Prop :=
  rr_preparedEntries (record_of o) !! op_Sequence op = Some op /\
  rr_materializedCommittedSequence (record_of o) < op_Sequence op < rr_nextSequence (record_of o).

Lemma prepared_in_log log base rt s op : slot_inv log base rt -> rr_preparedEntries (own_record rt) !! s = Some op ->
  rr_materializedCommittedSequence (own_record rt) < s < rr_nextSequence (own_record rt) -> log !! Z.to_nat (s - 1) = Some op.
Proof.
  intros Hi Hp [Hm Hn]. rw (si_next _ _ _ Hi) in Hn. destruct (si_order _ _ _ Hi) as [[H0 _] _].
  destruct (lookup_lt_is_Some_2 log (Z.to_nat (s - 1))) as [op' Hop]; [unfold zlength in Hn; lia|].
  pose proof (lo_sequence _ (si_log _ _ _ Hi) _ _ Hop) as Hs. assert (op_Sequence op' = s) as Hs' by lia.
  pose proof (si_prepared _ _ _ Hi _ _ Hop ltac:(lia)) as Hp'. rw Hs' Hp in Hp'. congruence.
Qed.

Lemma held_in_log log o op : owner_ok log B o -> held_op o op -> op ∈ log.
Proof.
  intros Hok [Hp Hs]. apply list_elem_of_lookup_2 with (Z.to_nat (op_Sequence op - 1)).
  by apply (prepared_in_log _ B (or_rt o)); [apply Hok|..].
Qed.

Lemma stage_fields r req : rr_stagedForwards r !! op_Sequence (fwd_Operation req) = None ->
  let r' := reduceStageForward r req in
  rr_assignment r' = rr_assignment r /\ rr_bufferedForwards r' = delete (op_Sequence (fwd_Operation req)) (rr_bufferedForwards r) /\
  rr_bufferedCommits r' = rr_bufferedCommits r /\ rr_highestCommitTokenReceived r' = rr_highestCommitTokenReceived r /\
  rr_stagedForwards r' = <[op_Sequence (fwd_Operation req) := cloneForwardRequest req]> (rr_stagedForwards r) /\
  rr_recentCommittedForwards r' = rr_recentCommittedForwards r.
Proof. intros Hs. unfold reduceStageForward. cbn -[reduceAddDirtyEntry]. rw Hs. done. Qed.

Lemma grown_stage o req : grown o -> fw (fwd_Operation req) -> fwd_FromNodeID req = PredecessorNodeID (asg_Peers a) ->
  op_Sequence (fwd_Operation req) = rr_nextSequence (record_of o) ->
  grown (with_record o (reduceStageForward (record_of o) req)) /\
  held_op (with_record o (reduceStageForward (record_of o) req)) (fwd_Operation req).
Proof.
  intros (log & Hok & Hl & Hc & Hf) Hfw Hfrom Hseq. destruct (fw_fits _ Hfw) as [Hsup Hroom].
  pose proof (ow_inv _ _ _ Hok) as Hi. pose proof (si_next _ _ _ Hi) as Hn. destruct (si_order _ _ _ Hi) as [Hm Hd].
  assert (rr_stagedForwards (record_of o) !! op_Sequence (fwd_Operation req) = None) as Hnone.
  { destruct (rr_stagedForwards (record_of o) !! _) eqn:E; [|done]. apply (staged_before _ _ _ _ _ Hi) in E. lia. }
  pose proof (forward_stages _ _ Hnone) as Hst. destruct (stage_fields _ _ Hnone) as (Ea & Eb & Ec & Et & Es & Er).
  split.
  - exists (log ++ [fwd_Operation req]). split; [|split_and!].
    + destruct Hok as [_ Ha Hb Hs Ht Hbc Hacc Hfl He]. split; cbn -[reduceStageForward].
      * apply stage_inv; [done|done|done|lia|done].
      * by rw Ea.
      * rw Eb. intros s r [_ Hr]%lookup_delete_Some. by apply Hb.
      * split; [rw Es; apply map_Forall_insert_2; [done|apply Hs]|rw Er; apply Hs].
      * by rw Et (sg_durable _ _ _ Hst) (sg_committed _ _ _ Hst).
      * by rw Ec.
      * done.
      * done.
      * rw (sg_committed _ _ _ Hst). eapply effects_ok_mono; [|reflexivity|exact He]. by eexists.
    + by apply prefix_app_r.
    + cbn -[reduceStageForward]. rw (sg_committed _ _ _ Hst). lia.
    + cbn -[reduceStageForward]. rw (sg_materialised _ _ _ Hst). lia.
    + cbn -[reduceStageForward]. rw (sg_durable _ _ _ Hst). lia.
    + intros i op Hi' Hop. apply lookup_app_Some in Hop as [Hop|[_ Hop]]; [by apply (Hf i)|].
      apply list_lookup_singleton_Some in Hop as [_ <-]. done.
  - split; cbn -[reduceStageForward].
    + rw (sg_prepared _ _ _ Hst). apply lookup_insert_eq.
    + rw (sg_materialised _ _ _ Hst) (sg_next _ _ _ Hst) Hseq Hn u64_add_small; unfold zlength in *; lia.
Qed.

Lemma grown_prepare record op after o : grown o -> held_op o op -> grown (startPrepareEffect record op after o).
Proof.
  intros Hg Hh. apply grown_emit; [done|]. intros log Hok. constructor; [|constructor]. cbn -[cloneWriteOperation].
  rw cloneWriteOperation_id. by apply (held_in_log log o).
Qed.

Lemma held_flags o o' op : or_rt o' = or_rt o -> held_op o op -> held_op o' op.
Proof. intros Hr. unfold held_op. by rw Hr. Qed.

Lemma grown_dispatch pipeline op record o : grown o -> SuccessorNodeID (asg_Peers a) <> "" ->
  (forall log, owner_ok log B o -> op ∈ log) ->
  grown (dispatchForward nodeID pipeline op record o).
Proof.
  intros Hg Hs Hop. apply grown_emit; [done|]. intros log Hok. constructor; [|constructor]. cbn -[cloneWriteOperation].
  rw cloneWriteOperation_id. split; [by apply Hop|done].
Qed.

Lemma grown_pipeline record op done o : grown o -> SuccessorNodeID (asg_Peers a) <> "" -> held_op o op ->
  grown (startPreparedForwardPipeline nodeID record op done o).
Proof.
  intros Hg Hs Hh. unfold startPreparedForwardPipeline. cbv zeta. apply grown_dispatch; [|done|].
  - apply grown_prepare; [by apply (grown_flags o); auto|by apply (held_flags o)].
  - intros log Hok. by apply (held_in_log log _ op Hok), (held_flags o).
Qed.

Lemma grown_forward req resp o : grown o -> held_op o (fwd_Operation req) -> grown (applyForward nodeID req resp o).
Proof.
  intros Hg Hh. unfold applyForward. destruct (negb _); [by apply grown_reply|]. cbv zeta.
  pose proof Hg as (log & Hok & _). rw (ow_assignment _ _ _ Hok).
  destruct (String.eqb_spec (SuccessorNodeID (asg_Peers a)) ""); [by apply grown_prepare|by apply grown_pipeline].
Qed.

Lemma grown_schedule o : grown o -> grown (scheduleDrainReadyBuffered o).
Proof.
  intros Hg. unfold scheduleDrainReadyBuffered. destruct (or_drainScheduled o); [done|].
  apply grown_emit; [by apply (grown_flags o); auto|]. intros. by repeat constructor.
Qed.

Lemma grown_catchup o : grown o -> grown (ensureGapCatchup o).
Proof.
  intros Hg. unfold ensureGapCatchup. destruct (_ || _); [done|].
  destruct (buildPredecessorSyncPlan o) as [[plan|]|]; [|done|done].
  apply grown_emit; [by apply (grown_flags o); auto|]. intros. by repeat constructor.
Qed.

(** ** Draining *)
Lemma grown_drain_body limits drain jc resp o :
  (forall o, grown o -> grown (drain o)) -> grown o -> grown (drain_body nodeID limits id drain jc resp o).
Proof.
  intros Hdrain Hg. unfold drain_body. destruct (negb _); [by apply grown_reply|].
  pose proof (grown_reconcile limits drain Hdrain jc o Hg) as Hg1. cbv zeta.
  generalize dependent (reconcileDurableCommitProgress nodeID limits drain jc o).1. intros o1 Hg1.
  destruct (negb _); [by apply grown_reply|].
  pose proof (grown_advance limits drain Hdrain jc o1 Hg1) as Hg2.
  generalize dependent (advanceAcceptedCommitProgress nodeID limits drain id jc o1). intros o2 Hg2.
  destruct (or_commitEffectInFlight o2); [by apply grown_reply|]. pose proof Hg2 as (log & Hok & _).
  rw (ow_no_commits _ _ _ Hok) lookup_empty.
  destruct (rr_bufferedForwards (record_of o2) !! _) as [req|] eqn:Hb; [|by apply grown_reply, grown_catchup].
  destruct (ow_buffered _ _ _ Hok _ _ Hb) as (Hseq & Hfw & Hfrom).
  destruct (reduceForwardWrite _ _ _) as [[r []]|] eqn:Hred; try (by apply grown_reply).
  destruct (reduceForward_apply _ _ _ _ Hred eq_refl) as [_ Hr]. cbn in Hr. subst r.
  destruct (grown_stage o2 req Hg2 Hfw Hfrom Hseq) as [Hg3 Hh].
  rw setRecord_eq; [by apply grown_accepted|by apply grown_exists|]. by apply grown_forward.
Qed.

Lemma grown_drain_rounds limits jc fuel : forall o, grown o -> grown (drain_rounds nodeID limits id fuel jc o).
Proof. induction fuel as [|fuel IH]; intros o Hg; [done|]. by apply grown_drain_body. Qed.

Lemma grown_again limits jc o : grown o -> grown (drain_again nodeID limits jc o).
Proof. apply grown_drain_rounds. Qed.

Lemma grown_drain limits jc resp o : grown o -> grown (drainReadyBuffered nodeID limits jc resp o).
Proof. apply grown_drain_body, grown_again. Qed.

(** ** Forwards *)
Lemma validated_from log o req : owner_ok log B o -> validateForwardSource (record_of o) req = Ok tt ->
  fwd_FromNodeID req = PredecessorNodeID (asg_Peers a).
Proof.
  intros Hok Hv. pose proof (ow_assignment _ _ _ Hok) as Ha. destruct (ow_sources _ _ _ Hok) as [Hst Hre].
  pose proof (ow_buffered _ _ _ Hok) as Hb. unfold validateForwardSource in Hv. rw Ha in Hv.
  set (seq := op_Sequence (fwd_Operation req)) in *.
  assert (exists v, (match rr_stagedForwards (record_of o) !! seq, rr_bufferedForwards (record_of o) !! seq,
      rr_recentCommittedForwards (record_of o) !! seq with
    | Some existing, _, _ | None, Some existing, _ | None, None, Some existing =>
        (fwd_FromNodeID existing, fwd_ChainVersion existing)
    | None, None, None => (PredecessorNodeID (asg_Peers a), asg_ChainVersion a) end)
    = (PredecessorNodeID (asg_Peers a), v)) as [v Hx].
  { destruct (rr_stagedForwards (record_of o) !! seq) as [f|] eqn:E1; [rw (Hst _ _ E1); by eexists|].
    destruct (rr_bufferedForwards (record_of o) !! seq) as [f|] eqn:E2; [destruct (Hb _ _ E2) as (_ & _ & ->); by eexists|].
    destruct (rr_recentCommittedForwards (record_of o) !! seq) as [f|] eqn:E3; [rw (Hre _ _ E3); by eexists|by eexists]. }
  rw Hx in Hv. apply bind_Ok in Hv as (u & Hr & _). apply reject_Ok in Hr as [Hr _].
  apply orb_false_iff in Hr as [_ Hr]. apply negb_false_iff, String.eqb_eq in Hr. done.
Qed.

Lemma grown_buffer limits o req r : grown o -> fw (fwd_Operation req) -> fwd_FromNodeID req = PredecessorNodeID (asg_Peers a) ->
  reduceBufferFutureForward (record_of o) req limits = Ok r -> grown (with_record o r).
Proof.
  intros (log & Hok & Hl & Hc & Hf) Hfw Hfrom Hr. exists log.
  assert (exists buffered, r = (record_of o) <| rr_bufferedForwards := buffered |> /\
    (forall s f, buffered !! s = Some f -> rr_bufferedForwards (record_of o) !! s = Some f \/
      s = op_Sequence (fwd_Operation req) /\ f = cloneForwardRequest req)) as Hx.
  { unfold reduceBufferFutureForward in Hr. destruct (rr_bufferedForwards (record_of o) !! _).
    - apply bind_Ok in Hr as (_ & _ & [= <-]). exists (rr_bufferedForwards (record_of o)). split; [by destruct (record_of o)|by left].
    - apply bind_Ok in Hr as (_ & _ & [= <-]). eexists. split; [done|]. intros s f [[<- <-]|[_ Hs]]%lookup_insert_Some; auto. }
  clear Hr. destruct Hx as (buffered & -> & Hb).
  split; [|done]. destruct Hok as [Hi Ha Hbuf Hs Ht Hbc Hacc Hfl He]. split; try done.
  - apply keeps_inv; [done|]. by apply keeps_same.
  - cbn. intros s f [Hold| [-> ->]]%Hb; [by apply Hbuf|]. unfold cloneForwardRequest. cbn -[cloneWriteOperation].
    by rw cloneWriteOperation_id.
Qed.

Section handlers.
Context (limits : slotProtocolBufferLimits) (jc : Z).

Lemma replication_record rt record : replicationRecord rt = Ok record -> record = own_record rt.
Proof. unfold replicationRecord. by intros (_ & _ & (_ & _ & [= ->])%bind_Ok)%bind_Ok. Qed.

Lemma grown_handle_forward req resp o : grown o ->
  (fwd_FromNodeID req = PredecessorNodeID (asg_Peers a) -> fw (fwd_Operation req)) ->
  (SuccessorNodeID (asg_Peers a) = "" -> ~ commits_itself) ->
  grown (handleForwardWrite nodeID limits jc req resp o).
Proof.
  intros Hg Hreq Htail. unfold handleForwardWrite. cbv zeta.
  pose proof (grown_reconcile limits _ (grown_again limits jc) jc o Hg) as Hg1.
  generalize dependent (reconcileDurableCommitProgress nodeID limits (drain_again nodeID limits jc) jc o).1. clear o Hg. intros o Hg.
  destruct (replicationRecord (or_rt o)) as [record|e] eqn:Er; [|by apply grown_reply].
  apply replication_record in Er as ->. pose proof Hg as (log & Hok & _). rw (ow_assignment _ _ _ Hok).
  assert (String.eqb (SuccessorNodeID (asg_Peers a)) "" && or_commitEffectInFlight o = false) as ->.
  { destruct (String.eqb_spec (SuccessorNodeID (asg_Peers a)) "") as [Hs|]; [|done]. cbn.
    destruct (or_commitEffectInFlight o) eqn:Hfl; [|done]. by destruct (Htail Hs (ow_flight _ _ _ Hok Hfl)). }
  cbn [andb]. destruct (reduceForwardWrite (record_of o) req limits) as [red|e] eqn:Hred; [|by apply grown_reply].
  assert (fwd_FromNodeID req = PredecessorNodeID (asg_Peers a)) as Hfrom.
  { unfold reduceForwardWrite in Hred. apply bind_Ok in Hred as ([] & Hv & _). by apply (validated_from log o). }
  destruct (red_Action red) eqn:Ha.
  - destruct (reduceForward_apply _ _ _ _ Hred Ha) as [Hseq ->].
    destruct (grown_stage o req Hg (Hreq Hfrom) Hfrom Hseq) as [Hg2 Hh].
    rw setRecord_eq; [by apply grown_accepted|by apply grown_exists|]. by apply grown_forward.
  - apply grown_reply, grown_catchup, grown_set; [done|]. unfold reduceForwardWrite in Hred.
    apply bind_Ok in Hred as (_ & _ & Hred). destruct (_ <? _).
    { apply bind_Ok in Hred as (_ & _ & [= <-]). done. }
    destruct (_ <? _); [|by injection Hred as <-].
    apply bind_Ok in Hred as (r & Hb & [= <-]). by apply (grown_buffer limits o req r Hg (Hreq Hfrom) Hfrom).
  - by apply grown_reply.
Qed.

(** What a step may raise in the record: the durable mark and the token. *)
Lemma grown_marks o r : grown o -> (forall log, owner_ok log B o -> slot_inv log B ((or_rt o) <| own_record := r |>)) ->
  quiet (record_of o) (r <| rr_highestPreparedDurable := rr_highestPreparedDurable (record_of o) |>
                         <| rr_highestCommitTokenReceived := rr_highestCommitTokenReceived (record_of o) |>) ->
  rr_highestCommittedSequence r = rr_highestCommittedSequence (record_of o) ->
  (rr_highestPreparedDurable (record_of o) <= D -> rr_highestPreparedDurable r <= D) ->
  (if String.eqb (SuccessorNodeID (asg_Peers a)) ""
   then rr_highestPreparedDurable (record_of o) <= rr_highestCommitTokenReceived (record_of o) ->
        rr_highestPreparedDurable r <= rr_highestCommitTokenReceived r
   else rr_highestCommitTokenReceived (record_of o) <= tok -> rr_highestCommitTokenReceived r <= tok) ->
  grown (with_record o r).
Proof. intros Hg Hi Hq Hc Hd Ht. apply grown_runtime; try (by destruct Hq); cbn; [lia|]. rw Hc. destruct (String.eqb _ ""); [done|lia]. Qed.

(** ** Commit advances *)
Lemma grown_handle_advance req resp o : grown o ->
  (ca_FromNodeID req = SuccessorNodeID (asg_Peers a) -> ca_CommittedThrough req <= tok) ->
  grown (handleCommitAdvanceRequest nodeID limits jc req resp o).
Proof.
  intros Hg Hreq. unfold handleCommitAdvanceRequest. cbv zeta.
  pose proof (grown_reconcile limits _ (grown_again limits jc) jc o Hg) as Hg1.
  generalize dependent (reconcileDurableCommitProgress nodeID limits (drain_again nodeID limits jc) jc o).1. clear o Hg. intros o Hg.
  destruct (replicationRecord (or_rt o) ≫= _) as [record|e] eqn:Er; [|by apply grown_reply].
  apply bind_Ok in Er as (r & Hr & (u & Hv & [= <-])%bind_Ok). apply replication_record in Hr as ->.
  pose proof Hg as (log & Hok & _). pose proof (grown_version o Hg) as (Ha & Hb & _).
  unfold validateCommitAdvanceSource in Hv. rw Ha in Hv. apply bind_Ok in Hv as (u' & Hv & _). apply reject_Ok in Hv as [Hv _].
  apply orb_false_iff in Hv as [Hne Hfrom]. apply negb_false_iff, String.eqb_eq in Hfrom.
  specialize (Hreq (eq_sym Hfrom)). apply String.eqb_neq in Hne as Hne'.
  set (raise := _ <? _). set (r1 := if raise then _ else _).
  assert (grown (if raise then setRecord r1 o else o) /\ own_version r1) as [Hg1 Hv1].
  { unfold r1. destruct raise; [|by split; [|apply grown_version]].
    split; [|by split; [|split]]. apply grown_set; [done|]. apply grown_keeps; try done; [by apply keeps_same|].
    by rw Hne. }
  destruct (_ <=? _); apply grown_reply; [done|]. apply grown_ready; [apply grown_again|done|done].
Qed.

(** ** Completions of the journal *)
Lemma grown_pipeline_complete done result o : grown o -> grown (pipeline_complete nodeID limits jc done result o).
Proof.
  intros Hg. unfold pipeline_complete. destruct done as [s|resp], result as [[]|e].
  - destruct (own_exists _); [done|]. apply grown_emit; [done|]. intros. by repeat constructor.
  - apply grown_emit; [done|]. intros. by repeat constructor.
  - destruct (negb _); [by apply grown_reply|]. cbv zeta. apply grown_schedule, grown_reply.
    destruct (String.eqb _ ""); [|done]. apply grown_ready; [apply grown_again|done|by apply grown_version].
  - by apply grown_reply.
Qed.

Lemma grown_resolve pipeline prepareDone result o : grown o -> grown (resolve nodeID limits jc pipeline prepareDone result o).
Proof.
  intros Hg. unfold resolve. destruct (or_pipelines o !! pipeline) as [p|]; [|done]. destruct (pl_finished p); [done|].
  cbv zeta. set (o1 := o <| or_pipelines := _ |>). assert (grown o1) as Hg1 by (apply (grown_flags o); auto).
  clearbody o1. destruct (negb (is_ok result) || _); [by apply grown_pipeline_complete|done].
Qed.

Lemma grown_after_prepare after result o : grown o -> grown (afterPrepare nodeID limits jc after result o).
Proof.
  intros Hg. destruct after as [s|resp|pipeline]; cbn [afterPrepare].
  - destruct result; [done|]. apply grown_emit; [done|]. intros. by repeat constructor.
  - destruct result; [|by apply grown_reply]. apply grown_schedule, grown_reply, grown_ready; [apply grown_again|done|by apply grown_version].
  - by apply grown_resolve.
Qed.

Lemma prepareDurable_marks r op :
  quiet r ((prepareDurable r op) <| rr_highestPreparedDurable := rr_highestPreparedDurable r |>
            <| rr_highestCommitTokenReceived := rr_highestCommitTokenReceived r |>) /\
  rr_highestCommittedSequence (prepareDurable r op) = rr_highestCommittedSequence r /\
  rr_highestPreparedDurable (prepareDurable r op) = Z.max (rr_highestPreparedDurable r) (op_Sequence op) /\
  (if String.eqb (SuccessorNodeID (asg_Peers (rr_assignment r))) ""
   then rr_highestPreparedDurable r <= rr_highestCommitTokenReceived r ->
        rr_highestPreparedDurable (prepareDurable r op) <= rr_highestCommitTokenReceived (prepareDurable r op)
   else rr_highestCommitTokenReceived (prepareDurable r op) = rr_highestCommitTokenReceived r).
Proof.
  unfold prepareDurable. destruct (Z.ltb_spec (rr_highestPreparedDurable r) (op_Sequence op)); cbn;
    (destruct (String.eqb _ ""); cbn;
      [destruct (Z.ltb_spec (rr_highestCommitTokenReceived r) (op_Sequence op)); cbn|]);
    (split; [by apply quiet_fields|split; [done|split; [lia|first [done|lia]]]]).
Qed.

Lemma grown_prepared prepare after result o : grown o -> (forall log, owner_ok log B o -> dc_Operation prepare ∈ log) ->
  op_Sequence (dc_Operation prepare) <= D ->
  grown (prepareCompleted nodeID limits jc prepare after result o).
Proof.
  intros Hg Hop HD. unfold prepareCompleted. cbv zeta. apply grown_after_prepare.
  destruct (is_ok result && _); [|done]. pose proof (grown_version o Hg) as (Ha & Hb & Ht).
  destruct (prepareDurable_marks (record_of o) (dc_Operation prepare)) as (Hq & Hc & Hdur & Hm). rw Ha in Hm.
  assert (own_version (prepareDurable (record_of o) (dc_Operation prepare))) as Hv.
  { split; [by rw -Ha -(qt_assignment _ _ Hq)|]. split; [|intros Hs; rw Hs in Hm; by apply Hm, Ht].
    pose proof (qt_commits _ _ Hq) as Hbc. cbn in Hbc. rw Hb in Hbc. apply (anti_symm (⊆)); [done|apply map_empty_subseteq]. }
  apply grown_ready; [apply grown_again| |done]. destruct (_ || _); [|done]. apply grown_set; [done|]. apply grown_marks; try done.
  - intros log Hok. apply prepareDurable_inv; [apply Hok|by apply Hop].
  - rw Hdur. lia.
  - destruct (String.eqb _ ""); [done|]. by rw Hm.
Qed.

Lemma grown_range_completed ready result o : grown o -> grown (headCommitRangeCompleted nodeID limits jc ready result o).
Proof.
  intros Hg. unfold headCommitRangeCompleted. destruct result; [apply grown_apply; [apply grown_again|done]|]. cbv zeta.
  set (o1 := if _ <=? _ then _ else _).
  assert (or_acceptedCommits o1 = or_acceptedCommits o /\ or_rt o1 = or_rt o /\ or_effects o1 = or_effects o /\
    (or_commitEffectInFlight o1 = true -> or_commitEffectInFlight o = true)) as (Ea & Er & Ee & Ef).
  { unfold o1. by destruct (_ <=? _), (_ =? _). }
  rw move_nothing; [by rw Ea; apply grown_accepted|]. apply (grown_flags o); auto.
Qed.

(** ** Answers of the neighbours *)
Lemma grown_retry o : grown o -> grown (schedulePreparedForwardReplayRetry o).
Proof.
  intros Hg. unfold schedulePreparedForwardReplayRetry. destruct (_ || _); [done|].
  apply grown_emit; [by apply (grown_flags o); auto|]. intros. by repeat constructor.
Qed.

Lemma grown_forwarded req after result o : grown o -> SuccessorNodeID (asg_Peers a) <> "" ->
  (forall log, owner_ok log B o -> fwd_Operation req ∈ log) ->
  grown (forwardCompleted nodeID limits jc req after result o).
Proof.
  intros Hg Hs Hop. unfold forwardCompleted. destruct after as [pipeline assignment|s assignment]; destruct result as [[]|e].
  - destruct (negb _); [by apply grown_resolve|]. cbv zeta.
    destruct (_ || _); [by apply grown_resolve|by apply grown_dispatch].
  - by apply grown_resolve.
  - by apply grown_drain.
  - destruct (_ && _ && _); [by apply grown_retry|done].
Qed.

Lemma replay_requests_ok log o n : forall s, owner_ok log B o -> SuccessorNodeID (asg_Peers a) <> "" ->
  rr_materializedCommittedSequence (record_of o) < s -> s + Z.of_nat n <= rr_nextSequence (record_of o) ->
  Forall (effect_ok log (rr_highestCommittedSequence (record_of o))) (replay_requests nodeID n (record_of o) s).
Proof.
  induction n as [|n IH]; intros s Hok Hne Hm Hn; cbn [replay_requests]; [constructor|].
  destruct (rr_preparedEntries (record_of o) !! s) as [op|] eqn:Hp; [|constructor]. cbv zeta.
  pose proof (si_next _ _ _ (ow_inv _ _ _ Hok)) as Hnext. pose proof (si_room _ _ _ (ow_inv _ _ _ Hok)) as Hroom.
  destruct (si_order _ _ _ (ow_inv _ _ _ Hok)) as [H0 _]. constructor.
  - cbn -[cloneWriteOperation]. rw cloneWriteOperation_id. split; [|done].
    apply list_elem_of_lookup_2 with (Z.to_nat (s - 1)). apply (prepared_in_log _ B (or_rt o)); [apply Hok|done|lia].
  - rw u64_add_small; [lia|]. apply IH; try done; lia.
Qed.

Lemma grown_replay o : grown o -> grown (replayPreparedForwards nodeID o).
Proof.
  intros Hg. unfold replayPreparedForwards. destruct (_ || _) eqn:E; [done|].
  apply orb_false_iff in E as [[_ Hs]%orb_false_iff Hlt%Z.leb_gt]. apply String.eqb_neq in Hs.
  apply grown_emit; [by apply (grown_flags o); auto|]. intros log Hok.
  assert (owner_ok log B o) as Hok' by (destruct Hok; by split).
  pose proof (si_next _ _ _ (ow_inv _ _ _ Hok')) as Hnext. pose proof (si_room _ _ _ (ow_inv _ _ _ Hok')) as Hroom.
  destruct (si_order _ _ _ (ow_inv _ _ _ Hok')) as [H0 H1]. rw (ow_assignment _ _ _ Hok') in Hs.
  rw u64_add_small; [lia|]. apply (replay_requests_ok log o); try done; lia.
Qed.

Lemma grown_replay_timer o : grown o -> grown (replayTimerFired nodeID o).
Proof. intros Hg. apply grown_replay, (grown_flags o); auto. Qed.

Lemma grown_confirmed o committedThrough : grown o ->
  grown (with_record o ((record_of o) <| rr_highestUpstreamConfirmedSequence := committedThrough |>)).
Proof. intros Hg. apply grown_keeps; try done; [by apply keeps_same|]. destruct (String.eqb _ ""); cbn; [lia|done]. Qed.

Lemma grown_advanced req assignment result o : grown o -> grown (commitAdvanceCompleted nodeID req assignment result o).
Proof.
  intros Hg. unfold commitAdvanceCompleted. cbv zeta. set (o1 := o <| or_upstreamCommitInFlight := false |>).
  assert (grown o1) as Hg1 by (apply (grown_flags o); auto). clearbody o1. destruct result as [[]|e].
  - destruct (negb (own_exists _)); [done|]. destruct (negb _); apply grown_upstream; (destruct (_ <? _); [|done]).
    + apply (grown_flags o1); auto.
    + apply grown_emit; [by apply grown_set, grown_confirmed|]. intros. by repeat constructor.
  - destruct (_ <=? _); [by apply (grown_flags o1); auto|done].
Qed.

(** A snapshot that is not ahead of the owner is left alone. *)
Lemma grown_fetched install set upsert plan result o : grown o ->
  (forall highest, result = Ok highest -> highest <= rr_highestCommittedSequence (record_of o)) ->
  grown (snapshotFetched nodeID limits jc install set upsert plan result o).
Proof.
  intros Hg Hh. unfold snapshotFetched. cbv zeta. set (o1 := o <| or_catchupSyncInFlight := false |>).
  assert (grown o1) as Hg1 by (apply (grown_flags o); auto).
  assert (record_of o1 = record_of o) as Hr by done. clearbody o1. destruct result as [highest|]; [|done]. specialize (Hh _ eq_refl).
  set (h := if _ <=? _ then _ else _). destruct (Z.ltb_spec 0 h) as [H0|]; [|by apply grown_drain].
  assert (h <= rr_highestCommittedSequence (record_of o1)) as Hle by (rw Hr; unfold h in *; destruct (_ <=? _); lia).
  unfold applyFetchedPredecessorSnapshot. rw (proj2 (Z.leb_le _ _) Hle) orb_true_r. by apply grown_drain.
Qed.

Lemma grown_drain_scheduled o : grown o -> grown (drainScheduled nodeID limits jc o).
Proof. intros Hg. apply grown_drain, (grown_flags o); auto. Qed.
End handlers.

(** ** Client writes *)
Definition grown_by (log : list WriteOperation) (o : ownerRuntime) : Prop :=
  owner_ok log B o /\ L `prefix_of` log /\
  (C <= rr_highestCommittedSequence (record_of o) /\ rr_materializedCommittedSequence (record_of o) <= zlength L /\
   rr_highestPreparedDurable (record_of o) <= D) /\
  forall i op, (length L <= i)%nat -> log !! i = Some op -> fw op.

Definition not_staged (answer : submit_answer) : Prop :=
  match answer with SubmitStaged _ _ _ => False | _ => True end.

Lemma triple_eq {X Y Z} (x x' : X) (y y' : Y) (z z' : Z) : (x, y, z) = (x', y', z') -> x = x' /\ y = y' /\ z = z'.
Proof. by intros [= -> -> ->]. Qed.

(** A client's write leaves the record alone or stages one operation. *)
Lemma submit_cases log base climits now n rt kind key value conditions rt' n' answer :
  slot_inv log base rt ->
  SlotOwner.handleSubmitWrite (in_backend base) climits now n rt kind key value conditions = (rt', n', answer) ->
  (slot_inv log base rt' /\ own_record rt' = own_record rt /\ not_staged answer) \/
  exists rt1 inFlight op, slot_inv log base rt1 /\ own_record rt1 = own_record rt /\
    op_Sequence op = rr_nextSequence (own_record rt) /\ op_Kind op = kind /\
    let r := (reduceSubmitWrite ((own_record rt) <| rr_inFlightClientWrites := inFlight |>) op).1 in
    rt' = rt1 <| own_record := r |> /\
    answer = SubmitStaged (submit_result op) (asg_Role (rr_assignment r)) (effect_of_role r op).
Proof.
  intros Hi. unfold SlotOwner.handleSubmitWrite.
  destruct (activeRecord rt) as [record|e] eqn:Hact; [|by intros [= <- _ <-]; left].
  assert (record = own_record rt) as ->.
  { unfold activeRecord in Hact. by apply bind_Ok in Hact as (_ & _ & (_ & _ & (_ & _ & [= ->])%bind_Ok)%bind_Ok). }
  destruct (_ && _); [by intros [= <- _ <-]; left|].
  destruct (committedMetadataState_spec log base rt key Hi) as (rt1 & -> & Hi1 & Hr1 & _).
  destruct (evaluateWriteConditions _ _ _); [|by intros [= <- _ <-]; left].
  destruct (_ && _); [by intros [= <- _ <-]; left|].
  destruct (tryAdmitNodeClientWrite _ _ _ _) as [m|]; [|by intros [= <- _ <-]; left].
  cbv zeta. set (op := {| op_Slot := _ |}).
  rw (surjective_pairing (reduceSubmitWrite _ op)). intros (<- & _ & <-)%triple_eq. right.
  exists rt1, (rr_inFlightClientWrites (own_record rt) + 1), op. do 4 (split; [done|]). cbv zeta. split; reflexivity.
Qed.

Lemma submit_fields r op : let r' := (reduceSubmitWrite r op).1 in
  rr_assignment r' = rr_assignment r /\ rr_bufferedForwards r' = rr_bufferedForwards r /\
  rr_bufferedCommits r' = rr_bufferedCommits r /\ rr_highestCommitTokenReceived r' = rr_highestCommitTokenReceived r /\
  (forall node, forwards_from node r -> forwards_from node r').
Proof. done. Qed.

(** A replica without a predecessor takes the operations of its clients. *)
Lemma grown_submitted log o rt1 op inFlight : grown_by log o -> slot_inv log B rt1 -> own_record rt1 = record_of o ->
  fw op -> op_Sequence op = rr_nextSequence (record_of o) ->
  let r := (reduceSubmitWrite ((record_of o) <| rr_inFlightClientWrites := inFlight |>) op).1 in
  grown (o <| or_rt := rt1 <| own_record := r |> |>) /\ held_op (o <| or_rt := rt1 <| own_record := r |> |>) op.
Proof.
  intros (Hok & Hl & Hc & Hf) Hi1 Hr1 Hfw Hseq r. destruct (fw_fits _ Hfw) as [Hsup Hroom].
  pose proof (ow_inv _ _ _ Hok) as Hi. pose proof (si_next _ _ _ Hi) as Hn. destruct (si_order _ _ _ Hi) as [Hm Hd].
  pose proof (submit_counted (record_of o) inFlight op) as (r' & Hred & Hst & _).
  assert (r = r') as Hr' by (unfold r; by rw Hred). clear Hred. rw -Hr' in Hst. clear Hr' r'.
  destruct (submit_fields ((record_of o) <| rr_inFlightClientWrites := inFlight |>) op) as (Ea & Eb & Ec & Et & Es).
  fold r in Ea, Eb, Ec, Et, Es. clearbody r. change (rr_assignment r = rr_assignment (record_of o)) in Ea.
  change (rr_bufferedForwards r = rr_bufferedForwards (record_of o)) in Eb.
  change (rr_bufferedCommits r = rr_bufferedCommits (record_of o)) in Ec.
  change (rr_highestCommitTokenReceived r = rr_highestCommitTokenReceived (record_of o)) in Et.
  split.
  - exists (log ++ [op]). split; [|split_and!].
    + destruct Hok as [_ Ha Hb Hs Ht Hbc Hacc Hfl He]. split; cbn; rw ?Ea ?Eb ?Ec ?Et ?(sg_durable _ _ _ Hst) ?(sg_committed _ _ _ Hst) //.
      * apply stage_inv; [done|done|by rw Hr1|lia|by rw Hr1].
      * by apply Es.
      * eapply effects_ok_mono; [|reflexivity|exact He]. by eexists.
    + by apply prefix_app_r.
    + cbn. rw (sg_committed _ _ _ Hst). lia.
    + cbn. rw (sg_materialised _ _ _ Hst). lia.
    + cbn. rw (sg_durable _ _ _ Hst). lia.
    + intros i op' Hi' Hop. apply lookup_app_Some in Hop as [Hop|[_ Hop]]; [by apply (Hf i)|].
      apply list_lookup_singleton_Some in Hop as [_ <-]. done.
  - split; cbn.
    + rw (sg_prepared _ _ _ Hst). apply lookup_insert_eq.
    + rw (sg_materialised _ _ _ Hst) (sg_next _ _ _ Hst) Hseq Hn u64_add_small; unfold zlength in *; lia.
Qed.

Lemma grown_started record op o : grown o -> held_op o op -> rr_assignment record = a ->
  grown (match effect_of_role record op with
    | SubmitPrepare operation => startPrepareEffect record operation (AfterSubmit (op_Sequence operation)) o
    | SubmitPrepareAndForward operation _ =>
        startPreparedForwardPipeline nodeID record operation (DoneSubmit (op_Sequence operation)) o
    | SubmitFailed e => emit [EffWaiter (u64_sub (rr_nextSequence record) 1) (Err e)] o
    | SubmitNothing => o
    end).
Proof.
  intros Hg Hh Ha. unfold effect_of_role. rw Ha. destruct (asg_Role a); try done; [by apply grown_prepare|].
  destruct (String.eqb_spec (SuccessorNodeID (asg_Peers a)) ""); [|by apply grown_pipeline].
  apply grown_emit; [done|]. intros. by repeat constructor.
Qed.

Lemma grown_submit climits now n kind key value conditions o o' n' answer : grown o ->
  (forall op, supported op -> op_Sequence op < u64_mod - 2 -> fw op) ->
  has_room (or_rt o) -> kind = OperationKindPut \/ kind = OperationKindDelete ->
  handleSubmitWrite nodeID (in_backend B) climits now n kind key value conditions o = (o', n', answer) -> grown o'.
Proof.
  intros (log & Hby) Hall Hroom Hk. unfold handleSubmitWrite. pose proof Hby as (Hok & Hl & Hc & Hf).
  destruct (SlotOwner.handleSubmitWrite _ _ _ _ _ _ _ _ _) as [[rt' m] ans] eqn:Hh. intros [= <- _ _].
  apply (submit_cases log B) in Hh as [(Hi' & Hr & Hns)|(rt1 & inFlight & op & Hi1 & Hr1 & Hseq & Hkind & Hrt & Hans)]; [|..|apply Hok].
  - assert (grown (o <| or_rt := rt' |>)) as Hg1; [|by destruct ans]. exists log. cbn. rw Hr. split; [|done].
    destruct Hok. split; cbn; rw ?Hr //.
  - assert (fw op) as Hfw by (apply Hall; [unfold supported; by rw Hkind|by rw Hseq]).
    destruct (grown_submitted log o rt1 op inFlight Hby Hi1 Hr1 Hfw Hseq) as [Hg1 Hh1].
    destruct (submit_fields ((record_of o) <| rr_inFlightClientWrites := inFlight |>) op) as (Ea & _).
    rw Hrt Hans. revert Hg1 Hh1 Ea. generalize (reduceSubmitWrite ((record_of o) <| rr_inFlightClientWrites := inFlight |>) op).1.
    intros r Hg1 Hh1 Ea. rw prune_nothing; [by apply grown_accepted|].
    change (own_record (rt1 <| own_record := r |>)) with r. apply grown_started; [done|done|].
    rw Ea. apply Hok.
Qed.
End owner.

(** ** Steps that send nothing *)
Section local.
Context (nodeID : string) (a : ReplicaAssignment) (fw : WriteOperation -> Prop) (tok : Z).

(** A larger bound on what the neighbours may say. *)
Lemma owner_mono (fw' : WriteOperation -> Prop) tok' log base o : (forall op, fw op -> fw' op) -> tok <= tok' ->
  owner_ok nodeID a fw tok log base o -> owner_ok nodeID a fw' tok' log base o.
Proof.
  intros Hfw Htok []. split; try done.
  - intros s req Hs. destruct (ow_buffered0 s req Hs) as (? & ? & ?). auto.
  - destruct (String.eqb _ ""); [done|lia].
Qed.

(** The backend has caught up with more of the committed prefix. *)
Lemma owner_base log base o h : owner_ok nodeID a fw tok log base o ->
  rr_materializedCommittedSequence (record_of o) <= h <= rr_highestCommittedSequence (record_of o) ->
  owner_ok nodeID a fw tok log (materialise (ztake h log)) o.
Proof. intros [] Hh. split; try done. by apply (base_inv _ base). Qed.

(** A record that differs in nothing a neighbour sees. *)
Lemma owner_keeps log base o rt' : owner_ok nodeID a fw tok log base o -> slot_inv log base rt' ->
  quiet (record_of o)
    ((own_record rt') <| rr_materializedCommittedSequence := rr_materializedCommittedSequence (record_of o) |>) ->
  rr_highestCommittedSequence (own_record rt') = rr_highestCommittedSequence (record_of o) ->
  owner_ok nodeID a fw tok log base (o <| or_rt := rt' |>).
Proof.
  intros [_ Ha Hb Hs Ht Hbc Hacc Hfl He] Hi Hq Hc. split; cbn; rw ?Hc ?(qt_durable _ _ Hq) ?(qt_token _ _ Hq) ?(qt_forwards _ _ Hq) ?(qt_assignment _ _ Hq) //.
  - by apply (qt_sources _ _ Hq).
  - pose proof (qt_commits _ _ Hq) as H. rw Hbc in H. apply (anti_symm (⊆)); [done|apply map_empty_subseteq].
Qed.
End local.
