(* ===== verification/OwnerTermination.v ===== *)
(** * The loops of a slot owner end

    [drainReadyBuffered] calls itself through the commits it makes, and
    [advanceAcceptedCommitProgress] goes round while the journal reports
    progress.  Both stop within what is durable and not yet committed: whatever
    would be done after the fuel of the model has run out is never done, and
    more fuel changes nothing. *)

From S2P Require Import Prelude.
From S2P Require Import StorageTypes.
From S2P Require Import SlotReducer.
From S2P Require Import SlotOwner.
From S2P Require Import SlotLifecycle.
From S2P Require Import SlotProps.
From S2P Require Import SlotTheorems.
From S2P Require Import Backend.
From S2P Require Import SlotMessages.
From S2P Require Import OwnerProps.

Open Scope Z_scope.
Open Scope record_scope.
Import Owner.

#[local] Abbreviation committed o := (rr_highestCommittedSequence (record_of o)).
#[local] Abbreviation durable o := (rr_highestPreparedDurable (record_of o)).

Section fuel.
Context (nodeID : string) (a : ReplicaAssignment) (fw : WriteOperation -> Prop) (tok : Z).
Context (fw_fits : forall op, fw op -> supported op /\ op_Sequence op < u64_mod - 2).
Context (limits : slotProtocolBufferLimits) (jc : Z) (L : list WriteOperation) (B : Snapshot).

(** ** Two drains that agree on what has committed more *)
Section agree.
Context (C D : Z).
Abbreviation grown := (grown nodeID a fw tok L B C D).
Context (d1 d2 : ownerRuntime -> ownerRuntime).
Context (agree : forall o, grown o -> C < committed o -> d1 o = d2 o).

Lemma apply_agree s o : grown o -> applyCommitWatermark nodeID limits d1 s o = applyCommitWatermark nodeID limits d2 s o.
Proof.
  intros Hg. destruct (apply_shape nodeID a fw tok fw_fits L B C D limits s o Hg) as [[_ H]|(x & Hx & Hlt & H)]; [by rw !H|].
  rw !H. apply agree; [done|]. destruct Hg as (log & _ & _ & (Hc & _) & _). lia.
Qed.

Lemma ready_agree record o : grown o -> own_version a record ->
  submitCommitWatermarkReady nodeID limits d1 record o = submitCommitWatermarkReady nodeID limits d2 record o.
Proof.
  intros Hg (Ha & _ & Ht). unfold submitCommitWatermarkReady. cbv zeta. rw Ha.
  assert (String.eqb (SuccessorNodeID (asg_Peers a)) "" &&
    (rr_highestCommitTokenReceived record <? rr_highestPreparedDurable record) = false) as ->.
  { destruct (String.eqb_spec (SuccessorNodeID (asg_Peers a)) ""); [|done]. cbn. apply Z.ltb_ge. by apply Ht. }
  rw Ha. destruct (asg_Role a); try done; (destruct (_ <? _); [by apply apply_agree|done]).
Qed.

Lemma reconcile_agree o : grown o ->
  reconcileDurableCommitProgress nodeID limits d1 jc o = reconcileDurableCommitProgress nodeID limits d2 jc o.
Proof.
  intros Hg. unfold reconcileDurableCommitProgress. destruct (_ || _); [done|]. cbv zeta.
  destruct (_ <=? _); [done|]. by rw apply_agree.
Qed.

Lemma detect_agree record o : grown o -> own_version a record ->
  detectAcceptedCommitGap nodeID limits d1 jc record o = detectAcceptedCommitGap nodeID limits d2 jc record o.
Proof.
  intros Hg Hv. unfold detectAcceptedCommitGap. rw (grown_sync nodeID a fw tok L B C D record o Hg Hv). cbv zeta.
  by rw reconcile_agree.
Qed.
End agree.

(** ** What is left *)
Abbreviation grown_from C D := (grown nodeID a fw tok L B C D).

Lemma grown_now C D o : grown_from C D o -> grown_from (committed o) (durable o) o.
Proof. intros (log & Hok & Hl & (_ & Hm & _) & Hf). exists log. split; [done|]. split; [done|]. split; [lia|done]. Qed.

(** What has committed more has less left. *)
Lemma backlog_less C D o : grown_from C D o -> C < committed o ->
  (commit_backlog o < Z.to_nat (D - C))%nat.
Proof.
  intros (log & Hok & _ & (_ & _ & Hd) & _) Hlt. unfold commit_backlog.
  destruct (si_order _ _ _ (ow_inv _ _ _ _ _ _ _ Hok)). lia.
Qed.

(** ** Rounds of commit progress *)
Section rounds.
Context (d : ownerRuntime -> ownerRuntime) (d_grown : forall C D o, grown_from C D o -> grown_from C D (d o)).

(** What is left, and a commit in flight. *)
Definition rounds_left (o : ownerRuntime) : nat :=
  (commit_backlog o + if or_commitEffectInFlight o then 1 else 0)%nat.

Lemma apply_less C D s o : grown_from C D o ->
  committed o < Z.min (Z.min s (rr_highestCommitTokenReceived (record_of o))) (durable o) ->
  (commit_backlog (applyCommitWatermark nodeID limits d s o) < commit_backlog o)%nat.
Proof.
  intros Hg Hlt. destruct (apply_shape nodeID a fw tok fw_fits L B _ _ limits s o (grown_now _ _ _ Hg)) as [[? _]|(x & Hx & Hc & ->)]; [lia|].
  pose proof (d_grown _ _ _ (grown_now _ _ _ Hx)) as Hdx. destruct Hx as (_ & _ & _ & (_ & _ & Hxd) & _).
  destruct Hdx as (_ & _ & _ & (H1 & _ & H2) & _). unfold commit_backlog. lia.
Qed.

(** Progress uses something up. *)
Lemma reconcile_less C D o o' : grown_from C D o -> reconcileDurableCommitProgress nodeID limits d jc o = (o', true) ->
  or_commitEffectInFlight o = true /\
  ((commit_backlog o' < commit_backlog o)%nat \/ commit_backlog o' = commit_backlog o /\ or_commitEffectInFlight o' = false).
Proof.
  intros Hg. unfold reconcileDurableCommitProgress. destruct (or_commitEffectInFlight o) eqn:Hfl; [|by rw orb_true_r].
  destruct (_ || _ || _ || _); [done|]. cbv zeta. set (target := Z.min (Z.min jc _) _).
  destruct (Z.leb_spec target (committed o)) as [Hle|Hlt]; intros [= <-]; (split; [done|]); [by right|left].
  apply (apply_less C D); [done|]. unfold target in *. lia.
Qed.

Lemma clear_gap_left o : commit_backlog (clearProgressionGap o) = commit_backlog o /\
  or_commitEffectInFlight (clearProgressionGap o) = or_commitEffectInFlight o.
Proof. unfold clearProgressionGap. by destruct (own_progressionGap _). Qed.

Lemma enter_gap_left s o : commit_backlog (enterProgressionGap s o) = commit_backlog o /\
  or_commitEffectInFlight (enterProgressionGap s o) = or_commitEffectInFlight o.
Proof. unfold enterProgressionGap. by destruct (_ =? _). Qed.

Lemma detect_less C D record o : grown_from C D o -> own_version a record ->
  let o1 := (detectAcceptedCommitGap nodeID limits d jc record o).1 in
  (commit_backlog o1 < commit_backlog o)%nat \/
  commit_backlog o1 = commit_backlog o /\ (or_commitEffectInFlight o1 = true -> or_commitEffectInFlight o = true).
Proof.
  intros Hg Hv. unfold detectAcceptedCommitGap. rw (grown_sync nodeID a fw tok L B C D record o Hg Hv). cbv zeta.
  do 3 (destruct (_ : bool); [destruct (clear_gap_left o) as [E1 E2]; cbn [fst]; rw E1 E2; by right|]).
  destruct (reconcileDurableCommitProgress _ _ _ _ _) as [o1 []] eqn:Hr; cbn [fst].
  - destruct (clear_gap_left o1) as [E1 E2]. rw E1 E2.
    destruct (reconcile_less C D o o1 Hg Hr) as [_ [?|[? Hf]]]; [by left|right; by rw Hf].
  - destruct (enter_gap_left (u64_add (rr_highestCommittedSequence record) 1) o1) as [E1 E2]. rw E1 E2.
    unfold reconcileDurableCommitProgress in Hr. destruct (_ || _); [by injection Hr as <-; right|].
    by destruct (_ <=? _).
Qed.

(** Rounds of a drain that may be cut off and of the model's, which agree on what
    has committed more: with fuel for what is left neither is cut off. *)
Lemma advance_fuel (d1 cut1 cut2 : ownerRuntime -> ownerRuntime) C D :
  (forall o, grown_from C D o -> C < committed o -> d1 o = d o) ->
  forall n o f1 f2, grown_from C D o -> (rounds_left o <= n)%nat -> (n < f1)%nat -> (n < f2)%nat ->
  advance_rounds nodeID limits d1 cut1 f1 jc o = advance_rounds nodeID limits d cut2 f2 jc o.
Proof.
  intros Hagree n. induction n as [n IH] using lt_wf_ind. intros o [|f1] [|f2] Hg Hn H1 H2; try lia. cbn [advance_rounds].
  destruct (negb _); [reflexivity|]. pose proof (grown_version _ _ _ _ _ _ _ _ o Hg) as Hv.
  rw (grown_sync nodeID a fw tok L B C D _ o Hg Hv). cbv zeta. rw (detect_agree C D d1 d Hagree) //.
  pose proof (grown_detect _ _ _ _ fw_fits _ _ _ _ limits d (d_grown C D) jc (record_of o) o Hg Hv) as Hd.
  pose proof (detect_less C D (record_of o) o Hg Hv) as Hless.
  destruct (detectAcceptedCommitGap _ _ _ _ _ _) as [o1 []]; [reflexivity|]. cbn [fst] in Hd, Hless.
  destruct (or_commitEffectInFlight o1) eqn:Hfl; [|by destruct (_ && _); [apply (ready_agree C D)|]].
  rw (reconcile_agree C D d1 d Hagree) //.
  pose proof (grown_reconcile _ _ _ _ fw_fits _ _ _ _ limits d (d_grown C D) jc o1 Hd) as Hr.
  destruct (reconcileDurableCommitProgress _ _ _ _ _) as [o2 []] eqn:Hrec; [|by destruct (_ && _); [apply (ready_agree C D)|]].
  cbn [fst] in Hr. apply (reconcile_less C D) in Hrec as [_ Hl2]; [|done].
  assert (rounds_left o2 < rounds_left o)%nat as Hlt.
  { assert (or_commitEffectInFlight o = true \/ (commit_backlog o1 < commit_backlog o)%nat) as Hpos by (destruct Hless as [?|[_ Hf]]; auto).
    assert (commit_backlog o1 <= commit_backlog o)%nat by lia. unfold rounds_left.
    destruct Hl2 as [Hl2|[Hl2 ->]], Hpos as [-> |Hpos]; try destruct (or_commitEffectInFlight o2); try destruct (or_commitEffectInFlight o); lia. }
  apply (IH (rounds_left o2)); try done; lia.
Qed.

Lemma rounds_left_bound o : (rounds_left o <= S (commit_backlog o))%nat.
Proof. unfold rounds_left. destruct (or_commitEffectInFlight o); lia. Qed.

Lemma body_agree (d1 cut : ownerRuntime -> ownerRuntime) C D resp o :
  (forall o, grown_from C D o -> C < committed o -> d1 o = d o) -> grown_from C D o ->
  drain_body nodeID limits cut d1 jc resp o = drain_body nodeID limits id d jc resp o.
Proof.
  intros Hagree Hg. unfold drain_body. destruct (negb _); [reflexivity|]. rw (reconcile_agree C D d1 d Hagree o Hg). cbv zeta.
  pose proof (grown_reconcile _ _ _ _ fw_fits _ _ _ _ limits d (d_grown C D) jc o Hg) as Hg1.
  generalize dependent (reconcileDurableCommitProgress nodeID limits d jc o).1. intros o1 Hg1.
  destruct (negb _); [reflexivity|]. unfold advanceAcceptedCommitProgress. pose proof (rounds_left_bound o1) as Hl.
  rw (advance_fuel d1 cut id C D Hagree (S (commit_backlog o1)) o1 _ (S (S (commit_backlog o1))) Hg1 Hl); [lia..|].
  pose proof (grown_rounds _ _ _ _ fw_fits _ _ _ _ limits d (d_grown C D) jc (S (S (commit_backlog o1))) o1 Hg1) as Hg2.
  generalize dependent (advance_rounds nodeID limits d id (S (S (commit_backlog o1))) jc o1). intros o2 Hg2.
  destruct (or_commitEffectInFlight o2); [reflexivity|]. pose proof Hg2 as (log & Hok & _).
  rw (ow_no_commits _ _ _ _ _ _ _ Hok) lookup_empty. reflexivity.
Qed.
End rounds.

(** ** Draining *)
Lemma rounds_grown f C D o : grown_from C D o -> grown_from C D (drain_rounds nodeID limits id f jc o).
Proof. by apply grown_drain_rounds. Qed.

Lemma drain_fuel cut n : forall C D o f1 f2, grown_from C D o -> (commit_backlog o <= n)%nat -> (n < f1)%nat -> (n < f2)%nat ->
  drain_rounds nodeID limits cut f1 jc o = drain_rounds nodeID limits id f2 jc o.
Proof.
  induction n as [n IH] using lt_wf_ind. intros C D o [|f1] [|f2] Hg Hb H1 H2; try lia. cbn [drain_rounds].
  apply (body_agree _ (rounds_grown f2) _ _ (committed o) (durable o)); [|by apply (grown_now C D)].
  intros x Hx Hlt. pose proof (backlog_less _ _ x Hx Hlt) as Hless. unfold commit_backlog in Hb, Hless.
  apply (IH (commit_backlog x)) with (committed o) (durable o); try done; unfold commit_backlog; lia.
Qed.

(** A drain with fuel agrees with the model's on what has committed more. *)
Lemma drain_agrees cut fuel o C D : grown_from C D o -> (commit_backlog o <= fuel)%nat ->
  forall x, grown_from (committed o) (durable o) x -> committed o < committed x ->
  drain_rounds nodeID limits cut fuel jc x = drain_again nodeID limits jc x.
Proof.
  intros Hg Hf x Hx Hlt. pose proof (backlog_less _ _ x Hx Hlt) as Hless. unfold drain_again.
  apply (drain_fuel cut (commit_backlog x)) with (committed o) (durable o); try done; unfold commit_backlog in *; lia.
Qed.
End fuel.

(** C37. The owner's loops end, in every owner that satisfies the invariant of a
    chain's replicas.  Let them go round at most [fuel] times and then
    do anything at all, [cut], in place of the rounds that would follow.  With
    more fuel than there are operations durable and not yet committed, draining
    the buffered messages, the calls it makes of itself, and the rounds of
    commit progress give the same whatever [cut] is, and that is the result of
    the model: no round beyond the fuel is ever reached. *)
Theorem drain_fuel_enough nodeID a fw tok limits jc log base o :
  (forall op, fw op -> supported op /\ op_Sequence op < u64_mod - 2) -> owner_ok nodeID a fw tok log base o ->
  forall cut fuel, (S (commit_backlog o) < fuel)%nat ->
  let drain := drain_rounds nodeID limits cut fuel jc in
  drain o = drain_again nodeID limits jc o /\
  (forall resp, drain_body nodeID limits cut drain jc resp o = drainReadyBuffered nodeID limits jc resp o) /\
  advance_rounds nodeID limits drain cut fuel jc o =
  advanceAcceptedCommitProgress nodeID limits (drain_again nodeID limits jc) id jc o.
Proof.
  intros Hfw Hok cut fuel Hfuel drain. assert (grown nodeID a fw tok log base (committed o) (durable o) o) as Hg.
  { exists log. split; [done|]. split; [done|]. destruct (si_order _ _ _ (ow_inv _ _ _ _ _ _ _ Hok)). split; [lia|].
    intros i op Hi Hop%lookup_lt_Some. lia. }
  assert (forall C D x, grown nodeID a fw tok log base C D x -> grown nodeID a fw tok log base C D (drain_again nodeID limits jc x))
    as Hgrown by (intros C D x; by apply grown_again).
  pose proof (drain_agrees nodeID a fw tok Hfw limits jc log base cut fuel o _ _ Hg ltac:(lia)) as Hagree. split_and!.
  - apply (drain_fuel nodeID a fw tok Hfw limits jc log base cut (commit_backlog o)) with (committed o) (durable o); [done|lia..].
  - intros resp. by apply (body_agree nodeID a fw tok Hfw limits jc log base _ Hgrown _ _ (committed o) (durable o)).
  - apply (advance_fuel nodeID a fw tok Hfw limits jc log base _ Hgrown _ cut id (committed o) (durable o) Hagree (S (commit_backlog o)));
      [done|apply rounds_left_bound|lia..].
Qed.
