(* ===== verification/OwnerFindings.v ===== *)
(** * Two behaviours of the slot owner that its comments do not intend

    Both are runs of one owner, evaluated. *)

From S2P Require Import Prelude.
From S2P Require Import StorageTypes.
From S2P Require Import SlotReducer.
From S2P Require Import SlotOwner.
From S2P Require Import SlotLifecycle.
From S2P Require Import SlotProps.
From S2P Require Import SlotTheorems.
From S2P Require Import Backend.
From S2P Require Import SlotMessages.

Open Scope Z_scope.
Open Scope record_scope.
Import Owner.

(** A replica that is its own chain. *)
Definition sole_assignment : ReplicaAssignment :=
  {| asg_Slot := 0; asg_ChainVersion := 5; asg_Role := ReplicaRoleSingle; asg_Peers := noPeers |}.

Definition owner_limits : slotProtocolBufferLimits :=
  {| perSlotLimit := 16; perNodeLimit := 0; nodeBufferedNow := 0 |}.

Definition sole_owner : ownerRuntime :=
  new_owner {| own_slot := 0; own_exists := true; own_record := recoveredRecord sole_assignment 0;
               own_committedMetadata := ∅; own_progressionGap := false; own_progressionGapSequence := 0 |}.

Definition put_key (key : string) (o : ownerRuntime) : ownerRuntime * submit_answer :=
  let '(o, _, answer) := handleSubmitWrite "n" (in_backend ∅) no_limits 100 0 OperationKindPut key "v" no_conditions o in
  (o, answer).

(** The completion, with success, of the effect at a place in the list. *)
Definition complete (journalCommitted : Z) (n : nat) (o : ownerRuntime) : ownerRuntime :=
  match or_effects o !! n with
  | Some (EffPrepare prepare after) => prepareCompleted "n" owner_limits journalCommitted prepare after (Ok tt) o
  | Some (EffHeadCommitRange _ ready) => headCommitRangeCompleted "n" owner_limits journalCommitted ready (Ok tt) o
  | _ => o
  end.

(** ** A forward that nobody may send *)
(** A write of a replaced predecessor, of an older chain. *)
Definition stale_forward : ForwardWriteRequest :=
  {| fwd_Operation := {| op_Slot := 0; op_Sequence := 2; op_Kind := OperationKindPut; op_Key := "k";
                         op_Value := "stale"; op_Metadata := zeroMetadata |};
     fwd_FromNodeID := "old"; fwd_ChainVersion := 3 |}.

(** A client's write is durable and its commit is with the journal. *)
Definition commit_in_flight : ownerRuntime := complete 0 0 (put_key "k" sole_owner).1.

Definition after_stale_forward : ownerRuntime := handleForwardWrite "n" owner_limits 0 stale_forward 9 commit_in_flight.

Definition stale_forward_through : ownerRuntime := complete 2 6 (complete 1 5 (complete 1 1 after_stale_forward)).

Definition last_reply (o : ownerRuntime) : option owner_effect := last (or_effects o).

(** Finding: the source of a forward is not checked while a commit is in flight: a
    replica without a predecessor refuses a forward of a replaced node, but
    with its own commit in flight it buffers the same forward, stages it when
    the commit is done, and commits it over the client's write. *)
Theorem stale_forward_committed :
  last_reply (handleForwardWrite "n" owner_limits 0 stale_forward 9 (complete 0 1 commit_in_flight)) =
    Some (EffReply 9 (Err ErrPeerMismatch)) /\
  last_reply after_stale_forward = Some (EffReply 9 (Ok tt)) /\
  rr_highestCommittedSequence (record_of stale_forward_through) = 2 /\
  (obj_Value <$> match committedObject (in_backend ∅) (record_of stale_forward_through) 0 "k" with Ok o => o | Err _ => None end)
    = Some "stale".
Proof. by vm_compute. Qed.

(** ** A gap that is none *)
(** Three writes are durable and the commit of each is with the journal. *)
Definition three_in_flight : ownerRuntime :=
  complete 0 2 (complete 0 1 (complete 0 0 (put_key "c" (put_key "b" (put_key "a" sole_owner).1).1).1)).

(** The journal has marked the second commit when the owner hears of the first. *)
Definition first_heard : ownerRuntime := complete 2 3 three_in_flight.

(** Finding: a progression gap is reported where there is none: with three commits
    in flight, of which the journal has finished two, the owner that handles
    the first answer enters a gap and refuses client writes until it handles
    the second, though nothing is missing. *)
Theorem pipelined_commits_enter_gap :
  own_progressionGap (or_rt three_in_flight) = false /\
  own_progressionGap (or_rt first_heard) = true /\
  (put_key "d" first_heard).2 = SubmitRejected ErrStateMismatch /\
  own_progressionGap (or_rt (complete 2 4 first_heard)) = false /\
  rr_highestCommittedSequence (record_of (complete 2 4 first_heard)) = 2.
Proof. by vm_compute. Qed.
