(* ===== verification/SlotFailover.v ===== *)
(** * Losing the successor

    What an owner does when the coordinator tells it that its chain position
    has changed so that it is the last replica: the operations it holds
    durably are all there is of the log, and they become committed. *)

From S2P Require Import Prelude.
From S2P Require Import StorageTypes.
From S2P Require Import SlotReducer.
From S2P Require Import SlotOwner.
From S2P Require Import SlotLifecycle.
From S2P Require Import SlotProps.
From S2P Require Import SlotTheorems.

Open Scope Z_scope.
Open Scope record_scope.

Lemma reassigned_target r assignment :
  rr_assignment (reassigned r assignment) = assignment /\ rr_state (reassigned r assignment) = rr_state r /\
  (SuccessorNodeID (asg_Peers assignment) = "" -> successorChanged (rr_assignment r) assignment = true ->
   rr_highestPreparedDurable r <= rr_highestCommitTokenReceived (reassigned r assignment)).
Proof.
  unfold reassigned. cbv zeta.
  destruct (predecessorPeerChanged _ _), (negb (_ =? _)), (successorChanged _ _); cbn;
    destruct (String.eqb_spec (SuccessorNodeID (asg_Peers assignment)) "") as [He|He]; cbn;
    try destruct (Z.ltb_spec (rr_highestCommitTokenReceived r) (rr_highestPreparedDurable r)); cbn;
    destruct (bool_decide (rr_state r = StateRecovered)); cbn;
    (split; [done|split; [done|intros ? ?; try done; lia]]).
Qed.

(** Handing out the commit range when the successor is gone. *)
Lemma ready_at_tail limit sent log base rt :
  slot_inv log base rt -> let r := own_record rt in
  rr_highestPreparedDurable r <= rr_highestCommitTokenReceived r ->
  let '(rt', submitted) := submitCommitWatermarkReady limit sent rt r in
  match asg_Role (rr_assignment r) with
  | ReplicaRoleHead | ReplicaRoleSingle =>
      rt' = rt /\ submitted =
        if (rr_highestPreparedDurable r <=? rr_highestCommittedSequence r) ||
           (rr_highestPreparedDurable r <=? sent) then None else Some (rr_highestPreparedDurable r)
  | _ => rr_highestCommittedSequence (own_record rt') = rr_highestPreparedDurable r /\ submitted = None
  end.
Proof.
  intros Hi r Ht. destruct (si_order _ _ _ Hi) as [_ Ho]. unfold submitCommitWatermarkReady.
  rw (proj2 (Z.ltb_ge (rr_highestCommitTokenReceived r) (rr_highestPreparedDurable r)) Ht) andb_false_r.
  rw (Z.min_r _ _ Ht).
  destruct (asg_Role (rr_assignment r)); try done; (split; [|done]);
    (destruct (Z.ltb_spec (rr_highestCommittedSequence r) (rr_highestPreparedDurable r)) as [Hlt|Hge];
     [destruct (applyCommitWatermark_spec limit _ _ _ (rr_highestPreparedDurable r) Hi) as [_ ->]; unfold r in *; lia
     |unfold ensureUpstreamCommitReplay; rw (si_exists _ _ _ Hi); cbn [negb];
      destruct (String.eqb _ _); cbn; unfold r in *; lia]).
Qed.

Lemma upstream_same rt :
  let r := own_record (ensureUpstreamCommitReplay rt) in
  rr_highestCommittedSequence r = rr_highestCommittedSequence (own_record rt) /\
  rr_highestCommitTokenReceived r = rr_highestCommitTokenReceived (own_record rt) /\
  rr_highestPreparedDurable r = rr_highestPreparedDurable (own_record rt).
Proof. unfold ensureUpstreamCommitReplay. destruct (negb (own_exists rt)); [done|]. by destruct (String.eqb _ ""). Qed.

Lemma successorChanged_refl a : successorChanged a a = false.
Proof. unfold successorChanged. by rw Z.eqb_refl !String.eqb_refl. Qed.

(** C18. A new tail commits what it holds: when an active replica loses its
    successor, every operation it holds durably becomes committed; below the
    head at once, and on a head (now the only replica) as soon as the journal
    has completed the commit range it is handed. *)
Theorem new_tail_commits_prepared c upsert limit sent assignment rt' submitted :
  slot_reachable c ->
  let r := own_record (sc_rt c) in
  rr_state r = StateActive -> SuccessorNodeID (asg_Peers assignment) = "" ->
  successorChanged (rr_assignment r) assignment = true ->
  updateChainPeers upsert limit sent (sc_rt c) assignment = (rt', Ok tt, submitted) ->
  match asg_Role assignment with
  | ReplicaRoleHead | ReplicaRoleSingle =>
      submitted = (if (rr_highestPreparedDurable r <=? rr_highestCommittedSequence r) ||
                      (rr_highestPreparedDurable r <=? sent)
                   then None else Some (rr_highestPreparedDurable r))
  | _ => rr_highestCommittedSequence (own_record rt') = rr_highestPreparedDurable r
  end /\
  forall limit', rr_highestCommittedSequence
    (own_record (applyCommitWatermark limit' rt' (rr_highestPreparedDurable r))) = rr_highestPreparedDurable r.
Proof.
  intros Hi%reachable_config_inv r Hst Hsucc Hch. unfold updateChainPeers. rw (si_exists _ _ _ Hi). cbn [negb].
  rw bool_decide_false; [intros Heq; fold r in Heq; rw Heq in Hch; by rw successorChanged_refl in Hch|].
  destruct (reassigned_target r assignment) as (Ha & Hs & Ht). specialize (Ht Hsucc Hch).
  pose proof (reassigned_keeps r assignment) as Hk. fold r. unfold config_inv in Hi.
  generalize dependent (reassigned r assignment). intros r' Ha Hs Ht Hk.
  destruct (persistReplica _ _); [|done]. rw (bool_decide_true (rr_state r' = _)); [by rw Hs|].
  pose proof (keeps_inv _ _ _ _ Hi Hk) as Hi'. set (rt1 := (sc_rt c) <| own_record := r' |>) in *.
  pose proof (ready_at_tail limit sent _ _ rt1 Hi') as Hr. cbv zeta in Hr.
  change (own_record rt1) with r' in Hr. rw (kp_durable _ _ Hk) (kp_committed _ _ Hk) Ha in Hr. specialize (Hr Ht).
  pose proof (ready_advances limit sent _ _ _ Hi') as [Hi2 _]. change (own_record rt1) with r' in Hi2.
  destruct (submitCommitWatermarkReady _ _ _ _) as [rt2 sub]. cbn [fst] in Hi2. intros [= <- <-].
  destruct (upstream_same rt2) as (Ec & Et & Ed). destruct (upstream_advances _ _ _ Hi2) as [Hi3 _].
  destruct (si_order _ _ _ Hi) as [_ Ho]. fold r in Ho. split.
  - rw Ec. destruct (asg_Role assignment); by destruct Hr.
  - intros limit'. destruct (applyCommitWatermark_spec limit' _ _ _ (rr_highestPreparedDurable r) Hi3) as [_ ->].
    rw Ec Et Ed. assert (rr_highestCommittedSequence (own_record rt2) = rr_highestPreparedDurable r \/ rt2 = rt1) as [-> | ->].
    { destruct (asg_Role assignment); destruct Hr; auto. }
    + lia.
    + change (own_record rt1) with r'. rw (kp_durable _ _ Hk) (kp_committed _ _ Hk). lia.
Qed.

(** The head of a chain of two, one write durable and not yet committed, and
    the assignment that leaves it alone. *)
Definition head_prepared : slot_config :=
  do_prepared (do_put (start_config head_assignment) no_conditions 100 "k" "v1") 0.

Definition alone : ReplicaAssignment :=
  {| asg_Slot := asg_Slot head_assignment; asg_ChainVersion := asg_ChainVersion head_assignment + 1;
     asg_Role := ReplicaRoleSingle; asg_Peers := noPeers |}.

Definition store_accepts (replica : PersistedReplica) : res storage_error unit := Ok tt.

Lemma new_tail_commits_prepared_witness :
  let moved := updateChainPeers store_accepts 16 0 (sc_rt head_prepared) alone in
  moved.2 = Some 1 /\
  rr_highestCommittedSequence (own_record (applyCommitWatermark 16 moved.1.1 1)) = 1.
Proof.
  assert (slot_reachable head_prepared) as Hr.
  { unfold head_prepared. eapply extend; [|eapply do_prepared_step; vm_compute; reflexivity].
    eapply extend; [|apply do_put_step; vm_compute; reflexivity]. apply start_reachable. }
  destruct (new_tail_commits_prepared head_prepared store_accepts 16 0 alone
    (updateChainPeers store_accepts 16 0 (sc_rt head_prepared) alone).1.1
    (updateChainPeers store_accepts 16 0 (sc_rt head_prepared) alone).2 Hr) as [Hs Hc];
    [vm_compute; reflexivity..|].
  split; [exact Hs|exact (Hc 16)].
Defined.
