(* ===== verification/SlotCommandTheorems.v ===== *)
(** * Theorems on the coordinator's commands at a slot owner

    What a command that fails leaves behind, what a join copies, what a change of
    peers sends, and what holds of a slot however its commands follow on each
    other and fail. *)

From S2P Require Import Prelude.
From S2P Require Import CoordTypes.
From S2P Require Import StorageTypes.
From S2P Require Import SlotReducer.
From S2P Require Import SlotOwner.
From S2P Require Import SlotLifecycle.
From S2P Require Import JournalShard.
From S2P Require Import Backend.
From S2P Require Import Materializer.
From S2P Require Import SlotMessages.
From S2P Require Import Recovery.
From S2P Require Import SlotProps.
From S2P Require Import SlotTheorems.
From S2P Require Import OwnerProps.
From S2P Require Import SlotCommands.
From S2P Require Import SlotFailover.
From S2P Require Import OwnerFindings.

Open Scope Z_scope.
Open Scope record_scope.
Import Owner.
Import OwnerCommands.

(** ** Running a command *)
Definition run_sat {B A} (Q : A -> slot_host B -> Prop) (X : storage_error -> slot_host B -> Prop)
    (answer : slot_host B * res storage_error A) : Prop :=
  match answer with (h, Ok a) => Q a h | (h, Err e) => X e h end.

Section running.
Context {B : Type}.

Lemma run_bind {A C} (m : command B A) (k : A -> command B C) Q Q' X h :
  run_sat Q' X (m h) -> (forall a h', Q' a h' -> run_sat Q X (k a h')) -> run_sat Q X ((m ≫= k) h).
Proof. intros Hm Hk. unfold mbind, command_bind. destruct (m h) as [h' [a|e]]; [by apply Hk|exact Hm]. Qed.

Lemma run_mono {A} (Q Q' : A -> slot_host B -> Prop) (X X' : storage_error -> slot_host B -> Prop) answer :
  run_sat Q' X' answer -> (forall a h, Q' a h -> Q a h) -> (forall e h, X' e h -> X e h) -> run_sat Q X answer.
Proof. unfold run_sat. destruct answer as [h [a|e]]; auto. Qed.

Lemma run_refuse_if (Q : unit -> slot_host B -> Prop) X b e h :
  (b = true -> X e h) -> (b = false -> Q tt h) -> run_sat Q X (refuse_if b e h).
Proof. unfold refuse_if, reject. destruct b; cbn; auto. Qed.

Lemma run_answered {A} (Q : A -> slot_host B -> Prop) X (r : res storage_error A) h :
  (forall a, r = Ok a -> Q a h) -> (forall e, r = Err e -> X e h) -> run_sat Q X (answered r h).
Proof. unfold answered. destruct r; cbn; auto. Qed.

Lemma run_undo {A} (Q : A -> slot_host B -> Prop) X cleanup (m : command B A) h :
  run_sat Q (fun e h' => X e (cleanup h').1) (m h) -> run_sat Q X (undo_with cleanup m h).
Proof. unfold undo_with. by destruct (m h) as [h' [a|e]]. Qed.
End running.

Lemma release_rt r o s : or_rt (release_accepted r o s) = or_rt o.
Proof. unfold release_accepted. by destruct (or_acceptedCommits o !! s). Qed.
Lemma clear_rt e o : or_rt (clearAcceptedCommits e o) = or_rt o.
Proof.
  unfold clearAcceptedCommits. generalize ((map_to_list (or_acceptedCommits o)).*1). intros l. revert o.
  induction l as [|s l IH]; intros o; [done|]. cbn [foldl]. rw IH. apply release_rt.
Qed.
Lemma prune_rt r o : or_rt (pruneAcceptedCommits r o) = or_rt o.
Proof.
  unfold pruneAcceptedCommits. generalize (map_to_list (or_acceptedCommits o)). intros l. revert o.
  induction l as [|[s e] l IH]; intros o; [done|]. cbn [foldl]. rw IH. case_match; [apply release_rt|done].
Qed.
Lemma set_rt r o : or_rt (setRecord r o) = (or_rt o) <| own_exists := true |> <| own_record := r |>.
Proof. unfold setRecord. by rw prune_rt. Qed.
Lemma removed_rt o : or_rt (owner_removeRecord o) = removeRecord (or_rt o).
Proof. unfold owner_removeRecord. cbn. by rw clear_rt. Qed.

Lemma release_shrinks r o s : or_acceptedCommits (release_accepted r o s) = delete s (or_acceptedCommits o).
Proof. unfold release_accepted. destruct (or_acceptedCommits o !! s) eqn:E; cbn; [done|]. by rw delete_id. Qed.

Lemma clear_empty e o : or_acceptedCommits (clearAcceptedCommits e o) = ∅.
Proof.
  assert (forall l o, or_acceptedCommits (foldl (release_accepted (Err e)) o l) = foldl (fun m s => delete s m) (or_acceptedCommits o) l) as H.
  { intros l. induction l as [|s l IH]; intros o'; [done|]. cbn [foldl]. by rw IH release_shrinks. }
  unfold clearAcceptedCommits. rw H. apply map_empty. intros s.
  assert (forall l (m : gmap Z acceptedCommitEntry), (m !! s = None \/ s ∈ l) -> foldl (fun m s => delete s m) m l !! s = None) as Hd.
  { intros l. induction l as [|t l IH]; intros m Hm; cbn [foldl]; [destruct Hm as [Hm|Hm]; [done|set_solver]|].
    apply IH. destruct (decide (s = t)) as [->|Hne]; [left; apply lookup_delete_eq|].
    destruct Hm as [Hm|Hm]; [left; rw lookup_delete_ne; [by intros ->|done]|right; set_solver]. }
  apply Hd. destruct (or_acceptedCommits o !! s) as [x|] eqn:E; [right|by left].
  apply list_elem_of_fmap. exists (s, x). split; [done|]. by apply elem_of_map_to_list.
Qed.

(** ** Adding

    What the commands rely on in a backend, which may refuse any call:
    an operation touches no other slot than its own; a replica is created only
    where there is none, and a creation that is refused creates nothing; after a
    deletion that is not refused there is none.  A snapshot or a sequence number
    that is refused may have been written in part. *)
Class ReplicaLaws (B : Type) `{ReplicaBackend B} := {
  slot_data : B -> Z -> option replicaData;
  create_law b slot : let '(b', r) := replica_Create b slot in
    match r with
    | Ok _ => slot_data b slot = None /\ forall s, s <> slot -> slot_data b' s = slot_data b s
    | Err _ => forall s, slot_data b' s = slot_data b s
    end;
  delete_law b slot : let '(b', r) := replica_Delete b slot in
    (forall s, s <> slot -> slot_data b' s = slot_data b s) /\ (r = Ok tt -> slot_data b' slot = None);
  install_law b slot snapshot s : s <> slot -> slot_data (replica_InstallSnapshot b slot snapshot).1 s = slot_data b s;
  highest_law b slot sequence s : s <> slot -> slot_data (replica_SetHighestCommittedSequence b slot sequence).1 s = slot_data b s;
}.

Lemma with_slot_twice slot b r r' : with_replica (with_replica b slot r) slot r' = with_replica b slot r'.
Proof. unfold with_replica. cbn. by rw insert_insert_eq. Qed.

Lemma replica_of_with slot b r : replica_of (with_replica b slot r) slot = Ok r.
Proof. unfold replica_of, with_replica. cbn. by rw lookup_insert_eq. Qed.

Lemma with_elsewhere b slot r s : s <> slot -> be_replicas (with_replica b slot r) !! s = be_replicas b !! s.
Proof. intros Hs. unfold with_replica. cbn. rw lookup_insert_ne; [by intros ->|done]. Qed.

#[export, refine] Instance InMemoryBackend_replica_laws : ReplicaLaws InMemoryBackend := {|
  slot_data b slot := be_replicas b !! slot;
|}.
Proof.
  - intros b slot. cbn. unfold CreateReplica. destruct (be_replicas b !! slot) eqn:Hb; cbn; [done|].
    split; [done|]. intros s Hs. by apply with_elsewhere.
  - intros b slot. cbn. unfold DeleteReplica, replica_of. destruct (be_replicas b !! slot) eqn:Hb; cbn; [|done].
    split; [intros s Hs; rw lookup_delete_ne; [by intros ->|done]|intros _; apply lookup_delete_eq].
  - intros b slot snapshot s Hs. cbn. unfold InstallSnapshot, replica_of. destruct (be_replicas b !! slot); cbn; [by apply with_elsewhere|done].
  - intros b slot sequence s Hs. cbn. unfold SetHighestCommittedSequence, replica_of.
    destruct (be_replicas b !! slot); cbn; [by apply with_elsewhere|done].
Defined.

(** An in-memory backend that refuses calls: the calls to come, each refused or
    not. *)
Record refusing_backend := {
  rb_backend : InMemoryBackend;
  rb_refusals : list (option storage_error);
}.

Definition unless_refused (op : InMemoryBackend -> InMemoryBackend * res storage_error unit) (b : refusing_backend)
    : refusing_backend * res storage_error unit :=
  match rb_refusals b with
  | Some e :: later => ({| rb_backend := rb_backend b; rb_refusals := later |}, Err e)
  | later => let '(b', r) := op (rb_backend b) in ({| rb_backend := b'; rb_refusals := tail later |}, r)
  end.

#[export] Instance refusing_replicas : ReplicaBackend refusing_backend | 10 := {
  replica_Create b slot := unless_refused (fun m => replica_Create m slot) b;
  replica_Delete b slot := unless_refused (fun m => replica_Delete m slot) b;
  replica_InstallSnapshot b slot snapshot := unless_refused (fun m => replica_InstallSnapshot m slot snapshot) b;
  replica_SetHighestCommittedSequence b slot sequence :=
    unless_refused (fun m => replica_SetHighestCommittedSequence m slot sequence) b;
  replica_StagedSequences b := replica_StagedSequences (rb_backend b);
}.

Lemma unless_refused_spec op b : let '(b', r) := unless_refused op b in
  (rb_backend b' = rb_backend b /\ exists e, r = Err e) \/ op (rb_backend b) = (rb_backend b', r).
Proof.
  unfold unless_refused. destruct (rb_refusals b) as [|[e|] later]; [|by left; eauto|];
    destruct (op (rb_backend b)) as [b' r]; by right.
Qed.

#[export, refine] Instance refusing_replica_laws : ReplicaLaws refusing_backend | 10 := {|
  slot_data b slot := slot_data (rb_backend b) slot;
|}.
Proof.
  - intros b slot. cbn. pose proof (unless_refused_spec (fun m => replica_Create m slot) b) as H.
    destruct (unless_refused _ b) as [b' r]. destruct H as [[E [e ->]]|H]; [intros s; by rw E|].
    pose proof (create_law (rb_backend b) slot) as Hl. cbv beta in H. by rw H in Hl.
  - intros b slot. cbn. pose proof (unless_refused_spec (fun m => replica_Delete m slot) b) as H.
    destruct (unless_refused _ b) as [b' r]. destruct H as [[E [e ->]]|H]; [split; [intros s _; by rw E|done]|].
    pose proof (delete_law (rb_backend b) slot) as Hl. cbv beta in H. by rw H in Hl.
  - intros b slot snapshot s Hs. cbn. pose proof (unless_refused_spec (fun m => replica_InstallSnapshot m slot snapshot) b) as H.
    destruct (unless_refused _ b) as [b' r]. destruct H as [[E _]|H]; [cbn; by rw E|].
    pose proof (install_law (rb_backend b) slot snapshot s Hs) as Hl. cbv beta in H. by rw H in Hl.
  - intros b slot sequence s Hs. cbn.
    pose proof (unless_refused_spec (fun m => replica_SetHighestCommittedSequence m slot sequence) b) as H.
    destruct (unless_refused _ b) as [b' r]. destruct H as [[E _]|H]; [cbn; by rw E|].
    pose proof (highest_law (rb_backend b) slot sequence s Hs) as Hl. cbv beta in H. by rw H in Hl.
Defined.

Section adding.
Context {B : Type} `{ReplicaLaws B}.
Context (nodeID : string) (upsert_fails : PersistedReplica -> option storage_error).
Context (h0 : slot_host B) (slot : Z).

(** While a replica is added, the backend differs from the one before in that
    slot. *)
Record adding (h : slot_host B) : Prop := {
  add_backend : forall s, s <> slot -> slot_data (sh_backend h) s = slot_data (sh_backend h0) s;
  add_local : sh_local h = sh_local h0;
}.

Lemma adding_set record h : adding h -> run_sat (fun _ => adding) (fun _ => adding) (host_setRecord record h).
Proof. intros [Hb Hl]. unfold host_setRecord. destruct (own_exists _); by split. Qed.

Lemma adding_op op h : (forall b s, s <> slot -> slot_data (op b).1 s = slot_data b s) -> adding h ->
  run_sat (fun _ => adding) (fun _ => adding) (on_backend op h).
Proof.
  intros Hop [Hb Hl]. unfold on_backend. pose proof (Hop (sh_backend h)) as Ho. destruct (op (sh_backend h)) as [b r].
  cbn in Ho. assert (adding (h <| sh_backend := b |>)) as Ha by (split; [intros s Hs; cbn; by rw Ho ?Hb|done]).
  by destruct r.
Qed.

Lemma adding_install fetched h : adding h ->
  run_sat (fun _ => adding) (fun _ => adding) (install_fetched slot fetched h).
Proof.
  intros Ha. unfold install_fetched. eapply (run_bind _ _ _ (fun _ => adding)); [by apply run_answered|].
  intros [snapshot highest] h1 H1. eapply (run_bind _ _ _ (fun _ => adding)); [|by intros].
  eapply (run_bind _ _ _ (fun _ => adding)); [apply adding_op; [|done]; intros b s; apply install_law|].
  intros _ h2 [Hb2 Hl2]. eapply (run_bind _ _ _ (fun _ => adding)); [by split|].
  intros _ h3 H3. apply adding_op; [|done]. intros b s. apply highest_law.
Qed.

Lemma adding_persist record h : adding h ->
  run_sat (fun _ _ => True) (fun _ => adding) (host_persistReplica nodeID upsert_fails record h).
Proof. intros Ha. unfold host_persistReplica. by destruct (upsert_fails _). Qed.

(** The replica is filled, or it is taken away again. *)
Lemma adding_filled record (needsCatchup auto : bool) fetched (assignment : ReplicaAssignment) h : adding h ->
  run_sat (fun _ _ => True) (fun _ => adding)
    ((_ ← host_setRecord record;
      '(highest, autoActivate) ← (if needsCatchup then install_fetched slot fetched else mret (0, true));
      let record := catchingUpRecord assignment highest in
      _ ← host_setRecord record;
      _ ← host_persistReplica nodeID upsert_fails record;
      mret (autoActivate && auto)) h).
Proof.
  intros Ha. eapply run_bind; [by apply adding_set|]. cbv beta. intros _ h1 H1.
  eapply (run_bind _ _ _ (fun _ => adding)); [destruct needsCatchup; [by apply adding_install|done]|].
  intros [highest autoActivate] h2 H2. cbv zeta.
  eapply run_bind; [by apply adding_set|]. cbv beta. intros _ h3 H3.
  by eapply run_bind; [by apply adding_persist|].
Qed.

(** What is left of a replica that has been taken away: nothing, or what was
    there when the backend refused to delete it. *)
Record taken_away (h : slot_host B) : Prop := {
  away_before : own_exists (or_rt (sh_owner h0)) = false /\ slot_data (sh_backend h0) slot = None;
  away_owner : own_exists (or_rt (sh_owner h)) = false /\ or_acceptedCommits (sh_owner h) = ∅;
  away_local : sh_local h = sh_local h0;
  away_elsewhere : forall s, s <> slot -> slot_data (sh_backend h) s = slot_data (sh_backend h0) s;
  away_backend : slot_data (sh_backend h) slot = None \/ exists b e, replica_Delete b slot = (sh_backend h, Err e);
}.

Lemma adding_undone h : adding h -> own_exists (or_rt (sh_owner h0)) = false -> slot_data (sh_backend h0) slot = None ->
  taken_away ((_ ← update_owner owner_removeRecord; on_backend (fun b => replica_Delete b slot)) h).1.
Proof.
  intros [Hb Hl] Hex Hnone. unfold mbind, command_bind, update_owner, on_backend. cbn [fst snd sh_backend].
  change (sh_backend (h <| sh_owner := owner_removeRecord (sh_owner h) |>)) with (sh_backend h).
  pose proof (delete_law (sh_backend h) slot) as Hd. destruct (replica_Delete (sh_backend h) slot) as [b r] eqn:E.
  destruct Hd as [Hd1 Hd2]. split; cbn.
  - done.
  - split; [by rw clear_rt|apply clear_empty].
  - done.
  - intros s Hs. by rw Hd1 ?Hb.
  - destruct r as [[]|e]; [left; by apply Hd2|right; by exists (sh_backend h), e].
Qed.
End adding.

(** A command that fails before it has created anything, or that has been
    undone. *)
Definition add_undone {B} `{ReplicaLaws B} (slot : Z) (h h' : slot_host B) : Prop :=
  (h' = h <| sh_backend := sh_backend h' |> /\ forall s, slot_data (sh_backend h') s = slot_data (sh_backend h) s) \/
  taken_away h slot h'.

Lemma add_fails {B} `{ReplicaLaws B} nodeID upsert_fails maxCatchups catchups auto looks fetched assignment (h : slot_host B) :
  run_sat (fun _ _ => True) (fun _ => add_undone (asg_Slot assignment) h)
    (addReplicaAsTail nodeID upsert_fails maxCatchups catchups auto looks fetched assignment h).
Proof.
  assert (add_undone (asg_Slot assignment) h h) as Hsame by (left; split; [by destruct h|done]).
  unfold addReplicaAsTail.
  eapply (run_bind _ _ _ (fun _ h' => h' = h)); [by apply run_refuse_if|]. intros _ ? ->.
  eapply (run_bind _ _ _ (fun o h' => h' = h /\ o = sh_owner h)); [done|]. intros ? ? [-> ->].
  destruct (own_exists (or_rt (sh_owner h))) eqn:Hex; [by destruct (_ && _)|].
  eapply (run_bind _ _ _ (fun _ h' => h' = h)); [by apply run_refuse_if|]. intros _ ? ->.
  unfold create_replica. pose proof (create_law (sh_backend h) (asg_Slot assignment)) as Hc.
  destruct (replica_Create (sh_backend h) (asg_Slot assignment)) as [b [[]|e]].
  - destruct Hc as [Hnone Hc]. apply run_undo.
    eapply run_mono; [apply (adding_filled nodeID upsert_fails h); by split|done|].
    intros e' h1 Ha. right. by apply adding_undone.
  - assert (add_undone (asg_Slot assignment) h (h <| sh_backend := b |>)) as Hu by (by left).
    destruct e; try exact Hu. by destruct (waitForReplicaCreationReplay looks assignment).
Qed.

(** C34. Adding a replica as tail leaves nothing behind when it fails, on a
    backend that may refuse any call (as long as a creation it refuses creates
    nothing), and whether the backend, the predecessor or the local store
    refuses: either the host is as it was and so is every slot of the backend, or
    the replica, absent before, is absent again from the owner and the local
    store, nobody waits for it, every other slot of the backend is as it was,
    and so is this one unless the backend refused to delete it while the command
    was undone, an error the command does not report. *)
Theorem failed_add_leaves_nothing {B} `{ReplicaLaws B} nodeID upsert_fails maxCatchups catchups auto looks fetched assignment
    (h h' : slot_host B) e :
  addReplicaAsTail nodeID upsert_fails maxCatchups catchups auto looks fetched assignment h = (h', Err e) ->
  add_undone (asg_Slot assignment) h h'.
Proof.
  intros E. pose proof (add_fails nodeID upsert_fails maxCatchups catchups auto looks fetched assignment h) as Hs.
  rw E in Hs. exact Hs.
Qed.

(** ** Joining *)
(** The answer of a command that does not fail. *)
Abbreviation never := (fun (_ : storage_error) (_ : slot_host InMemoryBackend) => False).

Section joining.
Context (nodeID : string) (limits : slotProtocolBufferLimits).

Definition no_failure : PersistedReplica -> option storage_error := fun _ => None.

(** The owner the node makes for a slot it does not have, and its host. *)
Definition absent_owner (slot : Z) : ownerRuntime :=
  new_owner {| own_slot := slot; own_exists := false; own_record := emptyRecord; own_committedMetadata := ∅;
               own_progressionGap := false; own_progressionGapSequence := 0 |}.

Definition present (slot : Z) (record : replicaRecord) : slotRuntime :=
  {| own_slot := slot; own_exists := true; own_record := record; own_committedMetadata := ∅;
     own_progressionGap := false; own_progressionGapSequence := 0 |}.

(** A replica with the committed state of a peer. *)
Record holds (slot : Z) (record : replicaRecord) (snapshot : Snapshot) (h : slot_host InMemoryBackend) : Prop := {
  ho_slot : sh_slot h = slot;
  ho_owner : sh_owner h = new_owner (present slot record);
  ho_backend : be_replicas (sh_backend h) !! slot =
    Some {| rd_committed := snapshot; rd_staged := ∅; rd_highestCommitted := rr_highestCommittedSequence record;
            rd_highestUpstreamConfirmed := rr_highestCommittedSequence record |};
  ho_local : exists local, sh_local h = UpsertReplica local nodeID (persistedReplica record);
  ho_allowed : slot ∉ mt_suppressedSlots (sh_materializer h);
}.

Lemma set_fresh slot rt record : or_rt (new_owner rt) = rt -> own_slot rt = slot -> own_committedMetadata rt = ∅ ->
  own_progressionGap rt = false -> own_progressionGapSequence rt = 0 ->
  setRecord record (new_owner rt) = new_owner (present slot record).
Proof.
  intros _ Hs Hm Hg Hq. unfold setRecord. rw prune_nothing; [done|]. destruct rt; cbn in *; subst. done.
Qed.


(** The host while the replica's state is installed. *)
Record filling (m : commitMaterializer) (slot : Z) (record : replicaRecord) (data : replicaData) (h : slot_host InMemoryBackend) : Prop := {
  fl_slot : sh_slot h = slot;
  fl_owner : sh_owner h = new_owner (present slot record);
  fl_backend : be_replicas (sh_backend h) !! slot = Some data;
  fl_materializer : sh_materializer h = m;
}.

Lemma fill_set m slot record record' data h : filling m slot record data h ->
  run_sat (fun _ => filling m slot record' data) never (host_setRecord record' h).
Proof.
  intros [Hk Ho Hb Ha]. unfold host_setRecord. rw Ho. cbn [own_exists or_rt new_owner present negb].
  split; [exact Hk| |done..]. cbn. by rw (set_fresh slot).
Qed.

Lemma fill_install m slot record data snapshot highest h : filling m slot record data h ->
  run_sat (fun _ => filling m slot record {| rd_committed := snapshot; rd_staged := ∅; rd_highestCommitted := highest;
                                           rd_highestUpstreamConfirmed := highest |}) never
    (install_snapshot slot snapshot highest h).
Proof.
  intros [Hk Ho Hb Ha]. unfold install_snapshot.
  eapply (run_bind _ _ _ (fun _ => filling m slot record (data <| rd_committed := snapshot |> <| rd_staged := ∅ |>))).
  { unfold on_backend. cbn. unfold InstallSnapshot, replica_of. rw Hb. cbn. rw clone_map_id.
    split; [done|done| |done]. cbn. by rw lookup_insert_eq. }
  intros _ h1 [Hk1 Ho1 Hb1 Ha1].
  eapply (run_bind _ _ _ (fun _ => filling m slot record (data <| rd_committed := snapshot |> <| rd_staged := ∅ |>))).
  { unfold clearCommittedMetadata, update_owner. split; [done| |done..]. cbn. by rw Ho1. }
  intros _ h2 [Hk2 Ho2 Hb2 Ha2]. unfold on_backend. cbn. unfold SetHighestCommittedSequence, replica_of. rw Hb2. cbn.
  split; [done|done| |done]. cbn. by rw lookup_insert_eq.
Qed.

Lemma fill_persist m slot record data h : filling m slot record data h ->
  run_sat (fun _ h' => filling m slot record data h' /\ exists local, sh_local h' = UpsertReplica local nodeID (persistedReplica record))
    never (host_persistReplica nodeID no_failure record h).
Proof. intros [Hk Ho Hb Ha]. split; [by split|by eexists]. Qed.

Lemma run_done {A} (Q : A -> slot_host InMemoryBackend -> Prop) answer : run_sat Q never answer ->
  exists h a, answer = (h, Ok a) /\ Q a h.
Proof. destruct answer as [h [a|e]]; [|done]. by exists h, a. Qed.

Lemma catchingUp_committed assignment highest : PredecessorNodeID (asg_Peers assignment) <> "" ->
  rr_highestCommittedSequence (catchingUpRecord assignment highest) = highest.
Proof. intros Hp. unfold catchingUpRecord. by rw (proj2 (String.eqb_neq _ _) Hp). Qed.

Lemma add_fresh maxCatchups catchups auto looks assignment snapshot highest (h : slot_host InMemoryBackend) :
  let slot := asg_Slot assignment in
  0 <= slot -> sh_slot h = slot -> sh_owner h = absent_owner slot -> be_replicas (sh_backend h) !! slot = None ->
  PredecessorNodeID (asg_Peers assignment) <> "" -> (maxCatchups <= 0 \/ catchups < maxCatchups) ->
  run_sat (fun _ => holds slot (catchingUpRecord assignment highest) snapshot) never
    (addReplicaAsTail nodeID no_failure maxCatchups catchups auto looks (Ok (snapshot, highest)) assignment h).
Proof.
  intros slot Hs Hk Ho Hb Hp Hc. unfold addReplicaAsTail. rw (proj2 (String.eqb_neq _ _) Hp). cbn [negb andb].
  assert ((0 <? maxCatchups) && (maxCatchups <=? catchups) = false) as ->.
  { destruct (Z.ltb_spec 0 maxCatchups), (Z.leb_spec maxCatchups catchups); [lia|done..]. }
  unfold mbind, command_bind, refuse_if, owner_of, reject. rw (proj2 (Z.ltb_ge _ _) Hs) Ho.
  cbn [own_exists or_rt absent_owner new_owner].
  unfold create_replica. cbn [replica_Create InMemoryBackend_replicas]. unfold CreateReplica. fold slot. rw Hb. cbn [or_unchanged].
  apply run_undo. set (m := control_slot (sh_materializer h) slot true).
  eapply (run_bind _ _ _ (fun _ => filling m slot (pendingRecord assignment)
    {| rd_committed := ∅; rd_staged := ∅; rd_highestCommitted := 0; rd_highestUpstreamConfirmed := 0 |})).
  { unfold host_setRecord. rw Ho. cbn [own_exists or_rt absent_owner new_owner negb]. split; cbn.
    - done.
    - by rw (set_fresh slot).
    - by rw lookup_insert_eq.
    - by rw Hk. }
  intros _ h1 H1.
  eapply (run_bind _ _ _ (fun r h2 => r.1 = highest /\ filling m slot (pendingRecord assignment)
    {| rd_committed := snapshot; rd_staged := ∅; rd_highestCommitted := highest; rd_highestUpstreamConfirmed := highest |} h2)).
  { unfold install_fetched, answered. eapply (run_bind _ _ _ (fun r h2 => r = (snapshot, highest) /\ h2 = h1)); [done|].
    intros r h2 [-> ->]. eapply run_bind; [eapply fill_install; exact H1|]. by intros. }
  intros [highest' activate] h2 [Hh H2]. cbn in Hh. subst highest'. cbv zeta.
  eapply run_bind; [eapply fill_set; exact H2|]. cbv beta. intros _ h3 H3.
  eapply run_bind; [eapply fill_persist; exact H3|]. cbv beta. intros _ h4 [[Hk4 Ho4 Hb4 Ha4] Hl4]. split; [done|done| |done|].
  - rw Hb4. by rw catchingUp_committed.
  - rw Ha4. cbn. set_solver.
Qed.

Lemma after_sequence_empty {V} n : after_sequence n (∅ : gmap Z V) = ∅.
Proof. apply map_imap_empty. Qed.

Lemma synced_catchingUp assignment n1 n2 : PredecessorNodeID (asg_Peers assignment) <> "" -> 0 <= n1 <= n2 -> n2 < u64_mod - 1 ->
  reduceSyncedPredecessorState (catchingUpRecord assignment n1) n2 = catchingUpRecord assignment n2.
Proof.
  intros Hp H1 H2. unfold catchingUpRecord, reduceSyncedPredecessorState. rw (proj2 (String.eqb_neq _ _) Hp). cbn.
  rw !after_sequence_empty map_to_list_empty. cbn [foldl]. match goal with |- context [map_to_list (rr_stagedForwards ?r)] => change (rr_stagedForwards r) with (∅ : gmap Z ForwardWriteRequest) end.
  rw map_to_list_empty !u64_add_small; [lia|lia|]. rw Z.max_l; [lia|]. done.
Qed.

(** Nothing is waiting. *)
Record idle (record : replicaRecord) : Prop := {
  id_forwards : rr_bufferedForwards record = ∅;
  id_commits : rr_bufferedCommits record = ∅;
  id_tokens : rr_highestCommitTokenReceived record = rr_highestCommittedSequence record;
}.

Lemma drain_idle journalCommitted slot record : idle record ->
  drainReadyBuffered nodeID limits journalCommitted None (new_owner (present slot record)) = new_owner (present slot record).
Proof.
  intros [Hf Hc Ht]. set (o := new_owner (present slot record)).
  assert (forall drain, reconcileDurableCommitProgress nodeID limits drain journalCommitted o = (o, false)) as Hr by done.
  assert (syncAcceptedCommitsFromRecord record o = o) as Hs by (by apply sync_nothing).
  assert (forall drain, detectAcceptedCommitGap nodeID limits drain journalCommitted record o = (o, false)) as Hd.
  { intros drain. unfold detectAcceptedCommitGap. rw Hs. cbv zeta. by rw bool_decide_false; [by intros []|]. }
  assert (forall drain, advanceAcceptedCommitProgress nodeID limits drain id journalCommitted o = o) as Ha.
  { intros drain. unfold advanceAcceptedCommitProgress. cbn [advance_rounds].
    change (negb (own_exists (or_rt o))) with false. cbv iota. change (record_of o) with record. cbv zeta. rw Hs Hd.
    change (or_commitEffectInFlight o) with false. cbv iota. rw Ht.
    by destruct (Z.ltb_spec (rr_highestCommittedSequence record)
      (Z.min (rr_highestCommittedSequence record) (rr_highestPreparedDurable record))); [lia|]. }
  unfold drainReadyBuffered, drain_body. change (negb (own_exists (or_rt o))) with false. cbv iota. rw Hr. cbn [fst].
  change (negb (own_exists (or_rt o))) with false. cbv iota. rw Ha. change (or_commitEffectInFlight o) with false. cbv iota.
  change (record_of o) with record. rw Hf Hc !lookup_empty. unfold reply, ensureGapCatchup, hasBufferedGap.
  change (record_of o) with record. rw Hf Hc !map_to_list_empty. cbn [fmap list_fmap existsb orb]. by rw andb_false_r.
Qed.

(** A command that starts by looking at its owner. *)
Lemma run_owner {A} (k : ownerRuntime -> command InMemoryBackend A) Q X h :
  run_sat Q X (k (sh_owner h) h) -> run_sat Q X ((owner_of ≫= k) h).
Proof. done. Qed.

Lemma run_slot {A} (k : Z -> command InMemoryBackend A) Q X h :
  run_sat Q X (k (sh_slot h) h) -> run_sat Q X ((slot_of ≫= k) h).
Proof. done. Qed.

Lemma run_accept {A} (k : command InMemoryBackend A) Q X b e h :
  b = false -> run_sat Q X (k h) -> run_sat Q X ((refuse_if b e ≫= fun _ => k) h).
Proof. by intros ->. Qed.

Lemma sync_newer slot assignment n1 n2 s1 s2 h : PredecessorNodeID (asg_Peers assignment) <> "" -> 0 <= n1 <= n2 -> n2 < u64_mod - 1 ->
  (n1 = n2 -> s1 = s2) -> holds slot (catchingUpRecord assignment n1) s1 h ->
  run_sat (fun _ => holds slot (catchingUpRecord assignment n2) s2) never
    (prepareActivation nodeID no_failure (Ok (s2, n2)) h).
Proof.
  intros Hp Hn Hr Hs Hh. pose proof Hh as [Hk Ho Hb Hl Ha]. set (r := catchingUpRecord assignment n1) in *.
  assert (rr_highestCommittedSequence r = n1) as Hc by (by apply catchingUp_committed).
  apply run_owner. rw Ho. apply run_accept; [done|].
  change (negb (bool_decide (rr_state (own_record (or_rt (new_owner (present slot r)))) = StateCatchingUp))) with false. cbv iota.
  apply run_owner. rw Ho. unfold buildPredecessorSyncPlan. cbn [own_exists or_rt new_owner present own_record negb reject mbind res_bind].
  change (rr_assignment r) with assignment. rw (proj2 (String.eqb_neq _ _) Hp).
  eapply (run_bind _ _ _ (fun p h' => h' = h /\ p = Some _)); [by split|]. intros p ? [-> ->].
  eapply (run_bind _ _ _ (fun f h' => h' = h /\ f = (s2, n2))); [by split|]. intros f ? [-> ->]. cbn [plan_currentHighest].
  rw Hc. destruct (Z.leb_spec n2 n1) as [Hle|Hlt].
  { assert (n1 = n2) as He by lia. rw -(Hs He) -He. exact Hh. }
  apply run_owner. rw Ho. apply run_slot. rw Hk. cbn [own_exists or_rt new_owner present own_record negb orb].
  change (rr_assignment r) with assignment. cbn [plan_chainVersion plan_sourceNodeID plan_sourceTarget].
  rw Z.eqb_refl !String.eqb_refl Hc (proj2 (Z.leb_gt _ _) Hlt). cbn [andb negb orb].
  unfold r. rw synced_catchingUp //. fold r.
  set (m := control_slot (sh_materializer h) slot false).
  eapply (run_bind _ _ _ (fun _ => filling m slot r _)); [split; [exact Hk|exact Ho|exact Hb|done]|]. intros _ h1 H1.
  eapply run_bind; [eapply fill_install; exact H1|]. cbv beta. intros _ h2 H2.
  eapply run_bind; [eapply fill_set; exact H2|]. cbv beta. intros _ h3 [Hk3 Ho3 Hb3 Hm3].
  eapply (run_bind _ _ _ (fun _ => filling (control_slot m slot true) slot _ _)); [split; [exact Hk3|exact Ho3|exact Hb3|cbn; by rw Hm3]|].
  intros _ h4 H4. eapply run_mono; [eapply fill_persist; exact H4| |done]. intros _ h5 [[Hk5 Ho5 Hb5 Hm5] Hl5].
  split; [done|done| |done|].
  - rw Hb5. by rw catchingUp_committed.
  - rw Hm5. cbn. set_solver.
Qed.

Definition activatedRecord (record : replicaRecord) : replicaRecord :=
  record <| rr_state := StateActive |> <| rr_lastKnownState := StateActive |>.

Lemma activate_ready slot record snapshot h : rr_state record = StateCatchingUp -> idle record -> holds slot record snapshot h ->
  run_sat (fun _ => holds slot (activatedRecord record) snapshot) never (host_activateReplicaReady nodeID limits no_failure h).
Proof.
  intros Hst Hi [Hk Ho Hb Hl Ha]. apply run_owner. rw Ho. apply run_accept; [done|].
  change (own_record (or_rt (new_owner (present slot record)))) with record. rw Hst. cbv zeta. fold (activatedRecord record).
  eapply run_bind; [eapply fill_set; split; [exact Hk|exact Ho|exact Hb|reflexivity]|]. cbv beta. intros _ h1 H1.
  eapply run_bind; [eapply fill_persist; exact H1|]. cbv beta. intros _ h2 [[Hk2 Ho2 Hb2 Hm2] Hl2].
  assert (idle (activatedRecord record)) as Hi' by (by destruct Hi; split).
  unfold host_drain. rw Ho2 (drain_idle _ slot _ Hi'). split; [done|done|done|done|]. cbn. by rw Hm2.
Qed.
End joining.

Lemma catchingUp_idle assignment highest : idle (catchingUpRecord assignment highest).
Proof. by split. Qed.

(** What a predecessor answers a joining replica. *)
Definition answer_of (p : slot_config) : res storage_error (Snapshot * Z) :=
  Ok (committedSnapshotWithSequence (sc_rt p) (sc_base p)).

Lemma fetch_answer p : slot_reachable p ->
  answer_of p = Ok (materialise (committed_prefix (sc_log p) (sc_rt p)), rr_highestCommittedSequence (own_record (sc_rt p))) /\
  zlength (committed_prefix (sc_log p) (sc_rt p)) = rr_highestCommittedSequence (own_record (sc_rt p)) /\
  0 <= rr_highestCommittedSequence (own_record (sc_rt p)) < u64_mod - 1.
Proof.
  intros Hi%reachable_config_inv. unfold answer_of, committedSnapshotWithSequence. rw (si_exists _ _ _ Hi) (merged_spec _ _ _ Hi).
  destruct (si_order _ _ _ Hi) as [Hm Hc]. pose proof (si_room _ _ _ Hi).
  split_and!; [done| |lia|lia]. apply ztake_zlength. lia.
Qed.

Lemma activated_reachable log base slot assignment highest :
  slot_reachable {| sc_log := log; sc_base := base; sc_rt := present slot (catchingUpRecord assignment highest) |} ->
  slot_reachable {| sc_log := log; sc_base := base; sc_rt := present slot (activatedRecord (catchingUpRecord assignment highest)) |}.
Proof.
  intros Hj. refine (extend _ _ Hj _). pose proof (slot_activate {| sc_log := log; sc_base := base;
    sc_rt := present slot (catchingUpRecord assignment highest) |} (fun _ => Ok tt)) as Hstep.
  unfold after_rt in Hstep. rw grown_same in Hstep; [done|]. exact Hstep.
Qed.

(** What such a replica answers in turn. *)
Lemma joined_answer nodeID slot record log h q : holds nodeID slot record (materialise log) h ->
  q = {| sc_log := log; sc_base := materialise log; sc_rt := or_rt (sh_owner h) |} -> slot_reachable q ->
  rr_highestCommittedSequence record = zlength log ->
  handleCommittedSnapshotWithSequence h = Ok (materialise log, zlength log).
Proof.
  intros [Hk Ho Hb _ _] Hdef Hq Hn. destruct (fetch_answer q Hq) as (Eq & _). rw Ho in Hdef. subst q. cbn [sc_rt sc_log] in Eq.
  change (own_record (or_rt (new_owner (present slot record)))) with record in Eq.
  unfold committed_prefix in Eq. change (own_record (or_rt (new_owner (present slot record)))) with record in Eq.
  rw Hn ztake_all in Eq. rw -Eq. unfold handleCommittedSnapshotWithSequence. rw Hk Ho.
  cbn [CommittedSnapshot InMemoryBackend_backend or_rt new_owner own_slot present].
  unfold backend_Snapshot, replica_of. rw Hb. cbn [mbind res_bind rd_committed]. by rw clone_map_id.
Qed.

(** C12. A replica that joins has what its predecessor had committed: added on a
    node with the in-memory backend, with the predecessor's state at one point of
    a run, and prepared and activated with its state at a later point while the
    local store works, it is active, the materialiser works for it, it answers a
    fetch as the predecessor did at that later point, and it is a reachable slot
    owner whose log is the predecessor's committed history. *)
Theorem join_copies_predecessor nodeID limits maxCatchups catchups auto looks assignment p1 p2 (h : slot_host InMemoryBackend) :
  slot_reachable p1 -> rtc slot_step p1 p2 ->
  0 <= asg_Slot assignment -> PredecessorNodeID (asg_Peers assignment) <> "" ->
  sh_slot h = asg_Slot assignment -> sh_owner h = absent_owner (asg_Slot assignment) -> be_replicas (sh_backend h) !! asg_Slot assignment = None ->
  (maxCatchups <= 0 \/ catchups < maxCatchups) ->
  exists h1 activate h2 h3,
    addReplicaAsTail nodeID no_failure maxCatchups catchups auto looks (answer_of p1) assignment h = (h1, Ok activate) /\
    prepareActivation nodeID no_failure (answer_of p2) h1 = (h2, Ok tt) /\
    host_activateReplicaReady nodeID limits no_failure h2 = (h3, Ok tt) /\
    rr_state (record_of (sh_owner h3)) = StateActive /\
    handleCommittedSnapshotWithSequence h3 = answer_of p2 /\
    (asg_Slot assignment ∉ mt_suppressedSlots (sh_materializer h3)) /\
    exists data, be_replicas (sh_backend h3) !! asg_Slot assignment = Some data /\
      slot_reachable {| sc_log := committed_prefix (sc_log p2) (sc_rt p2); sc_base := rd_committed data;
                        sc_rt := or_rt (sh_owner h3) |}.
Proof.
  intros Hp1 Hs Hz Hp Hk Ho Hb Hc. set (slot := asg_Slot assignment) in *.
  pose proof (committed_history_append_only _ _ Hp1 Hs) as Hpre.
  assert (slot_reachable p2) as Hp2 by (destruct Hp1 as (p0 & H0 & H1); exists p0; split; [exact H0|exact (transitivity H1 Hs)]).
  destruct (fetch_answer p1 Hp1) as (E1 & L1 & B1), (fetch_answer p2 Hp2) as (E2 & L2 & B2).
  pose proof (join_from_predecessor p2 slot assignment Hp2 Hp) as Hj. pose proof E2 as Ec. unfold answer_of in Ec. injection Ec as Ec. rw Ec in Hj.
  set (l1 := committed_prefix (sc_log p1) (sc_rt p1)) in *. set (l2 := committed_prefix (sc_log p2) (sc_rt p2)) in *.
  set (n1 := rr_highestCommittedSequence (own_record (sc_rt p1))) in *. set (n2 := rr_highestCommittedSequence (own_record (sc_rt p2))) in *.
  assert (n1 <= n2) as Hn by (rw -L1 -L2; unfold zlength; apply prefix_length in Hpre; lia).
  assert (n1 = n2 -> materialise l1 = materialise l2) as Heq.
  { intros He. f_equal. apply prefix_length_eq; [done|]. unfold zlength in *. lia. }
  rw E1 E2.
  destruct (run_done _ _ (add_fresh nodeID maxCatchups catchups auto looks assignment (materialise l1) n1 h Hz Hk Ho Hb Hp Hc)) as (h1 & a & Ha & H1).
  destruct (run_done _ _ (sync_newer nodeID slot assignment n1 n2 _ _ h1 Hp ltac:(lia) ltac:(lia) Heq H1)) as (h2 & [] & Hy & H2).
  destruct (run_done _ _ (activate_ready nodeID limits slot (catchingUpRecord assignment n2) _ h2 eq_refl (catchingUp_idle _ _) H2))
    as (h3 & [] & Hr & H3). pose proof H3 as [Hk3 Ho3 Hb3 _ Ha3].
  assert (rr_highestCommittedSequence (activatedRecord (catchingUpRecord assignment n2)) = n2) as Hn2
    by exact (catchingUp_committed assignment n2 Hp).
  assert (slot_reachable {| sc_log := l2; sc_base := materialise l2; sc_rt := or_rt (sh_owner h3) |}) as Hq.
  { rw Ho3. exact (activated_reachable _ _ _ _ _ Hj). }
  exists h1, a, h2, h3. split_and!; [exact Ha|exact Hy|exact Hr|by rw Ho3| |exact Ha3|].
  - rw -L2. apply (joined_answer nodeID slot _ l2 h3 _ H3 eq_refl Hq). by rw L2.
  - rw Hn2 in Hb3. eexists. split; [exact Hb3|exact Hq].
Qed.

(** ** Commands that are repeated *)
Section repeated.
Context {B : Type} `{Backend B} `{ReplicaBackend B}.
Context (nodeID : string) (limits : slotProtocolBufferLimits).

Lemma bind_run {A C} (m : command B A) (k : A -> command B C) h h' a : m h = (h', Ok a) -> (m ≫= k) h = k a h'.
Proof. unfold mbind, command_bind. by intros ->. Qed.

Lemma bind_stop {A C} (m : command B A) (k : A -> command B C) h h' e : m h = (h', Err e) -> (m ≫= k) h = (h', Err e).
Proof. unfold mbind, command_bind. by intros ->. Qed.

Lemma set_present record (h : slot_host B) : own_exists (or_rt (sh_owner h)) = true ->
  host_setRecord record h = (h <| sh_owner := setRecord record (sh_owner h) |>, Ok tt).
Proof. intros He. unfold host_setRecord. by rw He. Qed.

(** Finding: a change of peers that could not be persisted is not repeated.  The
    owner has taken up the new assignment when the local store fails; the
    coordinator's next attempt finds the assignment in place and answers without
    persisting it and without sending the new successor what it lacks. *)
Theorem failed_update_not_repeated upsert_fails upsert_fails' assignment (h : slot_host B) e :
  own_exists (or_rt (sh_owner h)) = true -> rr_assignment (record_of (sh_owner h)) <> assignment ->
  upsert_fails (persistedReplica (reassigned (record_of (sh_owner h)) assignment)) = Some e ->
  exists h', host_updateChainPeers nodeID limits upsert_fails assignment h = (h', Err e) /\
    rr_assignment (record_of (sh_owner h')) = assignment /\ sh_local h' = sh_local h /\
    host_updateChainPeers nodeID limits upsert_fails' assignment h' = (h', Ok tt).
Proof.
  intros Hex Hne He. set (record := reassigned (record_of (sh_owner h)) assignment).
  assert (or_rt (owner_reassigned assignment (sh_owner h)) = or_rt (sh_owner h)) as Hrt by (unfold owner_reassigned; by destruct (_ || _)).
  set (h1 := h <| sh_owner := owner_reassigned assignment (sh_owner h) |>).
  set (h' := h1 <| sh_owner := setRecord record (sh_owner h1) |>).
  assert (own_record (or_rt (sh_owner h')) = record /\ own_exists (or_rt (sh_owner h')) = true) as [Hr' Hex'].
  { unfold h'. cbn [sh_owner]. by rw set_rt. }
  assert (rr_assignment record = assignment) as Ha by apply reassigned_target.
  exists h'. split_and!; [|by rw Hr'|done|].
  - unfold host_updateChainPeers. rw (bind_run owner_of _ h h (sh_owner h) eq_refl) (bind_run _ _ h h tt); [unfold refuse_if; by rw Hex|].
    cbv zeta. rw bool_decide_false //. fold record. rw (bind_run (update_owner (owner_reassigned assignment)) _ h h1 tt eq_refl) (bind_run _ _ h1 h' tt).
    { apply set_present. cbn. by rw Hrt. }
    apply bind_stop. unfold host_persistReplica. by rw He.
  - unfold host_updateChainPeers. rw (bind_run owner_of _ h' h' (sh_owner h') eq_refl) (bind_run _ _ h' h' tt); [unfold refuse_if; by rw Hex'|].
    cbv zeta. rw Hr' Ha. by rw bool_decide_true.
Qed.
End repeated.

(** Finding: a removal that fails halfway cannot be completed.  When the data of
    a leaving replica is deleted and its entry in the local store is not, every
    further attempt fails because the data is gone, unlike for a recovered
    replica that is dropped; the replica stays and the coordinator has been told
    that it is removed. *)
Theorem failed_removal_stuck nodeID e (h : slot_host InMemoryBackend) data :
  own_exists (or_rt (sh_owner h)) = true -> rr_state (record_of (sh_owner h)) = StateLeaving ->
  be_replicas (sh_backend h) !! sh_slot h = Some data ->
  exists h', host_removeReplica nodeID (Some e) (Ok tt) h = (h', Err e) /\ sh_owner h' = sh_owner h /\
    forall delete_fails, exists h'',
      host_removeReplica nodeID delete_fails (Ok tt) h' = (h'', Err ErrUnknownReplica) /\ sh_owner h'' = sh_owner h.
Proof.
  intros Hex Hst Hb. eexists.
  assert (forall delete_fails (g : slot_host InMemoryBackend), sh_owner g = sh_owner h -> sh_slot g = sh_slot h ->
    host_removeReplica nodeID delete_fails (Ok tt) g =
      ((_ ← (_ ← dropSlot (sh_slot h); _ ← on_backend (fun b => replica_Delete b (sh_slot h)); delete_local nodeID delete_fails (sh_slot h));
        _ ← update_owner owner_removeRecord; evictSlotOwner) g)) as Hrun.
  { intros delete_fails g Hg Hk. unfold host_removeReplica. rw (bind_run owner_of _ g g (sh_owner g) eq_refl) Hg (bind_run slot_of _ g g (sh_slot g) eq_refl) Hk. cbv zeta.
    rw (bind_run _ _ g g tt); [unfold refuse_if; by rw Hex|]. rw Hst. do 2 (rw (bind_run _ _ g g tt); [done|]). done. }
  rw Hrun //. split_and!.
  - apply bind_stop. rw (bind_run (dropSlot (sh_slot h)) _ h _ tt eq_refl). erewrite bind_run; [reflexivity|].
    unfold on_backend. cbn. unfold DeleteReplica, replica_of. rw Hb. reflexivity.
  - done.
  - intros delete_fails. rw Hrun //. eexists. split.
    + apply bind_stop. erewrite bind_run; [|reflexivity]. apply bind_stop. unfold on_backend. cbn. unfold DeleteReplica, replica_of. cbn.
      rw lookup_delete_eq. reflexivity.
    + done.
Qed.

(** ** A write between the snapshot and the change of peers *)
Definition empty_host (slot : Z) (o : ownerRuntime) (b : InMemoryBackend) : slot_host InMemoryBackend :=
  {| sh_slot := slot; sh_backend := b; sh_marks := {| highWater := ∅; prepareHigh := ∅ |}; sh_materializer := newCommitMaterializer [];
     sh_local := ∅; sh_owner := o; sh_evicted := false |}.

Definition absent_host (slot : Z) : slot_host InMemoryBackend := empty_host slot (absent_owner slot) NewInMemoryBackend.

(** A node that is the whole chain, and what it has of the slot. *)
Definition sole_host : slot_host InMemoryBackend :=
  empty_host 0 sole_owner (ok_or NewInMemoryBackend (CreateReplica NewInMemoryBackend 0)).

(** The new tail's assignment and the one the node gets as its predecessor. *)
Definition tail_assignment : ReplicaAssignment :=
  {| asg_Slot := 0; asg_ChainVersion := 6; asg_Role := ReplicaRoleTail;
     asg_Peers := {| PredecessorNodeID := "n"; PredecessorTarget := "n:1"; SuccessorNodeID := "";
                     SuccessorTarget := ""; TailNodeID := "t"; TailTarget := "t:1" |} |}.

Definition head_assignment : ReplicaAssignment :=
  {| asg_Slot := 0; asg_ChainVersion := 6; asg_Role := ReplicaRoleHead;
     asg_Peers := {| PredecessorNodeID := ""; PredecessorTarget := ""; SuccessorNodeID := "t";
                     SuccessorTarget := "t:1"; TailNodeID := "t"; TailTarget := "t:1" |} |}.

(** The tail joins: it is added, catches up, and is activated. *)
Definition joined_tail : slot_host InMemoryBackend :=
  let fetched := handleCommittedSnapshotWithSequence sole_host in
  ((_ ← addReplicaAsTail "t" no_failure 0 0 false [] fetched tail_assignment;
    _ ← prepareActivation "t" no_failure fetched;
    host_activateReplicaReady "t" owner_limits no_failure) (absent_host 0)).1.

(** A client that still has the old route writes; the write is committed. *)
Definition written_host : slot_host InMemoryBackend :=
  sole_host <| sh_owner := complete 1 1 (complete 0 0 (put_key "k" (sh_owner sole_host)).1) |>.

(** Then the node hears of its successor. *)
Definition extended_host : slot_host InMemoryBackend :=
  (host_updateChainPeers "n" owner_limits no_failure head_assignment written_host).1.

Definition is_forward (e : owner_effect) : bool := match e with EffForward _ _ _ => true | _ => false end.

Definition read_at (h : slot_host InMemoryBackend) : res storage_error ReadResult :=
  handleClientGet (backend_GetCommitted (sh_backend h)) (fun _ _ => Err ErrTransport) (or_rt (sh_owner h))
    {| get_Slot := 0; get_Key := "k"; get_ExpectedChainVersion := 6; get_Consistency := ReadConsistencyLinearizable |}.

Definition found_at (h : slot_host InMemoryBackend) : option bool :=
  match read_at h with Ok result => Some (read_Found result) | Err _ => None end.

(** Finding: an acknowledged write can be missing at a new tail.  Writes are to be
    blocked while a replica joins, but only the routes the coordinator hands out
    say so: the node goes on accepting writes of the old chain version until it
    is told its new peers.  A write committed and acknowledged after the tail has
    caught up is not sent to it, since only uncommitted operations are replayed:
    a linearizable read at the new tail does not find it, one at the head does. *)
Theorem join_misses_acknowledged_write :
  rr_state (record_of (sh_owner joined_tail)) = StateActive /\
  or_effects (sh_owner written_host) !! 2%nat = Some (EffWaiter 1 (Ok tt)) /\
  rr_assignment (record_of (sh_owner extended_host)) = head_assignment /\
  existsb is_forward (or_effects (sh_owner extended_host)) = false /\
  found_at extended_host = Some true /\ found_at joined_tail = Some false.
Proof. by vm_compute. Qed.

(** ** Any sequence of commands *)
Section lifecycle.
Context (nodeID : string) (limits : slotProtocolBufferLimits) (slot : Z).

(** A replica that has, or may be given, the duty to serve its data. *)
Definition serving (record : replicaRecord) : bool :=
  match rr_state record with
  | StateCatchingUp | StateActive => true
  | StateRecovered => rr_localDataPresent record
  | _ => false
  end.

Record kept (h : slot_host InMemoryBackend) : Prop := {
  kp_slot : sh_slot h = slot;
  kp_data : is_Some (be_replicas (sh_backend h) !! slot);
  kp_allowed : slot ∉ mt_suppressedSlots (sh_materializer h);
}.

Definition host_ok (h : slot_host InMemoryBackend) : Prop :=
  sh_slot h = slot /\
  (own_exists (or_rt (sh_owner h)) = true -> serving (record_of (sh_owner h)) = true -> kept h).

(** The data is there while the materialiser has let go of the slot. *)
Record held (h : slot_host InMemoryBackend) : Prop := {
  hd_slot : sh_slot h = slot;
  hd_data : is_Some (be_replicas (sh_backend h) !! slot);
}.

Lemma kept_held h : kept h -> held h.
Proof. by intros []. Qed.

Lemma kept_ok h : kept h -> host_ok h.
Proof. intros Hk. split; [apply Hk|done]. Qed.

Abbreviation throughout P := (run_sat (fun _ => P) (fun _ => P)).

Lemma kept_set record h : kept h -> throughout kept (host_setRecord record h).
Proof.
  intros [Hs Hd Ha]. unfold host_setRecord. destruct (own_exists _); split; [done..|cbn; set_solver].
Qed.

(** Setting the record of a replica the node did not have opens its slot. *)
Lemma held_set_missing record h : held h -> own_exists (or_rt (sh_owner h)) = false -> throughout kept (host_setRecord record h).
Proof. intros [Hs Hd] He. unfold host_setRecord. rw He. split; [done..|]. cbn. rw Hs. set_solver. Qed.

Lemma held_set record h : held h -> throughout held (host_setRecord record h).
Proof. intros [Hs Hd]. unfold host_setRecord. by destruct (own_exists _); split. Qed.

Lemma kept_persist fails record h : kept h -> throughout kept (host_persistReplica nodeID fails record h).
Proof. intros [Hs Hd Ha]. unfold host_persistReplica. by destruct (fails _); split. Qed.

Lemma held_install snapshot highest h : held h -> run_sat (fun _ => held) never (install_snapshot slot snapshot highest h).
Proof.
  intros [Hs [d Hd]]. unfold install_snapshot. eapply (run_bind _ _ _ (fun _ => held)).
  { unfold on_backend. cbn. unfold InstallSnapshot, replica_of. rw Hd. split; [done|]. cbn. by rw lookup_insert_eq. }
  intros _ h1 [Hs1 [d1 Hd1]]. eapply (run_bind _ _ _ (fun _ => held)); [split; [done|by exists d1]|].
  intros _ h2 [Hs2 [d2 Hd2]]. unfold on_backend. cbn. unfold SetHighestCommittedSequence, replica_of. rw Hd2.
  split; [done|]. cbn. by rw lookup_insert_eq.
Qed.

Lemma kept_install snapshot highest h : kept h -> run_sat (fun _ => kept) never (install_snapshot slot snapshot highest h).
Proof.
  intros [Hs [d Hd] Ha]. unfold install_snapshot. eapply (run_bind _ _ _ (fun _ => kept)).
  { unfold on_backend. cbn. unfold InstallSnapshot, replica_of. rw Hd. split; [done| |done]. cbn. by rw lookup_insert_eq. }
  intros _ h1 [Hs1 [d1 Hd1] Ha1]. eapply (run_bind _ _ _ (fun _ => kept)); [split; [done|by exists d1|done]|].
  intros _ h2 [Hs2 [d2 Hd2] Ha2]. unfold on_backend. cbn. unfold SetHighestCommittedSequence, replica_of. rw Hd2.
  split; [done| |done]. cbn. by rw lookup_insert_eq.
Qed.

Lemma held_allow h : held h -> throughout kept (allowSlot slot h).
Proof. intros [Hs Hd]. split; [done..|]. cbn. set_solver. Qed.

Lemma never_any {A} (Q : A -> slot_host InMemoryBackend -> Prop) X answer : run_sat Q never answer -> run_sat Q X answer.
Proof. by destruct answer as [h [a|e]]. Qed.

(** Replacing the data: the slot is closed, filled and opened again. *)
Lemma replaced_kept fails snapshot highest record h : held h ->
  throughout kept ((_ ← dropSlot slot; _ ← install_snapshot slot snapshot highest; _ ← host_setRecord record; _ ← allowSlot slot;
                    host_persistReplica nodeID fails record) h).
Proof.
  intros [Hs Hd]. eapply (run_bind _ _ _ (fun _ => held)); [by split|]. intros _ h1 H1.
  eapply run_bind; [apply never_any, held_install, H1|]. cbv beta. intros _ h2 H2.
  eapply (run_bind _ _ _ (fun _ => held)).
  { unfold host_setRecord. destruct H2. by destruct (own_exists _); split. }
  intros _ h3 H3. eapply run_bind; [apply held_allow, H3|]. cbv beta. intros _ h4 H4. by apply kept_persist.
Qed.

Lemma ok_kept h : host_ok h -> own_exists (or_rt (sh_owner h)) = true -> serving (record_of (sh_owner h)) = true -> kept h.
Proof. intros [_ Hk]. exact Hk. Qed.

Lemma ok_absent h : sh_slot h = slot -> own_exists (or_rt (sh_owner h)) = false -> host_ok h.
Proof. intros Hs He. split; [done|]. by rw He. Qed.

Lemma ok_idle h : sh_slot h = slot -> serving (record_of (sh_owner h)) = false -> host_ok h.
Proof. intros Hs He. split; [done|]. by rw He. Qed.

Lemma removed_absent o : own_exists (or_rt (owner_removeRecord o)) = false.
Proof. by rw removed_rt. Qed.

Lemma delete_slot h : sh_slot (on_backend (fun b => replica_Delete b slot) h).1 = sh_slot h /\
  sh_owner (on_backend (fun b => replica_Delete b slot) h).1 = sh_owner h.
Proof. unfold on_backend. by destruct (replica_Delete (sh_backend h) slot). Qed.

Lemma kept_fetched fetched h : kept h -> throughout kept (install_fetched slot fetched h).
Proof.
  intros Hk. eapply (run_bind _ _ _ (fun _ => kept)); [by apply run_answered|]. intros [snapshot highest] h1 H1.
  eapply run_bind; [apply never_any, kept_install, H1|]. by intros.
Qed.

Lemma kept_filled fails (needsCatchup auto : bool) fetched assignment h : kept h ->
  throughout kept
    (('(highest, autoActivate) ← (if needsCatchup then install_fetched slot fetched else mret (0, true));
      let record := catchingUpRecord assignment highest in
      _ ← host_setRecord record;
      _ ← host_persistReplica nodeID fails record;
      mret (autoActivate && auto)) h).
Proof.
  intros Hk. eapply (run_bind _ _ _ (fun _ => kept)); [destruct needsCatchup; [by apply kept_fetched|done]|].
  intros [highest autoActivate] h2 H2. cbv zeta. eapply run_bind; [apply kept_set, H2|]. cbv beta. intros _ h3 H3.
  eapply run_bind; [apply kept_persist, H3|]. by intros.
Qed.

Lemma add_ok fails maxCatchups catchups auto looks fetched assignment h : asg_Slot assignment = slot -> host_ok h ->
  throughout host_ok (addReplicaAsTail nodeID fails maxCatchups catchups auto looks fetched assignment h).
Proof.
  intros Ha Hok. unfold addReplicaAsTail.
  eapply (run_bind _ _ _ (fun _ h' => h' = h)); [by apply run_refuse_if|]. intros _ ? ->. apply run_owner.
  destruct (own_exists (or_rt (sh_owner h))) eqn:Hex; [by destruct (_ && _)|].
  eapply (run_bind _ _ _ (fun _ h' => h' = h)); [by apply run_refuse_if|]. intros _ ? ->.
  unfold create_replica. rw Ha. cbn [replica_Create InMemoryBackend_replicas].
  unfold CreateReplica. destruct (be_replicas (sh_backend h) !! slot) eqn:Hb; cbn [or_unchanged].
  { assert (h <| sh_backend := sh_backend h |> = h) as -> by (by destruct h). by destruct (waitForReplicaCreationReplay _ _). }
  apply run_undo. eapply (run_mono _ (fun _ => kept) _ (fun _ => kept)).
  - eapply (run_bind _ _ _ (fun _ => kept)); [|intros _ h1 H1; by apply kept_filled]. apply held_set_missing; [|done].
    split; [exact (proj1 Hok)|]. cbn. by rw lookup_insert_eq.
  - intros _ h1. apply kept_ok.
  - intros _ h1 [Hs _ _]. unfold mbind, command_bind, update_owner. cbv iota.
    destruct (delete_slot (h1 <| sh_owner := owner_removeRecord (sh_owner h1) |>)) as [Hk Ho].
    apply ok_absent; [by rw Hk|]. rw Ho. apply removed_absent.
Qed.

Lemma prepare_ok fails fetched h : host_ok h -> throughout host_ok (prepareActivation nodeID fails fetched h).
Proof.
  intros Hok. apply run_owner. eapply (run_bind _ _ _ (fun _ h' => h' = h /\ own_exists (or_rt (sh_owner h)) = true)).
  { apply run_refuse_if; [done|]. by destruct (own_exists _). }
  intros _ ? [-> Hex]. destruct (bool_decide_reflect (rr_state (record_of (sh_owner h)) = StateCatchingUp)) as [Hst|]; [|done].
  assert (kept h) as Hk by (apply ok_kept; [done..|]; unfold serving; by rw Hst).
  apply run_owner. eapply (run_bind _ _ _ (fun _ h' => h' = h)); [by apply run_answered|]. intros [plan|] ? ->; [|done].
  eapply (run_bind _ _ _ (fun _ h' => h' = h)); [by apply run_answered|]. intros [snapshot highest] ? ->.
  destruct (highest <=? plan_currentHighest plan); [done|]. apply run_owner, run_slot. rw (kp_slot _ Hk). cbv beta zeta.
  destruct (_ || _); [done|]. eapply run_mono; [apply replaced_kept, kept_held, Hk|by intros; apply kept_ok..].
Qed.

(** The guards on the record at the start of a command. *)
Lemma run_exists {A} (k : command InMemoryBackend A) Q (X : storage_error -> slot_host InMemoryBackend -> Prop) h :
  X ErrUnknownReplica h -> (own_exists (or_rt (sh_owner h)) = true -> run_sat Q X (k h)) ->
  run_sat Q X ((refuse_if (negb (own_exists (or_rt (sh_owner h)))) ErrUnknownReplica ≫= fun _ => k) h).
Proof. unfold mbind, command_bind, refuse_if, reject. intros Hx Hk. destruct (own_exists _); [by apply Hk|exact Hx]. Qed.

Lemma activate_ok fails h : host_ok h -> throughout host_ok (host_activateReplicaReady nodeID limits fails h).
Proof.
  intros Hok. apply run_owner, run_exists; [done|]. intros Hex.
  destruct (rr_state (record_of (sh_owner h))) eqn:Hst; try done.
  assert (kept h) as Hk by (apply ok_kept; [done..|]; unfold serving; by rw Hst).
  eapply (run_mono _ (fun _ => kept) _ (fun _ => kept)); [|by intros; apply kept_ok..].
  eapply run_bind; [apply kept_set, Hk|]. cbv beta. intros _ h1 H1.
  eapply run_bind; [apply kept_persist, H1|]. cbv beta. by intros _ h2 [].
Qed.

Lemma set_idle fails record h : sh_slot h = slot -> serving record = false ->
  throughout host_ok ((_ ← host_setRecord record; host_persistReplica nodeID fails record) h).
Proof.
  intros Hs Hr. eapply (run_bind _ _ _ (fun _ h' => sh_slot h' = slot /\ record_of (sh_owner h') = record)).
  { unfold host_setRecord. destruct (own_exists _); cbn; by rw set_rt. }
  intros _ h1 [Hs1 <-]. unfold host_persistReplica. destruct (fails _); by apply ok_idle.
Qed.

Lemma leave_ok fails h : host_ok h -> throughout host_ok (host_markReplicaLeaving nodeID fails h).
Proof.
  intros Hok. apply run_owner, run_exists; [done|]. intros Hex.
  destruct (rr_state (record_of (sh_owner h))) eqn:Hst; try done. apply set_idle; [apply (proj1 Hok)|done].
Qed.

Lemma remove_ok delete_fails reported h : host_ok h -> throughout host_ok (host_removeReplica nodeID delete_fails reported h).
Proof.
  intros Hok. pose proof (proj1 Hok) as Hs. apply run_owner, run_slot. cbv zeta. rw Hs. apply run_exists; [done|]. intros Hex.
  eapply (run_bind _ _ _ (fun _ h' => h' = h /\ serving (record_of (sh_owner h)) = false)).
  { apply run_refuse_if; [done|]. unfold serving. by destruct (rr_state _). }
  intros _ ? [-> Hr]. eapply (run_bind _ _ _ (fun _ h' => h' = h)); [by apply run_answered|]. intros _ ? ->.
  set (same := fun h' : slot_host InMemoryBackend => sh_slot h' = slot /\ sh_owner h' = sh_owner h).
  assert (forall h', same h' -> host_ok h') as Hsame by (intros h' [Hs' Ho']; apply ok_idle; [done|by rw Ho']).
  eapply (run_bind _ _ _ (fun _ => same)).
  - destruct (bool_decide _); [|by split]. eapply (run_bind _ _ _ (fun _ => same)); [by split|]. intros _ h1 H1.
    eapply (run_bind _ _ _ (fun _ => same)).
    { destruct (delete_slot h1) as [Hs1 Ho1], H1 as [Hs2 Ho2]. destruct (on_backend _ h1) as [h2 [[]|e]]; cbn in Hs1, Ho1.
      - by split; [rw Hs1|rw Ho1].
      - apply Hsame. by split; [rw Hs1|rw Ho1]. }
    intros _ h2 H2. unfold delete_local. destruct delete_fails; [by apply Hsame|by destruct H2].
  - intros _ h1 [Hs1 _]. apply ok_absent; [done|]. apply removed_absent.
Qed.

Lemma reassigned_serving record assignment : serving (reassigned record assignment) = serving record.
Proof.
  unfold serving. destruct (reassigned_target record assignment) as (_ & Hst & _). rw Hst.
  destruct (rr_state record); try done. unfold reassigned. cbv zeta. by repeat case_match.
Qed.

Lemma peers_ok fails assignment h : host_ok h -> throughout host_ok (host_updateChainPeers nodeID limits fails assignment h).
Proof.
  intros Hok. apply run_owner, run_exists; [done|]. intros Hex. cbv zeta. destruct (bool_decide _); [done|].
  set (record := reassigned (record_of (sh_owner h)) assignment).
  set (h1 := h <| sh_owner := owner_reassigned assignment (sh_owner h) |>).
  eapply (run_bind _ _ _ (fun _ h' => h' = h1)); [done|]. intros _ ? ->.
  destruct (serving (record_of (sh_owner h))) eqn:Hsv.
  - assert (kept h1) as Hk by (by destruct (ok_kept h Hok Hex Hsv)).
    eapply (run_mono _ (fun _ => kept) _ (fun _ => kept)); [|by intros; apply kept_ok..].
    eapply run_bind; [apply kept_set, Hk|]. cbv beta. intros _ h2 H2.
    eapply run_bind; [apply kept_persist, H2|]. cbv beta. intros _ h3 H3. destruct (bool_decide _); [by destruct H3|exact H3].
  - assert (bool_decide (rr_state record = StateActive) = false) as ->.
    { apply bool_decide_false. intros Hst. revert Hsv. rw -(reassigned_serving _ assignment). fold record. unfold serving. by rw Hst. }
    pose proof (set_idle fails record h1 (proj1 Hok) ltac:(by rw -Hsv; apply reassigned_serving)) as Hi.
    revert Hi. unfold mbind, command_bind. destruct (host_setRecord record h1) as [h2 [[]|e]]; [|done].
    by destruct (host_persistReplica _ _ _ h2) as [h3 [[]|e]].
Qed.

Lemma resume_ok fails fetch assignment h : host_ok h ->
  throughout host_ok (host_resumeRecoveredReplica nodeID fails fetch assignment h).
Proof.
  intros Hok. apply run_owner, run_slot. cbv zeta. apply run_exists; [done|]. intros Hex. destruct (_ && _); [done|].
  eapply (run_bind _ _ _ (fun _ h' => h' = h /\ rr_state (record_of (sh_owner h)) = StateRecovered)).
  { apply run_refuse_if; [done|]. by destruct (bool_decide_reflect (rr_state (record_of (sh_owner h)) = StateRecovered)). }
  intros _ ? [-> Hst].
  eapply (run_bind _ _ _ (fun _ h' => h' = h /\ rr_localDataPresent (record_of (sh_owner h)) = true)).
  { apply run_refuse_if; [done|]. by destruct (rr_localDataPresent _). }
  intros _ ? [-> Hl]. assert (kept h) as Hk by (apply ok_kept; [done..|]; unfold serving; by rw Hst).
  eapply (run_mono _ (fun _ => kept) _ (fun _ => kept)); [|by intros; apply kept_ok..].
  eapply run_bind; [apply kept_set, Hk|]. cbv beta. intros _ h1 H1.
  eapply run_bind; [apply kept_persist, H1|]. cbv beta. by intros _ h2 [].
Qed.

(** Making sure of the data changes nothing but that the data is there. *)
Lemma ensured_ok h : host_ok h ->
  run_sat (fun _ h' => host_ok h' /\ held h') (fun _ => host_ok) (host_ensureBackendReplica slot h).
Proof.
  intros [Hs Hk]. unfold host_ensureBackendReplica. cbn [HighestCommittedSequence InMemoryBackend_backend].
  unfold backend_HighestCommittedSequence, replica_of.
  destruct (be_replicas (sh_backend h) !! slot) as [d|] eqn:Hb; cbn [mbind res_bind].
  - split; [by split|split; [done|by exists d]].
  - cbn [replica_Create InMemoryBackend_replicas]. unfold CreateReplica. rw Hb. cbn [or_unchanged].
    assert (is_Some (be_replicas (with_replica (sh_backend h) slot {| rd_committed := ∅; rd_staged := ∅; rd_highestCommitted := 0;
      rd_highestUpstreamConfirmed := 0 |}) !! slot)) as Hd by (cbn; by rw lookup_insert_eq).
    split; [|by split]. split; [done|]. intros He Hv. destruct (Hk He Hv) as [? ? ?]. by split.
Qed.

Lemma recover_ok fails maxCatchups catchups fetched assignment h : asg_Slot assignment = slot -> host_ok h ->
  throughout host_ok (host_recoverReplica nodeID fails maxCatchups catchups fetched assignment h).
Proof.
  intros Ha Hok. apply run_owner. cbv zeta. rw Ha. destruct (_ && _ && _); [done|].
  do 2 (eapply (run_bind _ _ _ (fun _ h' => h' = h)); [by apply run_refuse_if|]; intros _ ? ->).
  eapply run_bind; [by apply ensured_ok|]. cbv beta. intros _ h1 [Hok1 H1].
  eapply (run_bind _ _ _ (fun _ h' => h' = h1)); [by apply run_answered|]. intros [snapshot highest] ? ->.
  eapply run_mono; [apply replaced_kept, H1|by intros; apply kept_ok..].
Qed.

Lemma drop_ok h : host_ok h -> throughout host_ok (host_dropRecoveredReplica nodeID None slot h).
Proof.
  intros Hok. apply run_owner, run_exists; [done|]. intros Hex.
  eapply (run_bind _ _ _ (fun _ h' => h' = h)); [by apply run_refuse_if|]. intros _ ? ->.
  set (same := fun h' : slot_host InMemoryBackend => sh_slot h' = slot).
  eapply (run_bind _ _ _ (fun _ => same)); [exact (proj1 Hok)|]. intros _ h1 H1.
  eapply (run_bind _ _ _ (fun _ => same)).
  { unfold unless_unknown, on_backend. cbn [replica_Delete InMemoryBackend_replicas]. unfold DeleteReplica, replica_of.
    by destruct (be_replicas (sh_backend h1) !! slot). }
  intros _ h2 H2. apply ok_absent; [exact H2|]. apply removed_absent.
Qed.

(** *** Steps

    What happens between commands, messages and the materialiser's batches,
    changes neither whether the replica exists nor its state, and neither drops
    the backend's copy nor suppresses the slot. *)
Record host_other (h h' : slot_host InMemoryBackend) : Prop := {
  ot_slot : sh_slot h' = sh_slot h;
  ot_exists : own_exists (or_rt (sh_owner h')) = own_exists (or_rt (sh_owner h));
  ot_state : rr_state (record_of (sh_owner h')) = rr_state (record_of (sh_owner h));
  ot_local : rr_localDataPresent (record_of (sh_owner h')) = rr_localDataPresent (record_of (sh_owner h));
  ot_data : is_Some (be_replicas (sh_backend h) !! sh_slot h) -> is_Some (be_replicas (sh_backend h') !! sh_slot h);
  ot_suppressed : mt_suppressedSlots (sh_materializer h') = mt_suppressedSlots (sh_materializer h);
}.

Inductive host_step : slot_host InMemoryBackend -> slot_host InMemoryBackend -> Prop :=
| host_add fails maxCatchups catchups auto looks fetched assignment h : asg_Slot assignment = slot ->
    host_step h (addReplicaAsTail nodeID fails maxCatchups catchups auto looks fetched assignment h).1
| host_prepare fails fetched h : host_step h (prepareActivation nodeID fails fetched h).1
| host_activate fails h : host_step h (host_activateReplicaReady nodeID limits fails h).1
| host_leave fails h : host_step h (host_markReplicaLeaving nodeID fails h).1
| host_remove delete_fails reported h : host_step h (host_removeReplica nodeID delete_fails reported h).1
| host_peers fails assignment h : host_step h (host_updateChainPeers nodeID limits fails assignment h).1
| host_resume fails fetch assignment h : host_step h (host_resumeRecoveredReplica nodeID fails fetch assignment h).1
| host_recover fails maxCatchups catchups fetched assignment h : asg_Slot assignment = slot ->
    host_step h (host_recoverReplica nodeID fails maxCatchups catchups fetched assignment h).1
| host_drop h : host_step h (host_dropRecoveredReplica nodeID None slot h).1
| host_between h h' : host_other h h' -> host_step h h'.

(** A slot the node does not have, or a replica the node has found when it was
    opened. *)
Inductive host_start : slot_host InMemoryBackend -> Prop :=
| start_absent h : sh_slot h = slot -> sh_owner h = absent_owner slot -> host_start h
| start_opened h replica upstream record : sh_slot h = slot ->
    openReplica replica (backend_HighestCommittedSequence (sh_backend h) slot) upstream = Ok record ->
    sh_owner h = new_owner (present slot record) -> mt_suppressedSlots (sh_materializer h) = ∅ -> host_start h.

Lemma through {A} P (answer : slot_host InMemoryBackend * res storage_error A) : throughout P answer -> P answer.1.
Proof. by destruct answer as [h [a|e]]. Qed.

Lemma host_step_ok h h' : host_ok h -> host_step h h' -> host_ok h'.
Proof.
  intros Hok Hs. destruct Hs as [| | | | | | | | |h h' [Hs He Hst Hl Hd Hsup]].
  - apply through. by apply add_ok.
  - apply through. by apply prepare_ok.
  - apply through. by apply activate_ok.
  - apply through. by apply leave_ok.
  - apply through. by apply remove_ok.
  - apply through. by apply peers_ok.
  - apply through. by apply resume_ok.
  - apply through. by apply recover_ok.
  - apply through. by apply drop_ok.
  - destruct Hok as [Hk Hok]. split; [by rw Hs|]. unfold serving. rw He Hst Hl. intros Hx Hv.
    destruct (Hok Hx Hv) as [_ Hd0 Ha0]. split; [by rw Hs|rw -Hk; apply Hd; by rw Hk|by rw Hsup].
Qed.

Lemma host_start_ok h : host_start h -> host_ok h.
Proof.
  intros [? Hs Ho|? replica upstream record Hs Hopen Ho Hsup]; [apply ok_absent; [done|by rw Ho]|].
  split; [done|]. rw Ho. cbn [or_rt new_owner own_record present]. intros _ Hv. split; [done| |rw Hsup; set_solver].
  revert Hopen Hv. unfold openReplica, backend_HighestCommittedSequence, replica_of.
  destruct (be_replicas (sh_backend h0) !! slot) as [d|]; [by eexists|]. cbn [mbind res_bind].
  intros Hopen Hv. exfalso. revert Hopen.
  destruct upstream as [u|[]]; cbn; intros Hr; try discriminate Hr; injection Hr as <-; discriminate Hv.
Qed.
End lifecycle.

(** C13. However commands of the coordinator follow on each other on a node with
    the in-memory backend, whatever other nodes and the coordinator answer, and
    wherever the local store fails, but not in dropping a recovered replica: a
    replica that is catching up or active, or recovered with its data, has its
    data in the backend, and the materialiser takes its commits. *)
Theorem served_replica_has_data nodeID limits slot h0 h : host_start slot h0 -> rtc (host_step nodeID limits slot) h0 h ->
  own_exists (or_rt (sh_owner h)) = true -> serving (record_of (sh_owner h)) = true ->
  is_Some (be_replicas (sh_backend h) !! slot) /\ slot ∉ mt_suppressedSlots (sh_materializer h).
Proof.
  intros H0 Hs He Hv. assert (host_ok slot h) as [_ Hk].
  { apply host_start_ok in H0. clear He Hv. induction Hs as [|h1 h2 h3 H12 _ IH]; [done|]. apply IH. exact (host_step_ok _ _ _ _ _ H0 H12). }
  by destruct (Hk He Hv).
Qed.

(** ** Errors in the middle of a command *)

(** A materialiser that does not take a slot's commits does not keep them. *)
Lemma submit_pending {B : Type} `{Backend B} published (b : B) m slot commits : slot ∈ mt_suppressedSlots m ->
  Forall (fun commit => commit_slot commit <> slot) (mt_pending m) ->
  Forall (fun commit => commit_slot commit <> slot) (mt_pending (submit published b m commits).1.2).
Proof.
  intros Hs Hm. set (taken := mt_pending m ++ List.filter (fun commit => negb (bool_decide (commit_slot commit ∈ mt_suppressedSlots m))) commits).
  assert (Forall (fun commit => commit_slot commit <> slot) taken) as Ht.
  { apply Forall_app. split; [done|]. apply Forall_forall. intros c Hc. apply list_elem_of_In, filter_In in Hc as [_ Hc].
    intros He. rw He bool_decide_true in Hc; done. }
  unfold submit. fold taken. cbv zeta. destruct (_ <=? _); [|by destruct taken].
  unfold flush. destruct taken as [|c taken']; [done|]. cbn [mt_pending]. destruct (wanted _ _); [done|].
  by destruct (applyMaterializedBatch _ _) as [b' [[]|e]].
Qed.

(** Finding: a synchronisation that fails leaves the slot closed to the
    materialiser.  When the backend cannot install a predecessor's snapshot, the
    slot has been dropped from the journal engine and is not allowed again: the
    replica goes on as before, and none of the commits it hands over is kept for
    the backend. *)
Theorem failed_sync_closes_slot {B : Type} `{Backend B} `{ReplicaBackend B} nodeID fails plan snapshot highest (h : slot_host B) b e :
  let o := sh_owner h in
  own_exists (or_rt o) = true -> rr_highestCommittedSequence (record_of o) < highest ->
  plan_chainVersion plan = asg_ChainVersion (rr_assignment (record_of o)) ->
  plan_sourceNodeID plan = PredecessorNodeID (peers_of o) -> plan_sourceTarget plan = PredecessorTarget (peers_of o) ->
  replica_InstallSnapshot (sh_backend h) (sh_slot h) snapshot = (b, Err e) ->
  exists h', host_applyFetchedPredecessorSnapshot nodeID fails plan snapshot highest h = (h', Err e) /\ sh_owner h' = o /\
    forall published (backend : B) commits,
      Forall (fun commit => commit_slot commit <> sh_slot h) (mt_pending (submit published backend (sh_materializer h') commits).1.2).
Proof.
  intros o Hex Hlt Hv Hid Ht Hi. set (h1 := (dropSlot (sh_slot h) h).1). eexists. split_and!.
  - unfold host_applyFetchedPredecessorSnapshot. rw (bind_run owner_of _ h h o eq_refl) (bind_run slot_of _ h h (sh_slot h) eq_refl).
    cbv zeta. rw Hex Hv Hid Ht Z.eqb_refl !String.eqb_refl (proj2 (Z.leb_gt _ _) Hlt). cbn [negb andb orb].
    rw (bind_run (dropSlot (sh_slot h)) _ h h1 tt eq_refl). apply bind_stop. unfold install_snapshot. apply bind_stop.
    unfold on_backend. rw Hi. reflexivity.
  - done.
  - intros published backend commits. apply submit_pending.
    + cbn. set_solver.
    + cbn. apply Forall_forall. intros c Hc. apply list_elem_of_In, filter_In in Hc as [_ Hc]. by apply Z.eqb_neq, negb_true_iff.
Qed.

(** A replica found when its node was opened. *)
Definition recovered_host : slot_host InMemoryBackend :=
  sole_host <| sh_owner := new_owner (present 0 ((recoveredRecord sole_assignment 0) <| rr_state := StateRecovered |>)) |>.

(** Finding: a drop that fails halfway leaves a replica that can be resumed
    without its data.  The record still says that the data is there when the
    backend's copy is deleted and the local store fails; a resume makes the
    replica active, and it cannot read a key. *)
Theorem failed_drop_resumed :
  let '(dropped, answer) := host_dropRecoveredReplica "n" (Some ErrBackend) 0 recovered_host in
  let '(resumed, answer') := host_resumeRecoveredReplica "n" no_failure (fun _ _ => Err ErrTransport) sole_assignment dropped in
  answer = Err ErrBackend /\ answer' = Ok tt /\ rr_state (record_of (sh_owner resumed)) = StateActive /\
  backend_GetCommitted (sh_backend resumed) 0 "k" = Err ErrUnknownReplica.
Proof. by vm_compute. Qed.

(** ** Witnesses *)
(** A backend that creates a replica and refuses to fill it, and then deletes it
    or refuses that too. *)
Definition refusing_host (refusals : list (option storage_error)) : slot_host refusing_backend :=
  {| sh_slot := 0; sh_backend := {| rb_backend := NewInMemoryBackend; rb_refusals := refusals |}; sh_marks := sh_marks (absent_host 0);
     sh_materializer := sh_materializer (absent_host 0); sh_local := sh_local (absent_host 0); sh_owner := absent_owner 0;
     sh_evicted := false |}.

Definition add_refused (refusals : list (option storage_error)) : slot_host refusing_backend * res storage_error bool :=
  addReplicaAsTail "t" no_failure 0 0 false [] (Ok (∅, 0)) tail_assignment (refusing_host refusals).

Lemma failed_add_leaves_nothing_witness :
  let deleted := add_refused [None; Some ErrBackend] in
  let kept := add_refused [None; Some ErrBackend; Some ErrTransport] in
  add_undone 0 (refusing_host [None; Some ErrBackend]) deleted.1 /\ slot_data (sh_backend deleted.1) 0 = None /\
  add_undone 0 (refusing_host [None; Some ErrBackend; Some ErrTransport]) kept.1 /\ is_Some (slot_data (sh_backend kept.1) 0).
Proof.
  assert (forall refusals, (add_refused refusals).2 = Err ErrBackend ->
    add_undone 0 (refusing_host refusals) (add_refused refusals).1) as Hadd.
  { intros refusals E. apply (failed_add_leaves_nothing "t" no_failure 0 0 false [] (Ok (∅, 0)) tail_assignment
      (refusing_host refusals) _ ErrBackend). change (addReplicaAsTail _ _ _ _ _ _ _ _ _) with (add_refused refusals).
    rw -E. by destruct (add_refused refusals). }
  split_and!; [apply Hadd; by vm_compute|by vm_compute|apply Hadd; by vm_compute|vm_compute; by eexists].
Defined.

Lemma join_copies_predecessor_witness :
  exists h1 activate h2 h3,
    addReplicaAsTail "t" no_failure 1 0 true [] (answer_of head_committed) joining_assignment (absent_host 3) = (h1, Ok activate) /\
    prepareActivation "t" no_failure (answer_of head_dirty) h1 = (h2, Ok tt) /\
    host_activateReplicaReady "t" owner_limits no_failure h2 = (h3, Ok tt) /\
    handleCommittedSnapshotWithSequence h3 = answer_of head_dirty.
Proof.
  destruct (join_copies_predecessor "t" owner_limits 1 0 true [] joining_assignment head_committed head_dirty (absent_host 3)
    (proj1 head_reachable) (proj2 (proj2 head_reachable)) ltac:(vm_compute; discriminate) ltac:(discriminate) eq_refl eq_refl eq_refl
    ltac:(right; reflexivity)) as (h1 & a & h2 & h3 & H1 & H2 & H3 & _ & H4 & _).
  exists h1, a, h2, h3. exact (conj H1 (conj H2 (conj H3 H4))).
Defined.

(** A replica added to a node that did not have it, and activated. *)
Definition added_host : slot_host InMemoryBackend :=
  (addReplicaAsTail "t" no_failure 0 0 false [] (Ok (∅, 0)) tail_assignment (absent_host 0)).1.

Definition active_host : slot_host InMemoryBackend :=
  (host_activateReplicaReady "t" owner_limits no_failure added_host).1.

Lemma served_replica_has_data_witness :
  is_Some (be_replicas (sh_backend active_host) !! 0) /\ 0 ∉ mt_suppressedSlots (sh_materializer active_host).
Proof.
  apply (served_replica_has_data "t" owner_limits 0 (absent_host 0) active_host).
  - by apply start_absent.
  - apply (rtc_l _ _ added_host); [by apply host_add|]. apply rtc_once. apply host_activate.
  - vm_compute. reflexivity.
  - vm_compute. reflexivity.
Defined.
