(* ===== verification/RecoveryTheorems.v ===== *)
(** * What a restart brings back

    Replaying the journals over what the backend holds rebuilds, for each slot,
    the prefix of its log that is known to be committed: overlay and backend
    together are that prefix applied in order, and the materialiser's backlog
    is the part the backend lacks. *)

From S2P Require Import Prelude.
From S2P Require Import StorageTypes.
From S2P Require Import SlotReducer.
From S2P Require Import SlotOwner.
From S2P Require Import SlotLifecycle.
From S2P Require Import SlotProps.
From S2P Require Import SlotTheorems.
From S2P Require Import SlotFailover.
From S2P Require Import Journal.
From S2P Require Import JournalTheorems.
From S2P Require Import Backend.
From S2P Require Import Materializer.
From S2P Require Import Recovery.

Open Scope Z_scope.
Open Scope record_scope.

(** ** The journal of a slot, as a reference

    The operation a slot's journal last prepared under a sequence number, and
    the highest sequence number it records as committed. *)
Definition prepares (entry : journalRecord) : bool :=
  match recordType entry with
  | journalRecordTypePrepare | journalRecordTypeLegacyCommit => true
  | _ => false
  end.

Definition commits (entry : journalRecord) : bool :=
  match recordType entry with
  | journalRecordTypeCommitWatermark | journalRecordTypeHeadCommitRange | journalRecordTypeLegacyCommit => true
  | _ => false
  end.

Definition journaled_operation (entries : list journalRecord) (sequence : Z) : option WriteOperation :=
  operation <$> last (List.filter (fun e => prepares e && (jr_Sequence e =? sequence)) entries).

Definition journaled_commit (entries : list journalRecord) : Z :=
  foldl Z.max 0 (jr_Sequence <$> List.filter commits entries).

Definition relevant (slot version : Z) (entries : list journalRecord) : list journalRecord :=
  List.filter (fun e => (jr_Slot e =? slot) && (jr_ChainVersion e =? version)) entries.

(** ** Replaying one slot *)
(** What a replay of entries makes of a record, in the terms the rest of
    recovery uses. *)
Record replayed (r r' : replicaRecord) (entries : list journalRecord) : Prop := {
  rp_prepared : forall s, rr_preparedEntries r' !! s =
    match journaled_operation entries s with Some op => Some op | None => rr_preparedEntries r !! s end;
  rp_committed : rr_highestCommittedSequence r' =
    Z.max (rr_highestCommittedSequence r) (journaled_commit entries);
  rp_durable : rr_highestPreparedDurable r <= rr_highestPreparedDurable r';
  rp_materialised : rr_materializedCommittedSequence r' = rr_materializedCommittedSequence r;
  rp_assignment : rr_assignment r' = rr_assignment r;
  rp_state : rr_state r' = rr_state r;
  rp_data : rr_localDataPresent r = true -> rr_localDataPresent r' = true;
  rp_dirty : rr_dirtyByKey r' = rr_dirtyByKey r;
  rp_overlay : rr_committedOverlay r' = rr_committedOverlay r;
  rp_staged : rr_stagedForwards r' = rr_stagedForwards r;
  rp_pending : rr_pendingWrites r' = rr_pendingWrites r;
}.

Lemma journaled_commit_snoc entries entry :
  journaled_commit (entries ++ [entry]) =
  if commits entry then Z.max (journaled_commit entries) (jr_Sequence entry) else journaled_commit entries.
Proof.
  unfold journaled_commit. rw List.filter_app fmap_app. cbn. destruct (commits entry); cbn.
  - by rw foldl_snoc.
  - by rw app_nil_r.
Qed.

Lemma journaled_operation_snoc entries entry s :
  journaled_operation (entries ++ [entry]) s =
  if prepares entry && (jr_Sequence entry =? s) then Some (operation entry) else journaled_operation entries s.
Proof.
  unfold journaled_operation. rw List.filter_app. cbn. destruct (_ && _); cbn.
  - by rw last_snoc.
  - by rw app_nil_r.
Qed.

Lemma note_committed_high r s : rr_highestCommittedSequence (note_committed r s) =
  Z.max (rr_highestCommittedSequence r) s.
Proof. unfold note_committed. destruct (Z.ltb_spec (rr_highestCommittedSequence r) s); cbn; lia. Qed.

Lemma raise_to_max a b : raise_to a b = Z.max a b.
Proof. unfold raise_to. destruct (Z.ltb_spec a b); lia. Qed.

(** What one entry changes. *)
Lemma replay_entry_step r entry :
  let r' := replay_entry r entry in
  rr_preparedEntries r' =
    (if prepares entry then <[jr_Sequence entry := operation entry]> (rr_preparedEntries r) else rr_preparedEntries r) /\
  rr_highestCommittedSequence r' =
    (if commits entry then Z.max (rr_highestCommittedSequence r) (jr_Sequence entry)
     else rr_highestCommittedSequence r) /\
  rr_highestPreparedDurable r <= rr_highestPreparedDurable r' /\
  rr_materializedCommittedSequence r' = rr_materializedCommittedSequence r /\
  rr_assignment r' = rr_assignment r /\ rr_state r' = rr_state r /\
  (rr_localDataPresent r = true -> rr_localDataPresent r' = true) /\
  rr_dirtyByKey r' = rr_dirtyByKey r /\ rr_committedOverlay r' = rr_committedOverlay r /\
  rr_stagedForwards r' = rr_stagedForwards r /\ rr_pendingWrites r' = rr_pendingWrites r.
Proof.
  unfold replay_entry, prepares, commits, note_upstream, note_prepared, note_committed.
  destruct (recordType entry); cbn; rw ?raise_to_max;
    try destruct (Z.ltb_spec (rr_highestCommittedSequence r) (jr_Sequence entry)); cbn;
    split_and!; try done; lia.
Qed.

Lemma replay_spec entries r : 0 <= rr_highestCommittedSequence r ->
  replayed r (foldl replay_entry r entries) entries.
Proof.
  intros H0. induction entries as [|entry entries IH] using rev_ind.
  { constructor; unfold journaled_operation, journaled_commit; cbn; try done; lia. }
  rw foldl_snoc. destruct IH as [P1 P2 P3 P4 P5 P6 P7 P8 P9 P10 P11].
  destruct (replay_entry_step (foldl replay_entry r entries) entry) as (E1 & E2 & E3 & E4 & E5 & E6 & E7 & E8 & E9 & E10 & E11).
  constructor; try congruence; [..|by auto].
  - intros s. rw E1 journaled_operation_snoc. destruct (prepares entry); cbn [andb]; [|by rw P1].
    destruct (Z.eqb_spec (jr_Sequence entry) s) as [<-|Hne]; [by rw lookup_insert_eq|]. by rw lookup_insert_ne // P1.
  - rw E2 journaled_commit_snoc P2. destruct (commits entry); lia.
  - lia.
Qed.

(** ** Committing what a tail holds *)
(** A record with a higher committed sequence and nothing else changed. *)
Record raised (r r' : replicaRecord) : Prop := {
  ra_committed : rr_highestCommittedSequence r <= rr_highestCommittedSequence r';
  ra_held : forall s, rr_highestCommittedSequence r < s <= rr_highestCommittedSequence r' ->
    is_Some (rr_preparedEntries r !! s);
  ra_prepared : rr_preparedEntries r' = rr_preparedEntries r;
  ra_durable : rr_highestPreparedDurable r' = rr_highestPreparedDurable r;
  ra_materialised : rr_materializedCommittedSequence r' = rr_materializedCommittedSequence r;
  ra_assignment : rr_assignment r' = rr_assignment r;
  ra_state : rr_state r' = rr_state r;
  ra_data : rr_localDataPresent r = true -> rr_localDataPresent r' = true;
  ra_dirty : rr_dirtyByKey r' = rr_dirtyByKey r;
  ra_overlay : rr_committedOverlay r' = rr_committedOverlay r;
  ra_staged : rr_stagedForwards r' = rr_stagedForwards r;
  ra_pending : rr_pendingWrites r' = rr_pendingWrites r;
}.

Lemma raised_refl r : raised r r.
Proof. constructor; try done; lia. Qed.

Definition prepared_from (r : replicaRecord) (s : Z) : gmap Z WriteOperation :=
  filter (fun '(k, _) => s <= k) (rr_preparedEntries r).

Lemma prepared_from_next r s op : rr_preparedEntries r !! s = Some op ->
  S (size (prepared_from r (s + 1))) = size (prepared_from r s).
Proof.
  intros Hs. unfold prepared_from. rw -(map_size_insert_None s op).
  { apply map_lookup_filter_None. right. intros x _. lia. }
  f_equal. apply map_eq. intros k. destruct (decide (s = k)) as [<-|Hne].
  - rw lookup_insert_eq. symmetry. apply map_lookup_filter_Some. split; [done|lia].
  - rw lookup_insert_ne // !map_lookup_filter. destruct (rr_preparedEntries r !! k); [|done]. cbn.
    destruct (decide (s + 1 <= k)); [rw !option_guard_True //; lia|rw !option_guard_False //; lia].
Qed.

(** The bound on the rounds is never what ends the loop. *)
Lemma commit_contiguous_spec fuel r :
  (size (prepared_from r (rr_highestCommittedSequence r + 1)) < fuel)%nat -> 0 <= rr_highestCommittedSequence r ->
  (forall s op, rr_preparedEntries r !! s = Some op -> s < u64_mod - 1) ->
  rr_highestCommittedSequence r < u64_mod - 1 ->
  let r' := commit_contiguous fuel r (u64_add (rr_highestCommittedSequence r) 1) in
  raised r r' /\ rr_preparedEntries r !! (rr_highestCommittedSequence r' + 1) = None.
Proof.
  revert r. induction fuel as [|fuel IH]; intros r Hf H0 Hb Hc; [lia|]. rw u64_add_small; [lia|].
  cbn [commit_contiguous]. destruct (rr_preparedEntries r !! (rr_highestCommittedSequence r + 1)) as [op|] eqn:Hop.
  2: { split; [apply raised_refl|done]. }
  pose proof (prepared_from_next _ _ _ Hop) as Hsize. pose proof (Hb _ _ Hop) as Hlt.
  set (r1 := r <| rr_highestCommittedSequence := _ |> <| rr_localDataPresent := true |>).
  destruct (IH r1) as [[] Hend]; [cbn; unfold prepared_from in *; cbn; lia|cbn; lia|done|done|].
  change (rr_highestCommittedSequence r1) with (rr_highestCommittedSequence r + 1) in *.
  split; [|done]. constructor; try done; [lia| |by intros _; apply ra_data0].
  intros s Hs. destruct (decide (s = rr_highestCommittedSequence r + 1)) as [->|]; [done|]. apply ra_held0. lia.
Qed.

Lemma prepared_from_size r s : (size (prepared_from r s) < S (size (rr_preparedEntries r)))%nat.
Proof. apply Nat.lt_succ_r. apply map_size_filter. Qed.

(** ** Rebuilding the overlay *)
Lemma overlay_of_next log m a op overlay :
  0 <= m <= a -> a <= zlength log -> log !! Z.to_nat a = Some op -> overlay_of log m a overlay ->
  overlay_of log m (a + 1) (<[op_Key op := dirty_entry op]> overlay).
Proof.
  intros Hm Ha Hop Ho key. rw (ztake_next a log op) //; [lia|]. rw zdrop_snoc; [rw ztake_zlength; lia|].
  rw at_key_snoc. unfold on_key. destruct (String.eqb_spec (op_Key op) key) as [<-|Hne].
  - by rw lookup_insert_eq last_snoc.
  - rw lookup_insert_ne // app_nil_r. apply Ho.
Qed.

(** A record that differs in its overlay only. *)
Record overlaid (r r' : replicaRecord) : Prop := {
  ov_committed : rr_highestCommittedSequence r' = rr_highestCommittedSequence r;
  ov_prepared : rr_preparedEntries r' = rr_preparedEntries r;
  ov_durable : rr_highestPreparedDurable r' = rr_highestPreparedDurable r;
  ov_materialised : rr_materializedCommittedSequence r' = rr_materializedCommittedSequence r;
  ov_assignment : rr_assignment r' = rr_assignment r;
  ov_state : rr_state r' = rr_state r;
  ov_data : rr_localDataPresent r' = rr_localDataPresent r;
  ov_dirty : rr_dirtyByKey r' = rr_dirtyByKey r;
  ov_staged : rr_stagedForwards r' = rr_stagedForwards r;
  ov_pending : rr_pendingWrites r' = rr_pendingWrites r;
}.

Lemma rebuild_overlay_spec log m n r a backlog :
  0 <= m <= a -> a + Z.of_nat n <= zlength log -> zlength log < u64_mod - 1 ->
  (forall s, a < s <= a + Z.of_nat n -> rr_preparedEntries r !! s = log !! Z.to_nat (s - 1)) ->
  overlay_of log m a (rr_committedOverlay r) ->
  let '(r', backlog') := rebuild_overlay n r (u64_add a 1) backlog in
  overlaid r r' /\ overlay_of log m (a + Z.of_nat n) (rr_committedOverlay r') /\
  dc_Operation <$> backlog' = (dc_Operation <$> backlog) ++ zdrop a (ztake (a + Z.of_nat n) log) /\
  (Forall (fun c => pr_Assignment (dc_Persisted c) = rr_assignment r) backlog ->
   Forall (fun c => pr_Assignment (dc_Persisted c) = rr_assignment r) backlog').
Proof.
  revert r a backlog. induction n as [|n IH]; intros r a backlog Hm Hn Hr Hp Ho; cbn [rebuild_overlay].
  { rw Z.add_0_r. split_and!; try done. unfold zdrop, ztake. rw drop_ge; [rw length_take; lia|]. by rw app_nil_r. }
  rw u64_add_small; [lia|]. rw Hp; [lia|]. replace (Z.to_nat (a + 1 - 1)) with (Z.to_nat a) by lia.
  destruct (lookup_lt_is_Some_2 log (Z.to_nat a)) as [op Hop]; [unfold zlength in *; lia|]. rw Hop.
  set (r1 := recordWithCommittedOverlay r op).
  match goal with |- context [rebuild_overlay n r1 _ ?l] => specialize (IH r1 (a + 1) l) end.
  destruct (rebuild_overlay n r1 _ _) as [r' backlog'].
  replace (a + 1 + Z.of_nat n) with (a + Z.of_nat (S n)) in IH by lia.
  destruct IH as ([] & Hov & Hb & Hv); [lia|lia|done|intros s Hs; apply Hp; lia|by apply overlay_of_next; [..|lia| |]|].
  split_and!; [by constructor|done| |].
  - rw Hb fmap_app -app_assoc. f_equal. cbn [fmap list_fmap dc_Operation]. rw cloneWriteOperation_id.
    rw (zdrop_next a _ op) //; [lia|]. unfold ztake. rw lookup_take_lt //. lia.
  - intros Hback. apply Hv. apply Forall_app. split; [done|]. by constructor.
Qed.

(** ** A slot after recovery *)
(** What the journal of a slot must be for the log it stands for: what it last
    prepared beyond the backend's [m] operations are the log's operations, and
    it has prepared everything it calls committed. *)
Definition journal_of (log : list WriteOperation) (m : Z) (entries : list journalRecord) : Prop :=
  (forall s op, journaled_operation entries s = Some op -> m < s -> log !! Z.to_nat (s - 1) = Some op) /\
  (forall s, m < s <= journaled_commit entries -> is_Some (journaled_operation entries s)).

(** A recovered record: it stands for the first [h] operations of the log,
    [m] of which the backend has. *)
Record recovered (log : list WriteOperation) (m h : Z) (r : replicaRecord) : Prop := {
  rv_order : 0 <= m <= h /\ h <= zlength log;
  rv_committed : rr_highestCommittedSequence r = h;
  rv_materialised : rr_materializedCommittedSequence r = m;
  rv_prepared : forall s, m < s <= h -> rr_preparedEntries r !! s = log !! Z.to_nat (s - 1);
  rv_overlay : overlay_of log m h (rr_committedOverlay r);
  rv_durable : m <= rr_highestPreparedDurable r;
  rv_dirty : rr_dirtyByKey r = ∅;
  rv_staged : rr_stagedForwards r = ∅;
  rv_pending : rr_pendingWrites r = ∅;
  rv_state : rr_state r = StateRecovered;
  rv_data : rr_localDataPresent r = true;
}.

(** The record of a replica whose data the backend has. *)
Record opened (m : Z) (r : replicaRecord) : Prop := {
  op_committed : rr_highestCommittedSequence r = m;
  op_materialised : rr_materializedCommittedSequence r = m;
  op_durable : rr_highestPreparedDurable r = m;
  op_prepared : rr_preparedEntries r = ∅;
  op_overlay : rr_committedOverlay r = ∅;
  op_dirty : rr_dirtyByKey r = ∅;
  op_staged : rr_stagedForwards r = ∅;
  op_pending : rr_pendingWrites r = ∅;
  op_state : rr_state r = StateRecovered;
  op_data : rr_localDataPresent r = true;
}.

Lemma openReplica_opened replica m upstream r :
  openReplica replica (Ok m) (Ok upstream) = Ok r -> opened m r /\ rr_assignment r = pr_Assignment replica.
Proof. intros [= <-]. split; [by constructor|done]. Qed.

Definition tail_of_chain (assignment : ReplicaAssignment) : bool :=
  String.eqb (SuccessorNodeID (asg_Peers assignment)) "".

(** The loop of a tail, and none elsewhere. *)
Lemma raise_spec r :
  0 <= rr_highestCommittedSequence r < u64_mod - 1 ->
  (forall s op, rr_preparedEntries r !! s = Some op -> s < u64_mod - 1) ->
  let r' := if tail_of_chain (rr_assignment r)
            then commit_contiguous (S (size (rr_preparedEntries r))) r (u64_add (rr_highestCommittedSequence r) 1)
            else r in
  raised r r' /\
  (if tail_of_chain (rr_assignment r)
   then rr_preparedEntries r !! (rr_highestCommittedSequence r' + 1) = None
   else rr_highestCommittedSequence r' = rr_highestCommittedSequence r).
Proof.
  intros Hc Hb. cbv zeta. destruct (tail_of_chain _); [|split; [apply raised_refl|done]].
  apply commit_contiguous_spec; [apply prepared_from_size|lia|done|lia].
Qed.

Lemma finish_recovery_spec log m r entries :
  log_ok log -> zlength log < u64_mod - 1 -> 0 <= m <= zlength log -> opened m r -> journal_of log m entries ->
  let '(r', backlog) := finish_recovery (foldl replay_entry r entries) in
  exists h, recovered log m h r' /\ rr_assignment r' = rr_assignment r /\
    dc_Operation <$> backlog = zdrop m (ztake h log) /\
    Forall (fun c => pr_Assignment (dc_Persisted c) = rr_assignment r) backlog /\
    Z.max m (journaled_commit entries) <= h /\
    (if tail_of_chain (rr_assignment r) then journaled_operation entries (h + 1) = None
     else h = Z.max m (journaled_commit entries)).
Proof.
  intros Hl Hr Hm Ho [Hj1 Hj2]. pose proof (op_committed _ _ Ho) as Hoc.
  destruct (replay_spec entries r) as [P1 P2 P3 P4 P5 P6 P7 P8 P9 P10 P11]; [lia|].
  set (r1 := foldl replay_entry r entries) in *. clearbody r1.
  assert (forall s op, rr_preparedEntries r1 !! s = Some op -> journaled_operation entries s = Some op) as Hprep.
  { intros s op. rw P1 (op_prepared _ _ Ho). by destruct (journaled_operation entries s). }
  assert (forall s op, m < s -> rr_preparedEntries r1 !! s = Some op -> log !! Z.to_nat (s - 1) = Some op) as Hlog.
  { intros s op Hs Hop. apply Hj1; [by apply Hprep|done]. }
  assert (forall s op, m < s -> rr_preparedEntries r1 !! s = Some op -> s <= zlength log) as Hlen.
  { intros s op Hs Hop%Hlog; [|done]. apply lookup_lt_Some in Hop. unfold zlength. lia. }
  assert (forall s, m < s <= rr_highestCommittedSequence r1 -> is_Some (rr_preparedEntries r1 !! s)) as Hheld.
  { intros s Hs. rw P1. destruct (Hj2 s) as [op ->]; [lia|done]. }
  assert (rr_highestCommittedSequence r1 <= zlength log) as Hcl.
  { destruct (decide (rr_highestCommittedSequence r1 <= m)); [lia|].
    destruct (Hheld (rr_highestCommittedSequence r1)) as [op Hop]; [lia|]. apply Hlen in Hop; lia. }
  destruct (raise_spec r1) as [Hra Hend]; [lia|intros s op Hop; destruct (decide (m < s)); [apply Hlen in Hop|]; lia|].
  unfold finish_recovery. unfold tail_of_chain in *. cbv zeta in Hra, Hend |- *.
  set (r2 := if String.eqb _ "" then _ else r1) in *. clearbody r2.
  pose proof Hra as [R1 R2 R3 R4 R5 R6 R7 R8 R9 R10 R11 R12].
  set (h := rr_highestCommittedSequence r2) in *. rw R5 P4 (op_materialised _ _ Ho).
  assert (forall s, m < s <= h -> is_Some (rr_preparedEntries r2 !! s)) as Hheld2.
  { intros s Hs. rw R3. destruct (decide (s <= rr_highestCommittedSequence r1)); [apply Hheld; lia|apply R2; lia]. }
  assert (h <= zlength log) as Hhl.
  { destruct (decide (h <= m)); [lia|]. destruct (Hheld2 h) as [op Hop]; [lia|]. rw R3 in Hop. apply Hlen in Hop; lia. }
  assert (forall s, m < s <= h -> rr_preparedEntries r2 !! s = log !! Z.to_nat (s - 1)) as Hp2.
  { intros s Hs. destruct (Hheld2 s Hs) as [op Hop]. rw Hop. symmetry. apply Hlog; [lia|]. by rw -R3. }
  pose proof (rebuild_overlay_spec log m (Z.to_nat (h - m)) r2 m []) as Hreb.
  destruct (rebuild_overlay _ _ _ _) as [r3 backlog]. replace (m + Z.of_nat (Z.to_nat (h - m))) with h in Hreb by lia.
  destruct Hreb as ([O1 O2 O3 O4 O5 O6 O7 O8 O9 O10] & Hov & Hb & Hv); [lia|lia|done|done| |].
  { intros key. rw zdrop_ztake_same R10 P9 (op_overlay _ _ Ho). done. }
  exists h. split_and!; [|congruence|done| | |].
  - constructor; rw ?O1 ?O2 ?O3 ?O4 ?O6 ?O7 ?O8 ?O9 ?O10 //; [lia|by rw R5 P4 (op_materialised _ _ Ho)| | | | | |].
    + rw R4. pose proof (op_durable _ _ Ho). lia.
    + by rw R9 P8 (op_dirty _ _ Ho).
    + by rw R11 P10 (op_staged _ _ Ho).
    + by rw R12 P11 (op_pending _ _ Ho).
    + by rw R7 P6 (op_state _ _ Ho).
    + apply R8, P7, Ho.
  - rw -P5 -R6. apply Hv. constructor.
  - lia.
  - rw P5 in Hend. destruct (String.eqb _ ""); [|lia]. rw P1 (op_prepared _ _ Ho) in Hend.
    by destruct (journaled_operation entries (h + 1)).
Qed.

(** ** The node *)
Lemma relevant_snoc slot version entries entry :
  relevant slot version (entries ++ [entry]) =
  relevant slot version entries ++
  (if (jr_Slot entry =? slot) && (jr_ChainVersion entry =? version) then [entry] else []).
Proof. unfold relevant. by rw List.filter_app. Qed.

(** The records the callback keeps: each is replayed with its own entries. *)
Definition replay_all (records : gmap Z replicaRecord) (entries : list journalRecord) : gmap Z replicaRecord :=
  map_imap (fun slot r =>
    Some (foldl replay_entry r (relevant slot (asg_ChainVersion (rr_assignment r)) entries))) records.

Lemma replay_all_lookup records entries slot :
  replay_all records entries !! slot =
  (fun r => foldl replay_entry r (relevant slot (asg_ChainVersion (rr_assignment r)) entries)) <$> records !! slot.
Proof. unfold replay_all. rw map_lookup_imap. by destruct (records !! slot). Qed.

Lemma replay_assignment r entries : rr_assignment (foldl replay_entry r entries) = rr_assignment r.
Proof.
  induction entries as [|e entries IH] using rev_ind; [done|]. rw foldl_snoc.
  destruct (replay_entry_step (foldl replay_entry r entries) e) as (_ & _ & _ & _ & -> & _). exact IH.
Qed.

Lemma recover_entries records highWater entries :
  exists highWater', res_fold recover_entry (records, highWater) entries = Ok (replay_all records entries, highWater').
Proof.
  induction entries as [|e entries IH] using rev_ind.
  { exists highWater. cbn. do 2 f_equal. apply map_eq. intros slot. rw replay_all_lookup. by destruct (records !! slot). }
  destruct IH as [hw IH]. rw res_fold_app IH. cbn [res_fold mbind res_bind]. unfold recover_entry.
  rw replay_all_lookup. destruct (records !! jr_Slot e) as [r|] eqn:Hr; cbn [fmap option_fmap option_map].
  - rw replay_assignment. destruct (Z.eqb_spec (jr_ChainVersion e) (asg_ChainVersion (rr_assignment r))) as [Hv|Hv];
      cbn [negb mbind res_bind]; eexists; do 2 f_equal; apply map_eq; intros slot; rw ?replay_all_lookup.
    + destruct (decide (jr_Slot e = slot)) as [<-|Hne].
      * rw lookup_insert_eq Hr. cbn. by rw relevant_snoc Z.eqb_refl Hv Z.eqb_refl foldl_snoc.
      * rw lookup_insert_ne // !replay_all_lookup. destruct (records !! slot) as [r'|]; [|done]. cbn.
        by rw relevant_snoc (proj2 (Z.eqb_neq _ _) Hne) app_nil_r.
    + destruct (records !! slot) as [r'|] eqn:Hr'; [|done]. cbn. rw relevant_snoc.
      destruct (Z.eqb_spec (jr_Slot e) slot) as [Heq|Hne]; [|by rw app_nil_r].
      rw Heq Hr' in Hr. injection Hr as ->. by rw (proj2 (Z.eqb_neq _ _) Hv) app_nil_r.
  - eexists. cbn [mbind res_bind]. do 2 f_equal. apply map_eq. intros slot. rw !replay_all_lookup.
    destruct (records !! slot) as [r'|] eqn:Hr'; [|done]. cbn. rw relevant_snoc.
    destruct (Z.eqb_spec (jr_Slot e) slot) as [Heq|Hne]; [by rw Heq Hr' in Hr|by rw app_nil_r].
Qed.

Section stores.
Context {J : Type} `{CommitJournalLaws J}.

Lemma replay_journals (journals : list J) (held : list (list journalRecord)) st done :
  Forall2 holds_records journals held ->
  exists journals', Forall2 holds_records journals' held /\
  res_fold replay_journal (st, done) journals =
    (st' ← res_fold recover_entry st (concat held); Ok (st', done ++ journals')).
Proof.
  intros Hh. revert st done. induction Hh as [|j h journals held Hj Hh IH]; intros st done.
  { exists []. split; [constructor|]. cbn. by rw app_nil_r. }
  destruct (replay_holds recover_entry st j h Hj) as (j' & Hj' & Hr).
  cbn [res_fold concat]. unfold replay_journal at 2. cbn [fst snd]. rw Hr res_fold_app.
  destruct (res_fold recover_entry st h) as [st'|e]; cbn [mbind res_bind].
  - destruct (IH st' (done ++ [j'])) as (js & Hjs & Hf). exists (j' :: js). split; [by constructor|].
    rw Hf. destruct (res_fold recover_entry st' (concat held)); [|done]. cbn. by rw -app_assoc.
  - exists (j' :: journals). by split; [constructor|].
Qed.

Lemma recoverJournaledReplicaState_ok (journals : list J) held records :
  Forall2 holds_records journals held ->
  exists highWater journals', Forall2 holds_records journals' held /\
  let finished := finish_recovery <$> replay_all records (concat held) in
  recoverJournaledReplicaState journals records =
    Ok (fst <$> finished, concat ((map_to_list finished).*2.*2), highWater, journals').
Proof.
  intros Hh. unfold recoverJournaledReplicaState.
  destruct (replay_journals journals held (records, rr_highestCommittedSequence <$> records) [] Hh) as (js & Hjs & ->).
  destruct (recover_entries records (rr_highestCommittedSequence <$> records) (concat held)) as [hw ->].
  exists hw, js. by split.
Qed.
End stores.

Lemma concat_member {A} (l : list (list A)) x : x ∈ l -> exists before after, concat l = before ++ x ++ after.
Proof.
  intros (before & after & ->)%list_elem_of_split. exists (concat before), (concat after). by rw concat_app.
Qed.

(** ** Resuming *)
Definition fresh_owner (slot : Z) (r : replicaRecord) : slotRuntime :=
  {| own_slot := slot; own_exists := true; own_record := r; own_committedMetadata := ∅;
     own_progressionGap := false; own_progressionGapSequence := 0 |}.

Lemma ztake_ztake {A} n (l : list A) : ztake n (ztake n l) = ztake n l.
Proof. unfold ztake. rw take_take. by rw Nat.min_id. Qed.

Lemma log_ok_ztake n log : log_ok log -> log_ok (ztake n log).
Proof.
  intros [Hs Hf]. split; [|by apply Forall_ztake]. intros i op Hop. unfold ztake in Hop.
  apply lookup_take_Some in Hop as [Hop _]. by apply Hs.
Qed.

Lemma resumed_restored fetch nodeID slot log m h r assignment :
  zlength log < u64_mod - 1 -> recovered log m h r ->
  resumed_committed fetch nodeID slot (r <| rr_assignment := assignment |>) = h ->
  restored (ztake h log) m (resumed_record fetch nodeID slot r assignment).
Proof.
  intros Hr [Ho E1 E2 Hp Hov _ E3 E4 E5 _ _] Hc.
  assert (zlength (ztake h log) = h) as Hlen by (rw ztake_zlength; lia).
  unfold resumed_record. rw Hc. constructor; cbn; rw ?Hlen ?E2 //.
  - lia.
  - apply u64_add_small. lia.
  - intros s Hs. rw Hp //. unfold ztake. rw lookup_take_lt //. lia.
  - intros key. rw ztake_ztake. apply Hov.
Qed.

Lemma ensure_fresh slot q : exists upstream, ensureUpstreamCommitReplay (fresh_owner slot q) =
  fresh_owner slot (q <| rr_highestUpstreamConfirmedSequence := upstream |>).
Proof.
  unfold ensureUpstreamCommitReplay. cbn [own_exists fresh_owner negb own_record].
  destruct (String.eqb _ ""); [by eexists|]. exists (rr_highestUpstreamConfirmedSequence q). by destruct q.
Qed.

(** Only a replica in the recovered state is resumed. *)
Lemma resume_owner upsert fetch nodeID slot r assignment :
  rr_state r = StateRecovered -> rr_localDataPresent r = true ->
  exists upstream, (resumeRecoveredReplica upsert fetch nodeID (fresh_owner slot r) assignment).1 =
  fresh_owner slot ((resumed_record fetch nodeID slot r assignment) <| rr_highestUpstreamConfirmedSequence := upstream |>).
Proof.
  intros Hs Hd. unfold resumeRecoveredReplica. cbn [own_exists fresh_owner negb own_record own_slot].
  rw Hs Hd (bool_decide_false (StateRecovered = StateActive)) // (bool_decide_true (StateRecovered = _)) //. cbn [andb negb].
  set (q := resumed_record fetch nodeID slot r assignment). clearbody q.
  change ((fresh_owner slot r) <| own_record := q |>) with (fresh_owner slot q).
  destruct (persistReplica upsert q); cbn [fst]; [apply ensure_fresh|].
  exists (rr_highestUpstreamConfirmedSequence q). by destruct q.
Qed.

Lemma restored_upstream log m r u : restored log m r -> restored log m (r <| rr_highestUpstreamConfirmedSequence := u |>).
Proof. by intros []. Qed.

Lemma resumed_start upsert fetch nodeID slot log m h r assignment :
  log_ok log -> zlength log < u64_mod - 1 -> recovered log m h r ->
  resumed_committed fetch nodeID slot (r <| rr_assignment := assignment |>) = h ->
  slot_start {| sc_log := ztake h log; sc_base := materialise (ztake m log);
                sc_rt := (resumeRecoveredReplica upsert fetch nodeID (fresh_owner slot r) assignment).1 |}.
Proof.
  intros Hl Hr Hv Hc. pose proof (rv_order _ _ _ _ Hv) as Ho.
  destruct (resume_owner upsert fetch nodeID slot r assignment) as [u ->]; [apply Hv..|].
  replace (ztake m log) with (ztake m (ztake h log)).
  - apply start_restored; [by apply log_ok_ztake|rw ztake_zlength; lia|].
    by apply restored_upstream, resumed_restored.
  - unfold ztake. rw take_take. f_equal. lia.
Qed.

(** ** Claims *)
(** C11. A restart brings back the committed prefix: if the journals hold, for a
    slot's chain version, the operations of its log that the backend lacks up
    to the highest sequence they call committed, then opening the node gives
    the slot a record that stands for at least that prefix, the materialiser's
    backlog is exactly what the backend lacks of it, in order, and a replica
    resumed at that point is an owner to which all the theorems on running
    owners apply, with that prefix as its log. *)
Theorem restart_refines {J} `{CommitJournalLaws J} (journals : list J) held records slot r log m :
  Forall2 holds_records journals held -> records !! slot = Some r -> opened m r ->
  log_ok log -> zlength log < u64_mod - 1 -> 0 <= m <= zlength log ->
  let entries := relevant slot (asg_ChainVersion (rr_assignment r)) (concat held) in
  journal_of log m entries ->
  exists records' backlog highWater journals' r' h,
  recoverJournaledReplicaState journals records = Ok (records', backlog, highWater, journals') /\
  records' !! slot = Some r' /\ Z.max m (journaled_commit entries) <= h <= zlength log /\
  (exists before part after, backlog = before ++ part ++ after /\ dc_Operation <$> part = zdrop m (ztake h log)) /\
  forall upsert fetch nodeID assignment,
    resumed_committed fetch nodeID slot (r' <| rr_assignment := assignment |>) = h ->
    slot_reachable {| sc_log := ztake h log; sc_base := materialise (ztake m log);
                      sc_rt := (resumeRecoveredReplica upsert fetch nodeID (fresh_owner slot r') assignment).1 |}.
Proof.
  intros Hh Hrec Ho Hl Hr Hm entries Hj.
  destruct (recoverJournaledReplicaState_ok journals held records Hh) as (hw & js & Hjs & Heq).
  pose proof (finish_recovery_spec log m r entries Hl Hr Hm Ho Hj) as Hf.
  assert ((finish_recovery <$> replay_all records (concat held)) !! slot =
    Some (finish_recovery (foldl replay_entry r entries))) as Hslot.
  { rw lookup_fmap replay_all_lookup Hrec. done. }
  destruct (finish_recovery (foldl replay_entry r entries)) as [r' part].
  destruct Hf as (h & Hv & Ha & Hb & _ & Hhigh & _). cbv zeta in Heq. rw Heq.
  eexists _, _, _, _, r', h. split; [reflexivity|]. split; [by rw lookup_fmap Hslot|]. split; [pose proof (rv_order _ _ _ _ Hv); lia|].
  split.
  - destruct (concat_member ((map_to_list (finish_recovery <$> replay_all records (concat held))).*2.*2) part)
      as (before & after & ->); [|by exists before, part, after].
    apply list_elem_of_fmap. exists (r', part). split; [done|]. apply list_elem_of_fmap.
    exists (slot, (r', part)). split; [done|]. by apply elem_of_map_to_list.
  - intros upsert fetch nodeID assignment Hc. eexists. split; [|apply rtc_refl]. by apply resumed_start.
Qed.

(** ** An owner and its journal

    The runs of an owner together with the journal of its shard: an operation
    is durable once its prepare record is in the journal, in the order of the
    sequence numbers; a commit range is journaled when all of it is durable, and
    applied when its record is in the journal.  Appending a record and acting
    on it are two steps, so a run can stop between them. *)
Record durable_config := {
  dn_config : slot_config;
  dn_journal : list journalRecord;
}.

Definition record_of (c : slot_config) : replicaRecord := own_record (sc_rt c).

Section durable_runs.
Context (slot version : Z).

Inductive durable_step : durable_config -> durable_config -> Prop :=
| durable_journal_prepare c j op :
    op ∈ sc_log c -> op_Slot op = slot ->
    durable_step {| dn_config := c; dn_journal := j |}
      {| dn_config := c;
         dn_journal := j ++ [journalRecordFromPrepare
           {| dc_Operation := op; dc_Persisted := persistedReplica (record_of c);
              dc_UpstreamConfirmedSequence := 0 |}] |}
| durable_prepared c j op :
    op_Sequence op = rr_highestPreparedDurable (record_of c) + 1 ->
    journaled_operation (relevant slot version j) (op_Sequence op) = Some op ->
    durable_step {| dn_config := c; dn_journal := j |}
      {| dn_config := after_rt c ((sc_rt c) <| own_record := prepareDurable (record_of c) op |>);
         dn_journal := j |}
| durable_journal_range c j sequence :
    sequence <= rr_highestPreparedDurable (record_of c) ->
    durable_step {| dn_config := c; dn_journal := j |}
      {| dn_config := c;
         dn_journal := j ++ [journalRecordFromHeadCommitRange (rr_assignment (record_of c)) sequence] |}
| durable_range c j limit sequence :
    sequence <= journaled_commit (relevant slot version j) ->
    durable_step {| dn_config := c; dn_journal := j |}
      {| dn_config := after_rt c (applyCommitWatermark limit (sc_rt c) sequence); dn_journal := j |}
| durable_other c c' j :
    slot_step c c' ->
    rr_highestPreparedDurable (record_of c') = rr_highestPreparedDurable (record_of c) ->
    rr_highestCommittedSequence (record_of c') = rr_highestCommittedSequence (record_of c) ->
    rr_materializedCommittedSequence (record_of c) <= rr_materializedCommittedSequence (record_of c') ->
    asg_Slot (rr_assignment (record_of c')) = slot -> asg_ChainVersion (rr_assignment (record_of c')) = version ->
    durable_step {| dn_config := c; dn_journal := j |} {| dn_config := c'; dn_journal := j |}
| durable_foreign c j entry :
    jr_Slot entry <> slot ->
    durable_step {| dn_config := c; dn_journal := j |} {| dn_config := c; dn_journal := j ++ [entry] |}.

(** It starts with all it has in its backend and nothing of it in the journal. *)
Definition durable_start (d : durable_config) : Prop :=
  let c := dn_config d in
  slot_start c /\ rr_materializedCommittedSequence (record_of c) = zlength (sc_log c) /\
  asg_Slot (rr_assignment (record_of c)) = slot /\ asg_ChainVersion (rr_assignment (record_of c)) = version /\
  relevant slot version (dn_journal d) = [].

Definition durable_reachable (d : durable_config) : Prop := exists d0, durable_start d0 /\ rtc durable_step d0 d.

(** The journal holds what the owner calls durable and has recorded what it has
    committed; [n] operations were there from the start. *)
Record durable_inv (n : Z) (d : durable_config) : Prop := {
  di_config : config_inv (dn_config d);
  di_slot : asg_Slot (rr_assignment (record_of (dn_config d))) = slot;
  di_version : asg_ChainVersion (rr_assignment (record_of (dn_config d))) = version;
  di_operations : forall s op, journaled_operation (relevant slot version (dn_journal d)) s = Some op ->
    0 < s /\ sc_log (dn_config d) !! Z.to_nat (s - 1) = Some op;
  di_prepared : forall s, n < s <= rr_highestPreparedDurable (record_of (dn_config d)) ->
    is_Some (journaled_operation (relevant slot version (dn_journal d)) s);
  di_bound : journaled_commit (relevant slot version (dn_journal d)) <=
    rr_highestPreparedDurable (record_of (dn_config d));
  di_committed : rr_highestCommittedSequence (record_of (dn_config d)) <=
    Z.max n (journaled_commit (relevant slot version (dn_journal d)));
  di_base : 0 <= n <= rr_materializedCommittedSequence (record_of (dn_config d));
}.

Lemma slot_start_committed c : slot_start c ->
  rr_highestCommittedSequence (record_of c) = zlength (sc_log c) /\
  rr_highestPreparedDurable (record_of c) = zlength (sc_log c).
Proof.
  destruct 1 as [log s assignment Hl Hr Hp|log s assignment Hl Hr|log m s r Hl Hr Hrs]; cbn; [|done|by destruct Hrs].
  destruct (String.eqb_spec (PredecessorNodeID (asg_Peers assignment)) "") as [He|]; [|done]. by rw (Hp He).
Qed.

Lemma durable_start_inv d : durable_start d -> durable_inv (zlength (sc_log (dn_config d))) d.
Proof.
  intros (Hs & Hm & Hsl & Hv & Hj). destruct (slot_start_committed _ Hs) as [Hc Hd].
  assert (0 <= zlength (sc_log (dn_config d))) by (unfold zlength; lia).
  constructor; try done; rw ?Hj ?Hc ?Hd ?Hm //; [by apply start_inv|lia..].
Qed.

(** What the owner does leaves its journal good as long as it only extends the
    log and stays behind what is durable and recorded. *)
Lemma durable_keeps n c c' j :
  durable_inv n {| dn_config := c; dn_journal := j |} -> config_inv c' ->
  sc_log c `prefix_of` sc_log c' ->
  asg_Slot (rr_assignment (record_of c')) = slot -> asg_ChainVersion (rr_assignment (record_of c')) = version ->
  (forall s, rr_highestPreparedDurable (record_of c) < s <= rr_highestPreparedDurable (record_of c') ->
     is_Some (journaled_operation (relevant slot version j) s)) ->
  rr_highestPreparedDurable (record_of c) <= rr_highestPreparedDurable (record_of c') ->
  rr_highestCommittedSequence (record_of c') <=
    Z.max (rr_highestCommittedSequence (record_of c)) (journaled_commit (relevant slot version j)) ->
  rr_materializedCommittedSequence (record_of c) <= rr_materializedCommittedSequence (record_of c') ->
  durable_inv n {| dn_config := c'; dn_journal := j |}.
Proof.
  intros [_ _ _ Ho Hp Hb Hc Hn] Hi' Hlog Hs Hv Hnew Hd Hc' Hm. cbn [dn_config dn_journal] in *.
  constructor; cbn [dn_config dn_journal]; try done; [..|lia|lia|lia].
  - intros s op [Hs0 Hop]%Ho. split; [done|]. by apply (prefix_lookup_Some _ _ _ _ Hop).
  - intros s Hns. destruct (decide (s <= rr_highestPreparedDurable (record_of c))); [apply Hp|apply Hnew]; lia.
Qed.

(** A record of the journal that is true of the owner. *)
Lemma durable_append n c j entry :
  durable_inv n {| dn_config := c; dn_journal := j |} ->
  (prepares entry = true -> sc_log c !! Z.to_nat (jr_Sequence entry - 1) = Some (operation entry) /\
     0 < jr_Sequence entry) ->
  (commits entry = true -> jr_Sequence entry <= rr_highestPreparedDurable (record_of c)) ->
  durable_inv n {| dn_config := c; dn_journal := j ++ [entry] |}.
Proof.
  intros [Hi Hs Hv Ho Hp Hb Hc Hn] Hpre Hcom. cbn [dn_config dn_journal] in *.
  constructor; cbn [dn_config dn_journal]; try done; rw relevant_snoc;
    destruct (_ && _); rw ?app_nil_r; try done.
  - intros s op. rw journaled_operation_snoc. destruct (prepares entry && _) eqn:He; [|apply Ho].
    apply andb_true_iff in He as [He <-%Z.eqb_eq]. intros [= <-]. by destruct (Hpre He).
  - intros s Hns. rw journaled_operation_snoc. destruct (_ && _); [done|by apply Hp].
  - rw journaled_commit_snoc. destruct (commits entry); [specialize (Hcom eq_refl); lia|done].
  - rw journaled_commit_snoc. destruct (commits entry); lia.
Qed.

Lemma prepareDurable_frame r op :
  rr_highestPreparedDurable (prepareDurable r op) = Z.max (rr_highestPreparedDurable r) (op_Sequence op) /\
  rr_highestCommittedSequence (prepareDurable r op) = rr_highestCommittedSequence r /\
  rr_materializedCommittedSequence (prepareDurable r op) = rr_materializedCommittedSequence r /\
  rr_assignment (prepareDurable r op) = rr_assignment r.
Proof.
  unfold prepareDurable. destruct (Z.ltb_spec (rr_highestPreparedDurable r) (op_Sequence op));
    destruct (_ && _); cbn; split_and!; try done; lia.
Qed.

Lemma durable_step_inv n d d' : durable_inv n d -> durable_step d d' -> durable_inv n d'.
Proof.
  intros Hi Hs. destruct Hs as [c j op Hop Hslot|c j op Hseq Hop|c j s Hs|c j limit s Hs|c c' j Hs Hd Hc Hm Hsl Hv|c j e He];
    pose proof Hi as [Hci Hsl0 Hv0 Hops _ _ _ _]; cbn [dn_config dn_journal] in Hci, Hsl0, Hv0, Hops.
  - apply durable_append; [done| |done]. intros _. apply list_elem_of_lookup in Hop as [i Hop].
    cbn [journalRecordFromPrepare jr_Sequence dc_Operation]. rw (lo_sequence _ (si_log _ _ _ Hci) _ _ Hop).
    split; [|lia]. replace (Z.to_nat (Z.of_nat i + 1 - 1)) with i by lia. rw Hop. f_equal.
    destruct op as [? ? ? ? ? meta]. by destruct meta.
  - destruct (Hops _ _ Hop) as [Hs0 Hlog]. destruct (prepareDurable_frame (record_of c) op) as (E1 & E2 & E3 & E4).
    apply (durable_keeps n c); [done| |apply grown_prefix|..]; unfold record_of in *; cbn -[prepareDurable];
      rw ?E1 ?E2 ?E3 ?E4 //; try lia.
    + exact (slot_step_inv c _ Hci (slot_prepared c op (list_elem_of_lookup_2 _ _ _ Hlog))).
    + intros s' Hs'. replace s' with (op_Sequence op) by lia. by rw Hop.
  - by apply durable_append.
  - destruct (applyCommitWatermark_frame limit _ _ _ s Hci) as (E1 & _ & E2 & E3).
    destruct (applyCommitWatermark_spec limit _ _ _ s Hci) as [_ E4].
    apply (durable_keeps n c); [done| |apply grown_prefix|..]; unfold record_of in *; cbn -[applyCommitWatermark];
      rw ?E1 ?E2 ?E3 ?E4 //; try lia.
    exact (slot_step_inv c _ Hci (slot_commit c limit s)).
  - apply (durable_keeps n c); try done; [by apply (slot_step_inv c)|by apply (step_committed c)| |lia|lia]. rw Hd. lia.
  - destruct Hi as [? ? ? H4 H5 H6 H7 ?]. cbn [dn_config dn_journal] in *.
    constructor; cbn [dn_config dn_journal]; try done;
      by rw relevant_snoc (proj2 (Z.eqb_neq _ _) He) app_nil_r.
Qed.

Lemma durable_reachable_inv d : durable_reachable d -> exists n, durable_inv n d.
Proof.
  intros (d0 & H0 & Hs). exists (zlength (sc_log (dn_config d0))). apply durable_start_inv in H0.
  revert H0. generalize (zlength (sc_log (dn_config d0))). intros n H0.
  induction Hs as [|d1 d2 d3 H12 _ IH]; [done|]. by apply IH, (durable_step_inv _ d1).
Qed.

(** What such a journal is for a backend that holds [b] operations. *)
Lemma durable_journal_of n d b : durable_inv n d ->
  rr_materializedCommittedSequence (record_of (dn_config d)) <= b ->
  journal_of (sc_log (dn_config d)) b (relevant slot version (dn_journal d)).
Proof.
  intros [_ _ _ Ho Hp Hb _ Hn] Hm. split.
  - intros s op Hop _. by apply Ho.
  - intros s Hs. apply Hp. lia.
Qed.
End durable_runs.

(** Reading a recovered slot. *)
Lemma recovered_read log m h r slot key :
  log_ok log -> zlength log < u64_mod - 1 -> recovered log m h r ->
  committedObject (in_backend (materialise (ztake m log))) r slot key = Ok (materialise (ztake h log) !! key).
Proof.
  intros Hl Hr [Ho E1 E2 Hp Hov _ E3 E4 E5 _ _].
  assert (zlength (ztake h log) = h) as Hlen by (rw ztake_zlength; lia).
  set (q := r <| rr_nextSequence := h + 1 |> <| rr_highestPreparedDurable := h |>).
  assert (restored (ztake h log) m q) as Hq.
  { constructor; cbn; rw ?Hlen ?E2 //; [lia| |].
    - intros s Hs. rw Hp //. unfold ztake. rw lookup_take_lt //. lia.
    - intros k. rw ztake_ztake. apply Hov. }
  apply (restored_inv _ _ slot) in Hq; [|by apply log_ok_ztake|lia].
  replace (ztake m (ztake h log)) with (ztake m log) in Hq by (unfold ztake; rw take_take; f_equal; lia).
  pose proof (committedObject_spec _ _ _ key Hq) as Hc. unfold committed_prefix in Hc. cbn in Hc.
  rw E1 ztake_ztake in Hc. exact Hc.
Qed.

(** C4. Acknowledged writes survive a crash.  Stop an owner at any point of a run
    within one chain version, in which it makes the operations durable one after
    the other, journals commit ranges and applies them, and no append fails, with
    a backend that holds any [b] operations the materialiser may have reached.
    Opening the node again in that version, from that backend and from journals
    that hold the records, gives a record that has committed at least what the
    owner had, and whose reads return exactly the state of the log up to there.
    (Across versions and after a failed append this fails, as
    [version_change_drops_committed] and [failed_append_loses_committed_write]
    show.) *)
Theorem committed_survives_crash {J} `{CommitJournalLaws J} slot version d b (journals : list J) held records r :
  durable_reachable slot version d ->
  let c := dn_config d in
  sc_base c = materialise (ztake b (sc_log c)) ->
  rr_materializedCommittedSequence (record_of c) <= b <= rr_highestCommittedSequence (record_of c) ->
  Forall2 holds_records journals held -> concat held = dn_journal d ->
  records !! slot = Some r -> opened b r -> asg_ChainVersion (rr_assignment r) = version ->
  exists records' backlog highWater journals' r' h,
  recoverJournaledReplicaState journals records = Ok (records', backlog, highWater, journals') /\
  records' !! slot = Some r' /\ rr_highestCommittedSequence r' = h /\
  committed_prefix (sc_log c) (sc_rt c) `prefix_of` ztake h (sc_log c) /\
  forall key, committedObject (in_backend (sc_base c)) r' slot key = Ok (materialise (ztake h (sc_log c)) !! key).
Proof.
  intros [n Hi]%durable_reachable_inv. destruct d as [c j]. cbn [dn_config dn_journal].
  intros Hbase Hb Hh Hheld Hrec Ho Hv. pose proof (di_config _ _ _ _ Hi) as Hci.
  destruct (si_order _ _ _ Hci) as [Hm1 Hm2]. pose proof (si_next _ _ _ Hci) as Hnx. pose proof (si_room _ _ _ Hci) as Hrm.
  pose proof (durable_journal_of _ _ _ _ b Hi (proj1 Hb)) as Hj. unfold record_of in *. cbn [dn_config dn_journal] in *.
  assert (zlength (sc_log c) < u64_mod - 1) as Hroom by lia.
  destruct (recoverJournaledReplicaState_ok journals held records Hh) as (hw & js & Hjs & Heq).
  pose proof (finish_recovery_spec (sc_log c) b r _ (si_log _ _ _ Hci) Hroom ltac:(lia) Ho Hj) as Hf.
  assert ((finish_recovery <$> replay_all records (concat held)) !! slot =
    Some (finish_recovery (foldl replay_entry r (relevant slot version j)))) as Hslot.
  { rw lookup_fmap replay_all_lookup Hrec Hheld -Hv. done. }
  destruct (finish_recovery (foldl replay_entry r _)) as [r' part].
  destruct Hf as (h & Hrv & _ & _ & _ & Hhigh & _). cbv zeta in Heq. rw Heq.
  eexists _, _, _, _, r', h. split; [reflexivity|]. split; [by rw lookup_fmap Hslot|]. split; [by destruct Hrv|].
  split; [|intros key; rw Hbase; exact (recovered_read _ _ _ _ slot key (si_log _ _ _ Hci) Hroom Hrv)].
  pose proof (di_committed _ _ _ _ Hi). pose proof (di_base _ _ _ _ Hi). unfold record_of in *. cbn [dn_config dn_journal] in *.
  pose proof (rv_order _ _ _ _ Hrv).
  apply prefix_ztake; try done; lia.
Qed.

(** ** A concrete crash

    A head with one committed write and the journal of its run, its backend still
    empty; the node is opened again from the journal and the store. *)
Definition head_put : slot_config := do_put (start_config head_assignment) no_conditions 100 "k" "v1".
Definition head_durable : slot_config := do_prepared head_put 0.
Definition head_token : slot_config := do_token head_durable 1.
Definition head_crashed : slot_config := do_commit head_token 1.

Definition put_write : WriteOperation :=
  {| op_Slot := 3; op_Sequence := 1; op_Kind := OperationKindPut; op_Key := "k"; op_Value := "v1";
     op_Metadata := {| meta_Version := 1; meta_CreatedAt := 100; meta_UpdatedAt := 100 |} |}.

Definition crash_prepare : journalRecord :=
  journalRecordFromPrepare {| dc_Operation := put_write; dc_Persisted := persistedReplica (record_of head_put);
                              dc_UpstreamConfirmedSequence := 0 |}.
Definition crash_range : journalRecord :=
  journalRecordFromHeadCommitRange (rr_assignment (record_of head_token)) 1.
Definition crash_journal : list journalRecord := [crash_prepare; crash_range].

Definition crash_store : list inMemoryCommitJournal := [{| mem_records := crash_journal |}].

Definition opened_head : replicaRecord :=
  ok_or emptyRecord (openReplica (persistedReplica (record_of head_crashed)) (Ok 0) (Ok 0)).

Lemma durable_extend slot version d d' :
  durable_reachable slot version d -> durable_step slot version d d' -> durable_reachable slot version d'.
Proof. intros (d0 & H0 & Hs) H12. exists d0. split; [done|]. by apply (rtc_r _ d). Qed.

Lemma do_prepared_eq c i op : sc_log c !! i = Some op ->
  do_prepared c i = after_rt c ((sc_rt c) <| own_record := prepareDurable (record_of c) op |>).
Proof. intros H. unfold do_prepared. by rw H. Qed.

Lemma crashed_reachable :
  durable_reachable 3 7 {| dn_config := head_crashed; dn_journal := crash_journal |}.
Proof.
  assert (head_durable = after_rt head_put
    ((sc_rt head_put) <| own_record := prepareDurable (record_of head_put) put_write |>)) as Hd.
  { apply do_prepared_eq. vm_compute. reflexivity. }
  apply (durable_extend 3 7 {| dn_config := head_token; dn_journal := crash_journal |});
    [|unfold head_crashed, do_commit; apply durable_range; vm_compute; discriminate].
  apply (durable_extend 3 7 {| dn_config := head_token; dn_journal := [crash_prepare] |});
    [|apply (durable_journal_range 3 7 head_token [crash_prepare] 1); vm_compute; discriminate].
  apply (durable_extend 3 7 {| dn_config := head_durable; dn_journal := [crash_prepare] |});
    [|apply durable_other; [apply slot_token|vm_compute; congruence..]].
  apply (durable_extend 3 7 {| dn_config := head_put; dn_journal := [crash_prepare] |});
    [|rw Hd; apply durable_prepared; vm_compute; reflexivity].
  apply (durable_extend 3 7 {| dn_config := head_put; dn_journal := [] |});
    [|apply (durable_journal_prepare 3 7 head_put [] put_write); [|reflexivity];
     apply (list_elem_of_lookup_2 _ 0); vm_compute; reflexivity].
  apply (durable_extend 3 7 {| dn_config := start_config head_assignment; dn_journal := [] |});
    [|apply durable_other; [apply do_put_step; vm_compute; reflexivity|vm_compute; congruence..]].
  eexists. split; [|apply rtc_refl]. split_and!; [|vm_compute; reflexivity..].
  apply (start_recovered [] 3 head_assignment); [|done]. constructor; [done|constructor].
Qed.

Definition recovered_value (key : string) : option string :=
  match recoverJournaledReplicaState crash_store {[3 := opened_head]} with
  | Ok (records', _, _, _) => r ← records' !! 3;
      match committedObject (in_backend (sc_base head_crashed)) r 3 key with
      | Ok o => obj_Value <$> o | Err _ => None end
  | Err _ => None
  end.

Lemma ztake_singleton {A} (x : A) h : [x] `prefix_of` ztake h [x] -> ztake h [x] = [x].
Proof.
  intros Hp. unfold ztake in *. destruct (Z.to_nat h) as [|n]; [by apply prefix_nil_inv in Hp|].
  cbn. by rw take_nil.
Qed.

Lemma committed_survives_crash_witness : recovered_value "k" = Some "v1".
Proof.
  destruct (committed_survives_crash 3 7 {| dn_config := head_crashed; dn_journal := crash_journal |} 0
    crash_store [crash_journal] {[3 := opened_head]} opened_head) as (rs & bl & hw & js & r' & h & Hr & Hl & Hh & Hp & Hk).
  - exact crashed_reachable.
  - vm_compute. reflexivity.
  - vm_compute. split; discriminate.
  - constructor; [reflexivity|constructor].
  - reflexivity.
  - vm_compute. reflexivity.
  - constructor; vm_compute; reflexivity.
  - vm_compute. reflexivity.
  - unfold recovered_value. rw Hr. cbn [mbind option_bind]. rw Hl. cbn [mbind option_bind]. rw Hk.
    cbn [dn_config] in Hp |- *.
    replace (committed_prefix (sc_log head_crashed) (sc_rt head_crashed)) with [put_write] in Hp by (vm_compute; reflexivity).
    replace (sc_log head_crashed) with [put_write] in Hp |- * by (vm_compute; reflexivity).
    apply ztake_singleton in Hp. rw Hp.
    vm_compute. reflexivity.
Defined.

Lemma restart_refines_witness :
  exists records' backlog highWater journals' r' h,
  recoverJournaledReplicaState crash_store {[3 := opened_head]} = Ok (records', backlog, highWater, journals') /\
  records' !! 3 = Some r' /\ 1 <= h <= 1 /\
  slot_reachable {| sc_log := ztake h [put_write]; sc_base := materialise (ztake 0 [put_write]);
    sc_rt := (resumeRecoveredReplica store_accepts (tail_says 1) "a" (fresh_owner 3 r') head_assignment).1 |}.
Proof.
  destruct (restart_refines crash_store [crash_journal] {[3 := opened_head]} 3 opened_head [put_write] 0)
    as (rs & bl & hw & js & r' & h & Hr & Hl & Hh & _ & Hk).
  - constructor; [reflexivity|constructor].
  - vm_compute. reflexivity.
  - constructor; vm_compute; reflexivity.
  - split; [|by repeat constructor]. intros [|i] op; [by intros [= <-]|done].
  - vm_compute. reflexivity.
  - vm_compute. split; discriminate.
  - split.
    + intros s op Hop _. destruct (decide (s = 1)) as [->|Hne]; [vm_compute in Hop; injection Hop as <-; reflexivity|].
      replace (relevant _ _ _) with ([] ++ [crash_prepare] ++ [crash_range]) in Hop by (vm_compute; reflexivity).
      assert ((1 =? s) = false) as He by (apply Z.eqb_neq; lia). rw app_assoc !journaled_operation_snoc in Hop.
      change (jr_Sequence crash_prepare) with 1 in Hop. change (jr_Sequence crash_range) with 1 in Hop.
      rw He !andb_false_r in Hop. discriminate Hop.
    + intros s [Hs1 Hs2]. replace (journaled_commit _) with 1 in Hs2 by (vm_compute; reflexivity).
      assert (s = 1) as -> by lia. vm_compute. eauto.
  - assert (1 <= h <= 1) as Hh'.
    { clear -Hh. vm_compute in Hh. destruct Hh as [Hh1 Hh2]. split; [exact Hh1|exact Hh2]. }
    exists rs, bl, hw, js, r', h. split_and!; [exact Hr|exact Hl|lia|lia|]. apply Hk.
    replace h with 1 by lia. clear -Hr Hl. vm_compute in Hr. injection Hr as <- _ _ _.
    vm_compute in Hl. injection Hl as <-. vm_compute. reflexivity.
Defined.

(** ** What a restart does not bring back *)
(** The value of a key in a slot opened again over an empty backend. *)
Definition reopened (assignment : ReplicaAssignment) (journal : list journalRecord) : option replicaRecord :=
  let opened := ok_or emptyRecord (openReplica
    (persistedReplica ((record_of head_crashed) <| rr_assignment := assignment |>)) (Ok 0) (Ok 0)) in
  match recoverJournaledReplicaState [{| mem_records := journal |}] {[3 := opened]} with
  | Ok (records', _, _, _) => records' !! 3
  | Err _ => None
  end.

Definition value_at (r : replicaRecord) (key : string) : option string :=
  match committedObject (in_backend ∅) r 3 key with Ok o => obj_Value <$> o | Err _ => None end.

(** The head became the only replica of its chain, under the next version,
    before the materialiser reached its committed write. *)
Definition head_moved : slotRuntime :=
  (updateChainPeers store_accepts 16 1 (sc_rt head_crashed) alone).1.1.

(** The commit as the materialiser holds it, and the backend it is for. *)
Definition moved_backlog : commitMaterializer :=
  newCommitMaterializer (materialization_commits (sc_rt head_crashed) 1).
Definition new_replica : InMemoryBackend := ok_or NewInMemoryBackend (CreateReplica NewInMemoryBackend 3).

(** Finding: a change of the chain's version cuts committed writes off from
    the backend and from recovery.  A head commits a write and, before the
    materialiser flushes, is left the only replica of its chain under the next
    version: the flush drops the commit, made under the old version, and reports
    success.  If the node then stops before the slot commits again, the journal
    holds the write and the record of its commit under the old version only, the
    replay skips both, and the replica, which is the chain's only one and is
    resumed as it is, comes back with nothing committed. *)
Theorem version_change_drops_committed :
  value_at (own_record head_moved) "k" = Some "v1" /\
  rr_highestCommittedSequence (own_record head_moved) = 1 /\
  flush {[3 := alone]} new_replica moved_backlog =
    (new_replica, {| mt_pending := []; mt_suppressedSlots := ∅; mt_timer := false |}, ∅, true) /\
  (r ← reopened head_assignment crash_journal; value_at r "k") = Some "v1" /\
  (reopened (rr_assignment (own_record head_moved)) crash_journal ≫=
    fun r => let resumed := own_record (resumeRecoveredReplica store_accepts (tail_says 0) "a"
                              (fresh_owner 3 r) alone).1 in
             Some (rr_highestCommittedSequence resumed, value_at resumed "k")) = Some (0, None).
Proof. vm_compute. split_and!; reflexivity. Qed.

(** A replica whose journal has a durable write and no record of its commit, as
    below the head, resumed while the tail has committed the write. *)
Definition resumed_replica : slotRuntime :=
  (resumeRecoveredReplica store_accepts (tail_says 1) "a"
     (fresh_owner 3 (default emptyRecord (reopened head_assignment [crash_prepare]))) head_assignment).1.

(** Finding: resuming raises the committed sequence past what the slot
    serves.  The resumed replica counts the write as committed, as its tail
    does, but neither its overlay nor its backend has it and nothing is handed
    to the materialiser: a linearizable read, which trusts the committed
    sequence, answers that the key does not exist, and committing that sequence
    again changes nothing.  Only the commit of a later write makes the slot
    materialise this one.  (The coordinator resumes tails and single replicas
    only, for which the journal's replay has already committed what is durable;
    the node accepts the command for every role.) *)
Theorem resume_skips_overlay :
  own_exists resumed_replica = true /\ rr_state (own_record resumed_replica) = StateActive /\
  rr_highestCommittedSequence (own_record resumed_replica) = 1 /\
  rr_preparedEntries (own_record resumed_replica) !! 1 = Some put_write /\
  (read_Found <$> match handleClientGet (in_backend ∅) (tail_says 1) resumed_replica get_k with
                  | Ok result => Some result | Err _ => None end) = Some false /\
  forall limit, applyCommitWatermark limit resumed_replica 1 = resumed_replica.
Proof. split_and!; [vm_compute; reflexivity..|]. intros limit. vm_compute. reflexivity. Qed.
