(* ===== verification/JournalShardTheorems.v ===== *)
(** * The journal shards: every intent is answered once, in order

    Invariants of the queues, what a batch takes out of them, and the claims:
    an intent is answered exactly once, prepares of a slot are journalled and
    answered in the order of their submission, and an answer without error
    means that the journal holds a record that covers the intent. *)

From S2P Require Import Prelude.
From S2P Require Import StorageTypes.
From S2P Require Import SlotReducer.
From S2P Require Import SlotOwner.
From S2P Require Import SlotLifecycle.
From S2P Require Import SlotProps.
From S2P Require Import SlotTheorems.
From S2P Require Import SlotFailover.
From S2P Require Import Journal.
From S2P Require Import JournalShard.
From S2P Require Import Backend.
From S2P Require Import Materializer.
From S2P Require Import Recovery.
From S2P Require Import RecoveryTheorems.

Open Scope Z_scope.
Open Scope record_scope.

(** ** Lists *)
Lemma concat_fmap_ext {A B} (f g : A -> list B) l : (forall x, x ∈ l -> f x = g x) -> concat (f <$> l) = concat (g <$> l).
Proof. intros Hfg. f_equal. apply list_fmap_ext. intros i x Hx. apply Hfg. by apply list_elem_of_lookup_2 with i. Qed.

Lemma filter_concat_fmap {A B} (p : B -> bool) (f : A -> list B) l :
  List.filter p (concat (f <$> l)) = concat ((fun x => List.filter p (f x)) <$> l).
Proof. induction l as [|x l IH]; [done|]. cbn. by rw List.filter_app IH. Qed.

Lemma concat_fmap_nil {A B} (f : A -> list B) l : (forall x, x ∈ l -> f x = []) -> concat (f <$> l) = [].
Proof.
  induction l as [|x l IH]; intros Hf; [done|]. cbn. rw Hf; [apply list_elem_of_here|].
  apply IH. intros y Hy. apply Hf. by constructor.
Qed.

(** ** Prepares *)
Definition queue_of (m : gmap Z (list journalPrepareIntent)) (slot : Z) : list journalPrepareIntent :=
  default [] (m !! slot).

Definition all_queued (m : gmap Z (list journalPrepareIntent)) (order : list Z) : list journalPrepareIntent :=
  concat (queue_of m <$> order).

Definition of_slot (slot : Z) (l : list journalPrepareIntent) : list journalPrepareIntent :=
  List.filter (fun i => prepare_slot i =? slot) l.

(** The slots in order are those with a queue, each once, and the queues hold
    intents of their slot. *)
Record queues_ok (m : gmap Z (list journalPrepareIntent)) (order : list Z) : Prop := {
  qo_nodup : NoDup order;
  qo_order : forall slot, slot ∈ order <-> queue_of m slot <> [];
  qo_slots : forall slot i, i ∈ queue_of m slot -> prepare_slot i = slot;
}.

Record prepares_ok (q : prepare_queue) : Prop := {
  po_queues : queues_ok (pendingPrepareMap q) (pendingPrepareSeq q);
  po_count : pendingPrepareN q = Z.of_nat (length (all_queued (pendingPrepareMap q) (pendingPrepareSeq q)));
}.

Lemma queue_of_insert m slot l slot' :
  queue_of (<[slot := l]> m) slot' = if bool_decide (slot' = slot) then l else queue_of m slot'.
Proof.
  unfold queue_of. case_bool_decide as Hs; [subst; by rw lookup_insert_eq|rw lookup_insert_ne; [congruence|done]].
Qed.

Lemma queue_of_delete m slot slot' :
  queue_of (delete slot m) slot' = if bool_decide (slot' = slot) then [] else queue_of m slot'.
Proof.
  unfold queue_of. case_bool_decide as Hs; [subst; by rw lookup_delete_eq|rw lookup_delete_ne; [congruence|done]].
Qed.

Lemma all_queued_app m l1 l2 : all_queued m (l1 ++ l2) = all_queued m l1 ++ all_queued m l2.
Proof. unfold all_queued. by rw fmap_app concat_app. Qed.

(** Only the queue of one slot differs. *)
Lemma all_queued_same m m' order slot :
  (forall s, s <> slot -> queue_of m' s = queue_of m s) -> slot ∉ order -> all_queued m' order = all_queued m order.
Proof. intros Hm Hs. apply concat_fmap_ext. intros s Hin. apply Hm. by intros ->. Qed.

Lemma of_slot_all m order slot : queues_ok m order -> of_slot slot (all_queued m order) = queue_of m slot.
Proof.
  intros [Hnd Ho Hs]. unfold of_slot, all_queued. rw filter_concat_fmap.
  assert (forall s, List.filter (fun i => prepare_slot i =? slot) (queue_of m s) = if bool_decide (s = slot) then queue_of m s else []) as Hf.
  { intros s. pose proof (Hs s) as Hs'. induction (queue_of m s) as [|i l IH]; [by case_bool_decide|]. cbn.
    rw (Hs' i); [apply list_elem_of_here|]. rw IH; [intros; apply Hs'; by constructor|].
    case_bool_decide as Heq; [subst; by rw Z.eqb_refl|]. by destruct (Z.eqb_spec s slot). }
  rw (concat_fmap_ext _ _ _ (fun s _ => Hf s)).
  destruct (decide (slot ∈ order)) as [Hin|Hout].
  - clear Hf Ho Hs. apply list_elem_of_split in Hin as (l1 & l2 & ->). apply NoDup_app in Hnd as (_ & Hn1 & Hn2).
    apply NoDup_cons in Hn2 as [Hn2 _].
    assert (forall l, slot ∉ l -> concat ((fun s => if bool_decide (s = slot) then queue_of m s else []) <$> l) = []) as Hz.
    { intros l Hl. apply concat_fmap_nil. intros s Hsl. rw bool_decide_eq_false_2 //. by intros ->. }
    rw fmap_app concat_app fmap_cons. cbn. rw (Hz l1); [intros Hl1; apply (Hn1 _ Hl1), list_elem_of_here|].
    rw (Hz l2) //. rw bool_decide_eq_true_2 // app_nil_r //.
  - assert (queue_of m slot = []) as ->.
    { destruct (queue_of m slot) eqn:E; [done|]. destruct Hout. apply Ho. by rw E. }
    apply concat_fmap_nil. intros s Hin.
    rw bool_decide_eq_false_2 //. by intros ->.
Qed.

Lemma of_slot_app slot l1 l2 : of_slot slot (l1 ++ l2) = of_slot slot l1 ++ of_slot slot l2.
Proof. apply List.filter_app. Qed.

(** The queue of one slot set to [queue], and the slot kept in the order only
    if something is left in it. *)
Lemma queues_ok_set m m' order1 slot order2 queue :
  queues_ok m (order1 ++ slot :: order2) -> (forall i, i ∈ queue -> prepare_slot i = slot) ->
  (forall s, queue_of m' s = if bool_decide (s = slot) then queue else queue_of m s) ->
  queues_ok m' (order1 ++ (match queue with [] => [] | _ => [slot] end) ++ order2).
Proof.
  intros [Hnd Ho Hs] Hq Hm.
  assert (slot ∉ order1 ++ order2) as Hout.
  { rw (Permutation_app_comm order1) in Hnd. cbn in Hnd. apply NoDup_cons in Hnd as [Hn _]. by rw (Permutation_app_comm order1). }
  assert (forall s, s ∈ order1 ++ slot :: order2 <-> s = slot \/ s ∈ order1 ++ order2) as Hel by (intros; set_solver).
  split.
  - destruct queue; [|done]. cbn. rw (Permutation_app_comm order1) in Hnd. apply NoDup_cons in Hnd as [_ Hnd].
    by rw (Permutation_app_comm order1).
  - intros s. rw Hm. specialize (Ho s). rw Hel in Ho. case_bool_decide as Heq.
    + subst s. destruct queue; cbn; [by split|]. split; [done|]. set_solver.
    + rw -Ho. destruct queue; set_solver.
  - intros s i. rw Hm. case_bool_decide; [subst; auto|apply Hs].
Qed.

Lemma all_queued_set m m' order1 slot order2 queue :
  NoDup (order1 ++ slot :: order2) ->
  (forall s, queue_of m' s = if bool_decide (s = slot) then queue else queue_of m s) ->
  all_queued m' (order1 ++ (match queue with [] => [] | _ => [slot] end) ++ order2)
  = all_queued m order1 ++ queue ++ all_queued m order2.
Proof.
  intros Hnd Hm. apply NoDup_app in Hnd as (_ & Hn1 & Hn2). apply NoDup_cons in Hn2 as [Hn2 _].
  rw !all_queued_app. rw (all_queued_same m m' order1 slot).
  - intros s Hs. rw Hm bool_decide_eq_false_2 //.
  - intros Hin. apply (Hn1 _ Hin), list_elem_of_here.
  - f_equal. rw (all_queued_same m m' order2 slot) //; [intros s Hs; rw Hm bool_decide_eq_false_2 //|]. f_equal.
    destruct queue; [done|]. unfold all_queued. cbn. rw Hm bool_decide_eq_true_2 // app_nil_r //.
Qed.

Lemma enqueue_prepares_ok intent q : prepares_ok q -> prepares_ok (enqueuePendingPrepare intent q) /\
  all_queued (pendingPrepareMap (enqueuePendingPrepare intent q)) (pendingPrepareSeq (enqueuePendingPrepare intent q))
  ≡ₚ all_queued (pendingPrepareMap q) (pendingPrepareSeq q) ++ [intent] /\
  forall slot, queue_of (pendingPrepareMap (enqueuePendingPrepare intent q)) slot
    = queue_of (pendingPrepareMap q) slot ++ of_slot slot [intent].
Proof.
  intros [Hq Hc]. unfold enqueuePendingPrepare. cbn [pendingPrepareMap pendingPrepareSeq].
  fold (queue_of (pendingPrepareMap q) (prepare_slot intent)).
  set (m := pendingPrepareMap q) in *. set (slot := prepare_slot intent). set (order := pendingPrepareSeq q) in *.
  set (m' := <[slot := queue_of m slot ++ [intent]]> m).
  pose proof (queue_of_insert m slot (queue_of m slot ++ [intent])) as Hm. fold m' in Hm.
  assert (forall i, i ∈ queue_of m slot ++ [intent] -> prepare_slot i = slot) as Hi.
  { intros i [Hi|Hi%list_elem_of_singleton]%elem_of_app; [by apply (qo_slots _ _ Hq)|by subst]. }
  set (order' := match queue_of m slot with [] => order ++ [slot] | _ => order end).
  assert (exists order1 order2, order' = order1 ++ slot :: order2 /\ queues_ok m' order' /\
    all_queued m' order' ≡ₚ all_queued m order ++ [intent]) as (_ & _ & _ & Hok & Hp).
  { unfold order'. destruct (queue_of m slot) as [|i l] eqn:E.
    - assert (slot ∉ order) as Hout by (rw (qo_order _ _ Hq); by rw E).
      exists order, []. split; [done|]. split.
      + split.
        * apply NoDup_app. split; [apply Hq|]. split; [set_solver|apply NoDup_singleton].
        * intros s. rw Hm elem_of_app list_elem_of_singleton (qo_order _ _ Hq). case_bool_decide; [|tauto].
          split; [done|by right].
        * intros s j. rw Hm. case_bool_decide; [subst; apply Hi|apply (qo_slots _ _ Hq)].
      + rw all_queued_app (all_queued_same m m' order slot) //; [intros s Hs; rw Hm bool_decide_eq_false_2 //|].
        unfold all_queued. cbn. rw Hm bool_decide_eq_true_2 //.
    - assert (slot ∈ order) as Hin by (rw (qo_order _ _ Hq); by rw E).
      apply list_elem_of_split in Hin as (o1 & o2 & Ho). exists o1, o2. split; [done|]. rw Ho in Hq |- *.
      split; [exact (queues_ok_set m m' o1 slot o2 _ Hq Hi Hm)|].
      pose proof (all_queued_set m m' o1 slot o2 _ (qo_nodup _ _ Hq) Hm) as Ha. cbn [app] in Ha. rw Ha.
      rw all_queued_app. unfold all_queued at 4. cbn. rw E. rw -!app_assoc. cbn. solve_Permutation. }
  split; [split; cbn; [exact Hok|]|split; [exact Hp|]].
  - change (pendingPrepareN q + 1 = Z.of_nat (length (all_queued m' order'))). rw Hp length_app Hc. cbn [length]. lia.
  - intros s. rw Hm. unfold of_slot. cbn. fold slot. case_bool_decide as Heq.
    + subst s. by rw Z.eqb_refl.
    + destruct (Z.eqb_spec slot s); [congruence|]. by rw app_nil_r.
Qed.

(** A batch being taken from the queues [m] with the slots [order]. *)
Record batch_ok (m : gmap Z (list journalPrepareIntent)) (order : list Z) (b : prepare_batch) (rest_order : list Z) : Prop := {
  bo_queues : queues_ok (pb_map b) rest_order;
  bo_count : pb_N b = Z.of_nat (length (all_queued (pb_map b) rest_order));
  bo_fifo : forall slot, queue_of m slot = of_slot slot (pb_items b) ++ queue_of (pb_map b) slot;
  bo_perm : all_queued m order ≡ₚ pb_items b ++ all_queued (pb_map b) rest_order;
}.

Definition with_intent (b : prepare_batch) (slot : Z) (intent : journalPrepareIntent) (queue : list journalPrepareIntent)
    : prepare_batch :=
  {| pb_map := match queue with [] => delete slot (pb_map b) | _ => <[slot := queue]> (pb_map b) end;
     pb_N := pb_N b - 1; pb_bytes := pb_bytes b - estimatedCommitBytes (pi_prepare intent);
     pb_items := pb_items b ++ [intent];
     pb_batchBytes := pb_batchBytes b + estimatedCommitBytes (pi_prepare intent) |}.

Lemma with_intent_queue b slot intent queue s :
  queue_of (pb_map (with_intent b slot intent queue)) s = if bool_decide (s = slot) then queue else queue_of (pb_map b) s.
Proof. cbn. destruct queue; [apply queue_of_delete|apply queue_of_insert]. Qed.

Lemma batch_ok_step m order b next slot rest intent queue :
  batch_ok m order b (next ++ slot :: rest) -> queue_of (pb_map b) slot = intent :: queue ->
  batch_ok m order (with_intent b slot intent queue) (next ++ (match queue with [] => [] | _ => [slot] end) ++ rest).
Proof.
  intros [Hq Hc Hf Hp] E.
  assert (prepare_slot intent = slot) as Hi by (apply (qo_slots _ _ Hq); rw E; apply list_elem_of_here).
  assert (all_queued (pb_map b) (next ++ slot :: rest)
    = all_queued (pb_map b) next ++ intent :: queue ++ all_queued (pb_map b) rest) as Ha.
  { rw all_queued_app. f_equal. unfold all_queued. cbn. by rw E. }
  pose proof (all_queued_set _ _ next slot rest queue (qo_nodup _ _ Hq) (with_intent_queue b slot intent queue)) as Hw.
  split.
  - apply (queues_ok_set (pb_map b)); [done| |apply with_intent_queue].
    intros i Hin. apply (qo_slots _ _ Hq). rw E. by constructor.
  - cbn [pb_N with_intent]. rw Hw Hc Ha !length_app. cbn [length]. rw length_app. lia.
  - intros s. rw Hf with_intent_queue. cbn [pb_items with_intent]. rw of_slot_app. case_bool_decide as Hs.
    + subst s. unfold of_slot at 3. cbn. rw Hi Z.eqb_refl E. by rw -app_assoc.
    + unfold of_slot at 3. cbn. destruct (Z.eqb_spec (prepare_slot intent) s); [congruence|]. by rw app_nil_r.
  - cbn [pb_items with_intent]. rw Hp Hw Ha. solve_Permutation.
Qed.

Lemma pop_round_ok m order batchMaxOps todo : forall next progress b,
  batch_ok m order b (next ++ todo) ->
  match pop_round batchMaxOps todo next progress b with
  | (b', rest_order, progress', full) => batch_ok m order b' rest_order /\ pb_items b `prefix_of` pb_items b' /\
      (progress' = true -> progress = true \/ pb_count b < pb_count b') /\
      (progress = true -> progress' = true) /\ (full = false -> progress' = false -> todo = [])
  end.
Proof.
  induction todo as [|slot rest IH]; intros next progress b Hb; cbn [pop_round].
  { rw app_nil_r in Hb. split_and!; auto. }
  fold (queue_of (pb_map b) slot). destruct (queue_of (pb_map b) slot) as [|intent queue] eqn:E.
  { assert (queue_of (pb_map b) slot <> []) as []; [|done]. apply (qo_order _ _ (bo_queues _ _ _ _ Hb)). set_solver. }
  destruct (_ && _); [split_and!; auto; done|]. cbv zeta. fold (with_intent b slot intent queue).
  pose proof (batch_ok_step m order b next slot rest intent queue Hb E) as Hs.
  assert (pb_items b `prefix_of` pb_items (with_intent b slot intent queue)) as Hpre by (by exists [intent]).
  assert (pb_count b < pb_count (with_intent b slot intent queue)) as Hlt by (unfold pb_count; cbn; rw length_app; cbn; lia).
  destruct (_ || _).
  { split_and!; auto; [|done]. destruct queue; [done|]. by rw -app_assoc. }
  assert (batch_ok m order (with_intent b slot intent queue) (match queue with [] => next | _ => next ++ [slot] end ++ rest)) as Hs'.
  { destruct queue; [done|]. by rw -app_assoc. }
  specialize (IH _ true _ Hs'). destruct (pop_round _ _ _ _ _) as [[[b' rest_order] progress'] full].
  destruct IH as (Hb' & Hpre' & Hpr & Hkeep & Hfull). rw Hkeep //. split_and!; [done|exact (transitivity Hpre Hpre')| |done|done].
  intros _. right. destruct Hpre' as [more Hmore]. unfold pb_count in *. rw Hmore length_app. lia.
Qed.

Lemma pop_rounds_ok m order batchMaxOps fuel : forall b todo,
  batch_ok m order b todo ->
  match pop_rounds fuel batchMaxOps todo b with
  | (b', rest_order) => batch_ok m order b' rest_order /\ pb_items b `prefix_of` pb_items b'
  end.
Proof.
  induction fuel as [|fuel IH]; intros b todo Hb; cbn [pop_rounds]; [done|].
  destruct (_ && _ && _); [|done]. pose proof (pop_round_ok m order batchMaxOps todo [] false b Hb) as Hr.
  destruct (pop_round _ _ _ _ _) as [[[b' rest_order] progress] full]. destruct Hr as (Hb' & Hpre & _).
  destruct (_ || _); [done|]. specialize (IH b' rest_order Hb'). destruct (pop_rounds _ _ _ _) as [b'' rest_order'].
  destruct IH as [Hb'' Hpre']. split; [done|exact (transitivity Hpre Hpre')].
Qed.

(** A round that is not the last one takes an intent, so the rounds end and more
    fuel changes nothing. *)
Lemma batch_count m order b rest_order : batch_ok m order b rest_order ->
  pb_count b + pb_N b = Z.of_nat (length (all_queued m order)).
Proof. intros Hb. rw (bo_perm _ _ _ _ Hb) length_app (bo_count _ _ _ _ Hb). unfold pb_count. lia. Qed.

Lemma pop_rounds_fuel m order batchMaxOps fuel : forall more b todo,
  batch_ok m order b todo -> pb_N b < Z.of_nat fuel ->
  pop_rounds (fuel + more) batchMaxOps todo b = pop_rounds fuel batchMaxOps todo b.
Proof.
  induction fuel as [|fuel IH]; intros more b todo Hb Hf.
  { pose proof (bo_count _ _ _ _ Hb). lia. }
  cbn [pop_rounds Nat.add]. destruct (_ && _ && _); [|done].
  pose proof (pop_round_ok m order batchMaxOps todo [] false b Hb) as Hr.
  destruct (pop_round _ _ _ _ _) as [[[b' rest_order] progress] full]. destruct Hr as (Hb' & _ & Hpr & _).
  destruct full; [done|]. destruct progress; [|done]. cbn. apply IH; [done|].
  destruct (Hpr eq_refl) as [|Hlt]; [done|].
  pose proof (batch_count _ _ _ _ Hb). pose proof (batch_count _ _ _ _ Hb'). lia.
Qed.

(** The first slot in order gives the first intent of the batch. *)
Lemma pop_round_first batchMaxOps slot todo b intent queue :
  pb_items b = [] -> queue_of (pb_map b) slot = intent :: queue ->
  match pop_round batchMaxOps (slot :: todo) [] false b with
  | (b', _, _, _) => exists items, pb_items b' = intent :: items
  end.
Proof.
  intros Hi E. cbn [pop_round]. fold (queue_of (pb_map b) slot). rw E. unfold pb_count at 1. rw Hi. cbn [length].
  change (0 <? Z.of_nat 0) with false. cbn [andb]. cbv zeta.
  assert (forall todo next progress b', (exists items, pb_items b' = intent :: items) ->
    match pop_round batchMaxOps todo next progress b' with
    | (b'', _, _, _) => exists items, pb_items b'' = intent :: items end) as Hmore.
  { clear. induction todo as [|slot todo IH]; intros next progress b [items Hb]; cbn [pop_round]; [by exists items|].
    destruct (default _ _) as [|i q]; [apply IH; by exists items|].
    destruct (_ && _); [by exists items|]. cbv zeta. destruct (_ || _); [|apply IH]; cbn; rw Hb; by eexists. }
  destruct (_ || _); [by exists []|]. apply Hmore. by exists [].
Qed.

(** What a batch takes is the front of each queue, in order. *)
Lemma popPrepareBatch_ok batchMaxOps q : prepares_ok q ->
  match popPrepareBatch batchMaxOps q with
  | (items, _, q') => prepares_ok q' /\
      all_queued (pendingPrepareMap q) (pendingPrepareSeq q)
        ≡ₚ items ++ all_queued (pendingPrepareMap q') (pendingPrepareSeq q') /\
      (forall slot, queue_of (pendingPrepareMap q) slot = of_slot slot items ++ queue_of (pendingPrepareMap q') slot) /\
      (0 < batchMaxOps -> pendingPrepareN q <> 0 -> items <> [])
  end.
Proof.
  intros [Hq Hc]. unfold popPrepareBatch. destruct (_ || _) eqn:E.
  { split_and!; [done|done|done|]. intros _ Hn. apply orb_true_iff in E as [E|E]; [by apply Z.eqb_eq in E|].
    apply bool_decide_eq_true in E. rw E in Hc. done. }
  set (b := {| pb_map := _ |}).
  assert (batch_ok (pendingPrepareMap q) (pendingPrepareSeq q) b (pendingPrepareSeq q)) as Hb by (by split).
  pose proof (pop_rounds_ok _ _ batchMaxOps (S (Z.to_nat (pendingPrepareN q))) b _ Hb) as Hp.
  destruct (pop_rounds _ _ _ _) as [b' order'] eqn:Er. destruct Hp as [Hb' _].
  split_and!; [by split; apply Hb'|apply Hb'|apply Hb'|]. intros Hm Hn. cbn [pop_rounds] in Er.
  apply orb_false_iff in E as [_ E]. rw E in Er. change (pb_count b) with 0 in Er. change (pb_batchBytes b) with 0 in Er.
  rw (proj2 (Z.ltb_lt 0 batchMaxOps)) // in Er. change (0 <? defaultJournalBatchMaxBytes) with true in Er. cbn [negb andb] in Er.
  destruct (pendingPrepareSeq q) as [|slot todo] eqn:Eseq; [done|].
  destruct (queue_of (pb_map b) slot) as [|intent queue] eqn:Eq.
  { exfalso. apply (proj1 (qo_order _ _ Hq slot)); [apply list_elem_of_here|done]. }
  pose proof (pop_round_ok _ _ batchMaxOps _ [] false b Hb) as Hr.
  pose proof (pop_round_first batchMaxOps slot todo b intent queue eq_refl Eq) as Hfirst.
  destruct (pop_round _ _ _ _ _) as [[[b1 order1] progress] full]. destruct Hfirst as [items Hitems].
  destruct (_ || _).
  - injection Er as <- <-. by rw Hitems.
  - pose proof (pop_rounds_ok _ _ batchMaxOps (Z.to_nat (pendingPrepareN q)) b1 _ (proj1 Hr)) as Hp.
    rw Er in Hp. destruct Hp as [_ [more ->]]. by rw Hitems.
Qed.

(** ** Progress records *)
Section progress.
Context {K : Type} `{Countable K} (names : K -> ReplicaAssignment -> Prop) (wrap : K -> progressIntent -> shard_intent).

(** An entry is the newest of its intents, all of which its key names. *)
Record entry_ok (key : K) (entry : pendingProgress) : Prop := {
  eo_intents : forall i, i ∈ pp_intents entry -> names key (gi_assignment i) /\ gi_sequence i <= pp_sequence entry;
  eo_newest : exists i, i ∈ pp_intents entry /\ gi_assignment i = pp_assignment entry /\ gi_sequence i = pp_sequence entry;
}.

Record queue_ok (q : progress_queue K) : Prop := {
  co_nodup : NoDup (pq_order q);
  co_order : forall key, key ∈ pq_order q <-> is_Some (pq_entries q !! key);
  co_entries : forall key entry, pq_entries q !! key = Some entry -> entry_ok key entry;
}.

Definition entry_intents (taken : K * pendingProgress) : list shard_intent := wrap taken.1 <$> pp_intents taken.2.

Definition key_intents (entries : gmap K pendingProgress) (key : K) : list shard_intent :=
  match entries !! key with None => [] | Some entry => wrap key <$> pp_intents entry end.

Lemma queue_intents_eq q : queue_intents wrap q = concat (key_intents (pq_entries q) <$> pq_order q).
Proof. done. Qed.

Lemma empty_queue_ok : queue_ok empty_queue.
Proof. split; cbn; [constructor|intros; rw lookup_empty|intros ??; by rw lookup_empty]. split; [by intros ?%elem_of_nil|by intros []]. Qed.

(** The order with one key more or less. *)
Lemma key_intents_same (entries entries' : gmap K pendingProgress) order :
  (forall k, k ∈ order -> entries' !! k = entries !! k) ->
  concat (key_intents entries' <$> order) = concat (key_intents entries <$> order).
Proof. intros He. apply concat_fmap_ext. intros k Hk. unfold key_intents. by rw He. Qed.

Lemma elem_of_middle {A} (x y : A) l1 l2 : x ∈ l1 ++ y :: l2 <-> x = y \/ x ∈ l1 ++ l2.
Proof. rw !elem_of_app elem_of_cons. tauto. Qed.

Lemma NoDup_middle {A} (x : A) l1 l2 : NoDup (l1 ++ x :: l2) <-> (x ∉ l1 ++ l2) /\ NoDup (l1 ++ l2).
Proof. by rw -NoDup_cons Permutation_middle. Qed.

Lemma enqueue_queue_ok key intent q :
  queue_ok q -> names key (gi_assignment intent) -> queue_ok (enqueuePending key intent q) /\
  queue_intents wrap (enqueuePending key intent q) ≡ₚ queue_intents wrap q ++ [wrap key intent].
Proof.
  intros [Hnd Ho He] Hn. unfold enqueuePending. destruct (pq_entries q !! key) as [entry|] eqn:E.
  - assert (key ∈ pq_order q) as Hin by (apply Ho; by exists entry).
    apply list_elem_of_split in Hin as (o1 & o2 & Hord). split.
    + split; cbn; [done| |].
      * intros k. rw Ho. destruct (decide (k = key)) as [->|]; [by rw lookup_insert_eq E; split; eauto|].
        rw lookup_insert_ne; [congruence|done].
      * intros k e Hk. apply lookup_insert_Some in Hk as [[-> <-]|[_ Hk]]; [|by apply He].
        destruct (He _ _ E) as [Hall (i & Hi & Ha & Hs)]. split; cbn.
        -- intros j [Hj|Hj%list_elem_of_singleton]%elem_of_app.
           ++ destruct (Hall j Hj). split; [done|]. destruct (Z.ltb_spec (pp_sequence entry) (gi_sequence intent)); lia.
           ++ subst j. split; [done|]. destruct (Z.ltb_spec (pp_sequence entry) (gi_sequence intent)); lia.
        -- destruct (_ <? _); [exists intent; set_solver|exists i; set_solver].
    + rw !queue_intents_eq. cbn [pq_entries pq_order]. rw Hord in Hnd |- *. apply NoDup_middle in Hnd as [Hout _].
      apply not_elem_of_app in Hout as [Hn1 Hn2].
      rw !fmap_app !concat_app !fmap_cons. cbn [concat]. rw !(key_intents_same (pq_entries q)).
      1, 2: by intros k Hk; rw lookup_insert_ne; [intros ->|].
      unfold key_intents at 2 5. rw lookup_insert_eq E. cbn. rw fmap_app. cbn. solve_Permutation.
  - assert (key ∉ pq_order q) as Hout by (rw Ho E; by intros []). split.
    + split; cbn.
      * apply NoDup_app. split; [done|]. split; [set_solver|apply NoDup_singleton].
      * intros k. rw elem_of_app list_elem_of_singleton Ho. destruct (decide (k = key)) as [->|].
        -- rw lookup_insert_eq. split; [by eexists|by right].
        -- rw lookup_insert_ne; [congruence|]. tauto.
      * intros k e Hk. apply lookup_insert_Some in Hk as [[-> <-]|[_ Hk]]; [|by apply He].
        split; cbn; [intros i ->%list_elem_of_singleton; split; [done|lia]|]. exists intent. set_solver.
    + rw !queue_intents_eq. cbn [pq_entries pq_order]. rw fmap_app concat_app (key_intents_same (pq_entries q)).
      { intros k Hk. rw lookup_insert_ne; [by intros ->|done]. }
      f_equiv. cbn. unfold key_intents. by rw lookup_insert_eq.
Qed.

(** What is left when an entry has been taken. *)
Lemma queue_ok_take entries o1 key o2 entry :
  queue_ok (Build_progress_queue entries (o1 ++ key :: o2)) -> entries !! key = Some entry ->
  entry_ok key entry /\ queue_ok (Build_progress_queue (delete key entries) (o1 ++ o2)) /\
  concat (key_intents entries <$> o1 ++ key :: o2)
    ≡ₚ entry_intents (key, entry) ++ concat (key_intents (delete key entries) <$> o1 ++ o2).
Proof.
  intros [Hnd Ho He] E. cbn in *. apply NoDup_middle in Hnd as [Hout Hnd].
  split; [by apply He|]. split; [split; cbn; [done| |]|].
  - intros k. specialize (Ho k). rw elem_of_middle in Ho. destruct (decide (k = key)) as [->|].
    + rw lookup_delete_eq. split; [done|by intros []].
    + rw lookup_delete_ne; [congruence|]. rw -Ho. tauto.
  - intros k e Hk. apply lookup_delete_Some in Hk as [_ Hk]. by apply He.
  - rw (key_intents_same entries (delete key entries)).
    { intros k Hk. rw lookup_delete_ne; [by intros ->|done]. }
    rw !fmap_app !concat_app fmap_cons. cbn [concat]. unfold key_intents at 2, entry_intents. rw E. cbn. solve_Permutation.
Qed.

(** [items] and [q'] together are the queue [entries] in [order], on top of what
    had been taken before. *)
Definition takes (order : list K) (entries : gmap K pendingProgress) (before : list (K * pendingProgress))
    (result : list (K * pendingProgress) * progress_queue K) : Prop :=
  exists items, result.1 = before ++ items /\ queue_ok result.2 /\ Forall (fun t => entry_ok t.1 t.2) items /\
  concat (key_intents entries <$> order) ≡ₚ concat (entry_intents <$> items) ++ queue_intents wrap result.2.

Lemma takes_nothing order entries before :
  queue_ok (Build_progress_queue entries order) -> takes order entries before (before, Build_progress_queue entries order).
Proof. intros Hq. exists []. cbn. by rw app_nil_r. Qed.

Lemma takes_one o1 key o2 entries before entry result :
  queue_ok (Build_progress_queue entries (o1 ++ key :: o2)) -> entries !! key = Some entry ->
  (queue_ok (Build_progress_queue (delete key entries) (o1 ++ o2)) ->
    takes (o1 ++ o2) (delete key entries) (before ++ [(key, entry)]) result) ->
  takes (o1 ++ key :: o2) entries before result.
Proof.
  intros Hq E Hk. destruct (queue_ok_take _ _ _ _ _ Hq E) as (He & Hq' & Hp).
  destruct (Hk Hq') as (items & Hr & Hok & Hall & Hp'). exists ((key, entry) :: items).
  split; [by rw Hr -app_assoc|]. split; [done|]. split; [by constructor|]. cbn. rw Hp Hp' app_assoc //.
Qed.

Lemma pop_entries_takes remainingOps remainingBytes order : forall entries before,
  queue_ok (Build_progress_queue entries order) ->
  takes order entries before (pop_entries remainingOps remainingBytes order entries before).
Proof.
  induction order as [|key rest IH]; intros entries before Hq; cbn [pop_entries]; [by apply takes_nothing|].
  destruct (entries !! key) as [entry|] eqn:E.
  - destruct (_ && _); [by apply takes_nothing|]. apply (takes_one [] key rest entries before entry _ Hq E).
    intros Hq'. destruct (_ || _); [by apply takes_nothing|by apply IH].
  - exfalso. assert (is_Some (entries !! key)) as [? Hs]; [|by rw E in Hs].
    apply (co_order _ Hq key). apply list_elem_of_here.
Qed.

Lemma pop_entries_grows remainingOps remainingBytes (order : list K) : forall (entries : gmap K pendingProgress) before,
  before `prefix_of` (pop_entries remainingOps remainingBytes order entries before).1.
Proof.
  induction order as [|key rest IH]; intros entries before; cbn [pop_entries]; [done|].
  destruct (entries !! key); [|apply IH]. destruct (_ && _); [done|]. cbv zeta. destruct (_ || _); [by eexists|].
  etrans; [|apply IH]. by eexists.
Qed.

Lemma popBatch_takes remainingOps remainingBytes allow q : queue_ok q ->
  takes (pq_order q) (pq_entries q) [] (popBatch remainingOps remainingBytes allow q) /\
  (allow = true -> 0 < remainingOps -> 0 < remainingBytes -> pq_entries q <> ∅ ->
   (popBatch remainingOps remainingBytes allow q).1 <> []).
Proof.
  intros Hq. destruct q as [entries order]. unfold popBatch. cbn [pq_entries pq_order]. destruct (_ || _) eqn:E.
  - split; [by apply takes_nothing|]. intros -> H1 H2 Hne. cbn in E.
    rw (proj2 (Z.leb_gt _ _) H1) (proj2 (Z.leb_gt _ _) H2) in E. cbn in E. apply bool_decide_eq_true in E. subst order.
    apply map_choose in Hne as (k & e & Hk). cbn in Hk. pose proof (proj2 (co_order _ Hq k) (ex_intro _ e Hk)) as Hin.
    by apply elem_of_nil in Hin.
  - split; [by apply pop_entries_takes|]. intros _ _ _ Hne. apply orb_false_iff in E as [_ E].
    apply bool_decide_eq_false in E. destruct order as [|key rest]; [done|]. cbn [pop_entries].
    destruct (proj1 (co_order _ Hq key)) as [entry He]; [apply list_elem_of_here|]. cbn in He. rw He.
    cbn [length]. change (0 <? Z.of_nat 0) with false. cbn [andb]. cbv zeta.
    destruct (_ || _); [by intros Hz|].
    destruct (pop_entries_grows remainingOps remainingBytes rest (delete key entries) ([] ++ [(key, entry)])) as [more ->]. by intros Hz.
Qed.
End progress.

Definition watermark_names (key : journalWatermarkKey) (a : ReplicaAssignment) : Prop :=
  asg_Slot a = key.1.2 /\ asg_ChainVersion a = key.2.
Definition confirm_names (key : journalConfirmKey) (a : ReplicaAssignment) : Prop :=
  asg_Slot a = key.1 /\ asg_ChainVersion a = key.2.
Definition watermark_wrap (key : journalWatermarkKey) : progressIntent -> shard_intent := WatermarkIntent key.1.1.
Definition confirm_wrap (key : journalConfirmKey) : progressIntent -> shard_intent := ConfirmIntent.

Lemma pop_head_ranges_takes limitOps remainingBytes order : forall entries before next,
  queue_ok watermark_names (Build_progress_queue entries (next ++ order)) ->
  takes watermark_names watermark_wrap (next ++ order) entries before
    (pop_head_ranges limitOps remainingBytes order entries before next).
Proof.
  induction order as [|key rest IH]; intros entries before next Hq; cbn [pop_head_ranges].
  { rw app_nil_r in Hq |- *. by apply takes_nothing. }
  destruct (entries !! key) as [entry|] eqn:E.
  - destruct (_ || _).
    + rw (cons_middle key next rest) in Hq |- *. rw app_assoc in Hq |- *. by apply IH.
    + apply (takes_one _ _ next key rest entries before entry _ Hq E). apply IH.
  - exfalso. assert (is_Some (entries !! key)) as [? Hs]; [|by rw E in Hs].
    apply (co_order _ _ Hq key). cbn. set_solver.
Qed.

Lemma popPriority_takes remainingOps remainingBytes q : queue_ok watermark_names q ->
  takes watermark_names watermark_wrap (pq_order q) (pq_entries q) []
    (popPriorityHeadRangeBatch remainingOps remainingBytes q).
Proof.
  intros Hq. assert (takes watermark_names watermark_wrap (pq_order q) (pq_entries q) [] ([], q)) as Hnone.
  { destruct q. by apply takes_nothing. }
  unfold popPriorityHeadRangeBatch. destruct (_ || _); [done|]. cbv zeta.
  match goal with |- context [pop_head_ranges ?l ?b ?o ?e ?i ?n] =>
    pose proof (pop_head_ranges_takes l b o e i n) as Ht; destruct (pop_head_ranges l b o e i n) as [items q'] end.
  destruct items; [done|]. apply Ht. by destruct q.
Qed.

(** ** The shard *)
Record shard_ok (s : shard) : Prop := {
  so_prepares : prepares_ok (sh_prepares s);
  so_watermarks : queue_ok watermark_names (sh_watermarks s);
  so_confirms : queue_ok confirm_names (sh_confirms s);
}.

Definition queued_prepares (s : shard) : list journalPrepareIntent :=
  all_queued (pendingPrepareMap (sh_prepares s)) (pendingPrepareSeq (sh_prepares s)).

Definition intent_prepares (intents : list shard_intent) : list journalPrepareIntent :=
  concat ((fun intent => match intent with PrepareIntent i => [i] | _ => [] end) <$> intents).

(** The prepares of a slot among some intents. *)
Definition prepares_of (slot : Z) (intents : list shard_intent) : list journalPrepareIntent :=
  of_slot slot (intent_prepares intents).

Definition batch_intents (items : list journalBatchItem) : list shard_intent := concat (item_intents <$> items).

Definition item_ok (item : journalBatchItem) : Prop :=
  match item with
  | BatchPrepare _ => True
  | BatchWatermark recordType entry => exists key : journalWatermarkKey, key.1.1 = recordType /\ entry_ok watermark_names key entry
  | BatchConfirm entry => exists key, entry_ok confirm_names key entry
  end.

Lemma intent_prepares_app l1 l2 : intent_prepares (l1 ++ l2) = intent_prepares l1 ++ intent_prepares l2.
Proof. unfold intent_prepares. by rw fmap_app concat_app. Qed.

Lemma prepares_of_app slot l1 l2 : prepares_of slot (l1 ++ l2) = prepares_of slot l1 ++ prepares_of slot l2.
Proof. unfold prepares_of. by rw intent_prepares_app of_slot_app. Qed.

Lemma batch_intents_app l1 l2 : batch_intents (l1 ++ l2) = batch_intents l1 ++ batch_intents l2.
Proof. unfold batch_intents. by rw fmap_app concat_app. Qed.

Lemma intent_prepares_wrapped (l : list journalPrepareIntent) : intent_prepares (PrepareIntent <$> l) = l.
Proof. unfold intent_prepares. induction l as [|i l IH]; [done|]. cbn. by rw IH. Qed.

Lemma intent_prepares_none {A} (wrap : A -> shard_intent) (l : list A) :
  (forall i, match wrap i with PrepareIntent _ => False | _ => True end) -> intent_prepares (wrap <$> l) = [].
Proof.
  intros Hw. unfold intent_prepares. induction l as [|i l IH]; [done|]. cbn. rw IH.
  specialize (Hw i). by destruct (wrap i).
Qed.

Lemma pending_split s : pending_intents s =
  (PrepareIntent <$> queued_prepares s) ++ queue_intents watermark_wrap (sh_watermarks s)
    ++ queue_intents confirm_wrap (sh_confirms s).
Proof.
  unfold pending_intents, queued_prepares, all_queued. f_equal.
  induction (pendingPrepareSeq (sh_prepares s)) as [|slot l IH]; [done|]. cbn. by rw fmap_app IH.
Qed.

Lemma batch_prepares items : batch_intents (BatchPrepare <$> items) = PrepareIntent <$> items.
Proof. unfold batch_intents. induction items as [|i l IH]; [done|]. cbn. by rw IH. Qed.

Lemma batch_watermarks items : batch_intents (watermark_item <$> items) = concat (entry_intents watermark_wrap <$> items).
Proof. unfold batch_intents. by rw -list_fmap_compose. Qed.

Lemma batch_confirms items : batch_intents (confirm_item <$> items) = concat (entry_intents confirm_wrap <$> items).
Proof. unfold batch_intents. by rw -list_fmap_compose. Qed.

Lemma no_prepares_watermarks items : intent_prepares (batch_intents (watermark_item <$> items)) = [].
Proof.
  induction items as [|t l IH]; [done|]. rw fmap_cons -(app_nil_l (watermark_item <$> l)) app_comm_cons batch_intents_app
    intent_prepares_app IH app_nil_r. unfold batch_intents. cbn. rw app_nil_r. by apply intent_prepares_none.
Qed.

Lemma no_prepares_confirms items : intent_prepares (batch_intents (confirm_item <$> items)) = [].
Proof.
  induction items as [|t l IH]; [done|]. rw fmap_cons -(app_nil_l (confirm_item <$> l)) app_comm_cons batch_intents_app
    intent_prepares_app IH app_nil_r. unfold batch_intents. cbn. rw app_nil_r. by apply intent_prepares_none.
Qed.

(** What a batch holds, against what is left in the queues. *)
Record batch_taken (s : shard) (items : list journalBatchItem) (s' : shard) : Prop := {
  bt_shard : shard_ok s';
  bt_items : Forall item_ok items;
  bt_once : pending_intents s ≡ₚ batch_intents items ++ pending_intents s';
  bt_fifo : forall slot, queue_of (pendingPrepareMap (sh_prepares s)) slot
    = prepares_of slot (batch_intents items) ++ queue_of (pendingPrepareMap (sh_prepares s')) slot;
}.

Lemma watermark_items_ok items :
  Forall (fun t => entry_ok watermark_names t.1 t.2) items -> Forall item_ok (watermark_item <$> items).
Proof. intros Hi. apply Forall_fmap. apply (Forall_impl _ _ _ Hi). intros t Ht. by exists t.1. Qed.

Lemma confirm_items_ok items :
  Forall (fun t => entry_ok confirm_names t.1 t.2) items -> Forall item_ok (confirm_item <$> items).
Proof. intros Hi. apply Forall_fmap. apply (Forall_impl _ _ _ Hi). intros t Ht. by exists t.1. Qed.

Lemma take_batch_taken batchMaxOps s : shard_ok s ->
  let '(items, s') := take_batch batchMaxOps s in batch_taken s items s'.
Proof.
  intros [Hp Hw Hc]. unfold take_batch.
  pose proof (popPriority_takes batchMaxOps defaultJournalBatchMaxBytes (sh_watermarks s) Hw) as H1.
  destruct (popPriorityHeadRangeBatch _ _ _) as [priority w1]. destruct H1 as (? & [= ->] & Hw1 & Hi1 & Hperm1). cbn [fst snd] in *.
  pose proof (popPrepareBatch_ok batchMaxOps (sh_prepares s) Hp) as H2.
  destruct (popPrepareBatch _ _) as [[prepares bytes] p']. destruct H2 as (Hp' & Hperm2 & Hfifo & _).
  match goal with |- context [popBatch ?o ?b ?a w1] =>
    pose proof (proj1 (popBatch_takes watermark_names watermark_wrap o b a w1 Hw1)) as H3; destruct (popBatch o b a w1) as [marks w2] end.
  destruct H3 as (? & [= ->] & Hw2 & Hi2 & Hperm3). cbn [fst snd] in *.
  match goal with |- context [popBatch ?o ?b ?a (sh_confirms s)] =>
    pose proof (proj1 (popBatch_takes confirm_names confirm_wrap o b a _ Hc)) as H4; destruct (popBatch o b a (sh_confirms s)) as [confirms c'] end.
  destruct H4 as (? & [= ->] & Hc' & Hi3 & Hperm4). cbn [fst snd] in *. split.
  - by split.
  - rw !Forall_app. split_and!; [by apply watermark_items_ok|by apply Forall_fmap, Forall_true|by apply watermark_items_ok|by apply confirm_items_ok].
  - rw !pending_split !batch_intents_app batch_prepares !batch_watermarks batch_confirms. unfold queued_prepares. cbn.
    rw !queue_intents_eq in Hperm1, Hperm3, Hperm4 |- *. rw Hperm1 Hperm2 Hperm3 Hperm4 fmap_app. solve_Permutation.
  - intros slot. unfold prepares_of. rw !batch_intents_app !intent_prepares_app batch_prepares intent_prepares_wrapped.
    rw !no_prepares_watermarks no_prepares_confirms !app_nil_r. apply Hfifo.
Qed.

Lemma queue_intents_empty {K} `{Countable K} (wrap : K -> progressIntent -> shard_intent) (q : progress_queue K) :
  pq_entries q = ∅ -> queue_intents wrap q = [].
Proof. intros He. rw queue_intents_eq. apply concat_fmap_nil. intros k _. unfold key_intents. by rw He lookup_empty. Qed.

(** A batch is not empty unless the shard is. *)
Lemma take_batch_progress batchMaxOps s : shard_ok s -> 0 < batchMaxOps -> pending_intents s <> [] ->
  (take_batch batchMaxOps s).1 <> [].
Proof.
  intros [Hp Hw Hc] Hops Hpend. unfold take_batch.
  pose proof (popPriority_takes batchMaxOps defaultJournalBatchMaxBytes (sh_watermarks s) Hw) as H1.
  destruct (popPriorityHeadRangeBatch _ _ _) as [[|t priority] w1]; [|
    destruct (popPrepareBatch _ _) as [[? ?] ?], (popBatch _ _ _ w1), (popBatch _ _ _ _); by intros Hz].
  destruct H1 as (? & [= <-] & Hw1 & _ & Hperm1). cbn [fst snd concat fmap list_fmap app] in *.
  pose proof (popPrepareBatch_ok batchMaxOps (sh_prepares s) Hp) as H2.
  destruct (popPrepareBatch _ _) as [[prepares bytes] p'] eqn:Ep. destruct H2 as (_ & Hperm2 & _ & Hne).
  destruct prepares as [|i prepares]; [|destruct (popBatch _ _ _ w1), (popBatch _ _ _ _); by intros Hz].
  assert (pendingPrepareN (sh_prepares s) = 0) as Hn by (destruct (decide (pendingPrepareN (sh_prepares s) = 0)); [done|by destruct (Hne Hops)]).
  assert (bytes = 0) as ->.
  { unfold popPrepareBatch in Ep. rw Hn in Ep. cbn in Ep. congruence. }
  cbn [length Z.of_nat fmap list_fmap app]. change (0 =? 0) with true. cbn [orb].
  pose proof (proj2 (popBatch_takes watermark_names watermark_wrap (batchMaxOps - 0 - 0) (defaultJournalBatchMaxBytes - 0 * 64 - 0) true w1 Hw1) eq_refl) as H3.
  destruct (popBatch _ _ _ w1) as [[|m marks] w2]; [|destruct (popBatch _ _ _ _); by intros Hz]. cbn [fst] in H3.
  cbn [length Z.of_nat fmap list_fmap app].
  pose proof (proj2 (popBatch_takes confirm_names confirm_wrap (batchMaxOps - 0 - 0 - 0) (defaultJournalBatchMaxBytes - 0 * 64 - 0 - 0 * 64) true _ Hc) eq_refl) as H4.
  destruct (popBatch _ _ _ (sh_confirms s)) as [[|c confirms] c']; [|by intros Hz]. cbn [fst] in H4. exfalso.
  apply Hpend. rw pending_split. unfold queued_prepares.
  rw (nil_length_inv (all_queued _ _)); [pose proof (po_count _ Hp); lia|].
  rw queue_intents_eq.
  destruct (decide (pq_entries w1 = ∅)) as [He|He]; [|destruct H3; [lia|done|done|done]].
  rw (queue_intents_empty _ _ He) in Hperm1. apply Permutation_nil_r in Hperm1 as ->.
  destruct (decide (pq_entries (sh_confirms s) = ∅)) as [He'|He']; [|destruct H4; [lia|done|done|done]].
  by rw (queue_intents_empty _ _ He').
Qed.

(** ** Runs

    What the shard relies on in its journal: an append that succeeds adds the
    records, one that fails may add some of the first ones. *)
Class JournalAppend {J : Type} (append : J -> list journalRecord -> J * res storage_error unit) := {
  held : J -> list journalRecord;
  append_held : forall j records,
    match append j records with
    | (j', Ok _) => held j' = held j ++ records
    | (j', Err _) => exists k, held j' = held j ++ take k records
    end;
}.

Definition intent_record (intent : shard_intent) : journalRecord :=
  match intent with
  | PrepareIntent i => journalRecordFromPrepare (pi_prepare i)
  | WatermarkIntent journalRecordTypeHeadCommitRange i => journalRecordFromHeadCommitRange (gi_assignment i) (gi_sequence i)
  | WatermarkIntent _ i => journalRecordFromCommitWatermark (gi_assignment i) (gi_sequence i)
  | ConfirmIntent i => journalRecordFromUpstreamConfirm (gi_assignment i) (gi_sequence i)
  end.

(** A record that says what [r] says, or more. *)
Definition covers (r r' : journalRecord) : Prop :=
  jr_Type r' = jr_Type r /\ jr_Slot r' = jr_Slot r /\ jr_ChainVersion r' = jr_ChainVersion r /\
  match jr_Type r with
  | journalRecordTypePrepare => r' = r
  | _ => jr_Sequence r <= jr_Sequence r'
  end.

Definition covered (records : list journalRecord) (intent : shard_intent) : Prop :=
  exists r, r ∈ records /\ covers (intent_record intent) r.

Definition completed (answers : list delivery) : list shard_intent :=
  fst <$> List.filter (fun d => match d.2 with Completed => true | _ => false end) answers.

Definition prepare_records (intents : list journalPrepareIntent) : list journalRecord :=
  (fun i => journalRecordFromPrepare (pi_prepare i)) <$> intents.

Lemma progress_covers type a a' seq seq' : type <> journalRecordTypePrepare ->
  asg_Slot a' = asg_Slot a -> asg_ChainVersion a' = asg_ChainVersion a -> seq <= seq' ->
  covers (progress_record type a seq) (progress_record type a' seq').
Proof. intros Ht Hs Hv Hle. repeat split; [done|done|]. cbn. by destruct type. Qed.

Lemma item_nonempty item : item_ok item -> item_intents item <> [].
Proof.
  intros Hok. destruct item as [i|t e|e]; [done|destruct Hok as (k & _ & He)|destruct Hok as (k & He)];
    destruct (eo_newest _ _ _ He) as (i & Hi & _); cbn; destruct (pp_intents e); [by apply elem_of_nil in Hi|done
      |by apply elem_of_nil in Hi|done].
Qed.

(** The record of an item covers its intents, and is that of one of them; there is
    none if all are cancelled. *)
Lemma item_record_covers canceled item : item_ok item ->
  exists r, item_record canceled item = (if forallb (intent_canceled canceled) (item_intents item) then [] else [r]) /\
  (forall i, i ∈ item_intents item -> covers (intent_record i) r) /\
  exists i, i ∈ item_intents item /\ r = intent_record i.
Proof.
  intros Hok. unfold item_record. destruct item as [i|t e|e].
  - eexists; split; [done|]. split; [|exists (PrepareIntent i); split; [apply list_elem_of_here|done]].
    intros j ->%list_elem_of_singleton. done.
  - destruct Hok as (k & _ & He). destruct (eo_newest _ _ _ He) as (n & Hn & Ha & Hs).
    set (type := match t with journalRecordTypeHeadCommitRange => journalRecordTypeHeadCommitRange | _ => journalRecordTypeCommitWatermark end).
    assert (forall i, intent_record (WatermarkIntent t i) = progress_record type (gi_assignment i) (gi_sequence i)) as Hrec
      by (intros i; by destruct t).
    exists (progress_record type (pp_assignment e) (pp_sequence e)). split; [by destruct t|]. split.
    + intros j (i & -> & Hi)%list_elem_of_fmap. rw Hrec. destruct (eo_intents _ _ _ He i Hi) as [[H1 H2] Hle].
      destruct (eo_intents _ _ _ He n Hn) as [[H3 H4] _]. rw -Ha. apply progress_covers; [by destruct t|congruence..|done].
    + exists (WatermarkIntent t n). split; [by apply list_elem_of_fmap_2|]. by rw Hrec Ha Hs.
  - destruct Hok as (k & He). destruct (eo_newest _ _ _ He) as (n & Hn & Ha & Hs).
    eexists; split; [done|]. split.
    + intros j (i & -> & Hi)%list_elem_of_fmap. destruct (eo_intents _ _ _ He i Hi) as [[H1 H2] Hle].
      destruct (eo_intents _ _ _ He n Hn) as [[H3 H4] _]. rw -Ha. apply progress_covers; [done|congruence..|done].
    + exists (ConfirmIntent n). split; [by apply list_elem_of_fmap_2|]. by rw -Ha -Hs.
Qed.

(** *** Cancelled contexts

    The intents whose context is in none of the sets a run looks at: [all] is
    their union. *)
Definition live (all : gset nat) (intent : shard_intent) : bool := negb (intent_canceled all intent).
Definition alive (all : gset nat) (intents : list shard_intent) : list shard_intent := List.filter (live all) intents.
Definition live_prepares (all : gset nat) (intents : list journalPrepareIntent) : list journalPrepareIntent :=
  List.filter (fun i => live all (PrepareIntent i)) intents.

Lemma canceled_mono (a b : gset nat) i : a ⊆ b -> intent_canceled a i = true -> intent_canceled b i = true.
Proof.
  intros Hab. destruct i as [i|t i|i]; cbn; unfold ctx_canceled; [destruct (pi_ctx i)|destruct (gi_ctx i)|destruct (gi_ctx i)];
    try done; rw !bool_decide_eq_true; set_solver.
Qed.

Lemma live_not_canceled (all c : gset nat) i : c ⊆ all -> live all i = true -> intent_canceled c i = false.
Proof.
  intros Hc Hl. destruct (intent_canceled c i) eqn:E; [|done]. apply (canceled_mono c all) in E; [|done].
  unfold live in Hl. by rw E in Hl.
Qed.

Lemma alive_empty intents : alive ∅ intents = intents.
Proof.
  apply List.forallb_filter_id, List.forallb_forall. intros i _. unfold live.
  destruct i as [i|t i|i]; cbn; unfold ctx_canceled; [destruct (pi_ctx i)|destruct (gi_ctx i)|destruct (gi_ctx i)]; try done;
    by rw bool_decide_eq_false_2; [set_solver|].
Qed.

Lemma elem_of_alive all i l : i ∈ alive all l <-> i ∈ l /\ live all i = true.
Proof. unfold alive. by rw list_elem_of_In List.filter_In -list_elem_of_In. Qed.

Lemma alive_prepares all slot l : prepares_of slot (alive all l) = live_prepares all (prepares_of slot l).
Proof.
  unfold prepares_of, of_slot, alive, live_prepares. induction l as [|i l IH]; [done|]. cbn [List.filter].
  destruct i as [i|t i|i]; [|by destruct (live all _)..].
  change (intent_prepares (PrepareIntent i :: ?k)) with (i :: intent_prepares k).
  destruct (live all (PrepareIntent i)) eqn:Hl;
    [change (intent_prepares (PrepareIntent i :: ?k)) with (i :: intent_prepares k)|];
    cbn [List.filter]; destruct (prepare_slot i =? slot); cbn [List.filter]; by rw ?Hl IH.
Qed.

Definition batch_records (canceled : gset nat) (items : list journalBatchItem) : list journalRecord :=
  concat (item_record canceled <$> items).

Lemma batch_records_covered all canceled items : canceled ⊆ all -> Forall item_ok items ->
  (forall i, i ∈ alive all (batch_intents items) -> covered (batch_records canceled items) i) /\
  (forall r, r ∈ batch_records canceled items -> exists i, i ∈ batch_intents items /\ r = intent_record i) /\
  prepare_records (live_prepares all (intent_prepares (batch_intents items))) `sublist_of` batch_records canceled items.
Proof.
  intros Hsub. unfold batch_intents, batch_records. induction 1 as [|item items Hi _ (IH1 & IH2 & IH3)].
  { split_and!; [by intros i ?%elem_of_nil|by intros i ?%elem_of_nil|done]. }
  destruct (item_record_covers canceled item Hi) as (r & Hr & Hc & n & Hn & Hrn). rw !fmap_cons. cbn [concat]. rw Hr. split_and!.
  - intros i [[Hin|Hin]%elem_of_app Hl]%elem_of_alive.
    + assert (forallb (intent_canceled canceled) (item_intents item) = false) as ->.
      { apply not_true_iff_false. intros Hall. rw forallb_forall in Hall. specialize (Hall i (proj1 (list_elem_of_In _ _) Hin)).
        by rw (live_not_canceled all canceled i Hsub Hl) in Hall. }
      exists r. split; [set_solver|by apply Hc].
    + destruct (IH1 i) as (r' & ? & ?); [by apply elem_of_alive|]. exists r'. split; [set_solver|done].
  - intros r' [Hin|Hin]%elem_of_app; [|destruct (IH2 r' Hin) as (i & ? & ?); exists i; set_solver].
    destruct (forallb _ _); [by apply elem_of_nil in Hin|]. apply list_elem_of_singleton in Hin as ->. exists n. set_solver.
  - rw intent_prepares_app. unfold live_prepares, prepare_records. rw List.filter_app fmap_app. apply sublist_app; [|done].
    destruct item as [i|t e|e]; cbn [item_intents].
    + cbn [item_intents] in Hn. apply list_elem_of_singleton in Hn as ->. subst r. cbn.
      destruct (live all (PrepareIntent i)) eqn:Hl; cbn; [|apply sublist_nil_l].
      pose proof (live_not_canceled all canceled (PrepareIntent i) Hsub Hl) as Hn. cbn in Hn. by rw Hn.
    + rw intent_prepares_none //. cbn. apply sublist_nil_l.
    + rw intent_prepares_none //. cbn. apply sublist_nil_l.
Qed.

Section runs.
Context (batchMaxOps : Z) {J : Type} (append : J -> list journalRecord -> J * res storage_error unit) `{!JournalAppend append}.

Record world_ok (all : gset nat) (start : list journalRecord) (submitted : list shard_intent) (w : shard_world (J := J)) : Prop := {
  wo_shard : shard_ok (sw_shard w);
  wo_once : alive all submitted ≡ₚ alive all (sw_answers w).*1 ++ alive all (pending_intents (sw_shard w));
  wo_known : forall i, i ∈ submitted <-> i ∈ (sw_answers w).*1 \/ i ∈ pending_intents (sw_shard w);
  wo_fifo : forall slot, live_prepares all (prepares_of slot submitted)
    = live_prepares all (prepares_of slot (sw_answers w).*1)
      ++ live_prepares all (queue_of (pendingPrepareMap (sh_prepares (sw_shard w))) slot);
  wo_covered : forall i, i ∈ alive all (completed (sw_answers w)) -> covered (held (sw_journal w)) i;
  wo_records : forall r, r ∈ held (sw_journal w) -> r ∈ start \/ exists i, i ∈ submitted /\ r = intent_record i;
  wo_order : forall slot, prepare_records (live_prepares all (prepares_of slot (completed (sw_answers w)))) `sublist_of` held (sw_journal w);
}.

Lemma alive_app all a b : alive all (a ++ b) = alive all a ++ alive all b.
Proof. apply List.filter_app. Qed.
Lemma live_prepares_app all a b : live_prepares all (a ++ b) = live_prepares all a ++ live_prepares all b.
Proof. apply List.filter_app. Qed.

#[local] Instance alive_proper all : Proper ((≡ₚ) ==> (≡ₚ)) (alive all).
Proof.
  intros a b Hab. unfold alive. induction Hab as [|x a b _ IH|x y a|a b c _ IH1 _ IH2]; cbn; [done|by destruct (live all x); [constructor|]| |exact (Permutation_trans IH1 IH2)].
  destruct (live all x), (live all y); try done. constructor.
Qed.

Lemma completed_app l1 l2 : completed (l1 ++ l2) = completed l1 ++ completed l2.
Proof. unfold completed. by rw List.filter_app fmap_app. Qed.

Lemma item_answers result items : (concat (item_completed result <$> items)).*1 = batch_intents items.
Proof.
  unfold batch_intents. induction items as [|item items IH]; [done|]. rw !fmap_cons. cbn [concat].
  rw fmap_app IH. f_equal. unfold item_completed. by rw -list_fmap_compose list_fmap_id.
Qed.

Lemma items_completed items : completed (concat (item_completed Completed <$> items)) = batch_intents items.
Proof.
  rw -(item_answers Completed). unfold completed. f_equal. apply List.forallb_filter_id, List.forallb_forall.
  intros d Hd. apply in_concat in Hd as (l & Hl & Hd). apply list_elem_of_In, list_elem_of_fmap in Hl as (item & -> & _).
  apply list_elem_of_In, list_elem_of_fmap in Hd as (i & -> & _). done.
Qed.

Lemma items_failed e items : completed (concat (item_completed (CompletedError e) <$> items)) = [].
Proof.
  unfold completed. induction items as [|item items IH]; [done|]. rw fmap_cons. cbn [concat].
  rw List.filter_app fmap_app IH app_nil_r. unfold item_completed. by induction (item_intents item).
Qed.

(** The answers to the cancelled intents of a batch. *)
Definition batch_canceled (canceled : gset nat) (items : list journalBatchItem) : list delivery :=
  concat (item_canceled canceled <$> items).

Lemma elem_of_canceled c items d : d ∈ batch_canceled c items ->
  d.2 = CompletedCanceled /\ d.1 ∈ batch_intents items /\ intent_canceled c d.1 = true.
Proof.
  unfold batch_canceled, batch_intents. intros Hd. apply list_elem_of_In, in_concat in Hd as (l & Hl & Hd).
  apply list_elem_of_In, list_elem_of_fmap in Hl as (item & -> & Hi).
  apply list_elem_of_In, list_elem_of_fmap in Hd as (i & -> & [Hin Hc]%list_elem_of_In%List.filter_In). cbn. split_and!; [done| |done].
  apply list_elem_of_In, in_concat. exists (item_intents item). split; [|done]. by apply list_elem_of_In, list_elem_of_fmap_2.
Qed.

Lemma canceled_answers c items i : i ∈ (batch_canceled c items).*1 -> i ∈ batch_intents items.
Proof. by intros (d & -> & (_ & Hd & _)%elem_of_canceled)%list_elem_of_fmap. Qed.

Lemma nothing_alive all l : (forall i, i ∈ l -> live all i = false) -> alive all l = [].
Proof.
  unfold alive. induction l as [|i l IH]; [done|]. intros H. cbn. rw (H i); [by left|]. apply IH. intros x Hx. apply H. by right.
Qed.

Lemma canceled_dead all c items : c ⊆ all -> alive all (batch_canceled c items).*1 = [].
Proof.
  intros Hc. apply nothing_alive. intros i (d & -> & (_ & _ & Hd)%elem_of_canceled)%list_elem_of_fmap.
  unfold live. by rw (canceled_mono c all _ Hc Hd).
Qed.

Lemma canceled_not_completed c items : completed (batch_canceled c items) = [].
Proof.
  pose proof (elem_of_canceled c items) as Hd. unfold completed. induction (batch_canceled c items) as [|d l IH]; [done|].
  cbn. destruct (Hd d) as [-> _]; [by left|]. apply IH. intros x Hx. apply Hd. by right.
Qed.

(** A batch without records is one whose intents are all cancelled. *)
Lemma no_records_canceled c items : Forall item_ok items -> batch_records c items = [] ->
  forall i, i ∈ batch_intents items -> (i, CompletedCanceled) ∈ batch_canceled c items.
Proof.
  unfold batch_records, batch_intents, batch_canceled. induction 1 as [|item items Hi _ IH]; [by intros _ i ?%elem_of_nil|].
  rw !fmap_cons. cbn [concat]. intros [H1 H2]%app_eq_nil i [Hin|Hin]%elem_of_app; apply elem_of_app; [left|right; by apply IH].
  destruct (item_record_covers c item Hi) as (r & Hr & _). rw H1 in Hr.
  destruct (forallb _ _) eqn:Hall; [|done]. rw forallb_forall in Hall.
  apply list_elem_of_fmap. exists i. split; [done|]. apply list_elem_of_In, List.filter_In. split; [by apply list_elem_of_In|].
  by apply Hall, list_elem_of_In.
Qed.

Lemma prepares_of_records slot l : prepare_records (prepares_of slot l) `sublist_of` prepare_records (intent_prepares l).
Proof.
  unfold prepare_records. apply fmap_sublist. unfold prepares_of, of_slot.
  induction (intent_prepares l) as [|i k IH]; [done|]. cbn. destruct (_ =? _); by constructor.
Qed.

Lemma alive_prepares_none all slot l : alive all l = [] -> live_prepares all (prepares_of slot l) = [].
Proof. intros Hl. by rw -alive_prepares Hl. Qed.

(** A batch written, wholly or in part. *)
Lemma world_ok_batch all canceled start submitted w items s' journal marks result :
  canceled ⊆ all -> world_ok all start submitted w -> batch_taken (sw_shard w) items s' ->
  (forall r, r ∈ held journal -> r ∈ held (sw_journal w) \/ r ∈ batch_records canceled items) ->
  held (sw_journal w) `sublist_of` held journal ->
  (result = Completed /\ held journal = held (sw_journal w) ++ batch_records canceled items \/ exists e, result = CompletedError e) ->
  world_ok all start submitted
    {| sw_shard := s'; sw_journal := journal; sw_marks := marks;
       sw_answers := (sw_answers w ++ batch_canceled canceled items) ++ concat (item_completed result <$> items) |}.
Proof.
  intros Hsc [Hs Ho Hkn Hf Hc Hr Hor] [Hs' Hi Ho' Hf'] Hheld Hsub Hres.
  destruct (batch_records_covered all canceled items Hsc Hi) as (Hcov & Hrec & Hpre).
  pose proof (canceled_dead all canceled items Hsc) as Hdead.
  split; cbn [sw_shard sw_journal sw_answers].
  - done.
  - rw !fmap_app item_answers (alive_app all (_ ++ _)) (alive_app all (sw_answers w).*1) Hdead app_nil_r Ho Ho'.
    by rw (alive_app all (batch_intents items)) app_assoc.
  - intros i. rw Hkn Ho'. generalize (pending_intents s'). intros later. pose proof (canceled_answers canceled items i) as Hd.
    rw !fmap_app item_answers !elem_of_app. tauto.
  - intros slot. rw !fmap_app item_answers !prepares_of_app !live_prepares_app Hf Hf' live_prepares_app (alive_prepares_none _ _ _ Hdead).
    by rw app_nil_r app_assoc.
  - intros i [Hin Hl]%elem_of_alive. rw !completed_app canceled_not_completed app_nil_r in Hin. apply elem_of_app in Hin as [Hin|Hin].
    + destruct (Hc i) as (r & Hr' & Hcr); [by apply elem_of_alive|]. exists r. split; [|done]. by apply (elem_of_sublist _ _ _ Hr' Hsub).
    + destruct Hres as [[-> ->]|[e ->]]; [|rw items_failed in Hin; by apply elem_of_nil in Hin]. rw items_completed in Hin.
      destruct (Hcov i) as (r & Hr' & Hcr); [by apply elem_of_alive|]. exists r. split; [set_solver|done].
  - intros r [Hin|Hin]%Hheld; [by apply Hr|]. right. destruct (Hrec r Hin) as (i & Hi' & ->). exists i. split; [|done].
    rw Hkn Ho'. right. apply elem_of_app. by left.
  - intros slot. rw !completed_app canceled_not_completed app_nil_r prepares_of_app live_prepares_app.
    unfold prepare_records. rw fmap_app. fold prepare_records. destruct Hres as [[-> ->]|[e ->]].
    + rw items_completed. apply sublist_app; [apply Hor|]. etrans; [|exact Hpre]. apply fmap_sublist.
      unfold live_prepares, prepares_of, of_slot. generalize (intent_prepares (batch_intents items)). intros l.
      induction l as [|i l IH]; [done|]. cbn. destruct (_ =? _); cbn; destruct (live all _); first [exact IH|by constructor].
    + rw items_failed. cbn. rw app_nil_r. etrans; [apply Hor|done].
Qed.

(** A batch all of whose intents are cancelled. *)
Lemma world_ok_dropped all canceled start submitted w items s' :
  canceled ⊆ all -> world_ok all start submitted w -> batch_taken (sw_shard w) items s' -> batch_records canceled items = [] ->
  world_ok all start submitted
    {| sw_shard := s'; sw_journal := sw_journal w; sw_marks := sw_marks w; sw_answers := sw_answers w ++ batch_canceled canceled items |}.
Proof.
  intros Hsc [Hs Ho Hkn Hf Hc Hr Hor] [Hs' Hi Ho' Hf'] Hnone. pose proof (no_records_canceled canceled items Hi Hnone) as Hall.
  pose proof (canceled_dead all canceled items Hsc) as Hdead.
  assert (alive all (batch_intents items) = []) as Hbatch.
  { apply nothing_alive. intros i (_ & _ & Hd)%Hall%elem_of_canceled. unfold live. by rw (canceled_mono canceled all _ Hsc Hd). }
  split; cbn [sw_shard sw_journal sw_answers]; [done| | | | |done|].
  - by rw fmap_app alive_app Hdead app_nil_r Ho Ho' alive_app Hbatch.
  - intros i. rw Hkn Ho'. generalize (pending_intents s'). intros later. pose proof (canceled_answers canceled items i) as Hd.
    assert (i ∈ batch_intents items -> i ∈ (batch_canceled canceled items).*1) as Hin.
    { intros Hin%Hall. by apply (list_elem_of_fmap_2 fst _ (i, CompletedCanceled)). }
    rw !fmap_app !elem_of_app. tauto.
  - intros slot. rw fmap_app prepares_of_app live_prepares_app Hf Hf' live_prepares_app (alive_prepares_none _ _ _ Hdead).
    by rw (alive_prepares_none _ _ _ Hbatch) app_nil_r.
  - by rw completed_app canceled_not_completed app_nil_r.
  - by rw completed_app canceled_not_completed app_nil_r.
Qed.

Lemma world_ok_flush all canceled start submitted w : canceled ⊆ all ->
  world_ok all start submitted w -> world_ok all start submitted (shard_flush batchMaxOps append canceled w).
Proof.
  intros Hsc Hw. unfold shard_flush. set (w0 := {| sw_shard := (sw_shard w) <| sh_timer := false |> |}).
  assert (world_ok all start submitted w0) as Hw0 by (destruct Hw as [[] ? ? ? ? ? ?]; by split; [split|..]).
  change ((sw_shard w) <| sh_timer := false |>) with (sw_shard w0). clearbody w0. clear Hw w.
  destruct (_ && _ && _); [done|]. pose proof (take_batch_taken batchMaxOps (sw_shard w0) (wo_shard _ _ _ _ Hw0)) as Ht.
  destruct (take_batch _ _) as [items s']. fold (batch_records canceled items). fold (batch_canceled canceled items).
  pose proof (append_held (sw_journal w0) (batch_records canceled items)) as Ha.
  destruct (batch_records canceled items) as [|r records] eqn:Er; [by apply world_ok_dropped|].
  rw -Er in Ha |- *. destruct (append _ _) as [journal [[]|e]].
  - apply world_ok_batch; [done|done|done|rw Ha; set_solver|rw Ha; by apply sublist_inserts_r|by left].
  - destruct Ha as [k Ha]. apply world_ok_batch; [done|done|done| |rw Ha; by apply sublist_inserts_r|by right; exists e].
    rw Ha. intros x [?|Hx%elem_of_take]%elem_of_app; [by left|right]. destruct Hx as (j & Hj & _).
    by apply list_elem_of_lookup_2 with j.
Qed.

Lemma enqueue_intent_ok i s : shard_ok s -> shard_ok (enqueue_intent i s) /\
  pending_intents (enqueue_intent i s) ≡ₚ pending_intents s ++ [i] /\
  forall slot, queue_of (pendingPrepareMap (sh_prepares (enqueue_intent i s))) slot
    = queue_of (pendingPrepareMap (sh_prepares s)) slot ++ prepares_of slot [i].
Proof.
  intros [Hp Hw Hc]. rw !pending_split. unfold queued_prepares. destruct i as [i|t i|i]; cbn [enqueue_intent].
  - destruct (enqueue_prepares_ok i _ Hp) as (Hp' & Hperm & Hq).
    revert Hp' Hperm Hq. generalize (enqueuePendingPrepare i (sh_prepares s)). intros q Hp' Hperm Hq.
    split_and!; [by split| |exact Hq].
    cbn. rw Hperm fmap_app. solve_Permutation.
  - destruct (enqueue_queue_ok watermark_names watermark_wrap (watermark_key t i) i _ Hw) as (Hw' & Hperm); [done|].
    revert Hw' Hperm. generalize (enqueuePending (watermark_key t i) i (sh_watermarks s)). intros q Hw' Hperm.
    split_and!; [by split| |intros slot; cbn; by rw app_nil_r]. cbn. rw Hperm. solve_Permutation.
  - destruct (enqueue_queue_ok confirm_names confirm_wrap (confirm_key i) i _ Hc) as (Hc' & Hperm); [done|].
    revert Hc' Hperm. generalize (enqueuePending (confirm_key i) i (sh_confirms s)). intros q Hc' Hperm.
    split_and!; [by split| |intros slot; cbn; by rw app_nil_r]. cbn. rw Hperm. solve_Permutation.
Qed.

Definition event_intents (event : shard_event) : list shard_intent :=
  match event with ShardIntent i => [i] | ShardTimer => [] end.

Lemma world_ok_step all canceled start submitted queued w event : canceled ⊆ all ->
  world_ok all start submitted w ->
  world_ok all start (submitted ++ event_intents event) (shard_step batchMaxOps append queued canceled w event).
Proof.
  intros Hsc Hw. destruct event as [i|]; cbn [shard_step event_intents].
  - destruct (enqueue_intent_ok i _ (wo_shard _ _ _ _ Hw)) as (Hs & Hp & Hq).
    set (s := if queued + _ =? 1 then _ else _).
    assert (world_ok all start (submitted ++ [i])
      {| sw_shard := s; sw_journal := sw_journal w; sw_marks := sw_marks w; sw_answers := sw_answers w |}) as Hw'.
    { assert (shard_ok s /\ pending_intents s = pending_intents (enqueue_intent i (sw_shard w)) /\
        sh_prepares s = sh_prepares (enqueue_intent i (sw_shard w))) as (Hs' & Hp' & Hq').
      { unfold s. destruct (_ =? _); [|done]. destruct Hs. by split; [split|]. }
      destruct Hw as [_ Ho Hkn Hf Hc Hr Hor]. split; cbn [sw_shard sw_journal sw_answers]; [done| | | |done| |done].
      - rw (alive_app all submitted) Ho Hp' Hp (alive_app all (pending_intents (sw_shard w))). by rw app_assoc.
      - intros x. rw elem_of_app Hkn Hp' Hp. generalize (pending_intents (sw_shard w)). intros later. rw elem_of_app. tauto.
      - intros slot. rw prepares_of_app live_prepares_app Hf Hq' Hq live_prepares_app app_assoc //.
      - intros r [?|(j & Hj & ->)]%Hr; [by left|right]. exists j. split; [|done]. apply elem_of_app. by left. }
    destruct (_ && _); [by apply world_ok_flush|]. destruct (_ || _); [by apply world_ok_flush|done].
  - rw app_nil_r. destruct (sh_timer _); [by apply world_ok_flush|done].
Qed.

(** A round of a run: the messages still queued, the contexts cancelled by then,
    and the event. *)
Definition shard_round : Type := Z * gset nat * shard_event.

Definition shard_run (j : J) (marks : engine_marks) (events : list shard_round) : shard_world :=
  foldl (fun w '(queued, canceled, event) => shard_step batchMaxOps append queued canceled w event)
    {| sw_shard := empty_shard; sw_journal := j; sw_marks := marks; sw_answers := [] |} events.

Definition run_intents (events : list shard_round) : list shard_intent :=
  concat ((fun e => event_intents e.2) <$> events).

Definition canceled_in (events : list shard_round) : gset nat := ⋃ ((fun e => e.1.2) <$> events).

Lemma empty_world_ok all j marks :
  world_ok all (held j) [] {| sw_shard := empty_shard; sw_journal := j; sw_marks := marks; sw_answers := [] |}.
Proof.
  split; cbn; [|done|intros i; split; [by intros ?%elem_of_nil|by intros [?%elem_of_nil|?%elem_of_nil]]|done|by intros i ?%elem_of_nil|by left
    |intros; apply sublist_nil_l].
  split; [|apply empty_queue_ok..]. split; [|done]. split; cbn; [constructor| |intros slot i; unfold queue_of; rw lookup_empty; by intros ?%elem_of_nil].
  intros slot. unfold queue_of. rw lookup_empty. split; [by intros ?%elem_of_nil|done].
Qed.

Lemma run_world_ok all j marks events : canceled_in events ⊆ all ->
  world_ok all (held j) (run_intents events) (shard_run j marks events).
Proof.
  induction events as [|[[queued canceled] event] events IH] using rev_ind; [intros _; apply empty_world_ok|].
  unfold canceled_in. rw fmap_app union_list_app. intros Hall.
  unfold shard_run, run_intents. rw foldl_snoc fmap_app concat_app. cbn [fmap list_fmap concat]. rw app_nil_r.
  cbn in Hall. apply world_ok_step; [set_solver|]. apply IH. unfold canceled_in. set_solver.
Qed.

Lemma queue_prepares {K} `{Countable K} (wrap : K -> progressIntent -> shard_intent) (q : progress_queue K) :
  (forall k i, match wrap k i with PrepareIntent _ => False | _ => True end) -> intent_prepares (queue_intents wrap q) = [].
Proof.
  intros Hw. rw queue_intents_eq. induction (pq_order q) as [|k l IH]; [done|]. rw fmap_cons. cbn [concat].
  rw intent_prepares_app IH app_nil_r. unfold key_intents. destruct (_ !! k); [|done]. apply intent_prepares_none. intros i. apply Hw.
Qed.

Lemma pending_prepares s slot : shard_ok s ->
  prepares_of slot (pending_intents s) = queue_of (pendingPrepareMap (sh_prepares s)) slot.
Proof.
  intros Hs. unfold prepares_of. rw pending_split !intent_prepares_app intent_prepares_wrapped !queue_prepares //.
  rw !app_nil_r. apply of_slot_all, Hs.
Qed.

Lemma flush_progress all canceled start submitted w :
  world_ok all start submitted w -> 0 < batchMaxOps -> pending_intents (sw_shard w) <> [] ->
  (length (pending_intents (sw_shard (shard_flush batchMaxOps append canceled w))) < length (pending_intents (sw_shard w)))%nat.
Proof.
  intros Hw Hops Hne. set (s0 := (sw_shard w) <| sh_timer := false |>).
  assert (shard_ok s0) as Hs0 by (destruct (wo_shard _ _ _ _ Hw); by split).
  assert (pending_intents s0 = pending_intents (sw_shard w)) as Hp by done. rw -Hp in Hne |- *.
  pose proof (take_batch_progress batchMaxOps s0 Hs0 Hops Hne) as Hprog.
  pose proof (take_batch_taken batchMaxOps s0 Hs0) as Ht. unfold shard_flush. fold s0.
  destruct (_ && _ && _) eqn:E.
  { destruct Hne. rw pending_split. apply andb_true_iff in E as [[E1 E2]%andb_true_iff E3].
    apply Z.eqb_eq in E1. apply bool_decide_eq_true in E2, E3. rw (queue_intents_empty _ _ E2) (queue_intents_empty _ _ E3).
    unfold queued_prepares. rw (nil_length_inv (all_queued _ _)) //. pose proof (po_count _ (so_prepares _ Hs0)). lia. }
  destruct (take_batch batchMaxOps s0) as [items s']. cbn [fst] in Hprog.
  assert (length (pending_intents s') < length (pending_intents s0))%nat as Hlt.
  { rw (bt_once _ _ _ Ht) length_app. destruct items as [|item items]; [done|].
    pose proof (bt_items _ _ _ Ht) as Hi. apply Forall_cons in Hi as [Hi%item_nonempty _]. unfold batch_intents. cbn. rw length_app.
    destruct (item_intents item); [done|]. cbn. lia. }
  cbn [sw_journal sw_answers sw_marks]. destruct (concat (item_record canceled <$> items)); [done|].
  by destruct (append _ _) as [journal [[]|e]].
Qed.

(** ** Claims *)

(** C22. A journal shard answers every intent whose context is not cancelled
    exactly once and in order.  After any sequence of submissions and timer
    ticks, with contexts cancelled at any time and whatever appends fail: every
    intent submitted is answered or still pending, and nothing else is.  Of the
    intents whose context is never cancelled: none is both answered and pending,
    or answered twice; the prepares of a slot are answered in the order of their
    submission; one answered without error is covered by a record of the journal
    (its own record for a prepare, one of at least its sequence number for the
    progress records, which are coalesced); and the journal holds the prepares of
    a slot in order.  It holds no record that was not asked for; and a flush
    shortens the queues, so that flushing empties them.  (An intent whose context
    is cancelled may be answered twice, [canceled_prepare_reported_durable].) *)
Theorem journal_shard_answers (j : J) marks events :
  let w := shard_run j marks events in
  let alive := alive (canceled_in events) in
  (forall i, i ∈ run_intents events <-> i ∈ (sw_answers w).*1 \/ i ∈ pending_intents (sw_shard w)) /\
  alive (run_intents events) ≡ₚ alive (sw_answers w).*1 ++ alive (pending_intents (sw_shard w)) /\
  (forall slot, prepares_of slot (alive (run_intents events))
    = prepares_of slot (alive (sw_answers w).*1) ++ prepares_of slot (alive (pending_intents (sw_shard w)))) /\
  (forall i, i ∈ alive (completed (sw_answers w)) -> covered (held (sw_journal w)) i) /\
  (forall slot, prepare_records (prepares_of slot (alive (completed (sw_answers w)))) `sublist_of` held (sw_journal w)) /\
  (forall r, r ∈ held (sw_journal w) -> r ∈ held j \/ exists i, i ∈ run_intents events /\ r = intent_record i) /\
  (forall canceled, 0 < batchMaxOps -> pending_intents (sw_shard w) <> [] ->
   (length (pending_intents (sw_shard (shard_flush batchMaxOps append canceled w))) < length (pending_intents (sw_shard w)))%nat).
Proof.
  intros w alive. pose proof (run_world_ok (canceled_in events) j marks events ltac:(done)) as Hw. fold w in Hw.
  unfold alive. split_and!; try apply Hw.
  - intros slot. rw !alive_prepares pending_prepares; [apply Hw|]. apply (wo_fifo _ _ _ _ Hw).
  - intros slot. rw alive_prepares. apply (wo_order _ _ _ _ Hw).
  - intros canceled. by apply (flush_progress _ canceled _ _ _ Hw).
Qed.

Lemma completed_all answers : (forall d, d ∈ answers -> d.2 = Completed) -> completed answers = answers.*1.
Proof.
  intros Ha. unfold completed. f_equal. apply List.forallb_filter_id, List.forallb_forall.
  intros d Hd%list_elem_of_In. by rw (Ha d Hd).
Qed.

(** As long as no append fails and no context is cancelled, what a slot owner is
    told is durable is durable: if the owner submitted the prepares of a slot under consecutive
    sequence numbers, then once the one numbered [n] is answered without error
    the journal holds the records of all of them up to [n].  This is what lets
    the owner keep one number, the highest prepared, for the prefix that is
    durable. *)
Theorem prepared_prefix_journaled (j : J) marks events slot base i :
  let w := shard_run j marks events in
  let sequences := (fun p => op_Sequence (dc_Operation (pi_prepare p))) <$> prepares_of slot (run_intents events) in
  canceled_in events = ∅ -> (forall d, d ∈ sw_answers w -> d.2 = Completed) ->
  sequences = (fun k => base + Z.of_nat k) <$> seq 1 (length sequences) ->
  i ∈ prepares_of slot (sw_answers w).*1 ->
  forall n, base < n <= op_Sequence (dc_Operation (pi_prepare i)) ->
  exists p, p ∈ prepares_of slot (run_intents events) /\ op_Sequence (dc_Operation (pi_prepare p)) = n /\
    journalRecordFromPrepare (pi_prepare p) ∈ held (sw_journal w).
Proof.
  intros w sequences Hnone Hall Hseq Hi n Hn. assert (canceled_in events ⊆ ∅) as Hsub by by rw Hnone.
  pose proof (run_world_ok ∅ j marks events Hsub) as Hw. fold w in Hw.
  set (f := fun p => op_Sequence (dc_Operation (pi_prepare p))) in *.
  pose proof (wo_fifo _ _ _ _ Hw slot) as Hf. pose proof (wo_order _ _ _ _ Hw slot) as Hor. rw (completed_all _ Hall) in Hor.
  assert (forall l, live_prepares ∅ l = l) as Hlive.
  { intros l. apply List.forallb_filter_id, List.forallb_forall. intros x _. unfold live. cbn. unfold ctx_canceled.
    destruct (pi_ctx x); [|done]. by rw bool_decide_eq_false_2; [set_solver|]. }
  rw !Hlive in Hf, Hor.
  set (answered := prepares_of slot (sw_answers w).*1) in *.
  assert (forall k p, prepares_of slot (run_intents events) !! k = Some p -> f p = base + Z.of_nat (S k)) as Hk.
  { intros k p Hp. assert (sequences !! k = Some (f p)) as Hs by (unfold sequences; rw list_lookup_fmap Hp //).
    rw Hseq list_lookup_fmap in Hs. destruct (seq 1 (length sequences) !! k) as [m|] eqn:Em; [|done].
    apply lookup_seq in Em as [-> _]. by injection Hs. }
  apply list_elem_of_lookup in Hi as [k Hk1].
  assert (prepares_of slot (run_intents events) !! k = Some i) as Hki by (rw Hf; by apply lookup_app_l_Some).
  pose proof (Hk k i Hki) as Hfi. change (op_Sequence (dc_Operation (pi_prepare i))) with (f i) in Hn.
  set (m := Z.to_nat (n - base - 1)). assert (m < length answered)%nat as Hm.
  { apply lookup_lt_Some in Hk1. unfold m. lia. }
  destruct (lookup_lt_is_Some_2 _ _ Hm) as [p Hp].
  assert (prepares_of slot (run_intents events) !! m = Some p) as Hmp by (rw Hf; by apply lookup_app_l_Some).
  exists p. split; [by apply list_elem_of_lookup_2 with m|]. split; [change (f p = n); rw (Hk m p Hmp); unfold m; lia|].
  apply (elem_of_sublist _ _ _ (list_elem_of_fmap_2 (fun i => journalRecordFromPrepare (pi_prepare i)) _ _
    (list_elem_of_lookup_2 _ _ _ Hp)) Hor).
Qed.
End runs.

(** ** Concrete shards

    A journal in memory that refuses some appends: the records and the
    outcomes to come. *)
Definition flaky_append (j : list journalRecord * list bool) (records : list journalRecord)
    : list journalRecord * list bool * res storage_error unit :=
  match j with
  | (held, false :: outcomes) => (held, outcomes, Err ErrInvalidStorageConfig)
  | (held, outcomes) => (held ++ records, tail outcomes, Ok tt)
  end.

#[local] Instance flaky_journal : JournalAppend flaky_append.
Proof.
  refine {| held := fst |}. intros [held [|[] outcomes]] records; cbn; [done|done|]. exists 0%nat. by rw app_nil_r.
Defined.

Definition no_marks : engine_marks := {| highWater := ∅; prepareHigh := ∅ |}.

Definition first_write : slot_config := do_put (start_config alone) no_conditions 100 "a" "1".
Definition second_write : slot_config := do_put first_write no_conditions 200 "b" "2".

Definition prepare_of (c : slot_config) (ctx : option nat) (n : nat) : shard_intent :=
  submitPrepare ctx {| dc_Operation := nth n (sc_log c) put_write; dc_Persisted := persistedReplica (record_of c);
                       dc_UpstreamConfirmedSequence := 0 |} n.

(** The backlog of the slot opened again. *)
Definition reopened_backlog (assignment : ReplicaAssignment) (journal : list journalRecord) : list DurableCommit :=
  let opened := ok_or emptyRecord (openReplica
    (persistedReplica ((record_of second_write) <| rr_assignment := assignment |>)) (Ok 0) (Ok 0)) in
  match recoverJournaledReplicaState [{| mem_records := journal |}] {[3 := opened]} with
  | Ok (_, backlog, _, _) => backlog
  | Err _ => []
  end.

(** Two prepares of a slot and the commit range up to the second; [canceled] are
    the contexts cancelled from the start. *)
Definition write_rounds (canceled : gset nat) (ctx : option nat) : list shard_round :=
  (fun e => (0, canceled, e)) <$>
  [ShardIntent (prepare_of second_write ctx 0); ShardTimer;
   ShardIntent (prepare_of second_write None 1); ShardTimer;
   ShardIntent (submitHeadCommitRange None alone 2 2); ShardTimer].

Definition write_intents : list shard_round := write_rounds ∅ None.

(** An append that fails, and a context that is cancelled. *)
Lemma journal_shard_answers_witness :
  let w := shard_run 64 flaky_append ([], [false]) no_marks write_intents in
  let w' := shard_run 64 flaky_append ([], []) no_marks (write_rounds {[7%nat]} (Some 7%nat)) in
  snd <$> sw_answers w = [CompletedError ErrInvalidStorageConfig; Completed; Completed] /\
  alive (canceled_in write_intents) (run_intents write_intents) ≡ₚ
    alive (canceled_in write_intents) (sw_answers w).*1 ++ alive (canceled_in write_intents) (pending_intents (sw_shard w)) /\
  snd <$> sw_answers w' = [CompletedCanceled; Completed; Completed] /\
  forall i, i ∈ alive {[7%nat]} (completed (sw_answers w')) -> covered (held (sw_journal w')) i.
Proof.
  destruct (journal_shard_answers 64 flaky_append ([], [false]) no_marks write_intents) as (_ & H1 & _).
  destruct (journal_shard_answers 64 flaky_append ([], []) no_marks (write_rounds {[7%nat]} (Some 7%nat))) as (_ & _ & _ & H2 & _).
  cbv zeta. split; [vm_compute; reflexivity|]. split; [exact H1|]. split; [vm_compute; reflexivity|].
  intros i Hi. apply H2. replace (canceled_in _) with ({[7%nat]} : gset nat); [exact Hi|vm_compute; reflexivity].
Defined.

Lemma prepared_prefix_journaled_witness :
  let w := shard_run 64 flaky_append ([], []) no_marks write_intents in
  length (sw_answers w) = 3%nat /\ forall n, 0 < n <= 2 -> exists p, p ∈ prepares_of 3 (run_intents write_intents) /\
    op_Sequence (dc_Operation (pi_prepare p)) = n /\ journalRecordFromPrepare (pi_prepare p) ∈ held (sw_journal w).
Proof.
  intros w. split; [vm_compute; reflexivity|]. intros n Hn.
  assert (exists i, prepare_of second_write None 1 = PrepareIntent i /\ op_Sequence (dc_Operation (pi_prepare i)) = 2 /\
    i ∈ prepares_of 3 (sw_answers w).*1) as (i & _ & Hs & Hi).
  { eexists. split; [reflexivity|]. split; [vm_compute; reflexivity|]. unfold w. vm_compute. right. left. }
  apply (prepared_prefix_journaled 64 flaky_append ([], []) no_marks write_intents 3 0 i); [vm_compute; reflexivity| |vm_compute; reflexivity|exact Hi|by rw Hs].
  unfold w. vm_compute (sw_answers _). intros d Hd. repeat (apply elem_of_cons in Hd as [->|Hd]; [done|]). by apply elem_of_nil in Hd.
Defined.

(** ** What the shards do not do *)

(** Finding: a batch that cannot be appended is answered with the error and
    the shard goes on, so a later prepare is journalled after a gap; the owner
    keeps only the highest prepared sequence number and counts the missing one
    as durable too.  On a single replica both writes are then committed and
    read, and a range over both is journalled; after a restart the first one is
    gone, the committed sequence number still covers it, and the backlog, which
    begins after the gap, is refused by the backend for good. *)
Theorem failed_append_loses_committed_write :
  let w := shard_run 64 flaky_append ([], [false]) no_marks write_intents in
  let prepared := do_prepared second_write 1 in
  let '(rt, range) := submitCommitWatermarkReady 16 0 (sc_rt prepared) (record_of prepared) in
  let committed := applyCommitWatermark 16 rt 2 in
  snd <$> sw_answers w = [CompletedError ErrInvalidStorageConfig; Completed; Completed] /\
  range = Some 2 /\
  rr_highestCommittedSequence (own_record committed) = 2 /\
  (value_at (own_record committed) "a", value_at (own_record committed) "b") = (Some "1", Some "2") /\
  option_map (fun r => (rr_highestCommittedSequence r, value_at r "a", value_at r "b"))
    (reopened alone (held (sw_journal w))) = Some (2, None, Some "2") /\
  (flush {[3 := alone]} new_replica (newCommitMaterializer (reopened_backlog alone (held (sw_journal w))))).2 = false.
Proof. vm_compute. split_and!; reflexivity. Qed.

(** Finding: an intent whose context is cancelled is answered with the
    cancellation and left out of the batch, but answered again with the result
    of the batch: its handler is told that a record that was never written is
    durable, and the engine's mark says so too. *)
Theorem canceled_prepare_reported_durable :
  let start := {| sw_shard := empty_shard; sw_journal := ([], []); sw_marks := no_marks; sw_answers := [] |} in
  let first := prepare_of second_write (Some 7%nat) 0 in
  let second := prepare_of second_write None 1 in
  let w := shard_step 64 flaky_append 0 {[7%nat]}
    (shard_step 64 flaky_append 1 {[7%nat]} start (ShardIntent first)) (ShardIntent second) in
  sw_answers w = [(first, CompletedCanceled); (first, Completed); (second, Completed)] /\
  held (sw_journal w) = [intent_record second].
Proof. vm_compute. split; reflexivity. Qed.

(** Finding: a flush that cannot take everything stops the timer and leaves
    the rest without one.  Here the batch is full with prepares, and the
    watermark behind them waits until something else arrives. *)
Theorem flush_leaves_work_without_timer :
  let w := shard_run 2 flaky_append ([], []) no_marks
    [(2, ∅, ShardIntent (submitCommitWatermark None head_assignment 1 5));
     (1, ∅, ShardIntent (prepare_of second_write None 0));
     (0, ∅, ShardIntent (prepare_of second_write None 1))] in
  length (sw_answers w) = 2%nat /\
  pending_intents (sw_shard w) = [submitCommitWatermark None head_assignment 1 5] /\
  sh_timer (sw_shard w) = false.
Proof. vm_compute. split_and!; reflexivity. Qed.
