(* ===== verification/MaterializerTheorems.v ===== *)
(** * What the materialiser does for the slots

    A flush applies to the backend exactly what it lacks of the logs, in their
    order, whatever overlaps with what it has; one that fails leaves a backlog
    that still is good; and both are steps the owners' theorems allow. *)

From S2P Require Import Prelude.
From S2P Require Import StorageTypes.
From S2P Require Import SlotReducer.
From S2P Require Import SlotOwner.
From S2P Require Import SlotLifecycle.
From S2P Require Import SlotProps.
From S2P Require Import SlotTheorems.
From S2P Require Import SlotFailover.
From S2P Require Import Journal.
From S2P Require Import Backend.
From S2P Require Import BackendProps.
From S2P Require Import Materializer.

Open Scope Z_scope.
Open Scope record_scope.

(** ** Backlogs *)
(** How far the backend is in each slot. *)
Abbreviation marks := (gmap Z Z).

Definition marks_of (v : backend_view) : marks := snd <$> v.

Definition below (a b : marks) : Prop := forall slot,
  match a !! slot, b !! slot with Some x, Some y => x <= y | None, None => True | _, _ => False end.

Definition upper (a b : marks) : marks := union_with (fun x y => Some (Z.max x y)) a b.

Section logs.
Context (logs : gmap Z (list WriteOperation)).

(** The backend has a prefix of each log. *)
Definition viewed (v : backend_view) : Prop := forall slot objects h, v !! slot = Some (objects, h) ->
  exists log, logs !! slot = Some log /\ log_ok log /\ zlength log < u64_mod - 1 /\
    0 <= h <= zlength log /\ objects = materialise (ztake h log).

(** It may be one object ahead of its mark, where [c] says it will get there:
    what a batch that failed leaves. *)
Definition settling (c : marks) (v : backend_view) : Prop := forall slot objects h, v !! slot = Some (objects, h) ->
  exists log, logs !! slot = Some log /\ log_ok log /\ zlength log < u64_mod - 1 /\ 0 <= h <= zlength log /\
    (objects = materialise (ztake h log) \/
     exists n, c !! slot = Some n /\ h < n /\ objects = materialise (ztake (h + 1) log)).

Lemma viewed_settling c v : viewed v -> settling c v.
Proof.
  intros Hv slot objects h Hs. destruct (Hv _ _ _ Hs) as (log & Hl & Hok & Hr & Hb & Ho).
  exists log. split_and!; try done; try lia. by left.
Qed.

Lemma settled v : settling (marks_of v) v -> viewed v.
Proof.
  intros Hv slot objects h Hs. destruct (Hv _ _ _ Hs) as (log & Hl & Hok & Hr & Hb & Ho).
  exists log. split_and!; try done; try lia. destruct Ho as [Ho|(n & Hn & Hlt & _)]; [done|].
  unfold marks_of in Hn. rw lookup_fmap Hs in Hn. injection Hn as Hn. cbn in Hn. lia.
Qed.

(** One commit that continues its slot. *)
Definition continues (a : marks) (commit : DurableCommit) (b : marks) : Prop :=
  let op := dc_Operation commit in
  exists h log, a !! op_Slot op = Some h /\ logs !! op_Slot op = Some log /\ 0 <= h /\
    log !! Z.to_nat h = Some op /\ op_Sequence op = h + 1 /\ b = <[op_Slot op := h + 1]> a.

(** A batch that continues the slots without overlap. *)
Inductive extends : marks -> list DurableCommit -> marks -> Prop :=
| extends_nil a : extends a [] a
| extends_cons a b c commit commits : continues a commit b -> extends b commits c -> extends a (commit :: commits) c.

(** A backlog: every commit either continues its slot or is there already. *)
Inductive feeds : marks -> list DurableCommit -> marks -> Prop :=
| feeds_nil a : feeds a [] a
| feeds_old a c h commit commits :
    a !! commit_slot commit = Some h -> op_Sequence (dc_Operation commit) <= h ->
    feeds a commits c -> feeds a (commit :: commits) c
| feeds_next a b c commit commits : continues a commit b -> feeds b commits c -> feeds a (commit :: commits) c.

Lemma below_refl a : below a a.
Proof. intros s. destruct (a !! s); [lia|done]. Qed.

Lemma below_trans a b c : below a b -> below b c -> below a c.
Proof.
  intros Hab Hbc s. specialize (Hab s). specialize (Hbc s).
  destruct (a !! s), (b !! s), (c !! s); try done. lia.
Qed.

Lemma continues_below a commit b : continues a commit b -> below a b.
Proof.
  intros (h & log & Ha & _ & _ & _ & _ & ->) s. destruct (decide (op_Slot (dc_Operation commit) = s)) as [<-|Hne].
  - rw lookup_insert_eq Ha. lia.
  - rw lookup_insert_ne //. apply below_refl.
Qed.

Lemma feeds_below a commits b : feeds a commits b -> below a b.
Proof.
  induction 1 as [a|a c h commit commits _ _ _ IH|a b c commit commits Hab _ IH]; [apply below_refl|done|].
  by apply (below_trans _ b); [apply (continues_below _ commit)|].
Qed.

Lemma extends_feeds a commits b : extends a commits b -> feeds a commits b.
Proof. induction 1 as [a|a b c commit commits Hab _ IH]; [apply feeds_nil|by apply (feeds_next _ b)]. Qed.

Lemma extends_app a l1 l2 c : extends a (l1 ++ l2) c -> exists b, extends a l1 b /\ extends b l2 c.
Proof.
  revert a. induction l1 as [|commit l1 IH]; intros a Hx; [exists a; split; [constructor|done]|].
  inversion Hx as [|? b ? ? ? Hc Hx']; subst. destruct (IH _ Hx') as (d & H1 & H2).
  exists d. split; [by apply (extends_cons _ b)|done].
Qed.

Lemma upper_below a b : below a b -> upper a b = b /\ upper b a = b.
Proof.
  intros Hab. split; apply map_eq; intros s; specialize (Hab s); unfold upper; rw lookup_union_with;
    destruct (a !! s), (b !! s); try done; cbn; f_equal; lia.
Qed.

(** A backlog is as good for a backend that is further on. *)
Lemma feeds_ahead a commits c : feeds a commits c ->
  forall m, below a m -> feeds m commits (upper c m).
Proof.
  induction 1 as [a|a c h commit commits Ha Hh _ IH|a b c commit commits Hab Hbc IH]; intros m Hm.
  - destruct (upper_below a m Hm) as [-> _]. constructor.
  - pose proof (Hm (commit_slot commit)) as Hs. rw Ha in Hs. destruct (m !! commit_slot commit) as [y|] eqn:Hy; [|done].
    apply (feeds_old _ _ y); [done|lia|by apply IH].
  - destruct Hab as (h & log & Ha & Hl & H0 & Hop & Hseq & ->).
    pose proof (Hm (commit_slot commit)) as Hs. unfold commit_slot in Hs. rw Ha in Hs.
    destruct (m !! op_Slot (dc_Operation commit)) as [y|] eqn:Hy; [|done].
    destruct (decide (y = h)) as [->|Hne].
    + apply (feeds_next _ (<[op_Slot (dc_Operation commit) := h + 1]> m)); [by exists h, log|].
      replace (upper c m) with (upper c (<[op_Slot (dc_Operation commit) := h + 1]> m)).
      * apply IH. intros s. specialize (Hm s). destruct (decide (op_Slot (dc_Operation commit) = s)) as [<-|Hns];
          [rw !lookup_insert_eq; lia|by rw !lookup_insert_ne].
      * apply map_eq. intros s. unfold upper. rw !lookup_union_with. apply feeds_below in Hbc. specialize (Hbc s).
        destruct (decide (op_Slot (dc_Operation commit) = s)) as [<-|Hns]; [|by rw lookup_insert_ne].
        rw lookup_insert_eq in Hbc. rw lookup_insert_eq Hy. destruct (c !! _); [|done]. cbn. f_equal. lia.
    + apply (feeds_old _ _ y); [done|lia|]. apply IH. intros s. specialize (Hm s).
      destruct (decide (op_Slot (dc_Operation commit) = s)) as [<-|Hns]; [rw lookup_insert_eq Hy; lia|].
      by rw lookup_insert_ne.
Qed.

Lemma feeds_between a commits c m : feeds a commits c -> below a m -> below m c -> feeds m commits c.
Proof.
  intros Hf Ham Hmc. destruct (upper_below m c Hmc) as [_ Hu]. rw -Hu. by apply feeds_ahead with a.
Qed.

Lemma marks_lookup v slot : marks_of v !! slot = snd <$> v !! slot.
Proof. apply lookup_fmap. Qed.

Lemma apply_op_twice s op : kind_known (op_Kind op) = true -> apply_op (apply_op s op) op = apply_op s op.
Proof.
  intros Hk. apply map_eq. intros key. unfold apply_op. destruct (op_Kind op); [| |done].
  - by rw insert_insert_eq.
  - by rw delete_delete_eq.
Qed.

(** The next commit of a slot: the object it leads to, and the object alone. *)
Lemma settling_next c v commit m : settling c v -> continues (marks_of v) commit m -> below m c ->
  let op := dc_Operation commit in
  exists v', view_apply v commit = Some v' /\ settling c v' /\ marks_of v' = m /\
    settling c (view_ahead v commit) /\ marks_of (view_ahead v commit) = marks_of v.
Proof.
  intros Hv (h & log & Hh & Hl & H0 & Hop & Hseq & ->) Hm op. rw marks_lookup in Hh.
  destruct (v !! op_Slot (dc_Operation commit)) as [[objects h']|] eqn:Hs; [|done]. injection Hh as Hh. cbn in Hh. subst h'.
  destruct (Hv _ _ _ Hs) as (log' & Hl' & Hok & Hr & Hb & Hobj). rw Hl in Hl'. injection Hl' as <-.
  pose proof (lookup_lt_Some _ _ _ Hop) as Hlt.
  assert (kind_known (op_Kind (dc_Operation commit)) = true) as Hk.
  { pose proof (lo_supported _ Hok) as HF. rw Forall_lookup in HF. by destruct (HF _ _ Hop) as [-> | ->]. }
  assert (apply_op objects op = materialise (ztake (h + 1) log)) as Hnext.
  { rw (ztake_next _ _ _ H0 Hop) materialise_snoc. destruct Hobj as [-> | (n & _ & _ & ->)]; [done|].
    rw (ztake_next _ _ _ H0 Hop) materialise_snoc. by apply apply_op_twice. }
  specialize (Hm (op_Slot op)). unfold op in Hm. rw lookup_insert_eq in Hm.
  destruct (c !! op_Slot (dc_Operation commit)) as [n|] eqn:Hn; [|done].
  unfold view_apply, view_ahead. rw Hs. cbn [mbind option_bind]. rw u64_add_small; [lia|]. rw Hseq Z.eqb_refl Hk. cbn [andb].
  eexists. split; [done|]. split; [|split; [unfold marks_of; rw fmap_insert; done|split]].
  - intros slot o h2. destruct (decide (op_Slot (dc_Operation commit) = slot)) as [<-|Hne]; [|rw lookup_insert_ne //; apply Hv].
    rw lookup_insert_eq. intros [= <- <-]. exists log. split_and!; try done; [lia|unfold zlength; lia|by left].
  - intros slot o h2. destruct (decide (op_Slot (dc_Operation commit) = slot)) as [<-|Hne]; [|rw lookup_insert_ne //; apply Hv].
    rw lookup_insert_eq. intros [= <- <-]. exists log. split_and!; try done; try lia. right. exists n.
    split_and!; [done|lia|done].
  - unfold marks_of. rw fmap_insert. cbn. rw insert_id //. by rw lookup_fmap Hs.
Qed.

Definition roomy : Prop := forall slot log, logs !! slot = Some log -> zlength log < u64_mod - 1.

Section backends.
Context {B : Type} `{HL : BackendLaws B}.

Context (b : B) (v : backend_view) (Hshows : shows b v).

Lemma current_mark expected slot h : (expected ∪ marks_of v) !! slot = Some h ->
  match expected !! slot with Some highest => Ok highest | None => HighestCommittedSequence b slot end = Ok h \/
  (faulty b v /\ exists e,
   match expected !! slot with Some highest => Ok highest | None => HighestCommittedSequence b slot end = Err e).
Proof.
  rw lookup_union. destruct (expected !! slot) as [x|]; [by destruct (marks_of v !! slot); intros [= ->]; left|].
  rw marks_lookup. destruct (v !! slot) as [[objects y]|] eqn:Hy; [|done]. intros [= Hh].
  destruct (HighestCommittedSequence b slot) as [h'|e] eqn:Hq.
  - left. apply (highest_shown _ _ _ _ _ _ Hshows Hy) in Hq as ->. by rw Hh.
  - right. split; [|by exists e]. left. exists slot, e. by rw Hy.
Qed.

(** The filter keeps what continues the slots, in order. *)
Lemma filter_feeds commits expected filtered a c :
  feeds a commits c -> roomy -> a = expected ∪ marks_of v ->
  (faulty b v /\ exists e, res_fold (filter_commit b) (expected, filtered) commits = Err e) \/
  exists expected' kept, res_fold (filter_commit b) (expected, filtered) commits = Ok (expected', filtered ++ kept) /\
    extends a kept c /\ kept `sublist_of` commits.
Proof.
  intros Hf Hroom. revert expected filtered.
  induction Hf as [a|a c h commit commits Ha Hh _ IH|a b' c commit commits Hab _ IH]; intros expected filtered ->.
  { right. exists expected, []. rw app_nil_r. split; [done|]. split; constructor. }
  - cbn [res_fold]. unfold filter_commit at 2 4. fold (commit_slot commit).
    destruct (current_mark _ _ _ Ha) as [->|(Hb & e & ->)]; [|left; split; [done|by exists e]].
    cbn [mbind res_bind]. rw (proj2 (Z.leb_le _ _) Hh).
    destruct (IH expected filtered eq_refl) as [?|(expected' & kept & Hr & Hx & Hsub)]; [by left|].
    right. exists expected', kept. split_and!; [done|done|by constructor].
  - destruct Hab as (h & log & Ha & Hl & Hh & Hop & Hseq & ->). pose proof (lookup_lt_Some _ _ _ Hop) as Hlt.
    specialize (Hroom _ _ Hl). unfold zlength in Hroom. cbn [res_fold]. unfold filter_commit at 2 4.
    destruct (current_mark _ _ _ Ha) as [->|(Hb & e & ->)]; [|left; split; [done|by exists e]].
    cbn [mbind res_bind]. rw Hseq u64_add_small; [lia|]. rw (proj2 (Z.leb_gt _ _)); [lia|]. rw Z.eqb_refl. cbn [negb].
    destruct (IH (<[op_Slot (dc_Operation commit) := h + 1]> expected) (filtered ++ [commit]))
      as [Hb|(expected' & kept & Hr & Hx & Hsub)]; [by rw insert_union_l|by left|].
    right. exists expected', (commit :: kept). split; [cbn [mbind res_bind]; by rw Hr -app_assoc|]. split; [|by constructor].
    apply (extends_cons _ (<[op_Slot (dc_Operation commit) := h + 1]> (expected ∪ marks_of v))); [|done].
    by exists h, log.
Qed.
End backends.

(** A batch that continues the slots is one the backend can apply. *)
Lemma view_extends v commits m c : settling c v -> extends (marks_of v) commits m -> below m c ->
  exists v', view_apply_all v commits = Some v' /\ settling c v' /\ marks_of v' = m.
Proof.
  revert v. induction commits as [|commit commits IH]; intros v Hv Hx Hc; inversion Hx as [|? m1 ? ? ? Hn Hx']; subst.
  { by exists v. }
  destruct (settling_next c v commit m1 Hv Hn) as (v1 & Ha & Hv1 & Hm1 & _).
  { apply (below_trans _ m); [exact (feeds_below _ _ _ (extends_feeds _ _ _ Hx'))|done]. }
  cbn [view_apply_all]. rw Ha. cbn [mbind option_bind]. apply IH; [done|by rw Hm1|done].
Qed.

(** A batch that fails leaves a backend for which the batch still is good. *)
Lemma torn_settles v commits c vt : settling c v -> extends (marks_of v) commits c -> torn v commits vt ->
  settling c vt /\ below (marks_of v) (marks_of vt) /\ below (marks_of vt) c.
Proof.
  intros Hv Hx (k & vk & Hk & Hvt). pose proof Hx as Hall. rw -(take_drop k commits) in Hx.
  apply extends_app in Hx as (mid & H1 & H2).
  pose proof (feeds_below _ _ _ (extends_feeds _ _ _ H1)) as B1. pose proof (feeds_below _ _ _ (extends_feeds _ _ _ H2)) as B2.
  destruct (view_extends v _ _ c Hv H1 B2) as (w & Hw & Hsw & Hmw). rw Hk in Hw. injection Hw as <-.
  destruct Hvt as [-> | (commit & Hc & ->)]; [by rw Hmw|].
  rw (drop_S _ _ _ Hc) in H2. inversion H2 as [|? m1 ? ? ? Hn Hx']; subst.
  destruct (settling_next c vk commit m1 Hsw Hn) as (v1 & _ & _ & _ & Hs & Hm); [exact (feeds_below _ _ _ (extends_feeds _ _ _ Hx'))|].
  by rw Hm.
Qed.

(** [applyMaterializedBatch]: all of the backlog, or a first part of it. *)
Lemma applyMaterializedBatch_feeds {B} `{BackendLaws B} (b : B) v commits c :
  shows b v -> settling c v -> roomy -> feeds (marks_of v) commits c -> Forall admits commits ->
  let '(b', answer) := applyMaterializedBatch b commits in
  exists v', shows b' v' /\ settling c v' /\
  match answer with
  | Ok _ => marks_of v' = c
  | Err _ => faulty b v /\ feeds (marks_of v') commits c /\ below (marks_of v) (marks_of v')
  end.
Proof.
  intros Hb Hv Hroom Hf Hadm. unfold applyMaterializedBatch, filterMaterializedCommits.
  destruct (filter_feeds b v Hb commits ∅ [] _ _ Hf Hroom) as [(Hfb & e & ->)|(expected & kept & -> & Hx & Hsub)];
    [by rw map_empty_union|exists v; split_and!; try done; apply below_refl|]. cbn [mbind res_bind app].
  destruct (view_extends _ _ _ _ Hv Hx (below_refl c)) as (w & Ha & Hv' & Hm).
  destruct kept as [|commit kept]; [injection Ha as <-; by exists v|].
  set (batch := commit :: kept) in *. assert (Forall admits batch) as Hbatch.
  { rw !Forall_forall in Hadm |- *. intros x Hin. apply Hadm. exact (elem_of_submseteq _ _ _ Hin (sublist_submseteq _ _ Hsub)). }
  destruct (ApplyCommittedBatch b batch) as [b' answer] eqn:Hap.
  pose proof (apply_shown _ _ _ _ _ _ Hb Hbatch Ha Hap) as Hl. destruct answer as [[]|e]; [by exists w|].
  destruct Hl as (vt & Ht & Hs). destruct (torn_settles _ _ _ _ Hv Hx Ht) as (Hst & B1 & B2). exists vt.
  split_and!; [done|done|right; exists batch, b', e; by rw Ha|by apply (feeds_between (marks_of v))|done].
Qed.
End logs.

(** ** What is reported *)
Lemma note_applied_lookup applied commit slot :
  note_applied applied commit !! slot =
  if (commit_slot commit =? slot) && (default 0 (applied !! slot) <? op_Sequence (dc_Operation commit))
  then Some (op_Sequence (dc_Operation commit)) else applied !! slot.
Proof.
  unfold note_applied. destruct (Z.eqb_spec (commit_slot commit) slot) as [<-|Hne]; cbn [andb].
  - destruct (_ <? _); [by rw lookup_insert_eq|done].
  - destruct (_ <? _); [by rw lookup_insert_ne|done].
Qed.

(** The mark reported for a slot is a commit's sequence and none is higher. *)
Lemma applied_spec commits slot :
  let applied := foldl note_applied ∅ commits in
  (forall n, applied !! slot = Some n -> exists commit, commit ∈ commits /\ commit_slot commit = slot /\
     op_Sequence (dc_Operation commit) = n) /\
  (forall commit, commit ∈ commits -> commit_slot commit = slot -> 0 < op_Sequence (dc_Operation commit) ->
     exists n, applied !! slot = Some n /\ op_Sequence (dc_Operation commit) <= n).
Proof.
  cbv zeta. induction commits as [|last commits [IH1 IH2]] using rev_ind; [by split; [|intros ? ?%elem_of_nil]|].
  rw foldl_snoc note_applied_lookup. generalize dependent (foldl note_applied ∅ commits). intros applied IH1 IH2.
  destruct (Z.eqb_spec (commit_slot last) slot) as [Hs|Hs]; cbn [andb];
    [destruct (Z.ltb_spec (default 0 (applied !! slot)) (op_Sequence (dc_Operation last))) as [Hlt|Hle]|]; (split;
    [intros n Hn|intros commit [Hc|Hc%list_elem_of_singleton]%elem_of_app Hcs Hp; [destruct (IH2 _ Hc Hcs Hp) as (n & Hn & Hm)|subst commit]]).
  - exists last. injection Hn as <-. split; [apply elem_of_app; right; by apply list_elem_of_singleton|done].
  - eexists. split; [done|]. rw Hn in Hlt. cbn in Hlt. lia.
  - eexists. split; [done|lia].
  - destruct (IH1 _ Hn) as (commit & Hc & Hcs). exists commit. split; [apply elem_of_app; by left|done].
  - by exists n.
  - destruct (applied !! slot) as [n|]; cbn in Hle; [by exists n|lia].
  - destruct (IH1 _ Hn) as (commit & Hc & Hcs). exists commit. split; [apply elem_of_app; by left|done].
  - by exists n.
  - done.
Qed.

Lemma feeds_bound logs a commits c commit :
  feeds logs a commits c -> commit ∈ commits ->
  exists h, c !! commit_slot commit = Some h /\ op_Sequence (dc_Operation commit) <= h.
Proof.
  induction 1 as [a|a c h next commits Ha Hh Hf IH|a b c next commits Hab Hf IH];
    [by intros ?%elem_of_nil|..]; (intros [->|Hin]%elem_of_cons; [|by apply IH]).
  - pose proof (feeds_below _ _ _ _ Hf (commit_slot next)) as Hb. rw Ha in Hb.
    destruct (c !! commit_slot next) as [y|]; [|done]. exists y. split; [done|lia].
  - destruct Hab as (h & log & Ha & _ & _ & _ & Hseq & ->). pose proof (feeds_below _ _ _ _ Hf (commit_slot next)) as Hb.
    unfold commit_slot in *. rw lookup_insert_eq in Hb.
    destruct (c !! op_Slot (dc_Operation next)) as [y|]; [|done]. exists y. split; [done|lia].
Qed.

(** ** Claims *)
(** A flush of the materialiser loses nothing: with a backend that has a
    prefix of each slot's log, perhaps one object ahead of its mark after a
    batch that failed, and a backlog that continues these prefixes, overlaps
    allowed, a flush that succeeds brings every slot to the end of its backlog,
    objects and mark, empties the backlog and reports for each slot in it a mark
    the backend has reached; one that fails, which only an error of the backend
    brings about, keeps the backlog, and the backlog still fits the backend,
    even when a first part of the batch went through, torn between the object
    of a commit and its mark. *)
Theorem flush_applies_backlog {B} `{BackendLaws B} logs published (b : B) v m c :
  shows b v -> settling logs c v -> roomy logs -> feeds logs (marks_of v) (wanted published m) c ->
  Forall admits (wanted published m) ->
  let '(b', m', applied, ok) := flush published b m in
  exists v', shows b' v' /\ mt_suppressedSlots m' = mt_suppressedSlots m /\
  if ok then
    mt_pending m' = [] /\ marks_of v' = c /\ viewed logs v' /\
    (forall slot n, applied !! slot = Some n -> exists h, c !! slot = Some h /\ n <= h) /\
    (forall commit, commit ∈ wanted published m -> 0 < op_Sequence (dc_Operation commit) ->
       exists n, applied !! commit_slot commit = Some n /\ op_Sequence (dc_Operation commit) <= n)
  else
    faulty b v /\ mt_pending m' = mt_pending m /\ applied = ∅ /\ settling logs c v' /\
    feeds logs (marks_of v') (wanted published m') c.
Proof.
  intros Hb Hv Hr Hf Hadm. unfold flush. cbn [mt_pending mt_suppressedSlots set_field].
  replace (wanted published (m <| mt_timer := false |>)) with (wanted published m) by done.
  destruct (mt_pending m) eqn:Hp.
  { assert (wanted published m = []) as Hw by (unfold wanted; by rw Hp). rw Hw in Hf |- *. inversion Hf; subst.
    exists v. cbn. rw Hp. split_and!; try done; [by apply settled|by intros ? ?%elem_of_nil]. }
  destruct (wanted published m) as [|w ws] eqn:Hw.
  { inversion Hf; subst. exists v. cbn. split_and!; try done; [by apply settled|by intros ? ?%elem_of_nil]. }
  pose proof (applyMaterializedBatch_feeds logs b v _ c Hb Hv Hr Hf Hadm) as Ha.
  destruct (applyMaterializedBatch b (w :: ws)) as [b' [[]|e]]; destruct Ha as (v' & Hb' & Hv' & Ha);
    exists v'; (split; [done|split; [done|]]).
  - split; [done|]. split; [done|]. split; [subst c; by apply settled|]. split.
    + intros slot n Hn. destruct (applied_spec (w :: ws) slot) as [H1 _]. destruct (H1 _ Hn) as (commit & Hc & <- & <-).
      by apply (feeds_bound logs _ _ _ _ Hf).
    + intros commit Hc Hp0. destruct (applied_spec (w :: ws) (commit_slot commit)) as [_ H2]. by apply H2.
  - destruct Ha as (Hfb & Ha & _). split_and!; [done|by cbn|done|done|]. cbn. by rw -Hw in Ha.
Qed.

(** ** From an owner to the backend *)
Lemma commits_from_feeds logs log base rt slot k a (marks : marks) n :
  slot_inv log base rt -> logs !! slot = Some log -> Forall (fun op => op_Slot op = slot) log ->
  rr_materializedCommittedSequence (own_record rt) <= a -> a + Z.of_nat k <= zlength log ->
  marks !! slot = Some n -> a <= n ->
  feeds logs marks (commits_from k (own_record rt) (u64_add a 1)) (<[slot := Z.max n (a + Z.of_nat k)]> marks) /\
  Forall (fun commit => dc_Persisted commit = persistedReplica (own_record rt) /\ commit_slot commit = slot)
    (commits_from k (own_record rt) (u64_add a 1)) /\
  (0 < Z.of_nat k -> exists commit, commit ∈ commits_from k (own_record rt) (u64_add a 1) /\
     op_Sequence (dc_Operation commit) = a + Z.of_nat k).
Proof.
  intros Hi Hlog Hslots. pose proof (si_room _ _ _ Hi). pose proof (si_order _ _ _ Hi) as [[H0 _] _].
  revert a marks n. induction k as [|k IH]; intros a marks n Ha Hk Hn Han.
  { split_and!; [|constructor|lia]. rw insert_id; [rw Hn; f_equal; lia|constructor]. }
  rw u64_add_small; [lia|]. cbn [commits_from].
  destruct (lookup_lt_is_Some_2 log (Z.to_nat a)) as [op Hop]; [unfold zlength in *; lia|].
  pose proof (lo_sequence _ (si_log _ _ _ Hi) _ _ Hop) as Hseq. rw Z2Nat.id in Hseq; [lia|].
  pose proof (si_prepared _ _ _ Hi _ _ Hop) as Hpre. rw Hseq in Hpre. rw Hpre; [lia|]. rw cloneWriteOperation_id.
  assert (op_Slot op = slot) as Hs by (rw Forall_lookup in Hslots; exact (Hslots _ _ Hop)).
  set (commit := {| dc_Operation := op |}).
  set (marks' := if decide (n <= a) then <[slot := a + 1]> marks else marks).
  destruct (IH (a + 1) marks' (Z.max n (a + 1))) as (Hf & Hall & Hlast); [lia|lia| |lia|].
  { unfold marks'. destruct (decide (n <= a)); [rw lookup_insert_eq|rw Hn]; f_equal; lia. }
  split_and!.
  - replace (<[slot := Z.max n (a + Z.of_nat (S k))]> marks) with (<[slot := Z.max (Z.max n (a + 1)) (a + 1 + Z.of_nat k)]> marks').
    + unfold marks' in *. destruct (decide (n <= a)).
      * apply (feeds_next _ _ (<[slot := a + 1]> marks)); [|done]. exists a, log. cbn. rw Hs.
        split_and!; try done; [rw Hn; f_equal; lia|lia].
      * apply (feeds_old _ _ _ n); [unfold commit_slot; cbn; by rw Hs|cbn; lia|done].
    + unfold marks'. destruct (decide (n <= a)); rw ?insert_insert_eq; f_equal; lia.
  - constructor; [done|done].
  - intros _. destruct k as [|k].
    + exists commit. split; [by left|]. cbn. lia.
    + destruct Hlast as (x & Hx & Hxs); [lia|]. exists x. split; [by right|lia].
Qed.

(** The owner learns how far the backend is. *)
Lemma materialised_steps c n : config_inv c ->
  sc_base c = materialise (ztake n (sc_log c)) ->
  rr_materializedCommittedSequence (own_record (sc_rt c)) <= n <= rr_highestCommittedSequence (own_record (sc_rt c)) ->
  let high := rr_highestCommittedSequence (own_record (sc_rt c)) in
  let c' := {| sc_log := sc_log c; sc_base := materialise (committed_prefix (sc_log c) (sc_rt c));
               sc_rt := markMaterialized (sc_rt c) high |} in
  rtc slot_step c c' /\ rr_materializedCommittedSequence (own_record (sc_rt c')) = high /\
  rr_committedOverlay (own_record (sc_rt c')) = ∅.
Proof.
  intros Hi Hb Hn high. pose proof (si_order _ _ _ Hi) as [Hm _]. cbv zeta.
  set (c1 := {| sc_log := sc_log c; sc_base := materialise (ztake high (sc_log c)); sc_rt := sc_rt c |}).
  assert (slot_step c c1) as H1 by (apply (slot_apply c n); [done|unfold high; lia|unfold high; lia]).
  assert (slot_step c1 (after_rt c1 (markMaterialized (sc_rt c1) high))) as H2.
  { by apply (slot_materialised c1 high high); [|cbn; lia|cbn; lia]. }
  assert (rr_nextSequence (own_record (markMaterialized (sc_rt c) high)) = rr_nextSequence (own_record (sc_rt c)) /\
    rr_materializedCommittedSequence (own_record (markMaterialized (sc_rt c) high)) = high /\
    rr_highestCommittedSequence (own_record (markMaterialized (sc_rt c) high)) = high) as (E1 & E2 & E3).
  { unfold markMaterialized. rw (si_exists _ _ _ Hi). cbn -[recordPruneMaterializedOverlay].
    rw prune_eq; [unfold high; lia|done]. }
  replace (after_rt c1 (markMaterialized (sc_rt c1) high)) with
    {| sc_log := sc_log c; sc_base := materialise (ztake high (sc_log c)); sc_rt := markMaterialized (sc_rt c) high |} in H2
    by (unfold after_rt; cbn [sc_log sc_rt sc_base c1]; by rw grown_same).
  split; [|split; [done|]].
  - apply (rtc_l _ _ c1); [done|by apply rtc_once].
  - pose proof (slot_step_inv _ _ (slot_step_inv _ _ Hi H1) H2) as Hi2. apply map_eq. intros key.
    pose proof (si_overlay _ _ _ Hi2 key) as Ho. cbn [sc_rt sc_log] in Ho. rw E2 E3 zdrop_ztake_same in Ho. exact Ho.
Qed.

Lemma wanted_all published suppressed timer slot assignment record pending :
  published !! slot = Some assignment -> slot ∉ suppressed ->
  pr_Assignment record = assignment ->
  Forall (fun commit => dc_Persisted commit = record /\ commit_slot commit = slot) pending ->
  wanted published {| mt_pending := pending; mt_suppressedSlots := suppressed; mt_timer := timer |} = pending.
Proof.
  intros Hp Hs Ha Hall. unfold wanted. cbn [mt_pending mt_suppressedSlots].
  induction Hall as [|commit pending [Hrec Hslot] Hall IH]; [done|]. cbn [List.filter].
  rw Hslot bool_decide_false //. unfold shouldMaterializeCommit. fold (commit_slot commit). rw Hslot Hp Hrec Ha Z.eqb_refl.
  cbn [andb negb]. by rw IH.
Qed.

(** What an owner hands over is a backlog of its slot. *)
Lemma materialization_feeds logs c slot (marks : marks) n :
  let r := own_record (sc_rt c) in
  let high := rr_highestCommittedSequence r in
  config_inv c -> logs !! slot = Some (sc_log c) -> Forall (fun op => op_Slot op = slot) (sc_log c) ->
  marks !! slot = Some n -> rr_materializedCommittedSequence r <= n <= high ->
  rr_materializedCommittedSequence r < high ->
  feeds logs marks (materialization_commits (sc_rt c) high) (<[slot := high]> marks) /\
  Forall (fun commit => dc_Persisted commit = persistedReplica r /\ commit_slot commit = slot)
    (materialization_commits (sc_rt c) high) /\
  exists commit, commit ∈ materialization_commits (sc_rt c) high /\ op_Sequence (dc_Operation commit) = high.
Proof.
  intros r high Hi Hlog Hslots Hmk Hn Hlt. pose proof (si_order _ _ _ Hi) as [Hm Hc]. fold r high in Hm, Hc.
  destruct (commits_from_feeds logs _ _ _ slot (Z.to_nat (high - rr_materializedCommittedSequence r))
    (rr_materializedCommittedSequence r) marks n Hi Hlog Hslots) as (Hf & Hall & Hlast); [fold r; lia|lia|done|lia|].
  fold r in Hf, Hall, Hlast. rw Z2Nat.id in Hf; [lia|]. replace (Z.max n _) with high in Hf by lia.
  rw Z2Nat.id in Hlast; [lia|]. unfold materialization_commits. rw (si_exists _ _ _ Hi). rw (proj2 (Z.eqb_neq high 0)); [lia|].
  cbn [negb orb]. fold r. split_and!; [done|done|]. destruct Hlast as (x & Hx & Hxs); [lia|]. exists x. split; [done|lia].
Qed.

(** The objects a backend shows of a slot are a prefix of its log. *)
Lemma base_reached logs c slot n v : logs !! slot = Some (sc_log c) ->
  settling logs (<[slot := rr_highestCommittedSequence (own_record (sc_rt c))]> (marks_of v)) v ->
  v !! slot = Some (sc_base c, n) ->
  rr_materializedCommittedSequence (own_record (sc_rt c)) <= n <= rr_highestCommittedSequence (own_record (sc_rt c)) ->
  exists n', rr_materializedCommittedSequence (own_record (sc_rt c)) <= n' <= rr_highestCommittedSequence (own_record (sc_rt c)) /\
    sc_base c = materialise (ztake n' (sc_log c)).
Proof.
  intros Hlog Hv Hs Hn. destruct (Hv _ _ _ Hs) as (log & Hl & _ & _ & _ & Ho). rw Hlog in Hl. injection Hl as <-.
  destruct Ho as [Ho|(h & Hh & Hlt & Ho)]; [by exists n|]. rw lookup_insert_eq in Hh. injection Hh as <-.
  exists (n + 1). split; [lia|done].
Qed.

(** C23. Committed writes reach the backend: what an owner hands to the
    materialiser when it commits, flushed into a backend that works and has any
    prefix of the slot's log between what the owner knows of and what it has
    committed, brings the backend to the owner's committed state, and the mark
    reported back lets the owner forget its overlay; for the owner these are two
    of its steps, so its reads stay the same. *)
Theorem commits_reach_backend {B} `{BackendLaws B} logs c slot n published suppressed (b : B) v :
  let r := own_record (sc_rt c) in
  let high := rr_highestCommittedSequence r in
  slot_reachable c -> logs !! slot = Some (sc_log c) -> Forall (fun op => op_Slot op = slot) (sc_log c) ->
  shows b v -> settling logs (<[slot := high]> (marks_of v)) v -> roomy logs -> ~ faulty b v ->
  Forall admits (materialization_commits (sc_rt c) high) ->
  v !! slot = Some (sc_base c, n) ->
  rr_materializedCommittedSequence r <= n <= high -> rr_materializedCommittedSequence r < high ->
  published !! slot = Some (rr_assignment r) -> slot ∉ suppressed ->
  exists b' v' m' applied,
  flush published b {| mt_pending := materialization_commits (sc_rt c) high; mt_suppressedSlots := suppressed;
                       mt_timer := true |} = (b', m', applied, true) /\
  shows b' v' /\ v' !! slot = Some (materialise (committed_prefix (sc_log c) (sc_rt c)), high) /\
  applied !! slot = Some high /\
  let c' := {| sc_log := sc_log c; sc_base := materialise (committed_prefix (sc_log c) (sc_rt c));
               sc_rt := markMaterialized (sc_rt c) high |} in
  rtc slot_step c c' /\ rr_materializedCommittedSequence (own_record (sc_rt c')) = high /\
  rr_committedOverlay (own_record (sc_rt c')) = ∅.
Proof.
  intros r high Hi%reachable_config_inv Hlog Hslots Hb Hv Hroom Hnf Hadm Hview Hn Hlt Hpub Hsup.
  pose proof (si_order _ _ _ Hi) as [Hm Hc]. fold r high in Hm, Hc.
  destruct (base_reached logs c slot n v Hlog Hv Hview Hn) as (n' & Hn' & Hbase).
  assert (marks_of v !! slot = Some n) as Hmk by by rw marks_lookup Hview.
  destruct (materialization_feeds logs c slot _ n Hi Hlog Hslots Hmk Hn Hlt) as (Hf & Hall & lastc & Hlast & Hls).
  fold r high in Hf, Hall, Hlast, Hls, Hadm. set (pending := materialization_commits (sc_rt c) high) in *. clearbody pending.
  pose proof (wanted_all published suppressed false slot _ (persistedReplica r) pending Hpub Hsup eq_refl Hall) as Hw.
  pose proof (applyMaterializedBatch_feeds logs b v _ _ Hb Hv Hroom Hf Hadm) as Ha.
  destruct pending as [|p ps]; [by apply elem_of_nil in Hlast|]. unfold flush. cbn [mt_pending set_field].
  change ({| mt_pending := p :: ps; mt_suppressedSlots := suppressed; mt_timer := true |} <| mt_timer := false |>) with
    {| mt_pending := p :: ps; mt_suppressedSlots := suppressed; mt_timer := false |}. rw Hw.
  destruct (applyMaterializedBatch b (p :: ps)) as [b' [[]|e]]; destruct Ha as (v' & Hb' & Hv' & Hm'); [|by destruct Hm'].
  eexists _, v', _, _. split; [reflexivity|]. split; [done|]. assert (exists objects, v' !! slot = Some (objects, high)) as [objects Ho].
  { pose proof (marks_lookup v' slot) as Hl. rw Hm' lookup_insert_eq in Hl.
    destruct (v' !! slot) as [[objects h]|]; [|done]. exists objects. cbn in Hl. by injection Hl as ->. }
  rw -Hm' in Hv'. destruct (settled _ _ Hv' _ _ _ Ho) as (log' & Hlog' & _ & _ & _ & ->). rw Hlog in Hlog'. injection Hlog' as <-.
  split; [done|]. split; [|by apply (materialised_steps c n')].
  destruct (applied_spec (p :: ps) slot) as [A1 A2]. rw Forall_forall in Hall.
  destruct (A2 lastc Hlast (proj2 (Hall _ Hlast))) as (x & Hx & Hxs); [lia|]. rw Hx. f_equal.
  destruct (A1 _ Hx) as (y & Hy & Hys & <-). destruct (feeds_bound logs _ _ _ _ Hf Hy) as (h' & Hh & Hle).
  rw Hys lookup_insert_eq in Hh. injection Hh as <-. lia.
Qed.

(** ** A concrete flush: the committed write of [head_committed] *)
Definition empty_replica : InMemoryBackend := ok_or NewInMemoryBackend (CreateReplica NewInMemoryBackend 3).
Definition head_logs : gmap Z (list WriteOperation) := {[3 := sc_log head_committed]}.
Definition head_published : published_replicas := {[3 := head_assignment]}.
Definition head_backlog : commitMaterializer :=
  {| mt_pending := materialization_commits (sc_rt head_committed) 1; mt_suppressedSlots := ∅; mt_timer := true |}.

Lemma head_log_ok : log_ok (sc_log head_committed).
Proof. exact (si_log _ _ _ (reachable_config_inv _ (proj1 head_reachable))). Qed.

Definition empty_view : backend_view := {[3 := (∅, 0)]}.

Lemma empty_shows : shows empty_replica empty_view.
Proof. vm_compute. reflexivity. Qed.

Lemma head_viewed : viewed head_logs empty_view /\ roomy head_logs.
Proof.
  split.
  - intros slot objects h Hs. unfold empty_view in Hs.
    apply lookup_singleton_Some in Hs as [<- [= <- <-]]. exists (sc_log head_committed).
    split_and!; [vm_compute; reflexivity|exact head_log_ok|vm_compute; reflexivity|lia|vm_compute; discriminate|reflexivity].
  - intros slot log Hs. unfold head_logs in Hs. apply lookup_singleton_Some in Hs as [<- <-]. vm_compute. reflexivity.
Qed.

Lemma head_slots : Forall (fun op => op_Slot op = 3) (sc_log head_committed).
Proof. vm_compute. by repeat constructor. Qed.

Lemma head_feeds : feeds head_logs (marks_of (empty_view)) (wanted head_published head_backlog) (<[3 := 1]> {[3 := 0]}).
Proof.
  destruct (materialization_feeds head_logs head_committed 3 (marks_of (empty_view)) 0) as (Hf & _ & _).
  - exact (reachable_config_inv _ (proj1 head_reachable)).
  - vm_compute. reflexivity.
  - exact head_slots.
  - vm_compute. reflexivity.
  - vm_compute. split; discriminate.
  - vm_compute. reflexivity.
  - replace (wanted head_published head_backlog) with (mt_pending head_backlog) by (vm_compute; reflexivity). exact Hf.
Qed.

Lemma memory_admits commits : Forall (admits (B := InMemoryBackend)) commits.
Proof. by apply Forall_true. Qed.

Lemma flush_applies_backlog_witness :
  let '(b', m', applied, ok) := flush head_published empty_replica head_backlog in
  ok = true /\ marks_of (memory_view b') = {[3 := 1]} /\ mt_pending m' = [].
Proof.
  pose proof (flush_applies_backlog head_logs head_published empty_replica empty_view head_backlog (<[3 := 1]> {[3 := 0]})
    empty_shows (viewed_settling _ _ _ (proj1 head_viewed)) (proj2 head_viewed) head_feeds (memory_admits _)) as Hf.
  destruct (flush head_published empty_replica head_backlog) as [[[b' m'] applied] ok].
  destruct Hf as (v & Hv & _ & Hf).
  destruct ok; [|by destruct (memory_not_faulty empty_replica empty_view empty_shows (proj1 Hf))].
  destruct Hf as (H1 & H2 & _). split_and!; [reflexivity|exact (eq_trans (f_equal marks_of Hv) H2)|exact H1].
Defined.

Lemma commits_reach_backend_witness :
  exists b', fst <$> memory_view b' !! 3 = Some (materialise (sc_log head_committed)) /\
  (flush head_published empty_replica head_backlog).1.1.1 = b'.
Proof.
  destruct (commits_reach_backend head_logs head_committed 3 0 head_published ∅ empty_replica empty_view)
    as (b' & v & m' & applied & Hf & Hs & Hv & _).
  - exact (proj1 head_reachable).
  - vm_compute. reflexivity.
  - exact head_slots.
  - exact empty_shows.
  - exact (viewed_settling _ _ _ (proj1 head_viewed)).
  - exact (proj2 head_viewed).
  - exact (memory_not_faulty _ _ empty_shows).
  - apply memory_admits.
  - vm_compute. reflexivity.
  - vm_compute. split; discriminate.
  - vm_compute. reflexivity.
  - vm_compute. reflexivity.
  - apply not_elem_of_empty.
  - exists b'. split; [cbn in Hs; rw Hs Hv; vm_compute; reflexivity|].
    change (rr_highestCommittedSequence (own_record (sc_rt head_committed))) with 1 in Hf.
    fold head_backlog in Hf. by rw Hf.
Defined.
