(* ===== verification/BadgerTheorems.v ===== *)
(** * What the badger backend does

    Without faults it answers as the in-memory backend does.  With them it still
    keeps the promise of a backend, and a batch that was torn is repaired when
    the materialiser tries again. *)

From S2P Require Import Prelude.
From S2P Require Import StorageTypes.
From S2P Require Import SlotReducer.
From S2P Require Import SlotOwner.
From S2P Require Import SlotProps.
From S2P Require Import Journal.
From S2P Require Import JournalTheorems.
From S2P Require Import Backend.
From S2P Require Import BackendProps.
From S2P Require Import BadgerDB.
From S2P Require Import Badger.
From S2P Require Import BadgerProps.
From S2P Require Import BadgerLocal.
From S2P Require Import Materializer.
From S2P Require Import MaterializerTheorems.
From Stdlib Require Import Ascii.

Open Scope Z_scope.
Open Scope record_scope.

(** ** Batches *)
Section batches.
Context `{Codec CommittedObject} `{Codec stagedOperation} `{Codec PersistedReplica}.
Context (hook : Badger.durable_op -> option storage_error).
Context (spilled : list db_write -> nat) (flush_fails : list db_write -> bool).

Abbreviation apply_batch := (Badger.apply_batch hook spilled flush_fails).

(** A batch the in-memory backend would apply. *)
Lemma apply_batch_cases d m commits m' :
  represents d m -> Forall commit_ok commits -> apply_committed_batch m commits = (m', Ok tt) ->
  exists ws, Badger.batch_writes [] commits = (ws, Ok tt) /\ represents (apply_writes d ws) m' /\
  (apply_batch d commits = (apply_writes d ws, Ok tt) \/
   exists n e, apply_batch d commits = (apply_writes d (take n ws), Err e)).
Proof.
  intros Hrep Hok Hm. destruct (rep_batch_writes commits d m m' [] Hrep Hok Hm) as (ws & Hws & Hrep').
  exists ws. split; [done|]. split; [done|]. unfold Badger.apply_batch. destruct commits as [|commit commits].
  { left. cbn in Hws. by injection Hws as <-. }
  pose proof (check_commits (commit :: commits) d m m ∅ Hrep Hok) as Hc. rw Hm in Hc.
  destruct (res_fold _ _ _) as [expected|e]; [|destruct Hc as [? [=]]; intros slot; by rw lookup_empty].
  unfold Badger.runBeforeDurableWrite. destruct (hook _) as [e|]; [right; by exists 0%nat, e|]. rw Hws.
  destruct (flush_fails ws); [right; by exists (spilled ws), ErrBackend|by left].
Qed.

(** A batch it would refuse. *)
Lemma apply_batch_refused d m commits m' e :
  represents d m -> Forall commit_ok commits -> apply_committed_batch m commits = (m', Err e) ->
  apply_batch d commits = (d, Err e).
Proof.
  intros Hrep Hok Hm. unfold Badger.apply_batch. destruct commits as [|commit commits]; [done|].
  pose proof (check_commits (commit :: commits) d m m ∅ Hrep Hok) as Hc. rw Hm in Hc.
  destruct (res_fold _ _ _) as [expected|e']; destruct Hc as [? [=]]; try (intros slot; by rw lookup_empty). by subst.
Qed.
End batches.

(** ** The same answers as the in-memory backend *)

(** The calls of the two interfaces, the backend's and the local store's. *)
Inductive backend_call :=
| BCreateReplica (slot : Z)
| BDeleteReplica (slot : Z)
| BInstallSnapshot (slot : Z) (snap : Snapshot)
| BSetHighestCommitted (slot sequence : Z)
| BSetHighestUpstream (slot sequence : Z)
| BApplyCommittedBatch (commits : list DurableCommit)
| BApplyCommitted (op : WriteOperation) (persisted : option PersistedReplica)
| BStagePut (slot sequence : Z) (key value : string) (metadata : ObjectMetadata)
| BStageDelete (slot sequence : Z) (key : string) (metadata : ObjectMetadata)
| BCommitSequence (slot sequence : Z)
| BHighestCommitted (slot : Z)
| BHighestUpstream (slot : Z)
| BGetCommitted (slot : Z) (key : string)
| BCommittedSnapshot (slot : Z)
| BStagedSequences (slot : Z)
| LUpsertReplica (nodeID : string) (replica : PersistedReplica)
| LDeleteReplica (nodeID : string) (slot : Z)
| LSetEpoch (nodeID : string) (epoch : Z)
| LLoadNode (nodeID : string).

Inductive backend_answer :=
| AUpdate (answer : res storage_error unit)
| ASequence (answer : res storage_error Z)
| AObject (answer : res storage_error (option CommittedObject))
| ASnapshot (answer : res storage_error Snapshot)
| ASequences (answer : res storage_error (list Z))
| ANode (answer : res storage_error PersistedNodeState).

Definition updated {S} (s : S) (answer : res storage_error S) : S * backend_answer :=
  match answer with Ok s' => (s', AUpdate (Ok tt)) | Err e => (s, AUpdate (Err e)) end.

Definition batched {S} (p : S * res storage_error unit) : S * backend_answer := (p.1, AUpdate p.2).

Record memory := { mem_backend : InMemoryBackend; mem_local : local_store }.

Definition empty_memory : memory := {| mem_backend := NewInMemoryBackend; mem_local := ∅ |}.

Definition on_backend (s : memory) (p : InMemoryBackend * backend_answer) : memory * backend_answer :=
  ({| mem_backend := p.1; mem_local := mem_local s |}, p.2).

Definition on_local (s : memory) (local : local_store) : memory * backend_answer :=
  ({| mem_backend := mem_backend s; mem_local := local |}, AUpdate (Ok tt)).

Definition memory_call (s : memory) (call : backend_call) : memory * backend_answer :=
  let m := mem_backend s in
  match call with
  | BCreateReplica slot => on_backend s (updated m (CreateReplica m slot))
  | BDeleteReplica slot => on_backend s (updated m (DeleteReplica m slot))
  | BInstallSnapshot slot snap => on_backend s (updated m (InstallSnapshot m slot snap))
  | BSetHighestCommitted slot sequence => on_backend s (updated m (SetHighestCommittedSequence m slot sequence))
  | BSetHighestUpstream slot sequence => on_backend s (updated m (SetHighestUpstreamConfirmedSequence m slot sequence))
  | BApplyCommittedBatch commits => on_backend s (batched (apply_committed_batch m commits))
  | BApplyCommitted op persisted => on_backend s (batched (ApplyCommitted m op persisted))
  | BStagePut slot sequence key value metadata => on_backend s (updated m (StagePut m slot sequence key value metadata))
  | BStageDelete slot sequence key metadata => on_backend s (updated m (StageDelete m slot sequence key metadata))
  | BCommitSequence slot sequence => on_backend s (updated m (CommitSequence m slot sequence))
  | BHighestCommitted slot => (s, ASequence (backend_HighestCommittedSequence m slot))
  | BHighestUpstream slot => (s, ASequence (HighestUpstreamConfirmedSequence m slot))
  | BGetCommitted slot key => (s, AObject (backend_GetCommitted m slot key))
  | BCommittedSnapshot slot => (s, ASnapshot (backend_Snapshot m slot))
  | BStagedSequences slot => (s, ASequences (StagedSequences m slot))
  | LUpsertReplica nodeID replica => on_local s (UpsertReplica (mem_local s) nodeID replica)
  | LDeleteReplica nodeID slot => on_local s (local_DeleteReplica (mem_local s) nodeID slot)
  | LSetEpoch nodeID epoch => on_local s (SetHighestAcceptedCoordinatorEpoch (mem_local s) nodeID epoch)
  | LLoadNode nodeID => (s, ANode (Ok (LoadNode (mem_local s) nodeID)))
  end.

Fixpoint answers {S} (run : S -> backend_call -> S * backend_answer) (s : S) (calls : list backend_call)
    : list backend_answer :=
  match calls with
  | [] => []
  | call :: calls => let '(s, answer) := run s call in answer :: answers run s calls
  end.

Section badger.
Context `{Codec CommittedObject} `{Codec stagedOperation} `{Codec PersistedReplica}.

Section calls.
Context (hook updf : Badger.durable_op -> option storage_error).
Context (spilled : list db_write -> nat) (flush_fails : list db_write -> bool).

Definition badger_call (d : database) (call : backend_call) : database * backend_answer :=
  match call with
  | BCreateReplica slot => updated d (Badger.CreateReplica hook updf d slot)
  | BDeleteReplica slot => updated d (Badger.DeleteReplica hook updf d slot)
  | BInstallSnapshot slot snap => updated d (Badger.InstallSnapshot hook updf d slot snap)
  | BSetHighestCommitted slot sequence => updated d (Badger.SetHighestCommittedSequence hook updf d slot sequence)
  | BSetHighestUpstream slot sequence => updated d (Badger.SetHighestUpstreamConfirmedSequence hook updf d slot sequence)
  | BApplyCommittedBatch commits => batched (Badger.apply_batch hook spilled flush_fails d commits)
  | BApplyCommitted op persisted => batched (Badger.ApplyCommitted hook spilled flush_fails d op persisted)
  | BStagePut slot sequence key value metadata => updated d (Badger.StagePut hook updf d slot sequence key value metadata)
  | BStageDelete slot sequence key metadata => updated d (Badger.StageDelete hook updf d slot sequence key metadata)
  | BCommitSequence slot sequence => updated d (Badger.CommitSequence hook updf d slot sequence)
  | BHighestCommitted slot => (d, ASequence (Badger.HighestCommittedSequence d slot))
  | BHighestUpstream slot => (d, ASequence (Badger.HighestUpstreamConfirmedSequence d slot))
  | BGetCommitted slot key => (d, AObject (Badger.GetCommitted d slot key))
  | BCommittedSnapshot slot => (d, ASnapshot (Badger.CommittedSnapshot d slot))
  | BStagedSequences slot => (d, ASequences (Badger.StagedSequences d slot))
  | LUpsertReplica nodeID replica => updated d (Badger.UpsertReplica hook updf d nodeID replica)
  | LDeleteReplica nodeID slot => updated d (Badger.local_DeleteReplica hook updf d nodeID slot)
  | LSetEpoch nodeID epoch => updated d (Badger.SetHighestAcceptedCoordinatorEpoch hook updf d nodeID epoch)
  | LLoadNode nodeID => (d, ANode (Badger.LoadNode d nodeID))
  end.
End calls.

(** Arguments within the range of their types and values JSON can carry. *)
Definition call_ok (call : backend_call) : Prop :=
  match call with
  | BCreateReplica slot | BDeleteReplica slot | BHighestCommitted slot | BHighestUpstream slot
  | BGetCommitted slot _ | BCommittedSnapshot slot | BStagedSequences slot => int_range slot
  | BInstallSnapshot slot snap => int_range slot /\ map_Forall (fun _ o => storable o) snap
  | BSetHighestCommitted slot sequence | BSetHighestUpstream slot sequence | BCommitSequence slot sequence =>
      int_range slot /\ uint64_range sequence
  | BApplyCommittedBatch commits => Forall commit_ok commits
  | BApplyCommitted op persisted =>
      commit_ok {| dc_Operation := op; dc_Persisted := default {| pr_Assignment := noAssignment; pr_LastKnownState := StatePending;
                       pr_HighestCommittedSequence := 0; pr_HighestUpstreamConfirmedSequence := 0; pr_HasCommittedData := false |} persisted;
                   dc_UpstreamConfirmedSequence :=
                     match persisted with Some p => pr_HighestUpstreamConfirmedSequence p | None => op_Sequence op end |}
  | BStagePut slot sequence key value metadata =>
      int_range slot /\ staged_ok sequence {| so_kind := OperationKindPut; so_key := key; so_value := value; so_metadata := metadata |}
  | BStageDelete slot sequence key metadata =>
      int_range slot /\ staged_ok sequence {| so_kind := OperationKindDelete; so_key := key; so_value := ""; so_metadata := metadata |}
  | LUpsertReplica nodeID replica => node_ok nodeID /\ storable replica /\ int_range (persisted_slot replica)
  | LDeleteReplica nodeID slot => node_ok nodeID /\ int_range slot
  | LSetEpoch nodeID epoch => node_ok nodeID /\ uint64_range epoch
  | LLoadNode nodeID => node_ok nodeID
  end.

(** The in-memory store with batches that are applied as a whole or not at all:
    one that is refused leaves nothing of the commits before the one at fault. *)
Definition whole_batch (m : InMemoryBackend) (commits : list DurableCommit) : InMemoryBackend * res storage_error unit :=
  match apply_committed_batch m commits with (_, Err e) => (m, Err e) | answer => answer end.

Definition whole_call (s : memory) (call : backend_call) : memory * backend_answer :=
  match call with
  | BApplyCommittedBatch commits => on_backend s (batched (whole_batch (mem_backend s) commits))
  | _ => memory_call s call
  end.

(** No batch is refused at a commit after its first. *)
Definition whole (m : InMemoryBackend) (call : backend_call) : Prop :=
  match call with
  | BApplyCommittedBatch commits => forall m' e, apply_committed_batch m commits = (m', Err e) -> m' = m
  | _ => True
  end.

Fixpoint all_whole (s : memory) (calls : list backend_call) : Prop :=
  match calls with
  | [] => True
  | call :: calls => whole (mem_backend s) call /\ all_whole (memory_call s call).1 calls
  end.

Lemma whole_same s call : whole (mem_backend s) call -> whole_call s call = memory_call s call.
Proof.
  intros Hw. destruct call; try done. cbn in *. unfold whole_batch.
  destruct (apply_committed_batch _ _) as [m' [[]|e]] eqn:E; [done|]. by rw (Hw _ _ eq_refl).
Qed.

Lemma all_whole_same s calls : all_whole s calls -> answers whole_call s calls = answers memory_call s calls.
Proof.
  revert s. induction calls as [|call calls IH]; intros s; [done|]. cbn [all_whole answers]. intros [Hw Hall].
  rw whole_same //. destruct (memory_call s call). by rw IH.
Qed.

(** Both stores share the database. *)
Definition pictures (d : database) (s : memory) : Prop :=
  represents d (mem_backend s) /\ represents_local d (mem_local s).

Lemma updated_sim d s rd rm : pictures d s -> simulates rd rm -> (forall d', rd = Ok d' -> same_local d d') ->
  let '(d', a) := updated d rd in let '(s', a') := on_backend s (updated (mem_backend s) rm) in pictures d' s' /\ a = a'.
Proof.
  intros [Hrep Hloc] Hs Hframe. destruct rd, rm; cbn in *; try done.
  - split; [|done]. split; [done|]. apply (represents_local_same d); [done|by apply Hframe].
  - by subst.
Qed.

Lemma local_sim d s rd local : pictures d s ->
  (exists d', rd = Ok d' /\ represents_local d' local /\ forall m, represents d m -> represents d' m) ->
  let '(d', a) := updated d rd in let '(s', a') := on_local s local in pictures d' s' /\ a = a'.
Proof. intros [Hrep Hloc] (d' & -> & Hl & Hm). cbn. split; [|done]. split; [by apply Hm|done]. Qed.

Section faultless.
Context (spilled : list db_write -> nat).

Abbreviation none := (fun _ : Badger.durable_op => @None storage_error).

Lemma batch_sim d m commits :
  represents d m -> Forall commit_ok commits ->
  let '(d', a) := batched (Badger.apply_batch none spilled (fun _ => false) d commits) in
  let '(m', a') := batched (whole_batch m commits) in represents d' m' /\ a = a'.
Proof.
  intros Hrep Hok. unfold whole_batch. destruct (apply_committed_batch m commits) as [m' [[]|e]] eqn:Hm.
  - destruct (apply_batch_cases none spilled (fun _ => false) d m commits m' Hrep Hok Hm) as (ws & Hws & Hrep' & Hb).
    destruct Hb as [-> | (n & e & Hb)]; [done|]. exfalso. revert Hb. unfold Badger.apply_batch.
    destruct commits as [|commit commits]; [done|].
    pose proof (check_commits (commit :: commits) d m m ∅ Hrep Hok) as Hc. rw Hm in Hc.
    destruct (res_fold _ _ _) as [expected|e']; [|destruct Hc as [? [=]]; intros slot; by rw lookup_empty].
    cbn [Badger.runBeforeDurableWrite]. by rw Hws.
  - rw (apply_batch_refused none spilled (fun _ => false) d m commits m' e) //.
Qed.

Lemma batch_pictures d s commits :
  pictures d s -> Forall commit_ok commits ->
  let '(d', a) := batched (Badger.apply_batch none spilled (fun _ => false) d commits) in
  let '(s', a') := on_backend s (batched (whole_batch (mem_backend s) commits)) in pictures d' s' /\ a = a'.
Proof.
  intros [Hrep Hloc] Hok. pose proof (batch_sim d _ commits Hrep Hok) as Hb.
  pose proof (frame_apply_batch none spilled (fun _ => false) d commits) as Hf.
  destruct (batched (Badger.apply_batch _ _ _ d commits)) as [d' a] eqn:Hd, (batched (whole_batch _ commits)) as [m' a'].
  destruct Hb as [Hrep' ->]. split; [|done]. split; [done|]. apply (represents_local_same d); [done|].
  injection Hd as Hd _. by rw Hd in Hf.
Qed.

Lemma single_whole m commit : whole_batch m [commit] = apply_committed_batch m [commit].
Proof. unfold whole_batch. cbn. by destruct (apply_committed m commit). Qed.

Lemma call_sim d s call : pictures d s -> call_ok call ->
  let '(d', a) := badger_call none none spilled (fun _ => false) d call in
  let '(s', a') := whole_call s call in pictures d' s' /\ a = a'.
Proof.
  intros Hp Hok. pose proof Hp as [Hrep Hloc]. destruct call; cbn [badger_call whole_call memory_call call_ok] in *.
  - apply updated_sim; [done|by apply sim_CreateReplica|apply frame_CreateReplica].
  - apply updated_sim; [done|by apply sim_DeleteReplica|apply frame_DeleteReplica].
  - destruct Hok. apply updated_sim; [done|by apply sim_InstallSnapshot|apply frame_InstallSnapshot].
  - destruct Hok. apply updated_sim; [done|by apply sim_SetHighestCommittedSequence|apply frame_SetHighestCommittedSequence].
  - destruct Hok. apply updated_sim; [done|by apply sim_SetHighestUpstreamConfirmedSequence|apply frame_SetHighestUpstreamConfirmedSequence].
  - by apply batch_pictures.
  - unfold ApplyCommitted. rw -single_whole. apply batch_pictures; [done|by constructor].
  - destruct Hok. apply updated_sim; [done| |apply frame_stageOperation]. unfold StagePut. rw cloneObjectMetadata_id. by apply sim_stage.
  - destruct Hok. apply updated_sim; [done| |apply frame_stageOperation]. unfold StageDelete. rw cloneObjectMetadata_id. by apply sim_stage.
  - destruct Hok. apply updated_sim; [done|by apply sim_CommitSequence|apply frame_CommitSequence].
  - by rw (rep_highest _ _ Hrep).
  - by rw (rep_upstream _ _ Hrep).
  - by rw (rep_GetCommitted _ _ Hrep).
  - by rw (rep_CommittedSnapshot _ _ Hrep).
  - by rw (rep_StagedSequences _ _ Hrep).
  - destruct Hok as (? & ? & ?). apply local_sim; [done|by apply sim_UpsertReplica].
  - destruct Hok. apply local_sim; [done|by apply sim_local_DeleteReplica].
  - destruct Hok. apply local_sim; [done|by apply sim_SetEpoch].
  - by rw (rep_LoadNode _ _ _ Hloc Hok).
Qed.

Lemma answers_sim d s calls : pictures d s -> Forall call_ok calls ->
  answers (badger_call none none spilled (fun _ => false)) d calls = answers whole_call s calls.
Proof.
  intros Hp Hok. revert d s Hp. induction Hok as [|call calls Hc _ IH]; intros d s Hp; [done|].
  cbn [answers]. pose proof (call_sim d s call Hp Hc) as Hs.
  destruct (badger_call _ _ _ _ d call) as [d' a], (whole_call s call) as [s' a']. destruct Hs as [Hp' ->].
  f_equal. by apply IH.
Qed.
End faultless.

(** ** A backend, also when writes fail *)
Section laws.
Context (hook : Badger.durable_op -> option storage_error).
Context (spilled : list db_write -> nat) (flush_fails : list db_write -> bool).

#[local] Instance badger_backend : Backend database := {
  HighestCommittedSequence := Badger.HighestCommittedSequence;
  GetCommitted := Badger.GetCommitted;
  CommittedSnapshot := Badger.CommittedSnapshot;
  ApplyCommittedBatch := Badger.apply_batch hook spilled flush_fails;
}.

Definition badger_shows (d : database) (v : backend_view) : Prop := exists m, represents d m /\ memory_view m = v.

Definition badger_admits (commit : DurableCommit) : Prop :=
  let op := dc_Operation commit in
  uint64_range (dc_UpstreamConfirmedSequence commit) /\ object_ok (op_Kind op) (op_Value op) (op_Metadata op).

Lemma view_slot d m slot : represents d m -> is_Some (memory_view m !! slot) -> int_range slot.
Proof.
  intros Hrep. unfold memory_view. rw lookup_fmap. destruct (be_replicas m !! slot) as [r|] eqn:Hr; [|by intros [? [=]]].
  intros _. exact (ro_slot _ _ (rep_ok _ _ Hrep _ _ Hr)).
Qed.

Lemma view_slots v commits v' : view_apply_all v commits = Some v' -> Forall badger_admits commits ->
  (forall slot, is_Some (v !! slot) -> int_range slot) -> Forall commit_ok commits.
Proof.
  revert v. induction commits as [|commit commits IH]; intros v Hv Hadm Hs; [constructor|].
  apply Forall_cons in Hadm as [[Hu Hobj] Hadm]. cbn [view_apply_all] in Hv. apply bind_Some in Hv as (v1 & Hv1 & Hv).
  unfold view_apply in Hv1. apply bind_Some in Hv1 as ([objects h] & Hh & Hv1).
  destruct (_ && _) eqn:Hq; [|done]. apply andb_true_iff in Hq as [Hq%Z.eqb_eq _]. injection Hv1 as <-. constructor.
  - split; [apply Hs; by rw Hh|]. split; [rw Hq; unfold uint64_range, u64_add, u64; by apply Z.mod_pos_bound|done].
  - apply (IH _ Hv Hadm). intros slot. destruct (decide (op_Slot (dc_Operation commit) = slot)) as [<-|Hne].
    + intros _. apply Hs. by rw Hh.
    + rw lookup_insert_ne //. apply Hs.
Qed.

Lemma batch_writes_app acc commits :
  Badger.batch_writes acc commits = let '(ws, filled) := Badger.batch_writes [] commits in (acc ++ ws, filled).
Proof.
  revert acc. induction commits as [|commit commits IH]; intros acc; cbn [Badger.batch_writes]; [by rw app_nil_r|].
  destruct (Badger.commit_writes commit) as [more|e]; [|by rw app_nil_r]. rw (IH (acc ++ more)) (IH ([] ++ more)).
  destruct (Badger.batch_writes [] commits). by rw -app_assoc.
Qed.

(** One commit, torn after its first [n] writes. *)
Lemma torn_commit d m commit v1 rest :
  represents d m -> commit_ok commit -> view_apply (memory_view m) commit = Some v1 ->
  exists ws m1, Badger.commit_writes commit = Ok ws /\ length ws = 4%nat /\
    represents (apply_writes d ws) m1 /\ memory_view m1 = v1 /\ apply_committed m commit = Ok m1 /\
    forall n, (n < 4)%nat -> exists mt, represents (apply_writes d (take n ws)) mt /\
      torn (memory_view m) (commit :: rest) (memory_view mt).
Proof.
  intros Hrep Hok Hv. pose proof Hv as (m1 & Hm1 & Hview)%memory_apply. pose proof Hv as Hv0. unfold view_apply in Hv.
  apply bind_Some in Hv as ([objects h] & Hh & _). unfold memory_view in Hh. rw lookup_fmap in Hh.
  set (op := dc_Operation commit) in *. destruct (be_replicas m !! op_Slot op) as [r|] eqn:Hr; [|done].
  cbn in Hh. injection Hh as <- <-. destruct Hok as (Hs & Hq & Hu & Hobj).
  destruct (rep_object d m _ r _ (op_Key op) _ _ Hrep Hr Hobj) as (w & committed & Hw & Hc & R1).
  destruct (rep_commit_writes _ _ _ _ _ _ _ _ R1 Hq Hu) as (R2 & R3 & R4).
  assert (memory_view (with_replica m (op_Slot op) (r <| rd_committed := committed |>)) = view_ahead (memory_view m) commit) as Hahead.
  { unfold view_ahead, memory_view. fold op. rw lookup_fmap Hr. cbn. rw fmap_insert. f_equal. f_equal.
    unfold apply_op. revert Hc. unfold commit_kind. destruct Hobj as [Hk _]. unfold op.
    destruct (op_Kind (dc_Operation commit)); [| |done]; by intros [= <-]. }
  unfold Badger.commit_writes. fold op. rw Hw. cbn [mbind res_bind]. do 2 eexists. split; [done|]. split; [done|].
  assert (m1 = with_replica m (op_Slot op) (r <| rd_committed := committed |>
    <| rd_staged := delete (op_Sequence op) (rd_staged r) |> <| rd_highestCommitted := op_Sequence op |>
    <| rd_highestUpstreamConfirmed := dc_UpstreamConfirmedSequence commit |>)) as Em1.
  { revert Hm1. unfold apply_committed, replica_of. fold op. rw Hr. cbn [mbind res_bind]. destruct (_ =? _); [|done].
    cbn [negb reject mbind res_bind]. rw Hc. cbn [mbind res_bind]. by intros [= <-]. }
  split; [rw -Em1 in R4; exact R4|]. split; [done|]. split; [done|].
  intros n Hn. destruct n as [|[|[|[|n]]]]; [| | | |lia]; (eexists; split; [eassumption|]).
  - exists 0%nat, (memory_view m). split; [done|by left].
  - exists 0%nat, (memory_view m). split; [done|right]. exists commit. by rw Hahead.
  - exists 0%nat, (memory_view m). split; [done|right]. exists commit. rw -Hahead. split; [done|].
    unfold memory_view, with_replica. cbn. by rw !fmap_insert.
  - exists 1%nat, v1. cbn [take view_apply_all]. rw Hv0. split; [done|left]. rw -Hview Em1.
    unfold memory_view, with_replica. cbn. by rw !fmap_insert.
Qed.

Lemma torn_later v commit v1 rest vt :
  view_apply v commit = Some v1 -> torn v1 rest vt -> torn v (commit :: rest) vt.
Proof.
  intros Hv (k & vk & Hk & Ht). exists (S k), vk. cbn [take view_apply_all lookup list_lookup]. rw Hv. split; [exact Hk|exact Ht].
Qed.

Lemma torn_batch d m commits v ws n :
  represents d m -> Forall commit_ok commits -> view_apply_all (memory_view m) commits = Some v ->
  Badger.batch_writes [] commits = (ws, Ok tt) ->
  exists mt, represents (apply_writes d (take n ws)) mt /\ torn (memory_view m) commits (memory_view mt).
Proof.
  intros Hrep Hok. revert d m ws n Hrep. induction Hok as [|commit commits Hc _ IH]; intros d m ws n Hrep; cbn [view_apply_all Badger.batch_writes].
  { intros _ [= <-]. exists m. rw take_nil. split; [done|]. exists 0%nat, (memory_view m). split; [done|by left]. }
  intros (v1 & Hv1 & Hv)%bind_Some.
  destruct (torn_commit d m commit v1 commits Hrep Hc Hv1) as (w & m1 & -> & Hlen & R1 & Hm1 & _ & Hpart).
  rw batch_writes_app. cbn [app]. destruct (Badger.batch_writes [] commits) as [more filled] eqn:Hmore. intros [= <- ->].
  destruct (decide (n < 4)%nat) as [Hn|Hn].
  { rw take_app_le; [lia|]. by apply Hpart. }
  rw take_app_ge; [lia|]. unfold apply_writes. rw foldl_app. fold (apply_writes d w).
  destruct (IH (apply_writes d w) m1 more (n - length w)%nat R1) as (mt & Hmt & Ht); [by rw Hm1|done|].
  exists mt. split; [done|]. apply (torn_later _ _ v1); [done|by rw -Hm1].
Qed.

#[local] Program Instance badger_laws : BackendLaws database := {
  shows := badger_shows;
  admits := badger_admits;
}.
Next Obligation.
  intros d v slot objects highest h (m & Hrep & <-) Hv Hh. cbn in Hh.
  rw (rep_highest _ _ Hrep) in Hh; [apply (view_slot d m); [done|by rw Hv]|].
  exact (highest_shown (B := InMemoryBackend) m _ _ _ _ _ eq_refl Hv Hh).
Qed.
Next Obligation.
  intros d v slot objects highest key o (m & Hrep & <-) Hv Ho. cbn in Ho.
  rw (rep_GetCommitted _ _ Hrep) in Ho; [apply (view_slot d m); [done|by rw Hv]|].
  exact (committed_shown (B := InMemoryBackend) m _ _ _ _ _ _ eq_refl Hv Ho).
Qed.
Next Obligation.
  intros d v commits v' d' answer (m & Hrep & <-) Hadm Hv Hap. cbn in Hap.
  pose proof (view_slots _ _ _ Hv Hadm (fun slot => view_slot d m slot Hrep)) as Hok.
  destruct (memory_apply_all _ _ _ Hv) as (m' & Hm & <-).
  destruct (apply_batch_cases hook spilled flush_fails d m commits m' Hrep Hok Hm) as (ws & Hws & Hrep' & [Hb|(n & e & Hb)]);
    rw Hb in Hap; injection Hap as <- <-; [by exists m'|].
  destruct (torn_batch d m commits _ ws n Hrep Hok Hv Hws) as (mt & Hmt & Ht). exists (memory_view mt). split; [done|by exists mt].
Qed.
End laws.

(** With a database that works there is no error without a reason. *)
Lemma badger_not_faulty spilled d v : badger_shows d v ->
  ~ @faulty _ _ (badger_laws (fun _ => None) spilled (fun _ => false)) d v.
Proof.
  intros (m & Hrep & <-) [(slot & e & Hs & He)|(commits & d' & e & [v' Hv] & Hadm & He)].
  - cbn in He. rw (rep_highest _ _ Hrep) in He; [by apply (view_slot d m)|].
    apply (memory_not_faulty m _ eq_refl). left. by exists slot, e.
  - pose proof (view_slots _ _ _ Hv Hadm (fun slot => view_slot d m slot Hrep)) as Hok.
    destruct (memory_apply_all _ _ _ Hv) as (m' & Hm & _).
    pose proof (batch_sim spilled d m commits Hrep Hok) as Hs. unfold whole_batch in Hs. rw Hm in Hs.
    cbn in He. rw He in Hs. by destruct Hs as [_ [=]].
Qed.

(** ** Opening the database again *)
Definition without_staged (m : InMemoryBackend) : InMemoryBackend :=
  {| be_replicas := (fun r => r <| rd_staged := ∅ |>) <$> be_replicas m |}.

Lemma any_staged_prefix k : [Badger.keyStagedOp] `prefix_of` key_bytes k <-> exists slot sequence, k = KStaged slot sequence.
Proof.
  split; [|intros (slot & sequence & ->); by exists (Badger.encodeSlot slot ++ Badger.encodeUint64 sequence)].
  destruct k; intros Hp; try (by apply prefix_cons_inv_1 in Hp). by eexists _, _.
Qed.

Lemma rep_reopen_deleted d m : represents d m ->
  represents (Badger.deletePrefixTxn d [Badger.keyStagedOp]) (without_staged m).
Proof.
  intros Hrep. split.
  - intros k Hk. rw lookup_deletePrefixTxn (rep_lookup _ _ Hrep) //. unfold holds, without_staged. cbn. rw lookup_fmap.
    destruct (decide _) as [Hp|Hp].
    + apply any_staged_prefix in Hp as (slot & sequence & ->). cbn. destruct (be_replicas m !! slot); [|done]. cbn. by rw lookup_empty.
    + destruct (be_replicas m !! key_slot k) as [r|]; [|done]. destruct k; try done. destruct Hp. apply any_staged_prefix. by eexists _, _.
  - by apply keys_known_prefix, keys_known_rep with m.
  - intros slot r. cbn. rw lookup_fmap. destruct (be_replicas m !! slot) as [r0|] eqn:Hr; [|done]. intros [= <-].
    destruct (rep_ok _ _ Hrep _ _ Hr). by split.
Qed.

Lemma rep_reopen d m : represents d m ->
  exists d', Badger.cleanupStagedOperationsOnOpen (fun _ => None) (fun _ => None) d = Ok d' /\ represents d' (without_staged m).
Proof.
  intros Hrep. pose proof (rep_reopen_deleted d m Hrep) as Hd. unfold Badger.cleanupStagedOperationsOnOpen.
  destruct (iterate d [Badger.keyStagedOp]) eqn:Hit; [|by eexists]. exists d. split; [done|].
  unfold Badger.deletePrefixTxn in Hd. by rw Hit in Hd.
Qed.

Lemma reopen_view m : memory_view (without_staged m) = memory_view m.
Proof. unfold memory_view, without_staged. cbn. rw -map_fmap_compose. by apply map_fmap_ext. Qed.

(** ** Claims *)

(** C24. The badger store and the in-memory one are the same store but for
    batches that are refused.  On any sequence of calls of the backend's and the
    local store's interfaces, both kept in one database, created empty, with
    arguments in the range of their types and values JSON can carry, and a
    database that does not fail, the badger store gives the answers, errors
    included, of the in-memory one in which a batch that is refused leaves
    nothing; and those are the answers of the in-memory one as it is as long as
    no batch is refused at a commit after its first, since there it keeps the
    commits before. *)
Theorem badger_matches_memory spilled calls :
  Forall call_ok calls ->
  answers (badger_call (fun _ => None) (fun _ => None) spilled (fun _ => false)) ∅ calls =
  answers whole_call empty_memory calls /\
  (all_whole empty_memory calls -> answers whole_call empty_memory calls = answers memory_call empty_memory calls).
Proof.
  intros Hok. split; [|apply all_whole_same]. apply answers_sim; [|done].
  split; [apply represents_empty|apply represents_local_empty].
Qed.

(** C25. A write batch that badger cannot finish loses nothing.  Whatever part of
    it was written when it failed, cut between the object of a commit and its
    sequence number or not: each slot has kept a prefix of its log, or is one
    operation ahead of its sequence number, and no sequence number has gone back
    or beyond the backlog; and the backlog applied again to the database as it is
    opened after a crash succeeds and leaves every slot with the objects and the
    sequence number its log says. *)
Theorem torn_batch_repaired hook spilled flush_fails spilled' logs d v commits c :
  badger_shows d v -> viewed logs v -> roomy logs -> feeds logs (marks_of v) commits c ->
  Forall badger_admits commits ->
  let d1 := (@applyMaterializedBatch _ (badger_backend hook spilled flush_fails) d commits).1 in
  (exists v1, badger_shows d1 v1 /\ settling logs c v1 /\ below (marks_of v) (marks_of v1) /\ below (marks_of v1) c) /\
  exists d2 d3 v3,
  Badger.cleanupStagedOperationsOnOpen (fun _ => None) (fun _ => None) d1 = Ok d2 /\
  @applyMaterializedBatch _ (badger_backend (fun _ => None) spilled' (fun _ => false)) d2 commits = (d3, Ok tt) /\
  badger_shows d3 v3 /\ viewed logs v3 /\ marks_of v3 = c.
Proof.
  intros Hs Hv Hroom Hf Hadm d1.
  pose proof (@applyMaterializedBatch_feeds logs _ _ (badger_laws hook spilled flush_fails)
    d v commits c Hs (viewed_settling _ _ _ Hv) Hroom Hf Hadm) as Ha. unfold d1. clear d1.
  destruct (applyMaterializedBatch d commits) as [d1 answer1]. destruct Ha as (v1 & (m1 & Hrep1 & <-) & Hset & Ha).
  destruct (rep_reopen d1 m1 Hrep1) as (d2 & Hre & Hrep2).
  assert (feeds logs (marks_of (memory_view m1)) commits c /\ below (marks_of v) (marks_of (memory_view m1))) as [Hf1 Hb1].
  { destruct answer1; [|apply Ha]. rw Ha. apply feeds_below in Hf as Hbelow. split; [|done].
    apply (feeds_between logs (marks_of v)); [done..|apply below_refl]. }
  split; [exists (memory_view m1); split_and!; [by exists m1|done|done|by apply feeds_below in Hf1]|].
  assert (badger_shows d2 (memory_view m1)) as Hs2 by (exists (without_staged m1); split; [done|apply reopen_view]).
  pose proof (@applyMaterializedBatch_feeds logs _ _ (badger_laws (fun _ => None) spilled' (fun _ => false))
    d2 _ commits c Hs2 Hset Hroom Hf1 Hadm) as Hb. exists d2.
  destruct (@applyMaterializedBatch _ (badger_backend (fun _ => None) spilled' (fun _ => false)) d2 commits) as [d3 [[]|e]];
    destruct Hb as (v3 & Hs3 & Hset3 & Hb).
  - exists d3, v3. split_and!; [done|done|done| |done]. subst c. by apply settled.
  - by destruct (badger_not_faulty spilled' d2 _ Hs2 (proj1 Hb)).
Qed.
End badger.

(** ** A concrete codec

    Objects of version 1 written at time 0, deletes of one key, and replicas of
    a slot below 256 that have nothing else to say. *)
Definition plain_object (value : string) : CommittedObject :=
  {| obj_Value := value; obj_Metadata := {| meta_Version := 1; meta_CreatedAt := 0; meta_UpdatedAt := 0 |} |}.

#[local] Instance object_codec : Codec CommittedObject := {
  marshal o :=
    if (meta_Version (obj_Metadata o) =? 1) && (meta_CreatedAt (obj_Metadata o) =? 0) && (meta_UpdatedAt (obj_Metadata o) =? 0)
    then Some ("o"%char :: String.list_ascii_of_string (obj_Value o)) else None;
  unmarshal b := match b with "o"%char :: value => Some (plain_object (String.string_of_list_ascii value)) | _ => None end;
}.

Definition plain_delete (key : string) : stagedOperation :=
  {| so_kind := OperationKindDelete; so_key := key; so_value := "";
     so_metadata := {| meta_Version := 1; meta_CreatedAt := 0; meta_UpdatedAt := 0 |} |}.

#[local] Instance staged_codec : Codec stagedOperation := {
  marshal op := Some ("d"%char :: String.list_ascii_of_string (so_key op));
  unmarshal b := match b with "d"%char :: key => Some (plain_delete (String.string_of_list_ascii key)) | _ => None end;
}.

Definition plain_replica (slot : Z) : PersistedReplica :=
  {| pr_Assignment := {| asg_Slot := slot; asg_ChainVersion := 0; asg_Role := ReplicaRoleNone; asg_Peers := noPeers |};
 pr_LastKnownState := StatePending; pr_HighestCommittedSequence := 0;
     pr_HighestUpstreamConfirmedSequence := 0; pr_HasCommittedData := false |}.

#[local] Instance replica_codec : Codec PersistedReplica := {
  marshal r := Some [byte_of (persisted_slot r)];
  unmarshal b := match b with [c] => Some (plain_replica (of_byte c)) | _ => None end;
}.

Lemma plain_storable value : storable (plain_object value).
Proof. eexists. split; [reflexivity|]. split; [done|]. cbn. by rw String.string_of_list_ascii_of_string. Qed.

Definition plain_put (sequence : Z) (key value : string) : DurableCommit :=
  {| dc_Operation := {| op_Slot := 3; op_Sequence := sequence; op_Kind := OperationKindPut; op_Key := key; op_Value := value;
                        op_Metadata := obj_Metadata (plain_object value) |};
     dc_Persisted := plain_replica 3; dc_UpstreamConfirmedSequence := sequence |}.

Lemma plain_put_ok sequence key value : uint64_range sequence -> commit_ok (plain_put sequence key value).
Proof.
  intros Hq. split; [unfold int_range; cbn; lia|]. split; [done|]. split; [done|]. split; [done|]. intros _. apply plain_storable.
Qed.

Lemma plain_delete_ok sequence key : uint64_range sequence -> staged_ok sequence (plain_delete key).
Proof.
  intros Hq. split; [done|]. split; [done|]. split; [|apply plain_storable].
  eexists. split; [reflexivity|]. split; [done|]. cbn. by rw String.string_of_list_ascii_of_string.
Qed.

Lemma plain_replica_ok slot : 0 <= slot < 256 -> storable (plain_replica slot) /\ int_range slot.
Proof.
  intros Hs. split; [|unfold int_range; lia]. eexists. split; [reflexivity|]. split; [done|]. cbn. by rw of_byte_of Z.mod_small.
Qed.

Definition plain_calls : list backend_call :=
  [BCreateReplica 3; LUpsertReplica "a" (plain_replica 3); BApplyCommittedBatch [plain_put 1 "x" "1"; plain_put 2 "y" "2"];
   BStageDelete 3 3 "x" (obj_Metadata (plain_object "")); BStagedSequences 3; LUpsertReplica "a" (plain_replica 2);
   BCommitSequence 3 3; BCommittedSnapshot 3; BGetCommitted 3 "x"; BHighestUpstream 3; LLoadNode "a"; LLoadNode "b";
   BCreateReplica 3; BHighestCommitted 4].

Lemma plain_calls_ok : Forall call_ok plain_calls.
Proof.
  unfold plain_calls. repeat (apply Forall_cons; split); try apply Forall_nil; cbn [call_ok].
  all: try (unfold int_range; lia). all: try (vm_compute; discriminate).
  - split; [vm_compute; discriminate|exact (plain_replica_ok 3 ltac:(lia))].
  - by apply plain_put_ok.
  - by apply plain_put_ok.
  - split; [unfold int_range; lia|by apply (plain_delete_ok 3 "x")].
  - split; [vm_compute; discriminate|exact (plain_replica_ok 2 ltac:(lia))].
  - split; [unfold int_range; lia|done].
Qed.

(** A batch with a gap after its first commit: the in-memory store keeps that
    commit, the badger one does not. *)
Definition gap_calls : list backend_call :=
  [BCreateReplica 3; BApplyCommittedBatch [plain_put 1 "x" "1"; plain_put 3 "y" "2"]; BHighestCommitted 3].

Lemma gap_calls_ok : Forall call_ok gap_calls.
Proof.
  unfold gap_calls. repeat (apply Forall_cons; split); try apply Forall_nil; cbn [call_ok]; try (unfold int_range; lia);
    by apply plain_put_ok.
Qed.

Lemma badger_matches_memory_witness :
  let badger := answers (badger_call (fun _ => None) (fun _ => None) length (fun _ => false)) ∅ in
  badger plain_calls = answers memory_call empty_memory plain_calls /\
  nth_error (answers memory_call empty_memory plain_calls) 8 = Some (AObject (Ok None)) /\
  badger gap_calls = [AUpdate (Ok tt); AUpdate (Err ErrSequenceMismatch); ASequence (Ok 0)] /\
  answers memory_call empty_memory gap_calls = [AUpdate (Ok tt); AUpdate (Err ErrSequenceMismatch); ASequence (Ok 1)].
Proof.
  split; [|split; [vm_compute; reflexivity|split; [|vm_compute; reflexivity]]].
  - destruct (badger_matches_memory length plain_calls plain_calls_ok) as [E1 E2]. rw E1. apply E2. cbn. repeat split.
    vm_compute. intros m' e. discriminate.
  - destruct (badger_matches_memory length gap_calls gap_calls_ok) as [E1 _]. rw E1. vm_compute. reflexivity.
Defined.

(** A batch of two cut after the object of its second commit. *)
Definition torn_log : list WriteOperation := [dc_Operation (plain_put 1 "x" "1"); dc_Operation (plain_put 2 "y" "2")].
Definition torn_logs : gmap Z (list WriteOperation) := {[3 := torn_log]}.
Definition torn_backlog : list DurableCommit := [plain_put 1 "x" "1"; plain_put 2 "y" "2"].
Definition torn_database : database := ok_or ∅ (Badger.CreateReplica (fun _ => None) (fun _ => None) ∅ 3).

Lemma torn_log_ok : log_ok torn_log.
Proof.
  split; [|by repeat constructor]. intros [|[|i]] op; cbn; [by intros [= <-]..|]. by rw lookup_nil.
Qed.

Lemma torn_shows : badger_shows torn_database {[3 := (∅, 0)]}.
Proof.
  exists (ok_or NewInMemoryBackend (CreateReplica NewInMemoryBackend 3)). split; [|reflexivity].
  exact (sim_CreateReplica (fun _ => None) (fun _ => None) (fun _ => eq_refl) (fun _ => eq_refl) ∅ NewInMemoryBackend 3
    represents_empty ltac:(unfold int_range; lia)).
Qed.

Lemma torn_viewed : viewed torn_logs {[3 := (∅, 0)]} /\ roomy torn_logs.
Proof.
  split; [intros slot objects h [<- [= <- <-]]%lookup_singleton_Some|unfold roomy, torn_logs; by intros slot log [<- <-]%lookup_singleton_Some].
  exists torn_log. split_and!; [done|apply torn_log_ok|done|lia|done|done].
Qed.

Lemma torn_feeds : feeds torn_logs (marks_of {[3 := (∅ : Snapshot, 0)]}) torn_backlog {[3 := 2]}.
Proof.
  apply (feeds_next _ _ {[3 := 1]}); [exists 0, torn_log; by split_and!|].
  apply (feeds_next _ _ {[3 := 2]}); [exists 1, torn_log; by split_and!|]. apply feeds_nil.
Qed.

(** Finding: a batch that failed partway is visible after the database is opened
    again.  The second commit has its object and not its sequence number, which
    no sequence of completed operations leaves. *)
Theorem torn_batch_visible :
  let '(d1, answer) := @applyMaterializedBatch _ (badger_backend (fun _ => None) (fun _ => 5%nat) (fun _ => true)) torn_database torn_backlog in
  match Badger.cleanupStagedOperationsOnOpen (fun _ => None) (fun _ => None) d1 with
  | Ok d2 => answer = Err ErrBackend /\ Badger.GetCommitted d2 3 "y" = Ok (Some (plain_object "2")) /\
             Badger.HighestCommittedSequence d2 3 = Ok 1
  | Err _ => False
  end.
Proof. vm_compute. done. Qed.

Lemma torn_batch_repaired_witness :
  let d1 := (@applyMaterializedBatch _ (badger_backend (fun _ => None) (fun _ => 5%nat) (fun _ => true)) torn_database torn_backlog).1 in
  Badger.GetCommitted d1 3 "y" = Ok (Some (plain_object "2")) /\ Badger.HighestCommittedSequence d1 3 = Ok 1 /\
  exists d3 v3, badger_shows d3 v3 /\ viewed torn_logs v3 /\ marks_of v3 = {[3 := 2]}.
Proof.
  split; [vm_compute; reflexivity|]. split; [vm_compute; reflexivity|].
  destruct (torn_batch_repaired (fun _ => None) (fun _ => 5%nat) (fun _ => true) length torn_logs torn_database {[3 := (∅, 0)]}
    torn_backlog {[3 := 2]}) as (_ & d2 & d3 & v3 & _ & _ & Hs & Hv & Hm); [..|by exists d3, v3].
  - exact torn_shows.
  - exact (proj1 torn_viewed).
  - exact (proj2 torn_viewed).
  - exact torn_feeds.
  - by repeat (apply Forall_cons_2; [split; [done|split; [done|intros _; apply plain_storable]]|]).
Defined.
