(* ===== verification/RuntimeBadger.v ===== *)
(** * The runtime's badger store (src/coordinator/runtime/badger.go)

    The checkpoint under one key and the log under keys that sort by index.
    [fails] says which calls the database refuses; JSON is a [Codec]. *)

From S2P Require Import Prelude.
From S2P Require Import CoordTypes.
From S2P Require Import RuntimeTypes.
From S2P Require Import Runtime.
From S2P Require Import Journal.
From S2P Require Import BadgerDB.
From Stdlib Require Import Ascii.

Open Scope Z_scope.

Module BadgerStore.

Definition badgerKeyCheckpoint : bytes := String.list_ascii_of_string "checkpoint/current".
Definition badgerWALPrefix : bytes := String.list_ascii_of_string "wal/".

Definition walKey (index : Z) : bytes := badgerWALPrefix ++ put_be 8 index.

Definition parseWALKey (key : bytes) : option Z :=
  if negb (length key =? length badgerWALPrefix + 8)%nat || negb (bool_decide (take (length badgerWALPrefix) key = badgerWALPrefix))
  then None else Some (get_be (drop (length badgerWALPrefix) key)).

Inductive store_op :=
| opLoadLatestCheckpoint
| opLoadWAL
| opAppendWAL
| opSaveCheckpoint
| opTruncateWAL.

Section store.
Context `{Codec LogRecord} `{Codec Checkpoint}.
Context (fails : store_op -> bool).

Definition View {A} (op : store_op) (answer : res runtime_error A) : res runtime_error A :=
  _ ← reject (fails op) ErrStore; answer.

Definition decoded {A} `{Codec A} (value : bytes) : res runtime_error A :=
  match unmarshal value with Some a => Ok a | None => Err ErrStore end.

Definition LoadLatestCheckpoint (d : database) : res runtime_error (option Checkpoint) :=
  View opLoadLatestCheckpoint
    match d !! badgerKeyCheckpoint with
    | None => Ok None
    | Some value => checkpoint ← decoded value; Ok (Some checkpoint)
    end.

Definition load_record (afterIndex : Z) (records : list LogRecord) (item : bytes * bytes)
    : res runtime_error (list LogRecord) :=
  match parseWALKey item.1 with
  | None => Ok records
  | Some index =>
      if index <=? afterIndex then Ok records
      else record ← decoded item.2; Ok (records ++ [cloneLogRecord record])
  end.

Definition LoadWAL (d : database) (afterIndex : Z) : res runtime_error (list LogRecord) :=
  View opLoadWAL (res_fold (load_record afterIndex) [] (iterate d badgerWALPrefix)).

Definition AppendWAL (d : database) (record : LogRecord) : res runtime_error database :=
  match marshal (cloneLogRecord record) with
  | None => Err ErrStore
  | Some encoded => View opAppendWAL (Ok (<[walKey (log_Index record) := encoded]> d))
  end.

Definition SaveCheckpoint (d : database) (checkpoint : Checkpoint) : res runtime_error database :=
  match marshal (cloneCheckpoint checkpoint) with
  | None => Err ErrStore
  | Some encoded => View opSaveCheckpoint (Ok (<[badgerKeyCheckpoint := encoded]> d))
  end.

Definition truncate_item (throughIndex : Z) (d : database) (item : bytes * bytes) : database :=
  match parseWALKey item.1 with
  | None => d
  | Some index => if throughIndex <? index then d else delete item.1 d
  end.

Definition TruncateWAL (d : database) (throughIndex : Z) : res runtime_error database :=
  View opTruncateWAL (Ok (foldl (truncate_item throughIndex) d (iterate d badgerWALPrefix))).
End store.
End BadgerStore.

#[export] Instance BadgerStore_ops `{Codec LogRecord} `{Codec Checkpoint} (fails : BadgerStore.store_op -> bool)
  : StoreOps database := {
  LoadLatestCheckpoint := BadgerStore.LoadLatestCheckpoint fails;
  LoadWAL := BadgerStore.LoadWAL fails;
  AppendWAL := BadgerStore.AppendWAL fails;
  SaveCheckpoint := BadgerStore.SaveCheckpoint fails;
  TruncateWAL := BadgerStore.TruncateWAL fails;
}.
