(* ===== verification/RuntimeBadgerTheorems.v ===== *)
(** * The runtime on its badger store

    The badger store keeps the promise of a store, so that what is proved of the
    runtime holds of a coordinator that keeps its log there. *)

From S2P Require Import Prelude.
From S2P Require Import CoordTypes.
From S2P Require Import RuntimeTypes.
From S2P Require Import Runtime.
From S2P Require Import RuntimeProps.
From S2P Require Import RuntimeTheorems.
From S2P Require Import Journal.
From S2P Require Import JournalTheorems.
From S2P Require Import BadgerDB.
From S2P Require Import RuntimeBadger.
From Stdlib Require Import Ascii.

Open Scope Z_scope.

Section store.
Context `{Codec LogRecord} `{Codec Checkpoint}.

Definition index_ok (record : LogRecord) : Prop := 0 <= log_Index record < u64_mod.

Abbreviation prefix := BadgerStore.badgerWALPrefix.
Abbreviation walKey := BadgerStore.walKey.

(** Every log key holds the record of its index. *)
Definition badger_sound (d : database) : Prop :=
  (forall v, d !! BadgerStore.badgerKeyCheckpoint = Some v -> exists c : Checkpoint, unmarshal v = Some c) /\
  (forall key v, d !! key = Some v -> prefix `prefix_of` key ->
     exists record : LogRecord, unmarshal v = Some record /\ index_ok record /\ key = walKey (log_Index record)).

Definition badger_contents (d : database) : option Checkpoint * list LogRecord :=
  (d !! BadgerStore.badgerKeyCheckpoint ≫= unmarshal, omap (fun item => unmarshal item.2) (iterate d prefix)).

Lemma get_walKey i : 0 <= i < u64_mod -> get_be (put_be 8 i) = i.
Proof. intros Hi. unfold get_be, put_be. rw rev_involutive. by apply get_put_u64. Qed.

Lemma parse_walKey i : 0 <= i < u64_mod -> BadgerStore.parseWALKey (walKey i) = Some i.
Proof.
  intros Hi. unfold BadgerStore.parseWALKey, BadgerStore.walKey.
  rw length_app length_put_be take_app_length drop_app_length bool_decide_true // Nat.eqb_refl. cbn [negb orb]. f_equal. by apply get_walKey.
Qed.

Lemma walKey_inj i j : 0 <= i < u64_mod -> 0 <= j < u64_mod -> walKey i = walKey j -> i = j.
Proof. intros Hi Hj Heq. by rw -(get_walKey i Hi) -(get_walKey j Hj) (app_inv_head _ _ _ Heq). Qed.

Lemma walKey_leb i j : 0 <= i < u64_mod -> 0 <= j < u64_mod -> bytes_leb (walKey i) (walKey j) = (i <=? j).
Proof.
  intros Hi Hj. unfold BadgerStore.walKey. rw bytes_leb_app bytes_leb_be; [by rw !length_put_be|]. by rw !get_walKey.
Qed.

Lemma walKey_prefix i : prefix `prefix_of` walKey i.
Proof. by apply prefix_app_r. Qed.

Lemma walKey_not_checkpoint i : walKey i <> BadgerStore.badgerKeyCheckpoint.
Proof. by unfold BadgerStore.walKey. Qed.

(** The items of the log and their records. *)
Definition item_of (item : bytes * bytes) (record : LogRecord) : Prop :=
  item.1 = walKey (log_Index record) /\ unmarshal item.2 = Some record /\ index_ok record.

Lemma wal_items d : badger_sound d -> Forall2 item_of (iterate d prefix) (badger_contents d).2.
Proof.
  intros [_ Hd]. unfold badger_contents. cbn [snd]. assert (forall key v, (key, v) ∈ iterate d prefix -> d !! key = Some v /\ prefix `prefix_of` key) as Hin.
  { intros key v. apply elem_of_iterate. }
  revert Hin. generalize (iterate d prefix). intros items Hin. induction items as [|[key v] items IH]; cbn; [constructor|].
  destruct (Hin key v) as [Hk Hp]; [by left|]. destruct (Hd _ _ Hk Hp) as (record & Hu & Hi & ->). rw Hu. constructor; [done|].
  apply IH. intros key' v' Hin'. apply Hin. by right.
Qed.

(** *** Loading *)
Context (fails : BadgerStore.store_op -> bool).

Lemma badger_load_checkpoint d : badger_sound d ->
  BadgerStore.LoadLatestCheckpoint fails d =
  if fails BadgerStore.opLoadLatestCheckpoint then Err ErrStore else Ok (badger_contents d).1.
Proof.
  intros [Hc _]. unfold BadgerStore.LoadLatestCheckpoint, BadgerStore.View. destruct (fails _); [done|].
  unfold badger_contents, BadgerStore.decoded. cbn [fst reject mbind res_bind].
  destruct (d !! BadgerStore.badgerKeyCheckpoint) as [v|]; [|done]. destruct (Hc v eq_refl) as [c Hu].
  cbn [mbind option_bind]. by rw Hu.
Qed.

Lemma badger_load_wal d i : badger_sound d ->
  BadgerStore.LoadWAL fails d i =
  if fails BadgerStore.opLoadWAL then Err ErrStore
  else Ok (List.filter (fun r => i <? log_Index r) (badger_contents d).2).
Proof.
  intros Hd%wal_items. unfold BadgerStore.LoadWAL, BadgerStore.View. destruct (fails _); [done|]. cbn [reject mbind res_bind].
  revert Hd. generalize (badger_contents d).2 (iterate d prefix). intros records items Hf.
  assert (forall acc, res_fold (BadgerStore.load_record i) acc items = Ok (acc ++ List.filter (fun r => i <? log_Index r) records)) as Hall.
  { induction Hf as [|[key v] record items records (Hk & Hu & Hi) _ IH]; intros acc; [by rw app_nil_r|]. cbn [fst snd] in Hk, Hu.
    cbn [res_fold List.filter]. unfold BadgerStore.load_record at 2. cbn [fst snd]. rw Hk parse_walKey //.
    destruct (Z.leb_spec (log_Index record) i); [rw (proj2 (Z.ltb_ge _ _)) //; apply IH|rw (proj2 (Z.ltb_lt _ _)) //].
    unfold BadgerStore.decoded. rw Hu. cbn [mbind res_bind]. by rw IH -app_assoc cloneLogRecord_id. }
  by rw Hall.
Qed.

(** *** Appending *)
Lemma sorted_snoc {A} (R : A -> A -> Prop) l x :
  StronglySorted R l -> Forall (fun a => R a x) l -> StronglySorted R (l ++ [x]).
Proof.
  induction 1 as [|a l Hl IH Ha]; intros Hx; cbn; [by repeat constructor|].
  apply Forall_cons in Hx as [Hax Hx]. constructor; [by apply IH|]. apply Forall_app. split; [done|by constructor].
Qed.

Lemma iterate_append d record v : badger_sound d -> index_ok record ->
  Forall (fun r => log_Index r < log_Index record) (badger_contents d).2 ->
  iterate (<[walKey (log_Index record) := v]> d) prefix = iterate d prefix ++ [(walKey (log_Index record), v)].
Proof.
  intros Hd Hi Hlt. pose proof (wal_items d Hd) as Hitems.
  assert (forall item, item ∈ iterate d prefix -> exists j, item.1 = walKey j /\ 0 <= j < log_Index record) as Hkeys.
  { intros item [n Hn]%list_elem_of_lookup. destruct (Forall2_lookup_l _ _ _ _ _ Hitems Hn) as (r & Hr & Hk & _ & Hri).
    exists (log_Index r). split; [done|]. rw Forall_lookup in Hlt. specialize (Hlt _ _ Hr). unfold index_ok in Hri. lia. }
  unfold index_ok in Hi. apply iterate_eq.
  - apply sorted_snoc; [apply iterate_sorted|]. apply Forall_forall. intros item (j & -> & Hj)%Hkeys. cbn [fst].
    rw walKey_leb; lia.
  - rw fmap_app. apply NoDup_app. split_and!; [apply iterate_NoDup| |apply NoDup_singleton].
    intros key (item & -> & (j & -> & Hj)%Hkeys)%list_elem_of_fmap Heq%list_elem_of_singleton.
    apply walKey_inj in Heq; lia.
  - intros key value. rw elem_of_app list_elem_of_singleton elem_of_iterate.
    destruct (decide (walKey (log_Index record) = key)) as [<-|Hne].
    + rw lookup_insert_eq. split.
      * intros [[Hv Hp]|[= ->]]; [|split; [done|apply walKey_prefix]]. exfalso.
        destruct (Hkeys (walKey (log_Index record), value)) as (j & Heq & Hj); [by apply elem_of_iterate|].
        cbn [fst] in Heq. apply walKey_inj in Heq; lia.
      * intros [[= ->] _]. by right.
    + rw lookup_insert_ne //. split; [by intros [?|[= -> _]]|by left].
Qed.

Definition badger_admits_command (cmd : Command) : Prop :=
  forall i, 0 <= i < u64_mod -> storable {| log_Index := i; log_Command := cmd |}.

Lemma omap_snoc {A B} (f : A -> option B) l x y : f x = Some y -> omap f (l ++ [x]) = omap f l ++ [y].
Proof. intros Hx. rw omap_app. cbn. by rw Hx. Qed.

Lemma badger_append d record d' : badger_sound d -> badger_admits_command (log_Command record) -> index_ok record ->
  Forall (fun r => log_Index r < log_Index record) (badger_contents d).2 ->
  BadgerStore.AppendWAL fails d record = Ok d' ->
  badger_sound d' /\ badger_contents d' = ((badger_contents d).1, (badger_contents d).2 ++ [record]).
Proof.
  intros Hd Hadm Hi Hlt. unfold BadgerStore.AppendWAL, BadgerStore.View. rw cloneLogRecord_id.
  destruct (Hadm (log_Index record) Hi) as (v & Hv & _ & Hu). assert ({| log_Index := log_Index record; log_Command := log_Command record |} = record)
    as Hrec by by destruct record. rw Hrec in Hv, Hu. rw Hv. destruct (fails _); [done|]. intros [= <-].
  pose proof (iterate_append d record v Hd Hi Hlt) as Hit. split.
  - destruct Hd as [Hc Hw]. split.
    + intros v'. rw lookup_insert_ne; [apply walKey_not_checkpoint|apply Hc].
    + intros key v'. destruct (decide (walKey (log_Index record) = key)) as [<-|Hne].
      * rw lookup_insert_eq. intros [= <-] _. by exists record.
      * rw lookup_insert_ne //. apply Hw.
  - unfold badger_contents. rw Hit lookup_insert_ne; [apply walKey_not_checkpoint|]. f_equal. by apply omap_snoc.
Qed.

(** *** Checkpoints *)
Lemma iterate_checkpoint d v : iterate (<[BadgerStore.badgerKeyCheckpoint := v]> d) prefix = iterate d prefix.
Proof.
  apply iterate_eq; [apply iterate_sorted|apply iterate_NoDup|]. intros key value. rw elem_of_iterate.
  destruct (decide (BadgerStore.badgerKeyCheckpoint = key)) as [<-|Hne]; [|by rw lookup_insert_ne].
  split; intros [_ Hp]; by apply prefix_cons_inv_1 in Hp.
Qed.

Lemma badger_save d c d' : badger_sound d -> storable c -> normal (ckpt_State c) ->
  BadgerStore.SaveCheckpoint fails d c = Ok d' -> badger_sound d' /\ badger_contents d' = (Some c, (badger_contents d).2).
Proof.
  intros [Hc Hw] (v & Hv & _ & Hu) Hn. unfold BadgerStore.SaveCheckpoint, BadgerStore.View. rw cloneCheckpoint_id // Hv.
  destruct (fails _); [done|]. intros [= <-]. split.
  - split.
    + intros v'. rw lookup_insert_eq. intros [= <-]. by exists c.
    + intros key v'. destruct (decide (BadgerStore.badgerKeyCheckpoint = key)) as [<-|Hne].
      * intros _ Hp. by apply prefix_cons_inv_1 in Hp.
      * rw lookup_insert_ne //. apply Hw.
  - unfold badger_contents. rw iterate_checkpoint lookup_insert_eq. cbn [mbind option_bind]. by rw Hu.
Qed.

(** *** Truncating *)
Definition past (i : Z) (item : bytes * bytes) : bool :=
  match BadgerStore.parseWALKey item.1 with Some index => i <? index | None => true end.

Lemma truncated_lookup i d items key : NoDup items.*1 ->
  foldl (BadgerStore.truncate_item i) d items !! key =
  if existsb (fun item => bool_decide (item.1 = key) && negb (past i item)) items then None else d !! key.
Proof.
  revert d. induction items as [|item items IH]; intros d Hnd; cbn [foldl existsb]; [done|].
  apply NoDup_cons in Hnd as [Hk Hnd]. rw IH //. unfold past, BadgerStore.truncate_item.
  destruct (BadgerStore.parseWALKey item.1) as [index|]; [|by rw andb_false_r].
  destruct (i <? index) eqn:Hlt; cbn [negb]; [by rw andb_false_r|]. rw andb_true_r.
  destruct (bool_decide_reflect (item.1 = key)) as [<-|Hne]; cbn [orb].
  - rw lookup_delete_eq. by destruct (existsb _ _).
  - by rw lookup_delete_ne.
Qed.

Lemma sorted_filter {A} (R : A -> A -> Prop) (p : A -> bool) l : StronglySorted R l -> StronglySorted R (List.filter p l).
Proof.
  induction 1 as [|a l Hl IH Ha]; cbn; [constructor|]. destruct (p a); [|done]. constructor; [done|].
  exact (List.incl_Forall (List.incl_filter _ _) Ha).
Qed.

Lemma truncated_item i d key value : badger_sound d ->
  let d' := foldl (BadgerStore.truncate_item i) d (iterate d prefix) in
  d' !! key = Some value <->
  d !! key = Some value /\ (prefix `prefix_of` key -> past i (key, value) = true).
Proof.
  intros Hd d'. unfold d'. rw truncated_lookup; [apply iterate_NoDup|].
  destruct (existsb _ _) eqn:Hex.
  - apply existsb_exists in Hex as ([key' v] & Hin & [Hk%bool_decide_eq_true Hp]%andb_true_iff). cbn [fst] in Hk. subst key'.
    rw -list_elem_of_In in Hin. apply elem_of_iterate in Hin as [Hv Hpre]. split; [done|]. intros [Hv' Hpast]. exfalso.
    rw Hv in Hv'. injection Hv' as ->. by rw (Hpast Hpre) in Hp.
  - split; [|by intros [? _]]. intros Hv. split; [done|]. intros Hpre. destruct (past i (key, value)) eqn:Hp; [done|exfalso].
    rw -not_true_iff_false existsb_exists in Hex. apply Hex. exists (key, value). rw -list_elem_of_In elem_of_iterate Hp.
    cbn. by rw bool_decide_true.
Qed.

Lemma iterate_truncated i d : badger_sound d ->
  iterate (foldl (BadgerStore.truncate_item i) d (iterate d prefix)) prefix = List.filter (past i) (iterate d prefix).
Proof.
  intros Hd. apply iterate_eq.
  - apply sorted_filter, iterate_sorted.
  - pose proof (iterate_NoDup d prefix) as Hnd. revert Hnd. generalize (iterate d prefix). intros l.
    induction l as [|item l IH]; [done|]. intros [Hk Hl]%NoDup_cons. cbn [List.filter]. destruct (past i item); [|by apply IH].
    constructor; [|by apply IH]. intros (item' & Heq & Hin)%list_elem_of_fmap. apply Hk, list_elem_of_fmap. exists item'.
    split; [done|]. by rw list_elem_of_In filter_In -list_elem_of_In in Hin; destruct Hin.
  - intros key value. rw list_elem_of_In filter_In -list_elem_of_In elem_of_iterate truncated_item //. naive_solver.
Qed.

Lemma badger_truncate d i d' : badger_sound d -> BadgerStore.TruncateWAL fails d i = Ok d' ->
  badger_sound d' /\
  badger_contents d' = ((badger_contents d).1, List.filter (fun r => i <? log_Index r) (badger_contents d).2).
Proof.
  intros Hd. unfold BadgerStore.TruncateWAL, BadgerStore.View. destruct (fails _); [done|]. intros [= <-].
  pose proof (truncated_item i d) as Hitem. cbv zeta in Hitem. split.
  - destruct Hd as [Hc Hw]. split.
    + intros v [Hv _]%Hitem; [by apply Hc|done].
    + intros key v [Hv _]%Hitem Hp; [by apply Hw|done].
  - unfold badger_contents.
    assert (foldl (BadgerStore.truncate_item i) d (iterate d prefix) !! BadgerStore.badgerKeyCheckpoint =
      d !! BadgerStore.badgerKeyCheckpoint) as ->.
    { apply option_eq. intros v. rw Hitem //. split; [by intros [? _]|]. intros Hv. split; [done|].
      intros Hp. by apply prefix_cons_inv_1 in Hp. }
    f_equal. rw iterate_truncated //. pose proof (wal_items d Hd) as Hf. unfold badger_contents in Hf. cbn [snd] in Hf |- *.
    revert Hf. generalize (omap (fun item => unmarshal (A := LogRecord) item.2) (iterate d prefix)).
    generalize (iterate d prefix). intros items records Hf.
    induction Hf as [|[key v] record items records (Hk & Hu & Hi) _ IH]; [done|]. cbn [fst snd] in Hk, Hu.
    cbn [List.filter]. unfold past at 1. cbn [fst]. rw Hk parse_walKey //.
    destruct (i <? log_Index record); [|done]. cbn. by rw Hu IH.
Qed.

#[export] Program Instance BadgerStore_laws : @StoreLaws database (BadgerStore_ops fails) := {
  sound := badger_sound;
  contents := badger_contents;
  admits_command := badger_admits_command;
  admits_checkpoint := storable;
}.
Next Obligation.
  intros d Hd. change (LoadLatestCheckpoint d) with (BadgerStore.LoadLatestCheckpoint fails d).
  rw badger_load_checkpoint //. destruct (fails _); [by left|by right].
Qed.
Next Obligation.
  intros d i Hd. change (LoadWAL d i) with (BadgerStore.LoadWAL fails d i).
  rw badger_load_wal //. destruct (fails _); [by left|by right].
Qed.
Next Obligation. intros d record d'. apply badger_append. Qed.
Next Obligation. intros d c d'. apply badger_save. Qed.
Next Obligation. intros d i d'. apply badger_truncate. Qed.
End store.

(** ** Claims *)
Section claims.
Context `{Codec LogRecord} `{Codec Checkpoint}.

Lemma durable_fails (fails fails' : BadgerStore.store_op -> bool) r : @durable _ _ (BadgerStore_laws fails) r -> @durable _ _ (BadgerStore_laws fails') r.
Proof. intros []. by split. Qed.

(** A run on a database that refuses other calls in each step. *)
Definition badger_step (r r' : Runtime database) : Prop := exists fails, @rt_step _ _ (BadgerStore_laws fails) r r'.

Definition badger_run (r : Runtime database) : Prop :=
  exists r0, @fresh_runtime _ _ (BadgerStore_laws (fun _ => false)) r0 /\ rtc badger_step r0 r.

Lemma badger_run_durable fails r : badger_run r -> @durable _ _ (BadgerStore_laws fails) r.
Proof.
  intros (r0 & Hf%fresh_durable%(durable_fails _ fails) & Hs). induction Hs as [|r1 r2 r3 [fails1 H12] _ IH]; [done|].
  apply IH, (durable_fails fails1), (rt_step_durable r1); [|done]. by apply (durable_fails fails).
Qed.

(** C16. A coordinator that keeps its log in badger comes back with its state:
    after any sequence of commands and checkpoints its encoding can hold, and of
    restarts, on a database that may refuse calls, other ones in each step and the truncation of a checkpoint
    among them, opening it when it can be read rebuilds the live state from the
    checkpoint and the log in the order of their keys, but for applied-command
    entries an interrupted checkpoint had dropped. *)
Theorem badger_coordinator_recovers (fails' : BadgerStore.store_op -> bool) (r : Runtime database) :
  badger_run r ->
  fails' BadgerStore.opLoadLatestCheckpoint = false -> fails' BadgerStore.opLoadWAL = false ->
  exists r', @Open _ (BadgerStore_ops fails') (run_store r) = Ok r' /\ run_store r' = run_store r /\
    recovers (run_state r) (run_state r').
Proof.
  intros Hr%(badger_run_durable fails') Hc Hw.
  destruct (Open_loaded r Hr) as (rec & Ho & _ & Hrec); [..|by exists {| run_store := run_store r; run_state := rec |}].
  - change (LoadLatestCheckpoint ?d) with (BadgerStore.LoadLatestCheckpoint fails' d).
    rw badger_load_checkpoint; [apply (du_sound _ Hr)|]. by rw Hc.
  - change (LoadWAL ?d ?i) with (BadgerStore.LoadWAL fails' d i).
    rw badger_load_wal; [apply (du_sound _ Hr)|]. by rw Hw.
Qed.
End claims.

(** ** A concrete coordinator

    A codec for the records of the bootstrap command and for one checkpoint; the
    database refuses to truncate the log after it has taken the command. *)
Definition booted_checkpoint : Checkpoint := {| ckpt_State := clear_applied (run_state booted.1) |}.

#[local] Instance record_codec : Codec LogRecord := {
  marshal record := Some ("r"%char :: put_be 8 (log_Index record));
  unmarshal b :=
    match b with "r"%char :: index => Some {| log_Index := get_be index; log_Command := bootstrap_command |} | _ => None end;
}.

#[local] Instance checkpoint_codec : Codec Checkpoint := {
  marshal _ := Some ["c"%char];
  unmarshal _ := Some booted_checkpoint;
}.

Definition no_truncate (op : BadgerStore.store_op) : bool :=
  match op with BadgerStore.opTruncateWAL => true | _ => false end.

Definition db_fresh : Runtime database := {| run_store := ∅; run_state := zeroRuntimeState |}.
Definition db_booted : Runtime database * State :=
  ok_or (db_fresh, zeroRuntimeState) (@Bootstrap _ (BadgerStore_ops (fun _ => false)) db_fresh bootstrap_command).
Definition db_checkpointed : Runtime database := (@Runtime_Checkpoint _ (BadgerStore_ops no_truncate) db_booted.1).1.

Lemma db_reachable : badger_run db_checkpointed.
Proof.
  exists db_fresh. split.
  - split; [done|]. split; [split; intros *; rw lookup_empty; done|done].
  - apply (rtc_l _ _ db_booted.1).
    + exists (fun _ => false).
      apply (@step_command _ _ (BadgerStore_laws (fun _ => false)) db_fresh bootstrap_command (@Bootstrap _ (BadgerStore_ops (fun _ => false)))
        db_booted.1 db_booted.2); [done| |done|].
      * intros i Hi. eexists. split; [reflexivity|]. split; [done|]. cbn [unmarshal record_codec]. by rw get_walKey.
      * rw -surjective_pairing. by apply ok_or_Ok; vm_compute.
    + apply rtc_once. exists no_truncate. apply (@step_checkpoint _ _ (BadgerStore_laws no_truncate)).
      eexists. split; [reflexivity|]. split; [done|]. vm_compute. reflexivity.
Qed.

Lemma badger_coordinator_recovers_witness :
  exists r', @Open _ (BadgerStore_ops (fun _ => false)) (run_store db_checkpointed) = Ok r' /\
    recovers (run_state db_checkpointed) (run_state r').
Proof.
  destruct (badger_coordinator_recovers (fun _ => false) db_checkpointed) as (r' & Ho & _ & Hr).
  - exact db_reachable.
  - reflexivity.
  - reflexivity.
  - exists r'. exact (conj Ho Hr).
Defined.
