(* ===== verification/HATheorems.v ===== *)
(** * What the highly available coordinator guarantees

    Any number of coordinators, with any number of handlers in flight and any
    clocks, behave like one that applies its operations one after the other to
    one snapshot; and a coordinator that has lost its lease can no longer
    change anything. *)

From S2P Require Import Prelude.
From S2P Require Import CoordTypes.
From S2P Require Import Placement.
From S2P Require Import Reconfig.
From S2P Require Import ReconfigProps.
From S2P Require Import PlanTheorems.
From S2P Require Import StorageTypes.
From S2P Require Import RuntimeTypes.
From S2P Require Import Runtime.
From S2P Require Import RuntimeProps.
From S2P Require Import RuntimeTheorems.
From S2P Require Import Journal.
From S2P Require Import CoordServer.
From S2P Require Import HAStore.
From S2P Require Import HAEngine.
From S2P Require Import HAWorld.

Open Scope Z_scope.
Open Scope record_scope.

(** ** What the store promises *)
Class HAStoreLaws (S : Type) `{HAStore S} := {
  stored : S -> HASnapshot;
  holder : S -> option LeaderLease;
  load_law s snapshot : LoadSnapshot s = Ok snapshot -> snapshot = cloneHASnapshot (stored s);
  save_law s lease now expected snapshot s' version :
    SaveSnapshot s lease now expected snapshot = Ok (s', version) ->
    (exists current, holder s = Some current /\ lease_HolderID current = lease_HolderID lease /\
       lease_Epoch current = lease_Epoch lease /\ UnixNano now < lease_ExpiresAtUnixNano current) /\
    ha_SnapshotVersion (stored s) = expected /\ version = u64_add expected 1 /\
    stored s' = (cloneHASnapshot snapshot) <| ha_SnapshotVersion := version |> /\ holder s' = holder s;
  acquire_law s holderID endpoint now ttl s' lease won :
    AcquireOrRenew s holderID endpoint now ttl = Ok (s', lease, won) ->
    stored s' = stored s /\ holder s' = Some lease /\
    match holder s with
    | None => won = true /\ lease_Epoch lease = 1
    | Some current =>
        if won then lease_Epoch lease = lease_Epoch current /\ lease_HolderID current = holderID \/
                    lease_Epoch lease = u64_add (lease_Epoch current) 1 /\
                    lease_ExpiresAtUnixNano current <= UnixNano now
        else lease = current
    end /\ (won = true -> lease_HolderID lease = holderID);
}.

#[export] Program Instance InMemoryHAStore_laws : HAStoreLaws InMemoryHAStore := {
  stored s := default zeroHASnapshot (mh_snapshot s);
  holder s := mh_lease s;
}.
Next Obligation.
  intros s snapshot [= <-]. unfold mem_LoadSnapshot. destruct (mh_snapshot s); [done|]. cbn.
  vm_compute. reflexivity.
Qed.
Next Obligation.
  intros s lease now expected snapshot s' version. cbn. unfold mem_SaveSnapshot.
  intros (u & Hl & Hs)%bind_Ok. apply bind_Ok in Hs as (u2 & Hv & [= <- <-]).
  apply reject_Ok in Hv as [Hv _]. apply negb_false_iff, Z.eqb_eq in Hv.
  destruct (mh_lease s) as [current|] eqn:Hm; [|done]. apply reject_Ok in Hl as [Hl _].
  apply orb_false_iff in Hl as [[H1 H2]%orb_false_iff H3]. apply negb_false_iff in H1, H2.
  apply String.eqb_eq in H1. apply Z.eqb_eq in H2. apply Z.leb_gt in H3.
  split; [by exists current|]. cbn. rw -Hv. unfold mem_current_version. by destruct (mh_snapshot s).
Qed.
Next Obligation.
  intros s holderID endpoint now ttl s' lease won. cbn. unfold mem_AcquireOrRenew. intros [= Hs].
  destruct (mh_lease s) as [current|] eqn:Hm; [|by injection Hs as <- <- <-].
  destruct (String.eqb_spec (lease_HolderID current) holderID) as [He|He];
    destruct (Z.leb_spec (lease_ExpiresAtUnixNano current) (UnixNano now)) as [Hx|Hx]; cbn [andb negb] in Hs;
    injection Hs as <- <- <-; cbn; rw ?Hm; split_and!; auto; done.
Qed.

(** ** One operation on the snapshot *)
(** What the runtime's state becomes: the outcome of one command evaluated on
    it, of one heartbeat of a live node, or the same. *)
Inductive state_move : State -> State -> Prop :=
| move_same st : state_move st st
| move_command st cmd ev : EvaluateCommand st cmd = Ok ev -> state_move st (ev_NextState ev)
| move_heartbeat opts st status observedAt :
    is_Some (cs_NodesByID (rt_Cluster st) !! status_NodeID status) ->
    nodeMarkedDead (rt_Cluster st) (status_NodeID status) = false ->
    state_move st (heartbeat_state opts st status observedAt).

(** The commands the runtime wants sent are in the outbox of the snapshot. *)
Definition outbox_complete (s : HASnapshot) : Prop := forall e, e ∈ rt_Outbox (ha_State s) ->
  exists h, h ∈ ha_Outbox s /\ ho_ID h = ob_ID e /\ ho_NodeID h = ob_NodeID e /\ ho_Slot h = ob_Slot e /\
    ho_Kind h = haOutboxKindFromRuntime (ob_Kind e) /\ ho_Assignment h = Some (ob_Assignment e).

Record ha_move (s next : HASnapshot) : Prop := {
  hm_state : state_move (ha_State s) (ha_State next);
  hm_outbox : outbox_complete s -> outbox_complete next;
}.

(** ** Disciplined programs

    Whatever they are answered, they save only what one operation makes of a
    snapshot they loaded, under the version they loaded it with. *)
Definition with_loaded (loaded : HASnapshot -> Prop) (r : res server_error HASnapshot) : HASnapshot -> Prop :=
  match r with Ok snapshot => fun s => loaded s \/ s = snapshot | Err _ => loaded end.

Definition good_save (loaded : HASnapshot -> Prop) (expected : Z) (next : HASnapshot) : Prop :=
  exists s, loaded s /\ ha_SnapshotVersion s = expected /\ normal (ha_State next) /\ ha_move s next.

(** [wp loaded p Q]: the saves of [p] are good, and it ends in [Q] of what it
    has loaded by then and its result. *)
Fixpoint wp {A} (loaded : HASnapshot -> Prop) (p : prog A) (Q : (HASnapshot -> Prop) -> A -> Prop) : Prop :=
  match p with
  | Done a => Q loaded a
  | Call c k =>
      match c in ha_call X return (X -> prog A) -> Prop with
      | CallLoadSnapshot => fun k => forall r,
          (forall snapshot, r = Ok snapshot -> normal (ha_State snapshot)) -> wp (with_loaded loaded r) (k r) Q
      | CallSaveSnapshot _ _ expected next => fun k =>
          good_save loaded expected next /\ forall r, wp loaded (k r) Q
      | _ => fun k => forall x, wp loaded (k x) Q
      end k
  end.

Definition disciplined {A} (loaded : HASnapshot -> Prop) (p : prog A) : Prop := wp loaded p (fun _ _ => True).

Abbreviation grows L L' := (forall s : HASnapshot, L s -> L' s).

Lemma with_loaded_grows L r : grows L (with_loaded L r).
Proof. destruct r; cbn; auto. Qed.

Lemma good_save_grows L L' expected next : grows L L' -> good_save L expected next -> good_save L' expected next.
Proof. intros Hg (s & Hs & H). exists s. auto. Qed.

Lemma with_loaded_mono L L' r : grows L L' -> grows (with_loaded L r) (with_loaded L' r).
Proof. intros Hg s. destruct r; cbn; [|auto]. intros [?|?]; auto. Qed.

Lemma wp_conseq {A} L (p : prog A) (Q Q' : (HASnapshot -> Prop) -> A -> Prop) :
  wp L p Q -> (forall M a, grows L M -> Q M a -> Q' M a) -> wp L p Q'.
Proof.
  revert L. induction p as [a|X c k IH]; intros L Hp HQ; [by apply HQ|].
  destruct c; cbn in *; try (intros x; by apply IH).
  - intros r Hr. apply IH; [by apply Hp|]. intros M a HM. apply HQ. intros s Hs. by apply HM, with_loaded_grows.
  - destruct Hp as [Hs Hp]. split; [done|]. intros r. by apply IH.
Qed.

Lemma wp_bind {A B} L (m : prog A) (f : A -> prog B) Q :
  wp L m (fun L' a => grows L L' -> wp L' (f a) Q) -> wp L (m ≫= f) Q.
Proof.
  assert (forall L0, grows L0 L -> wp L m (fun L' a => grows L0 L' -> wp L' (f a) Q) -> wp L (m ≫= f) Q) as H.
  2: by apply H.
  revert L. induction m as [a|X c k IH]; intros L L0 Hg Hm; [by apply Hm|].
  destruct c; cbn in *; try (intros x; by apply (IH x L L0)).
  - intros r Hr. apply (IH r _ L0); [|by apply Hm]. intros s Hs. by apply with_loaded_grows, Hg.
  - destruct Hm as [Hs Hm]. split; [done|]. intros r. by apply (IH r L L0).
Qed.

Lemma disciplined_mono {A} L L' (p : prog A) : grows L L' -> disciplined L p -> disciplined L' p.
Proof.
  unfold disciplined. revert L L'. induction p as [a|X c k IH]; intros L L' Hg Hp; [done|].
  destruct c; cbn in *; try (intros x; by apply (IH x L)).
  - intros r Hr. apply (IH r (with_loaded L r)); [by apply with_loaded_mono|by apply Hp].
  - destruct Hp as [Hs Hp]. split; [by apply (good_save_grows L)|]. intros r. by apply (IH r L).
Qed.

(** A handler about whose result nothing needs to be known. *)
Definition safe {A} (m : prog A) : Prop := forall L Q, (forall L' a, grows L L' -> Q L' a) -> wp L m Q.

Lemma safe_disciplined {A} (m : prog A) L : safe m -> disciplined L m.
Proof. intros Hm. by apply Hm. Qed.

Lemma wp_then {A B} L (m : ha A) (k : A -> ha B) Q :
  wp L m (fun L' r => grows L L' -> match r with Ok a => wp L' (k a) Q | Err e => Q L' (Err e) end) ->
  wp L (and_then m k) Q.
Proof.
  intros Hm. apply wp_bind. apply (wp_conseq L m _ _ Hm). intros M r HM Hr Hg.
  destruct r as [a|e]; cbn; by apply Hr.
Qed.

Lemma wp_safe {A} L (m : prog A) Q : safe m -> (forall L' a, grows L L' -> Q L' a) -> wp L m Q.
Proof. auto. Qed.

Lemma safe_bind {A B} (m : prog A) (f : A -> prog B) : safe m -> (forall a, safe (f a)) -> safe (m ≫= f).
Proof.
  intros Hm Hf L Q HQ. apply wp_bind, Hm. intros L' a _ Hg. apply Hf. intros M b HM. apply HQ. auto.
Qed.

Lemma safe_then {A B} (m : ha A) (k : A -> ha B) : safe m -> (forall a, safe (k a)) -> safe (and_then m k).
Proof.
  intros Hm Hk. apply safe_bind; [done|]. intros [a|e]; [apply Hk|]. intros L Q HQ. by apply HQ.
Qed.

Lemma safe_done {A} (a : A) : safe (Done a).
Proof. intros L Q HQ. by apply HQ. Qed.

(** Calls that are not the store's snapshot. *)
Definition plain_call {X} (c : ha_call X) : bool :=
  match c with CallLoadSnapshot | CallSaveSnapshot _ _ _ _ => false | _ => true end.

Lemma safe_call {X} (c : ha_call X) : plain_call c = true -> safe (call c).
Proof. intros Hc L Q HQ. destruct c; try done; intros x; by apply HQ. Qed.

(** Loading, and saving what one operation makes of something loaded. *)
Lemma wp_load L Q :
  (forall L' snapshot, grows L L' -> L' snapshot -> normal (ha_State snapshot) -> Q L' (Ok snapshot)) ->
  (forall e, Q L (Err e)) -> wp L (call CallLoadSnapshot) Q.
Proof. intros Ho He [snapshot|e] Hr; cbn; [|done]. apply Ho; auto. Qed.

Lemma cloneHASnapshot_id s : normal (ha_State s) -> cloneHASnapshot s = s.
Proof. intros Hn. unfold cloneHASnapshot. rw !cloneState_id //. by destruct s. Qed.

Lemma wp_read L Q :
  (forall L' snapshot, grows L L' -> L' snapshot -> normal (ha_State snapshot) -> Q L' (Ok snapshot)) ->
  (forall e, Q L (Err e)) -> wp L readHASnapshot Q.
Proof.
  intros Ho He. apply wp_then, wp_load; [|by intros e _]. intros L' snapshot Hg Hl Hn _. cbn.
  rw cloneHASnapshot_id //. by apply Ho.
Qed.

Lemma wp_save L expected next Q :
  good_save L expected next -> (forall r, Q L r) -> wp L (saveHASnapshot expected next) Q.
Proof.
  intros Hs HQ [lease isLeader] now. split; [done|]. intros [version|e]; cbn; [|done]. intros _. apply HQ.
Qed.

(** ** The operations of the handlers *)
Lemma evaluate_normal st cmd ev : normal st -> EvaluateCommand st cmd = Ok ev -> normal (ev_NextState ev).
Proof.
  intros Hn. unfold EvaluateCommand. rw cloneState_id //. intros (ex & Hex & Hev)%bind_Ok.
  destruct ex as [ap|cluster plan]; injection Hev as <-; cbn [ev_NextState]; [|by apply nextState_normal].
  constructor; cbn [snapshotForApplied rt_Cluster rt_AppliedCommands]; [apply cloneClusterState_ready|].
  intros k ap' Hk. rw lookup_fmap in Hk. destruct (filter _ _ !! k) as [ap0|] eqn:Hf; [|done]. injection Hk as <-.
  apply map_lookup_filter_Some in Hf as [Hf _]. pose proof (norm_applied _ Hn _ _ Hf) as Ha.
  unfold normal_applied in *. by rw !Ha.
Qed.

Lemma heartbeat_normal opts st status at_ : normal st -> normal (heartbeat_state opts st status at_).
Proof.
  intros [Hr Ha]. constructor; cbn; [|done]. unfold ready_true. cbn. by apply map_Forall_insert_2.
Qed.

Lemma rebuild_complete next epoch e : e ∈ rt_Outbox (ha_State next) ->
  exists h, h ∈ rebuildHAOutbox next epoch /\ ho_ID h = ob_ID e /\ ho_NodeID h = ob_NodeID e /\ ho_Slot h = ob_Slot e /\
    ho_Kind h = haOutboxKindFromRuntime (ob_Kind e) /\ ho_Assignment h = Some (ob_Assignment e).
Proof.
  intros He. eexists. split.
  - unfold rebuildHAOutbox, sortHAOutbox. apply elem_of_isort, elem_of_app. right. apply elem_of_app. left.
    unfold runtimeHAOutboxEntries. apply list_elem_of_fmap_2, He.
  - done.
Qed.

Lemma with_outbox_move s next snapshot epoch :
  state_move (ha_State s) (ha_State next) -> ha_move s (with_outbox snapshot next epoch).
Proof.
  intros Hm. constructor; [done|]. intros _ e He. unfold with_outbox in *. cbn in He |- *. by apply rebuild_complete.
Qed.

Lemma rewrite_move s epoch : normal (ha_State s) -> ha_move s (rewriteSnapshotEpoch s epoch).1.
Proof.
  intros Hn. unfold rewriteSnapshotEpoch. rw cloneHASnapshot_id //. constructor; cbn [fst ha_State set_field]; [constructor|].
  intros Hc e He. destruct (Hc e He) as (h & Hh & H1 & H2 & H3 & H4 & H5). exists (h <| ho_Epoch := epoch |>).
  split; [|done]. cbn. by apply list_elem_of_fmap_2.
Qed.

(** Saving what an operation makes of a loaded snapshot. *)
Lemma wp_save_move {A} L s next (k : unit -> ha A) Q :
  L s -> normal (ha_State next) -> ha_move s next ->
  (forall u, wp L (k u) Q) -> (forall e, Q L (Err e)) ->
  wp L (and_then (saveHASnapshot (ha_SnapshotVersion s) next) k) Q.
Proof.
  intros Hs Hn Hm Hk He. apply wp_then, wp_save; [by exists s|]. intros [u|e] _; auto.
Qed.

Lemma safe_load_sync : safe loadCurrentHASnapshot.
Proof.
  intros L Q HQ. apply wp_then, wp_read; [|by intros e _; apply HQ]. intros L' snapshot Hg _ _ _. apply wp_bind.
  intros u _. cbn. by apply HQ.
Qed.

(** Acknowledging an entry is one operation on the snapshot. *)
Lemma safe_lift {A} (r : res server_error A) : safe (lift r).
Proof. apply safe_done. Qed.

Lemma wp_lift {A} L (r : res server_error A) Q : Q L r -> wp L (lift r) Q.
Proof. done. Qed.

Lemma wp_lease {A} L (k : LeaderLease * bool -> prog A) Q :
  (forall x, wp L (k x) Q) -> wp L (call CallCurrentLease ≫= k) Q.
Proof. done. Qed.

Lemma clearUnavailable_state s nodeID slot : ha_State (clearUnavailableInHASnapshot s nodeID slot) = ha_State s.
Proof. unfold clearUnavailableInHASnapshot. by repeat case_match. Qed.

Lemma ack_wp L s entry Q :
  L s -> normal (ha_State s) ->
  (forall next, normal (ha_State next) -> ha_move s next -> Q L (Ok next)) -> (forall e, Q L (Err e)) ->
  wp L (ackHAOutboxEntry s entry) Q.
Proof.
  intros Hs Hn Ho He. unfold ackHAOutboxEntry. rw !cloneHASnapshot_id //.
  assert (forall next, normal (ha_State next) -> state_move (ha_State s) (ha_State next) ->
            wp L ('(lease, _) ← call CallCurrentLease; succeed (with_outbox s next (lease_Epoch lease))) Q) as Hw.
  { intros next Hnn Hm [lease isLeader]. apply Ho; [done|by apply with_outbox_move]. }
  destruct (isRecoveryOutboxKind _).
  - intros [lease isLeader]. apply Ho; cbn; rw ?clearUnavailable_state; [done|].
    constructor; cbn; rw ?clearUnavailable_state; [constructor|]. intros _ e Hin. by apply rebuild_complete.
  - apply wp_then. destruct (runtimeOutboxHasEntryID _ _).
    + apply wp_then. destruct (EvaluateCommand _ _) as [ev|e] eqn:Hev; cbn; [|done]. intros _ _.
      apply Hw; [by apply (evaluate_normal _ _ _ Hn Hev)|by apply (move_command _ _ _ Hev)].
    + destruct (ho_Kind entry); try (intros _; apply Hw; [done|constructor]).
      destruct (_ !! _) as [refresh|]; intros _; [|apply Ho; [done|by constructor; [constructor|]]].
      assert (ha_State (ack_refresh s entry refresh) = ha_State s) as Ha.
      { unfold ack_refresh. destruct (refreshStateWithDefaultRemainingNodes _ _ _); [|done]. by destruct (0 <? _)%nat. }
      apply Hw; rw Ha; [done|constructor].
Qed.

Create HintDb ha discriminated.
#[local] Hint Resolve safe_load_sync safe_lift safe_done : ha.
#[local] Hint Extern 1 (safe (call _)) => apply safe_call; reflexivity : ha.

(** Steps through a handler whose remaining parts are [safe]. *)
Ltac safely :=
  repeat first
    [ progress intros
    | solve [eauto with ha]
    | apply safe_then
    | apply safe_bind
    | apply safe_done
    | apply safe_call; reflexivity
    | case_match ].

Lemma dispatch_entries_safe allow entries processedAny : safe (dispatch_entries allow entries processedAny).
Proof.
  revert processedAny. induction entries as [|entry entries IH]; intros processedAny; cbn [dispatch_entries]; [safely|].
  destruct (match allow with Some _ => _ | None => _ end); [done|]. apply safe_then; [safely|]. intros _ L Q HQ.
  apply wp_then, wp_read; [|by intros e _; apply HQ]. intros L' s Hg Hs Hn _. apply wp_then, ack_wp; [done..| |by intros e _; apply HQ].
  intros next Hnn Hm _. apply (wp_save_move _ s); [done..| |by intros e; apply HQ]. intros _. apply IH. intros M a HM. apply HQ. auto.
Qed.
#[local] Hint Resolve dispatch_entries_safe : ha.

Lemma dispatch_passes_safe passes allow : safe (dispatch_passes passes allow).
Proof.
  induction passes as [|passes IH]; cbn [dispatch_passes]; [safely|]. apply safe_then.
  - intros L Q HQ. apply wp_read; [|by intros e; apply HQ]. intros L' s Hg _ _. by apply HQ.
  - intros snapshot. destruct (ha_Outbox snapshot); [safely|]. apply safe_then; [safely|]. intros p. by destruct (_ || _); [safely|].
Qed.

Lemma dispatchOutbox_safe : safe dispatchOutbox.
Proof. apply safe_bind; [safely|]. intros [lease isLeader]. destruct isLeader; [apply dispatch_passes_safe|safely]. Qed.
#[local] Hint Resolve dispatch_passes_safe dispatchOutbox_safe : ha.

(** A part that needs a loaded snapshot, followed by [safe] ones. *)
Lemma wp_then_safe {A B} L (m : ha A) (k : A -> ha B) Q :
  wp L m (fun _ _ => True) -> (forall a, safe (k a)) -> (forall L' r, grows L L' -> Q L' r) -> wp L (and_then m k) Q.
Proof.
  intros Hm Hk HQ. apply wp_then. apply (wp_conseq L m _ _ Hm). intros M [a|e] HM _ _; [|by apply HQ].
  apply Hk. intros M' b HM'. apply HQ. auto.
Qed.

Lemma adopt_epoch_wp L s epoch : L s -> normal (ha_State s) -> wp L (adopt_epoch s epoch) (fun _ _ => True).
Proof.
  intros Hs Hn. pose proof (rewrite_move s epoch Hn) as Hm.
  assert (normal (ha_State (rewriteSnapshotEpoch s epoch).1)) as Hn'
    by by unfold rewriteSnapshotEpoch; rw cloneHASnapshot_id.
  unfold adopt_epoch. destruct (rewriteSnapshotEpoch s epoch) as [updated []]; [|done].
  apply wp_bind, wp_save; [by exists s|]. intros [version|e] _; cbn; [done|]. by destruct (_ || _).
Qed.

Lemma StepHA_safe : safe StepHA.
Proof.
  unfold StepHA. apply safe_bind; [safely|]. intros now. apply safe_then; [safely|]. intros [lease isLeader].
  apply safe_bind; [safely|]. intros _ L Q HQ. apply wp_then, wp_load; [|by intros e _; apply HQ].
  intros L' s Hg Hs Hn _. apply wp_then_safe.
  - destruct (isLeader && _); [by apply adopt_epoch_wp|done].
  - safely.
  - intros M r HM. apply HQ. auto.
Qed.
#[local] Hint Resolve StepHA_safe : ha.

Lemma ensureLeader_safe : safe ensureLeader.
Proof. unfold ensureLeader. safely. Qed.
#[local] Hint Resolve ensureLeader_safe : ha.

Lemma safe_read {A} (k : HASnapshot -> ha A) : (forall s, safe (k s)) -> safe (and_then readHASnapshot k).
Proof.
  intros Hk. apply safe_then; [|done]. intros L Q HQ. apply wp_read; [|by intros e; apply HQ]. intros L' s Hg _ _. by apply HQ.
Qed.

(** Reading a snapshot and saving what an operation makes of it. *)
Lemma safe_read_with {A} (k : HASnapshot -> ha A) :
  (forall s L Q, L s -> normal (ha_State s) -> (forall L' a, grows L L' -> Q L' a) -> wp L (k s) Q) ->
  safe (and_then readHASnapshot k).
Proof.
  intros Hk L Q HQ. apply wp_then, wp_read; [|by intros e _; apply HQ]. intros L' s Hg Hs Hn _. apply Hk; [done..|].
  intros M a HM. apply HQ. auto.
Qed.

(** The mutations of the handlers leave the state that was evaluated. *)
Definition keeps_state (mutate : HASnapshot -> LeaderLease -> EvaluatedCommand -> HASnapshot) : Prop :=
  forall s lease ev, ha_State (mutate s lease ev) = ev_NextState ev.

Lemma mutated_keeps opts cmd refresh : keeps_state (mutated opts cmd refresh).
Proof. done. Qed.

Lemma bootstrap_keeps opts : keeps_state (bootstrap_mutation opts).
Proof. done. Qed.
#[local] Hint Resolve mutated_keeps bootstrap_keeps : ha.

Lemma applyHARuntimeCommand_safe opts cmd mutate : keeps_state mutate -> safe (applyHARuntimeCommand opts cmd mutate).
Proof.
  intros Hmut. unfold applyHARuntimeCommand. apply safe_then; [safely|]. intros _. apply safe_read_with.
  intros s L Q Hs Hn HQ. apply wp_then. destruct (EvaluateCommand (ha_State s) cmd) as [ev|e] eqn:Hev; cbn; [|by intros; apply HQ].
  intros _. apply wp_lease. intros [lease isLeader]. apply (wp_save_move _ s); [done| | |by intros; apply HQ..].
  - cbn. rw Hmut. by apply (evaluate_normal _ _ _ Hn Hev).
  - apply with_outbox_move. rw Hmut. by apply (move_command _ _ _ Hev).
Qed.
#[local] Hint Resolve applyHARuntimeCommand_safe : ha.

Section handlers.
Context (opts : HAServerOptions).

Lemma applyHABootstrap_safe cmd : safe (applyHABootstrap opts cmd).
Proof. unfold applyHABootstrap. safely. Qed.

Lemma applyHAMembershipMutation_safe cmd kind : safe (applyHAMembershipMutation opts cmd kind).
Proof. unfold applyHAMembershipMutation. safely. Qed.

Lemma applyHAReconcile_safe : safe (applyHAReconcile opts).
Proof. apply safe_read. safely. Qed.
#[local] Hint Resolve applyHAMembershipMutation_safe applyHAReconcile_safe : ha.

Lemma applyHAReplicaReady_safe nodeID slot commandID : safe (applyHAReplicaReady opts nodeID slot commandID).
Proof.
  unfold applyHAReplicaReady. generalize 8%nat, 0%Z. intros left_. induction left_ as [|left_ IH]; intros attempt; cbn [ready_attempts]; [safely|].
  apply safe_then; [safely|]. intros _. apply safe_read. safely.
Qed.

Lemma applyHAReplicaRemoved_safe nodeID slot commandID : safe (applyHAReplicaRemoved opts nodeID slot commandID).
Proof.
  unfold applyHAReplicaRemoved. generalize 8%nat, 0%Z. intros left_. induction left_ as [|left_ IH]; intros attempt; cbn [removed_attempts]; [safely|].
  apply safe_then; [safely|]. intros _. apply safe_read. safely.
Qed.

Lemma applyHAHeartbeat_safe status : safe (applyHAHeartbeat opts status).
Proof.
  unfold applyHAHeartbeat. apply safe_then; [safely|]. intros _. apply safe_read_with. intros s L Q Hs Hn HQ.
  apply wp_then, wp_lift. destruct (reject _ _) as [u|] eqn:Hk; [|by intros; apply HQ]. intros _.
  apply wp_then, wp_lift. destruct (reject (nodeMarkedDead _ _) _) as [u'|] eqn:Hd; [|by intros; apply HQ]. intros _.
  apply reject_Ok in Hk as [Hk _], Hd as [Hd _]. intros now. apply wp_lease. intros [lease isLeader].
  rw cloneHASnapshot_id //. apply (wp_save_move _ s); [done|by apply heartbeat_normal| | |by intros; apply HQ].
  - apply with_outbox_move, move_heartbeat; [|done]. by destruct (cs_NodesByID _ !! _).
  - intros _. eapply wp_safe; [safely|auto].
Qed.

Lemma applyHALivenessTransition_safe nodeID state at_ fired : safe (applyHALivenessTransition opts nodeID state at_ fired).
Proof. apply safe_read. safely. Qed.

Lemma applyHARecoveryReport_safe report : safe (applyHARecoveryReport report).
Proof.
  unfold applyHARecoveryReport. apply safe_then; [safely|]. intros _. apply safe_read_with. intros s L Q Hs Hn HQ.
  apply wp_bind. eapply wp_conseq with (Q := fun L' _ => grows L L').
  { eapply wp_safe; [safely|auto]. }
  intros M known HM _ _. destruct (negb known); [by apply HQ|]. destruct (_ && _); [by apply HQ|].
  apply wp_lease. intros [lease isLeader]. apply wp_then, wp_lift.
  destruct (recoveryOutboxEntriesForReport _ _ _) as [entries|e]; [|by intros; apply HQ]. intros _. rw cloneHASnapshot_id //.
  apply wp_save; [|auto]. exists s. split_and!; [auto|done..|]. apply with_outbox_move. constructor.
Qed.

Lemma applyHARegisterNode_safe reg : safe (applyHARegisterNode opts reg).
Proof.
  unfold applyHARegisterNode. apply safe_then; [safely|]. intros _. generalize runtimeVersionRetryLimit, 0%Z. intros left_.
  induction left_ as [|left_ IH]; intros attempt; cbn [register_attempts]; [safely|]. apply safe_read. safely.
Qed.
End handlers.

Lemma forget_safe {A} (p : prog A) : safe p -> safe (forget p).
Proof. intros Hp. apply safe_bind; [done|]. intros a. apply safe_done. Qed.

Lemma handle_safe opts r : safe (handle opts r).
Proof.
  destruct r; apply forget_safe.
  - apply StepHA_safe.
  - apply dispatchOutbox_safe.
  - apply applyHABootstrap_safe.
  - apply applyHAMembershipMutation_safe.
  - apply applyHAReconcile_safe.
  - apply applyHAReplicaReady_safe.
  - apply applyHAReplicaRemoved_safe.
  - apply applyHAHeartbeat_safe.
  - apply applyHALivenessTransition_safe.
  - apply applyHARecoveryReport_safe.
  - apply applyHARegisterNode_safe.
Qed.

(** ** The abstract coordinator

    One snapshot, changed by one operation at a time. *)
Definition spec_step (s s' : HASnapshot) : Prop :=
  exists next, normal (ha_State next) /\ ha_move s next /\
    s' = next <| ha_SnapshotVersion := ha_SnapshotVersion s + 1 |>.

Section world.
Context {S : Type} `{HAStoreLaws S}.

(** The 64-bit counters of the store have not run out. *)
Definition has_room (w : world S) : Prop :=
  ha_SnapshotVersion (stored (w_store w)) < u64_mod - 1 /\
  forall lease, holder (w_store w) = Some lease -> 0 <= lease_Epoch lease < u64_mod - 1.

Definition room_step (w w' : world S) : Prop := has_room w /\ world_step w w'.

(** A world before any handler ran. *)
Definition ha_start (w : world S) : Prop := stored (w_store w) = zeroHASnapshot /\ w_running w = [].

Definition ha_reachable (w : world S) : Prop := exists w0, ha_start w0 /\ rtc room_step w0 w.

(** Handlers hold snapshots that were stored once; a version names one. *)
Record world_inv (past : HASnapshot -> Prop) (w : world S) : Prop := {
  wi_stored : past (stored (w_store w));
  wi_normal : normal (ha_State (stored (w_store w)));
  wi_past s : past s -> ha_SnapshotVersion s < ha_SnapshotVersion (stored (w_store w)) \/ s = stored (w_store w);
  wi_version : 0 <= ha_SnapshotVersion (stored (w_store w));
  wi_running p : p ∈ w_running w -> disciplined past p.2;
}.

Lemma answer_disciplined past store server X (c : ha_call X) x store' server' (k : X -> prog unit) :
  normal (ha_State (stored store)) -> past (stored store) -> disciplined past (Call c k) ->
  answer store server X c x store' server' ->
  disciplined past (k x) /\
  (stored store' = stored store \/
   exists next, good_save past (ha_SnapshotVersion (stored store)) next /\
     stored store' = next <| ha_SnapshotVersion := u64_add (ha_SnapshotVersion (stored store)) 1 |>).
Proof.
  intros Hn Hs Hd Ha. destruct Ha as [ |? ? ? ? Hq|? ? ? ? ? Hq| |snapshot Hl| |? ? ? ? ? ? Hq|? ? ? ? ? ? ? Hq| | | | | | | | | ];
    unfold disciplined in *; cbn in Hd |- *; try (split; [first [by apply Hd|apply (Hd (Err _)); done|by apply (proj2 Hd)]|by left]).
  - split; [apply Hd|left]. by destruct (acquire_law _ _ _ _ _ _ _ _ Hq).
  - split; [apply Hd|left]. by destruct (acquire_law _ _ _ _ _ _ _ _ Hq).
  - apply load_law in Hl as ->. rw cloneHASnapshot_id //. split; [|by left].
    apply (disciplined_mono (with_loaded past (Ok (stored store)))); [cbn; intros s [?| ->]; done|].
    apply (Hd (Ok (stored store))). by intros s [= <-].
  - destruct Hd as [Hg Hd]. split; [by apply Hd|right]. destruct (save_law _ _ _ _ _ _ _ Hq) as (_ & <- & -> & -> & _).
    eexists. split; [exact Hg|]. rw cloneHASnapshot_id //. by destruct Hg as (? & _ & _ & ? & _).
  - destruct Hd as [Hg Hd]. split; [by apply Hd|right]. destruct (save_law _ _ _ _ _ _ _ Hq) as (_ & <- & -> & -> & _).
    eexists. split; [exact Hg|]. rw cloneHASnapshot_id //. by destruct Hg as (? & _ & _ & ? & _).
Qed.

Lemma world_inv_step past w w' : world_inv past w -> room_step w w' ->
  exists past', world_inv past' w' /\
    (stored (w_store w') = stored (w_store w) \/ spec_step (stored (w_store w)) (stored (w_store w'))).
Proof.
  intros [Hs Hn Hp Hv Hr] [[Hroom _] Hstep]. destruct Hstep as [w id opts r|w before after id server server' X c k x store' Hw Hid Ha|w id server]; cbn.
  - exists past. split; [|by left]. constructor; cbn; try done. intros p [->|Hin]%elem_of_cons; [|by apply Hr].
    apply safe_disciplined, handle_safe.
  - assert (disciplined past (Call c k)) as Hd.
    { apply (Hr (id, Call c k)). rw Hw. apply elem_of_app. right. left. }
    destruct (answer_disciplined _ _ _ _ _ _ _ _ _ Hn Hs Hd Ha) as [Hk Hst].
    assert (forall p, p ∈ before ++ (id, k x) :: after -> disciplined past p.2) as Hrun.
    { intros p. rw elem_of_app elem_of_cons. intros [Hin|[->|Hin]]; [|done|]; apply Hr; rw Hw elem_of_app elem_of_cons; auto. }
    destruct Hst as [Hst|(next & (s & Hs0 & Hsv & Hnn & Hm) & Hst)].
    + exists past. split; [|by left]. constructor; cbn; rw ?Hst; done.
    + rw u64_add_small in Hst; [lia|]. destruct (Hp s Hs0) as [?| ->]; [lia|].
      exists (fun s => past s \/ s = stored store'). split; [|right; by exists next].
      constructor; cbn; [by right|by rw Hst| |rw Hst; cbn; lia|].
      * intros s [Hin| ->]; [left|by right]. rw Hst. cbn. destruct (Hp s Hin) as [?| ->]; lia.
      * intros p Hin. apply (disciplined_mono past); [by left|by apply Hrun].
  - exists past. split; [|by left]. constructor; cbn; try done. intros p [Hin _]%list_elem_of_In%List.filter_In.
    by apply Hr, list_elem_of_In.
Qed.
End world.

(** ** The state of the cluster *)
Definition good_state (st : State) : Prop := runtime_cluster (rt_Cluster st) /\ slots_ok st.

(** The states the applied commands recorded are good too: a duplicate command
    brings one of them back. *)
Definition ha_good (st : State) : Prop :=
  good_state st /\ forall id ap st', rt_AppliedCommands st !! id = Some ap -> good_state (snapshotForApplied st' ap).

Lemma good_clear a b : clear_applied a = clear_applied b -> good_state a -> good_state b.
Proof.
  unfold clear_applied. intros [= _ _ Hc Hs Hh _ Hp Ho _] [Hgc [Hsp Hso Hsh]]. split; [by rw -Hc|].
  constructor; rw -?Hs -?Hh -?Hp -?Ho; done.
Qed.

Lemma execute_duplicate st cmd ap :
  normal st -> executeCommand st cmd = Ok (Duplicate ap) -> rt_AppliedCommands st !! cmd_ID cmd = Some ap.
Proof.
  intros Hn. unfold executeCommand, validateCommand. intros (d & Hd & He)%bind_Ok.
  apply bind_Ok in Hd as (? & _ & Hd). apply bind_Ok in Hd as (? & _ & Hd). destruct d as [ap'|].
  - injection He as ->. destruct (rt_AppliedCommands st !! cmd_ID cmd) as [ap'|] eqn:Hap; [|by apply bind_Ok in Hd as (? & _ & Hd)].
    apply bind_Ok in Hd as (? & _ & Hd). injection Hd as <-. by rw (norm_applied _ Hn _ _ Hap).
  - destruct (cmd_Kind cmd); try done;
      repeat match goal with
      | He : (mbind _ _) = Ok _ |- _ => apply bind_Ok in He as (? & _ & He)
      end; repeat case_match; discriminate.
Qed.

Lemma ha_good_evaluate st cmd ev : normal st -> ha_good st -> EvaluateCommand st cmd = Ok ev -> ha_good (ev_NextState ev).
Proof.
  intros Hn [[Hc Hs] Ha]. unfold EvaluateCommand. rw cloneState_id //. intros (ex & Hex & Hev)%bind_Ok.
  destruct ex as [ap|cluster plan]; injection Hev as <-; cbn [ev_NextState].
  - assert (rt_AppliedCommands st !! cmd_ID cmd = Some ap) as Hap by by apply execute_duplicate.
    rw (norm_applied _ Hn _ _ Hap). split; [by apply (Ha (cmd_ID cmd))|].
    intros id ap' st' Hid. cbn in Hid. rw lookup_fmap in Hid. destruct (filter _ _ !! id) as [ap0|] eqn:Hf; [|done].
    injection Hid as <-. apply map_lookup_filter_Some in Hf as [Hf _]. rw (norm_applied _ Hn _ _ Hf). by apply (Ha id).
  - assert (good_state (nextStateForApplied st (u64_add (rt_LastLogIndex st) 1) cmd cluster plan)) as Hgood.
    { split.
      - apply next_runtime_cluster, clone_runtime_cluster. exact (res_sat_Ok _ _ _ _ (execute_ok st cmd Hc) Hex).
      - apply next_slots_ok; [|done]. intros Hk. by apply (execute_plan st cmd cluster). }
    split; [done|]. destruct (next_applied st (u64_add (rt_LastLogIndex st) 1) cmd cluster plan) as (ap & -> & _ & _ & _ & Hap).
    intros id ap' st' [[_ <-]|[_ Hid]]%lookup_insert_Some; [by apply (good_clear _ _ (eq_sym (Hap st')))|by apply (Ha id)].
Qed.

Lemma ha_good_move st st' : normal st -> ha_good st -> state_move st st' -> ha_good st'.
Proof.
  intros Hn Hg Hm. destruct Hm as [st|st cmd ev Hev|opts st status at_ _ _]; [done|by apply (ha_good_evaluate _ _ _ Hn Hg Hev)|].
  destruct Hg as [[Hc [Hp Ho Hh]] Ha]. split; [split; [|by constructor]|done]. cbn.
  destruct Hc as [Hc|Hc]; [by left|right]. by apply ready_wf.
Qed.

Section claims.
Context {S : Type} `{HAStoreLaws S}.

Lemma zero_normal : normal (ha_State zeroHASnapshot).
Proof. by constructor. Qed.

(** One step is one operation of the abstract coordinator, or none. *)
Lemma ha_reachable_inv w : ha_reachable w ->
  exists past, world_inv past w /\
    nsteps spec_step (Z.to_nat (ha_SnapshotVersion (stored (w_store w)))) zeroHASnapshot (stored (w_store w)).
Proof.
  intros (w0 & [Hz Hrun] & Hsteps). revert w Hsteps. apply rtc_ind_r.
  - exists (fun s => s = zeroHASnapshot). rw Hz. split; [|constructor].
    constructor; rw ?Hz ?Hrun; [done|apply zero_normal|by right|done|by intros p ?%not_elem_of_nil].
  - intros w w' _ Hstep (past & Hinv & Hn). destruct (world_inv_step _ _ _ Hinv Hstep) as (past' & Hinv' & [Heq|Hs]);
      exists past'; (split; [done|]); [by rw Heq|].
    destruct Hs as (next & Hnn & Hm & Hst). rw Hst. cbn [ha_SnapshotVersion set_field].
    pose proof (wi_version _ _ Hinv).
    replace (Z.to_nat (_ + 1)) with (Datatypes.S (Z.to_nat (ha_SnapshotVersion (stored (w_store w))))) by (cbn; lia).
    eapply nsteps_r; [exact Hn|]. by exists next.
Qed.

Lemma spec_steps_ind (P : HASnapshot -> Prop) n s :
  P zeroHASnapshot -> (forall a b, normal (ha_State a) -> P a -> spec_step a b -> P b) ->
  nsteps spec_step n zeroHASnapshot s -> P s.
Proof.
  intros Hzero Hstep Hn. enough (normal (ha_State s) /\ P s) as [_ ?] by done.
  remember zeroHASnapshot as z eqn:Hz. assert (normal (ha_State z)) as Hnz by by rw Hz; apply zero_normal. clear Hz.
  induction Hn as [a|n a b c Hab Hbc IH]; [done|]. apply IH; [by apply (Hstep a)|].
  destruct Hab as (next & ? & _ & ->). done.
Qed.
(** C5. Any number of coordinators over one store, with any handlers in flight,
    any clocks, lost answers and restarts, are a refinement of one coordinator
    that applies one operation at a time to one snapshot: the snapshot stored
    under version n is what n operations make of the empty one, each of them one
    command, one heartbeat or a change of the outbox alone, as far as the
    coordinator's state is concerned. *)
Theorem ha_serializable (w : world S) : ha_reachable w ->
  nsteps spec_step (Z.to_nat (ha_SnapshotVersion (stored (w_store w)))) zeroHASnapshot (stored (w_store w)).
Proof. intros (past & _ & Hn)%ha_reachable_inv. exact Hn. Qed.

(** C20. Whatever the coordinators do, the stored cluster is the empty one or
    satisfies the planner's invariant, its pending work and outbox carry the
    versions of their slots, and every command the runtime wants sent is in the
    outbox the leader dispatches from. *)
Theorem ha_cluster_invariant (w : world S) : ha_reachable w ->
  runtime_cluster (rt_Cluster (ha_State (stored (w_store w)))) /\ slots_ok (ha_State (stored (w_store w))) /\
  outbox_complete (stored (w_store w)).
Proof.
  intros (past & _ & Hn)%ha_reachable_inv.
  assert (ha_good (ha_State (stored (w_store w))) /\ outbox_complete (stored (w_store w))) as [[[? ?] _] ?]; [|done].
  revert Hn. apply (spec_steps_ind (fun s => ha_good (ha_State s) /\ outbox_complete s)).
  - split; [|by intros e ?%not_elem_of_nil]. split; [|done]. split; [by left|].
    constructor; [done|by intros e ?%not_elem_of_nil|done].
  - intros a b Hna [Hg Ho] (next & Hnn & [Hm Hmo] & ->). split; [by apply (ha_good_move _ _ Hna Hg)|by apply Hmo].
Qed.

(** *** Leadership *)
(** The lease of a later store: a later epoch, or the same one and holder. *)
Definition later_lease (a b : S) : Prop := forall l, holder a = Some l ->
  exists l', holder b = Some l' /\
    (lease_Epoch l < lease_Epoch l' \/ lease_Epoch l = lease_Epoch l' /\ lease_HolderID l = lease_HolderID l').

Lemma later_refl a : later_lease a a.
Proof. intros l Hl. exists l. auto. Qed.

Lemma answer_later w server X (c : ha_call X) x store' server' :
  has_room w -> answer (w_store w) server X c x store' server' -> later_lease (w_store w) store'.
Proof.
  intros [_ Hroom] Ha. assert (forall id endpoint now ttl lease won,
    AcquireOrRenew (w_store w) id endpoint now ttl = Ok (store', lease, won) -> later_lease (w_store w) store') as Hacq.
  { intros id endpoint now ttl lease won (_ & Hh & Hl & Hw)%acquire_law. intros l Hsome. rw Hsome in Hl. exists lease.
    split; [done|]. specialize (Hroom _ Hsome). destruct won; [|right; by rw Hl]. specialize (Hw eq_refl).
    destruct Hl as [[-> ->]|[-> _]]; [by right|left]. rw u64_add_small; lia. }
  assert (forall lease now expected snapshot version,
    SaveSnapshot (w_store w) lease now expected snapshot = Ok (store', version) -> later_lease (w_store w) store') as Hsave.
  { intros lease now expected snapshot version (_ & _ & _ & _ & Hh)%save_law. intros l Hl. exists l. rw Hh. auto. }
  destruct Ha; eauto using later_refl.
Qed.

Lemma steps_later (w w' : world S) : rtc room_step w w' -> later_lease (w_store w) (w_store w').
Proof.
  induction 1 as [w|w w1 w' [Hroom Hstep] _ IH]; [apply later_refl|].
  assert (later_lease (w_store w) (w_store w1)) as H1 by (destruct Hstep; eauto using later_refl, answer_later).
  intros l Hl. destruct (H1 l Hl) as (l1 & Hl1 & Ho1), (IH l1 Hl1) as (l2 & Hl2 & Ho2). exists l2. split; [done|].
  destruct Ho1 as [?|[? ?]], Ho2 as [?|[? ?]]; [left; lia..|right; split; congruence].
Qed.

(** Leases fence: of two saves that succeed, the later one was made under
    the same epoch by the same holder or under a larger epoch; so once another
    coordinator has taken the lease, no save of the previous one succeeds. *)
Theorem leases_fence (w w' : world S) lease now expected snapshot st version lease' now' expected' snapshot' st' version' :
  rtc room_step w w' ->
  SaveSnapshot (w_store w) lease now expected snapshot = Ok (st, version) ->
  SaveSnapshot (w_store w') lease' now' expected' snapshot' = Ok (st', version') ->
  lease_Epoch lease < lease_Epoch lease' \/
  lease_Epoch lease = lease_Epoch lease' /\ lease_HolderID lease = lease_HolderID lease'.
Proof.
  intros Hsteps%steps_later (( c & Hc & Hi & He & _) & _)%save_law ((c' & Hc' & Hi' & He' & _) & _)%save_law.
  destruct (Hsteps c Hc) as (l & Hl & Ho). rw Hc' in Hl. injection Hl as <-. rw -Hi -Hi' -He -He'. done.
Qed.
End claims.

(** ** A run of one coordinator

    [reply] is one way the calls of a server are answered: nothing fails, the
    nodes carry out what they are sent, and the clock stands at [now]. *)
Section run.
Context (now : Z).

Definition reply (store : InMemoryHAStore) (server : haServer) {X} (c : ha_call X) : X * InMemoryHAStore * haServer :=
  match c with
  | CallNow => (now, store, server)
  | CallAcquireOrRenew t =>
      let '(store', lease, won) := mem_AcquireOrRenew store (hs_CoordinatorID server) (hs_AdvertiseAddress server) t
                                     (hs_LeaseTTL server) in
      (Ok (lease, won), store', server)
  | CallLoadSnapshot => (Ok (mem_LoadSnapshot store), store, server)
  | CallSaveSnapshot lease t expected snapshot =>
      match mem_SaveSnapshot store lease t expected snapshot with
      | Ok (store', version) => (Ok version, store', server)
      | Err e => (Err e, store, server)
      end
  | CallSend _ => (Ok (), store, server)
  | CallCurrentLease => ((hs_lease server, hs_isLeader server), store, server)
  | CallSetLease lease isLeader => ((), store, server <| hs_lease := lease |> <| hs_isLeader := isLeader |>)
  | CallSetIsLeader isLeader => ((), store, server <| hs_isLeader := isLeader |>)
  | CallSync snapshot => ((), store, syncFromHASnapshot server snapshot)
  | CallPolicy => ((reconfigurationPolicy server).2, store, (reconfigurationPolicy server).1)
  | CallState => (cloneState (hs_state server), store, server)
  | CallKnowsNode nodeID => (bool_decide (nodeID ∈ hs_nodes server), store, server)
  end.

Lemma reply_answer store server X (c : ha_call X) :
  let '(x, store', server') := reply store server c in answer store server X c x store' server'.
Proof.
  destruct c; cbn; try by constructor.
  - destruct (mem_AcquireOrRenew _ _ _ _ _) as [[store' lease] won] eqn:Hq. apply answer_acquire. cbn. by rw Hq.
  - destruct (mem_SaveSnapshot _ _ _ _ _) as [[store' version]|e] eqn:Hq; [by apply answer_save|apply answer_save_failed].
Qed.

Definition room_b (store : InMemoryHAStore) : bool :=
  (ha_SnapshotVersion (default zeroHASnapshot (mh_snapshot store)) <? u64_mod - 1) &&
  match mh_lease store with Some lease => (0 <=? lease_Epoch lease) && (lease_Epoch lease <? u64_mod - 1) | None => true end.

(** The run of a handler, and whether the counters kept room. *)
Fixpoint run_prog {A} (store : InMemoryHAStore) (server : haServer) (p : prog A) : InMemoryHAStore * haServer * A * bool :=
  match p with
  | Done a => (store, server, a, true)
  | Call c k =>
      let '(x, store', server') := reply store server c in
      let '(r, ok) := run_prog store' server' (k x) in (r, room_b store && ok)
  end.

(** One server, [rest] of whose handlers are not looked at. *)
Definition alone_world (id : string) (store : InMemoryHAStore) (server : haServer) (rest : list (string * prog unit)) :
    world InMemoryHAStore :=
  {| w_store := store; w_servers := {[id := server]}; w_running := rest |}.

Lemma room_b_room id store server rest : room_b store = true -> has_room (alone_world id store server rest).
Proof.
  intros [Hv He]%andb_true_iff. apply Z.ltb_lt in Hv. split; [exact Hv|]. cbn.
  intros lease Hl. rw Hl in He. apply andb_true_iff in He as [?%Z.leb_le ?%Z.ltb_lt]. lia.
Qed.

Lemma run_prog_steps id rest store server (p : prog unit) store' server' u :
  run_prog store server p = (store', server', u, true) ->
  rtc room_step (alone_world id store server ((id, p) :: rest)) (alone_world id store' server' ((id, Done u) :: rest)).
Proof.
  revert store server. induction p as [a|X c k IH]; intros store server; cbn [run_prog].
  - intros [= <- <- <-]. apply rtc_refl.
  - pose proof (reply_answer store server X c) as Ha. destruct (reply store server c) as [[x store1] server1].
    destruct (run_prog store1 server1 (k x)) as [r ok] eqn:Hr. intros [= -> Hok]. apply andb_true_iff in Hok as [Hroom ->].
    eapply rtc_l; [|apply (IH x), Hr]. split; [by apply room_b_room|].
    pose proof (step_call (alone_world id store server ((id, Call c k) :: rest)) [] rest id server server1 X c k x store1
      eq_refl (lookup_singleton_eq _ _) Ha) as Hs.
    cbn in Hs. rw insert_singleton_eq in Hs. exact Hs.
Qed.

Fixpoint run_requests (opts : HAServerOptions) (store : InMemoryHAStore) (server : haServer) (rs : list request)
    : InMemoryHAStore * haServer * bool :=
  match rs with
  | [] => (store, server, true)
  | r :: rs =>
      let '(store', server', _, ok) := run_prog store server (handle opts r) in
      let '(result, ok') := run_requests opts store' server' rs in (result, room_b store && ok && ok')
  end.

Lemma run_requests_steps opts id rs : forall rest store server store' server',
  run_requests opts store server rs = (store', server', true) ->
  rtc room_step (alone_world id store server rest)
    (alone_world id store' server' (replicate (length rs) (id, Done ()) ++ rest)).
Proof.
  induction rs as [|r rs IH]; intros rest store server store' server'; cbn [run_requests].
  - intros [= <- <-]. apply rtc_refl.
  - destruct (run_prog store server (handle opts r)) as [[[store1 server1] []] ok] eqn:Hp.
    destruct (run_requests opts store1 server1 rs) as [result ok'] eqn:Hr. intros [= -> Hok].
    apply andb_true_iff in Hok as [[Hroom ->]%andb_true_iff ->].
    apply rtc_l with (alone_world id store server ((id, handle opts r) :: rest)).
    + split; [by apply room_b_room|]. apply (step_request (alone_world id store server rest)).
    + etrans; [apply run_prog_steps, Hp|]. cbn [length]. cbn [replicate]. rw replicate_cons_app -app_assoc. apply IH, Hr.
Qed.
End run.

(** A coordinator that bootstraps a cluster and adds the nodes "x" and "y". *)
Definition solo : haServer :=
  {| hs_CoordinatorID := "co"; hs_AdvertiseAddress := "co:1"; hs_LeaseTTL := 10; hs_startupMaxChangedChains := 0;
     hs_nodes := ∅; hs_lease := noLease; hs_isLeader := false; hs_state := zeroRuntimeState;
     hs_lastPolicy := no_budget; hs_startupBudgetActive := false; hs_activePeerRefresh := ∅;
     hs_unavailableReplicas := ∅; hs_routingSnapshot := reduceRoutingSnapshot zeroRuntimeState ∅ ∅ |}.
Definition solo_options : HAServerOptions :=
  {| opt_startupBudget := false; opt_flapWindow := 0; opt_asyncHotPathDispatch := true |}.
Definition joins (id : string) : Event :=
  {| event_Kind := EventKindAddNode;
     event_Node := {| node_ID := id; node_RPCAddress := id +:+ ":1"; node_FailureDomains := ∅ |};
     event_NodeID := ""; event_Slot := 0 |}.
Definition join_request (id : string) (version : Z) : request :=
  RequestMembership (reconfigure_command ("join-" +:+ id) version [joins id]) EventKindAddNode.
Definition solo_requests : list request := [RequestBootstrap bootstrap_command; join_request "x" 1; join_request "y" 2].
Definition solo_run (rs : list request) := run_requests 5 solo_options NewInMemoryHAStore solo rs.
Definition solo_world (rs : list request) : world InMemoryHAStore :=
  alone_world "co" (solo_run rs).1.1 (solo_run rs).1.2 (replicate (length rs) ("co", Done ())).

(** The rival that takes the lease over at time 100. *)
Definition rival : haServer := solo <| hs_CoordinatorID := "rival" |>.
Definition rival_run := run_requests 100 solo_options (solo_run solo_requests).1.1 rival [RequestStep].
Definition rival_world : world InMemoryHAStore :=
  alone_world "co" rival_run.1.1 rival_run.1.2 [("co", Done ())].

Lemma run_requests_ok now opts id rs rest store server :
  let run := run_requests now opts store server rs in
  run.2 = true ->
  rtc room_step (alone_world id store server rest)
    (alone_world id run.1.1 run.1.2 (replicate (length rs) (id, Done ()) ++ rest)).
Proof.
  cbv zeta. intros Hok. destruct (run_requests now opts store server rs) as [[store' server'] ok] eqn:Hr. cbn in *. subst ok.
  by apply (run_requests_steps now opts).
Qed.

Lemma restart_step id n store server server' : room_b store = true ->
  room_step (alone_world id store server (replicate n (id, Done ()))) (alone_world id store server' []).
Proof.
  intros Hroom. split; [by apply room_b_room|].
  pose proof (step_restart (alone_world id store server (replicate n (id, Done ()))) id server') as Hs.
  cbn in Hs. rw insert_singleton_eq in Hs. replace (List.filter _ _) with (@nil (string * prog unit)) in Hs; [exact Hs|].
  clear. induction n as [|n IH]; [done|]. cbn [replicate List.filter fst]. by rw String.eqb_refl.
Qed.

Lemma solo_reachable rs : (solo_run rs).2 = true -> ha_reachable (solo_world rs).
Proof. intros Hok. exists (alone_world "co" NewInMemoryHAStore solo []). split; [done|]. unfold solo_world. rw -(app_nil_r (replicate _ _)) /solo_run. by apply run_requests_ok. Qed.

Lemma ha_serializable_witness :
  ha_SnapshotVersion (stored (w_store (solo_world solo_requests))) = 3 /\
  nsteps spec_step 3 zeroHASnapshot (stored (w_store (solo_world solo_requests))).
Proof.
  assert (ha_SnapshotVersion (stored (w_store (solo_world solo_requests))) = 3) as Hv by (vm_compute; reflexivity).
  split; [exact Hv|]. change 3%nat with (Z.to_nat 3). rewrite <- Hv. apply (ha_serializable (solo_world solo_requests)).
  apply solo_reachable. vm_compute. reflexivity.
Defined.

Lemma ha_cluster_invariant_witness :
  runtime_cluster (rt_Cluster (ha_State (stored (w_store (solo_world solo_requests))))) /\
  slots_ok (ha_State (stored (w_store (solo_world solo_requests)))) /\
  outbox_complete (stored (w_store (solo_world solo_requests))).
Proof. apply (ha_cluster_invariant (solo_world solo_requests)). apply solo_reachable. vm_compute. reflexivity. Defined.

Lemma rival_steps : rtc room_step (solo_world solo_requests) rival_world.
Proof.
  eapply rtc_l; [apply (restart_step "co" 3 _ _ rival); vm_compute; reflexivity|].
  apply (run_requests_ok 100 solo_options "co" [RequestStep] []). vm_compute. reflexivity.
Qed.

Definition lease_of (store : InMemoryHAStore) : LeaderLease := default noLease (mh_lease store).

(** The save the last leader makes at time 5, and the rival's at 100. *)
Lemma leases_fence_witness :
  lease_Epoch (lease_of (solo_run solo_requests).1.1) < lease_Epoch (lease_of rival_run.1.1) \/
  lease_Epoch (lease_of (solo_run solo_requests).1.1) = lease_Epoch (lease_of rival_run.1.1) /\
  lease_HolderID (lease_of (solo_run solo_requests).1.1) = lease_HolderID (lease_of rival_run.1.1).
Proof.
  eapply (leases_fence (solo_world solo_requests) rival_world _ 5 3 zeroHASnapshot _ _ _ 100 3 zeroHASnapshot).
  - exact rival_steps.
  - vm_compute. reflexivity.
  - vm_compute. reflexivity.
Defined.

(** A retried command rolls the cluster back: after three commands, the last
    of them adding node "y", a repeat of the second one stores as the next
    version of the snapshot the state as it was after the second one, in which
    "y" is unknown and the version of the state is lower. *)
Theorem duplicate_rolls_back :
  let before := stored (w_store (solo_world solo_requests)) in
  let after_ := stored (w_store (solo_world (solo_requests ++ [join_request "x" 1]))) in
  ha_reachable (solo_world (solo_requests ++ [join_request "x" 1])) /\
  (ha_SnapshotVersion before, rt_Version (ha_State before), cs_NodeOrder (rt_Cluster (ha_State before))) =
    (3, 3, ["a"; "b"; "c"; "x"; "y"]) /\
  (ha_SnapshotVersion after_, rt_Version (ha_State after_), cs_NodeOrder (rt_Cluster (ha_State after_))) =
    (4, 2, ["a"; "b"; "c"; "x"]).
Proof.
  cbv zeta. split; [apply solo_reachable; vm_compute; reflexivity|]. split; vm_compute; reflexivity.
Qed.
