(* ===== verification/Router.v ===== *)
(** * The client's router (src/client/router.go)

    A request is a program: it asks for the routing snapshot, sends to storage
    nodes, and reads and writes the router's fields, which other requests of the
    same router share.  Requests interleave call by call. *)

From S2P Require Import Prelude.
From S2P Require Import CoordTypes.
From S2P Require Import StorageTypes.
From S2P Require Import RuntimeTypes.
From S2P Require Import SlotReducer.
From S2P Require Import SlotOwner.
From S2P Require Import CoordServer.

Open Scope Z_scope.
Open Scope record_scope.

(** ** [hash/crc32] *)
Fixpoint crc_bits (n : nat) (crc : Z) : Z :=
  match n with
  | O => crc
  | S n => crc_bits n (if Z.odd crc then Z.lxor (Z.shiftr crc 1) 0xEDB88320 else Z.shiftr crc 1)
  end.

Fixpoint crc_update (crc : Z) (data : string) : Z :=
  match data with
  | EmptyString => crc
  | String c data => crc_update (crc_bits 8 (Z.lxor crc (Z.of_N (Ascii.N_of_ascii c)))) data
  end.

Definition ChecksumIEEE (data : string) : Z := Z.lxor (crc_update 0xFFFFFFFF data) 0xFFFFFFFF.

(** ** Errors

    What [isRoutingMismatch], [isReadDependencyUnavailable] and
    [isTransportUnavailable] find in an error; one error may wrap several. *)
Record client_error := {
  ce_isRoutingMismatch : bool;
  ce_isReadDependencyUnavailable : bool;
  ce_isTransportUnavailable : bool;
  ce_message : string;
}.

Definition ErrSnapshotNotLoaded : client_error :=
  {| ce_isRoutingMismatch := false; ce_isReadDependencyUnavailable := false; ce_isTransportUnavailable := false;
     ce_message := "client routing snapshot not loaded" |}.
Definition ErrNoRoute (detail : string) : client_error :=
  {| ce_isRoutingMismatch := false; ce_isReadDependencyUnavailable := false; ce_isTransportUnavailable := true;
     ce_message := "client route unavailable: " +:+ detail |}.

(** Division by [uint32] zero and an index out of range panic. *)
Definition RouterPanic : client_error :=
  {| ce_isRoutingMismatch := false; ce_isReadDependencyUnavailable := false; ce_isTransportUnavailable := false;
     ce_message := "panic" |}.

(** ** Requests *)
Record ClientPutRequest := {
  put_Slot : Z;
  put_Key : string;
  put_Value : string;
  put_ExpectedChainVersion : Z;
  put_Conditions : WriteConditions;
}.

Record ClientDeleteRequest := {
  del_Slot : Z;
  del_Key : string;
  del_ExpectedChainVersion : Z;
  del_Conditions : WriteConditions;
}.

Definition noConditions : WriteConditions :=
  {| cond_Exists := None; cond_Version := None; cond_UpdatedAt := None |}.

Inductive client_call : Type -> Type :=
| CallRoutingSnapshot : client_call (res client_error RoutingSnapshot)
| CallStoreSnapshot (snapshot : RoutingSnapshot) : client_call unit
| CallSnapshot : client_call (option RoutingSnapshot)
| CallNextReadStart (slot count : Z) : client_call Z
| CallGet (target : string) (req : ClientGetRequest) : client_call (res client_error ReadResult)
| CallPut (target : string) (req : ClientPutRequest) : client_call (res client_error CommitResult)
| CallDelete (target : string) (req : ClientDeleteRequest) : client_call (res client_error CommitResult).

Abbreviation client A := (program client_call (res client_error A)).

(** ** Routes *)
Definition routeForKey (snapshot : RoutingSnapshot) (key : string) : res client_error SlotRoute :=
  _ ← reject ((rs_SlotCount snapshot <=? 0) || negb (Z.of_nat (length (rs_Slots snapshot)) =? rs_SlotCount snapshot))
        (ErrNoRoute ("invalid snapshot slot count " +:+ pretty (rs_SlotCount snapshot)));
  let divisor := rs_SlotCount snapshot mod 2 ^ 32 in
  if divisor =? 0 then Err RouterPanic
  else match zidx (rs_Slots snapshot) (ChecksumIEEE key mod divisor) with
       | Some route => Ok route
       | None => Err RouterPanic
       end.

Definition routeTarget (endpoint fallbackNodeID : string) : string :=
  if negb (String.eqb endpoint "") then endpoint else fallbackNodeID.

(** The tail alone, for a route that lists no read replicas. *)
Definition tail_route (route : SlotRoute) : ReadReplicaRoute :=
  {| rrr_NodeID := route_TailNodeID route; rrr_Endpoint := route_TailEndpoint route;
     rrr_Role := if String.eqb (route_HeadNodeID route) (route_TailNodeID route) then ReplicaRoleSingle
                 else ReplicaRoleTail |}.

Definition routeReadReplicaCount (route : SlotRoute) : nat :=
  match route_ReadReplicas route with
  | [] => if String.eqb (route_TailNodeID route) "" then 0%nat else 1%nat
  | replicas => length replicas
  end.

(** The callers' index is below the count. *)
Definition routeReadReplicaAt (route : SlotRoute) (idx : nat) : ReadReplicaRoute :=
  match route_ReadReplicas route with
  | [] => tail_route route
  | replicas => default (tail_route route) (replicas !! idx)
  end.

Definition tailReadReplica (route : SlotRoute) : option ReadReplicaRoute :=
  let count := routeReadReplicaCount route in
  if (count =? 0)%nat then None else Some (routeReadReplicaAt route (count - 1)).

(** ** The router *)
Definition Refresh : client unit :=
  snapshot <~ call CallRoutingSnapshot;
  _ ← call (CallStoreSnapshot snapshot);
  succeed ().

Definition loadedSnapshot : client RoutingSnapshot :=
  snapshot ← call CallSnapshot;
  match snapshot with Some snapshot => succeed snapshot | None => fail_with ErrSnapshotNotLoaded end.

Definition refreshed {A} (k : RoutingSnapshot -> client A) : client A :=
  _ <~ Refresh;
  snapshot <~ loadedSnapshot;
  k snapshot.

(** The loop of [getWithSnapshot] over [left_] replicas from the [i]-th; [again]
    is the refresh, when it is still allowed. *)
Fixpoint get_replicas (left_ i start : nat) (route : SlotRoute) (req : ClientGetRequest)
    (again : option (client ReadResult)) (lastErr : option client_error) : client ReadResult :=
  match left_ with
  | O =>
      match again, lastErr with
      | Some again, Some e => if ce_isTransportUnavailable e then again else fail_with e
      | None, Some e => fail_with e
      | _, None => fail_with (ErrNoRoute ("slot " +:+ pretty (route_Slot route) +:+ " is not readable"))
      end
  | S left_ =>
      let replica := routeReadReplicaAt route ((start + i) mod routeReadReplicaCount route)%nat in
      let next := get_replicas left_ (i + 1) start route req again in
      let mismatched (e : client_error) := match again with Some again => again | None => fail_with e end in
      result ← call (CallGet (routeTarget (rrr_Endpoint replica) (rrr_NodeID replica)) req);
      match result with
      | Ok result => succeed result
      | Err e =>
          if ce_isRoutingMismatch e then mismatched e
          else if ce_isReadDependencyUnavailable e then
            match tailReadReplica route with
            | Some tail =>
                if negb (String.eqb (rrr_NodeID tail) (rrr_NodeID replica)) then
                  tailResult ← call (CallGet (routeTarget (rrr_Endpoint tail) (rrr_NodeID tail)) req);
                  match tailResult with
                  | Ok tailResult => succeed tailResult
                  | Err tailErr =>
                      if ce_isRoutingMismatch tailErr then mismatched tailErr
                      else if negb (ce_isTransportUnavailable tailErr) then fail_with tailErr
                      else next (Some tailErr)
                  end
                else next (Some e)
            | None => next (Some e)
            end
          else if ce_isTransportUnavailable e then next (Some e)
          else fail_with e
      end
  end.

(** [again]: the call that follows a refresh, [None] once it was made. *)
Definition get_once (key : string) (consistency : ReadConsistency) (snapshot : RoutingSnapshot)
    (again : option (client ReadResult)) : client ReadResult :=
  route <~ lift (routeForKey snapshot key);
  let count := routeReadReplicaCount route in
  if negb (route_Readable route) || (count =? 0)%nat then
    match again with
    | Some again => again
    | None => fail_with (ErrNoRoute ("slot " +:+ pretty (route_Slot route) +:+ " is not readable"))
    end
  else
    start ← call (CallNextReadStart (route_Slot route) (Z.of_nat count));
    get_replicas count 0 (Z.to_nat start) route
      {| get_Slot := route_Slot route; get_Key := key; get_ExpectedChainVersion := route_ChainVersion route;
         get_Consistency := consistency |} again None.

Definition getWithSnapshot (key : string) (consistency : ReadConsistency) (snapshot : RoutingSnapshot)
    (allowRefresh : bool) : client ReadResult :=
  get_once key consistency snapshot
    (if allowRefresh then Some (refreshed (fun snapshot => get_once key consistency snapshot None)) else None).

(** [putWithSnapshot] and [deleteWithSnapshot] differ in what they send. *)
Definition write_once (send : SlotRoute -> program client_call (res client_error CommitResult)) (key : string)
    (snapshot : RoutingSnapshot) (again : option (client CommitResult)) : client CommitResult :=
  route <~ lift (routeForKey snapshot key);
  if negb (route_Writable route) || String.eqb (route_HeadNodeID route) "" then
    match again with
    | Some again => again
    | None => fail_with (ErrNoRoute ("slot " +:+ pretty (route_Slot route) +:+ " is not writable"))
    end
  else
    result ← send route;
    match result, again with
    | Err e, Some again => if ce_isRoutingMismatch e then again else fail_with e
    | Err e, None => fail_with e
    | Ok result, _ => succeed result
    end.

Definition write_with (send : SlotRoute -> program client_call (res client_error CommitResult)) (key : string)
    (snapshot : RoutingSnapshot) (allowRefresh : bool) : client CommitResult :=
  write_once send key snapshot
    (if allowRefresh then Some (refreshed (fun snapshot => write_once send key snapshot None)) else None).

Definition send_put (key value : string) (conditions : WriteConditions) (route : SlotRoute)
    : program client_call (res client_error CommitResult) :=
  call (CallPut (routeTarget (route_HeadEndpoint route) (route_HeadNodeID route))
          {| put_Slot := route_Slot route; put_Key := key; put_Value := value;
             put_ExpectedChainVersion := route_ChainVersion route; put_Conditions := conditions |}).

Definition send_delete (key : string) (conditions : WriteConditions) (route : SlotRoute)
    : program client_call (res client_error CommitResult) :=
  call (CallDelete (routeTarget (route_HeadEndpoint route) (route_HeadNodeID route))
          {| del_Slot := route_Slot route; del_Key := key; del_ExpectedChainVersion := route_ChainVersion route;
             del_Conditions := conditions |}).

Definition putWithSnapshot (key value : string) (conditions : WriteConditions) (snapshot : RoutingSnapshot)
    (allowRefresh : bool) : client CommitResult :=
  write_with (send_put key value conditions) key snapshot allowRefresh.

Definition deleteWithSnapshot (key : string) (conditions : WriteConditions) (snapshot : RoutingSnapshot)
    (allowRefresh : bool) : client CommitResult :=
  write_with (send_delete key conditions) key snapshot allowRefresh.

(** *** The methods *)
Definition GetWithConsistency (key : string) (consistency : ReadConsistency) : client ReadResult :=
  snapshot <~ loadedSnapshot; getWithSnapshot key consistency snapshot true.
Definition Get (key : string) : client ReadResult := GetWithConsistency key ReadConsistencyLinearizable.
Definition PutIf (key value : string) (conditions : WriteConditions) : client CommitResult :=
  snapshot <~ loadedSnapshot; putWithSnapshot key value conditions snapshot true.
Definition Put (key value : string) : client CommitResult := PutIf key value noConditions.
Definition DeleteIf (key : string) (conditions : WriteConditions) : client CommitResult :=
  snapshot <~ loadedSnapshot; deleteWithSnapshot key conditions snapshot true.
Definition Delete (key : string) : client CommitResult := DeleteIf key noConditions.

(** ** The router's fields *)
Record Router := {
  router_snapshot : option RoutingSnapshot;
  router_nextReadReplica : gmap Z Z;
}.

(** [nextReadStart]; a missing entry reads as 0. *)
Definition nextReadStart (r : Router) (slot count : Z) : Router * Z :=
  if count <=? 0 then (r, 0)
  else
    let start := Z.rem (default 0 (router_nextReadReplica r !! slot)) count in
    ({| router_snapshot := router_snapshot r;
        router_nextReadReplica := <[slot := Z.rem (start + 1) count]> (router_nextReadReplica r) |}, start).
