(* ===== verification/RouterTheorems.v ===== *)
(** * What the routes and the router guarantee

    The routes the coordinator publishes agree with the roles it assigns, and a
    router follows them: a write is sent again only when the node it was sent to
    did not take it. *)

From S2P Require Import Prelude.
From S2P Require Import CoordTypes.
From S2P Require Import Placement.
From S2P Require Import Reconfig.
From S2P Require Import ReconfigProps.
From S2P Require Import PlanTheorems.
From S2P Require Import StorageTypes.
From S2P Require Import RuntimeTypes.
From S2P Require Import Runtime.
From S2P Require Import SlotReducer.
From S2P Require Import SlotOwner.
From S2P Require Import Node.
From S2P Require Import CoordServer.
From S2P Require Import Router.

Open Scope Z_scope.
Open Scope record_scope.

(** ** Routes *)
Abbreviation actives := (List.filter (is_state ReplicaStateActive)).

(** The role at position [i] of [n] replicas. *)
Definition role_at (i n : nat) : ReplicaRole :=
  if (n =? 1)%nat then ReplicaRoleSingle
  else if (i =? 0)%nat then ReplicaRoleHead
  else if (i =? n - 1)%nat then ReplicaRoleTail
  else ReplicaRoleMiddle.

Section routes.
Context (nodesByID : gmap string Node).

Definition address (r : Replica) : string := node_RPCAddress (node_of nodesByID (replica_NodeID r)).

Definition read_route (role : ReplicaRole) (r : Replica) : ReadReplicaRoute :=
  {| rrr_NodeID := replica_NodeID r; rrr_Endpoint := address r; rrr_Role := role |}.

(** What the loop has made of the active replicas [l] so far. *)
Definition routed (slot version : Z) (l : list Replica) : SlotRoute :=
  {| route_Slot := slot; route_ChainVersion := version;
     route_HeadNodeID := default "" (replica_NodeID <$> head l);
     route_HeadEndpoint := default "" (address <$> head l);
     route_TailNodeID := default "" (replica_NodeID <$> last l);
     route_TailEndpoint := default "" (address <$> last l);
     route_ReadReplicas := imap (fun i => read_route (if (i =? 0)%nat then ReplicaRoleHead else ReplicaRoleMiddle)) l;
     route_Writable := false; route_Readable := false |}.

Lemma route_replica_routed unavailable slot slot' version l r :
  Forall (fun r => replica_NodeID r <> "") l ->
  is_state ReplicaStateActive r = true -> replicaUnavailable unavailable (replica_NodeID r) slot = false ->
  route_replica nodesByID unavailable slot (routed slot' version l) r = routed slot' version (l ++ [r]).
Proof.
  intros Hl Ha Hu. unfold route_replica. rw Ha Hu. cbn [negb]. unfold routed. cbn.
  rw imap_app last_snoc. destruct l as [|x l]; [done|]. inv Hl. cbn.
  by rw (proj2 (String.eqb_neq _ _)) //.
Qed.

Lemma route_fold unavailable slot slot' version replicas l :
  Forall (fun r => replica_NodeID r <> "") (l ++ replicas) ->
  existsb (fun r => is_state ReplicaStateActive r && replicaUnavailable unavailable (replica_NodeID r) slot) replicas = false ->
  foldl (route_replica nodesByID unavailable slot) (routed slot' version l) replicas =
  routed slot' version (l ++ actives replicas).
Proof.
  revert l. induction replicas as [|r replicas IH]; intros l Hf Hu; cbn; [by rw app_nil_r|].
  cbn in Hu. apply orb_false_iff in Hu as [Hr Hu]. destruct (is_state ReplicaStateActive r) eqn:Ha; cbn in Hr.
  - rw route_replica_routed //; [by apply Forall_app in Hf as [? _]|]. rw IH //; by rw -app_assoc.
  - rw /route_replica Ha. apply IH; [|done]. apply Forall_app in Hf as [? Hf]. inv Hf. by apply Forall_app.
Qed.

Lemma set_last_role_lookup l i :
  set_last_role l !! i =
  (fun r => if (i =? length l - 1)%nat
            then r <| rrr_Role := if (length l =? 1)%nat then ReplicaRoleSingle else ReplicaRoleTail |> else r) <$> l !! i.
Proof.
  destruct l as [|a [|b l]]; [done|by destruct i|]. unfold set_last_role.
  destruct (Nat.eqb_spec i (length (a :: b :: l) - 1)) as [->|Hne].
  - by rw list_lookup_alter_eq.
  - rw list_lookup_alter_ne; [congruence|]. symmetry. apply option_fmap_id.
Qed.

Lemma set_last_role_spec l :
  set_last_role (imap (fun i => read_route (if (i =? 0)%nat then ReplicaRoleHead else ReplicaRoleMiddle)) l) =
  imap (fun i => read_route (role_at i (length l))) l.
Proof.
  apply list_eq. intros i. rw set_last_role_lookup !list_lookup_imap length_imap.
  destruct (l !! i) as [r|] eqn:Hi; [|done]. apply lookup_lt_Some in Hi. cbn. f_equal. unfold role_at, read_route.
  destruct (Nat.eqb_spec i (length l - 1)) as [He|He], (Nat.eqb_spec (length l) 1) as [H1|H1],
    (Nat.eqb_spec i 0) as [H0|H0]; try lia; done.
Qed.

(** The route of a chain none of whose active replicas is unavailable. *)
Lemma buildSlotRoute_spec chain version unavailable :
  Forall (fun r => replica_NodeID r <> "") (chain_Replicas chain) ->
  chainHasUnavailableReplica chain unavailable = false ->
  let l := actives (chain_Replicas chain) in
  buildSlotRoute chain nodesByID version unavailable =
  (routed (chain_Slot chain) version l)
    <| route_ReadReplicas := imap (fun i => read_route (role_at i (length l))) l |>
    <| route_Writable := negb (bool_decide (l = [])) |> <| route_Readable := negb (bool_decide (l = [])) |>.
Proof.
  intros Hf Hu. cbv zeta. unfold buildSlotRoute. rw Hu.
  pose proof (route_fold unavailable (chain_Slot chain) (chain_Slot chain) version (chain_Replicas chain) [] Hf Hu) as Hfold.
  unfold routed in Hfold at 1. cbn in Hfold. rw Hfold. cbn. rw set_last_role_spec.
  assert (Forall (fun r => replica_NodeID r <> "") (actives (chain_Replicas chain))) as Hl.
  { apply Forall_forall. intros r [? _]%list_elem_of_In%List.filter_In. rw Forall_forall in Hf. by apply Hf, list_elem_of_In. }
  destruct (actives _) as [|r l]; [done|]. inv Hl. cbn. by rw (proj2 (String.eqb_neq _ _)) //.
Qed.

(** The assignment of a serving replica has the role of its route. *)
Lemma findReplicaIndex_NoDup c i r :
  NoDup (ids_of c) -> chain_Replicas c !! i = Some r -> findReplicaIndex c (replica_NodeID r) = Some i.
Proof.
  intros Hn Hi. assert (replica_NodeID r ∈ ids_of c) as Hin by by apply list_elem_of_fmap_2, (list_elem_of_lookup_2 _ i).
  destruct (findReplicaIndex_complete c _ Hin) as [j Hj]. rw Hj. f_equal.
  apply findReplicaIndex_spec in Hj as (r' & Hr' & Hid). apply (NoDup_lookup _ _ _ (replica_NodeID r) Hn).
  - unfold ids_of, replicaIDs. by rw list_lookup_fmap Hr' /= Hid.
  - unfold ids_of, replicaIDs. by rw list_lookup_fmap Hi.
Qed.
End routes.

Lemma serving_lookup chain l i r : actives (chain_Replicas chain) = l -> l !! i = Some r -> NoDup (ids_of chain) ->
  findReplicaIndex (activeServingChain chain) (replica_NodeID r) = Some i.
Proof.
  intros Hl Hi Hn. apply findReplicaIndex_NoDup; [|by rw /activeServingChain /= Hl].
  unfold ids_of, replicaIDs, activeServingChain in *. cbn. clear Hi Hl. revert Hn.
  generalize (chain_Replicas chain). intros replicas. induction replicas as [|x replicas IH]; [done|]. cbn. intros [Hx Hn]%NoDup_cons.
  destruct (is_state ReplicaStateActive x); [|by apply IH]. cbn. apply NoDup_cons. split; [|by apply IH].
  intros (y & Hy & [Hin _]%list_elem_of_In%List.filter_In)%list_elem_of_fmap. apply Hx. rw Hy.
  by apply list_elem_of_fmap_2, list_elem_of_In.
Qed.

(** A replica of the serving chain is assigned the role at its position. *)
Lemma serving_assignment chain nodesByID version i r :
  NoDup (ids_of chain) -> actives (chain_Replicas chain) !! i = Some r ->
  exists a, assignmentForNode (activeServingChain chain) nodesByID (replica_NodeID r) version = Some a /\
    asg_Slot a = chain_Slot chain /\ asg_ChainVersion a = version /\
    asg_Role a = role_at i (length (actives (chain_Replicas chain))).
Proof.
  intros Hn Hi. unfold assignmentForNode. rw (serving_lookup chain _ i r eq_refl Hi Hn). eexists. split; [done|]. done.
Qed.

(** What a route for [chain] says, and what it needs. *)
Record route_ok (nodesByID : gmap string Node) (chain : Chain) (version : Z) (route : SlotRoute) : Prop := {
  ro_slot : route_Slot route = chain_Slot chain;
  ro_version : route_ChainVersion route = version;
  ro_replicas : rrr_NodeID <$> route_ReadReplicas route = ids_of (activeServingChain chain);
  ro_roles rr : rr ∈ route_ReadReplicas route ->
    rrr_Endpoint rr = node_RPCAddress (node_of nodesByID (rrr_NodeID rr)) /\
    exists a, assignmentForNode (activeServingChain chain) nodesByID (rrr_NodeID rr) version = Some a /\
      asg_Role a = rrr_Role rr /\ asg_ChainVersion a = version;
  ro_readable : route_Readable route = true -> route_ReadReplicas route <> [];
  ro_writable : route_Writable route = true ->
    head (route_ReadReplicas route) <> None /\
    route_HeadNodeID route = default "" (rrr_NodeID <$> head (route_ReadReplicas route)) /\
    route_HeadEndpoint route = default "" (rrr_Endpoint <$> head (route_ReadReplicas route)) /\
    forall node record a, assignmentForNode (activeServingChain chain) nodesByID (route_HeadNodeID route) version = Some a ->
      sn_publishedReplicas node !! chain_Slot chain = Some record -> pub_assignment record = a ->
      pub_state record = StateActive -> validateClientWrite node (chain_Slot chain) version = Ok tt;
}.

Lemma serving_route_ok nodesByID chain version unavailable :
  Forall (fun r => replica_NodeID r <> "") (chain_Replicas chain) -> NoDup (ids_of chain) ->
  chainHasUnavailableReplica chain unavailable = false ->
  route_ok nodesByID chain version (buildSlotRoute chain nodesByID version unavailable).
Proof.
  intros Hf Hn Hu. rw buildSlotRoute_spec //. cbv zeta.
  pose proof (fun i r => serving_assignment chain nodesByID version i r Hn) as Hasg.
  constructor; cbn -[actives imap activeServingChain assignmentForNode]; try done.
  - unfold ids_of, replicaIDs, activeServingChain. cbn -[actives]. generalize (actives (chain_Replicas chain)).
    intros l. apply list_eq. intros i. rw !list_lookup_fmap list_lookup_imap. by destruct (l !! i).
  - intros rr (i & Hi)%list_elem_of_lookup. rw list_lookup_imap in Hi.
    destruct (actives (chain_Replicas chain) !! i) as [r|] eqn:Hl; [|done]. injection Hi as <-. cbn -[actives activeServingChain assignmentForNode]. split; [done|].
    destruct (Hasg i r Hl) as (a & Ha & _ & Hv & Hr). by exists a.
  - intros Hne%negb_true_iff%bool_decide_eq_false. intros Hnil. apply Hne. by destruct (actives _).
  - intros Hne%negb_true_iff%bool_decide_eq_false.
    destruct (actives (chain_Replicas chain)) as [|r l] eqn:Hl; [done|]. cbn -[activeServingChain assignmentForNode validateClientWrite].
    split_and!; [done..|].
    intros node record a Ha Hpub Hrec Hst. destruct (Hasg 0%nat r) as (a' & Ha' & _ & Hv & Hr); [done|].
    assert (a = a') as -> by congruence. unfold validateClientWrite.
    rw Hpub Hst Hrec Hv Z.eqb_refl Hr. cbn. unfold role_at. by destruct l.
Qed.

Section snapshot.
Context (state : State) (unavailable : unavailable_map) (refresh : gmap Z activePeerRefreshState).
Context (Hwf : cluster_wf (rt_Cluster state)).

Lemma chain_ids_nonempty i chain : cs_Chains (rt_Cluster state) !! i = Some chain ->
  Forall (fun r => replica_NodeID r <> "") (chain_Replicas chain).
Proof.
  intros Hi. destruct (wf_chains _ Hwf _ _ Hi) as [_ _ Hk _]. apply Forall_forall. intros r Hr.
  destruct (Hk (replica_NodeID r)) as [n Hn]; [by apply list_elem_of_fmap_2|]. by apply (wf_ids _ Hwf _ _ Hn).
Qed.

(** What a published route may be for a chain: not served, or the chain's. *)
Definition route_serves (nodesByID : gmap string Node) (chain : Chain) (version : Z) (route : SlotRoute) : Prop :=
  if chainHasUnavailableReplica chain unavailable
  then route_Readable route = false /\ route_Writable route = false
  else route_ok nodesByID chain version route.

Lemma build_serves nodesByID chain version :
  Forall (fun r => replica_NodeID r <> "") (chain_Replicas chain) -> NoDup (ids_of chain) ->
  route_serves nodesByID chain version (buildSlotRoute chain nodesByID version unavailable).
Proof.
  intros Hids Hn. unfold route_serves. destruct (chainHasUnavailableReplica chain unavailable) eqn:Hu.
  - unfold buildSlotRoute. by rw Hu.
  - by apply serving_route_ok.
Qed.

(** C21. The routes a coordinator publishes agree with the roles it assigns.  For
    every key the router finds a route, that of the slot the key hashes to.
    While no refresh of the slot's peers is queued: a slot with an unavailable
    active replica is neither readable nor writable; any other slot's route
    lists exactly the active replicas, in chain order, each with the address of
    its node and the role the coordinator assigns it, the head it names accepts
    the write once it is active under that assignment, and the route is writable
    only if the chain has no joining replica.  While a refresh is queued that
    carries a fallback chain for the slot, the same holds of the fallback chain,
    except that a joining replica of the chain does not stop the writes; while
    one is queued that carries none, the slot is neither readable nor
    writable. *)
Theorem routes_match_assignments key : cs_SlotCount (rt_Cluster state) < 2 ^ 32 ->
  let slot := ChecksumIEEE key mod cs_SlotCount (rt_Cluster state) in
  let version := slot_version (rt_SlotVersions state) slot in
  exists chain route,
    zidx (cs_Chains (rt_Cluster state)) slot = Some chain /\ chain_Slot chain = slot /\
    routeForKey (reduceRoutingSnapshot state unavailable refresh) key = Ok route /\
    match refresh !! slot with
    | None =>
        route_serves (cs_NodesByID (rt_Cluster state)) chain version route /\
        (route_Writable route = true -> chainHasReplicaState chain ReplicaStateJoining = false)
    | Some r =>
        let fallback := fallbackServingChain r in
        if useFallbackRoute r
        then Forall (fun r => replica_NodeID r <> "") (chain_Replicas fallback) -> NoDup (ids_of fallback) ->
             route_serves (cs_NodesByID (rt_Cluster state)) fallback version route
        else route_Readable route = false /\ route_Writable route = false
    end.
Proof.
  intros Hcount slot version. pose proof (wf_slots _ Hwf) as Hpos. pose proof (wf_length _ Hwf) as Hlen.
  assert (0 <= slot < cs_SlotCount (rt_Cluster state)) as Hslot by by apply Z.mod_pos_bound.
  destruct (lookup_lt_is_Some_2 (cs_Chains (rt_Cluster state)) (Z.to_nat slot)) as [chain Hchain]; [lia|].
  assert (zidx (cs_Chains (rt_Cluster state)) slot = Some chain) as Hz.
  { apply zidx_Some. split; [lia|done]. }
  destruct (wf_chains _ Hwf _ _ Hchain) as [Hs Hn Hk _]. rw Z2Nat.id in Hs; [lia|].
  exists chain, (reduce_route state unavailable refresh chain). split_and!; [done..| |].
  { unfold routeForKey. cbn [rs_SlotCount rs_Slots reduceRoutingSnapshot]. rw length_fmap Hlen Z.eqb_refl.
    rw (proj2 (Z.leb_gt _ _) Hpos). cbn [orb negb reject mbind]. cbn. rw Z.mod_small; [lia|].
    rw (proj2 (Z.eqb_neq _ _)); [lia|]. fold slot. unfold zidx.
    rw decide_True; [lia|]. by rw list_lookup_fmap Hchain. }
  unfold reduce_route. rw Hs. fold version. destruct (refresh !! slot) as [r|]; cbn [is_set negb andb].
  - destruct (useFallbackRoute r); [|done]. intros Hids Hnd. by apply build_serves.
  - pose proof (build_serves (cs_NodesByID (rt_Cluster state)) chain version (chain_ids_nonempty (Z.to_nat slot) chain Hchain) Hn) as Hroute.
    destruct (chainHasReplicaState chain ReplicaStateJoining); [|by split; [exact Hroute|]]. split; [|done].
    unfold route_serves in *. destruct (chainHasUnavailableReplica chain unavailable); [by destruct Hroute|].
    destruct Hroute. by constructor.
Qed.
End snapshot.

(** ** Runs of the router *)
Inductive client_event :=
| EventSnapshot (snapshot : option RoutingSnapshot)
| EventGet (target : string) (req : ClientGetRequest) (result : res client_error ReadResult)
| EventPut (target : string) (req : ClientPutRequest) (result : res client_error CommitResult)
| EventDelete (target : string) (req : ClientDeleteRequest) (result : res client_error CommitResult).

Definition event_of {X} (c : client_call X) : X -> list client_event :=
  match c with
  | CallSnapshot => fun snapshot => [EventSnapshot snapshot]
  | CallGet target req => fun result => [EventGet target req result]
  | CallPut target req => fun result => [EventPut target req result]
  | CallDelete target req => fun result => [EventDelete target req result]
  | _ => fun _ => []
  end.

(** [ran p t a]: with some answers to its calls [p] does [t] and ends in [a]. *)
Fixpoint ran {A} (p : program client_call A) (t : list client_event) (a : A) : Prop :=
  match p with
  | Done a' => t = [] /\ a = a'
  | Call c k => exists x t', t = event_of c x ++ t' /\ ran (k x) t' a
  end.

Lemma ran_bind {A B} (m : program client_call A) (f : A -> program client_call B) t b :
  ran (m ≫= f) t b -> exists a t1 t2, ran m t1 a /\ ran (f a) t2 b /\ t = t1 ++ t2.
Proof.
  revert t. induction m as [a|X c k IH]; intros t Hr; [by exists a, [], t|].
  destruct Hr as (x & t' & -> & Hk). destruct (IH x t' Hk) as (a & t1 & t2 & H1 & H2 & ->).
  exists a, (event_of c x ++ t1), t2. split_and!; [by exists x, t1|done|by rw app_assoc].
Qed.

Lemma ran_then {A B} (m : client A) (k : A -> client B) t r :
  ran (and_then m k) t r -> exists r0 t1 t2, ran m t1 r0 /\ t = t1 ++ t2 /\
    match r0 with Ok a => ran (k a) t2 r | Err e => t2 = [] /\ r = Err e end.
Proof.
  intros (r0 & t1 & t2 & H1 & H2 & ->)%ran_bind. exists r0, t1, t2. split_and!; [done..|]. by destruct r0.
Qed.

(** The writes of a run. *)
Definition write_of (e : client_event) : option (string * (ClientPutRequest + ClientDeleteRequest) * res client_error CommitResult) :=
  match e with
  | EventPut target req result => Some (target, inl req, result)
  | EventDelete target req result => Some (target, inr req, result)
  | _ => None
  end.

Abbreviation writes := (omap write_of).

(** The routes [l] that a write to [key] was sent along, and how it ended. *)
Record sent_once (request : SlotRoute -> ClientPutRequest + ClientDeleteRequest) (key : string) (t : list client_event)
    (r : res client_error CommitResult) (l : list (SlotRoute * res client_error CommitResult)) : Prop := {
  sent_writes : writes t = (fun '(route, result) =>
    (routeTarget (route_HeadEndpoint route) (route_HeadNodeID route), request route, result)) <$> l;
  sent_routes route result : (route, result) ∈ l -> route_Writable route = true /\
    exists snapshot, EventSnapshot (Some snapshot) ∈ t /\ routeForKey snapshot key = Ok route;
  sent_end : match l with
    | [] => exists e, r = Err e
    | [(_, result)] => r = result \/ exists e e', result = Err e /\ ce_isRoutingMismatch e = true /\ r = Err e'
    | [(_, first); (_, second)] => r = second /\ exists e, first = Err e /\ ce_isRoutingMismatch e = true
    | _ => False
    end;
}.

Lemma loadedSnapshot_ran t r : ran loadedSnapshot t r ->
  exists o, t = [EventSnapshot o] /\ r = match o with Some s => Ok s | None => Err ErrSnapshotNotLoaded end.
Proof. intros (o & t' & -> & Ho). exists o. by destruct o, Ho as [-> ->]. Qed.

Lemma Refresh_ran t r : ran Refresh t r -> t = [].
Proof.
  intros (r0 & t1 & t2 & (x & t' & -> & -> & ->) & -> & H)%ran_then. destruct x as [s|e]; [|by destruct H as [-> _]].
  destruct H as (u & t' & -> & -> & _). done.
Qed.

Lemma refreshed_ran {A} (k : RoutingSnapshot -> client A) t r :
  ran (refreshed k) t r ->
  ((t = [] \/ t = [EventSnapshot None]) /\ exists e, r = Err e) \/
  exists s t', t = EventSnapshot (Some s) :: t' /\ ran (k s) t' r.
Proof.
  intros (r0 & t1 & t2 & ->%Refresh_ran & -> & Hr)%ran_then. cbn [app].
  destruct r0 as [u|e]; [|destruct Hr as [-> ->]; left; eauto].
  apply ran_then in Hr as (r1 & t3 & t4 & (o & -> & ->)%loadedSnapshot_ran & -> & Hr).
  destruct o as [s|]; [right; by exists s, t4|destruct Hr as [-> ->]; left; eauto].
Qed.

Section writes.
Context (key : string) (request : SlotRoute -> ClientPutRequest + ClientDeleteRequest).
Context (send : SlotRoute -> program client_call (res client_error CommitResult)).
Context (Hsend : forall route t r, ran (send route) t r ->
  writes t = [(routeTarget (route_HeadEndpoint route) (route_HeadNodeID route), request route, r)]).

(** One attempt, after the snapshot it uses was loaded. *)
Lemma write_once_ran snapshot again t r :
  ran (write_once send key snapshot again) t r ->
  (writes t = [] /\ exists e, r = Err e) \/
  (exists again' , again = Some again' /\ ran again' t r) \/
  exists route result t1 t2, t = t1 ++ t2 /\ routeForKey snapshot key = Ok route /\ route_Writable route = true /\
    writes t1 = [(routeTarget (route_HeadEndpoint route) (route_HeadNodeID route), request route, result)] /\
    (t2 = [] /\ r = result \/
     exists again' e, again = Some again' /\ result = Err e /\ ce_isRoutingMismatch e = true /\ ran again' t2 r).
Proof.
  intros (r0 & t1 & t2 & [-> ->] & -> & Hr)%ran_then. cbn [app].
  destruct (routeForKey snapshot key) as [route|e] eqn:Hroute; [|destruct Hr as [-> ->]; left; eauto].
  destruct (route_Writable route) eqn:Hw; cbn [negb orb] in Hr.
  2: { destruct again as [again|]; [right; left; eauto|]. destruct Hr as [-> ->]. left. eauto. }
  destruct (String.eqb (route_HeadNodeID route) "").
  { destruct again as [again|]; [right; left; eauto|]. destruct Hr as [-> ->]. left. eauto. }
  right. right. apply ran_bind in Hr as (result & t1 & t3 & Hs & Hr & ->). exists route, result, t1, t3.
  split_and!; [done..|by apply Hsend|]. destruct result as [result|e], again as [again|]; try by destruct Hr as [-> ->]; left.
  destruct (ce_isRoutingMismatch e) eqn:Hm; [|by destruct Hr as [-> ->]; left]. right. eauto 10.
Qed.

(** The second attempt: at most one write, whose answer is the result. *)
Lemma second_attempt_ran t r :
  ran (refreshed (fun snapshot => write_once send key snapshot None)) t r ->
  (writes t = [] /\ exists e, r = Err e) \/
  exists route snapshot, route_Writable route = true /\ EventSnapshot (Some snapshot) ∈ t /\
    routeForKey snapshot key = Ok route /\
    writes t = [(routeTarget (route_HeadEndpoint route) (route_HeadNodeID route), request route, r)].
Proof.
  intros [[[->| ->] ?]|(s & t' & -> & Hr)]%refreshed_ran; [by left..|].
  apply write_once_ran in Hr as [?|[(? & ? & _)|(route & result & t1 & t2 & -> & Hroute & Hw & Hws & [[-> ->]|(? & ? & ? & _)])]];
    [by left|done| |done].
  right. exists route, s. split_and!; [done|by left|done|]. by rw app_nil_r.
Qed.

Lemma write_with_ran t r :
  ran (and_then loadedSnapshot (fun snapshot => write_with send key snapshot true)) t r ->
  exists l, sent_once request key t r l.
Proof.
  intros (r0 & t1 & t2 & (o & -> & ->)%loadedSnapshot_ran & -> & Hr)%ran_then.
  destruct o as [s|]; [|destruct Hr as [-> ->]; exists []; constructor; [done|by intros ? ? ?%not_elem_of_nil|eauto]].
  apply write_once_ran in Hr as [[Hw [e ->]]|[(again & [= <-] & Hr)|(route & result & t3 & t4 & -> & Hroute & Hw & Hws & Hend)]].
  - exists []. constructor; [done|by intros ? ? ?%not_elem_of_nil|eauto].
  - apply second_attempt_ran in Hr as [[Hw [e ->]]|(route & s' & Hw & Hs & Hroute & Hws)].
    + exists []. constructor; [done|by intros ? ? ?%not_elem_of_nil|eauto].
    + exists [(route, r)]. constructor; [done| |by left].
      intros ? ? [= -> ->]%list_elem_of_singleton. split; [done|]. exists s'. split; [by right|done].
  - assert (route_Writable route = true /\ exists snapshot, EventSnapshot (Some snapshot) ∈ [EventSnapshot (Some s)] ++ t3 ++ t4 /\
      routeForKey snapshot key = Ok route) as Hfirst by (split; [done|exists s; split; [left|done]]).
    destruct Hend as [[-> ->]|(again & e & [= <-] & -> & Hm & Hr)].
    + exists [(route, result)]. constructor; [by rw app_nil_r| |by left].
      by intros ? ? [= -> ->]%list_elem_of_singleton.
    + apply second_attempt_ran in Hr as [[Hw2 [e' ->]]|(route' & s' & Hw' & Hs' & Hroute' & Hws')].
      * exists [(route, Err e)]. constructor; [|by intros ? ? [= -> ->]%list_elem_of_singleton|right; eauto].
        cbn. by rw omap_app Hws Hw2.
      * exists [(route, Err e); (route', r)]. constructor; [cbn; by rw omap_app Hws Hws'| |split; eauto].
        intros ? ? [[= -> ->]|[= -> ->]%list_elem_of_singleton]%elem_of_cons; [done|]. split; [done|]. exists s'.
        split; [|done]. cbn. right. apply elem_of_app. by right.
Qed.
End writes.

(** C29. A write is never sent twice to nodes that may have taken it.  Whatever the
    coordinator and the nodes answer, a put or a delete sends nothing and
    fails; or sends one request, whose answer is its result unless the node
    said that it does not serve the slot, and then it may also fail with another
    error, that of refreshing the routes or of finding one; or sends a second
    one after such an answer, and returns the answer to that.  So a success is
    the answer to the last request, and a second request is sent only when the
    first was not taken.  Each goes to the head of a writable route of a snapshot
    the router held, with the route's chain version and the caller's key, value
    and conditions. *)
Theorem writes_sent_once key value conditions t r :
  (ran (PutIf key value conditions) t r ->
   exists l, sent_once (fun route => inl
     {| put_Slot := route_Slot route; put_Key := key; put_Value := value;
        put_ExpectedChainVersion := route_ChainVersion route; put_Conditions := conditions |}) key t r l) /\
  (ran (DeleteIf key conditions) t r ->
   exists l, sent_once (fun route => inr
     {| del_Slot := route_Slot route; del_Key := key; del_ExpectedChainVersion := route_ChainVersion route;
        del_Conditions := conditions |}) key t r l).
Proof.
  split; intros Hr; eapply write_with_ran; try exact Hr.
  all: intros route t' r' (x & t'' & -> & -> & ->); reflexivity.
Qed.

(** ** Reads *)
Definition get_of (e : client_event) : option (string * ClientGetRequest * res client_error ReadResult) :=
  match e with EventGet target req result => Some (target, req, result) | _ => None end.

Abbreviation gets := (omap get_of).

(** Requests to replicas of the route, at most [bound] of them. *)
Definition reads_along (route : SlotRoute) (req : ClientGetRequest) (bound : nat) (t : list client_event) : Prop :=
  (length (gets t) <= bound)%nat /\
  forall g, g ∈ gets t -> exists i result, (i < routeReadReplicaCount route)%nat /\
    let replica := routeReadReplicaAt route i in
    g = (routeTarget (rrr_Endpoint replica) (rrr_NodeID replica), req, result).

(** How a part of a read ends: with the answer of its last request, or an error. *)
Definition read_ends (t : list client_event) (r : res client_error ReadResult) : Prop :=
  forall x, r = Ok x -> exists target req, last (gets t) = Some (target, req, Ok x).

Lemma reads_along_app route req n m a b :
  reads_along route req n a -> reads_along route req m b -> reads_along route req (n + m) (a ++ b).
Proof.
  intros [Ha1 Ha2] [Hb1 Hb2]. unfold reads_along. rw omap_app length_app. split; [lia|].
  intros g [?|?]%elem_of_app; auto.
Qed.

Lemma reads_along_nil route req n : reads_along route req n [].
Proof. split; [cbn; lia|]. by intros g ?%not_elem_of_nil. Qed.

Lemma reads_along_le route req n m t : (n <= m)%nat -> reads_along route req n t -> reads_along route req m t.
Proof. intros Hle [H1 H2]. split; [lia|done]. Qed.

Lemma read_ends_app a b r : read_ends b r -> read_ends (a ++ b) r.
Proof.
  intros Hb x Hx. destruct (Hb x Hx) as (target & req & Hl). exists target, req. rw omap_app last_app Hl. done.
Qed.

Lemma one_get route req i result : (i < routeReadReplicaCount route)%nat ->
  let replica := routeReadReplicaAt route i in
  reads_along route req 1 [EventGet (routeTarget (rrr_Endpoint replica) (rrr_NodeID replica)) req result].
Proof. intros Hi. split; [cbn; lia|]. intros g ->%list_elem_of_singleton. by exists i, result. Qed.

Lemma read_ends_err t e : read_ends t (Err e).
Proof. done. Qed.

Definition read_part (route : SlotRoute) (req : ClientGetRequest) (again : option (client ReadResult)) (bound : nat)
    (t : list client_event) (r : res client_error ReadResult) : Prop :=
  exists t1 t2, t = t1 ++ t2 /\ reads_along route req bound t1 /\
    (t2 = [] /\ read_ends t1 r \/ exists a, again = Some a /\ ran a t2 r).

Lemma read_part_cons route req again n m t0 t r :
  reads_along route req n t0 -> read_part route req again m t r -> read_part route req again (n + m) (t0 ++ t) r.
Proof.
  intros H0 (t1 & t2 & -> & H1 & Hend). exists (t0 ++ t1), t2. split; [by rw app_assoc|].
  split; [by apply reads_along_app|]. destruct Hend as [[-> He]|?]; [left|by right]. split; [done|by apply read_ends_app].
Qed.

Lemma read_part_stop route req again bound r : (forall x, r <> Ok x) -> read_part route req again bound [] r.
Proof. intros Hr. exists [], []. split_and!; [done|apply reads_along_nil|left]. split; [done|]. intros x ->. by destruct (Hr x). Qed.

Lemma read_part_again route req again a bound t r :
  again = Some a -> ran a t r -> read_part route req again bound t r.
Proof. intros -> Hr. exists [], t. split_and!; [done|apply reads_along_nil|right; eauto]. Qed.

Lemma read_part_answered route req again i x : (i < routeReadReplicaCount route)%nat ->
  let replica := routeReadReplicaAt route i in
  read_part route req again 1 [EventGet (routeTarget (rrr_Endpoint replica) (rrr_NodeID replica)) req (Ok x)] (Ok x).
Proof.
  intros Hi. eexists _, []. split; [by rw app_nil_r|]. split; [by apply one_get|left]. split; [done|].
  intros y [= <-]. by do 2 eexists.
Qed.

Lemma read_part_le route req again n m t r : (n <= m)%nat -> read_part route req again n t r -> read_part route req again m t r.
Proof. intros Hle (t1 & t2 & -> & H1 & H2). exists t1, t2. split_and!; [done|by apply (reads_along_le _ _ n)|done]. Qed.

Lemma tailReadReplica_at route tail : tailReadReplica route = Some tail ->
  exists i, (i < routeReadReplicaCount route)%nat /\ tail = routeReadReplicaAt route i.
Proof.
  unfold tailReadReplica. destruct (Nat.eqb_spec (routeReadReplicaCount route) 0) as [|Hne]; [done|].
  intros [= <-]. exists (routeReadReplicaCount route - 1)%nat. split; [lia|done].
Qed.

Lemma ran_call {A X} (c : client_call X) (f : X -> program client_call A) t a :
  ran (call c ≫= f) t a -> exists x t', t = event_of c x ++ t' /\ ran (f x) t' a.
Proof. done. Qed.

Lemma get_replicas_ran route req again start left_ : forall i lastErr t r,
  (0 < routeReadReplicaCount route)%nat ->
  ran (get_replicas left_ i start route req again lastErr) t r -> read_part route req again (2 * left_) t r.
Proof.
  induction left_ as [|left_ IH]; intros i lastErr t r Hc Hr.
  { cbn in Hr. destruct again as [again|], lastErr as [e|]; try by destruct Hr as [-> ->]; apply read_part_stop.
    destruct (ce_isTransportUnavailable e); [by eapply read_part_again|by destruct Hr as [-> ->]; apply read_part_stop]. }
  assert (((start + i) mod routeReadReplicaCount route)%nat < routeReadReplicaCount route)%nat as Hi by by apply Nat.mod_upper_bound; lia.
  assert (forall e n t r, ran (match again with Some again => again | None => fail_with e end) t r ->
            read_part route req again n t r) as Hmis.
  { intros e n t' r' Hr'. destruct again; [by eapply read_part_again|by destruct Hr' as [-> ->]; apply read_part_stop]. }
  apply ran_call in Hr as (result & t' & -> & Hr). change (event_of _ _) with [EventGet
    (routeTarget (rrr_Endpoint (routeReadReplicaAt route ((start + i) mod routeReadReplicaCount route)))
       (rrr_NodeID (routeReadReplicaAt route ((start + i) mod routeReadReplicaCount route)))) req result].
  pose proof (one_get route req _ result Hi) as Hone. cbn zeta in Hone.
  destruct result as [x|e]; [destruct Hr as [-> ->]; apply (read_part_le _ _ _ 1); [lia|by apply read_part_answered]|].
  replace (2 * S left_)%nat with (1 + (1 + 2 * left_))%nat by lia. apply read_part_cons; [done|].
  assert (forall e t r, ran (get_replicas left_ (i + 1) start route req again e) t r ->
            read_part route req again (1 + 2 * left_) t r) as Hnext.
  { intros e' t1 r1 H1. apply (read_part_le _ _ _ (2 * left_)); [lia|]. by apply (IH (i + 1)%nat e'). }
  destruct (ce_isRoutingMismatch e); [by apply (Hmis e)|].
  destruct (ce_isReadDependencyUnavailable e).
  2: { destruct (ce_isTransportUnavailable e); [by apply (Hnext (Some e))|destruct Hr as [-> ->]; by apply read_part_stop]. }
  destruct (tailReadReplica route) as [tail|] eqn:Htail; [|by apply (Hnext (Some e))].
  destruct (negb _); [|by apply (Hnext (Some e))].
  apply tailReadReplica_at in Htail as (j & Hj & ->). apply ran_call in Hr as (result & t'' & -> & Hr). cbn [event_of].
  pose proof (one_get route req j result Hj) as Hone'. cbn zeta in Hone'.
  destruct result as [x|e']; [destruct Hr as [-> ->]; apply (read_part_le _ _ _ 1); [lia|by apply read_part_answered]|].
  apply read_part_cons; [done|]. destruct (ce_isRoutingMismatch e'); [by apply (Hmis e')|].
  destruct (negb _); [destruct Hr as [-> ->]; by apply read_part_stop|]. by apply (IH (i + 1)%nat (Some e')).
Qed.

Definition get_request (key : string) (consistency : ReadConsistency) (route : SlotRoute) : ClientGetRequest :=
  {| get_Slot := route_Slot route; get_Key := key; get_ExpectedChainVersion := route_ChainVersion route;
     get_Consistency := consistency |}.

Lemma get_once_ran key consistency snapshot again t r :
  ran (get_once key consistency snapshot again) t r ->
  (gets t = [] /\ exists e, r = Err e) \/ (exists a, again = Some a /\ ran a t r) \/
  exists route, routeForKey snapshot key = Ok route /\ route_Readable route = true /\
    read_part route (get_request key consistency route) again (2 * routeReadReplicaCount route) t r.
Proof.
  intros (r0 & t1 & t2 & [-> ->] & -> & Hr)%ran_then. cbn [app].
  destruct (routeForKey snapshot key) as [route|e]; [|destruct Hr as [-> ->]; left; eauto]. cbv zeta in Hr.
  destruct (negb (route_Readable route) || (routeReadReplicaCount route =? 0)%nat) eqn:Hs.
  { destruct again as [again|]; [right; left; eauto|]. destruct Hr as [-> ->]. left. eauto. }
  apply orb_false_iff in Hs as [Hs Hc]. apply negb_false_iff in Hs. apply Nat.eqb_neq in Hc. right. right.
  exists route. split_and!; [done..|]. apply ran_call in Hr as (start & t' & -> & Hr). cbn [event_of app].
  apply (get_replicas_ran _ _ _ (Z.to_nat start) _ 0 None); [lia|done].
Qed.

(** The routes [l] that a read used. *)
Record read_along (key : string) (consistency : ReadConsistency) (t : list client_event)
    (r : res client_error ReadResult) (l : list SlotRoute) : Prop := {
  read_routes route : route ∈ l -> route_Readable route = true /\
    exists snapshot, EventSnapshot (Some snapshot) ∈ t /\ routeForKey snapshot key = Ok route;
  read_count : (length (gets t) <= sum_list_with (fun route => 2 * routeReadReplicaCount route)%nat l)%nat;
  read_targets g : g ∈ gets t -> exists route i result, route ∈ l /\ (i < routeReadReplicaCount route)%nat /\
    let replica := routeReadReplicaAt route i in
    g = (routeTarget (rrr_Endpoint replica) (rrr_NodeID replica), get_request key consistency route, result);
  read_result : read_ends t r;
}.

Lemma read_along_none key consistency t r : gets t = [] -> (exists e, r = Err e) -> read_along key consistency t r [].
Proof.
  intros Hg [e ->]. constructor; [by intros ? ?%not_elem_of_nil|by rw Hg| |done]. rw Hg. by intros ? ?%not_elem_of_nil.
Qed.

(** A part along one route, before a run that used the routes [l]. *)
Lemma read_along_cons key consistency route s t1 t2 r l :
  routeForKey s key = Ok route -> route_Readable route = true ->
  reads_along route (get_request key consistency route) (2 * routeReadReplicaCount route) t1 ->
  read_along key consistency t2 r l ->
  read_along key consistency (EventSnapshot (Some s) :: t1 ++ t2) r (route :: l).
Proof.
  intros Hroute Hread [Hb Hg] [Hr Hc Ht He].
  constructor.
  - intros x [->|Hx]%elem_of_cons; [split; [done|]; exists s; split; [left|done]|].
    destruct (Hr x Hx) as [? (s' & Hs' & ?)]. split; [done|]. exists s'. split; [|done]. right. apply elem_of_app. by right.
  - change (gets (_ :: t1 ++ t2)) with (gets (t1 ++ t2)). rw omap_app length_app. cbn [sum_list_with]. lia.
  - intros g. change (gets (_ :: t1 ++ t2)) with (gets (t1 ++ t2)). rw omap_app. intros [Hin|Hin]%elem_of_app.
    + destruct (Hg g Hin) as (i & result & ? & ?). exists route, i, result. split_and!; [left|done..].
    + destruct (Ht g Hin) as (x & i & result & ? & ? & ?). exists x, i, result. split_and!; [by right|done..].
  - change (EventSnapshot (Some s) :: t1 ++ t2) with ((EventSnapshot (Some s) :: t1) ++ t2). by apply read_ends_app.
Qed.

Lemma read_along_snapshot key consistency o t r l :
  read_along key consistency t r l -> read_along key consistency (EventSnapshot o :: t) r l.
Proof.
  intros [Hr Hc Ht He]. constructor; [|done..]. intros x Hx. destruct (Hr x Hx) as [? (s & ? & ?)].
  split; [done|]. exists s. split; [by right|done].
Qed.

Lemma read_along_last key consistency route s t r :
  routeForKey s key = Ok route -> route_Readable route = true ->
  reads_along route (get_request key consistency route) (2 * routeReadReplicaCount route) t -> read_ends t r ->
  read_along key consistency (EventSnapshot (Some s) :: t) r [route].
Proof.
  intros Hroute Hread [Hb Hg] He. constructor; [| | |done].
  - intros x ->%list_elem_of_singleton. split; [done|]. exists s. split; [left|done].
  - change (gets (_ :: t)) with (gets t). cbn [sum_list_with]. lia.
  - intros g Hin. destruct (Hg g Hin) as (i & result & ? & ?). exists route, i, result. split_and!; [left|done..].
Qed.

(** An attempt that began by loading a snapshot. *)
Lemma read_attempt key consistency s again t r :
  (forall a t r, again = Some a -> ran a t r -> exists l, (length l <= 1)%nat /\ read_along key consistency t r l) ->
  ran (get_once key consistency s again) t r ->
  exists l, (length l <= match again with Some _ => 2 | None => 1 end)%nat /\ read_along key consistency (EventSnapshot (Some s) :: t) r l.
Proof.
  intros Hagain [[Hg He]|[(a & -> & Ha)|(route & Hroute & Hread & t1 & t2 & -> & Hr & Hend)]]%get_once_ran.
  - exists []. split; [cbn; lia|]. by apply read_along_snapshot, read_along_none.
  - destruct (Hagain a t r eq_refl Ha) as (l & Hl & ?). exists l. split; [lia|by apply read_along_snapshot].
  - destruct Hend as [[-> He]|(a & -> & Ha)].
    + exists [route]. split; [cbn; destruct again; lia|]. rw app_nil_r. by apply read_along_last.
    + destruct (Hagain a t2 r eq_refl Ha) as (l & Hl & ?). exists (route :: l). split; [cbn; lia|by apply read_along_cons].
Qed.

(** C38. Reads are bounded, and are answered by replicas of the slot.  Whatever is
    answered, a read uses at most two routes, each a readable route of a snapshot
    the router held, and sends over all at most twice as many requests as these
    routes have read replicas (the tail may get more than two of them, one for
    each replica that could not reach it); every request goes to a read replica
    of such a route under its chain version, and a value that is returned is the
    answer to the last request. *)
Theorem reads_bounded key consistency t r :
  ran (GetWithConsistency key consistency) t r ->
  exists l, (length l <= 2)%nat /\ read_along key consistency t r l.
Proof.
  intros (r0 & t1 & t2 & (o & -> & ->)%loadedSnapshot_ran & -> & Hr)%ran_then.
  destruct o as [s|]; [|destruct Hr as [-> ->]; exists []; split; [cbn; lia|by apply read_along_none; eauto]].
  apply (read_attempt key consistency s _ t2 r) in Hr; [exact Hr|].
  intros a t r' [= <-] [[Ht He]|(s' & t' & -> & Hr')]%refreshed_ran.
  - exists []. split; [cbn; lia|]. apply read_along_none; [|done]. by destruct Ht as [->| ->].
  - by apply (read_attempt key consistency s' None) in Hr'.
Qed.

(** Reads of one slot start at its replicas in turn. *)
Lemma nextReadStart_cycle r slot count : 0 < count -> 0 <= default 0 (router_nextReadReplica r !! slot) ->
  let '(r1, first) := nextReadStart r slot count in
  let '(_, second) := nextReadStart r1 slot count in
  0 <= first < count /\ second = (first + 1) mod count.
Proof.
  intros Hc Hr. unfold nextReadStart. rw (proj2 (Z.leb_gt _ _) Hc). cbn -[Z.rem Z.modulo]. rw lookup_insert_eq. cbn -[Z.rem Z.modulo].
  rw !(Z.rem_mod_nonneg (default 0 _)) //. pose proof (Z.mod_pos_bound (default 0 (router_nextReadReplica r !! slot)) count Hc).
  rw (Z.rem_mod_nonneg (_ + 1)) //; [lia|]. rw Z.rem_mod_nonneg; [by apply Z.mod_pos_bound|done|].
  rw Z.mod_mod; lia.
Qed.

(** A state with the chains of [demo_state]. *)
Definition routed_state : State :=
  {| rt_Version := 1; rt_LastLogIndex := 1; rt_Cluster := demo_state; rt_SlotVersions := {[0 := 1; 1 := 1]};
     rt_CompletedProgressBySlot := ∅; rt_NodeLivenessByID := ∅; rt_PendingBySlot := ∅; rt_Outbox := [];
     rt_LastPolicy := {| policy_MaxChangedChains := 0 |}; rt_AppliedCommands := ∅ |}.

Lemma routes_match_assignments_witness :
  let slot := ChecksumIEEE "k" mod cs_SlotCount demo_state in
  exists chain route, zidx (cs_Chains demo_state) slot = Some chain /\ chain_Slot chain = slot /\
    routeForKey (reduceRoutingSnapshot routed_state ∅ ∅) "k" = Ok route /\
    route_ok (cs_NodesByID demo_state) chain (slot_version (rt_SlotVersions routed_state) slot) route.
Proof.
  pose proof (routes_match_assignments routed_state ∅ ∅ demo_state_wf "k" eq_refl) as (chain & route & Hz & Hs & Hr & Hok).
  exists chain, route. split_and!; [done..|]. rw lookup_empty in Hok. destruct Hok as [Hok _]. unfold route_serves in Hok.
  replace (chainHasUnavailableReplica chain ∅) with false in Hok; [exact Hok|]. clear. symmetry. apply not_true_iff_false.
  intros (r & _ & H)%existsb_exists. by apply andb_true_iff in H as [_ H].
Defined.

(** A client whose snapshot is that of [routed_state], and a chain of three whose
    tail cannot be reached: every replica before it says so, and the tail is
    asked after each. *)
Definition client_answers (X : Type) (c : client_call X) : X :=
  match c with
  | CallRoutingSnapshot => Ok (reduceRoutingSnapshot routed_state ∅ ∅)
  | CallStoreSnapshot _ => tt
  | CallSnapshot => Some (reduceRoutingSnapshot routed_state ∅ ∅)
  | CallNextReadStart _ _ => 0
  | CallGet target _ =>
      Err {| ce_isRoutingMismatch := false; ce_isReadDependencyUnavailable := negb (String.eqb target "c");
             ce_isTransportUnavailable := true; ce_message := target |}
  | CallPut _ _ | CallDelete _ _ => Err ErrSnapshotNotLoaded
  end.

Fixpoint run_client {A} (p : program client_call A) : list client_event * A :=
  match p with
  | Done a => ([], a)
  | Call c k => let x := client_answers _ c in let '(t, a) := run_client (k x) in (event_of c x ++ t, a)
  end.

Lemma run_client_ran {A} (p : program client_call A) : ran p (run_client p).1 (run_client p).2.
Proof.
  induction p as [a|X c k IH]; [done|]. cbn. specialize (IH (client_answers X c)).
  destruct (run_client (k (client_answers X c))) as [t a]. by exists (client_answers X c), t.
Qed.

#[local] Abbreviation read_run := (run_client (GetWithConsistency "k" ReadConsistencyLinearizable)).

Lemma reads_bounded_witness :
  (exists l, (length l <= 2)%nat /\ read_along "k" ReadConsistencyLinearizable read_run.1 read_run.2 l) /\
  (fun g => g.1.1) <$> gets read_run.1 = ["d"; "c"; "b"; "c"; "c"; "d"; "c"; "b"; "c"; "c"].
Proof.
  split; [|vm_compute; reflexivity].
  exact (reads_bounded "k" ReadConsistencyLinearizable _ _ (run_client_ran _)).
Defined.
