(* ===== verification/Chain.v ===== *)
(** * A chain of slot owners

    The owners of one slot, in the order of the coordinator's chain, each with
    the assignment the coordinator's server gives it
    (src/coordserver/server.go), and every way they can interact while the
    membership stays as it is: any owner may answer a client, the journal, a
    timer or a neighbour at any time; whatever an owner has sent may reach any
    owner, late, more than once, out of order or not at all; a completion may
    come with any result.  [rep_log] and [rep_base] are what a proof follows:
    the operations the owner has staged, and the contents of its backend. *)

From S2P Require Import Prelude.
From S2P Require Import CoordTypes.
From S2P Require Import StorageTypes.
From S2P Require Import CoordServer.
From S2P Require Import SlotReducer.
From S2P Require Import SlotOwner.
From S2P Require Import SlotLifecycle.
From S2P Require Import SlotMessages.
From S2P Require Import Backend.
From S2P Require Import SlotProps.
From S2P Require Import SlotTheorems.

Open Scope Z_scope.
Open Scope record_scope.
Import Owner.

Record chain_replica := {
  rep_log : list WriteOperation;
  rep_base : Snapshot;
  rep_owner : ownerRuntime;
}.

Abbreviation rep_record r := (own_record (or_rt (rep_owner r))).
Abbreviation rep_committed r := (rr_highestCommittedSequence (own_record (or_rt (rep_owner r)))).

(** The log with what the record has staged beyond it. *)
Definition extend_log (log : list WriteOperation) (record : replicaRecord) : list WriteOperation :=
  log ++ omap (fun k => rr_preparedEntries record !! (zlength log + 1 + Z.of_nat k))
           (seq 0 (Z.to_nat (rr_nextSequence record - 1 - zlength log))).

Definition after_handler (r : chain_replica) (o : ownerRuntime) : chain_replica :=
  {| rep_log := extend_log (rep_log r) (own_record (or_rt o)); rep_base := rep_base r; rep_owner := o |}.

(** Some owner has started this. *)
Definition sent (w : list chain_replica) (e : owner_effect) : Prop :=
  exists j r, w !! j = Some r /\ e ∈ or_effects (rep_owner r).

Section chain.
Context (chain : Chain) (nodesByID : gmap string Node) (version : Z).

Definition node_at (i : nat) : string := default "" (replica_NodeID <$> chain_Replicas chain !! i).

Definition assignment_at (i : nat) : ReplicaAssignment :=
  default noAssignment (server_assignmentForNode chain nodesByID (node_at i) version).

(** What the owner at position [i] can do in a world [w]. *)
Inductive owner_step (w : list chain_replica) (i : nat) (r : chain_replica) : chain_replica -> Prop :=
| step_submit climits now n kind key value conditions o' n' answer :
    has_room (or_rt (rep_owner r)) -> kind = OperationKindPut \/ kind = OperationKindDelete ->
    handleSubmitWrite (node_at i) (in_backend (rep_base r)) climits now n kind key value conditions (rep_owner r)
      = (o', n', answer) ->
    owner_step w i r (after_handler r o')
| step_forward limits jc target req after resp :
    sent w (EffForward target req after) ->
    owner_step w i r (after_handler r (handleForwardWrite (node_at i) limits jc req resp (rep_owner r)))
| step_advance limits jc target req assignment resp :
    sent w (EffCommitAdvance target req assignment) ->
    owner_step w i r (after_handler r (handleCommitAdvanceRequest (node_at i) limits jc req resp (rep_owner r)))
| step_prepared limits jc prepare after result :
    EffPrepare prepare after ∈ or_effects (rep_owner r) ->
    owner_step w i r (after_handler r (prepareCompleted (node_at i) limits jc prepare after result (rep_owner r)))
| step_range limits jc assignment ready result :
    EffHeadCommitRange assignment ready ∈ or_effects (rep_owner r) ->
    owner_step w i r (after_handler r (headCommitRangeCompleted (node_at i) limits jc ready result (rep_owner r)))
| step_forwarded limits jc target req after result :
    EffForward target req after ∈ or_effects (rep_owner r) ->
    owner_step w i r (after_handler r (forwardCompleted (node_at i) limits jc req after result (rep_owner r)))
| step_advanced target req assignment result :
    EffCommitAdvance target req assignment ∈ or_effects (rep_owner r) ->
    owner_step w i r (after_handler r (commitAdvanceCompleted (node_at i) req assignment result (rep_owner r)))
| step_fetched limits jc plan result install set upsert :
    EffFetchSnapshot plan ∈ or_effects (rep_owner r) ->
    (forall highest, result = Ok highest -> exists j s, i = S j /\ w !! j = Some s /\ highest <= rep_committed s) ->
    owner_step w i r
      (after_handler r (snapshotFetched (node_at i) limits jc install set upsert plan result (rep_owner r)))
| step_drain limits jc :
    owner_step w i r (after_handler r (drainScheduled (node_at i) limits jc (rep_owner r)))
| step_replay :
    owner_step w i r (after_handler r (replayTimerFired (node_at i) (rep_owner r)))
| step_activate upsert :
    owner_step w i r (after_handler r
      ((rep_owner r) <| or_rt := (activateReplicaReady upsert (or_rt (rep_owner r))).1 |>))
| step_release n :
    owner_step w i r (after_handler r
      ((rep_owner r) <| or_rt := (releaseClientWrite (or_rt (rep_owner r)) n).1 |>))
| step_apply h :
    rr_materializedCommittedSequence (rep_record r) <= h <= rep_committed r ->
    owner_step w i r {| rep_log := rep_log r; rep_base := materialise (ztake h (rep_log r));
                        rep_owner := rep_owner r |}
| step_materialised b h :
    rep_base r = materialise (ztake b (rep_log r)) -> b <= rep_committed r ->
    rr_materializedCommittedSequence (rep_record r) <= h <= b ->
    owner_step w i r (after_handler r ((rep_owner r) <| or_rt := markMaterialized (or_rt (rep_owner r)) h |>)).

Definition chain_step (w w' : list chain_replica) : Prop :=
  exists i r r', w !! i = Some r /\ owner_step w i r r' /\ w' = <[i := r']> w.

(** A chain whose owners all start with the same operations, committed and
    [m] of them materialised, and nothing in flight: new replicas that have
    caught up, or replicas recovered from their journals. *)
Record replica_start (log : list WriteOperation) (i : nat) (r : chain_replica) : Prop := {
  rst_log : rep_log r = log;
  rst_assignment : rr_assignment (rep_record r) = assignment_at i;
  rst_record : exists m, restored log m (rep_record r) /\ rep_base r = materialise (ztake m log);
  rst_token : rr_highestCommitTokenReceived (rep_record r) = zlength log;
  rst_buffered : rr_bufferedForwards (rep_record r) = ∅ /\ rr_bufferedCommits (rep_record r) = ∅;
  rst_recent : rr_recentCommittedForwards (rep_record r) = ∅;
  rst_owner : rep_owner r = new_owner (or_rt (rep_owner r));
  rst_runtime : or_rt (rep_owner r) =
    {| own_slot := chain_Slot chain; own_exists := true; own_record := rep_record r; own_committedMetadata := ∅;
       own_progressionGap := false; own_progressionGapSequence := 0 |};
}.

Definition chain_start (w : list chain_replica) : Prop :=
  length w = length (chain_Replicas chain) /\
  exists log, log_ok log /\ zlength log < u64_mod - 2 /\ forall i r, w !! i = Some r -> replica_start log i r.

Definition chain_reachable (w : list chain_replica) : Prop := exists w0, chain_start w0 /\ rtc chain_step w0 w.
End chain.
