(* ===== verification/ChainTheorems.v ===== *)
(** * What a chain promises

    Whatever the owners of a chain do and however their messages are delayed,
    repeated or lost, every replica's log is a prefix of its predecessor's, and
    what a replica has committed its successor has committed too.  So a write
    that is acknowledged is staged, durable and committed on every replica, and
    a read of any replica returns the state after a prefix of the tail's
    committed operations that is current at some moment of the read. *)

From S2P Require Import Prelude.
From S2P Require Import CoordTypes.
From S2P Require Import Placement.
From S2P Require Import Reconfig.
From S2P Require Import ReconfigProps.
From S2P Require Import StorageTypes.
From S2P Require Import Runtime.
From S2P Require Import CoordServer.
From S2P Require Import SlotReducer.
From S2P Require Import SlotOwner.
From S2P Require Import SlotLifecycle.
From S2P Require Import SlotMessages.
From S2P Require Import Backend.
From S2P Require Import SlotProps.
From S2P Require Import SlotTheorems.
From S2P Require Import OwnerProps.
From S2P Require Import OwnerTermination.
From S2P Require Import RouterTheorems.
From S2P Require Import Chain.

Open Scope Z_scope.
Open Scope record_scope.
Import Owner.

(** ** The assignments of a serving chain *)
Record serving (chain : Chain) : Prop := {
  sv_ids : NoDup (ids_of chain);
  sv_names : Forall (fun r => replica_NodeID r <> "") (chain_Replicas chain);
  sv_active : Forall (fun r => is_state ReplicaStateActive r = true) (chain_Replicas chain);
}.

Section chain.
Context (chain : Chain) (nodesByID : gmap string Node) (version : Z).
Context (Hserving : serving chain).

Abbreviation size := (length (chain_Replicas chain)).
Abbreviation node_at := (node_at chain).
Abbreviation assignment_at := (assignment_at chain nodesByID version).

Lemma node_at_lt i : (i < size)%nat -> exists r, chain_Replicas chain !! i = Some r /\ node_at i = replica_NodeID r /\ node_at i <> "".
Proof.
  intros [r Hr]%lookup_lt_is_Some_2. exists r. unfold Chain.node_at. rw Hr. cbn. split; [done|]. split; [done|].
  exact (proj1 (Forall_lookup _ _) (sv_names _ Hserving) _ _ Hr).
Qed.

Lemma node_at_ge i : (size <= i)%nat -> node_at i = "".
Proof. intros Hi. unfold Chain.node_at. by rw lookup_ge_None_2. Qed.

Lemma node_inj i j : (i < size)%nat -> node_at i = node_at j -> i = j.
Proof.
  intros Hi Heq. destruct (node_at_lt i Hi) as (r & Hr & Hn & Hne). destruct (Nat.lt_ge_cases j size) as [Hj|Hj].
  - destruct (node_at_lt j Hj) as (r' & Hr' & Hn' & _).
    apply (NoDup_lookup _ _ _ (replica_NodeID r) (sv_ids _ Hserving)); unfold ids_of, replicaIDs; rw list_lookup_fmap.
    + by rw Hr.
    + rw Hr' /=. congruence.
  - by rw (node_at_ge j Hj) in Heq.
Qed.

Definition node_before (i : nat) : string := match i with O => "" | S j => node_at j end.

Lemma assignment_spec i : (i < size)%nat ->
  PredecessorNodeID (asg_Peers (assignment_at i)) = node_before i /\
  SuccessorNodeID (asg_Peers (assignment_at i)) = node_at (S i) /\
  asg_Role (assignment_at i) = role_at i size /\ TailNodeID (asg_Peers (assignment_at i)) = node_at (size - 1) /\
  asg_Slot (assignment_at i) = chain_Slot chain /\ asg_ChainVersion (assignment_at i) = version.
Proof.
  intros Hi. destruct (node_at_lt i Hi) as (r & Hr & Hn & Hne).
  unfold Chain.assignment_at, server_assignmentForNode, assignmentForNode. rw Hn.
  rw (findReplicaIndex_NoDup chain i r (sv_ids _ Hserving) Hr). cbn -[Nat.ltb]. split_and!; try done.
  - unfold node_before. destruct i as [|j]; [done|]. cbn. by rw Nat.sub_0_r.
  - unfold Chain.node_at. destruct (Nat.ltb_spec (i + 1) size) as [Hlt|Hge]; replace (i + 1)%nat with (S i) in * by lia; [done|].
    by rw lookup_ge_None_2.
  - unfold chain_tail. rw filter_all; [apply (sv_active _ Hserving)|]. rw last_lookup -Nat.sub_1_r. unfold Chain.node_at.
    destruct (node_at_lt (size - 1)) as (l & Hl & _); [lia|]. by rw Hl.
Qed.

(** ** The log of a handler *)
Lemma omap_seq {A} (f : nat -> option A) (l : list A) : (forall k x, l !! k = Some x -> f k = Some x) ->
  omap f (seq 0 (length l)) = l.
Proof.
  induction l as [|x l IH] using rev_ind; intros Hf; [done|].
  rw length_app Nat.add_1_r seq_S omap_app IH.
  - intros k y Hy. apply Hf. by apply lookup_app_l_Some.
  - cbn. rw (Hf (length l) x); [|done]. by rw lookup_app_r // Nat.sub_diag.
Qed.

Lemma extend_eq log log' base rt : slot_inv log' base rt -> log `prefix_of` log' ->
  rr_materializedCommittedSequence (own_record rt) <= zlength log -> extend_log log (own_record rt) = log'.
Proof.
  intros Hi [more ->] Hm. unfold extend_log. f_equal. pose proof (si_next _ _ _ Hi) as Hn.
  replace (Z.to_nat _) with (length more) by (rw Hn; unfold zlength; rw length_app; lia).
  apply omap_seq. intros k op Hk. assert ((log ++ more) !! (length log + k)%nat = Some op) as Hop.
  { rw lookup_app_r; [lia|]. by replace (length log + k - length log)%nat with k by lia. }
  pose proof (lo_sequence _ (si_log _ _ _ Hi) _ _ Hop) as Hs.
  replace (zlength log + 1 + Z.of_nat k) with (op_Sequence op) by (unfold zlength; lia).
  apply (si_prepared _ _ _ Hi _ _ Hop). unfold zlength in *. lia.
Qed.

(** ** The invariant *)
Definition fits (op : WriteOperation) : Prop := supported op /\ op_Sequence op < u64_mod - 2.

(** The operations an owner may be handed: by its clients, or by its
    predecessor. *)
Definition allowed (w : list chain_replica) (i : nat) : WriteOperation -> Prop :=
  match i with
  | O => fits
  | S j => fun op => match w !! j with Some r => op ∈ rep_log r | None => False end
  end.

(** What its successor may have told it. *)
Definition told (w : list chain_replica) (i : nat) : Z :=
  match w !! S i with Some r => rep_committed r | None => 0 end.

Abbreviation owner_at w i := (owner_ok (node_at i) (assignment_at i) (allowed w i) (told w i)).

Record chain_inv (w : list chain_replica) : Prop := {
  ci_length : length w = size;
  ci_owner : forall i r, w !! i = Some r -> owner_at w i (rep_log r) (rep_base r) (rep_owner r);
  ci_fits : forall i r, w !! i = Some r -> Forall fits (rep_log r);
  ci_prefix : forall i r r', w !! i = Some r -> w !! S i = Some r' -> rep_log r' `prefix_of` rep_log r;
}.

Lemma inv_lt w i r : chain_inv w -> w !! i = Some r -> (i < size)%nat.
Proof. intros Hi Hr. rw -(ci_length _ Hi). by apply lookup_lt_Some in Hr. Qed.

Lemma inv_committed w i r r' : chain_inv w -> w !! i = Some r -> w !! S i = Some r' -> rep_committed r <= rep_committed r'.
Proof.
  intros Hi Hr Hr'. pose proof (ow_token _ _ _ _ _ _ _ (ci_owner _ Hi _ _ Hr)) as Ht.
  destruct (assignment_spec i (inv_lt _ _ _ Hi Hr)) as (_ & Hs & _). rw Hs in Ht.
  destruct (node_at_lt (S i) (inv_lt _ _ _ Hi Hr')) as (_ & _ & _ & Hne). rw (proj2 (String.eqb_neq _ _) Hne) in Ht.
  unfold told in Ht. rw Hr' in Ht. lia.
Qed.

Lemma allowed_fits w i op : chain_inv w -> allowed w i op -> fits op.
Proof.
  intros Hi. destruct i as [|j]; [done|]. cbn. destruct (w !! j) as [r|] eqn:Hr; [|done].
  exact (proj1 (Forall_forall _ _) (ci_fits _ Hi _ _ Hr) op).
Qed.

(** ** One owner's step *)
(** What a step of the owner at position [i] keeps. *)
Record local_ok (w : list chain_replica) (i : nat) (r r' : chain_replica) : Prop := {
  lk_owner : owner_at w i (rep_log r') (rep_base r') (rep_owner r');
  lk_log : rep_log r `prefix_of` rep_log r';
  lk_committed : rep_committed r <= rep_committed r';
  lk_new : forall k op, (length (rep_log r) <= k)%nat -> rep_log r' !! k = Some op -> allowed w i op;
}.

Abbreviation grown_at w i r := (grown (node_at i) (assignment_at i) (allowed w i) (told w i)
  (rep_log r) (rep_base r) (rep_committed r) u64_mod).

Lemma grown_start w i r : chain_inv w -> w !! i = Some r -> grown_at w i r (rep_owner r).
Proof.
  intros Hi Hr. exists (rep_log r). pose proof (ci_owner _ Hi _ _ Hr) as Hok. split; [done|]. split; [done|].
  destruct (si_order _ _ _ (ow_inv _ _ _ _ _ _ _ Hok)). pose proof (si_room _ _ _ (ow_inv _ _ _ _ _ _ _ Hok)). split; [lia|].
  intros k op Hk Hop%lookup_lt_Some. lia.
Qed.

Lemma grown_local w i r o : grown_at w i r o -> local_ok w i r (after_handler r o).
Proof.
  intros (log & Hok & Hl & (Hc & Hm & _) & Hf). unfold after_handler.
  rw (extend_eq (rep_log r) log (rep_base r) (or_rt o) (ow_inv _ _ _ _ _ _ _ Hok) Hl Hm). by split.
Qed.

Lemma keeps_local w i r rt : owner_at w i (rep_log r) (rep_base r) (rep_owner r) ->
  slot_inv (rep_log r) (rep_base r) rt ->
  quiet (rep_record r) ((own_record rt) <| rr_materializedCommittedSequence := rr_materializedCommittedSequence (rep_record r) |>) ->
  rr_highestCommittedSequence (own_record rt) = rep_committed r ->
  local_ok w i r (after_handler r ((rep_owner r) <| or_rt := rt |>)).
Proof.
  intros Hok Hi Hq Hc. unfold after_handler. cbn [or_rt]. destruct (si_order _ _ _ Hi).
  rw (extend_eq (rep_log r) (rep_log r) (rep_base r) rt Hi (reflexivity _)); [lia|].
  split; [by apply owner_keeps|done|cbn; lia|]. intros k op Hk Hop%lookup_lt_Some. cbn in Hop. lia.
Qed.

(** A replica below the head takes no writes. *)
Lemma submit_refused i get climits now n kind key value conditions o o' n' answer :
  (S i < size)%nat -> rr_assignment (record_of o) = assignment_at (S i) ->
  handleSubmitWrite (node_at (S i)) get climits now n kind key value conditions o = (o', n', answer) -> o' = o.
Proof.
  intros Hlt Ha. unfold handleSubmitWrite, SlotOwner.handleSubmitWrite.
  assert (o <| or_rt := or_rt o |> = o) as Ho by by destruct o.
  destruct (activeRecord (or_rt o)) as [record|e] eqn:Hact; [|intros (<- & _)%triple_eq; exact Ho].
  assert (record = record_of o) as ->.
  { unfold activeRecord in Hact. apply bind_Ok in Hact as (u1 & _ & (u2 & _ & (u3 & _ & H)%bind_Ok)%bind_Ok).
    by injection H as <-. }
  destruct (assignment_spec (S i) Hlt) as (_ & _ & Hrole & _). rw Ha Hrole.
  assert (role_at (S i) size = ReplicaRoleTail \/ role_at (S i) size = ReplicaRoleMiddle) as Hr.
  { unfold role_at. destruct (Nat.eqb_spec size 1); [lia|]. destruct (S i =? 0)%nat eqn:E; [done|].
    destruct (S i =? size - 1)%nat; auto. }
  destruct Hr as [-> | ->]; intros (<- & _)%triple_eq; exact Ho.
Qed.

(** ** Messages *)
(** A forward that claims to come from the predecessor carries one of its
    operations. *)
Lemma sent_forward w i target req after : chain_inv w -> (i < size)%nat -> sent w (EffForward target req after) ->
  (fwd_FromNodeID req = PredecessorNodeID (asg_Peers (assignment_at i)) -> allowed w i (fwd_Operation req)) /\
  (SuccessorNodeID (asg_Peers (assignment_at i)) = "" -> ~ commits_itself (assignment_at i)).
Proof.
  intros Hi Hlt (j & s & Hj & He). pose proof (inv_lt _ _ _ Hi Hj) as Hjlt.
  pose proof (proj1 (Forall_forall _ _) (ow_effects _ _ _ _ _ _ _ (ci_owner _ Hi _ _ Hj)) _ He) as (Hop & Hfrom & Hsucc).
  destruct (assignment_spec j Hjlt) as (_ & Hs & _). rw Hs in Hsucc.
  destruct (assignment_spec i Hlt) as (Hpred & Hsi & Hrole & _). rw Hpred Hsi Hfrom. split.
  - intros Hn. destruct i as [|k]; cbn in Hn |- *.
    + destruct (node_at_lt j Hjlt) as (_ & _ & _ & Hne). done.
    + apply (node_inj j k Hjlt) in Hn as ->. by rw Hj.
  - intros Hend. assert (size <= S i)%nat as Hge.
    { destruct (Nat.lt_ge_cases (S i) size) as [Hc|]; [|done]. by destruct (node_at_lt _ Hc) as (_ & _ & _ & ?). }
    assert (S j < size)%nat as Hj'.
    { destruct (Nat.lt_ge_cases (S j) size) as [|Hc]; [done|]. by rw (node_at_ge _ Hc) in Hsucc. }
    unfold commits_itself. rw Hrole. unfold role_at. rw (proj2 (Nat.eqb_neq size 1)); [lia|].
    rw (proj2 (Nat.eqb_neq i 0)); [lia|]. rw (proj2 (Nat.eqb_eq i (size - 1))); [lia|]. by intros [|].
Qed.

Lemma sent_advance w i target req assignment : chain_inv w -> (i < size)%nat ->
  sent w (EffCommitAdvance target req assignment) ->
  ca_FromNodeID req = SuccessorNodeID (asg_Peers (assignment_at i)) -> ca_CommittedThrough req <= told w i.
Proof.
  intros Hi Hlt (j & s & Hj & He) Hn. pose proof (inv_lt _ _ _ Hi Hj) as Hjlt.
  pose proof (proj1 (Forall_forall _ _) (ow_effects _ _ _ _ _ _ _ (ci_owner _ Hi _ _ Hj)) _ He) as (Hc & Hfrom).
  destruct (assignment_spec i Hlt) as (_ & Hsi & _). rw Hsi Hfrom in Hn. apply (node_inj j (S i) Hjlt) in Hn as ->.
  unfold told. by rw Hj.
Qed.

Lemma own_effect w i r e : chain_inv w -> w !! i = Some r -> e ∈ or_effects (rep_owner r) ->
  forall log, owner_ok (node_at i) (assignment_at i) (allowed w i) (told w i) log (rep_base r) (rep_owner r) ->
  effect_ok (node_at i) (assignment_at i) log (rep_committed r) e.
Proof. intros Hi Hr He log Hok. exact (proj1 (Forall_forall _ _) (ow_effects _ _ _ _ _ _ _ Hok) _ He). Qed.

Lemma local_step w i r r' : chain_inv w -> w !! i = Some r -> owner_step chain w i r r' -> local_ok w i r r'.
Proof.
  intros Hi Hr Hstep. pose proof (inv_lt _ _ _ Hi Hr) as Hlt. pose proof (grown_start w i r Hi Hr) as Hg.
  pose proof (ci_owner _ Hi _ _ Hr) as Hok. pose proof (fun op => allowed_fits w i op Hi) as Hfits.
  pose proof (own_effect w i r) as Hown. destruct Hstep.
  - destruct i as [|i].
    + apply grown_local. eapply grown_submit; [done|exact Hg|intros op ? ?; by split|exact H|exact H0|exact H1].
    + apply (submit_refused i) in H1 as ->; [by apply grown_local|done|apply Hok].
  - destruct (sent_forward _ _ _ _ _ Hi Hlt H). by apply grown_local, grown_handle_forward.
  - apply grown_local, grown_handle_advance; [done|done|]. by apply (sent_advance w i target req assignment).
  - apply grown_local, grown_prepared; [done|done| |].
    + intros log Hl. exact (Hown _ Hi Hr H log Hl).
    + destruct (proj1 (Forall_forall _ _) (ci_fits _ Hi _ _ Hr) _ (Hown _ Hi Hr H _ Hok)). lia.
  - by apply grown_local, grown_range_completed.
  - destruct (Hown _ Hi Hr H _ Hok) as (_ & _ & Hs). apply grown_local, grown_forwarded; [done|done|done|].
    intros log Hl. apply (Hown _ Hi Hr H log Hl).
  - by apply grown_local, grown_advanced.
  - apply grown_local, grown_fetched; [done|done|]. intros h Hh. destruct (H0 h Hh) as (j & s & -> & Hj & Hle).
    exact (transitivity Hle (inv_committed _ _ _ _ Hi Hj Hr)).
  - by apply grown_local, grown_drain_scheduled.
  - by apply grown_local, grown_replay_timer.
  - apply keeps_local; [done|by apply activate_advances, Hok| |]; unfold activateReplicaReady; destruct (negb _); try done; destruct (rr_state _); done.
  - apply keeps_local; [done|by apply release_advances, Hok| |]; unfold releaseClientWrite; destruct (negb _); try done; destruct (_ <? _); done.
  - split; [by apply owner_base with (rep_base r)|done|cbn; lia|]. intros k op Hk Hop%lookup_lt_Some. cbn in Hop. lia.
  - pose proof (ow_inv _ _ _ _ _ _ _ Hok) as Hinv. apply keeps_local; [done|by apply (markMaterialized_inv _ _ _ b)| |];
      unfold markMaterialized; rw (si_exists _ _ _ Hinv); cbn [negb own_record]; rw prune_eq; try lia; done.
Qed.

(** ** Every step *)
Lemma prefix_lookups {A} (l k : list A) : (forall i x, l !! i = Some x -> k !! i = Some x) -> l `prefix_of` k.
Proof.
  revert k. induction l as [|x l IH]; intros k Hk; [apply prefix_nil|].
  pose proof (Hk 0%nat x eq_refl) as H0. destruct k as [|y k]; [done|]. injection H0 as ->.
  apply prefix_cons, IH. intros i z Hz. exact (Hk (S i) z Hz).
Qed.

Section step.
Context (w : list chain_replica) (i : nat) (r r' : chain_replica).
Context (Hinv : chain_inv w) (Hr : w !! i = Some r) (Hlocal : local_ok w i r r').

Abbreviation w' := (<[i := r']> w).

(** Every replica only gains. *)
Lemma step_gains j s : w !! j = Some s -> exists s', w' !! j = Some s' /\ rep_log s `prefix_of` rep_log s' /\
  rep_committed s <= rep_committed s'.
Proof.
  intros Hj. destruct (decide (j = i)) as [->|Hne].
  - rw Hr in Hj. injection Hj as <-. exists r'. rw list_lookup_insert_eq; [by apply lookup_lt_Some in Hr|].
    split; [done|]. split; apply Hlocal.
  - exists s. rw list_lookup_insert_ne; [congruence|]. split; [done|]. split; [done|lia].
Qed.

Lemma step_allowed j op : allowed w j op -> allowed w' j op.
Proof.
  destruct j as [|j]; [done|]. cbn. destruct (w !! j) as [s|] eqn:Hj; [|done].
  destruct (step_gains j s Hj) as (s' & -> & [more ->] & _). set_solver.
Qed.

Lemma step_told j : told w j <= told w' j.
Proof.
  unfold told. destruct (w !! S j) as [s|] eqn:Hj.
  - by destruct (step_gains (S j) s Hj) as (s' & -> & _ & ?).
  - rw lookup_ge_None_2; [rw length_insert; by apply lookup_ge_None_1|]. lia.
Qed.

Lemma new_lookup j s : w' !! j = Some s -> j = i /\ s = r' \/ j <> i /\ w !! j = Some s.
Proof. intros [[-> [-> _]]|[? ?]]%list_lookup_insert_Some; auto. Qed.

(** The operations that are new came from the predecessor, at their place. *)
Lemma step_prefix j s : i = S j -> w !! j = Some s -> rep_log r' `prefix_of` rep_log s.
Proof.
  intros Hij Hj. apply prefix_lookups. intros k op Hop.
  destruct (Nat.lt_ge_cases k (length (rep_log r))) as [Hk|Hk].
  - destruct (lk_log _ _ _ _ Hlocal) as [more Hmore]. rw Hmore lookup_app_l // in Hop.
    pose proof Hr as Hr0. rw Hij in Hr0. destruct (ci_prefix _ Hinv _ _ _ Hj Hr0) as [rest ->]. by apply lookup_app_l_Some.
  - pose proof (lk_new _ _ _ _ Hlocal k op Hk Hop) as Hal. rw Hij /= Hj in Hal.
    pose proof (lo_sequence _ (si_log _ _ _ (ow_inv _ _ _ _ _ _ _ (lk_owner _ _ _ _ Hlocal))) _ _ Hop) as Hs.
    apply list_elem_of_lookup in Hal as [k' Hk'].
    pose proof (lo_sequence _ (si_log _ _ _ (ow_inv _ _ _ _ _ _ _ (ci_owner _ Hinv _ _ Hj))) _ _ Hk') as Hs'.
    by replace k with k' by lia.
Qed.

Lemma step_fits : Forall fits (rep_log r').
Proof.
  apply Forall_lookup. intros k op Hop. destruct (Nat.lt_ge_cases k (length (rep_log r))) as [Hk|Hk].
  - destruct (lk_log _ _ _ _ Hlocal) as [more Hmore]. rw Hmore lookup_app_l // in Hop.
    exact (proj1 (Forall_lookup _ _) (ci_fits _ Hinv _ _ Hr) _ _ Hop).
  - by apply (allowed_fits w i), (lk_new _ _ _ _ Hlocal k).
Qed.

Lemma step_inv : chain_inv w'.
Proof.
  split.
  - rw length_insert. apply Hinv.
  - intros j s Hj. apply (owner_mono _ _ (allowed w j) (told w j)); [apply step_allowed|apply step_told|].
    apply new_lookup in Hj as [[-> ->]|[_ Hj]]; [apply Hlocal|by apply Hinv].
  - intros j s [[-> ->]|[_ Hj]]%new_lookup; [apply step_fits|by apply (ci_fits _ Hinv j)].
  - intros j s s' [[-> ->]|[_ Hj]]%new_lookup [[Hij ->]|[_ Hj']]%new_lookup.
    + lia.
    + etrans; [exact (ci_prefix _ Hinv _ _ _ Hr Hj')|apply Hlocal].
    + by apply (step_prefix j).
    + exact (ci_prefix _ Hinv _ _ _ Hj Hj').
Qed.
End step.

Lemma chain_step_inv w w' : chain_inv w -> chain_step chain w w' -> chain_inv w'.
Proof. intros Hi (i & r & r' & Hr & Hs & ->). apply (step_inv w i r r' Hi Hr). by apply local_step. Qed.

(** ** The start *)
Lemma start_owner log i r fw tok : (i < size)%nat -> log_ok log -> zlength log < u64_mod - 2 ->
  replica_start chain nodesByID version log i r -> ((S i < size)%nat -> zlength log <= tok) ->
  owner_ok (node_at i) (assignment_at i) fw tok (rep_log r) (rep_base r) (rep_owner r).
Proof.
  intros Hlt Hl Hroom [-> Ha (m & Hrs & ->) Ht [Hb Hbc] Hrec Ho Hrt] Htok. split.
  - rw Hrt. apply restored_inv; [done|lia|done].
  - done.
  - rw Hb. intros s req. by rw lookup_empty.
  - unfold forwards_from. rw Hrec (rs_staged _ _ _ Hrs). split; apply map_Forall_empty.
  - destruct (assignment_spec i Hlt) as (_ & Hs & _). rw Hs Ht (rs_durable _ _ _ Hrs) (rs_committed _ _ _ Hrs).
    destruct (String.eqb_spec (node_at (S i)) "") as [He|He]; [lia|]. rw Z.max_id. apply Htok.
    destruct (Nat.lt_ge_cases (S i) size) as [|Hge]; [done|]. by rw (node_at_ge _ Hge) in He.
  - done.
  - by rw Ho.
  - by rw Ho.
  - rw Ho. constructor.
Qed.

Lemma chain_start_inv w : chain_start chain nodesByID version w -> chain_inv w.
Proof.
  intros (Hlen & log & Hl & Hroom & Hr). split; [done|..].
  - intros i r Hi. apply (start_owner log i); try done; [rw -Hlen; by apply lookup_lt_Some in Hi|by apply Hr|].
    intros Hlt. unfold told. destruct (lookup_lt_is_Some_2 w (S i)) as [s Hs]; [by rw Hlen|]. rw Hs.
    destruct (rst_record _ _ _ _ _ _ (Hr _ _ Hs)) as (m & Hrs & _). rw (rs_committed _ _ _ Hrs). lia.
  - intros i r Hi. rw (rst_log _ _ _ _ _ _ (Hr _ _ Hi)). apply Forall_lookup. intros k op Hop.
    split; [exact (proj1 (Forall_lookup _ _) (lo_supported _ Hl) _ _ Hop)|]. rw (lo_sequence _ Hl _ _ Hop).
    apply lookup_lt_Some in Hop. unfold zlength in Hroom. lia.
  - intros i r r' Hi Hi'. by rw (rst_log _ _ _ _ _ _ (Hr _ _ Hi)) (rst_log _ _ _ _ _ _ (Hr _ _ Hi')).
Qed.

Lemma chain_reachable_inv w : chain_reachable chain nodesByID version w -> chain_inv w.
Proof.
  intros (w0 & H0%chain_start_inv & Hs). induction Hs as [|w1 w2 w3 H12 _ IH]; [done|]. apply IH. by apply (chain_step_inv w1).
Qed.

(** ** Order and progress *)
Lemma chain_order w i j r s : chain_inv w -> (i <= j)%nat -> w !! i = Some r -> w !! j = Some s ->
  rep_log s `prefix_of` rep_log r /\ rep_committed r <= rep_committed s.
Proof.
  intros Hi Hle Hr. revert s. induction Hle as [|j Hle IH]; intros s Hs.
  - rw Hr in Hs. injection Hs as <-. split; [done|lia].
  - destruct (lookup_lt_is_Some_2 w j) as [t Ht]; [apply lookup_lt_Some in Hs; lia|]. destruct (IH t Ht) as [Hl Hc].
    pose proof (inv_committed _ _ _ _ Hi Ht Hs). split; [|lia]. exact (transitivity (ci_prefix _ Hi _ _ _ Ht Hs) Hl).
Qed.

Lemma chain_progress w w' : chain_inv w -> rtc (chain_step chain) w w' -> chain_inv w' /\
  forall j s, w !! j = Some s -> exists s', w' !! j = Some s' /\ rep_log s `prefix_of` rep_log s' /\
    rep_committed s <= rep_committed s'.
Proof.
  intros Hi Hs. induction Hs as [w|w1 w2 w3 H12 _ IH].
  - split; [done|]. intros j s Hj. exists s. split; [done|]. split; [done|lia].
  - destruct (IH (chain_step_inv _ _ Hi H12)) as [Hi3 H23]. split; [done|]. intros j s Hj.
    destruct H12 as (i & r & r' & Hr & Hst & ->). pose proof (local_step _ _ _ _ Hi Hr Hst) as Hlocal.
    destruct (step_gains w1 i r r' Hr Hlocal j s Hj) as (s2 & H2 & Hl & Hc).
    destruct (H23 j s2 H2) as (s3 & H3 & Hl' & Hc'). exists s3. split; [done|]. split; [exact (transitivity Hl Hl')|lia].
Qed.

Lemma log_at w j s : chain_inv w -> w !! j = Some s -> rep_committed s <= zlength (rep_log s) /\ 0 <= rep_committed s /\
  rep_committed s <= rr_highestPreparedDurable (rep_record s).
Proof. intros Hi Hj. destruct (si_order _ _ _ (ow_inv _ _ _ _ _ _ _ (ci_owner _ Hi _ _ Hj))). lia. Qed.

Lemma common_take {A} (n : Z) (l l' k : list A) : l `prefix_of` k -> l' `prefix_of` k -> n <= zlength l -> n <= zlength l' ->
  ztake n l = ztake n l'.
Proof. intros [x ->] [y Hy] Hl Hl'. unfold ztake, zlength in *. rw -(take_app_le l x); [lia|]. by rw Hy take_app_le; [lia|]. Qed.

Lemma ztake_min {A} (n : Z) (l : list A) : ztake n l = ztake (Z.min n (zlength l)) l.
Proof.
  unfold ztake, zlength. destruct (Z.le_ge_cases n (Z.of_nat (length l))); [by rw Z.min_l|]. rw Z.min_r //.
  rw !take_ge //; lia.
Qed.

(** C1. A write the head has acknowledged is, from then on and whatever the
    replicas and the network do, at its place in the log of every replica of
    the chain, committed there, and covered by what the replica's journal has
    acknowledged.  (The chain keeps its members and no replica restarts.) *)
Theorem acknowledged_write_everywhere w w' head s :
  chain_reachable chain nodesByID version w -> w !! 0%nat = Some head ->
  EffWaiter s (Ok tt) ∈ or_effects (rep_owner head) -> rtc (chain_step chain) w w' ->
  exists op, op_Sequence op = s /\ forall j t, w' !! j = Some t ->
    rep_log t !! Z.to_nat (s - 1) = Some op /\ s <= rep_committed t <= rr_highestPreparedDurable (rep_record t).
Proof.
  intros Hi%chain_reachable_inv Hh He Hs. pose proof (ci_owner _ Hi _ _ Hh) as Hok.
  pose proof (proj1 (Forall_forall _ _) (ow_effects _ _ _ _ _ _ _ Hok) _ He) as Hle. cbn in Hle.
  destruct (log_at _ _ _ Hi Hh) as (Hlen & _).
  destruct (lookup_lt_is_Some_2 (rep_log head) (Z.to_nat (s - 1))) as [op Hop]; [unfold zlength in Hlen; lia|].
  destruct (chain_progress _ _ Hi Hs) as [Hi' Hgain]. destruct (Hgain _ _ Hh) as (head' & Hh' & [more Hmore] & Hc).
  exists op. split; [rw (lo_sequence _ (si_log _ _ _ (ow_inv _ _ _ _ _ _ _ Hok)) _ _ Hop); lia|]. intros j t Ht.
  destruct (chain_order _ 0 j head' t Hi' ltac:(lia) Hh' Ht) as [[rest Hrest] Hct].
  destruct (log_at _ _ _ Hi' Ht) as (Hlt & _ & Hd). split; [|lia].
  assert (rep_log head' !! Z.to_nat (s - 1) = Some op) as Hop'.
  { rw Hmore. by apply lookup_app_l_Some. }
  rw Hrest lookup_app_l // in Hop'. unfold zlength in Hlt. lia.
Qed.

(** C3. The replicas of a chain agree: a replica's log is a prefix of its
    predecessor's, what it has committed is a prefix of what its successor has
    committed, and both only grow. *)
Theorem chain_replicas_agree w w' i j r s :
  chain_reachable chain nodesByID version w -> rtc (chain_step chain) w w' ->
  (i <= j)%nat -> w !! i = Some r -> w' !! j = Some s ->
  committed_prefix (rep_log r) (or_rt (rep_owner r)) `prefix_of` committed_prefix (rep_log s) (or_rt (rep_owner s)) /\
  exists r', w' !! i = Some r' /\ rep_log r `prefix_of` rep_log r' /\ rep_log s `prefix_of` rep_log r'.
Proof.
  intros Hi%chain_reachable_inv Hs Hle Hr Hj. destruct (chain_progress _ _ Hi Hs) as [Hi' Hgain].
  destruct (Hgain _ _ Hr) as (r' & Hr' & Hl & Hc). destruct (chain_order _ _ _ _ _ Hi' Hle Hr' Hj) as [Hl' Hc'].
  destruct (log_at _ _ _ Hi Hr) as (H1 & H2 & _). destruct (log_at _ _ _ Hi' Hj) as (H3 & H4 & _).
  split; [|by exists r']. unfold committed_prefix. rw (common_take _ (rep_log r) (rep_log s) (rep_log r')) //; [lia|].
  apply prefix_ztake; [lia|lia|done|lia].
Qed.

(** C2. Reads of a chain are linearizable: whatever replica answers, and
    whatever the chain does between the moment it looks at its own state and
    the moment the tail answers with its committed sequence, the result is the
    state after some prefix of the tail's log that includes all the tail had
    committed at the first moment, so every write acknowledged before the read,
    and nothing it had not committed at the second. *)
Theorem chain_read_linearizable w w' i r tail tail' fetch req :
  chain_reachable chain nodesByID version w -> rtc (chain_step chain) w w' ->
  w !! i = Some r -> w !! (size - 1)%nat = Some tail -> w' !! (size - 1)%nat = Some tail' ->
  let record := rep_record r in
  let peers := asg_Peers (rr_assignment record) in
  rr_state record = StateActive -> get_ExpectedChainVersion req = version -> get_Slot req = own_slot (or_rt (rep_owner r)) ->
  normalizeReadConsistency (get_Consistency req) = ReadConsistencyLinearizable ->
  fetch (peerTransportTarget (TailTarget peers) (TailNodeID peers)) (get_Slot req) = Ok (rep_committed tail') ->
  exists k, rep_committed tail <= k <= rep_committed tail' /\
    handleClientGet (in_backend (rep_base r)) fetch (or_rt (rep_owner r)) req =
    Ok (read_of req record (materialise (ztake k (rep_log tail')) !! get_Key req)).
Proof.
  intros Hi%chain_reachable_inv Hs Hr Ht Ht' record peers Hst Hv Hslot Hcons Hf.
  pose proof (inv_lt _ _ _ Hi Hr) as Hlt. destruct (chain_progress _ _ Hi Hs) as [Hi' Hgain].
  pose proof (ci_owner _ Hi _ _ Hr) as Hok. pose proof (ow_assignment _ _ _ _ _ _ _ Hok) as Ha.
  destruct (assignment_spec i Hlt) as (_ & _ & Hrole & Htail & _ & Hver).
  set (c := {| sc_log := rep_log r; sc_base := rep_base r; sc_rt := or_rt (rep_owner r) |}).
  assert (config_inv c) as Hc by apply Hok.
  assert (asg_ChainVersion (rr_assignment record) = get_ExpectedChainVersion req) as Hv' by (unfold record; rw Ha Hver; done).
  destruct (Hgain _ _ Hr) as (r' & Hr' & Hlr & _). destruct (Hgain _ _ Ht) as (t2 & Ht2 & Hlt2 & Hct).
  rw Ht' in Ht2. injection Ht2 as <-.
  destruct (chain_order _ i (size - 1) r tail Hi ltac:(lia) Hr Ht) as [Hpre Hcom].
  destruct (chain_order _ i (size - 1) r' tail' Hi' ltac:(lia) Hr' Ht') as [Hpre' _].
  destruct (log_at _ _ _ Hi Ht) as (L1 & L2 & _). destruct (log_at _ _ _ Hi' Ht') as (L3 & L4 & _).
  destruct (log_at _ _ _ Hi Hr) as (L5 & L6 & _).
  destruct (decide (i = size - 1)%nat) as [->|Hne].
  - rw Hr in Ht. injection Ht as <-. exists (rep_committed r). split; [lia|].
    apply (get_answers c); [done|done|done|]. rw (common_take _ (rep_log tail') (rep_log r) (rep_log r')) //; [lia|].
    unfold resolveRead. rw Hslot (committedObject_spec _ _ _ (get_Key req) Hc). cbn [mbind res_bind].
    fold record in Ha. rw Ha Hrole Hcons. unfold role_at. rw Nat.eqb_refl.
    destruct (Nat.eqb_spec size 1); [done|]. destruct (Nat.eqb_spec (size - 1) 0); [lia|done].
  - exists (Z.min (rep_committed tail') (zlength (rep_log r))). split.
    { split; [|lia]. destruct Hpre as [more Hmore]. unfold zlength in *. rw Hmore length_app. lia. }
    apply (get_answers c); [done|done|done|].
    assert (asg_Role (rr_assignment record) <> ReplicaRoleTail /\ asg_Role (rr_assignment record) <> ReplicaRoleSingle) as [R1 R2].
    { unfold record. rw Ha Hrole. unfold role_at. rw (proj2 (Nat.eqb_neq size 1)); [lia|].
      destruct (i =? 0)%nat; [done|]. by rw (proj2 (Nat.eqb_neq i (size - 1))). }
    rw (resolveRead_spec c fetch req (rep_committed tail') (get_Consistency req)) //.
    + unfold peerTransportTarget. destruct (negb _) eqn:E; [by apply negb_true_iff, String.eqb_neq in E|].
      cbn. rw Ha Htail. destruct (node_at_lt (size - 1)) as (_ & _ & _ & ?); [lia|done].
    + cbn [sc_log sc_rt c]. rw Z.max_r; [lia|]. rw (ztake_min (rep_committed tail')).
      by rw (common_take _ (rep_log r) (rep_log tail') (rep_log r')) //; lia.
Qed.
End chain.

(** ** Runs
    A schedule is a list of events; an event names the effect it delivers or
    completes by the owner that started it and its number. *)
Inductive chain_event :=
| EvPut (now : Z) (key value : string)
| EvDeliver (i j n : nat)
| EvComplete (i n : nat)
| EvDrain (i : nat).

Section run.
Context (chain : Chain).

Definition run_limits : slotProtocolBufferLimits :=
  {| perSlotLimit := 16; perNodeLimit := 0; nodeBufferedNow := 0 |}.

Definition effect_of (w : list chain_replica) (j n : nat) : option owner_effect :=
  r ← w !! j; or_effects (rep_owner r) !! n.

Definition handle (w : list chain_replica) (i : nat) (f : ownerRuntime -> ownerRuntime) : option (list chain_replica) :=
  r ← w !! i; Some (<[i := after_handler r (f (rep_owner r))]> w).

Definition run_event (w : list chain_replica) (e : chain_event) : option (list chain_replica) :=
  match e with
  | EvPut now key value =>
      r ← w !! 0%nat;
      if rr_nextSequence (rep_record r) <? u64_mod - 2
      then handle w 0 (fun o => (handleSubmitWrite (node_at chain 0) (in_backend (rep_base r)) no_limits now 0
             OperationKindPut key value no_conditions o).1.1)
      else None
  | EvDeliver i j n =>
      match effect_of w j n with
      | Some (EffForward _ req _) => handle w i (handleForwardWrite (node_at chain i) run_limits 0 req 0)
      | Some (EffCommitAdvance _ req _) => handle w i (handleCommitAdvanceRequest (node_at chain i) run_limits 0 req 0)
      | _ => None
      end
  | EvComplete i n =>
      match effect_of w i n with
      | Some (EffPrepare prepare after) => handle w i (prepareCompleted (node_at chain i) run_limits 0 prepare after (Ok tt))
      | Some (EffHeadCommitRange _ ready) => handle w i (headCommitRangeCompleted (node_at chain i) run_limits 0 ready (Ok tt))
      | Some (EffForward _ req after) => handle w i (forwardCompleted (node_at chain i) run_limits 0 req after (Ok tt))
      | Some (EffCommitAdvance _ req a) => handle w i (commitAdvanceCompleted (node_at chain i) req a (Ok tt))
      | _ => None
      end
  | EvDrain i => handle w i (drainScheduled (node_at chain i) run_limits 0)
  end.

Fixpoint run_events (w : list chain_replica) (events : list chain_event) : option (list chain_replica) :=
  match events with
  | [] => Some w
  | e :: events => w ← run_event w e; run_events w events
  end.

Lemma handle_step w i f w' : (forall r, w !! i = Some r -> owner_step chain w i r (after_handler r (f (rep_owner r)))) ->
  handle w i f = Some w' -> chain_step chain w w'.
Proof. intros Hf (r & Hr & [= <-])%bind_Some. exists i, r. eexists. split; [done|]. split; [by apply Hf|done]. Qed.

Lemma effect_sent w j n e : effect_of w j n = Some e -> sent w e /\ forall r, w !! j = Some r -> e ∈ or_effects (rep_owner r).
Proof.
  intros (r & Hr & He)%bind_Some. apply list_elem_of_lookup_2 in He. split; [by exists j, r|].
  intros r' Hr'. congruence.
Qed.

Lemma run_event_step w e w' : run_event w e = Some w' -> chain_step chain w w'.
Proof.
  destruct e as [now key value|i j n|i n|i]; cbn [run_event].
  - intros (r & Hr & H)%bind_Some. destruct (Z.ltb_spec (rr_nextSequence (rep_record r)) (u64_mod - 2)) as [Hroom|]; [|done].
    revert H. apply handle_step. intros r' Hr'. rw Hr in Hr'. injection Hr' as <-.
    destruct (handleSubmitWrite _ _ _ _ _ _ _ _ _ _) as [[o' n'] answer] eqn:Hh.
    eapply step_submit; [exact Hroom|by left|exact Hh].
  - destruct (effect_of w j n) as [[]|] eqn:He; try done; apply effect_sent in He as [He _];
      apply handle_step; intros r Hr; [eapply step_forward; exact He|eapply step_advance; exact He].
  - destruct (effect_of w i n) as [[]|] eqn:He; try done; apply effect_sent in He as [_ He];
      apply handle_step; intros r Hr; specialize (He r Hr);
      [eapply step_prepared; exact He|eapply step_forwarded; exact He|eapply step_range; exact He|eapply step_advanced; exact He].
  - apply handle_step. intros r Hr. apply step_drain.
Qed.

Lemma run_events_steps events : forall w w', run_events w events = Some w' -> rtc (chain_step chain) w w'.
Proof.
  induction events as [|e events IH]; intros w w'; cbn [run_events]; [intros [= ->]; constructor|].
  intros (w1 & H1 & H2)%bind_Some. eapply rtc_l; [exact (run_event_step _ _ _ H1)|exact (IH _ _ H2)].
Qed.
End run.

(** A chain of three: one write goes down the chain and its commit comes back. *)
Definition abc : Chain :=
  {| chain_Slot := 0; chain_Replicas :=
      [{| replica_NodeID := "a"; replica_State := ReplicaStateActive |};
       {| replica_NodeID := "b"; replica_State := ReplicaStateActive |};
       {| replica_NodeID := "c"; replica_State := ReplicaStateActive |}] |}.

Definition empty_replica (i : nat) : chain_replica :=
  {| rep_log := []; rep_base := ∅;
     rep_owner := new_owner {| own_slot := 0; own_exists := true;
       own_record := recoveredRecord (assignment_at abc ∅ 1 i) 0; own_committedMetadata := ∅;
       own_progressionGap := false; own_progressionGapSequence := 0 |} |}.

Definition abc_start : list chain_replica := empty_replica <$> seq 0 3.

Lemma abc_serving : serving abc.
Proof. split; [apply NoDup_ListNoDup; repeat constructor; cbn; naive_solver|by repeat constructor..]. Qed.

Lemma abc_starts : chain_start abc ∅ 1 abc_start.
Proof.
  split; [done|]. exists []. split; [by split|]. split; [by vm_compute|].
  intros i r Hr. unfold abc_start in Hr. rw list_lookup_fmap in Hr. apply fmap_Some in Hr as (k & Hk & ->).
  apply lookup_seq in Hk as [-> _]. split; try done.
  exists 0. split; [|done]. by apply (materialised_restored []).
Qed.

(** The write is staged everywhere and committed by the tail; the head does not
    know yet. *)
Definition down_events : list chain_event := [EvPut 100 "k" "v"; EvDeliver 1 0 1; EvDeliver 2 1 1; EvComplete 2 0].
(** The commit comes back, the head acknowledges. *)
Definition up_events : list chain_event :=
  [EvDeliver 1 2 2; EvComplete 1 0; EvComplete 0 0; EvDeliver 0 1 4; EvComplete 0 2].

Definition world_after (events : list chain_event) : list chain_replica :=
  default [] (run_events abc abc_start events).

Definition rep_at (w : list chain_replica) (i : nat) : chain_replica := default (empty_replica i) (w !! i).

Lemma world_reached events : bool_decide (is_Some (run_events abc abc_start events)) = true ->
  chain_reachable abc ∅ 1 (world_after events).
Proof.
  intros [w Hw]%bool_decide_eq_true. exists abc_start. split; [apply abc_starts|]. unfold world_after. rw Hw.
  exact (run_events_steps abc events _ _ Hw).
Qed.

Definition acked : list chain_replica := world_after (down_events ++ up_events).

Lemma acknowledged_write_everywhere_witness :
  EffWaiter 1 (Ok tt) ∈ or_effects (rep_owner (rep_at acked 0)) /\
  exists op, op_Sequence op = 1 /\ forall j t, acked !! j = Some t ->
    rep_log t !! 0%nat = Some op /\ 1 <= rep_committed t <= rr_highestPreparedDurable (rep_record t).
Proof.
  assert (EffWaiter 1 (Ok tt) ∈ or_effects (rep_owner (rep_at acked 0))) as He.
  { apply (list_elem_of_lookup_2 _ 4). by vm_compute. }
  split; [exact He|].
  apply (acknowledged_write_everywhere abc ∅ 1 abc_serving acked acked (rep_at acked 0) 1).
  - by apply world_reached; vm_compute.
  - by vm_compute.
  - exact He.
  - reflexivity.
Defined.

Lemma chain_replicas_agree_witness :
  committed_prefix (rep_log (rep_at (world_after down_events) 0)) (or_rt (rep_owner (rep_at (world_after down_events) 0)))
    `prefix_of` committed_prefix (rep_log (rep_at (world_after down_events) 2)) (or_rt (rep_owner (rep_at (world_after down_events) 2))) /\
  length (rep_log (rep_at (world_after down_events) 2)) = 1%nat.
Proof.
  split; [|by vm_compute].
  apply (chain_replicas_agree abc ∅ 1 abc_serving (world_after down_events) (world_after down_events) 0 2);
    [by apply world_reached; vm_compute|reflexivity|lia|by vm_compute..].
Defined.

Definition get_key_k : ClientGetRequest :=
  {| get_Slot := 0; get_Key := "k"; get_ExpectedChainVersion := 1; get_Consistency := ReadConsistencyLinearizable |}.

(** The head has not committed the write; it asks the tail. *)
Lemma chain_read_linearizable_witness : let r := rep_at (world_after down_events) 0 in
  rep_committed r = 0 /\
  exists k, 1 <= k <= 1 /\
    handleClientGet (in_backend (rep_base r)) (fun _ _ => Ok 1) (or_rt (rep_owner r)) get_key_k =
    Ok (read_of get_key_k (rep_record r)
          (materialise (ztake k (rep_log (rep_at (world_after down_events) 2))) !! get_Key get_key_k)).
Proof.
  split; [by vm_compute|].
  apply (chain_read_linearizable abc ∅ 1 abc_serving (world_after down_events) (world_after down_events) 0
    (rep_at (world_after down_events) 0) (rep_at (world_after down_events) 2) (rep_at (world_after down_events) 2));
    [by apply world_reached; vm_compute|reflexivity|by vm_compute..].
Defined.

(** The replica in the middle has a durable write it has not committed. *)
Definition prepared_middle : list chain_replica := world_after (down_events ++ [EvComplete 1 0]).

Lemma drain_fuel_enough_witness : let o := rep_owner (rep_at prepared_middle 1) in
  commit_backlog o = 1%nat /\
  forall cut, drain_rounds "b" run_limits cut 7 0 o = drain_again "b" run_limits 0 o.
Proof.
  assert (chain_reachable abc ∅ 1 prepared_middle) as Hr by by apply world_reached; vm_compute.
  pose proof (chain_reachable_inv abc ∅ 1 abc_serving _ Hr) as Hi.
  assert (commit_backlog (rep_owner (rep_at prepared_middle 1)) = 1%nat) as Hb by by vm_compute.
  split; [exact Hb|]. intros cut. refine (proj1 (drain_fuel_enough "b" (assignment_at abc ∅ 1 1) (allowed prepared_middle 1)
    (told prepared_middle 1) run_limits 0 (rep_log (rep_at prepared_middle 1)) (rep_base (rep_at prepared_middle 1))
    (rep_owner (rep_at prepared_middle 1)) _ _ cut 7%nat _)).
  - intros op. exact (allowed_fits abc ∅ 1 prepared_middle 1 op Hi).
  - refine (ci_owner abc ∅ 1 _ Hi 1 (rep_at prepared_middle 1) _). by vm_compute.
  - rw Hb. lia.
Defined.
