(* ===== verification/Wire.v ===== *)
(** * Messages between processes (src/transport/grpcx/convert.go)

    The conversions to and from the protobuf messages; a message pointer is an
    option where the code tests it.  Encoding a message as bytes is the
    protobuf library's.  Roles and states are strings on the wire; a decoder
    answers [None] where a message carries a string that is none of the
    constants of the source, which the model's types cannot hold. *)

From S2P Require Import Prelude.
From S2P Require Import CoordTypes.
From S2P Require Import StorageTypes.
From S2P Require Import RuntimeTypes.
From S2P Require Import SlotReducer.
From S2P Require Import Journal.
From S2P Require Import SlotOwner.
From S2P Require Import CoordServer.

Open Scope Z_scope.
Open Scope record_scope.

(** [int32(x)] *)
Definition i32 (z : Z) : Z := (z + 2 ^ 31) mod 2 ^ 32 - 2 ^ 31.

(** ** Constants *)
Definition role_string (role : ReplicaRole) : string :=
  match role with
  | ReplicaRoleNone => ""
  | ReplicaRoleSingle => "single"
  | ReplicaRoleHead => "head"
  | ReplicaRoleMiddle => "middle"
  | ReplicaRoleTail => "tail"
  end.

Definition role_of_string (s : string) : option ReplicaRole :=
  List.find (fun role => String.eqb (role_string role) s)
    [ReplicaRoleNone; ReplicaRoleSingle; ReplicaRoleHead; ReplicaRoleMiddle; ReplicaRoleTail].

Definition state_string (state : StorageReplicaState) : string :=
  match state with
  | StatePending => "pending"
  | StateCatchingUp => "catching_up"
  | StateActive => "active"
  | StateLeaving => "leaving"
  | StateRecovered => "recovered"
  | StateRemoved => "removed"
  end.

Definition state_of_string (s : string) : option StorageReplicaState :=
  List.find (fun state => String.eqb (state_string state) s)
    [StatePending; StateCatchingUp; StateActive; StateLeaving; StateRecovered; StateRemoved].

(** ** Nodes *)
Record pb_Node := { pb_Id : string; pb_RpcAddress : string; pb_FailureDomains : list (string * string) }.

Definition zeroWireNode : Node := {| node_ID := ""; node_RPCAddress := ""; node_FailureDomains := ∅ |}.

(** [range] visits the entries of a map in any order: [order] lists them. *)
Definition protoNode (order : list (string * string)) (node : Node) : pb_Node :=
  {| pb_Id := node_ID node; pb_RpcAddress := node_RPCAddress node; pb_FailureDomains := order |}.

Definition fromProtoNode (node : option pb_Node) : Node :=
  match node with
  | None => zeroWireNode
  | Some node =>
      {| node_ID := pb_Id node; node_RPCAddress := pb_RpcAddress node;
         node_FailureDomains := foldl (fun domains '(key, value) => <[key := value]> domains) ∅ (pb_FailureDomains node) |}
  end.

(** ** Routes *)
Record pb_ReadReplicaRoute := { pb_rrr_NodeId : string; pb_rrr_Endpoint : string; pb_rrr_Role : string }.

Record pb_SlotRoute := {
  pb_route_Slot : Z;
  pb_route_ChainVersion : Z;
  pb_route_HeadNodeId : string;
  pb_route_HeadEndpoint : string;
  pb_route_TailNodeId : string;
  pb_route_TailEndpoint : string;
  pb_route_Writable : bool;
  pb_route_Readable : bool;
  pb_route_ReadReplicas : list pb_ReadReplicaRoute;
}.

Record pb_RoutingSnapshot := { pb_rs_Version : Z; pb_rs_SlotCount : Z; pb_rs_Slots : list pb_SlotRoute }.

Definition proto_replica_route (replica : ReadReplicaRoute) : pb_ReadReplicaRoute :=
  {| pb_rrr_NodeId := rrr_NodeID replica; pb_rrr_Endpoint := rrr_Endpoint replica;
     pb_rrr_Role := role_string (rrr_Role replica) |}.

Definition proto_route (slot : SlotRoute) : pb_SlotRoute :=
  {| pb_route_Slot := i32 (route_Slot slot); pb_route_ChainVersion := route_ChainVersion slot;
     pb_route_HeadNodeId := route_HeadNodeID slot; pb_route_HeadEndpoint := route_HeadEndpoint slot;
     pb_route_TailNodeId := route_TailNodeID slot; pb_route_TailEndpoint := route_TailEndpoint slot;
     pb_route_Writable := route_Writable slot; pb_route_Readable := route_Readable slot;
     pb_route_ReadReplicas := proto_replica_route <$> route_ReadReplicas slot |}.

Definition protoRoutingSnapshot (snapshot : RoutingSnapshot) : pb_RoutingSnapshot :=
  {| pb_rs_Version := rs_Version snapshot; pb_rs_SlotCount := i32 (rs_SlotCount snapshot);
     pb_rs_Slots := proto_route <$> rs_Slots snapshot |}.

Definition from_replica_route (replica : pb_ReadReplicaRoute) : option ReadReplicaRoute :=
  role ← role_of_string (pb_rrr_Role replica);
  Some {| rrr_NodeID := pb_rrr_NodeId replica; rrr_Endpoint := pb_rrr_Endpoint replica; rrr_Role := role |}.

Definition from_route (slot : pb_SlotRoute) : option SlotRoute :=
  readReplicas ← mapM from_replica_route (pb_route_ReadReplicas slot);
  Some {| route_Slot := pb_route_Slot slot; route_ChainVersion := pb_route_ChainVersion slot;
          route_HeadNodeID := pb_route_HeadNodeId slot; route_HeadEndpoint := pb_route_HeadEndpoint slot;
          route_TailNodeID := pb_route_TailNodeId slot; route_TailEndpoint := pb_route_TailEndpoint slot;
          route_ReadReplicas := readReplicas; route_Writable := pb_route_Writable slot;
          route_Readable := pb_route_Readable slot |}.

Definition zeroRoutingSnapshot : RoutingSnapshot := {| rs_Version := 0; rs_SlotCount := 0; rs_Slots := [] |}.

Definition fromProtoRoutingSnapshot (snapshot : option pb_RoutingSnapshot) : option RoutingSnapshot :=
  match snapshot with
  | None => Some zeroRoutingSnapshot
  | Some snapshot =>
      slots ← mapM from_route (pb_rs_Slots snapshot);
      Some {| rs_Version := pb_rs_Version snapshot; rs_SlotCount := pb_rs_SlotCount snapshot; rs_Slots := slots |}
  end.

(** ** Assignments *)
Record pb_ChainPeers := {
  pb_PredecessorNodeId : string;
  pb_PredecessorTarget : string;
  pb_SuccessorNodeId : string;
  pb_SuccessorTarget : string;
  pb_TailNodeId : string;
  pb_TailTarget : string;
}.

Record pb_ReplicaAssignment := {
  pb_asg_Slot : Z;
  pb_asg_ChainVersion : Z;
  pb_asg_Role : string;
  pb_asg_Peers : option pb_ChainPeers;
}.

Definition protoChainPeers (peers : ChainPeers) : pb_ChainPeers :=
  {| pb_PredecessorNodeId := PredecessorNodeID peers; pb_PredecessorTarget := PredecessorTarget peers;
     pb_SuccessorNodeId := SuccessorNodeID peers; pb_SuccessorTarget := SuccessorTarget peers;
     pb_TailNodeId := TailNodeID peers; pb_TailTarget := TailTarget peers |}.

Definition fromProtoChainPeers (peers : option pb_ChainPeers) : ChainPeers :=
  match peers with
  | None => noPeers
  | Some peers =>
      {| PredecessorNodeID := pb_PredecessorNodeId peers; PredecessorTarget := pb_PredecessorTarget peers;
         SuccessorNodeID := pb_SuccessorNodeId peers; SuccessorTarget := pb_SuccessorTarget peers;
         TailNodeID := pb_TailNodeId peers; TailTarget := pb_TailTarget peers |}
  end.

Definition protoAssignment (assignment : ReplicaAssignment) : pb_ReplicaAssignment :=
  {| pb_asg_Slot := i32 (asg_Slot assignment); pb_asg_ChainVersion := asg_ChainVersion assignment;
     pb_asg_Role := role_string (asg_Role assignment); pb_asg_Peers := Some (protoChainPeers (asg_Peers assignment)) |}.

Definition fromProtoAssignment (assignment : option pb_ReplicaAssignment) : option ReplicaAssignment :=
  match assignment with
  | None => Some noAssignment
  | Some assignment =>
      role ← role_of_string (pb_asg_Role assignment);
      Some {| asg_Slot := pb_asg_Slot assignment; asg_ChainVersion := pb_asg_ChainVersion assignment;
              asg_Role := role; asg_Peers := fromProtoChainPeers (pb_asg_Peers assignment) |}
  end.

(** ** Node reports *)
Record pb_NodeStatus := {
  pb_status_NodeId : string;
  pb_status_ReplicaCount : Z;
  pb_status_ActiveCount : Z;
  pb_status_CatchingUpCount : Z;
  pb_status_LeavingCount : Z;
}.

Definition protoNodeStatus (status : NodeStatus) : pb_NodeStatus :=
  {| pb_status_NodeId := status_NodeID status; pb_status_ReplicaCount := i32 (status_ReplicaCount status);
     pb_status_ActiveCount := i32 (status_ActiveCount status);
     pb_status_CatchingUpCount := i32 (status_CatchingUpCount status);
     pb_status_LeavingCount := i32 (status_LeavingCount status) |}.

Definition fromProtoNodeStatus (status : option pb_NodeStatus) : NodeStatus :=
  match status with
  | None => zeroNodeStatus
  | Some status =>
      {| status_NodeID := pb_status_NodeId status; status_ReplicaCount := pb_status_ReplicaCount status;
         status_ActiveCount := pb_status_ActiveCount status;
         status_CatchingUpCount := pb_status_CatchingUpCount status; status_LeavingCount := pb_status_LeavingCount status |}
  end.

Record pb_RecoveredReplica := {
  pb_rec_Assignment : option pb_ReplicaAssignment;
  pb_rec_LastKnownState : string;
  pb_rec_HighestCommittedSequence : Z;
  pb_rec_HasCommittedData : bool;
}.

Record pb_NodeRecoveryReport := { pb_report_NodeId : string; pb_report_Replicas : list pb_RecoveredReplica }.

Definition proto_recovered (replica : RecoveredReplica) : pb_RecoveredReplica :=
  {| pb_rec_Assignment := Some (protoAssignment (rec_Assignment replica));
     pb_rec_LastKnownState := state_string (rec_LastKnownState replica);
     pb_rec_HighestCommittedSequence := rec_HighestCommittedSequence replica;
     pb_rec_HasCommittedData := rec_HasCommittedData replica |}.

Definition protoNodeRecovery (report : NodeRecoveryReport) : pb_NodeRecoveryReport :=
  {| pb_report_NodeId := report_NodeID report; pb_report_Replicas := proto_recovered <$> report_Replicas report |}.

Definition from_recovered (replica : pb_RecoveredReplica) : option RecoveredReplica :=
  assignment ← fromProtoAssignment (pb_rec_Assignment replica);
  state ← state_of_string (pb_rec_LastKnownState replica);
  Some {| rec_Assignment := assignment; rec_LastKnownState := state;
          rec_HighestCommittedSequence := pb_rec_HighestCommittedSequence replica;
          rec_HasCommittedData := pb_rec_HasCommittedData replica |}.

Definition fromProtoNodeRecovery (report : option pb_NodeRecoveryReport) : option NodeRecoveryReport :=
  match report with
  | None => Some {| report_NodeID := ""; report_Replicas := [] |}
  | Some report =>
      replicas ← mapM from_recovered (pb_report_Replicas report);
      Some {| report_NodeID := pb_report_NodeId report; report_Replicas := replicas |}
  end.

Record pb_ServerState := { pb_state_Version : Z }.
Definition protoServerState (state : State) : pb_ServerState := {| pb_state_Version := rt_Version state |}.

(** ** Objects and results *)
Record pb_ObjectMetadata := { pb_meta_Version : Z; pb_CreatedAtUnixNano : Z; pb_UpdatedAtUnixNano : Z }.

Definition protoObjectMetadata (metadata : option ObjectMetadata) : option pb_ObjectMetadata :=
  (fun m => {| pb_meta_Version := meta_Version m; pb_CreatedAtUnixNano := UnixNano (meta_CreatedAt m);
               pb_UpdatedAtUnixNano := UnixNano (meta_UpdatedAt m) |}) <$> metadata.

Definition fromProtoObjectMetadata (metadata : option pb_ObjectMetadata) : option ObjectMetadata :=
  (fun m => {| meta_Version := pb_meta_Version m; meta_CreatedAt := time_Unix (pb_CreatedAtUnixNano m);
               meta_UpdatedAt := time_Unix (pb_UpdatedAtUnixNano m) |}) <$> metadata.

Definition derefObjectMetadata (metadata : option ObjectMetadata) : ObjectMetadata := default zeroMetadata metadata.

Record pb_CommitResult := {
  pb_commit_Slot : Z;
  pb_commit_Sequence : Z;
  pb_commit_Applied : bool;
  pb_commit_Metadata : option pb_ObjectMetadata;
}.

Definition protoCommitResult (result : CommitResult) : pb_CommitResult :=
  {| pb_commit_Slot := i32 (result_Slot result); pb_commit_Sequence := result_Sequence result;
     pb_commit_Applied := result_Applied result; pb_commit_Metadata := protoObjectMetadata (result_Metadata result) |}.

Definition fromProtoCommitResult (result : option pb_CommitResult) : CommitResult :=
  match result with
  | None => {| result_Slot := 0; result_Sequence := 0; result_Applied := false; result_Metadata := None |}
  | Some result =>
      {| result_Slot := pb_commit_Slot result; result_Sequence := pb_commit_Sequence result;
         result_Applied := pb_commit_Applied result; result_Metadata := fromProtoObjectMetadata (pb_commit_Metadata result) |}
  end.

Record pb_ReadResult := {
  pb_read_Slot : Z;
  pb_read_ChainVersion : Z;
  pb_read_Found : bool;
  pb_read_Value : string;
  pb_read_Metadata : option pb_ObjectMetadata;
}.

Definition protoReadResult (result : ReadResult) : pb_ReadResult :=
  {| pb_read_Slot := i32 (read_Slot result); pb_read_ChainVersion := read_ChainVersion result;
     pb_read_Found := read_Found result; pb_read_Value := read_Value result;
     pb_read_Metadata := protoObjectMetadata (read_Metadata result) |}.

Definition fromProtoReadResult (result : option pb_ReadResult) : ReadResult :=
  match result with
  | None => {| read_Slot := 0; read_ChainVersion := 0; read_Found := false; read_Value := ""; read_Metadata := None |}
  | Some result =>
      {| read_Slot := pb_read_Slot result; read_ChainVersion := pb_read_ChainVersion result;
         read_Found := pb_read_Found result; read_Value := pb_read_Value result;
         read_Metadata := fromProtoObjectMetadata (pb_read_Metadata result) |}
  end.

Record pb_SnapshotEntry := { pb_entry_Key : string; pb_entry_Value : string; pb_entry_Metadata : option pb_ObjectMetadata }.

Definition proto_entry (entry : string * CommittedObject) : pb_SnapshotEntry :=
  {| pb_entry_Key := fst entry; pb_entry_Value := obj_Value (snd entry);
     pb_entry_Metadata := protoObjectMetadata (Some (obj_Metadata (snd entry))) |}.

(** [order] lists the entries of the snapshot. *)
Definition protoSnapshot (order : list (string * CommittedObject)) : list pb_SnapshotEntry := proto_entry <$> order.

Inductive wire_error := NilSnapshotEntry | MissingMetadata (key : string).

Definition add_entry (snapshot : Snapshot) (entry : option pb_SnapshotEntry) : res wire_error Snapshot :=
  match entry with
  | None => Err NilSnapshotEntry
  | Some entry =>
      match fromProtoObjectMetadata (pb_entry_Metadata entry) with
      | None => Err (MissingMetadata (pb_entry_Key entry))
      | Some metadata =>
          Ok (<[pb_entry_Key entry := {| obj_Value := pb_entry_Value entry; obj_Metadata := metadata |}]> snapshot)
      end
  end.

Definition snapshotFromProtoEntries (entries : list (option pb_SnapshotEntry)) : res wire_error Snapshot :=
  res_fold add_entry ∅ entries.

(** ** Conditions and consistency

    A protobuf enumeration may carry any number. *)
Inductive pb_ComparisonOperator :=
| COMPARISON_OPERATOR_UNSPECIFIED
| COMPARISON_OPERATOR_EQ
| COMPARISON_OPERATOR_LT
| COMPARISON_OPERATOR_LTE
| COMPARISON_OPERATOR_GT
| COMPARISON_OPERATOR_GTE
| COMPARISON_OPERATOR_OTHER (number : Z).

Definition protoComparisonOperator (operator : ComparisonOperator) : pb_ComparisonOperator :=
  match operator with
  | ComparisonOperatorEqual => COMPARISON_OPERATOR_EQ
  | ComparisonOperatorLessThan => COMPARISON_OPERATOR_LT
  | ComparisonOperatorLessThanOrEqual => COMPARISON_OPERATOR_LTE
  | ComparisonOperatorGreaterThan => COMPARISON_OPERATOR_GT
  | ComparisonOperatorGreaterThanOrEqual => COMPARISON_OPERATOR_GTE
  | ComparisonOperatorUnsupported _ => COMPARISON_OPERATOR_UNSPECIFIED
  end.

Definition fromProtoComparisonOperator (operator : pb_ComparisonOperator) : ComparisonOperator :=
  match operator with
  | COMPARISON_OPERATOR_EQ => ComparisonOperatorEqual
  | COMPARISON_OPERATOR_LT => ComparisonOperatorLessThan
  | COMPARISON_OPERATOR_LTE => ComparisonOperatorLessThanOrEqual
  | COMPARISON_OPERATOR_GT => ComparisonOperatorGreaterThan
  | COMPARISON_OPERATOR_GTE => ComparisonOperatorGreaterThanOrEqual
  | COMPARISON_OPERATOR_UNSPECIFIED | COMPARISON_OPERATOR_OTHER _ => ComparisonOperatorUnsupported ""
  end.

Record pb_Comparison := { pb_cmp_Operator : pb_ComparisonOperator; pb_cmp_Value : Z }.

Record pb_WriteConditions := {
  pb_cond_Exists : option bool;
  pb_cond_Version : option pb_Comparison;
  pb_cond_UpdatedAt : option pb_Comparison;
}.

Definition protoWriteConditions (conditions : WriteConditions) : option pb_WriteConditions :=
  let result :=
    {| pb_cond_Exists := cond_Exists conditions;
       pb_cond_Version := (fun c => {| pb_cmp_Operator := protoComparisonOperator (cmp_Operator c);
                                       pb_cmp_Value := cmp_Value c |}) <$> cond_Version conditions;
       pb_cond_UpdatedAt := (fun c => {| pb_cmp_Operator := protoComparisonOperator (cmp_Operator c);
                                         pb_cmp_Value := UnixNano (cmp_Value c) |}) <$> cond_UpdatedAt conditions |} in
  match pb_cond_Exists result, pb_cond_Version result, pb_cond_UpdatedAt result with
  | None, None, None => None
  | _, _, _ => Some result
  end.

Definition fromProtoWriteConditions (conditions : option pb_WriteConditions) : WriteConditions :=
  match conditions with
  | None => {| cond_Exists := None; cond_Version := None; cond_UpdatedAt := None |}
  | Some conditions =>
      {| cond_Exists := pb_cond_Exists conditions;
         cond_Version := (fun c => {| cmp_Operator := fromProtoComparisonOperator (pb_cmp_Operator c);
                                      cmp_Value := pb_cmp_Value c |}) <$> pb_cond_Version conditions;
         cond_UpdatedAt := (fun c => {| cmp_Operator := fromProtoComparisonOperator (pb_cmp_Operator c);
                                        cmp_Value := time_Unix (pb_cmp_Value c) |}) <$> pb_cond_UpdatedAt conditions |}
  end.

Inductive pb_ReadConsistency :=
| READ_CONSISTENCY_UNSPECIFIED
| READ_CONSISTENCY_LINEARIZABLE
| READ_CONSISTENCY_LOCAL_COMMITTED
| READ_CONSISTENCY_OTHER (number : Z).

Definition protoReadConsistency (consistency : ReadConsistency) : pb_ReadConsistency :=
  match consistency with
  | ReadConsistencyLocalCommitted => READ_CONSISTENCY_LOCAL_COMMITTED
  | _ => READ_CONSISTENCY_LINEARIZABLE
  end.

Definition fromProtoReadConsistency (consistency : pb_ReadConsistency) : ReadConsistency :=
  match consistency with
  | READ_CONSISTENCY_LOCAL_COMMITTED => ReadConsistencyLocalCommitted
  | _ => ReadConsistencyLinearizable
  end.
