(* ===== verification/WireErrors.v ===== *)
(** * Errors between processes (src/transport/grpcx/errors.go)

    A Go error is a tree: sentinels and typed errors, wrapped by [fmt.Errorf]
    or held as the cause of a typed error.  Texts are not modelled: [text] stands
    for the [Error] methods.  [FromError] is the gRPC library's
    [status.FromError]; [StatusLaws] states what its documentation says. *)

From S2P Require Import Prelude.
From S2P Require Import CoordTypes.
From S2P Require Import StorageTypes.
From S2P Require Import SlotReducer.
From S2P Require Import Journal.
From S2P Require Import SlotOwner.
From S2P Require Import Wire.

Open Scope Z_scope.

Module Go.

(** ** Errors *)
Inductive sentinel :=
| ErrUnknownReplica
| ErrWriteRejected
| ErrSequenceMismatch
| ErrPeerMismatch
| ErrStateMismatch
| ErrProtocolConflict
| ErrConditionFailed
| ErrInvalidTransition
| ErrUnexpectedProgress
| ErrCoordserverStateMismatch
| ErrNotLeader
| ErrRoutingMismatch
| ErrWriteTimeout
| ErrWriteBackpressure
| ErrReplicaBackpressure
| ErrCatchupBackpressure
| ErrTransportPermissionDenied
| ErrTransportUnauthenticated
| DeadlineExceeded
| Canceled
| OtherSentinel (name : string).

#[export] Instance sentinel_eq_dec : EqDecision sentinel.
Proof. solve_decision. Defined.

Inductive BackpressureResource :=
| ResourceClientWrite
| ResourceReplicaBuffer
| ResourceCatchup
| ResourceOther (name : string).

Inductive code := OK_ | CodeCanceled | CodeUnknown | CodeDeadlineExceeded | CodeNotFound | CodePermissionDenied
| CodeResourceExhausted | CodeFailedPrecondition | CodeUnavailable | CodeUnauthenticated | CodeOther (n : Z).

(** The detail messages; strings that hold constants are kept as such. *)
Inductive detail :=
| RoutingMismatchDetail (slot expected current : Z) (role : ReplicaRole) (state : option StorageReplicaState)
    (reason : RoutingMismatchReason)
| AmbiguousWriteDetail (slot : Z) (kind : OperationKind) (expected : Z) (cause : string)
| ConditionFailedDetail (slot : Z) (kind : OperationKind) (expected : Z) (currentExists : bool)
    (currentMetadata : option pb_ObjectMetadata)
| BackpressureDetail (slot current limit : Z) (resource : BackpressureResource) (cause : string)
| ReadDependencyDetail (slot expected : Z) (tailNodeID cause : string)
| NotLeaderDetail (leaderEndpoint : string)
| DomainErrorDetail (kind : string)
| UnknownDetail.

Record status := { st_Code : code; st_Message : string; st_Details : list detail }.

Inductive error :=
| Sentinel (s : sentinel)
| Wrapped (message : string) (cause : error)
| Joined (message : string) (first second : error)
| RoutingMismatchError (slot expected current : Z) (role : ReplicaRole) (state : option StorageReplicaState)
    (reason : RoutingMismatchReason)
| AmbiguousWriteError (slot : Z) (kind : OperationKind) (expected : Z) (cause : error)
| ConditionFailedError (slot : Z) (kind : OperationKind) (expected : Z) (currentExists : bool)
    (currentMetadata : option ObjectMetadata)
| BackpressureError (slot current limit : Z) (resource : BackpressureResource) (cause : error)
| ReadDependencyError (slot expected : Z) (tailNodeID : string) (cause : error)
| NotLeaderError (leaderEndpoint : string)
| TransportAuthError (message : string) (cause : error)
| StatusError (st : status).

(** [errors.As]: the first error of the tree, depth first, that [f] accepts.  The
    [Unwrap] methods that return a sentinel lead to nothing [f] accepts. *)
Fixpoint As {A} (f : error -> option A) (e : error) : option A :=
  match f e with
  | Some a => Some a
  | None =>
      match e with
      | Wrapped _ cause | AmbiguousWriteError _ _ _ cause | BackpressureError _ _ _ _ cause
      | ReadDependencyError _ _ _ cause | TransportAuthError _ cause => As f cause
      | Joined _ first second => match As f first with Some a => Some a | None => As f second end
      | _ => None
      end
  end.

(** [errors.Is] for the sentinels the code asks about. *)
Fixpoint Is (e : error) (target : sentinel) : bool :=
  match e with
  | Sentinel s => bool_decide (s = target)
  | Wrapped _ cause | AmbiguousWriteError _ _ _ cause | BackpressureError _ _ _ _ cause
  | ReadDependencyError _ _ _ cause | TransportAuthError _ cause => Is cause target
  | Joined _ first second => Is first target || Is second target
  | RoutingMismatchError _ _ _ _ _ _ => bool_decide (ErrRoutingMismatch = target)
  | ConditionFailedError _ _ _ _ _ => bool_decide (ErrConditionFailed = target)
  | NotLeaderError _ => bool_decide (ErrNotLeader = target)
  | StatusError _ => false
  end.

Definition as_routing (e : error) : option (Z * Z * Z * ReplicaRole * option StorageReplicaState * RoutingMismatchReason) :=
  match e with RoutingMismatchError slot expected current role state reason => Some (slot, expected, current, role, state, reason)
  | _ => None end.
Definition as_ambiguous (e : error) : option (Z * OperationKind * Z * error) :=
  match e with AmbiguousWriteError slot kind expected cause => Some (slot, kind, expected, cause) | _ => None end.
Definition as_condition (e : error) : option (Z * OperationKind * Z * bool * option ObjectMetadata) :=
  match e with ConditionFailedError slot kind expected exists_ metadata => Some (slot, kind, expected, exists_, metadata)
  | _ => None end.
Definition as_pressure (e : error) : option (Z * Z * Z * BackpressureResource * error) :=
  match e with BackpressureError slot current limit resource cause => Some (slot, current, limit, resource, cause)
  | _ => None end.
Definition as_dependency (e : error) : option (Z * Z * string * error) :=
  match e with ReadDependencyError slot expected tail cause => Some (slot, expected, tail, cause) | _ => None end.
Definition as_not_leader (e : error) : option string :=
  match e with NotLeaderError endpoint => Some endpoint | _ => None end.
Definition as_status (e : error) : option status := match e with StatusError st => Some st | _ => None end.

(** ** The gRPC library *)
Class StatusLaws (FromError : error -> option status) : Prop := {
  from_none e : As as_status e = None -> FromError e = None;
  from_status st : FromError (StatusError st) = Some st;
  from_wrapped e st : As as_status e = Some st ->
    exists message, FromError e = Some {| st_Code := st_Code st; st_Message := message; st_Details := st_Details st |};
}.

(** ** Domain errors *)
Definition domainErrorDetail (e : error) : option string :=
  List.fold_right (fun '(s, kind) rest => if Is e s then Some kind else rest) None
    [(ErrUnknownReplica, "unknown_replica"); (ErrWriteRejected, "write_rejected");
     (ErrSequenceMismatch, "sequence_mismatch"); (ErrPeerMismatch, "peer_mismatch");
     (ErrStateMismatch, "storage_state_mismatch"); (ErrProtocolConflict, "protocol_conflict");
     (ErrConditionFailed, "condition_failed"); (ErrInvalidTransition, "invalid_transition");
     (ErrUnexpectedProgress, "unexpected_progress"); (ErrCoordserverStateMismatch, "coordserver_state_mismatch")].

Definition domainErrorCode (kind : string) : code :=
  if String.eqb kind "unknown_replica" then CodeNotFound else CodeFailedPrecondition.

Definition decodeDomainError (kind : string) : error :=
  if String.eqb kind "unknown_replica" then Sentinel ErrUnknownReplica
  else if String.eqb kind "write_rejected" then Sentinel ErrWriteRejected
  else if String.eqb kind "sequence_mismatch" then Sentinel ErrSequenceMismatch
  else if String.eqb kind "peer_mismatch" then Sentinel ErrPeerMismatch
  else if String.eqb kind "storage_state_mismatch" then Sentinel ErrStateMismatch
  else if String.eqb kind "protocol_conflict" then Sentinel ErrProtocolConflict
  else if String.eqb kind "condition_failed" then Sentinel ErrConditionFailed
  else if String.eqb kind "invalid_transition" then Sentinel ErrInvalidTransition
  else if String.eqb kind "unexpected_progress" then Sentinel ErrUnexpectedProgress
  else if String.eqb kind "coordserver_state_mismatch" then Sentinel ErrCoordserverStateMismatch
  else StatusError {| st_Code := CodeUnknown; st_Message := kind; st_Details := [] |}.

Definition backpressureCause (resource : BackpressureResource) : error :=
  match resource with
  | ResourceClientWrite => Sentinel ErrWriteBackpressure
  | ResourceReplicaBuffer => Sentinel ErrReplicaBackpressure
  | ResourceCatchup => Sentinel ErrCatchupBackpressure
  | ResourceOther _ => Sentinel ErrWriteBackpressure
  end.

(** ** Encoding and decoding *)
Section errors.
Context (text : error -> string) (FromError : error -> option status).

Definition status_error (c : code) (e : error) (details : list detail) : error :=
  StatusError {| st_Code := c; st_Message := text e; st_Details := details |}.

Definition ambiguous_code (e : error) : code :=
  if Is e Canceled then CodeCanceled
  else if Is e DeadlineExceeded || Is e ErrWriteTimeout then CodeDeadlineExceeded
  else CodeUnknown.

(** [encodeError] of an error that is not nil; [if let]s are tried in order. *)
Definition encodeError (e : error) : error :=
  match FromError e with Some _ => e | None =>
  match As as_routing e with
  | Some (slot, expected, current, role, state, reason) =>
      status_error CodeFailedPrecondition e [RoutingMismatchDetail (i32 slot) expected current role state reason]
  | None =>
  match As as_ambiguous e with
  | Some (slot, kind, expected, cause) =>
      status_error (ambiguous_code e) e [AmbiguousWriteDetail (i32 slot) kind expected (text cause)]
  | None =>
  match As as_condition e with
  | Some (slot, kind, expected, exists_, metadata) =>
      status_error CodeFailedPrecondition e
        [ConditionFailedDetail (i32 slot) kind expected exists_ (protoObjectMetadata metadata)]
  | None =>
  match As as_pressure e with
  | Some (slot, current, limit, resource, cause) =>
      status_error CodeResourceExhausted e [BackpressureDetail (i32 slot) (i32 current) (i32 limit) resource (text cause)]
  | None =>
  match As as_dependency e with
  | Some (slot, expected, tail, cause) =>
      status_error CodeUnavailable e [ReadDependencyDetail (i32 slot) expected tail (text cause)]
  | None =>
  match As as_not_leader e with
  | Some endpoint => status_error CodeFailedPrecondition e [NotLeaderDetail endpoint]
  | None =>
  match domainErrorDetail e with
  | Some kind => status_error (domainErrorCode kind) e [DomainErrorDetail kind]
  | None =>
      if Is e DeadlineExceeded then status_error CodeDeadlineExceeded e []
      else if Is e Canceled then status_error CodeCanceled e []
      else status_error CodeUnknown e []
  end end end end end end end end.

Definition timeout_cause (c : code) : error :=
  Joined "write timeout" (Sentinel ErrWriteTimeout)
    (Sentinel (match c with CodeCanceled => Canceled | _ => DeadlineExceeded end)).

Definition decode_detail (c : code) (d : detail) : option error :=
  match d with
  | RoutingMismatchDetail slot expected current role state reason =>
      Some (RoutingMismatchError slot expected current role state reason)
  | AmbiguousWriteDetail slot kind expected _ => Some (AmbiguousWriteError slot kind expected (timeout_cause c))
  | BackpressureDetail slot current limit resource _ =>
      Some (BackpressureError slot current limit resource (backpressureCause resource))
  | ReadDependencyDetail slot expected tail cause =>
      Some (ReadDependencyError slot expected tail
              (StatusError {| st_Code := CodeUnavailable; st_Message := cause; st_Details := [] |}))
  | ConditionFailedDetail slot kind expected exists_ metadata =>
      Some (ConditionFailedError slot kind expected exists_ (fromProtoObjectMetadata metadata))
  | DomainErrorDetail kind => Some (decodeDomainError kind)
  | NotLeaderDetail endpoint => Some (NotLeaderError endpoint)
  | UnknownDetail => None
  end.

Definition decodeError (e : error) : error :=
  match FromError e with
  | None => e
  | Some st =>
      match head (omap (decode_detail (st_Code st)) (st_Details st)) with
      | Some decoded => decoded
      | None =>
          match st_Code st with
          | CodePermissionDenied => TransportAuthError (st_Message st) (Sentinel ErrTransportPermissionDenied)
          | CodeUnauthenticated => TransportAuthError (st_Message st) (Sentinel ErrTransportUnauthenticated)
          | CodeDeadlineExceeded => Sentinel DeadlineExceeded
          | CodeCanceled => Sentinel Canceled
          | _ => e
          end
      end
  end.

(** What a client sees of an error its server returned: the library sends the
    status of the encoded error, and [decodeError] turns it back. *)
Definition received (e : error) : option error :=
  (fun st => decodeError (StatusError st)) <$> FromError (encodeError e).
End errors.
End Go.
