(* ===== verification/WireTheorems.v ===== *)
(** * What crosses the wire

    Messages whose numbers fit the fields of the protobuf messages arrive as
    they were sent, and errors keep what their receivers decide on. *)

From S2P Require Import Prelude.
From S2P Require Import CoordTypes.
From S2P Require Import StorageTypes.
From S2P Require Import RuntimeTypes.
From S2P Require Import SlotReducer.
From S2P Require Import Journal.
From S2P Require Import JournalTheorems.
From S2P Require Import SlotOwner.
From S2P Require Import CoordServer.
From S2P Require Import Wire.
From S2P Require Import WireErrors.

Open Scope Z_scope.

(** ** Numbers and instants *)
Definition fits_i32 (z : Z) : Prop := - 2 ^ 31 <= z < 2 ^ 31.
Definition fits_time (t : Z) : Prop := - 2 ^ 63 <= t - unix_epoch < 2 ^ 63.

Lemma i32_small z : fits_i32 z -> i32 z = z.
Proof. intros H. unfold i32, fits_i32 in *. rw Z.mod_small; lia. Qed.

Lemma time_roundtrip t : fits_time t -> time_Unix (UnixNano t) = t.
Proof. intros H. unfold time_Unix, UnixNano. rw i64_small //. lia. Qed.

Lemma role_roundtrip role : role_of_string (role_string role) = Some role.
Proof. by destruct role. Qed.

Lemma state_roundtrip state : state_of_string (state_string state) = Some state.
Proof. by destruct state. Qed.

(** ** Messages *)
Inductive message :=
| MessageNode (node : Node)
| MessageRouting (snapshot : RoutingSnapshot)
| MessageAssignment (assignment : ReplicaAssignment)
| MessageStatus (status : NodeStatus)
| MessageRecovery (report : NodeRecoveryReport)
| MessageCommit (result : CommitResult)
| MessageRead (result : ReadResult)
| MessageSnapshot (snapshot : gmap string CommittedObject)
| MessageConditions (conditions : WriteConditions)
| MessageConsistency (consistency : ReadConsistency).

Definition fits_metadata (m : ObjectMetadata) : Prop := fits_time (meta_CreatedAt m) /\ fits_time (meta_UpdatedAt m).
Definition fits_option {A} (P : A -> Prop) (o : option A) : Prop := match o with Some a => P a | None => True end.
Definition supported (c : Comparison) : Prop :=
  match cmp_Operator c with ComparisonOperatorUnsupported _ => False | _ => True end.

Definition fits (m : message) : Prop :=
  match m with
  | MessageNode _ => True
  | MessageRouting s => fits_i32 (rs_SlotCount s) /\ Forall (fun r => fits_i32 (route_Slot r)) (rs_Slots s)
  | MessageAssignment a => fits_i32 (asg_Slot a)
  | MessageStatus s => fits_i32 (status_ReplicaCount s) /\ fits_i32 (status_ActiveCount s) /\
      fits_i32 (status_CatchingUpCount s) /\ fits_i32 (status_LeavingCount s)
  | MessageRecovery r => Forall (fun r => fits_i32 (asg_Slot (rec_Assignment r))) (report_Replicas r)
  | MessageCommit r => fits_i32 (result_Slot r) /\ fits_option fits_metadata (result_Metadata r)
  | MessageRead r => fits_i32 (read_Slot r) /\ fits_option fits_metadata (read_Metadata r)
  | MessageSnapshot s => map_Forall (fun _ o => fits_metadata (obj_Metadata o)) s
  | MessageConditions c => fits_option supported (cond_Version c) /\ fits_option supported (cond_UpdatedAt c) /\
      fits_option (fun c => fits_time (cmp_Value c)) (cond_UpdatedAt c)
  | MessageConsistency c => match c with ReadConsistencyUnsupported _ => False | _ => True end
  end.

(** Sending and receiving; [order] is the order in which maps are visited. *)
Section transfer.
Context (domains : gmap string string -> list (string * string)).
Context (objects : gmap string CommittedObject -> list (string * CommittedObject)).

Definition transfer (m : message) : option message :=
  match m with
  | MessageNode node => Some (MessageNode (fromProtoNode (Some (protoNode (domains (node_FailureDomains node)) node))))
  | MessageRouting s => MessageRouting <$> fromProtoRoutingSnapshot (Some (protoRoutingSnapshot s))
  | MessageAssignment a => MessageAssignment <$> fromProtoAssignment (Some (protoAssignment a))
  | MessageStatus s => Some (MessageStatus (fromProtoNodeStatus (Some (protoNodeStatus s))))
  | MessageRecovery r => MessageRecovery <$> fromProtoNodeRecovery (Some (protoNodeRecovery r))
  | MessageCommit r => Some (MessageCommit (fromProtoCommitResult (Some (protoCommitResult r))))
  | MessageRead r => Some (MessageRead (fromProtoReadResult (Some (protoReadResult r))))
  | MessageSnapshot s =>
      match snapshotFromProtoEntries (Some <$> protoSnapshot (objects s)) with
      | Ok s => Some (MessageSnapshot s)
      | Err _ => None
      end
  | MessageConditions c => Some (MessageConditions (fromProtoWriteConditions (protoWriteConditions c)))
  | MessageConsistency c => Some (MessageConsistency (fromProtoReadConsistency (protoReadConsistency c)))
  end.
End transfer.

(** ** Round trips *)
Lemma mapM_roundtrip {A B} (f : A -> B) (g : B -> option A) l :
  Forall (fun a => g (f a) = Some a) l -> mapM g (f <$> l) = Some l.
Proof. induction 1 as [|a l Ha _ IH]; [done|]. cbn. by rw Ha /= IH. Qed.

Lemma metadata_roundtrip m : fits_option fits_metadata m -> fromProtoObjectMetadata (protoObjectMetadata m) = m.
Proof. destruct m as [[v c u]|]; [|done]. intros [Hc Hu]. cbn in *. by rw !time_roundtrip. Qed.

Lemma assignment_roundtrip a : fits_i32 (asg_Slot a) -> fromProtoAssignment (Some (protoAssignment a)) = Some a.
Proof.
  intros Ha. unfold fromProtoAssignment, protoAssignment. cbn [pb_asg_Role pb_asg_Slot]. rw role_roundtrip i32_small //.
  by destruct a as [? ? ? []].
Qed.

Lemma route_roundtrip r : fits_i32 (route_Slot r) -> from_route (proto_route r) = Some r.
Proof.
  intros Hr. unfold from_route. cbn. rw (mapM_roundtrip _ from_replica_route).
  - apply Forall_true. intros [id e role]. unfold from_replica_route, proto_replica_route. cbn [pb_rrr_Role rrr_Role]. by rw role_roundtrip.
  - cbn. rw i32_small //. by destruct r.
Qed.

Lemma recovered_roundtrip r : fits_i32 (asg_Slot (rec_Assignment r)) -> from_recovered (proto_recovered r) = Some r.
Proof.
  intros Hr. unfold from_recovered. cbn [pb_rec_Assignment proto_recovered]. rw assignment_roundtrip //. cbn.
  by destruct r as [? [] ? ?].
Qed.

(** Inserting the entries of a map, in any order, gives the map. *)
Lemma foldl_insert_map {A} (l : list (string * A)) : NoDup l.*1 ->
  foldl (fun m '(key, value) => <[key := value]> m) (∅ : gmap string A) l = list_to_map l.
Proof.
  assert (forall m : gmap string A, NoDup l.*1 -> (forall k, k ∈ l.*1 -> m !! k = None) ->
    foldl (fun m '(key, value) => <[key := value]> m) m l = list_to_map l ∪ m) as H.
  { induction l as [|[k v] l IH]; intros m Hn Hm; cbn; [by rw map_empty_union|]. inv Hn.
    rw IH //; [|by rw -insert_union_l -insert_union_r //; apply not_elem_of_list_to_map_1].
    intros k' Hk'. rw lookup_insert_ne; [by intros ->|]. apply Hm. by right. }
  intros Hn. rw H //. by rw map_union_empty.
Qed.

Section visited.
Context {A : Type} (order : gmap string A -> list (string * A)).
Context (Horder : forall m, order m ≡ₚ map_to_list m).

Lemma order_NoDup m : NoDup (order m).*1.
Proof. rw Horder. apply NoDup_fst_map_to_list. Qed.

Lemma order_map m : list_to_map (order m) = m.
Proof. rw -{2}(list_to_map_to_list m). apply list_to_map_proper; [apply order_NoDup|apply Horder]. Qed.
End visited.

Lemma add_entry_roundtrip (m : Snapshot) k o : fits_metadata (obj_Metadata o) ->
  add_entry m (Some (proto_entry (k, o))) = Ok (<[k := o]> m).
Proof.
  intros Ho. unfold add_entry. change (pb_entry_Metadata _) with (protoObjectMetadata (Some (obj_Metadata o))).
  rw metadata_roundtrip //. by destruct o.
Qed.

Lemma add_entries (l : list (string * CommittedObject)) (m : Snapshot) :
  Forall (fun '(_, o) => fits_metadata (obj_Metadata o)) l ->
  res_fold add_entry m (Some <$> (proto_entry <$> l)) = Ok (foldl (fun m '(key, value) => <[key := value]> m) m l).
Proof.
  revert m. induction l as [|[k o] l IH]; intros m Hl; [done|]. inv Hl. cbn [fmap list_fmap res_fold].
  rw add_entry_roundtrip //. by apply IH.
Qed.

Lemma snapshot_roundtrip order s :
  (forall m, order m ≡ₚ map_to_list m) -> map_Forall (fun _ o => fits_metadata (obj_Metadata o)) s ->
  snapshotFromProtoEntries (Some <$> protoSnapshot (order s)) = Ok s.
Proof.
  intros Horder Hs. unfold snapshotFromProtoEntries, protoSnapshot.
  assert (Forall (fun '(_, o) => fits_metadata (obj_Metadata o)) (order s)) as Hf.
  { apply Forall_forall. intros [k o] Hin. rw Horder in Hin. apply elem_of_map_to_list in Hin. by apply (Hs k). }
  rw add_entries //. rw foldl_insert_map; [by apply order_NoDup|]. by rw order_map.
Qed.

Lemma conditions_roundtrip c : fits (MessageConditions c) -> fromProtoWriteConditions (protoWriteConditions c) = c.
Proof.
  destruct c as [e v u]. cbn. intros (Hv & Hu & Ht).
  assert (forall c, supported c -> fromProtoComparisonOperator (protoComparisonOperator (cmp_Operator c)) = cmp_Operator c) as Hop.
  { intros [[] ?]; done. }
  destruct e, v as [[ov xv]|], u as [[ou xu]|]; cbn in *; try (pose proof (Hop _ Hv)); try (pose proof (Hop _ Hu));
    rw ?time_roundtrip //; cbn in *; congruence.
Qed.

Lemma node_roundtrip domains node : (forall d, domains d ≡ₚ map_to_list d) ->
  fromProtoNode (Some (protoNode (domains (node_FailureDomains node)) node)) = node.
Proof. intros Hd. destruct node as [id address ds]. cbn. rw foldl_insert_map; [by apply order_NoDup|]. by rw order_map. Qed.

Lemma routing_roundtrip s : fits (MessageRouting s) -> fromProtoRoutingSnapshot (Some (protoRoutingSnapshot s)) = Some s.
Proof.
  intros [Hc Hs]. unfold fromProtoRoutingSnapshot. cbn. rw (mapM_roundtrip _ from_route); [apply (Forall_impl _ _ _ Hs), route_roundtrip|].
  cbn. rw i32_small //. by destruct s.
Qed.

Lemma status_roundtrip s : fits (MessageStatus s) -> fromProtoNodeStatus (Some (protoNodeStatus s)) = s.
Proof. intros (H1 & H2 & H3 & H4). cbn. rw !i32_small //. by destruct s. Qed.

Lemma recovery_roundtrip r : fits (MessageRecovery r) -> fromProtoNodeRecovery (Some (protoNodeRecovery r)) = Some r.
Proof.
  intros Hm. unfold fromProtoNodeRecovery. cbn. rw (mapM_roundtrip _ from_recovered); [apply (Forall_impl _ _ _ Hm), recovered_roundtrip|].
  by destruct r.
Qed.

Lemma commit_roundtrip r : fits (MessageCommit r) -> fromProtoCommitResult (Some (protoCommitResult r)) = r.
Proof.
  intros [Hs Hm]. cbn -[fromProtoObjectMetadata protoObjectMetadata]. rw i32_small // metadata_roundtrip //. by destruct r.
Qed.

Lemma read_roundtrip r : fits (MessageRead r) -> fromProtoReadResult (Some (protoReadResult r)) = r.
Proof.
  intros [Hs Hm]. cbn -[fromProtoObjectMetadata protoObjectMetadata]. rw i32_small // metadata_roundtrip //. by destruct r.
Qed.

Lemma consistency_roundtrip c : fits (MessageConsistency c) -> fromProtoReadConsistency (protoReadConsistency c) = c.
Proof. by destruct c. Qed.

(** C36. Every message whose numbers fit the fields that carry them, and whose
    comparison operators and read consistency are ones the program has, arrives
    as it was sent: nodes, routes, assignments, reports, results, snapshots and
    conditions, in whatever order the maps in them are visited. *)
Theorem messages_roundtrip domains objects m :
  (forall d, domains d ≡ₚ map_to_list d) -> (forall s, objects s ≡ₚ map_to_list s) ->
  fits m -> transfer domains objects m = Some m.
Proof.
  intros Hd Ho Hm. destruct m as [node|s|a|s|r|r|r|s|c|c]; unfold transfer.
  - by rw node_roundtrip.
  - by rw routing_roundtrip.
  - by rw assignment_roundtrip.
  - by rw status_roundtrip.
  - by rw recovery_roundtrip.
  - by rw commit_roundtrip.
  - by rw read_roundtrip.
  - by rw snapshot_roundtrip.
  - by rw conditions_roundtrip.
  - by rw consistency_roundtrip.
Qed.

Definition sample_route : SlotRoute :=
  {| route_Slot := 3; route_ChainVersion := 7; route_HeadNodeID := "a"; route_HeadEndpoint := "a:1"; route_TailNodeID := "b";
     route_TailEndpoint := "b:1";
     route_ReadReplicas := [{| rrr_NodeID := "a"; rrr_Endpoint := "a:1"; rrr_Role := ReplicaRoleHead |};
                            {| rrr_NodeID := "b"; rrr_Endpoint := "b:1"; rrr_Role := ReplicaRoleTail |}];
     route_Writable := true; route_Readable := true |}.

Lemma messages_roundtrip_witness :
  let m := MessageRouting {| rs_Version := 9; rs_SlotCount := 4; rs_Slots := [sample_route] |} in
  transfer map_to_list map_to_list m = Some m.
Proof.
  apply (messages_roundtrip map_to_list map_to_list); [done..|]. cbn. unfold fits_i32.
  split; [lia|]. constructor; [cbn; lia|constructor].
Defined.

(** ** Errors *)
Import Go.

(** What a receiver decides on: the first of the typed errors the encoder looks
    for, the domain error, or a deadline or cancellation. *)
Inductive error_class :=
| ClassRouting (slot expected current : Z) (role : ReplicaRole) (state : option StorageReplicaState)
    (reason : RoutingMismatchReason)
| ClassAmbiguous (slot : Z) (kind : OperationKind) (expected : Z) (canceled : bool)
| ClassCondition (slot : Z) (kind : OperationKind) (expected : Z) (currentExists : bool) (metadata : option ObjectMetadata)
| ClassPressure (slot current limit : Z) (resource : BackpressureResource)
| ClassDependency (slot expected : Z) (tail : string)
| ClassNotLeader (endpoint : string)
| ClassDomain (kind : string)
| ClassDeadline
| ClassCanceled
| ClassOther.

Definition class_of (e : error) : error_class :=
  match As as_routing e with
  | Some (slot, expected, current, role, state, reason) => ClassRouting slot expected current role state reason
  | None =>
  match As as_ambiguous e with
  | Some (slot, kind, expected, _) => ClassAmbiguous slot kind expected (Is e Canceled)
  | None =>
  match As as_condition e with
  | Some (slot, kind, expected, exists_, metadata) => ClassCondition slot kind expected exists_ metadata
  | None =>
  match As as_pressure e with
  | Some (slot, current, limit, resource, _) => ClassPressure slot current limit resource
  | None =>
  match As as_dependency e with
  | Some (slot, expected, tail, _) => ClassDependency slot expected tail
  | None =>
  match As as_not_leader e with
  | Some endpoint => ClassNotLeader endpoint
  | None =>
  match domainErrorDetail e with
  | Some kind => ClassDomain kind
  | None => if Is e DeadlineExceeded then ClassDeadline else if Is e Canceled then ClassCanceled else ClassOther
  end end end end end end end.

Definition class_fits (c : error_class) : Prop :=
  match c with
  | ClassRouting slot _ _ _ _ _ | ClassAmbiguous slot _ _ _ | ClassDependency slot _ _ => fits_i32 slot
  | ClassCondition slot _ _ _ metadata => fits_i32 slot /\ fits_option fits_metadata metadata
  | ClassPressure slot current limit _ => fits_i32 slot /\ fits_i32 current /\ fits_i32 limit
  | _ => True
  end.

Lemma domain_roundtrip e kind : domainErrorDetail e = Some kind -> class_of (decodeDomainError kind) = ClassDomain kind.
Proof.
  unfold domainErrorDetail. cbn [List.fold_right].
  repeat match goal with |- (if ?b then _ else _) = _ -> _ => destruct b; [by intros [= <-]|] end. done.
Qed.

Section received.
Context (text : error -> string) (FromError : error -> option status) `{StatusLaws FromError}.

(** The library hands over what was encoded as a status. *)
Lemma received_status e c details : encodeError text FromError e = status_error text c e details ->
  received text FromError e = Some (decodeError FromError (status_error text c e details)).
Proof. intros He. unfold received. rw He. unfold status_error. rw from_status. done. Qed.

Lemma decode_first c e d rest :
  decodeError FromError (status_error text c e (d :: rest)) =
  match decode_detail c d with Some decoded => decoded | None => decodeError FromError (status_error text c e (d :: rest)) end.
Proof.
  unfold decodeError, status_error. rw !from_status. cbn [st_Details st_Code].
  destruct (decode_detail c d) as [x|] eqn:Hd; cbn; by rw Hd.
Qed.

(** An error without a status is sent as a status that decodes to its class. *)
Lemma encoded_class e : As as_status e = None -> class_fits (class_of e) ->
  exists c details, encodeError text FromError e = status_error text c e details /\
    class_of (decodeError FromError (status_error text c e details)) = class_of e.
Proof.
  intros Hs Hf. pose proof (from_none e Hs) as Hn.
  unfold encodeError. rw Hn. unfold class_of in Hf |- * at 2.
  destruct (As as_routing e) as [[[[[[slot expected] current] role] state] reason]|].
  { do 2 eexists. split; [done|]. rw decode_first. cbn. by rw i32_small. }
  destruct (As as_ambiguous e) as [[[[slot kind] expected] cause]|].
  { do 2 eexists. split; [done|]. rw decode_first. cbn. rw i32_small //.
    unfold ambiguous_code. destruct (Is e Canceled); [done|]. by destruct (Is e DeadlineExceeded || Is e ErrWriteTimeout). }
  destruct (As as_condition e) as [[[[[slot kind] expected] exists_] metadata]|].
  { destruct Hf as [Hslot Hm]. do 2 eexists. split; [done|]. rw decode_first. cbn [decode_detail].
    rw metadata_roundtrip // i32_small //. }
  destruct (As as_pressure e) as [[[[[slot current] limit] resource] cause]|].
  { destruct Hf as (H1 & H2 & H3). do 2 eexists. split; [done|]. rw decode_first. cbn [decode_detail].
    rw !i32_small //. by destruct resource. }
  destruct (As as_dependency e) as [[[[slot expected] tail] cause]|].
  { do 2 eexists. split; [done|]. rw decode_first. cbn. by rw i32_small. }
  destruct (As as_not_leader e) as [endpoint|].
  { do 2 eexists. split; [done|]. by rw decode_first. }
  destruct (domainErrorDetail e) as [kind|] eqn:Hd.
  { do 2 eexists. split; [done|]. rw decode_first. cbn [decode_detail]. by apply (domain_roundtrip e). }
  destruct (Is e DeadlineExceeded); [|destruct (Is e Canceled)]; do 2 eexists; (split; [done|]);
    unfold decodeError, status_error; by rw from_status.
Qed.

(** C35. Errors keep what their receiver decides on.  Of an error that does not
    itself hold a gRPC status, whatever it is wrapped in, and whose slots and
    limits fit [int32], the client's side gets an error of the same class with the
    same fields: a routing mismatch, an ambiguous write and whether it was
    cancelled, a failed condition with the current metadata, backpressure, an
    unreachable tail, the leader to go to, a domain error, a deadline or a
    cancellation. *)
Theorem errors_keep_class e :
  As as_status e = None -> class_fits (class_of e) ->
  exists e', received text FromError e = Some e' /\ class_of e' = class_of e.
Proof.
  intros Hs Hf. destruct (encoded_class e Hs Hf) as (c & details & He & Hc).
  exists (decodeError FromError (status_error text c e details)). split; [by apply received_status|done].
Qed.
End received.

(** The documented behaviour of [status.FromError]. *)
Definition documented_FromError (text : error -> string) (e : error) : option status :=
  match e with
  | StatusError st => Some st
  | _ => (fun st => {| st_Code := st_Code st; st_Message := text e; st_Details := st_Details st |}) <$> As as_status e
  end.

#[export] Instance documented_laws text : StatusLaws (documented_FromError text).
Proof.
  constructor.
  - intros e He. unfold documented_FromError. rw He. by destruct e.
  - done.
  - intros e st He. unfold documented_FromError. rw He. destruct e; try by eexists.
    injection He as <-. exists (st_Message st0). by destruct st0.
Qed.

Definition blank (e : error) : string := "".

Lemma errors_keep_class_witness :
  exists e', received blank (documented_FromError blank)
    (Wrapped "put" (RoutingMismatchError 3 7 8 ReplicaRoleTail (Some StateActive) RoutingMismatchReasonWrongRole)) = Some e' /\
    class_of e' = ClassRouting 3 7 8 ReplicaRoleTail (Some StateActive) RoutingMismatchReasonWrongRole.
Proof.
  apply (errors_keep_class blank (documented_FromError blank)
    (Wrapped "put" (RoutingMismatchError 3 7 8 ReplicaRoleTail (Some StateActive) RoutingMismatchReasonWrongRole))).
  - reflexivity.
  - cbn. unfold fits_i32. lia.
Defined.

(** An unreachable tail is not reported as such when the failure is a gRPC
    status, as an unavailable tail's is: [encodeError] passes the error on
    unencoded, the library sends the status inside it, and the router's side no
    longer finds the read dependency in what it receives. *)
Theorem status_hides_dependency text FromError `{StatusLaws FromError} slot expected tail message :
  exists e', received text FromError (ReadDependencyError slot expected tail
      (StatusError {| st_Code := CodeUnavailable; st_Message := message; st_Details := [] |})) = Some e' /\
    As as_dependency e' = None.
Proof.
  set (e := ReadDependencyError _ _ _ _). destruct (from_wrapped e _ eq_refl) as [m Hm].
  unfold received, encodeError. rw Hm Hm. cbn. eexists. split; [done|]. unfold decodeError. by rw from_status.
Qed.

Lemma status_hides_dependency_witness :
  exists e', received blank (documented_FromError blank) (ReadDependencyError 3 7 "c"
      (StatusError {| st_Code := CodeUnavailable; st_Message := ""; st_Details := [] |})) = Some e' /\
    As as_dependency e' = None.
Proof. apply (status_hides_dependency blank (documented_FromError blank)). Defined.
