(* ===== verification/ReplicationSession.v ===== *)
(** * Replication sessions (src/transport/grpcx/replication_session.go)

    A node keeps one session per peer.  Forwards, commits and commit advances
    are queued; the session's loop connects, sends what the peer's credits
    allow, matches acknowledgements with requests, and after a broken stream
    sends again what was not acknowledged.

    The loop is a function of the events its [select] statements can take; [point]
    says where in [run] it is.  A request's [done] channel is the list of the
    calls of [complete].  Connecting, sending and receiving are calls of the gRPC
    package: the events say how they went.  Metrics are not modelled. *)

From S2P Require Import Prelude.
From S2P Require Import CoordTypes.
From S2P Require Import StorageTypes.
From S2P Require Import Journal.
From S2P Require Import Wire.
From S2P Require Import WireErrors.

Open Scope Z_scope.
Open Scope record_scope.
Import Go.

Definition replicationSessionQueueDepth : Z := 8192.
Definition replicationReconnectMinBackoff : Z := 50 * 10 ^ 6.
Definition replicationReconnectMaxBackoff : Z := 10 ^ 9.
Definition replicationBlockedSlotProbe : Z := 10 * 10 ^ 6.
Definition replicationPendingAckTimeout : Z := 250 * 10 ^ 6.

(** ** Frames

    The pointers inside a message that the code follows without a test are
    plain fields. *)
Definition kind_string (kind : OperationKind) : string :=
  match kind with
  | OperationKindPut => "put"
  | OperationKindDelete => "delete"
  | OperationKindUnsupported other => other
  end.

Definition kind_of_string (s : string) : OperationKind :=
  if String.eqb s "put" then OperationKindPut
  else if String.eqb s "delete" then OperationKindDelete
  else OperationKindUnsupported s.

Record pb_WriteOperation := {
  pb_op_Slot : Z;
  pb_op_Sequence : Z;
  pb_op_Kind : string;
  pb_op_Key : string;
  pb_op_Value : string;
  pb_op_Metadata : option pb_ObjectMetadata;
}.

Record pb_ForwardWriteRequest := {
  pb_fwd_Operation : pb_WriteOperation;
  pb_fwd_FromNodeId : string;
  pb_fwd_ChainVersion : Z;
}.

Record pb_CommitWriteRequest := {
  pb_cw_Slot : Z;
  pb_cw_Sequence : Z;
  pb_cw_FromNodeId : string;
  pb_cw_ChainVersion : Z;
}.

Record pb_CommitAdvanceRequest := {
  pb_ca_Slot : Z;
  pb_ca_CommittedThrough : Z;
  pb_ca_FromNodeId : string;
  pb_ca_ChainVersion : Z;
}.

Record pb_ReplicationAck := { pb_ack_Success : bool; pb_ack_EncodedError : bytes }.

Inductive pb_ReplicationCreditKind :=
| REPLICATION_CREDIT_KIND_UNSPECIFIED
| REPLICATION_CREDIT_KIND_FORWARD
| REPLICATION_CREDIT_KIND_COMMIT
| REPLICATION_CREDIT_KIND_COMMIT_ADVANCE.

Record pb_ReplicationSlotCredit := {
  pb_credit_Slot : Z;
  pb_credit_Available : Z;
  pb_credit_Kind : pb_ReplicationCreditKind;
}.

Inductive pb_FramePayload :=
| ReplicationFrame_ForwardWrite (req : pb_ForwardWriteRequest)
| ReplicationFrame_CommitWrite (req : pb_CommitWriteRequest)
| ReplicationFrame_Ack (ack : option pb_ReplicationAck)
| ReplicationFrame_SlotCredit (credit : pb_ReplicationSlotCredit)
| ReplicationFrame_CommitAdvance (req : pb_CommitAdvanceRequest).

Record pb_ReplicationFrame := { pb_RequestId : Z; pb_Payload : option pb_FramePayload }.

(** [isReplicationFramePayload] and the types that implement it *)
Inductive replicationPayload :=
| replicationForwardPayload (req : ForwardWriteRequest)
| replicationCommitPayload (req : CommitWriteRequest)
| replicationCommitAdvancePayload (req : CommitAdvanceRequest).

Definition protoWriteOperation (op : WriteOperation) : pb_WriteOperation :=
  {| pb_op_Slot := i32 (op_Slot op); pb_op_Sequence := op_Sequence op; pb_op_Kind := kind_string (op_Kind op);
     pb_op_Key := op_Key op; pb_op_Value := op_Value op;
     pb_op_Metadata := protoObjectMetadata (Some (op_Metadata op)) |}.

Definition toFrame (p : replicationPayload) (requestID : Z) : pb_ReplicationFrame :=
  {| pb_RequestId := requestID;
     pb_Payload := Some
       match p with
       | replicationForwardPayload req =>
           ReplicationFrame_ForwardWrite
             {| pb_fwd_Operation := protoWriteOperation (fwd_Operation req);
                pb_fwd_FromNodeId := fwd_FromNodeID req; pb_fwd_ChainVersion := fwd_ChainVersion req |}
       | replicationCommitPayload req =>
           ReplicationFrame_CommitWrite
             {| pb_cw_Slot := i32 (cw_Slot req); pb_cw_Sequence := cw_Sequence req;
                pb_cw_FromNodeId := cw_FromNodeID req; pb_cw_ChainVersion := cw_ChainVersion req |}
       | replicationCommitAdvancePayload req =>
           ReplicationFrame_CommitAdvance
             {| pb_ca_Slot := i32 (ca_Slot req); pb_ca_CommittedThrough := ca_CommittedThrough req;
                pb_ca_FromNodeId := ca_FromNodeID req; pb_ca_ChainVersion := ca_ChainVersion req |}
       end |}.

Definition payload_kind (p : replicationPayload) : string :=
  match p with
  | replicationForwardPayload _ => "forward"
  | replicationCommitPayload _ => "commit"
  | replicationCommitAdvancePayload _ => "commit_advance"
  end.

Definition payload_slot (p : replicationPayload) : Z :=
  match p with
  | replicationForwardPayload req => op_Slot (fwd_Operation req)
  | replicationCommitPayload req => cw_Slot req
  | replicationCommitAdvancePayload req => ca_Slot req
  end.

Definition payload_sequence (p : replicationPayload) : Z :=
  match p with
  | replicationForwardPayload req => op_Sequence (fwd_Operation req)
  | replicationCommitPayload req => cw_Sequence req
  | replicationCommitAdvancePayload req => ca_CommittedThrough req
  end.

(** ** Requests and what a session keeps *)
Record outboundReplicationRequest := {
  out_id : Z;
  out_ctx : nat;
  out_frame : pb_ReplicationFrame;
  out_kind : string;
  out_slot : Z;
  out_seq : Z;
}.
Abbreviation request := outboundReplicationRequest.

(** The request [submitReplicationRequest] and its asynchronous form build. *)
Definition new_request (requestID : Z) (ctx : nat) (p : replicationPayload) : request :=
  {| out_id := requestID; out_ctx := ctx; out_frame := toFrame p requestID;
     out_kind := payload_kind p; out_slot := payload_slot p; out_seq := payload_sequence p |}.

(** [replicationSlotKindKey] *)
Definition replicationSlotKindKey : Type := string * Z.
Definition request_key (req : request) : replicationSlotKindKey := (out_kind req, out_slot req).

(** The diagnostics of a slot and kind; the zero time is 0. *)
Record replicationSlotState := {
  advertisedCredit : Z;
  localCredit : Z;
  localSpoolDepth : Z;
  slot_pending : gmap Z Z;
  lastEnqueuedSeq : Z;
  lastSentSeq : Z;
  lastAckedSeq : Z;
  lastCreditUpdate : Z;
  blockedSince : Z;
}.

#[export] Instance replicationSlotState_rebuild : Rebuild replicationSlotState := fun s =>
  {| advertisedCredit := advertisedCredit s; localCredit := localCredit s; localSpoolDepth := localSpoolDepth s;
     slot_pending := slot_pending s; lastEnqueuedSeq := lastEnqueuedSeq s; lastSentSeq := lastSentSeq s;
     lastAckedSeq := lastAckedSeq s; lastCreditUpdate := lastCreditUpdate s; blockedSince := blockedSince s |}.

Definition new_slot_state : replicationSlotState :=
  {| advertisedCredit := 0; localCredit := 0; localSpoolDepth := 0; slot_pending := ∅; lastEnqueuedSeq := 0;
     lastSentSeq := 0; lastAckedSeq := 0; lastCreditUpdate := 0; blockedSince := 0 |}.

(** Where [run] is: at the head of the loop, at the first [select] of the
    reconnection, before a dial, waiting for the backoff timer, in
    [drainInboundFrames] with so many frames to go, before the search for a
    request to send, before [stream.Send] of the request at an index, in the
    last [select], or past it. *)
Inductive point :=
| AtLoop
| AtConnect
| AtDial
| AtBackoff
| AtDrain (left : nat)
| AtNext
| AtSend (index : nat)
| AtSelect
| AtReturn.

Record session := {
  ss_sendCh : list request;
  ss_closed : bool;
  ss_diag : gmap replicationSlotKindKey replicationSlotState;
  ss_answers : list (request * option error);
  ss_point : point;
  ss_backlog : list request;
  ss_pending : gmap Z request;
  ss_pendingSince : gmap Z Z;
  ss_pendingBySlot : gmap replicationSlotKindKey Z;
  ss_credits : gmap replicationSlotKindKey Z;
  ss_probeAfter : gmap replicationSlotKindKey Z;
  ss_stream : bool;
  ss_backoff : Z;
}.

#[export] Instance session_rebuild : Rebuild session := fun s =>
  {| ss_sendCh := ss_sendCh s; ss_closed := ss_closed s; ss_diag := ss_diag s; ss_answers := ss_answers s;
     ss_point := ss_point s; ss_backlog := ss_backlog s; ss_pending := ss_pending s;
     ss_pendingSince := ss_pendingSince s; ss_pendingBySlot := ss_pendingBySlot s; ss_credits := ss_credits s;
     ss_probeAfter := ss_probeAfter s; ss_stream := ss_stream s; ss_backoff := ss_backoff s |}.

Definition newReplicationPeerSession : session :=
  {| ss_sendCh := []; ss_closed := false; ss_diag := ∅; ss_answers := []; ss_point := AtLoop; ss_backlog := [];
     ss_pending := ∅; ss_pendingSince := ∅; ss_pendingBySlot := ∅; ss_credits := ∅; ss_probeAfter := ∅;
     ss_stream := false; ss_backoff := replicationReconnectMinBackoff |}.

Definition complete (req : request) (err : option error) (s : session) : session :=
  s <| ss_answers := ss_answers s ++ [(req, err)] |>.

(** ** Diagnostics *)
Definition debugStateFor (s : session) (key : replicationSlotKindKey) : replicationSlotState :=
  default new_slot_state (ss_diag s !! key).

Definition set_state (key : replicationSlotKindKey) (state : replicationSlotState) (s : session) : session :=
  s <| ss_diag := <[key := state]> (ss_diag s) |>.

Definition mark_blocked (now : Z) (state : replicationSlotState) : replicationSlotState :=
  if blockedSince state =? 0 then state <| blockedSince := now |> else state.

Definition clear_blocked (state : replicationSlotState) : replicationSlotState :=
  if (0 <? localCredit state) && (localSpoolDepth state =? 0) then state <| blockedSince := 0 |> else state.

Definition recordEnqueue (now : Z) (req : request) (s : session) : session :=
  let state := debugStateFor s (request_key req) in
  let state := state <| localSpoolDepth := localSpoolDepth state + 1 |> <| lastEnqueuedSeq := out_seq req |> in
  set_state (request_key req) (if localCredit state <=? 0 then mark_blocked now state else state) s.

Definition recordCredit (now : Z) (key : replicationSlotKindKey) (available : Z) (s : session) : session :=
  let state := debugStateFor s key in
  set_state key (clear_blocked
    (state <| advertisedCredit := available |> <| localCredit := available |> <| lastCreditUpdate := now |>)) s.

Definition recordSent (req : request) (credit : Z) (s : session) : session :=
  let state := debugStateFor s (request_key req) in
  let state := if 0 <? localSpoolDepth state then state <| localSpoolDepth := localSpoolDepth state - 1 |> else state in
  set_state (request_key req) (clear_blocked
    (state <| localCredit := credit |> <| slot_pending := <[out_id req := out_seq req]> (slot_pending state) |>
           <| lastSentSeq := out_seq req |>)) s.

Definition recordAck (req : request) (s : session) : session :=
  let state := debugStateFor s (request_key req) in
  set_state (request_key req) (clear_blocked
    (state <| slot_pending := delete (out_id req) (slot_pending state) |>
           <| lastAckedSeq := Z.max (out_seq req) (lastAckedSeq state) |>)) s.

Definition recordBlocked (now : Z) (req : request) (s : session) : session :=
  set_state (request_key req) (mark_blocked now (debugStateFor s (request_key req))) s.

Definition recordRequeued (now : Z) (req : request) (s : session) : session :=
  let state := debugStateFor s (request_key req) in
  set_state (request_key req) (mark_blocked now
    (state <| slot_pending := delete (out_id req) (slot_pending state) |>
           <| localSpoolDepth := localSpoolDepth state + 1 |>)) s.

Definition recordCanceledBacklog (req : request) (s : session) : session :=
  let state := debugStateFor s (request_key req) in
  let state := if 0 <? localSpoolDepth state then state <| localSpoolDepth := localSpoolDepth state - 1 |> else state in
  set_state (request_key req) (clear_blocked state) s.

(** One entry of [slotSnapshots]: the kind, its state, and the requests sent and
    not acknowledged, in the order of their IDs. *)
Definition slotSnapshots (s : session) (slot : Z) : list (string * replicationSlotState * list (Z * Z)) :=
  omap (fun kind =>
    state ← ss_diag s !! (kind, slot);
    Some (kind, state, isort (fun a b => fst a <=? fst b) (map_to_list (slot_pending state))))
  ["forward"; "commit"; "commit_advance"].

(** ** Submission *)
Definition enqueue (req : request) (s : session) : res error session :=
  if ss_closed s then Err (Sentinel Canceled)
  else if Z.of_nat (length (ss_sendCh s)) <? replicationSessionQueueDepth
  then Ok (s <| ss_sendCh := ss_sendCh s ++ [req] |>)
  else Err (Wrapped "replication session queue full" (Sentinel ErrReplicaBackpressure)).

(** [close] up to the wait for the loop to return. *)
Definition session_close (s : session) : session := s <| ss_closed := true |>.

(** ** The loop *)
Definition closeStream (s : session) : session := s <| ss_stream := false |>.

(** A request leaves [pending], [pendingSince] and its count in [pendingBySlot]. *)
Definition remove_pending (id : Z) (req : request) (s : session) : session :=
  let key := request_key req in
  let left := default 0 (ss_pendingBySlot s !! key) - 1 in
  s <| ss_pending := delete id (ss_pending s) |>
    <| ss_pendingSince := delete id (ss_pendingSince s) |>
    <| ss_pendingBySlot :=
         if left <=? 0 then delete key (ss_pendingBySlot s) else <[key := left]> (ss_pendingBySlot s) |>.

Definition pending_in_order (s : session) : list (Z * request) :=
  isort (fun a b => fst a <=? fst b) (map_to_list (ss_pending s)).

Definition requeuePending (now : Z) (s : session) : session :=
  let replayed := pending_in_order s in
  let s := foldl (fun s '(id, req) => remove_pending id req (recordRequeued now req s)) s replayed in
  s <| ss_backlog := replayed.*2 ++ ss_backlog s |>.

Definition slotCredit (s : session) (key : replicationSlotKindKey) : Z := default 1 (ss_credits s !! key).

Definition setSlotCredit (key : replicationSlotKindKey) (available : Z) (s : session) : session :=
  s <| ss_credits := <[key := if available <? 0 then 0 else available]> (ss_credits s) |>.

Definition allowBlockedProbe (now : Z) (key : replicationSlotKindKey) (s : session) : bool * session :=
  if 0 <? slotCredit s key then (true, s)
  else if 0 <? default 0 (ss_pendingBySlot s !! key) then (false, s)
  else if match ss_probeAfter s !! key with Some until => now <? until | None => false end then (false, s)
  else (true, s <| ss_probeAfter := <[key := now + replicationBlockedSlotProbe]> (ss_probeAfter s) |>).

(** [range pendingSince] visits the entries in some order. *)
Definition stale_entry (now : Z) (s : session) (oldest : option (request * Z)) (entry : Z * Z) : option (request * Z) :=
  let '(id, sentAt) := entry in
  if now - sentAt <? replicationPendingAckTimeout then oldest
  else
    match ss_pending s !! id with
    | None => oldest
    | Some req =>
        match oldest with
        | None => Some (req, sentAt)
        | Some (_, oldestAt) => if sentAt <? oldestAt then Some (req, sentAt) else oldest
        end
    end.

(** The entries of [pendingSince] without a request are deleted on the way. *)
Definition stalePending (now : Z) (order : list (Z * Z)) (s : session) : session * option request :=
  let forgotten := filter (fun e => replicationPendingAckTimeout <= now - e.2 /\ ss_pending s !! e.1 = None) order in
  (s <| ss_pendingSince := foldl (fun m e => delete e.1 m) (ss_pendingSince s) forgotten |>,
   fst <$> foldl (stale_entry now s) None order).

(** [nextSendableIndex]: the clock and the contexts are asked anew for every
    request of every pass over the backlog; a request whose context has ended is
    answered and removed, and the search starts again. *)
Section next.
Context (now : nat -> nat -> Z) (ctx_err : nat -> nat -> request -> option error).

Inductive scan_result := ScanSendable (index : nat) | ScanCanceled (index : nat) (req : request) (err : error) | ScanNothing.

Fixpoint scan (pass i : nat) (backlog : list request) (s : session) : scan_result * session :=
  match backlog with
  | [] => (ScanNothing, s)
  | req :: rest =>
      match ctx_err pass i req with
      | Some err => (ScanCanceled i req err, s)
      | None =>
          match allowBlockedProbe (now pass i) (request_key req) s with
          | (true, s) => (ScanSendable i, s)
          | (false, s) => scan pass (S i) rest (recordBlocked (now pass i) req s)
          end
      end
  end.

Fixpoint next_passes (fuel pass : nat) (s : session) : option nat * session :=
  match fuel with
  | O => (None, s)
  | S fuel =>
      match scan pass 0 (ss_backlog s) s with
      | (ScanSendable i, s) => (Some i, s)
      | (ScanNothing, s) => (None, s)
      | (ScanCanceled i req err, s) =>
          let s := recordCanceledBacklog req (complete req (Some err) s) in
          next_passes fuel (S pass) (s <| ss_backlog := delete i (ss_backlog s) |>)
      end
  end.

Definition nextSendableIndex (s : session) : option nat * session := next_passes (S (length (ss_backlog s))) 0 s.
End next.

(** ** Acknowledgements

    [marshal] and [unmarshal] are the protobuf package's encoding of a status. *)
Section acks.
Context (text : error -> string) (FromError : error -> option status).
Context (marshal : status -> option bytes) (unmarshal : bytes -> option status).

Definition marshalEncodedError (err : option error) : bytes :=
  match err with
  | None => []
  | Some e => match FromError (encodeError text FromError e) with None => [] | Some st => default [] (marshal st) end
  end.

(** [status.ErrorProto] is nil for a status whose code is OK. *)
Definition unmarshalEncodedError (encoded : bytes) : option error :=
  match encoded with
  | [] => None
  | _ =>
      match unmarshal encoded with
      | None => Some (Wrapped "unmarshal replication error status" (Sentinel (OtherSentinel "proto")))
      | Some st => match st_Code st with OK_ => None | _ => Some (decodeError FromError (StatusError st)) end
      end
  end.

Definition credit_kind_string (kind : pb_ReplicationCreditKind) : string :=
  match kind with
  | REPLICATION_CREDIT_KIND_COMMIT => "commit"
  | REPLICATION_CREDIT_KIND_COMMIT_ADVANCE => "commit_advance"
  | REPLICATION_CREDIT_KIND_FORWARD | REPLICATION_CREDIT_KIND_UNSPECIFIED => "forward"
  end.

Definition handleCredit (now : Z) (credit : pb_ReplicationSlotCredit) (s : session) : session :=
  let key := (credit_kind_string (pb_credit_Kind credit), pb_credit_Slot credit) in
  let available := pb_credit_Available credit in
  let s := setSlotCredit key available s in
  let s := if 0 <? available then s <| ss_probeAfter := delete key (ss_probeAfter s) |> else s in
  recordCredit now key available s.

Definition handleAck (now : Z) (requestID : Z) (ack : option pb_ReplicationAck) (s : session) : session :=
  match ss_pending s !! requestID with
  | None => s
  | Some req =>
      let s := recordAck req (remove_pending requestID req s) in
      match ack with
      | None => complete req None s
      | Some ack =>
          if pb_ack_Success ack then complete req None s
          else
            let ackErr := unmarshalEncodedError (pb_ack_EncodedError ack) in
            if match ackErr with Some e => Is e ErrReplicaBackpressure | None => false end then
              let s := setSlotCredit (request_key req) 0 s in
              let s := s <| ss_probeAfter := <[request_key req := now + replicationBlockedSlotProbe]> (ss_probeAfter s) |> in
              let s := recordRequeued now req s in
              s <| ss_backlog := req :: ss_backlog s |>
            else complete req ackErr s
      end
  end.

Definition handleInboundFrame (now : Z) (frame : option pb_ReplicationFrame) (s : session) : session :=
  match frame with
  | None => s
  | Some frame =>
      match pb_Payload frame with
      | Some (ReplicationFrame_SlotCredit credit) => handleCredit now credit s
      | Some (ReplicationFrame_Ack ack) => handleAck now (pb_RequestId frame) ack s
      | _ => s
      end
  end.

(** ** Steps of the loop *)
Inductive session_event :=
| EvContinue
| EvReceive
| EvClosed
| EvDefault
| EvTimer
| EvDialed (ok : bool)
| EvFrame (now : Z) (frame : option pb_ReplicationFrame)
| EvStreamError (now : Z)
| EvNext (checked : Z) (order : list (Z * Z)) (now : nat -> nat -> Z) (ctx_err : nat -> nat -> request -> option error)
| EvSent (now : Z) (ok : bool).

Definition goto (p : point) (s : session) : session := s <| ss_point := p |>.

Definition receive (s : session) : option session :=
  match ss_sendCh s with
  | [] => None
  | req :: rest => Some (s <| ss_sendCh := rest |> <| ss_backlog := ss_backlog s ++ [req] |>)
  end.

Definition cancel_all (reqs : list request) (s : session) : session :=
  foldl (fun s req => complete req (Some (Sentinel Canceled)) s) s reqs.

(** [return]: the loop's variables are gone. *)
Definition returned (s : session) : session :=
  s <| ss_point := AtReturn |> <| ss_stream := false |> <| ss_backlog := [] |> <| ss_pending := ∅ |>
    <| ss_pendingSince := ∅ |> <| ss_pendingBySlot := ∅ |>.

Definition lose_stream (now : Z) (s : session) : session := goto AtLoop (requeuePending now (closeStream s)).

Definition next_backoff (backoff : Z) : Z :=
  if backoff <? replicationReconnectMaxBackoff
  then if replicationReconnectMaxBackoff <? backoff * 2 then replicationReconnectMaxBackoff else backoff * 2
  else backoff.

Definition retry_connect (s : session) : session := goto AtConnect (s <| ss_backoff := next_backoff (ss_backoff s) |>).

Definition connected (s : session) : session :=
  goto (AtDrain 256) (s <| ss_stream := true |> <| ss_backoff := replicationReconnectMinBackoff |>).

(** Before the last [select]: a request that waits too long for its
    acknowledgement breaks the stream; otherwise look for one to send. *)
Definition next_round (checked : Z) (order : list (Z * Z)) (now : nat -> nat -> Z)
    (ctx_err : nat -> nat -> request -> option error) (s : session) : session :=
  match stalePending checked order s with
  | (s, Some req) => lose_stream checked (recordBlocked checked req s)
  | (s, None) =>
      match ss_backlog s with
      | [] => goto AtSelect s
      | _ =>
          match nextSendableIndex now ctx_err s with
          | (Some idx, s) => goto (AtSend idx) s
          | (None, s) => goto AtSelect s
          end
      end
  end.

Definition sent_request (now : Z) (idx : nat) (req : request) (s : session) : session :=
  let key := request_key req in
  let nextCredit := slotCredit s key - 1 in
  let s := recordSent req nextCredit (setSlotCredit key nextCredit s) in
  goto AtLoop
    (s <| ss_pending := <[out_id req := req]> (ss_pending s) |>
       <| ss_pendingSince := <[out_id req := now]> (ss_pendingSince s) |>
       <| ss_pendingBySlot := <[key := default 0 (ss_pendingBySlot s !! key) + 1]> (ss_pendingBySlot s) |>
       <| ss_backlog := delete idx (ss_backlog s) |>).

Definition session_step (ev : session_event) (s : session) : option session :=
  match ss_point s, ev with
  | AtLoop, EvContinue => Some (goto (if ss_stream s then AtDrain 256 else AtConnect) s)
  | AtConnect, EvReceive => goto AtDial <$> receive s
  | AtConnect, EvClosed =>
      if ss_closed s then Some (returned (cancel_all (map_to_list (ss_pending s)).*2 (cancel_all (ss_backlog s) s)))
      else None
  | AtConnect, EvDefault =>
      match ss_sendCh s with
      | [] => if ss_closed s then None
              else Some (goto (match ss_backlog s with [] => AtSelect | _ => AtDial end) s)
      | _ => None
      end
  | AtDial, EvDialed true => Some (connected s)
  | AtDial, EvDialed false => Some (goto AtBackoff s)
  | AtBackoff, EvReceive => retry_connect <$> receive s
  | AtBackoff, EvTimer => Some (retry_connect s)
  | AtBackoff, EvClosed => if ss_closed s then Some (returned (cancel_all (ss_backlog s) s)) else None
  | AtDrain O, EvContinue => Some (goto AtLoop s)
  | AtDrain (S n), EvFrame now frame => Some (goto (AtDrain n) (handleInboundFrame now frame s))
  | AtDrain (S n), EvStreamError now => Some (lose_stream now s)
  | AtDrain (S n), EvDefault => Some (goto AtNext s)
  | AtNext, EvNext checked order now ctx_err =>
      if bool_decide (order ≡ₚ map_to_list (ss_pendingSince s)) then Some (next_round checked order now ctx_err s)
      else None
  | AtSend idx, EvSent now ok =>
      match ss_backlog s !! idx with
      | None => None
      | Some req => Some (if ok then sent_request now idx req s else lose_stream now s)
      end
  | AtSelect, EvReceive => goto AtLoop <$> receive s
  | AtSelect, EvFrame now frame => if ss_stream s then Some (goto AtLoop (handleInboundFrame now frame s)) else None
  | AtSelect, EvStreamError now => if ss_stream s then Some (lose_stream now s) else None
  | AtSelect, EvClosed =>
      if ss_closed s
      then Some (returned (cancel_all (map_to_list (ss_pending s)).*2 (cancel_all (ss_backlog s) (closeStream s))))
      else None
  | _, _ => None
  end.
End acks.
