(* ===== verification/ReplicationStream.v ===== *)
(** * Replication streams (src/transport/grpcx/server.go, [Replicate])

    The server's side of a replication stream: frames are handed to one worker
    per slot, handled by the node, acknowledged, and followed by the credits of
    the slot on every open stream.  [replication_step] joins a session with the
    streams it has opened, one after the other, to one server; a stream delivers
    frames in order, each way, until it breaks, and the server may go on with
    what it has received of a broken one. *)

From S2P Require Import Prelude.
From S2P Require Import CoordTypes.
From S2P Require Import StorageTypes.
From S2P Require Import Journal.
From S2P Require Import Wire.
From S2P Require Import WireErrors.
From S2P Require Import ReplicationSession.

Open Scope Z_scope.
Open Scope record_scope.
Import Go.

(** What the server asks of its storage node: [AcceptForwardWrite],
    [AcceptCommitWrite] and [AcceptCommitAdvance], the credits of a slot, and
    whether the sender of the stream is the node it says it is. *)
Class ReplicationPeer (N : Type) := {
  peer_accept : N -> replicationPayload -> N * option error;
  peer_credit : N -> Z -> string -> Z;
  peer_authorize : string -> option error;
}.

(** ** Frames received *)
Definition fromProtoWriteOperation (op : pb_WriteOperation) : WriteOperation :=
  {| op_Slot := pb_op_Slot op; op_Sequence := pb_op_Sequence op; op_Kind := kind_of_string (pb_op_Kind op);
     op_Key := pb_op_Key op; op_Value := pb_op_Value op;
     op_Metadata := derefObjectMetadata (fromProtoObjectMetadata (pb_op_Metadata op)) |}.

Definition frame_request (frame : pb_ReplicationFrame) : option replicationPayload :=
  match pb_Payload frame with
  | Some (ReplicationFrame_ForwardWrite req) =>
      Some (replicationForwardPayload
        {| fwd_Operation := fromProtoWriteOperation (pb_fwd_Operation req);
           fwd_FromNodeID := pb_fwd_FromNodeId req; fwd_ChainVersion := pb_fwd_ChainVersion req |})
  | Some (ReplicationFrame_CommitWrite req) =>
      Some (replicationCommitPayload
        {| cw_Slot := pb_cw_Slot req; cw_Sequence := pb_cw_Sequence req;
           cw_FromNodeID := pb_cw_FromNodeId req; cw_ChainVersion := pb_cw_ChainVersion req |})
  | Some (ReplicationFrame_CommitAdvance req) =>
      Some (replicationCommitAdvancePayload
        {| ca_Slot := pb_ca_Slot req; ca_CommittedThrough := pb_ca_CommittedThrough req;
           ca_FromNodeID := pb_ca_FromNodeId req; ca_ChainVersion := pb_ca_ChainVersion req |})
  | _ => None
  end.

Definition payload_from (p : replicationPayload) : string :=
  match p with
  | replicationForwardPayload req => fwd_FromNodeID req
  | replicationCommitPayload req => cw_FromNodeID req
  | replicationCommitAdvancePayload req => ca_FromNodeID req
  end.

Definition frame_slot (frame : pb_ReplicationFrame) : Z :=
  match frame_request frame with Some p => payload_slot p | None => -1 end.

Record server_stream := {
  st_open : bool;
  st_up : list pb_ReplicationFrame;
  st_workers : gmap Z (list pb_ReplicationFrame);
  st_loose : list pb_ReplicationFrame;
  st_down : list pb_ReplicationFrame;
}.

#[export] Instance server_stream_rebuild : Rebuild server_stream := fun st =>
  {| st_open := st_open st; st_up := st_up st; st_workers := st_workers st; st_loose := st_loose st;
     st_down := st_down st |}.

Definition new_stream : server_stream :=
  {| st_open := true; st_up := []; st_workers := ∅; st_loose := []; st_down := [] |}.

(** The queue of a slot's worker; it holds at most [worker_queue] frames. *)
Definition worker_queue : nat := 128.
Definition workerForSlot (st : server_stream) (slot : Z) : list pb_ReplicationFrame := default [] (st_workers st !! slot).

(** [dispatchFrame]; [None] while the worker's queue is full. *)
Definition dispatchFrame (frame : pb_ReplicationFrame) (st : server_stream) : option server_stream :=
  let slot := frame_slot frame in
  if slot <? 0 then Some (st <| st_loose := st_loose st ++ [frame] |>)
  else if bool_decide (length (workerForSlot st slot) < worker_queue)%nat
  then Some (st <| st_workers := <[slot := workerForSlot st slot ++ [frame]]> (st_workers st) |>)
  else None.

(** [stream.Send] fails once the stream is gone. *)
Definition sendFrames (frames : list pb_ReplicationFrame) (st : server_stream) : server_stream :=
  if st_open st then st <| st_down := st_down st ++ frames |> else st.

Section server.
Context (text : error -> string) (FromError : error -> option status).
Context (marshal : status -> option bytes) (unmarshal : bytes -> option status).
Context {N : Type} {P : ReplicationPeer N}.

Definition ack_frame (requestID : Z) (err : option error) : pb_ReplicationFrame :=
  {| pb_RequestId := requestID;
     pb_Payload := Some (ReplicationFrame_Ack (Some
       {| pb_ack_Success := match err with None => true | Some _ => false end;
          pb_ack_EncodedError := marshalEncodedError text FromError marshal err |})) |}.

Definition credit_kinds : list pb_ReplicationCreditKind :=
  [REPLICATION_CREDIT_KIND_FORWARD; REPLICATION_CREDIT_KIND_COMMIT; REPLICATION_CREDIT_KIND_COMMIT_ADVANCE].

Definition credit_frames (n : N) (slot : Z) : list pb_ReplicationFrame :=
  (fun kind =>
     {| pb_RequestId := 0;
        pb_Payload := Some (ReplicationFrame_SlotCredit
          {| pb_credit_Slot := i32 slot; pb_credit_Available := i32 (peer_credit n slot (credit_kind_string kind));
             pb_credit_Kind := kind |}) |}) <$> credit_kinds.

Definition broadcastSlotCredit (n : N) (slot : Z) (streams : list server_stream) : list server_stream :=
  if slot <? 0 then streams else sendFrames (credit_frames n slot) <$> streams.

Definition payload_required : error :=
  StatusError {| st_Code := CodeOther 3; st_Message := "replication frame payload required"; st_Details := [] |}.

(** The node's answer to a frame, and the slot whose credits are announced. *)
Definition answer_frame (n : N) (frame : pb_ReplicationFrame) : N * option error :=
  match frame_request frame with
  | None => (n, Some payload_required)
  | Some p =>
      match peer_authorize (payload_from p) with
      | Some err => (n, Some err)
      | None => peer_accept n p
      end
  end.

(** [handleFrame] on stream [k]: the answer, the acknowledgement, the credits. *)
Definition handleFrame (k : nat) (frame : pb_ReplicationFrame) (n : N) (streams : list server_stream)
    : N * list server_stream * option error :=
  let '(n, err) := answer_frame n frame in
  let streams := alter (sendFrames [ack_frame (pb_RequestId frame) err]) k streams in
  (n, broadcastSlotCredit n (frame_slot frame) streams, err).

(** ** A session and its server *)
Record replication := {
  w_session : session;
  w_nextID : Z;
  w_accepted : list request;
  w_streams : list server_stream;
  w_sent : list (nat * pb_ReplicationFrame);
  w_node : N;
  w_handled : list (nat * pb_ReplicationFrame * option error);
}.

#[export] Instance replication_rebuild : Rebuild replication := fun w =>
  {| w_session := w_session w; w_nextID := w_nextID w; w_accepted := w_accepted w; w_streams := w_streams w;
     w_sent := w_sent w; w_node := w_node w; w_handled := w_handled w |}.

Definition current_stream (w : replication) : nat := (length (w_streams w) - 1)%nat.

(** The events of the loop that do not touch a stream. *)
Definition local_event (ev : session_event) : bool :=
  match ev with EvFrame _ _ | EvSent _ _ | EvDialed true => false | _ => true end.

Definition transmit (frame : pb_ReplicationFrame) (w : replication) : replication :=
  w <| w_streams := alter (fun st => st <| st_up := st_up st ++ [frame] |>) (current_stream w) (w_streams w) |>
    <| w_sent := w_sent w ++ [(current_stream w, frame)] |>.

Definition handled (k : nat) (frame : pb_ReplicationFrame) (st : server_stream) (w : replication) : replication :=
  let '(n, streams, err) := handleFrame k frame (w_node w) (<[k := st]> (w_streams w)) in
  w <| w_node := n |> <| w_streams := streams |> <| w_handled := w_handled w ++ [(k, frame, err)] |>.

Abbreviation loop := (session_step FromError unmarshal).

Inductive replication_step (w : replication) : replication -> Prop :=
| step_submit ctx p s' :
    w_nextID w + 1 < u64_mod ->
    let req := new_request (u64_add (w_nextID w) 1) ctx p in
    enqueue req (w_session w) = Ok s' ->
    replication_step w (w <| w_session := s' |> <| w_nextID := out_id req |> <| w_accepted := w_accepted w ++ [req] |>)
| step_other_request :
    w_nextID w + 1 < u64_mod -> replication_step w (w <| w_nextID := u64_add (w_nextID w) 1 |>)
| step_recorded now req :
    req ∈ w_accepted w -> replication_step w (w <| w_session := recordEnqueue now req (w_session w) |>)
| step_close : replication_step w (w <| w_session := session_close (w_session w) |>)
| step_loop ev s' :
    local_event ev = true -> loop ev (w_session w) = Some s' -> replication_step w (w <| w_session := s' |>)
| step_connect s' :
    loop (EvDialed true) (w_session w) = Some s' ->
    replication_step w (w <| w_session := s' |> <| w_streams := w_streams w ++ [new_stream] |>)
| step_frame now st frame rest s' :
    w_streams w !! current_stream w = Some st -> st_down st = frame :: rest ->
    loop (EvFrame now (Some frame)) (w_session w) = Some s' ->
    replication_step w
      (w <| w_session := s' |> <| w_streams := <[current_stream w := st <| st_down := rest |>]> (w_streams w) |>)
| step_send now idx req (ok transmitted : bool) s' :
    ss_point (w_session w) = AtSend idx -> ss_backlog (w_session w) !! idx = Some req ->
    loop (EvSent now ok) (w_session w) = Some s' -> (ok = true -> transmitted = true) ->
    replication_step w ((if transmitted then transmit (out_frame req) w else w) <| w_session := s' |>)
| step_dispatch k st frame rest st' :
    w_streams w !! k = Some st -> st_open st = true -> st_up st = frame :: rest ->
    dispatchFrame frame (st <| st_up := rest |>) = Some st' ->
    replication_step w (w <| w_streams := <[k := st']> (w_streams w) |>)
| step_handle k st slot frame rest :
    w_streams w !! k = Some st -> workerForSlot st slot = frame :: rest ->
    replication_step w (handled k frame (st <| st_workers := <[slot := rest]> (st_workers st) |>) w)
| step_handle_loose k st i frame :
    w_streams w !! k = Some st -> st_loose st !! i = Some frame ->
    replication_step w (handled k frame (st <| st_loose := delete i (st_loose st) |>) w)
| step_end k st :
    w_streams w !! k = Some st ->
    replication_step w (w <| w_streams := <[k := st <| st_open := false |>]> (w_streams w) |>)
| step_credit slot :
    replication_step w (w <| w_streams := broadcastSlotCredit (w_node w) slot (w_streams w) |>)
| step_node n' : replication_step w (w <| w_node := n' |>).

Definition replication_start (w : replication) : Prop :=
  w_session w = newReplicationPeerSession /\ 0 <= w_nextID w < u64_mod /\ w_accepted w = [] /\ w_streams w = [] /\
  w_sent w = [] /\ w_handled w = [].

Definition replication_reachable (w : replication) : Prop :=
  exists w0, replication_start w0 /\ rtc replication_step w0 w.
End server.
