(* ===== verification/ReplicationProps.v ===== *)
(** * Properties of replication sessions

    [pending_ok] says that what a session keeps on requests without
    acknowledgement agrees; [session_ok] is what holds at every point of its
    loop ([loop_ok]). *)

From S2P Require Import Prelude.
From S2P Require Import CoordTypes.
From S2P Require Import StorageTypes.
From S2P Require Import Journal.
From S2P Require Import Wire.
From S2P Require Import WireErrors.
From S2P Require Import ReplicationSession.
From S2P Require Import ReplicationStream.

Open Scope Z_scope.
Open Scope record_scope.
Import Go.

(** ** Requests without acknowledgement *)
Abbreviation of_key key := (fun p : Z * request => request_key p.2 = key).
Definition mine (key : replicationSlotKindKey) (pending : gmap Z request) : gmap Z request := filter (of_key key) pending.

Lemma mine_insert key pending id req : pending !! id = None ->
  mine key (<[id := req]> pending) = if decide (request_key req = key) then <[id := req]> (mine key pending) else mine key pending.
Proof.
  intros Hn. unfold mine. case_decide; [by rw map_filter_insert_True|].
  rw map_filter_insert_False //. by rw delete_id.
Qed.

Lemma mine_delete key pending id req : pending !! id = Some req ->
  mine key (delete id pending) = if decide (request_key req = key) then delete id (mine key pending) else mine key pending.
Proof.
  intros Hs. unfold mine. rw map_filter_delete. case_decide; [done|]. apply delete_id. apply map_lookup_filter_None. right.
  intros r Hr. by simplify_eq.
Qed.

Lemma mine_lookup key pending id req : pending !! id = Some req ->
  mine key pending !! id = if decide (request_key req = key) then Some req else None.
Proof.
  intros Hs. case_decide; [by apply map_lookup_filter_Some|]. apply map_lookup_filter_None. right. intros r Hr. by simplify_eq.
Qed.

(** The count kept for a number of requests: no entry for none. *)
Definition counted (n : nat) : option Z := if (n =? 0)%nat then None else Some (Z.of_nat n).

(** What the session keeps on requests without acknowledgement agrees. *)
Record pending_ok (s : session) : Prop := {
  po_id : map_Forall (fun id req => out_id req = id) (ss_pending s);
  po_since : dom (ss_pendingSince s) = dom (ss_pending s);
  po_count key : ss_pendingBySlot s !! key = counted (size (mine key (ss_pending s)));
  po_diag key : slot_pending (debugStateFor s key) = out_seq <$> mine key (ss_pending s);
}.

Lemma debugStateFor_set key state s key' :
  debugStateFor (set_state key state s) key' = if decide (key = key') then state else debugStateFor s key'.
Proof. unfold debugStateFor, set_state. cbn. case_decide as E; [by rw E lookup_insert_eq|by rw lookup_insert_ne]. Qed.

Lemma mark_blocked_pending now state : slot_pending (mark_blocked now state) = slot_pending state.
Proof. unfold mark_blocked. by case_match. Qed.
Lemma clear_blocked_pending state : slot_pending (clear_blocked state) = slot_pending state.
Proof. unfold clear_blocked. by case_match. Qed.

(** A change of the diagnostics of one slot that leaves its pending requests. *)
Lemma pending_ok_set s key state :
  pending_ok s -> slot_pending state = slot_pending (debugStateFor s key) -> pending_ok (set_state key state s).
Proof.
  intros [H1 H2 H3 H4] Hp. split; try done. intros key'. rw debugStateFor_set. case_decide as E; [|apply H4].
  rw Hp. subst. apply H4.
Qed.

Lemma pending_ok_same s s' :
  pending_ok s -> ss_pending s' = ss_pending s -> ss_pendingSince s' = ss_pendingSince s ->
  ss_pendingBySlot s' = ss_pendingBySlot s -> ss_diag s' = ss_diag s -> pending_ok s'.
Proof. intros [H1 H2 H3 H4] E1 E2 E3 E4. split; unfold debugStateFor in *; rw ?E1 ?E2 ?E3 ?E4 //. Qed.

Lemma counted_pred n : 0 < Z.of_nat n ->
  (if default 0 (counted n) - 1 <=? 0 then None else Some (default 0 (counted n) - 1)) = counted (Nat.pred n).
Proof.
  intros Hn. destruct n as [|[|n]]; [lia|done|].
  change (counted (S (S n))) with (Some (Z.of_nat (S (S n)))). change (counted (Nat.pred (S (S n)))) with (Some (Z.of_nat (S n))).
  unfold default, from_option, id. replace (Z.of_nat (S (S n)) - 1) with (Z.of_nat (S n)) by lia. destruct (Z.leb_spec (Z.of_nat (S n)) 0); [lia|done].
Qed.

(** A request leaves: its acknowledgement has come, or it is sent again. *)
Lemma pending_ok_remove s id req state :
  pending_ok s -> ss_pending s !! id = Some req ->
  slot_pending state = delete id (slot_pending (debugStateFor s (request_key req))) ->
  pending_ok (remove_pending id req (set_state (request_key req) state s)).
Proof.
  intros [H1 H2 H3 H4] Hr Hp. pose proof (mine_lookup (request_key req) _ _ _ Hr) as Hm. rw decide_True // in Hm.
  split.
  - cbn. by apply map_Forall_delete.
  - cbn. by rw !dom_delete_L H2.
  - intros key. cbn. rw (mine_delete _ _ _ _ Hr). rw (H3 (request_key req)).
    assert (0 < Z.of_nat (size (mine (request_key req) (ss_pending s)))) as Hpos.
    { assert (size (mine (request_key req) (ss_pending s)) <> 0%nat) as Hne; [|lia].
      intros Hz%map_size_empty_iff. by rw Hz in Hm. }
    pose proof (counted_pred _ Hpos) as Hc. case_decide as E.
    + subst key. rw map_size_delete_Some //. rw -Hc. case_match; [by rw lookup_delete_eq|by rw lookup_insert_eq].
    + case_match; [rw lookup_delete_ne //|rw lookup_insert_ne //].
  - intros key. change (debugStateFor (remove_pending id req (set_state (request_key req) state s)) key)
      with (debugStateFor (set_state (request_key req) state s) key).
    rw debugStateFor_set. cbn [remove_pending ss_pending]. cbn. rw (mine_delete _ _ _ _ Hr). case_decide as E; [|apply H4].
    rw Hp H4 fmap_delete. by subst.
Qed.

(** A request that has been sent. *)
Lemma pending_ok_sent now idx req s :
  pending_ok s -> ss_pending s !! out_id req = None -> pending_ok (sent_request now idx req s).
Proof.
  intros [H1 H2 H3 H4] Hn. split.
  - cbn. by apply map_Forall_insert.
  - cbn. by rw !dom_insert_L H2.
  - intros key. cbn. rw mine_insert // H3. case_decide as E.
    + subst key. rw lookup_insert_eq map_size_insert_None; [by apply map_lookup_filter_None; left|].
      unfold counted. destruct (size _); cbn; f_equal; lia.
    + by rw lookup_insert_ne.
  - intros key. change (debugStateFor (sent_request now idx req s) key)
      with (debugStateFor (recordSent req (slotCredit s (request_key req) - 1)
                             (setSlotCredit (request_key req) (slotCredit s (request_key req) - 1) s)) key).
    unfold recordSent. rw debugStateFor_set. cbn. rw mine_insert //. case_decide as E; [|apply H4].
    rw clear_blocked_pending fmap_insert. cbn. f_equal. subst key. rw -H4.
    unfold debugStateFor. cbn. by case_match.
Qed.

(** The part of a session that bookkeeping on pending requests does not touch. *)
Definition rest_of (s : session) :=
  (ss_sendCh s, ss_closed s, ss_answers s, ss_point s, ss_backlog s, ss_credits s, ss_stream s, ss_backoff s).

Lemma requeue_one now s id req :
  pending_ok s -> ss_pending s !! id = Some req -> pending_ok (remove_pending id req (recordRequeued now req s)).
Proof.
  intros Hok Hr. apply pending_ok_remove; [done..|]. rw mark_blocked_pending. cbn. by rw (po_id _ Hok _ _ Hr).
Qed.

Lemma requeue_fold now l s :
  pending_ok s -> NoDup l.*1 -> (forall id req, (id, req) ∈ l -> ss_pending s !! id = Some req) ->
  let s' := foldl (fun s '(id, req) => remove_pending id req (recordRequeued now req s)) s l in
  pending_ok s' /\ rest_of s' = rest_of s /\ (forall id, id ∉ l.*1 -> ss_pending s' !! id = ss_pending s !! id) /\
  forall id, id ∈ l.*1 -> ss_pending s' !! id = None.
Proof.
  revert s. induction l as [|[id req] l IH]; intros s Hok Hnd Hin; cbn [foldl]; [set_solver|].
  cbn in Hnd. apply NoDup_cons in Hnd as [Hid Hnd].
  assert (ss_pending s !! id = Some req) as Hr by (apply Hin; set_solver).
  edestruct (IH (remove_pending id req (recordRequeued now req s))) as (H1 & H2 & H3 & H4).
  - by apply requeue_one.
  - done.
  - intros id' req' Hin'. assert (id' <> id) by (intros ->; apply Hid; by apply (list_elem_of_fmap_2 fst _ (id, req'))).
    cbn. rw lookup_delete_ne; [congruence|]. apply Hin. set_solver.
  - split; [done|]. split; [by rw H2|]. split; intros id' Hid'; cbn in Hid'.
    + rw H3; [set_solver|]. cbn. rw lookup_delete_ne; [set_solver|done].
    + destruct (decide (id' ∈ l.*1)); [auto|]. rw H3 //. assert (id' = id) as -> by set_solver. cbn. by rw lookup_delete_eq.
Qed.

Lemma requeue_ok now s : pending_ok s ->
  let s' := requeuePending now s in
  pending_ok s' /\ ss_pending s' = ∅ /\ ss_backlog s' = (pending_in_order s).*2 ++ ss_backlog s /\
  rest_of (s' <| ss_backlog := ss_backlog s |>) = rest_of s.
Proof.
  intros Hok. unfold requeuePending.
  destruct (requeue_fold now (pending_in_order s) s Hok) as (H1 & H2 & H3 & H4).
  { unfold pending_in_order. rw isort_perm. apply NoDup_fst_map_to_list. }
  { intros id req Hin. unfold pending_in_order in Hin. rw isort_perm in Hin. by apply elem_of_map_to_list in Hin. }
  set (s1 := foldl _ s _) in *. split_and!.
  - by apply (pending_ok_same s1).
  - cbn. apply map_eq. intros id. rw lookup_empty. destruct (decide (id ∈ (pending_in_order s).*1)) as [Hi|Hi]; [auto|].
    rw H3 //. destruct (ss_pending s !! id) as [req|] eqn:E; [|done]. exfalso. apply Hi.
    apply (list_elem_of_fmap_2 fst _ (id, req)). unfold pending_in_order. rw isort_perm. by apply elem_of_map_to_list.
  - cbn. f_equal. unfold rest_of in H2. congruence.
  - unfold rest_of in *. cbn. congruence.
Qed.

Lemma filter_none {A} (Q : A -> Prop) `{forall x, Decision (Q x)} (l : list A) : (forall x, x ∈ l -> ~ Q x) -> filter Q l = [].
Proof. induction l as [|x l IH]; intros Hn; [done|]. rw filter_cons_False; [apply Hn; left|]. apply IH. intros y Hy. apply Hn. by right. Qed.

(** ** The search for a request to send *)
Definition may_send (s : session) (req : request) : Prop :=
  0 < slotCredit s (request_key req) \/ ss_pendingBySlot s !! request_key req = None.

Lemma allow_ok now key s ok s' : pending_ok s -> allowBlockedProbe now key s = (ok, s') ->
  pending_ok s' /\ rest_of s' = rest_of s /\ ss_pending s' = ss_pending s /\ ss_pendingBySlot s' = ss_pendingBySlot s /\
  (ok = true -> 0 < slotCredit s' key \/ ss_pendingBySlot s' !! key = None).
Proof.
  intros Hok. unfold allowBlockedProbe. destruct (Z.ltb_spec 0 (slotCredit s key)).
  { intros [= <- <-]. split_and!; auto. }
  destruct (Z.ltb_spec 0 (default 0 (ss_pendingBySlot s !! key))) as [|Hn]; [by intros [= <- <-]|].
  case_match; intros [= <- <-]; [done|]. split; [by apply (pending_ok_same s)|]. split_and!; try done. intros _. right. cbn.
  rw (po_count _ Hok) in Hn |- *. unfold counted in *. destruct (size _); cbn in *; [done|lia].
Qed.

(** A request moves from the backlog to the answers. *)
Lemma perm_answered {A} (q b p a : list A) j x : b !! j = Some x -> q ++ delete j b ++ p ++ a ++ [x] ≡ₚ q ++ b ++ p ++ a.
Proof. intros Hj%delete_Permutation. rw {2}Hj. solve_Permutation. Qed.

Section next.
Context (now : nat -> nat -> Z) (ctx_err : nat -> nat -> request -> option error).

Lemma scan_ok pass i backlog s result s' : pending_ok s -> scan now ctx_err pass i backlog s = (result, s') ->
  pending_ok s' /\ rest_of s' = rest_of s /\ ss_pending s' = ss_pending s /\
  match result with
  | ScanSendable j => exists req, (i <= j)%nat /\ backlog !! (j - i)%nat = Some req /\ may_send s' req
  | ScanCanceled j req _ => (i <= j)%nat /\ backlog !! (j - i)%nat = Some req
  | ScanNothing => True
  end.
Proof.
  revert i s. induction backlog as [|req backlog IH]; intros i s Hok; cbn; [by intros [= <- <-]|].
  destruct (ctx_err pass i req). { intros [= <- <-]. split_and!; try done. by rw Nat.sub_diag. }
  destruct (allowBlockedProbe _ _ s) as [[] s1] eqn:Ha; destruct (allow_ok _ _ _ _ _ Hok Ha) as (H1 & H2 & H3 & H4 & H5).
  { intros [= <- <-]. split_and!; try done. exists req. rw Nat.sub_diag. split_and!; try done. by apply H5. }
  intros Hs. apply IH in Hs as (I1 & I2 & I3 & I4).
  2: { apply pending_ok_set; [done|]. apply mark_blocked_pending. }
  split; [done|]. split; [by rw I2|]. split; [by rw I3|].
  assert (forall j, (S i <= j)%nat -> (req :: backlog) !! (j - i)%nat = backlog !! (j - S i)%nat) as Hj.
  { intros j Hj. by replace (j - i)%nat with (S (j - S i)) by lia. }
  destruct result as [j|j r e|]; [|destruct I4 as [Hle Hb]; rw Hj //; split; [lia|done]|done].
  destruct I4 as (r & Hle & Hb & Hm). exists r. rw Hj //. split_and!; try done. lia.
Qed.

(** Everything a session was given and holds, or has answered. *)
Definition holds (s : session) : list request :=
  ss_sendCh s ++ ss_backlog s ++ (map_to_list (ss_pending s)).*2 ++ (ss_answers s).*1.

Definition queue_rest (s : session) := (ss_sendCh s, ss_closed s, ss_point s, ss_credits s, ss_stream s, ss_backoff s).

Lemma next_ok fuel pass s : pending_ok s ->
  let '(found, s') := next_passes now ctx_err fuel pass s in
  pending_ok s' /\ holds s' ≡ₚ holds s /\ queue_rest s' = queue_rest s /\ ss_pending s' = ss_pending s /\
  match found with Some idx => exists req, ss_backlog s' !! idx = Some req /\ may_send s' req | None => True end.
Proof.
  revert pass s. induction fuel as [|fuel IH]; intros pass s Hok; cbn; [done|].
  destruct (scan now ctx_err pass 0 (ss_backlog s) s) as [result s1] eqn:Hs.
  destruct (scan_ok _ _ _ _ _ _ Hok Hs) as (H1 & H2 & H3 & H4).
  assert (holds s1 = holds s /\ queue_rest s1 = queue_rest s /\ ss_backlog s1 = ss_backlog s) as (Hh & Hq & Hb).
  { unfold rest_of in H2. unfold holds, queue_rest. rw H3. split_and!; congruence. }
  destruct result as [j|j req e|]; cbn.
  - destruct H4 as (req & _ & Hj & Hm). rw Nat.sub_0_r in Hj. split_and!; try done; [by rw Hh|]. exists req. by rw Hb.
  - destruct H4 as [_ Hj]. rw Nat.sub_0_r in Hj.
    set (s2 := recordCanceledBacklog req (complete req (Some e) s1)).
    assert (pending_ok (s2 <| ss_backlog := delete j (ss_backlog s2) |>)) as Hok2.
    { apply (pending_ok_same s2); [|done..]. apply pending_ok_set.
      - by apply (pending_ok_same s1).
      - rw clear_blocked_pending. by case_match. }
    specialize (IH (S pass) _ Hok2). destruct (next_passes now ctx_err fuel (S pass) _) as [found s']. destruct IH as (I1 & I2 & I3 & I4 & I5).
    split; [done|]. split_and!; [|by rw I3|by rw I4|done]. rw I2 -Hh. unfold holds. cbn.
    rw fmap_app Hb. by apply perm_answered.
  - split_and!; try done. by rw Hh.
Qed.
End next.

(** ** The invariant of a session *)
Definition point_ok (s : session) : Prop :=
  match ss_point s with
  | AtConnect | AtDial | AtBackoff => ss_stream s = false
  | AtDrain _ | AtNext => ss_stream s = true
  | AtSend idx => ss_stream s = true /\ exists req, ss_backlog s !! idx = Some req /\ may_send s req
  | AtReturn => ss_backlog s = [] /\ ss_pending s = ∅
  | AtLoop | AtSelect => True
  end.

Record session_ok (accepted : list request) (s : session) : Prop := {
  so_holds : holds s ≡ₚ accepted;
  so_ids : NoDup (out_id <$> accepted);
  so_pending : ss_point s <> AtReturn -> pending_ok s;
  so_credits : map_Forall (fun _ credit => 0 <= credit) (ss_credits s);
  so_backoff : replicationReconnectMinBackoff <= ss_backoff s <= replicationReconnectMaxBackoff;
  so_stream : ss_stream s = false -> ss_pending s = ∅;
  so_point : point_ok s;
}.

Lemma new_session_ok : session_ok [] newReplicationPeerSession.
Proof. split; try done. by constructor. Qed.

Section steps.
Context (accepted : list request).
Abbreviation ok := (session_ok accepted).

Lemma ok_goto p s : ok s -> pending_ok s -> point_ok (goto p s) -> ok (goto p s).
Proof. intros [H1 H2 _ H4 H5 H6 H7] H3 Hp. split; try done. intros _. by apply (pending_ok_same s). Qed.

Lemma receive_ok s s' : ok s -> pending_ok s -> receive s = Some s' -> (forall idx, ss_point s <> AtSend idx) ->
  ss_point s <> AtReturn -> ok s' /\ pending_ok s' /\ ss_stream s' = ss_stream s.
Proof.
  intros [H1 H2 _ H4 H5 H6 H7] H3. unfold receive. destruct (ss_sendCh s) as [|req rest] eqn:E; [done|].
  intros [= <-] Hsend Hret. assert (pending_ok (s <| ss_sendCh := rest |> <| ss_backlog := ss_backlog s ++ [req] |>)) as Hp
    by by apply (pending_ok_same s).
  split; [|done]. split; try done.
  - rw -H1. unfold holds. cbn. rw E. solve_Permutation.
  - unfold point_ok in *. cbn. destruct (ss_point s) as [| | | |n| |idx| |]; try done. by destruct (Hsend idx).
Qed.

(** The lemmas on the frames leave the point open: the steps set it last. *)

Lemma cancel_all_spec reqs s :
  cancel_all reqs s = s <| ss_answers := ss_answers s ++ ((fun req => (req, Some (Sentinel Canceled))) <$> reqs) |>.
Proof.
  revert s. induction reqs as [|req reqs IH]; intros s; cbn; [rw app_nil_r; by destruct s|].
  unfold cancel_all in IH. rw IH. cbn. by rw -app_assoc.
Qed.

Lemma fst_paired {A B} (b : B) (l : list A) : ((fun a => (a, b)) <$> l).*1 = l.
Proof. induction l as [|a l IH]; [done|]. cbn. by f_equal. Qed.

(** The loop returns when it has answered its backlog and what is pending. *)
Lemma returned_ok reqs s : ok s -> reqs ≡ₚ ss_backlog s ++ (map_to_list (ss_pending s)).*2 ->
  ok (returned (cancel_all reqs s)).
Proof.
  intros Hok Hr. rw cancel_all_spec. set (s1 := set_field _ s).
  assert (holds (returned s1) ≡ₚ accepted) as Hh.
  { rw -(so_holds _ _ Hok). transitivity (ss_sendCh s1 ++ (ss_answers s1).*1).
    - unfold holds. cbn -[s1]. rw map_to_list_empty. done.
    - unfold s1, holds. cbn. rw fmap_app fst_paired Hr. solve_Permutation. }
  split; [exact Hh|apply Hok|intros []; reflexivity|apply Hok|apply Hok|reflexivity|by split].
Qed.

Lemma lose_stream_ok now s : ok s -> pending_ok s -> ok (lose_stream now s).
Proof.
  intros [H1 H2 _ H4 H5 H6 H7] H3. unfold lose_stream. set (s1 := closeStream s).
  assert (pending_ok s1) as Hs1 by by apply (pending_ok_same s).
  destruct (requeue_ok now s1 Hs1) as (R1 & R2 & R3 & R4). set (s2 := requeuePending now s1) in *.
  clearbody s2. unfold rest_of in R4. cbn in R4. injection R4 as E1 E2 E3 E4 E5 E6 E7.
  split; [cbn|exact H2|cbn|cbn; by rw E5|cbn; by rw E7|cbn; done|done].
  - rw -H1. unfold holds. cbn. rw E1 E3 R2 R3 map_to_list_empty. cbn. unfold pending_in_order. rw isort_perm. solve_Permutation.
  - intros _. by apply (pending_ok_same s2).
Qed.

(** A request is sent: its ID is new among those pending, since it was in the
    backlog. *)
Lemma holds_pending_fresh s idx req : ok s -> ss_backlog s !! idx = Some req -> pending_ok s ->
  ss_pending s !! out_id req = None.
Proof.
  intros Hok Hb Hp. destruct (ss_pending s !! out_id req) as [r|] eqn:E; [|done]. exfalso.
  pose proof (so_ids _ _ Hok) as Hnd. rw -(so_holds _ _ Hok) in Hnd. unfold holds in Hnd.
  rw !fmap_app in Hnd. apply NoDup_app in Hnd as (_ & _ & Hnd). apply NoDup_app in Hnd as (_ & Hnd & _).
  apply (Hnd (out_id req)).
  - apply list_elem_of_fmap. exists req. split; [done|]. by apply list_elem_of_lookup_2 in Hb.
  - apply elem_of_app. left. apply list_elem_of_fmap. exists r. split; [by rw (po_id _ Hp _ _ E)|].
    apply list_elem_of_fmap. exists (out_id req, r). split; [done|]. by apply elem_of_map_to_list.
Qed.

Lemma perm_sent {A} (q b p a : list A) j x : b !! j = Some x -> q ++ delete j b ++ (x :: p) ++ a ≡ₚ q ++ b ++ p ++ a.
Proof. intros Hj%delete_Permutation. rw {2}Hj. solve_Permutation. Qed.

Lemma credits_set key available s : map_Forall (fun _ credit => 0 <= credit) (ss_credits s) ->
  map_Forall (fun _ credit => 0 <= credit) (ss_credits (setSlotCredit key available s)).
Proof. intros H. cbn. apply map_Forall_insert_2; [|done]. case_match; lia. Qed.

Lemma sent_ok now idx req s : ok s -> pending_ok s -> ss_stream s = true -> ss_backlog s !! idx = Some req ->
  ok (sent_request now idx req s).
Proof.
  intros Hok Hp Hs Hb. pose proof (holds_pending_fresh _ _ _ Hok Hb Hp) as Hn. destruct Hok as [H1 H2 _ H4 H5 H6 H7].
  split; try done.
  - rw -H1. unfold holds. cbn. rw map_to_list_insert //. cbn. by apply perm_sent.
  - intros _. by apply pending_ok_sent.
  - by apply credits_set.
  - cbn. by rw Hs.
Qed.

Lemma next_round_ok checked order now ctx_err s : ok s -> pending_ok s -> ss_stream s = true ->
  order ≡ₚ map_to_list (ss_pendingSince s) -> ok (next_round checked order now ctx_err s).
Proof.
  intros Hok Hp Hs Ho. unfold next_round. destruct (stalePending checked order s) as [s1 stale] eqn:E.
  assert (ss_pendingSince s1 = ss_pendingSince s /\ s1 = s <| ss_pendingSince := ss_pendingSince s1 |>) as [Hi He].
  { unfold stalePending in E. injection E as <- _. cbn. split; [|done]. rw filter_none //.
    intros [id at_] Hin [_ Hnone]. rw Ho in Hin. apply elem_of_map_to_list in Hin.
    assert (id ∈ dom (ss_pending s)) as [r Hr]%elem_of_dom; [|by cbn in Hnone; rw Hr in Hnone].
    rw -(po_since _ Hp). by apply elem_of_dom. }
  rw Hi in He. assert (s1 = s) as -> by (rw He; by destruct s). clear E Hi He.
  destruct stale as [req|].
  { apply lose_stream_ok; [|by apply pending_ok_set; [|apply mark_blocked_pending]].
    destruct Hok. split; try done. intros _. by apply pending_ok_set; [|apply mark_blocked_pending]. }
  destruct (ss_backlog s) eqn:Eb; [by apply ok_goto|]. unfold nextSendableIndex.
  pose proof (next_ok now ctx_err (S (length (ss_backlog s))) 0 s Hp) as Hn.
  destruct (next_passes _ _ _ _ s) as [found s']. destruct Hn as (N1 & N2 & N3 & N4 & N5).
  unfold queue_rest in N3. injection N3 as E1 E2 E3 E4 E5 E6.
  assert (forall p, point_ok (goto p s') -> ok (goto p s')) as Hgo.
  { destruct Hok as [H1 H2 _ H4 H5 H6 _]. intros p Hpt. split; try done; cbn.
    - by transitivity (holds s).
    - intros _. by apply (pending_ok_same s').
    - by rw E4.
    - by rw E6.
    - rw E5 N4. done. }
  destruct found as [idx|]; apply Hgo; [|done]. cbn. by rw E5.
Qed.

(** An acknowledgement: the request leaves the pending ones. *)
Lemma ack_pending_ok s id req : pending_ok s -> ss_pending s !! id = Some req ->
  pending_ok (recordAck req (remove_pending id req s)).
Proof.
  intros Hp Hr. change (pending_ok (remove_pending id req (recordAck req s))). apply pending_ok_remove; [done..|].
  rw clear_blocked_pending. cbn. by rw (po_id _ Hp _ _ Hr).
Qed.

Lemma perm_acked {A} (q b a : list A) (p p' : list (Z * A)) id x : p' ≡ₚ (id, x) :: p ->
  q ++ b ++ p.*2 ++ a ++ [x] ≡ₚ q ++ b ++ p'.*2 ++ a /\ q ++ (x :: b) ++ p.*2 ++ a ≡ₚ q ++ b ++ p'.*2 ++ a.
Proof. intros Hp. split; rw Hp; cbn; solve_Permutation. Qed.

Lemma requeued_again now req s : pending_ok s -> ss_pending s !! out_id req = None -> pending_ok (recordRequeued now req s).
Proof.
  intros Hp Hn. apply pending_ok_set; [done|]. rw mark_blocked_pending. cbn. rw delete_id // (po_diag _ Hp) lookup_fmap.
  unfold mine. by rw map_lookup_filter Hn.
Qed.

Section acks.
Context (FromError : error -> option status) (unmarshal : bytes -> option status).

Lemma ack_ok now id ack s p : ok s -> pending_ok s -> ss_stream s = true ->
  let s' := handleAck FromError unmarshal now id ack s in point_ok (goto p s') -> ok (goto p s').
Proof.
  intros Hok Hp Hs. unfold handleAck. destruct (ss_pending s !! id) as [req|] eqn:Hr; [|cbv zeta; intros; by apply ok_goto].
  pose proof (ack_pending_ok _ _ _ Hp Hr) as Hp1. pose proof (po_id _ Hp _ _ Hr) as Hid. cbn in Hid.
  destruct Hok as [H1 H2 _ H4 H5 H6 _].
  pose proof (map_to_list_delete (ss_pending s) id req Hr) as Hd.
  destruct (perm_acked (ss_sendCh s) (ss_backlog s) (ss_answers s).*1 _ _ id req (symmetry Hd)) as [Hanswer Hrequeue].
  assert (forall err, let s' := complete req err (recordAck req (remove_pending id req s)) in
    point_ok (goto p s') -> ok (goto p s')) as Hcomplete.
  { intros err s' Hpt. split; try done.
    - etrans; [|apply H1]. etrans; [|apply Hanswer]. unfold holds. cbn. by rw fmap_app.
    - intros _. by apply (pending_ok_same (recordAck req (remove_pending id req s))).
    - cbn. by rw Hs. }
  destruct ack as [ack|]; [|apply Hcomplete]. destruct (pb_ack_Success ack); [apply Hcomplete|].
  destruct (match unmarshalEncodedError _ _ _ with Some _ => _ | None => _ end); [|apply Hcomplete].
  intros Hpt. split; try done.
  - etrans; [|apply H1]. etrans; [|apply Hrequeue]. done.
  - intros _. set (s1 := recordAck req (remove_pending id req s)) in *.
    apply (pending_ok_same (recordRequeued now req s1)); [|done..]. apply requeued_again; [done|]. cbn. rw Hid. apply lookup_delete_eq.
  - by apply (credits_set (request_key req) 0 s).
  - cbn. by rw Hs.
Qed.

Lemma inbound_ok now frame s p : ok s -> pending_ok s -> ss_stream s = true ->
  let s' := handleInboundFrame FromError unmarshal now frame s in point_ok (goto p s') -> ok (goto p s').
Proof.
  intros Hok Hp Hs. destruct frame as [[id payload]|]; [|cbn; intros; by apply ok_goto].
  destruct payload as [[]|]; try (cbn; intros; by apply ok_goto); cbn [handleInboundFrame pb_Payload pb_RequestId].
  { by apply ack_ok. }
  unfold handleCredit. intros Hpt. destruct Hok as [H1 H2 _ H4 H5 H6 _].
  set (key := (_, _)) in *. set (s1 := if 0 <? _ then _ else _) in *.
  assert (rest_of s1 = rest_of (setSlotCredit key (pb_credit_Available credit) s) /\ ss_pending s1 = ss_pending s /\ pending_ok s1)
    as (Hr & Hpe & Hs1). { unfold s1. case_match; split_and!; try done; by apply (pending_ok_same s). }
  clearbody s1. unfold rest_of in Hr. injection Hr as E1 E2 E3 E4 E5 E6 E7 E8. cbn in E1, E3, E5, E6, E7, E8.
  split; try done; cbn -[setSlotCredit].
  - rw -H1. unfold holds. cbn. by rw E1 E3 E5 Hpe.
  - intros _. apply (pending_ok_same (recordCredit now key (pb_credit_Available credit) s1)); [|done..].
    apply pending_ok_set; [done|]. by rw clear_blocked_pending.
  - rw E6. by apply credits_set.
  - by rw E8.
  - by rw E7 Hpe.
Qed.

Lemma next_backoff_ok b : replicationReconnectMinBackoff <= b <= replicationReconnectMaxBackoff ->
  replicationReconnectMinBackoff <= next_backoff b <= replicationReconnectMaxBackoff.
Proof. unfold next_backoff, replicationReconnectMinBackoff, replicationReconnectMaxBackoff. intros. repeat case_match; lia. Qed.

Lemma retry_ok s : ok s -> pending_ok s -> ss_stream s = false -> ok (retry_connect s).
Proof.
  intros [H1 H2 _ H4 H5 H6 _] Hp Hs. split; try done; [|by apply next_backoff_ok]. intros _. by apply (pending_ok_same s).
Qed.

Lemma inbound_stream now frame s : ss_stream (handleInboundFrame FromError unmarshal now frame s) = ss_stream s.
Proof.
  destruct frame as [[id [[]|]]|]; try done; cbn -[handleCredit].
  - unfold handleAck. destruct (ss_pending s !! id); [|done]. destruct ack; [|done]. cbn. case_match; [done|]. case_match; done.
  - unfold handleCredit. by case_match.
Qed.

Lemma cancel_all_app a b s : cancel_all b (cancel_all a s) = cancel_all (a ++ b) s.
Proof. unfold cancel_all. by rw foldl_app. Qed.

(** Every step of the loop keeps the invariant. *)
Lemma loop_ok ev s s' : ok s -> session_step FromError unmarshal ev s = Some s' -> ok s'.
Proof.
  intros Hok. pose proof (so_point _ _ Hok) as Hpt. unfold point_ok in Hpt. unfold session_step.
  assert (ss_point s <> AtReturn -> pending_ok s) as Hp by apply Hok.
  destruct (ss_point s) as [| | | |n| |idx| |] eqn:E; try specialize (Hp ltac:(done)).
  - destruct ev; try done. intros [= <-]. apply ok_goto; [done..|]. unfold point_ok. cbn. by destruct (ss_stream s) eqn:Es.
  - destruct ev; try done.
    + destruct (receive s) as [s1|] eqn:R; [|done]. intros [= <-].
      destruct (receive_ok s s1) as (R1 & R2 & R3); [done..|by rw E|by rw E|]. apply ok_goto; [done..|]. by rw /point_ok /= R3.
    + destruct (ss_closed s); [|done]. intros [= <-]. rw cancel_all_app. by apply returned_ok.
    + destruct (ss_sendCh s); [|done]. destruct (ss_closed s); [done|]. intros [= <-]. apply ok_goto; [done..|].
      by destruct (ss_backlog s).
  - destruct ev as [| | | | |[]| | | |]; try done; intros [= <-]; [|by apply ok_goto].
    destruct Hok as [H1 H2 _ H4 H5 H6 _]. split; try done. intros _. by apply (pending_ok_same s).
  - destruct ev; try done.
    + destruct (receive s) as [s1|] eqn:R; [|done]. intros [= <-].
      destruct (receive_ok s s1) as (R1 & R2 & R3); [done..|by rw E|by rw E|]. apply retry_ok; [done..|by rw R3].
    + destruct (ss_closed s); [|done]. intros [= <-]. apply returned_ok; [done|].
      by rw (so_stream _ _ Hok Hpt) map_to_list_empty app_nil_r.
    + intros [= <-]. by apply retry_ok.
  - destruct n as [|n], ev; try done; intros [= <-].
    + by apply ok_goto.
    + by apply ok_goto.
    + apply inbound_ok; [done..|]. by rw /point_ok /= inbound_stream.
    + by apply lose_stream_ok.
  - destruct ev; try done. case_bool_decide; [|done]. intros [= <-]. by apply next_round_ok.
  - destruct Hpt as (Hs & req & Hb & _). destruct ev as [| | | | | | | | |now []]; try done; rw Hb; intros [= <-].
    + by apply sent_ok.
    + by apply lose_stream_ok.
  - destruct ev; try done.
    + destruct (receive s) as [s1|] eqn:R; [|done]. intros [= <-].
      destruct (receive_ok s s1) as (R1 & R2 & R3); [done..|by rw E|by rw E|]. by apply ok_goto.
    + destruct (ss_closed s); [|done]. intros [= <-]. rw cancel_all_app.
      assert (forall reqs, returned (cancel_all reqs (closeStream s)) = returned (cancel_all reqs s)) as -> by (intros; by rw !cancel_all_spec).
      by apply returned_ok.
    + destruct (ss_stream s) eqn:Es; [|done]. intros [= <-]. by apply inbound_ok.
    + destruct (ss_stream s) eqn:Es; [|done]. intros [= <-]. by apply lose_stream_ok.
  - by destruct ev.
Qed.
End acks.
End steps.

(** ** What a step of the loop answers *)
Lemma next_answers now ctx_err fuel pass s req : (req, None) ∈ ss_answers (next_passes now ctx_err fuel pass s).2 ->
  (req, None) ∈ ss_answers s.
Proof.
  revert pass s. induction fuel as [|fuel IH]; intros pass s; cbn; [done|].
  assert (forall i l t, ss_answers (scan now ctx_err pass i l t).2 = ss_answers t) as Hs.
  { intros i l. revert i. induction l as [|r l IHl]; intros i t; cbn; [done|]. destruct (ctx_err pass i r); [done|].
    unfold allowBlockedProbe. repeat case_match; simplify_eq; try done; by rw IHl. }
  specialize (Hs 0%nat (ss_backlog s) s). destruct (scan now ctx_err pass 0 (ss_backlog s) s) as [[] s1]; cbn in *; [by rw Hs| |by rw Hs].
  intros Hin%IH. cbn in Hin. rw Hs in Hin. by apply elem_of_app in Hin as [?|[? | ?%elem_of_nil]%elem_of_cons].
Qed.

Lemma requeue_answers now s : ss_answers (requeuePending now s) = ss_answers s.
Proof.
  unfold requeuePending. cbn. generalize (pending_in_order s). intros l. revert s.
  induction l as [|[id req] l IH]; intros s; [done|]. cbn. by rw IH.
Qed.
Lemma requeue_stream now s : ss_stream (requeuePending now s) = ss_stream s.
Proof.
  unfold requeuePending. cbn. generalize (pending_in_order s). intros l. revert s.
  induction l as [|[id req] l IH]; intros s; [done|]. cbn. by rw IH.
Qed.

Lemma next_stream now ctx_err fuel pass s : ss_stream (next_passes now ctx_err fuel pass s).2 = ss_stream s.
Proof.
  revert pass s. induction fuel as [|fuel IH]; intros pass s; cbn; [done|].
  assert (forall i l t, ss_stream (scan now ctx_err pass i l t).2 = ss_stream t) as Hs.
  { intros i l. revert i. induction l as [|r l IHl]; intros i t; cbn; [done|]. destruct (ctx_err pass i r); [done|].
    unfold allowBlockedProbe. repeat case_match; simplify_eq; try done; by rw IHl. }
  specialize (Hs 0%nat (ss_backlog s) s). destruct (scan now ctx_err pass 0 (ss_backlog s) s) as [[] s1]; cbn in *; [done| |done].
  by rw IH.
Qed.

(** [s'] has no new answer without error and no new stream. *)
Definition quieter (s s' : session) : Prop :=
  (forall req, (req, None) ∈ ss_answers s' -> (req, None) ∈ ss_answers s) /\ (ss_stream s' = true -> ss_stream s = true).

Lemma next_round_rest checked order now ctx_err s : quieter s (next_round checked order now ctx_err s).
Proof.
  unfold quieter, next_round, stalePending. destruct (fst <$> _) as [stale|].
  - unfold lose_stream. cbn -[requeuePending]. rw requeue_answers requeue_stream. done.
  - cbn [ss_backlog set_field]. destruct (ss_backlog s); [done|]. unfold nextSendableIndex. set (s1 := set_field _ s).
    pose proof (fun req => next_answers now ctx_err (S (length (ss_backlog s1))) 0 s1 req) as Ha.
    pose proof (next_stream now ctx_err (S (length (ss_backlog s1))) 0 s1) as Hs.
    destruct (next_passes _ _ _ _ s1) as [[] s']; cbn in *; rw Hs; done.
Qed.

Lemma cancel_all_answers reqs s req : (req, None) ∈ ss_answers (cancel_all reqs s) -> (req, None) ∈ ss_answers s.
Proof.
  rw cancel_all_spec. cbn. intros [?|(? & [= ] & _)%list_elem_of_fmap]%elem_of_app. done.
Qed.

Section loop.
Context (FromError : error -> option status) (unmarshal : bytes -> option status).

Lemma receive_rest s s' : receive s = Some s' -> ss_answers s' = ss_answers s /\ ss_stream s' = ss_stream s.
Proof. unfold receive. destruct (ss_sendCh s); [done|]. by intros [= <-]. Qed.

Lemma lose_stream_rest now s : quieter s (lose_stream now s).
Proof. unfold quieter, lose_stream. cbn -[requeuePending]. by rw requeue_answers requeue_stream. Qed.

Lemma returned_rest reqs s : quieter s (returned (cancel_all reqs s)).
Proof. split; [|done]. intros req Hin. by apply (cancel_all_answers reqs). Qed.

(** Only a frame of the server brings an answer without error, and only a new
    connection a stream. *)
Lemma loop_rest ev s s' : session_step FromError unmarshal ev s = Some s' ->
  local_event ev = true \/ (exists now ok, ev = EvSent now ok) -> quieter s s'.
Proof.
  intros Hstep Hev. unfold session_step in Hstep.
  assert (forall f, f <$> receive s = Some s' -> (forall x, ss_answers (f x) = ss_answers x /\ ss_stream (f x) = ss_stream x) ->
    quieter s s') as Hrec.
  { intros f Hf Hsame. destruct (receive s) as [t|] eqn:R; [|done]. injection Hf as <-.
    destruct (receive_rest _ _ R) as [Ha Hs], (Hsame t) as [Hfa Hfs]. unfold quieter. by rw Hfa Hfs Ha Hs. }
  destruct (ss_point s) as [| | | |[|n]| |idx| |], ev as [| | | | |[]| | | |now ok]; try discriminate Hstep;
    try (destruct Hev as [?|(? & ? & ?)]; discriminate).
  all: try (injection Hstep as <-).
  all: try (by apply (Hrec _ Hstep)); try (by split); try apply lose_stream_rest.
  - destruct (ss_closed s); [|done]. injection Hstep as <-. rw cancel_all_app. apply returned_rest.
  - destruct (ss_sendCh s), (ss_closed s); try done. by injection Hstep as <-.
  - destruct (ss_closed s); [|done]. injection Hstep as <-. apply returned_rest.
  - case_bool_decide; [|done]. injection Hstep as <-. apply next_round_rest.
  - destruct (ss_backlog s !! idx); [|done]. injection Hstep as <-. destruct ok; [by split|apply lose_stream_rest].
  - destruct (ss_closed s); [|done]. injection Hstep as <-. rw cancel_all_app. split; [|done].
    intros req Hin. by apply (cancel_all_answers _ (closeStream s)) in Hin.
  - destruct (ss_stream s); [|done]. injection Hstep as <-. apply lose_stream_rest.
Qed.
End loop.
