(* ===== verification/ReplicationTheorems.v ===== *)
(** * Theorems on replication sessions

    [replication_ok] is what holds of a session and the streams of its server
    in every run. *)

From S2P Require Import Prelude.
From S2P Require Import CoordTypes.
From S2P Require Import StorageTypes.
From S2P Require Import Journal.
From S2P Require Import Wire.
From S2P Require Import WireErrors.
From S2P Require Import WireTheorems.
From S2P Require Import ReplicationSession.
From S2P Require Import ReplicationStream.
From S2P Require Import ReplicationProps.

Open Scope Z_scope.
Open Scope record_scope.
Import Go.

(** ** Frames arrive as they were submitted *)
Definition payload_fits (p : replicationPayload) : Prop :=
  fits_i32 (payload_slot p) /\
  match p with
  | replicationForwardPayload req =>
      let op := fwd_Operation req in
      fits_metadata (op_Metadata op) /\ kind_of_string (kind_string (op_Kind op)) = op_Kind op
  | _ => True
  end.

Lemma frame_roundtrip p id : payload_fits p -> frame_request (toFrame p id) = Some p.
Proof.
  destruct p as [[op from version]|[slot seq from version]|[slot through from version]]; intros [Hslot Hop]; cbn in *.
  - destruct op as [slot seq kind key value metadata]. unfold frame_request, toFrame, fromProtoWriteOperation. cbn in *.
    destruct Hop as [Hm Hk]. rw Hk i32_small //.
    destruct metadata as [v c u], Hm as [Hc Hu]. cbn in *. by rw !time_roundtrip.
  - unfold frame_request. cbn. by rw i32_small.
  - unfold frame_request. cbn. by rw i32_small.
Qed.

Lemma frame_request_some p id : is_Some (frame_request (toFrame p id)).
Proof. destruct p; eexists; reflexivity. Qed.

(** ** A session and its server *)
Section replication.
Context (text : error -> string) (FromError : error -> option status).
Context (marshal : status -> option bytes) (unmarshal : bytes -> option status).
Context {N : Type} {P : ReplicationPeer N}.

(** What protobuf's documentation says of encoding a status with an error. *)
Class StatusEncoding : Prop := {
  encoding_decodes st b : marshal st = Some b -> st_Code st <> OK_ -> b <> [] /\ unmarshal b = Some st;
}.

(** An error whose status is not OK and can be encoded. *)
Definition refusal (e : error) : Prop :=
  exists st b, FromError (encodeError text FromError e) = Some st /\ st_Code st <> OK_ /\ marshal st = Some b.

Context `{StatusEncoding}.

Abbreviation step := (replication_step text FromError marshal unmarshal).
Abbreviation ack_of := (ack_frame text FromError marshal).

Definition built (accepted : list request) (frame : pb_ReplicationFrame) : Prop :=
  exists req, req ∈ accepted /\ frame = out_frame req.

Definition on_slot (slot : Z) (frames : list pb_ReplicationFrame) : list pb_ReplicationFrame :=
  filter (fun f => frame_slot f = slot) frames.

Abbreviation sent_log := (list (nat * pb_ReplicationFrame)).
Abbreviation handled_log := (list (nat * pb_ReplicationFrame * option error)).

Definition sent_on (sent : sent_log) (k : nat) : list pb_ReplicationFrame := snd <$> filter (fun e => e.1 = k) sent.
Definition handled_on (handled : handled_log) (k : nat) : list pb_ReplicationFrame :=
  (fun e => e.1.2) <$> filter (fun e => e.1.1 = k) handled.

(** A stream on which [sent] and [handled] have been sent and handled. *)
Record stream_ok (sent : sent_log) (handled : handled_log) (k : nat) (st : server_stream) : Prop := {
  sk_known f : f ∈ st_up st ++ st_loose st -> f ∈ sent_on sent k;
  sk_order slot : 0 <= slot ->
    on_slot slot (handled_on handled k) ++ workerForSlot st slot ++ on_slot slot (st_up st) = on_slot slot (sent_on sent k);
  sk_negative slot : slot < 0 -> workerForSlot st slot = [];
  sk_loose f : f ∈ st_loose st -> frame_slot f < 0;
  sk_acks f ack : f ∈ st_down st -> pb_Payload f = Some (ReplicationFrame_Ack ack) ->
    exists frame err, (k, frame, err) ∈ handled /\ f = ack_of (pb_RequestId frame) err;
}.

Record replication_ok (w : replication (N := N)) : Prop := {
  ro_session : session_ok (w_accepted w) (w_session w);
  ro_next : 0 <= w_nextID w < u64_mod /\ Forall (fun req => out_id req <= w_nextID w) (w_accepted w);
  ro_built : Forall (fun req => exists ctx p, req = new_request (out_id req) ctx p) (w_accepted w);
  ro_sent k f : (k, f) ∈ w_sent w -> (k < length (w_streams w))%nat /\ built (w_accepted w) f;
  ro_handled k f err : (k, f, err) ∈ w_handled w -> f ∈ sent_on (w_sent w) k;
  ro_streams k st : w_streams w !! k = Some st -> stream_ok (w_sent w) (w_handled w) k st;
  ro_current : ss_stream (w_session w) = true -> w_streams w <> [];
  ro_success req : (req, None) ∈ ss_answers (w_session w) ->
    exists k err, (k, out_frame req, err) ∈ w_handled w /\ forall e, err = Some e -> ~ refusal e;
}.

(** ** Streams *)
Lemma credit_no_ack (n : N) slot f ack : f ∈ credit_frames n slot -> pb_Payload f <> Some (ReplicationFrame_Ack ack).
Proof. unfold credit_frames. intros (kind & -> & _)%list_elem_of_fmap. done. Qed.

Lemma stream_send sent handled k st frames : stream_ok sent handled k st ->
  (forall f ack, f ∈ frames -> pb_Payload f = Some (ReplicationFrame_Ack ack) ->
     exists frame err, (k, frame, err) ∈ handled /\ f = ack_of (pb_RequestId frame) err) ->
  stream_ok sent handled k (sendFrames frames st).
Proof.
  intros [H1 H2 H3 H5 H4] Hf. unfold sendFrames. destruct (st_open st); [|done]. split; try done.
  intros f ack [?|?]%elem_of_app; [by apply H4|by apply Hf].
Qed.

Lemma streams_broadcast sent handled (n : N) slot streams :
  (forall k st, streams !! k = Some st -> stream_ok sent handled k st) ->
  forall k st, broadcastSlotCredit n slot streams !! k = Some st -> stream_ok sent handled k st.
Proof.
  intros Hs k st. unfold broadcastSlotCredit. case_match; [apply Hs|]. rw list_lookup_fmap.
  destruct (streams !! k) as [t|] eqn:E; [|done]. intros [= <-]. apply stream_send; [by apply Hs|].
  intros f ack Hin Hp. by apply credit_no_ack with (ack := ack) in Hin.
Qed.

Lemma on_slot_app slot l l' : on_slot slot (l ++ l') = on_slot slot l ++ on_slot slot l'.
Proof. apply filter_app. Qed.

Lemma on_slot_one slot f : on_slot slot [f] = if decide (frame_slot f = slot) then [f] else [].
Proof. unfold on_slot. rw filter_cons filter_nil. done. Qed.

Lemma on_slot_cons slot f l : on_slot slot (f :: l) = (if decide (frame_slot f = slot) then [f] else []) ++ on_slot slot l.
Proof. unfold on_slot. rw filter_cons. by case_decide. Qed.

(** A frame joins the queue of its slot. *)
Lemma stream_dispatch sent handled k st frame rest st' : stream_ok sent handled k st -> st_up st = frame :: rest ->
  dispatchFrame frame (st <| st_up := rest |>) = Some st' -> stream_ok sent handled k st'.
Proof.
  intros [H1 H2 H3 H5 H4] Hup. unfold dispatchFrame. rw Hup in H1 H2.
  assert (forall f, f ∈ rest ++ st_loose st ++ [frame] -> f ∈ sent_on sent k) as Hk.
  { clear -H1. set_solver. }
  destruct (Z.ltb_spec (frame_slot frame) 0) as [Hneg|Hpos].
  - intros [= <-]. split; try done.
    + intros slot Hs. rw -(H2 slot Hs). cbn -[on_slot]. rw on_slot_cons. rw decide_False //. lia.
    + cbn. intros f [?|Hf]%elem_of_app; [by apply H5|]. apply list_elem_of_singleton in Hf. by subst f.
  - case_bool_decide; [|done]. intros [= <-]. split; cbn.
    + clear -Hk. set_solver.
    + intros slot Hs. rw -(H2 slot Hs). rw on_slot_cons.
      unfold workerForSlot. cbn. case_decide as E.
      * subst slot. rw lookup_insert_eq. cbn. by rw -!app_assoc.
      * by rw lookup_insert_ne.
    + intros slot Hs. unfold workerForSlot in *. cbn. rw lookup_insert_ne; [lia|]. by apply H3.
    + done.
    + done.
Qed.

(** ** Handling a frame *)
Lemma handled_on_app handled k frame err j :
  handled_on (handled ++ [(k, frame, err)]) j = handled_on handled j ++ if decide (k = j) then [frame] else [].
Proof. unfold handled_on. rw filter_app fmap_app filter_cons filter_nil. cbn. by case_decide. Qed.

Lemma acks_more (handled : handled_log) e st k :
  (forall f ack, f ∈ st_down st -> pb_Payload f = Some (ReplicationFrame_Ack ack) ->
    exists frame err, (k, frame, err) ∈ handled /\ f = ack_of (pb_RequestId frame) err) ->
  forall f ack, f ∈ st_down st -> pb_Payload f = Some (ReplicationFrame_Ack ack) ->
    exists frame err, (k, frame, err) ∈ handled ++ [e] /\ f = ack_of (pb_RequestId frame) err.
Proof.
  intros Ha f ack Hin Hp. destruct (Ha f ack Hin Hp) as (fr & err & ? & ?). exists fr, err. split; [|done]. apply elem_of_app. by left.
Qed.

Lemma stream_other sent handled k frame err j st : j <> k -> stream_ok sent handled j st ->
  stream_ok sent (handled ++ [(k, frame, err)]) j st.
Proof.
  intros Hj [H1 H2 H3 H5 H4]. split; try done; [|by apply acks_more]. intros slot Hs.
  rw handled_on_app decide_False; [congruence|]. by rw app_nil_r H2.
Qed.

(** The worker of a slot takes the oldest frame of its queue. *)
Lemma stream_worker sent handled k st slot frame rest err : stream_ok sent handled k st -> workerForSlot st slot = frame :: rest ->
  frame ∈ sent_on sent k /\
  stream_ok sent (handled ++ [(k, frame, err)]) k (st <| st_workers := <[slot := rest]> (st_workers st) |>).
Proof.
  intros [H1 H2 H3 H5 H4] Hw. assert (0 <= slot) as Hs.
  { destruct (Z.le_gt_cases 0 slot); [done|]. by rw H3 in Hw. }
  assert (frame ∈ on_slot slot (sent_on sent k)) as Hf.
  { rw -(H2 slot Hs) Hw. set_solver. }
  unfold on_slot in Hf. apply list_elem_of_filter in Hf as [Hslot Hf]. split; [done|]. split; try done; [| |by apply acks_more].
  - intros slot' Hs'. cbn [st_up set_field].
    rw -(H2 slot' Hs') handled_on_app decide_True // on_slot_app on_slot_one. unfold workerForSlot in *. cbn. case_decide as E.
    + assert (slot' = slot) as -> by congruence. rw Hw lookup_insert_eq. cbn. by rw -app_assoc.
    + rw lookup_insert_ne; [congruence|]. by rw app_nil_r.
  - intros slot' Hs'. unfold workerForSlot in *. cbn. rw lookup_insert_ne; [lia|]. by apply H3.
Qed.

Lemma stream_loose sent handled k st i frame err : stream_ok sent handled k st -> st_loose st !! i = Some frame ->
  frame ∈ sent_on sent k /\ stream_ok sent (handled ++ [(k, frame, err)]) k (st <| st_loose := delete i (st_loose st) |>).
Proof.
  intros [H1 H2 H3 H5 H4] Hi. pose proof (list_elem_of_lookup_2 _ _ _ Hi) as Hin.
  assert (forall f, f ∈ delete i (st_loose st) -> f ∈ st_loose st) as Hdel.
  { intros f Hf. rw (delete_Permutation _ _ _ Hi). by right. }
  split; [apply H1; set_solver|]. split; try done; [| | |by apply acks_more].
  - intros f Hf. cbn in Hf. apply H1. set_solver.
  - intros slot Hs. rw -(H2 slot Hs) handled_on_app decide_True // on_slot_app on_slot_one decide_False.
    + pose proof (H5 _ Hin). lia.
    + by rw app_nil_r.
  - intros f Hf. apply H5. by apply Hdel.
Qed.

Lemma sent_on_elem (sent : sent_log) k f : f ∈ sent_on sent k <-> (k, f) ∈ sent.
Proof.
  unfold sent_on. rw list_elem_of_fmap. split.
  - intros ([k' f'] & -> & [Hk Hin]%list_elem_of_filter). cbn in *. by subst k'.
  - intros Hin. exists (k, f). split; [done|]. by apply list_elem_of_filter.
Qed.

Lemma built_request w f : replication_ok w -> built (w_accepted w) f ->
  exists req ctx p, req ∈ w_accepted w /\ f = out_frame req /\ req = new_request (out_id req) ctx p.
Proof.
  intros Hok (req & Hin & ->). destruct (proj1 (Forall_forall _ _) (ro_built _ Hok) _ Hin) as (ctx & p & He). eauto 10.
Qed.

Lemma length_broadcast (n : N) slot streams : length (broadcastSlotCredit n slot streams) = length streams.
Proof. unfold broadcastSlotCredit. case_match; [done|]. by rw length_fmap. Qed.

Lemma handled_ok w k st st' frame : replication_ok w -> w_streams w !! k = Some st ->
  (forall err, frame ∈ sent_on (w_sent w) k /\ stream_ok (w_sent w) (w_handled w ++ [(k, frame, err)]) k st') ->
  replication_ok (handled text FromError marshal k frame st' w).
Proof.
  intros Hok Hk Hst. unfold handled, handleFrame. destruct (answer_frame (w_node w) frame) as [n err] eqn:Ha.
  destruct (Hst err) as [Hsent Hst']. set (streams := broadcastSlotCredit _ _ _).
  assert (length streams = length (w_streams w)) as Hlen.
  { unfold streams. by rw length_broadcast length_alter length_insert. }
  assert (forall e, e ∈ w_handled w -> e ∈ w_handled w ++ [(k, frame, err)]) as Hmono by (intros; apply elem_of_app; by left).
  split; cbn -[streams].
  - apply Hok.
  - apply Hok.
  - apply Hok.
  - intros j f Hin. rw Hlen. by apply (ro_sent _ Hok).
  - intros j f e [Hin|Hin]%elem_of_app; [by apply (ro_handled _ Hok j f e)|]. apply list_elem_of_singleton in Hin. by simplify_eq.
  - apply streams_broadcast. intros i u Hi. destruct (decide (i = k)) as [->|Hne].
    + rw list_lookup_alter_eq list_lookup_insert_eq in Hi; [by apply lookup_lt_Some in Hk|]. injection Hi as <-.
      apply stream_send; [done|]. intros f ack Hf%list_elem_of_singleton _. exists frame, err. split; [|done].
      apply elem_of_app. right. by apply list_elem_of_singleton.
    + rw list_lookup_alter_ne in Hi; [congruence|]. rw list_lookup_insert_ne in Hi; [congruence|]. apply stream_other; [done|]. by apply (ro_streams _ Hok).
  - intros Hs. pose proof (ro_current _ Hok Hs) as Hne. intros Hnil. apply Hne, length_zero_iff_nil. by rw -Hlen Hnil.
  - intros req Hin. destruct (ro_success _ Hok _ Hin) as (j & e & Hj & He). exists j, e. auto.
Qed.

Lemma session_change w s' : replication_ok w -> session_ok (w_accepted w) s' -> quieter (w_session w) s' ->
  replication_ok (w <| w_session := s' |>).
Proof.
  intros Hok Hs [Ha Hst]. split; try apply Hok; cbn; [done| |].
  - intros Hs'. by apply (ro_current _ Hok), Hst.
  - intros req Hin. by apply (ro_success _ Hok), Ha.
Qed.

Lemma stream_change w k st st' : replication_ok w -> w_streams w !! k = Some st -> stream_ok (w_sent w) (w_handled w) k st' ->
  replication_ok (w <| w_streams := <[k := st']> (w_streams w) |>).
Proof.
  intros Hok Hk Hst. split; try apply Hok; cbn.
  - intros j f. rw length_insert. apply (ro_sent _ Hok).
  - intros j t Hj. destruct (decide (j = k)) as [->|Hne].
    + rw list_lookup_insert_eq in Hj; [by apply lookup_lt_Some in Hk|]. by injection Hj as <-.
    + rw list_lookup_insert_ne in Hj; [congruence|]. by apply (ro_streams _ Hok).
  - intros Hs Hnil. apply (ro_current _ Hok Hs), length_zero_iff_nil. by rw -(length_insert _ k st') Hnil.
Qed.

Lemma sent_on_app (sent : sent_log) k f j : sent_on (sent ++ [(k, f)]) j = sent_on sent j ++ if decide (k = j) then [f] else [].
Proof. unfold sent_on. rw filter_app fmap_app filter_cons filter_nil. cbn. by case_decide. Qed.

Lemma current_lt w : replication_ok w -> ss_stream (w_session w) = true -> (current_stream w < length (w_streams w))%nat.
Proof.
  intros Hok Hs. pose proof (ro_current _ Hok Hs). unfold current_stream. destruct (w_streams w); [done|]. cbn. lia.
Qed.

Lemma transmit_ok w req : replication_ok w -> ss_stream (w_session w) = true -> req ∈ w_accepted w ->
  replication_ok (transmit (out_frame req) w).
Proof.
  intros Hok Hs Hreq. pose proof (current_lt _ Hok Hs) as Hlt. split; try apply Hok; cbn -[sent_on current_stream].
  - intros k f [Hin|Hin]%elem_of_app; rw length_alter; [by apply (ro_sent _ Hok)|].
    apply list_elem_of_singleton in Hin. simplify_eq. split; [done|]. by exists req.
  - intros k f err Hin. pose proof (ro_handled _ Hok _ _ _ Hin) as Hsent.
    rw sent_on_app. apply elem_of_app. by left.
  - intros k st Hk. destruct (decide (current_stream w = k)) as [<-|Hne].
    + rw list_lookup_alter_eq in Hk. destruct (w_streams w !! current_stream w) as [t|] eqn:Ht; [|done]. injection Hk as <-.
      destruct (ro_streams _ Hok _ _ Ht) as [H1 H2 H3 H5 H4]. split; try done.
      * intros f. rw sent_on_app decide_True //. cbn. specialize (H1 f). set_solver.
      * intros slot Hslot. rw sent_on_app decide_True // (on_slot_app slot (sent_on (w_sent w) _)) -(H2 slot Hslot).
        cbn -[on_slot]. rw (on_slot_app slot (st_up t)) -!app_assoc. done.
    + rw list_lookup_alter_ne // in Hk. destruct (ro_streams _ Hok _ _ Hk) as [H1 H2 H3 H5 H4].
      split; try done; intros ? ?; rw sent_on_app decide_False // app_nil_r; auto.
  - intros _ Hnil%(f_equal length). rw length_alter in Hnil. cbn in Hnil. lia.
Qed.

(** An acknowledgement answers without error only what the node accepted. *)
Lemma inbound_answers now f s req :
  (req, None) ∈ ss_answers (handleInboundFrame FromError unmarshal now (Some f) s) ->
  (req, None) ∈ ss_answers s \/
  exists ack, pb_Payload f = Some (ReplicationFrame_Ack ack) /\ ss_pending s !! pb_RequestId f = Some req /\
    forall a, ack = Some a -> pb_ack_Success a = true \/ unmarshalEncodedError FromError unmarshal (pb_ack_EncodedError a) = None.
Proof.
  unfold handleInboundFrame. destruct (pb_Payload f) as [[| |ack|credit|]|] eqn:Hp; try by left.
  2: { unfold handleCredit. cbn. left. by case_match. }
  unfold handleAck. destruct (ss_pending s !! pb_RequestId f) as [r|] eqn:Hr; [|by left].
  destruct ack as [a|]; [destruct (pb_ack_Success a) eqn:Hsucc|]; cbn.
  - intros [?|Hin]%elem_of_app; [by left|]. apply list_elem_of_singleton in Hin. simplify_eq. right. exists (Some a). naive_solver.
  - case_match; cbn; [by left|]. intros [?|Hin]%elem_of_app; [by left|]. apply list_elem_of_singleton in Hin. simplify_eq.
    right. exists (Some a). split_and!; [done..|]. intros ? [= <-]. right. congruence.
  - intros [?|Hin]%elem_of_app; [by left|]. apply list_elem_of_singleton in Hin. simplify_eq. right. exists None. done.
Qed.

Lemma refusal_received e : refusal e ->
  unmarshalEncodedError FromError unmarshal (marshalEncodedError text FromError marshal (Some e)) <> None.
Proof.
  intros (st & b & Hst & Hcode & Hb). destruct (encoding_decodes _ _ Hb Hcode) as [Hne Hdec].
  unfold marshalEncodedError. rw Hst Hb. cbn. unfold unmarshalEncodedError. destruct b; [done|]. rw Hdec. by destruct (st_Code st).
Qed.

Lemma same_id (accepted : list request) r r' : NoDup (out_id <$> accepted) -> r ∈ accepted -> r' ∈ accepted -> out_id r = out_id r' -> r = r'.
Proof.
  intros Hnd [i Hi]%list_elem_of_lookup [j Hj]%list_elem_of_lookup He.
  assert (i = j) as ->; [|congruence]. apply (NoDup_lookup _ _ _ (out_id r) Hnd); rw list_lookup_fmap ?Hi ?Hj //. cbn. by rw He.
Qed.

Lemma pending_accepted accepted s id req : session_ok accepted s -> ss_pending s !! id = Some req -> req ∈ accepted.
Proof.
  intros Hok Hr. rw -(so_holds _ _ Hok). unfold holds. apply elem_of_app. right. apply elem_of_app. right. apply elem_of_app. left.
  apply list_elem_of_fmap. exists (id, req). split; [done|]. by apply elem_of_map_to_list.
Qed.

Lemma enqueue_ok accepted req s s' : session_ok accepted s -> out_id req ∉ out_id <$> accepted -> enqueue req s = Ok s' ->
  session_ok (accepted ++ [req]) s'.
Proof.
  intros [H1 H2 H3 H4 H5 H6 H7] Hid. unfold enqueue. destruct (ss_closed s); [done|]. case_match; [|done]. intros [= <-].
  split; try done.
  - rw -H1. unfold holds. cbn. solve_Permutation.
  - rw fmap_app. apply NoDup_app. split; [done|]. split; [|apply NoDup_singleton]. set_solver.
  - intros Hp. by apply (pending_ok_same s); [apply H3|..].
Qed.

Lemma recorded_ok accepted now req s : session_ok accepted s -> session_ok accepted (recordEnqueue now req s).
Proof.
  intros [H1 H2 H3 H4 H5 H6 H7]. split; try done. intros Hp. apply pending_ok_set; [by apply H3|].
  case_match; [rw mark_blocked_pending|]; done.
Qed.

Lemma submit_ok w ctx p s' : replication_ok w -> w_nextID w + 1 < u64_mod ->
  let req := new_request (u64_add (w_nextID w) 1) ctx p in
  enqueue req (w_session w) = Ok s' ->
  replication_ok (w <| w_session := s' |> <| w_nextID := out_id req |> <| w_accepted := w_accepted w ++ [req] |>).
Proof.
  intros Hok Hroom req He. destruct (ro_next _ Hok) as [Hn Hids].
  assert (out_id req = w_nextID w + 1) as Hid by (cbn; rw u64_add_small; lia).
  assert (quieter (w_session w) s') as [Ha Hs].
  { unfold enqueue in He. destruct (ss_closed _); [done|]. case_match; [|done]. by injection He as <-. }
  split; try apply Hok.
  - apply (enqueue_ok _ _ (w_session w)); [apply Hok| |done]. intros (r & Hr & Hin)%list_elem_of_fmap.
    pose proof (proj1 (Forall_forall _ _) Hids _ Hin) as Hle. cbn beta in Hle. lia.
  - cbn [w_nextID w_accepted set_field]. split; [lia|]. apply Forall_app. split; [|apply Forall_singleton; lia].
    eapply Forall_impl; [exact Hids|]. intros r Hr. cbn beta in *. lia.
  - apply Forall_app. split; [apply Hok|]. constructor; [|done]. by exists ctx, p.
  - intros k f Hin. destruct (ro_sent _ Hok _ _ Hin) as [? (r & Hr & ?)]. split; [done|]. exists r. split; [|done]. apply elem_of_app. by left.
  - intros Hs'. by apply (ro_current _ Hok), Hs.
  - intros r Hr. by apply (ro_success _ Hok), Ha.
Qed.

Lemma frame_ok w now st f rest s' : replication_ok w -> w_streams w !! current_stream w = Some st -> st_down st = f :: rest ->
  session_step FromError unmarshal (EvFrame now (Some f)) (w_session w) = Some s' ->
  replication_ok (w <| w_session := s' |> <| w_streams := <[current_stream w := st <| st_down := rest |>]> (w_streams w) |>).
Proof.
  intros Hok Hst Hdown Hstep. pose proof (ro_streams _ Hok _ _ Hst) as [H1 H2 H3 H5 H4].
  assert (stream_ok (w_sent w) (w_handled w) (current_stream w) (st <| st_down := rest |>)) as Hst'.
  { split; try done. intros g ack Hg. apply H4. rw Hdown. by right. }
  destruct (stream_change _ _ _ _ Hok Hst Hst') as [R1 R2 R3 R4 R5 R6 R7 R8].
  assert (exists p, s' = goto p (handleInboundFrame FromError unmarshal now (Some f) (w_session w)) /\ ss_point (w_session w) <> AtReturn)
    as (p & -> & Hp).
  { unfold session_step in Hstep. destruct (ss_point (w_session w)) as [| | | |[|n]| |idx| |]; try done.
    - injection Hstep as <-. by exists (AtDrain n).
    - destruct (ss_stream (w_session w)); [|done]. injection Hstep as <-. by exists AtLoop. }
  split; try done.
  - by apply (loop_ok _ FromError unmarshal _ _ _ (ro_session _ Hok) Hstep).
  - cbn -[handleInboundFrame]. rw inbound_stream. exact R7.
  - intros req Hin. cbn -[handleInboundFrame] in Hin.
    apply inbound_answers in Hin as [Hin|(ack & Hpay & Hreq & Hack)]; [by apply R8|].
    destruct (H4 f ack) as (frame & err & Hh & ->); [rw Hdown; by left|done|]. exists (current_stream w), err. cbn in Hpay, Hreq, Hack.
    injection Hpay as <-. pose proof (ro_handled _ Hok _ _ _ Hh) as Hsent. split.
    2: { intros e ->. destruct (Hack _ eq_refl) as [|Hnone]; [done|]. by intros He%refusal_received. }
    apply sent_on_elem in Hsent. destruct (ro_sent _ Hok _ _ Hsent) as [_ Hb].
    destruct (built_request _ _ Hok Hb) as (r & ctx & payload & Hr & Hf & Hnew).
    assert (r = req) as ->; [|by rw -Hf].
    apply (same_id (w_accepted w)); [apply (so_ids _ _ (ro_session _ Hok))|done|by apply (pending_accepted _ _ _ _ (ro_session _ Hok) Hreq)|].
    rw (po_id _ (so_pending _ _ (ro_session _ Hok) Hp) _ _ Hreq) Hf. by rw {2}Hnew.
Qed.

Lemma new_stream_ok (sent : sent_log) (handled : handled_log) k :
  (forall f, (k, f) ∉ sent) -> (forall f err, (k, f, err) ∉ handled) -> stream_ok sent handled k new_stream.
Proof.
  intros Hs Hh. assert (sent_on sent k = []) as Es.
  { unfold sent_on. rw filter_none //. intros [j f] Hin E. cbn in E. subst j. by apply (Hs f). }
  assert (handled_on handled k = []) as Eh.
  { unfold handled_on. rw filter_none //. intros [[j f] err] Hin E. cbn in E. subst j. by apply (Hh f err). }
  split; rw ?Es ?Eh; try done; cbn; intros ?; by [intros ?%elem_of_nil|intros ? ?%elem_of_nil].
Qed.

Lemma send_ok w now idx req (ok transmitted : bool) s' : replication_ok w ->
  ss_point (w_session w) = AtSend idx -> ss_backlog (w_session w) !! idx = Some req ->
  session_step FromError unmarshal (EvSent now ok) (w_session w) = Some s' ->
  replication_ok ((if transmitted then transmit (out_frame req) w else w) <| w_session := s' |>).
Proof.
  intros Hok Hpt Hb He. pose proof (so_point _ _ (ro_session _ Hok)) as Hp. unfold point_ok in Hp. rw Hpt in Hp. destruct Hp as [Hs _].
  assert (req ∈ w_accepted w) as Hreq.
  { rw -(so_holds _ _ (ro_session _ Hok)). unfold holds. apply elem_of_app. right. apply elem_of_app. left.
    by apply list_elem_of_lookup_2 in Hb. }
  pose proof (loop_ok _ FromError unmarshal _ _ _ (ro_session _ Hok) He) as Hs'.
  assert (quieter (w_session w) s') as Hq by (apply (loop_rest FromError unmarshal (EvSent now ok)); [done|right; eauto]).
  apply session_change; [|by destruct transmitted..]. destruct transmitted; [by apply transmit_ok|done].
Qed.

Lemma step_ok w w' : replication_ok w -> step w w' -> replication_ok w'.
Proof.
  intros Hok Hstep. destruct Hstep as [ctx p s' Hroom req He|Hroom|now req Hin| |ev s' Hev He|s' He|now st f rest s' Hst Hd He
    |now idx req ok transmitted s' Hpt Hb He Ht|k st f rest st' Hk Ho Hu Hd|k st slot f rest Hk Hw|k st i f Hk Hi|k st Hk|slot|n'].
  - by apply submit_ok.
  - destruct (ro_next _ Hok) as [Hn Hids]. destruct Hok as [R1 R2 R3 R4 R5 R6 R7 R8]. split; try done. cbn [w_nextID w_accepted set_field].
    rw u64_add_small; [lia|]. split; [lia|]. eapply Forall_impl; [exact Hids|]. intros r Hr. cbn beta in *. lia.
  - apply session_change; [done|apply recorded_ok, Hok|]. by split.
  - apply session_change; [done| |by split]. destruct (ro_session _ Hok). split; try done. intros Hp. by apply (pending_ok_same (w_session w)); [auto|..].
  - apply session_change; [done|by apply (loop_ok _ FromError unmarshal _ _ _ (ro_session _ Hok) He)|].
    apply (loop_rest FromError unmarshal ev); [done|by left].
  - assert (ss_answers s' = ss_answers (w_session w)) as Ha.
    { unfold session_step in He. destruct (ss_point (w_session w)) as [| | | |[|]| | | |]; try done. by injection He as <-. }
    pose proof (loop_ok _ FromError unmarshal _ _ _ (ro_session _ Hok) He) as Hs. destruct Hok as [R1 R2 R3 R4 R5 R6 R7 R8].
    split; try done; cbn.
    + intros k f Hin. rw length_app. destruct (R4 _ _ Hin). split; [lia|done].
    + intros k st Hk. apply lookup_app_Some in Hk as [Hk|[Hge Hk]]; [by apply R6|].
      apply list_lookup_singleton_Some in Hk as [Hz <-]. apply new_stream_ok.
      * intros f Hin. destruct (R4 _ _ Hin). lia.
      * intros f err Hin. apply R5, sent_on_elem, R4 in Hin as [Hlt _]. lia.
    + intros _ Hnil. by apply app_nil in Hnil as [_ ?].
    + by rw Ha.
  - by apply (frame_ok w now st f rest).
  - by apply (send_ok w now idx req ok transmitted).
  - apply (stream_change _ _ st); [done..|]. by apply (stream_dispatch _ _ k st f rest); [apply (ro_streams _ Hok)|..].
  - apply (handled_ok _ _ st); [done..|]. intros err. by apply stream_worker; [apply (ro_streams _ Hok)|].
  - apply (handled_ok _ _ st); [done..|]. intros err. by apply stream_loose; [apply (ro_streams _ Hok)|].
  - apply (stream_change _ _ st); [done..|]. by destruct (ro_streams _ Hok _ _ Hk).
  - pose proof (streams_broadcast _ _ (w_node w) slot _ (ro_streams _ Hok)) as Hb. destruct Hok as [R1 R2 R3 R4 R5 R6 R7 R8].
    split; try done; cbn.
    + intros k f Hin. rw length_broadcast. by apply R4.
    + intros Hs Hnil%(f_equal length). rw length_broadcast in Hnil. by apply (R7 Hs), length_zero_iff_nil.
  - by destruct Hok.
Qed.

Lemma reachable_ok w : replication_reachable text FromError marshal unmarshal w -> replication_ok w.
Proof.
  intros (w0 & (Hs & Hn & Ha & Hst & Hsent & Hh) & Hsteps).
  assert (replication_ok w0) as H00.
  { split; rw ?Hs ?Ha ?Hst ?Hsent ?Hh; try done; try apply new_session_ok.
    - by intros k f ?%elem_of_nil.
    - by intros k f err ?%elem_of_nil.
    - by intros req ?%elem_of_nil. }
  clear Hs Hn Ha Hst Hsent Hh. induction Hsteps as [|w0 w1 w Hstep _ IH]; [done|]. apply IH. by apply (step_ok w0).
Qed.

(** C7. A session loses no request and answers none twice.  Whatever streams
    break, connections fail, contexts end and acknowledgements come: every request
    accepted is in exactly one place, the queue, the backlog, the requests sent
    and not acknowledged, or the answers; when the session has been closed and its
    loop has returned, only requests still in the queue are unanswered.  A
    request is sent only when the peer has given credit or nothing of its slot
    and kind is outstanding; reconnections wait between 50 ms and 1 s; and until
    the loop returns the diagnostics of a slot and kind, where there are any, list
    exactly what is outstanding of it. *)
Theorem session_conserves w : replication_reachable text FromError marshal unmarshal w ->
  let s := w_session w in
  ss_sendCh s ++ ss_backlog s ++ (map_to_list (ss_pending s)).*2 ++ (ss_answers s).*1 ≡ₚ w_accepted w /\
  NoDup (out_id <$> w_accepted w) /\
  (ss_point s = AtReturn -> ss_sendCh s ++ (ss_answers s).*1 ≡ₚ w_accepted w) /\
  (forall idx req, ss_point s = AtSend idx -> ss_backlog s !! idx = Some req ->
     0 < slotCredit s (request_key req) \/ forall id r, ss_pending s !! id = Some r -> request_key r <> request_key req) /\
  replicationReconnectMinBackoff <= ss_backoff s <= replicationReconnectMaxBackoff /\
  (ss_point s <> AtReturn -> forall key state id seq, ss_diag s !! key = Some state ->
     slot_pending state !! id = Some seq <-> exists req, ss_pending s !! id = Some req /\ request_key req = key /\ out_seq req = seq).
Proof.
  intros Hok%reachable_ok%ro_session. cbv zeta. pose proof (so_point _ _ Hok) as Hpt. unfold point_ok in Hpt. split_and!.
  - apply (so_holds _ _ Hok).
  - apply (so_ids _ _ Hok).
  - intros E. rw E in Hpt. destruct Hpt as [Hb Hp]. rw -(so_holds _ _ Hok). unfold holds. by rw Hb Hp map_to_list_empty.
  - intros idx req E Hb. rw E in Hpt. destruct Hpt as (_ & req' & Hb' & Hm). rw Hb in Hb'. injection Hb' as <-.
    destruct Hm as [?|Hnone]; [by left|]. right. intros id r Hr He.
    assert (pending_ok (w_session w)) as Hp by (apply Hok; by rw E).
    rw (po_count _ Hp) in Hnone. unfold counted in Hnone. destruct (size _) eqn:Hz; [|done]. apply map_size_empty_iff in Hz.
    pose proof (mine_lookup (request_key req) _ _ _ Hr) as Hm. by rw Hz decide_True in Hm.
  - apply (so_backoff _ _ Hok).
  - apply (so_backoff _ _ Hok).
  - intros Hp%(so_pending _ _ Hok) key state id seq Hd. pose proof (po_diag _ Hp key) as He. unfold debugStateFor in He. rw Hd in He.
    cbn in He. rw He lookup_fmap. unfold mine. rw fmap_Some. setoid_rewrite map_lookup_filter_Some. naive_solver.
Qed.

(** C6. What a session reports as done was done.  A request answered without
    error was handled by the peer, with the arguments it was submitted with if
    they fit the fields of the frame, and accepted, unless the peer refused it
    with an error whose status cannot be encoded or is OK, which the
    acknowledgement does not carry; the peer handles nothing that was not
    submitted; and on each stream it handles the frames of a slot in the order in
    which they were sent: what is handled, what waits for the slot's worker and
    what is on the way is what was sent. *)
Theorem replication_delivers w : replication_reachable text FromError marshal unmarshal w ->
  (forall req, (req, None) ∈ ss_answers (w_session w) -> exists k ctx p err,
     req = new_request (out_id req) ctx p /\ (k, out_frame req, err) ∈ w_handled w /\
     (forall e, err = Some e -> ~ refusal e) /\ (payload_fits p -> frame_request (out_frame req) = Some p)) /\
  (forall k frame err, (k, frame, err) ∈ w_handled w -> exists req, req ∈ w_accepted w /\ frame = out_frame req) /\
  forall k st slot, w_streams w !! k = Some st -> 0 <= slot ->
    on_slot slot (handled_on (w_handled w) k) ++ workerForSlot st slot ++ on_slot slot (st_up st) =
    on_slot slot (sent_on (w_sent w) k).
Proof.
  intros Hok%reachable_ok. split_and!.
  - intros req Hin. destruct (ro_success _ Hok _ Hin) as (k & err & Hk & Herr). pose proof (ro_handled _ Hok _ _ _ Hk) as Hs%sent_on_elem.
    assert (req ∈ w_accepted w) as Hreq.
    { rw -(so_holds _ _ (ro_session _ Hok)). unfold holds. do 3 (apply elem_of_app; right).
      by apply (list_elem_of_fmap_2 fst _ (req, None)). }
    destruct (proj1 (Forall_forall _ _) (ro_built _ Hok) _ Hreq) as (ctx & p & He). exists k, ctx, p, err. split_and!; [done..|].
    intros Hf. rw He. by apply frame_roundtrip.
  - intros k frame err Hin. pose proof (ro_handled _ Hok _ _ _ Hin) as Hs%sent_on_elem. by destruct (ro_sent _ Hok _ _ Hs).
  - intros k st slot Hk. apply (sk_order _ _ _ _ (ro_streams _ Hok _ _ Hk)).
Qed.
End replication.

(** ** A run

    A session that submits a forward to a node whose buffer is full: the node
    refuses it once, the session sends it again, and the node takes it. *)
Section run.
Context (text : error -> string) (FromError : error -> option status).
Context (marshal : status -> option bytes) (unmarshal : bytes -> option status).
Context {N : Type} {P : ReplicationPeer N}.

Inductive run_event :=
| RunSubmit (p : replicationPayload)
| RunLoop (ev : session_event)
| RunNext (now : Z)
| RunRecorded (now : Z)
| RunConnect
| RunFrame (now : Z)
| RunSend (now : Z)
| RunServe (k : nat) (slot : Z).

Abbreviation world := (replication (N := N)).
Abbreviation loop := (session_step FromError unmarshal).

Definition run_event_step (e : run_event) (w : world) : option world :=
  let s := w_session w in
  match e with
  | RunSubmit p =>
      let req := new_request (u64_add (w_nextID w) 1) 0 p in
      match enqueue req s with
      | Ok s' => if w_nextID w + 1 <? u64_mod
                 then Some (w <| w_session := s' |> <| w_nextID := out_id req |> <| w_accepted := w_accepted w ++ [req] |>)
                 else None
      | Err _ => None
      end
  | RunLoop ev => if local_event ev then (fun s' => w <| w_session := s' |>) <$> loop ev s else None
  | RunNext now =>
      (fun s' => w <| w_session := s' |>) <$>
        loop (EvNext now (map_to_list (ss_pendingSince s)) (fun _ _ => now) (fun _ _ _ => None)) s
  | RunRecorded now => (fun req => w <| w_session := recordEnqueue now req s |>) <$> head (w_accepted w)
  | RunConnect => (fun s' => w <| w_session := s' |> <| w_streams := w_streams w ++ [new_stream] |>) <$> loop (EvDialed true) s
  | RunFrame now =>
      st ← w_streams w !! current_stream w;
      match st_down st with
      | [] => None
      | f :: rest =>
          (fun s' => w <| w_session := s' |> <| w_streams := <[current_stream w := st <| st_down := rest |>]> (w_streams w) |>)
            <$> loop (EvFrame now (Some f)) s
      end
  | RunSend now =>
      match ss_point s with
      | AtSend idx =>
          req ← ss_backlog s !! idx;
          (fun s' => transmit (out_frame req) w <| w_session := s' |>) <$> loop (EvSent now true) s
      | _ => None
      end
  | RunServe k slot =>
      st ← w_streams w !! k;
      match st_up st with
      | f :: rest =>
          if st_open st then
            st' ← dispatchFrame f (st <| st_up := rest |>);
            Some (w <| w_streams := <[k := st']> (w_streams w) |>)
          else None
      | [] =>
          match workerForSlot st slot with
          | [] => None
          | f :: rest => Some (handled text FromError marshal k f (st <| st_workers := <[slot := rest]> (st_workers st) |>) w)
          end
      end
  end.

Lemma run_event_sound e w w' : run_event_step e w = Some w' -> replication_step text FromError marshal unmarshal w w'.
Proof.
  destruct e as [p|ev|now|now| |now|now|k slot]; cbn.
  - destruct (enqueue _ _) as [s'|] eqn:He; [|done]. destruct (Z.ltb_spec (w_nextID w + 1) u64_mod); [|done]. intros [= <-].
    by apply (step_submit text FromError marshal unmarshal w 0 p s').
  - destruct (local_event ev) eqn:Hev; [|done]. destruct (loop ev _) eqn:He; [|done]. intros [= <-]. by apply (step_loop _ _ _ _ _ ev).
  - destruct (session_step _ _ _ _) eqn:He; [|done]. intros [= <-]. by eapply step_loop; [|exact He].
  - destruct (w_accepted w) as [|req l] eqn:Ha; [done|]. intros [= <-]. apply step_recorded. rw Ha. by left.
  - destruct (loop _ _) eqn:He; [|done]. intros [= <-]. by apply step_connect.
  - destruct (w_streams w !! _) as [st|] eqn:Hst; [|done]. cbn. destruct (st_down st) as [|f rest] eqn:Hd; [done|].
    destruct (session_step _ _ _ _) eqn:He; [|done]. intros [= <-]. by apply (step_frame _ _ _ _ _ now st f rest).
  - destruct (ss_point _) as [| | | |n| |idx| |] eqn:Hp; try done. destruct (ss_backlog _ !! idx) as [req|] eqn:Hb; [|done]. cbn.
    destruct (session_step _ _ _ _) eqn:He; [|done]. intros [= <-]. by apply (step_send _ _ _ _ w now idx req true true).
  - destruct (w_streams w !! k) as [st|] eqn:Hst; [|done]. cbn. destruct (st_up st) as [|f rest] eqn:Hu.
    + destruct (workerForSlot st slot) as [|f rest] eqn:Hw; [done|]. intros [= <-]. by apply step_handle.
    + destruct (st_open st) eqn:Ho; [|done]. destruct (dispatchFrame _ _) as [st'|] eqn:Hd; [|done]. intros [= <-].
      by apply (step_dispatch _ _ _ _ w k st f rest).
Qed.

Fixpoint run_events (events : list run_event) (w : world) : option world :=
  match events with
  | [] => Some w
  | e :: events => run_event_step e w ≫= run_events events
  end.

Definition idle_world (n : N) : world :=
  {| w_session := newReplicationPeerSession; w_nextID := 0; w_accepted := []; w_streams := []; w_sent := [];
     w_node := n; w_handled := [] |}.

Lemma run_reachable n events w : run_events events (idle_world n) = Some w ->
  replication_reachable text FromError marshal unmarshal w.
Proof.
  intros Hrun. exists (idle_world n). split; [done|]. revert Hrun. generalize (idle_world n).
  induction events as [|e events IH]; intros w0; cbn; [intros [= ->]; apply rtc_refl|].
  destruct (run_event_step e w0) as [w1|] eqn:He; [|done]. intros Hrun. apply (rtc_l _ _ w1); [by apply (run_event_sound e)|by apply IH].
Qed.
End run.

(** The node refuses as long as its counter is positive. *)
Definition full_buffer : error := BackpressureError 3 1 1 ResourceReplicaBuffer (Sentinel ErrReplicaBackpressure).
#[local] Instance busy_peer : ReplicationPeer nat := {|
  peer_accept n _ := match n with O => (O, None) | S n => (n, Some full_buffer) end;
  peer_credit _ _ _ := 0;
  peer_authorize _ := None;
|}.

Definition full_status : status :=
  {| st_Code := CodeResourceExhausted; st_Message := ""; st_Details := [BackpressureDetail 3 1 1 ResourceReplicaBuffer ""] |}.
Definition one_marshal (st : status) : option bytes :=
  match st with
  | {| st_Code := CodeResourceExhausted; st_Message := ""; st_Details := [BackpressureDetail 3 1 1 ResourceReplicaBuffer ""] |} =>
      Some [Ascii.zero]
  | _ => None
  end.
Definition one_unmarshal (b : bytes) : option status := match b with [] => None | _ => Some full_status end.
Abbreviation from_error := (documented_FromError blank).

#[local] Instance one_encoding : StatusEncoding one_marshal one_unmarshal.
Proof.
  split. intros [c m l] b Hm _. unfold one_marshal in Hm. repeat case_match; try discriminate. injection Hm as <-. done.
Qed.

Definition forward_of (seq : Z) : replicationPayload :=
  replicationForwardPayload
    {| fwd_Operation := {| op_Slot := 3; op_Sequence := seq; op_Kind := OperationKindPut; op_Key := "k"; op_Value := "v";
                           op_Metadata := {| meta_Version := 1; meta_CreatedAt := unix_epoch; meta_UpdatedAt := unix_epoch |} |};
       fwd_FromNodeID := "a"; fwd_ChainVersion := 1 |}.

(** Submitted, connected, sent, received and handled. *)
Definition first_round : list run_event :=
  [RunSubmit (forward_of 1); RunLoop EvContinue; RunLoop EvReceive; RunConnect; RunLoop EvDefault; RunNext 1000; RunSend 1000;
   RunServe 0 3; RunServe 0 3].
(** The acknowledgement and the three credits are read, and the loop waits. *)
Definition acknowledged (now : Z) : list run_event :=
  [RunLoop EvContinue; RunFrame now; RunFrame now; RunFrame now; RunFrame now; RunLoop EvDefault; RunNext now].

Definition final_world (marshal : status -> option bytes) (events : list run_event) (n : nat) : replication (N := nat) :=
  default (idle_world 0%nat) (run_events blank from_error marshal one_unmarshal events (idle_world n)).

Definition second_round : list run_event :=
  [RunLoop (EvStreamError 2000); RunLoop EvContinue; RunLoop EvDefault; RunConnect; RunLoop EvDefault;
   RunNext (2 * 10 ^ 7); RunSend (2 * 10 ^ 7); RunServe 1 3; RunServe 1 3].
Definition both_rounds : list run_event := first_round ++ acknowledged 1000 ++ second_round ++ [RunLoop EvContinue; RunFrame (3 * 10 ^ 7)].

Lemma final_reachable events n : is_Some (run_events blank from_error one_marshal one_unmarshal events (idle_world n)) ->
  replication_reachable blank from_error one_marshal one_unmarshal (final_world one_marshal events n).
Proof. intros [w Hw]. apply (run_reachable _ _ _ _ n events). unfold final_world. by rw Hw. Qed.

Definition forward_request : request := new_request 1 0 (forward_of 1).

Lemma session_conserves_witness :
  let s := w_session (final_world one_marshal (first_round ++ acknowledged 1000) 1) in
  ss_backlog s = [forward_request] /\
  ss_sendCh s ++ ss_backlog s ++ (map_to_list (ss_pending s)).*2 ++ (ss_answers s).*1 ≡ₚ [forward_request].
Proof.
  set (w := final_world one_marshal (first_round ++ acknowledged 1000) 1).
  assert (replication_reachable blank from_error one_marshal one_unmarshal w) as Hr.
  { apply final_reachable. vm_compute. eexists. reflexivity. }
  split; [vm_compute; reflexivity|]. assert ([forward_request] = w_accepted w) as -> by (vm_compute; reflexivity).
  exact (proj1 (session_conserves blank from_error one_marshal one_unmarshal w Hr)).
Defined.

(** The request is refused once with an error that can be encoded, and then
    accepted. *)
Lemma replication_delivers_witness :
  let w := final_world one_marshal both_rounds 1 in
  ss_answers (w_session w) = [(forward_request, None)] /\ payload_fits (forward_of 1) /\
  refusal blank from_error one_marshal full_buffer /\
  w_handled w = [(0%nat, out_frame forward_request, Some full_buffer); (1%nat, out_frame forward_request, None)] /\
  exists k ctx p, forward_request = new_request 1 ctx p /\ (k, out_frame forward_request, None) ∈ w_handled w.
Proof.
  set (w := final_world one_marshal both_rounds 1).
  assert (replication_reachable blank from_error one_marshal one_unmarshal w) as Hr.
  { apply final_reachable. vm_compute. eexists. reflexivity. }
  assert (ss_answers (w_session w) = [(forward_request, None)]) as Ha by (vm_compute; reflexivity).
  assert (refusal blank from_error one_marshal full_buffer) as Hf.
  { exists full_status, [Ascii.zero]. split; [vm_compute; reflexivity|]. split; [discriminate|vm_compute; reflexivity]. }
  assert (w_handled w = [(0%nat, out_frame forward_request, Some full_buffer); (1%nat, out_frame forward_request, None)]) as Hh
    by (vm_compute; reflexivity).
  split; [exact Ha|]. split; [vm_compute; split_and!; congruence|]. split; [exact Hf|]. split; [exact Hh|].
  destruct (proj1 (replication_delivers blank from_error one_marshal one_unmarshal w Hr) forward_request) as (k & ctx & p & err & H1 & H2 & H3 & _).
  { rw Ha. by left. }
  exists k, ctx, p. split; [exact H1|]. destruct err as [e|]; [|exact H2]. exfalso. apply (H3 e eq_refl). clear H3.
  rw Hh in H2. apply (list_elem_of_fmap_2 snd) in H2. cbn [snd fmap list_fmap] in H2.
  apply elem_of_cons in H2 as [H2|H2%list_elem_of_singleton]; [injection H2 as ->; exact Hf|discriminate].
Defined.

(** ** What the sessions do not do *)

(** Finding: nothing wakes a session for a probe.  A request refused for lack
    of room is put back with a time after which it may be tried again, but the
    last [select] of the loop has no timer: when that time has come the request
    could be sent, and the loop waits for a frame, an error of the stream, a new
    request or its close. *)
Theorem blocked_request_waits :
  let s := w_session (final_world one_marshal (first_round ++ acknowledged 1000) 1) in
  ss_point s = AtSelect /\ ss_backlog s = [forward_request] /\ ss_pending s = ∅ /\ ss_sendCh s = [] /\ ss_closed s = false /\
  (forall ev s', session_step from_error one_unmarshal ev s = Some s' ->
     match ev with EvFrame _ _ | EvStreamError _ => True | _ => False end) /\
  (nextSendableIndex (fun _ _ => 1000 + replicationBlockedSlotProbe) (fun _ _ _ => None) s).1 = Some 0%nat.
Proof.
  set (s := w_session _). assert (ss_point s = AtSelect /\ ss_sendCh s = [] /\ ss_closed s = false) as (Hp & Hq & Hc)
    by (vm_compute; split_and!; reflexivity).
  split_and!; [exact Hp|vm_compute; reflexivity..|exact Hq|exact Hc| |vm_compute; reflexivity].
  intros ev s'. clearbody s. unfold session_step, receive. rw Hp Hq Hc. by destruct ev.
Qed.

(** Finding: a refusal that cannot be encoded is taken for success: the
    acknowledgement says that the request failed, its error is empty, and the
    session answers with the nil error it decodes. *)
Theorem unencodable_refusal_succeeds :
  let w := final_world (fun _ => None) (first_round ++ [RunLoop EvContinue; RunFrame 1000]) 1 in
  w_handled w = [(0%nat, out_frame forward_request, Some full_buffer)] /\
  ss_answers (w_session w) = [(forward_request, None)].
Proof. vm_compute. split; reflexivity. Qed.

(** Finding: [enqueue] hands a request over before it counts it, so a loop
    that is quick to send it counts it down first, and the depth shown for its
    slot stays too large for good. *)
Theorem spool_depth_drifts :
  let w := final_world one_marshal (first_round ++ [RunRecorded 1000]) 0 in
  let s := w_session w in
  ss_sendCh s = [] /\ ss_backlog s = [] /\ localSpoolDepth (debugStateFor s ("forward", 3)) = 1.
Proof. vm_compute. split_and!; reflexivity. Qed.
