(* ===== verification/Security.v ===== *)
(** * Authorization of remote calls (src/transport/grpcx/security.go)

    Who may call what: the planes of the two services' methods, the identity in
    a caller's certificate, and the checks of the interceptors and handlers.
    Reading certificates from files and the TLS handshake are calls of packages;
    [tls_state] is what the handshake reports. *)

From S2P Require Import Prelude.
From S2P Require Import CoordTypes.
From S2P Require Import StorageTypes.
From S2P Require Import WireErrors.

Open Scope Z_scope.
Import Go.

(** ** Configuration *)
Inductive ClientAuthMode :=
| ClientAuthModeUnset
| ClientAuthModeDisabled
| ClientAuthModeVerifyIfGiven
| ClientAuthModeRequireAndVerify
| ClientAuthModeOther (mode : string).

Inductive ClientAuthType := NoClientCert | VerifyClientCertIfGiven | RequireAndVerifyClientCert.

Record ClientTLSConfig := { client_CAFile : string; client_CertFile : string; client_KeyFile : string; client_ServerName : string }.
Record ServerTLSConfig := {
  server_CAFile : string;
  server_CertFile : string;
  server_KeyFile : string;
  server_ClientAuth : ClientAuthMode;
}.

Inductive tls_config_error := RequiresCAFile | RequiresCertAndKey | InvalidClientAuthMode (mode : string).

Definition validateClientTLSConfig (cfg : ClientTLSConfig) : res tls_config_error unit :=
  _ ← reject (String.eqb (client_CAFile cfg) "") RequiresCAFile;
  reject (negb (Bool.eqb (String.eqb (client_CertFile cfg) "") (String.eqb (client_KeyFile cfg) ""))) RequiresCertAndKey.

Definition validateServerTLSConfig (cfg : ServerTLSConfig) : res tls_config_error unit :=
  _ ← reject (String.eqb (server_CertFile cfg) "" || String.eqb (server_KeyFile cfg) "") RequiresCertAndKey;
  mode ← match server_ClientAuth cfg with
         | ClientAuthModeOther mode => Err (InvalidClientAuthMode mode)
         | ClientAuthModeUnset => Ok ClientAuthModeVerifyIfGiven
         | mode => Ok mode
         end;
  match mode with
  | ClientAuthModeDisabled => Ok tt
  | _ => reject (String.eqb (server_CAFile cfg) "") RequiresCAFile
  end.

Definition mapClientAuthMode (mode : ClientAuthMode) : ClientAuthType :=
  match mode with
  | ClientAuthModeDisabled => NoClientCert
  | ClientAuthModeRequireAndVerify => RequireAndVerifyClientCert
  | _ => VerifyClientCertIfGiven
  end.

(** ** Identities *)
Definition peerRoleCoordinator : string := "coordinator".
Definition peerRoleStorage : string := "storage".

Record peerIdentity := { id_role : string; id_logicalID : string }.

Record certificate := { cert_CommonName : string; cert_DNSNames : list string }.

(** What is known of the caller: nothing, a connection without TLS, or the state
    of its TLS connection: the number of verified chains and the certificates it
    has shown. *)
Inductive caller :=
| NoPeer
| PeerWithoutTLS
| PeerTLS (verifiedChains : nat) (peerCertificates : list (option certificate)).

Definition unauthenticated (message : string) : error :=
  StatusError {| st_Code := CodeUnauthenticated; st_Message := message; st_Details := [] |}.
Definition permission_denied (message : string) : error :=
  StatusError {| st_Code := CodePermissionDenied; st_Message := message; st_Details := [] |}.

Definition certificateIdentity (cert : option certificate) : res string peerIdentity :=
  match cert with
  | None => Err "missing peer certificate"
  | Some cert =>
      let name := cert_CommonName cert in
      _ ← reject (String.eqb name "") "peer certificate must use common name as role";
      _ ← reject (negb (String.eqb name peerRoleCoordinator) && negb (String.eqb name peerRoleStorage))
            "peer certificate common name is not a supported role";
      match cert_DNSNames cert with
      | [] => Err "peer certificate must use first dns san as logical identity"
      | first :: _ =>
          _ ← reject (String.eqb first "") "peer certificate must use first dns san as logical identity";
          Ok {| id_role := name; id_logicalID := first |}
      end
  end.

Definition requireIdentity (c : caller) : res error peerIdentity :=
  match c with
  | NoPeer => Err (unauthenticated "missing peer context")
  | PeerWithoutTLS => Err (unauthenticated "missing tls peer identity")
  | PeerTLS O _ | PeerTLS _ [] => Err (unauthenticated "client certificate required")
  | PeerTLS _ (cert :: _) =>
      match certificateIdentity cert with
      | Err message => Err (permission_denied message)
      | Ok who => Ok who
      end
  end.

Definition requireRole (c : caller) (role : string) : res error unit :=
  who ← requireIdentity c;
  reject (negb (String.eqb (id_role who) role)) (permission_denied (role ++ " identity required")).

Definition requireStorageIdentityMatch (c : caller) (claimed : string) : res error unit :=
  who ← requireIdentity c;
  _ ← reject (negb (String.eqb (id_role who) peerRoleStorage)) (permission_denied "storage identity required");
  reject (negb (String.eqb claimed "") && negb (String.eqb claimed (id_logicalID who)))
    (permission_denied "peer identity does not match claimed node id").

(** ** Planes *)
Inductive rpcPlane :=
| rpcPlaneClientData
| rpcPlaneCoordinatorAdmin
| rpcPlaneCoordinatorReport
| rpcPlaneStorageControl
| rpcPlaneStorageReplica.

Definition authorizePlane (c : caller) (plane : rpcPlane) : res error unit :=
  match plane with
  | rpcPlaneStorageControl => requireRole c peerRoleCoordinator
  | rpcPlaneCoordinatorReport | rpcPlaneStorageReplica => requireRole c peerRoleStorage
  | _ => Ok tt
  end.

Definition coordinatorRPCPlane (fullMethod : string) : rpcPlane :=
  if bool_decide (fullMethod ∈
    ["/craq.v1.CoordinatorService/ReportReplicaReady"; "/craq.v1.CoordinatorService/ReportReplicaRemoved";
     "/craq.v1.CoordinatorService/ReportNodeHeartbeat"; "/craq.v1.CoordinatorService/ReportNodeRecovered"])
  then rpcPlaneCoordinatorReport
  else rpcPlaneCoordinatorAdmin.

Definition storageRPCPlane (fullMethod : string) : rpcPlane :=
  if bool_decide (fullMethod ∈
    ["/craq.v1.StorageService/AddReplicaAsTail"; "/craq.v1.StorageService/ActivateReplica";
     "/craq.v1.StorageService/MarkReplicaLeaving"; "/craq.v1.StorageService/RemoveReplica";
     "/craq.v1.StorageService/UpdateChainPeers"; "/craq.v1.StorageService/ResumeRecoveredReplica";
     "/craq.v1.StorageService/RecoverReplica"; "/craq.v1.StorageService/DropRecoveredReplica"])
  then rpcPlaneStorageControl
  else if bool_decide (fullMethod ∈
    ["/craq.v1.StorageService/ForwardWrite"; "/craq.v1.StorageService/CommitWrite"; "/craq.v1.StorageService/Replicate";
     "/craq.v1.StorageService/FetchSnapshot"; "/craq.v1.StorageService/FetchCommittedSequence"])
  then rpcPlaneStorageReplica
  else rpcPlaneClientData.

(** The interceptor in front of a handler; a server without TLS has none. *)
Definition unaryInterceptor (authorizer : bool) (policy : string -> rpcPlane) (c : caller) (fullMethod : string)
    : res error unit :=
  if authorizer then authorizePlane c (policy fullMethod) else Ok tt.
