(* ===== verification/Rpc.v ===== *)
(** * Remote calls (src/transport/grpcx/client.go, server.go)

    The two gRPC services: what a client's stub sends, what the server's handler
    makes of it, and what comes back.  The storage node and the coordinator are
    interfaces ([StorageNodeOps], [CoordinatorOps]); the gRPC package carries
    messages, or loses the request or the answer ([delivery]).  Connections, the
    clients that try several coordinators, and the interceptors of [Security] are
    included; logging and metrics are not.

    A handler is [None] where a message carries a role that is none of the
    source's, as in [Wire]. *)

From Stdlib Require Import DecimalString.
From S2P Require Import Prelude.
From S2P Require Import CoordTypes.
From S2P Require Import StorageTypes.
From S2P Require Import RuntimeTypes.
From S2P Require Import SlotReducer.
From S2P Require Import Journal.
From S2P Require Import SlotOwner.
From S2P Require Import CoordServer.
From S2P Require Import Router.
From S2P Require Import Wire.
From S2P Require Import WireErrors.
From S2P Require Import ReplicationSession.
From S2P Require Import ReplicationStream.
From S2P Require Import Security.

Open Scope Z_scope.
Open Scope record_scope.
Import Go.

(** ** The storage service *)
Record SlotCommand := { sc_Slot : Z; sc_Epoch : Z }.
Record AssignmentCommand := { ac_Assignment : ReplicaAssignment; ac_Epoch : Z }.
Record RecoverReplicaCommand := { rc_Assignment : ReplicaAssignment; rc_SourceNodeID : string; rc_Epoch : Z }.

(** The commands of the coordinator that name a slot, and those that carry an
    assignment. *)
Inductive slot_command := ActivateReplica | MarkReplicaLeaving | RemoveReplica | DropRecoveredReplica.
Inductive assignment_command := AddReplicaAsTail | UpdateChainPeers | ResumeRecoveredReplica.

(** The methods of [storage.Node] that the service calls. *)
Class StorageNodeOps (N : Type) := {
  node_HandleClientGet : ClientGetRequest -> N -> N * res error ReadResult;
  node_HandleClientPut : ClientPutRequest -> N -> N * res error CommitResult;
  node_HandleClientDelete : ClientDeleteRequest -> N -> N * res error CommitResult;
  node_slot_command : slot_command -> SlotCommand -> N -> N * res error unit;
  node_assignment_command : assignment_command -> AssignmentCommand -> N -> N * res error unit;
  node_RecoverReplica : RecoverReplicaCommand -> N -> N * res error unit;
  node_replicate : replicationPayload -> N -> N * res error unit;
  node_CommittedSnapshotWithSequence : Z -> N -> res error (Snapshot * Z);
  node_HighestCommittedSequence : Z -> N -> res error Z;
}.

(** Requests and replies as the callers of the client see them.  Forwards and
    commits go through the sessions of [ReplicationSession]; their unary methods
    have a handler only. *)
Inductive storage_call :=
| CallClientGet (req : ClientGetRequest)
| CallClientPut (req : ClientPutRequest)
| CallClientDelete (req : ClientDeleteRequest)
| CallSlotCommand (kind : slot_command) (cmd : SlotCommand)
| CallAssignmentCommand (kind : assignment_command) (cmd : AssignmentCommand)
| CallRecoverReplica (cmd : RecoverReplicaCommand)
| CallFetchSnapshot (slot : Z)
| CallFetchCommittedSequence (slot : Z).

Inductive storage_reply :=
| ReplyRead (result : ReadResult)
| ReplyCommit (result : CommitResult)
| ReplyEmpty
| ReplySnapshot (snapshot : Snapshot) (committedSequence : Z)
| ReplySequence (sequence : Z).

(** Messages *)
Record pb_ClientGetRequest := {
  pb_get_Slot : Z;
  pb_get_Key : string;
  pb_get_ExpectedChainVersion : Z;
  pb_get_Consistency : pb_ReadConsistency;
}.
Record pb_ClientPutRequest := {
  pb_put_Slot : Z;
  pb_put_Key : string;
  pb_put_Value : string;
  pb_put_ExpectedChainVersion : Z;
  pb_put_Conditions : option pb_WriteConditions;
}.
Record pb_ClientDeleteRequest := {
  pb_del_Slot : Z;
  pb_del_Key : string;
  pb_del_ExpectedChainVersion : Z;
  pb_del_Conditions : option pb_WriteConditions;
}.
Record pb_SlotCommand := { pb_sc_Slot : Z; pb_sc_Epoch : Z }.
Record pb_AssignmentCommand := { pb_ac_Assignment : option pb_ReplicaAssignment; pb_ac_Epoch : Z }.
Record pb_RecoverReplicaCommand := {
  pb_rc_Assignment : option pb_ReplicaAssignment;
  pb_rc_SourceNodeId : string;
  pb_rc_Epoch : Z;
}.

Inductive pb_storage_call :=
| PbGet (req : pb_ClientGetRequest)
| PbPut (req : pb_ClientPutRequest)
| PbDelete (req : pb_ClientDeleteRequest)
| PbSlotCommand (kind : slot_command) (cmd : pb_SlotCommand)
| PbAssignmentCommand (kind : assignment_command) (cmd : pb_AssignmentCommand)
| PbRecoverReplica (cmd : pb_RecoverReplicaCommand)
| PbForwardWrite (req : pb_ForwardWriteRequest)
| PbCommitWrite (req : pb_CommitWriteRequest)
| PbCommitAdvance (req : pb_CommitAdvanceRequest)
| PbFetchSnapshot (slot : Z)
| PbFetchCommittedSequence (slot : Z).

(** A stream of snapshot entries ends with a trailer, here the values of its key
    [x-craq-committed-sequence]. *)
Inductive pb_storage_reply :=
| PbReadResult (result : pb_ReadResult)
| PbCommitResult (result : pb_CommitResult)
| PbEmpty
| PbSnapshot (entries : list pb_SnapshotEntry) (trailer : list string)
| PbSequence (sequence : Z).

Definition full_method (call : pb_storage_call) : string :=
  "/craq.v1.StorageService/" ++
  match call with
  | PbGet _ => "Get"
  | PbPut _ => "Put"
  | PbDelete _ => "Delete"
  | PbSlotCommand ActivateReplica _ => "ActivateReplica"
  | PbSlotCommand MarkReplicaLeaving _ => "MarkReplicaLeaving"
  | PbSlotCommand RemoveReplica _ => "RemoveReplica"
  | PbSlotCommand DropRecoveredReplica _ => "DropRecoveredReplica"
  | PbAssignmentCommand AddReplicaAsTail _ => "AddReplicaAsTail"
  | PbAssignmentCommand UpdateChainPeers _ => "UpdateChainPeers"
  | PbAssignmentCommand ResumeRecoveredReplica _ => "ResumeRecoveredReplica"
  | PbRecoverReplica _ => "RecoverReplica"
  | PbForwardWrite _ => "ForwardWrite"
  | PbCommitWrite _ => "CommitWrite"
  | PbCommitAdvance _ => "CommitAdvance"
  | PbFetchSnapshot _ => "FetchSnapshot"
  | PbFetchCommittedSequence _ => "FetchCommittedSequence"
  end.

(** ** Stubs of the storage client *)
Definition client_Get (req : ClientGetRequest) : pb_ClientGetRequest :=
  {| pb_get_Slot := i32 (get_Slot req); pb_get_Key := get_Key req;
     pb_get_ExpectedChainVersion := get_ExpectedChainVersion req;
     pb_get_Consistency := protoReadConsistency (get_Consistency req) |}.

Definition client_Put (req : ClientPutRequest) : pb_ClientPutRequest :=
  {| pb_put_Slot := i32 (put_Slot req); pb_put_Key := put_Key req; pb_put_Value := put_Value req;
     pb_put_ExpectedChainVersion := put_ExpectedChainVersion req;
     pb_put_Conditions := protoWriteConditions (put_Conditions req) |}.

Definition client_Delete (req : ClientDeleteRequest) : pb_ClientDeleteRequest :=
  {| pb_del_Slot := i32 (del_Slot req); pb_del_Key := del_Key req;
     pb_del_ExpectedChainVersion := del_ExpectedChainVersion req;
     pb_del_Conditions := protoWriteConditions (del_Conditions req) |}.

Definition client_slot_command (cmd : SlotCommand) : pb_SlotCommand :=
  {| pb_sc_Slot := i32 (sc_Slot cmd); pb_sc_Epoch := sc_Epoch cmd |}.

Definition client_assignment_command (cmd : AssignmentCommand) : pb_AssignmentCommand :=
  {| pb_ac_Assignment := Some (protoAssignment (ac_Assignment cmd)); pb_ac_Epoch := ac_Epoch cmd |}.

Definition client_RecoverReplica (cmd : RecoverReplicaCommand) : pb_RecoverReplicaCommand :=
  {| pb_rc_Assignment := Some (protoAssignment (rc_Assignment cmd)); pb_rc_SourceNodeId := rc_SourceNodeID cmd;
     pb_rc_Epoch := rc_Epoch cmd |}.

Definition storage_request (call : storage_call) : pb_storage_call :=
  match call with
  | CallClientGet req => PbGet (client_Get req)
  | CallClientPut req => PbPut (client_Put req)
  | CallClientDelete req => PbDelete (client_Delete req)
  | CallSlotCommand kind cmd => PbSlotCommand kind (client_slot_command cmd)
  | CallAssignmentCommand kind cmd => PbAssignmentCommand kind (client_assignment_command cmd)
  | CallRecoverReplica cmd => PbRecoverReplica (client_RecoverReplica cmd)
  | CallFetchSnapshot slot => PbFetchSnapshot (i32 slot)
  | CallFetchCommittedSequence slot => PbFetchCommittedSequence (i32 slot)
  end.

(** [fmt.Sprintf("%d", n)] of a [uint64], and [fmt.Sscanf] with [%d], which leaves
    its target at 0 when there is no number. *)
Definition sprintf_d (n : Z) : string := NilZero.string_of_uint (N.to_uint (Z.to_N n)).
Definition sscanf_d (s : string) : Z :=
  match NilZero.uint_of_string s with Some u => Z.of_N (N.of_uint u) | None => 0 end.

(** [FetchSnapshot] of the client, once the stream has ended. *)
Definition client_FetchSnapshot (entries : list pb_SnapshotEntry) (trailer : list string) : res error (Snapshot * Z) :=
  match snapshotFromProtoEntries (Some <$> entries) with
  | Err _ => Err (Sentinel (OtherSentinel "snapshot entry"))
  | Ok snapshot => Ok (snapshot, match trailer with [] => 0 | value :: _ => sscanf_d value end)
  end.

Definition storage_result (reply : pb_storage_reply) : res error storage_reply :=
  match reply with
  | PbReadResult result => Ok (ReplyRead (fromProtoReadResult (Some result)))
  | PbCommitResult result => Ok (ReplyCommit (fromProtoCommitResult (Some result)))
  | PbEmpty => Ok ReplyEmpty
  | PbSnapshot entries trailer => '(snapshot, sequence) ← client_FetchSnapshot entries trailer; Ok (ReplySnapshot snapshot sequence)
  | PbSequence sequence => Ok (ReplySequence sequence)
  end.

(** ** Handlers of the storage server *)
Section storage.
Context (text : error -> string) (FromError : error -> option status).
Context (objects : Snapshot -> list (string * CommittedObject)).
Context {N : Type} {O : StorageNodeOps N}.

(** [if err != nil { return nil, encodeError(err) }; return convert(result), nil] *)
Definition respond {A B} (convert : A -> B) (r : N * res error A) : N * res error B :=
  (r.1, match r.2 with Ok a => Ok (convert a) | Err e => Err (encodeError text FromError e) end).

Definition empty (r : N * res error unit) : N * res error pb_storage_reply := respond (fun _ => PbEmpty) r.

Definition server_Get (req : pb_ClientGetRequest) (n : N) : N * res error pb_storage_reply :=
  respond (fun result => PbReadResult (protoReadResult result)) (node_HandleClientGet
    {| get_Slot := pb_get_Slot req; get_Key := pb_get_Key req;
       get_ExpectedChainVersion := pb_get_ExpectedChainVersion req;
       get_Consistency := fromProtoReadConsistency (pb_get_Consistency req) |} n).

Definition server_Put (req : pb_ClientPutRequest) (n : N) : N * res error pb_storage_reply :=
  respond (fun result => PbCommitResult (protoCommitResult result)) (node_HandleClientPut
    {| put_Slot := pb_put_Slot req; put_Key := pb_put_Key req; put_Value := pb_put_Value req;
       put_ExpectedChainVersion := pb_put_ExpectedChainVersion req;
       put_Conditions := fromProtoWriteConditions (pb_put_Conditions req) |} n).

Definition server_Delete (req : pb_ClientDeleteRequest) (n : N) : N * res error pb_storage_reply :=
  respond (fun result => PbCommitResult (protoCommitResult result)) (node_HandleClientDelete
    {| del_Slot := pb_del_Slot req; del_Key := pb_del_Key req;
       del_ExpectedChainVersion := pb_del_ExpectedChainVersion req;
       del_Conditions := fromProtoWriteConditions (pb_del_Conditions req) |} n).

Definition server_slot_command (kind : slot_command) (cmd : pb_SlotCommand) (n : N) : N * res error pb_storage_reply :=
  empty (node_slot_command kind {| sc_Slot := pb_sc_Slot cmd; sc_Epoch := pb_sc_Epoch cmd |} n).

Definition server_assignment_command (kind : assignment_command) (cmd : pb_AssignmentCommand) (n : N)
    : option (N * res error pb_storage_reply) :=
  assignment ← fromProtoAssignment (pb_ac_Assignment cmd);
  Some (empty (node_assignment_command kind {| ac_Assignment := assignment; ac_Epoch := pb_ac_Epoch cmd |} n)).

Definition server_RecoverReplica (cmd : pb_RecoverReplicaCommand) (n : N) : option (N * res error pb_storage_reply) :=
  assignment ← fromProtoAssignment (pb_rc_Assignment cmd);
  Some (empty (node_RecoverReplica
    {| rc_Assignment := assignment; rc_SourceNodeID := pb_rc_SourceNodeId cmd; rc_Epoch := pb_rc_Epoch cmd |} n)).

(** [ForwardWrite], [CommitWrite] and [CommitAdvance]: the sender is checked
    first. *)
Definition server_replicate (authorizer : bool) (c : caller) (payload : pb_FramePayload) (n : N)
    : N * res error pb_storage_reply :=
  match frame_request {| pb_RequestId := 0; pb_Payload := Some payload |} with
  | None => (n, Err payload_required)
  | Some p =>
      match if authorizer then requireStorageIdentityMatch c (payload_from p) else Ok tt with
      | Err e => (n, Err (encodeError text FromError e))
      | Ok _ => empty (node_replicate p n)
      end
  end.

Definition server_FetchSnapshot (slot : Z) (n : N) : N * res error pb_storage_reply :=
  respond (fun '(snapshot, committedSequence) => PbSnapshot (protoSnapshot (objects snapshot)) [sprintf_d committedSequence])
    (n, node_CommittedSnapshotWithSequence slot n).

Definition server_FetchCommittedSequence (slot : Z) (n : N) : N * res error pb_storage_reply :=
  respond PbSequence (n, node_HighestCommittedSequence slot n).

(** A call as the gRPC server runs it: the interceptor, then the handler. *)
Definition storage_handler (authorizer : bool) (c : caller) (call : pb_storage_call) (n : N)
    : option (N * res error pb_storage_reply) :=
  match unaryInterceptor authorizer storageRPCPlane c (full_method call) with
  | Err e => Some (n, Err e)
  | Ok _ =>
      match call with
      | PbGet req => Some (server_Get req n)
      | PbPut req => Some (server_Put req n)
      | PbDelete req => Some (server_Delete req n)
      | PbSlotCommand kind cmd => Some (server_slot_command kind cmd n)
      | PbAssignmentCommand kind cmd => server_assignment_command kind cmd n
      | PbRecoverReplica cmd => server_RecoverReplica cmd n
      | PbForwardWrite req => Some (server_replicate authorizer c (ReplicationFrame_ForwardWrite req) n)
      | PbCommitWrite req => Some (server_replicate authorizer c (ReplicationFrame_CommitWrite req) n)
      | PbCommitAdvance req => Some (server_replicate authorizer c (ReplicationFrame_CommitAdvance req) n)
      | PbFetchSnapshot slot => Some (server_FetchSnapshot slot n)
      | PbFetchCommittedSequence slot => Some (server_FetchCommittedSequence slot n)
      end
  end.

(** What the network does with a call. *)
Inductive delivery := Delivered | RequestLost (st : status) | ReplyLost (st : status).

(** The status of a handler's error; the package gives one to every error. *)
Definition wire_status (e : error) : status :=
  match FromError e with Some st => st | None => {| st_Code := CodeUnknown; st_Message := text e; st_Details := [] |} end.

Definition received_error (e : error) : error := decodeError FromError (StatusError (wire_status e)).

(** A stub's call: [dial] is the error of the connection pool, if any. *)
Definition remote_storage_call (authorizer : bool) (c : caller) (dial : option error) (d : delivery) (call : storage_call) (n : N)
    : option (N * res error storage_reply) :=
  match dial, d with
  | Some e, _ => Some (n, Err e)
  | None, RequestLost st => Some (n, Err (decodeError FromError (StatusError st)))
  | None, ReplyLost st =>
      '(n, _) ← storage_handler authorizer c (storage_request call) n; Some (n, Err (decodeError FromError (StatusError st)))
  | None, Delivered =>
      '(n, r) ← storage_handler authorizer c (storage_request call) n;
      Some (n, match r with Ok reply => storage_result reply | Err e => Err (received_error e) end)
  end.

(** The same call on the node itself. *)
Definition local_storage_call (call : storage_call) (n : N) : N * res error storage_reply :=
  let put {A} (f : A -> storage_reply) (r : N * res error A) : N * res error storage_reply := (r.1, f <$> r.2) in
  match call with
  | CallClientGet req => put ReplyRead (node_HandleClientGet req n)
  | CallClientPut req => put ReplyCommit (node_HandleClientPut req n)
  | CallClientDelete req => put ReplyCommit (node_HandleClientDelete req n)
  | CallSlotCommand kind cmd => put (fun _ => ReplyEmpty) (node_slot_command kind cmd n)
  | CallAssignmentCommand kind cmd => put (fun _ => ReplyEmpty) (node_assignment_command kind cmd n)
  | CallRecoverReplica cmd => put (fun _ => ReplyEmpty) (node_RecoverReplica cmd n)
  | CallFetchSnapshot slot => put (fun '(snapshot, sequence) => ReplySnapshot snapshot sequence) (n, node_CommittedSnapshotWithSequence slot n)
  | CallFetchCommittedSequence slot => put ReplySequence (n, node_HighestCommittedSequence slot n)
  end.
End storage.

(** ** The coordinator service *)
Class CoordinatorOps (S : Type) := {
  coord_Bootstrap : Command -> S -> S * res error State;
  coord_RegisterNode : NodeRegistration -> S -> S * res error State;
  coord_membership : EventKind -> Command -> S -> S * res error State;
  coord_RoutingSnapshot : S -> res error RoutingSnapshot;
  coord_ReportReplicaReady : string -> Z -> Z -> string -> S -> S * res error State;
  coord_ReportReplicaRemoved : string -> Z -> Z -> string -> S -> S * res error State;
  coord_ReportNodeHeartbeat : NodeStatus -> S -> S * res error unit;
  coord_ReportNodeRecovered : NodeRecoveryReport -> S -> S * res error unit;
  coord_EvaluateLiveness : S -> S * res error unit;
  coord_CurrentVersion : S -> Z;
}.

(** [AddNode], [BeginDrainNode] and [MarkNodeDead] *)
Inductive membership_method := AddNode | BeginDrainNode | MarkNodeDead.
Definition membership_kind (m : membership_method) : EventKind :=
  match m with
  | AddNode => EventKindAddNode
  | BeginDrainNode => EventKindBeginDrainNode
  | MarkNodeDead => EventKindMarkNodeDead
  end.

Inductive coordinator_call :=
| CallBootstrap (cmd : Command)
| CallMembership (m : membership_method) (cmd : Command)
| CallRoutingSnapshotRPC
| CallEvaluateLiveness
| CallRegisterNode (reg : NodeRegistration)
| CallReportReplicaReady (nodeID : string) (slot epoch : Z)
| CallReportReplicaRemoved (nodeID : string) (slot epoch : Z)
| CallReportNodeHeartbeat (status : NodeStatus)
| CallReportNodeRecovered (report : NodeRecoveryReport).

(** The clients keep the version of the state only. *)
Inductive coordinator_reply :=
| ReplyVersion (version : Z)
| ReplyRouting (snapshot : RoutingSnapshot)
| ReplyNothing.

Record pb_BootstrapRequest := {
  pb_boot_CommandId : string;
  pb_boot_ExpectedVersion : Z;
  pb_boot_SlotCount : Z;
  pb_boot_ReplicationFactor : Z;
  pb_boot_Nodes : list pb_Node;
}.
Record pb_MembershipMutationRequest := {
  pb_mm_CommandId : string;
  pb_mm_ExpectedVersion : Z;
  pb_mm_MaxChangedChains : Z;
  pb_mm_Node : option pb_Node;
  pb_mm_NodeId : string;
}.
Record pb_ReplicaReport := { pb_rr_NodeId : string; pb_rr_Slot : Z; pb_rr_CommandId : string; pb_rr_Epoch : Z }.

Inductive pb_coordinator_call :=
| PbBootstrap (req : pb_BootstrapRequest)
| PbMembership (m : membership_method) (req : pb_MembershipMutationRequest)
| PbRoutingSnapshot
| PbEvaluateLiveness
| PbRegisterNode (node : pb_Node)
| PbReportReplicaReady (req : pb_ReplicaReport)
| PbReportReplicaRemoved (req : pb_ReplicaReport)
| PbReportNodeHeartbeat (req : pb_NodeStatus)
| PbReportNodeRecovered (req : pb_NodeRecoveryReport).

Inductive pb_coordinator_reply :=
| PbServerState (state : pb_ServerState)
| PbRouting (snapshot : pb_RoutingSnapshot)
| PbNothing.

Definition coordinator_method (call : pb_coordinator_call) : string :=
  "/craq.v1.CoordinatorService/" ++
  match call with
  | PbBootstrap _ => "Bootstrap"
  | PbMembership AddNode _ => "AddNode"
  | PbMembership BeginDrainNode _ => "BeginDrainNode"
  | PbMembership MarkNodeDead _ => "MarkNodeDead"
  | PbRoutingSnapshot => "RoutingSnapshot"
  | PbEvaluateLiveness => "EvaluateLiveness"
  | PbRegisterNode _ => "RegisterNode"
  | PbReportReplicaReady _ => "ReportReplicaReady"
  | PbReportReplicaRemoved _ => "ReportReplicaRemoved"
  | PbReportNodeHeartbeat _ => "ReportNodeHeartbeat"
  | PbReportNodeRecovered _ => "ReportNodeRecovered"
  end.

Section coordinator.
Context (text : error -> string) (FromError : error -> option status).
Context (domains : gmap string string -> list (string * string)).
Context {S : Type} {C : CoordinatorOps S}.

Definition proto_node (node : Node) : pb_Node := protoNode (domains (node_FailureDomains node)) node.

(** The stubs that follow a nil pointer of the command panic: [None]. *)
Definition client_Bootstrap (cmd : Command) : option pb_BootstrapRequest :=
  (fun b => {| pb_boot_CommandId := cmd_ID cmd; pb_boot_ExpectedVersion := cmd_ExpectedVersion cmd;
               pb_boot_SlotCount := i32 (config_SlotCount (boot_Config b));
               pb_boot_ReplicationFactor := i32 (config_ReplicationFactor (boot_Config b));
               pb_boot_Nodes := proto_node <$> boot_Nodes b |}) <$> cmd_Bootstrap cmd.

Definition client_mutateMembership (cmd : Command) : option pb_MembershipMutationRequest :=
  (fun r => {| pb_mm_CommandId := cmd_ID cmd; pb_mm_ExpectedVersion := cmd_ExpectedVersion cmd;
               pb_mm_MaxChangedChains := i32 (policy_MaxChangedChains (reconf_Policy r));
               pb_mm_Node := (fun event => proto_node (event_Node event)) <$> head (reconf_Events r);
               pb_mm_NodeId := default "" (event_NodeID <$> head (reconf_Events r)) |}) <$> cmd_Reconfigure cmd.

Definition client_report (nodeID : string) (slot epoch : Z) : pb_ReplicaReport :=
  {| pb_rr_NodeId := nodeID; pb_rr_Slot := i32 slot; pb_rr_CommandId := ""; pb_rr_Epoch := epoch |}.

Definition client_RegisterNode (reg : NodeRegistration) : pb_Node :=
  proto_node {| node_ID := reg_NodeID reg; node_RPCAddress := reg_RPCAddress reg; node_FailureDomains := reg_FailureDomains reg |}.

Definition coordinator_request (call : coordinator_call) : option pb_coordinator_call :=
  match call with
  | CallBootstrap cmd => PbBootstrap <$> client_Bootstrap cmd
  | CallMembership m cmd => PbMembership m <$> client_mutateMembership cmd
  | CallRoutingSnapshotRPC => Some PbRoutingSnapshot
  | CallEvaluateLiveness => Some PbEvaluateLiveness
  | CallRegisterNode reg => Some (PbRegisterNode (client_RegisterNode reg))
  | CallReportReplicaReady nodeID slot epoch => Some (PbReportReplicaReady (client_report nodeID slot epoch))
  | CallReportReplicaRemoved nodeID slot epoch => Some (PbReportReplicaRemoved (client_report nodeID slot epoch))
  | CallReportNodeHeartbeat status => Some (PbReportNodeHeartbeat (protoNodeStatus status))
  | CallReportNodeRecovered report => Some (PbReportNodeRecovered (protoNodeRecovery report))
  end.

(** ** Handlers of the coordinator server *)
Definition rpc_command (id : string) (version : Z) (kind : CommandKind) (b : option BootstrapCommand) (r : option ReconfigureCommand)
    : Command :=
  {| cmd_ID := id; cmd_ExpectedVersion := version; cmd_Kind := kind; cmd_Bootstrap := b; cmd_Reconfigure := r;
     cmd_Progress := None; cmd_NodeReady := None; cmd_Heartbeat := None; cmd_Liveness := None; cmd_AcknowledgeOutbox := None |}.

Definition state_reply (r : S * res error State) : S * res error pb_coordinator_reply :=
  respond text FromError (fun state => PbServerState (protoServerState state)) r.

Definition noPolicy : ReconfigurationPolicy := {| policy_MaxChangedChains := 0 |}.

Definition server_Bootstrap (req : pb_BootstrapRequest) (s : S) : S * res error pb_coordinator_reply :=
  state_reply (coord_Bootstrap
    (rpc_command (pb_boot_CommandId req) (pb_boot_ExpectedVersion req) CommandKindBootstrap
       (Some {| boot_Config := {| config_SlotCount := pb_boot_SlotCount req;
                                  config_ReplicationFactor := pb_boot_ReplicationFactor req |};
                boot_Nodes := (fun node => fromProtoNode (Some node)) <$> pb_boot_Nodes req;
                boot_Policy := noPolicy |}) None) s).

Definition server_applyMembership (kind : EventKind) (req : pb_MembershipMutationRequest) (s : S)
    : S * res error pb_coordinator_reply :=
  state_reply (coord_membership kind
    (rpc_command (pb_mm_CommandId req) (pb_mm_ExpectedVersion req) CommandKindReconfigure None
       (Some {| reconf_Events := [{| event_Kind := kind; event_Node := fromProtoNode (pb_mm_Node req);
                                     event_NodeID := pb_mm_NodeId req; event_Slot := 0 |}];
                reconf_Policy := {| policy_MaxChangedChains := pb_mm_MaxChangedChains req |} |})) s).

(** The reports check that the sender is the node it reports on. *)
Definition reported {A} (authorizer : bool) (c : caller) (nodeID : string) (handle : S -> S * res error A) (s : S)
    : S * res error A :=
  match if authorizer then requireStorageIdentityMatch c nodeID else Ok tt with
  | Err e => (s, Err (encodeError text FromError e))
  | Ok _ => handle s
  end.

Definition server_ReportReplicaReady (authorizer : bool) (c : caller) (req : pb_ReplicaReport) (s : S) : S * res error pb_coordinator_reply :=
  reported authorizer c (pb_rr_NodeId req)
    (fun s => state_reply (coord_ReportReplicaReady (pb_rr_NodeId req) (pb_rr_Slot req) (pb_rr_Epoch req) (pb_rr_CommandId req) s)) s.

Definition server_ReportReplicaRemoved (authorizer : bool) (c : caller) (req : pb_ReplicaReport) (s : S) : S * res error pb_coordinator_reply :=
  reported authorizer c (pb_rr_NodeId req)
    (fun s => state_reply (coord_ReportReplicaRemoved (pb_rr_NodeId req) (pb_rr_Slot req) (pb_rr_Epoch req) (pb_rr_CommandId req) s)) s.

Definition server_ReportNodeHeartbeat (authorizer : bool) (c : caller) (req : pb_NodeStatus) (s : S) : S * res error pb_coordinator_reply :=
  reported authorizer c (pb_status_NodeId req)
    (fun s => respond text FromError (fun _ => PbNothing) (coord_ReportNodeHeartbeat (fromProtoNodeStatus (Some req)) s)) s.

Definition server_ReportNodeRecovered (authorizer : bool) (c : caller) (req : pb_NodeRecoveryReport) (s : S)
    : option (S * res error pb_coordinator_reply) :=
  match if authorizer then requireStorageIdentityMatch c (pb_report_NodeId req) else Ok tt with
  | Err e => Some (s, Err (encodeError text FromError e))
  | Ok _ =>
      report ← fromProtoNodeRecovery (Some req);
      Some (respond text FromError (fun _ => PbNothing) (coord_ReportNodeRecovered report s))
  end.

Definition server_RegisterNode (node : pb_Node) (s : S) : S * res error pb_coordinator_reply :=
  state_reply (coord_RegisterNode
    {| reg_NodeID := pb_Id node; reg_RPCAddress := pb_RpcAddress node;
       reg_FailureDomains := node_FailureDomains (fromProtoNode (Some node)) |} s).

Definition server_RoutingSnapshot (s : S) : S * res error pb_coordinator_reply :=
  respond text FromError (fun snapshot => PbRouting (protoRoutingSnapshot snapshot)) (s, coord_RoutingSnapshot s).

Definition server_EvaluateLiveness (s : S) : S * res error pb_coordinator_reply :=
  let '(s, r) := coord_EvaluateLiveness s in
  respond text FromError (fun _ => PbServerState {| pb_state_Version := coord_CurrentVersion s |}) (s, r).

Definition coordinator_handler (authorizer : bool) (c : caller) (call : pb_coordinator_call) (s : S)
    : option (S * res error pb_coordinator_reply) :=
  match unaryInterceptor authorizer coordinatorRPCPlane c (coordinator_method call) with
  | Err e => Some (s, Err e)
  | Ok _ =>
      match call with
      | PbBootstrap req => Some (server_Bootstrap req s)
      | PbMembership m req => Some (server_applyMembership (membership_kind m) req s)
      | PbRoutingSnapshot => Some (server_RoutingSnapshot s)
      | PbEvaluateLiveness => Some (server_EvaluateLiveness s)
      | PbRegisterNode node => Some (server_RegisterNode node s)
      | PbReportReplicaReady req => Some (server_ReportReplicaReady authorizer c req s)
      | PbReportReplicaRemoved req => Some (server_ReportReplicaRemoved authorizer c req s)
      | PbReportNodeHeartbeat req => Some (server_ReportNodeHeartbeat authorizer c req s)
      | PbReportNodeRecovered req => server_ReportNodeRecovered authorizer c req s
      end
  end.

(** What the stubs make of a reply. *)
Definition coordinator_result (call : coordinator_call) (reply : pb_coordinator_reply) : option coordinator_reply :=
  match call, reply with
  | CallBootstrap _, PbServerState state | CallMembership _ _, PbServerState state => Some (ReplyVersion (pb_state_Version state))
  | CallRoutingSnapshotRPC, PbRouting snapshot => ReplyRouting <$> fromProtoRoutingSnapshot (Some snapshot)
  | CallBootstrap _, _ | CallMembership _ _, _ | CallRoutingSnapshotRPC, _ => None
  | _, _ => Some ReplyNothing
  end.

Definition remote_coordinator_call (authorizer : bool) (c : caller) (d : delivery) (call : coordinator_call) (s : S)
    : option (S * res error coordinator_reply) :=
  request ← coordinator_request call;
  match d with
  | RequestLost st => Some (s, Err (decodeError FromError (StatusError st)))
  | ReplyLost st => '(s, _) ← coordinator_handler authorizer c request s; Some (s, Err (decodeError FromError (StatusError st)))
  | Delivered =>
      '(s, r) ← coordinator_handler authorizer c request s;
      match r with
      | Ok reply => (fun a => (s, Ok a)) <$> coordinator_result call reply
      | Err e => Some (s, Err (received_error text FromError e))
      end
  end.

(** The same call on the coordinator's server itself. *)
Definition local_coordinator_call (call : coordinator_call) (s : S) : S * res error coordinator_reply :=
  let put {A} (f : A -> coordinator_reply) (r : S * res error A) : S * res error coordinator_reply := (r.1, f <$> r.2) in
  let version (state : State) := ReplyVersion (rt_Version state) in
  match call with
  | CallBootstrap cmd => put version (coord_Bootstrap cmd s)
  | CallMembership m cmd => put version (coord_membership (membership_kind m) cmd s)
  | CallRoutingSnapshotRPC => put ReplyRouting (s, coord_RoutingSnapshot s)
  | CallEvaluateLiveness => put (fun _ => ReplyNothing) (coord_EvaluateLiveness s)
  | CallRegisterNode reg => put (fun _ => ReplyNothing) (coord_RegisterNode reg s)
  | CallReportReplicaReady nodeID slot epoch => put (fun _ => ReplyNothing) (coord_ReportReplicaReady nodeID slot epoch "" s)
  | CallReportReplicaRemoved nodeID slot epoch => put (fun _ => ReplyNothing) (coord_ReportReplicaRemoved nodeID slot epoch "" s)
  | CallReportNodeHeartbeat status => put (fun _ => ReplyNothing) (coord_ReportNodeHeartbeat status s)
  | CallReportNodeRecovered report => put (fun _ => ReplyNothing) (coord_ReportNodeRecovered report s)
  end.
End coordinator.

(** ** Clients of several coordinators

    [CoordinatorAdminClient] and [CoordinatorReporterClient] are the same code. *)
Record failover_client := { fc_targets : list string; fc_preferred : Z }.

Definition buildFailoverTargets (targets : list string) (preferred : Z) : list (Z * string) :=
  let all := imap (fun i target => (Z.of_nat i, target)) targets in
  let first := if (0 <=? preferred) && (preferred <? Z.of_nat (length targets))
               then List.filter (fun c => fst c =? preferred) all else [] in
  first ++ List.filter (fun c => negb (existsb (fun f => fst f =? fst c) first)) all.

Definition shouldFailoverCoordinator (e : error) : bool := Is e ErrNotLeader.

Section failover.
Context {W A : Type} (dial : string -> W -> W * option error) (fn : string -> W -> W * res error A).

(** The loop over the candidates; [None] for the result when all have been tried. *)
Fixpoint try_targets (candidates : list (Z * string)) (lastErr : option error) (w : W)
    : W * option Z * res (option error) A :=
  match candidates with
  | [] => (w, None, Err lastErr)
  | (index, target) :: rest =>
      match dial target w with
      | (w, Some e) => try_targets rest (Some e) w
      | (w, None) =>
          match fn target w with
          | (w, Ok a) => (w, Some index, Ok a)
          | (w, Err e) => if shouldFailoverCoordinator e then try_targets rest (Some e) w else (w, None, Err (Some e))
          end
      end
  end.

Definition withFailover (c : failover_client) (w : W) : W * failover_client * res error A :=
  match buildFailoverTargets (fc_targets c) (fc_preferred c) with
  | [] => (w, c, Err (Wrapped "no coordinator targets configured" (Sentinel (OtherSentinel "ErrUnknownNode"))))
  | candidates =>
      let '(w, preferred, r) := try_targets candidates None w in
      (w, match preferred with Some index => {| fc_targets := fc_targets c; fc_preferred := index |} | None => c end,
       match r with Ok a => Ok a | Err (Some e) => Err e | Err None => Err (Sentinel ErrNotLeader) end)
  end.
End failover.

(** ** The connection pool

    A connection is a number; [closed] lists those that have been closed. *)
Record pool := { pool_conns : gmap string nat; pool_closed : list nat }.

(** The first lookup of [DialContext]; without an entry the caller dials. *)
Definition pool_lookup (p : pool) (target : string) : option nat := pool_conns p !! target.

(** What [DialContext] does with the connection it has dialled. *)
Definition pool_keep (p : pool) (target : string) (conn : nat) : pool * nat :=
  match pool_conns p !! target with
  | Some existing => ({| pool_conns := pool_conns p; pool_closed := pool_closed p ++ [conn] |}, existing)
  | None => ({| pool_conns := <[target := conn]> (pool_conns p); pool_closed := pool_closed p |}, conn)
  end.

Definition pool_Remove (p : pool) (target : string) : pool :=
  match pool_conns p !! target with
  | Some conn => {| pool_conns := delete target (pool_conns p); pool_closed := pool_closed p ++ [conn] |}
  | None => p
  end.

Definition pool_Close (p : pool) : pool :=
  {| pool_conns := ∅; pool_closed := pool_closed p ++ (map_to_list (pool_conns p)).*2 |}.
