(* ===== verification/RpcTheorems.v ===== *)
(** * Theorems on remote calls

    A call through the transport does what the call on the node or the
    coordinator itself does; only the peers the planes name get through; a
    client of several coordinators asks them one after the other. *)

From Stdlib Require Import DecimalString DecimalN.
From S2P Require Import Prelude.
From S2P Require Import CoordTypes.
From S2P Require Import StorageTypes.
From S2P Require Import RuntimeTypes.
From S2P Require Import SlotReducer.
From S2P Require Import Journal.
From S2P Require Import SlotOwner.
From S2P Require Import CoordServer.
From S2P Require Import Router.
From S2P Require Import Wire.
From S2P Require Import WireErrors.
From S2P Require Import WireTheorems.
From S2P Require Import ReplicationSession.
From S2P Require Import ReplicationStream.
From S2P Require Import Security.
From S2P Require Import Rpc.

Open Scope Z_scope.
Open Scope record_scope.
Import Go.

(** ** Numbers in trailers *)
Lemma to_uint_not_nil n : N.to_uint n <> Decimal.Nil.
Proof. destruct n as [|p]; [done|]. intros H. pose proof (DecimalPos.Unsigned.of_to p) as Hp. cbn in H. unfold N.to_uint in H. by rw H in Hp. Qed.

Lemma decimal_roundtrip n : 0 <= n -> sscanf_d (sprintf_d n) = n.
Proof.
  intros Hn. unfold sscanf_d, sprintf_d. rw NilZero.usu; [apply to_uint_not_nil|]. rw DecimalN.Unsigned.of_to. lia.
Qed.

(** ** Calls of the storage service *)
Definition call_fits (call : storage_call) : Prop :=
  match call with
  | CallClientGet req => fits_i32 (get_Slot req) /\ fits (MessageConsistency (get_Consistency req))
  | CallClientPut req => fits_i32 (put_Slot req) /\ fits (MessageConditions (put_Conditions req))
  | CallClientDelete req => fits_i32 (del_Slot req) /\ fits (MessageConditions (del_Conditions req))
  | CallSlotCommand _ cmd => fits_i32 (sc_Slot cmd)
  | CallAssignmentCommand _ cmd => fits_i32 (asg_Slot (ac_Assignment cmd))
  | CallRecoverReplica cmd => fits_i32 (asg_Slot (rc_Assignment cmd))
  | CallFetchSnapshot slot | CallFetchCommittedSequence slot => fits_i32 slot
  end.

Definition reply_fits (reply : storage_reply) : Prop :=
  match reply with
  | ReplyRead r => fits (MessageRead r)
  | ReplyCommit r => fits (MessageCommit r)
  | ReplySnapshot s sequence => fits (MessageSnapshot s) /\ 0 <= sequence
  | _ => True
  end.

(** An error whose class the messages can carry. *)
Definition plain (e : error) : Prop := As as_status e = None /\ class_fits (class_of e).

Section calls.
Context (text : error -> string) (FromError : error -> option status) `{StatusLaws FromError}.

Lemma received_class e : plain e -> class_of (received_error text FromError (encodeError text FromError e)) = class_of e.
Proof.
  intros [Hs Hf]. destruct (encoded_class text FromError e Hs Hf) as (c & details & He & Hc).
  unfold received_error, wire_status. rw He. unfold status_error in *. by rw from_status.
Qed.

Section storage.
Context (objects : Snapshot -> list (string * CommittedObject)) (Horder : forall s, objects s ≡ₚ map_to_list s).
Context {N : Type} {O : StorageNodeOps N}.

Abbreviation handler := (storage_handler text FromError objects).
Abbreviation remote := (remote_storage_call text FromError objects).

(** [r'] reads as the result [r] of the node. *)
Definition reads_as (r' : res error pb_storage_reply) (r : res error storage_reply) : Prop :=
  match r with
  | Ok reply => reply_fits reply -> exists m, r' = Ok m /\ storage_result m = Ok reply
  | Err e => r' = Err (encodeError text FromError e)
  end.

Lemma respond_reads {A} (convert : A -> pb_storage_reply) (f : A -> storage_reply) (r : N * res error A) :
  (forall a, reply_fits (f a) -> storage_result (convert a) = Ok (f a)) ->
  reads_as (respond text FromError convert r).2 (f <$> r.2).
Proof. destruct r as [n' [a|e]]; intros Hf; [|done]. intros Hr. eexists. split; [done|]. by apply Hf. Qed.

(** The handler of a call makes the call on the node, and its answer reads as
    the node's. *)
Lemma handler_call authorizer c call n :
  unaryInterceptor authorizer storageRPCPlane c (full_method (storage_request call)) = Ok tt -> call_fits call ->
  exists r', handler authorizer c (storage_request call) n = Some ((local_storage_call call n).1, r') /\
    reads_as r' (local_storage_call call n).2.
Proof.
  intros Hi Hf. unfold storage_handler. rw Hi. clear Hi.
  destruct call as [req|req|req|kind cmd|kind cmd|cmd|slot|slot]; cbn [storage_request local_storage_call fst snd].
  - destruct Hf as [Hs Hc]. assert (server_Get text FromError (client_Get req) n = respond text FromError
      (fun result => PbReadResult (protoReadResult result)) (node_HandleClientGet req n)) as ->.
    { unfold server_Get, client_Get. cbn. rw i32_small // consistency_roundtrip //. by destruct req. }
    eexists. split; [done|]. apply respond_reads. intros r Hr. unfold storage_result. by rw read_roundtrip.
  - destruct Hf as [Hs Hc]. assert (server_Put text FromError (client_Put req) n = respond text FromError
      (fun result => PbCommitResult (protoCommitResult result)) (node_HandleClientPut req n)) as ->.
    { unfold server_Put, client_Put. cbn [pb_put_Slot pb_put_Key pb_put_Value pb_put_ExpectedChainVersion pb_put_Conditions].
      rw i32_small // conditions_roundtrip //. by destruct req. }
    eexists. split; [done|]. apply respond_reads. intros r Hr. unfold storage_result. by rw commit_roundtrip.
  - destruct Hf as [Hs Hc]. assert (server_Delete text FromError (client_Delete req) n = respond text FromError
      (fun result => PbCommitResult (protoCommitResult result)) (node_HandleClientDelete req n)) as ->.
    { unfold server_Delete, client_Delete. cbn [pb_del_Slot pb_del_Key pb_del_ExpectedChainVersion pb_del_Conditions].
      rw i32_small // conditions_roundtrip //. by destruct req. }
    eexists. split; [done|]. apply respond_reads. intros r Hr. unfold storage_result. by rw commit_roundtrip.
  - exists (respond text FromError (fun _ => PbEmpty) (node_slot_command kind cmd n)).2.
    split; [|by apply respond_reads]. unfold server_slot_command, client_slot_command. cbn. rw i32_small //. by destruct cmd.
  - exists (respond text FromError (fun _ => PbEmpty) (node_assignment_command kind cmd n)).2.
    split; [|by apply respond_reads]. unfold server_assignment_command, client_assignment_command. cbn [pb_ac_Assignment pb_ac_Epoch].
    rw assignment_roundtrip //. by destruct cmd.
  - exists (respond text FromError (fun _ => PbEmpty) (node_RecoverReplica cmd n)).2.
    split; [|by apply respond_reads]. unfold server_RecoverReplica, client_RecoverReplica.
    cbn [pb_rc_Assignment pb_rc_SourceNodeId pb_rc_Epoch]. rw assignment_roundtrip //. by destruct cmd.
  - cbn in Hf. rw i32_small //. eexists. split; [done|]. apply respond_reads. intros [s sequence] [Hs Hseq].
    unfold storage_result, client_FetchSnapshot. rw snapshot_roundtrip //. cbn. by rw decimal_roundtrip.
  - cbn in Hf. rw i32_small //. eexists. split; [done|]. by apply respond_reads.
Qed.

(** C32. A call through the transport is the call on the node.  For every
    method of the storage client but the three that go through a replication
    session (forwarding, committing and advancing a commit), when the interceptor
    lets the caller through and the numbers fit the messages: if nothing is lost,
    the node does exactly what the direct call does; the result is the direct
    call's if its numbers fit, and an error arrives as an error, of the same
    class unless it holds a gRPC status of its own; if the request is lost the
    node does nothing, and if the answer is lost it has done what the direct call
    does, and either way the caller gets an error. *)
Theorem storage_calls_transparent authorizer c call n :
  unaryInterceptor authorizer storageRPCPlane c (full_method (storage_request call)) = Ok tt -> call_fits call ->
  let '(n', r) := local_storage_call call n in
  match r with
  | Ok reply => reply_fits reply -> remote authorizer c None Delivered call n = Some (n', Ok reply)
  | Err e => exists e', remote authorizer c None Delivered call n = Some (n', Err e') /\ (plain e -> class_of e' = class_of e)
  end /\
  forall st, let failed := decodeError FromError (StatusError st) in
    remote authorizer c None (RequestLost st) call n = Some (n, Err failed) /\
    remote authorizer c None (ReplyLost st) call n = Some (n', Err failed).
Proof.
  intros Hi Hf. destruct (handler_call authorizer c call n Hi Hf) as (r' & Hh & Hr). unfold remote_storage_call. rw Hh.
  destruct (local_storage_call call n) as [n' [reply|e]]; cbn in *; split; try done.
  - intros Hfits. destruct (Hr Hfits) as (m & -> & Hm). by rw Hm.
  - rw Hr. eexists. split; [done|]. by apply received_class.
Qed.
End storage.

(** ** Calls of the coordinator service *)
Section coordinator.
Context (domains : gmap string string -> list (string * string)) (Hdomains : forall d, domains d ≡ₚ map_to_list d).
Context {S : Type} {C : CoordinatorOps S}.

(** The commands the messages can carry: a bootstrap without policy, and one
    event of the method's kind. *)
Inductive carried : coordinator_call -> Prop :=
| carried_bootstrap id version config nodes :
    fits_i32 (config_SlotCount config) -> fits_i32 (config_ReplicationFactor config) ->
    carried (CallBootstrap (rpc_command id version CommandKindBootstrap
      (Some {| boot_Config := config; boot_Nodes := nodes; boot_Policy := noPolicy |}) None))
| carried_membership m id version node nodeID policy :
    fits_i32 (policy_MaxChangedChains policy) ->
    carried (CallMembership m (rpc_command id version CommandKindReconfigure None
      (Some {| reconf_Events := [{| event_Kind := membership_kind m; event_Node := node; event_NodeID := nodeID; event_Slot := 0 |}];
               reconf_Policy := policy |})))
| carried_routing : carried CallRoutingSnapshotRPC
| carried_liveness : carried CallEvaluateLiveness
| carried_register reg : carried (CallRegisterNode reg)
| carried_ready nodeID slot epoch : fits_i32 slot -> carried (CallReportReplicaReady nodeID slot epoch)
| carried_removed nodeID slot epoch : fits_i32 slot -> carried (CallReportReplicaRemoved nodeID slot epoch)
| carried_heartbeat status : fits (MessageStatus status) -> carried (CallReportNodeHeartbeat status)
| carried_recovered report : fits (MessageRecovery report) -> carried (CallReportNodeRecovered report).

Definition coordinator_reply_fits (reply : coordinator_reply) : Prop :=
  match reply with ReplyRouting s => fits (MessageRouting s) | _ => True end.

(** Whoever is checked is let through. *)
Definition admitted_caller (authorizer : bool) (c : caller) (request : pb_coordinator_call) : Prop :=
  unaryInterceptor authorizer coordinatorRPCPlane c (coordinator_method request) = Ok tt /\
  match request with
  | PbReportReplicaReady req | PbReportReplicaRemoved req => authorizer = true -> requireStorageIdentityMatch c (pb_rr_NodeId req) = Ok tt
  | PbReportNodeHeartbeat req => authorizer = true -> requireStorageIdentityMatch c (pb_status_NodeId req) = Ok tt
  | PbReportNodeRecovered req => authorizer = true -> requireStorageIdentityMatch c (pb_report_NodeId req) = Ok tt
  | _ => True
  end.

Abbreviation coordinator_remote := (remote_coordinator_call text FromError domains).

Definition coordinator_reads_as (call : coordinator_call) (r' : res error pb_coordinator_reply) (r : res error coordinator_reply) : Prop :=
  match r with
  | Ok reply => coordinator_reply_fits reply -> exists m, r' = Ok m /\ coordinator_result call m = Some reply
  | Err e => r' = Err (encodeError text FromError e)
  end.

Lemma coordinator_respond {A} call (convert : A -> pb_coordinator_reply) (f : A -> coordinator_reply) (r : S * res error A) :
  (forall a, coordinator_reply_fits (f a) -> coordinator_result call (convert a) = Some (f a)) ->
  coordinator_reads_as call (respond text FromError convert r).2 (f <$> r.2).
Proof. destruct r as [s' [a|e]]; intros Hf; [|done]. intros Hr. eexists. split; [done|]. by apply Hf. Qed.

Lemma reported_ok {A} authorizer c nodeID (handle : S -> S * res error A) s :
  (authorizer = true -> requireStorageIdentityMatch c nodeID = Ok tt) -> reported text FromError authorizer c nodeID handle s = handle s.
Proof. intros Hc. unfold reported. destruct authorizer; [by rw Hc|done]. Qed.

Lemma nodes_roundtrip (nodes : list Node) : (fun node => fromProtoNode (Some node)) <$> (proto_node domains <$> nodes) = nodes.
Proof.
  induction nodes as [|node nodes IH]; [done|]. rw !fmap_cons IH. f_equal. unfold proto_node. by rw node_roundtrip.
Qed.

Lemma coordinator_handler_call authorizer c call request s :
  carried call -> coordinator_request domains call = Some request -> admitted_caller authorizer c request ->
  exists r', coordinator_handler text FromError authorizer c request s = Some ((local_coordinator_call call s).1, r') /\
    coordinator_reads_as call r' (local_coordinator_call call s).2.
Proof.
  intros Hcall Hreq [Hi Hid]. unfold coordinator_handler. rw Hi. clear Hi.
  destruct Hcall as [id version config nodes Hc1 Hc2|m id version node nodeID policy Hp| | |reg|nodeID slot epoch Hs|nodeID slot epoch Hs|status Hs|report Hr];
    injection Hreq as <-; cbn [local_coordinator_call fst snd].
  - exists (state_reply text FromError (coord_Bootstrap (rpc_command id version CommandKindBootstrap
      (Some {| boot_Config := config; boot_Nodes := nodes; boot_Policy := noPolicy |}) None) s)).2.
    split; [|by apply coordinator_respond]. unfold server_Bootstrap, state_reply.
    cbn [pb_boot_CommandId pb_boot_ExpectedVersion pb_boot_SlotCount pb_boot_ReplicationFactor pb_boot_Nodes boot_Config boot_Nodes].
    rw nodes_roundtrip !i32_small //. by destruct config.
  - exists (state_reply text FromError (coord_membership (membership_kind m) (rpc_command id version CommandKindReconfigure None
      (Some {| reconf_Events := [{| event_Kind := membership_kind m; event_Node := node; event_NodeID := nodeID; event_Slot := 0 |}];
               reconf_Policy := policy |})) s)).2.
    split; [|by apply coordinator_respond]. unfold server_applyMembership, state_reply.
    cbn -[fromProtoNode proto_node]. unfold proto_node. rw node_roundtrip // i32_small //. by destruct policy.
  - eexists. split; [done|]. apply (coordinator_respond CallRoutingSnapshotRPC _ ReplyRouting (s, coord_RoutingSnapshot s)).
    intros snapshot Hr. unfold coordinator_result. by rw routing_roundtrip.
  - unfold server_EvaluateLiveness. destruct (coord_EvaluateLiveness s) as [s' r]. eexists. split; [done|].
    by apply (coordinator_respond CallEvaluateLiveness _ (fun _ => ReplyNothing) (s', r)).
  - exists (state_reply text FromError (coord_RegisterNode reg s)).2. split; [|by apply coordinator_respond].
    unfold server_RegisterNode, client_RegisterNode, state_reply, proto_node. rw node_roundtrip //. by destruct reg.
  - exists (state_reply text FromError (coord_ReportReplicaReady nodeID slot epoch "" s)).2. split; [|by apply coordinator_respond].
    unfold server_ReportReplicaReady. rw reported_ok //. unfold client_report. cbn. by rw i32_small.
  - exists (state_reply text FromError (coord_ReportReplicaRemoved nodeID slot epoch "" s)).2. split; [|by apply coordinator_respond].
    unfold server_ReportReplicaRemoved. rw reported_ok //. unfold client_report. cbn. by rw i32_small.
  - eexists. split; [|by apply coordinator_respond]. unfold server_ReportNodeHeartbeat. rw reported_ok // status_roundtrip //.
  - eexists. split; [|by apply coordinator_respond]. unfold server_ReportNodeRecovered. rw recovery_roundtrip //.
    destruct authorizer; [by rw Hid|done].
Qed.

(** A call through the transport is the call on the coordinator.  For
    every method of the coordinator clients and every command the messages can
    carry, when the caller is let through: if nothing is lost the coordinator
    does exactly what the direct call does and the result is the direct call's
    (of a state, its version), an error arriving as one of its class; if the
    request is lost it does nothing, and if the answer is lost it has done what
    the direct call does. *)
Theorem coordinator_calls_transparent authorizer c call request s :
  carried call -> coordinator_request domains call = Some request -> admitted_caller authorizer c request ->
  let '(s', r) := local_coordinator_call call s in
  match r with
  | Ok reply => coordinator_reply_fits reply -> coordinator_remote authorizer c Delivered call s = Some (s', Ok reply)
  | Err e => plain e -> exists e', coordinator_remote authorizer c Delivered call s = Some (s', Err e') /\ class_of e' = class_of e
  end /\
  forall st, let failed := decodeError FromError (StatusError st) in
    coordinator_remote authorizer c (RequestLost st) call s = Some (s, Err failed) /\
    coordinator_remote authorizer c (ReplyLost st) call s = Some (s', Err failed).
Proof.
  intros Hcall Hreq Hc. destruct (coordinator_handler_call authorizer c call request s Hcall Hreq Hc) as (r' & Hh & Hr).
  unfold remote_coordinator_call. rw Hreq. cbn [mbind option_bind]. rw Hh.
  destruct (local_coordinator_call call s) as [s' [reply|e]]; cbn in *; split; try done.
  - intros Hfits. destruct (Hr Hfits) as (m & -> & Hm). by rw Hm.
  - intros Hp. rw Hr. eexists. split; [done|]. by apply received_class.
Qed.
End coordinator.
End calls.

(** ** Who gets through *)

(** A caller whose verified certificate names the role [role] and the node
    [claimed], or with which the request names none. *)
Definition certified (c : caller) (role : string) (claimed : string) : Prop :=
  exists chains name names certs,
    c = PeerTLS (S chains) (Some {| cert_CommonName := role; cert_DNSNames := name :: names |} :: certs) /\
    name <> "" /\ (claimed = "" \/ claimed = name).

(** What the methods ask of their callers when the server has TLS. *)
Definition storage_permitted (c : caller) (call : pb_storage_call) : Prop :=
  match call with
  | PbGet _ | PbPut _ | PbDelete _ => True
  | PbSlotCommand _ _ | PbAssignmentCommand _ _ | PbRecoverReplica _ => certified c peerRoleCoordinator ""
  | PbForwardWrite req => certified c peerRoleStorage (pb_fwd_FromNodeId req)
  | PbCommitWrite req => certified c peerRoleStorage (pb_cw_FromNodeId req)
  | PbCommitAdvance req => certified c peerRoleStorage (pb_ca_FromNodeId req)
  | PbFetchSnapshot _ | PbFetchCommittedSequence _ => certified c peerRoleStorage ""
  end.

Definition coordinator_permitted (c : caller) (call : pb_coordinator_call) : Prop :=
  match call with
  | PbReportReplicaReady req | PbReportReplicaRemoved req => certified c peerRoleStorage (pb_rr_NodeId req)
  | PbReportNodeHeartbeat req => certified c peerRoleStorage (pb_status_NodeId req)
  | PbReportNodeRecovered req => certified c peerRoleStorage (pb_report_NodeId req)
  | _ => True
  end.

Lemma identity_Ok c who : requireIdentity c = Ok who ->
  exists chains names certs,
    c = PeerTLS (S chains) (Some {| cert_CommonName := id_role who; cert_DNSNames := id_logicalID who :: names |} :: certs) /\
    id_logicalID who <> "".
Proof.
  destruct c as [| |[|chains] [|[[cn [|name names]]|] certs]]; try done; cbn.
  - destruct (String.eqb cn ""); [done|]. cbn. by destruct (_ && _).
  - destruct (String.eqb cn ""); [done|]. cbn. destruct (_ && _); [done|]. cbn.
    destruct (String.eqb_spec name ""); [done|]. cbn. intros [= <-]. by repeat eexists.
Qed.

Lemma certified_identity c role claimed : role = peerRoleCoordinator \/ role = peerRoleStorage -> certified c role claimed ->
  exists name, requireIdentity c = Ok {| id_role := role; id_logicalID := name |} /\ (claimed = "" \/ claimed = name).
Proof.
  intros Hrole (chains & name & names & certs & -> & Hname & Hclaimed). exists name. split; [|done]. cbn.
  destruct (String.eqb_spec name ""); [done|]. by destruct Hrole as [-> | ->].
Qed.

(** A check lets the caller through exactly when the condition holds. *)
Definition checks (r : res error unit) (P : Prop) : Prop := match r with Ok _ => P | Err _ => ~ P end.

Lemma requireStorageIdentityMatch_spec c claimed : checks (requireStorageIdentityMatch c claimed) (certified c peerRoleStorage claimed).
Proof.
  assert (Hc : certified c peerRoleStorage claimed -> requireStorageIdentityMatch c claimed = Ok tt).
  { intros Hcert. destruct (certified_identity c _ _ (or_intror eq_refl) Hcert) as (name & Hid & Hclaimed).
    unfold requireStorageIdentityMatch. rw Hid. cbn. destruct Hclaimed as [-> | ->]; [done|]. by rw String.eqb_refl andb_false_r. }
  destruct (requireStorageIdentityMatch c claimed) as [[]|e] eqn:E; cbn; [clear Hc|by intros Hcert%Hc].
  unfold requireStorageIdentityMatch in E. destruct (requireIdentity c) as [[role name]|] eqn:Hid; [|done].
  apply identity_Ok in Hid as (chains & names & certs & -> & Hname). cbn in *.
  destruct (String.eqb_spec role peerRoleStorage) as [->|]; [|done]. cbn in E.
  exists chains, name, names, certs. split; [done|]. split; [done|].
  destruct (String.eqb_spec claimed ""); [by left|]. destruct (String.eqb_spec claimed name); [by right|done].
Qed.

Lemma requireRole_spec c role : role = peerRoleCoordinator \/ role = peerRoleStorage ->
  checks (requireRole c role) (certified c role "").
Proof.
  intros Hrole. assert (Hc : certified c role "" -> requireRole c role = Ok tt).
  { intros Hcert. destruct (certified_identity c _ _ Hrole Hcert) as (name & Hid & _).
    unfold requireRole. rw Hid. cbn. by rw String.eqb_refl. }
  destruct (requireRole c role) as [[]|e] eqn:E; cbn; [clear Hc|by intros Hcert%Hc].
  unfold requireRole in E. destruct (requireIdentity c) as [[role' name]|] eqn:Hid; [|done].
  apply identity_Ok in Hid as (chains & names & certs & -> & Hname). cbn in *.
  destruct (String.eqb_spec role' role) as [->|]; [|done]. exists chains, name, names, certs. by repeat split; try left.
Qed.

(** Naming a node asks for more than naming none. *)
Lemma certified_role c role claimed : certified c role claimed -> certified c role "".
Proof. intros (chains & name & names & certs & Hc & Hn & _). exists chains, name, names, certs. by repeat split; try left. Qed.

Section authorization.
Context (text : error -> string) (FromError : error -> option status).

(** A handler behind a check of the role alone, and one that also checks the
    node the request names. *)
Lemma behind_role {X B : Type} (n : X) (r : res error unit) (P : Prop) (handle : option (X * res error B)) :
  checks r P -> let guarded := match r with Err e => Some (n, Err e) | Ok _ => handle end in
  (P -> guarded = handle) /\ (~ P -> exists e, guarded = Some (n, Err e)).
Proof. destruct r as [[]|e]; cbn; intros Hc; split; try done. intros _. by eexists. Qed.

Lemma behind_match {X B : Type} (n : X) (r r' : res error unit) (P P' : Prop) (handle : option (X * res error B)) (f : error -> error) :
  checks r P -> checks r' P' -> (P' -> P) ->
  let guarded := match r with Err e => Some (n, Err e) | Ok _ => match r' with Err e => Some (n, Err (f e)) | Ok _ => handle end end in
  (P' -> guarded = handle) /\ (~ P' -> exists e, guarded = Some (n, Err e)).
Proof. destruct r as [[]|e], r' as [[]|e']; cbn; intros ??; split; intros; try done; try (by eexists); tauto. Qed.

Lemma server_replicate_from {N} `{!StorageNodeOps N} c payload p (n : N) :
  frame_request {| pb_RequestId := 0; pb_Payload := Some payload |} = Some p ->
  Some (server_replicate text FromError true c payload n) =
  match requireStorageIdentityMatch c (payload_from p) with
  | Err e => Some (n, Err (encodeError text FromError e))
  | Ok _ => Some (server_replicate text FromError false c payload n)
  end.
Proof. intros Hp. unfold server_replicate. rw Hp. by destruct (requireStorageIdentityMatch c (payload_from p)). Qed.

Lemma reported_check {S A} c nodeID (handle : S -> S * res error A) s :
  Some (reported text FromError true c nodeID handle s) =
  match requireStorageIdentityMatch c nodeID with
  | Err e => Some (s, Err (encodeError text FromError e))
  | Ok _ => Some (reported text FromError false c nodeID handle s)
  end.
Proof. unfold reported. by destruct (requireStorageIdentityMatch c nodeID). Qed.

(** The planes of the methods. *)
Lemma storage_plane call : storageRPCPlane (full_method call) =
  match call with
  | PbGet _ | PbPut _ | PbDelete _ | PbCommitAdvance _ => rpcPlaneClientData
  | PbSlotCommand _ _ | PbAssignmentCommand _ _ | PbRecoverReplica _ => rpcPlaneStorageControl
  | _ => rpcPlaneStorageReplica
  end.
Proof. by destruct call as [req|req|req|[] cmd|[] cmd|cmd|req|req|req|slot|slot]; vm_compute. Qed.

Lemma coordinator_plane call : coordinatorRPCPlane (coordinator_method call) =
  match call with
  | PbReportReplicaReady _ | PbReportReplicaRemoved _ | PbReportNodeHeartbeat _ | PbReportNodeRecovered _ => rpcPlaneCoordinatorReport
  | _ => rpcPlaneCoordinatorAdmin
  end.
Proof. by destruct call as [req|[] req| | |node|req|req|req|req]; vm_compute. Qed.

End authorization.

(** ** Several coordinators *)
Lemma filter_index {A} (k : nat) (preferred : Z) (l : list A) :
  List.filter (fun c => fst c =? preferred) (imap (fun i x => (Z.of_nat (k + i), x)) l) =
  match l !! Z.to_nat (preferred - Z.of_nat k) with
  | Some x => if Z.of_nat k <=? preferred then [(preferred, x)] else []
  | None => []
  end.
Proof.
  revert k. induction l as [|x l IH]; intros k; [done|]. rw imap_cons. cbn [List.filter fst]. rw Nat.add_0_r.
  rw (imap_ext _ (fun i y => (Z.of_nat (S k + i), y)) l); [by intros; cbn; f_equal; lia|]. rw IH.
  destruct (Z.eqb_spec (Z.of_nat k) preferred) as [<-|].
  - rw Z.sub_diag Z.leb_refl. change ((x :: l) !! Z.to_nat 0) with (Some x). cbv iota beta. replace (Z.of_nat (S k) <=? Z.of_nat k) with false by (symmetry; apply Z.leb_gt; lia). by destruct (l !! _).
  - destruct (Z.leb_spec (Z.of_nat k) preferred).
    + replace (Z.to_nat (preferred - Z.of_nat k)) with (S (Z.to_nat (preferred - Z.of_nat (S k)))) by lia. rw lookup_cons.
      by replace (Z.of_nat (S k) <=? preferred) with true by (symmetry; apply Z.leb_le; lia).
    + replace (Z.of_nat (S k) <=? preferred) with false by (symmetry; apply Z.leb_gt; lia). by destruct (l !! _), ((x :: l) !! _).
Qed.

Lemma partition_filter {A} (p q : A -> bool) (l : list A) : (forall x, x ∈ l -> q x = negb (p x)) ->
  List.filter p l ++ List.filter q l ≡ₚ l.
Proof.
  induction l as [|x l IH]; intros Hq; [done|]. cbn. rw (Hq x); [left|]. destruct (p x); cbn.
  - f_equiv. apply IH. intros y Hy. apply Hq. by right.
  - rw -Permutation_middle. f_equiv. apply IH. intros y Hy. apply Hq. by right.
Qed.

Definition all_targets (targets : list string) : list (Z * string) := imap (fun i target => (Z.of_nat i, target)) targets.

Lemma preferred_target targets preferred x : 0 <= preferred -> targets !! Z.to_nat preferred = Some x ->
  List.filter (fun c => fst c =? preferred) (all_targets targets) = [(preferred, x)].
Proof.
  intros Hp Hx. unfold all_targets. rw (filter_index 0 preferred targets) Z.sub_0_r Hx.
  by rw (proj2 (Z.leb_le 0 preferred) Hp).
Qed.

(** Every target once, the preferred one first. *)
Lemma buildFailoverTargets_first targets preferred x : 0 <= preferred -> targets !! Z.to_nat preferred = Some x ->
  head (buildFailoverTargets targets preferred) = Some (preferred, x).
Proof.
  intros Hp Hx. unfold buildFailoverTargets. fold (all_targets targets). pose proof (lookup_lt_Some _ _ _ Hx).
  rw (preferred_target targets preferred x Hp Hx). rw (proj2 (Z.leb_le 0 preferred) Hp).
  by rw (proj2 (Z.ltb_lt preferred (Z.of_nat (length targets)))); [lia|].
Qed.

Lemma filter_every {A} (l : list A) : List.filter (fun _ => true) l = l.
Proof. induction l as [|x l IH]; [done|]. cbn. by rw IH. Qed.

Lemma buildFailoverTargets_all targets preferred : buildFailoverTargets targets preferred ≡ₚ all_targets targets.
Proof.
  unfold buildFailoverTargets. fold (all_targets targets). destruct (_ && _) eqn:Hp; [|by rw /= filter_every].
  apply andb_true_iff in Hp as [Hp%Z.leb_le Hl%Z.ltb_lt].
  destruct (targets !! Z.to_nat preferred) as [x|] eqn:Hx; [|apply lookup_ge_None in Hx; lia].
  apply partition_filter. intros [i y] _. rw (preferred_target targets preferred x Hp Hx). cbn [existsb fst].
  by rw orb_false_r Z.eqb_sym.
Qed.

Section failover.
Context {W A : Type} (dial : string -> W -> W * option error) (fn : string -> W -> W * res error A).

(** These targets could not be reached or are not the leader; the last of the
    errors. *)
Inductive refusals : list (Z * string) -> option error -> W -> W -> option error -> Prop :=
| refusals_none e w : refusals [] e w w e
| refusals_dial index target rest e w e' w' e'' w'' :
    dial target w = (w', Some e') -> refusals rest (Some e') w' w'' e'' ->
    refusals ((index, target) :: rest) e w w'' e''
| refusals_leader index target rest e w w1 e' w' e'' w'' :
    dial target w = (w1, None) -> fn target w1 = (w', Err e') -> Is e' ErrNotLeader = true ->
    refusals rest (Some e') w' w'' e'' -> refusals ((index, target) :: rest) e w w'' e''.

Lemma try_targets_spec candidates lastErr w :
  let '(w', preferred, r) := try_targets dial fn candidates lastErr w in
  exists asked rest w1 e1, candidates = asked ++ rest /\ refusals asked lastErr w w1 e1 /\
    match rest with
    | [] => w' = w1 /\ preferred = None /\ r = Err e1
    | (index, target) :: _ => exists w2, dial target w1 = (w2, None) /\
        match r with
        | Ok a => fn target w2 = (w', Ok a) /\ preferred = Some index
        | Err e => exists e', e = Some e' /\ fn target w2 = (w', Err e') /\ Is e' ErrNotLeader = false /\ preferred = None
        end
    end.
Proof.
  revert lastErr w. induction candidates as [|[index target] candidates IH]; intros lastErr w; cbn [try_targets].
  { exists [], [], w, lastErr. split; [done|]. split; [constructor|done]. }
  destruct (dial target w) as [w1 [e|]] eqn:Hd.
  { specialize (IH (Some e) w1). destruct (try_targets _ _ _ _ _) as [[w' preferred] r].
    destruct IH as (asked & rest & w2 & e2 & -> & Hr & Hrest). exists ((index, target) :: asked), rest, w2, e2.
    split; [done|]. split; [exact (refusals_dial _ _ _ _ _ _ _ _ _ Hd Hr)|done]. }
  destruct (fn target w1) as [w2 [a|e]] eqn:Hf.
  { exists [], ((index, target) :: candidates), w, lastErr. split; [done|]. split; [constructor|]. by exists w1. }
  unfold shouldFailoverCoordinator. destruct (Is e ErrNotLeader) eqn:He.
  - specialize (IH (Some e) w2). destruct (try_targets _ _ _ _ _) as [[w' preferred] r].
    destruct IH as (asked & rest & w3 & e3 & -> & Hr & Hrest). exists ((index, target) :: asked), rest, w3, e3.
    split; [done|]. split; [exact (refusals_leader _ _ _ _ _ _ _ _ _ _ Hd Hf He Hr)|done].
  - exists [], ((index, target) :: candidates), w, lastErr. split; [done|]. split; [constructor|]. exists w1. split; [done|]. by exists e.
Qed.

Lemma refusals_error asked e w w' : refusals asked None w w' e -> asked <> [] -> is_Some e.
Proof.
  assert (forall e0, refusals asked e0 w w' e -> is_Some e0 \/ asked <> [] -> is_Some e) as H.
  { intros e0. induction 1 as [| ??????????? IH | ?????????????? IH]; intros [He|He]; try done; apply IH; left; by eexists. }
  intros Hr Ha. apply (H _ Hr). by right.
Qed.

(** A client of several coordinators asks them one after the other.  The
    order has every target once, the one that answered last first; a target is
    passed over only when it cannot be dialled or says it is not the leader, the
    first other answer is the client's answer, made by that target alone, and a
    success makes its target the preferred one; when all are passed over the
    client gets the last error and keeps its preference. *)
Theorem failover_asks_in_turn c w :
  let order := buildFailoverTargets (fc_targets c) (fc_preferred c) in
  let '(w', c', r) := withFailover dial fn c w in
  order ≡ₚ all_targets (fc_targets c) /\
  (forall target, 0 <= fc_preferred c -> fc_targets c !! Z.to_nat (fc_preferred c) = Some target ->
    head order = Some (fc_preferred c, target)) /\
  exists asked rest w1 e1, order = asked ++ rest /\ refusals asked None w w1 e1 /\
    match rest with
    | [] => w' = w1 /\ c' = c /\ exists e, r = Err e /\ (order <> [] -> e1 = Some e)
    | (index, target) :: _ => exists w2, dial target w1 = (w2, None) /\ fn target w2 = (w', r) /\
        c' = match r with Ok _ => {| fc_targets := fc_targets c; fc_preferred := index |} | Err _ => c end /\
        forall e, r = Err e -> Is e ErrNotLeader = false
    end.
Proof.
  intros order. unfold withFailover. fold order. pose proof (try_targets_spec order None w) as Hspec.
  destruct order as [|first order'] eqn:Ho; fold order in Ho.
  - rw -Ho. split; [apply buildFailoverTargets_all|]. split; [intros; by apply buildFailoverTargets_first|].
    exists [], [], w, None. rw Ho. split; [done|]. split; [constructor|]. split; [done|]. split; [done|]. by eexists.
  - destruct (try_targets _ _ _ _ _) as [[w' preferred] r]. rw -Ho.
    split; [apply buildFailoverTargets_all|]. split; [intros; by apply buildFailoverTargets_first|].
    destruct Hspec as (asked & rest & w1 & e1 & Happ & Hr & Hrest). exists asked, rest, w1, e1. rw Ho.
    split; [done|]. split; [done|]. destruct rest as [|[index target] rest].
    + destruct Hrest as (-> & -> & ->). rw app_nil_r in Happ. subst asked.
      destruct (refusals_error _ _ _ _ Hr) as [e ->]; [done|]. split; [done|]. split; [done|]. by eexists.
    + destruct Hrest as (w2 & Hd & Hf). exists w2. split; [done|]. destruct r as [a|e].
      * by destruct Hf as [Hf ->].
      * destruct Hf as (e' & -> & Hf & He & ->). split; [done|]. split; [done|]. by intros ? [= <-].
Qed.
End failover.

(** ** Instances *)

(** A node that keeps what clients put, and a coordinator that counts reports. *)
Definition refuse {X A} (x : X) : X * res error A := (x, Err (Sentinel ErrNotLeader)).

Definition keeper : StorageNodeOps (gmap string string) :=
  {| node_HandleClientGet := fun req m =>
       (m, Ok {| read_Slot := get_Slot req; read_ChainVersion := 1; read_Found := bool_decide (is_Some (m !! get_Key req));
                 read_Value := default "" (m !! get_Key req); read_Metadata := None |});
     node_HandleClientPut := fun req m =>
       (<[put_Key req := put_Value req]> m,
        Ok {| result_Slot := put_Slot req; result_Sequence := 1; result_Applied := true; result_Metadata := None |});
     node_HandleClientDelete := fun _ m => refuse m;
     node_slot_command := fun _ _ m => refuse m;
     node_assignment_command := fun _ _ m => refuse m;
     node_RecoverReplica := fun _ m => refuse m;
     node_replicate := fun _ m => refuse m;
     node_CommittedSnapshotWithSequence := fun _ _ => Err (Sentinel ErrNotLeader);
     node_HighestCommittedSequence := fun _ _ => Err (Sentinel ErrNotLeader) |}.

Definition counter : CoordinatorOps Z :=
  {| coord_Bootstrap := fun _ n => refuse n;
     coord_RegisterNode := fun _ n => refuse n;
     coord_membership := fun _ _ n => refuse n;
     coord_RoutingSnapshot := fun n => Ok {| rs_Version := n; rs_SlotCount := 0; rs_Slots := [] |};
     coord_ReportReplicaReady := fun _ _ _ _ n => refuse n;
     coord_ReportReplicaRemoved := fun _ _ _ _ n => refuse n;
     coord_ReportNodeHeartbeat := fun _ n => (n + 1, Ok tt);
     coord_ReportNodeRecovered := fun _ n => refuse n;
     coord_EvaluateLiveness := fun n => (n, Ok tt);
     coord_CurrentVersion := fun n => n |}.

Definition example_put : ClientPutRequest :=
  {| put_Slot := 3; put_Key := "k"; put_Value := "v"; put_ExpectedChainVersion := 1;
     put_Conditions := {| cond_Exists := Some false; cond_Version := None; cond_UpdatedAt := None |} |}.

Definition storage_peer (name : string) : caller :=
  PeerTLS 1 [Some {| cert_CommonName := "storage"; cert_DNSNames := [name] |}].

Lemma storage_calls_transparent_witness :
  let remote := @remote_storage_call blank (documented_FromError blank) map_to_list _ keeper true NoPeer None in
  remote Delivered (CallClientPut example_put) ∅ = Some ({["k" := "v"]}, Ok (ReplyCommit
    {| result_Slot := 3; result_Sequence := 1; result_Applied := true; result_Metadata := None |})).
Proof.
  intros remote. assert (call_fits (CallClientPut example_put)) as Hfits by (cbn; unfold fits_i32; repeat split; lia).
  pose proof (@storage_calls_transparent blank (documented_FromError blank) _ map_to_list (fun _ => Permutation_refl _) _ keeper
    true NoPeer (CallClientPut example_put) ∅ eq_refl Hfits) as [H _]. apply H. cbn. unfold fits_i32. repeat split; lia.
Defined.

Lemma coordinator_calls_transparent_witness :
  let remote := @remote_coordinator_call blank (documented_FromError blank) map_to_list _ counter true (storage_peer "a") in
  remote Delivered (CallReportNodeHeartbeat (zeroNodeStatus)) 4 = Some (5, Ok ReplyNothing).
Proof.
  intros remote.
  assert (carried (CallReportNodeHeartbeat zeroNodeStatus)) as Hcarried by (constructor; cbn; unfold fits_i32; repeat split; lia).
  pose proof (@coordinator_calls_transparent blank (documented_FromError blank) _ map_to_list (fun _ => Permutation_refl _) _ counter
    true (storage_peer "a") _ _ 4 Hcarried eq_refl (conj eq_refl (fun _ => eq_refl))) as [H _]. by apply H.
Defined.

(** ** Findings *)

(** Finding: a coordinator that has become unavailable on a connection the pool
    keeps ends the call: its error is not one the client passes over. *)
Theorem unavailable_coordinator_stops FromError `{StatusLaws FromError} {W A} dial (fn : string -> W -> W * res error A)
    targets preferred target message w w1 w2 :
  let unavailable := decodeError FromError (StatusError {| st_Code := CodeUnavailable; st_Message := message; st_Details := [] |}) in
  let c := {| fc_targets := targets; fc_preferred := preferred |} in
  0 <= preferred -> targets !! Z.to_nat preferred = Some target ->
  dial target w = (w1, None) -> fn target w1 = (w2, Err unavailable) ->
  withFailover dial fn c w = (w2, c, Err unavailable).
Proof.
  intros unavailable c Hp Ht Hd Hf. unfold withFailover. cbn [c fc_targets fc_preferred].
  pose proof (buildFailoverTargets_first targets preferred target Hp Ht) as Hh.
  destruct (buildFailoverTargets targets preferred) as [|[i t] rest]; [done|]. injection Hh as -> ->.
  cbn [try_targets]. rw Hd Hf. assert (shouldFailoverCoordinator unavailable = false) as ->; [|done].
  unfold unavailable, decodeError. by rw from_status.
Qed.

(** Finding: a bootstrap through the transport loses its policy. *)
Theorem bootstrap_policy_lost domains id version config nodes policy policy' :
  let cmd p := rpc_command id version CommandKindBootstrap
    (Some {| boot_Config := config; boot_Nodes := nodes; boot_Policy := p |}) None in
  coordinator_request domains (CallBootstrap (cmd policy)) = coordinator_request domains (CallBootstrap (cmd policy')).
Proof. done. Qed.

(** Finding: a storage node may send reports and forwards that name no node. *)
Theorem unnamed_sender_accepted name : name <> "" -> requireStorageIdentityMatch (storage_peer name) "" = Ok tt.
Proof. intros Hn. unfold requireStorageIdentityMatch. cbn. by destruct (String.eqb_spec name ""). Qed.
