(* ===== verification/Standalone.v ===== *)
(** * The coordinator server without HA store (src/coordserver/server.go,
      dispatch_engine.go)

    The server keeps views of its runtime's state, queues of updates for the
    peers of active replicas, and an engine: one goroutine that runs the calls
    that change membership, and sends the commands of the outbox and the queued
    updates to the storage nodes.  Handlers are programs; a section under one
    lock is one call, so other handlers act between any two.  An opened server
    always has an engine, so the branches for one without are not modelled. *)

From S2P Require Import Prelude.
From S2P Require Import CoordTypes.
From S2P Require Import Placement.
From S2P Require Import Reconfig.
From S2P Require Import StorageTypes.
From S2P Require Import RuntimeTypes.
From S2P Require Import Runtime.
From S2P Require Import Journal.
From S2P Require Import CoordServer.
From S2P Require Import HAEngine.

Open Scope Z_scope.
Open Scope record_scope.

(** ** Configuration *)
Record HAConfig := { hac_CoordinatorID : string; hac_hasStore : bool; hac_LeaseTTL : Z; hac_RenewInterval : Z }.

Record ServerConfig := {
  cfg_LivenessPolicy : LivenessPolicy;
  cfg_ReconfigurationPolicy : ReconfigurationPolicy;
  cfg_StartupMaxChangedChains : Z;
  cfg_AsyncHotPathDispatch : bool;
  cfg_DisableBackgroundLoops : bool;
  cfg_DispatchTimeout : Z;
  cfg_DispatchRetryInterval : Z;
  cfg_RecoveryCommandTimeout : Z;
  cfg_hasNodeClientFactory : bool;
  cfg_HA : option HAConfig;
}.

Definition defaultFlapWindow : Z := 30 * 1000000000.
Definition defaultFlapThreshold : Z := 3.

Definition normalizeLivenessPolicy (policy : LivenessPolicy) : LivenessPolicy :=
  if (0 <? lp_SuspectAfter policy) && (0 <? lp_DeadAfter policy) && (lp_FlapThreshold policy =? 0) && (lp_FlapWindow policy =? 0)
  then {| lp_SuspectAfter := lp_SuspectAfter policy; lp_DeadAfter := lp_DeadAfter policy;
          lp_FlapWindow := defaultFlapWindow; lp_FlapThreshold := defaultFlapThreshold |}
  else policy.

Definition flapDetectionEnabled (policy : LivenessPolicy) : bool := (0 <? lp_FlapThreshold policy) && (0 <? lp_FlapWindow policy).

Definition validateServerConfig (cfg : ServerConfig) : res server_error unit :=
  let liveness := cfg_LivenessPolicy cfg in
  let bad (b : bool) := reject b ErrInvalidServerConfig in
  _ ← bad ((lp_SuspectAfter liveness <? 0) || (lp_DeadAfter liveness <? 0) || (lp_FlapWindow liveness <? 0));
  _ ← bad ((0 <? lp_DeadAfter liveness) && (0 <? lp_SuspectAfter liveness) && (lp_DeadAfter liveness <? lp_SuspectAfter liveness));
  let normalized := normalizeLivenessPolicy liveness in
  _ ← bad (flapDetectionEnabled normalized && (lp_FlapThreshold normalized <? 2));
  _ ← bad (cfg_DispatchTimeout cfg <? 0);
  _ ← bad (policy_MaxChangedChains (cfg_ReconfigurationPolicy cfg) <? 0);
  _ ← bad (cfg_StartupMaxChangedChains cfg <? 0);
  _ ← bad (cfg_DispatchRetryInterval cfg <? 0);
  _ ← bad (cfg_RecoveryCommandTimeout cfg <? 0);
  match cfg_HA cfg with
  | None => Ok tt
  | Some ha =>
      _ ← bad (String.eqb (hac_CoordinatorID ha) "");
      _ ← bad (negb (hac_hasStore ha));
      _ ← bad (hac_LeaseTTL ha <? 0);
      bad (hac_RenewInterval ha <? 0)
  end.

(** ** Fields *)
Record Server := {
  sv_nodes : gset string;
  sv_heartbeats : gmap string NodeStatus;
  sv_liveness : gmap string NodeLivenessRecord;
  sv_pending : gmap Z PendingWork;
  sv_completed : gmap Z (list CompletedProgressRecord);
  sv_runtimeVersion : Z;
  sv_runtimeOutbox : list OutboxEntry;
  sv_routingSnapshot : RoutingSnapshot;
  sv_lastPolicy : ReconfigurationPolicy;
  sv_startupBudgetActive : bool;
  sv_unavailableReplicas : unavailable_map;
  sv_lastRecoveryReports : gmap string NodeRecoveryReport;
  sv_activePeerRefresh : gmap Z activePeerRefreshState;
  sv_busy : bool;
  sv_reconcilePending : bool;
  sv_signal : bool;
}.

#[export] Instance Server_rebuild : Rebuild Server := fun s =>
  {| sv_nodes := sv_nodes s; sv_heartbeats := sv_heartbeats s; sv_liveness := sv_liveness s; sv_pending := sv_pending s;
     sv_completed := sv_completed s; sv_runtimeVersion := sv_runtimeVersion s; sv_runtimeOutbox := sv_runtimeOutbox s;
     sv_routingSnapshot := sv_routingSnapshot s; sv_lastPolicy := sv_lastPolicy s;
     sv_startupBudgetActive := sv_startupBudgetActive s; sv_unavailableReplicas := sv_unavailableReplicas s;
     sv_lastRecoveryReports := sv_lastRecoveryReports s; sv_activePeerRefresh := sv_activePeerRefresh s;
     sv_busy := sv_busy s; sv_reconcilePending := sv_reconcilePending s; sv_signal := sv_signal s |}.

#[export] Instance NodeLivenessRecord_rebuild : Rebuild NodeLivenessRecord := fun r =>
  {| nl_LastHeartbeatUnixNano := nl_LastHeartbeatUnixNano r; nl_UpdatedAtUnixNano := nl_UpdatedAtUnixNano r;
     nl_State := nl_State r; nl_LastStatus := nl_LastStatus r; nl_DeadActionFired := nl_DeadActionFired r;
     nl_SuspectTransitionsUnixNano := nl_SuspectTransitionsUnixNano r |}.

(** ** Views of the runtime *)
Definition mergeHeartbeatStatuses (existing : gmap string NodeStatus) (durable : gmap string NodeLivenessRecord)
    : gmap string NodeStatus := existing ∪ omap heartbeat_known durable.

Definition mergeLivenessRecord (durable fresh : NodeLivenessRecord) : NodeLivenessRecord :=
  if nl_UpdatedAtUnixNano durable <? nl_UpdatedAtUnixNano fresh then
    let merged := durable <| nl_LastHeartbeatUnixNano := nl_LastHeartbeatUnixNano fresh |>
                          <| nl_UpdatedAtUnixNano := nl_UpdatedAtUnixNano fresh |>
                          <| nl_LastStatus := nl_LastStatus fresh |> in
    if is_liveness NodeLivenessStateDead merged then merged
    else merged <| nl_State := nl_State fresh |> <| nl_DeadActionFired := nl_DeadActionFired fresh |>
                <| nl_SuspectTransitionsUnixNano := nl_SuspectTransitionsUnixNano fresh |>
  else if isZeroNodeStatus (nl_LastStatus durable) && negb (isZeroNodeStatus (nl_LastStatus fresh))
  then durable <| nl_LastStatus := nl_LastStatus fresh |>
  else durable.

Definition mergeLivenessRecords (existing durable : gmap string NodeLivenessRecord) : gmap string NodeLivenessRecord :=
  union_with (fun d f => Some (mergeLivenessRecord d f)) durable existing.

(** [syncViewsFromRuntime], once it has the runtime's state. *)
Definition sync_views (current : State) (s : Server) : Server :=
  s <| sv_heartbeats := mergeHeartbeatStatuses (sv_heartbeats s) (rt_NodeLivenessByID current) |>
    <| sv_liveness := mergeLivenessRecords (sv_liveness s) (rt_NodeLivenessByID current) |>
    <| sv_pending := rt_PendingBySlot current |>
    <| sv_completed := rt_CompletedProgressBySlot current |>
    <| sv_runtimeVersion := rt_Version current |>
    <| sv_runtimeOutbox := rt_Outbox current |>
    <| sv_lastPolicy := rt_LastPolicy current |>
    <| sv_startupBudgetActive := sv_startupBudgetActive s && negb (clusterFullySettledForStartup (rt_Cluster current)) |>.

Definition recordFreshHeartbeat (flapWindow : Z) (status : NodeStatus) (observedAtUnixNano : Z) (s : Server) : Server :=
  let nodeID := status_NodeID status in
  let record := default zeroLiveness (sv_liveness s !! nodeID) in
  let record := record <| nl_LastHeartbeatUnixNano := observedAtUnixNano |>
                       <| nl_UpdatedAtUnixNano := observedAtUnixNano |>
                       <| nl_LastStatus := status |>
                       <| nl_SuspectTransitionsUnixNano :=
                            pruneSuspectTransitions (nl_SuspectTransitionsUnixNano record) observedAtUnixNano flapWindow |> in
  let record := if is_liveness NodeLivenessStateDead record then record
                else record <| nl_State := NodeLivenessStateHealthy |> <| nl_DeadActionFired := false |> in
  s <| sv_heartbeats := <[nodeID := status]> (sv_heartbeats s) |> <| sv_liveness := <[nodeID := record]> (sv_liveness s) |>.

Definition mark_unavailable (report : NodeRecoveryReport) (s : Server) : Server :=
  let slots := default ∅ (sv_unavailableReplicas s !! report_NodeID report) in
  let slots := foldl (fun slots r => <[asg_Slot (rec_Assignment r) := true]> slots) slots (report_Replicas report) in
  s <| sv_unavailableReplicas := <[report_NodeID report := slots]> (sv_unavailableReplicas s) |>.

Definition clear_unavailable (nodeID : string) (slot : Z) (s : Server) : Server :=
  match sv_unavailableReplicas s !! nodeID with
  | None => s
  | Some slots =>
      let slots := delete slot slots in
      s <| sv_unavailableReplicas :=
        if (size slots =? 0)%nat then delete nodeID (sv_unavailableReplicas s)
        else <[nodeID := slots]> (sv_unavailableReplicas s) |>
  end.

Definition nodeHasUnavailableSlots (s : Server) (nodeID : string) : bool :=
  match sv_unavailableReplicas s !! nodeID with Some slots => (0 <? size slots)%nat | None => false end.

Definition enqueueActivePeerRefresh (slot : Z) (state : activePeerRefreshState) (s : Server) : Server :=
  s <| sv_activePeerRefresh := <[slot := state]> (sv_activePeerRefresh s) |>.

Definition clearActivePeerRefresh (slot : Z) (s : Server) : Server :=
  s <| sv_activePeerRefresh := delete slot (sv_activePeerRefresh s) |>.

Definition snapshotActivePeerRefreshSlots (s : Server) : list Z := isort Z.leb (map_to_list (sv_activePeerRefresh s)).*1.

(** What a pass of the engine compares. *)
Record backgroundDispatchState := {
  ds_Version : Z;
  ds_OutboxEntries : nat;
  ds_PendingEntries : nat;
  ds_ActivePeerRefreshes : nat;
}.

#[export] Instance backgroundDispatchState_eq_dec : EqDecision backgroundDispatchState.
Proof. solve_decision. Defined.

Definition backgroundDispatchSignature (s : Server) : backgroundDispatchState :=
  {| ds_Version := sv_runtimeVersion s; ds_OutboxEntries := length (sv_runtimeOutbox s); ds_PendingEntries := size (sv_pending s);
     ds_ActivePeerRefreshes := length (snapshotActivePeerRefreshSlots s) |}.

Definition hasWork (d : backgroundDispatchState) : bool :=
  (0 <? ds_OutboxEntries d)%nat || (0 <? ds_PendingEntries d)%nat || (0 <? ds_ActivePeerRefreshes d)%nat.

(** ** Programs *)
Inductive node_command :=
| SendAddReplicaAsTail (assignment : ReplicaAssignment)
| SendMarkReplicaLeaving (slot : Z)
| SendUpdateChainPeers (assignment : ReplicaAssignment)
| SendResumeRecoveredReplica (assignment : ReplicaAssignment)
| SendRecoverReplica (assignment : ReplicaAssignment) (sourceNodeID : string)
| SendDropRecoveredReplica (slot : Z).

(** Whether [isContextTimeoutOrCancel] holds of a node's error. *)
Inductive send_error := SendTimedOut | SendRefused.

Record dispatchPeerRefreshChange := {
  change_slot : Z;
  change_state : activePeerRefreshState;
  change_clear : bool;
}.

Inductive server_call : Type -> Type :=
| ClockNow : server_call Z
| ContextErr : server_call bool
| RtView : server_call State
| RtBootstrap (cmd : Command) : server_call (res server_error State)
| RtReconfigure (cmd : Command) : server_call (res server_error (ReconfigurationPlan * State))
| RtApplyProgress (cmd : Command) : server_call (res server_error Z)
| RtMarkNodeReady (cmd : Command) : server_call (res server_error State)
| RtApplyLiveness (cmd : Command) : server_call (res server_error State)
| RtAcknowledgeOutbox (cmd : Command) : server_call (res server_error Z)
| NodeClient (node : Node) : server_call (res server_error unit)
| NodeSend (nodeID : string) (c : node_command) : server_call (option send_error)
| OnServer {X : Type} (f : Server -> X * Server) : server_call X
| EngineDrain (changes : list dispatchPeerRefreshChange) (reconcile : bool) : server_call (res server_error unit).

Abbreviation server_prog := (program server_call).
Abbreviation sp A := (server_prog (res server_error A)).

Definition reading {X} (f : Server -> X) : server_prog X := call (OnServer (fun s => (f s, s))).
Definition writing (f : Server -> Server) : server_prog unit := call (OnServer (fun s => (tt, f s))).

Definition is_version_mismatch (e : server_error) : bool := match e with ErrRuntime ErrVersionMismatch => true | _ => false end.
Definition is_dispatch_error (e : server_error) : bool := match e with ErrDispatchFailed | ErrDispatchTimeout => true | _ => false end.

(** Repair work that will be retried does not fail the handler that started it. *)
Definition tolerate (r : res server_error unit) : sp unit :=
  match r with Err e => if is_dispatch_error e then succeed tt else fail_with e | Ok _ => succeed tt end.

(** The loop of [retryOnRuntimeVersionMismatch], attempts 0 to
    [runtimeVersionRetryLimit]; [v] is what the closure has written to the
    variables around it. *)
Fixpoint retry_from {V A} (left_ : nat) (attempt : Z) (v : V) (op : V -> State -> Z -> server_prog (V * res server_error A))
    : server_prog (V * res server_error A) :=
  ended ← call ContextErr;
  if (ended : bool) then Done (v, Err ErrContextDone)
  else
    current ← call RtView;
    '(v, r) ← op v current attempt;
    match r with
    | Ok value => Done (v, Ok value)
    | Err e =>
        match left_ with
        | O => Done (v, Err e)
        | S left_ => if is_version_mismatch e then retry_from left_ (attempt + 1) v op else Done (v, Err e)
        end
    end.

Definition retryOnRuntimeVersionMismatch {A} (op : State -> Z -> sp A) : sp A :=
  '(_, r) ← retry_from runtimeVersionRetryLimit 0 tt (fun _ current attempt => r ← op current attempt; Done (tt, r));
  lift r.

Definition retryOnRuntimeSlotProgressVersionMismatch {A} (slot : Z) (op : SlotProgressView -> Z -> sp A) : sp A :=
  retryOnRuntimeVersionMismatch (fun state attempt => op (slotProgressViewFromState state slot) attempt).

Definition syncViewsFromRuntime : server_prog unit :=
  current ← call RtView; writing (sync_views current).

Definition rebuildRoutingSnapshot : server_prog unit :=
  state ← call RtView;
  unavailable ← reading sv_unavailableReplicas;
  queuedPeerRefresh ← reading sv_activePeerRefresh;
  writing (fun s => s <| sv_routingSnapshot := reduceRoutingSnapshot state unavailable queuedPeerRefresh |>).

Definition livenessRecord (nodeID : string) : server_prog (option NodeLivenessRecord) :=
  reading (fun s => sv_liveness s !! nodeID).

Definition markUnavailableReplicas (report : NodeRecoveryReport) : server_prog unit :=
  _ ← writing (mark_unavailable report); rebuildRoutingSnapshot.

(** Nothing is rebuilt for a node without unavailable replicas. *)
Definition clearUnavailable (nodeID : string) (slot : Z) : server_prog unit :=
  known ← call (OnServer (fun s => (is_set (sv_unavailableReplicas s !! nodeID), clear_unavailable nodeID slot s)));
  if (known : bool) then rebuildRoutingSnapshot else Done tt.

Section server.
Context (cfg : ServerConfig) (GOMAXPROCS : Z).

Abbreviation livenessPolicy := (normalizeLivenessPolicy (cfg_LivenessPolicy cfg)).
Abbreviation asyncHotPathDispatch := (cfg_AsyncHotPathDispatch cfg).

Definition reconfigurationPolicy : server_prog ReconfigurationPolicy :=
  '(policy, startupActive) ← reading (fun s => (sv_lastPolicy s, sv_startupBudgetActive s));
  if negb startupActive || (cfg_StartupMaxChangedChains cfg <=? policy_MaxChangedChains policy) then Done policy
  else
    current ← call RtView;
    if negb (clusterFullySettledForStartup (rt_Cluster current))
    then Done {| policy_MaxChangedChains := cfg_StartupMaxChangedChains cfg |}
    else _ ← writing (fun s => s <| sv_startupBudgetActive := false |>); Done policy.

(** ** Calls to storage nodes *)
Definition clientForNodeID (nodeID : string) : sp unit :=
  known ← reading (fun s => bool_decide (nodeID ∈ sv_nodes s));
  if (known : bool) then succeed tt
  else if negb (cfg_hasNodeClientFactory cfg) then fail_with ErrUnknownNode
  else
    current ← call RtView;
    match cs_NodesByID (rt_Cluster current) !! nodeID with
    | None => fail_with ErrUnknownNode
    | Some node =>
        _ <~ call (NodeClient node);
        _ ← writing (fun s => s <| sv_nodes := {[nodeID]} ∪ sv_nodes s |>);
        succeed tt
    end.

(** The error of a command that failed: [otherwise] unless it ran out of time. *)
Definition send_result (otherwise : server_error) (r : option send_error) : res server_error unit :=
  match r with
  | None => Ok tt
  | Some SendTimedOut => Err ErrDispatchTimeout
  | Some SendRefused => Err otherwise
  end.

(** A client that cannot be had is reported as [otherwise] too. *)
Definition send_command (otherwise : server_error) (nodeID : string) (c : node_command) : sp unit :=
  client ← clientForNodeID nodeID;
  match client with
  | Err _ => fail_with otherwise
  | Ok _ => r ← call (NodeSend nodeID c); lift (send_result otherwise r)
  end.

Definition outbox_command (entry : OutboxEntry) : node_command :=
  match ob_Kind entry with
  | OutboxCommandKindAddReplicaAsTail => SendAddReplicaAsTail (ob_Assignment entry)
  | OutboxCommandKindMarkReplicaLeaving => SendMarkReplicaLeaving (ob_Slot entry)
  | OutboxCommandKindUpdateChainPeers => SendUpdateChainPeers (ob_Assignment entry)
  end.

Definition dispatchRuntimeOutboxEntry (entry : OutboxEntry) : sp unit :=
  send_command ErrDispatchFailed (ob_NodeID entry) (outbox_command entry).

Definition resumeRecoveredReplica (nodeID : string) (assignment : ReplicaAssignment) : sp unit :=
  _ <~ send_command ErrRecoveryFailed nodeID (SendResumeRecoveredReplica assignment);
  _ ← clearUnavailable nodeID (asg_Slot assignment); succeed tt.

Definition recoverReplica (nodeID : string) (assignment : ReplicaAssignment) (sourceNodeID : string) : sp unit :=
  client ← clientForNodeID nodeID;
  match client with
  | Err _ => fail_with ErrRecoveryFailed
  | Ok _ =>
      current ← call RtView;
      if negb (is_set (cs_NodesByID (rt_Cluster current) !! sourceNodeID)) then fail_with ErrRecoveryFailed
      else
        r ← call (NodeSend nodeID (SendRecoverReplica assignment sourceNodeID));
        _ <~ lift (send_result ErrRecoveryFailed r);
        _ ← clearUnavailable nodeID (asg_Slot assignment); succeed tt
  end.

Definition dropRecoveredReplica (nodeID : string) (slot : Z) : sp unit :=
  _ <~ send_command ErrRecoveryFailed nodeID (SendDropRecoveredReplica slot);
  _ ← clearUnavailable nodeID slot; succeed tt.

(** ** The outbox *)
Definition outboxDispatchWorkerCount (entryCount : Z) : Z :=
  if entryCount <=? 1 then entryCount else Z.min entryCount (Z.min 8 (Z.max 2 GOMAXPROCS)).

(** The workers of a batch, one entry after the other; several workers look at
    the context before each. *)
Fixpoint dispatch_batch (several : bool) (entries : list OutboxEntry) : server_prog (list (OutboxEntry * res server_error unit)) :=
  match entries with
  | [] => Done []
  | entry :: entries =>
      ended ← (if several then call ContextErr else Done false);
      r ← (if (ended : bool) then fail_with ErrContextDone else dispatchRuntimeOutboxEntry entry);
      results ← dispatch_batch several entries;
      Done ((entry, r) :: results)
  end.

Definition succeeded {A} (r : res server_error A) : bool := match r with Ok _ => true | Err _ => false end.

Definition acknowledgedOutboxEntryIDs (results : list (OutboxEntry * res server_error unit)) : list string :=
  sort_Strings ((fun p => ob_ID (fst p)) <$> List.filter (fun p => succeeded (snd p)) results).

Definition first_error (results : list (res server_error unit)) : option server_error :=
  head (omap (fun r => match r with Err e => Some e | Ok _ => None end) results).

Definition ack_outbox_command (version : Z) (ids : list string) : Command :=
  {| cmd_ID := outboxAckCommandID version ids; cmd_ExpectedVersion := version; cmd_Kind := CommandKindAcknowledgeOutbox;
     cmd_Bootstrap := None; cmd_Reconfigure := None; cmd_Progress := None; cmd_NodeReady := None; cmd_Heartbeat := None;
     cmd_Liveness := None; cmd_AcknowledgeOutbox := Some {| ack_EntryID := ""; ack_EntryIDs := ids |} |}.

Definition acknowledge (successIDs : list string) : sp unit :=
  match successIDs with
  | [] => succeed tt
  | _ =>
      _ <~ retryOnRuntimeVersionMismatch (fun current _ => call (RtAcknowledgeOutbox (ack_outbox_command (rt_Version current) successIDs)));
      _ ← syncViewsFromRuntime; succeed tt
  end.

(** The size of a batch: all, one round of workers, or a given number. *)
Definition batch_size (workers : Z) (count maxEntries : Z) : nat :=
  Z.to_nat (if maxEntries <? 0 then count else if maxEntries =? 0 then workers else maxEntries).

Definition dispatchRuntimeOutboxBatchOwned (maxEntries : Z) : sp bool :=
  all ← reading sv_runtimeOutbox;
  match all with
  | [] => _ ← rebuildRoutingSnapshot; succeed false
  | _ =>
      let count := Z.of_nat (length all) in
      let entries := take (batch_size (outboxDispatchWorkerCount count) count maxEntries) all in
      results ← dispatch_batch (1 <? length entries)%nat entries;
      _ <~ acknowledge (acknowledgedOutboxEntryIDs results);
      _ ← rebuildRoutingSnapshot;
      left_ ← reading sv_runtimeOutbox;
      match first_error results.*2 with
      | Some e => fail_with e
      | None => succeed ((length entries <? length all)%nat || (0 <? length left_)%nat)
      end
  end.

Definition dispatchRuntimeOutboxOwned : sp unit := _ <~ dispatchRuntimeOutboxBatchOwned (-1); succeed tt.

(** ** Updates of the peers of active replicas *)
Definition shouldDispatchActivePeerRefresh (slot : Z) (refresh : activePeerRefreshState) : server_prog bool :=
  if allowWhilePending refresh then Done true
  else
    pending ← reading (fun s => is_set (sv_pending s !! slot));
    if (pending : bool) then Done false
    else current ← call RtView; Done (negb (runtimeOutboxHasSlot (rt_Outbox current) slot)).

Definition refresh_chain (state : State) (slot : Z) (refresh : activePeerRefreshState) : option Chain :=
  match chain_Replicas (assignmentChain refresh) with
  | _ :: _ => if chain_Slot (assignmentChain refresh) =? slot then Some (assignmentChain refresh)
              else activeServingChain <$> List.find (fun c => chain_Slot c =? slot) (cs_Chains (rt_Cluster state))
  | [] => activeServingChain <$> List.find (fun c => chain_Slot c =? slot) (cs_Chains (rt_Cluster state))
  end.

Definition active_nodes (chain : Chain) : gmap string bool :=
  list_to_map ((fun r => (replica_NodeID r, true)) <$> List.filter (is_state ReplicaStateActive) (chain_Replicas chain)).

Definition keep_first (firstErr : option server_error) (e : server_error) : option server_error :=
  match firstErr with Some _ => firstErr | None => Some e end.

(** The loop over the replicas: who is left to be told, and the first error. *)
Fixpoint update_peers (state : State) (slot : Z) (chain : Chain) (replicas : list Replica) (remaining : gmap string bool)
    (firstErr : option server_error) : server_prog (gmap string bool * option server_error) :=
  match replicas with
  | [] => Done (remaining, firstErr)
  | replica :: replicas =>
      let nodeID := replica_NodeID replica in
      if negb (is_state ReplicaStateActive replica) || ((0 <? size remaining)%nat && negb (mget remaining nodeID))
      then update_peers state slot chain replicas remaining firstErr
      else
        client ← clientForNodeID nodeID;
        match client with
        | Err _ => update_peers state slot chain replicas remaining (keep_first firstErr ErrDispatchFailed)
        | Ok _ =>
            match server_assignmentForNode chain (cs_NodesByID (rt_Cluster state)) nodeID
                    (slot_version (rt_SlotVersions state) slot) with
            | None => update_peers state slot chain replicas remaining (keep_first firstErr ErrServerStateMismatch)
            | Some assignment =>
                r ← call (NodeSend nodeID (SendUpdateChainPeers assignment));
                match send_result ErrDispatchFailed r with
                | Err e => update_peers state slot chain replicas remaining (keep_first firstErr e)
                | Ok _ => update_peers state slot chain replicas (delete nodeID remaining) firstErr
                end
            end
        end
  end.

Definition dispatchActivePeerUpdates (slot : Z) (refresh : activePeerRefreshState)
    : server_prog (activePeerRefreshState * option server_error) :=
  state ← call RtView;
  match refresh_chain state slot refresh with
  | None => Done (zeroRefresh, None)
  | Some chain =>
      let remaining := if (size (remainingNodeIDs refresh) =? 0)%nat then active_nodes chain else remainingNodeIDs refresh in
      '(remaining, firstErr) ← update_peers state slot chain (chain_Replicas chain) remaining None;
      Done (refresh <| remainingNodeIDs := remaining |>, firstErr)
  end.

Definition activePeerRefreshWorkerCount (slotCount : Z) : Z :=
  if slotCount <=? 1 then slotCount else Z.min slotCount (Z.min 32 (Z.max 2 GOMAXPROCS)).

(** One slot of a batch: the state left, whether the slot is done, and the error.
    A slot that is skipped has none of them. *)
Record refresh_outcome := {
  out_state : activePeerRefreshState;
  out_done : bool;
  out_error : option server_error;
}.

#[local] Instance refresh_outcome_rebuild : Rebuild refresh_outcome := fun o =>
  {| out_state := out_state o; out_done := out_done o; out_error := out_error o |}.

Definition refresh_slot (several : bool) (states : gmap Z activePeerRefreshState) (slot : Z) : server_prog refresh_outcome :=
  let skipped := {| out_state := zeroRefresh; out_done := false; out_error := None |} in
  ended ← (if several then call ContextErr else Done false);
  if (ended : bool) then Done (skipped <| out_error := Some ErrContextDone |>)
  else
    match states !! slot with
    | None => Done skipped
    | Some state =>
        go ← shouldDispatchActivePeerRefresh slot state;
        if negb go then Done skipped
        else
          '(next, err) ← dispatchActivePeerUpdates slot state;
          Done {| out_state := next;
                  out_done := match err with Some _ => false | None => (size (remainingNodeIDs next) =? 0)%nat end;
                  out_error := err |}
    end.

Fixpoint refresh_batch (several : bool) (states : gmap Z activePeerRefreshState) (slots : list Z)
    : server_prog (list (Z * refresh_outcome)) :=
  match slots with
  | [] => Done []
  | slot :: slots =>
      outcome ← refresh_slot several states slot;
      outcomes ← refresh_batch several states slots;
      Done ((slot, outcome) :: outcomes)
  end.

(** What becomes of the queue, slot by slot. *)
Fixpoint settle_refreshes (outcomes : list (Z * refresh_outcome)) : server_prog bool :=
  match outcomes with
  | [] => Done false
  | (slot, outcome) :: outcomes =>
      _ ← (if (0 <? size (remainingNodeIDs (out_state outcome)))%nat
           then writing (enqueueActivePeerRefresh slot (out_state outcome)) else Done tt);
      _ ← (if out_done outcome then writing (clearActivePeerRefresh slot) else Done tt);
      anyUpdated ← settle_refreshes outcomes;
      Done (out_done outcome || anyUpdated)
  end.

Definition dispatchQueuedActivePeerRefreshesBatchOwned (maxSlots : Z) : sp bool :=
  all ← reading snapshotActivePeerRefreshSlots;
  match all with
  | [] => succeed false
  | _ =>
      let count := Z.of_nat (length all) in
      let slots := take (batch_size (activePeerRefreshWorkerCount count) count maxSlots) all in
      states ← reading sv_activePeerRefresh;
      outcomes ← refresh_batch (1 <? activePeerRefreshWorkerCount (Z.of_nat (length slots))) states slots;
      anyUpdated ← settle_refreshes outcomes;
      _ ← (if (anyUpdated : bool) then rebuildRoutingSnapshot else Done tt);
      left_ ← reading snapshotActivePeerRefreshSlots;
      match head (omap (fun p => out_error (snd p)) outcomes) with
      | Some e => fail_with e
      | None => succeed ((length slots <? length all)%nat || (0 <? length left_)%nat)
      end
  end.

Definition dispatchQueuedActivePeerRefreshesOwned : sp unit := _ <~ dispatchQueuedActivePeerRefreshesBatchOwned (-1); succeed tt.

(** ** Reconciliation *)
Definition reconcile_attempt (changed : bool) (current : State) (attempt : Z) : server_prog (bool * res server_error unit) :=
  policy ← reconfigurationPolicy;
  match PlanReconfiguration (rt_Cluster current) [] policy with
  | Err e => Done (changed, Err (ErrRuntime (ErrPlanner e)))
  | Ok preview =>
      if (length (rp_ChangedSlots preview) =? 0)%nat && bool_decide (rp_UpdatedState preview = rt_Cluster current)
      then Done (changed, Ok tt)
      else
        policy ← reconfigurationPolicy;
        let version := rt_Version current in
        r ← call (RtReconfigure (reconfigure ("server-reconcile-r" +:+ pretty attempt +:+ "-v" +:+ pretty version) version [] policy));
        Done (true, match r with Ok _ => Ok tt | Err e => Err e end)
  end.

Definition reconcileState : sp unit :=
  '(changed, r) ← retry_from runtimeVersionRetryLimit 0 false reconcile_attempt;
  _ <~ lift r;
  if (changed : bool) then _ ← syncViewsFromRuntime; succeed tt else succeed tt.

(** ** The engine *)
Definition wake (reconcile : bool) : server_prog unit :=
  writing (fun s => s <| sv_reconcilePending := reconcile || sv_reconcilePending s |> <| sv_signal := true |>).

Definition consumeReconcilePending : server_prog bool :=
  call (OnServer (fun s => (sv_reconcilePending s, s <| sv_reconcilePending := false |>))).

Definition apply_change (s : Server) (change : dispatchPeerRefreshChange) : Server :=
  if change_clear change then clearActivePeerRefresh (change_slot change) s
  else enqueueActivePeerRefresh (change_slot change) (change_state change) s.

Fixpoint applyPeerRefreshChanges (changes : list dispatchPeerRefreshChange) : server_prog unit :=
  match changes with
  | [] => Done tt
  | change :: changes => _ ← writing (fun s => apply_change s change); applyPeerRefreshChanges changes
  end.

(** [busy] is set while a pass runs. *)
Definition while_busy {A} (p : sp A) : sp A :=
  _ ← writing (fun s => s <| sv_busy := true |>);
  r ← p;
  _ ← writing (fun s => s <| sv_busy := false |>);
  lift r.

Definition refresh_views : server_prog unit := _ ← syncViewsFromRuntime; rebuildRoutingSnapshot.

Definition runBackgroundPass (reconcile : bool) : sp unit :=
  while_busy (
    ended ← call ContextErr;
    if (ended : bool) then fail_with ErrContextDone
    else
      _ ← refresh_views;
      _ <~ (if reconcile then _ <~ reconcileState; _ ← refresh_views; succeed tt else succeed tt);
      moreOutbox <~ dispatchRuntimeOutboxBatchOwned 0;
      moreRefresh <~ dispatchQueuedActivePeerRefreshesBatchOwned 0;
      _ ← (if moreOutbox || moreRefresh then wake false else Done tt);
      succeed tt).

Fixpoint idle_passes (passes : nat) (reconcile : bool) : sp unit :=
  match passes with
  | O => succeed tt
  | S passes =>
      ended ← call ContextErr;
      if (ended : bool) then fail_with ErrContextDone
      else
        before ← reading backgroundDispatchSignature;
        _ ← refresh_views;
        _ <~ (if reconcile then _ <~ reconcileState; _ ← refresh_views; succeed tt else succeed tt);
        _ <~ dispatchRuntimeOutboxOwned;
        _ <~ dispatchQueuedActivePeerRefreshesOwned;
        after ← reading backgroundDispatchSignature;
        if bool_decide (after = before) || negb (hasWork after) then succeed tt else idle_passes passes false
  end.

Definition runUntilIdle (reconcile : bool) : sp unit := while_busy (idle_passes runtimeVersionRetryLimit reconcile).

(** [syncAndSubmitDispatch] on the engine's goroutine, and on another. *)
Definition engine_dispatch (changes : list dispatchPeerRefreshChange) (wait reconcile : bool) : sp unit :=
  _ ← syncViewsFromRuntime;
  _ ← applyPeerRefreshChanges changes;
  _ ← rebuildRoutingSnapshot;
  if negb wait then _ ← wake reconcile; succeed tt
  else
    pending ← (if reconcile then Done true else consumeReconcilePending);
    runUntilIdle pending.

Definition submit_dispatch (changes : list dispatchPeerRefreshChange) (wait reconcile : bool) : sp unit :=
  _ ← syncViewsFromRuntime;
  if negb wait then
    _ ← applyPeerRefreshChanges changes;
    _ ← rebuildRoutingSnapshot;
    _ ← wake reconcile; succeed tt
  else call (EngineDrain changes reconcile).

(** ** Liveness *)
Definition server_liveness_command (version : Z) (nodeID : string) (state : NodeLivenessState) (evaluatedAtUnixNano : Z)
    (deadActionFired : bool) (attempt : Z) : Command :=
  {| cmd_ID := "server-liveness-" +:+ nodeID +:+ "-" +:+ liveness_string state +:+ "-" +:+ pretty evaluatedAtUnixNano +:+ "-" +:+
       (if deadActionFired then "true" else "false") +:+ "-r" +:+ pretty attempt +:+ "-v" +:+ pretty version;
     cmd_ExpectedVersion := version; cmd_Kind := CommandKindLiveness; cmd_Bootstrap := None; cmd_Reconfigure := None;
     cmd_Progress := None; cmd_NodeReady := None; cmd_Heartbeat := None;
     cmd_Liveness := Some {| live_NodeID := nodeID; live_State := state; live_EvaluatedAtUnixNano := evaluatedAtUnixNano;
                             live_DeadActionFired := deadActionFired; live_FlapWindowNanos := lp_FlapWindow livenessPolicy |};
     cmd_AcknowledgeOutbox := None |}.

Definition applyLivenessTransition (nodeID : string) (state : NodeLivenessState) (evaluatedAtUnixNano : Z)
    (deadActionFired : bool) : sp NodeLivenessRecord :=
  _ <~ retryOnRuntimeVersionMismatch (fun current attempt =>
         call (RtApplyLiveness (server_liveness_command (rt_Version current) nodeID state evaluatedAtUnixNano deadActionFired attempt)));
  _ ← syncViewsFromRuntime;
  record ← livenessRecord nodeID;
  succeed (default zeroLiveness record).

(** ** Membership *)
Definition reconfigure_bootstrap (cmd : Command) : bool :=
  match cmd_Kind cmd, cmd_Bootstrap cmd with CommandKindBootstrap, Some _ => true | _, _ => false end.

Definition server_Bootstrap (cmd : Command) : sp State :=
  if negb (reconfigure_bootstrap cmd) then fail_with ErrInvalidServerCommand
  else
    state <~ call (RtBootstrap cmd);
    _ <~ engine_dispatch [] true false;
    succeed state.

Definition plan_change (sp : SlotPlan) : dispatchPeerRefreshChange :=
  {| change_slot := plan_Slot sp; change_state := plan_refresh sp; change_clear := false |}.

Definition applyMembershipMutation (cmd : Command) (expectedEvent : EventKind) : sp State :=
  match cmd_Kind cmd, cmd_Reconfigure cmd with
  | CommandKindReconfigure, Some reconfigure =>
      if negb (same_event_kind expectedEvent (reconf_Events reconfigure)) then fail_with ErrInvalidServerCommand
      else
        '(plan, state) <~ call (RtReconfigure cmd);
        _ ← syncViewsFromRuntime;
        let later (sp : SlotPlan) := slotPlanHasOnlyStepKind sp StepKindAppendTail && asyncHotPathDispatch in
        let syncChanges := plan_change <$> List.filter (fun sp => negb (later sp)) (rp_ChangedSlots plan) in
        let asyncChanges := plan_change <$> List.filter later (rp_ChangedSlots plan) in
        _ <~ engine_dispatch syncChanges true false;
        _ <~ (match asyncChanges with [] => succeed tt | _ => engine_dispatch asyncChanges false false end);
        succeed state
  | _, _ => fail_with ErrInvalidServerCommand
  end.

Definition one_event (kind : EventKind) (node : Node) (nodeID : string) : list Event :=
  [{| event_Kind := kind; event_Node := node; event_NodeID := nodeID; event_Slot := 0 |}].

Definition RegisterNode (reg : NodeRegistration) : sp State :=
  current ← call RtView;
  if already_registered (rt_Cluster current) reg then current ← call RtView; succeed current
  else
    retryOnRuntimeVersionMismatch (fun current attempt =>
      if already_registered (rt_Cluster current) reg then current ← call RtView; succeed current
      else
        policy ← reconfigurationPolicy;
        let version := rt_Version current in
        let node := {| node_ID := reg_NodeID reg; node_RPCAddress := reg_RPCAddress reg; node_FailureDomains := reg_FailureDomains reg |} in
        applyMembershipMutation
          (reconfigure ("server-register-" +:+ reg_NodeID reg +:+ "-r" +:+ pretty attempt +:+ "-v" +:+ pretty version)
             version (one_event EventKindRegisterNode node "") policy) EventKindRegisterNode).

(** ** Evaluation of liveness *)
(** The transition a record asks for, with the eviction of flapping nodes. *)
Definition judge (nodeID : string) (record : NodeLivenessRecord) (nowUnix : Z) : sp NodeLivenessRecord :=
  let target := reduceNodeLivenessTarget record nowUnix livenessPolicy in
  if bool_decide (target = nl_State record) then succeed record
  else
    record <~ applyLivenessTransition nodeID target nowUnix (nl_DeadActionFired record);
    if bool_decide (target = NodeLivenessStateSuspect) && flapDetectionEnabled livenessPolicy &&
       (lp_FlapThreshold livenessPolicy <=? Z.of_nat (length (nl_SuspectTransitionsUnixNano record)))
    then applyLivenessTransition nodeID NodeLivenessStateDead nowUnix (nl_DeadActionFired record)
    else succeed record.

(** A dead node is taken out of the cluster, once no work is pending. *)
Definition bury (nodeID : string) (record : NodeLivenessRecord) (nowUnix : Z) : sp unit :=
  if negb (is_liveness NodeLivenessStateDead record) || nl_DeadActionFired record then succeed tt
  else
    current ← call RtView;
    if (0 <? size (rt_PendingBySlot current))%nat then succeed tt
    else
      current ← call RtView;
      if nodeMarkedDead (rt_Cluster current) nodeID || negb (isInitialized current)
      then _ <~ applyLivenessTransition nodeID NodeLivenessStateDead nowUnix true; succeed tt
      else
        current ← call RtView;
        policy ← reconfigurationPolicy;
        let version := rt_Version current in
        _ <~ applyMembershipMutation
               (reconfigure ("server-auto-dead-" +:+ nodeID +:+ "-v" +:+ pretty version) version
                  (one_event EventKindMarkNodeDead zeroNode nodeID) policy) EventKindMarkNodeDead;
        _ <~ applyLivenessTransition nodeID NodeLivenessStateDead nowUnix true;
        succeed tt.

Fixpoint evaluate_nodes (liveness : gmap string NodeLivenessRecord) (nodeIDs : list string) (nowUnix : Z) : sp unit :=
  match nodeIDs with
  | [] => succeed tt
  | nodeID :: nodeIDs =>
      record <~ judge nodeID (default zeroLiveness (liveness !! nodeID)) nowUnix;
      _ <~ bury nodeID record nowUnix;
      evaluate_nodes liveness nodeIDs nowUnix
  end.

Definition EvaluateLiveness : sp unit :=
  _ <~ (if (0 <? lp_SuspectAfter livenessPolicy) && (0 <? lp_DeadAfter livenessPolicy) then
          now ← call ClockNow;
          liveness ← reading sv_liveness;
          evaluate_nodes liveness (sort_Strings (map_to_list liveness).*1) (UnixNano now)
        else succeed tt);
  current ← call RtView;
  if negb (clusterNeedsPeriodicAdvanceForView (rt_Cluster current)) || (0 <? size (rt_PendingBySlot current))%nat ||
     (0 <? length (rt_Outbox current))%nat
  then succeed tt
  else
    slots ← reading snapshotActivePeerRefreshSlots;
    if (0 <? length slots)%nat then succeed tt
    else
      _ <~ reconcileState;
      r ← engine_dispatch [] (negb asyncHotPathDispatch) false;
      tolerate r.

(** ** Reports *)
(** The common course of the reports of progress: reduce, log the progress, and
    hand the changed slot to the engine. *)
Definition apply_progress (reduce : SlotProgressView -> string -> string -> Z -> res server_error replicaProgressReduction)
    (kind : EventKind) (nodeID : string) (slot : Z) (commandID : string) : sp Z :=
  '(version, reduction) <~ retryOnRuntimeSlotProgressVersionMismatch slot (fun current attempt =>
     reduction <~ lift (reduce current nodeID commandID attempt);
     if duplicateCompleted reduction then succeed (view_Version current, reduction)
     else
       version <~ call (RtApplyProgress (progress_command (progressCommandID reduction) (view_Version current) kind nodeID slot));
       succeed (version, reduction));
  if duplicateCompleted reduction then succeed version
  else
    busy ← reading sv_busy;
    let changes := if enqueuePeerRefresh reduction
                   then [{| change_slot := slot; change_state := peerRefreshState reduction; change_clear := false |}] else [] in
    _ <~ submit_dispatch changes (negb asyncHotPathDispatch && negb busy) true;
    succeed version.

Definition applyReplicaReadyDirect (nodeID : string) (slot : Z) (commandID : string) : sp Z :=
  apply_progress reduceReplicaReadyProgress EventKindReplicaBecameActive nodeID slot commandID.

Definition applyReplicaRemovedDirect (nodeID : string) (slot : Z) (commandID : string) : sp Z :=
  apply_progress reduceReplicaRemovedProgress EventKindReplicaRemoved nodeID slot commandID.

Definition node_ready_command (version : Z) (status : NodeStatus) (observedAt attempt : Z) : Command :=
  {| cmd_ID := "server-node-ready-" +:+ status_NodeID status +:+ "-" +:+ pretty observedAt +:+ "-r" +:+ pretty attempt +:+ "-v" +:+ pretty version;
     cmd_ExpectedVersion := version; cmd_Kind := CommandKindNodeReady; cmd_Bootstrap := None; cmd_Reconfigure := None;
     cmd_Progress := None;
     cmd_NodeReady := Some {| seen_Status := status; seen_ObservedAtUnixNano := observedAt;
                              seen_FlapWindowNanos := lp_FlapWindow livenessPolicy |};
     cmd_Heartbeat := None; cmd_Liveness := None; cmd_AcknowledgeOutbox := None |}.

Definition become_ready (status : NodeStatus) (observedAt : Z) : sp unit :=
  _ <~ retryOnRuntimeVersionMismatch (fun current attempt =>
         if mget (cs_ReadyNodeIDs (rt_Cluster current)) (status_NodeID status) then succeed tt
         else _ <~ call (RtMarkNodeReady (node_ready_command (rt_Version current) status observedAt attempt)); succeed tt);
  r ← submit_dispatch [] (negb asyncHotPathDispatch) true;
  tolerate r.

Definition ReportNodeHeartbeat (status : NodeStatus) : sp unit :=
  let nodeID := status_NodeID status in
  current ← call RtView;
  if negb (is_set (cs_NodesByID (rt_Cluster current) !! nodeID)) then fail_with ErrUnknownNode
  else
    current ← call RtView;
    record ← livenessRecord nodeID;
    let currentRecord := default zeroLiveness record in
    let wasDead := is_liveness NodeLivenessStateDead currentRecord || nodeMarkedDead (rt_Cluster current) nodeID in
    if nodeMarkedDead (rt_Cluster current) nodeID then
      now ← call ClockNow;
      _ <~ applyLivenessTransition nodeID NodeLivenessStateDead (UnixNano now) true;
      fail_with ErrUnknownNode
    else
      now ← call ClockNow;
      let observedAt := UnixNano now in
      _ ← writing (recordFreshHeartbeat (lp_FlapWindow livenessPolicy) status observedAt);
      _ <~ (if is_liveness NodeLivenessStateSuspect currentRecord
            then _ <~ applyLivenessTransition nodeID NodeLivenessStateHealthy observedAt (nl_DeadActionFired currentRecord); succeed tt
            else succeed tt);
      _ <~ (if mget (cs_ReadyNodeIDs (rt_Cluster current)) nodeID then succeed tt else become_ready status observedAt);
      live ← livenessRecord nodeID;
      if wasDead && match live with Some live => negb (is_liveness NodeLivenessStateDead live) | None => false end
      then _ <~ applyLivenessTransition nodeID NodeLivenessStateDead observedAt (is_set record && nl_DeadActionFired currentRecord); succeed tt
      else succeed tt.

(** One replica of a recovery report. *)
Definition recover_one (state : State) (nodeID : string) (recovered : RecoveredReplica) : sp unit :=
  let slot := asg_Slot (rec_Assignment recovered) in
  match currentAssignmentForNode state nodeID slot with
  | None => dropRecoveredReplica nodeID slot
  | Some current =>
      if canResumeRecoveredReplica recovered current then resumeRecoveredReplica nodeID current
      else
        match zidx (cs_Chains (rt_Cluster state)) slot ≫= fun chain => recoverySourceNodeID chain nodeID with
        | None => fail_with ErrRecoveryFailed
        | Some source => recoverReplica nodeID current source
        end
  end.

Fixpoint recover_replicas (state : State) (nodeID : string) (replicas : list RecoveredReplica) : sp unit :=
  match replicas with
  | [] => succeed tt
  | recovered :: replicas => _ <~ recover_one state nodeID recovered; recover_replicas state nodeID replicas
  end.

Definition ReportNodeRecovered (report : NodeRecoveryReport) : sp unit :=
  let nodeID := report_NodeID report in
  current ← call RtView;
  known ← (if is_set (cs_NodesByID (rt_Cluster current) !! nodeID) then Done true
           else reading (fun s => bool_decide (nodeID ∈ sv_nodes s)));
  if negb known then fail_with ErrUnknownNode
  else
    prior ← reading (fun s => sv_lastRecoveryReports s !! nodeID);
    again ← (if bool_decide (prior = Some report) then reading (fun s => negb (nodeHasUnavailableSlots s nodeID)) else Done false);
    if (again : bool) then succeed tt
    else
      _ ← markUnavailableReplicas report;
      state ← call RtView;
      _ <~ recover_replicas state nodeID (report_Replicas report);
      _ ← writing (fun s => s <| sv_lastRecoveryReports := <[nodeID := report]> (sv_lastRecoveryReports s) |>);
      engine_dispatch [] (negb asyncHotPathDispatch) false.

Definition server_RoutingSnapshot : sp RoutingSnapshot :=
  _ ← syncViewsFromRuntime;
  _ ← rebuildRoutingSnapshot;
  snapshot ← reading sv_routingSnapshot;
  succeed snapshot.
End server.
