(* ===== verification/StandaloneWorld.v ===== *)
(** * A running coordinator server without HA store

    The runtime over its store, the server's fields, the goroutines of the
    handlers in flight, and the engine with its queue of requests.  A step makes
    one call of one of them; what the clock, the contexts and the storage nodes
    answer is part of the event. *)

From S2P Require Import Prelude.
From S2P Require Import CoordTypes.
From S2P Require Import StorageTypes.
From S2P Require Import RuntimeTypes.
From S2P Require Import Runtime.
From S2P Require Import CoordServer.
From S2P Require Import HAEngine.
From S2P Require Import Standalone.

Open Scope Z_scope.
Open Scope record_scope.

(** ** Requests *)
Inductive server_request :=
| AskBootstrap (cmd : Command)
| AskMembership (kind : EventKind) (cmd : Command)
| AskReplicaReady (nodeID : string) (slot : Z) (commandID : string)
| AskReplicaRemoved (nodeID : string) (slot : Z) (commandID : string)
| AskHeartbeat (status : NodeStatus)
| AskEvaluateLiveness
| AskNodeRecovered (report : NodeRecoveryReport)
| AskRegisterNode (reg : NodeRegistration)
| AskRoutingSnapshot.

Inductive server_reply := GotState (state : State) | GotVersion (version : Z) | GotRoutes (routes : RoutingSnapshot) | GotNothing.

(** Those that [submitEngineCall] hands to the engine. *)
Definition on_engine (r : server_request) : bool :=
  match r with
  | AskBootstrap _ | AskMembership _ _ | AskEvaluateLiveness | AskNodeRecovered _ | AskRegisterNode _ => true
  | _ => false
  end.

(** ** Answers *)
Record env := {
  env_now : Z;
  env_ended : bool;
  env_client : res server_error unit;
  env_send : option send_error;
}.

Definition emptyPlan : ReconfigurationPlan := {| rp_UpdatedState := emptyCluster; rp_UnassignedNodeIDs := []; rp_ChangedSlots := [] |}.

Section world.
Context (cfg : ServerConfig) (GOMAXPROCS : Z) {S : Type} `{StoreOps S}.

Definition run_method {A} (r : Runtime S) (out : res runtime_error (Runtime S * A)) : res server_error A * Runtime S :=
  match out with Ok (r', a) => (Ok a, r') | Err e => (Err (ErrRuntime e), r) end.

(** The plan [Runtime.Reconfigure] returns beside the state. *)
Definition reconfigure_plan (r : Runtime S) (cmd : Command) : ReconfigurationPlan :=
  match executeCommand (run_state r) cmd with
  | Ok (Duplicate applied) => default emptyPlan (ap_Plan applied)
  | Ok (Executed _ plan) => default emptyPlan plan
  | Err _ => emptyPlan
  end.

Definition answer (e : env) {X} (c : server_call X) (r : Runtime S) (s : Server) : option (X * Runtime S * Server) :=
  match c in server_call X return option (X * Runtime S * Server) with
  | ClockNow => Some (env_now e, r, s)
  | ContextErr => Some (env_ended e, r, s)
  | RtView => Some (run_state r, r, s)
  | RtBootstrap cmd => Some (run_method r (Bootstrap r cmd), s)
  | RtReconfigure cmd =>
      let '(a, r') := run_method r (Reconfigure r cmd) in
      Some (match a with Ok state => Ok (reconfigure_plan r cmd, state) | Err e => Err e end, r', s)
  | RtApplyProgress cmd => Some (run_method r (ApplyProgressVersion r cmd), s)
  | RtMarkNodeReady cmd => Some (run_method r (MarkNodeReady r cmd), s)
  | RtApplyLiveness cmd => Some (run_method r (ApplyLiveness r cmd), s)
  | RtAcknowledgeOutbox cmd => Some (run_method r (AcknowledgeOutboxVersion r cmd), s)
  | NodeClient node => Some (env_client e, r, s)
  | NodeSend nodeID c => Some (env_send e, r, s)
  | OnServer f => Some ((f s).1, r, (f s).2)
  | EngineDrain _ _ => None
  end.

(** The command a node carries out. *)
Definition delivery {X} (e : env) (c : server_call X) : list (string * node_command) :=
  match c with NodeSend nodeID c => match env_send e with None => [(nodeID, c)] | Some _ => [] end | _ => [] end.

(** ** Goroutines *)
Definition handler (r : server_request) : sp server_reply :=
  let state (p : sp State) : sp server_reply := s <~ p; succeed (GotState s) in
  let version (p : sp Z) : sp server_reply := v <~ p; succeed (GotVersion v) in
  let nothing (p : sp unit) : sp server_reply := _ <~ p; succeed GotNothing in
  match r with
  | AskBootstrap cmd => state (server_Bootstrap cfg GOMAXPROCS cmd)
  | AskMembership kind cmd => state (applyMembershipMutation cfg GOMAXPROCS cmd kind)
  | AskReplicaReady nodeID slot commandID => version (applyReplicaReadyDirect cfg nodeID slot commandID)
  | AskReplicaRemoved nodeID slot commandID => version (applyReplicaRemovedDirect cfg nodeID slot commandID)
  | AskHeartbeat status => nothing (ReportNodeHeartbeat cfg status)
  | AskEvaluateLiveness => nothing (EvaluateLiveness cfg GOMAXPROCS)
  | AskNodeRecovered report => nothing (ReportNodeRecovered cfg GOMAXPROCS report)
  | AskRegisterNode reg => state (RegisterNode cfg GOMAXPROCS reg)
  | AskRoutingSnapshot => routes <~ server_RoutingSnapshot; succeed (GotRoutes routes)
  end.

Inductive job :=
| JobCall (p : sp server_reply)
| JobDrain (changes : list dispatchPeerRefreshChange) (reconcile : bool).

Definition job_program (j : job) : sp server_reply :=
  match j with
  | JobCall p => p
  | JobDrain changes reconcile =>
      _ ← applyPeerRefreshChanges changes;
      pending ← (if reconcile then Done true else consumeReconcilePending);
      _ <~ runUntilIdle cfg GOMAXPROCS pending;
      succeed GotNothing
  end.

Definition background_pass : sp server_reply :=
  pending ← consumeReconcilePending; _ <~ runBackgroundPass cfg GOMAXPROCS pending; succeed GotNothing.

Inductive thread :=
| Running (p : sp server_reply)
| Waiting (k : res server_error server_reply -> sp server_reply).

(** A goroutine other than the engine's that waits for a drain. *)
Definition suspend {X} (c : server_call X) : (X -> sp server_reply) -> option (job * (res server_error server_reply -> sp server_reply)) :=
  match c in server_call X return (X -> sp server_reply) -> option (job * (res server_error server_reply -> sp server_reply)) with
  | EngineDrain changes reconcile => fun k => Some (JobDrain changes reconcile, fun r => k (match r with Ok _ => Ok tt | Err e => Err e end))
  | _ => fun _ => None
  end.

(** ** Opening *)
Definition open_fields (nodes : gset string) (state : State) : Server :=
  let policy := cfg_ReconfigurationPolicy cfg in
  let zero := {| policy_MaxChangedChains := 0 |} in
  let s := {| sv_nodes := nodes; sv_heartbeats := ∅; sv_liveness := ∅; sv_pending := ∅; sv_completed := ∅; sv_runtimeVersion := 0;
              sv_runtimeOutbox := []; sv_routingSnapshot := {| rs_Version := 0; rs_SlotCount := 0; rs_Slots := [] |};
              sv_lastPolicy := policy; sv_startupBudgetActive := 0 <? cfg_StartupMaxChangedChains cfg;
              sv_unavailableReplicas := ∅; sv_lastRecoveryReports := ∅; sv_activePeerRefresh := ∅; sv_busy := false;
              sv_reconcilePending := false; sv_signal := false |} in
  let s := sync_views state s in
  let s := if bool_decide (sv_lastPolicy s = zero) && negb (bool_decide (policy = zero)) then s <| sv_lastPolicy := policy |> else s in
  s <| sv_routingSnapshot := reduceRoutingSnapshot state (sv_unavailableReplicas s) (sv_activePeerRefresh s) |>.

Definition OpenWithConfig (store : S) (nodes : gset string) : res server_error (Runtime S * Server) :=
  _ ← validateServerConfig cfg;
  match Open store with
  | Err e => Err (ErrRuntime e)
  | Ok r => Ok (r, open_fields nodes (run_state r))
  end.

(** ** Steps *)
Record world := {
  w_runtime : Runtime S;
  w_server : Server;
  w_threads : list thread;
  w_queue : list (option nat * job);
  w_engine : option (option nat * sp server_reply);
  w_delivered : list (string * node_command);
}.

#[export] Instance world_rebuild : Rebuild world := fun w =>
  {| w_runtime := w_runtime w; w_server := w_server w; w_threads := w_threads w; w_queue := w_queue w;
     w_engine := w_engine w; w_delivered := w_delivered w |}.

Definition start (r : Runtime S) (s : Server) : world :=
  {| w_runtime := r; w_server := s; w_threads := []; w_queue := []; w_engine := None; w_delivered := [] |}.

Definition request_queue : nat := 128.

Inductive event :=
| EvRequest (r : server_request)
| EvThread (i : nat) (e : env)
| EvEngine (e : env)
| EvTake
| EvTick
| EvSignal
| EvRestart (nodes : gset string).

(** One call of a program. *)
Definition advance (e : env) {X} (c : server_call X) (k : X -> sp server_reply) (w : world) : option (sp server_reply * world) :=
  '(x, r, s) ← answer e c (w_runtime w) (w_server w);
  Some (k x, w <| w_runtime := r |> <| w_server := s |> <| w_delivered := w_delivered w ++ delivery e c |>).

Definition enqueue (i : nat) (j : job) (t : thread) (w : world) : option world :=
  if bool_decide (length (w_queue w) < request_queue)%nat
  then Some (w <| w_queue := w_queue w ++ [(Some i, j)] |> <| w_threads := <[i := t]> (w_threads w) |>)
  else None.

(** A goroutine may give up while it hands over its request, not later. *)
Definition thread_step (i : nat) (e : env) (w : world) : option world :=
  match w_threads w !! i with
  | Some (Running (Call c k)) =>
      match suspend c k with
      | Some (j, k) =>
          if env_ended e then Some (w <| w_threads := <[i := Running (k (Err ErrContextDone))]> (w_threads w) |>)
          else enqueue i j (Waiting k) w
      | None => '(p, w) ← advance e c k w; Some (w <| w_threads := <[i := Running p]> (w_threads w) |>)
      end
  | _ => None
  end.

Definition engine_step (e : env) (w : world) : option world :=
  match w_engine w with
  | Some (ticket, Call c k) => '(p, w) ← advance e c k w; Some (w <| w_engine := Some (ticket, p) |>)
  | Some (ticket, Done r) =>
      let woken := match ticket with
                   | Some i => match w_threads w !! i with Some (Waiting k) => <[i := Running (k r)]> (w_threads w) | _ => w_threads w end
                   | None => w_threads w
                   end in
      Some (w <| w_threads := woken |> <| w_engine := None |>)
  | None => None
  end.

Definition background (w : world) : world := w <| w_engine := Some (None, background_pass) |>.

Definition world_step (ev : event) (w : world) : option world :=
  match ev with
  | EvRequest r =>
      if on_engine r
      then enqueue (length (w_threads w)) (JobCall (handler r)) (Waiting Done) (w <| w_threads := w_threads w ++ [Waiting Done] |>)
      else Some (w <| w_threads := w_threads w ++ [Running (handler r)] |>)
  | EvThread i e => thread_step i e w
  | EvEngine e => engine_step e w
  | EvTake =>
      match w_engine w, w_queue w with
      | None, (ticket, j) :: queue => Some (w <| w_queue := queue |> <| w_engine := Some (ticket, job_program j) |>)
      | _, _ => None
      end
  | EvTick =>
      match w_engine w, cfg_HA cfg with
      | None, None => if cfg_DisableBackgroundLoops cfg then None else Some (background w)
      | _, _ => None
      end
  | EvSignal =>
      if is_set (w_engine w) || negb (sv_signal (w_server w)) then None
      else Some (background (w <| w_server := (w_server w) <| sv_signal := false |> |>))
  | EvRestart nodes =>
      match OpenWithConfig (run_store (w_runtime w)) nodes with
      | Ok (r, s) => Some ((start r s) <| w_delivered := w_delivered w |>)
      | Err _ => None
      end
  end.

Definition world_moves (w w' : world) : Prop := exists ev, world_step ev w = Some w'.
End world.
Arguments world S : clear implicits.
