(* ===== verification/StandaloneTheorems.v ===== *)
(** * Theorems on the coordinator server without HA store

    However its handlers and its engine interleave, the server's runtime keeps
    its invariants, and a command leaves the outbox only once its node has
    carried it out or the slot has moved on. *)

From S2P Require Import Prelude.
From S2P Require Import CoordTypes.
From S2P Require Import Placement.
From S2P Require Import Reconfig.
From S2P Require Import ReconfigProps.
From S2P Require Import PlanTheorems.
From S2P Require Import StorageTypes.
From S2P Require Import RuntimeTypes.
From S2P Require Import Runtime.
From S2P Require Import CoordServer.
From S2P Require Import RuntimeProps.
From S2P Require Import RuntimeTheorems.
From S2P Require Import HAEngine.
From S2P Require Import Standalone.
From S2P Require Import StandaloneWorld.

Open Scope Z_scope.
Open Scope record_scope.

(** ** Programs that acknowledge what was carried out

    What is known so far: the entries the runtime's outbox has had, and the
    commands nodes have carried out.  Both only grow. *)
Record known := { k_listed : OutboxEntry -> Prop; k_done : string * node_command -> Prop }.

Definition grows (K K' : known) : Prop := (forall e, k_listed K e -> k_listed K' e) /\ (forall d, k_done K d -> k_done K' d).

#[local] Instance grows_preorder : PreOrder grows.
Proof. split; [by split|]. intros K1 K2 K3 [H1 H2] [H3 H4]. split; auto. Qed.

Definition delivered_id (K : known) (id : string) : Prop :=
  exists e, ob_ID e = id /\ k_listed K e /\ k_done K (ob_NodeID e, outbox_command e).

Definition server_ok (K : known) (s : Server) : Prop := Forall (k_listed K) (sv_runtimeOutbox s).

Definition call_ok (K : known) {X} (c : server_call X) : Prop :=
  match c with
  | RtBootstrap cmd => cmd_Kind cmd = CommandKindBootstrap
  | RtReconfigure cmd => cmd_Kind cmd = CommandKindReconfigure
  | RtApplyProgress cmd => cmd_Kind cmd = CommandKindProgress
  | RtMarkNodeReady cmd => cmd_Kind cmd = CommandKindNodeReady
  | RtApplyLiveness cmd => cmd_Kind cmd = CommandKindLiveness
  | RtAcknowledgeOutbox cmd => cmd_Kind cmd = CommandKindAcknowledgeOutbox /\
      forall a, cmd_AcknowledgeOutbox cmd = Some a -> Forall (delivered_id K) (outboxAckEntryIDs a)
  | OnServer f => forall K' s, grows K K' -> server_ok K' s -> server_ok K' (f s).2
  | _ => True
  end.

Definition answer_ok (K : known) {X} (c : server_call X) : X -> Prop :=
  match c in server_call X return X -> Prop with
  | RtView => fun state => Forall (k_listed K) (rt_Outbox state)
  | NodeSend nodeID c => fun r => r = None -> k_done K (nodeID, c)
  | OnServer f => fun x => exists s, server_ok K s /\ x = (f s).1
  | _ => fun _ => True
  end.

(** [runs K p Q]: every call of [p] is fit to be made, and it ends in [Q]. *)
Fixpoint runs {A} (K : known) (p : server_prog A) (Q : known -> A -> Prop) : Prop :=
  match p with
  | Done a => forall K', grows K K' -> Q K' a
  | Call c k => call_ok K c /\ forall K' x, grows K K' -> answer_ok K' c x -> runs K' (k x) Q
  end.

Lemma delivered_grows K K' id : grows K K' -> delivered_id K id -> delivered_id K' id.
Proof. intros [Hl Hd] (e & He & H1 & H2). exists e. auto. Qed.

Lemma call_ok_grows K K' {X} (c : server_call X) : grows K K' -> call_ok K c -> call_ok K' c.
Proof.
  intros Hg. destruct c; cbn; try done.
  - intros [Hk Ha]. split; [done|]. intros a Hs. eapply Forall_impl; [by apply Ha|]. intros id. by apply delivered_grows.
  - intros Hf K'' s Hg'. apply Hf. by trans K'.
Qed.

Lemma runs_grows {A} K K' (p : server_prog A) Q : grows K K' -> runs K p Q -> runs K' p Q.
Proof.
  intros Hg. destruct p as [a|X c k]; cbn.
  - intros Hq K'' Hg'. apply Hq. by trans K'.
  - intros [Hc Hk]. split; [by apply (call_ok_grows K)|]. intros K'' x Hg' Hx. apply Hk; [by trans K'|done].
Qed.

Lemma runs_conseq {A} K (p : server_prog A) (Q Q' : known -> A -> Prop) :
  runs K p Q -> (forall K' a, grows K K' -> Q K' a -> Q' K' a) -> runs K p Q'.
Proof.
  revert K. induction p as [a|X c k IH]; intros K Hp HQ; cbn in *.
  - intros K' Hg. by apply HQ, Hp.
  - destruct Hp as [Hc Hk]. split; [done|]. intros K' x Hg Hx. apply IH; [by apply Hk|]. intros K'' a Hg'. apply HQ. by trans K'.
Qed.

Lemma runs_bind {A B} K (m : server_prog A) (f : A -> server_prog B) Q :
  runs K m (fun K' a => runs K' (f a) Q) -> runs K (m ≫= f) Q.
Proof.
  revert K. induction m as [a|X c k IH]; intros K Hm; cbn in *; [by apply Hm|].
  destruct Hm as [Hc Hk]. split; [done|]. intros K' x Hg Hx. apply IH. by apply Hk.
Qed.

Lemma runs_then {A B} K (m : sp A) (k : A -> sp B) Q :
  runs K m (fun K' r => match r with Ok a => runs K' (k a) Q | Err e => forall K'', grows K' K'' -> Q K'' (Err e) end) ->
  runs K (and_then m k) Q.
Proof. intros Hm. apply runs_bind. apply (runs_conseq K m _ _ Hm). by intros K' [a|e] _ Hr. Qed.

(** A program about whose result nothing needs to be known. *)
Definition fit {A} (m : server_prog A) : Prop := forall K, runs K m (fun _ _ => True).

Lemma fit_runs {A} (m : server_prog A) K Q : fit m -> (forall K' a, grows K K' -> Q K' a) -> runs K m Q.
Proof. intros Hm HQ. apply (runs_conseq K m _ _ (Hm K)). auto. Qed.

Lemma fit_bind {A B} (m : server_prog A) (f : A -> server_prog B) : fit m -> (forall a, fit (f a)) -> fit (m ≫= f).
Proof. intros Hm Hf K. apply runs_bind. apply fit_runs; [done|]. intros K' a _. apply Hf. Qed.

Lemma fit_done {A} (a : A) : fit (Done a).
Proof. done. Qed.

Lemma fit_then {A B} (m : sp A) (k : A -> sp B) : fit m -> (forall a, fit (k a)) -> fit (and_then m k).
Proof. intros Hm Hk. apply fit_bind; [done|]. intros [a|e]; [apply Hk|apply fit_done]. Qed.

Lemma fit_call {X} (c : server_call X) : (forall K, call_ok K c) -> fit (call c).
Proof. intros Hc K. split; [done|]. by intros K' x _ _ K'' _. Qed.

Lemma fit_reading {X} (f : Server -> X) : fit (reading f).
Proof. apply fit_call. by intros K K' s _ Hs. Qed.

Lemma fit_writing f : (forall s, sv_runtimeOutbox (f s) = sv_runtimeOutbox s) -> fit (writing f).
Proof. intros Hf. apply fit_call. intros K K' s _ Hs. cbn. unfold server_ok. by rw Hf. Qed.

Create HintDb standalone.
#[local] Hint Resolve fit_done fit_reading : standalone.

(** Work through a program about whose results nothing needs to be known. *)
Ltac fitting :=
  repeat match goal with
  | |- forall _, _ => intros ?
  | |- fit (and_then _ _) => apply fit_then
  | |- fit (_ ≫= _) => apply fit_bind
  | |- fit (succeed _) => apply fit_done
  | |- fit (fail_with _) => apply fit_done
  | |- fit (lift _) => apply fit_done
  | |- fit (writing _) => by apply fit_writing
  | |- fit (call _) => by apply fit_call
  | |- fit (match ?x with _ => _ end) => destruct x
  | |- fit (let '(_, _) := ?x in _) => destruct x
  | |- fit _ => by eauto with standalone
  end.

Lemma runs_retry_from {V A} K left_ attempt (v : V) (op : V -> State -> Z -> server_prog (V * res server_error A)) :
  (forall K' v current attempt, grows K K' -> runs K' (op v current attempt) (fun _ _ => True)) ->
  runs K (retry_from left_ attempt v op) (fun _ _ => True).
Proof.
  revert K attempt v. induction left_ as [|left_ IH]; intros K attempt v Hop; cbn [retry_from].
  all: split; [done|]; intros K1 ended Hg1 _; destruct ended; [by intros K' _|].
  all: split; [done|]; intros K2 current Hg2 _; apply runs_bind; eapply runs_conseq; [apply Hop; by trans K1|].
  all: intros K3 [v' r] Hg3 _; destruct r as [a|e]; [by intros K' _|].
  - by intros K' _.
  - destruct (is_version_mismatch e); [|by intros K' _]. apply IH. intros K4 v4 current4 attempt4 Hg4. apply Hop.
    trans K1; [done|]. trans K2; [done|]. by trans K3.
Qed.

Lemma fit_retry_from {V A} left_ attempt (v : V) (op : V -> State -> Z -> server_prog (V * res server_error A)) :
  (forall v current attempt, fit (op v current attempt)) -> fit (retry_from left_ attempt v op).
Proof. intros Hop K. apply runs_retry_from. intros K' v' current attempt' _. apply Hop. Qed.

Lemma runs_retry {A} K (op : State -> Z -> sp A) :
  (forall K' current attempt, grows K K' -> runs K' (op current attempt) (fun _ _ => True)) ->
  runs K (retryOnRuntimeVersionMismatch op) (fun _ _ => True).
Proof.
  intros Hop. apply runs_bind. eapply runs_conseq.
  - apply runs_retry_from. intros K' _ current attempt Hg. apply runs_bind. eapply runs_conseq; [by apply Hop|]. by intros K1 r _ _ K2 _.
  - by intros K' [u r] _ _ K1 _.
Qed.

Lemma fit_retry {A} (op : State -> Z -> sp A) :
  (forall current attempt, fit (op current attempt)) -> fit (retryOnRuntimeVersionMismatch op).
Proof. intros Hop K. apply runs_retry. intros K' current attempt _. apply Hop. Qed.

Lemma fit_sync : fit syncViewsFromRuntime.
Proof.
  intros K. split; [done|]. intros K' current Hg Hl. cbn. split; [|by intros].
  intros K'' s [Hg' _] _. eapply Forall_impl; [exact Hl|]. done.
Qed.
#[local] Hint Resolve fit_sync : standalone.

Lemma fit_rebuild : fit rebuildRoutingSnapshot.
Proof. unfold rebuildRoutingSnapshot. fitting. Qed.
#[local] Hint Resolve fit_rebuild : standalone.

Lemma fit_clearUnavailable nodeID slot : fit (clearUnavailable nodeID slot).
Proof.
  unfold clearUnavailable. apply fit_bind; [|fitting]. apply fit_call. intros K K' s _ Hs. cbn. unfold server_ok, clear_unavailable.
  by destruct (_ !! _).
Qed.

Lemma fit_livenessRecord nodeID : fit (livenessRecord nodeID).
Proof. apply fit_reading. Qed.
#[local] Hint Resolve fit_clearUnavailable fit_livenessRecord : standalone.

Section server.
Context (cfg : ServerConfig) (GOMAXPROCS : Z).

Lemma fit_policy : fit (reconfigurationPolicy cfg).
Proof. unfold reconfigurationPolicy. fitting. Qed.
#[local] Hint Resolve fit_policy : standalone.

Lemma fit_client nodeID : fit (clientForNodeID cfg nodeID).
Proof. unfold clientForNodeID. fitting. Qed.
#[local] Hint Resolve fit_client : standalone.

Lemma fit_send otherwise nodeID c : fit (send_command cfg otherwise nodeID c).
Proof. unfold send_command. fitting. Qed.
#[local] Hint Resolve fit_send : standalone.

Lemma fit_update_peers state slot chain replicas remaining firstErr : fit (update_peers cfg state slot chain replicas remaining firstErr).
Proof.
  revert remaining firstErr. induction replicas as [|replica replicas IH]; intros remaining firstErr; cbn [update_peers]; fitting.
Qed.
#[local] Hint Resolve fit_update_peers : standalone.

Lemma fit_dispatch_peers slot refresh : fit (dispatchActivePeerUpdates cfg slot refresh).
Proof. unfold dispatchActivePeerUpdates. fitting. Qed.

Lemma fit_should slot refresh : fit (shouldDispatchActivePeerRefresh slot refresh).
Proof. unfold shouldDispatchActivePeerRefresh. fitting. Qed.
#[local] Hint Resolve fit_dispatch_peers fit_should : standalone.

Lemma fit_refresh_batch several states slots : fit (refresh_batch cfg several states slots).
Proof. induction slots as [|slot slots IH]; cbn [refresh_batch]; unfold refresh_slot; fitting. Qed.

Lemma fit_settle outcomes : fit (settle_refreshes outcomes).
Proof. induction outcomes as [|[slot outcome] outcomes IH]; cbn [settle_refreshes]; fitting. Qed.
#[local] Hint Resolve fit_refresh_batch fit_settle : standalone.

Lemma fit_refreshes maxSlots : fit (dispatchQueuedActivePeerRefreshesBatchOwned cfg GOMAXPROCS maxSlots).
Proof. unfold dispatchQueuedActivePeerRefreshesBatchOwned. fitting. Qed.
#[local] Hint Resolve fit_refreshes : standalone.

Lemma fit_reconcile : fit (reconcileState cfg).
Proof.
  unfold reconcileState. apply fit_bind; [|fitting]. apply fit_retry_from. intros v current attempt. unfold reconcile_attempt. fitting.
Qed.
#[local] Hint Resolve fit_reconcile : standalone.

(** *** The outbox: what succeeded was carried out *)
Definition carried_out (K : known) (p : OutboxEntry * res server_error unit) : Prop :=
  succeeded p.2 = true -> delivered_id K (ob_ID p.1).

Lemma carried_grows K K' results : grows K K' -> Forall (carried_out K) results -> Forall (carried_out K') results.
Proof. intros Hg Hr. apply (Forall_impl _ _ _ Hr). intros p Hp Hs. by apply (delivered_grows K), Hp. Qed.

Lemma runs_entry K entry : k_listed K entry ->
  runs K (dispatchRuntimeOutboxEntry cfg entry) (fun K' r => carried_out K' (entry, r)).
Proof.
  intros Hl. apply runs_bind, fit_runs; [apply fit_client|]. intros K1 [u|e] Hg1; [|by intros K2 _].
  split; [done|]. intros K2 r Hg2 Hr K3 Hg3. destruct r as [[]|]; intros Hs; try done. exists entry. split; [done|].
  split; [by apply Hg3, Hg2, Hg1|]. by apply Hg3, Hr.
Qed.

Lemma runs_batch K several entries : Forall (k_listed K) entries ->
  runs K (dispatch_batch cfg several entries) (fun K' results => Forall (carried_out K') results).
Proof.
  revert K. induction entries as [|entry entries IH]; intros K Hl; cbn [dispatch_batch]; [by intros K' _; constructor|].
  apply Forall_cons in Hl as [He Hl]. apply runs_bind, fit_runs; [fitting|]. intros K1 ended Hg1. apply runs_bind.
  assert (runs K1 (if ended then fail_with ErrContextDone else dispatchRuntimeOutboxEntry cfg entry)
    (fun K' r => carried_out K' (entry, r))) as Hr.
  { destruct ended; [by intros K' _|]. apply runs_entry. by apply Hg1. }
  apply (runs_conseq _ _ _ _ Hr). intros K2 r Hg2 Hc. apply runs_bind. eapply runs_conseq.
  { apply IH. eapply Forall_impl; [exact Hl|]. intros e Hx. by apply Hg2, Hg1. }
  intros K3 results Hg3 Hrs K4 Hg4. constructor.
  - intros Hs. apply (delivered_grows K2); [by trans K3|by apply Hc].
  - by apply (carried_grows K3).
Qed.

Lemma sort_Strings_Forall (P : string -> Prop) l : Forall P l -> Forall P (sort_Strings l).
Proof. unfold sort_Strings. by rw isort_perm. Qed.

Lemma acknowledged_delivered K results : Forall (carried_out K) results -> Forall (delivered_id K) (acknowledgedOutboxEntryIDs results).
Proof.
  intros Hr. apply sort_Strings_Forall, Forall_fmap, Forall_forall. intros p [Hin Hs]%list_elem_of_In%List.filter_In.
  apply list_elem_of_In in Hin. by apply (proj1 (Forall_forall _ _) Hr p).
Qed.

Lemma runs_acknowledge K ids : Forall (delivered_id K) ids -> runs K (acknowledge ids) (fun _ _ => True).
Proof.
  intros Hids. unfold acknowledge. destruct ids as [|id ids]; [by intros K' _|]. apply runs_then. eapply runs_conseq.
  - apply runs_retry. intros K' current attempt Hg. split; [|by intros K1 x _ _ K2 _].
    split; [done|]. intros a [= <-]. cbn. apply (Forall_impl _ _ _ Hids). intros x. by apply delivered_grows.
  - intros K' [v|e] Hg _; [|done]. apply runs_bind, fit_runs; [apply fit_sync|]. by intros K1 u _ K2 _.
Qed.

Lemma fit_outbox_batch maxEntries : fit (dispatchRuntimeOutboxBatchOwned cfg GOMAXPROCS maxEntries).
Proof.
  intros K. apply runs_bind. split; [by intros K' s _ Hs|]. intros K1 all Hg1 (s & Hs & ->) K2 Hg2. cbn [fst].
  destruct (sv_runtimeOutbox s) as [|e0 rest] eqn:Hall; [by apply (fit_runs _ K2); [fitting|]|]. rw -Hall. clear Hall.
  apply runs_bind. eapply runs_conseq.
  { apply runs_batch, Forall_take. apply (Forall_impl _ _ _ Hs). intros e He. by apply Hg2. }
  intros K3 results Hg3 Hr. apply runs_then. eapply runs_conseq; [by apply runs_acknowledge, acknowledged_delivered|].
  intros K4 [u|e] Hg4 _; [|done]. apply (fit_runs _ K4); [fitting|done].
Qed.
#[local] Hint Resolve fit_outbox_batch : standalone.

(** *** The engine and the handlers *)
Lemma fit_apply_changes changes : fit (applyPeerRefreshChanges changes).
Proof.
  induction changes as [|change changes IH]; cbn [applyPeerRefreshChanges]; fitting.
  apply fit_writing. intros s. unfold apply_change. by destruct (change_clear change).
Qed.

Lemma fit_consume : fit consumeReconcilePending.
Proof. apply fit_call. by intros K K' s _ Hs. Qed.

Lemma fit_wake reconcile : fit (wake reconcile).
Proof. by apply fit_writing. Qed.
#[local] Hint Resolve fit_apply_changes fit_consume fit_wake : standalone.

Lemma fit_busy {A} (p : sp A) : fit p -> fit (while_busy p).
Proof. intros Hp. unfold while_busy. fitting. Qed.

Lemma fit_background reconcile : fit (runBackgroundPass cfg GOMAXPROCS reconcile).
Proof. apply fit_busy. unfold refresh_views. fitting. Qed.

Lemma fit_idle reconcile : fit (runUntilIdle cfg GOMAXPROCS reconcile).
Proof.
  apply fit_busy. generalize runtimeVersionRetryLimit. intros passes. revert reconcile.
  induction passes as [|passes IH]; intros reconcile; cbn [idle_passes];
    unfold refresh_views, dispatchRuntimeOutboxOwned, dispatchQueuedActivePeerRefreshesOwned; fitting.
Qed.
#[local] Hint Resolve fit_background fit_idle : standalone.

Lemma fit_engine_dispatch changes wait reconcile : fit (engine_dispatch cfg GOMAXPROCS changes wait reconcile).
Proof. unfold engine_dispatch. fitting. Qed.

Lemma fit_submit changes wait reconcile : fit (submit_dispatch changes wait reconcile).
Proof. unfold submit_dispatch. fitting. Qed.

Lemma fit_tolerate r : fit (tolerate r).
Proof. unfold tolerate. fitting. Qed.
#[local] Hint Resolve fit_engine_dispatch fit_submit fit_tolerate : standalone.

Lemma fit_transition nodeID state at_ fired : fit (applyLivenessTransition cfg nodeID state at_ fired).
Proof. unfold applyLivenessTransition. apply fit_then; [apply fit_retry|]; fitting. Qed.
#[local] Hint Resolve fit_transition : standalone.

Lemma fit_bootstrap cmd : fit (server_Bootstrap cfg GOMAXPROCS cmd).
Proof.
  unfold server_Bootstrap. destruct (reconfigure_bootstrap cmd) eqn:Hk; cbn [negb]; [|fitting].
  apply fit_then; [|fitting]. apply fit_call. intros K. unfold call_ok. unfold reconfigure_bootstrap in Hk. by destruct (cmd_Kind cmd).
Qed.

Lemma fit_membership cmd kind : fit (applyMembershipMutation cfg GOMAXPROCS cmd kind).
Proof.
  unfold applyMembershipMutation. destruct (cmd_Kind cmd) eqn:Hk; fitting.
Qed.
#[local] Hint Resolve fit_membership : standalone.

Lemma fit_register reg : fit (RegisterNode cfg GOMAXPROCS reg).
Proof. unfold RegisterNode. fitting. apply fit_retry. fitting. Qed.

Lemma fit_evaluate : fit (EvaluateLiveness cfg GOMAXPROCS).
Proof.
  assert (forall liveness nodeIDs now, fit (evaluate_nodes cfg GOMAXPROCS liveness nodeIDs now)) as Hnodes.
  { intros liveness nodeIDs now. induction nodeIDs as [|nodeID nodeIDs IH]; cbn [evaluate_nodes]; unfold judge, bury; fitting. }
  unfold EvaluateLiveness. fitting.
Qed.

Lemma fit_progress reduce kind nodeID slot commandID : fit (apply_progress cfg reduce kind nodeID slot commandID).
Proof. unfold apply_progress, retryOnRuntimeSlotProgressVersionMismatch. apply fit_then; [apply fit_retry|]; fitting. Qed.

Lemma fit_heartbeat status : fit (ReportNodeHeartbeat cfg status).
Proof.
  assert (forall observedAt, fit (become_ready cfg status observedAt)) as Hready.
  { intros observedAt. unfold become_ready. apply fit_then; [apply fit_retry|]; fitting. }
  unfold ReportNodeHeartbeat. fitting.
Qed.

Lemma fit_recovered report : fit (ReportNodeRecovered cfg GOMAXPROCS report).
Proof.
  assert (forall state nodeID replicas, fit (recover_replicas cfg state nodeID replicas)) as Hall.
  { intros state nodeID replicas. induction replicas as [|recovered replicas IH]; cbn [recover_replicas];
      unfold recover_one, resumeRecoveredReplica, recoverReplica, dropRecoveredReplica; fitting. }
  unfold ReportNodeRecovered, markUnavailableReplicas. fitting.
Qed.
#[local] Hint Resolve fit_bootstrap fit_register fit_evaluate fit_progress fit_heartbeat fit_recovered : standalone.

Lemma fit_handler r : fit (handler cfg GOMAXPROCS r).
Proof.
  destruct r; unfold handler, applyReplicaReadyDirect, applyReplicaRemovedDirect, server_RoutingSnapshot; fitting.
Qed.

Lemma fit_job_drain changes reconcile : fit (job_program cfg GOMAXPROCS (JobDrain changes reconcile)).
Proof. unfold job_program. fitting. Qed.

Lemma fit_background_pass : fit (background_pass cfg GOMAXPROCS).
Proof. unfold background_pass. fitting. Qed.
End server.

(** ** Runs of the server *)
Section runs.
Context (cfg : ServerConfig) (GOMAXPROCS : Z) {S : Type} `{StoreLaws S}.
Context (Hadmits : forall cmd, admits_command cmd).

Definition outbox (w : world S) : list OutboxEntry := rt_Outbox (run_state (w_runtime w)).

(** A step, while the log has room. *)
Definition moves (w w' : world S) : Prop :=
  rt_LastLogIndex (run_state (w_runtime w)) < u64_mod - 1 /\ world_moves cfg GOMAXPROCS w w'.

Definition opened (w : world S) : Prop :=
  exists r nodes, fresh_runtime r /\ w = start r (open_fields cfg nodes (run_state r)).

(** The entry has been in the outbox on the way from [w0] to [w]. *)
Definition had (w0 w : world S) (e : OutboxEntry) : Prop := exists w1, rtc moves w0 w1 /\ rtc moves w1 w /\ e ∈ outbox w1.

Definition K_of (L : OutboxEntry -> Prop) (w : world S) : known := {| k_listed := L; k_done := fun d => d ∈ w_delivered w |}.

Definition thread_fit (K : known) (t : thread) : Prop :=
  match t with Running p => runs K p (fun _ _ => True) | Waiting k => forall r, runs K (k r) (fun _ _ => True) end.

Definition job_fit (K : known) (j : option nat * job) : Prop :=
  match j.2 with JobCall p => runs K p (fun _ _ => True) | JobDrain _ _ => True end.

Record world_ok (L : OutboxEntry -> Prop) (w : world S) : Prop := {
  wk_runtime : rt_reachable (w_runtime w);
  wk_listed : Forall L (outbox w);
  wk_server : server_ok (K_of L w) (w_server w);
  wk_threads : Forall (thread_fit (K_of L w)) (w_threads w);
  wk_queue : Forall (job_fit (K_of L w)) (w_queue w);
  wk_engine : forall ticket p, w_engine w = Some (ticket, p) -> runs (K_of L w) p (fun _ _ => True);
}.

(** What a call does to the runtime. *)
Lemma answer_runtime K e {X} (c : server_call X) r s x r' s' :
  call_ok K c -> answer e c r s = Some (x, r', s') ->
  r' = r \/ exists cmd method out, accepts (cmd_Kind cmd) method /\ method r cmd = Ok (r', out) /\
    (cmd_Kind cmd = CommandKindAcknowledgeOutbox -> forall a, cmd_AcknowledgeOutbox cmd = Some a -> Forall (delivered_id K) (outboxAckEntryIDs a)).
Proof.
  intros Hc Ha. destruct c; cbn [answer] in Ha; try discriminate Ha; try (injection Ha as <- <- <-; by left).
  all: try match type of Ha with context [run_method _ ?out] => destruct out as [[r1 a1]|e1] eqn:Hm end;
    cbn [run_method] in Ha; injection Ha as <- <- <-; [|by left]; right; cbn [call_ok] in Hc.
  - exists cmd, Bootstrap, a1. rw Hc. by split_and!.
  - exists cmd, Reconfigure, a1. rw Hc. by split_and!.
  - rw (proj1 (version_methods_agree r cmd)) in Hm. apply bind_Ok in Hm as ([r2 out] & Hm & [= <- <-]).
    exists cmd, Runtime_ApplyProgress, out. rw Hc. by split_and!.
  - exists cmd, MarkNodeReady, a1. rw Hc. by split_and!.
  - exists cmd, ApplyLiveness, a1. rw Hc. by split_and!.
  - destruct Hc as [Hk Hids]. rw (proj2 (version_methods_agree r cmd)) in Hm. apply bind_Ok in Hm as ([r2 out] & Hm & [= <- <-]).
    exists cmd, AcknowledgeOutbox, out. rw Hk. by split_and!.
Qed.

(** What the answer tells the program, and what it leaves of the fields. *)
Lemma answer_spec K e {X} (c : server_call X) r s x r' s' :
  call_ok K c -> server_ok K s -> Forall (k_listed K) (rt_Outbox (run_state r)) ->
  (forall d, d ∈ delivery e c -> k_done K d) -> answer e c r s = Some (x, r', s') -> answer_ok K c x /\ server_ok K s'.
Proof.
  intros Hc Hs Hl Hd Ha. destruct c; cbn [answer] in Ha;
    try match type of Ha with context [run_method r ?out] => destruct (run_method r out) as [a1 r1] end;
    try discriminate Ha; injection Ha as <- <- <-; cbn; try done.
  - split; [|done]. intros Hn. apply Hd. cbn. rw Hn. by left.
  - split; [by exists s|by apply Hc].
Qed.

Lemma thread_fit_grows K K' t : grows K K' -> thread_fit K t -> thread_fit K' t.
Proof. intros Hg. destruct t as [p|k]; cbn; [by apply runs_grows|]. intros Hk r. by apply (runs_grows K). Qed.

Lemma job_fit_grows K K' j : grows K K' -> job_fit K j -> job_fit K' j.
Proof. intros Hg. destruct j as [ticket [p|changes reconcile]]; cbn; [by apply runs_grows|done]. Qed.

Lemma room_step r r' cmd method out : rt_reachable r -> rt_LastLogIndex (run_state r) < u64_mod - 1 ->
  accepts (cmd_Kind cmd) method -> method r cmd = Ok (r', out) -> rt_reachable r'.
Proof.
  intros (r0 & Hf & Hs) Hlt Hm Hr. exists r0. split; [done|]. eapply rtc_r; [exact Hs|].
  by apply (step_command r cmd method r' out).
Qed.

(** The world after a call, with the entries its outbox has now added to those
    it has had. *)
Definition listed_with (L : OutboxEntry -> Prop) (w : world S) : OutboxEntry -> Prop := fun e => L e \/ e ∈ outbox w.

Lemma advance_ok L e {X} (c : server_call X) k (w : world S) p w' :
  world_ok L w -> rt_LastLogIndex (run_state (w_runtime w)) < u64_mod - 1 ->
  runs (K_of L w) (Call c k) (fun _ _ => True) -> advance e c k w = Some (p, w') ->
  let L' := listed_with L w' in
  world_ok L' w' /\ runs (K_of L' w') p (fun _ _ => True) /\ w_threads w' = w_threads w /\ w_queue w' = w_queue w /\
  w_engine w' = w_engine w /\ grows (K_of L w) (K_of L' w').
Proof.
  intros Hok Hroom [Hc Hk] Hadv. unfold advance in Hadv. destruct (answer e c _ _) as [[[x r'] s']|] eqn:Ha; [|done].
  injection Hadv as <- <-. intros L'. set (w' := _ <| w_delivered := _ |>) in *.
  assert (grows (K_of L w) (K_of L' w')) as Hg.
  { split; [by left|]. intros d Hd. cbn. apply elem_of_app. by left. }
  assert (rt_reachable r') as Hr'.
  { destruct (answer_runtime _ _ _ _ _ _ _ _ Hc Ha) as [->|(cmd & method & out & Hm & Hr & _)]; [apply Hok|].
    by apply (room_step (w_runtime w) r' cmd method out); [apply Hok|..]. }
  destruct (answer_spec (K_of L' w') e c (w_runtime w) (w_server w) x r' s') as [Hx Hs']; try done.
  { by apply (call_ok_grows (K_of L w)). }
  { apply (Forall_impl _ _ _ (wk_server _ _ Hok)). by left. }
  { apply (Forall_impl _ _ _ (wk_listed _ _ Hok)). by left. }
  { intros d Hd. cbn. apply elem_of_app. by right. }
  split_and!; [|by apply Hk|done..]. constructor; cbn [w_runtime w_server w_threads w_queue w_engine w'].
  - exact Hr'.
  - apply Forall_forall. by right.
  - exact Hs'.
  - apply (Forall_impl _ _ _ (wk_threads _ _ Hok)). intros t. by apply thread_fit_grows.
  - apply (Forall_impl _ _ _ (wk_queue _ _ Hok)). intros j. by apply job_fit_grows.
  - intros ticket p He. by apply (runs_grows (K_of L w)), (wk_engine _ _ Hok ticket).
Qed.

Lemma listed_grows L (w w' : world S) : w_delivered w' = w_delivered w -> grows (K_of L w) (K_of (listed_with L w') w').
Proof. intros Hd. split; [by left|]. intros d. cbn. by rw Hd. Qed.

(** Goroutines and requests come and go while nothing else changes. *)
Lemma world_ok_jobs L (w w' : world S) :
  world_ok L w -> w_runtime w' = w_runtime w -> sv_runtimeOutbox (w_server w') = sv_runtimeOutbox (w_server w) ->
  w_delivered w' = w_delivered w -> Forall (thread_fit (K_of L w)) (w_threads w') -> Forall (job_fit (K_of L w)) (w_queue w') ->
  (forall ticket p, w_engine w' = Some (ticket, p) -> runs (K_of L w) p (fun _ _ => True)) -> world_ok (listed_with L w') w'.
Proof.
  intros Hok Hr Hs Hd Ht Hq He. pose proof (listed_grows L w w' Hd) as Hg. constructor.
  - rw Hr. apply Hok.
  - apply Forall_forall. by right.
  - unfold server_ok. rw Hs. apply (Forall_impl _ _ _ (wk_server _ _ Hok)). by left.
  - apply (Forall_impl _ _ _ Ht). intros t. by apply thread_fit_grows.
  - apply (Forall_impl _ _ _ Hq). intros j. by apply job_fit_grows.
  - intros ticket p Hp. by apply (runs_grows (K_of L w)), (He ticket).
Qed.

Lemma enqueued_job_ok L i j t (w w' : world S) :
  world_ok L w -> job_fit (K_of L w) (Some i, j) -> thread_fit (K_of L w) t -> enqueue i j t w = Some w' -> world_ok (listed_with L w') w'.
Proof.
  intros Hok Hj Ht. unfold enqueue. case_bool_decide; [|done]. intros [= <-].
  apply (world_ok_jobs L w); try done; cbn [w_threads w_queue w_engine].
  - apply Forall_insert; [apply Hok|done].
  - apply Forall_app_2; [apply Hok|by constructor].
  - apply Hok.
Qed.

(** What a step does to the outbox: nothing, or one command commits, which if
    it acknowledges entries names delivered ones. *)
Definition outbox_change (L : OutboxEntry -> Prop) (w w' : world S) : Prop :=
  outbox w' = outbox w \/
  exists cmd, commits (w_runtime w) cmd (w_runtime w') /\
    (cmd_Kind cmd = CommandKindAcknowledgeOutbox -> forall a, cmd_AcknowledgeOutbox cmd = Some a ->
     Forall (delivered_id (K_of L w)) (outboxAckEntryIDs a)).

Lemma advance_change L e {X} (c : server_call X) k (w : world S) p w' :
  world_ok L w -> call_ok (K_of L w) c -> advance e c k w = Some (p, w') -> outbox_change L w w'.
Proof.
  intros Hok Hc Hadv. unfold advance in Hadv. destruct (answer e c _ _) as [[[x r'] s']|] eqn:Ha; [|done].
  injection Hadv as <- <-.
  destruct (answer_runtime _ _ _ _ _ _ _ _ Hc Ha) as [->|(cmd & method & out & Hm & Hr & Hids)]; [by left|].
  destruct (command_commits (w_runtime w) cmd method r' out) as [->|[Hcm _]]; [|done..|by left|].
  - apply du_normal, rt_reachable_durable, Hok.
  - right. by exists cmd.
Qed.

Lemma world_ok_threads L (w : world S) threads :
  world_ok L w -> Forall (thread_fit (K_of L w)) threads -> world_ok L (w <| w_threads := threads |>).
Proof. intros [] Ht. by constructor. Qed.

Lemma world_ok_engine L (w : world S) ticket p :
  world_ok L w -> runs (K_of L w) p (fun _ _ => True) -> world_ok L (w <| w_engine := Some (ticket, p) |>).
Proof. intros [] Hp. constructor; try done. by intros ? ? [= <- <-]. Qed.

Lemma suspend_fit K {X} (c : server_call X) k j k' :
  runs K (Call c k) (fun _ _ => True) -> suspend c k = Some (j, k') -> (exists changes reconcile, j = JobDrain changes reconcile) /\ thread_fit K (Waiting k').
Proof.
  intros [_ Hk]. destruct c; cbn; try done. intros [= <- <-]. split; [by eexists _, _|].
  intros r. by apply Hk.
Qed.

Lemma thread_step_ok L i e (w w' : world S) :
  world_ok L w -> rt_LastLogIndex (run_state (w_runtime w)) < u64_mod - 1 -> thread_step i e w = Some w' ->
  world_ok (listed_with L w') w' /\ outbox_change L w w'.
Proof.
  intros Hok Hroom. unfold thread_step. destruct (w_threads w !! i) as [[[r|X c k]|]|] eqn:Hi; try done.
  assert (runs (K_of L w) (Call c k) (fun _ _ => True)) as Hrun by exact (Forall_lookup_1 _ _ _ _ (wk_threads _ _ Hok) Hi).
  destruct (suspend c k) as [[j k']|] eqn:Hs.
  - destruct (suspend_fit _ _ _ _ _ Hrun Hs) as [(changes & reconcile & ->) Hk]. destruct (env_ended e).
    { intros [= <-]. split; [|by left]. apply (world_ok_jobs L w); try done; try apply Hok. apply Forall_insert; [apply Hok|apply Hk]. }
    intros He. split.
    + by apply (enqueued_job_ok L i (JobDrain changes reconcile) (Waiting k') w).
    + left. unfold enqueue in He. case_bool_decide; [|done]. by injection He as <-.
  - intros ([p w1] & Hadv & [= <-])%bind_Some.
    destruct (advance_ok L e c k w p w1 Hok Hroom Hrun Hadv) as (Hok1 & Hp & Ht & _ & _ & Hg). split.
    + apply world_ok_threads; [exact Hok1|]. apply Forall_insert; [apply Hok1|exact Hp].
    + exact (advance_change L e c k w p w1 Hok (proj1 Hrun) Hadv).
Qed.

Lemma engine_step_ok L e (w w' : world S) :
  world_ok L w -> rt_LastLogIndex (run_state (w_runtime w)) < u64_mod - 1 -> engine_step e w = Some w' ->
  world_ok (listed_with L w') w' /\ outbox_change L w w'.
Proof.
  intros Hok Hroom. unfold engine_step. destruct (w_engine w) as [[ticket [r|X c k]]|] eqn:He; [| |done].
  - intros [= <-]. split; [|by left]. apply (world_ok_jobs L w); try done; [|apply Hok]. cbn [w_threads].
    destruct ticket as [i|]; [|apply Hok]. destruct (w_threads w !! i) as [[|k]|] eqn:Hi; try apply Hok.
    apply Forall_insert; [apply Hok|]. exact (Forall_lookup_1 _ _ _ _ (wk_threads _ _ Hok) Hi r).
  - pose proof (wk_engine _ _ Hok _ _ He) as Hrun. intros ([p w1] & Hadv & [= <-])%bind_Some.
    destruct (advance_ok L e c k w p w1 Hok Hroom Hrun Hadv) as (Hok1 & Hp & _). split.
    + by apply world_ok_engine.
    + exact (advance_change L e c k w p w1 Hok (proj1 Hrun) Hadv).
Qed.

Lemma open_fields_outbox nodes state : sv_runtimeOutbox (open_fields cfg nodes state) = rt_Outbox state.
Proof. unfold open_fields. cbv zeta. case_match; cbn; by rw ?cloneOutbox_id. Qed.

Lemma start_ok (L : OutboxEntry -> Prop) nodes (r : Runtime S) delivered :
  rt_reachable r -> Forall L (rt_Outbox (run_state r)) ->
  world_ok L ((start r (open_fields cfg nodes (run_state r))) <| w_delivered := delivered |>).
Proof.
  intros Hr Hl. constructor; try done. exact (eq_ind_r (Forall L) Hl (open_fields_outbox nodes (run_state r))).
Qed.

Lemma restart_ok L nodes (w : world S) r s : world_ok L w -> OpenWithConfig cfg (run_store (w_runtime w)) nodes = Ok (r, s) ->
  let w' := (start r s) <| w_delivered := w_delivered w |> in
  world_ok (listed_with L w') w' /\ outbox w' = outbox w.
Proof.
  intros Hok (? & _ & Ho)%bind_Ok. destruct (Open _) as [r0|] eqn:Hopen; [|done]. injection Ho as <- <-.
  destruct (restart_durable (w_runtime w) r0) as [_ [Hrec _]]; [apply rt_reachable_durable, Hok|done|]. cbn zeta.
  split; [|unfold clear_applied in Hrec; by injection Hrec].
  apply start_ok; [|apply Forall_forall; by right].
  destruct (wk_runtime _ _ Hok) as (r1 & Hf & Hs). exists r1. split; [done|].
  eapply rtc_r; [exact Hs|]. by apply step_restart.
Qed.

(** Every step keeps the invariant. *)
Lemma moves_ok L (w w' : world S) : world_ok L w -> moves w w' -> world_ok (listed_with L w') w' /\ outbox_change L w w'.
Proof.
  intros Hok (Hroom & ev & Hev). destruct ev as [r|i e|e| | | |nodes]; cbn [world_step] in Hev.
  - destruct (on_engine r).
    + split; [|unfold enqueue in Hev; case_bool_decide; [|done]; injection Hev as <-; by left].
      eapply (enqueued_job_ok L); [|..|exact Hev]; [|exact (fit_handler cfg GOMAXPROCS r _)|intros ? ? ?; done].
      apply world_ok_threads; [done|]. apply Forall_app_2; [apply Hok|]. by constructor.
    + injection Hev as <-. split; [|by left]. apply (world_ok_jobs L w); try done; try apply Hok. cbn [w_threads].
      apply Forall_app_2; [apply Hok|]. constructor; [|done]. exact (fit_handler cfg GOMAXPROCS r _).
  - by apply (thread_step_ok L i e).
  - by apply (engine_step_ok L e).
  - destruct (w_engine w); [done|]. destruct (w_queue w) as [|[ticket j] queue] eqn:Hq; [done|]. injection Hev as <-.
    split; [|by left]. pose proof (wk_queue _ _ Hok) as Hjobs. rw Hq in Hjobs. apply Forall_cons in Hjobs as [Hj Hjobs].
    apply (world_ok_jobs L w); try done; [apply Hok|]. intros ? ? [= <- <-].
    destruct j as [p|changes reconcile]; [exact Hj|exact (fit_job_drain cfg GOMAXPROCS _ _ _)].
  - destruct (w_engine w), (cfg_HA cfg), (cfg_DisableBackgroundLoops cfg); try done. injection Hev as <-. split; [|by left].
    apply (world_ok_jobs L w); try done; try apply Hok. intros ? ? [= <- <-]. exact (fit_background_pass cfg GOMAXPROCS _).
  - destruct (is_set _ || _); [done|]. injection Hev as <-. split; [|by left].
    apply (world_ok_jobs L w); try done; try apply Hok. intros ? ? [= <- <-]. exact (fit_background_pass cfg GOMAXPROCS _).
  - destruct (OpenWithConfig _ _ _) as [[r s]|] eqn:Ho; [|done]. injection Hev as <-.
    destruct (restart_ok L nodes w r s Hok Ho) as [Hok' Hout]. split; [exact Hok'|by left].
Qed.

Lemma world_ok_weaken (L L' : OutboxEntry -> Prop) (w : world S) : (forall e, L e -> L' e) -> world_ok L w -> world_ok L' w.
Proof.
  intros HL [Hr Hl Hs Ht Hq He]. assert (grows (K_of L w) (K_of L' w)) as Hg by by split. constructor; [done|..].
  - by apply (Forall_impl _ _ _ Hl).
  - by apply (Forall_impl _ _ _ Hs).
  - apply (Forall_impl _ _ _ Ht). intros t. by apply thread_fit_grows.
  - apply (Forall_impl _ _ _ Hq). intros j. by apply job_fit_grows.
  - intros ticket p Hp. by apply (runs_grows (K_of L w)), (He ticket).
Qed.

Lemma had_moves (w0 w w' : world S) e : moves w w' -> had w0 w e -> had w0 w' e.
Proof. intros Hm (w1 & H1 & H2 & He). exists w1. split_and!; try done. eapply rtc_r; [exact H2|exact Hm]. Qed.

Lemma run_ok (w0 w : world S) : opened w0 -> rtc moves w0 w -> world_ok (had w0 w) w.
Proof.
  intros Ho Hs. assert (forall w1, rtc moves w0 w1 -> forall e, e ∈ outbox w1 -> had w0 w1 e) as Hhad.
  { intros w1 H1 e He. exists w1. split_and!; [done|apply rtc_refl|done]. }
  revert w Hs. refine (rtc_ind_r _ w0 _ _).
  - assert (Forall (had w0 w0) (outbox w0)) as Hl by (apply Forall_forall, Hhad, rtc_refl).
    destruct Ho as (r & nodes & Hf & ->). apply (start_ok _ nodes r []); [|exact Hl]. exists r. split; [done|apply rtc_refl].
  - intros w1 w2 H01 H12 Hok. apply (world_ok_weaken (listed_with (had w0 w1) w2)); [|by apply (moves_ok (had w0 w1) w1)].
    intros e [He|He]; [by apply (had_moves w0 w1)|]. apply Hhad; [|done]. eapply rtc_r; [exact H01|exact H12].
Qed.

(** A cluster stays bootstrapped, and before that nothing is to be sent. *)
Lemma clone_slots c : cs_SlotCount (cloneClusterState c) = cs_SlotCount c.
Proof. by rw cloneClusterState_eq. Qed.

Lemma next_slots c cmd : cs_SlotCount (nextClusterState c cmd) = cs_SlotCount c.
Proof.
  unfold nextClusterState, mark_ready. destruct (cmd_Kind cmd), (cmd_NodeReady cmd), (cmd_Heartbeat cmd);
    repeat case_match; by rw ?clone_slots //= ?clone_slots.
Qed.

Lemma initialized_input st : runtime_cluster (rt_Cluster st) -> isInitialized st = true -> input_wf (cloneClusterState (rt_Cluster st)).
Proof.
  intros Hc Hi. apply cluster_input_wf. unfold isInitialized in Hi. apply Z.ltb_lt in Hi.
  rw cloneClusterState_eq. destruct Hc as [?|?]; [lia|by apply ready_wf].
Qed.

Lemma executed_slots st cmd cluster plan :
  runtime_cluster (rt_Cluster st) -> executeCommand st cmd = Ok (Executed cluster plan) -> isInitialized st = true -> 0 < cs_SlotCount cluster.
Proof.
  intros Hc Hex Hi. pose proof (initialized_input st Hc Hi) as Hin.
  assert (match cmd_Kind cmd with CommandKindBootstrap | CommandKindReconfigure | CommandKindProgress => False | _ => True end -> 0 < cs_SlotCount cluster) as Hsame.
  { intros Hk. rw (execute_same _ _ _ _ Hk Hex) clone_slots. by apply Z.ltb_lt. }
  revert Hex. unfold executeCommand. intros (d & _ & Hd)%bind_Ok. destruct d; [done|].
  destruct (cmd_Kind cmd); try by apply Hsame.
  - by rw Hi in Hd.
  - rw Hi in Hd. apply bind_Ok in Hd as (? & _ & Hd). apply bind_Ok in Hd as (c & _ & Hd). apply bind_Ok in Hd as (p & Hp & [= <- _]).
    rw clone_slots. pose proof (lift_planner_sat _ _ (PlanReconfiguration_ok _ (cloneEvents (reconf_Events c)) (reconf_Policy c) Hin)) as Hs.
    exact (wf_slots _ (proj1 (res_sat_Ok _ _ _ _ Hs Hp))).
  - rw Hi in Hd. apply bind_Ok in Hd as (? & _ & Hd). apply bind_Ok in Hd as (c & _ & Hd). apply bind_Ok in Hd as (p & Hp & [= <- _]).
    rw clone_slots. pose proof (lift_planner_sat _ _ (ApplyProgress_ok _ (cloneEvent (progress_Event c)) Hin)) as Hs.
    exact (wf_slots _ (res_sat_Ok _ _ _ _ Hs Hp)).
Qed.

Lemma uninitialized_outbox (r : Runtime S) : rt_reachable r -> isInitialized (run_state r) = false -> rt_Outbox (run_state r) = [].
Proof.
  intros Hr. refine (proj2 (rt_reachable_ind (fun st => runtime_cluster (rt_Cluster st) /\ (isInitialized st = false -> rt_Outbox st = [])) r _ _ _ Hr)).
  - by split; [left|].
  - intros st cmd cluster plan _ [Hc Ho] Hex _. split.
    + apply next_runtime_cluster, clone_runtime_cluster. exact (res_sat_Ok _ _ _ _ (execute_ok st cmd Hc) Hex).
    + intros Hi. destruct (isInitialized st) eqn:Hs.
      * pose proof (executed_slots _ _ _ _ Hc Hex Hs) as Hlt. unfold isInitialized in Hi. apply Z.ltb_ge in Hi.
        cbn -[nextClusterState] in Hi. rw next_slots clone_slots in Hi. lia.
      * cbn -[nextOutbox nextSlotVersions]. rw cloneOutbox_id (Ho eq_refl). unfold nextOutbox.
        destruct (cmd_Kind cmd) eqn:Hk; try done.
        -- revert Hex. unfold executeCommand. intros (d & _ & Hd)%bind_Ok. destruct d; [done|]. by rw Hk Hs in Hd.
        -- by destruct (cmd_Progress cmd).
        -- by destruct (cmd_AcknowledgeOutbox cmd).
  - intros live rec [Hf _] [Hc Ho]. unfold clear_applied in Hf. injection Hf as _ _ Hcl _ _ _ _ Hout _. unfold isInitialized. by rw Hcl Hout.
Qed.

(** What takes an entry off the outbox. *)
Lemma outbox_dropped (r : Runtime S) cmd r' e :
  commits r cmd r' -> e ∈ rt_Outbox (run_state r) -> e ∉ rt_Outbox (run_state r') ->
  exists cluster plan, executeCommand (run_state r) cmd = Ok (Executed cluster plan) /\
  match cmd_Kind cmd with
  | CommandKindBootstrap => isInitialized (run_state r) = false
  | CommandKindReconfigure => exists p, plan = Some p /\ ob_Slot e ∈ plan_Slot <$> rp_ChangedSlots p
  | CommandKindProgress => exists p, cmd_Progress cmd = Some p /\ event_Slot (progress_Event p) = ob_Slot e
  | CommandKindAcknowledgeOutbox => exists a, cmd_AcknowledgeOutbox cmd = Some a /\ ob_ID e ∈ outboxAckEntryIDs a
  | _ => False
  end.
Proof.
  intros (cluster & plan & Hex & _ & ->) He. cbn -[nextOutbox nextSlotVersions]. unfold nextOutbox. rw !cloneOutbox_id. intros Hn.
  exists cluster, plan. split; [done|].
  assert (forall f, e ∉ List.filter f (rt_Outbox (run_state r)) -> f e = false) as Hfilter.
  { intros f Hf. destruct (f e) eqn:Hfe; [|done]. destruct Hf. apply list_elem_of_In, List.filter_In. by rw list_elem_of_In in He. }
  destruct (cmd_Kind cmd) eqn:Hk; try done.
  - revert Hex. unfold executeCommand. intros (d & _ & Hd)%bind_Ok. destruct d; [done|]. rw Hk in Hd.
    apply bind_Ok in Hd as (? & Hi & _). by apply reject_Ok in Hi as [Hi _].
  - destruct plan as [p|]; [|done]. exists p. split; [done|]. revert Hn. unfold outboxFromPlan. rw cloneOutbox_id elem_of_app.
    intros Hn. assert (e ∉ List.filter (fun e => negb (bool_decide (ob_Slot e ∈ (list_to_set (plan_Slot <$> rp_ChangedSlots p) : gset Z)))) (rt_Outbox (run_state r)))
      as Hf%Hfilter by tauto. by apply negb_false_iff, bool_decide_eq_true_1, elem_of_list_to_set in Hf.
  - destruct (cmd_Progress cmd) as [p|]; [|done]. exists p. split; [done|].
    by apply Hfilter, negb_false_iff, Z.eqb_eq in Hn.
  - destruct (cmd_AcknowledgeOutbox cmd) as [a|]; [|done]. exists a. split; [done|].
    by apply Hfilter, negb_false_iff, bool_decide_eq_true_1, elem_of_list_to_set in Hn.
Qed.

(** C8. The coordinator forgets a command for a storage node only for cause.
    Over any run of the server without HA store, on a store that can hold every
    command, with handlers, engine and restarts interleaved as they like and
    nodes, clock and contexts answering anything: a step that takes an entry off
    the runtime's outbox commits one runtime command, and that command plans the
    entry's slot anew, or records progress of that slot, or acknowledges the
    entry; and an acknowledged entry is one whose command its node has carried
    out before. *)
Theorem outbox_kept_until_delivered (w0 w w' : world S) (e : OutboxEntry) :
  opened w0 -> rtc moves w0 w -> moves w w' -> e ∈ outbox w -> e ∉ outbox w' ->
  exists cmd cluster plan,
    executeCommand (run_state (w_runtime w)) cmd = Ok (Executed cluster plan) /\ commits (w_runtime w) cmd (w_runtime w') /\
    match cmd_Kind cmd with
    | CommandKindReconfigure => exists p, plan = Some p /\ ob_Slot e ∈ plan_Slot <$> rp_ChangedSlots p
    | CommandKindProgress => exists p, cmd_Progress cmd = Some p /\ event_Slot (progress_Event p) = ob_Slot e
    | CommandKindAcknowledgeOutbox =>
        exists e', ob_ID e' = ob_ID e /\ had w0 w e' /\ (ob_NodeID e', outbox_command e') ∈ w_delivered w
    | _ => False
    end.
Proof.
  intros Ho Hs Hm He Hn. pose proof (run_ok w0 w Ho Hs) as Hok.
  destruct (moves_ok _ w w' Hok Hm) as [_ [Hsame|(cmd & Hc & Hids)]]; [by rw Hsame in Hn|].
  destruct (outbox_dropped _ cmd _ e Hc He Hn) as (cluster & plan & Hex & Hwhy).
  exists cmd, cluster, plan. split_and!; [done|done|]. destruct (cmd_Kind cmd); try done.
  - unfold outbox in He. by rw (uninitialized_outbox _ (wk_runtime _ _ Hok) Hwhy) in He; apply not_elem_of_nil in He.
  - destruct Hwhy as (a & Ha & Hin). destruct (proj1 (Forall_forall _ _) (Hids eq_refl a Ha) _ Hin) as (e' & ? & ? & ?).
    by exists e'.
Qed.
End runs.

(** ** A run *)
Definition standalone_config : ServerConfig :=
  {| cfg_LivenessPolicy := {| lp_SuspectAfter := 10; lp_DeadAfter := 20; lp_FlapWindow := 0; lp_FlapThreshold := 0 |};
     cfg_ReconfigurationPolicy := {| policy_MaxChangedChains := 32 |}; cfg_StartupMaxChangedChains := 0; cfg_AsyncHotPathDispatch := false;
     cfg_DisableBackgroundLoops := false; cfg_DispatchTimeout := 0; cfg_DispatchRetryInterval := 0; cfg_RecoveryCommandTimeout := 0;
     cfg_hasNodeClientFactory := true; cfg_HA := None |}.

Definition fine : env := {| env_now := 1; env_ended := false; env_client := Ok tt; env_send := None |}.

(** A request taken by the engine, with the first calls of its program. *)
Definition served (r : server_request) (calls : nat) : list event := [EvRequest r; EvTake] ++ replicate calls (EvEngine fine).

Definition follow (evs : list event) (w : world InMemoryStore) : option (world InMemoryStore) :=
  foldl (fun w ev => w ← w; if rt_LastLogIndex (run_state (w_runtime w)) <? u64_mod - 1
                            then world_step standalone_config 4 ev w else None) (Some w) evs.

Definition standalone_first : world InMemoryStore := start fresh (open_fields standalone_config {[ "a"; "b"; "c" ]} (run_state fresh)).

Definition ran (evs : list event) : world InMemoryStore := default standalone_first (follow evs standalone_first).

Lemma memory_admits_all cmd : admits_command (S := InMemoryStore) cmd.
Proof. exact I. Qed.

Lemma standalone_opened : opened standalone_config standalone_first.
Proof. by exists fresh, {[ "a"; "b"; "c" ]}. Qed.

Lemma follow_app evs ev w : follow (evs ++ [ev]) w = (w ← follow evs w; if rt_LastLogIndex (run_state (w_runtime w)) <? u64_mod - 1
                            then world_step standalone_config 4 ev w else None).
Proof. unfold follow. by rw foldl_app. Qed.

Lemma ran_step evs ev : is_set (follow (evs ++ [ev]) standalone_first) = true -> moves standalone_config 4 (ran evs) (ran (evs ++ [ev])).
Proof.
  unfold ran. rw follow_app. destruct (follow evs standalone_first) as [w|]; [|done]. change (Some w ≫= ?k) with (k w). cbv beta.
  destruct (Z.ltb_spec (rt_LastLogIndex (run_state (w_runtime w))) (u64_mod - 1)); [|done].
  destruct (world_step standalone_config 4 ev w) as [w'|] eqn:Hw; [|done]. intros _. split; [done|by exists ev].
Qed.

Lemma ran_moves evs : is_set (follow evs standalone_first) = true -> rtc (moves standalone_config 4) standalone_first (ran evs).
Proof.
  induction evs as [|ev evs IH] using rev_ind; [intros _; apply rtc_refl|]. intros Hs. eapply rtc_r; [|exact (ran_step _ _ Hs)].
  apply IH. rw follow_app in Hs. by destruct (follow evs standalone_first).
Qed.

(** Node [a] of a cluster of three dies: [c] is to join the chain of [b]. *)
Definition node_died : list event :=
  served (AskBootstrap bootstrap_command) 26 ++
  served (AskMembership EventKindMarkNodeDead (reconfigure_command "kill-a" 1 [kill "a"])) 25.

Definition joining : OutboxEntry :=
  {| ob_ID := "outbox-v2-slot0-c-add_replica_as_tail"; ob_Slot := 0; ob_NodeID := "c"; ob_Kind := OutboxCommandKindAddReplicaAsTail;
     ob_CommandID := "server-v2-slot0-c-ready";
     ob_Assignment := {| asg_Slot := 0; asg_ChainVersion := 2; asg_Role := ReplicaRoleTail;
       asg_Peers := {| PredecessorNodeID := "b"; PredecessorTarget := "b"; SuccessorNodeID := ""; SuccessorTarget := "";
                       TailNodeID := ""; TailTarget := "" |} |} |}.

Lemma outbox_kept_until_delivered_witness :
  exists cmd cluster plan,
    executeCommand (run_state (w_runtime (ran node_died))) cmd = Ok (Executed cluster plan) /\
    commits (w_runtime (ran node_died)) cmd (w_runtime (ran (node_died ++ [EvEngine fine]))) /\
    match cmd_Kind cmd with
    | CommandKindReconfigure => exists p, plan = Some p /\ ob_Slot joining ∈ plan_Slot <$> rp_ChangedSlots p
    | CommandKindProgress => exists p, cmd_Progress cmd = Some p /\ event_Slot (progress_Event p) = ob_Slot joining
    | CommandKindAcknowledgeOutbox =>
        exists e', ob_ID e' = ob_ID joining /\ had standalone_config 4 standalone_first (ran node_died) e' /\
          (ob_NodeID e', outbox_command e') ∈ w_delivered (ran node_died)
    | _ => False
    end.
Proof.
  apply (outbox_kept_until_delivered standalone_config 4 memory_admits_all standalone_first (ran node_died) (ran (node_died ++ [EvEngine fine])) joining).
  - apply standalone_opened.
  - apply ran_moves. vm_compute. reflexivity.
  - apply ran_step. vm_compute. reflexivity.
  - apply list_elem_of_In. vm_compute. by left.
  - intros He%list_elem_of_In. vm_compute in He. done.
Defined.

(** ** A refresh lost

    [c] reports that it has caught up while the engine is sending [b] its
    peers; then the engine finishes, takes the signal, and ticks once more. *)
Definition caught_up : list event :=
  node_died ++ replicate 12 (EvEngine fine) ++
  [EvRequest (AskReplicaReady "c" 0 "server-v2-slot0-c-ready")] ++ replicate 12 (EvThread 2 fine) ++
  replicate 10 (EvEngine fine) ++ [EvSignal] ++ replicate 26 (EvEngine fine) ++ [EvTick] ++ replicate 17 (EvEngine fine).

(** Nothing is left to do. *)
Definition at_rest (w : world InMemoryStore) : Prop :=
  w_engine w = None /\ w_queue w = [] /\ outbox w = [] /\ sv_activePeerRefresh (w_server w) = ∅ /\ sv_signal (w_server w) = false.

(** The tails that the peer updates carried out by a node have named. *)
Definition told_tails (nodeID : string) (w : world InMemoryStore) : list string :=
  omap (fun d : string * node_command =>
    match d.2 with
    | SendUpdateChainPeers a => if String.eqb d.1 nodeID then Some (TailNodeID (asg_Peers a)) else None
    | _ => None
    end) (w_delivered w).

(** The engine clears the refresh it has sent, and with it the newer one that
    the report of a caught-up replica has queued meanwhile: the server comes to
    rest with [c] the tail of the slot, for the runtime and for the clients,
    while [b] has only been told that [b] is the tail, and [c] nothing. *)
Theorem concurrent_refresh_lost :
  rtc (moves standalone_config 4) standalone_first (ran caught_up) /\ at_rest (ran caught_up) /\
  cs_Chains (rt_Cluster (run_state (w_runtime (ran caught_up)))) =
    [{| chain_Slot := 0; chain_Replicas := [{| replica_NodeID := "b"; replica_State := ReplicaStateActive |};
                                            {| replica_NodeID := "c"; replica_State := ReplicaStateActive |}] |}] /\
  route_TailNodeID <$> rs_Slots (sv_routingSnapshot (w_server (ran caught_up))) = ["c"] /\
  told_tails "b" (ran caught_up) = ["b"] /\ told_tails "c" (ran caught_up) = [].
Proof.
  split; [apply ran_moves; vm_compute; reflexivity|]. unfold at_rest. split_and!; vm_compute; reflexivity.
Qed.

(** The same report after the engine is done: both are told. *)
Definition caught_up_later : list event :=
  node_died ++ replicate 37 (EvEngine fine) ++ [EvRequest (AskReplicaReady "c" 0 "server-v2-slot0-c-ready")] ++
  replicate 7 (EvThread 2 fine) ++ [EvTake] ++ replicate 42 (EvEngine fine).

Lemma refreshed_in_turn :
  at_rest (ran caught_up_later) /\ told_tails "b" (ran caught_up_later) = ["b"; "c"] /\ told_tails "c" (ran caught_up_later) = ["c"].
Proof. unfold at_rest. split_and!; vm_compute; reflexivity. Qed.

(** ** The configured policy forgotten

    A server restarts over a cluster whose commands have set no policy, and
    ticks. *)
Definition restarted : list event := served (AskBootstrap bootstrap_command) 26 ++ [EvRestart {[ "a"; "b"; "c" ]}].
Definition ticked : list event := restarted ++ [EvTick] ++ replicate 17 (EvEngine fine).

(** Opening falls back to the policy of the configuration when the runtime has
    none; the first pass copies the runtime's empty policy over it. *)
Theorem configured_policy_forgotten :
  rtc (moves standalone_config 4) standalone_first (ran ticked) /\ at_rest (ran ticked) /\
  sv_lastPolicy (w_server (ran restarted)) = cfg_ReconfigurationPolicy standalone_config /\
  sv_lastPolicy (w_server (ran ticked)) = {| policy_MaxChangedChains := 0 |}.
Proof.
  split; [apply ran_moves; vm_compute; reflexivity|]. unfold at_rest. split_and!; vm_compute; reflexivity.
Qed.
