(* ===== verification/StandaloneLiveness.v ===== *)
(** * The engine answers every request

    The work of the engine never waits for the engine, so no request is stuck
    behind it, and every goroutine that waits is woken by its own request. *)

From S2P Require Import Prelude.
From S2P Require Import CoordTypes.
From S2P Require Import StorageTypes.
From S2P Require Import RuntimeTypes.
From S2P Require Import Runtime.
From S2P Require Import CoordServer.
From S2P Require Import RuntimeProps.
From S2P Require Import RuntimeTheorems.
From S2P Require Import HAEngine.
From S2P Require Import Standalone.
From S2P Require Import StandaloneWorld.
From S2P Require Import StandaloneTheorems.

Open Scope Z_scope.
Open Scope record_scope.

(** ** Programs that never wait for the engine *)
Definition waits {X} (c : server_call X) : bool := match c with EngineDrain _ _ => true | _ => false end.

Fixpoint quiet {A} (p : server_prog A) : Prop :=
  match p with Done _ => True | Call c k => waits c = false /\ forall x, quiet (k x) end.

Lemma quiet_bind {A B} (m : server_prog A) (f : A -> server_prog B) : quiet m -> (forall a, quiet (f a)) -> quiet (m ≫= f).
Proof. intros Hm Hf. induction m as [a|X c k IH]; cbn in *; [apply Hf|]. destruct Hm as [Hc Hk]. split; [done|]. intros x. by apply IH. Qed.

Lemma quiet_then {A B} (m : sp A) (k : A -> sp B) : quiet m -> (forall a, quiet (k a)) -> quiet (and_then m k).
Proof. intros Hm Hk. apply quiet_bind; [done|]. by intros [a|e]. Qed.

Create HintDb quiet.

(** Work through the calls of a program. *)
Ltac quieting :=
  repeat match goal with
  | |- forall _, _ => intros ?
  | |- quiet (and_then _ _) => apply quiet_then
  | |- quiet (_ ≫= _) => apply quiet_bind
  | |- quiet (Done _) => exact I
  | |- quiet (succeed _) => exact I
  | |- quiet (fail_with _) => exact I
  | |- quiet (lift _) => exact I
  | |- quiet (call _) => by split
  | |- quiet (reading _) => by split
  | |- quiet (writing _) => by split
  | |- quiet (match ?x with _ => _ end) => destruct x
  | |- quiet (let '(_, _) := ?x in _) => destruct x
  | |- quiet _ => by eauto with quiet
  end.

Lemma quiet_retry_from {V A} left_ attempt (v : V) (op : V -> State -> Z -> server_prog (V * res server_error A)) :
  (forall v current attempt, quiet (op v current attempt)) -> quiet (retry_from left_ attempt v op).
Proof. intros Hop. revert attempt v. induction left_ as [|left_ IH]; intros attempt v; cbn [retry_from]; quieting. Qed.

Lemma quiet_retry {A} (op : State -> Z -> sp A) :
  (forall current attempt, quiet (op current attempt)) -> quiet (retryOnRuntimeVersionMismatch op).
Proof. intros Hop. apply quiet_bind; [apply quiet_retry_from|]; quieting. Qed.

Lemma quiet_views : quiet syncViewsFromRuntime /\ quiet rebuildRoutingSnapshot.
Proof. unfold syncViewsFromRuntime, rebuildRoutingSnapshot. split; quieting. Qed.

Lemma quiet_sync : quiet syncViewsFromRuntime. Proof. apply quiet_views. Qed.
Lemma quiet_rebuild : quiet rebuildRoutingSnapshot. Proof. apply quiet_views. Qed.
#[local] Hint Resolve quiet_sync quiet_rebuild : quiet.

Lemma quiet_clear nodeID slot : quiet (clearUnavailable nodeID slot).
Proof. unfold clearUnavailable. quieting. Qed.

Lemma quiet_changes changes : quiet (applyPeerRefreshChanges changes).
Proof. induction changes as [|change changes IH]; cbn [applyPeerRefreshChanges]; quieting. Qed.

Lemma quiet_consume : quiet consumeReconcilePending. Proof. by split. Qed.
Lemma quiet_wake reconcile : quiet (wake reconcile). Proof. by split. Qed.
Lemma quiet_tolerate r : quiet (tolerate r). Proof. unfold tolerate. quieting. Qed.
#[local] Hint Resolve quiet_clear quiet_changes quiet_consume quiet_wake quiet_tolerate : quiet.

Section server.
Context (cfg : ServerConfig) (GOMAXPROCS : Z).

Lemma quiet_policy : quiet (reconfigurationPolicy cfg).
Proof. unfold reconfigurationPolicy. quieting. Qed.

Lemma quiet_client nodeID : quiet (clientForNodeID cfg nodeID).
Proof. unfold clientForNodeID. quieting. Qed.
#[local] Hint Resolve quiet_policy quiet_client : quiet.

Lemma quiet_send otherwise nodeID c : quiet (send_command cfg otherwise nodeID c).
Proof. unfold send_command. quieting. Qed.
#[local] Hint Resolve quiet_send : quiet.

Lemma quiet_outbox_batch maxEntries : quiet (dispatchRuntimeOutboxBatchOwned cfg GOMAXPROCS maxEntries).
Proof.
  assert (forall several entries, quiet (dispatch_batch cfg several entries)) as Hbatch.
  { intros several entries. induction entries as [|entry entries IH]; cbn [dispatch_batch]; unfold dispatchRuntimeOutboxEntry; quieting. }
  assert (forall ids, quiet (acknowledge ids)) as Hack.
  { intros ids. unfold acknowledge. destruct ids; [done|]. apply quiet_then; [apply quiet_retry|]; quieting. }
  unfold dispatchRuntimeOutboxBatchOwned. quieting.
Qed.

Lemma quiet_refreshes maxSlots : quiet (dispatchQueuedActivePeerRefreshesBatchOwned cfg GOMAXPROCS maxSlots).
Proof.
  assert (forall state slot chain replicas remaining firstErr, quiet (update_peers cfg state slot chain replicas remaining firstErr)) as Hup.
  { intros state slot chain replicas. induction replicas as [|replica replicas IH]; cbn [update_peers]; quieting. }
  assert (forall several states slots, quiet (refresh_batch cfg several states slots)) as Hbatch.
  { intros several states slots. induction slots as [|slot slots IH]; cbn [refresh_batch];
      unfold refresh_slot, shouldDispatchActivePeerRefresh, dispatchActivePeerUpdates; quieting. }
  assert (forall outcomes, quiet (settle_refreshes outcomes)) as Hsettle.
  { intros outcomes. induction outcomes as [|[slot outcome] outcomes IH]; cbn [settle_refreshes]; quieting. }
  unfold dispatchQueuedActivePeerRefreshesBatchOwned. quieting.
Qed.

Lemma quiet_reconcile : quiet (reconcileState cfg).
Proof. unfold reconcileState. apply quiet_bind; [apply quiet_retry_from; unfold reconcile_attempt|]; quieting. Qed.
#[local] Hint Resolve quiet_outbox_batch quiet_refreshes quiet_reconcile : quiet.

Lemma quiet_idle reconcile : quiet (runUntilIdle cfg GOMAXPROCS reconcile).
Proof.
  unfold runUntilIdle, while_busy. generalize runtimeVersionRetryLimit. intros passes.
  assert (forall reconcile, quiet (idle_passes cfg GOMAXPROCS passes reconcile)) as Hp; [|quieting].
  induction passes as [|passes IH]; cbn [idle_passes];
    unfold refresh_views, dispatchRuntimeOutboxOwned, dispatchQueuedActivePeerRefreshesOwned; quieting.
Qed.
#[local] Hint Resolve quiet_idle : quiet.

Lemma quiet_engine_dispatch changes wait reconcile : quiet (engine_dispatch cfg GOMAXPROCS changes wait reconcile).
Proof. unfold engine_dispatch. quieting. Qed.

Lemma quiet_transition nodeID state at_ fired : quiet (applyLivenessTransition cfg nodeID state at_ fired).
Proof. unfold applyLivenessTransition. apply quiet_then; [apply quiet_retry|]; unfold livenessRecord; quieting. Qed.
#[local] Hint Resolve quiet_engine_dispatch quiet_transition : quiet.

Lemma quiet_membership cmd kind : quiet (applyMembershipMutation cfg GOMAXPROCS cmd kind).
Proof. unfold applyMembershipMutation. quieting. Qed.
#[local] Hint Resolve quiet_membership : quiet.

Lemma quiet_evaluate : quiet (EvaluateLiveness cfg GOMAXPROCS).
Proof.
  assert (forall liveness nodeIDs now, quiet (evaluate_nodes cfg GOMAXPROCS liveness nodeIDs now)) as Hnodes.
  { intros liveness nodeIDs now. induction nodeIDs as [|nodeID nodeIDs IH]; cbn [evaluate_nodes]; unfold judge, bury; quieting. }
  unfold EvaluateLiveness. quieting.
Qed.

Lemma quiet_recovered report : quiet (ReportNodeRecovered cfg GOMAXPROCS report).
Proof.
  assert (forall state nodeID replicas, quiet (recover_replicas cfg state nodeID replicas)) as Hall.
  { intros state nodeID replicas. induction replicas as [|recovered replicas IH]; cbn [recover_replicas];
      unfold recover_one, resumeRecoveredReplica, recoverReplica, dropRecoveredReplica; quieting. }
  unfold ReportNodeRecovered, markUnavailableReplicas. quieting.
Qed.

Lemma quiet_register reg : quiet (RegisterNode cfg GOMAXPROCS reg).
Proof. unfold RegisterNode. quieting. apply quiet_retry. quieting. Qed.
#[local] Hint Resolve quiet_evaluate quiet_recovered quiet_register : quiet.

(** The requests handed to the engine, its drains and its own passes. *)
Lemma quiet_handler r : on_engine r = true -> quiet (handler cfg GOMAXPROCS r).
Proof. destruct r; intros Hr; try discriminate Hr; unfold handler, server_Bootstrap; quieting. Qed.

Lemma quiet_drain changes reconcile : quiet (job_program cfg GOMAXPROCS (JobDrain changes reconcile)).
Proof. unfold job_program. quieting. Qed.

Lemma quiet_background : quiet (background_pass cfg GOMAXPROCS).
Proof. unfold background_pass, runBackgroundPass, while_busy, refresh_views. quieting. Qed.
End server.

(** ** Who waits for what *)
Section runs.
Context (cfg : ServerConfig) (GOMAXPROCS : Z) {S : Type} `{StoreOps S}.

(** The goroutines whose requests the engine serves or has queued. *)
Definition tickets (w : world S) : list nat :=
  match w_engine w with Some (Some i, _) => [i] | _ => [] end ++ omap fst (w_queue w).

Definition waiting (w : world S) (i : nat) : Prop := exists k, w_threads w !! i = Some (Waiting k).

Record requests_ok (w : world S) : Prop := {
  rq_once : NoDup (tickets w);
  rq_waiting : forall i, i ∈ tickets w <-> waiting w i;
  rq_engine : forall ticket p, w_engine w = Some (ticket, p) -> quiet p;
  rq_queue : Forall (fun j => quiet (job_program cfg GOMAXPROCS j.2)) (w_queue w);
}.

Lemma advance_frame e {X} (c : server_call X) k (w : world S) p w' : advance e c k w = Some (p, w') ->
  w_threads w' = w_threads w /\ w_queue w' = w_queue w /\ w_engine w' = w_engine w /\ exists x, p = k x.
Proof.
  unfold advance. destruct (answer e c _ _) as [[[x r] s]|]; [|done]. intros [= <- <-]. split_and!; try done. by exists x.
Qed.

Lemma waiting_same (w w' : world S) : w_threads w' = w_threads w -> forall i, waiting w' i <-> waiting w i.
Proof. intros Hw i. unfold waiting. by rw Hw. Qed.

(** A goroutine that runs goes on running. *)
Lemma waiting_running (w w' : world S) i p q :
  w_threads w !! i = Some (Running p) -> w_threads w' = <[i := Running q]> (w_threads w) -> forall j, waiting w' j <-> waiting w j.
Proof.
  intros Hi Hw j. unfold waiting. rw Hw. destruct (decide (i = j)) as [<-|Hne].
  - rw list_lookup_insert_eq; [by apply lookup_lt_Some in Hi|]. rw Hi. by split; intros [k [=]].
  - by rw list_lookup_insert_ne.
Qed.

(** A goroutine that does not wait hands the engine a request and waits. *)
Lemma requests_enqueue (w w1 : world S) i j k :
  requests_ok w -> ~ waiting w i -> quiet (job_program cfg GOMAXPROCS j) -> (i < length (w_threads w1))%nat ->
  w_queue w1 = w_queue w -> w_engine w1 = w_engine w -> (forall i', i' <> i -> w_threads w1 !! i' = w_threads w !! i') ->
  forall w', enqueue i j (Waiting k) w1 = Some w' -> requests_ok w'.
Proof.
  intros [Hn Hw He Hq] Hi Hj Hlt Hq1 He1 Ht w'. unfold enqueue. case_bool_decide; [|done]. intros [= <-].
  set (w' := w1 <| w_queue := _ |> <| w_threads := _ |>).
  assert (tickets w' = tickets w ++ [i]) as Htk.
  { unfold tickets. change (w_engine w') with (w_engine w1). change (w_queue w') with (w_queue w1 ++ [(Some i, j)]).
    by rw He1 Hq1 omap_app app_assoc. }
  constructor.
  - rw Htk. apply NoDup_app. split_and!; [done| |apply NoDup_singleton]. by intros x Hx%Hw ->%list_elem_of_singleton.
  - intros i'. rw Htk elem_of_app list_elem_of_singleton Hw. unfold waiting. change (w_threads w') with (<[i := Waiting k]> (w_threads w1)).
    destruct (decide (i' = i)) as [->|Hne].
    + rw list_lookup_insert_eq; [lia|]. split; [by exists k|by right].
    + rw list_lookup_insert_ne; [by apply not_eq_sym|]. rw Ht //. split; [by intros [?|?]|by left].
  - intros ticket p. change (w_engine w') with (w_engine w1). rw He1. apply He.
  - change (w_queue w') with (w_queue w1 ++ [(Some i, j)]). rw Hq1. apply Forall_app_2; [done|]. by constructor.
Qed.

Lemma requests_start r s delivered : requests_ok ((start r s) <| w_delivered := delivered |>).
Proof.
  constructor; [apply NoDup_nil_2| |done|done]. intros i. unfold tickets, waiting. cbn. split; [by intros ?%not_elem_of_nil|].
  intros [k Hk]. by rw lookup_nil in Hk.
Qed.

(** Worlds that differ in neither tickets nor waiting goroutines. *)
Lemma requests_same (w w' : world S) : requests_ok w -> tickets w' = tickets w -> (forall i, waiting w' i <-> waiting w i) ->
  (forall ticket p, w_engine w' = Some (ticket, p) -> quiet p) ->
  Forall (fun j => quiet (job_program cfg GOMAXPROCS j.2)) (w_queue w') -> requests_ok w'.
Proof. intros [Hn Hw He Hq] Ht Hw' He' Hq'. constructor; try done; rw Ht //. intros i. by rw Hw Hw'. Qed.

Lemma requests_thread i e (w w' : world S) : requests_ok w -> thread_step i e w = Some w' -> requests_ok w'.
Proof.
  intros Hok. unfold thread_step. destruct (w_threads w !! i) as [[[r|X c k]|]|] eqn:Hi; try done.
  destruct (suspend c k) as [[j k']|] eqn:Hs.
  - destruct (env_ended e).
    { intros [= <-]. apply (requests_same w); try done; try apply Hok. eapply waiting_running; [exact Hi|reflexivity]. }
    apply (requests_enqueue w w i); try done.
    + intros [k0 Hk]. congruence.
    + destruct c; try done. injection Hs as <- _. apply quiet_drain.
    + by apply lookup_lt_Some in Hi.
  - intros ([p w1] & Hadv & [= <-])%bind_Some. destruct (advance_frame e c k w p w1 Hadv) as (Ht & Hq & He & _).
    apply (requests_same w); try done.
    + unfold tickets. cbn -[omap]. by rw Hq He.
    + apply (waiting_running w _ i (Call c k) p Hi). cbn. by rw Ht.
    + cbn. rw He. apply Hok.
    + cbn. rw Hq. apply Hok.
Qed.

(** The goroutines once the engine has answered. *)
Definition woken (ticket : option nat) (r : res server_error server_reply) (threads : list thread) : list thread :=
  match ticket with
  | Some i => match threads !! i with Some (Waiting k) => <[i := Running (k r)]> threads | _ => threads end
  | None => threads
  end.

Lemma requests_engine e (w w' : world S) : requests_ok w -> engine_step e w = Some w' -> requests_ok w'.
Proof.
  intros Hok. unfold engine_step. destruct (w_engine w) as [[ticket [r|X c k]]|] eqn:He; [| |done].
  - intros [= <-]. destruct ticket as [i|]; [|by apply (requests_same w); try apply Hok; unfold tickets; rw ?He].
    destruct Hok as [Hn Hw Hq' Hq]. unfold tickets in Hn, Hw. rw He in Hn, Hw. apply NoDup_cons in Hn as [Hi Hn].
    assert (waiting w i) as [k Hk] by (apply Hw; by left). rw Hk. constructor; [exact Hn| |done|exact Hq].
    intros j. change (tickets _) with (omap fst (w_queue w)). unfold waiting. cbn [w_threads].
    change (w_threads _) with (<[i := Running (k r)]> (w_threads w)). destruct (decide (i = j)) as [<-|Hne].
    + rw list_lookup_insert_eq; [by apply lookup_lt_Some in Hk|]. split; [done|by intros [k' [=]]].
    + rw list_lookup_insert_ne //. specialize (Hw j). unfold waiting in Hw. rw -Hw /= elem_of_cons. naive_solver.
  - intros ([p w1] & Hadv & [= <-])%bind_Some. destruct (advance_frame e c k w p w1 Hadv) as (Ht & Hq & He1 & x & ->).
    apply (requests_same w); try done.
    + unfold tickets. cbn -[omap]. by rw Hq He.
    + by apply waiting_same.
    + intros t p [= <- <-]. by apply (rq_engine _ Hok _ _ He).
    + cbn. rw Hq. apply Hok.
Qed.

Lemma requests_step ev (w w' : world S) : requests_ok w -> world_step cfg GOMAXPROCS ev w = Some w' -> requests_ok w'.
Proof.
  intros Hok Hev. destruct ev as [r|i e|e| | | |nodes]; cbn [world_step] in Hev.
  - destruct (on_engine r) eqn:Hr.
    + revert Hev. apply (requests_enqueue w); try done.
      * intros [k Hk]. apply lookup_lt_Some in Hk. lia.
      * by apply quiet_handler.
      * cbn. rw length_app. cbn. lia.
      * intros i Hi. cbn. destruct (decide (i < length (w_threads w))%nat); [by rw lookup_app_l|].
        rw lookup_ge_None_2; [rw length_app; cbn; lia|]. symmetry. apply lookup_ge_None_2. lia.
    + injection Hev as <-. apply (requests_same w); try done; try apply Hok. intros i. unfold waiting. cbn.
      destruct (decide (i < length (w_threads w))%nat); [by rw lookup_app_l|]. rw lookup_app_r; [lia|].
      split; intros [k Hk]; [|apply lookup_lt_Some in Hk; lia].
      by destruct (i - length (w_threads w))%nat as [|m]; [|destruct m].
  - by apply (requests_thread i e w).
  - by apply (requests_engine e w).
  - destruct (w_engine w) eqn:He; [done|]. destruct (w_queue w) as [|[ticket j] queue] eqn:Hq; [done|]. injection Hev as <-.
    pose proof (rq_queue _ Hok) as Hjobs. rw Hq in Hjobs. apply Forall_cons in Hjobs as [Hj Hjobs].
    apply (requests_same w); try done; [unfold tickets; rw He Hq; by destruct ticket|by intros ? ? [= <- <-]].
  - destruct (w_engine w) eqn:He, (cfg_HA cfg), (cfg_DisableBackgroundLoops cfg); try done. injection Hev as <-.
    apply (requests_same w); try done; [unfold tickets; by rw He|intros ? ? [= <- <-]; apply quiet_background|apply Hok].
  - destruct (w_engine w) eqn:He; cbn in Hev; [done|]. destruct (sv_signal _); [|done]. injection Hev as <-.
    apply (requests_same w); try done; [unfold tickets; by rw He|intros ? ? [= <- <-]; apply quiet_background|apply Hok].
  - destruct (OpenWithConfig _ _ _) as [[r s]|]; [|done]. injection Hev as <-. apply requests_start.
Qed.

(** ** Turns of the engine

    The engine's goroutine alone: it takes the next request when it is idle, and
    makes the next call of its program otherwise, whatever is answered. *)
Definition engine_turn (e : env) (w : world S) : option (world S) :=
  world_step cfg GOMAXPROCS (match w_engine w with None => EvTake | Some _ => EvEngine e end) w.

Fixpoint engine_turns (n : nat) (answers : nat -> env) (w : world S) : option (world S) :=
  match n with
  | O => Some w
  | Datatypes.S n => w ← engine_turn (answers 0%nat) w; engine_turns n (fun j => answers (Datatypes.S j)) w
  end.

Lemma engine_turns_app n m answers (w : world S) :
  engine_turns (n + m) answers w = (w ← engine_turns n answers w; engine_turns m (fun j => answers (n + j)%nat) w).
Proof.
  revert answers w. induction n as [|n IH]; intros answers w; [done|]. cbn [engine_turns Nat.add].
  destruct (engine_turn (answers 0%nat) w) as [w1|]; [|done]. apply IH.
Qed.

(** The request on the engine ends, and wakes its goroutine. *)
Lemma engine_finishes ticket p : quiet p -> forall answers (w : world S), w_engine w = Some (ticket, p) ->
  exists n w' r, engine_turns n answers w = Some w' /\ w_engine w' = None /\ w_queue w' = w_queue w /\ w_threads w' = woken ticket r (w_threads w).
Proof.
  induction p as [r|X c k IH]; intros Hp answers w He.
  - eexists 1%nat, _, r. cbn [engine_turns]. unfold engine_turn. rw He. cbn [world_step]. unfold engine_step. rw He.
    split; [reflexivity|]. done.
  - destruct Hp as [Hc Hk]. destruct (answer (answers 0%nat) c (w_runtime w) (w_server w)) as [[[x r1] s1]|] eqn:Ha.
    2: by destruct c; cbn in Ha; try case_match.
    set (w1 := w <| w_runtime := r1 |> <| w_server := s1 |> <| w_delivered := w_delivered w ++ delivery (answers 0%nat) c |> <| w_engine := Some (ticket, k x) |>).
    destruct (IH x (Hk x) (fun j => answers (Datatypes.S j)) w1 eq_refl) as (n & w' & r & Hn & Hrest).
    exists (Datatypes.S n), w', r. split; [|exact Hrest]. cbn [engine_turns]. unfold engine_turn. rw He. cbn [world_step].
    unfold engine_step. rw He. unfold advance. rw Ha. exact Hn.
Qed.

Lemma engine_reaches before : forall ticket j after answers (w : world S),
  Forall (fun j => quiet (job_program cfg GOMAXPROCS j.2)) (w_queue w) -> w_engine w = None -> w_queue w = before ++ (Some ticket, j) :: after ->
  exists n w', engine_turns n answers w = Some w' /\ w_engine w' = Some (Some ticket, job_program cfg GOMAXPROCS j) /\ w_queue w' = after /\
    forall i k, i ∉ omap fst before -> w_threads w !! i = Some (Waiting k) -> w_threads w' !! i = Some (Waiting k).
Proof.
  induction before as [|[first j0] before IH]; intros ticket j after answers w Hq He Heq.
  - eexists 1%nat, _. cbn [engine_turns]. unfold engine_turn. rw He. cbn [world_step]. rw He Heq. split; [reflexivity|]. done.
  - rw Heq in Hq. apply Forall_cons in Hq as [H0 Hq].
    set (w1 := w <| w_queue := before ++ (Some ticket, j) :: after |> <| w_engine := Some (first, job_program cfg GOMAXPROCS j0) |>).
    destruct (engine_finishes first _ H0 (fun j => answers (Datatypes.S j)) w1 eq_refl) as (n1 & w2 & r & Hn1 & He2 & Hq2 & Ht2).
    destruct (IH ticket j after (fun j => answers (Datatypes.S n1 + j)%nat) w2) as (n2 & w3 & Hn2 & He3 & Hq3 & Ht3); [by rw Hq2|done|by rw Hq2|].
    exists (Datatypes.S n1 + n2)%nat, w3. split_and!; [|done|done|].
    + rw engine_turns_app. assert (engine_turns (Datatypes.S n1) answers w = Some w2) as ->; [|exact Hn2].
      cbn [engine_turns]. unfold engine_turn. rw He. cbn [world_step]. rw He Heq. exact Hn1.
    + intros i k Hi Hk. apply Ht3; [by destruct first; [apply not_elem_of_cons in Hi as [_ Hi]|]|].
      rw Ht2. unfold woken. destruct first as [i0|]; [|done]. cbn in Hi. apply not_elem_of_cons in Hi as [Hne _].
      change (w_threads w1) with (w_threads w). destruct (w_threads w !! i0) as [[|k0]|]; try done.
      rw list_lookup_insert_ne; [by apply not_eq_sym|done].
Qed.

Lemma requests_reached r0 s0 (w : world S) : rtc (world_moves cfg GOMAXPROCS) (start r0 s0) w -> requests_ok w.
Proof.
  revert w. refine (rtc_ind_r _ (start r0 s0) _ _); [exact (requests_start r0 s0 [])|].
  intros w w' _ [ev Hev] Hok. by apply (requests_step ev w).
Qed.

Lemma turns_ok n answers (w w' : world S) : requests_ok w -> engine_turns n answers w = Some w' -> requests_ok w'.
Proof.
  revert answers w. induction n as [|n IH]; intros answers w Hok; cbn [engine_turns]; [by intros [= <-]|].
  intros (w1 & H1 & Hn)%bind_Some. refine (IH _ w1 _ Hn). exact (requests_step _ w w1 Hok H1).
Qed.

Lemma queued_at i (queue : list (option nat * job)) : i ∈ omap fst queue -> NoDup (omap fst queue) ->
  exists before j after, queue = before ++ (Some i, j) :: after /\ i ∉ omap fst before.
Proof.
  intros (p & Hp & Hf)%list_elem_of_omap. destruct p as [ticket j]. cbn in Hf. subst ticket.
  apply list_elem_of_split in Hp as (before & after & ->). rw omap_app. intros (_ & Hd & _)%NoDup_app.
  exists before, j, after. split; [done|]. intros Hi. apply (Hd i Hi). by left.
Qed.

Lemma woken_own i r threads k : threads !! i = Some (Waiting k) -> woken (Some i) r threads !! i = Some (Running (k r)).
Proof. intros Hk. unfold woken. rw Hk list_lookup_insert_eq //. by apply lookup_lt_Some in Hk. Qed.

Lemma woken_other i ticket r threads k : ticket <> Some i -> threads !! i = Some (Waiting k) -> woken ticket r threads !! i = Some (Waiting k).
Proof.
  intros Hne Hk. unfold woken. destruct ticket as [i0|]; [|done]. destruct (threads !! i0) as [[|k0]|]; try done.
  rw list_lookup_insert_ne //. congruence.
Qed.

(** An idle engine comes to the goroutine's request and answers it. *)
Lemma idle_answers (w : world S) i k answers : requests_ok w -> w_engine w = None -> w_threads w !! i = Some (Waiting k) ->
  exists n w' r, engine_turns n answers w = Some w' /\ w_threads w' !! i = Some (Running (k r)).
Proof.
  intros [Hn Hw _ Hq] He Hk. unfold tickets in Hn, Hw. rw He in Hn, Hw. cbn in Hn, Hw.
  destruct (queued_at i (w_queue w)) as (before & j & after & Heq & Hb); [apply Hw; by exists k|done|].
  destruct (engine_reaches before i j after answers w Hq He Heq) as (n1 & w1 & Hn1 & He1 & _ & Ht1).
  assert (quiet (job_program cfg GOMAXPROCS j)) as Hj.
  { rw Heq in Hq. apply Forall_app in Hq as [_ Hq]. by apply Forall_cons in Hq as [Hj _]. }
  destruct (engine_finishes (Some i) _ Hj (fun j => answers (n1 + j)%nat) w1 He1) as (n2 & w2 & r & Hn2 & _ & _ & Ht2).
  exists (n1 + n2)%nat, w2, r. split; [by rw engine_turns_app Hn1|]. rw Ht2. by apply woken_own, Ht1.
Qed.

(** C9. No request is lost or stuck.  In any run of the server without HA
    store, a goroutine that waits for the engine is answered by turns of the
    engine alone, whatever the runtime, the clock, the contexts and the storage
    nodes answer meanwhile: the work of the engine never waits for the engine
    itself, and every goroutine that waits has its request in the queue or on
    the engine. *)
Theorem requests_answered (r0 : Runtime S) (s0 : Server) (w : world S) (i : nat) k (answers : nat -> env) :
  rtc (world_moves cfg GOMAXPROCS) (start r0 s0) w -> w_threads w !! i = Some (Waiting k) ->
  exists n w' r, engine_turns n answers w = Some w' /\ w_threads w' !! i = Some (Running (k r)).
Proof.
  intros Hok%requests_reached Hk. destruct (w_engine w) as [[ticket p]|] eqn:He; [|by apply idle_answers].
  destruct (engine_finishes ticket p (rq_engine _ Hok _ _ He) answers w He) as (n1 & w1 & r1 & Hn1 & He1 & Hq1 & Ht1).
  destruct (decide (ticket = Some i)) as [->|Hne].
  { exists n1, w1, r1. split; [done|]. rw Ht1. by apply woken_own. }
  assert (requests_ok w1) as Hok1 by by apply (turns_ok n1 answers w).
  destruct (idle_answers w1 i k (fun j => answers (n1 + j)%nat) Hok1 He1) as (n2 & w2 & r2 & Hn2 & Hr2).
  { rw Ht1. by apply woken_other. }
  exists (n1 + n2)%nat, w2, r2. by rw engine_turns_app Hn1.
Qed.
End runs.

(** ** A request *)
Definition asked : world InMemoryStore := ran [EvRequest (AskBootstrap bootstrap_command)].

Lemma requests_answered_witness :
  exists n w' r, engine_turns standalone_config 4 n (fun _ => fine) asked = Some w' /\ w_threads w' !! 0%nat = Some (Running (Done r)).
Proof.
  apply (requests_answered standalone_config 4 fresh (open_fields standalone_config {[ "a"; "b"; "c" ]} (run_state fresh)) asked 0%nat Done (fun _ => fine)).
  - apply rtc_once. by exists (EvRequest (AskBootstrap bootstrap_command)).
  - reflexivity.
Defined.
